(* ===== verification/_CoqProject ===== *)
-Q . S2P
Prelude.v
Hex.v
PyStr.v
Dbl.v
Round.v
RoundOps.v
RoundTwice.v
Fpu.v
FpuSpec.v
VModel.v
VInstr.v
VSpec.v
VGen.v
VGenSpec.v
VBuild.v
VRun.v
VMain.v
Gdb.v
GdbSpec.v
S6load.v
S6loadSpec.v
Fmt.v
RvTemplates.v
Rvgen.v
RvGenerate.v
RvSpec.v
RvMain.v
RvMainSpec.v
KExpr.v
KLex.v
KParse.v
KParseSpec.v
KLexSpec.v
KSym.v
KSymSpec.v
KFix.v
KConf.v
KConfSpec.v
KRound.v
KDep.v
KDepSpec.v
KTerm.v
KFinal.v
KFinalSpec.v
KSteady.v
KMenu.v
KMenuSpec.v
KCache.v
KCacheSpec.v
KInval.v
KCacheRun.v
KLinks.v
KPrint.v
KPrintSpec.v
KRepr.v
KInit.v
KInitSpec.v
Files.v
FilesSpec.v
KSync.v
KSyncSpec.v
KTools.v
KToolsSpec.v
MNode.v
MState.v
MInfo.v
MEdit.v
MMain.v
MColor.v
MDraw.v
MStateSpec.v
MNodeSpec.v
MShownSpec.v
MMainSpec.v
MNavSpec.v
MReachSpec.v
MEditSpec.v
MSpec.v
MColorSpec.v
MDrawSpec.v
