(* ===== verification/Prelude.v ===== *)
(** * Verification of the tools of riscv-from-scratch

    The repository is a RISC-V core with the software around it.  This
    development models its Python programs: the Kconfig library that
    configures a build with its text interface (tools/kconfig), the project generator (tools/rvgen),
    the random test generator and test runner of the vector unit
    (tools/vtest), the GDB server (sw/gdbstub.py), the program loader of the
    Spartan-6 board (spartan6/tools/s6load.py) with the bootloader it talks to
    (spartan6/sw/boot.c), the writers of hex images (sw/bin2hex.py,
    spartan6/sw/bin2hex.py, sw/gen_libc_expected.py), and the generator of
    floating-point test vectors (sw/gen_fpu_vectors.py).

    ** How code is modelled

    A function that can raise returns [res]: a value or a Python exception
    ([pyerr]).  Code that changes an object is a computation over a record of
    the object's attributes, [ST S A := S → res (A * S)].  Loops and recursion
    that are not structural take fuel and raise [OutOfFuel] without it; a
    theorem says for each how much is enough.  Integers are [Z] with the
    masks and shifts of the source; a float is the Standard Library's
    executable double ([SpecFloat]); text is ASCII.  Code outside the
    repository (pyserial, sockets, the random module, the shell, the file
    system, the environment) is an argument or a class with its laws.

    ** The files

    - Prelude: exceptions, the error and state monads, lemmas on lists and
      integers.  Hex, PyStr, Fmt: the parts of Python's string and number
      formatting the programs use, and the hex image writers.
    - Floating point.  Dbl: Python's floats.  Round, RoundOps, RoundTwice: what
      the operations of [SpecFloat] compute, as theorems without real numbers
      (sums, products, quotients and roots are rounded correctly), and that
      rounding a result to a double and then to a single is rounding it once.
      Fpu: gen_fpu_vectors.py, with the operations of the F extension as its
      specification; FpuSpec: every expected result it writes is right.
    - The vector test generator.  VModel is class Model of vgen.py (registers,
      memory, vector configuration), VInstr what each generated instruction
      does to it, VGen class Gen (operand draws, assembly text, the whole
      program), VBuild [build] and [main], VRun the comparison and bisection
      of run.py, VMain its [one] and [main] with the programs it starts as a
      parameter (and the theorem that --bisect ends and, for verdicts that
      depend on seed and count alone, names the first failure).  VSpec and
      VGenSpec hold the theorems: every instruction computes its elements from
      the operands before it and leaves the rest alone (stores byte by byte,
      overlapping elements included); the generator returns on every random
      stream for up to 1023 instructions, keeps its model well formed and its
      memory inside its regions; a shorter program is a prefix of a longer one,
      so the bisection finds the first failure.
    - The GDB server.  Gdb: the transport class [Dmi] with its two
      implementations, the stub, the packets and the server loop; GdbSpec: the
      stub's promises proved against the class [DmiTarget], which both
      implementations meet (memory and register packets are read back, whole
      buffers are answered packet by packet).
    - The loader.  S6load: sending, [load], the console, and the bootloader as
      a state machine fed byte by byte; S6loadSpec: an upload against the
      bootloader delivers and runs the image exactly when it fits, and is
      reported as refused otherwise.
    - The project generator.  RvTemplates (the templates), Rvgen (the
      configuration), RvGenerate (files written and exported, over a map from
      paths to contents); RvSpec: accepted configurations are valid, valid
      ones generate without an exception, exports do not touch foreign
      directories; its module RvFiles: the files of a generated project
      are known exactly.
      RvMain: building the firmware, [simulate] with the regular expressions
      that read project.mk, and [main]; RvMainSpec: what [simulate] reads is
      what [generate] wrote.
    - The Kconfig library (kconfiglib.py), in the order a configuration goes
      through it:
      - KExpr: tokens, types, expressions; KLex: the preprocessor and
        [_tokenize]; KParse: the expression parser and [eval_string].
        KParseSpec, KLexSpec: parsing and evaluating a printed expression
        gives its value; the parser always ends.
      - KMenu: reading lines and files, [_parse_block] with every statement
        and property, help texts and source statements; KSteady: what the
        tokenizer leaves alone; KMenuSpec: parsing ends, returns to the file
        it started in, and the tree lists the statements in file order.
        The second modules of these files, KSteady.KEnds and
        KMenuSpec.KMenuEnds, show that macro expansion and the tokenizer end
        on every line, and so does reading a whole configuration.
      - KFinal: [_finalize_node] on the menu tree; KFinalSpec: it ends, keeps
        nodes and their order, removes 'if' nodes, limits conditions by the
        dependencies around them, collects reverse dependencies, types
        choices.
      - KDep: [_build_dep] and the dependency loop check; KDepSpec: the graph
        is exactly the references of the properties, the check ends and
        leaves an order; KTerm: with an order the recursive properties are
        defined, and a loop the check misses.
      - KSym: the properties of symbols and choices and the operations on
        user values; KSymSpec, KFix: user values stay valid, [assignable],
        ranges, choices, independence of fuel.
      - KCache: the same properties through the cached attributes of symbols
        and choices, and the recursive invalidation; KCacheSpec: reading
        keeps the caches sound and returns what KSym's definitions return;
        KInval: invalidation ends and removes enough; KCacheRun: no sequence
        of reads and changes returns a stale value.
      - KPrint: node iteration, the orig_* properties, the Kconfig text of
        menu nodes; KPrintSpec: the orig_* properties are what was written
        (of a prompt below "visible if": what they are).
        KRepr: the [__repr__] methods and the warning about a symbol selected
        beyond its dependencies.
        KInit: the rest of [_init] (sanity checks, the message for a loop) and
        the configuration KSym computes on; KLinks: rule induction for
        finalization, types and choices of symbols, dependencies below
        choices; KInitSpec: a configuration read from files meets what the
        caches need, so nothing read from it is stale.
      - KConf: the contents of .config, minimal, header and auto.conf files,
        and loading; KConfSpec, KRound: loading never raises, what is written
        is read back.
      - Files: a tree of files and directories with the log of the files
        opened for writing (FilesSpec: its lemmas).  KSync: writing only what
        changed, the copy of the old file, [sync_deps]; KSyncSpec: exactly
        the dependency files of changed symbols are touched, among them (when
        no symbol changes its type) every symbol whose line in the header
        changed.  KTools: [load_config] with
        the search for its file, the writers, KCONFIG_ALLCONFIG and the main
        functions of genconfig, defconfig, olddefconfig and savedefconfig;
        KToolsSpec: what is saved is loaded, saving keeps the old file and
        nothing else changes, a second run of genconfig (without --file-list
        and --env-list, which write on every run) writes nothing.
    - The configuration interface (menuconfig.py).  MNode: menu nodes by their
      paths in the finished tree, which of them are shown, and their texts.
      MState: the global variables of the program as a record [Ui], the
      cursor, entering, leaving and jumping to menus, show-all mode, changing
      values.  MInfo: the texts of the information dialog.  MEdit: the edit
      box, and programs that wait for keys ([prog]: a state and the keys to
      come give a result, a wait, an exception, or a loop that did not end),
      with the input and key dialogs.  MMain: the other dialogs, the main loop
      and [menuconfig].
      - MNodeSpec, MShownSpec: the nodes shown in a menu, with KInitSpec's
        result that menus and choices of a configuration that is read are
        always entered.  MStateSpec: the selected entry exists and is in the
        window.  MMainSpec: a logic for programs that wait for keys, and that
        invariant for every dialog and the main loop.  MNavSpec: entering and
        leaving, jumps, show-all mode.  MReachSpec: sequences of keys.
        MNavSpec's module MHiddenSpec: menus that are not shown but can be
        jumped into.
        MEditSpec: the edit box and typed values.
      - MColor: styles and colors, with the curses library as a record of its
        answers and its calls logged; MColorSpec: every style the drawing
        functions use is set up with calls in range, and the color chosen is
        the nearest the terminal has.  MDraw: the sizes of the windows and
        the calls the drawing functions make on them; MDrawSpec: the windows
        share out the screen, and the main display shows the entries around
        the selected one.
      - MSpec: the promises as theorems about configurations that are read
        with [KInit.init] (the selection is always in sight and no loop spins,
        every entry can be reached, jumps land, leaving undoes entering, typed
        values are set); the menus that cannot be left; and a configuration on
        which a change ends the interface with an exception.

    ** Bounds and fuel

    The properties of symbols and choices refer to each other; [KSym.vals C n]
    answers with [n] levels of references.  [KFix] shows that an answer does
    not depend on [n], [KTerm] that six levels per rank are enough.  The
    expression parser gets three units per token, finalization two per node,
    the loop check one per symbol and choice, invalidation one per cached
    visibility, the parser of blocks two per
    line of the files; each is shown to be enough.  The
    preprocessor expands macros with fuel given by the caller: no bound can be
    given in advance, since expansions can double the line, but [KSteady.KEnds] shows
    that from some bound on it makes no difference, as the source counts the
    expansions of each variable and every expansion is behind the last one.  The loops
    of menuconfig.py take a key in every turn: more fuel than keys is enough.

    ** Not modelled

    The locale of menuconfig.py and textwrap.wrap, which is a parameter of
    the help window; the warning that reading a symbol's value can log
    ([_warn_select_unsatisfied_deps], with the values that are read only for
    its text, which KRepr gives); argument parsing and the terminal of s6load.py; threads
    (the seeds of run.py run in order) and what child processes do; symbolic
    links; text that is not ASCII and its decoding errors; the hardware
    description and the C and assembly code (but for the bootloader
    protocol). *)
From stdpp Require Export base list gmap strings pretty sets.
From Stdlib Require Export ZArith Lia Ascii.


#[global] Arguments Nat.div : simpl never.
#[global] Arguments Nat.modulo : simpl never.
#[global] Arguments Nat.mul : simpl never.
#[global] Arguments Z.mul : simpl never.
#[global] Arguments Z.add : simpl never.
#[global] Arguments Z.of_nat : simpl never.

(** ** Python exceptions and the error monad *)

(** The exceptions the modelled code can raise.  [SystemExit] carries the
    message given to [sys.exit]; [KconfigError] the message of the parser.
    [OutOfFuel] and [OutOfDepth] (of the parser of Kconfig blocks) are not
    Python's: a computation did not end within its bound. *)
Inductive pyerr :=
  | IndexError
  | KeyError (k : string)
  | ValueError
  | TypeError
  | AttributeError
  | OverflowError
  | ZeroDivisionError
  | StructError
  | FileNotFoundError (p : string)
  | FileExistsError (p : string)
  | IsADirectoryError (p : string)
  | NotADirectoryError (p : string)
  | OSError (p : string)
  | UnboundLocalError (x : string)
  | SystemExit (msg : string)
  | KconfigError (msg : string)
  | OutOfFuel
  | OutOfDepth.

Inductive res (A : Type) :=
  | Ok (a : A)
  | Err (e : pyerr).
Arguments Ok {A} a.
Arguments Err {A} e.

Definition res_bind {A B} (m : res A) (k : A → res B) : res B :=
  match m with Ok a => k a | Err e => Err e end.

Definition is_ok {A} (m : res A) : bool :=
  match m with Ok _ => true | Err _ => false end.

Declare Scope py_scope.
Delimit Scope py_scope with py.
Notation "'let*' x := c 'in' k" := (res_bind c (λ x, k))
  (at level 10, x binder, c at level 100, k at level 200) : py_scope.
Open Scope py_scope.

(** [for x in l: st = body(x, st)] with a body that may raise. *)
Fixpoint res_fold {A S} (f : S → A → res S) (s : S) (l : list A) : res S :=
  match l with
  | [] => Ok s
  | x :: l => let* s' := f s x in res_fold f s' l
  end.

(** [[f(x) for x in l]] with a body that may raise. *)
Fixpoint res_map {A B} (f : A → res B) (l : list A) : res (list B) :=
  match l with
  | [] => Ok []
  | x :: l => let* y := f x in let* ys := res_map f l in Ok (y :: ys)
  end.

Create HintDb py discriminated.

Lemma res_bind_ok {A B} (m : res A) (k : A → res B) b :
  res_bind m k = Ok b ↔ ∃ a, m = Ok a ∧ k a = Ok b.
Proof.
  destruct m as [a|e]; simpl.
  - split; [eauto|]. intros (x & Hx & Hk). by injection Hx as ->.
  - split; [done|]. by intros (x & Hx & _).
Qed.

Lemma res_bind_err {A B} (m : res A) (k : A → res B) e :
  res_bind m k = Err e ↔ m = Err e ∨ ∃ a, m = Ok a ∧ k a = Err e.
Proof.
  destruct m as [a|e']; simpl.
  - split; [eauto|]. intros [|(x & Hx & Hk)]; [done|]. by injection Hx as ->.
  - split; [intros [= ->]; auto|]. intros [[= ->]|(x & Hx & _)]; done.
Qed.

Lemma res_bind_assoc {A B C} (m : res A) (f : A → res B) (g : B → res C) :
  res_bind (res_bind m f) g = res_bind m (λ x, res_bind (f x) g).
Proof. by destruct m. Qed.

(** Breaks every successful bind of the context into its steps. *)
Ltac res_inv :=
  repeat match goal with
  | H : res_bind _ _ = Ok _ |- _ =>
      apply res_bind_ok in H; destruct H as (? & ? & ?)
  | H : Ok _ = Ok _ |- _ => injection H as H; subst
  | H : Err _ = Ok _ |- _ => discriminate H
  | H : (_, _) = (_, _) |- _ => injection H as ? ?; subst
  | p : (_ * _)%type |- _ => destruct p
  end.

Lemma res_fold_app {A S} (f : S → A → res S) s l1 l2 :
  res_fold f s (l1 ++ l2) = res_bind (res_fold f s l1) (λ s', res_fold f s' l2).
Proof.
  revert s; induction l1 as [|x l1 IH]; intros s; [done|]; simpl.
  destruct (f s x); simpl; auto.
Qed.

Lemma res_fold_id {A S} (f : S → A → res S) s l : (∀ x, x ∈ l → f s x = Ok s) → res_fold f s l = Ok s.
Proof.
  induction l as [|x l IH]; intros Hf; [done|]. cbn [res_fold]. rewrite Hf by set_solver.
  apply IH. set_solver.
Qed.

Lemma res_fold_ext {A S} (f g : S → A → res S) s l :
  (∀ s x, x ∈ l → f s x = g s x) → res_fold f s l = res_fold g s l.
Proof.
  revert s; induction l as [|x l IH]; intros s Hf; [done|]. cbn [res_fold]. rewrite Hf by set_solver.
  destruct (g s x); [|done]. cbn. apply IH. set_solver.
Qed.

(** ** State and exceptions *)

(** Methods of an object with fields [S]: a new state or an exception. *)
Definition ST (S A : Type) : Type := S → res (A * S).
#[global] Instance ST_ret S : MRet (ST S) := λ A a s, Ok (a, s).
#[global] Instance ST_bind S : MBind (ST S) := λ A B f c s, let* x := c s in f x.1 x.2.

Definition st_get {S A} (f : S → A) : ST S A := λ s, Ok (f s, s).
Definition st_put {S} (s : S) : ST S unit := λ _, Ok (tt, s).
Definition st_raise {S A} (e : pyerr) : ST S A := λ _, Err e.
Definition st_lift {S A} (r : res A) : ST S A := λ s, let* a := r in Ok (a, s).

(** [for x in l: c(x)] *)
Fixpoint st_for {S A} (l : list A) (c : A → ST S unit) : ST S unit :=
  match l with
  | [] => mret tt
  | x :: l => c x;; st_for l c
  end.

Lemma st_bind_ok {S A B} (c : ST S A) (f : A → ST S B) s b s' :
  (c ≫= f) s = Ok (b, s') ↔ ∃ a s1, c s = Ok (a, s1) ∧ f a s1 = Ok (b, s').
Proof.
  unfold mbind, ST_bind. rewrite res_bind_ok. split.
  - intros ([a s1] & ? & ?). eauto.
  - intros (a & s1 & ? & ?). by exists (a, s1).
Qed.

Lemma st_bind_run {S A B} (c : ST S A) (f : A → ST S B) s a s1 :
  c s = Ok (a, s1) → (c ≫= f) s = f a s1.
Proof. unfold mbind, ST_bind. by intros ->. Qed.

(** Total correctness of a method: it returns, and the result and the new
    state satisfy [Q]. *)
Definition st_runs {S A} (c : ST S A) (s : S) (Q : A → S → Prop) : Prop :=
  ∃ a s', c s = Ok (a, s') ∧ Q a s'.

Lemma st_runs_ret {S A} (a : A) (s : S) (Q : A → S → Prop) : Q a s → st_runs (mret a) s Q.
Proof. intros. by exists a, s. Qed.

Lemma st_runs_bind {S A B} (c : ST S A) (f : A → ST S B) s Q :
  st_runs c s (λ a s', st_runs (f a) s' Q) → st_runs (c ≫= f) s Q.
Proof.
  intros (a & s1 & E & b & s2 & E' & HQ). exists b, s2. split; [|done].
  unfold mbind, ST_bind. by rewrite E.
Qed.

Lemma st_runs_mono {S A} (c : ST S A) s (Q Q' : A → S → Prop) :
  st_runs c s Q → (∀ a s', Q a s' → Q' a s') → st_runs c s Q'.
Proof. intros (a & s1 & E & HQ) Hm. exists a, s1. auto. Qed.

Lemma st_runs_lift {S A} (r : res A) a (s : S) (Q : A → S → Prop) :
  r = Ok a → Q a s → st_runs (st_lift r) s Q.
Proof. intros -> HQ. by exists a, s. Qed.

(** Never out of fuel, from any state: the computation has no bound on its
    recursion, or one that is enough.  Found by instance search for code made
    of the monad's operations. *)
Class InTime {S A} (c : ST S A) : Prop :=
  in_time s : match c s with Ok _ => True | Err e => e ≠ OutOfFuel end.
#[global] Hint Mode InTime ! ! ! : typeclass_instances.

#[global] Instance in_time_ret {S A} (a : A) : InTime (mret (M := ST S) a).
Proof. done. Qed.
#[global] Instance in_time_get {S A} (f : S → A) : InTime (st_get f).
Proof. done. Qed.
#[global] Instance in_time_bind {S A B} (c : ST S A) (f : A → ST S B) :
  InTime c → (∀ a, InTime (f a)) → InTime (c ≫= f).
Proof.
  intros Hc Hf s. unfold mbind, ST_bind. specialize (Hc s). destruct (c s) as [[a s']|e]; [|done].
  apply Hf.
Qed.
#[global] Instance in_time_if {S A} (b : bool) (c1 c2 : ST S A) : InTime c1 → InTime c2 → InTime (if b then c1 else c2).
Proof. by destruct b. Qed.
Lemma in_time_raise {S A} e : e ≠ OutOfFuel → InTime (st_raise (S := S) (A := A) e).
Proof. by intros He s. Qed.
#[global] Hint Extern 2 (InTime (st_raise _)) => apply in_time_raise; done : typeclass_instances.
#[global] Hint Extern 3 (InTime (match ?x with _ => _ end)) => destruct x : typeclass_instances.

Lemma in_time_lift {S A} (r : res A) : r ≠ Err OutOfFuel → InTime (st_lift (S := S) r).
Proof. intros H s. unfold st_lift. destruct r as [a|e]; [done|]. cbn. congruence. Qed.

(** Loop rule: an invariant the body keeps, for every element of the list,
    holds at the end, and the loop does not raise. *)
Lemma res_fold_inv {A S} (P : S → Prop) (f : S → A → res S) l s :
  P s → (∀ s x, x ∈ l → P s → ∃ s', f s x = Ok s' ∧ P s') →
  ∃ s', res_fold f s l = Ok s' ∧ P s'.
Proof.
  revert s; induction l as [|x l IH]; intros s Hs Hf; simpl; [eauto|].
  destruct (Hf s x) as (s' & -> & Hs'); [set_solver|done|]; simpl.
  apply IH; [done|]. intros; apply Hf; set_solver.
Qed.

(** ** Lists as Python sequences: slices with non-negative bounds *)

(** [l[a:b]] and [l[a:b] = w]; the bounds clamp to the length. *)
Definition slice {A} (l : list A) (a b : nat) : list A := take (b - a) (drop a l).
Definition slice_set {A} (l : list A) (a b : nat) (w : list A) : list A :=
  take a l ++ w ++ drop (Nat.max a b) l.

(** [l[i]], raising [IndexError] outside the list. *)
Definition index {A} (l : list A) (i : nat) : res A :=
  match l !! i with Some x => Ok x | None => Err IndexError end.
(** [l[i] = x], raising [IndexError] outside the list. *)
Definition index_set {A} (l : list A) (i : nat) (x : A) : res (list A) :=
  if decide (i < length l) then Ok (<[i:=x]> l) else Err IndexError.

Section slices.
Context {A : Type}.
Implicit Types l w : list A.

Lemma length_slice l a b : length (slice l a b) = Nat.min (b - a) (length l - a).
Proof. unfold slice. by rewrite length_take, length_drop. Qed.

Lemma length_slice_full l a n : a + n ≤ length l → length (slice l a (a + n)) = n.
Proof. rewrite length_slice. lia. Qed.

Lemma lookup_slice l a b i :
  slice l a b !! i = if decide (i < b - a) then l !! (a + i) else None.
Proof.
  unfold slice. case_decide.
  - by rewrite lookup_take_lt, lookup_drop by lia.
  - by rewrite lookup_take_ge by lia.
Qed.

Lemma length_slice_set l a n w :
  length w = n → a + n ≤ length l → length (slice_set l a (a + n) w) = length l.
Proof.
  intros Hw Hn. unfold slice_set.
  rewrite !length_app, length_take, length_drop. lia.
Qed.

Lemma lookup_slice_set l a n w i :
  length w = n → a + n ≤ length l →
  slice_set l a (a + n) w !! i =
    if decide (a ≤ i < a + n) then w !! (i - a) else l !! i.
Proof.
  intros Hw Hn. unfold slice_set.
  assert (Ht : length (take a l) = a) by (rewrite length_take; lia).
  case_decide.
  - rewrite lookup_app_r by lia. rewrite lookup_app_l by lia. by rewrite Ht.
  - destruct (decide (i < a)).
    + by rewrite lookup_app_l, lookup_take_lt by lia.
    + rewrite lookup_app_r by lia. rewrite lookup_app_r by lia.
      rewrite lookup_drop. f_equal. lia.
Qed.

Lemma slice_slice_set_same l a n w :
  length w = n → a + n ≤ length l → slice (slice_set l a (a + n) w) a (a + n) = w.
Proof.
  intros Hw Hn. apply list_eq; intros i. rewrite lookup_slice.
  case_decide.
  - rewrite lookup_slice_set by done. rewrite decide_True by lia. f_equal; lia.
  - symmetry. apply lookup_ge_None. lia.
Qed.

Lemma slice_slice_set_disjoint l a n w c m :
  length w = n → a + n ≤ length l → c + m ≤ a ∨ a + n ≤ c →
  slice (slice_set l a (a + n) w) c (c + m) = slice l c (c + m).
Proof.
  intros Hw Hn Hd. apply list_eq; intros i. rewrite !lookup_slice.
  case_decide; [|done]. rewrite lookup_slice_set by done.
  rewrite decide_False by lia. done.
Qed.

Lemma Forall_slice (P : A → Prop) l a b : Forall P l → Forall P (slice l a b).
Proof. intros. unfold slice. by apply Forall_take, Forall_drop. Qed.

Lemma Forall_slice_set (P : A → Prop) l a b w :
  Forall P l → Forall P w → Forall P (slice_set l a b w).
Proof.
  intros. unfold slice_set.
  apply Forall_app; split; [by apply Forall_take|].
  apply Forall_app; split; [done|by apply Forall_drop].
Qed.

Lemma slice_all l : slice l 0 (length l) = l.
Proof. unfold slice. rewrite drop_0, Nat.sub_0_r. by apply take_ge. Qed.

Lemma slice_app_split l a b c :
  a ≤ b → b ≤ c → slice l a c = slice l a b ++ slice l b c.
Proof.
  intros. apply list_eq; intros i.
  destruct (decide (a + i < length l)) as [Hi|Hi].
  - destruct (decide (i < b - a)).
    + rewrite lookup_app_l by (rewrite length_slice; lia).
      rewrite !lookup_slice. by rewrite !decide_True by lia.
    + rewrite lookup_app_r by (rewrite length_slice; lia).
      rewrite length_slice, !lookup_slice.
      replace (b + (i - (b - a) `min` (length l - a))) with (a + i) by lia.
      destruct (decide (i < c - a)).
      * by rewrite !decide_True by lia.
      * by rewrite !decide_False by lia.
  - rewrite !(lookup_ge_None_2); [done|rewrite length_app, !length_slice; lia
                                 |rewrite length_slice; lia].
Qed.
End slices.

(** ** Bytes: little-endian integers *)

Definition is_byte (b : Z) : Prop := (0 ≤ b < 256)%Z.

(** [int.from_bytes(bs, "little")] *)
Fixpoint int_from_bytes (bs : list Z) : Z :=
  match bs with
  | [] => 0
  | b :: bs => b + 256 * int_from_bytes bs
  end%Z.

(** The [n] low bytes of [v], least significant first. *)
Fixpoint int_to_bytes (n : nat) (v : Z) : list Z :=
  match n with
  | O => []
  | S n => (v mod 256)%Z :: int_to_bytes n (v / 256)%Z
  end.

(** [v.to_bytes(n, "little")]: raises when [v] does not fit. *)
Definition to_bytes (v : Z) (n : nat) : res (list Z) :=
  if decide (0 ≤ v < 2 ^ (8 * Z.of_nat n))%Z then Ok (int_to_bytes n v)
  else Err OverflowError.

(** [v & ((1 << bits) - 1)] *)
Definition mask (v bits : Z) : Z := Z.land v (Z.ones bits).

Section bytes.
Local Open Scope Z_scope.

Lemma length_int_to_bytes n v : length (int_to_bytes n v) = n.
Proof. revert v; induction n; simpl; auto. Qed.

Lemma int_to_bytes_bytes n v : Forall is_byte (int_to_bytes n v).
Proof.
  revert v; induction n; intros v; constructor; auto.
  unfold is_byte. apply Z.mod_pos_bound. lia.
Qed.

Lemma pow256_succ n : 2 ^ (8 * Z.of_nat (S n)) = 256 * 2 ^ (8 * Z.of_nat n).
Proof.
  replace (8 * Z.of_nat (S n)) with (8 + 8 * Z.of_nat n) by lia.
  rewrite Z.pow_add_r by lia. done.
Qed.

Lemma int_from_to_bytes n v :
  int_from_bytes (int_to_bytes n v) = v mod 2 ^ (8 * Z.of_nat n).
Proof.
  revert v; induction n as [|n IH]; intros v; cbn [int_to_bytes int_from_bytes].
  - by rewrite Z.mod_1_r.
  - rewrite IH, pow256_succ.
    assert (0 < 2 ^ (8 * Z.of_nat n)) by (apply Z.pow_pos_nonneg; lia).
    rewrite (Z.rem_mul_r v 256 (2 ^ (8 * Z.of_nat n))) by lia. lia.
Qed.

Lemma int_from_bytes_bound bs :
  Forall is_byte bs → 0 ≤ int_from_bytes bs < 2 ^ (8 * Z.of_nat (length bs)).
Proof.
  induction 1 as [|b bs Hb _ IH]; cbn [int_from_bytes length].
  - done.
  - rewrite pow256_succ. unfold is_byte in Hb. lia.
Qed.

Lemma int_to_from_bytes bs :
  Forall is_byte bs → int_to_bytes (length bs) (int_from_bytes bs) = bs.
Proof.
  induction 1 as [|b bs Hb _ IH]; simpl; [done|].
  unfold is_byte in Hb. f_equal.
  - rewrite Z.mul_comm, Z.mod_add by lia. by apply Z.mod_small.
  - rewrite Z.mul_comm, Z.div_add, Z.div_small by lia. done.
Qed.

Lemma mask_mod v bits : 0 ≤ bits → mask v bits = v mod 2 ^ bits.
Proof. intros. unfold mask. by apply Z.land_ones. Qed.

Lemma mask_bound v bits : 0 ≤ bits → 0 ≤ mask v bits < 2 ^ bits.
Proof.
  intros. rewrite mask_mod by done. apply Z.mod_pos_bound, Z.pow_pos_nonneg; lia.
Qed.

Lemma mask_small v bits : 0 ≤ v < 2 ^ bits → mask v bits = v.
Proof.
  intros H. assert (0 ≤ bits).
  { destruct (Z_lt_le_dec bits 0); [|done]. rewrite Z.pow_neg_r in H; lia. }
  rewrite mask_mod by done. by apply Z.mod_small.
Qed.

Lemma mask_mask v bits : 0 ≤ bits → mask (mask v bits) bits = mask v bits.
Proof. intros. apply mask_small, mask_bound; done. Qed.

Lemma to_bytes_ok v n bs :
  to_bytes v n = Ok bs → int_from_bytes bs = v ∧ length bs = n ∧ Forall is_byte bs.
Proof.
  unfold to_bytes. case_decide; [|done]. intros; res_inv.
  rewrite int_from_to_bytes, Z.mod_small, length_int_to_bytes by done.
  auto using int_to_bytes_bytes.
Qed.
End bytes.

#[export] Hint Resolve int_to_bytes_bytes Forall_slice Forall_slice_set : py.
