(* ===== verification/Hex.v ===== *)
(** * Hexadecimal text and the hex image writers

    Python's [%0nx] formatting, [int(s, 16)], [bytes.fromhex] and
    [bytes.hex], and on top of them sw/bin2hex.py, spartan6/sw/bin2hex.py and
    sw/gen_libc_expected.py.  [readmemh] is the reader these files are written
    for: the image a $readmemh of the text leaves in memory. *)
From S2P Require Import Prelude.

Module Hex.
Local Open Scope Z_scope.

(** ** Digits *)

Definition hex_digit (d : Z) : Ascii.ascii :=
  Ascii.ascii_of_N (Z.to_N (if d <? 10 then 48 + d else 87 + d)).

(** The value of a hexadecimal digit, either case. *)
Definition digit_val (c : Ascii.ascii) : option Z :=
  let n := Z.of_N (Ascii.N_of_ascii c) in
  if (48 <=? n) && (n <=? 57) then Some (n - 48)
  else if (97 <=? n) && (n <=? 102) then Some (n - 87)
  else if (65 <=? n) && (n <=? 70) then Some (n - 55)
  else None.

(** The [n] low hexadecimal digits of [v]. *)
Fixpoint hex_fixed (n : nat) (v : Z) : string :=
  match n with
  | O => ""
  | S n => hex_fixed n (v / 16) +:+ String (hex_digit (v mod 16)) ""
  end.

(** [%0<w>x] of a natural number: at least [w] digits, as many as it takes. *)
Definition fmt_x (w : nat) (v : Z) : string :=
  hex_fixed (Nat.max w (Z.to_nat (Z.log2 v / 4) + 1)) v.

(** Plain digits, at least one. *)
Fixpoint digits_val (acc : Z) (s : string) : option Z :=
  match s with
  | EmptyString => Some acc
  | String c s => d ← digit_val c; digits_val (16 * acc + d) s
  end.

(** [bytes.hex()] and [bytes.fromhex(s)]: pairs of digits, ASCII white space
    allowed between the bytes. *)
Definition bytes_hex (bs : list Z) : string := foldr (λ b s, fmt_x 2 b +:+ s) "" bs.

Definition is_space (c : Ascii.ascii) : bool :=
  let n := Ascii.N_of_ascii c in
  N.eqb n 32 || (N.leb 9 n && N.leb n 13).

Fixpoint fromhex (s : string) : res (list Z) :=
  match s with
  | EmptyString => Ok []
  | String c s =>
      if is_space c then fromhex s else
      match s with
      | EmptyString => Err ValueError
      | String c' s =>
          match digit_val c, digit_val c' with
          | Some a, Some b => let* bs := fromhex s in Ok (16 * a + b :: bs)
          | _, _ => Err ValueError
          end
      end
  end.

(** ** int(s, 16) *)

(** White space is stripped at both ends, a sign and a [0x] prefix are
    accepted, and single underscores between digits. *)
Fixpoint lstrip (s : string) : string :=
  match s with
  | String c s' => if is_space c then lstrip s' else s
  | EmptyString => EmptyString
  end.

(** Digits and single underscores up to trailing white space; [start] is
    true when an underscore or the end is not allowed next. *)
Fixpoint int16_digits (start : bool) (acc : Z) (s : string) : res Z :=
  match s with
  | EmptyString => if start then Err ValueError else Ok acc
  | String c s' =>
      match digit_val c with
      | Some d => int16_digits false (16 * acc + d) s'
      | None =>
          if Ascii.eqb c "_"%char then
            if start then Err ValueError else int16_digits true acc s'
          else if start then Err ValueError
          else match lstrip s with EmptyString => Ok acc | _ => Err ValueError end
      end
  end.

(** After the sign: an optional [0x] prefix, which an underscore may follow. *)
Definition int16_unsigned (s : string) : res Z :=
  match s with
  | String z (String x s') =>
      if Ascii.eqb z "0"%char && (Ascii.eqb x "x"%char || Ascii.eqb x "X"%char) then
        int16_digits true 0
          (match s' with
           | String u s'' => if Ascii.eqb u "_"%char then s'' else s'
           | EmptyString => s'
           end)
      else int16_digits true 0 s
  | _ => int16_digits true 0 s
  end.

Definition int16 (s : string) : res Z :=
  match lstrip s with
  | String c s' =>
      if Ascii.eqb c "-"%char then let* v := int16_unsigned s' in Ok (- v)
      else if Ascii.eqb c "+"%char then int16_unsigned s'
      else int16_unsigned (String c s')
  | EmptyString => Err ValueError
  end.

(** ** Lemmas on digits *)

Lemma digit_val_hex_digit d : 0 ≤ d < 16 → digit_val (hex_digit d) = Some d.
Proof.
  intros H. assert (d ∈ [0;1;2;3;4;5;6;7;8;9;10;11;12;13;14;15]) as Hin.
  { destruct d as [|p|p]; [set_solver| |lia].
    do 4 (destruct p as [p|p|]; try lia; try set_solver). }
  rewrite !elem_of_cons, elem_of_nil in Hin. naive_solver.
Qed.

Lemma digits_val_app acc s1 s2 :
  digits_val acc (s1 +:+ s2) = digits_val acc s1 ≫= λ a, digits_val a s2.
Proof.
  revert acc; induction s1 as [|c s1 IH]; intros acc; simpl; [done|].
  destruct (digit_val c); simpl; [apply IH|done].
Qed.

Lemma pow16_succ n : 16 ^ Z.of_nat (S n) = 16 * 16 ^ Z.of_nat n.
Proof. rewrite Nat2Z.inj_succ, Z.pow_succ_r by lia. done. Qed.

Lemma digits_val_hex_fixed n acc v :
  digits_val acc (hex_fixed n v) = Some (acc * 16 ^ Z.of_nat n + v mod 16 ^ Z.of_nat n).
Proof.
  revert v; induction n as [|n IH]; intros v; cbn [hex_fixed].
  - simpl. f_equal. rewrite Z.mod_1_r. lia.
  - rewrite digits_val_app, IH. simpl.
    rewrite digit_val_hex_digit by (apply Z.mod_pos_bound; lia). simpl. f_equal.
    rewrite pow16_succ.
    assert (0 < 16 ^ Z.of_nat n) by (apply Z.pow_pos_nonneg; lia).
    rewrite (Z.rem_mul_r v 16 (16 ^ Z.of_nat n)) by lia. lia.
Qed.

Lemma length_hex_fixed n v : String.length (hex_fixed n v) = n.
Proof.
  revert v; induction n as [|n IH]; intros v; simpl; [done|].
  assert (∀ s t, String.length (s +:+ t) = (String.length s + String.length t)%nat) as Happ.
  { induction s; intros t; simpl; [done|]. by rewrite IHs. }
  rewrite Happ, IH. simpl. lia.
Qed.

Lemma fmt_x_width v : 0 ≤ v → v < 16 ^ Z.of_nat (Nat.max 1 (Z.to_nat (Z.log2 v / 4) + 1)).
Proof.
  intros Hv. destruct (decide (v = 0)) as [->|]; [done|].
  assert (0 ≤ Z.log2 v) by apply Z.log2_nonneg.
  replace (Z.of_nat _) with (Z.log2 v / 4 + 1) by (pose proof (Z.div_pos (Z.log2 v) 4); lia).
  change 16 with (2 ^ 4). rewrite <- Z.pow_mul_r by (pose proof (Z.div_pos (Z.log2 v) 4); lia).
  eapply Z.lt_le_trans; [apply Z.log2_spec; lia|].
  apply Z.pow_le_mono_r; [lia|]. pose proof (Z.div_mod (Z.log2 v) 4).
  pose proof (Z.mod_pos_bound (Z.log2 v) 4). lia.
Qed.

(** Formatting then reading gives the number back, whatever its size. *)
Lemma digits_val_fmt_x w acc v : 0 ≤ v →
  digits_val acc (fmt_x w v) =
    Some (acc * 16 ^ Z.of_nat (Nat.max w (Z.to_nat (Z.log2 v / 4) + 1)) + v).
Proof.
  intros Hv. unfold fmt_x. rewrite digits_val_hex_fixed. do 2 f_equal.
  apply Z.mod_small. split; [done|].
  eapply Z.lt_le_trans; [by apply fmt_x_width|].
  apply Z.pow_le_mono_r; lia.
Qed.

Lemma fmt_x_narrow w v : 0 ≤ v < 16 ^ Z.of_nat w → (0 < w)%nat → fmt_x w v = hex_fixed w v.
Proof.
  intros [Hv Hw] Hp. unfold fmt_x. f_equal.
  enough (Z.log2 v / 4 < Z.of_nat w) by (pose proof (Z.div_pos (Z.log2 v) 4 (Z.log2_nonneg v)); lia).
  apply Z.div_lt_upper_bound; [lia|].
  change 16 with (2 ^ 4) in Hw. rewrite <- Z.pow_mul_r in Hw by lia.
  destruct (decide (v = 0)) as [->|]; [simpl; lia|]. apply Z.log2_lt_pow2; lia.
Qed.

Lemma byte_hex b : is_byte b →
  fmt_x 2 b = String (hex_digit (b / 16)) (String (hex_digit (b mod 16)) "").
Proof.
  intros Hb. unfold is_byte in Hb.
  rewrite fmt_x_narrow by (simpl; lia). cbn [hex_fixed].
  rewrite (Z.mod_small (b / 16)) by (split; [apply Z.div_pos|apply Z.div_lt_upper_bound]; lia).
  done.
Qed.

Lemma hex_digit_not_space d : 0 ≤ d < 16 → is_space (hex_digit d) = false.
Proof.
  intros H. assert (d ∈ [0;1;2;3;4;5;6;7;8;9;10;11;12;13;14;15]) as Hin.
  { destruct d as [|p|p]; [set_solver| |lia].
    do 4 (destruct p as [p|p|]; try lia; try set_solver). }
  rewrite !elem_of_cons, elem_of_nil in Hin. naive_solver.
Qed.

Lemma nibbles b : is_byte b → 0 ≤ b / 16 < 16 ∧ 0 ≤ b mod 16 < 16.
Proof.
  intros Hb. unfold is_byte in Hb. split; [|apply Z.mod_pos_bound; lia].
  split; [apply Z.div_pos|apply Z.div_lt_upper_bound]; lia.
Qed.

Lemma fromhex_hex bs : Forall is_byte bs → fromhex (bytes_hex bs) = Ok bs.
Proof.
  induction 1 as [|b bs Hb _ IH]; [done|]. cbn [bytes_hex foldr].
  change (foldr _ "" bs) with (bytes_hex bs). rewrite byte_hex by done.
  destruct (nibbles b Hb). unfold String.append.
  cbn [fromhex]. rewrite hex_digit_not_space by done.
  rewrite !digit_val_hex_digit by done. rewrite IH. simpl. do 2 f_equal.
  pose proof (Z.div_mod b 16). lia.
Qed.

Lemma length_bytes_hex bs :
  Forall is_byte bs → String.length (bytes_hex bs) = (2 * length bs)%nat.
Proof.
  induction 1 as [|b bs Hb _ IH]; [done|]. cbn [bytes_hex foldr].
  change (foldr _ "" bs) with (bytes_hex bs). rewrite byte_hex by done.
  unfold String.append. cbn [String.length length]. lia.
Qed.

(** [int(fmt, 16)] of a plain hexadecimal number. *)
Lemma int16_digits_ok start acc s v :
  digits_val acc s = Some v → s ≠ "" ∨ start = false → int16_digits start acc s = Ok v.
Proof.
  revert start acc; induction s as [|c s IH]; intros start acc; simpl.
  - intros [= ->] [| ->]; done.
  - destruct (digit_val c) as [d|]; simpl; [|done]. intros Hv _. apply IH; [done|by right].
Qed.

Lemma digit_not_space c d : digit_val c = Some d → is_space c = false.
Proof.
  unfold digit_val, is_space. intros H. set (n := Ascii.N_of_ascii c) in *.
  destruct (N.eqb_spec n 32); [subst; rewrite e in H; done|]. simpl.
  destruct (N.leb_spec 9 n), (N.leb_spec n 13); try done. exfalso.
  repeat (case_match; simplify_eq; try lia);
  repeat match goal with
  | H : (_ && _) = true |- _ => apply andb_true_iff in H as [??]
  | H : (_ <=? _) = true |- _ => apply Z.leb_le in H end; lia.
Qed.

Lemma digit_neq c d c' : digit_val c = Some d → digit_val c' = None → Ascii.eqb c c' = false.
Proof. intros H H'. apply Ascii.eqb_neq. congruence. Qed.

Lemma int16_plain s v : digits_val 0 s = Some v → s ≠ "" → int16 s = Ok v.
Proof.
  intros Hv Hne. destruct s as [|c s]; [done|]. pose proof Hv as Hv'. cbn [digits_val] in Hv'.
  destruct (digit_val c) as [d|] eqn:Hd; [|done]. unfold int16. cbn [lstrip].
  rewrite (digit_not_space _ _ Hd), !(digit_neq c d) by done.
  unfold int16_unsigned. destruct s as [|x s]; [by apply int16_digits_ok; auto|].
  destruct (digit_val x) as [e|] eqn:Hx; [|cbn [digits_val mbind option_bind] in Hv'; by rewrite Hx in Hv'].
  rewrite !(digit_neq x e), andb_false_r by done. by apply int16_digits_ok; auto.
Qed.

Lemma fmt_x_nonempty w v : fmt_x w v ≠ "".
Proof.
  intros E. apply (f_equal String.length) in E. unfold fmt_x in E.
  rewrite length_hex_fixed in E. simpl in E. lia.
Qed.

(** [int("%x" % v, 16) == v] *)
Lemma int16_fmt w v : 0 ≤ v → int16 (fmt_x w v) = Ok v.
Proof.
  intros Hv. apply int16_plain; [|apply fmt_x_nonempty].
  rewrite digits_val_fmt_x by done. f_equal; lia.
Qed.

(** ** sw/bin2hex.py *)

(** [range(a, b, 4)] and the words of an image at those offsets. *)
Definition pad4 (data : list Z) : list Z :=
  if Nat.eqb (length data mod 4) 0 then data
  else data ++ replicate (4 - length data mod 4)%nat 0.

Definition words_of (data : list Z) : list Z :=
  map (λ k, int_from_bytes (slice data (4 * k) (4 * k + 4))) (seq 0 ((length data + 3) / 4)).

Definition lines (ls : list string) : string := foldr (λ l s, l +:+ String "010" s) "" ls.

Definition bin2hex (data : list Z) : string :=
  lines (map (fmt_x 8) (words_of (pad4 data))).

(** ** spartan6/sw/bin2hex.py: an image padded to [words] words *)

Fixpoint join (sep : string) (ls : list string) : string :=
  match ls with
  | [] => ""
  | [l] => l
  | l :: ls => l +:+ sep +:+ join sep ls
  end.

Definition s6_words (data : list Z) (target : option nat) : res (list Z) :=
  let words := words_of (pad4 data) in
  match target with
  | None => Ok words
  | Some t =>
      if Nat.ltb t (length words) then
        Err (SystemExit ("image is " +:+ pretty (length words) +:+ " words, memory holds "
                         +:+ pretty t))
      else Ok (words ++ replicate (t - length words) 0)
  end.

Definition s6_bin2hex (data : list Z) (target : option nat) : res string :=
  let* ws := s6_words data target in
  Ok (join (String "010" "") (map (fmt_x 8) ws) +:+ String "010" "").

(** ** sw/gen_libc_expected.py *)

Definition libc_lines : list string :=
  ["picolibc on rv32im: printf + malloc";
   "int=-42 uint=42 hex=0xdeadbeef char=Q";
   "width=[    7][7    ][00007]";
   "squares sum=140";
   "str='hello, world' len=12";
   "reuse ptr nonnull=1";
   "DONE"].

Fixpoint str_bytes (s : string) : list Z :=
  match s with
  | EmptyString => []
  | String c s => Z.of_N (Ascii.N_of_ascii c) :: str_bytes s
  end.

(** [out.replace("\n", "\r\n")] *)
Definition crlf (bs : list Z) : list Z :=
  flat_map (λ b, if Z.eqb b 10 then [13; 10] else [b]) bs.

Definition libc_bytes : list Z := crlf (str_bytes (lines libc_lines)).
Definition libc_expected : string := lines (map (fmt_x 2) libc_bytes).

(** ** The reader: $readmemh on one number per line *)

Fixpoint readmemh_go (cur : option Z) (s : string) : option (list Z) :=
  match s with
  | EmptyString => Some (match cur with Some v => [v] | None => [] end)
  | String c s =>
      if is_space c then
        ws ← readmemh_go None s;
        Some (match cur with Some v => v :: ws | None => ws end)
      else
        d ← digit_val c;
        readmemh_go (Some (16 * default 0 cur + d)) s
  end.
Definition readmemh (s : string) : option (list Z) := readmemh_go None s.

Lemma readmemh_digits s cur v rest :
  digits_val (default 0 cur) s = Some v → s ≠ "" ∨ is_Some cur →
  readmemh_go cur (s +:+ rest) = readmemh_go (Some v) rest.
Proof.
  revert cur; induction s as [|c s IH]; intros cur; simpl.
  - intros [= <-] [|[w ->]]; done.
  - destruct (digit_val c) as [d|] eqn:Hd; simpl; [|done]. intros Hv _.
    rewrite (digit_not_space _ _ Hd). apply (IH (Some _)); [done|eauto].
Qed.

Lemma readmemh_fmt w v rest : 0 ≤ v →
  readmemh_go None (fmt_x w v +:+ String "010" rest) = ws ← readmemh rest; Some (v :: ws).
Proof.
  intros Hv. rewrite (readmemh_digits _ None v); [done| |left; apply fmt_x_nonempty].
  simpl. rewrite digits_val_fmt_x by done. f_equal; lia.
Qed.

Lemma readmemh_lines w vs :
  Forall (λ v, 0 ≤ v) vs → readmemh (lines (map (fmt_x w) vs)) = Some vs.
Proof.
  induction 1 as [|v vs Hv _ IH]; [done|]. cbn [map lines foldr]. unfold readmemh.
  change (foldr _ "" _) with (lines (map (fmt_x w) vs)).
  rewrite readmemh_fmt by done. by rewrite IH.
Qed.

Lemma append_assoc (a b c : string) : (a +:+ b) +:+ c = a +:+ (b +:+ c).
Proof. induction a as [|x a IH]; simpl; [done|]. unfold String.append. by f_equal. Qed.

Lemma join_lines ls : ls ≠ [] → join (String "010" "") ls +:+ String "010" "" = lines ls.
Proof.
  induction ls as [|l [|l' ls] IH]; [done|done|]. intros _.
  cbn [join]. rewrite !append_assoc.
  change (lines (l :: l' :: ls)) with (l +:+ (String "010" "" +:+ lines (l' :: ls))).
  rewrite <- IH by done. reflexivity.
Qed.

Lemma words_of_nonneg data : Forall is_byte data → Forall (λ v, 0 ≤ v < 2 ^ 32) (words_of data).
Proof.
  intros Hd. apply Forall_forall. intros w Hw. unfold words_of in Hw.
  apply list_elem_of_In, in_map_iff in Hw as (k & <- & _).
  destruct (int_from_bytes_bound (slice data (4 * k) (4 * k + 4))) as [? Hlt]; [auto with py|].
  split; [done|]. eapply Z.lt_le_trans; [exact Hlt|].
  apply Z.pow_le_mono_r; [lia|]. rewrite length_slice. lia.
Qed.

Lemma pad4_length data : ∃ k, length (pad4 data) = (4 * k)%nat ∧ (length data ≤ 4 * k < length data + 4)%nat.
Proof.
  unfold pad4. pose proof (Nat.div_mod_eq (length data) 4).
  pose proof (Nat.mod_upper_bound (length data) 4 ltac:(lia)).
  destruct (Nat.eqb_spec (length data mod 4) 0).
  - exists (length data / 4)%nat. lia.
  - exists (length data / 4 + 1)%nat. rewrite length_app, length_replicate. lia.
Qed.

Lemma pad4_bytes data : Forall is_byte data → Forall is_byte (pad4 data).
Proof.
  intros. unfold pad4. destruct (Nat.eqb _ _); [done|].
  apply Forall_app; split; [done|]. apply Forall_replicate. done.
Qed.

(** The words, laid out again as little-endian bytes, are the image. *)
Lemma words_of_bytes data k :
  Forall is_byte data → length data = (4 * k)%nat →
  flat_map (int_to_bytes 4) (words_of data) = data ∧ length (words_of data) = k.
Proof.
  intros Hd Hk. unfold words_of. rewrite Hk.
  replace ((4 * k + 3) / 4)%nat with k
    by (rewrite Nat.mul_comm, Nat.div_add_l; [change (3 / 4)%nat with 0%nat|]; lia).
  split; [|by rewrite length_map, length_seq].
  enough (∀ n, (n ≤ k)%nat → flat_map (int_to_bytes 4)
      (map (λ i, int_from_bytes (slice data (4 * i) (4 * i + 4))) (seq 0 n))
    = take (4 * n) data) as H.
  { rewrite H by done. by apply take_ge; lia. }
  induction n as [|n IH]; intros Hn; [done|].
  rewrite seq_S, map_app, flat_map_app, IH by lia. cbn [map flat_map].
  rewrite app_nil_r, Nat.add_0_l.
  replace 4%nat with (length (slice data (4 * n) (4 * n + 4))) at 2
    by (rewrite length_slice; lia).
  rewrite int_to_from_bytes by auto with py.
  unfold slice. replace (4 * n + 4 - 4 * n)%nat with 4%nat by lia.
  replace (4 * S n)%nat with (4 * n + 4)%nat by lia. by rewrite take_take_drop.
Qed.

(** bin2hex.py round trip: the text has one 8-digit line per 32-bit word,
    $readmemh reads it back without error, and the words read, laid out
    little-endian, are the image followed by fewer than four zero bytes. *)
Theorem bin2hex_roundtrip data :
  Forall is_byte data →
  ∃ ws k, readmemh (bin2hex data) = Some ws ∧
    flat_map (int_to_bytes 4) ws = data ++ replicate k 0 ∧ (k < 4)%nat ∧
    Forall (λ w, String.length (fmt_x 8 w) = 8%nat ∧ 0 ≤ w < 2 ^ 32) ws.
Proof.
  intros Hd. exists (words_of (pad4 data)).
  pose proof (words_of_nonneg _ (pad4_bytes _ Hd)) as Hw.
  destruct (pad4_length data) as (k & Hk & Hlen).
  exists (4 * k - length data)%nat. split_and!.
  - apply readmemh_lines. eapply Forall_impl; [exact Hw|]. simpl; lia.
  - destruct (words_of_bytes _ k (pad4_bytes _ Hd) Hk) as [-> _].
    unfold pad4 in *. destruct (Nat.eqb_spec (length data mod 4) 0) as [E|E].
    + replace (4 * k - length data)%nat with 0%nat by lia. by rewrite app_nil_r.
    + rewrite length_app, length_replicate in Hk. do 2 f_equal. lia.
  - lia.
  - eapply Forall_impl; [exact Hw|]. intros w Hw'. split; [|done].
    rewrite fmt_x_narrow by (done || lia). apply length_hex_fixed.
Qed.

Lemma bin2hex_roundtrip_witness :
  ∃ ws k, readmemh (bin2hex [1; 2; 3; 4; 255]) = Some ws ∧
    flat_map (int_to_bytes 4) ws = [1; 2; 3; 4; 255] ++ replicate k 0 ∧ (k < 4)%nat ∧
    Forall (λ w, String.length (fmt_x 8 w) = 8%nat ∧ 0 ≤ w < 2 ^ 32) ws.
Proof.
  apply bin2hex_roundtrip. repeat constructor; discriminate.
Defined.

(** spartan6/sw/bin2hex.py with a memory size: it exits exactly when the
    padded image has more words than the memory; otherwise the text reads back
    as exactly that many words, the image first and zeros after it. *)
Theorem s6_bin2hex_spec data t :
  Forall is_byte data → (0 < t)%nat →
  ((t < length (words_of (pad4 data)))%nat → ∃ msg, s6_bin2hex data (Some t) = Err (SystemExit msg)) ∧
  ((length (words_of (pad4 data)) ≤ t)%nat →
   ∃ text ws k, s6_bin2hex data (Some t) = Ok text ∧ readmemh text = Some ws ∧ length ws = t ∧
     flat_map (int_to_bytes 4) ws = data ++ replicate k 0).
Proof.
  intros Hd Ht. unfold s6_bin2hex, s6_words.
  pose proof (words_of_nonneg _ (pad4_bytes _ Hd)) as Hw.
  set (ws := words_of (pad4 data)) in *. split; intros H.
  - rewrite (proj2 (Nat.ltb_lt _ _)) by done. simpl. eauto.
  - rewrite (proj2 (Nat.ltb_ge _ _)) by done. cbn [res_bind].
    destruct (pad4_length data) as (q & Hq & Hlen).
    destruct (words_of_bytes _ q (pad4_bytes _ Hd) Hq) as [Hb Hl]. fold ws in Hb, Hl.
    eexists _, (ws ++ replicate (t - length ws) 0), (4 * t - length data)%nat.
    split_and!; [done| | |].
    + rewrite join_lines.
      * apply readmemh_lines. apply Forall_app; split.
        -- eapply Forall_impl; [exact Hw|]. simpl; lia.
        -- by apply Forall_replicate.
      * intros E. apply (f_equal length) in E.
        rewrite length_map, length_app, length_replicate in E. simpl in E. lia.
    + rewrite length_app, length_replicate. lia.
    + rewrite flat_map_app, Hb.
      assert (∀ n, flat_map (int_to_bytes 4) (replicate n 0) = replicate (4 * n) 0) as ->.
      { induction n as [|n IH]; [done|]. replace (4 * S n)%nat with (4 + 4 * n)%nat by lia.
        cbn [replicate flat_map]. rewrite IH. done. }
      unfold pad4 in *. destruct (Nat.eqb_spec (length data mod 4) 0) as [E|E].
      * do 2 f_equal. lia.
      * rewrite length_app, length_replicate in Hq.
        rewrite <- app_assoc, <- replicate_add. do 2 f_equal. lia.
Qed.

Lemma s6_bin2hex_spec_witness :
  (∃ msg, s6_bin2hex [1; 2; 3; 4; 255] (Some 1%nat) = Err (SystemExit msg)) ∧
  (∃ text ws k, s6_bin2hex [1; 2; 3; 4; 255] (Some 4%nat) = Ok text ∧ readmemh text = Some ws ∧
     length ws = 4%nat ∧ flat_map (int_to_bytes 4) ws = [1; 2; 3; 4; 255] ++ replicate k 0).
Proof.
  assert (Forall is_byte [1; 2; 3; 4; 255]) by (repeat constructor; discriminate).
  split; eapply s6_bin2hex_spec; try done; vm_compute; lia.
Defined.

Lemma str_bytes_nonneg s : Forall (λ b, 0 ≤ b) (str_bytes s).
Proof. induction s as [|c s IH]; constructor; [lia|done]. Qed.

(** gen_libc_expected.py: the file $readmemh reads is the transcript, every
    line ended by CR LF. *)
Lemma libc_expected_reads : readmemh libc_expected = Some libc_bytes.
Proof.
  apply readmemh_lines. unfold libc_bytes, crlf.
  apply Forall_flat_map. eapply Forall_impl; [apply str_bytes_nonneg|].
  intros b Hb; simpl in *. destruct (Z.eqb b 10); repeat constructor; done || lia.
Qed.

End Hex.
