(* ===== verification/PyStr.v ===== *)
(** * Python string operations used by the tools

    [split], [strip], [in], [startswith], [ljust], [join] and slices, on
    [string]; text is ASCII. *)
From S2P Require Import Prelude Hex.

Module PyStr.
Import Hex.

Definition nl : ascii := "010"%char.
Definition quote : ascii := "034"%char.

Definition startswith (s p : string) : bool := String.prefix p s.

(** [sub in s] *)
Fixpoint contains (sub s : string) : bool :=
  startswith s sub ||
  match s with EmptyString => false | String _ s => contains sub s end.

Fixpoint has_char (c : ascii) (s : string) : bool :=
  match s with EmptyString => false | String d s => Ascii.eqb d c || has_char c s end.

(** [s.split(c)] *)
Fixpoint split_char (c : ascii) (s : string) : list string :=
  match s with
  | EmptyString => [""]
  | String d s =>
      if Ascii.eqb d c then "" :: split_char c s
      else match split_char c s with
           | w :: ws => String d w :: ws
           | [] => [String d ""]
           end
  end.

(** [s.split()]: runs of white space separate the words. *)
Fixpoint split_ws_go (cur : string) (s : string) : list string :=
  match s with
  | EmptyString => if String.eqb cur "" then [] else [cur]
  | String d s =>
      if is_space d then
        if String.eqb cur "" then split_ws_go "" s else cur :: split_ws_go "" s
      else split_ws_go (cur +:+ String d "") s
  end.
Definition split_ws (s : string) : list string := split_ws_go "" s.

Fixpoint rstrip (s : string) : string :=
  match s with
  | EmptyString => ""
  | String c s =>
      match rstrip s with
      | EmptyString => if is_space c then "" else String c ""
      | t => String c t
      end
  end.
Definition strip (s : string) : string := rstrip (lstrip s).

(** ["%-<n>s" % s] *)
Definition ljust (n : nat) (s : string) : string :=
  s +:+ String.string_of_list_ascii (replicate (n - String.length s) " "%char).

(** [s[a:]] and [s[a:b]] *)
Fixpoint sdrop (n : nat) (s : string) : string :=
  match n, s with
  | O, _ => s
  | S n, EmptyString => ""
  | S n, String _ s => sdrop n s
  end.
Fixpoint stake (n : nat) (s : string) : string :=
  match n, s with
  | O, _ => ""
  | S n, EmptyString => ""
  | S n, String c s => String c (stake n s)
  end.
Definition substr (s : string) (a b : nat) : string := stake (b - a) (sdrop a s).

(** [s.index(c)] *)
Fixpoint index_of (c : ascii) (s : string) : option nat :=
  match s with
  | EmptyString => None
  | String d s => if Ascii.eqb d c then Some 0 else S <$> index_of c s
  end.

(** [int(s)] and [int(s, 0)]: white space is stripped at both ends, a sign is
    accepted, and single underscores between digits.  With base 0 the prefix
    chooses the base, and a decimal number has no leading zero. *)
Definition dec_val (c : ascii) : option Z :=
  let n := Z.of_N (Ascii.N_of_ascii c) in
  if ((48 <=? n) && (n <=? 57))%Z then Some (n - 48)%Z else None.

(** A digit of base [b] at most 16. *)
Definition base_digit (b : Z) (c : ascii) : option Z :=
  match digit_val c with
  | Some d => if (d <? b)%Z then Some d else None
  | None => None
  end.

Fixpoint int10_digits (start : bool) (acc : Z) (s : string) : res Z :=
  match s with
  | EmptyString => if start then Err ValueError else Ok acc
  | String c s' =>
      match dec_val c with
      | Some d => int10_digits false (10 * acc + d)%Z s'
      | None =>
          if Ascii.eqb c "_"%char then
            if start then Err ValueError else int10_digits true acc s'
          else if start then Err ValueError
          else match lstrip s with EmptyString => Ok acc | _ => Err ValueError end
      end
  end.

Definition int10 (s : string) : res Z :=
  match lstrip s with
  | String c s' =>
      if Ascii.eqb c "-"%char then let* v := int10_digits true 0 s' in Ok (- v)%Z
      else if Ascii.eqb c "+"%char then int10_digits true 0 s'
      else int10_digits true 0 (String c s')
  | EmptyString => Err ValueError
  end.

Fixpoint int_digits (b : Z) (start : bool) (acc : Z) (s : string) : res Z :=
  match s with
  | EmptyString => if start then Err ValueError else Ok acc
  | String c s' =>
      match base_digit b c with
      | Some d => int_digits b false (b * acc + d)%Z s'
      | None =>
          if Ascii.eqb c "_"%char then
            if start then Err ValueError else int_digits b true acc s'
          else if start then Err ValueError
          else match lstrip s with EmptyString => Ok acc | _ => Err ValueError end
      end
  end.

(** The base a prefix chooses. *)
Definition prefix_base (c : ascii) : option Z :=
  if Ascii.eqb c "x"%char || Ascii.eqb c "X"%char then Some 16%Z
  else if Ascii.eqb c "o"%char || Ascii.eqb c "O"%char then Some 8%Z
  else if Ascii.eqb c "b"%char || Ascii.eqb c "B"%char then Some 2%Z
  else None.

(** The digits after a prefix, which one underscore may follow. *)
Definition int0_prefixed (b : Z) (s : string) : res Z :=
  int_digits b true 0
    (match s with
     | String u s' => if Ascii.eqb u "_"%char then s' else s
     | EmptyString => s
     end).

Definition int0_unsigned (s : string) : res Z :=
  match s with
  | String z s1 =>
      if Ascii.eqb z "0"%char then
        match s1 with
        | String x s2 =>
            match prefix_base x with
            | Some b => int0_prefixed b s2
            | None => let* v := int10_digits true 0 s in
                      if (v =? 0)%Z then Ok 0%Z else Err ValueError
            end
        | EmptyString => Ok 0%Z
        end
      else int10_digits true 0 s
  | EmptyString => Err ValueError
  end.

Definition int0 (s : string) : res Z :=
  match lstrip s with
  | String c s' =>
      if Ascii.eqb c "-"%char then let* v := int0_unsigned s' in Ok (- v)%Z
      else if Ascii.eqb c "+"%char then int0_unsigned s'
      else int0_unsigned (String c s')
  | EmptyString => Err ValueError
  end.

(** ** Lemmas *)

Lemma append_nil_r (s : string) : s +:+ "" = s.
Proof. induction s as [|c s IH]; [done|]. unfold String.append in *. by f_equal. Qed.

Lemma length_append (s t : string) :
  String.length (s +:+ t) = String.length s + String.length t.
Proof. induction s as [|c s IH]; [done|]. unfold String.append in *. simpl. lia. Qed.

Lemma cons_append c (s t : string) : String c s +:+ t = String c (s +:+ t).
Proof. done. Qed.

Lemma has_char_app c s t : has_char c (s +:+ t) = has_char c s || has_char c t.
Proof.
  induction s as [|d s IH]; [done|]. rewrite cons_append. simpl. rewrite IH.
  by rewrite orb_assoc.
Qed.

Lemma split_char_none c s : has_char c s = false → split_char c s = [s].
Proof.
  induction s as [|d s IH]; simpl; [done|]. destruct (Ascii.eqb d c); [done|]. simpl.
  intros H. by rewrite IH.
Qed.

Lemma split_char_app c s t :
  has_char c s = false → split_char c (s +:+ String c t) = s :: split_char c t.
Proof.
  induction s as [|d s IH]; intros H.
  - change ("" +:+ ?x) with x. cbn [split_char]. by rewrite Ascii.eqb_refl.
  - simpl in H. apply orb_false_iff in H as [Hd Hs]. rewrite cons_append. cbn [split_char].
    rewrite Hd, IH by done. done.
Qed.

Lemma index_of_app c s t :
  has_char c s = false → index_of c (s +:+ String c t) = Some (String.length s).
Proof.
  induction s as [|d s IH]; intros H.
  - change ("" +:+ ?x) with x. cbn [index_of]. by rewrite Ascii.eqb_refl.
  - simpl in H. apply orb_false_iff in H as [Hd Hs]. rewrite cons_append.
    cbn [index_of]. rewrite Hd, IH by done. done.
Qed.

Lemma index_of_none c s : has_char c s = false → index_of c s = None.
Proof.
  induction s as [|d s IH]; simpl; [done|]. destruct (Ascii.eqb d c); [done|]. simpl.
  intros H. by rewrite IH.
Qed.

Lemma stake_app s t : stake (String.length s) (s +:+ t) = s.
Proof. induction s as [|c s IH]; [by destruct t|]. rewrite cons_append. simpl. by f_equal. Qed.

Lemma sdrop_app s t : sdrop (String.length s) (s +:+ t) = t.
Proof. induction s as [|c s IH]; [done|]. rewrite cons_append. done. Qed.

Lemma startswith_app p s : startswith (p +:+ s) p = true.
Proof.
  unfold startswith. induction p as [|c p IH]; [by destruct s|]. rewrite cons_append. cbn.
  destruct (Ascii.ascii_dec c c); done.
Qed.

(** Joining with a separator character and splitting at it again. *)
Lemma split_join c ws :
  ws ≠ [] → Forall (λ w, has_char c w = false) ws →
  split_char c (join (String c "") ws) = ws.
Proof.
  intros Hne H. induction H as [|w ws Hw Hws IH]; [done|]. destruct ws as [|w' ws].
  - cbn [join]. by apply split_char_none.
  - cbn [join] in *. rewrite cons_append. change ("" +:+ ?x) with x.
    rewrite split_char_app by done. f_equal. by apply IH.
Qed.

(** ** Numbers print and read back *)

Lemma dec_val_char x : (x < 10)%N → dec_val (pretty_N_char x) = Some (Z.of_N x).
Proof.
  intros H. assert (x ∈ [0;1;2;3;4;5;6;7;8;9]%N) as Hin.
  { destruct x as [|p]; [set_solver|]. do 4 (destruct p as [p|p|]; try lia; try set_solver). }
  rewrite !elem_of_cons, elem_of_nil in Hin. naive_solver.
Qed.

Lemma int10_digits_pretty x b s :
  (0 < x)%N → int10_digits b 0 (pretty_N_go x s) = int10_digits false (Z.of_N x) s.
Proof.
  revert s; induction (N.lt_wf_0 x) as [x _ IH]; intros s Hx.
  rewrite pretty_N_go_step by done.
  assert (x mod 10 < 10)%N by (apply N.mod_lt; done).
  destruct (decide (x / 10 = 0)%N) as [E|E].
  - rewrite E, pretty_N_go_0. cbn [int10_digits]. rewrite dec_val_char by done.
    f_equal. pose proof (N.div_mod x 10 ltac:(lia)). lia.
  - rewrite IH; [|apply N.div_lt; lia|by apply N.neq_0_lt_0]. cbn [int10_digits]. rewrite dec_val_char by done.
    f_equal. pose proof (N.div_mod x 10 ltac:(lia)). lia.
Qed.

Lemma pretty_N_head x s :
  (0 < x)%N → ∃ c t, pretty_N_go x s = String c t ∧ is_Some (dec_val c).
Proof.
  revert s; induction (N.lt_wf_0 x) as [x _ IH]; intros s Hx. rewrite pretty_N_go_step by done.
  destruct (decide (x / 10 = 0)%N) as [E|E].
  - rewrite E, pretty_N_go_0. eexists _, _. split; [reflexivity|].
    rewrite dec_val_char by (apply N.mod_lt; done). eauto.
  - apply IH; [apply N.div_lt; lia|by apply N.neq_0_lt_0].
Qed.

Lemma dec_digit_plain c :
  is_Some (dec_val c) → is_space c = false ∧ Ascii.eqb c "-" = false ∧ Ascii.eqb c "+" = false.
Proof. by destruct c as [[] [] [] [] [] [] [] []]; intros [? [=]]. Qed.

(** A text that is no number is refused as such. *)
Lemma int10_digits_err b acc s e : int10_digits b acc s = Err e → e = ValueError.
Proof.
  revert b acc; induction s as [|c s IH]; intros b acc; cbn [int10_digits]; [by destruct b; intros [= <-]|].
  destruct (dec_val c); [apply IH|]. destruct (Ascii.eqb c "_"); [destruct b; [by intros [= <-]|apply IH]|].
  destruct b; [by intros [= <-]|]. destruct (lstrip _); [done|by intros [= <-]].
Qed.
Lemma int10_err s e : int10 s = Err e → e = ValueError.
Proof.
  unfold int10. destruct (lstrip s) as [|c s']; [by intros [= <-]|].
  destruct (Ascii.eqb c "-").
  { destruct (int10_digits true 0 s') as [v|e'] eqn:E; [done|]. intros [= <-]. by eapply int10_digits_err. }
  destruct (Ascii.eqb c "+"); apply int10_digits_err.
Qed.
Lemma int10_in_time s : int10 s ≠ Err OutOfFuel.
Proof. by intros H%int10_err. Qed.

Lemma int10_pretty z : int10 (pretty z) = Ok z.
Proof.
  destruct z as [|p|p]; [done| |].
  - change (pretty (Z.pos p)) with (pretty_N_go (N.pos p) "").
    destruct (pretty_N_head (N.pos p) "") as (c & t & E & Hc); [lia|].
    pose proof (int10_digits_pretty (N.pos p) true "" ltac:(lia)) as Hd. rewrite E in Hd |- *.
    destruct (dec_digit_plain c Hc) as (Hs & Hm & Hp). unfold int10. cbn [lstrip].
    rewrite Hs, Hm, Hp. exact Hd.
  - change (pretty (Z.neg p)) with (String "-" (pretty_N_go (N.pos p) "")).
    unfold int10. cbn [lstrip]. change (is_space "-") with false. cbn iota.
    rewrite Ascii.eqb_refl, int10_digits_pretty by lia. done.
Qed.

Lemma int16_0x v : (0 ≤ v)%Z → int16 ("0x" +:+ fmt_x 1 v) = Ok v.
Proof.
  intros Hv. pose proof (fmt_x_nonempty 1 v) as Hne. pose proof (digits_val_fmt_x 1 0 v Hv) as Hd.
  rewrite Z.mul_0_l in Hd. destruct (fmt_x 1 v) as [|c s] eqn:E; [done|].
  change (int16 ("0x" +:+ String c s)) with
    (int16_digits true 0 (if Ascii.eqb c "_" then s else String c s)).
  destruct (Ascii.eqb_spec c "_") as [->|]; [done|]. apply int16_digits_ok; [done|by left].
Qed.

Lemma int16_neg_0x v : (0 ≤ v)%Z → int16 ("-0x" +:+ fmt_x 1 v) = Ok (- v)%Z.
Proof.
  intros Hv. pose proof (int16_0x v Hv) as H.
  change (int16 ("-0x" +:+ fmt_x 1 v)) with
    (res_bind (int16_unsigned ("0x" +:+ fmt_x 1 v)) (λ v, Ok (- v)%Z)).
  change (int16 ("0x" +:+ fmt_x 1 v)) with (int16_unsigned ("0x" +:+ fmt_x 1 v)) in H. by rewrite H.
Qed.

End PyStr.
