(* ===== verification/Dbl.v ===== *)
(** * Python's floating-point numbers

    A float is an IEEE 754 double, here a [spec_float] of the Standard Library
    (a computable specification of the format and its operations, with no
    axioms) with 53 bits and exponents below 1024.  Operations round to the
    nearest double, ties to even. *)
From S2P Require Import Prelude.
From Stdlib Require Import SpecFloat.

Module Dbl.

Notation dbl := spec_float.
Definition prec : Z := 53.
Definition emax : Z := 1024.

(** [float(z)], for [z] in the range of doubles. *)
Definition of_Z (z : Z) : dbl := binary_normalize prec emax z 0 false.

Definition add : dbl → dbl → dbl := SFadd prec emax.
Definition sub : dbl → dbl → dbl := SFsub prec emax.
Definition mul : dbl → dbl → dbl := SFmul prec emax.
Definition div : dbl → dbl → dbl := SFdiv prec emax.
Definition sqrt : dbl → dbl := SFsqrt prec emax.
Definition ltb : dbl → dbl → bool := SFltb.

(** [a / b] for integers that doubles represent exactly, and the literal
    written [a / b] in decimals. *)
Definition ratio (a b : Z) : dbl := div (of_Z a) (of_Z b).

(** The integer nearest to [m * 2^e], the even one of two. *)
Definition nearest (m : positive) (e : Z) : Z :=
  if (0 <=? e)%Z then (Zpos m * 2 ^ e)%Z
  else
    let d := (2 ^ (- e))%Z in
    let q := (Zpos m / d)%Z in
    match (2 * (Zpos m mod d) ?= d)%Z with
    | Lt => q
    | Gt => (q + 1)%Z
    | Eq => if Z.even q then q else (q + 1)%Z
    end.

(** [int(round(x))] *)
Definition round (x : dbl) : res Z :=
  match x with
  | S754_zero _ => Ok 0%Z
  | S754_finite s m e => Ok (cond_Zopp s (nearest m e))
  | S754_infinity _ => Err OverflowError
  | S754_nan => Err ValueError
  end.

(** [int(x)] cuts the fraction off. *)
Definition trunc (x : dbl) : res Z :=
  match x with
  | S754_zero _ => Ok 0%Z
  | S754_finite s m e =>
      Ok (cond_Zopp s (if (0 <=? e)%Z then Zpos m * 2 ^ e else Zpos m / 2 ^ (- e))%Z)
  | S754_infinity _ => Err OverflowError
  | S754_nan => Err ValueError
  end.

(** A C cast between floating-point types: the number rounded to the format. *)
Definition cast (prec emax : Z) (f : spec_float) : spec_float :=
  match f with S754_finite s m e => binary_round prec emax s m e | _ => f end.
Definition to_single : spec_float → spec_float := cast 24 128.
Definition to_double : spec_float → spec_float := cast 53 1024.

End Dbl.
