(* ===== verification/Round.v ===== *)
(** * Correct rounding of binary floating-point numbers

    What the operations of the Standard Library's [SpecFloat] compute, for any
    precision: the exact result rounded to the nearest number of the format,
    ties to even.  A positive exact result (a sum, a product, a quotient, a
    square root) is given by how it compares with dyadic numbers, so that no
    real numbers are needed. *)
From S2P Require Import Prelude.
From Stdlib Require Import SpecFloat.

Module Round.
Open Scope Z_scope.

(** [x m e] compares an exact positive number with [m * 2^e]. *)
Class Cut (x : Z → Z → comparison) := {
  cut_scale : ∀ m e, x (2 * m) e = x m (e + 1);
  cut_lt : ∀ m m' e, m < m' → x m e = Gt ∨ x m' e = Lt
}.

(** The dyadic number [a * 2^k]. *)
Definition dyadic (a k : Z) : Z → Z → comparison :=
  λ m e, (a * 2 ^ (k - Z.min e k) ?= m * 2 ^ (e - Z.min e k)).

(** Where the exact number lies between [m * 2^e] and [(m + 1) * 2^e]. *)
Definition inbetween (x : Z → Z → comparison) (m e : Z) (l : location) : Prop :=
  match l with
  | loc_Exact => x m e = Eq
  | loc_Inexact c => x m e = Gt ∧ x (m + 1) e = Lt ∧ x (2 * m + 1) (e - 1) = c
  end.

(** [M * 2^e] is the multiple of [2^e] nearest to the number, with [M] even
    if two are equally near. *)
Record nearest (x : Z → Z → comparison) (e M : Z) : Prop := {
  near_lo : x (2 * M - 1) (e - 1) ≠ Lt;
  near_hi : x (2 * M + 1) (e - 1) ≠ Gt;
  near_tie_lo : x (2 * M - 1) (e - 1) = Eq → Z.even M = true;
  near_tie_hi : x (2 * M + 1) (e - 1) = Eq → Z.even M = true
}.

(** The number is in [2^(k-1), 2^k). *)
Definition mag (x : Z → Z → comparison) (k : Z) : Prop := x 1 (k - 1) ≠ Lt ∧ x 1 k = Lt.

(** ** Comparisons *)

Lemma cut_scale_pow x `{Cut x} n m e : 0 ≤ n → x (m * 2 ^ n) e = x m (e + n).
Proof.
  intros Hn. revert m e. pattern n. apply natlike_ind; [| |done].
  - intros m e. by rewrite Z.mul_1_r, Z.add_0_r.
  - clear n Hn. intros n Hn IH m e. rewrite Z.pow_succ_r by done.
    replace (m * (2 * 2 ^ n)) with ((2 * m) * 2 ^ n) by ring.
    rewrite IH, cut_scale. f_equal; lia.
Qed.

Lemma cut_above x `{Cut x} m m' e : m < m' → x m' e ≠ Lt → x m e = Gt.
Proof. intros Hm Hx. by destruct (cut_lt m m' e Hm). Qed.
Lemma cut_below x `{Cut x} m m' e : m < m' → x m e ≠ Gt → x m' e = Lt.
Proof. intros Hm Hx. by destruct (cut_lt m m' e Hm). Qed.

(** Two bounds of the number compare as they should. *)
Lemma cut_bounds x `{Cut x} m e m' e' n :
  x m e ≠ Lt → x m' e' ≠ Gt → n ≤ e → n ≤ e' → m * 2 ^ (e - n) ≤ m' * 2 ^ (e' - n).
Proof.
  intros Hm Hm' He He'. destruct (Z_lt_ge_dec (m' * 2 ^ (e' - n)) (m * 2 ^ (e - n))) as [Hlt|]; [|lia].
  destruct (cut_lt _ _ n Hlt) as [Hx|Hx]; rewrite cut_scale_pow in Hx by (done || lia).
  - by replace (n + (e' - n)) with e' in Hx by lia.
  - by replace (n + (e - n)) with e in Hx by lia.
Qed.

Lemma cut_bounds_lt x `{Cut x} m e m' e' n :
  x m e ≠ Lt → x m' e' = Lt → n ≤ e → n ≤ e' → m * 2 ^ (e - n) < m' * 2 ^ (e' - n).
Proof.
  intros Hm Hm' He He'.
  assert (m * 2 ^ (e - n) ≤ m' * 2 ^ (e' - n)) by (apply (cut_bounds x); congruence).
  destruct (Z.eq_dec (m * 2 ^ (e - n)) (m' * 2 ^ (e' - n))) as [E|]; [|lia].
  exfalso. pose proof (f_equal (λ a, x a n) E) as Hx. cbn in Hx.
  rewrite !cut_scale_pow in Hx by (done || lia).
  replace (n + (e' - n)) with e' in Hx by lia. replace (n + (e - n)) with e in Hx by lia. congruence.
Qed.

(** ** Dyadic numbers *)

Lemma compare_mul_pow a b n : 0 ≤ n → (a * 2 ^ n ?= b * 2 ^ n) = (a ?= b).
Proof. intros. rewrite <- !(Z.mul_comm (2 ^ n)). symmetry. apply Zmult_compare_compat_l.
  pose proof (Z.pow_pos_nonneg 2 n). lia. Qed.

(** Any common exponent compares. *)
Lemma dyadic_at a k m e n : n ≤ e → n ≤ k → dyadic a k m e = (a * 2 ^ (k - n) ?= m * 2 ^ (e - n)).
Proof.
  intros He Hk. unfold dyadic. set (p := Z.min e k).
  rewrite <- (compare_mul_pow _ _ (p - n)) by lia.
  rewrite <- !Z.mul_assoc, <- !Z.pow_add_r by lia.
  by replace (k - p + (p - n)) with (k - n) by lia; replace (e - p + (p - n)) with (e - n) by lia.
Qed.

#[export] Instance dyadic_cut a k : Cut (dyadic a k).
Proof.
  split.
  - intros m e. rewrite !(dyadic_at _ _ _ _ (Z.min e k)) by lia. f_equal.
    replace (e + 1 - Z.min e k) with (Z.succ (e - Z.min e k)) by lia.
    rewrite Z.pow_succ_r by lia. ring.
  - intros m m' e Hm. rewrite !(dyadic_at _ _ _ _ (Z.min e k)) by lia.
    assert (m * 2 ^ (e - Z.min e k) < m' * 2 ^ (e - Z.min e k)) by (apply Z.mul_lt_mono_pos_r; lia).
    destruct (Z.compare_spec (a * 2 ^ (k - Z.min e k)) (m * 2 ^ (e - Z.min e k)));
      [right; apply Z.compare_lt_iff; lia..|by left].
Qed.

Lemma dyadic_self a k : dyadic a k a k = Eq.
Proof. rewrite (dyadic_at _ _ _ _ k) by lia. apply Z.compare_refl. Qed.

(** ** Nearest multiples *)

Lemma nearest_unique x `{Cut x} e M M' : nearest x e M → nearest x e M' → M = M'.
Proof.
  assert (∀ M M', nearest x e M → nearest x e M' → ¬ M < M') as Hlt.
  { clear M M'. intros M M' [_ Hhi _ Thi] [Hlo _ Tlo _] HM.
    destruct (Z.eq_dec M' (M + 1)) as [->|].
    - replace (2 * (M + 1) - 1) with (2 * M + 1) in * by lia.
      destruct (x (2 * M + 1) (e - 1)) eqn:E; [|done..].
      specialize (Thi eq_refl). specialize (Tlo eq_refl).
      rewrite Z.even_add in Tlo. by rewrite Thi in Tlo.
    - apply Hlo. apply (cut_below x (2 * M + 1)); [lia|done]. }
  intros H1 H2. pose proof (Hlt _ _ H1 H2). pose proof (Hlt _ _ H2 H1). lia.
Qed.

Lemma mag_unique x `{Cut x} k k' : mag x k → mag x k' → k = k'.
Proof.
  assert (∀ k k', mag x k → mag x k' → k ≤ k') as Hle.
  { clear k k'. intros k k' [Hk _] [_ Hk'].
    pose proof (cut_bounds_lt x 1 (k - 1) 1 k' (Z.min (k - 1) k') Hk Hk' ltac:(lia) ltac:(lia)) as Hp.
    rewrite !Z.mul_1_l in Hp. apply Z.pow_lt_mono_r_iff in Hp; lia. }
  intros H1 H2. pose proof (Hle _ _ H1 H2). pose proof (Hle _ _ H2 H1). lia.
Qed.

(** Rounding by location gives the nearest. *)
Lemma round_nearest x `{Cut x} m e l :
  inbetween x m e l → nearest x e (round_nearest_even m l).
Proof.
  assert (∀ a, x (2 * a) (e - 1) = x a e) as Hs
    by (intros a; rewrite cut_scale; f_equal; lia).
  destruct l as [|c]; cbn [inbetween round_nearest_even].
  - intros Hx. rewrite <- Hs in Hx.
    assert (x (2 * m - 1) (e - 1) = Gt) as E1 by (apply (cut_above x _ (2 * m)); [lia|congruence]).
    assert (x (2 * m + 1) (e - 1) = Lt) as E2 by (apply (cut_below x (2 * m)); [lia|congruence]).
    split; congruence.
  - intros (Hlo & Hhi & Hmid). rewrite <- Hs in Hlo, Hhi.
    assert (x (2 * m - 1) (e - 1) = Gt) as E1 by (apply (cut_above x _ (2 * m)); [lia|congruence]).
    assert (x (2 * (m + 1) + 1) (e - 1) = Lt) as E2 by (apply (cut_below x (2 * (m + 1))); [lia|congruence]).
    assert (2 * (m + 1) - 1 = 2 * m + 1) as E3 by lia.
    destruct c; [destruct (Z.even m) eqn:Ev|..]; split; rewrite ?E1, ?E2, ?E3, ?Hmid; try congruence; intros _.
    all: rewrite Z.even_add; by rewrite Ev.
Qed.

(** ** Shifting right *)

Definition sited (x : Z → Z → comparison) (e : Z) (r : shr_record) : Prop :=
  0 ≤ shr_m r ∧ inbetween x (shr_m r) e (loc_of_shr_record r).

Lemma shr_1_eq m r s : 0 ≤ m → shr_1 (Build_shr_record m r s) = Build_shr_record (m / 2) (Z.odd m) (r || s).
Proof.
  intros Hm. rewrite <- Z.div2_div. destruct m as [|[p|p|]|p]; try done; lia.
Qed.

Lemma shr_1_sited x `{Cut x} e r : sited x e r → sited x (e + 1) (shr_1 r).
Proof.
  destruct r as [m r s]. intros [Hm Hx]. cbn [shr_m] in Hm. rewrite shr_1_eq by done.
  split; [cbn; apply Z.div_pos; lia|].
  pose proof (Z.div2_odd m) as Em. rewrite Z.div2_div in Em. cbn [shr_m] in *.
  set (p := m / 2) in *.
  assert (∀ a, x a (e + 1) = x (2 * a) e) as Hs by (intros; by rewrite cut_scale).
  assert (r || s = false ∧ x m e = Eq ∨ r || s = true ∧ x m e = Gt ∧ x (m + 1) e = Lt) as [[Es Ex]|(Es & Ex & Ex')].
  { destruct r, s; cbn in Hx; [right; by destruct Hx as (?&?&?)..|by left]. }
  - destruct (Z.odd m); cbn [Z.b2z loc_of_shr_record] in *; rewrite Es; cbn [inbetween]; rewrite !Hs.
    + replace (e + 1 - 1) with e by lia. replace (2 * p + 1) with m by lia. split; [|split; [|done]].
      * apply (cut_above x _ m); [lia|congruence].
      * apply (cut_below x m); [lia|congruence].
    + by replace (2 * p) with m by lia.
  - destruct (Z.odd m); cbn [Z.b2z loc_of_shr_record] in *; rewrite Es; cbn [inbetween]; rewrite !Hs;
      replace (e + 1 - 1) with e by lia.
    + replace (2 * p + 1) with m by lia. replace (2 * (p + 1)) with (m + 1) by lia. split; [|done].
      apply (cut_above x _ m); [lia|congruence].
    + replace (2 * p + 1) with (m + 1) by lia. replace (2 * p) with m by lia. split; [done|split; [|done]].
      apply (cut_below x (m + 1)); [lia|congruence].
Qed.

Lemma iter_pos_ind {A} (P : Z → A → Prop) (f : A → A) n e a :
  (∀ e a, P e a → P (e + 1) (f a)) → P e a → P (e + Zpos n) (iter_pos f n a).
Proof.
  intros Hf. revert e a. induction n as [n IH|n IH|]; intros e a Ha; cbn [iter_pos].
  - replace (e + Zpos n~1) with (e + 1 + Zpos n + Zpos n) by lia. auto.
  - replace (e + Zpos n~0) with (e + Zpos n + Zpos n) by lia. auto.
  - auto.
Qed.

Lemma loc_of_record_of_loc m l : loc_of_shr_record (shr_record_of_loc m l) = l.
Proof. by destruct l as [|[]]. Qed.
Lemma shr_m_of_loc m l : shr_m (shr_record_of_loc m l) = m.
Proof. by destruct l as [|[]]. Qed.

Lemma shr_sited x `{Cut x} e r n r' e' :
  sited x e r → shr r e n = (r', e') →
  e' = e + Z.max 0 n ∧ sited x e' r' ∧ shr_m r' = shr_m r / 2 ^ Z.max 0 n.
Proof.
  intros Hr E. destruct n as [|n|n]; cbn [shr] in E; injection E as <- <-;
    [by rewrite Z.add_0_r, Z.div_1_r| |by rewrite Z.max_l, Z.add_0_r, Z.div_1_r by lia].
  rewrite Z.max_r by lia. split; [done|].
  pose proof (iter_pos_ind (λ e' a, e ≤ e' ∧ sited x e' a ∧ shr_m a = shr_m r / 2 ^ (e' - e)) shr_1 n e r) as Hi.
  destruct Hi as (_ & Hs & Hm).
  - intros e1 a (He & Ha & Hm). split; [lia|]. split; [by apply shr_1_sited|].
    destruct Ha as [Hp _]. destruct a as [m' ? ?]. cbn [shr_m] in *. rewrite shr_1_eq by done. cbn [shr_m].
    rewrite Hm. rewrite Z.div_div by lia. f_equal.
    replace (e1 + 1 - e) with (Z.succ (e1 - e)) by lia. rewrite Z.pow_succ_r by lia. ring.
  - split; [lia|]. split; [done|]. by rewrite Z.sub_diag, Z.div_1_r.
  - split; [done|]. rewrite Hm. do 2 f_equal. lia.
Qed.

(** ** Digits *)

Lemma digits_bounds m : 0 < m → 2 ^ (Zdigits2 m - 1) ≤ m < 2 ^ Zdigits2 m.
Proof.
  destruct m as [|p|p]; [lia| |lia]. intros _. cbn [Zdigits2].
  induction p as [p IH|p IH|]; cbn [digits2_pos]; [..|by cbn].
  all: rewrite Pos2Z.inj_succ; replace (Z.succ (Zpos (digits2_pos p)) - 1) with (Z.succ (Zpos (digits2_pos p) - 1)) by lia.
  all: rewrite !Z.pow_succ_r by lia; lia.
Qed.

Lemma digits_nonneg m : 0 ≤ Zdigits2 m.
Proof. by destruct m. Qed.

Lemma digits_le m n : 0 ≤ n → m < 2 ^ n → Zdigits2 m ≤ n ∨ m < 0.
Proof.
  intros Hn Hm. destruct (Z_lt_ge_dec m 0) as [|Hm0]; [by right|left].
  destruct (Z.eq_dec m 0) as [->|]; [cbn; lia|].
  destruct (Z_lt_ge_dec n (Zdigits2 m)) as [Hlt|]; [|lia].
  pose proof (digits_bounds m ltac:(lia)) as [Hd _].
  assert (2 ^ n ≤ 2 ^ (Zdigits2 m - 1)) by (apply Z.pow_le_mono_r; lia). lia.
Qed.

Lemma digits_unique m d : 0 < m → 2 ^ (d - 1) ≤ m < 2 ^ d → Zdigits2 m = d.
Proof.
  intros Hm [H1 H2]. destruct (digits_bounds m Hm) as [H3 H4].
  assert (2 ^ (d - 1) < 2 ^ Zdigits2 m) as A1 by lia. assert (2 ^ (Zdigits2 m - 1) < 2 ^ d) as A2 by lia.
  assert (0 ≤ d). { destruct (Z_lt_ge_dec d 0); [|lia]. rewrite (Z.pow_neg_r 2 d) in H2 by lia. lia. }
  assert (0 < Zdigits2 m) by (destruct m as [|p|p]; cbn in *; lia).
  apply Z.pow_lt_mono_r_iff in A1; [|lia..]. apply Z.pow_lt_mono_r_iff in A2; lia.
Qed.

(** The digits of the whole part give the magnitude. *)
Lemma inbetween_mag x `{Cut x} m e l : inbetween x m e l → 0 < m → mag x (Zdigits2 m + e).
Proof.
  intros Hx Hm. pose proof (digits_bounds m Hm) as [Hlo Hhi].
  assert (0 < Zdigits2 m) by (destruct m as [|p|p]; cbn in *; lia).
  assert (x m e ≠ Lt ∧ x (m + 1) e = Lt) as [H1 H2].
  { destruct l as [|c]; cbn in Hx.
    - split; [congruence|]. apply (cut_below x m); [lia|congruence].
    - destruct Hx as (-> & -> & _). done. }
  split.
  - replace (Zdigits2 m + e - 1) with (e + (Zdigits2 m - 1)) by lia.
    rewrite <- cut_scale_pow by (done || lia).
    destruct (Z.eq_dec (1 * 2 ^ (Zdigits2 m - 1)) m) as [->|]; [done|].
    rewrite (cut_above x _ m); [done|lia|done].
  - replace (Zdigits2 m + e) with (e + Zdigits2 m) by lia. rewrite <- cut_scale_pow by (done || lia).
    destruct (Z.eq_dec (1 * 2 ^ Zdigits2 m) (m + 1)) as [->|]; [done|].
    apply (cut_below x (m + 1)); [lia|congruence].
Qed.

(** ** Formats *)

Section format.
Context (prec emax : Z) (Hprec : 1 < prec) (Hemax : prec < emax).

Local Notation emin := (emin prec emax).
Local Notation fexp := (fexp prec emax).

Definition pack (s : bool) (M e : Z) : spec_float :=
  if e <=? emax - prec then S754_finite s (Z.to_pos M) e else S754_infinity s.
(** The number [M * 2^e] of at most [prec] digits, or the next power of two. *)
Definition canon (s : bool) (M e : Z) : spec_float :=
  if M =? 0 then S754_zero s
  else if M =? 2 ^ prec then pack s (2 ^ (prec - 1)) (e + 1)
  else pack s M e.

(** [f] is the number of the format nearest to [x], with sign [s]. *)
Definition rounded (x : Z → Z → comparison) (s : bool) (f : spec_float) : Prop :=
  ∃ k M, mag x k ∧ nearest x (fexp k) M ∧ 0 ≤ M ≤ 2 ^ prec ∧ f = canon s M (fexp k).

Lemma rounded_unique x `{Cut x} s f f' : rounded x s f → rounded x s f' → f = f'.
Proof.
  intros (k & M & Hk & HM & _ & ->) (k' & M' & Hk' & HM' & _ & ->).
  pose proof (mag_unique x k k' Hk Hk') as <-.
  by rewrite (nearest_unique x _ M M' HM HM').
Qed.

Lemma fexp_ge k : k - prec ≤ fexp k ∧ emin ≤ fexp k.
Proof. unfold SpecFloat.fexp. lia. Qed.
Lemma fexp_mono k k' : k ≤ k' → fexp k ≤ fexp k'.
Proof. unfold SpecFloat.fexp. lia. Qed.

Lemma round_le m l : m ≤ round_nearest_even m l ≤ m + 1.
Proof. destruct l as [|[]]; cbn [round_nearest_even]; try lia. destruct (Z.even m); lia. Qed.

(** The second shift only normalises a mantissa that reached [2^prec]. *)
Lemma shr_fexp_canon s M e :
  0 ≤ M ≤ 2 ^ prec → emin ≤ e →
  (let '(r, e') := shr_fexp prec emax M e loc_Exact in
   match shr_m r with
   | Z0 => S754_zero s
   | Zpos m => if e' <=? emax - prec then S754_finite s m e' else S754_infinity s
   | _ => S754_nan
   end) = canon s M e.
Proof.
  intros HM He. unfold shr_fexp, canon, pack.
  destruct (Z.eq_dec M (2 ^ prec)) as [->|].
  - rewrite (digits_unique _ (prec + 1));
      [|lia|replace (prec + 1 - 1) with prec by lia; replace (prec + 1) with (Z.succ prec) by lia;
        rewrite Z.pow_succ_r by lia; lia].
    replace (fexp (prec + 1 + e) - e) with 1 by (unfold SpecFloat.fexp; lia).
    cbn [shr iter_pos shr_record_of_loc]. rewrite shr_1_eq by lia. cbn [shr_m].
    assert (2 ^ prec / 2 = 2 ^ (prec - 1)) as ->.
    { replace prec with (Z.succ (prec - 1)) at 1 by lia. rewrite Z.pow_succ_r by lia.
      rewrite Z.mul_comm. by apply Z.div_mul. }
    rewrite Z.eqb_refl. replace (2 ^ prec =? 0) with false by lia.
    assert (0 < 2 ^ (prec - 1)) as Hp by lia. by destruct (2 ^ (prec - 1)).
  - assert (fexp (Zdigits2 M + e) - e ≤ 0) as Hn.
    { destruct (digits_le M prec ltac:(lia) ltac:(lia)) as [|]; [|lia]. unfold SpecFloat.fexp. lia. }
    replace (M =? 2 ^ prec) with false by lia.
    destruct (fexp (Zdigits2 M + e) - e) as [|d|d]; [|lia|]; cbn [shr shr_record_of_loc shr_m];
      destruct M; (done || lia).
Qed.

Lemma aux_canon x `{Cut x} s m e l :
  inbetween x m e l → 0 ≤ m → e ≤ fexp (Zdigits2 m + e) →
  ∃ M, nearest x (fexp (Zdigits2 m + e)) M ∧ 0 ≤ M ≤ 2 ^ prec ∧
    binary_round_aux prec emax s m e l = canon s M (fexp (Zdigits2 m + e)).
Proof.
  intros Hx Hm He. unfold binary_round_aux.
  destruct (shr_fexp prec emax m e l) as [r e'] eqn:E. unfold shr_fexp in E.
  destruct (shr_sited x e (shr_record_of_loc m l) (fexp (Zdigits2 m + e) - e) r e') as (Ee & [Hr Hin] & Em);
    [split; [by rewrite shr_m_of_loc|by rewrite shr_m_of_loc, loc_of_record_of_loc]|done|].
  rewrite Z.max_r in Ee, Em by lia. replace (e + _) with (fexp (Zdigits2 m + e)) in Ee by lia. subst e'.
  rewrite shr_m_of_loc in Em.
  set (e' := fexp (Zdigits2 m + e)) in *.
  assert (shr_m r < 2 ^ prec) as Hlt.
  { rewrite Em. apply Z.div_lt_upper_bound; [lia|]. rewrite <- Z.pow_add_r by lia.
    destruct (Z.eq_dec m 0) as [->|]; [lia|]. destruct (digits_bounds m) as [_ Hd]; [lia|].
    eapply Z.lt_le_trans; [exact Hd|]. apply Z.pow_le_mono_r; [lia|].
    pose proof (fexp_ge (Zdigits2 m + e)). lia. }
  pose proof (round_le (shr_m r) (loc_of_shr_record r)).
  exists (round_nearest_even (shr_m r) (loc_of_shr_record r)).
  split; [by apply round_nearest|]. split; [lia|].
  apply shr_fexp_canon; [lia|]. pose proof (fexp_ge (Zdigits2 m + e)). lia.
Qed.

Lemma aux_rounded x `{Cut x} s m e l k :
  inbetween x m e l → 0 ≤ m → mag x k → e ≤ fexp (Zdigits2 m + e) →
  rounded x s (binary_round_aux prec emax s m e l).
Proof.
  intros Hx Hm Hk He. destruct (aux_canon x s m e l Hx Hm He) as (M & HM & HM' & ->).
  exists k, M. split; [done|].
  assert (fexp k = fexp (Zdigits2 m + e)) as ->; [|done].
  destruct (Z.eq_dec m 0) as [->|].
  - assert (x 1 e = Lt) as H1.
    { destruct l as [|c]; cbn in Hx; [|by destruct Hx as (_ & ? & _)].
      apply (cut_below x 0); [lia|congruence]. }
    destruct Hk as [Hk _].
    pose proof (cut_bounds_lt x 1 (k - 1) 1 e (Z.min (k - 1) e) Hk H1 ltac:(lia) ltac:(lia)) as Hp.
    rewrite !Z.mul_1_l in Hp. apply Z.pow_lt_mono_r_iff in Hp; [|lia..].
    cbn [Zdigits2] in *. unfold SpecFloat.fexp in *. lia.
  - rewrite (mag_unique x k (Zdigits2 m + e)); [done|done|].
    eapply inbetween_mag; [done|exact Hx|lia].
Qed.

(** ** Operations *)

Lemma dyadic_mag m e : 0 < m → mag (dyadic m e) (Zdigits2 m + e).
Proof. intros Hm. apply (inbetween_mag _ m e loc_Exact); [apply dyadic_self|done]. Qed.

Lemma shl_align_eq m e e' :
  Zpos (fst (shl_align m e e')) = Zpos m * 2 ^ (e - Z.min e e') ∧ snd (shl_align m e e') = Z.min e e'.
Proof.
  unfold shl_align. destruct (e' - e) as [|d|d] eqn:E; cbn [fst snd].
  - replace (e - Z.min e e') with 0 by lia. split; [by rewrite Z.mul_1_r|lia].
  - replace (e - Z.min e e') with 0 by lia. split; [by rewrite Z.mul_1_r|lia].
  - split; [|lia]. replace (e - Z.min e e') with (Zpos d) by lia. clear E e e'.
    induction d using Pos.peano_ind; [cbn; lia|].
    rewrite Pos.iter_succ, Pos2Z.inj_xO, IHd, Pos2Z.inj_succ, Z.pow_succ_r by lia. ring.
Qed.

(** The same number at another exponent. *)
Lemma dyadic_scale a k n : 0 ≤ n → ∀ m e, dyadic (a * 2 ^ n) (k - n) m e = dyadic a k m e.
Proof.
  intros Hn m e. set (p := Z.min e (k - n)). rewrite !(dyadic_at _ _ _ _ p) by lia.
  rewrite <- Z.mul_assoc, <- Z.pow_add_r by lia. do 3 f_equal. lia.
Qed.

Lemma binary_round_rounded s m e : rounded (dyadic (Zpos m) e) s (binary_round prec emax s m e).
Proof.
  unfold binary_round. change (Zpos (digits2_pos m)) with (Zdigits2 (Zpos m)).
  pose proof (shl_align_eq m e (fexp (Zdigits2 (Zpos m) + e))) as [E1 E2].
  destruct (shl_align m e _) as [mz ez]. cbn [fst snd] in *. subst ez.
  set (e' := Z.min e (fexp (Zdigits2 (Zpos m) + e))) in *.
  assert (Zdigits2 (Zpos mz) + e' = Zdigits2 (Zpos m) + e) as Ed.
  { rewrite E1.
    rewrite (digits_unique _ (Zdigits2 (Zpos m) + (e - e'))); [lia|lia|].
    destruct (digits_bounds (Zpos m)) as [Hlo Hhi]; [lia|].
    replace (Zdigits2 (Zpos m) + (e - e') - 1) with (Zdigits2 (Zpos m) - 1 + (e - e')) by lia.
    assert (0 < Zdigits2 (Zpos m)) by (cbn; lia).
    rewrite !Z.pow_add_r by lia. split; [apply Z.mul_le_mono_nonneg_r; lia|apply Z.mul_lt_mono_pos_r; lia]. }
  apply (aux_rounded _ _ _ _ _ (Zdigits2 (Zpos m) + e)); [|lia|by apply dyadic_mag|rewrite Ed; lia].
  cbn [inbetween]. rewrite E1. rewrite (dyadic_at _ _ _ _ e') by lia.
  rewrite Z.sub_diag, Z.mul_1_r. apply Z.compare_refl.
Qed.

End format.

End Round.
