(* ===== verification/RoundOps.v ===== *)
(** * Correct rounding: the operations

    Sums, differences, products, quotients and square roots of [SpecFloat] are
    the exact results rounded ([Round.rounded]), in every format whose numbers
    are multiples of the least double, 2^-1074. *)
From S2P Require Import Prelude Round.
From Stdlib Require Import SpecFloat.

Module RoundOps.
Import Round.
Open Scope Z_scope.

(** ** Cuts of quotients and square roots *)

(** [a / b] and [sqrt (a * 2^k)] *)
Definition quot (a b : Z) : Z → Z → comparison :=
  λ m e, (a * 2 ^ (- Z.min e 0) ?= m * b * 2 ^ (e - Z.min e 0)).
Definition root (a k : Z) : Z → Z → comparison :=
  λ m e, if m <? 0 then Gt
         else (a * 2 ^ (k - Z.min (2 * e) k) ?= m * m * 2 ^ (2 * e - Z.min (2 * e) k)).

Lemma quot_at a b m e n : n ≤ e → n ≤ 0 → quot a b m e = (a * 2 ^ (- n) ?= m * b * 2 ^ (e - n)).
Proof.
  intros He Hk. unfold quot. set (p := Z.min e 0).
  rewrite <- (compare_mul_pow _ _ (p - n)) by lia.
  rewrite <- !Z.mul_assoc, <- !Z.pow_add_r by lia.
  by replace (- p + (p - n)) with (- n) by lia; replace (e - p + (p - n)) with (e - n) by lia.
Qed.

Lemma root_at a k m e n :
  n ≤ 2 * e → n ≤ k → 0 ≤ m → root a k m e = (a * 2 ^ (k - n) ?= m * m * 2 ^ (2 * e - n)).
Proof.
  intros He Hk Hm. unfold root. replace (m <? 0) with false by lia. set (p := Z.min (2 * e) k).
  rewrite <- (compare_mul_pow _ _ (p - n)) by lia.
  rewrite <- !Z.mul_assoc, <- !Z.pow_add_r by lia.
  by replace (k - p + (p - n)) with (k - n) by lia; replace (2 * e - p + (p - n)) with (2 * e - n) by lia.
Qed.

(** Of two different numbers one is not the exact one. *)
Lemma compare_two a b c : b < c → (a ?= b) = Gt ∨ (a ?= c) = Lt.
Proof. intros. destruct (Z.compare_spec a b); [right; apply Z.compare_lt_iff; lia..|by left]. Qed.

Lemma quot_cut a b : 0 < b → Cut (quot a b).
Proof.
  intros Hb. split.
  - intros m e. rewrite !(quot_at _ _ _ _ (Z.min e 0)) by lia. f_equal.
    replace (e + 1 - Z.min e 0) with (Z.succ (e - Z.min e 0)) by lia.
    rewrite Z.pow_succ_r by lia. ring.
  - intros m m' e Hm. rewrite !(quot_at _ _ _ _ (Z.min e 0)) by lia. apply compare_two.
    apply Z.mul_lt_mono_pos_r; [lia|]. apply Z.mul_lt_mono_pos_r; lia.
Qed.

Lemma root_cut a k : 0 < a → Cut (root a k).
Proof.
  intros Ha. split.
  - intros m e. destruct (Z_lt_ge_dec m 0).
    + unfold root. by replace (2 * m <? 0) with true by lia; replace (m <? 0) with true by lia.
    + rewrite !(root_at _ _ _ _ (Z.min (2 * e) k)) by lia. f_equal.
      replace (2 * (e + 1) - Z.min (2 * e) k) with (Z.succ (Z.succ (2 * e - Z.min (2 * e) k))) by lia.
      rewrite !Z.pow_succ_r by lia. ring.
  - intros m m' e Hm. destruct (Z_lt_ge_dec m 0).
    + left. unfold root. by replace (m <? 0) with true by lia.
    + rewrite !(root_at _ _ _ _ (Z.min (2 * e) k)) by lia. apply compare_two.
      apply Z.mul_lt_mono_pos_r; [lia|]. nia.
Qed.

(** ** Values *)

(** The value of a finite number in units of 2^-1074, without its sign. *)
Definition unit_exp : Z := -1074.
Definition mant (m : positive) (e : Z) : Z := Zpos m * 2 ^ (e - unit_exp).
Definition value (f : spec_float) : Z :=
  match f with S754_finite s m e => cond_Zopp s (mant m e) | _ => 0 end.

Lemma mant_pos m e : unit_exp ≤ e → 0 < mant m e.
Proof. intros. unfold mant. apply Z.mul_pos_pos; lia. Qed.

Lemma dyadic_mant m e a b : unit_exp ≤ e → dyadic (mant m e) unit_exp a b = dyadic (Zpos m) e a b.
Proof.
  intros He. unfold mant. rewrite <- (dyadic_scale (Zpos m) e (e - unit_exp)) by lia.
  f_equal. lia.
Qed.

Lemma rounded_ext prec emax x y s f : (∀ m e, x m e = y m e) → rounded prec emax x s f → rounded prec emax y s f.
Proof.
  intros E (k & M & [Hk1 Hk2] & [H1 H2 H3 H4] & HM & ->). exists k, M.
  rewrite !E in *. split; [by split|]. split; [by constructor|done].
Qed.

Section format.
Context (prec emax : Z) (Hprec : 1 < prec) (Hemax : prec < emax) (Hunit : unit_exp ≤ emin prec emax).

Local Notation emin := (emin prec emax).
Local Notation fexp := (fexp prec emax).
Local Notation rounded := (rounded prec emax).

(** A number of the format: its exponent is the least it can have. *)
Definition valid (f : spec_float) : Prop := valid_binary prec emax f = true.

Lemma valid_finite s m e : valid (S754_finite s m e) ↔ fexp (Zdigits2 (Zpos m) + e) = e ∧ e ≤ emax - prec.
Proof.
  unfold valid. cbn [valid_binary]. unfold bounded, canonical_mantissa.
  rewrite andb_true_iff, Z.eqb_eq, Z.leb_le. done.
Qed.

Lemma valid_exp s m e : valid (S754_finite s m e) → unit_exp ≤ e.
Proof. rewrite valid_finite. intros [He _]. pose proof (fexp_ge prec emax (Zdigits2 (Zpos m) + e)). lia. Qed.

Lemma valid_digits s m e : valid (S754_finite s m e) → Zdigits2 (Zpos m) ≤ prec.
Proof. rewrite valid_finite. intros [He _]. pose proof (fexp_ge prec emax (Zdigits2 (Zpos m) + e)). lia. Qed.

(** A rounded result is a number of the format. *)
Lemma canon_valid s M e : 0 ≤ M ≤ 2 ^ prec → (M < 2 ^ (prec - 1) → e = emin) → emin ≤ e → valid (canon prec emax s M e).
Proof.
  intros HM Hlow He. unfold canon, pack. destruct (Z.eqb_spec M 0) as [|Hz]; [done|].
  assert (0 < 2 ^ (prec - 1)) by lia.
  assert (2 ^ prec = 2 * 2 ^ (prec - 1)) as E2.
  { rewrite <- Z.pow_succ_r by lia. f_equal. lia. }
  assert (∀ N e', 0 < N < 2 ^ prec → emin ≤ e' → (N < 2 ^ (prec - 1) → e' = emin) →
    valid (if e' <=? emax - prec then S754_finite s (Z.to_pos N) e' else S754_infinity s)) as Hv.
  { intros N e' HN He' HlowN. destruct (Z.leb_spec e' (emax - prec)); [|done]. apply valid_finite. split; [|done].
    rewrite Z2Pos.id by lia. pose proof (digits_bounds N ltac:(lia)) as [Hd1 Hd2].
    destruct (digits_le N prec ltac:(lia) ltac:(lia)) as [Hd|]; [|lia]. unfold SpecFloat.fexp.
    destruct (Z_lt_ge_dec N (2 ^ (prec - 1))) as [Hn|Hn]; [rewrite HlowN by done; lia|].
    assert (2 ^ (prec - 1) < 2 ^ Zdigits2 N) as Hp by lia. pose proof (digits_nonneg N).
    apply Z.pow_lt_mono_r_iff in Hp; lia. }
  destruct (Z.eqb_spec M (2 ^ prec)); apply Hv; lia.
Qed.

Lemma rounded_valid x `{Cut x} s f : rounded x s f → valid f.
Proof.
  intros (k & M & [Hk1 Hk2] & [_ Hhi _ Thi] & HM & ->). pose proof (fexp_ge prec emax k).
  apply canon_valid; [done| |lia]. intros Hlt. unfold SpecFloat.fexp in *.
  destruct (Z_le_gt_dec (k - prec) emin); [lia|]. exfalso.
  rewrite Z.max_l in * by lia.
  pose proof (cut_bounds x 1 (k - 1) (2 * M + 1) (k - prec - 1) (k - prec - 1) Hk1 Hhi ltac:(lia) ltac:(lia)) as Hb.
  rewrite Z.sub_diag, Z.mul_1_l, Z.mul_1_r in Hb. replace (k - 1 - (k - prec - 1)) with (Z.succ (prec - 1)) in Hb by lia.
  rewrite Z.pow_succ_r in Hb by lia. lia.
Qed.

(** *** Sums *)

Lemma binary_normalize_pos z e : 0 < z → rounded (dyadic z e) false (binary_normalize prec emax z e false).
Proof. destruct z as [|p|p]; [lia| |lia]. intros _. by apply binary_round_rounded. Qed.
Lemma binary_normalize_neg z e : z < 0 → rounded (dyadic (- z) e) true (binary_normalize prec emax z e false).
Proof. destruct z as [|p|p]; [lia..|]. intros _. by apply binary_round_rounded. Qed.

(** A number with its sign, rounded; zero is positive. *)
Definition rounded_sum (v : Z) (f : spec_float) : Prop :=
  (0 < v → rounded (dyadic v unit_exp) false f) ∧
  (v < 0 → rounded (dyadic (- v) unit_exp) true f) ∧
  (v = 0 → f = S754_zero false).

Lemma normalize_sum z e : unit_exp ≤ e → rounded_sum (z * 2 ^ (e - unit_exp)) (binary_normalize prec emax z e false).
Proof.
  intros He. assert (0 < 2 ^ (e - unit_exp)) by lia.
  assert (∀ z m e', dyadic z e m e' = dyadic (z * 2 ^ (e - unit_exp)) unit_exp m e') as Hs.
  { intros z' m e'. rewrite <- (dyadic_scale z' e (e - unit_exp)) by lia. f_equal. lia. }
  split; [|split]; intros Hz.
  - eapply rounded_ext; [apply Hs|]. apply binary_normalize_pos. nia.
  - rewrite <- Z.mul_opp_l. eapply rounded_ext; [apply Hs|]. apply binary_normalize_neg. nia.
  - assert (z = 0) as -> by nia. done.
Qed.

Lemma mant_align m e e' : unit_exp ≤ Z.min e e' →
  Zpos (fst (shl_align m e (Z.min e e'))) * 2 ^ (Z.min e e' - unit_exp) = mant m e.
Proof.
  intros He. destruct (shl_align_eq m e (Z.min e e')) as [-> _]. unfold mant.
  rewrite <- Z.mul_assoc, <- Z.pow_add_r by lia. do 2 f_equal. lia.
Qed.

Lemma cond_Zopp_mul s a b : cond_Zopp s a * b = cond_Zopp s (a * b).
Proof. destruct s; cbn; lia. Qed.

Lemma SFadd_rounded sx mx ex sy my ey :
  unit_exp ≤ ex → unit_exp ≤ ey →
  rounded_sum (value (S754_finite sx mx ex) + value (S754_finite sy my ey))
    (SFadd prec emax (S754_finite sx mx ex) (S754_finite sy my ey)).
Proof.
  intros Hx Hy. cbn [SFadd value]. set (ez := Z.min ex ey).
  replace (cond_Zopp sx (mant mx ex) + cond_Zopp sy (mant my ey)) with
    ((cond_Zopp sx (Zpos (fst (shl_align mx ex ez))) + cond_Zopp sy (Zpos (fst (shl_align my ey ez)))) * 2 ^ (ez - unit_exp));
    [apply normalize_sum; lia|].
  rewrite Z.mul_add_distr_r, !cond_Zopp_mul. unfold ez. rewrite mant_align by lia.
  rewrite (Z.min_comm ex ey), mant_align by lia. done.
Qed.

Lemma SFsub_rounded sx mx ex sy my ey :
  unit_exp ≤ ex → unit_exp ≤ ey →
  rounded_sum (value (S754_finite sx mx ex) - value (S754_finite sy my ey))
    (SFsub prec emax (S754_finite sx mx ex) (S754_finite sy my ey)).
Proof.
  intros Hx Hy. cbn [SFsub value]. set (ez := Z.min ex ey).
  replace (cond_Zopp sx (mant mx ex) - cond_Zopp sy (mant my ey)) with
    ((cond_Zopp sx (Zpos (fst (shl_align mx ex ez))) - cond_Zopp sy (Zpos (fst (shl_align my ey ez)))) * 2 ^ (ez - unit_exp));
    [apply normalize_sum; lia|].
  rewrite Z.mul_sub_distr_r, !cond_Zopp_mul. unfold ez. rewrite mant_align by lia.
  rewrite (Z.min_comm ex ey), mant_align by lia. done.
Qed.

(** *** Products *)

Lemma valid_or s m e : valid (S754_finite s m e) → Zdigits2 (Zpos m) = prec ∨ e = emin.
Proof. rewrite valid_finite. unfold SpecFloat.fexp. lia. Qed.

Lemma digits_mul m n : Zdigits2 (Zpos m) + Zdigits2 (Zpos n) - 1 ≤ Zdigits2 (Zpos (m * n)).
Proof.
  pose proof (digits_bounds (Zpos m) ltac:(lia)) as [Hm _].
  pose proof (digits_bounds (Zpos n) ltac:(lia)) as [Hn _].
  pose proof (digits_bounds (Zpos (m * n)) ltac:(lia)) as [_ Hmn].
  assert (0 < Zdigits2 (Zpos m) ∧ 0 < Zdigits2 (Zpos n)) as [] by (cbn; lia).
  assert (2 ^ (Zdigits2 (Zpos m) - 1 + (Zdigits2 (Zpos n) - 1)) < 2 ^ Zdigits2 (Zpos (m * n))) as Hp.
  { rewrite Z.pow_add_r by lia. eapply Z.le_lt_trans; [|exact Hmn]. rewrite Pos2Z.inj_mul.
    apply Z.mul_le_mono_nonneg; lia. }
  apply Z.pow_lt_mono_r_iff in Hp; [lia..|apply digits_nonneg].
Qed.

Lemma SFmul_rounded sx mx ex sy my ey :
  valid (S754_finite sx mx ex) → valid (S754_finite sy my ey) →
  rounded (dyadic (Zpos mx * Zpos my) (ex + ey)) (xorb sx sy)
    (SFmul prec emax (S754_finite sx mx ex) (S754_finite sy my ey)).
Proof.
  intros Hx Hy. cbn [SFmul]. rewrite <- Pos2Z.inj_mul.
  apply (aux_rounded prec emax Hprec _ _ _ _ _ (Zdigits2 (Zpos (mx * my)) + (ex + ey)));
    [apply dyadic_self|lia|by apply dyadic_mag|].
  pose proof (digits_mul mx my). pose proof (valid_digits _ _ _ Hx). pose proof (valid_digits _ _ _ Hy).
  assert (0 < Zdigits2 (Zpos mx) ∧ 0 < Zdigits2 (Zpos my)) as [] by (cbn; lia).
  assert (emin ≤ 0) by (unfold SpecFloat.emin; lia). unfold SpecFloat.fexp.
  destruct (valid_or _ _ _ Hx) as [?| ->]; [lia|]. destruct (valid_or _ _ _ Hy) as [?| ->]; lia.
Qed.

(** *** Quotients *)

Lemma quot_mant mx ex my ey m e n :
  unit_exp ≤ ex → unit_exp ≤ ey → n ≤ e → n ≤ ex - ey →
  quot (mant mx ex) (mant my ey) m e = (Zpos mx * 2 ^ (ex - ey - n) ?= m * Zpos my * 2 ^ (e - n)).
Proof.
  intros Hx Hy He Hn. rewrite (quot_at _ _ _ _ (Z.min n 0)) by lia. unfold mant.
  set (p := Z.min n 0).
  rewrite <- (compare_mul_pow (Zpos mx * _) _ (ey - unit_exp + n - p)) by lia.
  rewrite <- !Z.mul_assoc, <- !Z.pow_add_r by lia.
  replace (ex - ey - n + (ey - unit_exp + n - p)) with (ex - unit_exp + - p) by lia.
  by replace (e - n + (ey - unit_exp + n - p)) with (ey - unit_exp + (e - p)) by lia.
Qed.

Lemma new_location_spec b r : 0 < b → 0 ≤ r →
  new_location b r = if r =? 0 then loc_Exact else loc_Inexact (2 * r ?= b).
Proof.
  intros Hb Hr. unfold new_location, new_location_even, new_location_odd.
  destruct (Z.even b) eqn:Ev; [done|]. destruct (r =? 0); [done|]. f_equal.
  assert (2 * r ≠ b) by (intros <-; by rewrite Z.even_mul in Ev).
  destruct (Z.compare_spec (2 * r + 1) b), (Z.compare_spec (2 * r) b); lia || done.
Qed.

Lemma quot_mag sx mx ex sy my ey :
  valid (S754_finite sx mx ex) → valid (S754_finite sy my ey) →
  let K := Zdigits2 (Zpos mx) + ex - (Zdigits2 (Zpos my) + ey) in
  mag (quot (mant mx ex) (mant my ey)) K ∨ mag (quot (mant mx ex) (mant my ey)) (K + 1).
Proof.
  intros Hx%valid_exp Hy%valid_exp K.
  pose proof (digits_bounds (Zpos mx) ltac:(lia)) as [Hx1 Hx2].
  pose proof (digits_bounds (Zpos my) ltac:(lia)) as [Hy1 Hy2].
  set (x := quot (mant mx ex) (mant my ey)).
  assert (0 < Zdigits2 (Zpos mx) ∧ 0 < Zdigits2 (Zpos my)) as [Hdx Hdy] by (cbn; lia).
  set (dx := Zdigits2 (Zpos mx)) in *. set (dy := Zdigits2 (Zpos my)) in *.
  assert (x 1 (K - 1) ≠ Lt) as Hlo.
  { unfold x. rewrite (quot_mant _ _ _ _ _ _ (ex - ey - dy)) by lia. rewrite Z.mul_1_l.
    replace (ex - ey - (ex - ey - dy)) with dy by lia.
    replace (K - 1 - (ex - ey - dy)) with (dx - 1) by lia.
    apply Z.compare_ge_iff. rewrite Z.mul_comm. apply Z.mul_le_mono_nonneg; lia. }
  assert (x 1 (K + 1) = Lt) as Hhi.
  { unfold x. rewrite (quot_mant _ _ _ _ _ _ (ex - ey - (dy - 1))) by lia. rewrite Z.mul_1_l.
    replace (ex - ey - (ex - ey - (dy - 1))) with (dy - 1) by lia.
    replace (K + 1 - (ex - ey - (dy - 1))) with dx by lia.
    apply Z.compare_lt_iff. rewrite (Z.mul_comm (Zpos my)).
    apply Z.lt_le_trans with (2 ^ dx * 2 ^ (dy - 1)); [apply Z.mul_lt_mono_pos_r|apply Z.mul_le_mono_nonneg_l]; lia. }
  destruct (x 1 K) eqn:E; [right|left|right]; split; try done; replace (K + 1 - 1) with K by lia; by rewrite E.
Qed.

Lemma SFdiv_rounded sx mx ex sy my ey :
  valid (S754_finite sx mx ex) → valid (S754_finite sy my ey) →
  rounded (quot (mant mx ex) (mant my ey)) (xorb sx sy)
    (SFdiv prec emax (S754_finite sx mx ex) (S754_finite sy my ey)).
Proof.
  intros Hx Hy. cbn [SFdiv]. unfold SFdiv_core_binary.
  set (K := Zdigits2 (Zpos mx) + ex - (Zdigits2 (Zpos my) + ey)).
  set (e' := Z.min (fexp K) (ex - ey)).
  pose proof (valid_exp _ _ _ Hx) as Hex. pose proof (valid_exp _ _ _ Hy) as Hey.
  assert ((match ex - ey - e' with Z0 => Zpos mx | Zpos _ => Z.shiftl (Zpos mx) (ex - ey - e') | Zneg _ => 0 end)
          = Zpos mx * 2 ^ (ex - ey - e')) as ->.
  { destruct (ex - ey - e') eqn:E; [by rewrite Z.mul_1_r|by rewrite Z.shiftl_mul_pow2|lia]. }
  set (m' := Zpos mx * 2 ^ (ex - ey - e')).
  destruct (Z.div_eucl m' (Zpos my)) as [q r] eqn:E.
  assert (m' = q * Zpos my + r ∧ 0 ≤ r < Zpos my) as [Em Hr].
  { pose proof (Z_div_mod m' (Zpos my) ltac:(lia)) as Hd. rewrite E in Hd. lia. }
  assert (0 ≤ m') by (unfold m'; apply Z.mul_nonneg_nonneg; lia).
  assert (0 ≤ q) by nia.
  set (x := quot (mant mx ex) (mant my ey)).
  assert (0 < mant my ey) as Hb by (by apply mant_pos). pose proof (quot_cut (mant mx ex) _ Hb) as Hcut.
  change (quot (mant mx ex) (mant my ey)) with x in Hcut.
  assert (∀ a, x a e' = (m' ?= a * Zpos my)) as Xe.
  { intros a. unfold x. rewrite (quot_mant _ _ _ _ _ _ e') by lia. by rewrite Z.sub_diag, Z.mul_1_r. }
  assert (inbetween x q e' (new_location (Zpos my) r)) as Hin.
  { rewrite new_location_spec by lia. destruct (Z.eqb_spec r 0) as [->|Hr0]; cbn [inbetween]; rewrite !Xe.
    - apply Z.compare_eq_iff. lia.
    - split; [|split].
      + apply Z.compare_gt_iff. lia.
      + apply Z.compare_lt_iff. lia.
      + unfold x. rewrite (quot_mant _ _ _ _ _ _ (e' - 1)) by lia. rewrite Z.sub_diag, Z.mul_1_r.
        replace (ex - ey - (e' - 1)) with (Z.succ (ex - ey - e')) by lia. rewrite Z.pow_succ_r by lia.
        replace (Zpos mx * (2 * 2 ^ (ex - ey - e'))) with (2 * m') by (unfold m'; ring). rewrite Em.
        destruct (Z.compare_spec (2 * r) (Zpos my)) as [Hc|Hc|Hc];
          [apply Z.compare_eq_iff|apply Z.compare_lt_iff|apply Z.compare_gt_iff]; nia. }
  pose proof (quot_mag _ _ _ _ _ _ Hx Hy) as Hmag. cbv zeta in Hmag. change (quot (mant mx ex) (mant my ey)) with x in Hmag.
  change (Zdigits2 (Zpos mx) + ex - (Zdigits2 (Zpos my) + ey)) with K in Hmag.
  assert (∃ k, mag x k ∧ K ≤ k) as (k & Hk & HK) by (destruct Hmag as [?|?]; eexists; (split; [eassumption|lia])).
  apply (aux_rounded prec emax Hprec x _ _ _ _ k); [done|done|done|].
  destruct (Z.eq_dec q 0) as [->|].
  - assert (x 1 e' = Lt) as H1 by (rewrite Xe; apply Z.compare_lt_iff; lia).
    destruct Hk as [Hk _].
    pose proof (cut_bounds_lt x 1 (k - 1) 1 e' (Z.min (k - 1) e') Hk H1 ltac:(lia) ltac:(lia)) as Hp.
    rewrite !Z.mul_1_l in Hp. apply Z.pow_lt_mono_r_iff in Hp; [|lia..].
    cbn [Zdigits2]. unfold e', SpecFloat.fexp in *. lia.
  - pose proof (inbetween_mag x q e' _ Hin ltac:(lia)) as Hk'. rewrite <- (mag_unique x _ _ Hk Hk').
    pose proof (fexp_mono prec emax K k HK). lia.
Qed.

(** *** Square roots *)

Lemma root_mag m e : mag (root (Zpos m) e) (Z.div2 (Zdigits2 (Zpos m) + e + 1)).
Proof.
  pose proof (digits_bounds (Zpos m) ltac:(lia)) as [H1 H2].
  assert (0 < Zdigits2 (Zpos m)) by (cbn; lia).
  set (d := Zdigits2 (Zpos m)) in *. set (k := Z.div2 (d + e + 1)).
  assert (2 * k = d + e ∨ 2 * k = d + e + 1) as Hk.
  { unfold k. rewrite Z.div2_div. pose proof (Z.mod_pos_bound (d + e + 1) 2). pose proof (Z_div_mod_eq_full (d + e + 1) 2). lia. }
  split.
  - rewrite (root_at _ _ _ _ (Z.min (2 * (k - 1)) e)) by lia. rewrite !Z.mul_1_l. apply Z.compare_ge_iff.
    apply Z.le_trans with (2 ^ (d - 1) * 2 ^ (e - Z.min (2 * (k - 1)) e)); [|apply Z.mul_le_mono_nonneg_r; lia].
    rewrite <- Z.pow_add_r by lia. apply Z.pow_le_mono_r; lia.
  - rewrite (root_at _ _ _ _ (Z.min (2 * k) e)) by lia. rewrite !Z.mul_1_l. apply Z.compare_lt_iff.
    apply Z.lt_le_trans with (2 ^ d * 2 ^ (e - Z.min (2 * k) e)); [apply Z.mul_lt_mono_pos_r; lia|].
    rewrite <- Z.pow_add_r by lia. apply Z.pow_le_mono_r; lia.
Qed.

Lemma SFsqrt_rounded m e :
  rounded (root (Zpos m) e) false (SFsqrt prec emax (S754_finite false m e)).
Proof.
  cbn [SFsqrt]. unfold SFsqrt_core_binary.
  set (k := Z.div2 (Zdigits2 (Zpos m) + e + 1)). set (e' := Z.min (fexp k) (Z.div2 e)).
  assert (2 * e' ≤ e) as He'.
  { pose proof (Z.div2_odd e) as Ho. destruct (Z.odd e); cbn in Ho; lia. }
  assert ((match e - 2 * e' with Z0 => Zpos m | Zpos _ => Z.shiftl (Zpos m) (e - 2 * e') | Zneg _ => 0 end)
          = Zpos m * 2 ^ (e - 2 * e')) as ->.
  { destruct (e - 2 * e') eqn:E; [by rewrite Z.mul_1_r|by rewrite Z.shiftl_mul_pow2|lia]. }
  set (m' := Zpos m * 2 ^ (e - 2 * e')).
  assert (0 < m') by (unfold m'; apply Z.mul_pos_pos; lia).
  destruct (Z.sqrtrem m') as [q r] eqn:E.
  assert (m' = q * q + r ∧ 0 ≤ r ≤ 2 * q) as [Em Hr].
  { pose proof (Z.sqrtrem_spec m' ltac:(lia)) as Hs. by rewrite E in Hs. }
  assert (0 < q) by nia.
  set (x := root (Zpos m) e). pose proof (root_cut (Zpos m) e ltac:(lia)) as Hcut. fold x in Hcut.
  assert (∀ a, 0 ≤ a → x a e' = (m' ?= a * a)) as Xe.
  { intros a Ha. unfold x. rewrite (root_at _ _ _ _ (2 * e')) by lia. by rewrite Z.sub_diag, Z.mul_1_r. }
  assert (inbetween x q e' (if r =? 0 then loc_Exact else loc_Inexact (if r <=? q then Lt else Gt))) as Hin.
  { destruct (Z.eqb_spec r 0) as [->|Hr0]; cbn [inbetween]; rewrite !Xe by lia.
    - apply Z.compare_eq_iff. lia.
    - split; [apply Z.compare_gt_iff; lia|split; [apply Z.compare_lt_iff; nia|]].
      unfold x. rewrite (root_at _ _ _ _ (2 * (e' - 1))) by lia. rewrite Z.sub_diag, Z.mul_1_r.
      replace (e - 2 * (e' - 1)) with (Z.succ (Z.succ (e - 2 * e'))) by lia. rewrite !Z.pow_succ_r by lia.
      replace (Zpos m * (2 * (2 * 2 ^ (e - 2 * e')))) with (4 * m') by (unfold m'; ring). rewrite Em.
      destruct (Z.leb_spec r q); [apply Z.compare_lt_iff|apply Z.compare_gt_iff]; nia. }
  pose proof (root_mag m e) as Hk. fold k in Hk. fold x in Hk.
  apply (aux_rounded prec emax Hprec x _ _ _ _ k); [done|lia|done|].
  pose proof (inbetween_mag x q e' _ Hin ltac:(lia)) as Hk'. rewrite <- (mag_unique x _ _ Hk Hk'). lia.
Qed.

(** ** Magnitudes *)

(** A finite number in [2^(lo-1), 2^hi), up to its sign. *)
Definition near (f : spec_float) (lo hi : Z) : Prop :=
  match f with S754_finite _ m e => lo ≤ Zdigits2 (Zpos m) + e ≤ hi | _ => False end.

(** Rounding keeps the magnitude, or reaches the next power of two. *)
Lemma rounded_near x `{Cut x} k s f :
  mag x k → rounded x s f → emin + prec ≤ k → k + 1 ≤ emax → near f k (k + 1).
Proof.
  intros Hk (k' & M & Hk' & HM & HMb & ->) Hlo Hhi. rewrite (mag_unique x _ _ Hk' Hk) in *. clear Hk'.
  assert (fexp k = k - prec) as Ee by (unfold SpecFloat.fexp; lia). rewrite Ee in *.
  assert (2 ^ (prec - 1) ≤ M) as HM1.
  { destruct Hk as [Hk _]. destruct HM as [_ Hb _ _].
    pose proof (cut_bounds x _ _ _ _ (k - prec - 1) Hk Hb ltac:(lia) ltac:(lia)) as Hc.
    rewrite Z.sub_diag, Z.mul_1_l, Z.mul_1_r in Hc. replace (k - 1 - (k - prec - 1)) with (Z.succ (prec - 1)) in Hc by lia.
    rewrite Z.pow_succ_r in Hc by lia. lia. }
  assert (0 < 2 ^ (prec - 1)) by lia.
  assert (∀ N, 2 ^ (prec - 1) ≤ N < 2 ^ prec → Zdigits2 (Zpos (Z.to_pos N)) = prec) as Hd.
  { intros N HN. apply digits_unique; [lia|]. by rewrite Z2Pos.id by lia. }
  unfold canon, pack. replace (M =? 0) with false by lia. destruct (Z.eqb_spec M (2 ^ prec)).
  - replace (k - prec + 1 <=? emax - prec) with true by lia. cbn [near]. rewrite Hd; [lia|].
    split; [lia|]. apply Z.pow_lt_mono_r; lia.
  - replace (k - prec <=? emax - prec) with true by lia. cbn [near]. rewrite Hd; lia.
Qed.

Lemma near_weaken f lo hi lo' hi' : near f lo hi → lo' ≤ lo → hi ≤ hi' → near f lo' hi'.
Proof. destruct f; cbn; try done. lia. Qed.

Lemma digits_mul_le m n : Zdigits2 (Zpos (m * n)) ≤ Zdigits2 (Zpos m) + Zdigits2 (Zpos n).
Proof.
  pose proof (digits_bounds (Zpos m) ltac:(lia)) as [_ Hm]. pose proof (digits_bounds (Zpos n) ltac:(lia)) as [_ Hn].
  assert (0 < Zdigits2 (Zpos m) ∧ 0 < Zdigits2 (Zpos n)) as [] by (cbn; lia).
  destruct (digits_le (Zpos (m * n)) (Zdigits2 (Zpos m) + Zdigits2 (Zpos n))); [lia| |done|lia].
  rewrite Z.pow_add_r, Pos2Z.inj_mul by lia. apply Z.mul_lt_mono_nonneg; lia.
Qed.

Lemma SFmul_near a b lo hi lo' hi' :
  valid a → valid b → near a lo hi → near b lo' hi' → emin + prec < lo + lo' → hi + hi' < emax →
  near (SFmul prec emax a b) (lo + lo' - 1) (hi + hi' + 1).
Proof.
  destruct a as [| | |sa ma ea], b as [| | |sb mb eb]; try done. cbn [near]. intros Ha Hb Hna Hnb Hlo Hhi.
  pose proof (SFmul_rounded _ _ _ _ _ _ Ha Hb) as Hr.
  pose proof (dyadic_mag (Zpos ma * Zpos mb) (ea + eb) ltac:(lia)) as Hk.
  pose proof (digits_mul ma mb). pose proof (digits_mul_le ma mb). rewrite <- Pos2Z.inj_mul in *.
  apply (rounded_near _ _ _ _ Hk) in Hr; [|lia..]. eapply near_weaken; [exact Hr|lia..].
Qed.

Lemma SFdiv_near a b lo hi lo' hi' :
  valid a → valid b → near a lo hi → near b lo' hi' → emin + prec ≤ lo - hi' → hi - lo' + 2 ≤ emax →
  near (SFdiv prec emax a b) (lo - hi') (hi - lo' + 2).
Proof.
  destruct a as [| | |sa ma ea], b as [| | |sb mb eb]; try done. cbn [near]. intros Ha Hb Hna Hnb Hlo Hhi.
  pose proof (SFdiv_rounded _ _ _ _ _ _ Ha Hb) as Hr.
  pose proof (quot_cut (mant ma ea) (mant mb eb) ltac:(apply mant_pos; by apply (valid_exp sb mb))) as Hcut.
  destruct (quot_mag _ _ _ _ _ _ Ha Hb) as [Hk|Hk];
    (apply (rounded_near _ _ _ _ Hk) in Hr; [|lia..]; eapply near_weaken; [exact Hr|lia..]).
Qed.

Lemma SFsqrt_near m e lo hi :
  near (S754_finite false m e) lo hi → emin + prec ≤ Z.div2 (lo + 1) → Z.div2 (hi + 1) + 1 ≤ emax →
  near (SFsqrt prec emax (S754_finite false m e)) (Z.div2 (lo + 1)) (Z.div2 (hi + 1) + 1).
Proof.
  cbn [near]. intros Hn Hlo Hhi. pose proof (root_cut (Zpos m) e ltac:(lia)) as Hcut.
  pose proof (SFsqrt_rounded m e) as Hr. pose proof (root_mag m e) as Hk. rewrite !Z.div2_div in *.
  assert ((lo + 1) / 2 ≤ (Zdigits2 (Zpos m) + e + 1) / 2 ≤ (hi + 1) / 2) as []
    by (split; apply Z.div_le_mono; lia).
  apply (rounded_near _ _ _ _ Hk) in Hr; [|lia..]. eapply near_weaken; [exact Hr|lia..].
Qed.

Lemma rounded_sum_valid v f : rounded_sum v f → valid f.
Proof.
  intros (H1 & H2 & H3). destruct (Z.lt_trichotomy v 0) as [Hv|[Hv|Hv]].
  - exact (rounded_valid _ _ _ (H2 Hv)).
  - by rewrite (H3 Hv).
  - exact (rounded_valid _ _ _ (H1 Hv)).
Qed.

Lemma SFadd_valid a b : valid a → valid b → valid (SFadd prec emax a b).
Proof.
  intros Ha Hb. destruct a as [sa|sa| |sa ma ea], b as [sb|sb| |sb mb eb]; try (done || by destruct sa, sb).
  eapply rounded_sum_valid, SFadd_rounded; by eapply valid_exp.
Qed.

(** A sum is zero or at least a unit in the last place of the smaller term. *)
Lemma value_near f lo hi :
  valid f → near f lo hi → unit_exp + prec ≤ lo →
  ∃ c, value f = c * 2 ^ (lo - prec - unit_exp) ∧ Z.abs (value f) < 2 ^ (hi - unit_exp).
Proof.
  destruct f as [| | |s m e]; try done. intros Hv. cbn [near value]. intros Hn Hlo.
  pose proof (valid_digits _ _ _ Hv). pose proof (valid_exp _ _ _ Hv).
  pose proof (digits_bounds (Zpos m) ltac:(lia)) as [_ Hm]. assert (0 < Zdigits2 (Zpos m)) by (cbn; lia).
  exists (cond_Zopp s (Zpos m * 2 ^ (e - (lo - prec)))). unfold mant. split.
  - rewrite cond_Zopp_mul, <- Z.mul_assoc, <- Z.pow_add_r by lia. do 3 f_equal. lia.
  - assert (Z.abs (cond_Zopp s (Zpos m * 2 ^ (e - unit_exp))) = Zpos m * 2 ^ (e - unit_exp)) as ->
      by (destruct s; cbn [cond_Zopp]; lia).
    apply Z.lt_le_trans with (2 ^ Zdigits2 (Zpos m) * 2 ^ (e - unit_exp)); [apply Z.mul_lt_mono_pos_r; lia|].
    rewrite <- Z.pow_add_r by lia. apply Z.pow_le_mono_r; lia.
Qed.

Lemma rounded_sum_near v c f lo hi :
  rounded_sum v f → v = c * 2 ^ (lo - unit_exp) → Z.abs v < 2 ^ (hi - unit_exp) → unit_exp ≤ lo → lo < hi →
  emin + prec ≤ lo + 1 → hi + 1 ≤ emax → f = S754_zero false ∨ near f (lo + 1) (hi + 1).
Proof.
  intros (Hpos & Hneg & Hzero) Hc Hv Hu Hlh Hlo Hhi.
  assert (∀ w d, w = d * 2 ^ (lo - unit_exp) → 0 < w < 2 ^ (hi - unit_exp) →
    lo + 1 ≤ Zdigits2 w + unit_exp ≤ hi) as Hd.
  { intros w d -> [Hw1 Hw2]. destruct (digits_bounds (d * 2 ^ (lo - unit_exp)) Hw1) as [Hd1 Hd2].
    assert (0 < d) by nia. set (w := d * 2 ^ (lo - unit_exp)) in *. split.
    - assert (2 ^ (lo - unit_exp) < 2 ^ Zdigits2 w) as Hp.
      { eapply Z.le_lt_trans; [|exact Hd2]. unfold w.
        rewrite <- (Z.mul_1_l (2 ^ (lo - unit_exp))) at 1. apply Z.mul_le_mono_nonneg_r; lia. }
      pose proof (digits_nonneg w). apply Z.pow_lt_mono_r_iff in Hp; lia.
    - destruct (digits_le w (hi - unit_exp) ltac:(lia) Hw2); lia. }
  destruct (Z.lt_trichotomy v 0) as [Hs|[Hs|Hs]]; [right|left; auto|right].
  - pose proof (Hd (- v) (- c) ltac:(lia) ltac:(lia)) as [].
    apply (near_weaken f (Zdigits2 (- v) + unit_exp) (Zdigits2 (- v) + unit_exp + 1)); [|lia..].
    apply (rounded_near (dyadic (- v) unit_exp) _ true); [apply dyadic_mag; lia|auto|lia..].
  - pose proof (Hd v c Hc ltac:(lia)) as [].
    apply (near_weaken f (Zdigits2 v + unit_exp) (Zdigits2 v + unit_exp + 1)); [|lia..].
    apply (rounded_near (dyadic v unit_exp) _ false); [by apply dyadic_mag|auto|lia..].
Qed.

Lemma SFadd_near a b lo hi :
  valid a → valid b → near a lo hi → near b lo hi →
  unit_exp + prec ≤ lo → lo ≤ hi → emin + prec ≤ lo - prec + 1 → hi + 2 ≤ emax →
  SFadd prec emax a b = S754_zero false ∨ near (SFadd prec emax a b) (lo - prec + 1) (hi + 2).
Proof.
  intros Ha Hb Hna Hnb Hu Hlh Hlo Hhi.
  destruct (value_near a lo hi Ha Hna Hu) as (ca & Eca & Hca).
  destruct (value_near b lo hi Hb Hnb Hu) as (cb & Ecb & Hcb).
  replace (hi + 2) with (hi + 1 + 1) by lia.
  apply (rounded_sum_near (value a + value b) (ca + cb)); [|lia| |lia..].
  - destruct a as [| | |sa ma ea], b as [| | |sb mb eb]; try done.
    apply SFadd_rounded; by eapply valid_exp.
  - replace (hi + 1 - unit_exp) with (Z.succ (hi - unit_exp)) by lia. rewrite Z.pow_succ_r by lia. lia.
Qed.

(** ** Exact results *)

(** A number the format can hold stays as it is. *)
Lemma rounded_exact m e s f :
  Zdigits2 (Zpos m) ≤ prec → emin ≤ e → Zdigits2 (Zpos m) + e ≤ emax →
  rounded (dyadic (Zpos m) e) s f →
  ∃ m' e', f = S754_finite s m' e' ∧ emin ≤ e' ≤ e ∧ Zpos m' = Zpos m * 2 ^ (e - e').
Proof.
  intros Hd He Hmax (k & M & Hk & HM & _ & ->).
  assert (0 < Zdigits2 (Zpos m)) by (cbn; lia).
  rewrite (mag_unique _ _ _ Hk (dyadic_mag (Zpos m) e ltac:(lia))) in *. clear k Hk.
  set (e' := fexp (Zdigits2 (Zpos m) + e)) in *.
  assert (emin ≤ e' ≤ e) as Hee by (unfold e', SpecFloat.fexp; lia).
  assert (M = Zpos m * 2 ^ (e - e')) as ->.
  { apply (nearest_unique (dyadic (Zpos m) e) e'); [done|]. apply (round_nearest _ _ _ loc_Exact). cbn [inbetween].
    rewrite (dyadic_at _ _ _ _ e') by lia. by rewrite Z.sub_diag, Z.mul_1_r, Z.compare_refl. }
  assert (0 < Zpos m * 2 ^ (e - e') < 2 ^ prec) as Hlt.
  { split; [apply Z.mul_pos_pos; lia|]. destruct (digits_bounds (Zpos m) ltac:(lia)) as [_ Hm].
    apply Z.lt_le_trans with (2 ^ Zdigits2 (Zpos m) * 2 ^ (e - e')); [apply Z.mul_lt_mono_pos_r; lia|].
    rewrite <- Z.pow_add_r by lia. apply Z.pow_le_mono_r; [lia|]. unfold e', SpecFloat.fexp. lia. }
  exists (Z.to_pos (Zpos m * 2 ^ (e - e'))), e'. split; [|split; [done|lia]].
  unfold canon, pack. replace (_ =? 0) with false by lia. replace (_ =? 2 ^ prec) with false by lia.
  replace (e' <=? emax - prec) with true; [done|]. symmetry. apply Z.leb_le. unfold e', SpecFloat.fexp, SpecFloat.emin in *. lia.
Qed.

End format.
End RoundOps.
