(* ===== verification/RoundTwice.v ===== *)
(** * Rounding twice

    A result rounded to a wide format and then to a narrow one is the result
    rounded to the narrow format directly, unless the first rounding lands on
    the middle between two numbers of the narrow format.  With 53 and 24
    digits this never happens to the sum, difference, product, quotient or
    square root of numbers with 24 digits. *)
From S2P Require Import Prelude Dbl Round RoundOps.
From Stdlib Require Import SpecFloat.

Module RoundTwice.
Import Dbl(cast, to_single, to_double).
Import Round RoundOps.
Open Scope Z_scope.

Section twice.
Context (wp wmax np nmax : Z) (Hnp : 1 < np) (Hp : np < wp) (Hmin : emin wp wmax < emin np nmax).

Local Notation wexp := (fexp wp wmax).
Local Notation nexp := (fexp np nmax).

Lemma wexp_lt k : wexp k < nexp k.
Proof. unfold SpecFloat.fexp. lia. Qed.

(** The first rounding is no middle of the narrow format, unless exactly. *)
Definition no_middle (x : Z → Z → comparison) (k M : Z) : Prop :=
  ∀ j, Z.odd j = true → dyadic M (wexp k) j (nexp k - 1) = Eq → x j (nexp k - 1) = Eq.

Lemma twice_nearest x `{Cut x} k M N :
  nearest x (wexp k) M → no_middle x k M → nearest x (nexp k) N →
  nearest (dyadic M (wexp k)) (nexp k) N.
Proof.
  intros [Wlo Whi _ _] Hmid [Nlo Nhi Tlo Thi]. pose proof (wexp_lt k).
  assert (∀ j, dyadic M (wexp k) j (nexp k - 1) = (M ?= j * 2 ^ (nexp k - 1 - wexp k))) as Hy.
  { intros j. rewrite (dyadic_at _ _ _ _ (wexp k)) by lia. by rewrite Z.sub_diag, Z.mul_1_r. }
  assert (∀ j, j * 2 ^ (nexp k - 1 - (wexp k - 1)) = 2 * (j * 2 ^ (nexp k - 1 - wexp k))) as H2.
  { intros j. replace (nexp k - 1 - (wexp k - 1)) with (Z.succ (nexp k - 1 - wexp k)) by lia.
    rewrite Z.pow_succ_r by lia. ring. }
  split.
  - rewrite Hy. intros Hlt. apply -> Z.compare_lt_iff in Hlt.
    pose proof (cut_bounds x _ _ _ _ (wexp k - 1) Nlo Whi ltac:(lia) ltac:(lia)) as Hb.
    rewrite H2, Z.sub_diag, Z.mul_1_r in Hb. lia.
  - rewrite Hy. intros Hgt. apply -> Z.compare_gt_iff in Hgt.
    pose proof (cut_bounds x _ _ _ _ (wexp k - 1) Wlo Nhi ltac:(lia) ltac:(lia)) as Hb.
    rewrite H2, Z.sub_diag, Z.mul_1_r in Hb. lia.
  - intros E. apply Tlo, Hmid; [|done]. by rewrite Z.odd_sub, Z.odd_mul.
  - intros E. apply Thi, Hmid; [|done]. by rewrite Z.odd_add, Z.odd_mul.
Qed.

(** Rounding reaches at most the next power of two. *)
Lemma twice_mag x `{Cut x} k M :
  mag x k → nearest x (wexp k) M → wexp k < k →
  mag (dyadic M (wexp k)) k ∨ M = 2 ^ (k - wexp k).
Proof.
  intros [Klo Khi] [Wlo Whi _ _] Hk.
  pose proof (cut_bounds x _ _ _ _ (wexp k - 1) Klo Whi ltac:(lia) ltac:(lia)) as Hlo.
  pose proof (cut_bounds_lt x _ _ _ _ (wexp k - 1) Wlo Khi ltac:(lia) ltac:(lia)) as Hhi.
  rewrite Z.sub_diag, Z.mul_1_r, Z.mul_1_l in *.
  replace (k - 1 - (wexp k - 1)) with (Z.succ (k - 1 - wexp k)) in Hlo by lia.
  replace (k - (wexp k - 1)) with (Z.succ (k - wexp k)) in Hhi by lia.
  rewrite Z.pow_succ_r in Hlo, Hhi by lia.
  destruct (Z.eq_dec M (2 ^ (k - wexp k))) as [|Hne]; [by right|left].
  split; rewrite (dyadic_at _ _ _ _ (wexp k)) by lia; rewrite Z.sub_diag, Z.mul_1_r, Z.mul_1_l.
  - apply Z.compare_ge_iff. lia.
  - apply Z.compare_lt_iff. lia.
Qed.

Theorem twice_rounded x `{Cut x} k M s f :
  mag x k → nearest x (wexp k) M → wexp k < k → no_middle x k M →
  rounded np nmax x s f → rounded np nmax (dyadic M (wexp k)) s f.
Proof.
  intros Hk HM Hwk Hmid (k' & N & Hk' & HN & HNb & ->).
  pose proof (mag_unique x _ _ Hk Hk') as <-.
  pose proof (twice_nearest x k M N HM Hmid HN) as HyN.
  destruct (twice_mag x k M Hk HM Hwk) as [Hy| ->]; [by exists k, N|].
  set (y := dyadic (2 ^ (k - wexp k)) (wexp k)) in *.
  assert (∀ m e, wexp k ≤ e → y m e = (2 ^ (k - wexp k) ?= m * 2 ^ (e - wexp k))) as Hat.
  { intros m e He. unfold y. rewrite (dyadic_at _ _ _ _ (wexp k)) by lia. by rewrite Z.sub_diag, Z.mul_1_r. }
  assert (0 < 2 ^ (k - wexp k)) by lia.
  assert (mag y (k + 1)) as Hy.
  { split; rewrite Hat by lia; rewrite Z.mul_1_l.
    - replace (k + 1 - 1) with k by lia. by rewrite Z.compare_refl.
    - replace (k + 1 - wexp k) with (Z.succ (k - wexp k)) by lia. rewrite Z.pow_succ_r by lia.
      apply Z.compare_lt_iff. lia. }
  pose proof (wexp_lt k).
  destruct (Z_le_gt_dec (k + 1 - np) (emin np nmax)) as [Hsmall|Hbig].
  - assert (nexp (k + 1) = nexp k) as E by (unfold SpecFloat.fexp; lia).
    exists (k + 1), N. by rewrite E.
  - assert (nexp (k + 1) = nexp k + 1) as E by (unfold SpecFloat.fexp; lia).
    assert (nexp k = k - np) as Ek by (unfold SpecFloat.fexp; lia).
    assert (∀ e m, wexp k ≤ e ≤ k → m = 2 ^ (k - e) → nearest y e m) as Hexact.
    { intros e m He ->. apply (round_nearest y _ _ loc_Exact). change (y (2 ^ (k - e)) e = Eq).
      rewrite Hat by lia. rewrite <- Z.pow_add_r by lia. apply Z.compare_eq_iff. f_equal. lia. }
    assert (N = 2 ^ np) as -> by (apply (nearest_unique y (nexp k)); [done|apply Hexact; [lia|f_equal; lia]]).
    exists (k + 1), (2 ^ (np - 1)). split; [done|]. rewrite E. split; [apply Hexact; [lia|f_equal; lia]|].
    assert (2 ^ np = 2 * 2 ^ (np - 1)) as E2 by (rewrite <- Z.pow_succ_r by lia; f_equal; lia).
    assert (0 < 2 ^ (np - 1)) by lia. split; [lia|].
    unfold canon. replace (2 ^ np =? 0) with false by lia. rewrite Z.eqb_refl.
    by replace (2 ^ (np - 1) =? 0) with false by lia; replace (2 ^ (np - 1) =? 2 ^ np) with false by lia.
Qed.

Lemma twice_pos x `{Cut x} k M : mag x k → nearest x (wexp k) M → wexp k < k → 0 < M.
Proof.
  intros [Klo _] [_ Whi _ _] Hk.
  pose proof (cut_bounds x _ _ _ _ (wexp k - 1) Klo Whi ltac:(lia) ltac:(lia)) as Hlo.
  rewrite Z.sub_diag, Z.mul_1_r, Z.mul_1_l in Hlo.
  replace (k - 1 - (wexp k - 1)) with (Z.succ (k - 1 - wexp k)) in Hlo by lia.
  rewrite Z.pow_succ_r in Hlo by lia. lia.
Qed.

Lemma canon_dyadic s M e : 0 < M → e + 1 ≤ wmax - wp →
  ∃ m' e', canon wp wmax s M e = S754_finite s m' e' ∧ ∀ a b, dyadic (Zpos m') e' a b = dyadic M e a b.
Proof.
  intros HM He. unfold canon, pack. replace (M =? 0) with false by lia.
  destruct (Z.eqb_spec M (2 ^ wp)) as [->|].
  - replace (e + 1 <=? wmax - wp) with true by lia. eexists _, _. split; [done|]. intros a b.
    assert (0 < 2 ^ (wp - 1)) by lia. rewrite Z2Pos.id by lia.
    rewrite <- (dyadic_scale (2 ^ (wp - 1)) (e + 1) 1) by lia. f_equal; [|lia].
    rewrite <- Z.pow_add_r by lia. f_equal. lia.
  - replace (e <=? wmax - wp) with true by lia. eexists _, _. split; [done|]. intros a b. by rewrite Z2Pos.id by lia.
Qed.

Theorem cast_twice x `{Cut x} k s f g :
  mag x k → wexp k < k → wexp k + 1 ≤ wmax - wp →
  (∀ M, nearest x (wexp k) M → no_middle x k M) →
  rounded wp wmax x s f → rounded np nmax x s g → cast np nmax f = g.
Proof.
  intros Hk Hwk Hmax Hmid (k' & M & Hk' & HM & HMb & ->) Hg.
  pose proof (mag_unique x _ _ Hk Hk') as <-.
  destruct (canon_dyadic s M (wexp k)) as (m' & e' & -> & E); [by apply (twice_pos x k)|lia|]. cbn [cast].
  apply (rounded_unique np nmax (dyadic M (wexp k)) s).
  - eapply rounded_ext; [exact E|]. apply binary_round_rounded. lia.
  - apply (twice_rounded x); auto.
Qed.

End twice.

(** ** Doubles and singles *)

Notation single_prec := 24 (only parsing).
Notation single_emax := 128 (only parsing).

Lemma wexp_eq k : fexp 53 1024 k = Z.max (k - 53) (-1074).
Proof. done. Qed.
Lemma nexp_eq k : fexp 24 128 k = Z.max (k - 24) (-149).
Proof. done. Qed.

Definition no_middle_at (x : Z → Z → comparison) (k : Z) : Prop :=
  ∀ M, nearest x (fexp 53 1024 k) M → no_middle 53 1024 24 128 x k M.

(** A result doubles can hold. *)
Lemma no_middle_exact a l k : fexp 53 1024 k ≤ l → no_middle_at (dyadic a l) k.
Proof.
  intros Hl M HM j _ Hj. set (ew := fexp 53 1024 k) in *.
  assert (M = a * 2 ^ (l - ew)) as ->.
  { apply (nearest_unique (dyadic a l) ew); [done|]. apply (round_nearest _ _ _ loc_Exact). cbn [inbetween].
    rewrite (dyadic_at _ _ _ _ ew) by lia. by rewrite Z.sub_diag, Z.mul_1_r, Z.compare_refl. }
  rewrite <- (dyadic_scale a l (l - ew)) by lia. by replace (l - (l - ew)) with ew by lia.
Qed.

(** Two multiples of a power of two that are not that far apart are equal. *)
Lemma multiples_close a b n d : 0 ≤ n → Z.abs (a * 2 ^ n - b * 2 ^ n) ≤ d → d < 2 ^ n → a * 2 ^ n = b * 2 ^ n.
Proof.
  intros Hn Hab Hd. assert (a = b) as ->; [|done].
  replace (a * 2 ^ n - b * 2 ^ n) with ((a - b) * 2 ^ n) in Hab by ring.
  rewrite Z.abs_mul, (Z.abs_eq (2 ^ n)) in Hab by lia.
  destruct (Z.eq_dec (a - b) 0); [lia|]. nia.
Qed.

Definition single : spec_float → Prop := valid 24 128.
Definition double : spec_float → Prop := valid 53 1024.

Lemma unit_single : unit_exp ≤ emin 24 128.
Proof. done. Qed.
Lemma unit_double : unit_exp ≤ emin 53 1024.
Proof. done. Qed.

Lemma single_bounds s m e : single (S754_finite s m e) →
  -149 ≤ e ≤ 104 ∧ 0 < Zpos m < 2 ^ 24 ∧ 0 < Zdigits2 (Zpos m) ≤ 24.
Proof.
  intros Hv. pose proof (valid_digits 24 128 s m e Hv) as Hd. apply valid_finite in Hv as [He Hmax].
  rewrite nexp_eq in He. pose proof (digits_bounds (Zpos m) ltac:(lia)) as [_ Hm].
  assert (0 < Zdigits2 (Zpos m)) by (cbn; lia).
  assert (2 ^ Zdigits2 (Zpos m) ≤ 2 ^ 24) by (apply Z.pow_le_mono_r; lia). lia.
Qed.

Lemma no_middle_quot sx mx ex sy my ey k :
  single (S754_finite sx mx ex) → single (S754_finite sy my ey) →
  mag (quot (mant mx ex) (mant my ey)) k → no_middle_at (quot (mant mx ex) (mant my ey)) k.
Proof.
  intros Hx Hy Hk M HM j _ Hj.
  destruct (single_bounds _ _ _ Hx) as (Hex & Hmx & Hdx). destruct (single_bounds _ _ _ Hy) as (Hey & Hmy & Hdy).
  set (x := quot (mant mx ex) (mant my ey)) in *.
  pose proof (quot_cut (mant mx ex) (mant my ey) ltac:(apply mant_pos; unfold unit_exp; lia)) as Hcut. fold x in Hcut.
  assert (k ≤ ex - ey + 24 ∧ -300 ≤ k) as [Hk1 Hk2].
  { pose proof (quot_mag 24 128 unit_single _ _ _ _ _ _ Hx Hy) as Hm. cbv zeta in Hm.
    destruct Hm as [Hm|Hm]; rewrite (mag_unique x _ _ Hk Hm); lia. }
  set (ew := fexp 53 1024 k) in *. set (en := fexp 24 128 k) in *.
  assert (ew = k - 53) as Eew by (unfold ew; rewrite wexp_eq; lia).
  assert (k - 24 ≤ en) as Een by (unfold en; rewrite nexp_eq; lia).
  assert (∀ a e, ew - 1 ≤ e → x a e = (Zpos mx * 2 ^ (ex - ey - (ew - 1)) ?= a * Zpos my * 2 ^ (e - (ew - 1)))) as Xe.
  { intros a e He. unfold x. apply quot_mant; unfold unit_exp; lia. }
  destruct HM as [Hlo Hhi _ _]. rewrite !Xe, !Z.sub_diag, !Z.mul_1_r in Hlo, Hhi by lia.
  apply -> Z.compare_ge_iff in Hlo. apply -> Z.compare_le_iff in Hhi.
  rewrite (dyadic_at _ _ _ _ ew) in Hj by lia. rewrite Z.sub_diag, Z.mul_1_r in Hj. apply -> Z.compare_eq_iff in Hj.
  rewrite Xe by lia. apply Z.compare_eq_iff.
  replace (ex - ey - (ew - 1)) with (ex - ey - (ew - 1) - 25 + 25) in * by lia.
  replace (en - 1 - (ew - 1)) with (en - ew - 25 + 25) by lia.
  rewrite !Z.pow_add_r, !Z.mul_assoc in * by lia.
  apply (multiples_close _ _ _ (Zpos my)); [lia| |lia].
  assert (2 * M = j * 2 ^ (en - ew - 25) * 2 ^ 25) as E2.
  { rewrite Hj. rewrite <- !Z.mul_assoc, <- Z.pow_add_r by lia. replace (en - ew - 25 + 25) with (Z.succ (en - 1 - ew)) by lia.
    rewrite Z.pow_succ_r by lia. ring. }
  replace (j * Zpos my * 2 ^ (en - ew - 25) * 2 ^ 25) with (j * 2 ^ (en - ew - 25) * 2 ^ 25 * Zpos my) by ring.
  rewrite <- E2. lia.
Qed.

Lemma no_middle_root s m e k :
  single (S754_finite s m e) → mag (root (Zpos m) e) k → no_middle_at (root (Zpos m) e) k.
Proof.
  intros Hx Hk M HM j _ Hj.
  destruct (single_bounds _ _ _ Hx) as (Hex & Hm & Hd).
  set (x := root (Zpos m) e) in *. pose proof (root_cut (Zpos m) e ltac:(lia)) as Hcut. fold x in Hcut.
  rewrite (mag_unique x _ _ Hk (root_mag m e)) in *. clear Hk.
  set (k' := Z.div2 (Zdigits2 (Zpos m) + e + 1)) in *.
  assert (2 * k' ≤ e + 25 ∧ e - 1 ≤ 2 * k') as [Hk1 Hk2].
  { unfold k'. rewrite Z.div2_div. pose proof (Z.mod_pos_bound (Zdigits2 (Zpos m) + e + 1) 2).
    pose proof (Z_div_mod_eq_full (Zdigits2 (Zpos m) + e + 1) 2). lia. }
  pose proof (twice_pos 53 1024 x k' M (root_mag m e) HM) as HM0.
  set (ew := fexp 53 1024 k') in *. set (en := fexp 24 128 k') in *.
  assert (ew = k' - 53) as Eew by (unfold ew; rewrite wexp_eq; lia).
  assert (en = k' - 24) as Een by (unfold en; rewrite nexp_eq; lia).
  specialize (HM0 ltac:(lia)).
  assert (M ≤ 2 ^ 53) as HM1.
  { destruct HM as [Hlo _ _ _]. destruct (root_mag m e) as [_ Hhi]. fold x k' in Hhi.
    pose proof (cut_bounds_lt x _ _ _ _ (ew - 1) Hlo Hhi ltac:(lia) ltac:(lia)) as Hb.
    rewrite Z.sub_diag in Hb. replace (k' - (ew - 1)) with 54 in Hb by lia. lia. }
  assert (∀ a e', 0 ≤ a → ew - 1 ≤ e' →
    x a e' = (Zpos m * 2 ^ (e - 2 * (ew - 1)) ?= a * a * 2 ^ (2 * e' - 2 * (ew - 1)))) as Xe.
  { intros a e' Ha He'. unfold x. apply root_at; lia. }
  destruct HM as [Hlo Hhi _ _]. rewrite Xe, Z.sub_diag, Z.mul_1_r in Hlo, Hhi by lia.
  apply -> Z.compare_ge_iff in Hlo. apply -> Z.compare_le_iff in Hhi.
  rewrite (dyadic_at _ _ _ _ ew) in Hj by lia. rewrite Z.sub_diag, Z.mul_1_r in Hj. apply -> Z.compare_eq_iff in Hj.
  assert (en - 1 - ew = 28) as E28 by lia. rewrite E28 in Hj.
  rewrite Xe by lia. apply Z.compare_eq_iff.
  replace (2 * (en - 1) - 2 * (ew - 1)) with 58 by lia.
  replace (e - 2 * (ew - 1)) with (e - 2 * (ew - 1) - 58 + 58) in * by lia.
  rewrite Z.pow_add_r, !Z.mul_assoc in * by lia.
  apply (multiples_close _ _ _ (4 * M + 1)); [lia| |lia].
  replace (j * j * 2 ^ 58) with (2 * M * (2 * M)) by (rewrite Hj; ring). nia.
Qed.

Lemma no_middle_product sx mx ex sy my ey k :
  single (S754_finite sx mx ex) → single (S754_finite sy my ey) →
  mag (dyadic (Zpos mx * Zpos my) (ex + ey)) k → no_middle_at (dyadic (Zpos mx * Zpos my) (ex + ey)) k.
Proof.
  intros Hx Hy Hk. destruct (single_bounds _ _ _ Hx) as (Hex & Hmx & Hdx).
  destruct (single_bounds _ _ _ Hy) as (Hey & Hmy & Hdy).
  apply no_middle_exact. rewrite (mag_unique _ _ _ Hk (dyadic_mag (Zpos mx * Zpos my) (ex + ey) ltac:(lia))).
  rewrite wexp_eq. assert (Zpos mx * Zpos my < 2 ^ 48) by nia.
  destruct (digits_le (Zpos mx * Zpos my) 48 ltac:(lia) ltac:(lia)); lia.
Qed.

(** A sum: if doubles cannot hold it, the smaller number is too small to come
    near the middle of two singles next to the larger. *)
(** A sum whose lower term is a multiple of the last place of a double is
    a double. *)
Lemma no_middle_fits p el q g k :
  -149 ≤ g ≤ el → fexp 53 1024 k ≤ g →
  no_middle_at (dyadic (p * 2 ^ (el - unit_exp) + q * 2 ^ (g - unit_exp)) unit_exp) k.
Proof.
  intros Hg Hfit M HM. unfold unit_exp in *. set (v := p * _ + _) in *.
  pose proof (no_middle_exact (p * 2 ^ (el - g) + q) g k Hfit) as He.
  assert (∀ a b, dyadic v (-1074) a b = dyadic (p * 2 ^ (el - g) + q) g a b) as E.
  { intros a b. rewrite <- (dyadic_scale _ g (g + 1074)) by lia. f_equal; [|lia].
    unfold v. rewrite Z.mul_add_distr_r, <- Z.mul_assoc, <- Z.pow_add_r by lia. do 3 f_equal; lia. }
  intros j Hj. rewrite E. apply (He M); [|done]. destruct HM as [H1 H2 H3 H4]. rewrite !E in *. by constructor.
Qed.

Lemma no_middle_sum p el q g k :
  Z.abs p < 2 ^ 24 → Z.abs q < 2 ^ 24 → -149 ≤ g ≤ el →
  let v := p * 2 ^ (el - unit_exp) + q * 2 ^ (g - unit_exp) in
  mag (dyadic v unit_exp) k → no_middle_at (dyadic v unit_exp) k.
Proof.
  intros Hp Hq Hg v Hk. unfold unit_exp in *.
  destruct (Z_le_gt_dec (fexp 53 1024 k) g) as [Hfit|Hgap]; [by apply no_middle_fits|].
  rewrite wexp_eq in Hgap. destruct Hk as [Hlo Hhi].
  rewrite (dyadic_at _ _ _ _ (-1074)) in Hlo by lia. rewrite (dyadic_at _ _ _ _ (-1074)) in Hhi by lia.
  rewrite Z.mul_1_l, Z.sub_diag, Z.mul_1_r in Hlo, Hhi.
  apply -> Z.compare_ge_iff in Hlo. apply -> Z.compare_lt_iff in Hhi.
  intros M [Mlo Mhi _ _] j Hj Hmid.
  rewrite wexp_eq, nexp_eq in *. rewrite (Z.max_l (k - 53)) in * by lia. rewrite (Z.max_l (k - 24)) in * by lia.
  rewrite (dyadic_at _ _ _ _ (-1074)) in Mlo by lia. rewrite (dyadic_at _ _ _ _ (-1074)) in Mhi by lia.
  rewrite Z.sub_diag, Z.mul_1_r in Mlo, Mhi.
  apply -> Z.compare_ge_iff in Mlo. apply -> Z.compare_le_iff in Mhi.
  rewrite (dyadic_at _ _ _ _ (k - 53)) in Hmid by lia. rewrite Z.sub_diag, Z.mul_1_r in Hmid.
  apply -> Z.compare_eq_iff in Hmid. replace (k - 24 - 1 - (k - 53)) with 28 in Hmid by lia.
  exfalso.
  (* everything in units of a quarter of the last place of a double *)
  set (D := 2 ^ (k - 55 + 1074)) in *. assert (0 < D) by (unfold D; lia).
  assert (∀ n, 0 ≤ n → 2 ^ (k - 55 + n + 1074) = 2 ^ n * D) as HD.
  { intros n Hn. unfold D. rewrite <- Z.pow_add_r by lia. f_equal. lia. }
  replace (k - 53 - 1 - -1074) with (k - 55 + 1 + 1074) in * by lia.
  replace (k - 1 - -1074) with (k - 55 + 54 + 1074) in * by lia.
  replace (k - -1074) with (k - 55 + 55 + 1074) in * by lia.
  rewrite HD in Mlo, Mhi, Hlo, Hhi by lia.
  assert (Z.abs (q * 2 ^ (g - -1074)) < 2 ^ 24 * (2 * D)) as Hqs.
  { rewrite Z.abs_mul, (Z.abs_eq (2 ^ (g - -1074))) by lia.
    apply Z.lt_le_trans with (2 ^ 24 * 2 ^ (g - -1074)); [apply Z.mul_lt_mono_pos_r; lia|].
    apply Z.mul_le_mono_nonneg_l; [lia|]. replace (2 * D) with (2 ^ 1 * D) by lia. rewrite <- HD by lia.
    apply Z.pow_le_mono_r; lia. }
  set (Q := q * 2 ^ (g - -1074)) in *.
  assert (k - 24 ≤ el) as Hel.
  { destruct (Z_le_gt_dec (k - 24) el) as [|Hel]; [done|exfalso].
    assert (2 ^ (el - -1074) ≤ 2 ^ 30 * D) as Hle by (rewrite <- HD by lia; apply Z.pow_le_mono_r; lia).
    assert (p * 2 ^ (el - -1074) ≤ (2 ^ 24 - 1) * (2 ^ 30 * D)).
    { apply Z.le_trans with ((2 ^ 24 - 1) * 2 ^ (el - -1074)); [apply Z.mul_le_mono_nonneg_r; lia|].
      apply Z.mul_le_mono_nonneg_l; lia. }
    unfold v in Hlo. lia. }
  assert (p * 2 ^ (el - -1074) = p * 2 ^ (el - (k - 24)) * (2 ^ 31 * D)) as EP.
  { rewrite <- HD by lia. rewrite <- Z.mul_assoc, <- Z.pow_add_r by lia. do 2 f_equal. lia. }
  unfold v in Mlo, Mhi. rewrite EP in Mlo, Mhi. set (P := p * 2 ^ (el - (k - 24))) in *.
  rewrite Hmid in Mlo, Mhi. apply Zodd_bool_iff in Hj. apply Zodd_ex in Hj as [i ->].
  assert (P ≤ i ∨ i + 1 ≤ P) as [|] by lia; nia.
Qed.

(** ** Operations on singles, computed with doubles *)

Lemma to_single_twice x `{Cut x} k s f g :
  mag x k → -1074 < k ≤ 1000 → no_middle_at x k →
  rounded 53 1024 x s f → rounded 24 128 x s g → to_single f = g.
Proof. intros Hk Hb Hm. apply (cast_twice 53 1024 24 128 ltac:(lia) ltac:(lia) ltac:(done) x k); auto; rewrite wexp_eq; lia. Qed.

Lemma to_double_finite s m e : single (S754_finite s m e) →
  ∃ m' e', to_double (S754_finite s m e) = S754_finite s m' e' ∧ double (S754_finite s m' e') ∧
    -1074 ≤ e' ≤ e ∧ Zpos m' = Zpos m * 2 ^ (e - e').
Proof.
  intros Hv. destruct (single_bounds s m e Hv) as (He & _ & Hd). cbn [to_double cast].
  pose proof (binary_round_rounded 53 1024 ltac:(lia) s m e) as Hr.
  pose proof (rounded_valid 53 1024 ltac:(lia) _ _ _ Hr) as Hdv.
  destruct (rounded_exact 53 1024 ltac:(lia) ltac:(lia) m e s _ ltac:(lia) ltac:(unfold SpecFloat.emin; lia) ltac:(lia) Hr)
    as (m' & e' & E & He' & Em).
  rewrite E in Hdv. exists m', e'. unfold to_double, cast. rewrite E. repeat split; [done|..|done]; unfold SpecFloat.emin in *; lia.
Qed.

Lemma to_double_mant s m e m' e' : single (S754_finite s m e) → -1074 ≤ e' ≤ e → Zpos m' = Zpos m * 2 ^ (e - e') →
  mant m' e' = mant m e.
Proof.
  intros Hv He Em. destruct (single_bounds s m e Hv) as (He' & _). unfold mant, unit_exp. rewrite Em.
  rewrite <- Z.mul_assoc, <- Z.pow_add_r by lia. do 2 f_equal. lia.
Qed.

(** Rounding what the format already holds. *)
Lemma binary_round_valid s m e : single (S754_finite s m e) → binary_round 24 128 s m e = S754_finite s m e.
Proof.
  intros Hv. destruct (single_bounds s m e Hv) as (He & Hm & Hd). pose proof Hv as [Hf Hmax]%valid_finite.
  apply (rounded_unique 24 128 (dyadic (Zpos m) e) s); [by apply binary_round_rounded; lia|].
  exists (Zdigits2 (Zpos m) + e), (Zpos m). split; [by apply dyadic_mag|]. rewrite Hf.
  split; [apply (round_nearest _ _ _ loc_Exact), dyadic_self|]. split; [lia|].
  unfold canon, pack. replace (Zpos m =? 2 ^ 24) with false by lia. by replace (e <=? 128 - 24) with true by lia.
Qed.

Lemma to_single_double f : single f → to_single (to_double f) = f.
Proof.
  destruct f as [| | |s m e]; try done. intros Hv.
  destruct (to_double_finite s m e Hv) as (m' & e' & -> & _ & He & Em). cbn [to_single cast].
  transitivity (binary_round 24 128 s m e); [|by apply binary_round_valid].
  apply (rounded_unique 24 128 (dyadic (Zpos m) e) s); [|by apply binary_round_rounded; lia].
  eapply rounded_ext; [|by apply binary_round_rounded; lia]. intros a b. cbn.
  rewrite <- (dyadic_scale (Zpos m) e (e - e')) by lia. rewrite <- Em. f_equal. lia.
Qed.

Lemma to_single_sum p ex q ey f g :
  Z.abs p < 2 ^ 24 → Z.abs q < 2 ^ 24 → -149 ≤ ex ≤ 104 → -149 ≤ ey ≤ 104 →
  rounded_sum 53 1024 (p * 2 ^ (ex - unit_exp) + q * 2 ^ (ey - unit_exp)) f →
  rounded_sum 24 128 (p * 2 ^ (ex - unit_exp) + q * 2 ^ (ey - unit_exp)) g →
  to_single f = g.
Proof.
  intros Hp Hq Hx Hy.
  assert (∀ p q, Z.abs p < 2 ^ 24 → Z.abs q < 2 ^ 24 →
    let v := p * 2 ^ (ex - unit_exp) + q * 2 ^ (ey - unit_exp) in
    0 < v → ∃ k, mag (dyadic v unit_exp) k ∧ -1074 < k ≤ 1000 ∧ no_middle_at (dyadic v unit_exp) k) as Hpos.
  { clear p q Hp Hq. intros p q Hp Hq v Hv. exists (Zdigits2 v + unit_exp).
    pose proof (dyadic_mag v unit_exp Hv) as Hk. split; [done|]. split.
    - assert (0 < Zdigits2 v) by (destruct v; cbn in *; lia). unfold unit_exp in *.
      assert (v < 2 ^ 1203) as Hlt.
      { assert (∀ r e, Z.abs r < 2 ^ 24 → -149 ≤ e ≤ 104 → r * 2 ^ (e - -1074) < 2 ^ 1202) as Hb; [|pose proof (Hb p ex Hp); pose proof (Hb q ey Hq); unfold v, unit_exp; lia].
        intros r e Hr He. apply Z.lt_le_trans with (2 ^ 24 * 2 ^ (e - -1074)); [apply Z.mul_lt_mono_pos_r; lia|].
        rewrite <- Z.pow_add_r by lia. apply Z.pow_le_mono_r; lia. }
      destruct (digits_le v 1203 ltac:(lia) Hlt); lia.
    - destruct (Z_le_gt_dec ey ex).
      + apply (no_middle_sum p ex q ey); (done || lia).
      + revert Hk. unfold v. rewrite Z.add_comm. intros Hk. apply (no_middle_sum q ey p ex); (done || lia). }
  set (v := p * 2 ^ (ex - unit_exp) + q * 2 ^ (ey - unit_exp)). intros (F1 & F2 & F3) (G1 & G2 & G3).
  destruct (Z.lt_trichotomy v 0) as [Hv|[Hv|Hv]].
  - destruct (Hpos (- p) (- q)) as (k & Hk & Hb & Hm); [lia|lia|unfold v in Hv; lia|].
    replace (- p * 2 ^ (ex - unit_exp) + - q * 2 ^ (ey - unit_exp)) with (- v) in * by (unfold v; lia).
    apply (to_single_twice _ k true _ _ Hk Hb Hm); auto.
  - rewrite F3, G3 by done. done.
  - destruct (Hpos p q) as (k & Hk & Hb & Hm); [done..|]. fold v in Hk, Hm.
    apply (to_single_twice _ k false _ _ Hk Hb Hm); auto.
Qed.

(** A finite number and its double have the same value. *)
Lemma value_eq (s : bool) m e : value (S754_finite s m e) = cond_Zopp s (Zpos m) * 2 ^ (e - unit_exp).
Proof. cbn. by rewrite cond_Zopp_mul. Qed.

Lemma value_to_double s m e : single (S754_finite s m e) → value (to_double (S754_finite s m e)) = value (S754_finite s m e).
Proof.
  intros Hv. destruct (to_double_finite s m e Hv) as (m' & e' & -> & _ & He & Em). cbn [value].
  by rewrite (to_double_mant s m e).
Qed.

Lemma cond_Zopp_bound s m n : 0 < Zpos m < n → Z.abs (cond_Zopp s (Zpos m)) < n.
Proof. destruct s; cbn; lia. Qed.

(** The double of a finite number is finite. *)
Ltac widen H m e :=
  let Hv := fresh "Hv" in
  pose proof H as Hv; apply to_double_finite in Hv; destruct Hv as (m & e & -> & ? & ? & ?).

Lemma to_single_add a b : single a → single b →
  to_single (SFadd 53 1024 (to_double a) (to_double b)) = SFadd 24 128 a b.
Proof.
  intros Ha Hb. destruct a as [sa|sa| |sa ma ea]; [| |done|].
  - destruct b as [sb|sb| |sb mb eb]; [by destruct sa, sb|done|done|].
    transitivity (to_single (to_double (S754_finite sb mb eb))); [|by apply to_single_double].
    by widen Hb m e.
  - destruct b as [sb|sb| |sb mb eb]; [done|by destruct sa, sb|done|]. by widen Hb m e.
  - destruct b as [sb|sb| |sb mb eb].
    + transitivity (to_single (to_double (S754_finite sa ma ea))); [|by apply to_single_double].
      by widen Ha m e.
    + by widen Ha m e.
    + by widen Ha m e.
    + destruct (single_bounds _ _ _ Ha) as (Hea & Hma & _). destruct (single_bounds _ _ _ Hb) as (Heb & Hmb & _).
      apply (to_single_sum (cond_Zopp sa (Zpos ma)) ea (cond_Zopp sb (Zpos mb)) eb);
        [by apply cond_Zopp_bound|by apply cond_Zopp_bound|done|done|..]; rewrite <- !value_eq.
      * rewrite <- (value_to_double sa ma ea), <- (value_to_double sb mb eb) by done.
        widen Ha ma' ea'. widen Hb mb' eb'. apply SFadd_rounded; unfold unit_exp; lia.
      * apply SFadd_rounded; unfold unit_exp; lia.
Qed.

Lemma SFsub_opp prec emax a b : SFsub prec emax a b = SFadd prec emax a (SFopp b).
Proof.
  destruct a as [sa|sa| |sa ma ea], b as [sb|sb| |sb mb eb]; try (done || by destruct sa, sb).
Qed.

Lemma binary_round_opp prec emax s m e : binary_round prec emax (negb s) m e = SFopp (binary_round prec emax s m e).
Proof.
  unfold binary_round, binary_round_aux. destruct (shl_align _ _ _) as [mz ez].
  destruct (shr_fexp _ _ _ _ _) as [r e']. destruct (shr_fexp _ _ _ _ loc_Exact) as [r' e''].
  destruct (shr_m r'); [done| |done]. by destruct (_ <=? _).
Qed.

Lemma to_double_opp f : to_double (SFopp f) = SFopp (to_double f).
Proof. destruct f as [| | |s m e]; try done. apply binary_round_opp. Qed.

Lemma single_opp f : single f → single (SFopp f).
Proof. by destruct f. Qed.

Lemma to_single_sub a b : single a → single b →
  to_single (SFsub 53 1024 (to_double a) (to_double b)) = SFsub 24 128 a b.
Proof.
  intros Ha Hb. rewrite !SFsub_opp, <- to_double_opp. apply to_single_add; [done|by apply single_opp].
Qed.

Lemma to_single_mul a b : single a → single b →
  to_single (SFmul 53 1024 (to_double a) (to_double b)) = SFmul 24 128 a b.
Proof.
  intros Ha Hb. destruct a as [sa|sa| |sa ma ea], b as [sb|sb| |sb mb eb]; try done.
  - by widen Hb m e.
  - by widen Hb m e.
  - by widen Ha m e.
  - by widen Ha m e.
  - by widen Ha m e.
  - pose proof (SFmul_rounded 24 128 ltac:(lia) ltac:(lia) sa ma ea sb mb eb Ha Hb) as Hs.
    destruct (single_bounds _ _ _ Ha) as (Hea & Hma & Hda). destruct (single_bounds _ _ _ Hb) as (Heb & Hmb & Hdb).
    set (k := Zdigits2 (Zpos ma * Zpos mb) + (ea + eb)).
    assert (mag (dyadic (Zpos ma * Zpos mb) (ea + eb)) k) as Hk by (apply dyadic_mag; lia).
    apply (to_single_twice _ k (xorb sa sb) _ _ Hk); [| |clear Hs|exact Hs].
    + unfold k. assert (0 < Zdigits2 (Zpos ma * Zpos mb)) by (rewrite <- Pos2Z.inj_mul; done).
      assert (Zpos ma * Zpos mb < 2 ^ 24 * 2 ^ 24) by (apply Z.mul_lt_mono_nonneg; lia). destruct (digits_le (Zpos ma * Zpos mb) 48 ltac:(lia) ltac:(lia)); lia.
    + by apply (no_middle_product sa ma ea sb mb eb).
    + destruct (to_double_finite _ _ _ Ha) as (ma' & ea' & -> & Ha' & ? & Ema).
      destruct (to_double_finite _ _ _ Hb) as (mb' & eb' & -> & Hb' & ? & Emb).
      eapply rounded_ext; [|exact (SFmul_rounded 53 1024 ltac:(lia) ltac:(lia) _ _ _ _ _ _ Ha' Hb')].
      intros m e. rewrite <- (dyadic_scale (Zpos ma * Zpos mb) (ea + eb) (ea - ea' + (eb - eb'))) by lia.
      f_equal; [|lia]. rewrite Ema, Emb, Z.pow_add_r by lia. ring.
Qed.

(** A divisor of zero gives an infinity or no number in both formats. *)
Lemma to_single_div a b : single a → single b →
  to_single (SFdiv 53 1024 (to_double a) (to_double b)) = SFdiv 24 128 a b.
Proof.
  intros Ha Hb. destruct a as [sa|sa| |sa ma ea], b as [sb|sb| |sb mb eb]; try done.
  - by widen Hb m e.
  - by widen Hb m e.
  - by widen Ha m e.
  - by widen Ha m e.
  - by widen Ha m e.
  - pose proof (SFdiv_rounded 24 128 ltac:(lia) unit_single sa ma ea sb mb eb Ha Hb) as Hs.
    destruct (single_bounds _ _ _ Ha) as (Hea & Hma & Hda). destruct (single_bounds _ _ _ Hb) as (Heb & Hmb & Hdb).
    pose proof (quot_cut (mant ma ea) (mant mb eb) ltac:(apply mant_pos; unfold unit_exp; lia)) as Hcut.
    pose proof (quot_mag 24 128 unit_single sa ma ea sb mb eb Ha Hb) as Hm. cbv zeta in Hm.
    assert (∃ k, mag (quot (mant ma ea) (mant mb eb)) k ∧ -1074 < k ≤ 1000) as (k & Hk & Hkb)
      by (destruct Hm as [Hm|Hm]; eexists; (split; [exact Hm|lia])).
    apply (to_single_twice _ k (xorb sa sb) _ _ Hk Hkb); [by apply (no_middle_quot sa ma ea sb mb eb)|clear Hs|exact Hs].
    destruct (to_double_finite _ _ _ Ha) as (ma' & ea' & -> & Ha' & ? & Ema).
    destruct (to_double_finite _ _ _ Hb) as (mb' & eb' & -> & Hb' & ? & Emb).
    pose proof (SFdiv_rounded 53 1024 ltac:(lia) unit_double _ _ _ _ _ _ Ha' Hb') as Hd.
    by rewrite (to_double_mant sa ma ea ma' ea'), (to_double_mant sb mb eb mb' eb') in Hd by done.
Qed.

Lemma root_scale a k n m e : 0 ≤ n → root (a * 2 ^ n) (k - n) m e = root a k m e.
Proof.
  intros Hn. destruct (Z_lt_ge_dec m 0) as [Hm|Hm].
  - unfold root. by replace (m <? 0) with true by lia.
  - rewrite !(root_at _ _ _ _ (Z.min (2 * e) (k - n))) by lia.
    rewrite <- Z.mul_assoc, <- Z.pow_add_r by lia. do 3 f_equal. lia.
Qed.

Lemma to_single_sqrt a : single a → to_single (SFsqrt 53 1024 (to_double a)) = SFsqrt 24 128 a.
Proof.
  destruct a as [sa|[]| |[] m e]; try done; intros Ha.
  - by widen Ha m' e'.
  - pose proof (SFsqrt_rounded 24 128 ltac:(lia) m e) as Hs.
    destruct (single_bounds _ _ _ Ha) as (He & Hm & Hd). pose proof (root_cut (Zpos m) e ltac:(lia)) as Hcut.
    pose proof (root_mag m e) as Hk.
    apply (to_single_twice _ _ false _ _ Hk); [|by apply (no_middle_root false)|clear Hs|exact Hs].
    + rewrite Z.div2_div. pose proof (Z.mod_pos_bound (Zdigits2 (Zpos m) + e + 1) 2).
      pose proof (Z_div_mod_eq_full (Zdigits2 (Zpos m) + e + 1) 2). lia.
    + destruct (to_double_finite _ _ _ Ha) as (m' & e' & -> & Ha' & ? & Em).
      eapply rounded_ext; [|exact (SFsqrt_rounded 53 1024 ltac:(lia) m' e')].
      intros a b. rewrite <- (root_scale (Zpos m) e (e - e')) by lia. rewrite <- Em. f_equal. lia.
Qed.

End RoundTwice.
