(* ===== verification/Fpu.v ===== *)
(** * sw/gen_fpu_vectors.py: test vectors of the floating-point unit

    The script computes single-precision results on the host: it unpacks
    singles into Python's doubles, operates on these and packs the result.
    [struct] is the IEEE 754 encoding of singles; the random numbers and the
    C library's [pow] are arguments.  [fpu] is the specification of the
    operations: single precision rounded once, as the F extension of RISC-V
    defines it. *)
From S2P Require Import Prelude Hex Dbl.
From Stdlib Require Import SpecFloat.

Module Fpu.
Import Hex.
Open Scope Z_scope.

(** ** The struct module *)

Definition bit_sign (s : bool) : Z := if s then 2 ^ 31 else 0.

(** The bits of a single, and the single of 32 bits; the one NaN of
    [spec_float] is the quiet NaN. *)
Definition encode (f : spec_float) : Z :=
  match f with
  | S754_zero s => bit_sign s
  | S754_infinity s => bit_sign s + 255 * 2 ^ 23
  | S754_nan => 255 * 2 ^ 23 + 2 ^ 22
  | S754_finite s m e =>
      bit_sign s + (if Zpos m <? 2 ^ 23 then Zpos m else (e + 150) * 2 ^ 23 + (Zpos m - 2 ^ 23))
  end.

Definition decode (b : Z) : spec_float :=
  let s := Z.testbit b 31 in
  let e := Z.land (Z.shiftr b 23) 255 in
  let frac := Z.land b (Z.ones 23) in
  if e =? 255 then if frac =? 0 then S754_infinity s else S754_nan
  else if e =? 0 then
    match frac with Zpos m => S754_finite s m (-149) | _ => S754_zero s end
  else S754_finite s (Z.to_pos (frac + 2 ^ 23)) (e - 150).

Definition word (z : Z) : Z := Z.land z (Z.ones 32).

(** [struct.pack('<f', x)] rounds to a single and refuses a finite number that
    is too large. *)
Definition is_finite (f : spec_float) : bool := match f with S754_zero _ | S754_finite _ _ _ => true | _ => false end.
Definition is_inf (f : spec_float) : bool := match f with S754_infinity _ => true | _ => false end.
Definition f2b (x : Dbl.dbl) : res Z :=
  let y := Dbl.to_single x in
  if is_finite x && is_inf y then Err OverflowError else Ok (encode y).
Definition b2f (b : Z) : Dbl.dbl := Dbl.to_double (decode (word b)).

(** ** Python's operators *)

Definition is_zero (x : Dbl.dbl) : bool := match x with S754_zero _ => true | _ => false end.

(** [x / y] and [math.sqrt(x)] *)
Definition py_div (x y : Dbl.dbl) : res Dbl.dbl :=
  if is_zero y then Err ZeroDivisionError else Ok (Dbl.div x y).
Definition py_sqrt (x : Dbl.dbl) : res Dbl.dbl :=
  match x with
  | S754_infinity true | S754_finite true _ _ => Err ValueError
  | _ => Ok (Dbl.sqrt x)
  end.

(** ** The script *)

Variant op := ADD | SUB | MUL | DIV | SQRT | SGNJ | MINMAX | CMP | CVT_WS | CVT_SW | FMV_X_W | FCLASS.
#[global] Instance op_eq_dec : EqDecision op.
Proof. solve_decision. Defined.

(** [OPS] and [OPS2] *)
Definition OPS (o : op) : Z :=
  match o with
  | ADD => 0 | SUB => 1 | MUL => 2 | DIV => 3 | SQRT => 4 | SGNJ => 5 | MINMAX => 6 | CMP => 7
  | CVT_WS => 8 | CVT_SW => 10 | FMV_X_W => 12 | FCLASS => 14
  end.

(** Operation word, operands, expected result. *)
Notation vec := (Z * Z * Z * Z)%type.

Definition emit_vec (vecs : list vec) (o : op) (a b e : Z) : list vec :=
  vecs ++ [(OPS o, word a, word b, word e)].

(** The numbers one call of [rf] draws: an exponent, a sign, a factor. *)
Notation draw := (Dbl.dbl * Z * Dbl.dbl)%type.

Record randoms := mkRandoms {
  r_arith : list (draw * draw);
  r_sqrt : list draw;
  r_ints : list Z;
  r_cvt : list draw
}.

Section script.
(** [10.0 ** y] *)
Context (pow10 : Dbl.dbl → Dbl.dbl).

Definition rf (d : draw) : res Dbl.dbl :=
  let '(e, s, u) := d in
  let* b := f2b (Dbl.mul (Dbl.mul (Dbl.of_Z s) (pow10 (Dbl.div e (Dbl.of_Z 13)))) u) in
  Ok (b2f b).

(** The bodies of the four loops. *)
Definition arith_vecs (vecs : list vec) (d : draw * draw) : res (list vec) :=
  let* a := rf d.1 in
  let* b := rf d.2 in
  let* fa := f2b a in
  let* fb := f2b b in
  let* e := f2b (Dbl.add (b2f fa) (b2f fb)) in
  let vecs := emit_vec vecs ADD fa fb e in
  let* e := f2b (Dbl.sub (b2f fa) (b2f fb)) in
  let vecs := emit_vec vecs SUB fa fb e in
  let* e := f2b (Dbl.mul (b2f fa) (b2f fb)) in
  let vecs := emit_vec vecs MUL fa fb e in
  if negb (is_zero b) then
    let* q := py_div (b2f fa) (b2f fb) in
    let* e := f2b q in
    Ok (emit_vec vecs DIV fa fb e)
  else Ok vecs.

Definition sqrt_vec (vecs : list vec) (d : draw) : res (list vec) :=
  let* a := rf d in
  let* fa := f2b (SFabs a) in
  let* r := py_sqrt (b2f fa) in
  let* e := f2b r in
  Ok (emit_vec vecs SQRT fa 0 e).

Definition int_vec (vecs : list vec) (iv : Z) : res (list vec) :=
  let* e := f2b (Dbl.of_Z iv) in
  Ok (emit_vec vecs CVT_SW (word iv) 0 e).

Definition cvt_vec (vecs : list vec) (d : draw) : res (list vec) :=
  let* x := rf d in
  let* fx := f2b x in
  let* tv := Dbl.trunc (b2f fx) in
  Ok (emit_vec vecs CVT_WS fx 0 (word tv)).

(** The list [vecs] *)
Definition random_vecs (r : randoms) : res (list vec) :=
  let* vecs := res_fold arith_vecs [] (r_arith r) in
  let* vecs := res_fold sqrt_vec vecs (r_sqrt r) in
  let* vecs := res_fold int_vec vecs (r_ints r) in
  res_fold cvt_vec vecs (r_cvt r).

End script.

Definition INF : Z := 0x7f800000.
Definition NINF : Z := 0xff800000.
Definition QNAN : Z := 0x7fc00000.
Definition PZ : Z := 0.
Definition NZ : Z := 0x80000000.

Definition packfl (o fmt3 a b e : Z) : vec := (Z.lor o (Z.shiftl fmt3 8), word a, word b, word e).

(** [fb] of a literal: [n] halves *)
Definition fb (n : Z) : Z := match f2b (Dbl.ratio n 2) with Ok b => b | Err _ => 0 end.

(** The list [vecs2] *)
Definition directed_vecs : list vec :=
  [packfl 0 0 INF NINF QNAN;
   packfl 0 0 INF (fb 2) INF;
   packfl 2 0 INF PZ QNAN;
   packfl 3 0 (fb 2) PZ INF;
   packfl 3 0 (fb (-2)) PZ NINF;
   packfl 0 0 PZ NZ PZ;
   packfl 1 0 (fb 7) (fb 7) PZ;
   packfl 5 0 (fb 4) (fb (-2)) (fb (-4));
   packfl 5 1 (fb 4) (fb (-2)) (fb 4);
   packfl 5 2 (fb (-4)) (fb (-2)) (fb 4);
   packfl 6 0 (fb 4) (fb (-2)) (fb (-2));
   packfl 6 1 (fb 4) (fb (-2)) (fb 4);
   packfl 6 0 QNAN (fb 10) (fb 10);
   packfl 7 2 (fb 3) (fb 3) 1;
   packfl 7 1 (fb 2) (fb 4) 1;
   packfl 7 0 (fb 4) (fb 4) 1;
   packfl 7 1 (fb 4) (fb 2) 0;
   packfl 7 2 QNAN (fb 2) 0;
   packfl 7 2 PZ NZ 1;
   packfl 14 0 NINF 0 0x001;
   packfl 14 0 (fb (-4)) 0 0x002;
   packfl 14 0 NZ 0 0x008;
   packfl 14 0 PZ 0 0x010;
   packfl 14 0 (fb 4) 0 0x040;
   packfl 14 0 INF 0 0x080;
   packfl 14 0 QNAN 0 0x200;
   packfl 12 0 (fb (-5)) 0 (fb (-5))].

(** A line of the files: ["%08x %08x %08x %08x\n"] *)
Definition vec_line (v : vec) : string :=
  let '(o, a, b, e) := v in
  fmt_x 8 o +:+ " " +:+ fmt_x 8 a +:+ " " +:+ fmt_x 8 b +:+ " " +:+ fmt_x 8 e +:+ String "010"%char "".
Definition vec_file (vecs : list vec) : string := foldr (λ v s, vec_line v +:+ s) "" vecs.

(** ** The operations of the F extension *)

(** A 32-bit word as a signed integer. *)
Definition signed (z : Z) : Z := if z <? 2 ^ 31 then z else z - 2 ^ 32.

(** fcvt.w.s, rounding towards zero: out of range saturates. *)
Definition to_int (f : spec_float) : Z :=
  match f with
  | S754_nan | S754_infinity false => 2 ^ 31 - 1
  | S754_infinity true => - 2 ^ 31
  | _ => match Dbl.trunc f with Ok z => Z.max (- 2 ^ 31) (Z.min z (2 ^ 31 - 1)) | Err _ => 0 end
  end.

Definition is_nan (f : spec_float) : bool := match f with S754_nan => true | _ => false end.
Definition is_neg (f : spec_float) : bool :=
  match f with S754_zero s | S754_infinity s | S754_finite s _ _ => s | S754_nan => false end.

(** fmin and fmax: of a number and NaN the number; -0 is below +0. *)
Definition below (x y : spec_float) : bool :=
  match SFcompare x y with Some Lt => true | Some Eq => is_neg x | _ => false end.
Definition minmax (max : bool) (a b : Z) : Z :=
  let x := decode a in
  let y := decode b in
  if is_nan x then if is_nan y then QNAN else b
  else if is_nan y then a
  else if xorb max (below x y) then a else b.

(** fclass *)
Definition classify (b : Z) : Z :=
  match decode b with
  | S754_infinity true => 2 ^ 0
  | S754_finite true m _ => if Zpos m <? 2 ^ 23 then 2 ^ 2 else 2 ^ 1
  | S754_zero true => 2 ^ 3
  | S754_zero false => 2 ^ 4
  | S754_finite false m _ => if Zpos m <? 2 ^ 23 then 2 ^ 5 else 2 ^ 6
  | S754_infinity false => 2 ^ 7
  | S754_nan => if Z.testbit b 22 then 2 ^ 9 else 2 ^ 8
  end.

(** The result of an operation word on two operands. *)
Definition fpu (o a b : Z) : option Z :=
  let fmt3 := Z.shiftr o 8 in
  let x := decode a in
  let y := decode b in
  match Z.land o 15 with
  | 0 => Some (encode (SFadd 24 128 x y))
  | 1 => Some (encode (SFsub 24 128 x y))
  | 2 => Some (encode (SFmul 24 128 x y))
  | 3 => Some (encode (SFdiv 24 128 x y))
  | 4 => Some (encode (SFsqrt 24 128 x))
  | 5 =>
      let s := match fmt3 with
               | 0 => Z.testbit b 31
               | 1 => negb (Z.testbit b 31)
               | _ => xorb (Z.testbit a 31) (Z.testbit b 31)
               end in
      Some (Z.land a (Z.ones 31) + bit_sign s)
  | 6 => Some (minmax (fmt3 =? 1) a b)
  | 7 =>
      Some (Z.b2z (match fmt3 with
                   | 0 => SFleb x y
                   | 1 => SFltb x y
                   | _ => SFeqb x y
                   end))
  | 8 => Some (word (to_int x))
  | 10 => Some (encode (binary_normalize 24 128 (signed a) 0 false))
  | 12 => Some a
  | 14 => Some (classify a)
  | _ => None
  end.

(** The expected result of a vector is the operation's. *)
Definition vec_ok (v : vec) : Prop := let '(o, a, b, e) := v in fpu o a b = Some e.

End Fpu.
