(* ===== verification/FpuSpec.v ===== *)
(** * sw/gen_fpu_vectors.py: theorems

    Packing and unpacking singles, and the expected results of the generated
    vectors: what the script computes with doubles is what a unit that rounds
    once to single precision must return ([Fpu.fpu]). *)
From S2P Require Import Prelude Hex Dbl Round RoundOps RoundTwice Fpu.
From Stdlib Require Import SpecFloat.

Module FpuSpec.
Import Dbl(to_single, to_double).
Import Round RoundOps RoundTwice Fpu.
Open Scope Z_scope.

(** ** Bits *)

Lemma fields_bits s x f :
  0 ≤ x < 256 → 0 ≤ f < 2 ^ 23 →
  let b := bit_sign s + x * 2 ^ 23 + f in
  Z.testbit b 31 = s ∧ Z.land (Z.shiftr b 23) 255 = x ∧ Z.land b (Z.ones 23) = f ∧ 0 ≤ b < 2 ^ 32.
Proof.
  intros Hx Hf b. change 255 with (Z.ones 8). rewrite !Z.land_ones, Z.shiftr_div_pow2 by lia.
  assert (b / 2 ^ 23 = (if s then 256 else 0) + x) as E.
  { symmetry. apply (Z.div_unique_pos _ _ _ f); [lia|]. unfold b. destruct s; cbn [bit_sign]; lia. }
  assert (0 ≤ b < 2 ^ 32) as Hb by (unfold b; destruct s; cbn [bit_sign]; lia). repeat split; try lia.
  - rewrite Z.testbit_eqb by lia. assert (b / 2 ^ 31 = if s then 1 else 0) as ->; [|by destruct s].
    symmetry. apply (Z.div_unique_pos _ _ _ (x * 2 ^ 23 + f)); [lia|]. unfold b. destruct s; cbn [bit_sign]; lia.
  - rewrite E. symmetry. apply (Z.mod_unique_pos _ _ (if s then 1 else 0)); [lia|]. destruct s; lia.
  - symmetry. apply (Z.mod_unique_pos _ _ ((if s then 256 else 0) + x)); [lia|].
    unfold b. destruct s; cbn [bit_sign]; lia.
Qed.

Lemma bits_fields b : 0 ≤ b < 2 ^ 32 →
  ∃ s x f, 0 ≤ x < 256 ∧ 0 ≤ f < 2 ^ 23 ∧ b = bit_sign s + x * 2 ^ 23 + f.
Proof.
  intros Hb. exists (2 ^ 31 <=? b), ((b / 2 ^ 23) mod 256), (b mod 2 ^ 23).
  pose proof (Z.mod_pos_bound b (2 ^ 23) ltac:(lia)). pose proof (Z.mod_pos_bound (b / 2 ^ 23) 256 ltac:(lia)).
  split; [done|]. split; [done|].
  pose proof (Z_div_mod_eq_full b (2 ^ 23)). pose proof (Z_div_mod_eq_full (b / 2 ^ 23) 256).
  assert (0 ≤ b / 2 ^ 23 / 256 < 2) as Hq.
  { rewrite Z.div_div by lia. split; [apply Z.div_pos; lia|apply Z.div_lt_upper_bound; lia]. }
  destruct (Z.leb_spec (2 ^ 31) b); cbn [bit_sign]; lia.
Qed.

(** [decode] by the fields. *)
Lemma decode_fields s x f :
  0 ≤ x < 256 → 0 ≤ f < 2 ^ 23 →
  decode (bit_sign s + x * 2 ^ 23 + f) =
    if x =? 255 then if f =? 0 then S754_infinity s else S754_nan
    else if x =? 0 then match f with Zpos m => S754_finite s m (-149) | _ => S754_zero s end
    else S754_finite s (Z.to_pos (f + 2 ^ 23)) (x - 150).
Proof.
  intros Hx Hf. destruct (fields_bits s x f Hx Hf) as (E1 & E2 & E3 & _). unfold decode. by rewrite E1, E2, E3.
Qed.

Lemma normal_digits f : 0 ≤ f < 2 ^ 23 → Zdigits2 (Zpos (Z.to_pos (f + 2 ^ 23))) = 24.
Proof. intros Hf. apply digits_unique; [lia|]. rewrite Z2Pos.id by lia. lia. Qed.

Lemma decode_single b : 0 ≤ b < 2 ^ 32 → single (decode b).
Proof.
  intros (s & x & f & Hx & Hf & ->)%bits_fields. rewrite decode_fields by done.
  destruct (Z.eqb_spec x 255); [by destruct (f =? 0)|]. destruct (Z.eqb_spec x 0).
  - destruct f as [|m|m]; [done| |done]. apply valid_finite. rewrite nexp_eq.
    destruct (digits_le (Zpos m) 23 ltac:(lia) ltac:(lia)); lia.
  - apply valid_finite. rewrite nexp_eq, normal_digits by done. lia.
Qed.

(** The fields of an encoded single. *)
Lemma encode_fields f : single f →
  ∃ s x y, 0 ≤ x < 256 ∧ 0 ≤ y < 2 ^ 23 ∧ encode f = bit_sign s + x * 2 ^ 23 + y ∧
    decode (bit_sign s + x * 2 ^ 23 + y) = f.
Proof.
  intros Hf. destruct f as [s|s| |s m e].
  - exists s, 0, 0. rewrite decode_fields by lia. repeat split; cbn [encode]; lia.
  - exists s, 255, 0. rewrite decode_fields by lia. repeat split; cbn [encode]; lia.
  - exists false, 255, (2 ^ 22). rewrite decode_fields by lia. repeat split; cbn [encode bit_sign]; lia.
  - destruct (single_bounds s m e Hf) as (He & Hm & Hd). apply valid_finite in Hf as [Hf _]. rewrite nexp_eq in Hf.
    cbn [encode]. destruct (Z.ltb_spec (Zpos m) (2 ^ 23)) as [Hlt|Hge].
    + exists s, 0, (Zpos m). rewrite decode_fields by lia.
      destruct (digits_le (Zpos m) 23 ltac:(lia) Hlt); [|lia].
      assert (e = -149) as -> by lia. repeat split; lia.
    + exists s, (e + 150), (Zpos m - 2 ^ 23). rewrite decode_fields by lia.
      replace (e + 150 =? 255) with false by lia. replace (e + 150 =? 0) with false by lia.
      replace (Zpos m - 2 ^ 23 + 2 ^ 23) with (Zpos m) by lia. cbn [Z.to_pos].
      repeat split; [lia..|f_equal; lia].
Qed.

Lemma encode_range f : single f → 0 ≤ encode f < 2 ^ 32.
Proof.
  intros (s & x & y & Hx & Hy & -> & _)%encode_fields. by destruct (fields_bits s x y Hx Hy) as (_ & _ & _ & ?).
Qed.

Lemma decode_encode f : single f → decode (encode f) = f.
Proof. by intros (s & x & y & _ & _ & -> & ->)%encode_fields. Qed.

Lemma encode_decode b : 0 ≤ b < 2 ^ 32 → decode b ≠ S754_nan → encode (decode b) = b.
Proof.
  intros (s & x & f & Hx & Hf & ->)%bits_fields. rewrite decode_fields by done.
  destruct (Z.eqb_spec x 255) as [->|].
  { destruct (Z.eqb_spec f 0) as [->|]; [|done]. intros _. cbn [encode]. lia. }
  destruct (Z.eqb_spec x 0) as [->|].
  { intros _. destruct f as [|m|m]; cbn [encode]; [lia| |lia]. replace (Zpos m <? 2 ^ 23) with true by lia. lia. }
  intros _. cbn [encode]. rewrite Z2Pos.id by lia. replace (f + 2 ^ 23 <? 2 ^ 23) with false by lia. lia.
Qed.

Lemma word_id b : 0 ≤ b < 2 ^ 32 → word b = b.
Proof. intros Hb. unfold word. rewrite Z.land_ones by lia. apply Z.mod_small. lia. Qed.
Lemma word_range z : 0 ≤ word z < 2 ^ 32.
Proof. unfold word. rewrite Z.land_ones by lia. apply Z.mod_pos_bound. lia. Qed.

Lemma b2f_eq b : 0 ≤ b < 2 ^ 32 → b2f b = to_double (decode b).
Proof. intros Hb. unfold b2f. by rewrite word_id. Qed.

(** Packing a double: its single, unless that is infinite. *)
Lemma f2b_single x f : to_single x = f → is_inf f = false → f2b x = Ok (encode f).
Proof. intros E Hf. unfold f2b. by rewrite E, Hf, andb_false_r. Qed.

Lemma f2b_b2f b : 0 ≤ b < 2 ^ 32 → decode b ≠ S754_nan → f2b (b2f b) = Ok b.
Proof.
  intros Hb Hn. rewrite b2f_eq by done. pose proof (decode_single b Hb) as Hs.
  transitivity (Ok (encode (decode b)) : res Z); [|by rewrite encode_decode].
  unfold f2b. rewrite (to_single_double (decode b) Hs).
  destruct (decode b) as [|[]| |s m e]; try done. by rewrite andb_false_r.
Qed.

(** ** Operands *)

(** Not subnormal: the unit flushes subnormal numbers to zero. *)
Definition normal (f : spec_float) : Prop :=
  match f with S754_finite _ m _ => 2 ^ 23 ≤ Zpos m | _ => True end.

Lemma near_normal f lo hi : single f → near f lo hi → -125 ≤ lo → normal f.
Proof.
  destruct f as [| | |s m e]; try done. intros Hf. cbn [near normal]. intros Hn Hlo.
  destruct (single_bounds _ _ _ Hf) as (He & Hm & Hd). apply valid_finite in Hf as [Hf _]. rewrite nexp_eq in Hf.
  assert (Zdigits2 (Zpos m) = 24) as Ed by lia.
  destruct (digits_bounds (Zpos m) ltac:(lia)) as [Hb _]. rewrite Ed in Hb. lia.
Qed.

Lemma near_not_inf f lo hi : near f lo hi → is_inf f = false.
Proof. by destruct f. Qed.

(** What [rf] returns: a single between 2^-13 and 2^17, up to its sign. *)
Definition operand (b : Z) : Prop := 0 ≤ b < 2 ^ 32 ∧ near (decode b) (-12) 17.

Lemma to_single_near f lo hi :
  near f lo hi → -125 ≤ lo → hi ≤ 127 → near (to_single f) lo (hi + 1) ∧ single (to_single f).
Proof.
  destruct f as [| | |s m e]; try done. intros Hn Hlo Hhi.
  pose proof (binary_round_rounded 24 128 ltac:(lia) s m e) as Hr. split.
  - pose proof (dyadic_mag (Zpos m) e ltac:(lia)) as Hk. cbn [near] in Hn.
    apply (rounded_near 24 128 ltac:(lia) _ _ _ _ Hk) in Hr; [|unfold SpecFloat.emin; lia|lia].
    eapply near_weaken; [exact Hr|lia..].
  - apply (rounded_valid 24 128 ltac:(lia) _ _ _ Hr).
Qed.

Lemma operand_facts b : operand b →
  single (decode b) ∧ normal (decode b) ∧ decode b ≠ S754_nan ∧ word b = b ∧ b2f b = to_double (decode b).
Proof.
  intros [Hb Hn]. pose proof (decode_single b Hb) as Hs. split; [done|].
  split; [by eapply near_normal; [|exact Hn|lia]|]. split; [intros E; by rewrite E in Hn|].
  split; [by apply word_id|by apply b2f_eq].
Qed.

(** A finite result of an operation, computed with doubles. *)
Lemma f2b_result x r : to_single x = r → single r → is_inf r = false →
  f2b x = Ok (encode r) ∧ word (encode r) = encode r ∧ decode (encode r) = r.
Proof.
  intros E Hr Hi. split; [by apply f2b_single|]. split; [by apply word_id, encode_range|by apply decode_encode].
Qed.

(** A single that is neither infinite nor subnormal. *)
Definition fine (r : spec_float) : Prop := single r ∧ normal r ∧ is_inf r = false.

Lemma near_fine r lo hi : single r → near r lo hi → -125 ≤ lo → fine r.
Proof.
  intros Hr Hn Hlo. split; [done|]. split; [by eapply near_normal|by eapply near_not_inf].
Qed.

Lemma near_opp f lo hi : near f lo hi → near (SFopp f) lo hi.
Proof. by destruct f. Qed.

Lemma add_fine x y : single x → single y → near x (-12) 17 → near y (-12) 17 → fine (SFadd 24 128 x y).
Proof.
  intros Hx Hy Hnx Hny. pose proof (SFadd_valid 24 128 ltac:(lia) unit_single x y Hx Hy) as Hr.
  destruct (SFadd_near 24 128 ltac:(lia) unit_single x y (-12) 17 Hx Hy Hnx Hny ltac:(unfold unit_exp; lia)
    ltac:(lia) ltac:(unfold SpecFloat.emin; lia) ltac:(lia)) as [->|Hn]; [done|]. by eapply near_fine; [|exact Hn|].
Qed.

Lemma sub_fine x y : single x → single y → near x (-12) 17 → near y (-12) 17 → fine (SFsub 24 128 x y).
Proof. intros Hx Hy Hnx Hny. rewrite SFsub_opp. apply add_fine; [done|by apply single_opp|done|by apply near_opp]. Qed.

Lemma mul_fine x y : single x → single y → near x (-12) 17 → near y (-12) 17 → fine (SFmul 24 128 x y).
Proof.
  intros Hx Hy Hnx Hny. apply (near_fine _ (-25) 35); [| |lia].
  - destruct x as [| | |sx mx ex], y as [| | |sy my ey]; try done.
    apply (rounded_valid 24 128 ltac:(lia) _ _ _ (SFmul_rounded 24 128 ltac:(lia) ltac:(lia) _ _ _ _ _ _ Hx Hy)).
  - apply (SFmul_near 24 128 ltac:(lia) ltac:(lia) x y (-12) 17 (-12) 17); (done || unfold SpecFloat.emin; lia).
Qed.

Lemma div_fine x y : single x → single y → near x (-12) 17 → near y (-12) 17 → fine (SFdiv 24 128 x y).
Proof.
  intros Hx Hy Hnx Hny. apply (near_fine _ (-29) 31); [| |lia].
  - destruct x as [| | |sx mx ex], y as [| | |sy my ey]; try done.
    pose proof (SFdiv_rounded 24 128 ltac:(lia) unit_single _ _ _ _ _ _ Hx Hy) as Hr.
    pose proof (quot_cut (mant mx ex) (mant my ey) ltac:(apply mant_pos; by apply (valid_exp 24 128 unit_single sy my))) as Hc.
    apply (rounded_valid 24 128 ltac:(lia) _ _ _ Hr).
  - apply (SFdiv_near 24 128 ltac:(lia) unit_single x y (-12) 17 (-12) 17); (done || unfold SpecFloat.emin; lia).
Qed.

Lemma sqrt_fine x : single x → near x (-12) 17 → is_neg x = false → fine (SFsqrt 24 128 x).
Proof.
  destruct x as [| | |[] m e]; try done. intros Hx Hn _. apply (near_fine _ (Z.div2 (-11)) (Z.div2 18 + 1)); [| |by vm_compute].
  - pose proof (root_cut (Zpos m) e ltac:(lia)) as Hc.
    apply (rounded_valid 24 128 ltac:(lia) _ _ _ (SFsqrt_rounded 24 128 ltac:(lia) m e)).
  - apply (SFsqrt_near 24 128 ltac:(lia) m e (-12) 17 Hn); by vm_compute.
Qed.

(** ** Vectors *)

(** The floating-point operands and results of a vector are not subnormal. *)
Definition vec_normal (v : vec) : Prop :=
  let '(o, a, b, e) := v in
  (o ≤ 4 → normal (decode a) ∧ normal (decode b) ∧ normal (decode e)) ∧
  (o = 8 → normal (decode a)) ∧ (o = 10 → normal (decode e)).
Definition vec_good (v : vec) : Prop := vec_ok v ∧ vec_normal v.

(** A vector for an operation on floating-point numbers. *)
Lemma emit_result vecs o a b x r :
  OPS o ≤ 4 → word a = a → word b = b → normal (decode a) → normal (decode b) →
  to_single x = r → fine r → fpu (OPS o) a b = Some (encode r) →
  f2b x = Ok (encode r) ∧ ∃ v, emit_vec vecs o a b (encode r) = vecs ++ [v] ∧ vec_good v.
Proof.
  intros Ho Ea Eb Na Nb Ex (Hs & Hn & Hi) Hf.
  destruct (f2b_result x r Ex Hs Hi) as (E1 & E2 & E3). split; [exact E1|]. eexists. split; [reflexivity|].
  rewrite Ea, Eb, E2. split; [exact Hf|].
  unfold vec_normal. rewrite E3. split; [intros _; split; [exact Na|split; [exact Nb|exact Hn]]|split; intros ?; lia].
Qed.

(** Adds one vector to a list. *)
Definition adds (n : nat) (f : list vec → res (list vec)) : Prop :=
  ∀ vecs, ∃ new, f vecs = Ok (vecs ++ new) ∧ length new = n ∧ Forall vec_good new.

Lemma fold_adds {A} (f : list vec → A → res (list vec)) (P : A → Prop) n l :
  (∀ x, P x → adds n (λ vecs, f vecs x)) → Forall P l → adds (length l * n) (λ vecs, res_fold f vecs l).
Proof.
  intros Hf. induction 1 as [|x l Hx Hl IH]; intros vecs.
  - exists []. by rewrite app_nil_r.
  - destruct (Hf x Hx vecs) as (n1 & E1 & L1 & G1). destruct (IH (vecs ++ n1)) as (n2 & E2 & L2 & G2).
    exists (n1 ++ n2). cbn [res_fold]. rewrite E1. cbn [res_bind]. rewrite E2, <- app_assoc.
    split; [done|]. split; [rewrite length_app; cbn [length]; lia|]. by apply Forall_app.
Qed.

Section script.
Context (pow10 : Dbl.dbl → Dbl.dbl).

(** The draws the script relies on: the random module's ranges, and the size
    of the C library's [10.0 ** y] for |y| at most 40/13. *)
Definition good_draw (d : draw) : Prop :=
  let '(e, s, u) := d in
  let p := pow10 (Dbl.div e (Dbl.of_Z 13)) in
  (s = 1 ∨ s = -1) ∧ double u ∧ near u (-1) 2 ∧ double p ∧ near p (-10) 11.

Lemma double_mul_valid a b lo hi lo' hi' :
  double a → double b → near a lo hi → near b lo' hi' → double (Dbl.mul a b).
Proof.
  destruct a as [| | |sa ma ea], b as [| | |sb mb eb]; try done. intros Ha Hb _ _.
  apply (rounded_valid 53 1024 ltac:(lia) _ _ _ (SFmul_rounded 53 1024 ltac:(lia) ltac:(lia) _ _ _ _ _ _ Ha Hb)).
Qed.

Lemma rf_ok d : good_draw d → ∃ b, operand b ∧ rf pow10 d = Ok (b2f b).
Proof.
  destruct d as [[e s] u]. intros (Hs & Hu & Nu & Hp & Np). unfold rf. set (p := pow10 _) in *.
  assert (double (Dbl.of_Z s) ∧ near (Dbl.of_Z s) 1 1) as [H1 N1] by (by destruct Hs as [-> | ->]; split; vm_compute).
  pose proof (double_mul_valid _ _ _ _ _ _ H1 Hp N1 Np) as H2.
  pose proof (SFmul_near 53 1024 ltac:(lia) ltac:(lia) _ _ _ _ _ _ H1 Hp N1 Np ltac:(unfold SpecFloat.emin; lia) ltac:(lia)) as N2.
  pose proof (SFmul_near 53 1024 ltac:(lia) ltac:(lia) _ _ _ _ _ _ H2 Hu N2 Nu ltac:(unfold SpecFloat.emin; lia) ltac:(lia)) as N3.
  change (SFmul 53 1024 (SFmul 53 1024 (Dbl.of_Z s) p) u) with (Dbl.mul (Dbl.mul (Dbl.of_Z s) p) u) in N3.
  set (x := Dbl.mul (Dbl.mul (Dbl.of_Z s) p) u) in *.
  destruct (to_single_near x _ _ N3 ltac:(lia) ltac:(lia)) as [N4 H4].
  exists (encode (to_single x)). rewrite (f2b_single x _ eq_refl) by (by eapply near_not_inf).
  split; [|done]. split; [by apply encode_range|]. rewrite decode_encode by done.
  eapply near_weaken; [exact N4|lia..].
Qed.

Lemma to_double_nonzero x lo hi : single x → near x lo hi → is_zero (to_double x) = false.
Proof.
  destruct x as [| | |s m e]; try done. intros Hx _. destruct (to_double_finite s m e Hx) as (? & ? & E & _).
  by rewrite E.
Qed.

Lemma py_sqrt_double x : single x → is_neg x = false → py_sqrt (to_double x) = Ok (SFsqrt 53 1024 (to_double x)).
Proof.
  destruct x as [|[]| |[] m e]; try done. intros Hx _. destruct (to_double_finite false m e Hx) as (? & ? & E & _).
  by rewrite E.
Qed.

Lemma fpu_arith a b :
  fpu (OPS ADD) a b = Some (encode (SFadd 24 128 (decode a) (decode b))) ∧
  fpu (OPS SUB) a b = Some (encode (SFsub 24 128 (decode a) (decode b))) ∧
  fpu (OPS MUL) a b = Some (encode (SFmul 24 128 (decode a) (decode b))) ∧
  fpu (OPS DIV) a b = Some (encode (SFdiv 24 128 (decode a) (decode b))) ∧
  fpu (OPS SQRT) a b = Some (encode (SFsqrt 24 128 (decode a))).
Proof. repeat split; reflexivity. Qed.

Lemma arith_ok d : good_draw d.1 ∧ good_draw d.2 → adds 4 (λ vecs, arith_vecs pow10 vecs d).
Proof.
  intros [(a & Ha & Ea)%rf_ok (b & Hb & Eb)%rf_ok] vecs. unfold arith_vecs. rewrite Ea, Eb. cbn [res_bind].
  destruct (operand_facts a Ha) as (Sa & Na & Xa & Wa & Da). destruct (operand_facts b Hb) as (Sb & Nb & Xb & Wb & Db).
  destruct Ha as [Ra Ma], Hb as [Rb Mb].
  rewrite (f2b_b2f a Ra Xa), (f2b_b2f b Rb Xb). cbn [res_bind].
  assert (is_zero (b2f b) = false) as Hz.
  { rewrite Db. exact (to_double_nonzero _ _ _ Sb Mb). }
  unfold py_div. rewrite Hz. cbn [negb res_bind]. rewrite Da, Db.
  destruct (fpu_arith a b) as (Fadd & Fsub & Fmul & Fdiv & _).
  destruct (emit_result vecs ADD a b _ _ ltac:(vm_compute; discriminate) Wa Wb Na Nb (to_single_add _ _ Sa Sb) (add_fine _ _ Sa Sb Ma Mb) Fadd)
    as (F1 & v1 & E1 & G1).
  destruct (emit_result (vecs ++ [v1]) SUB a b _ _ ltac:(vm_compute; discriminate) Wa Wb Na Nb (to_single_sub _ _ Sa Sb) (sub_fine _ _ Sa Sb Ma Mb) Fsub)
    as (F2 & v2 & E2 & G2).
  destruct (emit_result ((vecs ++ [v1]) ++ [v2]) MUL a b _ _ ltac:(vm_compute; discriminate) Wa Wb Na Nb (to_single_mul _ _ Sa Sb) (mul_fine _ _ Sa Sb Ma Mb) Fmul)
    as (F3 & v3 & E3 & G3).
  destruct (emit_result (((vecs ++ [v1]) ++ [v2]) ++ [v3]) DIV a b _ _ ltac:(vm_compute; discriminate) Wa Wb Na Nb (to_single_div _ _ Sa Sb) (div_fine _ _ Sa Sb Ma Mb) Fdiv)
    as (F4 & v4 & E4 & G4).
  unfold Dbl.add, Dbl.sub, Dbl.mul, Dbl.div, Dbl.prec, Dbl.emax.
  rewrite F1. cbn [res_bind]. rewrite E1, F2. cbn [res_bind]. rewrite E2, F3. cbn [res_bind]. rewrite E3, F4. cbn [res_bind]. rewrite E4.
  exists [v1; v2; v3; v4]. rewrite <- !app_assoc. split; [reflexivity|]. split; [reflexivity|].
  constructor; [exact G1|]. constructor; [exact G2|]. constructor; [exact G3|]. constructor; [exact G4|]. constructor.
Qed.

Lemma abs_operand b : operand b →
  ∃ c, operand c ∧ SFabs (b2f b) = b2f c ∧ is_neg (decode c) = false.
Proof.
  intros Ho. destruct (operand_facts b Ho) as (Sb & _ & _ & _ & Db). destruct Ho as [Rb Mb].
  rewrite Db. destruct (decode b) as [| | |s m e]; try done.
  exists (encode (S754_finite false m e)). assert (single (S754_finite false m e)) as Hf by done.
  unfold operand. rewrite decode_encode by done. split; [split; [by apply encode_range|done]|].
  rewrite b2f_eq, decode_encode by (done || by apply encode_range). split; [|done].
  destruct s; [|by destruct (to_double_finite false m e Hf) as (? & ? & -> & _)].
  change (S754_finite true m e) with (SFopp (S754_finite false m e)). rewrite to_double_opp.
  by destruct (to_double_finite false m e Hf) as (? & ? & -> & _).
Qed.

Lemma sqrt_ok d : good_draw d → adds 1 (λ vecs, sqrt_vec pow10 vecs d).
Proof.
  intros (b & Hb & Eb)%rf_ok vecs. unfold sqrt_vec. rewrite Eb. cbn [res_bind].
  destruct (abs_operand b Hb) as (c & Hc & -> & Hneg). destruct (operand_facts c Hc) as (Sc & Nc & Xc & Wc & Dc).
  destruct Hc as [Rc Mc]. rewrite (f2b_b2f c Rc Xc). cbn [res_bind].
  destruct (fpu_arith c 0) as (_ & _ & _ & _ & Fsqrt).
  destruct (emit_result vecs SQRT c 0 _ _ ltac:(vm_compute; discriminate) Wc eq_refl Nc I (to_single_sqrt _ Sc) (sqrt_fine _ Sc Mc Hneg) Fsqrt)
    as (F1 & v1 & E1 & G1).
  rewrite Dc, (py_sqrt_double _ Sc Hneg).
  cbn [res_bind]. rewrite F1. cbn [res_bind]. rewrite E1. exists [v1]. split; [reflexivity|]. split; [reflexivity|]. constructor; [exact G1|constructor].
Qed.

(** An integer below 2^31 as a single, by way of its double. *)
Lemma int_single iv : Z.abs iv < 2 ^ 31 →
  to_single (Dbl.of_Z iv) = binary_normalize 24 128 iv 0 false ∧ fine (binary_normalize 24 128 iv 0 false).
Proof.
  intros Hi. assert (∀ s m, Zpos m < 2 ^ 31 →
    to_single (binary_round 53 1024 s m 0) = binary_round 24 128 s m 0 ∧ fine (binary_round 24 128 s m 0)) as Hm.
  { clear iv Hi. intros s m Hm. assert (0 < Zdigits2 (Zpos m)) by (cbn; lia).
    destruct (digits_le (Zpos m) 31 ltac:(lia) Hm) as [Hd|]; [|lia].
    pose proof (binary_round_rounded 24 128 ltac:(lia) s m 0) as Hr. split.
    - destruct (rounded_exact 53 1024 ltac:(lia) ltac:(lia) m 0 s _ ltac:(lia) ltac:(unfold SpecFloat.emin; lia) ltac:(lia)
        (binary_round_rounded 53 1024 ltac:(lia) s m 0)) as (m' & e' & -> & He & Em).
      apply (rounded_unique 24 128 (dyadic (Zpos m) 0) s); [|done].
      eapply rounded_ext; [|by apply binary_round_rounded; lia]. intros a b. cbn.
      rewrite <- (dyadic_scale (Zpos m) 0 (0 - e')) by lia. rewrite <- Em. f_equal. lia.
    - apply (near_fine _ (Zdigits2 (Zpos m) + 0) (Zdigits2 (Zpos m) + 0 + 1)); [| |lia].
      + apply (rounded_valid 24 128 ltac:(lia) _ _ _ Hr).
      + apply (rounded_near 24 128 ltac:(lia) _ _ _ _ (dyadic_mag (Zpos m) 0 ltac:(lia)) Hr); unfold SpecFloat.emin; lia. }
  destruct iv as [|m|m]; [done|apply (Hm false); lia|apply (Hm true); lia].
Qed.

Lemma signed_word iv : - 2 ^ 31 ≤ iv < 2 ^ 31 → signed (word iv) = iv.
Proof.
  intros Hi. unfold signed, word. rewrite Z.land_ones by lia. destruct (Z_lt_ge_dec iv 0).
  - replace (iv mod 2 ^ 32) with (iv + 2 ^ 32); [destruct (Z.ltb_spec (iv + 2 ^ 32) (2 ^ 31)); lia|].
    apply (Z.mod_unique_pos _ _ (-1)); lia.
  - rewrite Z.mod_small by lia. destruct (Z.ltb_spec iv (2 ^ 31)); lia.
Qed.

Lemma word_word z : word (word z) = word z.
Proof. apply word_id, word_range. Qed.

Lemma int_ok iv : Z.abs iv ≤ 2 ^ 30 → adds 1 (λ vecs, int_vec vecs iv).
Proof.
  intros Hi vecs. unfold int_vec. destruct (int_single iv ltac:(lia)) as [E (Hs & Hn & Hf)].
  destruct (f2b_result _ _ E Hs Hf) as (E1 & E2 & E3). rewrite E1. cbn [res_bind].
  eexists [_]. split; [reflexivity|]. split; [reflexivity|]. constructor; [|constructor]. rewrite word_word, E2. split.
  - unfold vec_ok, fpu. change (Z.land (OPS CVT_SW) 15) with 10. cbn beta iota. by rewrite signed_word by lia.
  - unfold vec_normal. rewrite E3. split; [intros Hc; by destruct Hc|]. split; [intros Hc; discriminate Hc|intros _; exact Hn].
Qed.

(** Cutting the fraction off is the same in both formats. *)
Lemma trunc_to_double x : single x → Dbl.trunc (to_double x) = Dbl.trunc x.
Proof.
  destruct x as [| | |s m e]; try done. intros Hx. destruct (to_double_finite s m e Hx) as (m' & e' & -> & _ & He & Em).
  cbn [Dbl.trunc]. do 2 f_equal. rewrite Em.
  destruct (Z.leb_spec 0 e'), (Z.leb_spec 0 e); [|lia|..].
  - rewrite <- Z.mul_assoc, <- Z.pow_add_r by lia. do 2 f_equal. lia.
  - replace (e - e') with (e + - e') by lia. rewrite Z.pow_add_r, Z.mul_assoc by lia. apply Z.div_mul. lia.
  - replace (- e') with (- e + (e - e')) by lia. rewrite Z.pow_add_r by lia. apply Z.div_mul_cancel_r; lia.
Qed.

Lemma trunc_near x lo hi : near x lo hi → 0 ≤ hi → ∃ z, Dbl.trunc x = Ok z ∧ Z.abs z < 2 ^ hi.
Proof.
  destruct x as [| | |s m e]; try done. cbn [near]. intros Hn Hhi. eexists. split; [reflexivity|].
  pose proof (digits_bounds (Zpos m) ltac:(lia)) as [_ Hm]. assert (0 < Zdigits2 (Zpos m)) by (cbn; lia).
  match goal with |- Z.abs (cond_Zopp _ ?z) < _ => assert (0 ≤ z < 2 ^ hi) as Hz; [|destruct s; cbn [cond_Zopp]; lia] end.
  destruct (Z.leb_spec 0 e).
  - split; [lia|]. apply Z.lt_le_trans with (2 ^ Zdigits2 (Zpos m) * 2 ^ e); [apply Z.mul_lt_mono_pos_r; lia|].
    rewrite <- Z.pow_add_r by lia. apply Z.pow_le_mono_r; lia.
  - split; [apply Z.div_pos; lia|]. apply Z.div_lt_upper_bound; [lia|]. rewrite <- Z.pow_add_r by lia.
    eapply Z.lt_le_trans; [exact Hm|]. apply Z.pow_le_mono_r; lia.
Qed.

Lemma cvt_ok d : good_draw d → adds 1 (λ vecs, cvt_vec pow10 vecs d).
Proof.
  intros (b & Hb & Eb)%rf_ok vecs. unfold cvt_vec. rewrite Eb. cbn [res_bind].
  destruct (operand_facts b Hb) as (Sb & Nb & Xb & Wb & Db). destruct Hb as [Rb Mb].
  rewrite (f2b_b2f b Rb Xb). cbn [res_bind]. rewrite Db, (trunc_to_double _ Sb).
  destruct (trunc_near _ _ _ Mb ltac:(lia)) as (z & Ez & Hz). rewrite Ez. cbn [res_bind].
  eexists [_]. split; [reflexivity|]. split; [reflexivity|]. constructor; [|constructor]. rewrite Wb, word_word. split.
  - unfold vec_ok, fpu. change (Z.land (OPS CVT_WS) 15) with 8. cbn beta iota. do 2 f_equal.
    unfold to_int. destruct (decode b) as [| | |s m e]; try done. rewrite Ez. lia.
  - unfold vec_normal. split; [intros Hc; by destruct Hc|]. split; [intros _; exact Nb|intros Hc; discriminate Hc].
Qed.

Lemma random_vectors_ok r :
  Forall (λ d, good_draw d.1 ∧ good_draw d.2) (r_arith r) → Forall good_draw (r_sqrt r) →
  Forall (λ iv, Z.abs iv ≤ 2 ^ 30) (r_ints r) → Forall good_draw (r_cvt r) →
  ∃ vecs, random_vecs pow10 r = Ok vecs ∧
    length vecs = (length (r_arith r) * 4 + length (r_sqrt r) + length (r_ints r) + length (r_cvt r))%nat ∧
    Forall vec_good vecs.
Proof.
  intros H1 H2 H3 H4. unfold random_vecs.
  destruct (fold_adds _ _ 4 _ arith_ok H1 []) as (n1 & -> & L1 & G1).
  destruct (fold_adds _ _ 1 _ sqrt_ok H2 ([] ++ n1)) as (n2 & E2 & L2 & G2). cbn [res_bind]. rewrite E2.
  destruct (fold_adds _ _ 1 _ int_ok H3 (([] ++ n1) ++ n2)) as (n3 & E3 & L3 & G3). cbn [res_bind]. rewrite E3.
  destruct (fold_adds _ _ 1 _ cvt_ok H4 ((([] ++ n1) ++ n2) ++ n3)) as (n4 & E4 & L4 & G4). cbn [res_bind]. rewrite E4.
  eexists. split; [done|]. cbn [app]. rewrite !length_app, !Forall_app. split; [lia|done].
Qed.

End script.

Lemma directed_vectors_ok : Forall vec_ok directed_vecs.
Proof. repeat (constructor; [by vm_compute|]). constructor. Qed.

(** ** The promises *)

(** C15.  Every expected result in the two files is what a unit that rounds
    once to single precision returns, although the script rounds twice, to
    doubles and then to singles; the script returns all vectors on every draw,
    and none of their operands and results is subnormal, so that flushing
    subnormal numbers to zero makes no difference. *)
Theorem expected_results_correct pow10 r :
  Forall (λ d, good_draw pow10 d.1 ∧ good_draw pow10 d.2) (r_arith r) → Forall (good_draw pow10) (r_sqrt r) →
  Forall (λ iv, Z.abs iv ≤ 2 ^ 30) (r_ints r) → Forall (good_draw pow10) (r_cvt r) →
  (∃ vecs, random_vecs pow10 r = Ok vecs ∧
    length vecs = (length (r_arith r) * 4 + length (r_sqrt r) + length (r_ints r) + length (r_cvt r))%nat ∧
    Forall vec_ok vecs ∧ Forall vec_normal vecs) ∧
  Forall vec_ok directed_vecs.
Proof.
  intros H1 H2 H3 H4. split; [|exact directed_vectors_ok].
  destruct (random_vectors_ok pow10 r H1 H2 H3 H4) as (vecs & E & L & G). exists vecs.
  split; [exact E|]. split; [exact L|]. split; (eapply Forall_impl; [exact G|]); intros v [Hv Hn]; [exact Hv|exact Hn].
Qed.

(** A power of ten to the nearest power of two. *)
Definition coarse_pow10 (y : Dbl.dbl) : Dbl.dbl :=
  match Dbl.round (Dbl.mul y (Dbl.ratio 332 100)) with
  | Ok n => SFldexp 53 1024 (Dbl.of_Z 1) n
  | Err _ => S754_nan
  end.
Definition tenths (e s u : Z) : draw := (Dbl.ratio e 10, s, Dbl.ratio u 10).
Definition some_draws : randoms :=
  mkRandoms [(tenths 173 1 13, tenths (-57) (-1) 27); (tenths 13 1 7, tenths (-386) (-1) 4)]
    [tenths 77 (-1) 7] [-1073741824; 123456789] [tenths 399 1 29; tenths (-100) (-1) 3].

Definition good_drawb (d : draw) : bool :=
  let '(e, s, u) := d in
  let p := coarse_pow10 (Dbl.div e (Dbl.of_Z 13)) in
  ((s =? 1) || (s =? -1)) && valid_binary 53 1024 u && valid_binary 53 1024 p &&
  match u, p with
  | S754_finite _ m e, S754_finite _ m' e' =>
      (-1 <=? Zdigits2 (Zpos m) + e) && (Zdigits2 (Zpos m) + e <=? 2) &&
      (-10 <=? Zdigits2 (Zpos m') + e') && (Zdigits2 (Zpos m') + e' <=? 11)
  | _, _ => false
  end.
Lemma good_drawb_spec d : good_drawb d = true → good_draw coarse_pow10 d.
Proof.
  destruct d as [[e s] u]. unfold good_drawb, good_draw. set (p := coarse_pow10 _).
  intros [[[Hs Hu]%andb_true_iff Hp]%andb_true_iff Hn]%andb_true_iff.
  destruct u as [| | |su mu eu], p as [| | |sp mp ep]; try done. cbn [near].
  split; [lia|]. split; [exact Hu|]. split; [lia|]. split; [exact Hp|lia].
Qed.

Lemma expected_results_correct_witness :
  good_draw coarse_pow10 (tenths 77 (-1) 7) ∧
  (∃ vecs, random_vecs coarse_pow10 some_draws = Ok vecs ∧ length vecs = 13%nat ∧ Forall vec_ok vecs ∧ Forall vec_normal vecs) ∧
  Forall vec_ok directed_vecs.
Proof.
  split; [apply good_drawb_spec; vm_compute; reflexivity|].
  apply (expected_results_correct coarse_pow10 some_draws).
  - repeat (constructor; [split; apply good_drawb_spec; vm_compute; reflexivity|]). constructor.
  - repeat (constructor; [apply good_drawb_spec; vm_compute; reflexivity|]). constructor.
  - repeat (constructor; [lia|]). constructor.
  - repeat (constructor; [apply good_drawb_spec; vm_compute; reflexivity|]). constructor.
Defined.

(** The result of an operation on two singles computed with doubles: the
    operation's own, or an exception when it is infinite and the doubles' is
    not. *)
Definition packed (x r : spec_float) : res Z :=
  if is_finite x && is_inf r then Err OverflowError else Ok (encode r).

(** Unpacking two words, adding, subtracting, multiplying or dividing
    them as doubles and packing the result gives, for all words, the result
    rounded once to single precision; only a finite result too large for a
    single raises. *)
Theorem host_arithmetic_correct a b :
  0 ≤ a < 2 ^ 32 → 0 ≤ b < 2 ^ 32 →
  let x := decode a in
  let y := decode b in
  f2b (Dbl.add (b2f a) (b2f b)) = packed (Dbl.add (b2f a) (b2f b)) (SFadd 24 128 x y) ∧
  f2b (Dbl.sub (b2f a) (b2f b)) = packed (Dbl.sub (b2f a) (b2f b)) (SFsub 24 128 x y) ∧
  f2b (Dbl.mul (b2f a) (b2f b)) = packed (Dbl.mul (b2f a) (b2f b)) (SFmul 24 128 x y) ∧
  f2b (Dbl.div (b2f a) (b2f b)) = packed (Dbl.div (b2f a) (b2f b)) (SFdiv 24 128 x y) ∧
  f2b (Dbl.sqrt (b2f a)) = packed (Dbl.sqrt (b2f a)) (SFsqrt 24 128 x) ∧
  (x ≠ S754_nan → f2b (b2f a) = Ok a).
Proof.
  intros Ha Hb x y. pose proof (decode_single a Ha) as Sx. pose proof (decode_single b Hb) as Sy.
  rewrite (b2f_eq a Ha), (b2f_eq b Hb). unfold f2b, packed, Dbl.add, Dbl.sub, Dbl.mul, Dbl.div, Dbl.sqrt, Dbl.prec, Dbl.emax.
  cbv zeta. rewrite (to_single_add _ _ Sx Sy), (to_single_sub _ _ Sx Sy), (to_single_mul _ _ Sx Sy),
    (to_single_div _ _ Sx Sy), (to_single_sqrt _ Sx).
  do 5 (split; [reflexivity|]). intros Hn. rewrite <- (b2f_eq a Ha). exact (f2b_b2f a Ha Hn).
Qed.

Lemma host_arithmetic_correct_witness :
  0 ≤ 0x3f800001 < 2 ^ 32 ∧
  (let x := decode 0x3f800001 in
   let y := decode 0x33800000 in
   f2b (Dbl.add (b2f 0x3f800001) (b2f 0x33800000)) = packed (Dbl.add (b2f 0x3f800001) (b2f 0x33800000)) (SFadd 24 128 x y) ∧
   f2b (Dbl.sub (b2f 0x3f800001) (b2f 0x33800000)) = packed (Dbl.sub (b2f 0x3f800001) (b2f 0x33800000)) (SFsub 24 128 x y) ∧
   f2b (Dbl.mul (b2f 0x3f800001) (b2f 0x33800000)) = packed (Dbl.mul (b2f 0x3f800001) (b2f 0x33800000)) (SFmul 24 128 x y) ∧
   f2b (Dbl.div (b2f 0x3f800001) (b2f 0x33800000)) = packed (Dbl.div (b2f 0x3f800001) (b2f 0x33800000)) (SFdiv 24 128 x y) ∧
   f2b (Dbl.sqrt (b2f 0x3f800001)) = packed (Dbl.sqrt (b2f 0x3f800001)) (SFsqrt 24 128 x) ∧
   (x ≠ S754_nan → f2b (b2f 0x3f800001) = Ok 0x3f800001)).
Proof. split; [lia|]. apply (host_arithmetic_correct 0x3f800001 0x33800000); lia. Defined.

End FpuSpec.
