(* ===== verification/VModel.v ===== *)
(** * tools/vtest/vgen.py, class Model: the vector register file and memory

    The reference model of the RVV subset the vector unit implements: 32
    vector registers of [vlen] bits kept as one byte array, a byte-addressed
    memory, and the vector configuration [vl], [sew], [lmul].

    [lmul] is one of 1/8, 1/4, 1/2, 1, 2, 4, 8, a Python float; floats hold
    these (and every product and quotient the code forms from them) exactly,
    so it is kept as the integer [lmul8] = 8 * lmul. *)
From S2P Require Import Prelude.

Module VModel.

Definition DATA : nat := Z.to_nat 0x2000.
Definition INDEX : nat := Z.to_nat 0x3000.
Definition OUT_V : nat := Z.to_nat 0x4000.
Definition OUT_S : nat := Z.to_nat 0x5000.
Definition END : nat := Z.to_nat 0x6000.

Definition sx (v bits : Z) : Z :=
  let v := mask v bits in
  if Z.eqb (Z.shiftr v (bits - 1)) 0 then v else (v - Z.shiftl 1 bits)%Z.

Record Model := mkModel {
  vlen : nat;
  v : list Z;
  mem : list Z;
  vl : nat;
  sew : nat;
  lmul8 : nat;
  out : list Z
}.

Definition vlenb (m : Model) : nat := vlen m / 8.

Definition with_v (m : Model) (w : list Z) : Model :=
  mkModel (vlen m) w (mem m) (vl m) (sew m) (lmul8 m) (out m).
Definition with_mem (m : Model) (w : list Z) : Model :=
  mkModel (vlen m) (v m) w (vl m) (sew m) (lmul8 m) (out m).
Definition with_cfg (m : Model) (s l8 n : nat) : Model :=
  mkModel (vlen m) (v m) (mem m) n s l8 (out m).

(** [Model.__init__] *)
Definition Model_init (vlen : nat) (mem : list Z) : Model :=
  mkModel vlen (replicate (32 * (vlen / 8)) 0%Z) mem 0 8 8 [].

(** ** Element access *)

Definition eoff (m : Model) (reg i eew : nat) : nat := reg * vlenb m + i * eew / 8.

Definition eget (m : Model) (reg i eew : nat) : Z :=
  let o := eoff m reg i eew in
  int_from_bytes (slice (v m) o (o + eew / 8)).

Definition eset (m : Model) (reg i eew : nat) (val : Z) : Model :=
  let o := eoff m reg i eew in
  with_v m (slice_set (v m) o (o + eew / 8)
              (int_to_bytes (eew / 8) (mask val (Z.of_nat eew)))).

Definition bget (m : Model) (reg i : nat) : res Z :=
  let o := reg * vlenb m + i / 8 in
  let* b := index (v m) o in
  Ok (Z.land (Z.shiftr b (Z.of_nat (i mod 8))) 1).

Definition bset (m : Model) (reg i : nat) (b : Z) : res Model :=
  let o := reg * vlenb m + i / 8 in
  let* old := index (v m) o in
  let* w := index_set (v m) o
    (Z.lor (Z.land old (Z.lnot (Z.shiftl 1 (Z.of_nat (i mod 8)))))
           (Z.shiftl b (Z.of_nat (i mod 8)))) in
  Ok (with_v m w).

Definition mget (m : Model) (a n : nat) : Z :=
  int_from_bytes (slice (mem m) a (a + n)).

Definition mset (m : Model) (a n : nat) (val : Z) : Model :=
  with_mem m (slice_set (mem m) a (a + n)
                (int_to_bytes n (mask val (8 * Z.of_nat n)))).

(** [vlmax(sew, lmul)]; the no-argument call passes the current ones. *)
Definition vlmax (m : Model) (s l8 : nat) : nat := vlen m / s * l8 / 8.

Definition active (m : Model) (i : nat) (vm : bool) : res bool :=
  if vm then Ok true else let* b := bget m 0 i in Ok (negb (Z.eqb b 0)).

(** ** The invariant *)

Definition sew_ok (s : nat) : Prop := s = 8 ∨ s = 16 ∨ s = 32.
Definition vlen_ok (n : nat) : Prop := n = 64 ∨ n = 128 ∨ n = 256.
Definition lmul_ok (l8 : nat) : Prop :=
  l8 ∈ [1; 2; 4; 8; 16; 32; 64].

(** The register file holds 32 registers, memory covers [0, END), every cell
    is a byte, the configuration is one [vsetvl] allows, and [vl] elements of
    [sew] bits fit in the register group. *)
Record wf (m : Model) : Prop := {
  wf_vlen : vlen_ok (vlen m);
  wf_v_len : length (v m) = 32 * vlenb m;
  wf_v_bytes : Forall is_byte (v m);
  wf_mem_len : length (mem m) = END;
  wf_mem_bytes : Forall is_byte (mem m);
  wf_sew : sew_ok (sew m);
  wf_lmul : lmul_ok (lmul8 m);
  wf_vl : vl m ≤ vlmax m (sew m) (lmul8 m)
}.

(** The registers of the group that starts at [reg] ([n] of them) exist. *)
Definition group_in (reg n : nat) : Prop := 0 < n ∧ reg + n ≤ 32.

(** [int(max(1, lmul))]: registers per group. *)
Definition emul_regs (l8 : nat) : nat := Nat.max 1 (l8 / 8).

Ltac vcases :=
  repeat match goal with
  | H : vlen_ok _ |- _ => destruct H as [H|[H|H]]
  | H : sew_ok _ |- _ => destruct H as [H|[H|H]]
  | H : lmul_ok _ |- _ => unfold lmul_ok in H
  | H : _ ∈ _ :: _ |- _ => apply elem_of_cons in H as [H|H]
  | H : _ ∈ [] |- _ => by apply elem_of_nil in H
  end.

(** Evaluates the quotients of numerals in the goal and the context. *)
Ltac eval_div :=
  repeat match goal with
  | |- context [Nat.div ?a ?b] =>
      is_ground a; is_ground b;
      let c := eval vm_compute in (Nat.div a b) in change (Nat.div a b) with c
  | H : context [Nat.div ?a ?b] |- _ =>
      is_ground a; is_ground b;
      let c := eval vm_compute in (Nat.div a b) in change (Nat.div a b) with c in H
  end.

Lemma vlenb_8 m : vlen_ok (vlen m) → vlen m = 8 * vlenb m ∧ 8 ≤ vlenb m ≤ 32.
Proof. intros. unfold vlenb. vcases; rewrite H; vm_compute; lia. Qed.

(** ** Frame and read-back lemmas of the accessors *)
Section access.
Implicit Types m : Model.

Definition elem_in m (reg i eew : nat) : Prop :=
  eoff m reg i eew + eew / 8 ≤ length (v m).

Lemma sew_bytes s : sew_ok s → s = 8 * (s / 8) ∧ 1 ≤ s / 8 ≤ 4.
Proof. intros. vcases; subst; vm_compute; lia. Qed.

Lemma eoff_scaled m reg i eew :
  sew_ok eew → eoff m reg i eew = reg * vlenb m + i * (eew / 8).
Proof.
  intros He. unfold eoff. destruct (sew_bytes eew He) as [E _].
  rewrite E at 1. replace (i * (8 * (eew / 8))) with (i * (eew / 8) * 8) by lia.
  by rewrite Nat.div_mul by lia.
Qed.

Lemma v_eset m reg i eew x j :
  elem_in m reg i eew →
  v (eset m reg i eew x) !! j =
    if decide (eoff m reg i eew ≤ j < eoff m reg i eew + eew / 8)
    then int_to_bytes (eew / 8) (mask x (Z.of_nat eew)) !! (j - eoff m reg i eew)
    else v m !! j.
Proof.
  intros H. unfold eset; simpl. apply lookup_slice_set; [|done].
  by rewrite length_int_to_bytes.
Qed.

Lemma length_v_eset m reg i eew x :
  elem_in m reg i eew → length (v (eset m reg i eew x)) = length (v m).
Proof.
  intros H. unfold eset; simpl. apply length_slice_set; [|done].
  by rewrite length_int_to_bytes.
Qed.

Lemma eset_cfg m reg i eew x :
  vlen (eset m reg i eew x) = vlen m ∧ vl (eset m reg i eew x) = vl m ∧
  sew (eset m reg i eew x) = sew m ∧ lmul8 (eset m reg i eew x) = lmul8 m ∧
  mem (eset m reg i eew x) = mem m.
Proof. done. Qed.

Lemma eset_bytes m reg i eew x :
  Forall is_byte (v m) → Forall is_byte (v (eset m reg i eew x)).
Proof. intros. unfold eset; simpl. auto with py. Qed.

Lemma eset_wf m reg i eew x : wf m → elem_in m reg i eew → wf (eset m reg i eew x).
Proof.
  intros [] H. constructor; try done.
  - by rewrite length_v_eset.
  - by apply eset_bytes.
Qed.

(** Writing an element and reading it back gives the value modulo [2^eew]. *)
Lemma eget_eset_same m reg i eew x :
  sew_ok eew → elem_in m reg i eew →
  eget (eset m reg i eew x) reg i eew = (x mod 2 ^ Z.of_nat eew)%Z.
Proof.
  intros He H. unfold eget, eset, eoff in *; simpl in *.
  change (vlenb (with_v _ _)) with (vlenb m).
  rewrite slice_slice_set_same by (rewrite ?length_int_to_bytes; done).
  destruct (sew_bytes eew He) as [E ?].
  rewrite int_from_to_bytes, mask_mod by lia.
  replace (8 * Z.of_nat (eew / 8))%Z with (Z.of_nat eew) by lia.
  apply Z.mod_mod. apply Z.pow_nonzero; lia.
Qed.

(** An element that shares no byte with the written one is undisturbed. *)
Lemma eget_eset_disjoint m reg i eew x reg' i' eew' :
  elem_in m reg i eew →
  eoff m reg' i' eew' + eew' / 8 ≤ eoff m reg i eew ∨
  eoff m reg i eew + eew / 8 ≤ eoff m reg' i' eew' →
  eget (eset m reg i eew x) reg' i' eew' = eget m reg' i' eew'.
Proof.
  intros H Hd. unfold eget. unfold eset, eoff in *; simpl in *.
  change (vlenb (with_v _ _)) with (vlenb m).
  rewrite slice_slice_set_disjoint by (rewrite ?length_int_to_bytes; done). done.
Qed.

Lemma eget_eset_other m reg i j eew x :
  sew_ok eew → elem_in m reg i eew → i ≠ j →
  eget (eset m reg i eew x) reg j eew = eget m reg j eew.
Proof.
  intros He H Hij. apply eget_eset_disjoint; [done|].
  rewrite !eoff_scaled by done. destruct (sew_bytes eew He). nia.
Qed.

Lemma bget_eset_outside m reg i eew x r j :
  elem_in m reg i eew →
  ¬ (eoff m reg i eew ≤ r * vlenb m + j / 8 < eoff m reg i eew + eew / 8) →
  bget (eset m reg i eew x) r j = bget m r j.
Proof.
  intros H Hd. unfold bget, index. change (vlenb (eset m reg i eew x)) with (vlenb m).
  rewrite v_eset by done. by rewrite decide_False.
Qed.

Lemma bget_ok m r j :
  r * vlenb m + j / 8 < length (v m) → ∃ b, bget m r j = Ok b ∧ (b = 0 ∨ b = 1)%Z.
Proof.
  intros H. apply lookup_lt_is_Some in H as [b Hb].
  unfold bget, index. rewrite Hb; simpl. eexists; split; [done|].
  pose proof (mask_bound (Z.shiftr b (Z.of_nat (j mod 8))) 1 ltac:(lia)) as Hm.
  unfold mask in Hm. change (Z.ones 1) with 1%Z in Hm.
  change (2 ^ 1)%Z with 2%Z in Hm. lia.
Qed.
End access.

(** ** Memory *)
Section memory.
Implicit Types m : Model.

Lemma mem_mset m a n x j :
  a + n ≤ length (mem m) →
  mem (mset m a n x) !! j =
    if decide (a ≤ j < a + n)
    then int_to_bytes n (mask x (8 * Z.of_nat n)) !! (j - a) else mem m !! j.
Proof.
  intros H. unfold mset; simpl. apply lookup_slice_set; [|done].
  by rewrite length_int_to_bytes.
Qed.

Lemma mset_wf m a n x : wf m → a + n ≤ END → wf (mset m a n x).
Proof.
  intros [] H. constructor; try done; simpl.
  - rewrite length_slice_set; [done|by rewrite length_int_to_bytes|lia].
  - auto with py.
Qed.

Lemma mget_mset_same m a n x :
  a + n ≤ length (mem m) → mget (mset m a n x) a n = (x mod 2 ^ (8 * Z.of_nat n))%Z.
Proof.
  intros H. unfold mget, mset; simpl.
  rewrite slice_slice_set_same by (rewrite ?length_int_to_bytes; done).
  rewrite int_from_to_bytes, mask_mod by lia. apply Z.mod_mod. apply Z.pow_nonzero; lia.
Qed.

Lemma mget_mset_disjoint m a n x c k :
  a + n ≤ length (mem m) → c + k ≤ a ∨ a + n ≤ c →
  mget (mset m a n x) c k = mget m c k.
Proof.
  intros H Hd. unfold mget, mset; simpl.
  by rewrite slice_slice_set_disjoint by (rewrite ?length_int_to_bytes; done).
Qed.

Lemma eget_bound m reg i eew :
  sew_ok eew → Forall is_byte (v m) → (0 ≤ eget m reg i eew < 2 ^ Z.of_nat eew)%Z.
Proof.
  intros He Hv. unfold eget.
  pose proof (int_from_bytes_bound (slice (v m) (eoff m reg i eew)
    (eoff m reg i eew + eew / 8)) ltac:(auto with py)) as [? H].
  split; [done|]. eapply Z.lt_le_trans; [exact H|].
  apply Z.pow_le_mono_r; [lia|]. rewrite length_slice.
  destruct (sew_bytes eew He). lia.
Qed.
End memory.

(** ** Mask bits *)
Section bits.
Implicit Types m : Model.
Local Open Scope Z_scope.

Lemma bit_read x k : 0 ≤ k → Z.land (Z.shiftr x k) 1 = Z.b2z (Z.testbit x k).
Proof.
  intros. rewrite Z.testbit_spec' by done.
  change 1 with (Z.ones 1) at 1. rewrite Z.land_ones by lia.
  by rewrite Z.shiftr_div_pow2 by done.
Qed.

Lemma bit_write x k b j :
  0 ≤ k → 0 ≤ j → b = 0 ∨ b = 1 →
  Z.testbit (Z.lor (Z.land x (Z.lnot (Z.shiftl 1 k))) (Z.shiftl b k)) j =
    if decide (j = k) then Z.eqb b 1 else Z.testbit x j.
Proof.
  intros Hk Hj Hb.
  rewrite Z.lor_spec, Z.land_spec, Z.lnot_spec, !Z.shiftl_spec by done.
  destruct (decide (j = k)) as [->|Hne].
  - rewrite Z.sub_diag. destruct Hb as [-> | ->]; simpl; by rewrite andb_false_r.
  - assert (∀ c, c = 0 ∨ c = 1 → Z.testbit c (j - k) = false) as Hc.
    { intros c [-> | ->]; [apply Z.bits_0|].
      destruct (Z_lt_le_dec j k); [apply Z.testbit_neg_r; lia|].
      change 1 with (2 ^ 0). apply Z.pow2_bits_false. lia. }
    rewrite !Hc by auto. by rewrite andb_true_r, orb_false_r.
Qed.

Lemma bit_write_byte x k b :
  is_byte x → 0 ≤ k < 8 → b = 0 ∨ b = 1 →
  is_byte (Z.lor (Z.land x (Z.lnot (Z.shiftl 1 k))) (Z.shiftl b k)).
Proof.
  intros Hx Hk Hb. set (y := Z.lor _ _).
  assert (0 ≤ y).
  { apply Z.lor_nonneg; split.
    - apply Z.land_nonneg. left. apply Hx.
    - apply Z.shiftl_nonneg. lia. }
  assert (y = y mod 2 ^ 8) as ->; [|split; apply Z.mod_pos_bound; lia].
  apply Z.bits_inj'. intros j Hj. destruct (Z_lt_le_dec j 8).
  - by rewrite Z.mod_pow2_bits_low.
  - rewrite Z.mod_pow2_bits_high by lia. unfold y. rewrite bit_write by lia || done.
    rewrite decide_False by lia. unfold is_byte in Hx.
    rewrite <- (Z.mod_small x (2 ^ 8)) by lia. apply Z.mod_pow2_bits_high. lia.
Qed.

(** Writing a mask bit succeeds inside the register file; that bit reads back
    and no other bit of any register changes. *)
Lemma bset_ok m r i b :
  wf m → (r * vlenb m + i / 8 < length (v m))%nat → b = 0 ∨ b = 1 →
  ∃ m', bset m r i b = Ok m' ∧ wf m' ∧
    bget m' r i = Ok b ∧
    (∀ r' j, (r' * vlenb m + j / 8, j mod 8)%nat ≠ (r * vlenb m + i / 8, i mod 8)%nat →
       bget m' r' j = bget m r' j) ∧
    (∀ k, k ≠ (r * vlenb m + i / 8)%nat → v m' !! k = v m !! k) ∧
    vlen m' = vlen m ∧ vl m' = vl m ∧ sew m' = sew m ∧ lmul8 m' = lmul8 m ∧ mem m' = mem m.
Proof.
  intros Hm Ho Hb. set (o := (r * vlenb m + i / 8)%nat) in *.
  destruct (lookup_lt_is_Some_2 _ _ Ho) as [x Hx].
  assert (0 ≤ Z.of_nat (i mod 8) < 8).
  { pose proof (Nat.mod_upper_bound i 8). lia. }
  unfold bset, index, index_set. fold o. rewrite Hx; simpl. rewrite decide_True by done.
  eexists; split; [done|]. split_and!; try done.
  - destruct Hm. constructor; try done; simpl.
    + by rewrite length_insert.
    + apply Forall_insert; [done|]. apply bit_write_byte; [|done|done].
      by eapply (Forall_lookup_1 is_byte (v m)).
  - unfold bget, index; simpl. change (vlenb (with_v _ _)) with (vlenb m). fold o.
    rewrite list_lookup_insert_eq by done; simpl.
    rewrite bit_read, bit_write, decide_True by (lia || done).
    by destruct Hb as [-> | ->].
  - intros r' j Hj. unfold bget, index; simpl. change (vlenb (with_v _ _)) with (vlenb m).
    destruct (decide ((r' * vlenb m + j / 8)%nat = o)) as [E|E].
    + rewrite E, list_lookup_insert_eq, Hx by done; simpl.
      rewrite !bit_read, bit_write by (lia || done).
      rewrite decide_False; [done|]. intros E2%Nat2Z.inj. apply Hj. congruence.
    + by rewrite list_lookup_insert_ne by congruence.
  - intros k Hk. simpl. by rewrite list_lookup_insert_ne by congruence.
Qed.
End bits.

(** ** Signed reading *)
Section sx.
Local Open Scope Z_scope.

Lemma sx_spec x bits : 0 < bits →
  sx x bits = if Z.ltb (x mod 2 ^ bits) (2 ^ (bits - 1)) then x mod 2 ^ bits
              else x mod 2 ^ bits - 2 ^ bits.
Proof.
  intros Hb. unfold sx. rewrite mask_mod by lia.
  rewrite Z.shiftr_div_pow2, Z.shiftl_mul_pow2, Z.mul_1_l by lia.
  assert (0 < 2 ^ (bits - 1)) by (apply Z.pow_pos_nonneg; lia).
  assert (2 ^ bits = 2 * 2 ^ (bits - 1)) as E.
  { rewrite <- Z.pow_succ_r by lia. f_equal; lia. }
  pose proof (Z.mod_pos_bound x (2 ^ bits)) as Hm.
  set (r := x mod 2 ^ bits) in *.
  destruct (Z.ltb_spec r (2 ^ (bits - 1))).
  - rewrite Z.div_small by lia. done.
  - destruct (Z.eqb_spec (r / 2 ^ (bits - 1)) 0) as [E0|]; [|done].
    apply Z.div_small_iff in E0; lia.
Qed.

Lemma sx_bound x bits : 0 < bits → - 2 ^ (bits - 1) ≤ sx x bits < 2 ^ (bits - 1).
Proof.
  intros Hb. rewrite sx_spec by done.
  assert (2 ^ bits = 2 * 2 ^ (bits - 1)) as E.
  { rewrite <- Z.pow_succ_r by lia. f_equal; lia. }
  assert (0 < 2 ^ (bits - 1)) by (apply Z.pow_pos_nonneg; lia).
  pose proof (Z.mod_pos_bound x (2 ^ bits)).
  destruct (Z.ltb_spec (x mod 2 ^ bits) (2 ^ (bits - 1))); lia.
Qed.

Lemma sx_mod x bits : 0 < bits → sx x bits mod 2 ^ bits = x mod 2 ^ bits.
Proof.
  intros Hb. rewrite sx_spec by done.
  assert (0 < 2 ^ bits) by (apply Z.pow_pos_nonneg; lia).
  destruct (Z.ltb _ _); [by rewrite Z.mod_mod by lia|].
  rewrite <- (Z_mod_plus_full (x mod 2 ^ bits - 2 ^ bits) 1 (2 ^ bits)).
  rewrite Z.mul_1_l, Z.sub_add. by rewrite Z.mod_mod by lia.
Qed.
End sx.

End VModel.
