(* ===== verification/VInstr.v ===== *)
(** * tools/vtest/vgen.py: what each generated instruction does to the model

    The model half of the handlers of class Gen (the "model" part of [arith],
    [compare], [reduce], [masklogic], [scalars], [slide], [movnr] and
    [memop]), as functions on [Model].  The generator half, which draws the
    operands and emits the assembly text, is in VGen.

    Handlers that first collect results in a dict and write them back
    afterwards are [gather] followed by [scatter] or [scatter_bits];
    handlers that write as they go are folds. *)
From S2P Require Import Prelude VModel.

Module VInstr.
Import VModel.

(** ** Collect, then write back *)

(** [d = {}; for i in l: (continue | d[i] = f(i))]: the entries in order. *)
Fixpoint gather {B} (f : nat → res (option B)) (l : list nat) : res (list (nat * B)) :=
  match l with
  | [] => Ok []
  | i :: l =>
      let* o := f i in
      let* d := gather f l in
      Ok (match o with Some b => (i, b) :: d | None => d end)
  end.

(** [for i, v in d.items(): m.eset(vd, i, sew, v)] *)
Definition scatter (m : Model) (vd s : nat) (d : list (nat * Z)) : Model :=
  fold_left (λ m ix, eset m vd ix.1 s ix.2) d m.

(** [for i, b in d.items(): m.bset(vd, i, b)] *)
Definition scatter_bits (m : Model) (vd : nat) (d : list (nat * Z)) : res Model :=
  res_fold (λ m ib, bset m vd ib.1 ib.2) m d.

(** ** Arithmetic (vgen.py) *)

Inductive vform := vv | vx | vi.

Inductive aop :=
  | vadd | vsub | vrsub | vand | vor | vxor | vsll | vsrl | vsra
  | vminu | vmin | vmaxu | vmax | vmul | vmulh | vmulhu | vmulhsu
  | vmacc | vnmsac | vmadd | vnmsub | vmerge | vmv.

Definition is_shift (op : aop) : bool :=
  match op with vsll | vsrl | vsra => true | _ => false end.
Definition is_merge (op : aop) : bool :=
  match op with vmerge => true | _ => false end.

(** The operands a handler drew: registers, scalar and immediates. *)
Record arith_args := {
  a_op : aop; a_form : vform; a_vm : bool;
  a_vd : nat; a_vs2 : nat; a_vs1 : nat;
  a_x : Z; a_simm : Z; a_uimm : Z
}.

(** [a1]: the second source of element [i]. *)
Definition arith_a1 (m : Model) (A : arith_args) (i : nat) : Z :=
  let bits := Z.of_nat (sew m) in
  match a_form A with
  | vv => eget m (a_vs1 A) i (sew m)
  | vx => mask (a_x A) bits
  | vi => mask (if is_shift (a_op A) then a_uimm A else a_simm A) bits
  end.

(** The lambda table; [b0] is [m.bget(0, i)], read by vmerge only. *)
Definition arith_res (op : aop) (bits a2 a1 ad : Z) (b0 : res Z) : res Z :=
  let s2 := sx a2 bits in
  let s1 := sx a1 bits in
  let sh := Z.land a1 (bits - 1) in
  match op with
  | vadd => Ok (a2 + a1)
  | vsub => Ok (a2 - a1)
  | vrsub => Ok (a1 - a2)
  | vand => Ok (Z.land a2 a1)
  | vor => Ok (Z.lor a2 a1)
  | vxor => Ok (Z.lxor a2 a1)
  | vsll => Ok (Z.shiftl a2 sh)
  | vsrl => Ok (Z.shiftr a2 sh)
  | vsra => Ok (Z.shiftr s2 sh)
  | vminu => Ok (Z.min a2 a1)
  | vmaxu => Ok (Z.max a2 a1)
  | vmin => Ok (Z.min s2 s1)
  | vmax => Ok (Z.max s2 s1)
  | vmul => Ok (s2 * s1)
  | vmulh => Ok (Z.shiftr (s2 * s1) bits)
  | vmulhu => Ok (Z.shiftr (a2 * a1) bits)
  | vmulhsu => Ok (Z.shiftr (s2 * a1) bits)
  | vmacc => Ok (a1 * a2 + ad)
  | vnmsac => Ok (ad - a1 * a2)
  | vmadd => Ok (a1 * ad + a2)
  | vnmsub => Ok (a2 - a1 * ad)
  | vmerge => let* b := b0 in Ok (if Z.eqb b 0 then a2 else a1)
  | vmv => Ok a1
  end%Z.

(** One turn of the loop over [range(vl)]; [None] is [continue]. *)
Definition arith_step (m : Model) (A : arith_args) (i : nat) : res (option Z) :=
  let* act := if is_merge (a_op A) then Ok true else active m i (a_vm A) in
  if act then
    let a2 := eget m (a_vs2 A) i (sew m) in
    let a1 := arith_a1 m A i in
    let ad := eget m (a_vd A) i (sew m) in
    let* r := arith_res (a_op A) (Z.of_nat (sew m)) a2 a1 ad (bget m 0 i) in
    Ok (Some r)
  else Ok None.

Definition arith_exec (m : Model) (A : arith_args) : res Model :=
  let* new := gather (arith_step m A) (seq 0 (vl m)) in
  Ok (scatter m (a_vd A) (sew m) new).

(** ** Compares into a mask register (vgen.py) *)

Inductive cop := vmseq | vmsne | vmsltu | vmslt | vmsleu | vmsle | vmsgtu | vmsgt.

Record cmp_args := {
  c_op : cop; c_form : vform; c_vm : bool;
  c_vd : nat; c_vs2 : nat; c_vs1 : nat; c_x : Z; c_simm : Z
}.

Definition cmp_a1 (m : Model) (C : cmp_args) (i : nat) : Z :=
  let bits := Z.of_nat (sew m) in
  match c_form C with
  | vv => eget m (c_vs1 C) i (sew m)
  | vx => mask (c_x C) bits
  | vi => mask (c_simm C) bits
  end.

Definition cmp_res (op : cop) (bits a2 a1 : Z) : bool :=
  let s2 := sx a2 bits in
  let s1 := sx a1 bits in
  match op with
  | vmseq => a2 =? a1
  | vmsne => negb (a2 =? a1)
  | vmsltu => a2 <? a1
  | vmslt => s2 <? s1
  | vmsleu => a2 <=? a1
  | vmsle => s2 <=? s1
  | vmsgtu => a1 <? a2
  | vmsgt => s1 <? s2
  end%Z.

Definition cmp_step (m : Model) (C : cmp_args) (i : nat) : res (option Z) :=
  let* act := active m i (c_vm C) in
  if act then
    let a2 := eget m (c_vs2 C) i (sew m) in
    Ok (Some (Z.b2z (cmp_res (c_op C) (Z.of_nat (sew m)) a2 (cmp_a1 m C i))))
  else Ok None.

Definition compare_exec (m : Model) (C : cmp_args) : res Model :=
  let* bits := gather (cmp_step m C) (seq 0 (vl m)) in
  scatter_bits m (c_vd C) bits.

(** ** Reductions (vgen.py) *)

Inductive rop := vredsum | vredand | vredor | vredxor
  | vredminu | vredmin | vredmaxu | vredmax.

Definition red_res (op : rop) (bits acc e : Z) : Z :=
  mask match op with
  | vredsum => (acc + e)%Z
  | vredand => Z.land acc e
  | vredor => Z.lor acc e
  | vredxor => Z.lxor acc e
  | vredminu => Z.min acc e
  | vredmaxu => Z.max acc e
  | vredmin => if (sx acc bits <=? sx e bits)%Z then acc else e
  | vredmax => if (sx e bits <=? sx acc bits)%Z then acc else e
  end bits.

Definition reduce_exec (m : Model) (op : rop) (vm : bool) (vd vs2 vs1 : nat) : res Model :=
  if Nat.eqb (vl m) 0 then Ok m else
  let bits := Z.of_nat (sew m) in
  let* acc := res_fold (λ acc i,
      let* act := active m i vm in
      Ok (if act then red_res op bits acc (eget m vs2 i (sew m)) else acc))
    (eget m vs1 0 (sew m)) (seq 0 (vl m)) in
  Ok (eset m vd 0 (sew m) acc).

(** ** Mask logic (vgen.py) *)

Inductive mop := vmand | vmnand | vmandn | vmxor | vmor | vmnor | vmorn | vmxnor.

Definition mop_res (op : mop) (a b : Z) : Z :=
  match op with
  | vmand => Z.land a b
  | vmnand => 1 - Z.land a b
  | vmandn => Z.land a (1 - b)
  | vmxor => Z.lxor a b
  | vmor => Z.lor a b
  | vmnor => 1 - Z.lor a b
  | vmorn => Z.lor a (1 - b)
  | vmxnor => 1 - Z.lxor a b
  end%Z.

Definition mop_step (m : Model) (op : mop) (vs2 vs1 i : nat) : res (option Z) :=
  let* a := bget m vs2 i in
  let* b := bget m vs1 i in
  Ok (Some (mop_res op a b)).

Definition masklogic_exec (m : Model) (op : mop) (vd vs2 vs1 : nat) : res Model :=
  let* bits := gather (mop_step m op vs2 vs1) (seq 0 (vl m)) in
  scatter_bits m vd bits.

(** ** vcpop, vfirst, vmv.x.s, vmv.s.x, vid (vgen.py) *)

(** [[i for i in range(vl) if active(i, vm) and bget(vs2, i)]] *)
Definition mask_set (m : Model) (vm : bool) (vs2 : nat) : res (list nat) :=
  let* d := gather (λ i,
      let* act := active m i vm in
      if act then
        let* b := bget m vs2 i in
        Ok (if Z.eqb b 0 then None else Some tt)
      else Ok None) (seq 0 (vl m)) in
  Ok d.*1.

Definition cpop_val (m : Model) (vm : bool) (vs2 : nat) : res Z :=
  let* act := mask_set m vm vs2 in Ok (Z.of_nat (length act)).

Definition first_val (m : Model) (vm : bool) (vs2 : nat) : res Z :=
  let* act := mask_set m vm vs2 in
  Ok (match act with i :: _ => Z.of_nat i | [] => 0xFFFFFFFF%Z end).

Definition mvxs_val (m : Model) (vs2 : nat) : Z :=
  mask (sx (eget m vs2 0 (sew m)) (Z.of_nat (sew m))) 32.

Definition mvsx_exec (m : Model) (vd : nat) (x : Z) : Model :=
  if Nat.ltb 0 (vl m) then eset m vd 0 (sew m) x else m.

Definition vid_exec (m : Model) (vm : bool) (vd : nat) : res Model :=
  let s := sew m in
  res_fold (λ m i,
      let* act := active m i vm in
      Ok (if act then eset m vd i s (Z.of_nat i) else m))
    m (seq 0 (vl m)).

(** ** Slides (vgen.py) *)

Inductive sop := up | down | up1 | down1.

Definition slide_step (m : Model) (k : sop) (vm : bool) (vs2 off : nat) (x : Z)
    (i : nat) : res (option Z) :=
  let s := sew m in
  let vmax := vlmax m s (lmul8 m) in
  let old j := eget m vs2 j s in
  let* act := active m i vm in
  Ok (if act then Some
    match k with
    | up => old (i - off)
    | down => if Nat.ltb (i + off) vmax then old (i + off) else 0%Z
    | up1 => if Nat.eqb i 0 then x else old (i - 1)
    | down1 => if Nat.eqb i (vl m - 1) then x else old (i + 1)
    end else None).

Definition slide_exec (m : Model) (k : sop) (vm : bool) (vd vs2 off : nat) (x : Z)
    : res Model :=
  let js := match k with up => seq off (vl m - off) | _ => seq 0 (vl m) end in
  let* r := gather (slide_step m k vm vs2 off x) js in
  Ok (scatter m vd (sew m) r).

(** ** Whole-register moves (vgen.py) *)
Definition movnr_exec (m : Model) (n vd vs2 : nat) : Model :=
  with_v m (slice_set (v m) (vd * vlenb m) ((vd + n) * vlenb m)
              (slice (v m) (vs2 * vlenb m) ((vs2 + n) * vlenb m))).

(** ** Loads and stores (vgen.py) *)

(** Unit-stride, strided and fault-only-first accesses of [eew] bits. *)
Definition stride_exec (m : Model) (store vm : bool) (vd base stride eew : nat) : res Model :=
  res_fold (λ m i,
      let* act := active m i vm in
      let a := base + i * stride in
      Ok (if act then
            if store then mset m a (eew / 8) (eget m vd i eew)
            else eset m vd i eew (mget m a (eew / 8))
          else m))
    m (seq 0 (vl m)).

(** Indexed accesses: the index registers are [vix], [ieew] bits wide. *)
Definition index_exec (m : Model) (store vm : bool) (vd base vix ieew : nat) : res Model :=
  let s := sew m in
  res_fold (λ m i,
      let* act := active m i vm in
      let a := base + Z.to_nat (eget m vix i ieew) in
      Ok (if act then
            if store then mset m a (s / 8) (eget m vd i s)
            else eset m vd i s (mget m a (s / 8))
          else m))
    m (seq 0 (vl m)).

(** vl<n>re<eew>.v into [vd] from address [a]. *)
Definition load_regs (m : Model) (vd n a : nat) : Model :=
  with_v m (slice_set (v m) (vd * vlenb m) ((vd + n) * vlenb m)
              (slice (mem m) a (a + n * vlenb m))).

(** vs<n>r.v *)
Definition store_regs (m : Model) (vd n a : nat) : Model :=
  with_mem m (slice_set (mem m) a (a + n * vlenb m)
                (slice (v m) (vd * vlenb m) ((vd + n) * vlenb m))).

(** vlm.v / vsm.v: the bytes that hold [vl] mask bits. *)
Definition maskmem_exec (m : Model) (store : bool) (vd base : nat) : res Model :=
  res_fold (λ m i,
      if store then
        let* b := index (v m) (vd * vlenb m + i) in
        Ok (mset m (base + i) 1 b)
      else
        let* b := index (mem m) (base + i) in
        let* w := index_set (v m) (vd * vlenb m + i) b in
        Ok (with_v m w))
    m (seq 0 ((vl m + 7) / 8)).

(** ** Facts about gather and scatter *)
Section gather.
Context {B : Type}.
Implicit Types (f : nat → res (option B)) (l : list nat) (d : list (nat * B)).

Lemma gather_ok f l :
  (∀ i, i ∈ l → ∃ o, f i = Ok o) → ∃ d, gather f l = Ok d.
Proof.
  induction l as [|i l IH]; intros H; simpl; [eauto|].
  destruct (H i) as [o ->]; [set_solver|]; simpl.
  destruct IH as [d ->]; [set_solver|]; simpl. eauto.
Qed.

Lemma gather_elem f l d i b :
  gather f l = Ok d → (i, b) ∈ d ↔ i ∈ l ∧ f i = Ok (Some b).
Proof.
  revert d; induction l as [|j l IH]; intros d; simpl.
  - intros [= <-]. set_solver.
  - intros H. res_inv. rename x into o, x0 into d0. specialize (IH d0 H0).
    destruct o as [c|]; rewrite ?elem_of_cons, IH; split.
    + intros [[= -> ->]|[? ?]]; [auto|]. auto.
    + intros [[->|?] E]; [left|right]; [|auto]. rewrite H in E. congruence.
    + intros [? ?]; auto.
    + intros [[->|?] E]; [|auto]. rewrite H in E; congruence.
Qed.

Lemma gather_NoDup f l d : gather f l = Ok d → NoDup l → NoDup d.*1.
Proof.
  revert d; induction l as [|j l IH]; intros d; simpl.
  - intros [= <-] _. constructor.
  - intros H [Hj Hl]%NoDup_cons. res_inv. rename x into o, x0 into d0.
    specialize (IH d0 H0 Hl). destruct o as [c|]; [|done].
    rewrite fmap_cons. apply NoDup_cons; split; [|done].
    rewrite list_elem_of_fmap. intros ([k b] & Hk & Hin). simpl in Hk; subst k.
    apply (gather_elem f l d0 j b H0) in Hin. naive_solver.
Qed.
End gather.

Section scatter.
Implicit Types (m : Model) (d : list (nat * Z)).

(** Every entry of [d] is an element of the register group at [vd]. *)
Definition entries_in m (vd s : nat) d : Prop := ∀ i x, (i, x) ∈ d → elem_in m vd i s.

Lemma scatter_cons m vd s i x d :
  scatter m vd s ((i, x) :: d) = scatter (eset m vd i s x) vd s d.
Proof. done. Qed.

Lemma entries_in_tail m vd s i x y d :
  entries_in m vd s ((i, x) :: d) → entries_in (eset m vd i s y) vd s d.
Proof.
  intros H j z Hj. unfold elem_in. rewrite length_v_eset by (apply (H i x); set_solver).
  change (eoff (eset m vd i s y) vd j s) with (eoff m vd j s). apply (H j z); set_solver.
Qed.

Lemma scatter_wf m vd s d : wf m → entries_in m vd s d → wf (scatter m vd s d).
Proof.
  revert m; induction d as [|[i x] d IH]; intros m Hm Hd; [done|].
  rewrite scatter_cons. apply IH.
  - apply eset_wf; [done|]. apply (Hd i _ ltac:(left)).
  - by eapply entries_in_tail.
Qed.

Lemma scatter_cfg m vd s d :
  vlen (scatter m vd s d) = vlen m ∧ vl (scatter m vd s d) = vl m ∧
  sew (scatter m vd s d) = sew m ∧ lmul8 (scatter m vd s d) = lmul8 m ∧
  mem (scatter m vd s d) = mem m.
Proof.
  revert m; induction d as [|[i x] d IH]; intros m; [done|].
  rewrite scatter_cons. apply (IH (eset m vd i s x)).
Qed.

(** A byte no entry covers keeps its value. *)
Lemma scatter_frame m vd s d j :
  entries_in m vd s d →
  (∀ i x, (i, x) ∈ d → ¬ (eoff m vd i s ≤ j < eoff m vd i s + s / 8)) →
  v (scatter m vd s d) !! j = v m !! j.
Proof.
  revert m; induction d as [|[i x] d IH]; intros m Hd Hj; [done|].
  rewrite scatter_cons, IH.
  - rewrite v_eset by (apply (Hd i _ ltac:(left))).
    rewrite decide_False; [done|]. apply (Hj i x); set_solver.
  - by eapply entries_in_tail.
  - intros k y Hk. apply (Hj k y). set_solver.
Qed.

Lemma scatter_other m vd s d j :
  sew_ok s → entries_in m vd s d → j ∉ d.*1 →
  eget (scatter m vd s d) vd j s = eget m vd j s.
Proof.
  revert m; induction d as [|[i x] d IH]; intros m Hs Hd Hj; [done|].
  rewrite scatter_cons, IH; [|done|by eapply entries_in_tail|set_solver].
  apply eget_eset_other; [done| |set_solver]. apply (Hd i _ ltac:(left)).
Qed.

Lemma scatter_same m vd s d j x :
  sew_ok s → entries_in m vd s d → NoDup d.*1 → (j, x) ∈ d →
  eget (scatter m vd s d) vd j s = (x mod 2 ^ Z.of_nat s)%Z.
Proof.
  revert m; induction d as [|[i y] d IH]; intros m Hs Hd HN Hj; [set_solver|].
  rewrite scatter_cons. rewrite fmap_cons in HN. apply NoDup_cons in HN as [Hi HN].
  apply elem_of_cons in Hj as [[= -> ->]|Hj].
  - rewrite scatter_other; [|done|by eapply entries_in_tail|done].
    apply eget_eset_same; [done|]. apply (Hd i _ ltac:(left)).
  - apply IH; [done|by eapply entries_in_tail|done|done].
Qed.
End scatter.

End VInstr.
