(* ===== verification/VSpec.v ===== *)
(** * The vector instructions meet their specification

    For every instruction of VInstr: it does not raise on a well-formed
    model, keeps the model well formed, gives each active element the value
    computed from the operands before the instruction, leaves tail and
    masked-off elements, every other register and (except for stores) memory
    undisturbed. *)
From S2P Require Import Prelude VModel VInstr.

Module VSpec.
Import VModel VInstr.

(** ** Geometry of register groups *)

Lemma vlmax_fits m i :
  wf m → i < vlmax m (sew m) (lmul8 m) →
  i * (sew m / 8) + sew m / 8 ≤ emul_regs (lmul8 m) * vlenb m.
Proof.
  intros [] H. unfold vlmax, vlenb, emul_regs in *.
  vcases; rewrite wf_vlen0, wf_sew0, wf_lmul0 in *; eval_div; lia.
Qed.

Lemma vl_le_vlen m : wf m → vl m ≤ vlen m.
Proof.
  intros []. unfold vlmax in *.
  vcases; rewrite wf_vlen0, wf_sew0, wf_lmul0 in *; eval_div; lia.
Qed.

(** Element [i] of the group at [reg] lies in the register file. *)
Lemma group_elem_in m reg i :
  wf m → group_in reg (emul_regs (lmul8 m)) → i < vlmax m (sew m) (lmul8 m) →
  elem_in m reg i (sew m).
Proof.
  intros Hm [Hn Hr] Hi. unfold elem_in. pose proof (vlmax_fits m i Hm Hi).
  rewrite eoff_scaled, (wf_v_len m Hm) by apply Hm. nia.
Qed.

Lemma active_ok m i vm : wf m → i < vl m → ∃ b, active m i vm = Ok b.
Proof.
  intros Hm Hi. unfold active. destruct vm; [eauto|].
  destruct (bget_ok m 0 i) as (b & -> & _); [|simpl; eauto].
  rewrite (wf_v_len m Hm). pose proof (vl_le_vlen m Hm).
  destruct (vlenb_8 m (wf_vlen m Hm)). apply Nat.Div0.div_lt_upper_bound. lia.
Qed.

Lemma elem_of_range i n : i ∈ seq 0 n ↔ i < n.
Proof. rewrite elem_of_seq. lia. Qed.

(** ** Two-phase instructions *)

(** What an instruction that computes [f i] for each element [i] of [l] and
    writes [s]-bit elements of the [n]-register group at [vd] must do: the
    element gets the value [f] gave (modulo its width), the elements [f]
    skipped and those outside [l] keep theirs, and so does every byte outside
    the group, memory and the configuration. *)
Record writes (m m' : Model) (vd s n : nat) (l : list nat) (f : nat → res (option Z)) : Prop := {
  wr_wf : wf m';
  wr_done i x : i ∈ l → f i = Ok (Some x) →
    eget m' vd i s = (x mod 2 ^ Z.of_nat s)%Z;
  wr_kept i : i ∉ l ∨ f i = Ok None → eget m' vd i s = eget m vd i s;
  wr_frame j : ¬ (vd * vlenb m ≤ j < (vd + n) * vlenb m) → v m' !! j = v m !! j;
  wr_cfg : vlen m' = vlen m ∧ vl m' = vl m ∧ sew m' = sew m ∧ lmul8 m' = lmul8 m ∧
           mem m' = mem m
}.

(** The elements of [l] lie inside the group. *)
Definition fits (m : Model) (s n : nat) (l : list nat) : Prop :=
  ∀ i, i ∈ l → i * (s / 8) + s / 8 ≤ n * vlenb m.

Lemma fits_elem_in m vd s n l i :
  wf m → sew_ok s → group_in vd n → fits m s n l → i ∈ l → elem_in m vd i s.
Proof.
  intros Hm Hs [Hn Hr] Hl Hi. unfold elem_in. specialize (Hl i Hi).
  rewrite eoff_scaled, (wf_v_len m Hm) by done. nia.
Qed.

Lemma gather_scatter_writes m vd s n l f d :
  wf m → sew_ok s → group_in vd n → fits m s n l → NoDup l →
  gather f l = Ok d → writes m (scatter m vd s d) vd s n l f.
Proof.
  intros Hm Hs Hg Hl HN Hd.
  assert (Hd' : ∀ i x, (i, x) ∈ d → i ∈ l).
  { intros i x Hi. by apply (gather_elem f l d i x Hd) in Hi as [Hi _]. }
  assert (Hin : entries_in m vd s d) by (intros i x Hi; eauto using fits_elem_in).
  constructor.
  - by apply scatter_wf.
  - intros i x Hi Hx. apply scatter_same; [done|done|by eapply gather_NoDup|].
    by apply (gather_elem f l d).
  - intros i Hi. apply scatter_other; [done|done|].
    rewrite list_elem_of_fmap. intros ([k x] & -> & Hk).
    apply (gather_elem f l d k x Hd) in Hk as [??]. destruct Hi; [done|]. simpl in *; congruence.
  - intros j Hj. apply scatter_frame; [done|]. intros i x Hi Hc. apply Hj.
    pose proof (Hl i (Hd' _ _ Hi)). rewrite eoff_scaled in Hc by done. nia.
  - apply scatter_cfg.
Qed.

Lemma vl_fits m l :
  wf m → (∀ i, i ∈ l → i < vl m) → fits m (sew m) (emul_regs (lmul8 m)) l.
Proof.
  intros Hm Hl i Hi. apply vlmax_fits; [done|]. apply Hl in Hi.
  pose proof (wf_vl m Hm). lia.
Qed.

Lemma range_writes m vd f d :
  wf m → group_in vd (emul_regs (lmul8 m)) → gather f (seq 0 (vl m)) = Ok d →
  writes m (scatter m vd (sew m) d) vd (sew m) (emul_regs (lmul8 m)) (seq 0 (vl m)) f.
Proof.
  intros Hm Hg Hd. apply gather_scatter_writes; [done|apply Hm|done| |apply NoDup_seq|done].
  apply vl_fits; [done|]. by intros i ?%elem_of_range.
Qed.

(** ** Instructions that write as they go *)

(** [m] differs from [m0] only inside the [n]-register group at [vd]. *)
Record agree_out (m0 m : Model) (vd n : nat) : Prop := {
  ag_wf : wf m;
  ag_v j : ¬ (vd * vlenb m0 ≤ j < (vd + n) * vlenb m0) → v m !! j = v m0 !! j;
  ag_cfg : vlen m = vlen m0 ∧ vl m = vl m0 ∧ sew m = sew m0 ∧ lmul8 m = lmul8 m0 ∧
           mem m = mem m0
}.

Lemma agree_active m0 m vd n i vm :
  agree_out m0 m vd n → wf m0 → i < vl m0 → vm = true ∨ 1 ≤ vd →
  active m i vm = active m0 i vm.
Proof.
  intros [_ Hv (E & _)] Hm Hi Hvm. unfold active. destruct vm; [done|].
  unfold bget, index, vlenb. rewrite E. fold (vlenb m0). rewrite Hv; [done|].
  destruct Hvm; [done|]. pose proof (vl_le_vlen m0 Hm).
  destruct (vlenb_8 m0 (wf_vlen m0 Hm)).
  assert (i / 8 < vlenb m0) by (apply Nat.Div0.div_lt_upper_bound; lia). nia.
Qed.

Lemma agree_eset m0 m vd s n i x :
  agree_out m0 m vd n → sew_ok s → group_in vd n →
  i * (s / 8) + s / 8 ≤ n * vlenb m0 → agree_out m0 (eset m vd i s x) vd n.
Proof.
  intros [Hwf Hv (E&?&?&?&?)] Hs [? ?] Hi.
  assert (Eb : vlenb m = vlenb m0) by (unfold vlenb; congruence).
  assert (elem_in m vd i s).
  { unfold elem_in. rewrite eoff_scaled, (wf_v_len m Hwf), Eb by done. nia. }
  constructor; [by apply eset_wf| |done].
  intros j Hj. rewrite v_eset by done. rewrite eoff_scaled, Eb by done.
  rewrite decide_False by nia. by apply Hv.
Qed.

(** When the mask register is outside the destination group and what is
    written does not depend on it, writing element by element is the same as
    computing everything first. *)
Lemma sequential_is_two_phase m0 vd s n vm (g : Model → nat → Z) l :
  wf m0 → sew_ok s → group_in vd n → fits m0 s n l →
  (∀ i, i ∈ l → i < vl m0) → vm = true ∨ 1 ≤ vd →
  (∀ m i, agree_out m0 m vd n → i ∈ l → g m i = g m0 i) →
  ∃ d, gather (λ i, let* act := active m0 i vm in
                    Ok (if act then Some (g m0 i) else None)) l = Ok d ∧
  ∀ m, agree_out m0 m vd n →
    res_fold (λ m i, let* act := active m i vm in
                     Ok (if act then eset m vd i s (g m i) else m)) m l
    = Ok (scatter m vd s d).
Proof.
  intros Hm Hs Hg Hf Hl Hvm Hgx. induction l as [|i l IH].
  { exists []; split; [done|]. intros; done. }
  destruct IH as (d & Hd & Hseq).
  { intros j Hj; apply Hf; set_solver. }
  { intros j Hj; apply Hl; set_solver. }
  { intros m j Ha Hj. apply Hgx; [done|]. set_solver. }
  assert (Hi : i < vl m0) by (apply Hl; set_solver).
  destruct (active_ok m0 i vm Hm Hi) as [act Hact].
  eexists; split; [cbn [gather]; rewrite Hact; cbn [res_bind]; rewrite Hd; done|].
  intros m Ha. cbn [res_fold].
  rewrite (agree_active m0 m vd n i vm Ha Hm Hi Hvm), Hact. cbn [res_bind].
  destruct act; [|by apply Hseq].
  rewrite (Hgx m i Ha) by set_solver. rewrite scatter_cons. apply Hseq.
  apply agree_eset; try done. apply Hf; set_solver.
Qed.

Lemma agree_refl m vd n : wf m → agree_out m m vd n.
Proof. intros. by constructor. Qed.

(** ** Arithmetic *)

Lemma arith_res_ok op bits a2 a1 ad b0 :
  (∃ b, b0 = Ok b) → ∃ r, arith_res op bits a2 a1 ad b0 = Ok r.
Proof. intros [b ->]. destruct op; simpl; eauto. Qed.

Lemma arith_step_ok m A i : wf m → i < vl m → ∃ o, arith_step m A i = Ok o.
Proof.
  intros Hm Hi. unfold arith_step.
  assert (∃ b, (if is_merge (a_op A) then Ok true else active m i (a_vm A)) = Ok b) as [b ->].
  { destruct (is_merge _); [eauto|]. by apply active_ok. }
  simpl. destruct b; [|eauto].
  destruct (active_ok m i false Hm Hi) as [c Hc]. unfold active in Hc. res_inv.
  edestruct (arith_res_ok (a_op A)) as [r ->]; [by eexists|]. simpl; eauto.
Qed.

Lemma arith_writes m A :
  wf m → group_in (a_vd A) (emul_regs (lmul8 m)) →
  ∃ m', arith_exec m A = Ok m' ∧
    writes m m' (a_vd A) (sew m) (emul_regs (lmul8 m)) (seq 0 (vl m)) (arith_step m A).
Proof.
  intros Hm Hg.
  destruct (gather_ok (arith_step m A) (seq 0 (vl m))) as [d Hd].
  { intros i ?%elem_of_range. by apply arith_step_ok. }
  exists (scatter m (a_vd A) (sew m) d). unfold arith_exec. rewrite Hd.
  split; [done|]. by apply range_writes.
Qed.

(** C26.  The arithmetic handler on any well-formed model: it does not raise;
    each element below [vl] that is unmasked (every one, for vmerge) becomes
    the operation applied to the source and destination elements as they were
    before the instruction, even when the destination group overlaps the
    sources or the mask register; tail and masked-off elements, every byte
    outside the destination group, memory and the configuration are
    undisturbed; the result is well formed. *)
Theorem arith_correct m A :
  wf m → group_in (a_vd A) (emul_regs (lmul8 m)) →
  ∃ m', arith_exec m A = Ok m' ∧ wf m' ∧
    (∀ i, i < vl m → is_merge (a_op A) = true ∨ active m i (a_vm A) = Ok true →
       ∃ r, arith_res (a_op A) (Z.of_nat (sew m)) (eget m (a_vs2 A) i (sew m))
              (arith_a1 m A i) (eget m (a_vd A) i (sew m)) (bget m 0 i) = Ok r ∧
            eget m' (a_vd A) i (sew m) = (r mod 2 ^ Z.of_nat (sew m))%Z) ∧
    (∀ i, vl m ≤ i ∨ is_merge (a_op A) = false ∧ active m i (a_vm A) = Ok false →
       eget m' (a_vd A) i (sew m) = eget m (a_vd A) i (sew m)) ∧
    (∀ j, ¬ (a_vd A * vlenb m ≤ j < (a_vd A + emul_regs (lmul8 m)) * vlenb m) →
       v m' !! j = v m !! j) ∧
    mem m' = mem m ∧ vl m' = vl m ∧ sew m' = sew m.
Proof.
  intros Hm Hg. destruct (arith_writes m A Hm Hg) as (m' & E & W). exists m'.
  destruct W as [Hwf Hdone Hkept Hframe (?&?&?&?&?)].
  split_and!; try done.
  - intros i Hi Hact. destruct (active_ok m i false Hm Hi) as [c Hc].
    unfold active in Hc. res_inv.
    edestruct (arith_res_ok (a_op A)) as [r Hr]; [by eexists|].
    exists r; split; [exact Hr|]. apply Hdone; [by apply elem_of_range|].
    unfold arith_step. destruct Hact as [->| ->]; simpl; [|destruct (is_merge _); simpl];
      by rewrite Hr.
  - intros i [Hi|[Hmg Hact]].
    + apply Hkept. left. rewrite elem_of_range. lia.
    + apply Hkept. right. unfold arith_step. by rewrite Hmg, Hact.
Qed.

(** ** Compares and mask logic *)

(** [m'] is [m] with the bits of [f] written to mask register [vd]. *)
Record writes_bits (m m' : Model) (vd : nat) (f : nat → res (option Z)) : Prop := {
  wb_wf : wf m';
  wb_done i b : i < vl m → f i = Ok (Some b) → bget m' vd i = Ok b;
  wb_kept i : i < vlen m → vl m ≤ i ∨ f i = Ok None → bget m' vd i = bget m vd i;
  wb_frame j : ¬ (vd * vlenb m ≤ j < (vd + 1) * vlenb m) → v m' !! j = v m !! j;
  wb_cfg : vlen m' = vlen m ∧ vl m' = vl m ∧ sew m' = sew m ∧ lmul8 m' = lmul8 m ∧
           mem m' = mem m
}.

Lemma bit_in m vd i : wf m → vd < 32 → i < vlen m →
  vd * vlenb m + i / 8 < length (v m) ∧ i / 8 < vlenb m.
Proof.
  intros Hm Hvd Hi. rewrite (wf_v_len m Hm). destruct (vlenb_8 m (wf_vlen m Hm)).
  assert (i / 8 < vlenb m) by (apply Nat.Div0.div_lt_upper_bound; lia). nia.
Qed.

Lemma scatter_bits_ok m vd d :
  wf m → vd < 32 → NoDup d.*1 → (∀ i b, (i, b) ∈ d → i < vlen m ∧ (b = 0 ∨ b = 1)%Z) →
  ∃ m', scatter_bits m vd d = Ok m' ∧ wf m' ∧
    (∀ i b, (i, b) ∈ d → bget m' vd i = Ok b) ∧
    (∀ i, i < vlen m → i ∉ d.*1 → bget m' vd i = bget m vd i) ∧
    (∀ j, ¬ (vd * vlenb m ≤ j < (vd + 1) * vlenb m) → v m' !! j = v m !! j) ∧
    vlen m' = vlen m ∧ vl m' = vl m ∧ sew m' = sew m ∧ lmul8 m' = lmul8 m ∧ mem m' = mem m.
Proof.
  revert m; induction d as [|[i b] d IH]; intros m Hm Hvd HN Hd.
  { exists m. set_solver. }
  rewrite fmap_cons in HN. apply NoDup_cons in HN as [Hni HN]. simpl in Hni.
  destruct (Hd i b) as [Hi Hb]; [left|].
  destruct (bit_in m vd i Hm Hvd Hi) as [Hin Hi8].
  destruct (bset_ok m vd i b Hm Hin Hb) as (m1 & E1 & Hm1 & Hsame & Hoth & Hv & Ecfg).
  destruct Ecfg as (Ev & ? & ? & ? & ?).
  assert (Eb : vlenb m1 = vlenb m) by (unfold vlenb; congruence).
  destruct (IH m1 Hm1 Hvd HN) as (m2 & E2 & Hm2 & Hdone & Hkept & Hfr & Hcfg).
  { intros k c Hk. rewrite Ev. apply Hd. by right. }
  exists m2. unfold scatter_bits in *; cbn [res_fold fst snd]. rewrite E1; cbn [res_bind].
  rewrite Eb, Ev in *. destruct Hcfg as (?&?&?&?&?).
  split_and!; try done; try congruence.
  - intros k c Hk. apply elem_of_cons in Hk as [[= -> ->]|Hk]; [|by apply Hdone].
    by rewrite Hkept.
  - intros k Hk Hkd. rewrite fmap_cons in Hkd. simpl in Hkd. apply not_elem_of_cons in Hkd as [Hki Hkd].
    rewrite Hkept by done. apply Hoth. intros [= E8 Em]. apply Hki.
    rewrite (Nat.div_mod_eq k 8), (Nat.div_mod_eq i 8). lia.
  - intros j Hj. rewrite Hfr by done. apply Hv. nia.
Qed.

Lemma gather_bits m vd f :
  wf m → vd < 32 → (∀ i, i < vl m → ∃ o, f i = Ok o) →
  (∀ i b, i < vl m → f i = Ok (Some b) → (b = 0 ∨ b = 1)%Z) →
  ∃ d m', gather f (seq 0 (vl m)) = Ok d ∧ scatter_bits m vd d = Ok m' ∧ writes_bits m m' vd f.
Proof.
  intros Hm Hvd Hok H01. pose proof (vl_le_vlen m Hm).
  destruct (gather_ok f (seq 0 (vl m))) as [d Hd].
  { intros i ?%elem_of_range. by apply Hok. }
  destruct (scatter_bits_ok m vd d Hm Hvd) as (m' & E & Hwf & Hdone & Hkept & Hfr & Hcfg).
  { eapply gather_NoDup; [done|apply NoDup_seq]. }
  { intros i b Hib. apply (gather_elem f _ d i b Hd) in Hib as [Hi%elem_of_range Hf].
    split; [lia|eauto]. }
  exists d, m'. split_and!; [done|done|]. constructor; try done.
  - intros i b Hi Hf. apply Hdone. apply (gather_elem f _ d i b Hd).
    by rewrite elem_of_range.
  - intros i Hi Hf. apply Hkept; [done|]. rewrite list_elem_of_fmap.
    intros ([k b] & -> & Hk). apply (gather_elem f _ d k b Hd) in Hk as [Hk%elem_of_range Hk'].
    simpl in *. destruct Hf; [lia|congruence].
Qed.

Lemma compare_writes m C :
  wf m → c_vd C < 32 →
  ∃ m', compare_exec m C = Ok m' ∧ writes_bits m m' (c_vd C) (cmp_step m C).
Proof.
  intros Hm Hvd. unfold compare_exec.
  destruct (gather_bits m (c_vd C) (cmp_step m C) Hm Hvd) as (d & m' & -> & E & W); [| |eauto].
  - intros i Hi. unfold cmp_step. destruct (active_ok m i (c_vm C) Hm Hi) as [[] ->]; simpl; eauto.
  - intros i b Hi. unfold cmp_step. destruct (active m i (c_vm C)) as [[]|]; simpl; try done.
    intros [= <-]. destruct (cmp_res _ _ _ _); simpl; auto.
Qed.

(** The compare handler: for every mask register [vd] the result bit of
    each active element is the comparison of the operands before the
    instruction (so [vd] may overlap a source or v0), every other bit of [vd]
    (masked-off elements and the tail up to VLEN), every other register and
    memory are undisturbed, and no step raises. *)
Theorem compare_correct m C :
  wf m → c_vd C < 32 →
  ∃ m', compare_exec m C = Ok m' ∧ wf m' ∧
    (∀ i, i < vl m → active m i (c_vm C) = Ok true →
       bget m' (c_vd C) i =
         Ok (Z.b2z (cmp_res (c_op C) (Z.of_nat (sew m)) (eget m (c_vs2 C) i (sew m))
                      (cmp_a1 m C i)))) ∧
    (∀ i, i < vlen m → vl m ≤ i ∨ active m i (c_vm C) = Ok false →
       bget m' (c_vd C) i = bget m (c_vd C) i) ∧
    (∀ j, ¬ (c_vd C * vlenb m ≤ j < (c_vd C + 1) * vlenb m) → v m' !! j = v m !! j) ∧
    mem m' = mem m.
Proof.
  intros Hm Hvd. destruct (compare_writes m C Hm Hvd) as (m' & E & W). exists m'.
  destruct W as [? Hdone Hkept Hfr (?&?&?&?&?)]. split_and!; try done.
  - intros i Hi Ha. apply Hdone; [done|]. unfold cmp_step. by rewrite Ha.
  - intros i Hi Ha. apply Hkept; [done|]. destruct Ha as [|Ha]; [auto|right].
    unfold cmp_step. by rewrite Ha.
Qed.

Lemma bget_01 m r i b : bget m r i = Ok b → (b = 0 ∨ b = 1)%Z.
Proof.
  unfold bget, index. destruct (v m !! _); simpl; [|done]. intros [= <-].
  rewrite bit_read by lia. destruct (Z.testbit _ _); simpl; auto.
Qed.

Lemma bget_bool m r i : wf m → r < 32 → i < vl m → ∃ b, bget m r i = Ok (Z.b2z b).
Proof.
  intros Hm Hr Hi. pose proof (vl_le_vlen m Hm).
  destruct (bget_ok m r i) as (b & -> & Hb); [apply bit_in; [done|done|lia]|].
  destruct Hb as [-> | ->]; [by exists false|by exists true].
Qed.

Lemma masklogic_writes m op vd vs2 vs1 :
  wf m → vd < 32 → vs2 < 32 → vs1 < 32 →
  ∃ m', masklogic_exec m op vd vs2 vs1 = Ok m' ∧ writes_bits m m' vd (mop_step m op vs2 vs1).
Proof.
  intros Hm Hvd H2 H1. unfold masklogic_exec.
  destruct (gather_bits m vd (mop_step m op vs2 vs1) Hm Hvd) as (d & m' & -> & E & W); [| |eauto].
  - intros i Hi. unfold mop_step.
    destruct (bget_bool m vs2 i Hm H2 Hi) as [a ->], (bget_bool m vs1 i Hm H1 Hi) as [b ->].
    simpl. eauto.
  - intros i b Hi. unfold mop_step.
    destruct (bget_bool m vs2 i Hm H2 Hi) as [a ->], (bget_bool m vs1 i Hm H1 Hi) as [c ->].
    simpl. intros [= <-]. destruct op, a, c; vm_compute; auto.
Qed.

(** Mask logic: bit [i] of the destination, for every [i < vl], is the
    boolean operation the mnemonic names on the old bits of the two sources;
    the rest of the machine is undisturbed. *)
Theorem masklogic_correct m op vd vs2 vs1 :
  wf m → vd < 32 → vs2 < 32 → vs1 < 32 →
  ∃ m', masklogic_exec m op vd vs2 vs1 = Ok m' ∧ wf m' ∧
    (∀ i, i < vl m → ∃ a b, bget m vs2 i = Ok (Z.b2z a) ∧ bget m vs1 i = Ok (Z.b2z b) ∧
       bget m' vd i = Ok (Z.b2z
         match op with
         | vmand => a && b | vmnand => negb (a && b) | vmandn => a && negb b
         | vmxor => xorb a b | vmor => a || b | vmnor => negb (a || b)
         | vmorn => a || negb b | vmxnor => negb (xorb a b)
         end)) ∧
    (∀ i, vl m ≤ i < vlen m → bget m' vd i = bget m vd i) ∧
    (∀ j, ¬ (vd * vlenb m ≤ j < (vd + 1) * vlenb m) → v m' !! j = v m !! j) ∧
    mem m' = mem m.
Proof.
  intros Hm Hvd H2 H1. destruct (masklogic_writes m op vd vs2 vs1 Hm Hvd H2 H1) as (m' & E & W).
  exists m'. destruct W as [? Hdone Hkept Hfr (?&?&?&?&?)]. split_and!; try done.
  - intros i Hi.
    destruct (bget_bool m vs2 i Hm H2 Hi) as [a Ea], (bget_bool m vs1 i Hm H1 Hi) as [b Eb].
    exists a, b. split_and!; [done|done|]. apply Hdone; [done|]. unfold mop_step.
    rewrite Ea, Eb. simpl. destruct op, a, b; done.
  - intros i Hi. apply Hkept; [lia|]. left; lia.
Qed.

(** ** Slides *)

(** The elements a slide visits. *)
Definition slide_range (m : Model) (k : sop) (off : nat) : list nat :=
  match k with up => seq off (vl m - off) | _ => seq 0 (vl m) end.

Lemma elem_of_slide_range m k off i :
  i ∈ slide_range m k off ↔ i < vl m ∧ (k = up → off ≤ i).
Proof. destruct k; unfold slide_range; rewrite elem_of_seq; naive_solver lia. Qed.

Lemma slide_writes m k vm vd vs2 off x :
  wf m → group_in vd (emul_regs (lmul8 m)) →
  ∃ m', slide_exec m k vm vd vs2 off x = Ok m' ∧
    writes m m' vd (sew m) (emul_regs (lmul8 m)) (slide_range m k off)
      (slide_step m k vm vs2 off x).
Proof.
  intros Hm Hg. unfold slide_exec. fold (slide_range m k off).
  destruct (gather_ok (slide_step m k vm vs2 off x) (slide_range m k off)) as [d Hd].
  { intros i [Hi _]%elem_of_slide_range. unfold slide_step.
    destruct (active_ok m i vm Hm Hi) as [b ->]; simpl; eauto. }
  rewrite Hd; simpl. eexists; split; [done|].
  apply gather_scatter_writes; try done.
  - apply Hm.
  - apply vl_fits; [done|]. by intros i [? _]%elem_of_slide_range.
  - destruct k; apply NoDup_seq.
Qed.

(** The slide handler: element [i] of the destination receives the source
    element the slide names (zero or the scalar past the ends), taken before
    the instruction; elements below the offset of a slide-up, masked-off and
    tail elements and everything outside the group are undisturbed. *)
Theorem slide_correct m k vm vd vs2 off x :
  wf m → group_in vd (emul_regs (lmul8 m)) →
  ∃ m', slide_exec m k vm vd vs2 off x = Ok m' ∧ wf m' ∧
    (∀ i, i < vl m → active m i vm = Ok true → k = up → i < off →
       eget m' vd i (sew m) = eget m vd i (sew m)) ∧
    (∀ i, i < vl m → active m i vm = Ok true → (k = up → off ≤ i) →
       eget m' vd i (sew m) =
         (match k with
          | up => eget m vs2 (i - off) (sew m)
          | down => if Nat.ltb (i + off) (vlmax m (sew m) (lmul8 m))
                    then eget m vs2 (i + off) (sew m) else 0
          | up1 => if Nat.eqb i 0 then x else eget m vs2 (i - 1) (sew m)
          | down1 => if Nat.eqb i (vl m - 1) then x else eget m vs2 (i + 1) (sew m)
          end mod 2 ^ Z.of_nat (sew m))%Z) ∧
    (∀ i, vl m ≤ i ∨ active m i vm = Ok false →
       eget m' vd i (sew m) = eget m vd i (sew m)) ∧
    (∀ j, ¬ (vd * vlenb m ≤ j < (vd + emul_regs (lmul8 m)) * vlenb m) → v m' !! j = v m !! j) ∧
    mem m' = mem m.
Proof.
  intros Hm Hg. destruct (slide_writes m k vm vd vs2 off x Hm Hg) as (m' & E & W).
  exists m'. destruct W as [? Hdone Hkept Hfr (?&?&?&?&?)]. split_and!; try done.
  - intros i Hi _ -> Ho. apply Hkept. left. rewrite elem_of_slide_range.
    intros [_ H']. specialize (H' eq_refl). lia.
  - intros i Hi Ha Ho. apply Hdone; [by apply elem_of_slide_range|].
    unfold slide_step. rewrite Ha. by destruct k.
  - intros i [Hi|Ha]; apply Hkept; [left; rewrite elem_of_slide_range; lia|right].
    unfold slide_step. by rewrite Ha.
Qed.

(** ** vid, loads and stores *)

(** vid.v writes elements one by one while reading the mask register; as
    the generator keeps v0 out of a masked destination group, this writes
    exactly the index of every active element. *)
Lemma vid_writes m vm vd :
  wf m → group_in vd (emul_regs (lmul8 m)) → vm = true ∨ 1 ≤ vd →
  ∃ m', vid_exec m vm vd = Ok m' ∧
    writes m m' vd (sew m) (emul_regs (lmul8 m)) (seq 0 (vl m))
      (λ i, let* act := active m i vm in Ok (if act then Some (Z.of_nat i) else None)).
Proof.
  intros Hm Hg Hvm. assert (Hl : ∀ i, i ∈ seq 0 (vl m) → i < vl m) by (by intros ? ?%elem_of_range).
  destruct (sequential_is_two_phase m vd (sew m) (emul_regs (lmul8 m)) vm
              (λ _ i, Z.of_nat i) (seq 0 (vl m))) as (d & Hd & Hseq); try done.
  { apply Hm. } { by apply vl_fits. }
  exists (scatter m vd (sew m) d). split; [|by apply range_writes].
  apply Hseq. by apply agree_refl.
Qed.

(** Unit-stride, strided and fault-only-first loads: every active element
    becomes the [eew]-bit little-endian value at [base + i * stride], masked
    off and tail elements and the rest of the register file are undisturbed
    (the destination group excludes v0 when the load is masked). *)
Lemma load_writes m vm vd base stride eew n :
  wf m → sew_ok eew → group_in vd n → fits m eew n (seq 0 (vl m)) → vm = true ∨ 1 ≤ vd →
  ∃ m', stride_exec m false vm vd base stride eew = Ok m' ∧
    writes m m' vd eew n (seq 0 (vl m))
      (λ i, let* act := active m i vm in
            Ok (if act then Some (mget m (base + i * stride) (eew / 8)) else None)).
Proof.
  intros Hm He Hg Hf Hvm.
  destruct (sequential_is_two_phase m vd eew n vm
              (λ m i, mget m (base + i * stride) (eew / 8)) (seq 0 (vl m)))
    as (d & Hd & Hseq); try done.
  { by intros ? ?%elem_of_range. }
  { intros m1 i [_ _ (?&?&?&?&E)] _. unfold mget. by rewrite E. }
  exists (scatter m vd eew d). split; [apply Hseq; by apply agree_refl|].
  apply gather_scatter_writes; [done|done|done|done|apply NoDup_seq|done].
Qed.

(** Indexed loads, given that the index elements lie outside the destination
    group (the generator allocates disjoint groups). *)
Lemma index_load_writes m vm vd base vix ieew :
  wf m → sew_ok ieew → group_in vd (emul_regs (lmul8 m)) → vm = true ∨ 1 ≤ vd →
  (∀ i, i < vl m → eoff m vix i ieew + ieew / 8 ≤ vd * vlenb m ∨
                   (vd + emul_regs (lmul8 m)) * vlenb m ≤ eoff m vix i ieew) →
  ∃ m', index_exec m false vm vd base vix ieew = Ok m' ∧
    writes m m' vd (sew m) (emul_regs (lmul8 m)) (seq 0 (vl m))
      (λ i, let* act := active m i vm in
            Ok (if act then Some (mget m (base + Z.to_nat (eget m vix i ieew)) (sew m / 8))
                else None)).
Proof.
  intros Hm He Hg Hvm Hdis.
  destruct (sequential_is_two_phase m vd (sew m) (emul_regs (lmul8 m)) vm
              (λ m' i, mget m' (base + Z.to_nat (eget m' vix i ieew)) (sew m / 8))
              (seq 0 (vl m))) as (d & Hd & Hseq); try done.
  { apply Hm. } { apply vl_fits; [done|]. by intros ? ?%elem_of_range. }
  { by intros ? ?%elem_of_range. }
  { intros m1 i [_ Hv (E&?&?&?&Em)] Hi%elem_of_range. unfold mget. rewrite Em.
    replace (eget m1 vix i ieew) with (eget m vix i ieew); [done|].
    unfold eget, eoff, vlenb. rewrite E. fold (vlenb m). f_equal.
    apply list_eq; intros j. rewrite !lookup_slice. case_decide; [|done].
    rewrite Hv; [done|]. specialize (Hdis i Hi). unfold eoff in Hdis. lia. }
  exists (scatter m vd (sew m) d). split; [apply Hseq; by apply agree_refl|].
  by apply range_writes.
Qed.

(** One store of the loop, and the invariant of the store loops: the register
    file and configuration are those of [m0], and memory differs from it only
    in [lo, hi). *)
Record stored (m0 m : Model) (lo hi : nat) : Prop := {
  st_wf : wf m;
  st_v : v m = v m0;
  st_cfg : vlen m = vlen m0 ∧ vl m = vl m0 ∧ sew m = sew m0 ∧ lmul8 m = lmul8 m0;
  st_mem j : ¬ (lo ≤ j < hi) → mem m !! j = mem m0 !! j
}.

Lemma stored_mset m0 m lo hi a n x :
  stored m0 m lo hi → lo ≤ a → a + n ≤ hi → hi ≤ END → stored m0 (mset m a n x) lo hi.
Proof.
  intros [Hw ? ? Hj] H1 H2 H3. constructor; try done.
  - apply mset_wf; [done|lia].
  - intros j ?. rewrite mem_mset by (rewrite (wf_mem_len m Hw); lia).
    rewrite decide_False by lia. by apply Hj.
Qed.

Lemma stored_active m0 m lo hi i vm :
  stored m0 m lo hi → active m i vm = active m0 i vm.
Proof.
  intros [_ E (El & _) _]. unfold active, bget, vlenb. by rewrite E, El.
Qed.

(** A loop of stores to addresses in [lo, hi) changes memory there only. *)
Lemma store_loop m0 lo hi vm (a : Model → nat → nat) (n : nat) (x : Model → nat → Z) l :
  wf m0 → hi ≤ END → (∀ i, i ∈ l → i < vl m0) →
  (∀ m i, stored m0 m lo hi → i ∈ l → lo ≤ a m i ∧ a m i + n ≤ hi) →
  ∃ m', res_fold (λ m i, let* act := active m i vm in
                         Ok (if act then mset m (a m i) n (x m i) else m)) m0 l = Ok m' ∧
        stored m0 m' lo hi.
Proof.
  intros Hm Hhi Hl Ha. apply (res_fold_inv (λ m, stored m0 m lo hi)).
  { by constructor. }
  intros m i Hi Hs. rewrite (stored_active m0 m lo hi i vm Hs).
  destruct (active_ok m0 i vm Hm (Hl i Hi)) as [act ->]; simpl.
  eexists; split; [done|]. destruct act; [|done].
  destruct (Ha m i Hs Hi). by apply stored_mset.
Qed.

(** The bytes of element [i] of a strided store. *)
Definition hits (base stride n i j : nat) : Prop := base + i * stride ≤ j < base + i * stride + n.
(** Of the active elements before [k] the last one that has a byte at [j], and
    what is then there. *)
Definition last_hit (m : Model) (vm : bool) (base stride n k i j : nat) : Prop :=
  i < k ∧ active m i vm = Ok true ∧ hits base stride n i j ∧
  ∀ i', i < i' < k → active m i' vm = Ok true → ¬ hits base stride n i' j.
Definition no_hit (m : Model) (vm : bool) (base stride n k j : nat) : Prop :=
  ∀ i, i < k → active m i vm = Ok true → ¬ hits base stride n i j.

Definition stored_bytes (m m' : Model) (vm : bool) (vd base stride eew k : nat) : Prop :=
  (∀ i j, last_hit m vm base stride (eew / 8) k i j →
     mem m' !! j = int_to_bytes (eew / 8) (eget m vd i eew) !! (j - (base + i * stride))) ∧
  (∀ j, no_hit m vm base stride (eew / 8) k j → mem m' !! j = mem m !! j).

(** One more element. *)
Lemma stored_bytes_skip m m' vm vd base stride eew k :
  active m k vm = Ok false → stored_bytes m m' vm vd base stride eew k →
  stored_bytes m m' vm vd base stride eew (S k).
Proof.
  intros Hk [H1 H2]. split.
  - intros i j (Hi & Ha & Hh & Hl). assert (i ≠ k) by congruence. apply H1.
    split_and!; [lia|done|done|]. intros i' Hi'. apply Hl. lia.
  - intros j Hn. apply H2. intros i Hi. apply Hn. lia.
Qed.
Lemma stored_bytes_step m m' vm vd base stride eew k :
  wf m → sew_ok eew → active m k vm = Ok true → base + k * stride + eew / 8 ≤ length (mem m') →
  stored_bytes m m' vm vd base stride eew k →
  stored_bytes m (mset m' (base + k * stride) (eew / 8) (eget m vd k eew)) vm vd base stride eew (S k).
Proof.
  intros Hm He Hk Hb [H1 H2]. destruct (sew_bytes eew He) as [E8 _].
  assert (mask (eget m vd k eew) (8 * Z.of_nat (eew / 8)) = eget m vd k eew) as Hmask.
  { unfold mask. rewrite Z.land_ones by lia. apply Z.mod_small.
    replace (8 * Z.of_nat (eew / 8))%Z with (Z.of_nat eew) by lia. apply eget_bound; [done|apply Hm]. }
  split.
  - intros i j (Hi & Ha & Hh & Hl). rewrite mem_mset, Hmask by done. destruct (decide (i = k)) as [->|Hne].
    + by rewrite decide_True.
    + rewrite decide_False by (apply (Hl k); [lia|done]). apply H1. split_and!; [lia|done|done|].
      intros i' Hi'. apply Hl. lia.
  - intros j Hn. rewrite mem_mset, decide_False by first [done|apply Hn; [lia|done]].
    apply H2. intros i Hi. apply Hn. lia.
Qed.

(** C32.  Strided stores, whatever the stride, so that elements may overlap or
    leave gaps: at each address the memory afterwards has the byte of the last
    active element that covers it, and what it had when no active element does;
    the register file and the configuration are undisturbed. *)
Theorem store_correct m vm vd base stride eew :
  wf m → sew_ok eew → (∀ i, i < vl m → base + i * stride + eew / 8 ≤ END) →
  ∃ m', stride_exec m true vm vd base stride eew = Ok m' ∧
    wf m' ∧ v m' = v m ∧ vlen m' = vlen m ∧ vl m' = vl m ∧ sew m' = sew m ∧ lmul8 m' = lmul8 m ∧
    (∀ i j, last_hit m vm base stride (eew / 8) (vl m) i j →
       mem m' !! j = int_to_bytes (eew / 8) (eget m vd i eew) !! (j - (base + i * stride))) ∧
    (∀ j, no_hit m vm base stride (eew / 8) (vl m) j → mem m' !! j = mem m !! j).
Proof.
  intros Hm He Hend. unfold stride_exec. set (body := λ m i, let* act := active m i vm in _).
  enough (∀ k, k ≤ vl m → ∃ m', res_fold body m (seq 0 k) = Ok m' ∧ stored m m' 0 END ∧
    stored_bytes m m' vm vd base stride eew k) as H.
  { destruct (H (vl m) (le_n _)) as (m' & E & [Hw Hv (?&?&?&?) _] & [Hb1 Hb2]).
    exists m'. by split_and!. }
  induction k as [|k IH]; intros Hk.
  { exists m. split_and!; [done|by constructor|]. split; [by intros i j (? & _); lia|done]. }
  destruct IH as (m1 & E1 & Hs & Hb); [lia|]. rewrite seq_S, res_fold_app, E1. cbn [res_bind res_fold Nat.add].
  unfold body at 1. rewrite (stored_active m m1 _ _ k vm Hs).
  destruct (active_ok m k vm Hm) as [act Hact]; [lia|]. rewrite Hact. cbn [res_bind].
  eexists; split; [done|]. specialize (Hend k ltac:(lia)).
  destruct act; [|split; [done|by apply stored_bytes_skip]].
  assert (eget m1 vd k eew = eget m vd k eew) as ->.
  { unfold eget, eoff, vlenb. destruct Hs as [_ -> (-> & _) _]. done. }
  split; [apply stored_mset; [done|lia|lia|done]|].
  apply stored_bytes_step; try done. by rewrite (wf_mem_len m1 (st_wf _ _ _ _ Hs)).
Qed.

(** ** What each instruction may touch, for the generator's invariant *)

(** Only vector registers change. *)
Record regs_only (m m' : Model) : Prop := {
  ro_wf : wf m';
  ro_mem : mem m' = mem m;
  ro_cfg : vlen m' = vlen m ∧ vl m' = vl m ∧ sew m' = sew m ∧ lmul8 m' = lmul8 m
}.

Lemma writes_regs_only m m' vd s n l f : writes m m' vd s n l f → regs_only m m'.
Proof. intros [? _ _ _ (?&?&?&?&?)]. by constructor. Qed.

Lemma writes_bits_regs_only m m' vd f : writes_bits m m' vd f → regs_only m m'.
Proof. intros [? _ _ _ (?&?&?&?&?)]. by constructor. Qed.

Lemma agree_regs_only m m' vd n : agree_out m m' vd n → regs_only m m'.
Proof. intros [? _ (?&?&?&?&?)]. by constructor. Qed.

Lemma eset_regs_only m reg i eew x : wf m → elem_in m reg i eew → regs_only m (eset m reg i eew x).
Proof. intros. constructor; [by apply eset_wf|done|done]. Qed.

Lemma elem0_in m reg s : wf m → sew_ok s → reg < 32 → elem_in m reg 0 s.
Proof.
  intros Hm Hs Hr. unfold elem_in. rewrite eoff_scaled, (wf_v_len m Hm) by done.
  destruct (vlenb_8 m (wf_vlen m Hm)), (sew_bytes s Hs). nia.
Qed.

(** A loop that loads into a register group keeps everything else, whatever
    values it loads. *)
Lemma load_loop m0 vd s n vm (x : Model → nat → Z) l :
  wf m0 → sew_ok s → group_in vd n → fits m0 s n l → (∀ i, i ∈ l → i < vl m0) →
  ∃ m', res_fold (λ m i, let* act := active m i vm in
                         Ok (if act then eset m vd i s (x m i) else m)) m0 l = Ok m' ∧
        agree_out m0 m' vd n.
Proof.
  intros Hm Hs Hg Hf Hl. apply (res_fold_inv (λ m, agree_out m0 m vd n)).
  { by apply agree_refl. }
  intros m i Hi Ha. destruct (active_ok m i vm) as [act ->].
  { apply Ha. } { destruct Ha as [_ _ (_&->&_)]. by apply Hl. }
  cbn [res_bind]. eexists; split; [done|]. destruct act; [|done].
  apply agree_eset; try done. by apply Hf.
Qed.

(** The value a reduction accumulates, over the active elements in order. *)
Definition active_elems (m : Model) (vm : bool) (vs2 : nat) : list Z :=
  map (λ i, eget m vs2 i (sew m))
    (List.filter (λ i, match active m i vm with Ok b => b | Err _ => false end) (seq 0 (vl m))).

Lemma reduce_acc m op vm vs2 l a0 :
  wf m → (∀ i, i ∈ l → i < vl m) →
  res_fold (λ acc i,
      let* act := active m i vm in
      Ok (if act then red_res op (Z.of_nat (sew m)) acc (eget m vs2 i (sew m)) else acc)) a0 l =
  Ok (fold_left (red_res op (Z.of_nat (sew m)))
        (map (λ i, eget m vs2 i (sew m))
           (List.filter (λ i, match active m i vm with Ok b => b | Err _ => false end) l)) a0).
Proof.
  intros Hm. revert a0; induction l as [|i l IH]; intros a0 Hl; [done|].
  cbn [res_fold List.filter]. destruct (active_ok m i vm Hm) as [act ->]; [apply Hl; set_solver|].
  cbn [res_bind]. rewrite IH by (intros; apply Hl; set_solver). by destruct act.
Qed.

Lemma reduce_regs_only m op vm vd vs2 vs1 :
  wf m → vd < 32 → ∃ m', reduce_exec m op vm vd vs2 vs1 = Ok m' ∧ regs_only m m'.
Proof.
  intros Hm Hvd. unfold reduce_exec. destruct (Nat.eqb_spec (vl m) 0).
  { exists m; split; [done|]. by constructor. }
  rewrite reduce_acc by (done || by intros ? ?%elem_of_range). cbn [res_bind].
  eexists; split; [done|]. apply eset_regs_only; [done|]. apply elem0_in; [done|apply Hm|done].
Qed.

(** Reductions: with [vl] = 0 nothing changes; otherwise element 0 of
    [vd] becomes the operation folded, in order, over vs1[0] and the active
    elements of vs2, and every byte outside that element is undisturbed. *)
Theorem reduce_correct m op vm vd vs2 vs1 :
  wf m → vd < 32 →
  ∃ m', reduce_exec m op vm vd vs2 vs1 = Ok m' ∧ wf m' ∧ mem m' = mem m ∧
    (vl m = 0 → m' = m) ∧
    (0 < vl m →
       eget m' vd 0 (sew m) =
         (fold_left (red_res op (Z.of_nat (sew m))) (active_elems m vm vs2)
            (eget m vs1 0 (sew m)) mod 2 ^ Z.of_nat (sew m))%Z) ∧
    (∀ j, ¬ (vd * vlenb m ≤ j < vd * vlenb m + sew m / 8) → v m' !! j = v m !! j).
Proof.
  intros Hm Hvd. unfold reduce_exec. destruct (Nat.eqb_spec (vl m) 0) as [E|E].
  { exists m. rewrite E. split_and!; (done || lia). }
  rewrite reduce_acc by (done || by intros ? ?%elem_of_range). cbn [res_bind].
  pose proof (elem0_in m vd (sew m) Hm (wf_sew m Hm) Hvd) as H0.
  eexists; split; [done|]. split_and!; [by apply eset_wf|done|lia| |].
  - intros _. apply eget_eset_same; [apply Hm|done].
  - intros j Hj. rewrite v_eset by done. rewrite eoff_scaled by apply Hm.
    rewrite decide_False; [done|]. lia.
Qed.

Lemma slice_set_regs m a n w :
  wf m → a + n ≤ 32 → Forall is_byte w → length w = n * vlenb m →
  regs_only m (with_v m (slice_set (v m) (a * vlenb m) ((a + n) * vlenb m) w)).
Proof.
  intros Hm Ha Hw Hl. constructor; [|done|done]. destruct Hm. constructor; try done; simpl.
  - replace ((a + n) * vlenb m) with (a * vlenb m + n * vlenb m) by lia.
    rewrite length_slice_set; [done|done|]. change (vlenb (with_v _ _)) with (vlenb m). nia.
  - auto with py.
Qed.

Lemma movnr_regs_only m n vd vs2 :
  wf m → vd + n ≤ 32 → vs2 + n ≤ 32 → regs_only m (movnr_exec m n vd vs2).
Proof.
  intros Hm H1 H2. apply slice_set_regs; [done|done|apply Forall_slice, Hm|].
  rewrite length_slice, (wf_v_len m Hm). nia.
Qed.

Lemma load_regs_only m vd n a :
  wf m → vd + n ≤ 32 → a + n * vlenb m ≤ END → regs_only m (load_regs m vd n a).
Proof.
  intros Hm H1 H2. apply slice_set_regs; [done|done|apply Forall_slice, Hm|].
  rewrite length_slice, (wf_mem_len m Hm). lia.
Qed.

Lemma store_regs_stored m vd n a lo hi :
  wf m → vd + n ≤ 32 → lo ≤ a → a + n * vlenb m ≤ hi → hi ≤ END →
  stored m (store_regs m vd n a) lo hi.
Proof.
  intros Hm H1 H2 H3 H4. unfold store_regs.
  assert (length (slice (v m) (vd * vlenb m) ((vd + n) * vlenb m)) = n * vlenb m) as El
    by (rewrite length_slice, (wf_v_len m Hm); nia).
  assert (a + n * vlenb m ≤ length (mem m)) by (rewrite (wf_mem_len m Hm); lia).
  constructor; try done; simpl.
  - pose proof (Forall_slice is_byte (v m) (vd * vlenb m) ((vd + n) * vlenb m) (wf_v_bytes m Hm)).
    destruct Hm. constructor; try done; simpl.
    + by rewrite length_slice_set.
    + auto with py.
  - intros j Hj. rewrite lookup_slice_set by done. rewrite decide_False by lia. done.
Qed.

Lemma maskmem_bytes m : wf m → (vl m + 7) / 8 ≤ vlenb m.
Proof.
  intros Hm. pose proof (vl_le_vlen m Hm). destruct (vlenb_8 m (wf_vlen m Hm)).
  assert ((vl m + 7) / 8 < vlenb m + 1); [|lia]. apply Nat.Div0.div_lt_upper_bound. lia.
Qed.

Lemma maskload_regs_only m vd base :
  wf m → vd < 32 → base + vlenb m ≤ END →
  ∃ m', maskmem_exec m false vd base = Ok m' ∧ regs_only m m'.
Proof.
  intros Hm Hvd Hb. apply (res_fold_inv (regs_only m)); [by constructor|].
  intros m1 i Hi%elem_of_range [Hw Em (El & Ec)]. pose proof (maskmem_bytes m Hm).
  assert (vlenb m1 = vlenb m) as Eb by (unfold vlenb; congruence).
  rewrite Em, Eb. unfold index, index_set.
  destruct (lookup_lt_is_Some_2 (mem m) (base + i)) as [b Hbi];
    [rewrite (wf_mem_len m Hm); lia|].
  rewrite Hbi. cbn [res_bind].
  rewrite decide_True by (rewrite (wf_v_len m1 Hw), Eb; nia). cbn [res_bind].
  eexists; split; [done|]. constructor; [|done|done].
  assert (is_byte b) by (eapply (Forall_lookup_1 is_byte (mem m)); [apply Hm|done]).
  destruct Hw. constructor; try done; simpl; [by rewrite length_insert|by apply Forall_insert].
Qed.

Lemma maskstore_stored m vd base lo hi :
  wf m → vd < 32 → lo ≤ base → base + vlenb m ≤ hi → hi ≤ END →
  ∃ m', maskmem_exec m true vd base = Ok m' ∧ stored m m' lo hi.
Proof.
  intros Hm Hvd H1 H2 H3. apply (res_fold_inv (λ m', stored m m' lo hi)); [by constructor|].
  intros m1 i Hi%elem_of_range Hs. pose proof (maskmem_bytes m Hm).
  destruct Hs as [Hw Ev (El & Ec) Hj] eqn:Es.
  assert (vlenb m1 = vlenb m) as Eb by (unfold vlenb; congruence).
  rewrite Ev, Eb. unfold index.
  destruct (lookup_lt_is_Some_2 (v m) (vd * vlenb m + i)) as [b ->];
    [rewrite (wf_v_len m Hm); nia|].
  cbn [res_bind]. eexists; split; [done|]. apply stored_mset; [done|lia|lia|done].
Qed.

Lemma mvsx_regs_only m vd x : wf m → vd < 32 → regs_only m (mvsx_exec m vd x).
Proof.
  intros Hm Hvd. unfold mvsx_exec. destruct (Nat.ltb _ _); [|by constructor].
  apply eset_regs_only; [done|]. apply elem0_in; [done|apply Hm|done].
Qed.

Lemma mask_set_ok m vm vs2 : wf m → vs2 < 32 → ∃ l, mask_set m vm vs2 = Ok l.
Proof.
  intros Hm Hvs. unfold mask_set. edestruct (gather_ok (B := unit)) as [d Hd];
    [|rewrite Hd; cbn [res_bind]; by eexists].
  intros i Hi%elem_of_range. destruct (active_ok m i vm Hm Hi) as [[] ->]; cbn [res_bind]; [|eauto].
  destruct (bget_bool m vs2 i Hm Hvs Hi) as [b ->]. cbn [res_bind]. eauto.
Qed.

(** ** Instances *)

Lemma Model_init_wf n : vlen_ok n → wf (Model_init n (replicate END 0%Z)).
Proof.
  intros Hn. assert (∀ k, Forall is_byte (replicate k 0%Z)).
  { intros. by apply Forall_replicate. }
  constructor; unfold Model_init; cbn [vlen v mem vl sew lmul8];
    [done|by rewrite length_replicate|done|by rewrite length_replicate|done|by left
    |unfold lmul_ok; set_solver|lia].
Qed.


(** A fresh VLEN=64 model after vsetvli with SEW=8, LMUL=1, AVL=4. *)
Definition demo : Model := with_cfg (Model_init 64 (replicate END 0%Z)) 8 8 4.

Lemma demo_wf : wf demo.
Proof.
  destruct (Model_init_wf 64 ltac:(by left)).
  constructor; [assumption|assumption|assumption|assumption|assumption|assumption|assumption|].
  apply Nat.leb_le. reflexivity.
Qed.

Definition demo_vadd : arith_args :=
  {| a_op := vadd; a_form := vi; a_vm := true; a_vd := 2; a_vs2 := 1; a_vs1 := 3;
     a_x := 0; a_simm := -3; a_uimm := 0 |}.

Lemma arith_correct_witness :
  ∃ m', arith_exec demo demo_vadd = Ok m' ∧ wf m' ∧ mem m' = mem demo ∧ eget m' 2 3 8 = 253%Z.
Proof.
  destruct (arith_correct demo demo_vadd demo_wf) as (m' & E & Hw & Hact & _ & _ & Hm & _).
  { split; vm_compute; lia. }
  destruct (Hact 3 ltac:(cbn; lia) (or_intror eq_refl)) as (r & Hr & He).
  exists m'. split; [exact E|]. split; [exact Hw|]. split; [exact Hm|].
  vm_compute in Hr. injection Hr as <-. exact He.
Defined.

Lemma compare_correct_witness :
  ∃ m', compare_exec demo {| c_op := vmsle; c_form := vx; c_vm := true; c_vd := 4; c_vs2 := 1;
                             c_vs1 := 0; c_x := 255; c_simm := 0 |} = Ok m' ∧ wf m' ∧
    bget m' 4 2 = Ok 0%Z.
Proof.
  destruct (compare_correct demo {| c_op := vmsle; c_form := vx; c_vm := true; c_vd := 4;
    c_vs2 := 1; c_vs1 := 0; c_x := 255; c_simm := 0 |} demo_wf) as (m' & E & Hw & Hact & _).
  { cbn; lia. }
  exists m'. split; [exact E|]. split; [exact Hw|]. apply (Hact 2); [cbn; lia|reflexivity].
Defined.

Lemma masklogic_correct_witness :
  ∃ m', masklogic_exec demo vmnand 4 1 2 = Ok m' ∧ wf m' ∧ bget m' 4 3 = Ok 1%Z.
Proof.
  destruct (masklogic_correct demo vmnand 4 1 2 demo_wf) as (m' & E & Hw & Hact & _); try lia.
  exists m'. split; [exact E|]. split; [exact Hw|].
  destruct (Hact 3 ltac:(cbn; lia)) as (a & b & Ha & Hb & ->).
  vm_compute in Ha, Hb. destruct a; [discriminate|]. reflexivity.
Defined.

Lemma slide_correct_witness :
  ∃ m', slide_exec demo up1 true 4 1 0 77 = Ok m' ∧ wf m' ∧ eget m' 4 0 8 = 77%Z.
Proof.
  destruct (slide_correct demo up1 true 4 1 0 77 demo_wf) as (m' & E & Hw & _ & Hact & _).
  { split; vm_compute; lia. }
  exists m'. split; [exact E|]. split; [exact Hw|].
  apply (Hact 0); [cbn; lia|reflexivity|discriminate].
Defined.

Lemma reduce_correct_witness :
  ∃ m', reduce_exec demo vredmin true 5 1 2 = Ok m' ∧ wf m' ∧ eget m' 5 0 8 = 0%Z.
Proof.
  destruct (reduce_correct demo vredmin true 5 1 2 demo_wf) as (m' & E & Hw & _ & _ & Hr & _);
    [lia|].
  exists m'. split; [exact E|]. split; [exact Hw|]. apply Hr. cbn; lia.
Defined.

Lemma store_correct_witness :
  ∃ m', stride_exec demo true true 3 DATA 2 32 = Ok m' ∧ wf m' ∧
    mem m' !! (DATA + 4) = int_to_bytes 4 (eget demo 3 2 32) !! 0 ∧ mem m' !! (DATA + 2000) = mem demo !! (DATA + 2000).
Proof.
  assert (vl demo = 4) as Hvl by reflexivity.
  destruct (store_correct demo true 3 DATA 2 32 demo_wf) as (m' & E & Hw & _ & _ & _ & _ & _ & Hlast & Hno).
  { right; by right. } { rewrite Hvl. intros i Hi. assert (DATA + 10 ≤ END) by (apply Nat.leb_le; vm_compute; reflexivity). change (32 / 8) with 4. lia. }
  exists m'. split; [exact E|]. split; [exact Hw|]. split.
  - apply (Hlast 2 (DATA + 4)). rewrite Hvl. split; [lia|]. split; [reflexivity|]. unfold hits. change (32 / 8) with 4. split; [|intros i' Hi' _]; lia.
  - apply Hno. intros i Hi _. rewrite Hvl in Hi. unfold hits. change (32 / 8) with 4. lia.
Defined.

End VSpec.
