(* ===== verification/VGen.v ===== *)
(** * tools/vtest/vgen.py, class Gen: the random program generator

    Each method of [Gen] is a computation in the state monad [M] over the
    generator's fields, with Python exceptions.  The [random.Random] object is
    an arbitrary stream of numbers: [randrange n] is the next number modulo
    [n], [random() < p] compares the next number, read as one of the 2^53
    floats [random] returns, with [p].  Nothing below depends on the
    distribution, so every theorem holds for every seed.

    A register group the allocator did not find is [None]; formatting it with
    [%d] raises [TypeError]. *)
From S2P Require Import Prelude Hex VModel VInstr VSpec.

Module VGen.
Import VModel VInstr.

(** ** The state and its monad *)

(** The numbers the [random.Random] object gives, by position. *)
Class Rng := rng_at : nat → Z.

Record Gen := mkGen {
  g_vlen : nat;
  g_asm : list string;
  g_m : Model;
  g_init : list Z;
  g_slots : nat;
  g_idx_tab : list (nat * nat);
  g_pos : nat
}.

Definition M (A : Type) : Type := Gen → res (A * Gen).
#[global] Instance M_ret : MRet M := λ A a g, Ok (a, g).
#[global] Instance M_bind : MBind M := λ A B f c g, let* ag := c g in f ag.1 ag.2.

Definition get {A} (f : Gen → A) : M A := λ g, Ok (f g, g).
Definition raise {A} (e : pyerr) : M A := λ _, Err e.
Definition lift {A} (r : res A) : M A := λ g, let* a := r in Ok (a, g).
Definition set_m (m : Model) : M unit := λ g,
  Ok (tt, mkGen (g_vlen g) (g_asm g) m (g_init g) (g_slots g) (g_idx_tab g) (g_pos g)).

Section Gen.
Context `{rng : Rng}.

Definition next : M Z := λ g,
  Ok (rng_at (g_pos g), mkGen (g_vlen g) (g_asm g) (g_m g) (g_init g) (g_slots g)
                          (g_idx_tab g) (S (g_pos g))).

(** [r.randrange(n)], [r.randrange(a, b)], [r.randrange(0, 32, n)],
    [r.choice(l)], [r.random() < num/den] *)
Definition randrange (n : Z) : M Z :=
  if Z.leb n 0 then raise ValueError else x ← next; mret (x mod n)%Z.
Definition randrange_ab (a b : Z) : M Z := x ← randrange (b - a); mret (a + x)%Z.
Definition randnat (n : nat) : M nat := x ← randrange (Z.of_nat n); mret (Z.to_nat x).
Definition randrange_32 (n : nat) : M nat := x ← randnat (32 / n); mret (n * x).
Definition choice {A} (l : list A) : M A :=
  i ← randnat (length l); lift (index l i).
Definition random_lt (num den : Z) : M bool :=
  x ← next; mret (x mod 2 ^ 53 * den <? num * 2 ^ 53)%Z.

(** ** emit, li, save_scalar (vgen.py) *)

Definition emit (s : string) : M unit := λ g,
  Ok (tt, mkGen (g_vlen g) (g_asm g ++ ["    " +:+ s]) (g_m g) (g_init g) (g_slots g)
            (g_idx_tab g) (g_pos g)).

Definition li_val (val : Z) : Z :=
  if Z.leb (Z.shiftl 1 31) val then sx val 32 else val.

Definition li (reg : string) (val : Z) : M unit :=
  emit ("li " +:+ reg +:+ ", " +:+ pretty (li_val val)).

Definition incr_slots : M unit := λ g,
  Ok (tt, mkGen (g_vlen g) (g_asm g) (g_m g) (g_init g) (S (g_slots g))
            (g_idx_tab g) (g_pos g)).

Definition save_scalar (reg : string) (val : Z) : M unit :=
  k ← get g_slots;
  emit ("sw " +:+ reg +:+ ", " +:+ pretty (4 * k) +:+ "(s1)");;
  m ← get g_m;
  set_m (mset m (OUT_S + 4 * k) 4 val);;
  incr_slots.

(** ** Register groups (vgen.py) *)

Definition clash (rng : list nat) (avoid : list (list nat)) : bool :=
  existsb (λ a, existsb (λ x, bool_decide (x ∈ a)) rng) avoid.

(** [t] more turns of the loop. *)
Fixpoint group_loop (t n : nat) (avoid : list (list nat)) (not_v0 : bool)
    : M (option (nat * list nat)) :=
  match t with
  | O => mret None
  | S t =>
      r ← randrange_32 n;
      let rng := seq r n in
      if not_v0 && bool_decide (0 ∈ rng) then group_loop t n avoid not_v0
      else if clash rng avoid then group_loop t n avoid not_v0
      else mret (Some (r, rng))
  end.

(** [emul8] is 8 * emul. *)
Definition group (emul8 : nat) (avoid : list (list nat)) (not_v0 : bool)
    : M (option (nat * list nat)) :=
  group_loop 100 (emul_regs emul8) avoid not_v0.

(** The register number of a group, as [%d] or arithmetic needs it. *)
Definition reg_of (o : option (nat * list nat)) : M nat :=
  match o with Some (r, _) => mret r | None => raise TypeError end.

(** ** vset (vgen.py) *)

(** [lmul < 1 and sew / lmul > 32] *)
Definition cfg_skip (s l8 : nat) : bool := Nat.ltb l8 8 && Nat.ltb (32 * l8) (8 * s).

Fixpoint vset_draw (fuel : nat) : M (nat * nat) :=
  match fuel with
  | O => raise OutOfFuel
  | S fuel =>
      s ← choice [8; 16; 32];
      l8 ← choice [1; 2; 4; 8; 16; 32; 64];
      if cfg_skip s l8 then vset_draw fuel else mret (s, l8)
  end.

Definition lmul_name (l8 : nat) : res string :=
  match l8 with
  | 1 => Ok "mf8" | 2 => Ok "mf4" | 4 => Ok "mf2" | 8 => Ok "m1"
  | 16 => Ok "m2" | 32 => Ok "m4" | 64 => Ok "m8"
  | _ => Err (KeyError (pretty l8))
  end.

Definition vset (fuel : nat) : M unit :=
  '(s, l8) ← vset_draw fuel;
  m ← get g_m;
  let vmax := vlmax m s l8 in
  k ← randrange_ab 1 (Z.of_nat vmax + 1);
  avl ← choice [0; 1; vmax; vmax + 3; Z.to_nat k];
  lm ← lift (lmul_name l8);
  imm ← random_lt 15 100;
  (if imm && Nat.ltb avl 32 then
     emit ("vsetivli t0, " +:+ pretty avl +:+ ", e" +:+ pretty s +:+ ", " +:+ lm +:+ ", ta, ma")
   else
     li "t2" (Z.of_nat avl);;
     emit ("vsetvli t0, t2, e" +:+ pretty s +:+ ", " +:+ lm +:+ ", ta, ma"));;
  set_m (with_cfg m s l8 (Nat.min avl vmax));;
  save_scalar "t0" (Z.of_nat (Nat.min avl vmax)).

(** ** arith (vgen.py) *)

Definition aops : list aop :=
  [vadd; vsub; vrsub; vand; vor; vxor; vsll; vsrl; vsra;
   vminu; vmin; vmaxu; vmax; vmul; vmulh; vmulhu; vmulhsu;
   vmacc; vnmsac; vmadd; vnmsub; vmerge; vmv].

Definition aop_name (op : aop) : string :=
  match op with
  | vadd => "vadd" | vsub => "vsub" | vrsub => "vrsub" | vand => "vand" | vor => "vor"
  | vxor => "vxor" | vsll => "vsll" | vsrl => "vsrl" | vsra => "vsra" | vminu => "vminu"
  | vmin => "vmin" | vmaxu => "vmaxu" | vmax => "vmax" | vmul => "vmul" | vmulh => "vmulh"
  | vmulhu => "vmulhu" | vmulhsu => "vmulhsu" | vmacc => "vmacc" | vnmsac => "vnmsac"
  | vmadd => "vmadd" | vnmsub => "vnmsub" | vmerge => "vmerge" | vmv => "vmv"
  end.

Definition form_name (f : vform) : string :=
  match f with vv => "vv" | vx => "vx" | vi => "vi" end.

Definition is_macc (op : aop) : bool :=
  match op with vmacc | vnmsac | vmadd | vnmsub => true | _ => false end.

Definition arith_forms (op : aop) : list vform :=
  match op with
  | vminu | vmin | vmaxu | vmax | vmul | vmulh | vmulhu | vmulhsu => [vv; vx]
  | vmacc | vnmsac | vmadd | vnmsub => [vv; vx]
  | vrsub => [vx; vi]
  | vsub => [vv; vx]
  | _ => [vv; vx; vi]
  end.

Definition vreg (n : nat) : string := "v" +:+ pretty n.
Definition mask_suffix (vm : bool) : string := if vm then "" else ", v0.t".

Definition arith_text (A : arith_args) : string :=
  let vd := vreg (a_vd A) in
  let vs2 := vreg (a_vs2 A) in
  let vs1 := vreg (a_vs1 A) in
  match a_op A with
  | vmv =>
      match a_form A with
      | vv => "vmv.v.v " +:+ vd +:+ ", " +:+ vs1
      | vx => "vmv.v.x " +:+ vd +:+ ", t1"
      | vi => "vmv.v.i " +:+ vd +:+ ", " +:+ pretty (a_simm A)
      end
  | vmerge =>
      match a_form A with
      | vv => "vmerge.vvm " +:+ vd +:+ ", " +:+ vs2 +:+ ", " +:+ vs1 +:+ ", v0"
      | vx => "vmerge.vxm " +:+ vd +:+ ", " +:+ vs2 +:+ ", t1, v0"
      | vi => "vmerge.vim " +:+ vd +:+ ", " +:+ vs2 +:+ ", " +:+ pretty (a_simm A) +:+ ", v0"
      end
  | op =>
      let head := aop_name op +:+ "." +:+ form_name (a_form A) +:+ " " +:+ vd +:+ ", " in
      if is_macc op then
        head +:+ (match a_form A with vv => vs1 | _ => "t1" end) +:+ ", " +:+ vs2
      else
        head +:+ vs2 +:+ ", " +:+
        match a_form A with
        | vv => vs1 | vx => "t1"
        | vi => pretty (if is_shift op then a_uimm A else a_simm A)
        end
  end.

Definition is_mv (op : aop) : bool := match op with vmv => true | _ => false end.

Definition arith : M unit :=
  m ← get g_m;
  op ← choice aops;
  form ← choice (arith_forms op);
  vm ← (if is_merge op || is_mv op then mret (is_mv op) else random_lt 60 100);
  gd ← group (lmul8 m) [] (negb vm);
  g2 ← group (lmul8 m) [] false;
  g1 ← group (lmul8 m) [] false;
  x ← randrange (2 ^ 32);
  simm ← randrange_ab (-16) 16;
  uimm ← randrange 32;
  (match form with vx => li "t1" x | _ => mret tt end);;
  vd ← reg_of gd;
  vs2 ← reg_of g2;
  vs1 ← reg_of g1;
  let A := {| a_op := op; a_form := form; a_vm := vm; a_vd := vd; a_vs2 := vs2;
              a_vs1 := vs1; a_x := x; a_simm := simm; a_uimm := uimm |} in
  emit (arith_text A +:+ (if vm || is_merge op then "" else ", v0.t"));;
  m' ← lift (arith_exec m A);
  set_m m'.

(** ** compare (vgen.py) *)

Definition cops : list cop := [vmseq; vmsne; vmsltu; vmslt; vmsleu; vmsle; vmsgtu; vmsgt].

Definition cop_name (op : cop) : string :=
  match op with
  | vmseq => "vmseq" | vmsne => "vmsne" | vmsltu => "vmsltu" | vmslt => "vmslt"
  | vmsleu => "vmsleu" | vmsle => "vmsle" | vmsgtu => "vmsgtu" | vmsgt => "vmsgt"
  end.

Definition cmp_forms (op : cop) : list vform :=
  match op with
  | vmsltu | vmslt => [vv; vx]
  | vmsgtu | vmsgt => [vx; vi]
  | _ => [vv; vx; vi]
  end.

Definition compare : M unit :=
  m ← get g_m;
  op ← choice cops;
  form ← choice (cmp_forms op);
  vm ← random_lt 60 100;
  g2 ← group (lmul8 m) [] false;
  g1 ← group (lmul8 m) [] false;
  vdz ← randrange_ab (if vm then 0 else 1) 32;
  let vd := Z.to_nat vdz in
  x ← randrange (2 ^ 32);
  simm ← randrange_ab (-16) 16;
  (match form with vx => li "t1" x | _ => mret tt end);;
  vs1 ← reg_of g1;
  vs2 ← reg_of g2;
  let src := match form with vv => vreg vs1 | vx => "t1" | vi => pretty simm end in
  emit (cop_name op +:+ "." +:+ form_name form +:+ " " +:+ vreg vd +:+ ", " +:+ vreg vs2
        +:+ ", " +:+ src +:+ mask_suffix vm);;
  m' ← lift (compare_exec m {| c_op := op; c_form := form; c_vm := vm; c_vd := vd;
                               c_vs2 := vs2; c_vs1 := vs1; c_x := x; c_simm := simm |});
  set_m m'.

(** ** reduce, masklogic (vgen.py) *)

Definition rops : list rop :=
  [vredsum; vredand; vredor; vredxor; vredminu; vredmin; vredmaxu; vredmax].

Definition rop_name (op : rop) : string :=
  match op with
  | vredsum => "vredsum" | vredand => "vredand" | vredor => "vredor" | vredxor => "vredxor"
  | vredminu => "vredminu" | vredmin => "vredmin" | vredmaxu => "vredmaxu"
  | vredmax => "vredmax"
  end.

Definition reduce : M unit :=
  m ← get g_m;
  op ← choice rops;
  vm ← random_lt 60 100;
  g2 ← group (lmul8 m) [] false;
  vd ← randnat 32;
  vs1 ← randnat 32;
  vs2 ← reg_of g2;
  emit (rop_name op +:+ ".vs " +:+ vreg vd +:+ ", " +:+ vreg vs2 +:+ ", " +:+ vreg vs1
        +:+ mask_suffix vm);;
  m' ← lift (reduce_exec m op vm vd vs2 vs1);
  set_m m'.

Definition mops : list mop := [vmand; vmnand; vmandn; vmxor; vmor; vmnor; vmorn; vmxnor].

Definition mop_name (op : mop) : string :=
  match op with
  | vmand => "vmand" | vmnand => "vmnand" | vmandn => "vmandn" | vmxor => "vmxor"
  | vmor => "vmor" | vmnor => "vmnor" | vmorn => "vmorn" | vmxnor => "vmxnor"
  end.

Definition masklogic : M unit :=
  m ← get g_m;
  op ← choice mops;
  vd ← randnat 32;
  vs2 ← randnat 32;
  vs1 ← randnat 32;
  emit (mop_name op +:+ ".mm " +:+ vreg vd +:+ ", " +:+ vreg vs2 +:+ ", " +:+ vreg vs1);;
  m' ← lift (masklogic_exec m op vd vs2 vs1);
  set_m m'.

(** ** scalars (vgen.py) *)

Inductive skind := cpop | first | mvxs | mvsx | vid.

Definition scalars : M unit :=
  m ← get g_m;
  k ← choice [cpop; first; mvxs; mvsx; vid];
  vm ← random_lt 60 100;
  match k with
  | cpop =>
      vs2 ← randnat 32;
      emit ("vcpop.m t3, " +:+ vreg vs2 +:+ mask_suffix vm);;
      c ← lift (cpop_val m vm vs2);
      save_scalar "t3" c
  | first =>
      vs2 ← randnat 32;
      emit ("vfirst.m t3, " +:+ vreg vs2 +:+ mask_suffix vm);;
      c ← lift (first_val m vm vs2);
      save_scalar "t3" c
  | mvxs =>
      vs2 ← randnat 32;
      emit ("vmv.x.s t3, " +:+ vreg vs2);;
      save_scalar "t3" (mvxs_val m vs2)
  | mvsx =>
      vd ← randnat 32;
      x ← randrange (2 ^ 32);
      li "t1" x;;
      emit ("vmv.s.x " +:+ vreg vd +:+ ", t1");;
      set_m (mvsx_exec m vd x)
  | vid =>
      gd ← group (lmul8 m) [] (negb vm);
      vd ← reg_of gd;
      emit ("vid.v " +:+ vreg vd +:+ mask_suffix vm);;
      m' ← lift (vid_exec m vm vd);
      set_m m'
  end.

(** ** slide (vgen.py) *)

Definition slide_name (k : sop) : string :=
  match k with up => "vslideup" | down => "vslidedown" | up1 => "vslide1up"
             | down1 => "vslide1down" end.
Definition slides_up (k : sop) : bool := match k with up | up1 => true | _ => false end.
Definition slides_one (k : sop) : bool := match k with up1 | down1 => true | _ => false end.

Definition slide : M unit :=
  m ← get g_m;
  k ← choice [up; down; up1; down1];
  vm ← random_lt 60 100;
  g2 ← group (lmul8 m) [] false;
  gd ← group (lmul8 m) (match g2 with
                        | Some (_, rng2) => if slides_up k then [rng2] else []
                        | None => [] end) (negb vm);
  match gd with
  | None => mret tt
  | Some (vd, _) =>
      vs2 ← reg_of g2;
      let vmax := vlmax m (sew m) (lmul8 m) in
      o ← randnat (vmax + 2);
      off ← choice [0; 1; 2; o];
      x ← randrange (2 ^ 32);
      (if slides_one k then
         li "t1" x;;
         emit (slide_name k +:+ ".vx " +:+ vreg vd +:+ ", " +:+ vreg vs2 +:+ ", t1"
               +:+ mask_suffix vm)
       else
         imm ← (if Nat.ltb off 32 then random_lt 50 100 else mret false);
         if (imm : bool) then
           emit (slide_name k +:+ ".vi " +:+ vreg vd +:+ ", " +:+ vreg vs2 +:+ ", "
                 +:+ pretty off +:+ mask_suffix vm)
         else
           li "t1" (Z.of_nat off);;
           emit (slide_name k +:+ ".vx " +:+ vreg vd +:+ ", " +:+ vreg vs2 +:+ ", t1"
                 +:+ mask_suffix vm));;
      m' ← lift (slide_exec m k vm vd vs2 off x);
      set_m m'
  end.

(** ** movnr (vgen.py) *)
Definition movnr : M unit :=
  m ← get g_m;
  n ← choice [1; 2; 4; 8];
  vd ← randrange_32 n;
  vs2 ← randrange_32 n;
  emit ("vmv" +:+ pretty n +:+ "r.v " +:+ vreg vd +:+ ", " +:+ vreg vs2);;
  set_m (movnr_exec m n vd vs2).

(** ** memop (vgen.py) *)

Inductive mkind := Kunit | Kstride | Kindex | Kmask | Kwhole | Kff.

(** [emul_ok(eew, sew, lmul)]: 32 * emul, when 1/8 <= emul <= 8. *)
Definition emul32 (eew s l8 : nat) : nat := 4 * eew / s * l8.
Definition emul_ok (eew s l8 : nat) : bool :=
  Nat.leb 4 (emul32 eew s l8) && Nat.leb (emul32 eew s l8) 256.

Definition memop_stride (m : Model) (kind : mkind) (store vm : bool) (base : nat) : M unit :=
  eew ← choice [8; 16; 32];
  if negb (emul_ok eew (sew m) (lmul8 m)) then mret tt else
  gd ← group (emul32 eew (sew m) (lmul8 m) / 4) [] (negb vm && negb store);
  match gd with
  | None => mret tt
  | Some (vd, _) =>
      stride ←
        match kind with
        | Kstride =>
            k ← randnat 5;
            li "a1" (Z.of_nat (eew / 8 * k));;
            emit ((if store then "vsse" else "vlse") +:+ pretty eew +:+ ".v " +:+ vreg vd
                  +:+ ", (a0), a1" +:+ mask_suffix vm);;
            mret (eew / 8 * k)
        | _ =>
            emit ((if store then "vse" else "vle") +:+ pretty eew
                  +:+ (match kind with Kff => "ff" | _ => "" end) +:+ ".v " +:+ vreg vd
                  +:+ ", (a0)" +:+ mask_suffix vm);;
            mret (eew / 8)
        end;
      m' ← lift (stride_exec m store vm vd base stride eew);
      set_m m'
  end.

Definition lookup_tab (t : list (nat * nat)) (k : nat) : res nat :=
  match list_find (λ kv, kv.1 = k) t with
  | Some (_, (_, o)) => Ok o
  | None => Err (KeyError (pretty k))
  end.

Definition memop_index (m : Model) (store vm : bool) (base : nat) : M unit :=
  ieew ← choice [8; 16; 32];
  if negb (emul_ok ieew (sew m) (lmul8 m)) then mret tt else
  let e8 := emul32 ieew (sew m) (lmul8 m) / 4 in
  gi ← group e8 [] false;
  tab ← get g_idx_tab;
  a ← lift (lookup_tab tab ieew);
  li "a2" (Z.of_nat a);;
  vix ← reg_of gi;
  emit ("vl" +:+ pretty (emul_regs e8) +:+ "re" +:+ pretty ieew +:+ ".v " +:+ vreg vix
        +:+ ", (a2)");;
  let m1 := load_regs m vix (emul_regs e8) a in
  set_m m1;;
  gd ← group (lmul8 m) (match gi with Some (_, rngi) => [rngi] | None => [] end)
         (negb vm && negb store);
  match gd with
  | None => mret tt
  | Some (vd, _) =>
      op ← choice ["u"; "o"];
      emit ("v" +:+ (if store then "s" else "l") +:+ op +:+ "xei" +:+ pretty ieew +:+ ".v "
            +:+ vreg vd +:+ ", (a0), " +:+ vreg vix +:+ mask_suffix vm);;
      m' ← lift (index_exec m1 store vm vd base vix ieew);
      set_m m'
  end.

Definition memop_whole (m : Model) (store : bool) (base : nat) : M unit :=
  n ← choice [1; 2; 4; 8];
  vd ← randrange_32 n;
  if store then
    emit ("vs" +:+ pretty n +:+ "r.v " +:+ vreg vd +:+ ", (a0)");;
    set_m (store_regs m vd n base)
  else
    e ← choice [8; 16; 32];
    emit ("vl" +:+ pretty n +:+ "re" +:+ pretty (e : nat) +:+ ".v " +:+ vreg vd +:+ ", (a0)");;
    set_m (load_regs m vd n base).

Definition memop : M unit :=
  m ← get g_m;
  kind ← choice [Kunit; Kunit; Kstride; Kindex; Kmask; Kwhole; Kff];
  st ← random_lt 45 100;
  let store := st && match kind with Kff => false | _ => true end in
  vm ← match kind with
       | Kunit | Kstride | Kindex | Kff => random_lt 60 100
       | _ => mret true
       end;
  k ← randnat 256;
  let base := DATA + 4 * k in
  li "a0" (Z.of_nat base);;
  match kind with
  | Kunit | Kstride | Kff => memop_stride m kind store vm base
  | Kindex => memop_index m store vm base
  | Kmask =>
      vd ← randnat 32;
      emit ((if store then "vsm" else "vlm") +:+ ".v " +:+ vreg vd +:+ ", (a0)");;
      m' ← lift (maskmem_exec m store vd base);
      set_m m'
  | Kwhole => memop_whole m store base
  end.

(** ** __init__ (vgen.py) *)

Fixpoint for_ {A} (l : list A) (body : A → M unit) : M unit :=
  match l with
  | [] => mret tt
  | x :: l => body x;; for_ l body
  end.

Definition init_data : M unit :=
  for_ (seq DATA (INDEX - DATA)) (λ a,
    b ← randrange 256;
    m ← get g_m;
    w ← lift (index_set (mem m) a b);
    set_m (with_mem m w)).

Definition init_table (eew off : nat) : M unit :=
  n ← get g_vlen;
  for_ (seq 0 n) (λ i,
    k ← randrange 64;
    m ← get g_m;
    set_m (mset m (off + i * eew / 8) (eew / 8) (4 * k))).

Definition add_tab (eew off : nat) : M unit := λ g,
  Ok (tt, mkGen (g_vlen g) (g_asm g) (g_m g) (g_init g) (g_slots g)
            (g_idx_tab g ++ [(eew, off)]) (g_pos g)).

Fixpoint init_tables (off : nat) (eews : list nat) : M unit :=
  match eews with
  | [] => mret tt
  | eew :: eews =>
      add_tab eew off;;
      init_table eew off;;
      n ← get g_vlen;
      init_tables (off + n * 4) eews
  end.

Definition set_init : M unit := λ g,
  Ok (tt, mkGen (g_vlen g) (g_asm g) (g_m g) (mem (g_m g)) (g_slots g)
            (g_idx_tab g) (g_pos g)).

Definition Gen_new (vlen : nat) : Gen :=
  mkGen vlen [] (Model_init vlen (replicate END 0%Z)) [] 0 [] 0.

Definition Gen_init (vlen : nat) : res Gen :=
  let* r := (init_data;; init_tables INDEX [8; 16; 32];; set_init) (Gen_new vlen) in
  Ok r.2.

(** ** build (vgen.py) *)

Definition add_asm (ls : list string) : M unit := λ g,
  Ok (tt, mkGen (g_vlen g) (g_asm g ++ ls) (g_m g) (g_init g) (g_slots g)
            (g_idx_tab g) (g_pos g)).

Definition kinds (fuel : nat) : list (M unit) :=
  [vset fuel; arith; arith; arith; compare; reduce;
   masklogic; scalars; slide; movnr; memop; memop].

Definition prologue : M unit :=
  m ← get g_m;
  add_asm ["    .section .text.init"; "    .globl _start"; "_start:";
           "    li t0, 0x200"; "    csrs mstatus, t0          # mstatus.VS = Initial";
           "    li s1, " +:+ pretty OUT_S];;
  for_ [0; 8; 16; 24] (λ reg,
    li "a0" (Z.of_nat (DATA + reg * vlenb m));;
    emit ("vl8re32.v " +:+ vreg reg +:+ ", (a0)"));;
  set_m (with_v m (slice (mem m) DATA (DATA + 32 * vlenb m))).

(** The random instructions: the first vset, then [count] more. *)
Definition body (fuel count : nat) : M unit :=
  vset fuel;;
  for_ (seq 0 count) (λ _, f ← choice (kinds fuel); f).

Definition epilogue : M unit :=
  m ← get g_m;
  for_ (seq 0 32) (λ reg,
    li "a0" (Z.of_nat (OUT_V + reg * vlenb m));;
    emit ("vs1r.v " +:+ vreg reg +:+ ", (a0)"));;
  set_m (with_mem m (slice_set (mem m) OUT_V (OUT_V + 32 * vlenb m) (v m)));;
  add_asm ["    li t0, 0x20000000"; "    sw zero, 0(t0)"; "1:  j 1b"].

(** The 32-bit little-endian words of [img] from [a], [n] of them. *)
Definition words_at (img : list Z) (a n : nat) : list Z :=
  map (λ k, int_from_bytes (slice img (a + 4 * k) (a + 4 * k + 4))) (seq 0 n).

Definition data_lines (img : list Z) : list string :=
  ("    .section .vdata, " +:+ String "034" ("aw" +:+ String "034" "")) ::
  map (λ w, "    .word 0x" +:+ Hex.fmt_x 8 w) (words_at img DATA ((OUT_V - DATA) / 4)).

Definition build (fuel count : nat) : M string :=
  prologue;;
  body fuel count;;
  epilogue;;
  asm ← get g_asm;
  img ← get g_init;
  mret (Hex.join (String "010" "") (asm ++ data_lines img) +:+ String "010" "").

(** expect.hex (vgen.py) *)
Definition expect_hex (m : Model) : string :=
  Hex.lines (map (Hex.fmt_x 8) (words_at (mem m) DATA ((END - DATA) / 4))).

(** [main]: prog.S and expect.hex. *)
Definition vgen_main (fuel vlen count : nat) : res (string * string) :=
  let* g := Gen_init vlen in
  let* r := build fuel count g in
  Ok (r.1, expect_hex (g_m r.2)).
End Gen.
End VGen.
