(* ===== verification/VGenSpec.v ===== *)
(** * What the program generator guarantees

    [runs c g Q]: the computation [c], started in [g], returns (it does not
    raise) and [Q] holds of its result and final state.  The methods of [Gen]
    are proved with it against an invariant of the generator's state: the
    model is well formed, the index tables are intact, and memory differs from
    the initial image only in the data area and in the scalar result slots
    used so far. *)
From S2P Require Import Prelude Hex VModel VInstr VSpec VGen.

Module VGenSpec.
Import VModel VInstr VSpec VGen.

(** ** A program logic for the generator's monad *)

Definition runs {A} (c : M A) (g : Gen) (Q : A → Gen → Prop) : Prop :=
  ∃ a g', c g = Ok (a, g') ∧ Q a g'.

(** The fields a random draw or an emitted line leaves alone. *)
Definition core (g : Gen) : nat * Model * list Z * nat * list (nat * nat) :=
  (g_vlen g, g_m g, g_init g, g_slots g, g_idx_tab g).

Definition keeps {A} (c : M A) (Φ : A → Prop) : Prop :=
  ∀ g, runs c g (λ a g', core g' = core g ∧ Φ a).

Lemma runs_ret {A} (a : A) g (Q : A → Gen → Prop) : Q a g → runs (mret a) g Q.
Proof. intros. by exists a, g. Qed.

Lemma runs_bind {A B} (c : M A) (f : A → M B) g Q :
  runs c g (λ a g', runs (f a) g' Q) → runs (c ≫= f) g Q.
Proof.
  intros (a & g' & E & b & g'' & E' & HQ). exists b, g''. split; [|done].
  unfold mbind, M_bind. by rewrite E.
Qed.

Lemma runs_mono {A} (c : M A) g (Q Q' : A → Gen → Prop) :
  runs c g Q → (∀ a g', Q a g' → Q' a g') → runs c g Q'.
Proof. intros (a & g' & E & HQ) Hm. exists a, g'. auto. Qed.

Lemma runs_keeps {A B} (c : M A) (f : A → M B) Φ g k Q :
  core g = k → keeps c Φ → (∀ a g', core g' = k → Φ a → runs (f a) g' Q) →
  runs (c ≫= f) g Q.
Proof.
  intros Hk Hc Hf. apply runs_bind. eapply runs_mono; [apply Hc|].
  intros a g' [E Ha]. apply Hf; [congruence|done].
Qed.

Lemma runs_get {A B} (p : Gen → A) (f : A → M B) g Q :
  runs (f (p g)) g Q → runs (get p ≫= f) g Q.
Proof. intros (b & g' & E & HQ). exists b, g'. split; [|done]. exact E. Qed.

Lemma runs_lift {A B} (r : res A) a (f : A → M B) g Q :
  r = Ok a → runs (f a) g Q → runs (lift r ≫= f) g Q.
Proof.
  intros -> (b & g' & E & HQ). exists b, g'. split; [|done]. exact E.
Qed.

Lemma runs_set_m m g (Q : unit → Gen → Prop) :
  Q tt (mkGen (g_vlen g) (g_asm g) m (g_init g) (g_slots g) (g_idx_tab g) (g_pos g)) →
  runs (set_m m) g Q.
Proof. intros. by eexists tt, _. Qed.

Lemma keeps_ret {A} (a : A) (Φ : A → Prop) : Φ a → keeps (mret a) Φ.
Proof. intros H g. by apply runs_ret. Qed.

Lemma keeps_bind {A B} (c : M A) (f : A → M B) Φ Ψ :
  keeps c Φ → (∀ a, Φ a → keeps (f a) Ψ) → keeps (c ≫= f) Ψ.
Proof.
  intros Hc Hf g. eapply runs_keeps; [done|exact Hc|].
  intros a g' E Ha. eapply runs_mono; [by apply Hf|].
  intros b g'' [E' Hb]. split; [congruence|done].
Qed.

Lemma keeps_emit s : keeps (emit s) (λ _, True).
Proof. intros g. by eexists tt, _. Qed.

Lemma keeps_li reg x : keeps (li reg x) (λ _, True).
Proof. apply keeps_emit. Qed.

Lemma keeps_lift {A} (r : res A) a : r = Ok a → keeps (lift r) (λ x, x = a).
Proof. intros -> g. by exists a, g. Qed.

Section keeps.
Context `{rng : Rng}.

Lemma keeps_next : keeps next (λ _, True).
Proof. intros g. by eexists _, _. Qed.

Lemma keeps_randrange n : (0 < n)%Z → keeps (randrange n) (λ x, (0 ≤ x < n)%Z).
Proof.
  intros Hn. unfold randrange. destruct (Z.leb_spec n 0); [lia|].
  eapply keeps_bind; [apply keeps_next|]. intros x _. apply keeps_ret.
  by apply Z.mod_pos_bound.
Qed.

Lemma keeps_randrange_ab a b :
  (a < b)%Z → keeps (randrange_ab a b) (λ x, (a ≤ x < b)%Z).
Proof.
  intros. eapply keeps_bind; [apply keeps_randrange; lia|].
  intros x Hx. apply keeps_ret; cbv beta in *; lia.
Qed.

Lemma keeps_randnat n : 0 < n → keeps (randnat n) (λ x, x < n).
Proof.
  intros. eapply keeps_bind; [apply keeps_randrange; lia|].
  intros x Hx. apply keeps_ret; cbv beta in *; lia.
Qed.

Lemma keeps_random_lt a b : keeps (random_lt a b) (λ _, True).
Proof. eapply keeps_bind; [apply keeps_next|]. intros. by apply keeps_ret. Qed.

Lemma keeps_choice {A} (l : list A) : l ≠ [] → keeps (choice l) (λ x, x ∈ l).
Proof.
  intros Hl. assert (0 < length l) by (destruct l; [done|simpl; lia]).
  eapply keeps_bind; [by apply keeps_randnat|].
  intros i Hi g. apply lookup_lt_is_Some in Hi as [x Hx].
  exists x, g. unfold lift, index. rewrite Hx. split; [done|].
  split; [done|]. by eapply list_elem_of_lookup_2.
Qed.

(** Register counts of a group. *)
Definition count_ok (n : nat) : Prop := n ∈ [1; 2; 4; 8].

Lemma keeps_randrange_32 n :
  count_ok n → keeps (randrange_32 n) (λ r, r + n ≤ 32 ∧ r mod n = 0).
Proof.
  intros Hn. eapply keeps_bind.
  - apply keeps_randnat. unfold count_ok in Hn. vcases; subst; vm_compute; lia.
  - intros x Hx. apply keeps_ret. rewrite Nat.mul_comm, Nat.Div0.mod_mul. split; [|done].
    unfold count_ok in Hn. vcases; subst; eval_div; lia.
Qed.

(** What the allocator promises of the group it returns. *)
Definition group_post (n : nat) (avoid : list (list nat)) (not_v0 : bool)
    (o : option (nat * list nat)) : Prop :=
  match o with
  | None => True
  | Some (r, rs) =>
      rs = seq r n ∧ r + n ≤ 32 ∧ r mod n = 0 ∧ (not_v0 = true → 1 ≤ r) ∧
      ∀ a x, a ∈ avoid → x ∈ a → x ∉ rs
  end.

Lemma clash_false rs avoid :
  clash rs avoid = false → ∀ a x, a ∈ avoid → x ∈ a → x ∉ rs.
Proof.
  intros Hc a x Ha Hx Hin.
  assert (clash rs avoid = true); [|congruence].
  apply existsb_exists. exists a. split; [by apply list_elem_of_In|].
  apply existsb_exists. exists x. split; [by apply list_elem_of_In|]. by apply bool_decide_eq_true.
Qed.

Lemma keeps_group_loop t n avoid nv0 :
  count_ok n → keeps (group_loop t n avoid nv0) (group_post n avoid nv0).
Proof.
  intros Hn. induction t as [|t IH]; [by apply keeps_ret|]. cbn [group_loop].
  eapply keeps_bind; [by apply keeps_randrange_32|]. intros r [Hr Hal].
  destruct (nv0 && bool_decide (0 ∈ seq r n)) eqn:E0; [done|].
  destruct (clash (seq r n) avoid) eqn:Ec; [done|].
  apply keeps_ret. split_and!; try done.
  - intros ->. simpl in E0. apply bool_decide_eq_false in E0. rewrite elem_of_seq in E0.
    unfold count_ok in Hn. vcases; lia.
  - by apply clash_false.
Qed.

Lemma emul_regs_count l8 : lmul_ok l8 → count_ok (emul_regs l8).
Proof. intros. unfold count_ok, emul_regs. vcases; subst; eval_div; simpl; set_solver. Qed.

Lemma keeps_group e8 avoid nv0 :
  count_ok (emul_regs e8) → keeps (group e8 avoid nv0) (group_post (emul_regs e8) avoid nv0).
Proof. apply keeps_group_loop. Qed.

Lemma keeps_reg_of o r rs : o = Some (r, rs) → keeps (reg_of o) (λ x, x = r).
Proof. intros ->. by apply keeps_ret. Qed.

(** When nothing is to be avoided, a group is found at the first draw;
    when only v0 is, at the first draw that is not register 0. *)
Definition group_found (n : nat) (nv0 : bool) (o : option (nat * list nat)) : Prop :=
  ∃ r, o = Some (r, seq r n) ∧ r + n ≤ 32 ∧ r mod n = 0 ∧ (nv0 = true → 1 ≤ r).

Lemma group_free e8 :
  count_ok (emul_regs e8) →
  keeps (group e8 [] false) (group_found (emul_regs e8) false).
Proof.
  intros Hn. unfold group. cbn [group_loop andb clash existsb].
  eapply keeps_bind; [by apply keeps_randrange_32|]. intros r [Hr Hal].
  apply keeps_ret. exists r. by split_and!.
Qed.

(** Among any 100 numbers of the stream one is not a multiple of 4. *)
Definition fair_group : Prop := ∀ p, ∃ k, k < 100 ∧ (rng_at (p + k) mod 4 ≠ 0)%Z.

Lemma randrange_32_run n g :
  count_ok n →
  randrange_32 n g =
    Ok (n * Z.to_nat (rng_at (g_pos g) mod Z.of_nat (32 / n))%Z,
        mkGen (g_vlen g) (g_asm g) (g_m g) (g_init g) (g_slots g) (g_idx_tab g) (S (g_pos g))).
Proof.
  intros Hn. unfold randrange_32, randnat, randrange.
  destruct (Z.leb_spec (Z.of_nat (32 / n)) 0); [|done].
  exfalso. unfold count_ok in Hn. vcases; subst; eval_div; lia.
Qed.

Lemma nonzero_draw n x :
  count_ok n → (x mod 4 ≠ 0)%Z → 1 ≤ n * Z.to_nat (x mod Z.of_nat (32 / n))%Z.
Proof.
  intros Hn Hx. assert (x mod Z.of_nat (32 / n) ≠ 0)%Z.
  { intros E. apply Hx. apply Z.mod_divide; [lia|]. apply Z.mod_divide in E;
      [|unfold count_ok in Hn; vcases; subst; eval_div; lia].
    eapply Z.divide_trans; [|exact E]. unfold count_ok in Hn. vcases; subst; eval_div.
    - by exists 8%Z. - by exists 4%Z. - by exists 2%Z. - by exists 1%Z. }
  assert (0 ≤ x mod Z.of_nat (32 / n))%Z.
  { apply Z.mod_pos_bound. unfold count_ok in Hn. vcases; subst; eval_div; lia. }
  unfold count_ok in Hn. assert (1 ≤ n) by (vcases; lia). nia.
Qed.

Lemma group_loop_fair t n g :
  count_ok n → (∃ k, k < t ∧ (rng_at (g_pos g + k) mod 4 ≠ 0)%Z) →
  runs (group_loop t n [] true) g (λ o g', core g' = core g ∧ group_found n true o).
Proof.
  intros Hn. revert g; induction t as [|t IH]; intros g (k & Hk & Hd); [lia|].
  cbn [group_loop]. apply runs_bind. unfold runs at 1. rewrite randrange_32_run by done.
  eexists _, _; split; [done|]. cbn [clash existsb andb].
  set (g1 := mkGen _ _ _ _ _ _ _). set (r := n * _).
  case_bool_decide as H0.
  - destruct k as [|k].
    + exfalso. pose proof (nonzero_draw n _ Hn Hd). rewrite Nat.add_0_r in *.
      apply elem_of_seq in H0. unfold r in H0. lia.
    + eapply runs_mono; [apply (IH g1)|].
      * exists k. split; [lia|]. unfold g1; simpl. by rewrite <- Nat.add_succ_r.
      * intros o g' [E Ho]. done.
  - apply runs_ret. split; [done|]. exists r. split_and!; try done.
    + unfold r. pose proof (Z.mod_pos_bound (rng_at (g_pos g)) (Z.of_nat (32 / n))) as Hb.
      unfold count_ok in Hn. vcases; subst; eval_div; lia.
    + unfold r. by rewrite Nat.mul_comm, Nat.Div0.mod_mul.
    + intros _. rewrite elem_of_seq in H0. unfold count_ok in Hn. vcases; lia.
Qed.

Lemma group_v0 e8 nv0 :
  fair_group → count_ok (emul_regs e8) →
  keeps (group e8 [] nv0) (group_found (emul_regs e8) nv0).
Proof.
  intros Hf Hn. destruct nv0; [|by apply group_free].
  intros g. by apply group_loop_fair.
Qed.
End keeps.

(** Takes the next draw or emitted line of a method. *)
Ltac keeps_solve :=
  first
  [ apply keeps_emit | apply keeps_li | apply keeps_random_lt
  | apply keeps_choice; done
  | apply keeps_randrange; done
  | apply keeps_randrange_ab; lia
  | apply keeps_randnat; lia
  | eapply keeps_reg_of; reflexivity
  | apply (keeps_ret _ (λ _, True)); exact I ].
Ltac step_with tac :=
  eapply runs_keeps;
  [ match goal with H : core _ = _ |- _ => exact H end | tac | cbv beta ];
  match goal with
  | H : core ?g = _ |- ∀ a g', core g' = _ → _ → _ =>
      clear H; intros ? ? H; intros ?
  end.
Ltac step := step_with keeps_solve.
(** The same for a conditional emission or draw, with nothing to remember. *)
Ltac step_true tac :=
  eapply runs_keeps with (Φ := λ _, True);
  [ match goal with H : core _ = _ |- _ => exact H end | tac | ];
  match goal with
  | H : core ?g = _ |- ∀ a g', core g' = _ → _ → _ =>
      clear H; intros ? ? H _
  end.

(** ** The invariant *)

Definition tables (vlen : nat) : list (nat * nat) :=
  [(8, INDEX); (16, INDEX + vlen * 4); (32, INDEX + vlen * 4 + vlen * 4)].

(** Every entry of the index tables is an offset below 256. *)
Definition table_ok (vlen : nat) (img : list Z) : Prop :=
  ∀ eew off i, (eew, off) ∈ tables vlen → i < vlen →
    (0 ≤ int_from_bytes (slice img (off + i * (eew / 8)) (off + i * (eew / 8) + eew / 8)) ≤ 252)%Z.

(** [k] more scalar results may be saved. *)
Record ginv (img : list Z) (k : nat) (g : Gen) : Prop := {
  gi_wf : wf (g_m g);
  gi_vlen : vlen (g_m g) = g_vlen g;
  gi_slots : 4 * (g_slots g + k) ≤ END - OUT_S;
  gi_tab : g_idx_tab g = tables (g_vlen g);
  gi_init : g_init g = img;
  gi_table : table_ok (g_vlen g) img;
  gi_mem j : ¬ (DATA ≤ j < INDEX) → ¬ (OUT_S ≤ j < OUT_S + 4 * g_slots g) →
    mem (g_m g) !! j = img !! j
}.

Lemma map_consts :
  (Z.of_nat DATA = 8192 ∧ Z.of_nat INDEX = 12288 ∧ Z.of_nat OUT_V = 16384 ∧
   Z.of_nat OUT_S = 20480 ∧ Z.of_nat END = 24576)%Z.
Proof.
  unfold DATA, INDEX, OUT_V, OUT_S, END. rewrite !Z2Nat.id by lia. done.
Qed.
#[local] Opaque DATA INDEX OUT_V OUT_S END.

(** [lia] and [nia] with the memory map. *)
Ltac map_lia := pose proof map_consts; lia.
Ltac map_nia := pose proof map_consts; nia.

Lemma ginv_le img k k' g : ginv img k g → k' ≤ k → ginv img k' g.
Proof. intros [] H. constructor; try done. lia. Qed.

(** What one instruction may do to the model. *)
Record allowed (m m' : Model) : Prop := {
  al_wf : wf m';
  al_vlen : vlen m' = vlen m;
  al_mem j : ¬ (DATA ≤ j < INDEX) → mem m' !! j = mem m !! j
}.

Lemma regs_only_allowed m m' : regs_only m m' → allowed m m'.
Proof. intros [? E (?&?)]. constructor; [done|done|]. intros. by rewrite E. Qed.

Lemma stored_allowed m m' : stored m m' DATA INDEX → allowed m m'.
Proof. intros [? ? (?&?) ?]. by constructor. Qed.

Lemma allowed_trans m1 m2 m3 : allowed m1 m2 → allowed m2 m3 → allowed m1 m3.
Proof.
  intros [? E2 H2] [? E3 H3]. constructor; [done|congruence|].
  intros j Hj. by rewrite H3, H2.
Qed.

Lemma ginv_set img k g g' m' :
  ginv img k g → core g' = core g → allowed (g_m g) m' →
  ginv img k (mkGen (g_vlen g') (g_asm g') m' (g_init g') (g_slots g') (g_idx_tab g') (g_pos g')).
Proof.
  intros [] Hc [Hw Ev Hm]. unfold core in Hc. injection Hc as E1 E2 E3 E4 E5.
  constructor; simpl; rewrite ?E1, ?E4; try congruence; try assumption.
  intros j Hj Hs. rewrite Hm by done. apply gi_mem0; [done|congruence].
Qed.

Lemma ginv_core img k g g' : ginv img k g → core g' = core g → ginv img k g'.
Proof.
  intros [] Hc. unfold core in Hc. injection Hc as E1 E2 E3 E4 E5.
  constructor; rewrite ?E1, ?E4; try congruence; try assumption.
  intros j Hj Hs. rewrite E2. apply gi_mem0; [done|congruence].
Qed.

Lemma runs_update img k g g' m' :
  ginv img k g → core g' = core g → allowed (g_m g) m' → runs (set_m m') g' (λ _, ginv img k).
Proof. intros. apply runs_set_m. by eapply ginv_set. Qed.

(** A handler ends by running an instruction and storing its result. *)
Lemma runs_exec img k g g' (r : res Model) :
  ginv img k g → core g' = core g → (∃ m', r = Ok m' ∧ allowed (g_m g) m') →
  runs (m' ← lift r; set_m m') g' (λ _, ginv img k).
Proof.
  intros Hg Hc (m' & -> & Ha). eapply runs_lift; [done|]. by eapply runs_update.
Qed.

Lemma save_scalar_inv img k g reg x :
  ginv img (S k) g → runs (save_scalar reg x) g (λ _, ginv img k).
Proof.
  intros Hg. unfold save_scalar. apply runs_get. apply runs_bind.
  eapply runs_mono; [apply keeps_emit|]. intros _ g1 [Hc _].
  apply runs_get. apply runs_bind. apply runs_set_m.
  eexists tt, _; split; [reflexivity|]. destruct Hg.
  unfold core in Hc. injection Hc as E1 E2 E3 E4 E5. rewrite E4, E2.
  destruct map_consts as (ED & EI & EV & ES & EE).
  constructor; cbn [g_m g_vlen g_slots g_init g_idx_tab];
    rewrite ?E1; try congruence; try assumption.
  - apply mset_wf; [done|]. lia.
  - lia.
  - intros j Hj Hs. rewrite mem_mset by (rewrite (wf_mem_len _ gi_wf0); lia).
    rewrite decide_False by lia. apply gi_mem0; [done|lia].
Qed.

Section handlers.
Context `{rng : Rng}.
Context (Hfair : fair_group).

Lemma lmul_count m : wf m → count_ok (emul_regs (lmul8 m)).
Proof. intros []. by apply emul_regs_count. Qed.

Ltac start Hg g :=
  assert (Hwf := gi_wf _ _ _ Hg); assert (Hcnt := lmul_count _ Hwf);
  assert (Hcore : core g = core g) by done; apply runs_get.

Lemma count_group_in r n : count_ok n → r + n ≤ 32 → group_in r n.
Proof. intros Hn Hr. split; [unfold count_ok in Hn; vcases; lia|done]. Qed.

Lemma arith_inv img k g : ginv img k g → runs arith g (λ _, ginv img k).
Proof.
  intros Hg. start Hg g. step. step_with ltac:(apply keeps_choice; by destruct a).
  step_true ltac:(destruct (_ || _); keeps_solve).
  step_with ltac:(by apply group_v0). destruct H1 as (vd & -> & Hvd & _).
  step_with ltac:(by apply group_free). destruct H1 as (vs2 & -> & _).
  step_with ltac:(by apply group_free). destruct H1 as (vs1 & -> & _).
  step. step. step. step_true ltac:(destruct a0; keeps_solve). step. step. step. step.
  eapply runs_exec; [done|done|].
  edestruct arith_writes as (m' & -> & W);
    [exact Hwf| |eauto using regs_only_allowed, writes_regs_only].
  cbn [a_vd]. subst. by apply count_group_in.
Qed.

Lemma compare_inv img k g : ginv img k g → runs compare g (λ _, ginv img k).
Proof.
  intros Hg. start Hg g. step. step_with ltac:(apply keeps_choice; by destruct a). step.
  step_with ltac:(by apply group_free). destruct H2 as (vs2 & -> & _).
  step_with ltac:(by apply group_free). destruct H2 as (vs1 & -> & _).
  step_with ltac:(apply keeps_randrange_ab; destruct a1; lia).
  step. step. step_true ltac:(destruct a0; keeps_solve). step. step. step.
  eapply runs_exec; [done|done|].
  edestruct compare_writes as (m' & -> & W);
    [exact Hwf| |eauto using regs_only_allowed, writes_bits_regs_only].
  cbn [c_vd]. destruct a1; lia.
Qed.

Lemma reduce_inv img k g : ginv img k g → runs reduce g (λ _, ginv img k).
Proof.
  intros Hg. start Hg g. step. step.
  step_with ltac:(by apply group_free). destruct H1 as (vs2 & -> & _).
  step. step. step. step. eapply runs_exec; [done|done|].
  edestruct reduce_regs_only as (m' & -> & W); eauto using regs_only_allowed.
Qed.

Lemma masklogic_inv img k g : ginv img k g → runs masklogic g (λ _, ginv img k).
Proof.
  intros Hg. start Hg g. step. step. step. step. step. eapply runs_exec; [done|done|].
  edestruct masklogic_writes as (m' & -> & W);
    eauto using regs_only_allowed, writes_bits_regs_only.
Qed.

Lemma runs_save img k g g' reg x :
  ginv img (S k) g → core g' = core g → runs (save_scalar reg x) g' (λ _, ginv img k).
Proof. intros Hg Hc. apply save_scalar_inv. by eapply ginv_core. Qed.

Lemma scalars_inv img k g : ginv img (S k) g → runs scalars g (λ _, ginv img k).
Proof.
  intros Hg. start Hg g. step. step. assert (Hg' := ginv_le _ _ k _ Hg ltac:(lia)).
  destruct a.
  - step. step. destruct (mask_set_ok (g_m g) a0 a Hwf H1) as [l E].
    eapply runs_lift; [unfold cpop_val; rewrite E; done|]. by eapply runs_save.
  - step. step. destruct (mask_set_ok (g_m g) a0 a Hwf H1) as [l E].
    eapply runs_lift; [unfold first_val; rewrite E; done|]. by eapply runs_save.
  - step. step. by eapply runs_save.
  - step. step. step. step. eapply runs_update; [done|done|].
    by apply regs_only_allowed, mvsx_regs_only.
  - step_with ltac:(by apply group_v0). destruct H1 as (vd & -> & Hvd & _ & Hv0).
    step. step. eapply runs_exec; [done|done|]. subst.
    edestruct vid_writes as (m' & -> & W);
      [exact Hwf|by apply count_group_in| |eauto using regs_only_allowed, writes_regs_only].
    destruct a0; [by left|right; by apply Hv0].
Qed.

Lemma slide_inv img k g : ginv img k g → runs slide g (λ _, ginv img k).
Proof.
  intros Hg. start Hg g. step. step.
  step_with ltac:(by apply group_free). destruct H1 as (vs2 & -> & _).
  step_with ltac:(by apply keeps_group). destruct a1 as [[vd rs]|];
    [|apply runs_ret; by eapply ginv_core].
  destruct H1 as (_ & Hvd & _). step. step. step. step.
  step_true ltac:(destruct (slides_one a);
    [ eapply keeps_bind; [|intros]; keeps_solve
    | eapply keeps_bind with (Φ := λ _, True); [destruct (Nat.ltb _ _); keeps_solve|];
      intros [] _; [keeps_solve|]; eapply keeps_bind; [|intros]; keeps_solve ]).
  eapply runs_exec; [done|done|].
  edestruct slide_writes as (m' & -> & W);
    [exact Hwf|by apply count_group_in|eauto using regs_only_allowed, writes_regs_only].
Qed.

Lemma movnr_inv img k g : ginv img k g → runs movnr g (λ _, ginv img k).
Proof.
  intros Hg. start Hg g. step. step_with ltac:(by apply keeps_randrange_32). destruct H0.
  step_with ltac:(by apply keeps_randrange_32). destruct H2. step.
  eapply runs_update; [done|done|]. by apply regs_only_allowed, movnr_regs_only.
Qed.

(** *** vset *)

(** The configuration the two draws at [p] name. *)
Definition drawn_cfg (p : nat) : nat * nat :=
  (nth (Z.to_nat (rng_at p mod 3)) [8; 16; 32] 8,
   nth (Z.to_nat (rng_at (S p) mod 7)) [1; 2; 4; 8; 16; 32; 64] 8).

(** Among any [fuel] pairs of consecutive draws one is a legal SEW/LMUL. *)
Definition fair_vset (fuel : nat) : Prop :=
  ∀ p, ∃ k, k < fuel ∧
    cfg_skip (drawn_cfg (p + 2 * k)).1 (drawn_cfg (p + 2 * k)).2 = false.

Lemma choice_run {A} (l : list A) d g :
  l ≠ [] →
  choice l g =
    Ok (nth (Z.to_nat (rng_at (g_pos g) mod Z.of_nat (length l))) l d,
        mkGen (g_vlen g) (g_asm g) (g_m g) (g_init g) (g_slots g) (g_idx_tab g) (S (g_pos g))).
Proof.
  intros Hl. assert (0 < length l) by (destruct l; [done|simpl; lia]).
  unfold choice, randnat, randrange. destruct (Z.leb_spec (Z.of_nat (length l)) 0); [lia|].
  unfold mbind, M_bind, mret, M_ret, next. cbn [res_bind fst snd].
  set (i := Z.to_nat _).
  assert (i < length l).
  { pose proof (Z.mod_pos_bound (rng_at (g_pos g)) (Z.of_nat (length l))). unfold i. lia. }
  unfold lift, index. destruct (lookup_lt_is_Some_2 l i) as [x Hx]; [done|]. rewrite Hx.
  cbn [res_bind]. do 2 f_equal. by rewrite (nth_lookup_Some _ _ _ _ Hx).
Qed.

Lemma vset_draw_runs fuel g :
  (∃ k, k < fuel ∧ cfg_skip (drawn_cfg (g_pos g + 2 * k)).1 (drawn_cfg (g_pos g + 2 * k)).2 = false) →
  runs (vset_draw fuel) g (λ sl g', core g' = core g ∧
    sew_ok sl.1 ∧ lmul_ok sl.2 ∧ cfg_skip sl.1 sl.2 = false).
Proof.
  revert g; induction fuel as [|fuel IH]; intros g (k & Hk & Hl); [lia|].
  cbn [vset_draw]. apply runs_bind. unfold runs at 1. rewrite (choice_run _ 8) by done.
  eexists _, _; split; [done|]. apply runs_bind. unfold runs at 1.
  rewrite (choice_run _ 8) by done. eexists _, _; split; [done|]. cbn [length g_pos].
  fold (drawn_cfg (g_pos g)).1. change (Z.of_nat 3) with 3%Z. change (Z.of_nat 7) with 7%Z.
  set (g2 := mkGen _ _ _ _ _ _ _). set (sw := nth _ [8; 16; 32] 8). set (l8 := nth _ _ 8).
  destruct (cfg_skip sw l8) eqn:Es.
  - destruct k as [|k].
    + exfalso. rewrite Nat.mul_0_r, Nat.add_0_r in Hl. unfold drawn_cfg in Hl.
      cbn [fst snd] in Hl. unfold sw, l8 in Es. congruence.
    + eapply runs_mono; [apply (IH g2)|by intros].
      exists k. split; [lia|]. unfold g2; cbn [g_pos].
      by replace (S (S (g_pos g)) + 2 * k) with (g_pos g + 2 * S k) by lia.
  - apply runs_ret. split; [done|]. cbn [fst snd]. split_and!; [| |done].
    + unfold sew_ok, sw. destruct (nth_in_or_default (Z.to_nat (rng_at (g_pos g) mod 3)) [8; 16; 32] 8)
        as [H|H]; [|rewrite H; by left].
      simpl in H. naive_solver.
    + unfold lmul_ok, l8. apply list_elem_of_In.
      destruct (nth_in_or_default (Z.to_nat (rng_at (S (g_pos g)) mod 7))
        [1; 2; 4; 8; 16; 32; 64] 8) as [H|H]; [done|rewrite H; simpl; auto 10].
Qed.

Lemma vlmax_pos m s l8 :
  vlen_ok (vlen m) → sew_ok s → lmul_ok l8 → cfg_skip s l8 = false → 2 ≤ vlmax m s l8.
Proof.
  intros H1 H2 H3 H4. unfold vlmax, cfg_skip in *.
  vcases; subst; rewrite ?H1, ?H2, ?H3; try discriminate H4; eval_div; simpl; lia.
Qed.

Lemma lmul_name_ok l8 : lmul_ok l8 → ∃ lm, lmul_name l8 = Ok lm.
Proof. intros. vcases; subst; simpl; eauto. Qed.

Lemma vset_inv fuel img k g :
  fair_vset fuel → ginv img (S k) g → runs (vset fuel) g (λ _, ginv img k).
Proof.
  intros Hfv Hg. unfold vset. apply runs_bind.
  eapply runs_mono; [apply vset_draw_runs, Hfv|]. intros [s l8] g1 (Hcore & Hs & Hl & Hsk).
  cbn [fst snd] in *. apply runs_get. destruct (gi_wf _ _ _ Hg).
  assert (g_m g1 = g_m g) as -> by (unfold core in Hcore; congruence).
  pose proof (vlmax_pos (g_m g) s l8 wf_vlen0 Hs Hl Hsk). set (vmax := vlmax _ _ _) in *.
  step. step. destruct (lmul_name_ok l8 Hl) as [lm Elm].
  eapply runs_lift; [exact Elm|]. step.
  step_true ltac:(destruct (_ && _);
    [keeps_solve|eapply keeps_bind; [|intros]; keeps_solve]).
  apply runs_bind. eapply runs_mono; [eapply runs_update; [exact Hg|exact Hcore|]|].
  - constructor; [|done|done]. constructor; try done. simpl. apply Nat.le_min_r.
  - intros [] g2 Hg2. by apply save_scalar_inv.
Qed.

(** *** memop *)

Lemma emul_facts eew s l8 :
  sew_ok eew → sew_ok s → lmul_ok l8 → emul_ok eew s l8 = true →
  count_ok (emul_regs (emul32 eew s l8 / 4)).
Proof.
  intros He Hs Hl. unfold emul_ok, emul32, count_ok, emul_regs.
  vcases; subst; vm_compute; try discriminate; intros _; set_solver.
Qed.

Lemma emul_bound n eew s l8 :
  vlen_ok n → sew_ok eew → sew_ok s → lmul_ok l8 → emul_ok eew s l8 = true →
  n / s * l8 / 8 * (eew / 8) ≤ Nat.min 256 (emul_regs (emul32 eew s l8 / 4) * (n / 8)).
Proof.
  intros Hn He Hs Hl Hok. apply Nat.leb_le. revert Hok.
  vcases; subst; vm_compute; intros E; (reflexivity || discriminate E).
Qed.

Lemma emul_fits m eew :
  wf m → sew_ok eew → emul_ok eew (sew m) (lmul8 m) = true →
  fits m eew (emul_regs (emul32 eew (sew m) (lmul8 m) / 4)) (seq 0 (vl m)) ∧
  vl m * (eew / 8) ≤ 256.
Proof.
  intros [Hv _ _ _ _ Hs Hl Hvl] He Hok. unfold vlmax in Hvl.
  pose proof (emul_bound (vlen m) eew _ _ Hv He Hs Hl Hok). fold (vlenb m) in *.
  split; [intros i Hi%elem_of_range|]; nia.
Qed.

Lemma stride_allowed m store vm vd base stride eew n :
  wf m → sew_ok eew → group_in vd n → fits m eew n (seq 0 (vl m)) →
  vl m * (eew / 8) ≤ 256 → DATA ≤ base ≤ DATA + 1020 → stride ≤ 4 * (eew / 8) →
  ∃ m', stride_exec m store vm vd base stride eew = Ok m' ∧ allowed m m'.
Proof.
  intros Hm He Hg Hf Hvl Hb Hst. destruct map_consts as (ED & EI & EV & ES & EE).
  destruct (sew_bytes eew He) as [_ ?].
  destruct store.
  - edestruct (store_loop m DATA INDEX vm (λ _ i, base + i * stride) (eew / 8)
      (λ m i, eget m vd i eew) (seq 0 (vl m)) Hm) as (m' & E & Hs).
    + lia.
    + by intros i ?%elem_of_range.
    + intros _ i _ Hi%elem_of_range. nia.
    + exists m'. split; [exact E|by apply stored_allowed].
  - edestruct (load_loop m vd eew n vm (λ m i, mget m (base + i * stride) (eew / 8))
      (seq 0 (vl m)) Hm He Hg Hf) as (m' & E & Ha); [by intros i ?%elem_of_range|].
    exists m'. split; [exact E|]. by eapply regs_only_allowed, agree_regs_only.
Qed.

Lemma memop_stride_inv img k g kind store vm base :
  ginv img k g → DATA ≤ base ≤ DATA + 1020 →
  ∀ g', core g' = core g → runs (memop_stride (g_m g) kind store vm base) g' (λ _, ginv img k).
Proof.
  intros Hg Hb g' Hcore. assert (Hwf := gi_wf _ _ _ Hg). unfold memop_stride. step.
  assert (sew_ok a) by (unfold sew_ok; set_solver).
  destruct (emul_ok a _ _) eqn:Hok; cbn [negb]; [|apply runs_ret; by eapply ginv_core].
  assert (Hn := emul_facts _ _ _ H0 (wf_sew _ Hwf) (wf_lmul _ Hwf) Hok).
  destruct (emul_fits _ _ Hwf H0 Hok) as [Hf H256].
  step_with ltac:(by apply keeps_group).
  destruct a0 as [[vd rs]|]; [|apply runs_ret; by eapply ginv_core].
  destruct H1 as (_ & Hvd & _).
  eapply runs_keeps with (Φ := λ stride, stride ≤ 4 * (a / 8)); [exact Hcore| |].
  - destruct kind;
      try (eapply keeps_bind; [keeps_solve|]; intros; apply keeps_ret; cbv beta; lia).
    eapply keeps_bind; [keeps_solve|]. intros x Hx. cbv beta in Hx.
    do 2 (eapply keeps_bind; [keeps_solve|]; intros _ _).
    apply keeps_ret; cbv beta; nia.
  - clear Hcore. intros stride g3 Hcore Hst. eapply runs_exec; [done|done|].
    eapply stride_allowed; eauto using count_group_in.
Qed.

Lemma lookup_tab_elem t k a : lookup_tab t k = Ok a → (k, a) ∈ t.
Proof.
  unfold lookup_tab. destruct (list_find _ t) as [[i [k' o]]|] eqn:E; [|done].
  intros [= ->]. apply list_find_Some in E as (Hi & <- & _). by eapply list_elem_of_lookup_2.
Qed.

Lemma index_table_entry img k g ieew a vix n i :
  ginv img k g → sew_ok ieew → lookup_tab (g_idx_tab g) ieew = Ok a →
  vix + n ≤ 32 → i < vl (g_m g) → i * (ieew / 8) + ieew / 8 ≤ n * vlenb (g_m g) →
  n * vlenb (g_m g) ≤ 256 →
  (0 ≤ eget (load_regs (g_m g) vix n a) vix i ieew ≤ 252)%Z.
Proof.
  intros [Hw Hvl Hsl Ht Hi Htab Hm] He Ha Hn Hlt Hfit H256.
  destruct map_consts as (ED & EI & EV & ES & EE).
  rewrite Ht in Ha. set (m := g_m g) in *.
  assert (Hin : (ieew, a) ∈ tables (g_vlen g)).
  { by apply lookup_tab_elem. }
  assert (INDEX ≤ a ∧ a + 256 ≤ OUT_V).
  { destruct (vlenb_8 m (wf_vlen _ Hw)). unfold tables in Hin.
    rewrite !elem_of_cons, elem_of_nil in Hin. destruct Hin as [[= _ ->]|[[= _ ->]|[[= _ ->]|[]]]]; lia. }
  destruct (vlenb_8 m (wf_vlen _ Hw)). pose proof (vl_le_vlen m Hw).
  specialize (Htab ieew a i Hin ltac:(lia)).
  unfold eget. rewrite eoff_scaled by done.
  change (vlenb (load_regs m vix n a)) with (vlenb m).
  replace (slice _ _ _) with (slice img (a + i * (ieew / 8)) (a + i * (ieew / 8) + ieew / 8)); [done|].
  apply list_eq; intros j. rewrite !lookup_slice.
  replace (a + i * (ieew / 8) + ieew / 8 - (a + i * (ieew / 8))) with (ieew / 8) by lia.
  replace (vix * vlenb m + i * (ieew / 8) + ieew / 8 - (vix * vlenb m + i * (ieew / 8)))
    with (ieew / 8) by lia.
  case_decide; [|done]. unfold load_regs; cbn [v with_v].
  replace ((vix + n) * vlenb m) with (vix * vlenb m + n * vlenb m) by lia.
  rewrite lookup_slice_set.
  - rewrite decide_True by lia. rewrite lookup_slice, decide_True by lia.
    rewrite <- Hm by lia. f_equal. lia.
  - rewrite length_slice, (wf_mem_len _ Hw). lia.
  - rewrite (wf_v_len _ Hw). nia.
Qed.

Lemma count_bytes m n : wf m → count_ok n → n * vlenb m ≤ 256.
Proof.
  intros Hm Hn. destruct (vlenb_8 m (wf_vlen m Hm)). assert (n ≤ 8); [|nia].
  clear -Hn. unfold count_ok in Hn. vcases; lia.
Qed.

Lemma index_allowed m store vm vd base vix ieew :
  wf m → group_in vd (emul_regs (lmul8 m)) → DATA ≤ base ≤ DATA + 1020 →
  (∀ i, i < vl m → (0 ≤ eget m vix i ieew ≤ 252)%Z) →
  ∃ m', index_exec m store vm vd base vix ieew = Ok m' ∧ allowed m m'.
Proof.
  intros Hm Hg Hb Hix. destruct map_consts as (ED & EI & EV & ES & EE).
  destruct (sew_bytes (sew m) (wf_sew m Hm)) as [_ ?]. destruct store.
  - edestruct (store_loop m DATA INDEX vm (λ m i, base + Z.to_nat (eget m vix i ieew))
      (sew m / 8) (λ m' i, eget m' vd i (sew m)) (seq 0 (vl m)) Hm) as (m' & E & Hs).
    + lia.
    + by intros i ?%elem_of_range.
    + intros m1 i [_ Ev (El & _) _] Hi%elem_of_range. specialize (Hix i Hi).
      replace (eget m1 vix i ieew) with (eget m vix i ieew);
        [|unfold eget, eoff, vlenb; by rewrite Ev, El].
      split; lia.
    + exists m'. split; [exact E|by apply stored_allowed].
  - edestruct (load_loop m vd (sew m) (emul_regs (lmul8 m)) vm
      (λ m' i, mget m' (base + Z.to_nat (eget m' vix i ieew)) (sew m / 8))
      (seq 0 (vl m)) Hm (wf_sew m Hm) Hg) as (m' & E & Ha).
    + apply vl_fits; [done|]. by intros i ?%elem_of_range.
    + by intros i ?%elem_of_range.
    + exists m'. split; [exact E|]. by eapply regs_only_allowed, agree_regs_only.
Qed.

Lemma lookup_tab_ok img k g ieew :
  ginv img k g → sew_ok ieew → ∃ a, lookup_tab (g_idx_tab g) ieew = Ok a ∧ INDEX ≤ a ∧ a + 256 ≤ OUT_V.
Proof.
  intros [Hw Hvl _ Ht _ _ _] He. rewrite Ht. destruct map_consts as (ED & EI & EV & ES & EE).
  destruct (vlenb_8 _ (wf_vlen _ Hw)). unfold tables, lookup_tab.
  destruct He as [-> | [-> | ->]]; simpl; eexists; (split; [reflexivity|]); lia.
Qed.

Lemma memop_index_inv img k g store vm base :
  ginv img k g → DATA ≤ base ≤ DATA + 1020 →
  ∀ g', core g' = core g → runs (memop_index (g_m g) store vm base) g' (λ _, ginv img k).
Proof.
  intros Hg Hb g' Hcore. assert (Hwf := gi_wf _ _ _ Hg). unfold memop_index. step.
  assert (sew_ok a) by (unfold sew_ok; set_solver).
  destruct (emul_ok a _ _) eqn:Hok; cbn [negb]; [|apply runs_ret; by eapply ginv_core].
  assert (Hn := emul_facts _ _ _ H0 (wf_sew _ Hwf) (wf_lmul _ Hwf) Hok).
  destruct (emul_fits _ _ Hwf H0 Hok) as [Hf _].
  step_with ltac:(by apply group_free). destruct H1 as (vix & -> & Hvix & _).
  apply runs_get. destruct (lookup_tab_ok _ _ _ a Hg H0) as (t & Et & Ht).
  assert (Etab : g_idx_tab g'1 = g_idx_tab g) by (unfold core in Hcore; congruence).
  rewrite Etab. eapply runs_lift; [exact Et|].
  step. step. step. subst a1. set (n := emul_regs (emul32 _ _ _ / 4)) in *.
  set (m1 := load_regs (g_m g) vix n t). pose proof (count_bytes _ _ Hwf Hn) as H256.
  destruct map_consts as (ED & EI & EV & ES & EE).
  assert (Hro : regs_only (g_m g) m1) by (apply load_regs_only; [done|done|lia]).
  assert (Hal := regs_only_allowed _ _ Hro).
  apply runs_bind, runs_set_m. assert (Hg5 := ginv_set _ _ _ _ _ Hg Hcore Hal).
  set (g5 := mkGen _ _ m1 _ _ _ _) in *. change m1 with (g_m g5).
  clear Hcore. assert (Hcore : core g5 = core g5) by done.
  step_with ltac:(apply (keeps_group _ _ _ (lmul_count _ Hwf))).
  match goal with H : group_post _ _ _ ?o |- _ => destruct o as [[vd rs]|];
    [destruct H as (_ & Hvd & _)|apply runs_ret; by eapply ginv_core] end.
  step. step.
  eapply runs_exec; [exact Hg5|exact Hcore|].
  destruct Hro as [Hw1 _ (El & Evl & Es & Em)].
  change (g_m g5) with m1. apply index_allowed; [done| |done|].
  - rewrite Em. apply count_group_in; [by apply lmul_count|done].
  - rewrite Evl. intros i Hi. eapply index_table_entry; eauto.
    apply Hf. by apply elem_of_range.
Qed.

Lemma memop_whole_inv img k g store base :
  ginv img k g → DATA ≤ base ≤ DATA + 1020 →
  ∀ g', core g' = core g → runs (memop_whole (g_m g) store base) g' (λ _, ginv img k).
Proof.
  intros Hg Hb g' Hcore. assert (Hwf := gi_wf _ _ _ Hg). unfold memop_whole. step.
  step_with ltac:(by apply keeps_randrange_32). destruct H0 as [H0 _].
  destruct map_consts as (ED & EI & EV & ES & EE). pose proof (count_bytes _ _ Hwf H).
  destruct store; [step|step; step]; (eapply runs_update; [exact Hg|exact Hcore|]).
  - apply stored_allowed, store_regs_stored; [done|done|lia|lia|lia].
  - apply regs_only_allowed, load_regs_only; [done|done|lia].
Qed.

Lemma maskmem_allowed m store vd base :
  wf m → vd < 32 → DATA ≤ base ≤ DATA + 1020 →
  ∃ m', maskmem_exec m store vd base = Ok m' ∧ allowed m m'.
Proof.
  intros Hm Hvd Hb. destruct map_consts as (ED & EI & EV & ES & EE).
  destruct (vlenb_8 m (wf_vlen m Hm)). destruct store.
  - destruct (maskstore_stored m vd base DATA INDEX) as (m' & E & Hs); try lia; [done|].
    eauto using stored_allowed.
  - destruct (maskload_regs_only m vd base) as (m' & E & Hs); try lia; [done|].
    eauto using regs_only_allowed.
Qed.

Lemma memop_inv img k g : ginv img k g → runs memop g (λ _, ginv img k).
Proof.
  intros Hg. start Hg g. step. step. step_true ltac:(destruct a; keeps_solve). step. step.
  assert (DATA ≤ DATA + 4 * a2 ≤ DATA + 1020) by lia.
  destruct a; try (by eapply memop_stride_inv).
  - by eapply memop_index_inv.
  - step. step. eapply runs_exec; [done|done|]. by apply maskmem_allowed.
  - by eapply memop_whole_inv.
Qed.
End handlers.

(** ** __init__ *)

Lemma runs_for `{rng : Rng} {A} (l : list A) (body : A → M unit) (I : list A → Gen → Prop) g :
  I [] g →
  (∀ l1 x g, x ∈ l → I l1 g → runs (body x) g (λ _, I (l1 ++ [x]))) →
  runs (for_ l body) g (λ _, I l).
Proof.
  intros H0 Hb. enough (∀ l0, I l0 g → runs (for_ l body) g (λ _, I (l0 ++ l))) as H
    by exact (H [] H0).
  clear H0. revert g. induction l as [|x l IH]; intros g l0 H0; cbn [for_].
  - apply runs_ret. by rewrite app_nil_r.
  - apply runs_bind. eapply runs_mono; [apply Hb; [set_solver|exact H0]|].
    intros [] g' Hg'. rewrite cons_middle, app_assoc. apply IH; [|done].
    intros. apply Hb; [set_solver|done].
Qed.

(** The state while the initial memory image is being filled. *)
Record ibase (n : nat) (tabs : list (nat * nat)) (g : Gen) : Prop := {
  ib_wf : wf (g_m g);
  ib_vlen : vlen (g_m g) = n;
  ib_gvlen : g_vlen g = n;
  ib_slots : g_slots g = 0;
  ib_tab : g_idx_tab g = tabs
}.

Definition tabs_ok (n : nat) (ts : list (nat * nat)) (img : list Z) : Prop :=
  ∀ eew off i, (eew, off) ∈ ts → i < n →
    (0 ≤ int_from_bytes (slice img (off + i * (eew / 8)) (off + i * (eew / 8) + eew / 8)) ≤ 252)%Z.

Lemma ibase_set n tabs g g' m' :
  ibase n tabs g → core g' = core g → wf m' → vlen m' = vlen (g_m g) →
  ibase n tabs (mkGen (g_vlen g') (g_asm g') m' (g_init g') (g_slots g') (g_idx_tab g') (g_pos g')).
Proof.
  intros [] Hc Hw Hv. unfold core in Hc. injection Hc as E1 E2 E3 E4 E5.
  constructor; simpl; congruence.
Qed.

Lemma with_mem_byte_wf m a b :
  wf m → is_byte b → a < END → index_set (mem m) a b = Ok (<[a:=b]> (mem m)) ∧
  wf (with_mem m (<[a:=b]> (mem m))).
Proof.
  intros [] Hb Ha. unfold index_set. rewrite decide_True by lia. split; [done|].
  constructor; try done; simpl; [by rewrite length_insert|by apply Forall_insert].
Qed.

Section init.
Context `{rng : Rng}.

Lemma init_data_runs n tabs g :
  ibase n tabs g → runs init_data g (λ _, ibase n tabs).
Proof.
  intros Hg. destruct map_consts as (ED & EI & EV & ES & EE).
  apply (runs_for _ _ (λ _, ibase n tabs)); [done|].
  clear g Hg. intros _ a g Ha%elem_of_seq Hg. assert (Hcore : core g = core g) by done. step.
  apply runs_get. assert (g_m g' = g_m g) as -> by (unfold core in Hcore; congruence).
  destruct (with_mem_byte_wf (g_m g) a a0) as [E Hw]; [apply Hg|done|lia|].
  eapply runs_lift; [exact E|]. apply runs_set_m. by eapply ibase_set.
Qed.

Lemma slice_frame (l l' : list Z) a n :
  (∀ j, a ≤ j < a + n → l' !! j = l !! j) → slice l' a (a + n) = slice l a (a + n).
Proof.
  intros H. apply list_eq; intros i. rewrite !lookup_slice. case_decide; [|done]. apply H. lia.
Qed.

Lemma init_table_runs n tabs ts eew off g :
  ibase n tabs g → tabs_ok n ts (mem (g_m g)) → sew_ok eew →
  (∀ e o, (e, o) ∈ ts → sew_ok e ∧ o + n * 4 ≤ off) → off + n * 4 ≤ END →
  runs (init_table eew off) g
    (λ _ g', ibase n tabs g' ∧ tabs_ok n (ts ++ [(eew, off)]) (mem (g_m g'))).
Proof.
  intros Hg Hts He Hdis Hend. destruct (sew_bytes eew He) as [E8 Hb8].
  unfold init_table. apply runs_get. rewrite (ib_gvlen _ _ _ Hg).
  set (I := λ (l : list nat) g', ibase n tabs g' ∧ tabs_ok n ts (mem (g_m g')) ∧
    ∀ i, i ∈ l → (0 ≤ mget (g_m g') (off + i * (eew / 8)) (eew / 8) ≤ 252)%Z).
  eapply runs_mono; [apply (runs_for _ _ I)|].
  - split_and!; [done|done|set_solver].
  - clear g Hg Hts. intros l i g Hi%elem_of_range (Hg & Hts & Hl).
    assert (Hcore : core g = core g) by done. step. apply runs_get.
    assert (g_m g' = g_m g) as -> by (unfold core in Hcore; congruence).
    assert (i * eew / 8 = i * (eew / 8)) as ->.
    { rewrite E8 at 1. rewrite (Nat.mul_comm 8), Nat.mul_assoc. by apply Nat.div_mul. }
    assert (Hlen : off + i * (eew / 8) + eew / 8 ≤ length (mem (g_m g))).
    { rewrite (wf_mem_len _ (ib_wf _ _ _ Hg)). nia. }
    apply runs_set_m. split_and!.
    + eapply ibase_set; [done|done| |done]. apply mset_wf; [apply Hg|].
      rewrite <- (wf_mem_len _ (ib_wf _ _ _ Hg)). done.
    + intros e o j Hin Hj. cbn [g_m]. destruct (Hdis e o Hin) as [He' Ho].
      rewrite slice_frame with (l := mem (g_m g)); [by apply Hts|].
      intros x Hx. rewrite mem_mset by done. destruct (sew_bytes e He').
      rewrite decide_False; [done|]. nia.
    + intros j [Hj|Hj]%elem_of_app; cbn [g_m].
      * destruct (decide (j = i)) as [->|Hne].
        { rewrite mget_mset_same by done. rewrite Z.mod_small; [lia|].
          split; [lia|]. apply Z.lt_le_trans with (2 ^ 8)%Z; [lia|].
          apply Z.pow_le_mono_r; lia. }
        { rewrite mget_mset_disjoint by (done || nia). by apply Hl. }
      * apply list_elem_of_singleton in Hj as ->.
        rewrite mget_mset_same by done. rewrite Z.mod_small; [lia|].
        split; [lia|]. apply Z.lt_le_trans with (2 ^ 8)%Z; [lia|].
        apply Z.pow_le_mono_r; lia.
  - intros _ g' (Hb & Ht & Hl). split; [done|].
    intros e o i [Hin|Hin]%elem_of_app Hi; [by apply Ht|].
    apply list_elem_of_singleton in Hin. injection Hin as -> ->.
    apply Hl. by apply elem_of_range.
Qed.
End init.
End VGenSpec.
