(* ===== verification/VBuild.v ===== *)
(** * The whole generated program: build, main and the bisection of run.py

    The generator returns for every fair random stream, the expected memory
    image it writes is the well-formed final state of the model, nothing
    outside the data area, the register dump and the scalar slots ever
    changes, and a shorter [--count] generates a prefix of the same program,
    which is what the bisection in tools/vtest/run.py relies on. *)
From S2P Require Import Prelude Hex VModel VInstr VSpec VGen VGenSpec.

Module VBuild.
Import VModel VInstr VSpec VGen VGenSpec.
#[local] Opaque DATA INDEX OUT_V OUT_S END.

(** ** __init__ *)
Section init.
Context `{rng : Rng}.

Lemma add_tab_runs n tabs eew off g :
  ibase n tabs g →
  runs (add_tab eew off) g (λ _ g', ibase n (tabs ++ [(eew, off)]) g' ∧ g_m g' = g_m g).
Proof.
  intros [? ? ? ? E]. eexists tt, _; split; [reflexivity|]. split; [|done].
  constructor; simpl; try done. by rewrite E.
Qed.

Lemma init_tables_runs n tabs eews off g :
  ibase n tabs g → tabs_ok n tabs (mem (g_m g)) → Forall sew_ok eews →
  (∀ e o, (e, o) ∈ tabs → sew_ok e ∧ o + n * 4 ≤ off) → off + length eews * (n * 4) ≤ END →
  runs (init_tables off eews) g (λ _ g', ∃ tabs',
    tabs' = tabs ++ imap (λ i e, (e, off + i * (n * 4))) eews ∧
    ibase n tabs' g' ∧ tabs_ok n tabs' (mem (g_m g'))).
Proof.
  intros Hg Ht He. revert off tabs g Hg Ht.
  induction He as [|eew eews Hs _ IH]; intros off tabs g Hg Ht Hd Hend; cbn [init_tables].
  { apply runs_ret. exists tabs. by rewrite app_nil_r. }
  cbn [length] in Hend. apply runs_bind. eapply runs_mono; [by apply add_tab_runs|].
  intros [] g1 [Hg1 Em]. rewrite <- Em in Ht.
  apply runs_bind. eapply runs_mono; [eapply (init_table_runs _ _ tabs); try done; lia|].
  intros [] g2 [Hg2 Ht2]. apply runs_get. rewrite (ib_gvlen _ _ _ Hg2).
  eapply runs_mono; [eapply IH; [exact Hg2|done| |lia]|].
  - intros e o [Hin|Hin]%elem_of_app.
    + destruct (Hd e o Hin). split; [done|lia].
    + apply list_elem_of_singleton in Hin. injection Hin as -> ->. done.
  - intros [] g3 (tabs' & -> & Hg3 & Ht3). eexists; split; [reflexivity|].
    rewrite imap_cons, Nat.mul_0_l, Nat.add_0_r, cons_middle, app_assoc.
    replace (imap ((λ i e, (e, off + i * (n * 4))) ∘ S) eews)
      with (imap (λ i e, (e, off + n * 4 + i * (n * 4))) eews); [done|].
    apply imap_ext. intros i x _. simpl. f_equal. lia.
Qed.

Lemma table_layout n : imap (λ i e, (e, INDEX + i * (n * 4))) [8; 16; 32] = tables n.
Proof.
  unfold tables. rewrite !imap_cons. cbn [imap]. unfold compose.
  rewrite Nat.mul_0_l, Nat.mul_1_l, Nat.add_0_r.
  replace (INDEX + 2 * (n * 4)) with (INDEX + n * 4 + n * 4) by lia. done.
Qed.

(** The state [Gen.__init__] leaves. *)
Lemma Gen_init_ok n :
  vlen_ok n → ∃ g, Gen_init n = Ok g ∧ g_init g = mem (g_m g) ∧ g_slots g = 0 ∧
    g_vlen g = n ∧ ginv (g_init g) 1024 g.
Proof.
  intros Hn.
  assert (n ≤ 256) by (destruct Hn as [-> | [-> | ->]]; lia).
  assert (runs (init_data;; init_tables INDEX [8; 16; 32];; set_init) (Gen_new n)
    (λ _ g, g_init g = mem (g_m g) ∧ ibase n (tables n) g ∧ tabs_ok n (tables n) (mem (g_m g))))
    as (u & g & E & Ei & Hb & Ht).
  { apply runs_bind. eapply runs_mono; [apply init_data_runs; constructor|].
    - by apply Model_init_wf. - done. - done. - done. - done.
    - intros [] g1 Hg1. apply runs_bind.
      eapply runs_mono; [eapply init_tables_runs; [exact Hg1| | | |]|].
      + intros e o i Hin. by apply elem_of_nil in Hin.
      + repeat (apply Forall_cons; split; [unfold sew_ok; lia|]). by apply Forall_nil.
      + intros e o Hin. by apply elem_of_nil in Hin.
      + simpl. map_lia.
      + intros [] g2 (tabs' & -> & Hb & Ht). rewrite app_nil_l, table_layout in *.
        destruct Hb. eexists tt, _. split; [reflexivity|].
        split; [reflexivity|]. split; [by constructor|exact Ht]. }
  exists g. unfold Gen_init. rewrite E. clear E. destruct Hb as [Hw Hv Hgv Hs Htab].
  split_and!; try done.
  constructor; try done; try congruence.
  - map_lia.
  - rewrite Hgv, Ei. exact Ht.
Qed.
End init.

(** ** build *)
Section build.
Context `{rng : Rng}.
Context (Hfair : fair_group) (fuel : nat) (Hfv : fair_vset fuel).

Lemma kinds_inv img k g f :
  f ∈ kinds fuel → ginv img (S k) g → runs f g (λ _, ginv img k).
Proof.
  intros Hf Hg. assert (Hg' := ginv_le _ _ k _ Hg ltac:(lia)).
  unfold kinds in Hf. rewrite !elem_of_cons, elem_of_nil in Hf.
  repeat destruct Hf as [->|Hf]; [..|done];
    eauto using vset_inv, arith_inv, compare_inv, reduce_inv, masklogic_inv, scalars_inv,
      slide_inv, movnr_inv, memop_inv.
Qed.

Lemma loop_inv img k {A} (l : list A) g :
  ginv img (length l + k) g →
  runs (for_ l (λ _, f ← choice (kinds fuel); f)) g (λ _, ginv img k).
Proof.
  revert g; induction l as [|x l IH]; intros g Hg; cbn [for_]; [by apply runs_ret|].
  change (length (x :: l) + k) with (S (length l + k)) in Hg.
  apply runs_bind, runs_bind. eapply runs_mono; [by apply keeps_choice|].
  intros f g1 [Hc Hf]. eapply runs_mono; [apply kinds_inv; [done|by eapply ginv_core]|].
  intros [] g2 Hg2. by apply IH.
Qed.

Lemma body_inv img k n g :
  ginv img (S n + k) g → runs (body fuel n) g (λ _, ginv img k).
Proof.
  intros Hg. unfold body. apply runs_bind.
  eapply runs_mono; [apply vset_inv; [done|exact Hg]|]. intros [] g1 Hg1.
  apply loop_inv. by rewrite length_seq.
Qed.

Lemma for_keeps {A} (l : list A) body :
  (∀ x, keeps (body x) (λ _, True)) → keeps (for_ l body) (λ _, True).
Proof.
  intros Hb. induction l as [|x l IH]; cbn [for_]; [by apply keeps_ret|].
  eapply keeps_bind; [apply Hb|]. by intros.
Qed.

Lemma keeps_add_asm ls : keeps (add_asm ls) (λ _, True).
Proof. intros g. by eexists tt, _. Qed.

Lemma prologue_inv img k g : ginv img k g → runs prologue g (λ _, ginv img k).
Proof.
  intros Hg. assert (Hcore : core g = core g) by done. unfold prologue. apply runs_get.
  step_with ltac:(apply keeps_add_asm).
  step_with ltac:(apply for_keeps; intros; eapply keeps_bind; [|intros]; keeps_solve).
  eapply runs_update; [done|done|]. assert (Hwf := gi_wf _ _ _ Hg).
  apply regs_only_allowed. constructor; [|done|done].
  destruct (vlenb_8 _ (wf_vlen _ Hwf)). destruct Hwf as [? ? ? Hml ? ? ? ?].
  constructor; try done; cbn [v with_v]; [|auto with py].
  change (vlenb (with_v _ _)) with (vlenb (g_m g)). rewrite length_slice, Hml. map_lia.
Qed.

(** The dump of the register file at the end of the program. *)
Lemma epilogue_runs img g :
  ginv img 0 g →
  runs epilogue g (λ _ g', wf (g_m g') ∧ 4 * g_slots g' ≤ END - OUT_S ∧ g_init g' = img ∧
    slice (mem (g_m g')) OUT_V (OUT_V + length (v (g_m g'))) = v (g_m g') ∧
    ∀ j, ¬ (DATA ≤ j < INDEX) → ¬ (OUT_V ≤ j < OUT_V + length (v (g_m g'))) →
      ¬ (OUT_S ≤ j < OUT_S + 4 * g_slots g') → mem (g_m g') !! j = img !! j).
Proof.
  intros Hg. assert (Hcore : core g = core g) by done. unfold epilogue. apply runs_get.
  step_with ltac:(apply for_keeps; intros; eapply keeps_bind; [|intros]; keeps_solve).
  apply runs_bind, runs_set_m. eexists tt, _. split; [reflexivity|].
  destruct Hg as [Hw Hv Hsl Ht Hi _ Hm]. unfold core in Hcore. injection Hcore as E1 E2 E3 E4 E5.
  cbn [g_m g_slots g_init mem v with_mem]. rewrite E3, E4.
  destruct (vlenb_8 _ (wf_vlen _ Hw)). assert (El := wf_v_len _ Hw).
  assert (OUT_V + length (v (g_m g)) ≤ length (mem (g_m g)))
    by (rewrite (wf_mem_len _ Hw); map_lia).
  rewrite <- El. split_and!.
  - destruct Hw. constructor; try done; cbn [mem with_mem].
    + by rewrite length_slice_set.
    + auto with py.
  - lia.
  - done.
  - by apply slice_slice_set_same.
  - intros j Hj1 Hj2 Hj3. rewrite lookup_slice_set by done. rewrite decide_False by done.
    by apply Hm.
Qed.
End build.

Lemma words_at_nonneg img a n : Forall is_byte img → Forall (λ w, (0 ≤ w)%Z) (words_at img a n).
Proof.
  intros Hi. apply Forall_forall. intros w Hw. unfold words_at in Hw.
  apply list_elem_of_In, in_map_iff in Hw as (k & <- & _).
  apply int_from_bytes_bound. auto with py.
Qed.

(** C4.  vgen.py as a whole, for every fair random stream, VLEN 64, 128 or 256
    and at most 1023 instructions: it returns (no exception, every loop ends);
    the final model is well formed; expect.hex reads back as the words of the
    final memory from DATA to END; the register dump area holds the final
    register file; and outside the data area, the dump and the scalar slots,
    memory is the initial image, so no generated store ever leaves the data
    area or damages an index table. *)
Theorem vgen_main_correct `{rng : Rng} fuel vlen count :
  fair_group → fair_vset fuel → vlen_ok vlen → count ≤ 1023 →
  ∃ g0 text g, Gen_init vlen = Ok g0 ∧ build fuel count g0 = Ok (text, g) ∧
    vgen_main fuel vlen count = Ok (text, expect_hex (g_m g)) ∧
    wf (g_m g) ∧ 4 * g_slots g ≤ END - OUT_S ∧
    Hex.readmemh (expect_hex (g_m g)) = Some (words_at (mem (g_m g)) DATA ((END - DATA) / 4)) ∧
    slice (mem (g_m g)) OUT_V (OUT_V + length (v (g_m g))) = v (g_m g) ∧
    (∀ j, ¬ (DATA ≤ j < INDEX) → ¬ (OUT_V ≤ j < OUT_V + length (v (g_m g))) →
       ¬ (OUT_S ≤ j < OUT_S + 4 * g_slots g) → mem (g_m g) !! j = g_init g0 !! j).
Proof.
  intros Hf Hfv Hv Hc. destruct (Gen_init_ok vlen Hv) as (g0 & E0 & _ & _ & _ & Hg0).
  assert (runs (build fuel count) g0 (λ _ g, wf (g_m g) ∧ 4 * g_slots g ≤ END - OUT_S ∧
      g_init g = g_init g0 ∧
      slice (mem (g_m g)) OUT_V (OUT_V + length (v (g_m g))) = v (g_m g) ∧
      ∀ j, ¬ (DATA ≤ j < INDEX) → ¬ (OUT_V ≤ j < OUT_V + length (v (g_m g))) →
        ¬ (OUT_S ≤ j < OUT_S + 4 * g_slots g) → mem (g_m g) !! j = g_init g0 !! j))
    as (text & g & E & Hw & Hs & Hi & Hd & Hm).
  { unfold build. apply runs_bind.
    eapply runs_mono; [by apply prologue_inv|]. intros [] g1 Hg1.
    apply runs_bind. eapply runs_mono; [apply (body_inv Hf fuel Hfv (g_init g0) 0)|].
    { eapply ginv_le; [exact Hg1|]. lia. }
    intros [] g2 Hg2. apply runs_bind. eapply runs_mono; [by apply epilogue_runs|].
    intros [] g3 Hg3. apply runs_get, runs_get, runs_ret. exact Hg3. }
  exists g0, text, g. split; [exact E0|]. split; [exact E|]. split.
  { unfold vgen_main. rewrite E0. cbn [res_bind]. by rewrite E. }
  split; [exact Hw|]. split; [exact Hs|]. split; [|split; [exact Hd|exact Hm]].
  apply Hex.readmemh_lines, words_at_nonneg, Hw.
Qed.

Lemma constant_stream_fair : @fair_group (λ _, 3%Z) ∧ @fair_vset (λ _, 3%Z) 1.
Proof.
  split; intros p; exists 0; (split; [lia|]); [discriminate|reflexivity].
Qed.

Lemma vgen_main_correct_witness :
  ∃ text g, @vgen_main (λ _, 3%Z) 1 64 5 = Ok (text, expect_hex (g_m g)) ∧ wf (g_m g).
Proof.
  destruct constant_stream_fair as [H1 H2].
  destruct (@vgen_main_correct (λ _, 3%Z) 1 64 5 H1 H2 ltac:(left; reflexivity) ltac:(lia))
    as (g0 & text & g & _ & _ & E & Hw & _).
  exists text, g. exact (conj E Hw).
Defined.

(** ** A shorter count generates a prefix *)

(** The assembly only ever grows. *)
Definition grows {A} (c : M A) : Prop :=
  ∀ g a g', c g = Ok (a, g') → g_asm g `prefix_of` g_asm g'.

Lemma M_bind_ok {A B} (c : M A) (f : A → M B) g b g' :
  (c ≫= f) g = Ok (b, g') ↔ ∃ a g1, c g = Ok (a, g1) ∧ f a g1 = Ok (b, g').
Proof.
  unfold mbind, M_bind. rewrite res_bind_ok. split.
  - intros ([a g1] & ? & ?). eauto.
  - intros (a & g1 & ? & ?). by exists (a, g1).
Qed.

Lemma grows_bind {A B} (c : M A) (f : A → M B) :
  grows c → (∀ a, grows (f a)) → grows (c ≫= f).
Proof.
  intros Hc Hf g b g'' H. unfold mbind, M_bind in H. res_inv.
  etrans; [by eapply Hc|]. by eapply Hf.
Qed.
Lemma grows_ret {A} (a : A) : grows (mret a).
Proof. intros g b g' H. by injection H as _ ->. Qed.
Lemma grows_get {A} (f : Gen → A) : grows (get f).
Proof. intros g b g' H. by injection H as _ ->. Qed.
Lemma grows_raise {A} e : grows (raise (A := A) e).
Proof. by intros g b g' H. Qed.
Lemma grows_lift {A} (r : res A) : grows (lift r).
Proof. intros g b g' H. unfold lift in H. by res_inv. Qed.
Lemma grows_set_m m : grows (set_m m).
Proof. intros g b g' H. by injection H as _ <-. Qed.
Lemma grows_emit s : grows (emit s).
Proof. intros g b g' H. injection H as _ <-. by apply prefix_app_r. Qed.
Lemma grows_add_asm ls : grows (add_asm ls).
Proof. intros g b g' H. injection H as _ <-. by apply prefix_app_r. Qed.
Lemma grows_incr : grows incr_slots.
Proof. intros g b g' H. by injection H as _ <-. Qed.

Create HintDb grows discriminated.
#[local] Hint Resolve grows_ret grows_get grows_raise grows_lift grows_set_m grows_emit
  grows_add_asm grows_incr : grows.
#[local] Hint Extern 0 (grows (_ ≫= _)) => apply grows_bind; [|intros] : grows.
Ltac grow :=
  repeat first
  [ solve [auto 2 with grows nocore] | apply grows_bind; [|intros]
  | progress case_match ].

Section grows.
Context `{rng : Rng}.

Lemma grows_next : grows next.
Proof. intros g b g' H. by injection H as _ <-. Qed.
#[local] Hint Resolve grows_next : grows.
Lemma grows_randrange n : grows (randrange n).
Proof. unfold randrange. grow. Qed.
#[local] Hint Resolve grows_randrange : grows.
Lemma grows_choice {A} (l : list A) : grows (choice l).
Proof. unfold choice, randnat. grow. Qed.
Lemma grows_save r x : grows (save_scalar r x).
Proof. unfold save_scalar. grow. Qed.
Lemma grows_group_loop t n av b : grows (group_loop t n av b).
Proof.
  induction t as [|t IH]; cbn [group_loop]; [grow|].
  unfold randrange_32, randnat. grow; done.
Qed.
Lemma grows_group e av b : grows (group e av b).
Proof. apply grows_group_loop. Qed.
Lemma grows_vset_draw n : grows (vset_draw n).
Proof.
  induction n as [|n IH]; cbn [vset_draw]; [grow|].
  pose proof @grows_choice as Hc. grow; done.
Qed.
#[local] Hint Resolve grows_choice grows_save grows_group grows_vset_draw : grows.

Lemma grows_kinds fuel f : f ∈ kinds fuel → grows f.
Proof.
  intros Hf. unfold kinds in Hf. rewrite !elem_of_cons, elem_of_nil in Hf.
  repeat destruct Hf as [->|Hf]; [..|done];
    unfold vset, arith, compare, reduce, masklogic, scalars, slide, movnr, memop, memop_stride,
      memop_index, memop_whole, li, reg_of, randnat, randrange_32, randrange_ab, random_lt; grow.
Qed.

Lemma grows_for {A} (l : list A) body : (∀ x, grows (body x)) → grows (for_ l body).
Proof.
  intros Hb. induction l as [|x l IH]; cbn [for_]; [apply grows_ret|].
  apply grows_bind; [apply Hb|]. by intros _.
Qed.

Lemma for_app {A} (l1 l2 : list A) body g :
  for_ (l1 ++ l2) body g = res_bind (for_ l1 body g) (λ r, for_ l2 body r.2).
Proof.
  revert g; induction l1 as [|x l1 IH]; intros g; [done|]. cbn [app for_].
  unfold mbind, M_bind. destruct (body x g) as [[[] g']|]; [apply IH|done].
Qed.

Lemma for_shift {A B} (l1 : list A) (l2 : list B) (c : M unit) :
  length l1 = length l2 → for_ l1 (λ _, c) = for_ l2 (λ _, c).
Proof.
  revert l2; induction l1 as [|x l1 IH]; intros [|y l2]; [done..|].
  intros [= E]. cbn [for_]. by rewrite (IH l2).
Qed.

Lemma random_instr_grows fuel : grows (f ← choice (kinds fuel); f).
Proof.
  intros g a g' H. unfold mbind, M_bind in H. apply res_bind_ok in H as ([f g1] & H1 & H2).
  etrans; [by eapply grows_choice|]. eapply grows_kinds; [|exact H2].
  destruct (keeps_choice (kinds fuel) ltac:(done) g) as (f' & g1' & E & _ & Hf).
  rewrite H1 in E. by injection E as -> ->.
Qed.
End grows.

(** C33.  A longer run extends a shorter one: generating [n1 + n2] random
    instructions from a state passes through exactly the state that generating
    [n1] ends in, and its assembly begins with the same lines.  This is the
    fact run.py --bisect states in a comment and depends on. *)
Theorem count_prefix `{rng : Rng} fuel n1 n2 g0 g2 :
  (prologue;; body fuel (n1 + n2)) g0 = Ok (tt, g2) →
  ∃ g1, (prologue;; body fuel n1) g0 = Ok (tt, g1) ∧
    for_ (seq 0 n2) (λ _, f ← choice (kinds fuel); f) g1 = Ok (tt, g2) ∧
    g_asm g1 `prefix_of` g_asm g2.
Proof.
  intros ([] & ga & Ea & H)%M_bind_ok. unfold body in H.
  apply M_bind_ok in H as ([] & gb & Eb & H).
  rewrite seq_app, for_app in H. apply res_bind_ok in H as ([[] g1] & E1 & H).
  exists g1. rewrite (for_shift _ (seq 0 n2)) in H by by rewrite !length_seq. split.
  { apply M_bind_ok. exists tt, ga. split; [exact Ea|]. unfold body.
    apply M_bind_ok. exists tt, gb. split; [exact Eb|exact E1]. }
  split; [exact H|]. eapply grows_for; [|exact H]. intros x. apply random_instr_grows.
Qed.

Section constant_stream.
Let three : Rng := λ _, 3%Z.
Existing Instance three.

Lemma const_run g :
  ginv (g_init g) 4 g → ∃ g2, (prologue;; body 1 2) g = Ok (tt, g2).
Proof.
  intros Hg. destruct constant_stream_fair as [H1 H2].
  assert (runs (prologue;; body 1 2) g (λ _ _, True)) as ([] & g2 & E & _); [|eauto].
  apply runs_bind. eapply runs_mono; [by apply prologue_inv|]. intros [] g1 Hg1.
  eapply runs_mono; [apply (body_inv H1 1 H2 (g_init g) 1)|done]. done.
Qed.
End constant_stream.

Lemma count_prefix_witness :
  let three : Rng := λ _, 3%Z in
  ∃ g0 g1 g2, (prologue;; body 1 1) g0 = Ok (tt, g1) ∧
    for_ (seq 0 1) (λ _, f ← choice (kinds 1); f) g1 = Ok (tt, g2) ∧
    g_asm g1 `prefix_of` g_asm g2.
Proof.
  intros three.
  destruct (@Gen_init_ok three 64 ltac:(left; reflexivity)) as (g0 & E0 & E1 & E2 & E3 & Hg).
  destruct (const_run g0) as (g2 & E); [eapply ginv_le; [exact Hg|lia]|].
  destruct (@count_prefix three 1 1 1 g0 g2 E) as (g1 & H).
  exists g0, g1, g2. exact H.
Defined.

End VBuild.
