(* ===== verification/VRun.v ===== *)
(** * tools/vtest/run.py: the differential test runner

    The simulator, the assembler and the shell are not part of the program:
    what [one] learns from them is the text the simulation printed and the two
    memory dumps, which are arguments here.  The bisection calls [one] as an
    oracle. *)
From S2P Require Import Prelude Hex PyStr VModel.

Module VRun.
Import Hex PyStr VModel.

(** ** region (run.py) *)
Definition region (a vlenb : nat) : string :=
  if Nat.ltb a OUT_V then "data+0x" +:+ fmt_x 1 (Z.of_nat (a - DATA))
  else if Nat.ltb a OUT_S then
    "v" +:+ pretty ((a - OUT_V) / vlenb) +:+ " byte " +:+ pretty ((a - OUT_V) mod vlenb)
  else "scalar #" +:+ pretty ((a - OUT_S) / 4).

(** ** The comparison of [one] (run.py) *)

(** [[(DATA + 4*i, g, e) for i, (g, e) in enumerate(zip(got, exp)) if g != e]],
    from index [i]; [base] is DATA. *)
Fixpoint mismatches (base i : nat) (got exp : list string) : list (nat * string * string) :=
  match got, exp with
  | g :: got, e :: exp =>
      if String.eqb g e then mismatches base (S i) got exp
      else (base + 4 * i, g, e) :: mismatches base (S i) got exp
  | _, _ => []
  end.

Definition mismatch_line (vlen : nat) (x : nat * string * string) : string :=
  let '(a, g, e) := x in
  "  0x" +:+ fmt_x 4 (Z.of_nat a) +:+ " " +:+ ljust 18 (region a (vlen / 8)) +:+
  " got " +:+ g +:+ " want " +:+ e.

(** The verdict of one seed: [out] is what the simulation printed, [got] and
    [exp] the text of the two dumps. *)
Definition one (vlen : nat) (out got exp : string) : bool * string :=
  if negb (contains "halted" out) then (false, strip out) else
  let bad := mismatches DATA 0 (split_ws got) (split_ws exp) in
  match bad with
  | [] => (true, List.last (split_char nl (strip out)) "")
  | _ =>
      (false, join (String nl "")
        ((pretty (length bad) +:+ " mismatching words") ::
         map (mismatch_line vlen) (take 8 bad)))
  end.

(** ** The bisection (run.py) *)

(** [passes k] is the verdict of [one] at --count [k]. *)
Fixpoint bisect (fuel : nat) (passes : nat → bool) (lo hi : nat) : res nat :=
  if Nat.ltb lo hi then
    match fuel with
    | O => Err OutOfFuel
    | S fuel =>
        let mid := (lo + hi) / 2 in
        if passes mid then bisect fuel passes (mid + 1) hi else bisect fuel passes lo mid
    end
  else Ok lo.

(** ** Properties *)

Lemma mismatches_spec base i got exp a g e :
  (a, g, e) ∈ mismatches base i got exp ↔
  ∃ k, a = base + 4 * (i + k) ∧ got !! k = Some g ∧ exp !! k = Some e ∧ g ≠ e.
Proof.
  revert i exp; induction got as [|g' got IH]; intros i [|e' exp]; cbn [mismatches].
  1-3: rewrite elem_of_nil; split; [done|]; by intros ([] & ? & ? & ? & ?).
  assert (Hstep : (∃ k, a = base + 4 * (i + k) ∧ (g' :: got) !! k = Some g ∧
      (e' :: exp) !! k = Some e ∧ g ≠ e) ↔
    (a = base + 4 * i ∧ g' = g ∧ e' = e ∧ g ≠ e) ∨
    ∃ k, a = base + 4 * (S i + k) ∧ got !! k = Some g ∧ exp !! k = Some e ∧ g ≠ e).
  { split.
    - intros ([|k] & Ha & Hg & He & Hn).
      + left. simpl in *. rewrite Nat.add_0_r in Ha. split_and!; congruence.
      + right. exists k. simpl in *. split_and!; try done. rewrite Ha. f_equal; lia.
    - intros [(Ha & -> & -> & Hn)|(k & Ha & Hg & He & Hn)].
      + exists 0. rewrite Nat.add_0_r. done.
      + exists (S k). split_and!; try done. rewrite Ha. f_equal; lia. }
  rewrite Hstep, <- IH. destruct (String.eqb_spec g' e') as [->|Hne].
  - split; [by right|]. intros [(_ & <- & <- & ?)|?]; done.
  - rewrite elem_of_cons. split.
    + intros [[= -> -> ->]|?]; auto.
    + intros [(-> & -> & -> & _)|?]; auto.
Qed.

(** The verdict of a seed: it passes exactly when the simulation says it
    halted and the two dumps agree at every index both of them have.  (A dump
    that stops early is accepted as far as it goes.) *)
Theorem one_passes vlen out got exp :
  (one vlen out got exp).1 = true ↔
  contains "halted" out = true ∧
  ∀ k g e, split_ws got !! k = Some g → split_ws exp !! k = Some e → g = e.
Proof.
  unfold one. destruct (contains "halted" out); cbn [negb]; [|naive_solver].
  destruct (mismatches DATA 0 _ _) as [|[[a g] e] bad] eqn:Eb; cbn [fst]; split; try done.
  - intros _. split; [done|]. intros k g e Hg He.
    destruct (String.eqb_spec g e) as [|Hne]; [done|].
    assert ((DATA + 4 * (0 + k), g, e) ∈ mismatches DATA 0 (split_ws got) (split_ws exp)) as Hin.
    { apply mismatches_spec. by exists k. }
    rewrite Eb in Hin. by apply elem_of_nil in Hin.
  - intros [_ H]. assert ((a, g, e) ∈ mismatches DATA 0 (split_ws got) (split_ws exp)) as Hin
      by (rewrite Eb; left).
    apply mismatches_spec in Hin as (k & _ & Hg & He & Hne). by destruct Hne; eapply H.
Qed.

Lemma bisect_spec fuel passes lo hi :
  lo ≤ hi → hi - lo ≤ fuel →
  ∃ k, bisect fuel passes lo hi = Ok k ∧ lo ≤ k ≤ hi ∧
    (k < hi → passes k = false) ∧ (lo < k → passes (k - 1) = true).
Proof.
  revert lo hi; induction fuel as [|fuel IH]; intros lo hi Hle Hf.
  - exists lo. cbn [bisect]. destruct (Nat.ltb_spec lo hi); [lia|]. split_and!; try done; intros; lia.
  - cbn [bisect]. destruct (Nat.ltb_spec lo hi).
    + set (mid := (lo + hi) / 2).
      assert (lo ≤ mid < hi).
      { unfold mid. split; [apply Nat.div_le_lower_bound; lia|apply Nat.Div0.div_lt_upper_bound; lia]. }
      destruct (passes mid) eqn:Em.
      * destruct (IH (mid + 1) hi) as (k & E & ? & ? & Hk); [lia|lia|].
        exists k. split_and!; try lia; [done|done|]. intros.
        destruct (decide (k = mid + 1)) as [->|]; [by replace (mid + 1 - 1) with mid by lia|].
        apply Hk. lia.
      * destruct (IH lo mid) as (k & E & ? & Hk & ?); [lia|lia|].
        exists k. split_and!; try lia; [done| |done]. intros.
        destruct (decide (k = mid)) as [->|]; [done|]. apply Hk. lia.
    + exists lo. split_and!; try done; intros; lia.
Qed.

(** --bisect on a program of [count] instructions ends after at most
    [count] simulations, and when a failing prefix keeps failing as it grows
    and the whole program fails, the count it names is the shortest failing
    one. *)
Theorem bisect_finds_first_failure passes count :
  (∀ k, passes k = false → passes (S k) = false) → passes count = false →
  ∃ k, bisect count passes 0 count = Ok k ∧ passes k = false ∧
    ∀ j, j < k → passes j = true.
Proof.
  intros Hmono Hfail. destruct (bisect_spec count passes 0 count) as (k & E & Hk & Hf & Hp); [lia|lia|].
  exists k. split; [done|]. assert (passes k = false) as Hkf.
  { destruct (decide (k = count)) as [->|]; [done|]. apply Hf. lia. }
  split; [done|]. intros j Hj. destruct (passes j) eqn:Ej; [done|exfalso].
  assert (∀ d, passes (j + d) = false) as Hall.
  { induction d as [|d IH]; [by rewrite Nat.add_0_r|]. rewrite Nat.add_succ_r. by apply Hmono. }
  specialize (Hall (k - 1 - j)). replace (j + (k - 1 - j)) with (k - 1) in Hall by lia.
  rewrite Hp in Hall by lia. done.
Qed.

Lemma bisect_finds_first_failure_witness :
  ∃ k, bisect 60 (λ k, Nat.ltb k 37) 0 60 = Ok k ∧ Nat.ltb k 37 = false ∧
    ∀ j, j < k → Nat.ltb j 37 = true.
Proof.
  apply (bisect_finds_first_failure (λ k, Nat.ltb k 37)); [|reflexivity].
  intros k. rewrite !Nat.ltb_ge. lia.
Defined.

End VRun.
