(* ===== verification/VMain.v ===== *)
(** * tools/vtest/run.py: running the tests

    The programs [one] starts (vgen.py, the assembler, bin2hex.py and the
    simulator) are a parameter, a computation over the files that gives what
    was printed.  The thread pool runs the seeds, each in a directory of its
    own; here they run one after the other, in the order their results are
    taken. *)
From S2P Require Import Prelude Hex PyStr VModel VRun.

Module VMain.
Import Hex PyStr VModel VRun.

Notation fs := (gmap string string).

Section run.
Context (REPO executable : string) (sh : list string → ST fs string).

Definition path (a b : string) : string := a +:+ "/" +:+ b.
Definition BUILD : string := path (path REPO "build") "vtest".
Definition vtest : string := path (path REPO "tools") "vtest".
Definition read (p : string) : ST fs string := λ F,
  match F !! p with Some x => Ok (x, F) | None => Err (FileNotFoundError p) end.
Definition write (p x : string) : ST fs unit := λ F, Ok (tt, <[p := x]> F).

(** The directory of a seed. *)
Definition seed_dir (vlen : nat) (seed : Z) : string :=
  path BUILD ("v" +:+ pretty vlen +:+ "_s" +:+ pretty seed).

Definition vgen_cmd (seed count : Z) (vlen : nat) (d : string) : list string :=
  [executable; path vtest "vgen.py"; "--seed"; pretty seed; "--count"; pretty count; "--vlen"; pretty vlen; "--out"; d].
Definition gcc_cmd (d : string) : list string :=
  ["riscv64-unknown-elf-gcc"; "-march=rv32ima_zicsr_zve32x"; "-mabi=ilp32"; "-nostdlib"; "-nostartfiles";
   "-T"; path vtest "link.ld"; path d "prog.S"; "-o"; path d "prog.elf"].
Definition objcopy_cmd (d : string) : list string :=
  ["riscv64-unknown-elf-objcopy"; "-O"; "binary"; path d "prog.elf"; path d "prog.bin"].
Definition hex_cmd (d : string) : list string := [executable; path (path REPO "sw") "bin2hex.py"; path d "prog.bin"].
Definition vvp_cmd (vvp d : string) : list string :=
  ["vvp"; "-n"; vvp; "+ROM=" +:+ path d "prog.hex"; "+DUMP=" +:+ path d "got.hex"].

(** [one]: the verdict on a seed and its message. *)
Definition run_one (seed count : Z) (vvp : string) (vlen : nat) : ST fs (bool * string) :=
  let d := seed_dir vlen seed in
  sh (vgen_cmd seed count vlen d);;
  sh (gcc_cmd d);;
  sh (objcopy_cmd d);;
  hex ← sh (hex_cmd d);
  write (path d "prog.hex") hex;;
  out ← sh (vvp_cmd vvp d);
  if negb (contains "halted" out) then mret (false, strip out)
  else
    got ← read (path d "got.hex");
    exp ← read (path d "expect.hex");
    mret (one vlen out got exp).

(** The arguments of the command line. *)
Record Args := mkArgs { a_seeds : string; a_count : Z; a_vlen : nat; a_cached : bool; a_bisect : option Z }.

(** [a.seeds.partition("-")] *)
Fixpoint partition_dash (s : string) : string * string :=
  match s with
  | EmptyString => ("", "")
  | String c s => if Ascii.eqb c "-" then ("", s) else let '(a, b) := partition_dash s in (String c a, b)
  end.
Definition seed_range (s : string) : res (list Z) :=
  let '(lo, hi) := partition_dash s in
  let* l := int10 lo in
  let* h := int10 (if String.eqb hi "" then lo else hi) in
  Ok (seqZ l (h + 1 - l)).

Definition RTL : list string :=
  ["alu"; "regfile"; "immgen"; "control"; "csr_s"; "branch_predictor"; "timer"; "uart_tx"; "uart_hw"; "tlb"; "ptw";
   "zb_unit"; "vec_unit"; "cpu_pipe_u"; "soc_pipe_u"].
Definition rtl_of (cached : bool) : list string :=
  take 14 RTL ++ if cached then ["mem_slow"; "icache"; "dcache"; "mem_bridge"; "soc_pipe_c"] else ["soc_pipe_u"].
Definition iverilog_cmd (vvp : string) (vlen : nat) (cached : bool) : list string :=
  ["iverilog"; "-g2012"; "-Pvec_diff_tb.VLEN=" +:+ pretty vlen; "-o"; vvp]
  ++ (if cached then ["-DCACHED"] else [])
  ++ map (λ f, path (path REPO "rtl") (f +:+ ".v")) (rtl_of cached) ++ [path (path REPO "tb") "vec_diff_tb.v"].

(** The bisection of [main], which runs the tests. *)
Fixpoint bisect_run (fuel : nat) (seed : Z) (vvp : string) (vlen : nat) (lo hi : Z) : ST fs Z :=
  if (lo <? hi)%Z then
    match fuel with
    | O => st_raise OutOfFuel
    | S fuel =>
        let mid := ((lo + hi) / 2)%Z in
        r ← run_one seed mid vvp vlen;
        if (r.1 : bool) then bisect_run fuel seed vvp vlen (mid + 1) hi else bisect_run fuel seed vvp vlen lo mid
    end
  else mret lo.

Fixpoint run_seeds (seeds : list Z) (count : Z) (vvp : string) (vlen : nat) : ST fs (list (Z * (bool * string))) :=
  match seeds with
  | [] => mret []
  | s :: seeds =>
      r ← run_one s count vvp vlen;
      l ← run_seeds seeds count vvp vlen;
      mret ((s, r) :: l)
  end.
Definition failed (l : list (Z * (bool * string))) : list (Z * (bool * string)) := List.filter (λ x, negb x.2.1) l.

(** [main]: the lines printed and the exit code. *)
Definition main (fuel : nat) (a : Args) : ST fs (list string * Z) :=
  seeds ← st_lift (seed_range (a_seeds a));
  let vvp := path BUILD ("vec_diff_tb_" +:+ pretty (a_vlen a) +:+ (if a_cached a then "c" else "") +:+ ".vvp") in
  sh (iverilog_cmd vvp (a_vlen a) (a_cached a));;
  match a_bisect a with
  | Some seed =>
      lo ← bisect_run fuel seed vvp (a_vlen a) 0 (a_count a);
      r ← run_one seed lo vvp (a_vlen a);
      mret (["seed " +:+ pretty seed +:+ " first fails with --count " +:+ pretty lo; r.2;
             "program: " +:+ path (seed_dir (a_vlen a) seed) "prog.S"], 0%Z)
  | None =>
      l ← run_seeds seeds (a_count a) vvp (a_vlen a);
      let bad := failed l in
      mret (flat_map (λ x, ["seed " +:+ pretty x.1 +:+ ": FAIL"; x.2.2]) bad
            ++ ["VTEST: " +:+ pretty (length seeds - length bad) +:+ "/" +:+ pretty (length seeds)
                +:+ " seeds pass (" +:+ pretty (a_count a) +:+ " instructions each, VLEN=" +:+ pretty (a_vlen a)
                +:+ (if a_cached a then ", caches + slow memory" else "") +:+ ")"],
            if decide (bad = []) then 0%Z else 1%Z)
  end.

(** ** Verdicts that depend on the seed and the count alone *)

Section verdicts.
(** In the states of [P] a test has the verdict [passes], and leaves such a
    state. *)
Context (P : fs → Prop) (vvp : string) (vlen : nat) (passes : Z → Z → bool).
Context (Hone : ∀ s k F, P F → st_runs (run_one s k vvp vlen) F (λ r F', r.1 = passes s k ∧ P F')).

Lemma run_seeds_verdicts count seeds F : P F →
  st_runs (run_seeds seeds count vvp vlen) F (λ l F', P F' ∧ map fst l = seeds ∧
    map (λ x, x.1) (failed l) = List.filter (λ s, negb (passes s count)) seeds).
Proof using Hone.
  revert F; induction seeds as [|s seeds IH]; intros F HF; [by apply st_runs_ret|]. cbn [run_seeds].
  apply st_runs_bind. eapply st_runs_mono; [by apply Hone|]. intros r F1 [Hr H1].
  apply st_runs_bind. eapply st_runs_mono; [by apply IH|]. intros l F2 (H2 & <- & Hf).
  apply st_runs_ret. split; [done|]. split; [done|]. unfold failed in *. cbn. rewrite Hr. destruct (passes s count); cbn; [done|by f_equal].
Qed.

(** The bisection ends and, when a failing prefix keeps failing as it grows,
    names the shortest one. *)
Lemma bisect_run_spec seed fuel : ∀ lo hi F, P F → (lo ≤ hi)%Z → (hi - lo ≤ Z.of_nat fuel)%Z →
  st_runs (bisect_run fuel seed vvp vlen lo hi) F (λ k F', P F' ∧ (lo ≤ k ≤ hi)%Z ∧
    ((k < hi)%Z → passes seed k = false) ∧ ((lo < k)%Z → passes seed (k - 1) = true)).
Proof using Hone.
  induction fuel as [|fuel IH]; intros lo hi F HF Hle Hf; cbn [bisect_run].
  { destruct (Z.ltb_spec lo hi); [lia|]. apply st_runs_ret. split; [done|]. split; [lia|]. split; lia. }
  destruct (Z.ltb_spec lo hi) as [Hlt|]; [|apply st_runs_ret; split; [done|]; split; [lia|]; split; lia].
  set (mid := ((lo + hi) / 2)%Z). assert (lo ≤ mid < hi)%Z.
  { unfold mid. split; [apply Z.div_le_lower_bound; lia|apply Z.div_lt_upper_bound; lia]. }
  apply st_runs_bind. eapply st_runs_mono; [by apply Hone|]. intros r F1 [Hr H1]. rewrite Hr.
  destruct (passes seed mid) eqn:Em.
  - eapply st_runs_mono; [apply (IH (mid + 1)%Z hi F1 H1); lia|]. intros k F2 (? & ? & ? & Hk). split; [done|].
    split; [lia|]. split; [done|]. intros. destruct (decide (k = mid + 1)%Z) as [->|]; [by replace (mid + 1 - 1)%Z with mid by lia|].
    apply Hk. lia.
  - eapply st_runs_mono; [apply (IH lo mid F1 H1); lia|]. intros k F2 (? & ? & Hk & ?). split; [done|].
    split; [lia|]. split; [|done]. intros. destruct (decide (k = mid)) as [->|]; [done|]. apply Hk. lia.
Qed.

(** Without --bisect: which seeds are reported, and the exit code. *)
Lemma main_reports fuel a seeds F : P F → a_bisect a = None → a_vlen a = vlen → seed_range (a_seeds a) = Ok seeds →
  vvp = path BUILD ("vec_diff_tb_" +:+ pretty (a_vlen a) +:+ (if a_cached a then "c" else "") +:+ ".vvp") →
  st_runs (sh (iverilog_cmd vvp (a_vlen a) (a_cached a))) F (λ _, P) →
  st_runs (main fuel a) F (λ r F', P F' ∧ (r.2 = 0%Z ↔ ∀ s, s ∈ seeds → passes s (a_count a) = true)).
Proof using Hone.
  intros HF Hb Hl Hs Hv Hi. unfold main. rewrite Hb. apply st_runs_bind. eapply st_runs_lift; [exact Hs|]. cbv zeta.
  rewrite <- Hv. apply st_runs_bind. eapply st_runs_mono; [exact Hi|]. intros ? F1 H1. rewrite Hl. apply st_runs_bind.
  eapply st_runs_mono; [by apply run_seeds_verdicts|]. intros l F2 (H2 & _ & Hf). apply st_runs_ret. split; [done|].
  cbn [snd]. destruct (decide (failed l = [])) as [E|E].
  - split; [|done]. intros _ s Hin. rewrite E in Hf. destruct (passes s (a_count a)) eqn:Ep; [done|exfalso].
    apply (not_elem_of_nil s). change [] with (map (λ x : Z * (bool * string), x.1) []). rewrite Hf.
    apply list_elem_of_In, filter_In. split; [by apply list_elem_of_In|by rewrite Ep].
  - split; [done|]. intros Hall. destruct E. destruct (failed l) as [|x l'] eqn:E; [done|exfalso].
    assert (x.1 ∈ List.filter (λ s, negb (passes s (a_count a))) seeds) as Hx by (rewrite <- Hf; left).
    apply list_elem_of_In, filter_In in Hx as [Hx Hn]. rewrite Hall in Hn; [done|by apply list_elem_of_In].
Qed.

(** With --bisect: the shortest failing prefix. *)
Lemma bisect_first fuel a seed seeds F :
  vvp = path BUILD ("vec_diff_tb_" +:+ pretty (a_vlen a) +:+ (if a_cached a then "c" else "") +:+ ".vvp") →
  a_vlen a = vlen → P F → a_bisect a = Some seed → seed_range (a_seeds a) = Ok seeds →
  st_runs (sh (iverilog_cmd vvp (a_vlen a) (a_cached a))) F (λ _, P) →
  (0 ≤ a_count a ≤ Z.of_nat fuel)%Z → passes seed (a_count a) = false →
  (∀ k, (0 ≤ k)%Z → passes seed k = false → passes seed (k + 1)%Z = false) →
  st_runs (main fuel a) F (λ r F', P F' ∧ ∃ k m p,
    r.1 = ["seed " +:+ pretty seed +:+ " first fails with --count " +:+ pretty k; m; p] ∧
    passes seed k = false ∧ ∀ j, (0 ≤ j < k)%Z → passes seed j = true).
Proof using Hone.
  intros Hv Hl HF Hb Hs Hi Hc Hfail Hmono. unfold main. rewrite Hb. apply st_runs_bind. eapply st_runs_lift; [exact Hs|].
  cbv zeta. rewrite <- Hv. apply st_runs_bind. eapply st_runs_mono; [exact Hi|]. intros ? F1 H1. rewrite Hl. apply st_runs_bind.
  eapply st_runs_mono; [apply (bisect_run_spec seed fuel 0 (a_count a) F1 H1); lia|].
  intros k F2 (H2 & Hk & Hkf & Hkp). apply st_runs_bind. eapply st_runs_mono; [by apply Hone|]. intros r F3 [_ H3].
  apply st_runs_ret. split; [done|]. exists k. eexists _, _. split; [reflexivity|].
  assert (passes seed k = false) as Hkk.
  { destruct (decide (k = a_count a)) as [->|]; [done|]. apply Hkf. lia. }
  split; [done|]. intros j Hj. destruct (passes seed j) eqn:Ej; [done|exfalso].
  assert (∀ n : nat, passes seed (j + Z.of_nat n)%Z = false) as Hall.
  { induction n as [|n IH]; [by rewrite Z.add_0_r|]. rewrite Nat2Z.inj_succ, <- Z.add_1_r, Z.add_assoc. apply Hmono; [lia|done]. }
  specialize (Hall (Z.to_nat (k - 1 - j))). replace (j + Z.of_nat (Z.to_nat (k - 1 - j)))%Z with (k - 1)%Z in Hall by lia.
  rewrite Hkp in Hall by lia. done.
Qed.
End verdicts.

(** ** The bisection ends *)

Section ends.
(** The programs that are started end. *)
Context (Hsh : ∀ cmd, InTime (sh cmd)).

Lemma in_time_read p : InTime (read p).
Proof using. intros F. unfold read. by destruct (F !! p). Qed.
Lemma in_time_write p x : InTime (write p x).
Proof using. by intros F. Qed.
#[local] Existing Instances in_time_read in_time_write.

#[local] Instance in_time_one seed count vvp vlen : InTime (run_one seed count vvp vlen).
Proof using Hsh. unfold run_one. cbv zeta. apply _. Qed.

(** However the tests turn out, and when one of them raises. *)
Lemma in_time_bisect seed vvp vlen fuel : ∀ lo hi,
  (hi - lo ≤ Z.of_nat fuel)%Z → InTime (bisect_run fuel seed vvp vlen lo hi).
Proof using Hsh.
  induction fuel as [|fuel IH]; intros lo hi Hf; cbn [bisect_run]; destruct (Z.ltb_spec lo hi); try apply _; [lia|].
  assert (lo ≤ (lo + hi) / 2 < hi)%Z by (split; [apply Z.div_le_lower_bound|apply Z.div_lt_upper_bound]; lia).
  cbv zeta. apply in_time_bind; [apply _|]. intros r. apply in_time_if; apply IH; lia.
Qed.

Lemma in_time_main fuel a : (a_count a ≤ Z.of_nat fuel)%Z → is_Some (a_bisect a) → InTime (main fuel a).
Proof using Hsh.
  intros Hc [seed Hb]. unfold main. rewrite Hb. apply in_time_bind.
  { apply in_time_lift. unfold seed_range. destruct (partition_dash _) as [lo hi]. intros H.
    apply res_bind_err in H as [H|(l & _ & H)]; [by apply int10_in_time in H|].
    apply res_bind_err in H as [H|(h & _ & H)]; [by apply int10_in_time in H|done]. }
  intros seeds. cbv zeta. apply in_time_bind; [apply _|]. intros _.
  apply in_time_bind; [apply in_time_bisect; lia|]. intros lo. apply _.
Qed.
End ends.

(** The counts the bisection can end with. *)
Lemma bisect_run_range seed vvp vlen fuel : ∀ lo hi F k F',
  bisect_run fuel seed vvp vlen lo hi F = Ok (k, F') → (lo ≤ k ≤ Z.max lo hi)%Z.
Proof.
  induction fuel as [|fuel IH]; intros lo hi F k F'; cbn [bisect_run]; destruct (Z.ltb_spec lo hi);
    try by intros [= <- <-]; lia.
  assert (lo ≤ (lo + hi) / 2 < hi)%Z by (split; [apply Z.div_le_lower_bound|apply Z.div_lt_upper_bound]; lia).
  intros (r & F1 & _ & H')%st_bind_ok. destruct r.1; apply IH in H'; lia.
Qed.

(** C40.  run.py --bisect ends, however the tests turn out and when a program
    it starts fails, provided that those programs end; a report names a count
    between 0 and the one given.  When the verdicts depend on the seed and the
    count alone, the whole program fails and a failing prefix keeps failing as
    it grows, there is a report, and the count it names is the shortest
    failing one: every smaller one passes. *)
Theorem bisect_names_first_failure fuel a seed F :
  (∀ cmd F, sh cmd F ≠ Err OutOfFuel) → a_bisect a = Some seed → (0 ≤ a_count a ≤ Z.of_nat fuel)%Z →
  main fuel a F ≠ Err OutOfFuel ∧
  (∀ r F', main fuel a F = Ok (r, F') → r.2 = 0%Z ∧ ∃ k m p, (0 ≤ k ≤ a_count a)%Z ∧
     r.1 = ["seed " +:+ pretty seed +:+ " first fails with --count " +:+ pretty k; m; p]) ∧
  ∀ (P : fs → Prop) (passes : Z → Z → bool) seeds,
    let vvp := path BUILD ("vec_diff_tb_" +:+ pretty (a_vlen a) +:+ (if a_cached a then "c" else "") +:+ ".vvp") in
    (∀ s k F, P F → st_runs (run_one s k vvp (a_vlen a)) F (λ r F', r.1 = passes s k ∧ P F')) →
    P F → seed_range (a_seeds a) = Ok seeds →
    st_runs (sh (iverilog_cmd vvp (a_vlen a) (a_cached a))) F (λ _, P) →
    passes seed (a_count a) = false →
    (∀ k, (0 ≤ k)%Z → passes seed k = false → passes seed (k + 1)%Z = false) →
    st_runs (main fuel a) F (λ r F', P F' ∧ ∃ k m p,
      r.1 = ["seed " +:+ pretty seed +:+ " first fails with --count " +:+ pretty k; m; p] ∧
      passes seed k = false ∧ ∀ j, (0 ≤ j < k)%Z → passes seed j = true).
Proof.
  intros Hsh Hb Hc. split; [|split].
  - assert (InTime (main fuel a)) as H.
    { apply in_time_main; [|lia|by eexists]. intros cmd F1. destruct (sh cmd F1) as [|e] eqn:E; [done|].
      intros ->. by apply (Hsh cmd F1). }
    specialize (H F). destruct (main fuel a F); congruence.
  - intros r F'. unfold main. rewrite Hb. intros (seeds & F1 & _ & H)%st_bind_ok. cbv zeta in H.
    apply st_bind_ok in H as (? & F2 & _ & H). apply st_bind_ok in H as (k & F3 & Hk & H).
    apply st_bind_ok in H as (v & F4 & _ & [= <- <-]). split; [done|]. apply bisect_run_range in Hk.
    exists k, (v.2). eexists. split; [lia|reflexivity].
  - intros P passes seeds vvp Hone HF Hs Hi Hfail Hmono. by apply (bisect_first P vvp (a_vlen a) passes Hone fuel a seed seeds F).
Qed.
End run.

(** A test that fails from the 37th instruction on. *)
Definition demo_sh (cmd : list string) : ST fs string := λ F,
  match cmd with
  | [_; String "/" _; "--seed"; _; _; c; _; _; _; d] =>
      Ok ("", <[path d "got.hex" := match int10 c with Ok k => if (k <? 37)%Z then "1" else "0" | Err _ => "" end]>
              (<[path d "expect.hex" := "1"]> F))
  | _ => Ok ("halted", F)
  end.

Lemma demo_verdict s k vvp vlen F : st_runs (run_one "/r" "python3" demo_sh s k vvp vlen) F (λ r F', r.1 = (k <? 37)%Z ∧ True).
Proof.
  unfold run_one. set (d := seed_dir _ _ _). cbv zeta.
  apply st_runs_bind. eexists _, _. split; [reflexivity|]. rewrite int10_pretty.
  do 2 (apply st_runs_bind; eexists _, _; split; [reflexivity|]).
  apply st_runs_bind. eexists _, _. split; [reflexivity|]. apply st_runs_bind. eexists _, _. split; [reflexivity|].
  apply st_runs_bind. eexists _, _. split; [reflexivity|]. change (contains "halted" "halted") with true. cbn [negb].
  assert (∀ a b, a ≠ b → path d a ≠ path d b) as Hne.
  { intros a b Hab E. apply Hab. unfold path in E. by do 2 apply (inj (String.append _)) in E. }
  unfold read. apply st_runs_bind. eexists _, _. rewrite lookup_insert_ne, lookup_insert_eq by by apply Hne. split; [reflexivity|].
  apply st_runs_bind. eexists _, _. rewrite lookup_insert_ne, lookup_insert_ne, lookup_insert_eq by by apply Hne.
  split; [reflexivity|]. apply st_runs_ret. split; [|done]. by destruct (k <? 37)%Z.
Qed.

Lemma bisect_names_first_failure_witness :
  let a := mkArgs "0-49" 60 128 false (Some 7%Z) in
  st_runs (main "/r" "python3" demo_sh 60 a) ∅ (λ r _, True ∧ ∃ k m p,
    r.1 = ["seed " +:+ pretty 7%Z +:+ " first fails with --count " +:+ pretty k; m; p] ∧
    (k <? 37)%Z = false ∧ ∀ j, (0 ≤ j < k)%Z → (j <? 37)%Z = true).
Proof.
  intros a.
  assert (∀ cmd F, demo_sh cmd F ≠ Err OutOfFuel) as Hsh.
  { intros cmd F H. unfold demo_sh in H. repeat case_match; discriminate H. }
  destruct (bisect_names_first_failure "/r" "python3" demo_sh 60 a 7 ∅ Hsh eq_refl ltac:(cbn; lia)) as (_ & _ & H).
  apply (H (λ _, True) (λ _ k, (k <? 37)%Z) (seqZ 0 50)).
  - intros s k F _. apply demo_verdict.
  - exact I.
  - vm_compute. reflexivity.
  - by eexists _, _.
  - reflexivity.
  - intros k Hk. rewrite !Z.ltb_ge. lia.
Defined.
End VMain.
