(* ===== verification/Gdb.v ===== *)
(** * sw/gdbstub.py: the GDB remote-serial-protocol server

    [Dmi] is the transport interface of the stub (w32, r32).  [MockDMI] is the
    in-process model of the debug module; [SerialDMI] frames the accesses over
    a serial port, itself an interface ([Port]) because pyserial and the board
    are outside the program.  [GdbStub] turns packets into accesses; [serve]
    finds the packets in the byte stream. *)
From S2P Require Import Prelude Hex PyStr.

Module Gdb.
Import Hex PyStr.
Local Open Scope Z_scope.

Definition CONTROL : Z := 0x00.
Definition STATUS : Z := 0x04.
Definition REGSEL : Z := 0x08.
Definition REGDATA : Z := 0x0C.
Definition DPC : Z := 0x10.
Definition MEMADDR : Z := 0x14.
Definition MEMDATA : Z := 0x18.
Definition BPSEL : Z := 0x1C.
Definition BPSET : Z := 0x20.
Definition BPCLR : Z := 0x24.
Definition NBP : Z := 4.

(** ** Transports *)

Class Dmi (D : Type) := {
  w32 : Z → Z → ST D unit;
  r32 : Z → ST D Z
}.

(** A serial port: [write(bytes)] and [read(n)]. *)
Class Port (P : Type) := {
  port_write : list Z → ST P unit;
  port_read : nat → ST P (list Z)
}.

(** *** SerialDMI (gdbstub.py) *)

Definition serial_w32 `{Port P} (a v : Z) : ST P unit :=
  ab ← st_lift (to_bytes a 4);
  vb ← st_lift (to_bytes (Z.land v 0xffffffff) 4);
  port_write ([87] ++ ab ++ vb).

Definition serial_r32 `{Port P} (a : Z) : ST P Z :=
  ab ← st_lift (to_bytes a 4);
  port_write ([82] ++ ab);;
  bs ← port_read 4;
  mret (int_from_bytes bs).

#[global] Instance SerialDMI `{Port P} : Dmi P :=
  {| w32 := serial_w32; r32 := serial_r32 |}.

(** *** MockDMI (gdbstub.py) *)

Record Mock := mkMock {
  regs : list Z;
  pc : Z;
  mem : gmap Z Z;
  halted : bool;
  regsel : Z;
  memaddr : Z;
  bpsel : Z;
  bp : list (option Z)
}.

Definition Mock_init : Mock :=
  mkMock (<[15%nat:=42]> (replicate 32 0)) 0x100 ∅ true 0 0 0 (replicate 4 None).

Definition with_pc (d : Mock) (p : Z) (h : bool) : Mock :=
  mkMock (regs d) p (mem d) h (regsel d) (memaddr d) (bpsel d) (bp d).

(** [self.pc in [b for b in self.bp if b is not None]] *)
Definition at_bp (d : Mock) (p : Z) : bool :=
  existsb (λ b, match b with Some x => Z.eqb x p | None => false end) (bp d).

(** [n] more turns of the loop of [_run]. *)
Fixpoint run_loop (n : nat) (step : bool) (d : Mock) : Mock :=
  match n with
  | O => with_pc d (pc d) true
  | S n =>
      let p := Z.land (pc d + 4) 0xffffffff in
      if at_bp d p then with_pc d p true
      else if step then with_pc d p true
      else run_loop n step (with_pc d p (halted d))
  end.

Definition mock_run (step : bool) (d : Mock) : Mock :=
  run_loop (Z.to_nat 100000) step (with_pc d (pc d) false).

Definition mock_w32 (a v : Z) : ST Mock unit := λ d,
  let v := Z.land v 0xffffffff in
  if a =? CONTROL then
    let d := if Z.testbit v 0 then with_pc d (pc d) true else d in
    let d := if Z.testbit v 1 then mock_run false d else d in
    let d := if Z.testbit v 2 then mock_run true d else d in
    Ok (tt, d)
  else if a =? REGSEL then
    Ok (tt, mkMock (regs d) (pc d) (mem d) (halted d) (Z.land v 31) (memaddr d) (bpsel d) (bp d))
  else if a =? REGDATA then
    let* rs := index_set (regs d) (Z.to_nat (regsel d)) v in
    Ok (tt, mkMock rs (pc d) (mem d) (halted d) (regsel d) (memaddr d) (bpsel d) (bp d))
  else if a =? DPC then
    Ok (tt, mkMock (regs d) v (mem d) (halted d) (regsel d) (memaddr d) (bpsel d) (bp d))
  else if a =? MEMADDR then
    Ok (tt, mkMock (regs d) (pc d) (mem d) (halted d) (regsel d) v (bpsel d) (bp d))
  else if a =? MEMDATA then
    Ok (tt, mkMock (regs d) (pc d) (<[Z.land (memaddr d) (Z.lnot 3) := v]> (mem d)) (halted d)
              (regsel d) (memaddr d) (bpsel d) (bp d))
  else if a =? BPSEL then
    Ok (tt, mkMock (regs d) (pc d) (mem d) (halted d) (regsel d) (memaddr d) (v mod NBP) (bp d))
  else if a =? BPSET then
    let* b := index_set (bp d) (Z.to_nat (bpsel d)) (Some v) in
    Ok (tt, mkMock (regs d) (pc d) (mem d) (halted d) (regsel d) (memaddr d) (bpsel d) b)
  else if a =? BPCLR then
    let* b := index_set (bp d) (Z.to_nat (bpsel d)) None in
    Ok (tt, mkMock (regs d) (pc d) (mem d) (halted d) (regsel d) (memaddr d) (bpsel d) b)
  else Ok (tt, d).

Definition mock_r32 (a : Z) : ST Mock Z := λ d,
  let* x :=
    if a =? STATUS then Ok (if halted d then 1 else 0)
    else if a =? REGDATA then index (regs d) (Z.to_nat (regsel d))
    else if a =? DPC then Ok (pc d)
    else if a =? MEMDATA then Ok (default 0 (mem d !! Z.land (memaddr d) (Z.lnot 3)))
    else Ok 0 in
  Ok (x, d).

#[global] Instance MockDMI : Dmi Mock := {| w32 := mock_w32; r32 := mock_r32 |}.

(** ** GdbStub (gdbstub.py) *)

Record Stub (D : Type) := mkStub { dmi : D; bp_slots : gmap Z Z }.
Arguments mkStub {D} _ _.
Arguments dmi {D} _.
Arguments bp_slots {D} _.

Section stub.
Context {D : Type} `{Dmi D}.

Definition on_dmi {A} (c : ST D A) : ST (Stub D) A := λ s,
  let* r := c (dmi s) in Ok (r.1, mkStub r.2 (bp_slots s)).

Definition halt : ST (Stub D) unit := on_dmi (w32 CONTROL 1).
Definition cont : ST (Stub D) unit := on_dmi (w32 CONTROL 2).
Definition step : ST (Stub D) unit := on_dmi (w32 CONTROL 4).
Definition is_halted : ST (Stub D) Z :=
  v ← on_dmi (r32 STATUS); mret (Z.land v 1).

Definition rd_reg (i : Z) : ST (Stub D) Z :=
  if i =? 32 then on_dmi (r32 DPC) else on_dmi (w32 REGSEL i);; on_dmi (r32 REGDATA).

Definition wr_reg (i v : Z) : ST (Stub D) unit :=
  if i =? 32 then on_dmi (w32 DPC v) else on_dmi (w32 REGSEL i);; on_dmi (w32 REGDATA v).

Definition rd_word (a : Z) : ST (Stub D) Z :=
  on_dmi (w32 MEMADDR (Z.land a (Z.lnot 3)));; on_dmi (r32 MEMDATA).

Definition wr_word (a v : Z) : ST (Stub D) unit :=
  on_dmi (w32 MEMADDR (Z.land a (Z.lnot 3)));; on_dmi (w32 MEMDATA v).

(** [range(length)]: empty for a negative length. *)
Fixpoint rd_mem_go (addr : Z) (n : nat) : ST (Stub D) (list Z) :=
  match n with
  | O => mret []
  | S n =>
      w ← rd_word addr;
      bs ← rd_mem_go (addr + 1) n;
      mret (Z.land (Z.shiftr w (8 * Z.land addr 3)) 0xff :: bs)
  end.
Definition rd_mem (addr length : Z) : ST (Stub D) (list Z) := rd_mem_go addr (Z.to_nat length).

Fixpoint wr_mem (addr : Z) (data : list Z) : ST (Stub D) unit :=
  match data with
  | [] => mret tt
  | b :: data =>
      w ← rd_word addr;
      let sh := 8 * Z.land addr 3 in
      wr_word addr (Z.lor (Z.land w (Z.lnot (Z.shiftl 0xff sh))) (Z.shiftl b sh));;
      wr_mem (addr + 1) data
  end.

Definition put_slot (addr idx : Z) : ST (Stub D) unit := λ s,
  Ok (tt, mkStub (dmi s) (<[addr := idx]> (bp_slots s))).
Definition del_slot (addr : Z) : ST (Stub D) unit := λ s,
  Ok (tt, mkStub (dmi s) (delete addr (bp_slots s))).

Definition set_bp (addr : Z) : ST (Stub D) unit :=
  slots ← st_get bp_slots;
  let idx := Z.of_nat (size slots) mod NBP in
  put_slot addr idx;;
  on_dmi (w32 BPSEL idx);;
  on_dmi (w32 BPSET addr).

Definition clr_bp (addr : Z) : ST (Stub D) unit :=
  slots ← st_get bp_slots;
  match slots !! addr with
  | Some idx =>
      on_dmi (w32 BPSEL idx);;
      on_dmi (w32 BPCLR 0);;
      del_slot addr
  | None => mret tt
  end.

(** ** Packets (gdbstub.py) *)

Definition hexreg (v : Z) : string :=
  foldr (λ i s, fmt_x 2 (Z.land (Z.shiftr v (8 * Z.of_nat i)) 0xff) +:+ s) "" [0; 1; 2; 3]%nat.

Definition unpack2 (l : list string) : res (string * string) :=
  match l with [a; b] => Ok (a, b) | _ => Err ValueError end.
Definition unpack3 (l : list string) : res (string * string * string) :=
  match l with [a; b; c] => Ok (a, b, c) | _ => Err ValueError end.

Fixpoint rd_all (l : list nat) : ST (Stub D) string :=
  match l with
  | [] => mret ""
  | i :: l => v ← rd_reg (Z.of_nat i); s ← rd_all l; mret (hexreg v +:+ s)
  end.

Definition handle_G (data : string) : ST (Stub D) string :=
  st_for (seq 0 33) (λ i,
    bs ← st_lift (fromhex (substr data (i * 8) (i * 8 + 8)));
    wr_reg (Z.of_nat i) (int_from_bytes bs));;
  mret "OK".

Definition handle_p (rest : string) : ST (Stub D) string :=
  i ← st_lift (int16 rest); v ← rd_reg i; mret (hexreg v).

Definition handle_P (rest : string) : ST (Stub D) string :=
  rv ← st_lift (unpack2 (split_char "="%char rest));
  i ← st_lift (int16 rv.1);
  bs ← st_lift (fromhex rv.2);
  wr_reg i (int_from_bytes bs);;
  mret "OK".

Definition handle_m (rest : string) : ST (Stub D) string :=
  al ← st_lift (unpack2 (split_char ","%char rest));
  a ← st_lift (int16 al.1);
  l ← st_lift (int16 al.2);
  bs ← rd_mem a l;
  mret (bytes_hex bs).

Definition handle_M (rest : string) : ST (Stub D) string :=
  hd ← st_lift (unpack2 (split_char ":"%char rest));
  al ← st_lift (unpack2 (split_char ","%char hd.1));
  a ← st_lift (int16 al.1);
  bs ← st_lift (fromhex hd.2);
  wr_mem a bs;;
  mret "OK".

Definition handle_Z (set : bool) (rest : string) : ST (Stub D) string :=
  t ← st_lift (unpack3 (split_char ","%char rest));
  if String.eqb t.1.1 "0" || String.eqb t.1.1 "1" then
    a ← st_lift (int16 t.1.2);
    (if set then set_bp a else clr_bp a);;
    mret "OK"
  else mret "".

Definition handle (pkt : string) : ST (Stub D) string :=
  if startswith pkt "qSupported" then mret "PacketSize=1000;hwbreak+"
  else if String.eqb pkt "qAttached" then mret "1"
  else if String.eqb pkt "qC" || String.eqb pkt "qfThreadInfo"
       || String.eqb pkt "qsThreadInfo" || String.eqb pkt "qTStatus" then
    mret (if String.eqb pkt "qfThreadInfo" then "m0" else "")
  else
  match pkt with
  | EmptyString => mret ""
  | String c rest =>
      if Ascii.eqb c "?"%char then halt;; mret "S05"
      else if Ascii.eqb c "g"%char then rd_all (seq 0 33)
      else if Ascii.eqb c "G"%char then handle_G rest
      else if Ascii.eqb c "p"%char then handle_p rest
      else if Ascii.eqb c "P"%char then handle_P rest
      else if Ascii.eqb c "m"%char then handle_m rest
      else if Ascii.eqb c "M"%char then handle_M rest
      else if Ascii.eqb c "c"%char then cont;; mret "S05"
      else if Ascii.eqb c "s"%char then step;; mret "S05"
      else if Ascii.eqb c "Z"%char then handle_Z true rest
      else if Ascii.eqb c "z"%char then handle_Z false rest
      else mret ""
  end.

(** ** Framing and the receive loop (gdbstub.py) *)

(** [s.encode()]: UTF-8 of the code points below 256. *)
Definition utf8 (s : string) : list Z :=
  flat_map (λ b, if b <? 128 then [b] else [192 + b / 64; 128 + b mod 64]) (str_bytes s).

Definition checksum (s : string) : Z := Z.land (foldr Z.add 0 (utf8 s)) 0xff.
Definition frame (body : string) : string :=
  "$" +:+ body +:+ "#" +:+ fmt_x 2 (checksum body).

(** One turn of the inner loop: what is sent, and the rest of the buffer.
    [None] is the loop's exit. *)
Definition serve_step (buf : string) : ST (Stub D) (option (string * string)) :=
  match index_of "#"%char buf with
  | None => mret None
  | Some k =>
      if Nat.ltb (k + 2) (String.length buf) then
        match buf with
        | String "003" rest => halt;; mret (Some ("+" +:+ frame "S05", rest))
        | _ =>
            match index_of "$"%char buf with
            | None => st_raise ValueError
            | Some i =>
                match index_of "#"%char (sdrop i buf) with
                | None => st_raise ValueError
                | Some d =>
                    let j := (i + d)%nat in
                    r ← handle (substr buf (i + 1) j);
                    mret (Some ("+" +:+ frame r, sdrop (j + 3) buf))
                end
            end
        end
      else mret None
  end.

(** The inner loop; every turn consumes at least one character. *)
Fixpoint serve_loop (fuel : nat) (buf : string) : ST (Stub D) (string * string) :=
  r ← serve_step buf;
  match r with
  | None => mret ("", buf)
  | Some (out, buf') =>
      match fuel with
      | O => st_raise OutOfFuel
      | S fuel =>
          o ← serve_loop fuel buf';
          mret (out +:+ o.1, o.2)
      end
  end.

(** The connection: received chunks in order, what was sent for each. *)
Fixpoint serve (buf : string) (chunks : list string) : ST (Stub D) (list string) :=
  match chunks with
  | [] => mret []
  | c :: chunks =>
      if String.eqb c "" then mret [] else
      o ← serve_loop (String.length (buf +:+ c)) (buf +:+ c);
      os ← serve o.2 chunks;
      mret (o.1 :: os)
  end.
End stub.

End Gdb.
