(* ===== verification/GdbSpec.v ===== *)
(** * Correctness of the GDB stub

    [DmiTarget] states what the stub needs of a transport: the debug module's
    register and memory accesses behave like a register file and a word
    memory.  The stub's theorems are proved against it; [MockDMI] and a
    [SerialDMI] on a bridge to any such target are instances. *)
From S2P Require Import Prelude Hex PyStr Gdb.

Module GdbSpec.
Import Hex PyStr Gdb.
Local Open Scope Z_scope.

(** ** The interface *)

Class DmiTarget (D : Type) `{Dmi D} := {
  dmi_ok : D → Prop;
  treg : D → Z → Z;
  tpc : D → Z;
  tword : D → Z → Z;
  treg_range d i : dmi_ok d → 0 ≤ i < 32 → 0 ≤ treg d i < 2 ^ 32;
  tword_range d a : dmi_ok d → 0 ≤ tword d a < 2 ^ 32;
  law_rd_reg d i : dmi_ok d → 0 ≤ i < 32 →
    ∃ d1 d2, w32 REGSEL i d = Ok (tt, d1) ∧ r32 REGDATA d1 = Ok (treg d i, d2) ∧
      dmi_ok d2 ∧ treg d2 = treg d ∧ tpc d2 = tpc d ∧ tword d2 = tword d;
  law_wr_reg d i v : dmi_ok d → 1 ≤ i < 32 →
    ∃ d1 d2, w32 REGSEL i d = Ok (tt, d1) ∧ w32 REGDATA v d1 = Ok (tt, d2) ∧
      dmi_ok d2 ∧ treg d2 i = v mod 2 ^ 32 ∧
      (∀ j, 0 ≤ j < 32 → j ≠ i → treg d2 j = treg d j) ∧ tpc d2 = tpc d ∧ tword d2 = tword d;
  law_rd_word d a : dmi_ok d → 0 ≤ a < 2 ^ 32 → a mod 4 = 0 →
    ∃ d1 d2, w32 MEMADDR a d = Ok (tt, d1) ∧ r32 MEMDATA d1 = Ok (tword d a, d2) ∧
      dmi_ok d2 ∧ treg d2 = treg d ∧ tpc d2 = tpc d ∧ tword d2 = tword d;
  law_wr_word d a v : dmi_ok d → 0 ≤ a < 2 ^ 32 → a mod 4 = 0 →
    ∃ d1 d2, w32 MEMADDR a d = Ok (tt, d1) ∧ w32 MEMDATA v d1 = Ok (tt, d2) ∧
      dmi_ok d2 ∧ treg d2 = treg d ∧ tpc d2 = tpc d ∧
      (∀ b, tword d2 b = if decide (b = a) then v mod 2 ^ 32 else tword d b)
}.

(** ** MockDMI is such a target *)

Lemma land_mask32 v : Z.land v 0xffffffff = v mod 2 ^ 32.
Proof. change 0xffffffff with (Z.ones 32). by rewrite Z.land_ones. Qed.

Lemma land_lnot3 a : Z.land a (Z.lnot 3) = 4 * (a / 4).
Proof.
  change 3 with (Z.ones 2). rewrite <- Z.ldiff_land, Z.ldiff_ones_r by lia.
  rewrite Z.shiftl_mul_pow2, Z.shiftr_div_pow2 by lia. change (2 ^ 2) with 4. lia.
Qed.

Lemma aligned_lnot3 a : a mod 4 = 0 → Z.land a (Z.lnot 3) = a.
Proof. intros. rewrite land_lnot3. pose proof (Z.div_mod a 4). lia. Qed.

Record mock_ok (d : Mock) : Prop := {
  mo_len : length (regs d) = 32%nat;
  mo_regs : Forall (λ v, 0 ≤ v < 2 ^ 32) (regs d);
  mo_mem : map_Forall (λ _ v, 0 ≤ v < 2 ^ 32) (mem d);
  mo_bp : length (bp d) = 4%nat
}.

Definition mock_reg (d : Mock) (i : Z) : Z := default 0 (regs d !! Z.to_nat i).
Definition mock_word (d : Mock) (a : Z) : Z := default 0 (mem d !! a).

Lemma mod32 v : 0 ≤ v mod 2 ^ 32 < 2 ^ 32.
Proof. apply Z.mod_pos_bound. lia. Qed.

Lemma land31 i : 0 ≤ i < 32 → Z.land (i mod 2 ^ 32) 31 = i.
Proof.
  intros. rewrite Z.mod_small by lia. change 31 with (Z.ones 5).
  rewrite Z.land_ones by lia. apply Z.mod_small. lia.
Qed.

Lemma mock_ok_word d k v :
  map_Forall (λ (_ : Z) w, 0 ≤ w < 2 ^ 32) (mem d) →
  map_Forall (λ (_ : Z) w, 0 ≤ w < 2 ^ 32) (<[k := v mod 2 ^ 32]> (mem d)).
Proof. intros. apply map_Forall_insert_2; [apply mod32|done]. Qed.

#[global] Instance MockTarget : DmiTarget Mock.
Proof.
  refine {| dmi_ok := mock_ok; treg := mock_reg; tpc := pc; tword := mock_word |}.
  - intros d i [Hl Hr _ _] Hi. unfold mock_reg.
    destruct (lookup_lt_is_Some_2 (regs d) (Z.to_nat i)) as [x Hx]; [lia|]. rewrite Hx.
    by eapply (Forall_lookup_1 _ _ _ _ Hr).
  - intros d a [_ _ Hm _]. unfold mock_word. destruct (mem d !! a) as [x|] eqn:E; simpl; [|lia].
    by apply (Hm a x).
  - intros d i [Hl Hr Hm Hb] Hi. eexists _, _. split; [reflexivity|].
    cbn -[Z.land]. rewrite land_mask32, land31 by done. cbn [r32 MockDMI]. unfold mock_r32; cbn.
    destruct (lookup_lt_is_Some_2 (regs d) (Z.to_nat i)) as [x Hx]; [lia|].
    unfold index, mock_reg. rewrite Hx. cbn. split; [reflexivity|].
    split_and!; [by constructor|done|done|done].
  - intros d i v [Hl Hr Hm Hb] Hi. eexists _, _. split; [reflexivity|].
    cbn -[Z.land]. rewrite land_mask32, land31 by lia. unfold index_set.
    rewrite decide_True by lia. cbn -[Z.land Z.pow]. rewrite land_mask32. split; [reflexivity|].
    split_and!; [|unfold mock_reg; cbn -[Z.pow] ..|done|done].
    + constructor; cbn -[Z.pow]; [by rewrite length_insert| |done|done].
      apply Forall_insert; [done|apply mod32].
    + by rewrite list_lookup_insert_eq by lia.
    + intros j Hj Hne. by rewrite list_lookup_insert_ne by lia.
  - intros d a [Hl Hr Hm Hb] Ha Hal. eexists _, _. split; [reflexivity|].
    cbn -[Z.land Z.lnot]. rewrite land_mask32, (Z.mod_small a), aligned_lnot3 by done.
    split; [reflexivity|]. split_and!; [by constructor|done|done|done].
  - intros d a v [Hl Hr Hm Hb] Ha Hal. eexists _, _. split; [reflexivity|].
    cbn -[Z.land Z.lnot]. rewrite !land_mask32, (Z.mod_small a), aligned_lnot3 by done.
    split; [reflexivity|]. split_and!; [|done|done|].
    + constructor; cbn -[Z.pow]; try done. by apply mock_ok_word.
    + intros b. unfold mock_word; cbn -[Z.pow]. destruct (decide (b = a)) as [->|].
      * by rewrite lookup_insert_eq.
      * by rewrite lookup_insert_ne.
Defined.

Lemma Mock_init_ok : mock_ok Mock_init.
Proof.
  constructor; [done| |apply map_Forall_empty|done].
  apply Forall_insert; [by apply Forall_replicate|lia].
Qed.

(** ** SerialDMI over the debug-UART bridge *)

(** The bridge the serial protocol talks to: it turns each complete 'W' or 'R'
    frame into an access of [D] and queues the four reply bytes of a read. *)
Record Bridge (D : Type) := mkBridge { target : D; inq : list Z; outq : list Z }.
Arguments mkBridge {D} _ _ _.
Arguments target {D} _.
Arguments inq {D} _.
Arguments outq {D} _.

Section bridge.
Context {D : Type} `{Dmi D}.

Definition bridge_frame (bs : list Z) : ST (Bridge D) unit := λ b,
  match bs with
  | [87; a0; a1; a2; a3; v0; v1; v2; v3] =>
      let* r := w32 (int_from_bytes [a0; a1; a2; a3]) (int_from_bytes [v0; v1; v2; v3])
                  (target b) in
      Ok (tt, mkBridge r.2 [] (outq b))
  | [82; a0; a1; a2; a3] =>
      let* r := r32 (int_from_bytes [a0; a1; a2; a3]) (target b) in
      Ok (tt, mkBridge r.2 [] (outq b ++ int_to_bytes 4 r.1))
  | _ => Ok (tt, mkBridge (target b) bs (outq b))
  end.

#[global] Instance BridgePort : Port (Bridge D) := {|
  port_write bs b := bridge_frame (inq b ++ bs) b;
  port_read n b := Ok (take n (outq b), mkBridge (target b) (inq b) (drop n (outq b)))
|}.

Lemma serial_write a v d :
  0 ≤ a < 2 ^ 32 →
  w32 (D := Bridge D) a v (mkBridge d [] []) =
    let* r := w32 a (v mod 2 ^ 32) d in Ok (tt, mkBridge r.2 [] []).
Proof.
  intros Ha. cbn [w32 SerialDMI]. unfold serial_w32, st_lift, to_bytes.
  rewrite land_mask32. pose proof (mod32 v).
  rewrite !decide_True by (change (8 * Z.of_nat 4) with 32; lia).
  unfold mbind, ST_bind. cbn [res_bind fst snd port_write BridgePort inq app].
  unfold bridge_frame. cbn [int_to_bytes app].
  assert (∀ x, int_from_bytes [x mod 256; (x / 256) mod 256; (x / 256 / 256) mod 256;
            (x / 256 / 256 / 256) mod 256] = x mod 2 ^ 32) as Hx
    by (intros x; exact (int_from_to_bytes 4 x)).
  rewrite !Hx, (Z.mod_small a) by done. rewrite Z.mod_mod by lia. done.
Qed.

Lemma serial_read a d :
  0 ≤ a < 2 ^ 32 →
  r32 (D := Bridge D) a (mkBridge d [] []) =
    let* r := r32 a d in Ok (r.1 mod 2 ^ 32, mkBridge r.2 [] []).
Proof.
  intros Ha. cbn [r32 SerialDMI]. unfold serial_r32, st_lift, to_bytes.
  rewrite decide_True by (change (8 * Z.of_nat 4) with 32; lia).
  unfold mbind, ST_bind. cbn [res_bind fst snd port_write BridgePort inq app].
  unfold bridge_frame. cbn [int_to_bytes app].
  assert (∀ x, int_from_bytes [x mod 256; (x / 256) mod 256; (x / 256 / 256) mod 256;
            (x / 256 / 256 / 256) mod 256] = x mod 2 ^ 32) as Hx
    by (intros x; exact (int_from_to_bytes 4 x)).
  rewrite !Hx, (Z.mod_small a) by done. cbn [target outq app].
  destruct (r32 a d) as [[x d']|]; cbn [res_bind fst snd]; [|done].
  cbn [port_read BridgePort target inq outq take drop res_bind fst snd].
  by rewrite Hx.
Qed.

(** A bridge between frames, to a target of the interface, is one too. *)
Context `{!DmiTarget D}.

Definition bridge_ok (b : Bridge D) : Prop :=
  inq b = [] ∧ outq b = [] ∧ dmi_ok (target b).

#[global] Instance BridgeTarget : DmiTarget (Bridge D).
Proof.
  refine {| dmi_ok := bridge_ok; treg b := treg (target b); tpc b := tpc (target b);
            tword b := tword (target b) |}.
  - intros [d i o] j (_ & _ & Hd). by apply treg_range.
  - intros [d i o] a (_ & _ & Hd). by apply tword_range.
  - intros [d i o] j (Hi & Ho & Hd) Hj. cbn [inq outq target] in *. subst.
    destruct (law_rd_reg d j Hd Hj) as (d1 & d2 & E1 & E2 & Hok & ?).
    exists (mkBridge d1 [] []), (mkBridge d2 [] []).
    rewrite serial_write, (Z.mod_small j), E1 by (unfold REGSEL; lia). split; [done|].
    rewrite serial_read, E2 by (unfold REGDATA; lia). cbn [res_bind fst snd].
    rewrite Z.mod_small by (by apply treg_range). done.
  - intros [d i o] j v (Hi & Ho & Hd) Hj. cbn [inq outq target] in *. subst.
    destruct (law_wr_reg d j (v mod 2 ^ 32) Hd Hj) as (d1 & d2 & E1 & E2 & Hok & Hv & ?).
    exists (mkBridge d1 [] []), (mkBridge d2 [] []).
    rewrite serial_write, (Z.mod_small j), E1 by (unfold REGSEL; lia). split; [done|].
    rewrite serial_write, E2 by (unfold REGDATA; lia). split; [done|]. split; [done|].
    rewrite Z.mod_mod in Hv by lia. done.
  - intros [d i o] a (Hi & Ho & Hd) Ha Hal. cbn [inq outq target] in *. subst.
    destruct (law_rd_word d a Hd Ha Hal) as (d1 & d2 & E1 & E2 & Hok & ?).
    exists (mkBridge d1 [] []), (mkBridge d2 [] []).
    rewrite serial_write, (Z.mod_small a), E1 by (unfold MEMADDR; lia). split; [done|].
    rewrite serial_read, E2 by (unfold MEMDATA; lia). cbn [res_bind fst snd].
    rewrite Z.mod_small by (by apply tword_range). done.
  - intros [d i o] a v (Hi & Ho & Hd) Ha Hal. cbn [inq outq target] in *. subst.
    destruct (law_wr_word d a (v mod 2 ^ 32) Hd Ha Hal) as (d1 & d2 & E1 & E2 & Hok & ? & ? & Hw).
    exists (mkBridge d1 [] []), (mkBridge d2 [] []).
    rewrite serial_write, (Z.mod_small a), E1 by (unfold MEMADDR; lia). split; [done|].
    rewrite serial_write, E2 by (unfold MEMDATA; lia). split; [done|]. split; [done|].
    rewrite Z.mod_mod in Hw by lia. done.
Defined.
End bridge.

(** ** Registers and memory through the stub *)

Lemma on_dmi_run {D A} (c : ST D A) (s : Stub D) a d' :
  c (dmi s) = Ok (a, d') → on_dmi c s = Ok (a, mkStub d' (bp_slots s)).
Proof. unfold on_dmi. by intros ->. Qed.

(** Byte [j] of a word after byte [k] was replaced by [b]. *)
Lemma byte_insert w b k j :
  0 ≤ k → 0 ≤ j → is_byte b →
  Z.land (Z.shiftr (Z.lor (Z.land w (Z.lnot (Z.shiftl 0xff (8 * k)))) (Z.shiftl b (8 * k)))
            (8 * j)) 0xff =
  if decide (j = k) then b else Z.land (Z.shiftr w (8 * j)) 0xff.
Proof.
  intros Hk Hj Hb. unfold is_byte in Hb. apply Z.bits_inj'. intros n Hn.
  change 0xff with (Z.ones 8).
  rewrite Z.land_spec, Z.shiftr_spec, Z.lor_spec, Z.land_spec, Z.lnot_spec, !Z.shiftl_spec by lia.
  destruct (Z_lt_le_dec n 8) as [Hn8|Hn8].
  - rewrite (Z.ones_spec_low 8 n), andb_true_r by lia.
    destruct (decide (j = k)) as [->|Hne].
    + replace (n + 8 * k - 8 * k) with n by lia. rewrite (Z.ones_spec_low 8 n) by lia.
      by rewrite andb_false_r.
    + rewrite Z.land_spec, Z.shiftr_spec, (Z.ones_spec_low 8 n), andb_true_r by lia.
      assert (∀ c, 0 ≤ c < 2 ^ 8 → Z.testbit c (n + 8 * j - 8 * k) = false) as Hc.
      { intros c Hc. destruct (Z_lt_le_dec (n + 8 * j - 8 * k) 0); [by apply Z.testbit_neg_r|].
        rewrite <- (Z.mod_small c (2 ^ 8)) by done. apply Z.mod_pow2_bits_high. lia. }
      rewrite !Hc by (change (Z.ones 8) with 255; lia). by rewrite andb_true_r, orb_false_r.
  - rewrite (Z.ones_spec_high 8 n), andb_false_r by lia.
    destruct (decide (j = k)) as [->|Hne].
    + rewrite <- (Z.mod_small b (2 ^ 8)) by lia. rewrite Z.mod_pow2_bits_high by lia. done.
    + rewrite Z.land_spec, (Z.ones_spec_high 8 n) by lia. by rewrite andb_false_r.
Qed.

Lemma word_insert_range w b k :
  0 ≤ w < 2 ^ 32 → 0 ≤ k < 4 → is_byte b →
  0 ≤ Z.lor (Z.land w (Z.lnot (Z.shiftl 0xff (8 * k)))) (Z.shiftl b (8 * k)) < 2 ^ 32.
Proof.
  intros Hw Hk Hb. unfold is_byte in Hb. set (y := Z.lor _ _).
  assert (0 ≤ y).
  { apply Z.lor_nonneg; split; [apply Z.land_nonneg; left; lia|apply Z.shiftl_nonneg; lia]. }
  assert (y = y mod 2 ^ 32) as ->; [|apply mod32].
  apply Z.bits_inj'. intros n Hn. destruct (Z_lt_le_dec n 32).
  - by rewrite Z.mod_pow2_bits_low.
  - rewrite Z.mod_pow2_bits_high by lia. unfold y.
    rewrite Z.lor_spec, Z.land_spec, Z.shiftl_spec by lia.
    rewrite <- (Z.mod_small w (2 ^ 32)), Z.mod_pow2_bits_high by lia.
    rewrite <- (Z.mod_small b (2 ^ 8)) by lia. by rewrite Z.mod_pow2_bits_high by lia.
Qed.

Lemma land3 a : Z.land a 3 = a mod 4.
Proof. change 3 with (Z.ones 2). by rewrite Z.land_ones. Qed.

Section stub.
Context {D : Type} `{DmiTarget D}.

Definition byte_at (d : D) (a : Z) : Z :=
  Z.land (Z.shiftr (tword d (4 * (a / 4))) (8 * (a mod 4))) 0xff.

(** The stub's view of the target did not change. *)
Definition same (s s' : Stub D) : Prop :=
  dmi_ok (dmi s') ∧ treg (dmi s') = treg (dmi s) ∧ tpc (dmi s') = tpc (dmi s) ∧
  tword (dmi s') = tword (dmi s) ∧ bp_slots s' = bp_slots s.

Lemma aligned_div4 a : 0 ≤ a < 2 ^ 32 → 0 ≤ 4 * (a / 4) < 2 ^ 32 ∧ (4 * (a / 4)) mod 4 = 0.
Proof.
  intros Ha. rewrite Z.mul_comm, Z.mod_mul by lia. pose proof (Z.div_mod a 4).
  pose proof (Z.mod_pos_bound a 4). lia.
Qed.

Lemma rd_word_ok s a :
  dmi_ok (dmi s) → 0 ≤ a < 2 ^ 32 →
  ∃ s', rd_word a s = Ok (tword (dmi s) (4 * (a / 4)), s') ∧ same s s'.
Proof.
  intros Hs Ha. destruct (aligned_div4 a Ha) as [Hr Hal].
  destruct (law_rd_word (dmi s) (4 * (a / 4)) Hs Hr Hal) as (d1 & d2 & E1 & E2 & Hok & ? & ? & ?).
  exists (mkStub d2 (bp_slots s)). split; [|done]. unfold rd_word. rewrite land_lnot3.
  erewrite st_bind_run by (by apply on_dmi_run). by erewrite on_dmi_run.
Qed.

Lemma wr_word_ok s a v :
  dmi_ok (dmi s) → 0 ≤ a < 2 ^ 32 →
  ∃ s', wr_word a v s = Ok (tt, s') ∧ dmi_ok (dmi s') ∧ treg (dmi s') = treg (dmi s) ∧
    tpc (dmi s') = tpc (dmi s) ∧ bp_slots s' = bp_slots s ∧
    ∀ b, tword (dmi s') b = if decide (b = 4 * (a / 4)) then v mod 2 ^ 32 else tword (dmi s) b.
Proof.
  intros Hs Ha. destruct (aligned_div4 a Ha) as [Hr Hal].
  destruct (law_wr_word (dmi s) (4 * (a / 4)) v Hs Hr Hal) as (d1 & d2 & E1 & E2 & Hok & ? & ? & ?).
  exists (mkStub d2 (bp_slots s)). split; [|done]. unfold wr_word. rewrite land_lnot3.
  erewrite st_bind_run by (by apply on_dmi_run). by erewrite on_dmi_run.
Qed.

Lemma rd_mem_go_ok n s a :
  dmi_ok (dmi s) → 0 ≤ a → a + Z.of_nat n ≤ 2 ^ 32 →
  ∃ s', rd_mem_go a n s = Ok (map (λ k, byte_at (dmi s) (a + Z.of_nat k)) (seq 0 n), s') ∧ same s s'.
Proof.
  revert s a; induction n as [|n IH]; intros s a Hs Ha Hn.
  { exists s. by split. }
  destruct (rd_word_ok s a Hs) as (s1 & E1 & Hok1 & ? & ? & Hw1 & ?); [lia|].
  destruct (IH s1 (a + 1) Hok1) as (s2 & E2 & Hok2 & ? & ? & Hw2 & ?); [lia|lia|].
  exists s2. split; [|unfold same; split_and!; congruence].
  cbn [rd_mem_go]. erewrite st_bind_run by done. erewrite st_bind_run by done.
  unfold mret, ST_ret. do 2 f_equal. cbn [seq map]. f_equal.
  - unfold byte_at. by rewrite land3, Z.add_0_r.
  - rewrite <- seq_shift, map_map. apply map_ext. intros k. unfold byte_at. rewrite Hw1.
    by replace (a + 1 + Z.of_nat k) with (a + Z.of_nat (S k)) by lia.
Qed.

(** One byte of [wr_mem]: that byte changes and no other. *)
Lemma wr_byte_ok s a b :
  dmi_ok (dmi s) → 0 ≤ a < 2 ^ 32 → is_byte b →
  ∃ s', (w ← rd_word a; wr_word a (Z.lor (Z.land w (Z.lnot (Z.shiftl 0xff (8 * Z.land a 3))))
                                     (Z.shiftl b (8 * Z.land a 3)))) s = Ok (tt, s') ∧
    dmi_ok (dmi s') ∧ treg (dmi s') = treg (dmi s) ∧ tpc (dmi s') = tpc (dmi s) ∧
    bp_slots s' = bp_slots s ∧
    ∀ x, byte_at (dmi s') x = if decide (x = a) then b else byte_at (dmi s) x.
Proof.
  intros Hs Ha Hb. destruct (rd_word_ok s a Hs Ha) as (s1 & E1 & Hok1 & ? & ? & Hw1 & ?).
  edestruct (wr_word_ok s1 a) as (s2 & E2 & Hok2 & ? & ? & ? & Hw2); [done|done|].
  exists s2. split; [erewrite st_bind_run by done; exact E2|].
  split_and!; try congruence. intros x. unfold byte_at. rewrite Hw2, Hw1, land3.
  pose proof (Z.mod_pos_bound a 4). pose proof (Z.mod_pos_bound x 4).
  pose proof (Z.div_mod a 4). pose proof (Z.div_mod x 4).
  destruct (decide (4 * (x / 4) = 4 * (a / 4))) as [E|E].
  - rewrite Z.mod_small by (apply word_insert_range; [by apply tword_range|lia|done]).
    rewrite byte_insert by (done || lia).
    destruct (decide (x mod 4 = a mod 4)), (decide (x = a)); try lia. by rewrite E.
  - rewrite decide_False by (intros ->; lia). done.
Qed.

Lemma wr_mem_ok data s a :
  dmi_ok (dmi s) → 0 ≤ a → a + Z.of_nat (length data) ≤ 2 ^ 32 → Forall is_byte data →
  ∃ s', wr_mem a data s = Ok (tt, s') ∧
    dmi_ok (dmi s') ∧ treg (dmi s') = treg (dmi s) ∧ tpc (dmi s') = tpc (dmi s) ∧
    bp_slots s' = bp_slots s ∧
    ∀ x, byte_at (dmi s') x =
      default (byte_at (dmi s) x) (if decide (a ≤ x) then data !! Z.to_nat (x - a) else None).
Proof.
  intros Hs Ha Hl Hd. revert s a Hs Ha Hl. induction Hd as [|b data Hb _ IH]; intros s a Hs Ha Hl.
  { exists s. split; [done|]. split_and!; try done. intros x. by case_decide. }
  cbn [length] in Hl.
  destruct (wr_byte_ok s a b Hs) as (s1 & E1 & Hok1 & ? & ? & ? & Hb1); [lia|done|].
  destruct (IH s1 (a + 1) Hok1) as (s2 & E2 & Hok2 & ? & ? & ? & Hb2); [lia|lia|].
  exists s2. cbn [wr_mem]. split.
  { apply st_bind_ok in E1 as (w & s0 & Er & Ew). erewrite st_bind_run by exact Er.
    erewrite st_bind_run by exact Ew. exact E2. }
  split_and!; try congruence. intros x. rewrite Hb2, Hb1.
  destruct (decide (a + 1 ≤ x)) as [|Hx].
  - rewrite (decide_True _ _ (P := a ≤ x)), (decide_False _ _ (P := x = a)) by lia.
    replace (Z.to_nat (x - a)) with (S (Z.to_nat (x - (a + 1)))) by lia. done.
  - destruct (decide (x = a)) as [->|].
    + rewrite decide_True by lia. by rewrite Z.sub_diag.
    + rewrite decide_False by lia. done.
Qed.

Lemma rd_reg_ok s i :
  dmi_ok (dmi s) → 0 ≤ i < 32 → ∃ s', rd_reg i s = Ok (treg (dmi s) i, s') ∧ same s s'.
Proof.
  intros Hs Hi. destruct (law_rd_reg (dmi s) i Hs Hi) as (d1 & d2 & E1 & E2 & Hok & ? & ? & ?).
  exists (mkStub d2 (bp_slots s)). split; [|done]. unfold rd_reg.
  rewrite (proj2 (Z.eqb_neq i 32)) by lia.
  erewrite st_bind_run by (by apply on_dmi_run). by erewrite on_dmi_run.
Qed.

Lemma wr_reg_ok s i v :
  dmi_ok (dmi s) → 1 ≤ i < 32 →
  ∃ s', wr_reg i v s = Ok (tt, s') ∧ dmi_ok (dmi s') ∧ treg (dmi s') i = v mod 2 ^ 32 ∧
    (∀ j, 0 ≤ j < 32 → j ≠ i → treg (dmi s') j = treg (dmi s) j) ∧
    tpc (dmi s') = tpc (dmi s) ∧ tword (dmi s') = tword (dmi s) ∧ bp_slots s' = bp_slots s.
Proof.
  intros Hs Hi. destruct (law_wr_reg (dmi s) i v Hs Hi) as (d1 & d2 & E1 & E2 & Hok & ? & ? & ? & ?).
  exists (mkStub d2 (bp_slots s)). split; [|done]. unfold wr_reg.
  rewrite (proj2 (Z.eqb_neq i 32)) by lia.
  erewrite st_bind_run by (by apply on_dmi_run). by erewrite on_dmi_run.
Qed.
End stub.

(** ** Packets *)

Lemma hexreg_bytes v : hexreg v = bytes_hex (int_to_bytes 4 v).
Proof.
  unfold hexreg. cbn [foldr bytes_hex int_to_bytes].
  assert (∀ k, 0 ≤ k → Z.land (Z.shiftr v (8 * k)) 0xff = (v / 2 ^ (8 * k)) mod 256) as E.
  { intros k Hk. change 0xff with (Z.ones 8). rewrite Z.land_ones by lia.
    by rewrite Z.shiftr_div_pow2 by lia. }
  rewrite !E by lia. rewrite !Z.div_div by lia.
  change (8 * Z.of_nat 0) with 0. change (8 * Z.of_nat 1) with 8.
  change (8 * Z.of_nat 2) with 16. change (8 * Z.of_nat 3) with 24.
  by rewrite Z.pow_0_r, Z.div_1_r.
Qed.

Lemma fromhex_hexreg v :
  ∃ bs, fromhex (hexreg v) = Ok bs ∧ int_from_bytes bs = v mod 2 ^ 32.
Proof.
  exists (int_to_bytes 4 v). rewrite hexreg_bytes, fromhex_hex by apply int_to_bytes_bytes.
  by rewrite int_from_to_bytes.
Qed.

Lemma digits_no_char c acc s v :
  digits_val acc s = Some v → digit_val c = None → has_char c s = false.
Proof.
  intros Hv Hc. revert acc Hv; induction s as [|d s IH]; intros acc; simpl; [done|].
  destruct (digit_val d) as [x|] eqn:Hd; simpl; [|done]. intros Hv.
  rewrite (digit_neq d x c) by done. simpl. by eapply IH.
Qed.

Lemma fmt_no_char c w v : 0 ≤ v → digit_val c = None → has_char c (fmt_x w v) = false.
Proof. intros. eapply digits_no_char; [|done]. by apply (digits_val_fmt_x w 0). Qed.

Lemma bytes_hex_no_char c bs :
  Forall is_byte bs → digit_val c = None → has_char c (bytes_hex bs) = false.
Proof.
  intros Hb Hc. induction Hb as [|b bs Hb _ IH]; [done|]. cbn [bytes_hex foldr].
  change (foldr _ "" bs) with (bytes_hex bs). unfold is_byte in Hb.
  rewrite has_char_app, fmt_no_char, IH by (done || lia). done.
Qed.

Lemma hexreg_no_char c v : digit_val c = None → has_char c (hexreg v) = false.
Proof. rewrite hexreg_bytes. apply bytes_hex_no_char, int_to_bytes_bytes. Qed.

Lemma st_lift_run {S A B} (r : res A) a (f : A → ST S B) s : r = Ok a → (st_lift r ≫= f) s = f a s.
Proof. by intros ->. Qed.

Section packets.
Context {D : Type} `{DmiTarget D}.

Lemma handle_P_ok s i v :
  dmi_ok (dmi s) → 1 ≤ i < 32 →
  ∃ s', handle ("P" +:+ fmt_x 1 i +:+ "=" +:+ hexreg v) s = Ok ("OK", s') ∧
    wr_reg i (v mod 2 ^ 32) s = Ok (tt, s').
Proof.
  intros Hs Hi. destruct (wr_reg_ok s i (v mod 2 ^ 32) Hs Hi) as (s' & E & _).
  exists s'. split; [|done]. change (handle _ s) with (handle_P (fmt_x 1 i +:+ "=" +:+ hexreg v) s).
  unfold handle_P. rewrite (cons_append "="). change ("" +:+ hexreg v) with (hexreg v).
  rewrite split_char_app, split_char_none by (apply hexreg_no_char || apply fmt_no_char; done || lia).
  destruct (fromhex_hexreg v) as (bs & Ebs & Ev).
  rewrite (st_lift_run _ (fmt_x 1 i, hexreg v)) by done. cbn [fst snd].
  rewrite (st_lift_run _ i) by (apply int16_fmt; lia).
  rewrite (st_lift_run _ bs) by done. rewrite Ev. erewrite st_bind_run by done. done.
Qed.

(** Writing a register with a P packet and reading it with a p packet:
    both answer, the value read is the one written modulo 2^32 in the same
    hexadecimal form, and no other register, the pc or memory changed. *)
Theorem reg_packet_roundtrip s i v :
  dmi_ok (dmi s) → 1 ≤ i < 32 →
  ∃ s1 s2, handle ("P" +:+ fmt_x 1 i +:+ "=" +:+ hexreg v) s = Ok ("OK", s1) ∧
    handle ("p" +:+ fmt_x 1 i) s1 = Ok (hexreg (v mod 2 ^ 32), s2) ∧
    (∀ j, 0 ≤ j < 32 → j ≠ i → treg (dmi s2) j = treg (dmi s) j) ∧
    tpc (dmi s2) = tpc (dmi s) ∧ tword (dmi s2) = tword (dmi s).
Proof.
  intros Hs Hi. destruct (handle_P_ok s i v Hs Hi) as (s1 & E1 & Ew).
  destruct (wr_reg_ok s i (v mod 2 ^ 32) Hs Hi) as (s1' & Ew' & Hok & Hv & Hoth & Hpc & Hw & _).
  rewrite Ew in Ew'. injection Ew' as <-. rewrite Z.mod_mod in Hv by lia.
  destruct (rd_reg_ok s1 i Hok ltac:(lia)) as (s2 & E2 & _ & Hr2 & Hp2 & Hw2 & _).
  exists s1, s2. split; [done|]. split.
  - change (handle _ s1) with (handle_p (fmt_x 1 i) s1). unfold handle_p.
    rewrite (st_lift_run _ i) by (apply int16_fmt; lia). erewrite st_bind_run by done.
    by rewrite Hv.
  - rewrite Hr2, Hp2, Hw2. auto.
Qed.

(** C23.  Writing memory with an M packet and reading it with an m packet: the
    bytes read are the bytes written, for any address and alignment, and no
    byte outside the written range, register or the pc changed. *)
Theorem mem_packet_roundtrip s a data :
  dmi_ok (dmi s) → 0 ≤ a → a + Z.of_nat (length data) ≤ 2 ^ 32 → Forall is_byte data →
  let n := Z.of_nat (length data) in
  ∃ s1 s2,
    handle ("M" +:+ (fmt_x 1 a +:+ "," +:+ fmt_x 1 n) +:+ ":" +:+ bytes_hex data) s = Ok ("OK", s1) ∧
    handle ("m" +:+ fmt_x 1 a +:+ "," +:+ fmt_x 1 n) s1 = Ok (bytes_hex data, s2) ∧
    (∀ x, ¬ (a ≤ x < a + n) → byte_at (dmi s2) x = byte_at (dmi s) x) ∧
    treg (dmi s2) = treg (dmi s) ∧ tpc (dmi s2) = tpc (dmi s).
Proof.
  intros Hs Ha Hl Hd n.
  destruct (wr_mem_ok data s a Hs Ha Hl Hd) as (s1 & E1 & Hok1 & Hr1 & Hp1 & _ & Hb1).
  destruct (rd_mem_go_ok (length data) s1 a Hok1 Ha Hl) as (s2 & E2 & _ & Hr2 & Hp2 & Hw2 & _).
  assert (Hn : 0 ≤ n) by lia. exists s1, s2. split_and!.
  - set (h := fmt_x 1 a +:+ "," +:+ fmt_x 1 n).
    change (handle _ s) with (handle_M (h +:+ ":" +:+ bytes_hex data) s). unfold handle_M.
    rewrite (cons_append ":"). change ("" +:+ bytes_hex data) with (bytes_hex data).
    rewrite split_char_app, split_char_none.
    + rewrite (st_lift_run _ (h, bytes_hex data)) by done. cbn [fst snd]. unfold h.
      rewrite (cons_append ","). change ("" +:+ fmt_x 1 n) with (fmt_x 1 n).
      rewrite split_char_app, split_char_none by (apply fmt_no_char; done || lia).
      rewrite (st_lift_run _ (fmt_x 1 a, fmt_x 1 n)) by done. cbn [fst snd].
      rewrite (st_lift_run _ a) by (apply int16_fmt; lia).
      rewrite (st_lift_run _ data) by by apply fromhex_hex.
      erewrite st_bind_run by done. done.
    + by apply bytes_hex_no_char.
    + unfold h. rewrite !has_char_app, !fmt_no_char by done. done.
  - change (handle _ s1) with (handle_m (fmt_x 1 a +:+ "," +:+ fmt_x 1 n) s1). unfold handle_m.
    rewrite (cons_append ","). change ("" +:+ fmt_x 1 n) with (fmt_x 1 n).
    rewrite split_char_app, split_char_none by (apply fmt_no_char; done || lia).
    rewrite (st_lift_run _ (fmt_x 1 a, fmt_x 1 n)) by done. cbn [fst snd].
    rewrite (st_lift_run _ a) by (apply int16_fmt; lia).
    rewrite (st_lift_run _ n) by (apply int16_fmt; lia).
    unfold rd_mem. replace (Z.to_nat n) with (length data) by lia.
    erewrite st_bind_run by exact E2. unfold mret, ST_ret. do 3 f_equal.
    apply list_eq. intros k. rewrite list_lookup_fmap. destruct (decide (k < length data)%nat) as [Hk|Hk].
    + rewrite lookup_seq_lt by done. cbn. rewrite Hb1, decide_True by lia.
      replace (Z.to_nat (a + Z.of_nat k - a)) with k by lia.
      by destruct (lookup_lt_is_Some_2 data k Hk) as [x ->].
    + rewrite lookup_seq_ge by lia. symmetry. apply lookup_ge_None. lia.
  - intros x Hx. unfold byte_at at 1. rewrite Hw2. fold (byte_at (dmi s1) x). rewrite Hb1.
    case_decide; [|done]. rewrite lookup_ge_None_2 by lia. done.
  - congruence.
  - congruence.
Qed.
End packets.

Lemma reg_packet_roundtrip_witness :
  ∃ s1 s2, handle "P6=efbeadde" (mkStub Mock_init ∅) = Ok ("OK", s1) ∧
    handle "p6" s1 = Ok ("efbeadde", s2) ∧ tword (dmi s2) = tword Mock_init.
Proof.
  destruct (@reg_packet_roundtrip Mock _ MockTarget (mkStub Mock_init ∅) 6 0xDEADBEEF Mock_init_ok ltac:(lia))
    as (s1 & s2 & E1 & E2 & _ & _ & Hw).
  exists s1, s2. split; [exact E1|]. split; [exact E2|exact Hw].
Defined.

(** The round trip holds through the serial protocol too. *)
Lemma mem_packet_roundtrip_witness :
  let s := mkStub (mkBridge Mock_init [] []) ∅ in
  ∃ s1 s2, handle "M302,5:0102030405" s = Ok ("OK", s1) ∧
    handle "m302,5" s1 = Ok ("0102030405", s2) ∧ tpc (dmi s2) = 0x100.
Proof.
  intros s.
  destruct (@mem_packet_roundtrip (Bridge Mock) _ BridgeTarget s 0x302 [1; 2; 3; 4; 5]) as (s1 & s2 & E1 & E2 & _ & _ & Hp).
  - split; [done|]. split; [done|]. exact Mock_init_ok.
  - lia.
  - cbn; lia.
  - repeat constructor; discriminate.
  - exists s1, s2. split; [exact E1|]. split; [exact E2|exact Hp].
Defined.

(** ** The receive loop *)

Section serve.
Context {D : Type} `{Dmi D}.

Lemma checksum_range body : 0 ≤ checksum body < 256.
Proof.
  unfold checksum. change 0xff with (Z.ones 8). rewrite Z.land_ones by lia.
  apply Z.mod_pos_bound. lia.
Qed.

Lemma frame_shape body :
  ∃ a b, ∀ rest, frame body +:+ rest = String "$" (body +:+ String "#" (String a (String b rest))).
Proof.
  unfold frame. rewrite byte_hex by apply checksum_range. eexists _, _. intros rest.
  rewrite (cons_append "$"). change ("" +:+ ?x) with x.
  rewrite cons_append, append_assoc. f_equal.
Qed.

(** A complete packet at the head of the buffer is answered and consumed. *)
Lemma serve_step_frame body rest s :
  has_char "#" body = false →
  serve_step (frame body +:+ rest) s =
    (r ← handle body; mret (Some ("+" +:+ frame r, rest))) s.
Proof.
  intros Hb. destruct (frame_shape body) as (a & b & ->). unfold serve_step.
  assert (Hi : index_of "#"%char (String "$" (body +:+ String "#" (String a (String b rest))))
    = Some (S (String.length body))).
  { change (String "$" (body +:+ ?x)) with ((String "$" body) +:+ x).
    rewrite index_of_app; [done|]. exact Hb. }
  rewrite Hi.
  assert (Nat.ltb (S (String.length body) + 2)
    (String.length (String "$" (body +:+ String "#" (String a (String b rest))))) = true) as ->.
  { apply Nat.ltb_lt. cbn [String.length]. rewrite length_append. cbn [String.length]. lia. }
  cbn [index_of sdrop]. change (Ascii.eqb "$" "$") with true. cbn [sdrop].
  rewrite Hi. unfold substr. cbn [Nat.add sdrop].
  replace (S (String.length body) - 1)%nat with (String.length body) by lia.
  rewrite stake_app.
  replace (String.length body + 3)%nat with
    (String.length (body +:+ String "#" (String a (String b "")))) by
    (rewrite length_append; cbn [String.length]; lia).
  change (String "#" (String a (String b rest))) with (String "#" (String a (String b "")) +:+ rest).
  rewrite <- append_assoc, sdrop_app. done.
Qed.

(** The packets handled in order. *)
Fixpoint handle_all (bodies : list string) : ST (Stub D) string :=
  match bodies with
  | [] => mret ""
  | b :: bodies => r ← handle b; o ← handle_all bodies; mret (("+" +:+ frame r) +:+ o)
  end.

(** The receive loop on a buffer of complete packets followed by an
    incomplete one: the packets are handled in order, one acknowledgement
    and framed reply is sent for each (or the first exception is raised),
    and the incomplete rest stays in the buffer for the next chunk. *)
Theorem serve_loop_frames bodies rest fuel s :
  Forall (λ b, has_char "#" b = false) bodies → has_char "#" rest = false →
  (length bodies ≤ fuel)%nat →
  serve_loop fuel (foldr (λ b t, frame b +:+ t) rest bodies) s =
    (o ← handle_all bodies; mret (o, rest)) s.
Proof.
  intros Hb Hr. revert fuel s. induction Hb as [|b bodies Hb _ IH]; intros fuel s Hf.
  - cbn [foldr handle_all]. destruct fuel; cbn [serve_loop]; unfold serve_step;
      by rewrite index_of_none.
  - cbn [foldr handle_all]. set (t := foldr _ rest bodies).
    destruct fuel as [|fuel]; [simpl in Hf; lia|]. cbn [serve_loop].
    unfold mbind at 1, ST_bind at 1. rewrite serve_step_frame by done.
    unfold mbind, ST_bind, mret, ST_ret.
    destruct (handle b s) as [[r s1]|e]; cbn [res_bind fst snd]; [|done].
    specialize (IH fuel s1 ltac:(simpl in Hf; lia)). fold t in IH. rewrite IH.
    unfold mbind, ST_bind, mret, ST_ret.
    destruct (handle_all bodies s1) as [[o s2]|e]; done.
Qed.

(** Every turn consumes at least one character, so a fuel of the buffer's
    length is never exhausted: more fuel changes nothing. *)
Lemma sdrop_length n t : String.length (sdrop n t) = (String.length t - n)%nat.
Proof. revert t; induction n as [|n IH]; intros [|c t]; simpl; auto. Qed.

Lemma serve_step_consumes buf s out buf' s' :
  serve_step buf s = Ok (Some (out, buf'), s') → (String.length buf' < String.length buf)%nat.
Proof.
  unfold serve_step. destruct (index_of "#" buf) as [k|]; [|done].
  destruct (Nat.ltb_spec (k + 2) (String.length buf)); [|done].
  assert (∀ c : ST (Stub D) (option (string * string)),
    (∀ o b s', c s = Ok (Some (o, b), s') → (String.length b < String.length buf)%nat) →
    match buf with
    | String "003" rest => halt;; mret (Some ("+" +:+ frame "S05", rest))
    | _ => c
    end s = Ok (Some (out, buf'), s') → (String.length buf' < String.length buf)%nat) as Hc.
  { intros c Hc. destruct buf as [|[[] [] [] [] [] [] [] []] buf0]; try by eauto.
    intros ([] & s1 & _ & E)%st_bind_ok. injection E as _ -> _. simpl. lia. }
  intros HE. eapply Hc; [|exact HE]. clear Hc HE. intros o b s2.
  destruct (index_of "$" buf) as [i|]; [|done].
  destruct (index_of "#" (sdrop i buf)) as [d|] eqn:Ed; [|done].
  intros (r & s1 & _ & E)%st_bind_ok. injection E as _ <- _. rewrite sdrop_length. lia.
Qed.

Theorem serve_loop_terminates fuel buf s :
  (String.length buf ≤ fuel)%nat →
  serve_loop fuel buf s = serve_loop (String.length buf) buf s.
Proof.
  remember (String.length buf) as n eqn:Hn. revert fuel buf s Hn.
  induction (lt_wf n) as [n _ IH]. intros fuel buf s -> Hf.
  assert (∀ f, serve_loop f buf s =
    (r ← serve_step buf;
     match r with
     | None => mret ("", buf)
     | Some (out, buf') =>
         match f with
         | O => st_raise OutOfFuel
         | S f => o ← serve_loop f buf'; mret (out +:+ o.1, o.2)
         end
     end) s) as Hu by (by intros []).
  rewrite (Hu fuel), (Hu (String.length buf)). unfold mbind at 1 3, ST_bind at 1 3.
  destruct (serve_step buf s) as [[[[out buf']|] s1]|e] eqn:E; cbn [res_bind fst snd]; try done.
  pose proof (serve_step_consumes _ _ _ _ _ E) as Hlt.
  destruct fuel as [|f], (String.length buf) as [|m] eqn:Em; try lia.
  unfold mbind, ST_bind. rewrite (IH (String.length buf') ltac:(lia) f buf' s1 eq_refl ltac:(lia)).
  by rewrite (IH (String.length buf') ltac:(lia) m buf' s1 eq_refl ltac:(lia)).
Qed.
End serve.

Lemma serve_loop_frames_witness :
  let s := mkStub Mock_init ∅ in
  serve_loop 2 (frame "qAttached" +:+ frame "p1" +:+ "$g") s =
    (o ← handle_all ["qAttached"; "p1"]; mret (o, "$g")) s.
Proof.
  intros s.
  apply (serve_loop_frames ["qAttached"; "p1"] "$g" 2 s); [|reflexivity|apply Nat.leb_le; reflexivity].
  apply Forall_cons; split; [reflexivity|]. apply Forall_cons; split; [reflexivity|]. by apply Forall_nil.
Defined.

(** What the loop does with an interrupt: a lone Ctrl-C byte stays in the
    buffer unanswered until some packet follows it. *)
Lemma lone_ctrl_c_ignored (s : Stub Mock) :
  serve_loop 1 (String "003" "") s = Ok (("", String "003" ""), s).
Proof. reflexivity. Qed.

(** ** Breakpoints *)

(** Every breakpoint gdb has set is in the hardware slot the stub remembers,
    and the slots in use are the first ones. *)
Definition armed (s : Stub Mock) : Prop :=
  length (bp (dmi s)) = 4%nat ∧
  ∀ a idx, bp_slots s !! a = Some idx →
    0 ≤ idx < Z.of_nat (size (bp_slots s)) ∧ bp (dmi s) !! Z.to_nat idx = Some (Some a).

(** As long as no breakpoint has been cleared: setting a new one while
    fewer than four are set arms it in a free slot and keeps the others. *)
Theorem set_bp_arms s addr :
  armed s → (size (bp_slots s) < 4)%nat → bp_slots s !! addr = None → 0 ≤ addr < 2 ^ 32 →
  ∃ s', set_bp addr s = Ok (tt, s') ∧ armed s' ∧ size (bp_slots s') = S (size (bp_slots s)) ∧
    at_bp (dmi s') addr = true ∧ ∀ a, at_bp (dmi s) a = true → at_bp (dmi s') a = true ∨
      bp (dmi s) !! size (bp_slots s) = Some (Some a).
Proof.
  intros [Hl Hs] Hn Hnew Ha. set (k := size (bp_slots s)) in *.
  assert (Hk : Z.of_nat k mod NBP = Z.of_nat k) by (apply Z.mod_small; unfold NBP; lia).
  set (d := dmi s) in *.
  set (d' := mkMock (regs d) (pc d) (mem d) (halted d) (regsel d) (memaddr d) (Z.of_nat k)
               (<[k := Some addr]> (bp d))).
  exists (mkStub d' (<[addr := Z.of_nat k]> (bp_slots s))).
  assert (Hsz : size (<[addr := Z.of_nat k]> (bp_slots s)) = S k) by by rewrite map_size_insert_None.
  split_and!.
  - unfold set_bp. erewrite st_bind_run by reflexivity. fold k. rewrite Hk.
    erewrite st_bind_run by reflexivity.
    erewrite st_bind_run by (apply on_dmi_run; reflexivity).
    apply on_dmi_run. cbn [dmi bp_slots w32 MockDMI]. unfold mock_w32.
    cbn -[Z.land Z.modulo index_set Z.to_nat]. rewrite !land_mask32.
    rewrite (Z.mod_small (Z.of_nat k)), Hk, (Z.mod_small addr) by lia.
    unfold index_set. fold d. rewrite Nat2Z.id, decide_True by lia. done.
  - split; [cbn [dmi]; unfold d'; cbn [bp]; by rewrite length_insert|].
    intros a idx. cbn [bp_slots dmi]. rewrite Hsz. destruct (decide (a = addr)) as [->|Hne].
    + rewrite lookup_insert_eq. intros [= <-]. split; [lia|].
      unfold d'. cbn [bp]. rewrite Nat2Z.id. apply list_lookup_insert_eq. lia.
    + rewrite lookup_insert_ne by done. intros [Hi Hb]%Hs. fold k in Hi. split; [lia|].
      unfold d'. cbn [bp]. rewrite list_lookup_insert_ne by lia. done.
  - done.
  - unfold at_bp, d'. cbn [dmi bp]. apply existsb_exists. exists (Some addr).
    rewrite Z.eqb_refl. split; [|done]. apply list_elem_of_In.
    eapply list_elem_of_lookup_2, (list_lookup_insert_eq _ k). lia.
  - intros a Ha'. unfold at_bp in *. apply existsb_exists in Ha' as (b & Hin & Hb).
    destruct b as [x|]; [|done]. apply Z.eqb_eq in Hb as ->.
    apply list_elem_of_In, list_elem_of_lookup in Hin as [i Hi].
    destruct (decide (i = k)) as [->|Hne]; [by right|left].
    apply existsb_exists. exists (Some a). rewrite Z.eqb_refl. split; [|done].
    apply list_elem_of_In, list_elem_of_lookup. exists i. unfold d'. cbn [dmi bp].
    by rewrite list_lookup_insert_ne.
Qed.

Lemma set_bp_arms_witness :
  ∃ s', set_bp 0x200 (mkStub Mock_init ∅) = Ok (tt, s') ∧ armed s' ∧ at_bp (dmi s') 0x200 = true.
Proof.
  destruct (set_bp_arms (mkStub Mock_init ∅) 0x200) as (s' & E & Ha & _ & Hb & _).
  - split; [reflexivity|]. intros a idx Hx. discriminate Hx.
  - apply Nat.ltb_lt. reflexivity.
  - reflexivity.
  - lia.
  - exists s'. split; [exact E|]. split; [exact Ha|exact Hb].
Defined.

(** A session through packets. *)
Fixpoint session (pkts : list string) (s : Stub Mock) : res (Stub Mock) :=
  match pkts with
  | [] => Ok s
  | p :: pkts => let* r := handle p s in session pkts r.2
  end.

(** After a breakpoint is cleared the next one set may take the slot of a
    live one: with breakpoints at 0x200 and 0x300, clearing 0x200 and setting
    0x400 leaves the stub believing 0x300 is set in slot 1 while the debug
    module holds only 0x400 there, and the core runs past 0x300. *)
Theorem breakpoint_slot_reused :
  ∃ s, session ["Z1,200,4"; "Z1,300,4"; "z1,200,4"; "Z1,400,4"] (mkStub Mock_init ∅) = Ok s ∧
    bp_slots s !! 0x300 = Some 1 ∧ bp_slots s !! 0x400 = Some 1 ∧
    bp (dmi s) = [None; Some 0x400; None; None] ∧ at_bp (dmi s) 0x300 = false ∧
    ∃ s', handle "c" s = Ok ("S05", s') ∧ pc (dmi s') = 0x400.
Proof.
  eexists. split; [vm_compute; reflexivity|].
  split; [reflexivity|]. split; [reflexivity|]. split; [reflexivity|]. split; [reflexivity|].
  eexists. split; vm_compute; reflexivity.
Qed.

(** ** The self-test (gdbstub.py) *)

(** The checks of [selftest], in order, and their conjunction [ok]. *)
Definition selftest : res bool :=
  let s := mkStub Mock_init ∅ in
  let* r1 := handle "qSupported" s in
  let* r2 := handle "?" r1.2 in
  let* r3 := is_halted r2.2 in
  let* r4 := handle "pf" r3.2 in
  let* r5 := handle "P6=efbeadde" r4.2 in
  let* r6 := handle "p6" r5.2 in
  let* r7 := handle "M300,4:78563412" r6.2 in
  let* r8 := handle "m300,4" r7.2 in
  let* r9 := handle "g" r8.2 in
  let* r10 := rd_reg 32 r9.2 in
  let* r11 := handle "s" r10.2 in
  let* r12 := rd_reg 32 r11.2 in
  let* r13 := handle "Z1,200,4" r12.2 in
  let* r14 := handle "c" r13.2 in
  let* r15 := rd_reg 32 r14.2 in
  Ok (contains "hwbreak+" r1.1 && String.eqb r2.1 "S05" && Z.eqb r3.1 1 &&
      String.eqb r4.1 (hexreg 42) && String.eqb r6.1 (hexreg 0xDEADBEEF) &&
      String.eqb r8.1 "78563412" && Nat.eqb (String.length r9.1) (33 * 8) &&
      negb (Z.eqb r12.1 r10.1) && Z.eqb r15.1 0x200).

Lemma selftest_passes : selftest = Ok true.
Proof. vm_compute. reflexivity. Qed.

End GdbSpec.
