(* ===== verification/S6load.v ===== *)
(** * spartan6/tools/s6load.py: the serial program loader

    The serial port (pyserial) is the interface [Serial].  The loader is
    proved against two instances: a recording port, which shows what is
    written and how it is paced, and the bootloader itself (sw/boot.c), whose
    receive loop is modelled byte by byte, which shows that an upload ends with
    the image in RAM and the board running it. *)
From S2P Require Import Prelude Hex PyStr.

Module S6load.
Import Hex PyStr.
Local Open Scope Z_scope.

(** [write], [flush], [read(n)], [reset_input_buffer], and [time.sleep(gap)] *)
Class Serial (P : Type) := {
  s_write : list Z → ST P unit;
  s_flush : ST P unit;
  s_read : nat → ST P (list Z);
  s_reset : ST P unit;
  s_sleep : ST P unit
}.

Definition MAGIC : list Z := [83; 54; 76; 68].
Definition CHUNK : Z := 8.

(** [repr] of a bytes object, as [{r!r}] prints it. *)
Definition repr_byte (q b : Z) : string :=
  if (b =? q) || (b =? 92) then String "\" (String (ascii_of_N (Z.to_N b)) "")
  else if b =? 9 then "\t" else if b =? 10 then "\n" else if b =? 13 then "\r"
  else if (32 <=? b) && (b <? 127) then String (ascii_of_N (Z.to_N b)) ""
  else "\x" +:+ fmt_x 2 b.
Definition repr_bytes (bs : list Z) : string :=
  let q := if bool_decide (39 ∈ bs) && negb (bool_decide (34 ∈ bs)) then 34 else 39 in
  let qs := String (ascii_of_N (Z.to_N q)) "" in
  "b" +:+ qs +:+ foldr (λ b s, repr_byte q b +:+ s) "" bs +:+ qs.

(** [range(0, n, step)]: empty for a negative step. *)
Definition offsets (n : nat) (step : Z) : list nat :=
  if step <=? 0 then [] else
  let k := Z.to_nat step in
  map (λ i, (k * i)%nat) (seq 0 ((n + k - 1) / k)).

Section loader.
Context {P : Type} `{Serial P}.

(** send (s6load.py); [gap] says whether the gap is not zero. *)
Definition send (data : list Z) (chunk : Z) (gap : bool) : ST P unit :=
  if chunk =? 0 then s_write data;; s_flush
  else
    st_for (offsets (length data) chunk) (λ off,
      s_write (slice data off (off + Z.to_nat chunk));;
      s_flush;;
      if gap then s_sleep else mret tt).

(** [struct.pack("<I", v)] *)
Definition pack_I (v : Z) : res (list Z) :=
  if (0 <=? v) && (v <? 2 ^ 32) then Ok (int_to_bytes 4 v) else Err StructError.

Definition checksum (payload : list Z) : Z := Z.land (foldr Z.add 0 payload) 0xFFFFFFFF.

(** load (s6load.py), without the progress line; [payload] is what
    the image file holds. *)
Definition load (image : string) (payload : list Z) (entry chunk : Z) (gap : bool) : ST P bool :=
  match payload with
  | [] => st_raise (SystemExit (image +:+ " is empty"))
  | _ =>
      s_reset;;
      s_write MAGIC;;
      s_flush;;
      r ← s_read 1;
      if negb (bool_decide (r = [82])) then
        st_raise (SystemExit ("[s6load] no 'R' from the bootloader (got " +:+ repr_bytes r
          +:+ ")." +:+ String nl ("         Is the board sitting in s6boot? Press the reset "
          +:+ "button and try again.")))
      else
        lb ← st_lift (pack_I (Z.of_nat (length payload)));
        eb ← st_lift (pack_I entry);
        send (lb ++ eb) chunk gap;;
        let step := Z.max chunk 1 * 32 in
        st_for (offsets (length payload) step) (λ off,
          send (slice payload off (off + Z.to_nat step)) chunk gap);;
        cb ← st_lift (pack_I (checksum payload));
        send cb chunk gap;;
        r ← s_read 1;
        if bool_decide (r = [75]) then mret true
        else if bool_decide (r = [69]) then
          st_raise (SystemExit "[s6load] checksum mismatch -- the board rejected the image")
        else if bool_decide (r = [66]) then
          st_raise (SystemExit ("[s6load] the board refused 0x" +:+ fmt_x 8 entry
            +:+ ": the image would overrun the bootloader's stack or fall outside block RAM"))
        else st_raise (SystemExit ("[s6load] unexpected reply " +:+ repr_bytes r))
  end.
End loader.

(** ** The console (s6load.py) *)

(** [keys.replace(CR + LF, CR).replace(LF, CR)] *)
Fixpoint crlf_to_cr (bs : list Z) : list Z :=
  match bs with
  | 13 :: ((10 :: bs') as t) => 13 :: crlf_to_cr bs'
  | b :: bs => b :: crlf_to_cr bs
  | [] => []
  end.
Definition lf_to_cr (bs : list Z) : list Z := map (λ b, if b =? 10 then 13 else b) bs.

(** The keys typed since the last turn: [None] ends the console (Ctrl-C). *)
Definition console_keys (keys : list Z) : option (list Z) :=
  if bool_decide (3 ∈ keys) then None else Some (lf_to_cr (crlf_to_cr keys)).

(** _trace: one line per 16 bytes. *)
Definition trace_row (tag : string) (row : list Z) : string :=
  tag +:+ " " +:+ ljust 47 (join " " (map (fmt_x 2) row)) +:+ " |" +:+
  String.string_of_list_ascii
    (map (λ b, if (32 <=? b) && (b <? 127) then ascii_of_N (Z.to_N b) else "."%char) row)
  +:+ "|" +:+ String nl "".

Definition trace_lines (tag : string) (data : list Z) : list string :=
  map (λ off, trace_row tag (slice data off (off + 16))) (offsets (length data) 16).

(** ** A recording port *)

Inductive event := Wrote (bs : list Z) | Flushed | Slept.

Definition record (e : event) : ST (list event) unit := λ t, Ok (tt, t ++ [e]).
#[global] Instance Recorder : Serial (list event) := {|
  s_write bs := record (Wrote bs);
  s_flush := record Flushed;
  s_read n := mret [];
  s_reset := mret tt;
  s_sleep := record Slept
|}.

Definition written (t : list event) : list Z :=
  flat_map (λ e, match e with Wrote bs => bs | _ => [] end) t.

(** ** The bootloader (spartan6/sw/boot.c:40-100) *)

(** Where the receive loop is: how much of the magic it has seen; the header
    bytes so far; [i] of [len] payload bytes stored with sum [got]; the
    checksum bytes so far.  [Running entry] is the jump. *)
Inductive bstate :=
  | Sync (k : nat)
  | Header (bs : list Z)
  | Payload (entry len i got : Z)
  | Sum (entry got : Z) (bs : list Z)
  | Running (entry : Z).

Record Board := mkBoard { ram : list Z; st : bstate; tx : list Z }.

(** After the header: the bounds check, on 32-bit unsigned arithmetic. *)
Definition header_done (b : Board) (len entry : Z) : Board :=
  let ram_bytes := Z.of_nat (length (ram b)) in
  if (entry <? 0x100) || ((ram_bytes - 1024) mod 2 ^ 32 <? (entry + len) mod 2 ^ 32) then
    mkBoard (ram b) (Sync 0) (tx b ++ [66])
  else if len =? 0 then mkBoard (ram b) (Sum entry 0 []) (tx b)
  else mkBoard (ram b) (Payload entry len 0 0) (tx b).

(** One received byte. *)
Definition board_byte (b : Board) (c : Z) : Board :=
  match st b with
  | Sync k =>
      if bool_decide (MAGIC !! k = Some c) then
        if Nat.eqb k 3 then mkBoard (ram b) (Header []) (tx b ++ [82])
        else mkBoard (ram b) (Sync (S k)) (tx b)
      else mkBoard (ram b) (Sync 0) (tx b)
  | Header bs =>
      let bs := bs ++ [c] in
      if Nat.eqb (length bs) 8 then
        header_done b (int_from_bytes (take 4 bs)) (int_from_bytes (drop 4 bs))
      else mkBoard (ram b) (Header bs) (tx b)
  | Payload entry len i got =>
      let ram' := <[Z.to_nat (entry + i) := c]> (ram b) in
      let got := (got + c) mod 2 ^ 32 in
      if i + 1 =? len then mkBoard ram' (Sum entry got []) (tx b)
      else mkBoard ram' (Payload entry len (i + 1) got) (tx b)
  | Sum entry got bs =>
      let bs := bs ++ [c] in
      if Nat.eqb (length bs) 4 then
        if got =? int_from_bytes bs then mkBoard (ram b) (Running entry) (tx b ++ [75])
        else mkBoard (ram b) (Sync 0) (tx b ++ [69])
      else mkBoard (ram b) (Sum entry got bs) (tx b)
  | Running entry => b
  end.

Definition board_bytes (b : Board) (bs : list Z) : Board := fold_left board_byte bs b.

#[global] Instance BoardPort : Serial Board := {|
  s_write bs b := Ok (tt, board_bytes b bs);
  s_flush := mret tt;
  s_read n b := Ok (take n (tx b), mkBoard (ram b) (st b) (drop n (tx b)));
  s_reset b := Ok (tt, mkBoard (ram b) (st b) []);
  s_sleep := mret tt
|}.

End S6load.
