(* ===== verification/S6loadSpec.v ===== *)
(** * Correctness of the loader: pacing, and the upload against the bootloader *)
From S2P Require Import Prelude Hex PyStr S6load.

Module S6loadSpec.
Import Hex PyStr S6load.
Local Open Scope Z_scope.

(** ** Chunks *)

Lemma ceil_div n k : (0 < k)%nat → (n ≤ k * ((n + k - 1) / k))%nat ∧
  ∀ i, (i < (n + k - 1) / k)%nat → (k * i < n)%nat.
Proof.
  intros Hk. pose proof (Nat.div_mod_eq (n + k - 1) k).
  pose proof (Nat.mod_upper_bound (n + k - 1) k ltac:(lia)). split; [lia|].
  intros i Hi. nia.
Qed.

Lemma elem_of_offsets n step off :
  0 < step → off ∈ offsets n step →
  (off < n)%nat ∧ ∃ i, off = (Z.to_nat step * i)%nat.
Proof.
  intros Hs. unfold offsets. destruct (Z.leb_spec step 0); [lia|].
  intros Ho%list_elem_of_In%in_map_iff. destruct Ho as (i & <- & Hi%in_seq).
  split; [|eauto]. apply (proj2 (ceil_div n (Z.to_nat step) ltac:(lia))). lia.
Qed.

(** The chunks, one after another, are the data. *)
Lemma chunks_concat {A} (data : list A) step :
  0 < step →
  flat_map (λ off, slice data off (off + Z.to_nat step)) (offsets (length data) step) = data.
Proof.
  intros Hs. unfold offsets. destruct (Z.leb_spec step 0); [lia|].
  set (k := Z.to_nat step). assert (Hk : (0 < k)%nat) by lia.
  enough (∀ m, flat_map (λ off, slice data off (off + k)) (map (λ i, (k * i)%nat) (seq 0 m))
               = take (k * m) data) as H1.
  { rewrite H1. apply take_ge. apply ceil_div. done. }
  induction m as [|m IH]; [by rewrite Nat.mul_0_r|].
  rewrite seq_S, map_app, flat_map_app, IH. cbn [map flat_map]. rewrite app_nil_r, Nat.add_0_l.
  unfold slice. replace (k * m + k - k * m)%nat with k by lia.
  rewrite Nat.mul_succ_r. by rewrite take_take_drop.
Qed.

(** ** Pacing *)

(** What one paced burst records. *)
Definition burst (gap : bool) (bs : list Z) : list event :=
  [Wrote bs; Flushed] ++ (if gap then [Slept] else []).

Lemma send_records data chunk gap t :
  0 < chunk →
  send data chunk gap t =
    Ok (tt, t ++ flat_map (λ off, burst gap (slice data off (off + Z.to_nat chunk)))
                   (offsets (length data) chunk)).
Proof.
  intros Hc. unfold send. rewrite (proj2 (Z.eqb_neq chunk 0)) by lia.
  generalize (offsets (length data) chunk) as l. intros l. revert t.
  induction l as [|off l IH]; intros t; cbn [st_for flat_map]; [by rewrite app_nil_r|].
  unfold burst at 1. destruct gap.
  - erewrite st_bind_run by reflexivity. rewrite IH. cbn [snd]. by rewrite <- !app_assoc.
  - erewrite st_bind_run by reflexivity. rewrite IH. cbn [snd]. by rewrite <- !app_assoc.
Qed.

(** send, with pacing on: the bytes written are exactly the data in
    order, every burst is non-empty and at most [chunk] bytes (what the
    receiver keeps framing), each is flushed, and when a gap is asked for
    each is followed by quiet time. *)
Theorem send_paced data chunk gap t :
  0 < chunk →
  ∃ bursts, send data chunk gap t = Ok (tt, t ++ flat_map (burst gap) bursts) ∧
    concat bursts = data ∧
    Forall (λ bs, (0 < length bs)%nat ∧ Z.of_nat (length bs) ≤ chunk) bursts.
Proof.
  intros Hc. exists (map (λ off, slice data off (off + Z.to_nat chunk)) (offsets (length data) chunk)).
  split_and!.
  - rewrite send_records by done. by rewrite flat_map_concat_map, flat_map_concat_map, map_map.
  - rewrite <- flat_map_concat_map. by apply chunks_concat.
  - apply Forall_forall. intros bs Hbs%list_elem_of_In%in_map_iff. destruct Hbs as (off & <- & Ho).
    apply list_elem_of_In in Ho. destruct (elem_of_offsets _ _ _ Hc Ho) as [Hlt _].
    rewrite length_slice. lia.
Qed.

Lemma send_paced_witness :
  ∃ bursts, send [1; 2; 3; 4; 5] 2 true [] = Ok (tt, [] ++ flat_map (burst true) bursts) ∧
    concat bursts = [1; 2; 3; 4; 5] ∧
    Forall (λ bs, (0 < length bs)%nat ∧ Z.of_nat (length bs) ≤ 2) bursts.
Proof. apply send_paced. reflexivity. Defined.

(** ** The upload against the bootloader *)

Lemma board_bytes_app b x y : board_bytes b (x ++ y) = board_bytes (board_bytes b x) y.
Proof. apply fold_left_app. Qed.

(** However the bytes are grouped into bursts, the board receives them all. *)
Lemma send_board data chunk gap b :
  0 ≤ chunk → send data chunk gap b = Ok (tt, board_bytes b data).
Proof.
  intros Hc. unfold send. destruct (Z.eqb_spec chunk 0) as [|Hne]; [done|].
  transitivity (Ok (tt, board_bytes b (flat_map (λ off, slice data off (off + Z.to_nat chunk))
    (offsets (length data) chunk)))); [|by rewrite chunks_concat by lia].
  generalize (offsets (length data) chunk) as l. intros l. revert b.
  induction l as [|off l IH]; intros b; cbn [st_for flat_map]; [done|].
  rewrite board_bytes_app. rewrite <- IH.
  destruct gap; by erewrite st_bind_run by reflexivity.
Qed.

Lemma send_blocks_board data step chunk gap b :
  0 ≤ chunk → 0 < step →
  st_for (offsets (length data) step) (λ off, send (slice data off (off + Z.to_nat step)) chunk gap) b
    = Ok (tt, board_bytes b data).
Proof.
  intros Hc Hs.
  transitivity (Ok (tt, board_bytes b (flat_map (λ off, slice data off (off + Z.to_nat step))
    (offsets (length data) step)))); [|by rewrite chunks_concat by lia].
  generalize (offsets (length data) step) as l. intros l. revert b.
  induction l as [|off l IH]; intros b; cbn [st_for flat_map]; [done|].
  rewrite board_bytes_app. erewrite st_bind_run by (by apply send_board). by rewrite IH.
Qed.

Lemma board_magic r t :
  board_bytes (mkBoard r (Sync 0) t) MAGIC = mkBoard r (Header []) (t ++ [82]).
Proof. reflexivity. Qed.

Lemma board_header r t len entry :
  0 ≤ len < 2 ^ 32 → 0 ≤ entry < 2 ^ 32 →
  board_bytes (mkBoard r (Header []) t) (int_to_bytes 4 len ++ int_to_bytes 4 entry) =
    header_done (mkBoard r (Header []) t) len entry.
Proof.
  intros Hl He. rewrite <- (Z.mod_small len (2 ^ 32)) at 2 by done.
  rewrite <- (Z.mod_small entry (2 ^ 32)) at 2 by done.
  change 32 with (8 * Z.of_nat 4). rewrite <- !int_from_to_bytes. reflexivity.
Qed.

Definition total (l : list Z) : Z := foldr Z.add 0 l.

(** The payload loop stores every byte and sums them. *)
Lemma board_payload l r t entry len i got :
  l ≠ [] → 0 ≤ entry → 0 ≤ i → i + Z.of_nat (length l) = len →
  0 ≤ got < 2 ^ 32 → (entry + len ≤ Z.of_nat (length r)) →
  ∃ r', board_bytes (mkBoard r (Payload entry len i got) t) l =
      mkBoard r' (Sum entry ((got + total l) mod 2 ^ 32) []) t ∧
    length r' = length r ∧
    ∀ j, r' !! j = if decide (Z.to_nat (entry + i) ≤ j < Z.to_nat (entry + len))%nat
                   then l !! (j - Z.to_nat (entry + i))%nat else r !! j.
Proof.
  revert r i got. induction l as [|c l IH]; intros r i got Hne He Hi Hlen Hg Hr; [done|].
  cbn [length] in Hlen. change (board_bytes _ (c :: l)) with
    (board_bytes (board_byte (mkBoard r (Payload entry len i got) t) c) l).
  unfold board_byte at 1. cbn [st ram tx].
  set (r1 := <[Z.to_nat (entry + i) := c]> r).
  assert (Hr1 : length r1 = length r) by apply length_insert.
  assert (Hlk : ∀ j, r1 !! j = if decide (j = Z.to_nat (entry + i)) then Some c else r !! j).
  { intros j. unfold r1. case_decide as E.
    - subst j. apply list_lookup_insert_eq. lia.
    - by apply list_lookup_insert_ne. }
  assert (0 ≤ (got + c) mod 2 ^ 32 < 2 ^ 32) by (apply Z.mod_pos_bound; lia).
  destruct l as [|c' l'].
  - rewrite (proj2 (Z.eqb_eq (i + 1) len)) by (simpl in Hlen; lia). exists r1.
    split; [|split; [done|]].
    + cbn [board_bytes fold_left total foldr]. do 3 f_equal. lia.
    + intros j. rewrite Hlk. simpl in Hlen. destruct (decide (j = _)) as [->|].
      * rewrite decide_True by lia. by rewrite Nat.sub_diag.
      * rewrite decide_False by lia. done.
  - rewrite (proj2 (Z.eqb_neq (i + 1) len)) by (cbn [length] in Hlen; lia).
    destruct (IH r1 (i + 1) ((got + c) mod 2 ^ 32)) as (r' & E & El & Hj);
      [done|lia|lia|lia|done|lia|].
    exists r'. split; [|split; [congruence|]].
    + rewrite E. do 2 f_equal. change (total (c :: c' :: l')) with (c + total (c' :: l')).
      rewrite Zplus_mod_idemp_l. f_equal. lia.
    + intros j. rewrite Hj, Hlk. repeat case_decide; subst; try lia; try done.
      * by replace (j - Z.to_nat (entry + i))%nat with (S (j - Z.to_nat (entry + (i + 1)))) by lia.
      * by rewrite Nat.sub_diag.
Qed.

Lemma board_sum r t entry got v :
  0 ≤ v < 2 ^ 32 →
  board_bytes (mkBoard r (Sum entry got []) t) (int_to_bytes 4 v) =
    if got =? v then mkBoard r (Running entry) (t ++ [75]) else mkBoard r (Sync 0) (t ++ [69]).
Proof.
  intros Hv. rewrite <- (Z.mod_small v (2 ^ 32)) at 2 by done.
  change 32 with (8 * Z.of_nat 4). rewrite <- int_from_to_bytes. reflexivity.
Qed.

Lemma pack_I_ok v : 0 ≤ v < 2 ^ 32 → pack_I v = Ok (int_to_bytes 4 v).
Proof.
  intros. unfold pack_I. destruct (Z.leb_spec 0 v), (Z.ltb_spec v (2 ^ 32)); (done || lia).
Qed.

Lemma checksum_total payload : checksum payload = total payload mod 2 ^ 32.
Proof.
  unfold checksum. change 0xFFFFFFFF with (Z.ones 32). by rewrite Z.land_ones.
Qed.

(** The upload up to the reply, as the board sees it. *)
Lemma load_stream image payload entry chunk gap r t :
  payload ≠ [] → 0 ≤ chunk → Z.of_nat (length payload) < 2 ^ 32 → 0 ≤ entry < 2 ^ 32 →
  let b := board_bytes (header_done (mkBoard r (Header []) []) (Z.of_nat (length payload)) entry)
             (payload ++ int_to_bytes 4 (checksum payload)) in
  load image payload entry chunk gap (mkBoard r (Sync 0) t) =
    (r ← s_read 1;
     if bool_decide (r = [75]) then mret true
     else if bool_decide (r = [69]) then
       st_raise (SystemExit "[s6load] checksum mismatch -- the board rejected the image")
     else if bool_decide (r = [66]) then
       st_raise (SystemExit ("[s6load] the board refused 0x" +:+ fmt_x 8 entry
         +:+ ": the image would overrun the bootloader's stack or fall outside block RAM"))
     else st_raise (SystemExit ("[s6load] unexpected reply " +:+ repr_bytes r))) b.
Proof.
  intros Hne Hc Hl He b. destruct payload as [|p0 ps]; [done|]. unfold load.
  set (payload := p0 :: ps) in *.
  erewrite st_bind_run by reflexivity.
  erewrite st_bind_run by (cbn [s_write BoardPort]; by rewrite board_magic).
  erewrite st_bind_run by reflexivity.
  erewrite st_bind_run by reflexivity.
  cbn [ram st tx app drop]. rewrite bool_decide_true by done. cbn [negb].
  assert (0 ≤ checksum payload < 2 ^ 32) by (rewrite checksum_total; apply Z.mod_pos_bound; lia).
  unfold st_lift. rewrite !pack_I_ok by lia.
  erewrite st_bind_run by reflexivity. erewrite st_bind_run by reflexivity.
  erewrite st_bind_run by (by apply send_board). rewrite board_header by lia.
  erewrite st_bind_run by (apply send_blocks_board; lia).
  erewrite st_bind_run by reflexivity.
  erewrite st_bind_run by (by apply send_board). unfold b. by rewrite board_bytes_app.
Qed.

(** What the board has sent stays sent. *)
Lemma board_byte_tx b c : ∃ x, tx (board_byte b c) = tx b ++ x.
Proof.
  unfold board_byte, header_done. destruct (st b); repeat case_match; cbn [tx];
    first [by eexists|by exists []; rewrite app_nil_r].
Qed.
Lemma board_bytes_tx bs b : ∃ x, tx (board_bytes b bs) = tx b ++ x.
Proof.
  revert b; induction bs as [|c bs IH]; intros b; [by exists []; rewrite app_nil_r|].
  destruct (board_byte_tx b c) as [x Ex]. destruct (IH (board_byte b c)) as [y Ey].
  exists (x ++ y). unfold board_bytes in *. cbn [fold_left]. by rewrite Ey, Ex, app_assoc.
Qed.

(** An upload at an address that is refused: the first byte of the reply is
    the refusal, whatever the board makes of the bytes that follow it. *)
Lemma load_refused image payload entry chunk gap r t :
  payload ≠ [] → 0 ≤ chunk → Z.of_nat (length payload) < 2 ^ 32 → 0 ≤ entry < 2 ^ 32 →
  (entry <? 0x100) || ((Z.of_nat (length r) - 1024) mod 2 ^ 32
     <? (entry + Z.of_nat (length payload)) mod 2 ^ 32) = true →
  load image payload entry chunk gap (mkBoard r (Sync 0) t) =
    Err (SystemExit ("[s6load] the board refused 0x" +:+ fmt_x 8 entry
      +:+ ": the image would overrun the bootloader's stack or fall outside block RAM")).
Proof.
  intros Hne Hc Hl He Hno. rewrite load_stream by done. unfold header_done. cbn [ram tx].
  rewrite Hno. cbn [app].
  destruct (board_bytes_tx (payload ++ int_to_bytes 4 (checksum payload)) (mkBoard r (Sync 0) [66])) as [x Ex].
  cbn [tx] in Ex. erewrite st_bind_run by reflexivity. rewrite Ex. reflexivity.
Qed.

(** An image that fits: it is received, summed up and run. *)
Lemma load_accepted image payload entry chunk gap r t :
  payload ≠ [] → 0 ≤ chunk → Z.of_nat (length r) < 2 ^ 32 → 0x100 ≤ entry →
  entry + Z.of_nat (length payload) ≤ Z.of_nat (length r) - 1024 →
  ∃ r', load image payload entry chunk gap (mkBoard r (Sync 0) t) =
      Ok (true, mkBoard r' (Running entry) []) ∧
    length r' = length r ∧
    ∀ j, r' !! j = if decide (Z.to_nat entry ≤ j < Z.to_nat entry + length payload)%nat
                   then payload !! (j - Z.to_nat entry)%nat else r !! j.
Proof.
  intros Hne Hc Hram He Hfit. rewrite load_stream by (done || lia). unfold header_done. cbn [ram tx].
  assert (0 < Z.of_nat (length payload)) by (destruct payload; [done|simpl; lia]).
  rewrite (proj2 (Z.ltb_ge entry 0x100)) by done. cbn [orb].
  rewrite !Z.mod_small by lia. rewrite (proj2 (Z.ltb_ge _ _)) by lia.
  rewrite (proj2 (Z.eqb_neq _ 0)) by lia. rewrite board_bytes_app.
  destruct (board_payload payload r [] entry (Z.of_nat (length payload)) 0 0)
    as (r' & -> & Hlen & Hj); [done|lia|lia|lia|lia|lia|].
  rewrite board_sum by (rewrite checksum_total; apply Z.mod_pos_bound; lia).
  rewrite checksum_total, Z.add_0_l, Z.eqb_refl. exists r'. split; [reflexivity|].
  split; [done|]. intros j. rewrite Hj, Z.add_0_r.
  replace (Z.to_nat (entry + Z.of_nat (length payload)))
    with (Z.to_nat entry + length payload)%nat by lia. done.
Qed.

(** C11.  An upload to a board waiting in the bootloader, of an image that does
    not wrap around the end of the address space: for every chunk size and gap,
    [load] returns True exactly when the load address is above the vectors and
    the image ends 1024 bytes or more before the end of RAM.  The board has
    then jumped to the entry point, its RAM holds the image there, and no other
    byte of RAM changed; otherwise [load] reports that the board refused the
    address. *)
Theorem load_runs_image image payload entry chunk gap r t :
  payload ≠ [] → 0 ≤ chunk → 1024 ≤ Z.of_nat (length r) < 2 ^ 32 → 0 ≤ entry →
  entry + Z.of_nat (length payload) < 2 ^ 32 →
  if decide (0x100 ≤ entry ∧ entry + Z.of_nat (length payload) ≤ Z.of_nat (length r) - 1024) then
    ∃ r', load image payload entry chunk gap (mkBoard r (Sync 0) t) =
        Ok (true, mkBoard r' (Running entry) []) ∧
      length r' = length r ∧
      ∀ j, r' !! j = if decide (Z.to_nat entry ≤ j < Z.to_nat entry + length payload)%nat
                     then payload !! (j - Z.to_nat entry)%nat else r !! j
  else
    load image payload entry chunk gap (mkBoard r (Sync 0) t) =
      Err (SystemExit ("[s6load] the board refused 0x" +:+ fmt_x 8 entry
        +:+ ": the image would overrun the bootloader's stack or fall outside block RAM")).
Proof.
  intros Hne Hc Hr He Hw. case_decide as Hfit; [destruct Hfit; apply load_accepted; (done || lia)|].
  apply load_refused; [done|done|lia|lia|]. rewrite !Z.mod_small by lia.
  apply orb_true_iff. rewrite !Z.ltb_lt. lia.
Qed.

Lemma load_runs_image_witness :
  (∃ r', load "app.bin" [1; 2; 3] 0x100 8 true (mkBoard (replicate 2048 0) (Sync 0) []) =
      Ok (true, mkBoard r' (Running 0x100) []) ∧
    length r' = 2048%nat ∧
    ∀ j, r' !! j = if decide (256 ≤ j < 256 + 3)%nat
                   then [1; 2; 3] !! (j - 256)%nat else replicate 2048 0 !! j) ∧
  is_ok (load "app.bin" [1; 2; 3] 0x3fe 8 true (mkBoard (replicate 2048 0) (Sync 0) [])) = false.
Proof.
  split.
  - pose proof (load_runs_image "app.bin" [1; 2; 3] 0x100 8 true (replicate 2048 0) []) as H.
    rewrite decide_True in H by (rewrite ?length_replicate; cbn; lia).
    destruct H as (r' & E & Hl & Hj); try (rewrite ?length_replicate; cbn; lia); [done|].
    exists r'. split; [exact E|]. split; [exact Hl|exact Hj].
  - pose proof (load_runs_image "app.bin" [1; 2; 3] 0x3fe 8 true (replicate 2048 0) []) as H.
    rewrite decide_False in H by (rewrite ?length_replicate; cbn; lia).
    rewrite H; try (rewrite ?length_replicate; cbn; lia); done.
Defined.

(** boot.c checks [entry + len] in 32-bit arithmetic: a load address near
    the top of the address space wraps past the check, so the board accepts
    (answers the header with no 'B') an image that lies outside its RAM. *)
Theorem boot_check_wraps :
  let b := mkBoard (replicate 2048 0) (Header []) [] in
  let entry := 2 ^ 32 - 16 in
  st (header_done b 32 entry) = Payload entry 32 0 0 ∧
  Z.of_nat (length (ram b)) < entry.
Proof. split; vm_compute; reflexivity. Qed.

(** ** The console *)

Lemma lf_to_cr_no_lf bs : 10 ∉ lf_to_cr bs.
Proof.
  induction bs as [|b bs IH]; [apply not_elem_of_nil|]. cbn [lf_to_cr map].
  apply not_elem_of_cons. split; [|exact IH]. destruct (Z.eqb_spec b 10); lia.
Qed.

(** Whatever mix of CR, LF and CR LF the host's terminal sends for Enter, the
    board never sees a line feed, and every other key arrives unchanged. *)
Lemma console_keys_spec keys sent :
  console_keys keys = Some sent →
  10 ∉ sent ∧ List.filter (λ b, negb ((b =? 10) || (b =? 13))) sent =
              List.filter (λ b, negb ((b =? 10) || (b =? 13))) keys.
Proof.
  unfold console_keys. case_bool_decide; [done|]. intros [= <-]. split; [apply lf_to_cr_no_lf|].
  clear H. assert (∀ n l, (length l ≤ n)%nat →
    List.filter (λ b, negb ((b =? 10) || (b =? 13))) (lf_to_cr (crlf_to_cr l)) =
    List.filter (λ b, negb ((b =? 10) || (b =? 13))) l) as H; [|by eapply H].
  induction n as [|n IH]; intros [|b l] Hl; try done; [simpl in Hl; lia|].
  assert (crlf_to_cr (b :: l) = b :: crlf_to_cr l ∨
    ∃ l', b = 13 ∧ l = 10 :: l' ∧ crlf_to_cr (b :: l) = 13 :: crlf_to_cr l') as Hc.
  { cbn [crlf_to_cr]. repeat (case_match; simplify_eq; try by left). right; eauto. }
  destruct Hc as [-> | (l' & -> & -> & ->)].
  - cbn [lf_to_cr map List.filter]. fold (lf_to_cr (crlf_to_cr l)).
    rewrite (IH l) by (simpl in Hl; lia).
    destruct (Z.eqb_spec b 10) as [->|Hb]; [done|]. by rewrite (proj2 (Z.eqb_neq b 10) Hb).
  - cbn [lf_to_cr map List.filter]. fold (lf_to_cr (crlf_to_cr l')). cbn -[lf_to_cr crlf_to_cr].
    apply IH. simpl in Hl. lia.
Qed.

End S6loadSpec.
