(* ===== verification/Fmt.v ===== *)
(** * Python's [template % dict] formatting

    The subset the generators use: [%(key)s], [%(key)d], [%(key)0<w>x] and
    [%%].  A template is parsed into pieces and the pieces are rendered with a
    dictionary; a missing key raises [KeyError], a number conversion of a
    string [TypeError], anything else after a [%] [ValueError]. *)
From S2P Require Import Prelude Hex PyStr.

Module Fmt.
Import Hex PyStr.

Inductive val := VStr (s : string) | VInt (n : Z).
Inductive conv := ConvS | ConvD | ConvX (width : nat).
Inductive piece := Lit (s : string) | Sub (key : string) (c : conv).

(** A conversion after the key: [s], [d] or [0<w>x] with one digit of width. *)
Definition parse_conv (s : string) : option (conv * string) :=
  match s with
  | String "s" s => Some (ConvS, s)
  | String "d" s => Some (ConvD, s)
  | String "0" (String w (String "x" s)) =>
      d ← digit_val w; Some (ConvX (Z.to_nat d), s)
  | _ => None
  end.

(** The text up to a closing parenthesis, and what follows it. *)
Fixpoint split_paren (s : string) : option (string * string) :=
  match s with
  | EmptyString => None
  | String ")" s => Some ("", s)
  | String c s => kr ← split_paren s; Some (String c kr.1, kr.2)
  end.

(** Prefixes a character to the literal at the front. *)
Definition lit_cons (c : ascii) (ps : list piece) : list piece :=
  match ps with
  | Lit s :: ps => Lit (String c s) :: ps
  | _ => Lit (String c "") :: ps
  end.

Fixpoint parse_go (fuel : nat) (s : string) : res (list piece) :=
  match s with
  | EmptyString => Ok []
  | String c s' =>
      match fuel with
      | O => Err OutOfFuel
      | S fuel =>
          if negb (Ascii.eqb c "%"%char) then
            let* ps := parse_go fuel s' in Ok (lit_cons c ps)
          else
            match s' with
            | String "%" s'' => let* ps := parse_go fuel s'' in Ok (lit_cons "%"%char ps)
            | String "(" s'' =>
                match split_paren s'' with
                | None => Err ValueError
                | Some (key, r) =>
                    match parse_conv r with
                    | None => Err ValueError
                    | Some (cv, r) => let* ps := parse_go fuel r in Ok (Sub key cv :: ps)
                    end
                end
            | _ => Err ValueError
            end
      end
  end.
Definition parse (s : string) : res (list piece) := parse_go (String.length s) s.

(** ** Rendering *)

Definition dict := list (string * val).

Fixpoint lookup (k : string) (d : dict) : res val :=
  match d with
  | [] => Err (KeyError k)
  | (k', v) :: d => if String.eqb k k' then Ok v else lookup k d
  end.

Definition render_val (c : conv) (v : val) : res string :=
  match c, v with
  | ConvS, VStr s => Ok s
  | ConvS, VInt n => Ok (pretty n)
  | ConvD, VInt n => Ok (pretty n)
  | ConvX w, VInt n => Ok (fmt_x w n)
  | _, VStr _ => Err TypeError
  end.

Definition render_piece (d : dict) (p : piece) : res string :=
  match p with
  | Lit s => Ok s
  | Sub k c => let* v := lookup k d in render_val c v
  end.

Definition render (ps : list piece) (d : dict) : res string :=
  let* ss := res_map (render_piece d) ps in
  Ok (foldr String.append "" ss).

(** [t % d] *)
Definition fmt (t : string) (d : dict) : res string :=
  let* ps := parse t in render ps d.

(** ** Templates that cannot fail *)

Inductive ty := TStr | TInt.

Definition conv_ok (c : conv) (t : ty) : bool :=
  match c, t with ConvS, _ => true | _, TInt => true | _, TStr => false end.

Fixpoint sig_lookup (k : string) (sig : list (string * ty)) : option ty :=
  match sig with
  | [] => None
  | (k', t) :: sig => if String.eqb k k' then Some t else sig_lookup k sig
  end.

Definition piece_ok (sig : list (string * ty)) (p : piece) : bool :=
  match p with
  | Lit _ => true
  | Sub k c => match sig_lookup k sig with Some t => conv_ok c t | None => false end
  end.

(** Every key of the template is in the signature, with a type its conversion
    accepts. *)
Definition template_ok (sig : list (string * ty)) (t : string) : bool :=
  match parse t with Ok ps => forallb (piece_ok sig) ps | Err _ => false end.

Definition has_ty (v : val) (t : ty) : Prop :=
  match v, t with VStr _, TStr => True | VInt _, TInt => True | _, _ => False end.

(** The dictionary has exactly the entries of the signature, in order. *)
Definition dict_ok (d : dict) (sig : list (string * ty)) : Prop :=
  Forall2 (λ kv kt, kv.1 = kt.1 ∧ has_ty kv.2 kt.2) d sig.

Lemma lookup_sig d sig k t :
  dict_ok d sig → sig_lookup k sig = Some t → ∃ v, lookup k d = Ok v ∧ has_ty v t.
Proof.
  induction 1 as [|[k1 v] [k2 t'] d sig [E Ht] _ IH]; simpl in *; [done|]. subst k2.
  destruct (String.eqb k k1); [|done]. intros [= ->]. eauto.
Qed.

(** A checked template renders with every dictionary of its signature. *)
Lemma fmt_total sig t d : template_ok sig t = true → dict_ok d sig → ∃ s, fmt t d = Ok s.
Proof.
  unfold template_ok, fmt. destruct (parse t) as [ps|]; [|done]. intros Hp Hd. cbn [res_bind].
  unfold render. enough (∃ ss, res_map (render_piece d) ps = Ok ss) as [ss ->] by (cbn; eauto).
  induction ps as [|p ps IH]; [cbn; eauto|].
  cbn [forallb] in Hp. apply andb_true_iff in Hp as [Hp Hps].
  destruct (IH Hps) as [ss E]. cbn [res_map].
  assert (∃ s, render_piece d p = Ok s) as [s ->].
  { destruct p as [s|k c]; cbn; [eauto|]. cbn in Hp.
    destruct (sig_lookup k sig) as [t'|] eqn:Ek; [|done].
    destruct (lookup_sig d sig k t' Hd Ek) as (v & -> & Hv). cbn.
    destruct c, t', v; cbn in *; eauto; done. }
  cbn. rewrite E. cbn. eauto.
Qed.

End Fmt.
