(* ===== verification/RvTemplates.v ===== *)
(** * The templates of tools/rvgen/rvgen.py

    The generated Verilog, constraints, makefiles and C are Python
    %-templates; they are transcribed here character for character.  A double
    quote is written [^] and put back by [Q] (no template contains a caret). *)
From S2P Require Import Prelude Hex PyStr Fmt.

Module RvTemplates.
Import PyStr.

Fixpoint Q (s : string) : string :=
  match s with
  | EmptyString => ""
  | String c s => String (if Ascii.eqb c "^"%char then quote else c) (Q s)
  end.

Definition LINKER : string := Q "/* generated by tools/rvgen -- self-test layout for this configuration */
ENTRY(_start)
SECTIONS
{
    . = 0x00000000;
    .text   : { *(.text.init) *(.text*) }
    .rodata : { *(.rodata*) *(.srodata*) }
    .data   : { *(.data*) *(.sdata*) }
    .bss    : { __bss_start = .; *(.bss*) *(.sbss*) *(COMMON) . = ALIGN(4); __bss_end = .; }
    __stack_top = %(dmem)d;
    ASSERT(__bss_end + 1024 <= __stack_top, ^image + .bss + 1 KiB of stack do not fit in DMEM^)
    ASSERT(SIZEOF(.text) + SIZEOF(.rodata) + SIZEOF(.data) <= %(imem)d, ^image does not fit in IMEM^)
}
".

Definition HEADER : string := Q "// ---------------------------------------------------------------------------
// GENERATED by riscv-from-scratch tools/rvgen from rvconfig -- do not edit;
// change the configuration (make menuconfig) and regenerate instead.
//
//   %(summary)s
// ---------------------------------------------------------------------------
".

Definition STANDALONE_TOP : string := HEADER +:+ Q "`default_nettype none

module %(name)s_top #(
    // the firmware is baked into block RAM. Synthesis runs from the OpenZynq
    // root; the testbench overrides these with its own relative paths.
    parameter FW_HEX       = ^projects/%(name)s/fw/firmware.hex^,
    parameter CLKS_PER_BIT = %(cpb)d             // %(clk)d Hz / %(baud)d baud
) (
    input  wire clk,          // 50 MHz PL oscillator (U18)
    input  wire resetn,       // PL reset button K1 (U19), active low
    output wire led,          // D6
    output wire led2,         // D7
%(btn_ports)s    output wire uart_tx       // %(pin)s
);
    // ---- reset: power-on counter + synchronised button ----
    reg [7:0] por = 8'd0;
    reg [1:0] rbtn = 2'b00;
    always @(posedge clk) begin
        rbtn <= {rbtn[0], resetn};
        if (!rbtn[1])          por <= 8'd0;
        else if (!por[7])      por <= por + 8'd1;
    end
    wire rst = ~por[7];

    wire       con_valid, con_ready, halted;
    wire [7:0] con_data;
    wire [1:0] gpio_out;
    wire [31:0] exit_code;
%(btn_sync)s
    oz_rv_soc #(
        %(params)s
    ) u_soc (
        .clk(clk), .rst(rst),
        .con_valid(con_valid), .con_data(con_data), .con_ready(con_ready),
        .gpio_out(gpio_out), .gpio_in(gpio_in),
        .halted(halted), .exit_code(exit_code), .retire(),
        .h_en(1'b0), .h_dmem(1'b0), .h_we(1'b0), .h_addr(16'd0), .h_wdata(32'd0), .h_rdata()
    );

    oz_uart #(.CLKS_PER_BIT(CLKS_PER_BIT)) u_uart (
        .clk(clk), .rst(rst), .valid(con_valid), .data(con_data), .ready(con_ready),
        .tx(uart_tx));

    // ---- LEDs ----
    reg [24:0] beat = 25'd0;
    always @(posedge clk) beat <= beat + 25'd1;
%(leds)s
endmodule

`default_nettype wire
".

Definition PS_CORE : string := HEADER +:+ Q "`default_nettype none

// The core plus its AXI4-Lite bridge, with M_AXI_GP0 as plain ports: this is
// what the testbench drives (the PS7 has no simulation model); <name>_top
// binds it to the real PS7.
module %(name)s (
    input  wire        clk,       // 50 MHz PL oscillator: the core clock
    input  wire        resetn,    // PL reset button K1
    output wire        led,
    output wire        led2,
%(btn_ports)s
    input  wire        m_axi_gp0_aclk,
    input  wire        m_axi_gp0_aresetn,
    input  wire [31:0] m_axi_gp0_awaddr,
    input  wire        m_axi_gp0_awvalid,
    output wire        m_axi_gp0_awready,
    input  wire [31:0] m_axi_gp0_wdata,
    input  wire [3:0]  m_axi_gp0_wstrb,
    input  wire        m_axi_gp0_wvalid,
    output wire        m_axi_gp0_wready,
    output wire [1:0]  m_axi_gp0_bresp,
    output wire        m_axi_gp0_bvalid,
    input  wire        m_axi_gp0_bready,
    input  wire [31:0] m_axi_gp0_araddr,
    input  wire        m_axi_gp0_arvalid,
    output wire        m_axi_gp0_arready,
    output wire [31:0] m_axi_gp0_rdata,
    output wire [1:0]  m_axi_gp0_rresp,
    output wire        m_axi_gp0_rvalid,
    input  wire        m_axi_gp0_rready
);
    // ---- core-domain reset: power-on, the button, and CTRL.run from the PS ----
    reg [7:0] por = 8'd0;
    reg [1:0] rbtn = 2'b00;
    always @(posedge clk) begin
        rbtn <= {rbtn[0], resetn};
        if (!rbtn[1])          por <= 8'd0;
        else if (!por[7])      por <= por + 8'd1;
    end
    wire crst = ~por[7];
    wire run;
    wire rst  = crst | ~run;

    wire        con_valid, con_ready, halted, h_en, h_dmem, h_we;
    wire [7:0]  con_data;
    wire [1:0]  gpio_out;
    wire [15:0] h_addr;
    wire [31:0] exit_code, h_wdata, h_rdata;
%(btn_sync)s
    oz_rv_soc #(
        %(params)s
    ) u_soc (
        .clk(clk), .rst(rst),
        .con_valid(con_valid), .con_data(con_data), .con_ready(con_ready),
        .gpio_out(gpio_out), .gpio_in(gpio_in),
        .halted(halted), .exit_code(exit_code), .retire(),
        .h_en(h_en), .h_dmem(h_dmem), .h_we(h_we), .h_addr(h_addr),
        .h_wdata(h_wdata), .h_rdata(h_rdata)
    );

    oz_host #(.FEATURES(32'h%(features)08x), .IMEM_BYTES(%(imem_b)d), .DMEM_BYTES(%(dmem_b)d),
              .CFG_HASH(32'h%(hash)08x), .CORE_HZ(%(clk)d)) u_host (
        .aclk(m_axi_gp0_aclk), .aresetn(m_axi_gp0_aresetn),
        .awaddr(m_axi_gp0_awaddr), .awvalid(m_axi_gp0_awvalid), .awready(m_axi_gp0_awready),
        .wdata(m_axi_gp0_wdata), .wstrb(m_axi_gp0_wstrb), .wvalid(m_axi_gp0_wvalid),
        .wready(m_axi_gp0_wready), .bresp(m_axi_gp0_bresp), .bvalid(m_axi_gp0_bvalid),
        .bready(m_axi_gp0_bready), .araddr(m_axi_gp0_araddr), .arvalid(m_axi_gp0_arvalid),
        .arready(m_axi_gp0_arready), .rdata(m_axi_gp0_rdata), .rresp(m_axi_gp0_rresp),
        .rvalid(m_axi_gp0_rvalid), .rready(m_axi_gp0_rready),
        .cclk(clk), .crst(crst), .run(run),
        .con_valid(con_valid), .con_data(con_data), .con_ready(con_ready),
        .halted(halted), .exit_code(exit_code),
        .h_en(h_en), .h_dmem(h_dmem), .h_we(h_we), .h_addr(h_addr),
        .h_wdata(h_wdata), .h_rdata(h_rdata)
    );

    reg [24:0] beat = 25'd0;
    always @(posedge clk) beat <= beat + 25'd1;
%(leds)s
endmodule

`default_nettype wire
".

Definition PS_TOP : string := HEADER +:+ Q "`default_nettype none

// synthesis top: %(name)s bound to the PS7 (rtl/ps7_gp0.v, OpenZynq shared RTL)
module %(name)s_top (
    input  wire clk,
    input  wire resetn,
%(btn_ports)s    output wire led,
    output wire led2
);
    wire        aclk, aresetn;
    wire [31:0] awaddr, wdata, araddr, rdata;
    wire [3:0]  wstrb;
    wire        awvalid, awready, wvalid, wready, bvalid, bready;
    wire        arvalid, arready, rvalid, rready;
    wire [1:0]  bresp, rresp;

    ps7_gp0 u_ps7 (
        .aclk(aclk), .aresetn(aresetn),
        .m_awaddr(awaddr), .m_awvalid(awvalid), .m_awready(awready),
        .m_wdata(wdata), .m_wstrb(wstrb), .m_wvalid(wvalid), .m_wready(wready),
        .m_bresp(bresp), .m_bvalid(bvalid), .m_bready(bready),
        .m_araddr(araddr), .m_arvalid(arvalid), .m_arready(arready),
        .m_rdata(rdata), .m_rresp(rresp), .m_rvalid(rvalid), .m_rready(rready)
    );

    %(name)s u_core (
        .clk(clk), .resetn(resetn), .led(led), .led2(led2),%(btn_conn)s
        .m_axi_gp0_aclk(aclk), .m_axi_gp0_aresetn(aresetn),
        .m_axi_gp0_awaddr(awaddr), .m_axi_gp0_awvalid(awvalid), .m_axi_gp0_awready(awready),
        .m_axi_gp0_wdata(wdata), .m_axi_gp0_wstrb(wstrb), .m_axi_gp0_wvalid(wvalid),
        .m_axi_gp0_wready(wready), .m_axi_gp0_bresp(bresp), .m_axi_gp0_bvalid(bvalid),
        .m_axi_gp0_bready(bready), .m_axi_gp0_araddr(araddr), .m_axi_gp0_arvalid(arvalid),
        .m_axi_gp0_arready(arready), .m_axi_gp0_rdata(rdata), .m_axi_gp0_rresp(rresp),
        .m_axi_gp0_rvalid(rvalid), .m_axi_gp0_rready(rready)
    );
endmodule

`default_nettype wire
".

Definition TB_STANDALONE : string := HEADER +:+ Q "`timescale 1ns/1ps
`default_nettype none

// Runs the firmware on %(name)s_top, decodes the UART TX pin bit by bit
// (as a USB-serial adapter would), and passes if the program printed
// ^ALL PASS^ and halted with exit code 0. `make sim PROJECT=%(name)s`.
module tb_%(name)s_top;
    localparam CPB = 8;                         // fast UART for simulation
    reg clk = 0, resetn = 0;
    wire led, led2, tx;
    always #10 clk = ~clk;                      // 50 MHz

    %(name)s_top #(.FW_HEX(^../../projects/%(name)s/fw/firmware.hex^), .CLKS_PER_BIT(CPB)) dut (
        .clk(clk), .resetn(resetn), .led(led), .led2(led2),%(btn_tb)s .uart_tx(tx));

    // ---- UART receiver on the pin ----
    reg [7:0] line [0:4095]; integer nl = 0, k;
    reg [7:0] b;
    initial forever begin
        @(negedge tx);
        repeat (CPB + CPB/2) @(posedge clk);
        for (k = 0; k < 8; k = k + 1) begin b[k] = tx; repeat (CPB) @(posedge clk); end
        $write(^%%c^, b);
        line[nl] = b; nl = nl + 1;
    end

    function seen_all_pass; input dummy; integer i;
        begin
            seen_all_pass = 0;
            for (i = 0; i + 8 <= nl; i = i + 1)
                if (line[i]==^A^ && line[i+1]==^L^ && line[i+2]==^L^ && line[i+3]==^ ^ &&
                    line[i+4]==^P^ && line[i+5]==^A^ && line[i+6]==^S^ && line[i+7]==^S^)
                    seen_all_pass = 1;
        end
    endfunction

    integer cyc = 0;
    initial begin
        $dumpfile(^tb_%(name)s_top.vcd^); $dumpvars(1, tb_%(name)s_top);
        repeat (5) @(posedge clk); resetn = 1;
        while (!dut.u_soc.halted && cyc < 4000000) begin @(posedge clk); cyc = cyc + 1; end
        repeat (40 * CPB) @(posedge clk);       // let the last byte drain
        if (dut.u_soc.halted && dut.u_soc.exit_code == 0 && seen_all_pass(0))
            $display(^\nPASS: %(name)s self-test, %%0d cycles, exit code 0^, cyc);
        else
            $display(^\nFAIL: %(name)s halted=%%0d exit=%%0d all_pass=%%0d^,
                     dut.u_soc.halted, dut.u_soc.exit_code, seen_all_pass(0));
        $finish;
    end
endmodule

`default_nettype wire
".

Definition TB_PS : string := HEADER +:+ Q "`timescale 1ns/1ps
`default_nettype none

// Plays the Cortex-A9 against %(name)s over AXI4-Lite, exactly as ps/main.c
// does on the board: check ID / config hash, load the firmware into IMEM and
// DMEM, read it back, set CTRL.run, relay the console, and pass if the
// program printed ^ALL PASS^ and halted with exit code 0.
module tb_%(name)s;
    reg clk = 0, aclk = 0, resetn = 0, aresetn = 0;
    always #10 clk  = ~clk;                     // 50 MHz core clock
    always #5  aclk = ~aclk;                    // 100 MHz FCLK0
    wire led, led2;

    reg  [31:0] awaddr = 0, wdata = 0, araddr = 0;
    reg         awvalid = 0, wvalid = 0, arvalid = 0;
    wire        awready, wready, bvalid, arready, rvalid;
    wire [31:0] rdata;
    wire [1:0]  bresp, rresp;

    %(name)s dut (
        .clk(clk), .resetn(resetn), .led(led), .led2(led2),%(btn_tb)s
        .m_axi_gp0_aclk(aclk), .m_axi_gp0_aresetn(aresetn),
        .m_axi_gp0_awaddr(awaddr), .m_axi_gp0_awvalid(awvalid), .m_axi_gp0_awready(awready),
        .m_axi_gp0_wdata(wdata), .m_axi_gp0_wstrb(4'hF), .m_axi_gp0_wvalid(wvalid),
        .m_axi_gp0_wready(wready), .m_axi_gp0_bresp(bresp), .m_axi_gp0_bvalid(bvalid),
        .m_axi_gp0_bready(1'b1), .m_axi_gp0_araddr(araddr), .m_axi_gp0_arvalid(arvalid),
        .m_axi_gp0_arready(arready), .m_axi_gp0_rdata(rdata), .m_axi_gp0_rresp(rresp),
        .m_axi_gp0_rvalid(rvalid), .m_axi_gp0_rready(1'b1));

    task axi_wr; input [31:0] a, d;
        begin
            @(posedge aclk); awaddr <= a; wdata <= d; awvalid <= 1; wvalid <= 1;
            @(posedge aclk); while (!(awready && wready)) @(posedge aclk);
            awvalid <= 0; wvalid <= 0;
            while (!bvalid) @(posedge aclk);
        end
    endtask
    task axi_rd; input [31:0] a; output [31:0] d;
        begin
            @(posedge aclk); araddr <= a; arvalid <= 1;
            @(posedge aclk); while (!arready) @(posedge aclk);
            arvalid <= 0;
            while (!rvalid) @(posedge aclk);
            d = rdata;
        end
    endtask

    localparam BASE = 32'h4000_0000, IMEM = BASE + 32'h10_0000, DMEM = BASE + 32'h20_0000;
    reg [31:0] img [0:%(img_words)d];
    reg [31:0] v, st;
    reg [7:0]  line [0:4095];
    integer    n, nw, nl = 0, bad = 0, polls = 0, pass_seen;

    initial begin
        for (n = 0; n <= %(img_words)d; n = n + 1) img[n] = 32'hxxxxxxxx;
        $readmemh(^../../projects/%(name)s/fw/firmware.hex^, img);
        nw = 0; while (nw <= %(img_words)d && img[nw] !== 32'hxxxxxxxx) nw = nw + 1;
        repeat (4) @(posedge clk); resetn = 1; aresetn = 1;

        axi_rd(BASE + 32'h00, v);
        if (v !== 32'h4F5A5256) begin $display(^FAIL: ID %%h^, v); $finish; end
        axi_rd(BASE + 32'h20, v);
        if (v !== 32'h%(hash)08x) begin $display(^FAIL: config hash %%h^, v); $finish; end
        for (n = 0; n < nw; n = n + 1) begin
            axi_wr(IMEM + 4*n, img[n]);
            axi_wr(DMEM + 4*n, img[n]);           // data side holds the image too
        end
        for (n = 0; n < nw; n = n + 1) begin
            axi_rd(IMEM + 4*n, v); if (v !== img[n]) bad = bad + 1;
        end
        $display(^loaded %%0d words, %%0d readback mismatches^, nw, bad);
        axi_wr(BASE + 32'h04, 1);                 // CTRL.run

        st = 0;
        while (!(st[1] && !st[2]) && polls < 2000000) begin
            axi_rd(BASE + 32'h10, v);             // CONSOLE (pops)
            if (v[8]) begin $write(^%%c^, v[7:0]); line[nl] = v[7:0]; nl = nl + 1; end
            axi_rd(BASE + 32'h08, st);
            polls = polls + 1;
        end
        axi_rd(BASE + 32'h0C, v);
        pass_seen = 0;
        for (n = 0; n + 8 <= nl; n = n + 1)
            if (line[n]==^A^ && line[n+1]==^L^ && line[n+2]==^L^ && line[n+3]==^ ^ &&
                line[n+4]==^P^ && line[n+5]==^A^ && line[n+6]==^S^ && line[n+7]==^S^) pass_seen = 1;
        if (st[1] && v == 0 && pass_seen && bad == 0)
            $display(^\nPASS: %(name)s self-test over AXI, exit code 0^);
        else
            $display(^\nFAIL: %(name)s halted=%%0d exit=%%0d all_pass=%%0d bad=%%0d^, st[1], v, pass_seen, bad);
        $finish;
    end
endmodule

`default_nettype wire
".

Definition XDC : string := Q "# ----------------------------------------------------------------------------
#  GENERATED by riscv-from-scratch tools/rvgen -- %(summary)s
#  Pins from boards/mitra7010/mitra7010.xdc and boards/mitra7010/pinout.md.
# ----------------------------------------------------------------------------
set_property PACKAGE_PIN U18     [get_ports clk]
set_property IOSTANDARD LVCMOS33 [get_ports clk]
create_clock -period 20.000 -name sys_clk [get_ports clk]

set_property PACKAGE_PIN U19     [get_ports resetn]
set_property IOSTANDARD LVCMOS33 [get_ports resetn]

set_property PACKAGE_PIN R19     [get_ports led]
set_property IOSTANDARD LVCMOS33 [get_ports led]
set_property PACKAGE_PIN V13     [get_ports led2]
set_property IOSTANDARD LVCMOS33 [get_ports led2]
%(extra)s".

Definition PROJECT_MK : string := Q "# GENERATED by riscv-from-scratch tools/rvgen -- %(summary)s
# Regenerate instead of editing: make menuconfig && make oz-export OZ=<this repo>
TOP      := %(top)s
SIM_TOP  := %(sim_top)s
XDC      := projects/%(name)s/%(name)s.xdc

RV_RTL   := %(rtl)s
SIM_SRCS := $(addprefix projects/%(name)s/,$(RV_RTL)) %(sim_extra)s
SRCS     := $(SIM_SRCS) %(syn_extra)s

# The program lives in block RAM, so let Yosys infer it (the flow's default
# passes -nobram).
SYNTH_OPTS := -flatten -abc9 -arch xc7
%(ps_mk)s".

Definition PS_MAIN : string := Q "// ---------------------------------------------------------------------------
// GENERATED by riscv-from-scratch tools/rvgen -- %(summary)s
//
// The Cortex-A9 side of a PS-attached RISC-V: checks that the bitstream is
// the configuration this program was built for, loads the RISC-V firmware
// (rv_firmware.h) into the PL instruction and data memories over M_AXI_GP0,
// releases the core, and copies everything it prints to UART0 (the CH340
// USB-UART, 115200 8N1) until it halts. Then it reports the exit code.
//
//   docker compose run --rm oz make run PROJECT=%(name)s
// ---------------------------------------------------------------------------
#include <stdint.h>
#include ^rv_firmware.h^

#ifdef HAS_PS7_INIT
extern int ps7_init(void);
extern int ps7_post_config(void);
#endif

#define RV_BASE     0x40000000u
#define RV_ID       (*(volatile uint32_t *)(RV_BASE + 0x00))
#define RV_CTRL     (*(volatile uint32_t *)(RV_BASE + 0x04))
#define RV_STATUS   (*(volatile uint32_t *)(RV_BASE + 0x08))
#define RV_EXIT     (*(volatile uint32_t *)(RV_BASE + 0x0C))
#define RV_CONSOLE  (*(volatile uint32_t *)(RV_BASE + 0x10))
#define RV_FEATURES (*(volatile uint32_t *)(RV_BASE + 0x14))
#define RV_HASH     (*(volatile uint32_t *)(RV_BASE + 0x20))
#define RV_IMEM     ((volatile uint32_t *)(RV_BASE + 0x100000))
#define RV_DMEM     ((volatile uint32_t *)(RV_BASE + 0x200000))

// ---- UART0 (Cadence UART, MIO 10/11) -- as projects/ps_pl_demo/ps/main.c ----
#define UART0_BASE  0xE0000000u
#define UART_CR     0x00
#define UART_MR     0x04
#define UART_BAUDGEN 0x18
#define UART_SR     0x2C
#define UART_TXRX   0x30
#define UART_BDIV   0x34
static void uart_init(void) {
    volatile uint32_t *u = (volatile uint32_t *)UART0_BASE;
    u[UART_CR / 4] = 0x03;                       // reset RX/TX
    u[UART_MR / 4] = 0x20;                       // 8N1
    u[UART_BAUDGEN / 4] = 124;                   // 100 MHz / (124 * 7) = 115207
    u[UART_BDIV / 4] = 6;
    u[UART_CR / 4] = 0x14;                       // TX + RX enable
}
static void putc_(char c) {
    volatile uint32_t *u = (volatile uint32_t *)UART0_BASE;
    if (c == '\n') putc_('\r');
    while (u[UART_SR / 4] & (1u << 4)) { }       // TX FIFO full
    u[UART_TXRX / 4] = (uint32_t)c;
}
static void puts_(const char *s) { while (*s) putc_(*s++); }
static void puthex(uint32_t v) {
    puts_(^0x^);
    for (int i = 28; i >= 0; i -= 4) putc_(^0123456789abcdef^[(v >> i) & 15]);
}

int main(void) {
#ifdef HAS_PS7_INIT
    if (ps7_init() == 0) ps7_post_config();      // post_config: PS->PL level shifters
#endif
    uart_init();
    puts_(^\n== OpenZynq RISC-V (%(name)s) ==\n^);
    puts_(^   %(summary)s\n^);

    if (RV_ID != 0x4F5A5256u) { puts_(^no RISC-V in the PL (ID ^); puthex(RV_ID); puts_(^)\n^); for (;;) { } }
    if (RV_HASH != RV_CFG_HASH) {
        puts_(^bitstream config ^); puthex(RV_HASH); puts_(^ != firmware config ^); puthex(RV_CFG_HASH);
        puts_(^\nrebuild both from the same rvconfig\n^);
        for (;;) { }
    }

    RV_CTRL = 0;                                  // hold the core in reset
    for (uint32_t i = 0; i < RV_FW_WORDS; i++) { RV_IMEM[i] = rv_fw[i]; RV_DMEM[i] = rv_fw[i]; }
    uint32_t bad = 0;
    for (uint32_t i = 0; i < RV_FW_WORDS; i++) if (RV_IMEM[i] != rv_fw[i]) bad++;
    puts_(^   loaded ^); puthex(RV_FW_WORDS * 4); puts_(^ bytes, readback errors ^); puthex(bad);
    puts_(^\n-- RISC-V console --\n^);

    RV_CTRL = 1;                                  // run
    for (;;) {
        uint32_t c = RV_CONSOLE;
        if (c & 0x100u) { putc_((char)c); continue; }
        if (RV_STATUS & 2u) break;                // halted, console drained
    }
    while (RV_CONSOLE & 0x100u) { }
    puts_(^-- RISC-V halted, exit code ^); puthex(RV_EXIT); puts_(RV_EXIT == 0 ? ^ (pass)\n^ : ^ (FAIL)\n^);
    for (;;) asm volatile (^wfi^);
    return 0;
}
".

Definition PS_MAKEFILE : string := Q "# GENERATED by riscv-from-scratch tools/rvgen.
# The Cortex-A9 program for %(name)s: copied from projects/ps_pl_demo/ps,
# building ps/build/%(name)s.elf (the name `make run PROJECT=%(name)s` loads).
TOOLCHAIN := arm-none-eabi-
CC := $(TOOLCHAIN)gcc
OBJCP := $(TOOLCHAIN)objcopy
SIZE := $(TOOLCHAIN)size
BUILD_DIR := build
SRCS := main.c startup.S
PS7_INIT_C := $(wildcard ps7_init.c)
ifneq ($(PS7_INIT_C),)
SRCS += $(PS7_INIT_C)
PS7_INIT_DEF := -DHAS_PS7_INIT
endif
OBJS := $(SRCS:%%.S=$(BUILD_DIR)/%%.o)
OBJS := $(OBJS:%%.c=$(BUILD_DIR)/%%.o)
ARCH_FLAGS := -mcpu=cortex-a9 -mfloat-abi=hard -mfpu=neon-fp16 -mthumb-interwork
CFLAGS  := $(ARCH_FLAGS) -O2 -ffreestanding -nostdlib -fno-common -Wall -Wextra $(PS7_INIT_DEF) -I.
LDFLAGS := $(ARCH_FLAGS) -ffreestanding -nostdlib -Wl,-T,linker.ld -Wl,--gc-sections -lgcc

.PHONY: all genz vivado-init clean
all: $(BUILD_DIR)/%(name)s.elf
$(BUILD_DIR)/%%.o: %%.c rv_firmware.h | $(BUILD_DIR)
	$(CC) $(CFLAGS) -c $< -o $@
$(BUILD_DIR)/%%.o: %%.S | $(BUILD_DIR)
	$(CC) $(CFLAGS) -c $< -o $@
$(BUILD_DIR)/%(name)s.elf: $(OBJS) linker.ld
	$(CC) $(LDFLAGS) $(OBJS) -o $@
	$(SIZE) $@
$(BUILD_DIR):
	mkdir -p $(BUILD_DIR)
clean:
	rm -rf $(BUILD_DIR)
BOARD    ?= mitra7010
genz:
	cp ../../../boards/$(BOARD)/ps7_init/ps7_init.c ../../../boards/$(BOARD)/ps7_init/ps7_init.h .
vivado-init:
	cp ../../../boards/$(BOARD)/ps7_init_vivado/ps7_init.c ../../../boards/$(BOARD)/ps7_init_vivado/ps7_init.h .
".

End RvTemplates.
