(* ===== verification/Rvgen.v ===== *)
(** * tools/rvgen/rvgen.py: the configuration and what is derived from it

    [Cfg_init] reads the resolved Kconfig symbols ([syms] maps a name to its
    [str_value]; [exists_] is [os.path.exists]); the methods of [Cfg], the RTL
    selection, the SoC parameters and the firmware texts follow. *)
From S2P Require Import Prelude Hex PyStr Fmt RvTemplates.

Module Rvgen.
Import Hex PyStr Fmt RvTemplates.
Local Open Scope Z_scope.

Definition PL_CLK_HZ : Z := 50000000.
Definition MARKER : string := ".rvgen".

Definition die {A} (msg : string) : res A := Err (SystemExit ("rvgen: error: " +:+ msg)).

(** ** Python's repr(s) *)

(** [%r] of an ASCII string. *)
Definition repr_char (q c : ascii) : string :=
  let n := Z.of_N (Ascii.N_of_ascii c) in
  if Ascii.eqb c q || Ascii.eqb c "\"%char then String "\" (String c "")
  else if n =? 9 then "\t" else if n =? 10 then "\n" else if n =? 13 then "\r"
  else if (32 <=? n) && (n <? 127) then String c ""
  else "\x" +:+ fmt_x 2 n.
Fixpoint repr_chars (q : ascii) (s : string) : string :=
  match s with EmptyString => "" | String c s => repr_char q c +:+ repr_chars q s end.
Definition repr (s : string) : string :=
  let q := if has_char "'"%char s && negb (has_char quote s) then quote else "'"%char in
  String q (repr_chars q s +:+ String q "").

(** [re.fullmatch(r"[a-z][a-z0-9_]*", s)] *)
Definition is_lower (c : ascii) : bool :=
  let n := Ascii.N_of_ascii c in (97 <=? n)%N && (n <=? 122)%N.
Definition is_name_char (c : ascii) : bool :=
  let n := Ascii.N_of_ascii c in
  is_lower c || ((48 <=? n)%N && (n <=? 57)%N) || Ascii.eqb c "_"%char.
Fixpoint all_chars (p : ascii → bool) (s : string) : bool :=
  match s with EmptyString => true | String c s => p c && all_chars p s end.
Definition name_ok (s : string) : bool :=
  match s with
  | EmptyString => false
  | String c s => is_lower c && all_chars is_name_char s
  end.

(** ** Cfg (rvgen.py) *)

Record Cfg := mkCfg {
  name : string; ps : bool; pipe : bool;
  m : bool; a : bool; c : bool; f : bool;
  zba : bool; zbb : bool; zbc : bool; zbs : bool;
  v : bool; cnt : bool; vlen : Z;
  u : bool; s : bool; mmu : bool; tlb : Z;
  bp : bool; bp_bits : Z;
  imem_kb : Z; dmem_kb : Z;
  caches : bool; line_words : Z; i_lines : Z; d_lines : Z;
  timer : bool; gpio : bool; uart_pin : string; baud : Z;
  fw_custom : bool; fw_hex : string;
  text : string          (** what [kconf.write_config] writes *)
}.

Definition core_id (g : Cfg) : Z := if pipe g then 0 else if c g then 2 else if f g then 3 else 1.
Definition core_module (g : Cfg) : string :=
  if pipe g then "cpu_pipe_u" else if c g then "cpu_mc_c" else if f g then "cpu_mc_f" else "cpu_mc".

(** [v & (v - 1)] *)
Definition not_pow2 (v : Z) : bool := negb (Z.land v (v - 1) =? 0).

Definition or_default (v d : Z) : Z := if v =? 0 then d else v.

Section init.
Context (syms : string → option string) (exists_ : string → bool) (text : string).

Definition sym (n : string) : res string :=
  match syms n with Some x => Ok x | None => Err (KeyError n) end.
Definition b (n : string) : res bool := let* x := sym n in Ok (String.eqb x "y").
Definition i (n : string) : res Z :=
  let* x := sym n in if String.eqb x "" then Ok 0 else int10 x.

(** The power-of-two checks, in order; the message names the first bad one. *)
Fixpoint check_pow2 (msg : string) (l : list (string * Z)) : res unit :=
  match l with
  | [] => Ok tt
  | (what, x) :: l =>
      if not_pow2 x then die (what +:+ "=" +:+ pretty x +:+ msg) else check_pow2 msg l
  end.

Definition check_cfg (g : Cfg) : res Cfg :=
  let* _ := check_pow2 ": memory sizes must be powers of two"
              [("IMEM_KB", imem_kb g); ("DMEM_KB", dmem_kb g)] in
  let* _ := if caches g then check_pow2 ": must be a power of two"
              [("ICACHE_LINES", i_lines g); ("DCACHE_LINES", d_lines g);
               ("LINE_WORDS", line_words g)] else Ok tt in
  if fw_custom g && negb (exists_ (fw_hex g)) then
    die ("FW_HEX " +:+ repr (fw_hex g) +:+ " does not exist")
  else Ok g.

Definition Cfg_init : res Cfg :=
  let* name := sym "PROJECT_NAME" in
  if negb (name_ok name) then
    die ("PROJECT_NAME " +:+ repr name +:+ ": use lower-case letters, digits and '_'")
  else
  let* ps := b "SYS_PS" in let* pipe := b "CORE_PIPE" in
  let* m := b "ISA_M" in let* a := b "ISA_A" in
  let* c := b "ISA_C" in let* f := b "ISA_F" in
  let* zba := b "ISA_ZBA" in let* zbb := b "ISA_ZBB" in
  let* zbc := b "ISA_ZBC" in let* zbs := b "ISA_ZBS" in
  let* v := b "ISA_V" in let* cnt := b "ISA_ZICNTR" in
  let* v64 := b "VLEN_64" in
  let* vlen := if v64 then Ok 64 else let* v256 := b "VLEN_256" in
               Ok (if (v256 : bool) then 256 else 128) in
  let* u := b "PRIV_U" in let* s := b "PRIV_S" in let* mmu := b "MMU" in
  let* tlb := i "TLB_ENTRIES" in let* bp := b "BPRED" in let* bpb := i "BP_IDX_BITS" in
  let* imem := i "IMEM_KB" in let* dmem := i "DMEM_KB" in
  let* caches := b "CACHES" in let* lw := i "LINE_WORDS" in
  let* il := i "ICACHE_LINES" in let* dl := i "DCACHE_LINES" in
  let* timer := b "TIMER" in let* gpio := b "GPIO" in
  let* pin := sym "UART_TX_PIN" in let* baud := i "UART_BAUD" in
  let* fwc := b "FW_CUSTOM" in let* fwh := sym "FW_HEX" in
  check_cfg (mkCfg name ps pipe m a c f zba zbb zbc zbs v cnt vlen u s mmu (or_default tlb 4)
    bp (or_default bpb 5) imem dmem caches (or_default lw 8) (or_default il 32)
    (or_default dl 32) timer gpio (if String.eqb pin "" then "J18" else pin)
    (or_default baud 115200) fwc fwh text).
End init.

(** ** Derived (rvgen.py) *)

Definition opt (on : bool) (x : string) : string := if on then x else "".

Definition march (g : Cfg) : string :=
  "rv32i" +:+ opt (m g) "m" +:+ opt (a g) "a" +:+ opt (f g) "f" +:+ opt (c g) "c"
  +:+ "_zicsr"
  +:+ opt (zba g) "_zba" +:+ opt (zbb g) "_zbb" +:+ opt (zbc g) "_zbc" +:+ opt (zbs g) "_zbs"
  +:+ opt (v g) "_zve32x".

Definition mabi (g : Cfg) : string := if f g then "ilp32f" else "ilp32".

Definition summary (g : Cfg) : string :=
  join " "
    ([march g; core_module g] ++
     (if pipe g then
        (if v g then ["vlen=" +:+ pretty (vlen g)] else []) ++
        ["priv=M" +:+ opt (s g) "S" +:+ opt (u g) "U"] ++
        (if mmu g then ["sv32(tlb=" +:+ pretty (tlb g) +:+ ")"] else []) ++
        [if bp g then "bpred=" +:+ pretty (Z.shiftl 1 (bp_bits g)) else "bpred=off"] ++
        [if caches g then
           "caches=" +:+ pretty (i_lines g) +:+ "+" +:+ pretty (d_lines g) +:+ "x"
           +:+ pretty (line_words g) +:+ "w"
         else "caches=off"]
      else []) ++
     [if ps g then "ps-attached" else "standalone"]).

(** [sum(1 << (base + n) for n, on in enumerate(bits) if on)] *)
Fixpoint bit_sum (base : Z) (bits : list bool) : Z :=
  match bits with
  | [] => 0
  | on :: bits => (if on then Z.shiftl 1 base else 0) + bit_sum (base + 1) bits
  end.

Definition features (g : Cfg) : Z :=
  let v0 := bit_sum 0 [m g; a g; c g; f g; u g; s g; mmu g; bp g; caches g; timer g; gpio g; ps g] in
  let v1 := Z.lor v0 (bit_sum 16 [zba g; zbb g; zbc g; zbs g]) in
  let v2 := Z.lor v1 (Z.shiftl (Z.b2z (v g)) 20) in
  Z.lor v2 (Z.shiftl (core_id g) 12).

(** [zlib.crc32(data) & 0xFFFFFFFF] *)
Definition crc_bit (r : Z) : Z :=
  if Z.testbit r 0 then Z.lxor (Z.shiftr r 1) 0xEDB88320 else Z.shiftr r 1.
Definition crc_byte (r x : Z) : Z := Nat.iter 8 crc_bit (Z.lxor r x).
Definition crc32 (bs : list Z) : Z :=
  Z.lxor (fold_left crc_byte bs 0xFFFFFFFF) 0xFFFFFFFF.

(** Python's order on strings and [sorted]. *)
Fixpoint str_leb (x y : string) : bool :=
  match x, y with
  | EmptyString, _ => true
  | String _ _, EmptyString => false
  | String p x, String q y =>
      if Ascii.eqb p q then str_leb x y else N.ltb (Ascii.N_of_ascii p) (Ascii.N_of_ascii q)
  end.
Fixpoint insert_sorted (x : string) (l : list string) : list string :=
  match l with
  | [] => [x]
  | y :: l => if str_leb x y then x :: y :: l else y :: insert_sorted x l
  end.
Definition sorted (l : list string) : list string := foldr insert_sorted [] l.

(** [text.splitlines()] of text with \n line ends: no empty last line. *)
Definition splitlines (t : string) : list string :=
  let ls := split_char nl t in
  match rev ls with "" :: r => rev r | _ => ls end.

Definition hash_lines (t : string) : list string :=
  List.filter (λ l, negb (String.eqb l "") && negb (startswith l "#")) (splitlines t).

Definition cfg_hash (g : Cfg) : Z :=
  crc32 (str_bytes (join (String nl "") (sorted (hash_lines (text g))))).

(** [round(PL_CLK_HZ / baud)]: to nearest, ties to even. *)
Definition round_div (n d : Z) : Z :=
  let q := n / d in
  let r2 := 2 * (n - q * d) in
  if (Z.abs r2 <? Z.abs d) || ((r2 =? d) && Z.even q) then q else q + 1.
Definition clks_per_bit (g : Cfg) : Z := round_div PL_CLK_HZ (baud g).

(** ** Firmware texts (rvgen.py) *)

Definition linker_script (g : Cfg) : res string :=
  fmt LINKER [("dmem", VInt (dmem_kb g * 1024)); ("imem", VInt (imem_kb g * 1024))].

Definition oz_syms : list string :=
  ["ISA_M"; "ISA_A"; "ISA_C"; "ISA_F"; "PRIV_U"; "PRIV_S"; "MMU"; "TIMER"; "GPIO";
   "CORE_PIPE"; "ISA_ZBA"; "ISA_ZBB"; "ISA_ZBC"; "ISA_ZBS"; "ISA_V"; "ISA_ZICNTR"].

(** What is appended to the autoconf header. *)
Definition oz_config_tail (g : Cfg) : string :=
  "#define CONFIG_OZ_SUMMARY " +:+ String quote (summary g +:+ String quote (String nl "")) +:+
  "#define CONFIG_OZ_VLEN " +:+ pretty (vlen g) +:+ String nl "" +:+
  foldr String.append ""
    (map (λ n, "#ifndef CONFIG_" +:+ n +:+ String nl "" +:+ "#define CONFIG_" +:+ n +:+ " 0"
               +:+ String nl "" +:+ "#endif" +:+ String nl "") oz_syms).

(** firmware.hex: the image padded with zeros to a multiple of four bytes. *)
Definition firmware_hex (data : list Z) : string :=
  let data := data ++ replicate (Z.to_nat ((- Z.of_nat (length data)) mod 4)) 0 in
  lines (map (fmt_x 8) (words_of data)).

(** ** RTL selection (rvgen.py) *)

Definition rtl_files (g : Cfg) : list string :=
  ["rtl/oz/oz_dpram.v"; "rtl/oz/oz_rv_soc.v"; "rtl/alu.v"; "rtl/regfile.v";
   "rtl/immgen.v"; "rtl/control.v"] ++
  (if timer g then ["rtl/timer.v"] else []) ++
  (if pipe g then
     ["rtl/csr_s.v"; "rtl/zb_unit.v"; "rtl/cpu_pipe_u.v"; "rtl/oz/oz_burst_mem.v"] ++
     (if v g then ["rtl/vec_unit.v"] else []) ++
     (if bp g then ["rtl/branch_predictor.v"] else []) ++
     (if mmu g then ["rtl/tlb.v"; "rtl/ptw.v"] else []) ++
     (if caches g then ["rtl/icache.v"; "rtl/dcache.v"] else ["rtl/mem_bridge.v"])
   else
     ["rtl/csr.v"; "rtl/" +:+ core_module g +:+ ".v"] ++
     (if c g then ["rtl/rvc_expand.v"] else []) ++
     (if f g then ["rtl/fregfile.v"; "rtl/fpu_f.v"] else [])) ++
  (if ps g then ["rtl/oz/oz_host.v"; "rtl/oz/oz_async_fifo.v"]
   else ["rtl/oz/oz_uart.v"; "rtl/uart_tx.v"]).

Definition soc_param_list (g : Cfg) : list (string * Z) :=
  [("CORE", core_id g); ("M_EXT", Z.b2z (m g)); ("A_EXT", Z.b2z (a g)); ("HAS_U", Z.b2z (u g));
   ("HAS_S", Z.b2z (s g)); ("MMU", Z.b2z (mmu g)); ("TLB_ENTRIES", tlb g); ("BPRED", Z.b2z (bp g));
   ("BP_IDX_BITS", bp_bits g); ("CACHES", Z.b2z (caches g)); ("LINE_WORDS", line_words g);
   ("I_LINES", i_lines g); ("D_LINES", d_lines g); ("IMEM_WORDS", imem_kb g * 256);
   ("DMEM_WORDS", dmem_kb g * 256); ("TIMER", Z.b2z (timer g)); ("GPIO", Z.b2z (gpio g));
   ("ZBA", Z.b2z (zba g)); ("ZBB", Z.b2z (zbb g)); ("ZBC", Z.b2z (zbc g)); ("ZBS", Z.b2z (zbs g));
   ("V_EXT", Z.b2z (v g)); ("VLEN", vlen g); ("ZICNTR", Z.b2z (cnt g))].

Definition soc_params (g : Cfg) (fw_path : option string) : string :=
  join ("," +:+ String nl "        ")
    (map (λ kv, "." +:+ kv.1 +:+ "(" +:+ pretty kv.2 +:+ ")") (soc_param_list g) ++
     match fw_path with
     | Some p => [".IMEM_INIT(" +:+ p +:+ ")"; ".DMEM_INIT(" +:+ p +:+ ")"]
     | None => []
     end).

(** ** leds, btn_bits (rvgen.py) *)

Definition leds (g : Cfg) : string :=
  if gpio g then
    "    assign led  = gpio_out[0];" +:+ String nl "    assign led2 = gpio_out[1];"
  else
    "    assign led  = halted;              // LED1: halted" +:+
    String nl "    assign led2 = beat[24];            // LED2: heartbeat".

Definition btn_bits (g : Cfg) : string * string * string * string :=
  if negb (gpio g) then ("", "    wire [1:0] gpio_in = 2'b00;" +:+ String nl "", "", "")
  else
    ("    input  wire btn1,         // K2 (G14), active low" +:+ String nl
     ("    input  wire btn2,         // K3 (J15), active low" +:+ String nl ""),
     "    reg [1:0] b1 = 2'b11, b2 = 2'b11;" +:+ String nl
     ("    always @(posedge clk) begin b1 <= {b1[0], btn1}; b2 <= {b2[0], btn2}; end" +:+ String nl
     ("    wire [1:0] gpio_in = {~b2[1], ~b1[1]};   // 1 = pressed" +:+ String nl "")),
     " .btn1(btn1), .btn2(btn2),", " .btn1(1'b1), .btn2(1'b1),").

End Rvgen.
