(* ===== verification/RvGenerate.v ===== *)
(** * tools/rvgen/rvgen.py: writing and exporting the project

    The file system is a map from paths to contents; a directory exists when
    some file is below it.  [generate], [write_ps_app], [write_readme] and
    [export] are computations over it. *)
From S2P Require Import Prelude Hex PyStr Fmt RvTemplates Rvgen.

Module RvGenerate.
Import Hex PyStr Fmt RvTemplates Rvgen.

(** ** The file system *)

Notation fs := (gmap string string).

Definition pjoin (a b : string) : string := a +:+ "/" +:+ b.

(** [q] is [p] or lies below it. *)
Definition under (p q : string) : bool := String.eqb q p || startswith q (p +:+ "/").

Definition path_exists (p : string) (F : fs) : bool :=
  existsb (λ kv, under p kv.1) (map_to_list F).

Definition read_file (p : string) : ST fs string := λ F,
  match F !! p with Some x => Ok (x, F) | None => Err (FileNotFoundError p) end.
Definition write_file (p x : string) : ST fs unit := λ F, Ok (tt, <[p := x]> F).
Definition copy (src dst : string) : ST fs unit := x ← read_file src; write_file dst x.
Definition rmtree (p : string) : ST fs unit := λ F,
  Ok (tt, filter (λ kv, under p kv.1 = false) F).
(** [os.makedirs(p)] *)
Definition makedirs (p : string) : ST fs unit := λ F,
  if path_exists p F then Err (FileExistsError p) else Ok (tt, F).

(** Every file below [src], moved below [dst]. *)
Definition copytree (src dst : string) : ST fs unit := λ F,
  if path_exists dst F then Err (FileExistsError dst) else
  Ok (tt, foldr (λ kv G,
        if startswith kv.1 (src +:+ "/")
        then <[dst +:+ sdrop (String.length src) kv.1 := kv.2]> G else G)
      F (map_to_list F)).

Definition n1 : string := String nl "".

(** [os.path.basename] *)
Definition basename (p : string) : string := List.last (split_char "/"%char p) "".

(** Lines of an opened text file. *)
Definition file_lines (t : string) : list string := splitlines t.

(** ** write_ps_app (rvgen.py) *)

(** ["".join("    " + ", ".join("0x" + w for w in words[n:n+8]) + ",\n" ...)] *)
Fixpoint fw_rows (k : nat) (words : list string) : string :=
  match k with
  | O => ""
  | S k =>
      match words with
      | [] => ""
      | _ => "    " +:+ join ", " (map (λ w, "0x" +:+ w) (take 8 words)) +:+ "," +:+ n1
             +:+ fw_rows k (drop 8 words)
      end
  end.

Definition rv_firmware_h (g : Cfg) (words : list string) : string :=
  "// GENERATED by tools/rvgen: the RISC-V program (fw/firmware.hex) for the PS to load." +:+ n1 +:+
  "#include <stdint.h>" +:+ n1 +:+ "#define RV_CFG_HASH 0x" +:+ fmt_x 8 (cfg_hash g) +:+ "u" +:+ n1 +:+
  "#define RV_FW_WORDS " +:+ pretty (length words) +:+ "u" +:+ n1 +:+
  "static const uint32_t rv_fw[RV_FW_WORDS] = {" +:+ n1 +:+
  fw_rows (length words) words +:+ "};" +:+ n1.

Definition write_ps_app (g : Cfg) (pdir fw_hex : string) : ST fs unit :=
  let ps := pjoin pdir "ps" in
  makedirs ps;;
  t ← read_file fw_hex;
  let words := List.filter (λ l, negb (String.eqb l "")) (map strip (file_lines t)) in
  write_file (pjoin ps "rv_firmware.h") (rv_firmware_h g words);;
  let d := [("name", VStr (name g)); ("summary", VStr (summary g))] in
  main_c ← st_lift (fmt PS_MAIN d);
  write_file (pjoin ps "main.c") main_c;;
  mk ← st_lift (fmt PS_MAKEFILE d);
  write_file (pjoin ps "Makefile") mk.

(** ** write_readme (rvgen.py) *)

Definition readme_lines (g : Cfg) (fw_size : option (Z * Z * Z)) : list string :=
  let name := name g in
  ["# " +:+ name +:+ " -- a generated RISC-V for the Mitra-7010"; "";
   "Generated by `tools/rvgen` in [riscv-from-scratch](https://github.com/Phoenix-flame/riscv-from-scratch)"
   +:+ " from `rvconfig` (`make menuconfig` there). Do not edit the files here;";
   "change the configuration and regenerate (`make oz-export OZ=<OpenZynq>`)."; "";
   "**Configuration:** `" +:+ summary g +:+ "`"; "";
   "| | |"; "|---|---|";
   "| Core | `" +:+ core_module g +:+ "` (`-march=" +:+ march g +:+ " -mabi=" +:+ mabi g +:+ "`) |";
   "| Memory | IMEM " +:+ pretty (imem_kb g) +:+ " KiB, DMEM " +:+ pretty (dmem_kb g)
   +:+ " KiB (block RAM)" +:+
   (if caches g then ", I$ " +:+ pretty (i_lines g) +:+ " x " +:+ pretty (line_words g)
      +:+ " words, D$ " +:+ pretty (d_lines g) +:+ " x " +:+ pretty (line_words g)
      +:+ " words (write-back)" else "") +:+ " |";
   "| Clock | 50 MHz PL oscillator (U18) |";
   "| Console | " +:+
   (if ps g then "M_AXI_GP0 -> PS UART0 (CH340 USB-UART)"
    else "UART TX on " +:+ uart_pin g +:+ ", " +:+ pretty (baud g)
         +:+ " baud (JM1 pin 21 by default; GND on JM1 pin 3/4)") +:+ " |";
   "| LEDs | " +:+
   (if gpio g then "GPIO: D6 = bit 0, D7 = bit 1 (self-test: both on = pass)"
    else "D6 = halted, D7 = heartbeat") +:+ " |";
   "| Config hash | `0x" +:+ fmt_x 8 (cfg_hash g) +:+ "` |"; ""] ++
  (match fw_size with
   | Some (text, data, bss) =>
       ["Firmware: self-test, " +:+ pretty text +:+ " bytes of code, " +:+ pretty data
        +:+ " data, " +:+ pretty bss +:+ " bss."; ""]
   | None => []
   end) ++
  ["## Build and run"; ""; "```bash"; "docker compose run --rm oz make sim PROJECT=" +:+ name;
   "docker compose run --rm oz make bit PROJECT=" +:+ name] ++
  (if ps g then
     ["docker compose run --rm oz make -C projects/" +:+ name +:+ "/ps vivado-init   # or: genz";
      "docker compose run --rm oz make run PROJECT=" +:+ name; "```"; "";
      "`make run` programs the PL, loads `ps/build/" +:+ name +:+ ".elf` on CPU0, and that program loads the "
      +:+ "RISC-V firmware over M_AXI_GP0 and relays its console to UART0 (115200 8N1)."]
   else
     ["docker compose run --rm oz make prog PROJECT=" +:+ name; "```"; "";
      "The firmware is in the bitstream: after `make prog` the core starts at once. "
      +:+ "Watch " +:+ uart_pin g +:+ " at " +:+ pretty (baud g)
      +:+ " 8N1 with a 3.3 V USB-serial adapter; K1 (U19) restarts it."]) ++
  [""; "## Memory map (RISC-V side)"; "";
   "| Address | Device |"; "|---|---|";
   "| `0x0000_0000` | IMEM (fetch) / DMEM (data), " +:+ pretty (imem_kb g) +:+ " / "
   +:+ pretty (dmem_kb g) +:+ " KiB |";
   "| `0x1000_0000` | console: +0 TX, +4 STATUS (bit0 ready) |"] ++
  (if timer g then ["| `0x1001_0000` | timer: +0 MTIME, +4 MTIMECMP (machine timer interrupt) |"]
   else []) ++
  (if gpio g then ["| `0x1002_0000` | GPIO: +0 LEDs [1:0], +4 buttons [1:0] (1 = pressed) |"]
   else []) ++
  ["| `0x2000_0000` | SYSCON: write = halt, value = exit code |"] ++
  (if ps g then
     [""; "## PS side (`0x4000_0000`, M_AXI_GP0)"; "";
      "See `rtl/oz_host.v`: ID, CTRL.run, STATUS, EXIT, CONSOLE (read pops), FEATURES, "
      +:+ "sizes, CFG_HASH; IMEM window at `+0x10_0000`, DMEM at `+0x20_0000`."]
   else []).

Definition write_readme (g : Cfg) (pdir : string) (fw_size : option (Z * Z * Z)) : ST fs unit :=
  write_file (pjoin pdir "README.md") (join n1 (readme_lines g fw_size) +:+ n1).

(** ** generate (rvgen.py) *)

Section generate.
Context (REPO : string).

(** The RTL copies, in order; returns their names in the project. *)
Fixpoint copy_rtl (pdir : string) (files : list string) : ST fs (list string) :=
  match files with
  | [] => mret []
  | f :: files =>
      copy (pjoin REPO f) (pjoin (pjoin pdir "rtl") (basename f));;
      rel ← copy_rtl pdir files;
      mret (("rtl/" +:+ basename f) :: rel)
  end.

Definition gen_dict (g : Cfg) (img_words : Z) (params : string) : dict :=
  let '(btn_ports, btn_sync, btn_conn, btn_tb) := btn_bits g in
  [("name", VStr (name g)); ("summary", VStr (summary g)); ("cpb", VInt (clks_per_bit g));
   ("clk", VInt PL_CLK_HZ); ("baud", VInt (baud g)); ("pin", VStr (uart_pin g));
   ("btn_ports", VStr btn_ports); ("btn_sync", VStr btn_sync); ("btn_conn", VStr btn_conn);
   ("btn_tb", VStr btn_tb); ("leds", VStr (leds g)); ("features", VInt (features g));
   ("hash", VInt (cfg_hash g)); ("imem_b", VInt (imem_kb g * 1024));
   ("dmem_b", VInt (dmem_kb g * 1024)); ("img_words", VInt img_words);
   ("params", VStr params)].

Definition btn_xdc (g : Cfg) : string :=
  if gpio g then
    "set_property PACKAGE_PIN G14     [get_ports btn1]" +:+ n1 +:+
    "set_property IOSTANDARD LVCMOS33 [get_ports btn1]" +:+ n1 +:+
    "set_property PACKAGE_PIN J15     [get_ports btn2]" +:+ n1 +:+
    "set_property IOSTANDARD LVCMOS33 [get_ports btn2]" +:+ n1
  else "".

(** What the two branches give to the constraints and project.mk. *)
Record branch := mkBranch {
  extra : string; top : string; sim_top : string;
  sim_extra : string; syn_extra : string; ps_mk : string }.

Definition gen_ps (g : Cfg) (pdir fw_hex : string) (img_words : Z) : ST fs branch :=
  let name := name g in
  let d := gen_dict g img_words (soc_params g None) in
  core ← st_lift (fmt PS_CORE d);
  write_file (pjoin pdir (name +:+ ".v")) core;;
  ttop ← st_lift (fmt PS_TOP d);
  write_file (pjoin pdir (name +:+ "_top.v")) ttop;;
  tb ← st_lift (fmt TB_PS d);
  write_file (pjoin pdir ("tb_" +:+ name +:+ ".v")) tb;;
  write_ps_app g pdir fw_hex;;
  mret (mkBranch (btn_xdc g) (name +:+ "_top") name
    ("projects/" +:+ name +:+ "/" +:+ name +:+ ".v")
    ("rtl/ps7_gp0.v rtl/axi3_to_axilite.v projects/" +:+ name +:+ "/" +:+ name +:+ "_top.v")
    (n1 +:+ "# FCLK0 (the AXI clock) comes from the PS and cannot carry a create_clock." +:+ n1
     +:+ "NEXTPNR_OPTS := --freq 50" +:+ n1)).

Definition gen_standalone (g : Cfg) (pdir : string) (img_words : Z) : ST fs branch :=
  let name := name g in
  let d := gen_dict g img_words (soc_params g (Some "FW_HEX")) in
  ttop ← st_lift (fmt STANDALONE_TOP d);
  write_file (pjoin pdir (name +:+ "_top.v")) ttop;;
  tb ← st_lift (fmt TB_STANDALONE d);
  write_file (pjoin pdir ("tb_" +:+ name +:+ "_top.v")) tb;;
  mret (mkBranch
    (btn_xdc g +:+ n1
     +:+ "# UART TX (3.3 V) -- connect a USB-serial adapter's RX here, GND to JM1 pin 3/4" +:+ n1
     +:+ "set_property PACKAGE_PIN " +:+ uart_pin g +:+ "     [get_ports uart_tx]" +:+ n1
     +:+ "set_property IOSTANDARD LVCMOS33 [get_ports uart_tx]" +:+ n1)
    (name +:+ "_top") (name +:+ "_top")
    ("projects/" +:+ name +:+ "/" +:+ name +:+ "_top.v") "" "").

Definition generate (g : Cfg) (out fw_hex : string) (fw_size : option (Z * Z * Z)) : ST fs string :=
  let name := name g in
  let pdir := pjoin (pjoin out "projects") name in
  F ← st_get (λ F, F);
  (if path_exists pdir F then rmtree pdir else mret tt);;
  makedirs (pjoin pdir "fw");;
  makedirs (pjoin pdir "rtl");;
  write_file (pjoin pdir MARKER) ("generated by riscv-from-scratch tools/rvgen" +:+ n1);;
  rel ← copy_rtl pdir (rtl_files g);
  copy fw_hex (pjoin (pjoin pdir "fw") "firmware.hex");;
  img ← read_file fw_hex;
  let img_words := Z.of_nat (length (file_lines img)) in
  br ← (if ps g then gen_ps g pdir fw_hex img_words else gen_standalone g pdir img_words);
  xdc ← st_lift (fmt XDC [("summary", VStr (summary g)); ("extra", VStr (extra br))]);
  write_file (pjoin pdir (name +:+ ".xdc")) xdc;;
  mk ← st_lift (fmt PROJECT_MK
    [("summary", VStr (summary g)); ("top", VStr (top br)); ("sim_top", VStr (sim_top br));
     ("name", VStr name); ("rtl", VStr (join (" \" +:+ n1 +:+ "            ") rel));
     ("sim_extra", VStr (sim_extra br)); ("syn_extra", VStr (syn_extra br));
     ("ps_mk", VStr (ps_mk br))]);
  write_file (pjoin pdir "project.mk") mk;;
  write_file (pjoin pdir "rvconfig") (text g);;
  write_readme g pdir fw_size;;
  mret pdir.
End generate.

(** ** export (rvgen.py) *)

Definition kept_names : list string := ["ps7_init.c"; "ps7_init.h"; "xparameters.h"].

(** The board files the user copied in, read before the old tree goes. *)
Definition read_kept (dst : string) (F : fs) : list (string * string) :=
  omap (λ f, match F !! pjoin (pjoin dst "ps") f with
             | Some x => Some (f, x) | None => None end) kept_names.

Definition export (g : Cfg) (pdir oz : string) (force : bool) : ST fs string :=
  F ← st_get (λ F, F);
  match F !! pjoin (pjoin (pjoin oz "boards") "mitra7010") "board.mk" with
  | None => st_lift (die (oz +:+ " does not look like an OpenZynq checkout (no boards/mitra7010/board.mk)"))
  | Some _ =>
      let dst := pjoin (pjoin oz "projects") (name g) in
      if path_exists dst F && negb (path_exists (pjoin dst MARKER) F) && negb force then
        st_lift (die (dst +:+ " exists and was not generated by rvgen; pick another PROJECT_NAME or use --force"))
      else
        (* [keep] is assigned only on this branch *)
        keep ← (if path_exists dst F then rmtree dst;; mret (Some (read_kept dst F))
                else mret None);
        copytree pdir dst;;
        (if ps g then
           st_for ["startup.S"; "linker.ld"; "xil_io.h"] (λ f,
             copy (pjoin (pjoin (pjoin (pjoin oz "projects") "ps_pl_demo") "ps") f)
                  (pjoin (pjoin dst "ps") f));;
           match keep with
           | None => st_raise (UnboundLocalError "keep")
           | Some kept => st_for kept (λ fx, write_file (pjoin (pjoin dst "ps") fx.1) fx.2)
           end
         else mret tt);;
        mret dst
  end.

End RvGenerate.
