(* ===== verification/RvSpec.v ===== *)
(** * Correctness of the project generator

    Module RvSpec: configurations, that generate returns, exports.  Module
    RvFiles: which files generate leaves. *)
From S2P Require Import Prelude Hex PyStr Fmt RvTemplates Rvgen RvGenerate.

Module RvSpec.
Import Hex PyStr Fmt RvTemplates Rvgen RvGenerate.

(** ** The feature word *)

Section features.
Local Open Scope Z_scope.

(** The bits as one number: bit [k] of the sum is entry [k] of the list. *)
Lemma bit_sum_shift base bits :
  0 ≤ base → bit_sum base bits = Z.shiftl (bit_sum 0 bits) base.
Proof.
  assert (∀ b0 d bs, 0 ≤ b0 → 0 ≤ d → bit_sum (b0 + d) bs = Z.shiftl (bit_sum b0 bs) d) as H.
  { intros b0 d bs. revert b0. induction bs as [|x bs IH]; intros b0 Hb Hd; cbn [bit_sum].
    - by rewrite Z.shiftl_0_l.
    - replace (b0 + d + 1) with ((b0 + 1) + d) by lia. rewrite IH by lia.
      rewrite !Z.shiftl_mul_pow2 by lia. rewrite Z.mul_add_distr_r. f_equal.
      destruct x; [|lia]. rewrite Z.pow_add_r by lia. lia. }
  intros Hb. rewrite <- (H 0 base) by lia. done.
Qed.

Lemma bit_sum_cons x bits : bit_sum 0 (x :: bits) = 2 * bit_sum 0 bits + Z.b2z x.
Proof.
  cbn [bit_sum]. rewrite (bit_sum_shift (0 + 1)) by lia.
  rewrite (Z.shiftl_mul_pow2 (bit_sum 0 bits)) by lia. change (2 ^ (0 + 1)) with 2.
  destruct x; cbn [Z.b2z]; [change (Z.shiftl 1 0) with 1|]; lia.
Qed.

Lemma bit_sum_nonneg bits : 0 ≤ bit_sum 0 bits.
Proof. induction bits as [|x bits IH]; [done|]. rewrite bit_sum_cons. destruct x; simpl; lia. Qed.

Lemma bit_sum_testbit bits k :
  Z.testbit (bit_sum 0 bits) (Z.of_nat k) = nth k bits false.
Proof.
  revert k; induction bits as [|x bits IH]; intros k.
  - rewrite Z.bits_0. by destruct k.
  - rewrite bit_sum_cons. destruct k as [|k].
    + change (Z.of_nat 0) with 0. rewrite Z.add_comm, Z.add_b2z_double_bit0. done.
    + rewrite Nat2Z.inj_succ, Z.testbit_succ_r by lia. apply IH.
Qed.

Lemma bit_sum_at base bits k :
  0 ≤ base → 0 ≤ k →
  Z.testbit (bit_sum base bits) k = (base <=? k) && nth (Z.to_nat (k - base)) bits false.
Proof.
  intros Hb Hk. rewrite bit_sum_shift, Z.shiftl_spec by lia. destruct (Z.leb_spec base k).
  - rewrite <- bit_sum_testbit. by rewrite Z2Nat.id by lia.
  - apply Z.testbit_neg_r. lia.
Qed.

Lemma core_id_bit g k :
  0 ≤ k → Z.testbit (Z.shiftl (core_id g) 12) k =
    (k =? 12) && Z.testbit (core_id g) 0 || (k =? 13) && Z.testbit (core_id g) 1.
Proof.
  intros Hk. rewrite Z.shiftl_spec by lia.
  destruct (Z.ltb_spec k 12); [|destruct (decide (k = 12)) as [->|]; [|destruct (decide (k = 13)) as [->|]]].
  - rewrite Z.testbit_neg_r by lia.
    by rewrite (proj2 (Z.eqb_neq k 12)), (proj2 (Z.eqb_neq k 13)) by lia.
  - simpl. by rewrite orb_false_r.
  - done.
  - rewrite (proj2 (Z.eqb_neq k 12)), (proj2 (Z.eqb_neq k 13)) by lia. simpl.
    apply Z.bits_above_log2; unfold core_id; repeat case_match; simpl; lia.
Qed.

(** The FEATURES word the PS program and the host bridge read: every
    flag of the configuration is at its own bit, the core number is in bits
    12 and 13, no two fields overlap and no other bit is set. *)
Theorem features_bits g k :
  0 ≤ k →
  Z.testbit (features g) k =
    if k <? 12 then
      nth (Z.to_nat k) [m g; a g; c g; f g; u g; s g; mmu g; bp g; caches g; timer g; gpio g; ps g] false
    else if k =? 12 then Z.testbit (core_id g) 0
    else if k =? 13 then Z.testbit (core_id g) 1
    else if (16 <=? k) && (k <? 20) then nth (Z.to_nat (k - 16)) [zba g; zbb g; zbc g; zbs g] false
    else (k =? 20) && v g.
Proof.
  intros Hk. unfold features. rewrite !Z.lor_spec, core_id_bit, !bit_sum_at by lia.
  assert (Z.testbit (Z.shiftl (Z.b2z (v g)) 20) k = (k =? 20) && v g) as ->.
  { rewrite Z.shiftl_spec by lia. destruct (Z.eqb_spec k 20) as [->|].
    - rewrite Z.sub_diag. apply Z.b2z_bit0.
    - destruct (Z.ltb_spec k 20); [by rewrite Z.testbit_neg_r by lia|].
      destruct (v g); [|apply Z.bits_0]. apply Z.bits_above_log2; simpl; lia. }
  rewrite (proj2 (Z.leb_le 0 k)), andb_true_l, Z.sub_0_r by lia.
  assert (∀ (l : list bool) j, (length l ≤ Z.to_nat j)%nat → nth (Z.to_nat j) l false = false) as Hn
    by (intros; by apply nth_overflow).
  destruct (Z.ltb_spec k 12) as [Hlt|Hge].
  - rewrite (proj2 (Z.leb_gt 16 k)), !(proj2 (Z.eqb_neq k _)) by lia.
    by rewrite !andb_false_l, !orb_false_r.
  - rewrite (Hn [m g; a g; c g; f g; u g; s g; mmu g; bp g; caches g; timer g; gpio g; ps g] k) by (simpl; lia).
    rewrite orb_false_l.
    destruct (Z.eqb_spec k 12) as [->|]; [simpl; by rewrite ?orb_false_r|].
    destruct (Z.eqb_spec k 13) as [->|]; [done|]. rewrite !andb_false_l, orb_false_r.
    destruct (Z.leb_spec 16 k), (Z.ltb_spec k 20); cbn [andb];
      rewrite ?orb_false_l, ?(proj2 (Z.eqb_neq k 20)) by lia; try done.
    + by rewrite andb_false_l, orb_false_r.
    + by rewrite Hn by (simpl; lia).
Qed.

Definition demo_cfg : Cfg :=
  mkCfg "riscv_soc" true true true true false false true true false true true true 128
    true true true 4 true 5 16 32 true 8 32 32 true true "J18" 115200 false "" "CONFIG_A=y".

Lemma features_bits_witness : Z.testbit (features demo_cfg) 20 = true.
Proof. exact (features_bits demo_cfg 20 ltac:(lia)). Defined.

(** ** Sizes *)

(** [v & (v - 1)] is zero exactly for zero and the powers of two. *)
Lemma pow2_check x : 0 < x → (not_pow2 x = false ↔ ∃ n, 0 ≤ n ∧ x = 2 ^ n).
Proof.
  intros Hx. unfold not_pow2. rewrite negb_false_iff, Z.eqb_eq. split.
  - intros H. exists (Z.log2 x). pose proof (Z.log2_nonneg x). split; [done|].
    pose proof (Z.log2_spec x Hx) as [Hlo Hhi]. destruct (decide (x = 2 ^ Z.log2 x)) as [|Hne]; [done|].
    exfalso. assert (Z.testbit (Z.land x (x - 1)) (Z.log2 x) = true) as Hb; [|by rewrite H, Z.bits_0 in Hb].
    rewrite Z.land_spec, Z.bit_log2, andb_true_l by done.
    replace (Z.log2 x) with (Z.log2 (x - 1)); [apply Z.bit_log2; lia|].
    apply Z.log2_unique; lia.
  - intros (n & Hn & ->). replace (2 ^ n - 1) with (Z.ones n) by (rewrite Z.ones_equiv; lia).
    rewrite Z.land_ones by done. apply Z.mod_same. apply Z.pow_nonzero; lia.
Qed.

Definition is_pow2 (x : Z) : Prop := ∃ n, 0 ≤ n ∧ x = 2 ^ n.

Lemma check_pow2_ok msg l t :
  check_pow2 msg l = Ok t → Forall (λ kv, 0 < kv.2 → is_pow2 kv.2) l.
Proof.
  induction l as [|[what x] l IH]; intros H; [constructor|]. cbn [check_pow2] in H.
  destruct (not_pow2 x) eqn:E; [done|]. constructor; [|by apply IH].
  intros Hx. by apply pow2_check.
Qed.

Lemma check_cfg_ok ex g0 g :
  check_cfg ex g0 = Ok g →
  g0 = g ∧ (0 < imem_kb g → is_pow2 (imem_kb g)) ∧ (0 < dmem_kb g → is_pow2 (dmem_kb g)) ∧
  (caches g = true → Forall (λ x, 0 < x → is_pow2 x) [i_lines g; d_lines g; line_words g]) ∧
  (fw_custom g = true → ex (fw_hex g) = true).
Proof.
  unfold check_cfg. intros H.
  apply res_bind_ok in H as (t1 & H1 & H). apply res_bind_ok in H as (t2 & H2 & H).
  apply check_pow2_ok in H1. rewrite !Forall_cons in H1. destruct H1 as (Hi & Hd & _).
  destruct (fw_custom g0 && negb (ex (fw_hex g0))) eqn:Eb; [done|]. injection H as <-.
  split_and!; try done.
  - intros Hc. rewrite Hc in H2. apply check_pow2_ok in H2. rewrite !Forall_cons in H2.
    destruct H2 as (? & ? & ? & _). repeat constructor; done.
  - intros Hf. rewrite Hf in Eb. simpl in Eb. by apply negb_false_iff in Eb.
Qed.

(** A configuration [Cfg] accepts is one the generator can build: the
    project name is a plain identifier, the memories (and with caches the
    line counts and the line size) are powers of two, and a custom image
    exists.  Everything else ends with a message. *)
Theorem Cfg_init_valid syms ex text g :
  Cfg_init syms ex text = Ok g →
  name_ok (name g) = true ∧
  (0 < imem_kb g → is_pow2 (imem_kb g)) ∧ (0 < dmem_kb g → is_pow2 (dmem_kb g)) ∧
  (caches g = true → Forall (λ x, 0 < x → is_pow2 x) [i_lines g; d_lines g; line_words g]) ∧
  (fw_custom g = true → ex (fw_hex g) = true).
Proof.
  unfold Cfg_init. intros H. apply res_bind_ok in H as (nm & _ & H).
  destruct (name_ok nm) eqn:En; cbn [negb] in H; [|done].
  repeat match type of H with
  | res_bind _ _ = _ => apply res_bind_ok in H as (? & _ & H)
  end.
  by apply check_cfg_ok in H as (<- & ?).
Qed.

(** The values the Kconfig defaults give. *)
Definition demo_syms (n : string) : option string :=
  if String.eqb n "PROJECT_NAME" then Some "riscv_soc"
  else if String.eqb n "IMEM_KB" then Some "16"
  else if String.eqb n "DMEM_KB" then Some "32"
  else if String.eqb n "CORE_PIPE" then Some "y" else Some "".

Lemma Cfg_init_valid_witness :
  ∃ g, Cfg_init demo_syms (λ _, false) "" = Ok g ∧ is_pow2 (imem_kb g) ∧ baud g = 115200.
Proof.
  eexists. split; [vm_compute; reflexivity|]. split; [|reflexivity].
  refine (proj1 (proj2 (Cfg_init_valid demo_syms (λ _, false) "" _ _)) _);
    [vm_compute; reflexivity|reflexivity].
Defined.

(** The baud divider is the nearest one. *)
Lemma clks_per_bit_nearest g :
  0 < baud g → 2 * Z.abs (clks_per_bit g * baud g - PL_CLK_HZ) ≤ baud g.
Proof.
  intros Hb. unfold clks_per_bit, round_div. set (n := PL_CLK_HZ). set (d := baud g) in *.
  pose proof (Z.div_mod n d ltac:(lia)). pose proof (Z.mod_pos_bound n d Hb).
  set (q := n / d) in *. set (r := n mod d) in *.
  destruct (Z.ltb_spec (Z.abs (2 * (n - q * d))) (Z.abs d)); cbn [orb]; [lia|].
  destruct (Z.eqb_spec (2 * (n - q * d)) d); cbn [andb]; [destruct (Z.even q); nia|nia].
Qed.

(** firmware.hex is what bin2hex.py writes for the same image. *)
Lemma firmware_hex_bin2hex data : firmware_hex data = bin2hex data.
Proof.
  unfold firmware_hex, bin2hex, pad4. set (n := length data).
  assert (Hm : (- Z.of_nat n) mod 4 = Z.of_nat ((4 - n mod 4) mod 4)).
  { rewrite Nat2Z.inj_mod. pose proof (Nat.mod_upper_bound n 4 ltac:(lia)).
    rewrite Nat2Z.inj_sub, Nat2Z.inj_mod by lia. change (Z.of_nat 4) with 4.
    rewrite Zminus_mod_idemp_r. by rewrite <- (Z.mod_add (- Z.of_nat n) 1 4) at 1 by lia;
      do 2 f_equal; lia. }
  rewrite Hm, Nat2Z.id. destruct (Nat.eqb_spec (n mod 4) 0) as [->|Hne].
  - change ((4 - 0) mod 4)%nat with 0%nat. by rewrite app_nil_r.
  - pose proof (Nat.mod_upper_bound n 4 ltac:(lia)). by rewrite (Nat.mod_small (4 - n mod 4)) by lia.
Qed.

(** The standard check value of CRC-32. *)
Lemma crc32_check : crc32 (str_bytes "123456789") = 0xCBF43926.
Proof. vm_compute. reflexivity. Qed.
End features.

(** ** The templates *)

(** The keys [generate] passes, with the type of each value. *)
Definition gen_sig : list (string * ty) :=
  [("name", TStr); ("summary", TStr); ("cpb", TInt); ("clk", TInt); ("baud", TInt); ("pin", TStr);
   ("btn_ports", TStr); ("btn_sync", TStr); ("btn_conn", TStr); ("btn_tb", TStr); ("leds", TStr);
   ("features", TInt); ("hash", TInt); ("imem_b", TInt); ("dmem_b", TInt); ("img_words", TInt);
   ("params", TStr)].

Lemma gen_dict_ok g n params : dict_ok (gen_dict g n params) gen_sig.
Proof.
  unfold gen_dict. destruct (btn_bits g) as [[[b1 b2] b3] b4].
  repeat (apply Forall2_cons; split; [done|]). apply Forall2_nil. done.
Qed.

Lemma templates_checked :
  forallb (template_ok gen_sig) [STANDALONE_TOP; PS_CORE; PS_TOP; TB_STANDALONE; TB_PS] = true ∧
  forallb (template_ok [("name", TStr); ("summary", TStr)]) [PS_MAIN; PS_MAKEFILE] = true ∧
  template_ok [("summary", TStr); ("extra", TStr)] XDC = true ∧
  template_ok [("summary", TStr); ("top", TStr); ("sim_top", TStr); ("name", TStr); ("rtl", TStr);
               ("sim_extra", TStr); ("syn_extra", TStr); ("ps_mk", TStr)] PROJECT_MK = true ∧
  template_ok [("dmem", TInt); ("imem", TInt)] LINKER = true.
Proof. vm_compute. auto. Qed.

Lemma gen_template t g n params :
  t ∈ [STANDALONE_TOP; PS_CORE; PS_TOP; TB_STANDALONE; TB_PS] →
  ∃ x, fmt t (gen_dict g n params) = Ok x.
Proof.
  intros Ht. apply (fmt_total gen_sig); [|apply gen_dict_ok].
  destruct templates_checked as [H _]. apply forallb_forall with (x := t) in H; [done|].
  by apply list_elem_of_In.
Qed.

Lemma linker_total g : ∃ x, linker_script g = Ok x.
Proof.
  destruct templates_checked as (_ & _ & _ & _ & H).
  apply (fmt_total _ _ _ H). clear H.
  repeat (apply Forall2_cons; split; [done|]). apply Forall2_nil. done.
Qed.

Lemma ps_template t g :
  t ∈ [PS_MAIN; PS_MAKEFILE] →
  ∃ x, fmt t [("name", VStr (name g)); ("summary", VStr (summary g))] = Ok x.
Proof.
  intros Ht. apply (fmt_total [("name", TStr); ("summary", TStr)]).
  - destruct templates_checked as (_ & H & _). apply forallb_forall with (x := t) in H; [done|].
    by apply list_elem_of_In.
  - repeat (apply Forall2_cons; split; [done|]). apply Forall2_nil. done.
Qed.

Lemma xdc_total a b : ∃ x, fmt XDC [("summary", VStr a); ("extra", VStr b)] = Ok x.
Proof.
  destruct templates_checked as (_ & _ & H & _). apply (fmt_total _ _ _ H). clear H.
  repeat (apply Forall2_cons; split; [done|]). apply Forall2_nil. done.
Qed.

Lemma project_mk_total v1 v2 v3 v4 v5 v6 v7 v8 : ∃ x, fmt PROJECT_MK
  [("summary", VStr v1); ("top", VStr v2); ("sim_top", VStr v3); ("name", VStr v4);
   ("rtl", VStr v5); ("sim_extra", VStr v6); ("syn_extra", VStr v7); ("ps_mk", VStr v8)] = Ok x.
Proof.
  destruct templates_checked as (_ & _ & _ & H & _). apply (fmt_total _ _ _ H). clear H.
  repeat (apply Forall2_cons; split; [done|]). apply Forall2_nil. done.
Qed.

(** ** Paths *)

Lemma startswith_iff p s : startswith s p = true ↔ ∃ r, s = p +:+ r.
Proof.
  split.
  - revert s. unfold startswith. induction p as [|c p IH]; intros s H; [by exists s|].
    destruct s as [|d s]; cbn in H; [done|]. destruct (Ascii.ascii_dec c d) as [->|]; [|done].
    destruct (IH s H) as [r ->]. by exists r.
  - intros [r ->]. apply startswith_app.
Qed.

Lemma append_inj_l p x y : p +:+ x = p +:+ y → x = y.
Proof. induction p as [|c p IH]; [done|]. rewrite !cons_append. intros [= E]. auto. Qed.

Lemma under_join p q : under p (pjoin p q) = true.
Proof.
  unfold under, pjoin. apply orb_true_iff. right. apply startswith_iff. exists q.
  by rewrite append_assoc.
Qed.

Lemma under_sub p q x : under (pjoin p q) x = true → under p x = true.
Proof.
  unfold under, pjoin. rewrite !orb_true_iff, !String.eqb_eq, !startswith_iff.
  intros [->|[r ->]]; right; [exists q|exists (q +:+ "/" +:+ r)]; by rewrite !append_assoc.
Qed.

(** Below [p]: one component inside another is decided on the components. *)
Lemma under_same p q x : under (pjoin p q) (pjoin p x) = under q x.
Proof.
  apply eq_true_iff_eq. unfold under, pjoin. rewrite !orb_true_iff, !String.eqb_eq, !startswith_iff.
  rewrite <- !append_assoc. split.
  - intros [E|[r E]].
    + left. by apply append_inj_l in E.
    + right. exists r. rewrite !append_assoc in E. do 2 apply append_inj_l in E.
      by rewrite append_assoc.
  - intros [->|[r ->]]; [by left|right]. exists r. by rewrite !append_assoc.
Qed.

Lemma under_no_slash q x : q ≠ "" → has_char "/"%char x = false → x ≠ q → under q x = false.
Proof.
  intros Hq Hs Hne. unfold under. apply orb_false_iff. split; [by apply String.eqb_neq|].
  apply not_true_iff_false. rewrite startswith_iff. intros [r ->].
  rewrite !has_char_app in Hs. simpl in Hs. by rewrite orb_true_r in Hs.
Qed.

Lemma path_exists_iff p (F : fs) : path_exists p F = true ↔ ∃ q x, F !! q = Some x ∧ under p q = true.
Proof.
  unfold path_exists. rewrite existsb_exists. split.
  - intros ([q x] & Hin%list_elem_of_In & Hu). exists q, x. by apply elem_of_map_to_list in Hin.
  - intros (q & x & Hq & Hu). exists (q, x). split; [|done].
    by apply list_elem_of_In, elem_of_map_to_list.
Qed.

Lemma path_exists_none p (F : fs) : path_exists p F = false ↔ ∀ q x, F !! q = Some x → under p q = false.
Proof.
  rewrite <- not_true_iff_false, path_exists_iff. split.
  - intros H q x Hq. apply not_true_iff_false. intros Hu. apply H. eauto.
  - intros H (q & x & Hq & Hu). by rewrite (H q x Hq) in Hu.
Qed.

(** ** generate *)

Lemma write_runs p x (F : fs) (Q : unit → fs → Prop) : Q tt (<[p := x]> F) → st_runs (write_file p x) F Q.
Proof. intros. by eexists tt, _. Qed.

Lemma read_runs p (F : fs) x (Q : string → fs → Prop) : F !! p = Some x → Q x F → st_runs (read_file p) F Q.
Proof. intros Hx HQ. exists x, F. unfold read_file. by rewrite Hx. Qed.

Lemma rtl_basenames_NoDup g : NoDup (map basename (rtl_files g)).
Proof.
  unfold rtl_files, core_module.
  destruct (timer g), (pipe g), (v g), (bp g), (mmu g), (caches g), (c g), (f g), (ps g);
    apply (bool_decide_unpack _); vm_compute; exact I.
Qed.

Lemma name_no_slash x : name_ok x = true → has_char "/"%char x = false.
Proof.
  assert (∀ y, all_chars is_name_char y = true → has_char "/"%char y = false) as H.
  { induction y as [|d y IH]; [done|]. simpl. rewrite andb_true_iff. intros [Hd Hy].
    rewrite IH, orb_false_r by done. apply Ascii.eqb_neq. intros ->. discriminate Hd. }
  destruct x as [|d x]; [done|]. simpl. rewrite andb_true_iff. intros [Hd Hx].
  rewrite H, orb_false_r by done. apply Ascii.eqb_neq. intros ->. discriminate Hd.
Qed.

Section generate.
Context (REPO pdir : string) (F0 : fs).

Definition rtl_dst (f : string) : string := pjoin (pjoin pdir "rtl") (basename f).

(** What every step of [generate] keeps: nothing outside the project
    directory changes, and the RTL copies made so far stay. *)
Record ginv (done_ : list string) (F : fs) : Prop := {
  gi_out q : under pdir q = false → F !! q = F0 !! q;
  gi_rtl f : f ∈ done_ → F !! rtl_dst f = F0 !! pjoin REPO f
}.
(** Until write_ps_app runs, there is no ps directory. *)
Definition no_ps (F : fs) : Prop := path_exists (pjoin pdir "ps") F = false.

Definition plain (q : string) : Prop := ∀ b, q ≠ "rtl/" +:+ b.

Lemma rtl_dst_join f : rtl_dst f = pjoin pdir ("rtl/" +:+ basename f).
Proof. unfold rtl_dst, pjoin. by rewrite !append_assoc. Qed.

Lemma ginv_write done_ F q x :
  plain q → ginv done_ F → ginv done_ (<[pjoin pdir q := x]> F).
Proof.
  intros Hq [Ho Hr]. constructor.
  - intros k Hk. rewrite lookup_insert_ne; [by apply Ho|]. intros <-. by rewrite under_join in Hk.
  - intros f Hf. rewrite lookup_insert_ne; [by apply Hr|]. rewrite rtl_dst_join. intros E.
    unfold pjoin in E. do 2 apply append_inj_l in E. by apply (Hq (basename f)).
Qed.

Lemma no_ps_write F q x : under "ps" q = false → no_ps F → no_ps (<[pjoin pdir q := x]> F).
Proof.
  unfold no_ps. rewrite !path_exists_none. intros Hq HF k y Hk.
  destruct (decide (k = pjoin pdir q)) as [->|].
  - by rewrite under_same.
  - rewrite lookup_insert_ne in Hk by done. by eapply HF.
Qed.

Lemma flat_plain x : has_char "/"%char x = false → plain x.
Proof. intros Hx b0 ->. rewrite has_char_app in Hx. simpl in Hx. done. Qed.

Lemma flat_not_ps x : has_char "/"%char x = false → x ≠ "ps" → under "ps" x = false.
Proof. intros. by apply under_no_slash. Qed.

Lemma copy_rtl_runs files done_ F :
  NoDup (map basename (done_ ++ files)) → ginv done_ F → no_ps F →
  (∀ f, f ∈ files → is_Some (F0 !! pjoin REPO f) ∧ under pdir (pjoin REPO f) = false) →
  st_runs (copy_rtl REPO pdir files) F (λ rel F',
    rel = map (λ f, "rtl/" +:+ basename f) files ∧ ginv (done_ ++ files) F' ∧ no_ps F').
Proof.
  revert done_ F; induction files as [|fl files IH]; intros done_ F HN HF Hps Hsrc.
  { apply st_runs_ret. by rewrite app_nil_r. }
  cbn [copy_rtl]. destruct (Hsrc fl) as [[x Hx] Hu]; [set_solver|].
  apply st_runs_bind. unfold copy. apply st_runs_bind.
  eapply read_runs; [by rewrite (gi_out _ _ HF)|]. apply write_runs.
  apply st_runs_bind. eapply st_runs_mono; [apply (IH (done_ ++ [fl]))|].
  - by rewrite <- app_assoc.
  - destruct HF as [Ho Hr]. change (pjoin (pjoin pdir "rtl") (basename fl)) with (rtl_dst fl).
    constructor.
    + intros k Hk. rewrite lookup_insert_ne; [by apply Ho|]. intros <-.
      by rewrite rtl_dst_join, under_join in Hk.
    + intros f0 [Hf|Hf]%elem_of_app.
      * rewrite lookup_insert_ne; [by apply Hr|]. rewrite !rtl_dst_join. unfold pjoin.
        intros E. do 2 apply append_inj_l in E. apply append_inj_l in E.
        rewrite map_app in HN. apply NoDup_app in HN as (_ & Hd & _).
        apply (Hd (basename f0)); [by apply (list_elem_of_fmap_2 basename)|].
        cbn [map]. rewrite <- E. left.
      * apply list_elem_of_singleton in Hf as ->. by rewrite lookup_insert_eq.
  - change (pjoin (pjoin pdir "rtl") (basename fl)) with (rtl_dst fl).
    rewrite rtl_dst_join. by apply no_ps_write.
  - intros; apply Hsrc; set_solver.
  - intros rel F' (-> & HF' & Hps'). apply st_runs_ret. rewrite <- app_assoc in HF'. done.
Qed.

Lemma plain_ps b : plain ("ps/" +:+ b).
Proof. intros b0 E. discriminate E. Qed.

Lemma write_ps_app_runs g fw x done_ F :
  ginv done_ F → no_ps F → F0 !! fw = Some x → under pdir fw = false →
  st_runs (write_ps_app g pdir fw) F (λ _, ginv done_).
Proof.
  intros HF Hps Hx Hu. unfold write_ps_app. apply st_runs_bind.
  unfold st_runs at 1, makedirs. rewrite Hps. exists tt, F. split; [done|].
  apply st_runs_bind. eapply read_runs; [by rewrite (gi_out _ _ HF)|].
  assert (Hj : ∀ y, pjoin (pjoin pdir "ps") y = pjoin pdir ("ps/" +:+ y))
    by (intros y; unfold pjoin; by rewrite !append_assoc).
  rewrite !Hj. apply st_runs_bind, write_runs.
  destruct (ps_template PS_MAIN g) as [t1 E1]; [left|].
  destruct (ps_template PS_MAKEFILE g) as [t2 E2]; [right; left|].
  apply st_runs_bind. eapply st_runs_lift; [exact E1|]. apply st_runs_bind, write_runs.
  apply st_runs_bind. eapply st_runs_lift; [exact E2|]. apply write_runs.
  eauto using ginv_write, plain_ps.
Qed.

(** A file directly in the project directory, not called ps. *)
Definition flat (q : string) : Prop := has_char "/"%char q = false ∧ (2 < String.length q)%nat.

Lemma flat_write q x done_ F :
  flat q → ginv done_ F ∧ no_ps F → ginv done_ (<[pjoin pdir q := x]> F) ∧ no_ps (<[pjoin pdir q := x]> F).
Proof.
  intros [Hq Hl] [HF Hps]. split; [apply ginv_write; [by apply flat_plain|done]|].
  apply no_ps_write; [|done]. apply flat_not_ps; [done|]. intros ->. simpl in Hl. lia.
Qed.

Lemma flat_name x y : name_ok x = true → has_char "/"%char y = false → (1 < String.length y)%nat →
  flat (x +:+ y).
Proof.
  intros Hx Hy Hl. split; [by rewrite has_char_app, (name_no_slash x), Hy|].
  rewrite length_append. destruct x; [done|]. simpl. lia.
Qed.

Lemma flat_tb x y : name_ok x = true → has_char "/"%char y = false → flat ("tb_" +:+ x +:+ y).
Proof.
  intros Hx Hy. split; [by rewrite !has_char_app, (name_no_slash x), Hy|].
  rewrite !length_append. simpl. destruct x; [done|]. simpl. lia.
Qed.

Lemma gen_ps_runs g fw x n done_ F :
  name_ok (name g) = true → ginv done_ F ∧ no_ps F → F0 !! fw = Some x → under pdir fw = false →
  st_runs (gen_ps g pdir fw n) F (λ _, ginv done_).
Proof.
  intros Hn HF Hx Hu. unfold gen_ps.
  destruct (gen_template PS_CORE g n (soc_params g None)) as [t1 E1]; [right; left|].
  destruct (gen_template PS_TOP g n (soc_params g None)) as [t2 E2]; [right; right; left|].
  destruct (gen_template TB_PS g n (soc_params g None)) as [t3 E3]; [do 4 right; left|].
  apply st_runs_bind. eapply st_runs_lift; [exact E1|]. apply st_runs_bind, write_runs.
  apply st_runs_bind. eapply st_runs_lift; [exact E2|]. apply st_runs_bind, write_runs.
  apply st_runs_bind. eapply st_runs_lift; [exact E3|]. apply st_runs_bind, write_runs.
  clear E1 E2 E3. apply (flat_write (name g +:+ ".v") t1) in HF;
    [|apply flat_name; [done|done|simpl; lia]].
  apply (flat_write (name g +:+ "_top.v") t2) in HF; [|apply flat_name; [done|done|simpl; lia]].
  apply (flat_write ("tb_" +:+ name g +:+ ".v") t3) in HF; [|by apply flat_tb].
  destruct HF as [HF Hps]. apply st_runs_bind.
  eapply st_runs_mono; [by eapply write_ps_app_runs|]. intros [] F' HF'. by apply st_runs_ret.
Qed.

Lemma gen_standalone_runs g n done_ F :
  name_ok (name g) = true → ginv done_ F ∧ no_ps F →
  st_runs (gen_standalone g pdir n) F (λ _, ginv done_).
Proof.
  intros Hn HF. unfold gen_standalone.
  destruct (gen_template STANDALONE_TOP g n (soc_params g (Some "FW_HEX"))) as [t1 E1]; [left|].
  destruct (gen_template TB_STANDALONE g n (soc_params g (Some "FW_HEX"))) as [t2 E2];
    [do 3 right; left|].
  apply st_runs_bind. eapply st_runs_lift; [exact E1|]. apply st_runs_bind, write_runs.
  apply st_runs_bind. eapply st_runs_lift; [exact E2|]. apply st_runs_bind, write_runs.
  clear E1 E2. apply st_runs_ret.
  apply (flat_write (name g +:+ "_top.v") t1) in HF; [|apply flat_name; [done|done|simpl; lia]].
  apply (flat_write ("tb_" +:+ name g +:+ "_top.v") t2) in HF; [|by apply flat_tb].
  apply HF.
Qed.

Lemma flat_inv q x done_ F : flat q → ginv done_ F → ginv done_ (<[pjoin pdir q := x]> F).
Proof. intros [Hq _]. by apply ginv_write, flat_plain. Qed.
End generate.

(** The old project directory goes. *)
Lemma clear_runs REPO pdir F :
  st_runs (if path_exists pdir F then rmtree pdir else mret tt) F
    (λ _ F1, ginv REPO pdir F [] F1 ∧ path_exists pdir F1 = false).
Proof.
  destruct (path_exists pdir F) eqn:Ep.
  - eexists tt, _. split; [reflexivity|]. split.
    + constructor; [|set_solver]. intros q Hq. apply option_eq. intros y.
      rewrite map_lookup_filter_Some. naive_solver.
    + apply path_exists_none. intros q y [_ Hq]%map_lookup_filter_Some. done.
  - apply st_runs_ret. split; [|done]. constructor; [done|set_solver].
Qed.
Lemma sub_missing pdir F q : path_exists pdir F = false → path_exists (pjoin pdir q) F = false.
Proof.
  rewrite !path_exists_none. intros H k y Hk.
  apply not_true_iff_false. intros Hk'%under_sub. by rewrite (H k y Hk) in Hk'.
Qed.

(** generate returns, changes nothing outside the project directory, and copies
    every RTL file the configuration needs verbatim. *)
Lemma generate_runs REPO g out fw fw_size (F : fs) :
  let pdir := pjoin (pjoin out "projects") (name g) in
  name_ok (name g) = true → is_Some (F !! fw) → under pdir fw = false →
  (∀ f, f ∈ rtl_files g → is_Some (F !! pjoin REPO f) ∧ under pdir (pjoin REPO f) = false) →
  ∃ F', generate REPO g out fw fw_size F = Ok (pdir, F') ∧
    (∀ q, under pdir q = false → F' !! q = F !! q) ∧
    (∀ f, f ∈ rtl_files g → F' !! rtl_dst pdir f = F !! pjoin REPO f).
Proof.
  intros pdir Hn [x Hx] Hu Hsrc.
  assert (st_runs (generate REPO g out fw fw_size) F (λ p F',
    p = pdir ∧ ginv REPO pdir F (rtl_files g) F'))
    as (p & F' & E & -> & [Ho Hr]); [|by eauto].
  unfold generate. fold pdir. apply st_runs_bind. exists F, F. split; [reflexivity|].
  apply st_runs_bind. eapply st_runs_mono; [apply (clear_runs REPO)|]. intros [] F1 [HF1 Hp1].
  pose proof (λ q, sub_missing pdir F1 q Hp1) as Hsub.
  apply st_runs_bind. exists tt, F1. split; [unfold makedirs; by rewrite Hsub|].
  apply st_runs_bind. exists tt, F1. split; [unfold makedirs; by rewrite Hsub|].
  apply st_runs_bind, write_runs.
  assert (HF2 := conj HF1 (Hsub "ps")).
  apply (flat_write _ _ _ MARKER ("generated by riscv-from-scratch tools/rvgen" +:+ n1)) in HF2;
    [|split; [done|simpl; lia]].
  destruct HF2 as [HF2 Hps2].
  apply st_runs_bind. eapply st_runs_mono; [apply (copy_rtl_runs REPO pdir F (rtl_files g) [])|].
  { apply rtl_basenames_NoDup. } { done. } { done. } { done. }
  intros rel F3 (-> & HF3 & Hps3). rewrite app_nil_l in HF3.
  assert (Hfw : pjoin (pjoin pdir "fw") "firmware.hex" = pjoin pdir "fw/firmware.hex")
    by (unfold pjoin; by rewrite !append_assoc).
  apply st_runs_bind. unfold copy at 1. apply st_runs_bind.
  eapply read_runs; [by rewrite (gi_out _ _ _ _ _ HF3)|]. rewrite Hfw. apply write_runs.
  assert (HF4 : ginv REPO pdir F (rtl_files g) (<[pjoin pdir "fw/firmware.hex" := x]> F3))
    by (apply ginv_write; [by intros b0 Hb|done]).
  assert (Hps4 : no_ps pdir (<[pjoin pdir "fw/firmware.hex" := x]> F3)) by by apply no_ps_write.
  set (F4 := <[pjoin pdir "fw/firmware.hex" := x]> F3) in *.
  apply st_runs_bind. eapply read_runs; [by rewrite (gi_out _ _ _ _ _ HF4)|].
  apply st_runs_bind. eapply st_runs_mono with (Q := λ _, ginv REPO pdir F (rtl_files g)).
  { destruct (ps g); [by eapply gen_ps_runs|by apply gen_standalone_runs]. }
  intros br F5 HF5. destruct (xdc_total (summary g) (extra br)) as [xdc E1].
  apply st_runs_bind. eapply st_runs_lift; [exact E1|]. clear E1. apply st_runs_bind, write_runs.
  apply st_runs_bind. edestruct project_mk_total as [mk E2]. eapply st_runs_lift; [exact E2|].
  clear E2. apply st_runs_bind, write_runs. apply st_runs_bind, write_runs.
  apply st_runs_bind. unfold write_readme. apply write_runs. apply st_runs_ret.
  split; [done|]. do 3 (apply flat_inv; [split; [done|simpl; lia]|]). apply flat_inv; [|done].
  apply flat_name; [done|done|simpl; lia].
Qed.

Definition demo_fs : fs :=
  <["/r/fw.hex" := "00000013" +:+ n1]> (list_to_map (map (λ f, (pjoin "/r" f, "x")) (rtl_files demo_cfg))).

(** ** export *)

Lemma copytree_some src dst (F G : fs) q :
  copytree src dst F = Ok (tt, G) → is_Some (F !! q) → is_Some (G !! q).
Proof.
  unfold copytree. destruct (path_exists dst F); [done|]. intros [= <-] Hq.
  induction (map_to_list F) as [|[k x] l IH]; [done|]. simpl.
  destruct (startswith k _); [|done]. destruct (decide (q = dst +:+ sdrop (String.length src) k)) as [->|].
  - rewrite lookup_insert_eq. by eexists.
  - by rewrite lookup_insert_ne.
Qed.

Definition demo_ps (oz f : string) : string :=
  pjoin (pjoin (pjoin (pjoin oz "projects") "ps_pl_demo") "ps") f.

(** The three files of the checkout's own PS example are copied in. *)
Lemma copy_ps_runs oz dst fs_ (F : fs) :
  (∀ f, f ∈ fs_ → is_Some (F !! demo_ps oz f)) →
  st_runs (st_for fs_ (λ f, copy (demo_ps oz f) (pjoin (pjoin dst "ps") f))) F (λ _ _, True).
Proof.
  revert F; induction fs_ as [|f0 fs_ IH]; intros F Hf; [by apply st_runs_ret|].
  cbn [st_for]. destruct (Hf f0) as [x Hx]; [left|]. apply st_runs_bind. unfold copy.
  apply st_runs_bind. eapply read_runs; [exact Hx|]. apply write_runs. apply IH.
  intros f1 H1. destruct (decide (demo_ps oz f1 = pjoin (pjoin dst "ps") f0)) as [->|].
  - rewrite lookup_insert_eq. by eexists.
  - rewrite lookup_insert_ne by done. apply Hf. by right.
Qed.

(** Export into a checkout that passes the sanity check. *)
Definition board_mk (oz : string) : string :=
  pjoin (pjoin (pjoin oz "boards") "mitra7010") "board.mk".

(** Exporting a PS-attached project into an OpenZynq checkout for the first
    time fails: [keep] is only assigned when the destination already exists,
    so reading it raises UnboundLocalError, after the project has been copied
    and before anything is reported. *)
Theorem export_first_ps_unbound g pdir oz force (F : fs) :
  ps g = true → is_Some (F !! board_mk oz) →
  path_exists (pjoin (pjoin oz "projects") (name g)) F = false →
  (∀ f, f ∈ ["startup.S"; "linker.ld"; "xil_io.h"] → is_Some (F !! demo_ps oz f)) →
  export g pdir oz force F = Err (UnboundLocalError "keep").
Proof.
  intros Hps [x Hx] Hdst Hf. unfold export. fold (board_mk oz).
  erewrite st_bind_run by reflexivity. rewrite Hx, Hdst. cbn [andb].
  erewrite st_bind_run by reflexivity.
  destruct (copytree pdir (pjoin (pjoin oz "projects") (name g)) F) as [[[] G]|e] eqn:Ec;
    [|unfold copytree in Ec; by rewrite Hdst in Ec].
  erewrite st_bind_run by exact Ec. rewrite Hps.
  edestruct (copy_ps_runs oz (pjoin (pjoin oz "projects") (name g))
    ["startup.S"; "linker.ld"; "xil_io.h"] G) as ([] & G2 & E2 & _).
  { intros f0 H0. eapply copytree_some; [exact Ec|by apply Hf]. }
  unfold mbind at 1, ST_bind at 1. erewrite st_bind_run by exact E2. done.
Qed.

Definition demo_checkout : fs :=
  list_to_map [(board_mk "/oz", ""); (demo_ps "/oz" "startup.S", ""); (demo_ps "/oz" "linker.ld", "");
               (demo_ps "/oz" "xil_io.h", ""); ("/o/projects/riscv_soc/project.mk", "")].

Lemma export_first_ps_unbound_witness :
  export demo_cfg "/o/projects/riscv_soc" "/oz" false demo_checkout = Err (UnboundLocalError "keep").
Proof.
  apply export_first_ps_unbound.
  - reflexivity.
  - by eexists.
  - vm_compute. reflexivity.
  - apply Forall_forall. repeat (apply Forall_cons; split; [by eexists|]). by apply Forall_nil.
Defined.

(** A directory of that name rvgen did not make is never overwritten
    unless --force is given. *)
Theorem export_refuses_foreign g pdir oz (F : fs) :
  let dst := pjoin (pjoin oz "projects") (name g) in
  is_Some (F !! board_mk oz) → path_exists dst F = true → path_exists (pjoin dst MARKER) F = false →
  ∃ msg, export g pdir oz false F = Err (SystemExit msg).
Proof.
  intros dst [x Hx] Hd Hm. unfold export. fold (board_mk oz). fold dst.
  erewrite st_bind_run by reflexivity. rewrite Hx, Hd, Hm. cbn. eauto.
Qed.

Lemma export_refuses_foreign_witness :
  ∃ msg, export demo_cfg "/o/projects/riscv_soc" "/oz" false
    (<["/oz/projects/riscv_soc/notes.txt" := "mine"]> demo_checkout) = Err (SystemExit msg).
Proof.
  apply export_refuses_foreign; [by eexists|vm_compute; reflexivity|vm_compute; reflexivity].
Defined.

End RvSpec.

(** ** The files of a generated project

    [Fills c l]: when [c] returns, the files of [l] exist and all others are as
    before.  The list is built along the code, so that at the end the files
    below the project directory are known exactly. *)
Module RvFiles.
Import Hex PyStr Fmt RvTemplates Rvgen RvGenerate RvSpec.

(** ** Which files a step writes *)

Definition Fills {A} (c : ST fs A) (l : list string) : Prop :=
  ∀ F a F', c F = Ok (a, F') → (∀ q, q ∈ l → is_Some (F' !! q)) ∧ (∀ q, q ∉ l → F' !! q = F !! q).

Lemma fills_ret {A} (a : A) : Fills (mret a) [].
Proof. intros F b F' [= <- <-]. split; [by intros q ?%not_elem_of_nil|done]. Qed.
Lemma fills_lift {A} (r : res A) : Fills (st_lift r) [].
Proof.
  intros F b F' H. unfold st_lift in H. destruct r; [|done]. injection H as <- <-.
  split; [by intros q ?%not_elem_of_nil|done].
Qed.
Lemma fills_read p : Fills (read_file p) [].
Proof.
  intros F b F' H. unfold read_file in H. destruct (F !! p); [|done]. injection H as <- <-.
  split; [by intros q ?%not_elem_of_nil|done].
Qed.
Lemma fills_makedirs p : Fills (makedirs p) [].
Proof.
  intros F b F' H. unfold makedirs in H. destruct (path_exists p F); [done|]. injection H as <- <-.
  split; [by intros q ?%not_elem_of_nil|done].
Qed.
Lemma fills_write p x : Fills (write_file p x) [p].
Proof.
  intros F b F' [= <- <-]. split.
  - intros q ->%list_elem_of_singleton. rewrite lookup_insert_eq. by eexists.
  - intros q Hq. apply lookup_insert_ne. intros ->. by destruct Hq; left.
Qed.
Lemma fills_bind {A B} (c : ST fs A) (k : A → ST fs B) l1 l2 :
  Fills c l1 → (∀ a, Fills (k a) l2) → Fills (c ≫= k) (l1 ++ l2).
Proof.
  intros Hc Hk F b F' (a & F1 & E1 & E2)%st_bind_ok. destruct (Hc _ _ _ E1) as [I1 O1], (Hk _ _ _ _ E2) as [I2 O2].
  split.
  - intros q Hq. destruct (decide (q ∈ l2)) as [|Hn]; [by apply I2|]. rewrite O2 by done. apply I1.
    by apply elem_of_app in Hq as [].
  - intros q Hq. rewrite O2, O1; [done|set_solver..].
Qed.

(** Along the code. *)
Ltac fills :=
  lazymatch goal with
  | |- Fills (_ ≫= _) _ => eapply fills_bind; [fills|intros ?; fills]
  | |- Fills (write_file _ _) _ => apply fills_write
  | |- Fills (read_file _) _ => apply fills_read
  | |- Fills (makedirs _) _ => apply fills_makedirs
  | |- Fills (st_lift _) _ => apply fills_lift
  | |- Fills (mret _) _ => apply fills_ret
  | _ => eauto
  end.

Lemma fills_copy a b : Fills (copy a b) [b].
Proof. change [b] with ([] ++ [b]). unfold copy. fills. Qed.
Lemma fills_copy_rtl REPO pdir l : Fills (copy_rtl REPO pdir l) (map (rtl_dst pdir) l).
Proof.
  induction l as [|f l IH]; cbn [copy_rtl map]; [apply fills_ret|].
  change (Fills (copy (pjoin REPO f) (rtl_dst pdir f);; rel ← copy_rtl REPO pdir l; mret (("rtl/" +:+ basename f) :: rel))
    ([rtl_dst pdir f] ++ map (rtl_dst pdir) l)).
  eapply fills_bind; [apply fills_copy|]. intros _. rewrite <- (app_nil_r (map _ l)).
  eapply fills_bind; [exact IH|]. intros rel. apply fills_ret.
Qed.

(** ** The files of a project *)

Definition branch_files (g : Cfg) : list string :=
  if ps g then [name g +:+ ".v"; name g +:+ "_top.v"; "tb_" +:+ name g +:+ ".v";
                "ps/rv_firmware.h"; "ps/main.c"; "ps/Makefile"]
  else [name g +:+ "_top.v"; "tb_" +:+ name g +:+ "_top.v"].
Definition project_files (g : Cfg) : list string :=
  MARKER :: map (λ f, "rtl/" +:+ basename f) (rtl_files g) ++
  "fw/firmware.hex" :: branch_files g ++ [name g +:+ ".xdc"; "project.mk"; "rvconfig"; "README.md"].

Lemma fills_branch g pdir fw n :
  Fills (if ps g then gen_ps g pdir fw n else gen_standalone g pdir n) (map (pjoin pdir) (branch_files g)).
Proof.
  unfold branch_files. destruct (ps g).
  - cbn [map].
    assert (∀ y, pjoin pdir ("ps/" +:+ y) = pjoin (pjoin pdir "ps") y) as Hj
      by (intros y; unfold pjoin; by rewrite !append_assoc).
    change (pjoin pdir "ps/rv_firmware.h") with (pjoin pdir ("ps/" +:+ "rv_firmware.h")).
    change (pjoin pdir "ps/main.c") with (pjoin pdir ("ps/" +:+ "main.c")).
    change (pjoin pdir "ps/Makefile") with (pjoin pdir ("ps/" +:+ "Makefile")). rewrite !Hj.
    assert (Fills (write_ps_app g pdir fw)
      [pjoin (pjoin pdir "ps") "rv_firmware.h"; pjoin (pjoin pdir "ps") "main.c"; pjoin (pjoin pdir "ps") "Makefile"]) as Happ.
    { unfold write_ps_app. cbv zeta.
      match goal with |- Fills ?c ?l => eassert (Fills c _) as H; [fills|exact H] end. }
    unfold gen_ps. cbv zeta.
    match goal with |- Fills ?c ?l => eassert (Fills c _) as H; [fills|exact H] end.
  - unfold gen_standalone. cbv zeta.
    match goal with |- Fills ?c ?l => eassert (Fills c _) as H; [fills|exact H] end.
Qed.
(** The files written after the firmware image is copied. *)
Notation last_files g := (branch_files g ++ [name g +:+ ".xdc"; "project.mk"; "rvconfig"; "README.md"]).

Lemma joined_inj q a b : pjoin q a = pjoin q b → a = b.
Proof. unfold pjoin. intros E. by do 2 apply append_inj_l in E. Qed.
Lemma in_join pdir x l : pjoin pdir x ∈ map (pjoin pdir) l ↔ x ∈ l.
Proof.
  split; [|apply (list_elem_of_fmap_2 (pjoin pdir))].
  intros (y & ->%joined_inj & H)%(list_elem_of_fmap (pjoin pdir)). done.
Qed.

(** The firmware image is none of the files written after it. *)
Lemma firmware_apart g : name_ok (name g) = true → "fw/firmware.hex" ∉ last_files g.
Proof.
  intros Hn%name_no_slash Hin.
  assert (∀ x y, has_char "/"%char y = false → x +:+ name g +:+ y = "fw/firmware.hex" → has_char "/"%char x = true) as Hno.
  { intros x y Hy E. apply (f_equal (has_char "/"%char)) in E. rewrite !has_char_app, Hn, Hy, !orb_false_r in E. done. }
  unfold branch_files in Hin. destruct (ps g); cbn [app] in Hin;
    repeat (apply elem_of_cons in Hin as [E|Hin]; [first [discriminate E|symmetry in E];
      first [by apply (Hno "" ".v") in E|by apply (Hno "" "_top.v") in E|by apply (Hno "tb_" ".v") in E
            |by apply (Hno "tb_" "_top.v") in E|by apply (Hno "" ".xdc") in E]|]); by apply not_elem_of_nil in Hin.
Qed.

(** The steps of generate after that copy. *)
Lemma fills_last g pdir fw fw_size (rel : list string) :
  Fills (img ← read_file fw;
    let img_words := Z.of_nat (length (file_lines img)) in
    br ← (if ps g then gen_ps g pdir fw img_words else gen_standalone g pdir img_words);
    xdc ← st_lift (fmt XDC [("summary", VStr (summary g)); ("extra", VStr (extra br))]);
    write_file (pjoin pdir (name g +:+ ".xdc")) xdc;;
    mk ← st_lift (fmt PROJECT_MK
      [("summary", VStr (summary g)); ("top", VStr (top br)); ("sim_top", VStr (sim_top br));
       ("name", VStr (name g)); ("rtl", VStr (join (" \" +:+ n1 +:+ "            ") rel));
       ("sim_extra", VStr (sim_extra br)); ("syn_extra", VStr (syn_extra br));
       ("ps_mk", VStr (ps_mk br))]);
    write_file (pjoin pdir "project.mk") mk;;
    write_file (pjoin pdir "rvconfig") (text g);;
    write_readme g pdir fw_size;;
    mret pdir) (map (pjoin pdir) (last_files g)).
Proof.
  rewrite map_app. apply (fills_bind _ _ [] _ (fills_read _)). intros img. cbv zeta.
  apply fills_bind; [apply fills_branch|]. intros br. unfold write_readme. cbn [map].
  match goal with |- Fills ?c _ => eassert (Fills c _) as H; [fills|exact H] end.
Qed.

Lemma joined_fw pdir : pjoin (pjoin pdir "fw") "firmware.hex" = pjoin pdir "fw/firmware.hex".
Proof. unfold pjoin. by rewrite !append_assoc. Qed.
Lemma joined_files g pdir :
  [] ++ [] ++ [pjoin pdir MARKER] ++ map (rtl_dst pdir) (rtl_files g) ++
    [pjoin (pjoin pdir "fw") "firmware.hex"] ++ map (pjoin pdir) (last_files g)
  = map (pjoin pdir) (project_files g).
Proof.
  unfold project_files. cbn [app map]. rewrite joined_fw, !map_app, map_map. cbn [map]. rewrite map_app.
  do 2 f_equal. apply map_ext. intros f. apply rtl_dst_join.
Qed.

(** C24.  generate, for every accepted configuration and every firmware image:
    given the RTL sources and the image outside the project directory it
    returns (every template renders, no file is missing, no directory
    clashes) and changes nothing outside the project directory.  The files
    below the project directory are then exactly those of [project_files]: the
    marker, the RTL copies, the firmware image, the top module and its
    testbench (with a PS core also the core and the three files of its
    application), the constraints, project.mk, rvconfig and the README; the
    RTL files and the image are copied verbatim, and rvconfig is the
    configuration. *)
Theorem generate_total REPO g out fw fw_size (F : fs) :
  let pdir := pjoin (pjoin out "projects") (name g) in
  name_ok (name g) = true → is_Some (F !! fw) → under pdir fw = false →
  (∀ f, f ∈ rtl_files g → is_Some (F !! pjoin REPO f) ∧ under pdir (pjoin REPO f) = false) →
  ∃ F', generate REPO g out fw fw_size F = Ok (pdir, F') ∧
    (∀ q, under pdir q = false → F' !! q = F !! q) ∧
    (∀ q, under pdir q = true → is_Some (F' !! q) ↔ ∃ x, x ∈ project_files g ∧ q = pjoin pdir x) ∧
    (∀ f, f ∈ rtl_files g → F' !! rtl_dst pdir f = F !! pjoin REPO f) ∧
    F' !! pjoin pdir "fw/firmware.hex" = F !! fw ∧ F' !! pjoin pdir "rvconfig" = Some (text g).
Proof.
  intros pdir Hn Hx Hu Hsrc.
  destruct (generate_runs REPO g out fw fw_size F Hn Hx Hu Hsrc) as (F' & E & Ho & Hr).
  exists F'. split; [exact E|]. split; [exact Ho|]. unfold generate in E. fold pdir in E.
  apply st_bind_ok in E as (F0 & F00 & [= <- <-] & E). apply st_bind_ok in E as ([] & F1 & E1 & E).
  destruct (clear_runs REPO pdir F) as ([] & F1' & E1' & [Hkeep _] & Hgone). rewrite E1 in E1'. injection E1' as <-.
  split; [|split; [exact Hr|]].
  - match type of E with ?c F1 = _ => assert (Fills c (map (pjoin pdir) (project_files g))) as HF end.
    { rewrite <- (joined_files g pdir). do 2 (apply fills_bind; [apply fills_makedirs|intros ?]).
      apply fills_bind; [apply fills_write|intros ?]. apply fills_bind; [apply fills_copy_rtl|intros ?].
      apply fills_bind; [apply fills_copy|intros ?]. apply fills_last. }
    destruct (HF _ _ _ E) as [Hin Hout]. intros q Hq. split.
    + intros Hs. destruct (decide (q ∈ map (pjoin pdir) (project_files g))) as [Hi|Hno].
      { apply (list_elem_of_fmap (pjoin pdir)) in Hi as (x & -> & Hxx). by exists x. }
      rewrite Hout in Hs by done. destruct Hs as [y Hy]. exfalso.
      rewrite path_exists_none in Hgone. rewrite (Hgone q y Hy) in Hq. done.
    + intros (x & Hxx & ->). apply Hin. by apply in_join.
  - apply st_bind_ok in E as ([] & F2 & E2 & E). apply st_bind_ok in E as ([] & F3 & E3 & E).
    apply st_bind_ok in E as ([] & F4 & E4 & E). apply st_bind_ok in E as (rel & F5 & E5 & E).
    apply st_bind_ok in E as ([] & F6 & E6 & E). split.
    + assert (F5 !! fw = F !! fw) as H5.
      { assert (∀ x, fw ≠ pjoin pdir x) as Hne by (intros x ->; by rewrite under_join in Hu).
        rewrite (proj2 (fills_copy_rtl _ _ _ _ _ _ E5)), (proj2 (fills_write _ _ _ _ _ E4)),
          (proj2 (fills_makedirs _ _ _ _ E3)), (proj2 (fills_makedirs _ _ _ _ E2)); [by apply Hkeep|apply not_elem_of_nil..| |].
        - intros Hf%list_elem_of_singleton. by apply (Hne MARKER).
        - intros (f & Hf & _)%(list_elem_of_fmap (rtl_dst pdir)). rewrite rtl_dst_join in Hf. by eapply Hne. }
      rewrite (proj2 (fills_last _ _ _ _ _ _ _ _ E)) by (rewrite in_join; by apply firmware_apart).
      unfold copy in E6. apply st_bind_ok in E6 as (x & F5' & E5' & [= <-]). unfold read_file in E5'.
      rewrite H5 in E5'. destruct (F !! fw) as [y|] eqn:Efw; [|done]. injection E5' as <- <-.
      rewrite <- (joined_fw pdir). by rewrite lookup_insert_eq.
    + do 6 apply st_bind_ok in E as (? & ? & _ & E). apply st_bind_ok in E as (? & F7 & [= <- <-] & E).
      apply st_bind_ok in E as (? & F8 & [= <- <-] & [= <-]).
      rewrite lookup_insert_ne by (intros ?%joined_inj; done). by rewrite lookup_insert_eq.
Qed.

Lemma generate_total_witness :
  ∃ F', generate "/r" demo_cfg "/o" "/r/fw.hex" None demo_fs = Ok ("/o/projects/riscv_soc", F') ∧
    F' !! "/o/projects/riscv_soc/rtl/vec_unit.v" = Some "x" ∧
    is_Some (F' !! "/o/projects/riscv_soc/riscv_soc_top.v").
Proof.
  destruct (generate_total "/r" demo_cfg "/o" "/r/fw.hex" None demo_fs) as (F' & E & _ & Hf & Hr & _).
  - reflexivity.
  - by eexists.
  - reflexivity.
  - apply Forall_forall. repeat (apply Forall_cons; split; [split; [by eexists|reflexivity]|]).
    by apply Forall_nil.
  - exists F'. split; [exact E|]. split.
    + apply (Hr "rtl/vec_unit.v"). apply list_elem_of_In. vm_compute. auto 20.
    + apply Hf; [reflexivity|]. exists "riscv_soc_top.v". split; [|reflexivity].
      apply list_elem_of_In. vm_compute. auto 40.
Defined.
End RvFiles.
