(* ===== verification/RvMain.v ===== *)
(** * tools/rvgen/rvgen.py: firmware, simulation and the main function

    The programs that are run (compiler, simulator) are a parameter: a
    computation over the files that gives an exit code and what was printed.
    [simulate] reads project.mk back with regular expressions, which are
    functions on the text here. *)
From S2P Require Import Prelude Hex PyStr Fmt RvTemplates Rvgen RvGenerate.

Module RvMain.
Import Hex PyStr Fmt RvTemplates Rvgen RvGenerate.

(** ** Regular expressions *)

(** [s.replace("\\\n", " ")] *)
Fixpoint join_continued (s : string) : string :=
  match s with
  | EmptyString => ""
  | String c s' =>
      match s' with
      | String d s'' => if Ascii.eqb c "\" && Ascii.eqb d nl then String " " (join_continued s'')
                        else String c (join_continued s')
      | EmptyString => String c ""
      end
  end.

(** [.*] and [\S+] at the front. *)
Fixpoint until (stop : ascii → bool) (s : string) : string :=
  match s with
  | EmptyString => ""
  | String c s => if stop c then "" else String c (until stop s)
  end.
Definition rest_of_line : string → string := until (Ascii.eqb nl).
Definition first_word : string → string := until is_space.

(** What follows the last [sub] in [s]. *)
Fixpoint after_last (sub s : string) : option string :=
  let here := if startswith s sub then Some (sdrop (String.length sub) s) else None in
  match s with
  | EmptyString => here
  | String _ s => match after_last sub s with Some r => Some r | None => here end
  end.

(** The key at the start of a line, white space and [:=]; gives what follows. *)
Definition assignment_to (key s : string) : option string :=
  if startswith s key then
    let s := lstrip (sdrop (String.length key) s) in
    if startswith s ":=" then Some (sdrop 2 s) else None
  else None.

(** The three expressions: after [RV_RTL :=] the rest of the line; after
    [SIM_TOP :=] a word; after [SIM_SRCS :=] the rest of the line from the last
    reference to RV_RTL on.  White space may include line ends. *)
Definition match_rtl (s : string) : option string := rest_of_line ∘ lstrip <$> assignment_to "RV_RTL" s.
Definition match_top (s : string) : option string :=
  r ← assignment_to "SIM_TOP" s; let w := first_word (lstrip r) in if String.eqb w "" then None else Some w.
Definition match_srcs (s : string) : option string :=
  r ← assignment_to "SIM_SRCS" s;
  t ← after_last "$(RV_RTL))" (rest_of_line r);
  Some (rest_of_line (lstrip (t +:+ sdrop (String.length (rest_of_line r)) r))).

(** [re.search] of an expression that begins with [^], in the text [s];
    [bol] tells whether it begins a line. *)
Fixpoint search_lines (mt : string → option string) (bol : bool) (s : string) : option string :=
  match (if bol then mt s else None) with
  | Some r => Some r
  | None => match s with EmptyString => None | String c s => search_lines mt (Ascii.eqb c nl) s end
  end.
Definition group1 (mt : string → option string) (s : string) : res string :=
  match search_lines mt true s with Some r => Ok r | None => Err AttributeError end.

(** What [simulate] reads: the RTL, the further sources, the top module. *)
Definition read_project (mk : string) : res (list string * list string * string) :=
  let mk := join_continued mk in
  let* rv := group1 match_rtl mk in
  let* extra := group1 match_srcs mk in
  let* sim_top := group1 match_top mk in
  Ok (split_ws rv, split_ws extra, sim_top).

(** The sources on the command line, from the root of the project. *)
Definition sim_sources (name : string) (r : list string * list string * string) : list string :=
  let '(rv, extra, sim_top) := r in
  ("projects/" +:+ name +:+ "/tb_" +:+ sim_top +:+ ".v") :: map (λ f, "projects/" +:+ name +:+ "/" +:+ f) rv ++ extra.

(** ** Programs *)

Definition CROSS : string := "riscv64-unknown-elf-".

(** [os.path.relpath] of absolute paths without [.] and [..]. *)
Fixpoint drop_common (a b : list string) : list string * list string :=
  match a, b with
  | x :: a', y :: b' => if String.eqb x y then drop_common a' b' else (a, b)
  | _, _ => (a, b)
  end.
Definition relpath (p start : string) : string :=
  let '(a, b) := drop_common (split_char "/" p) (split_char "/" start) in
  match (map (λ _, "..") b ++ a)%list with [] => "." | l => join "/" l end.

Section programs.
Context (REPO : string).
Context (exec : list string → option string → ST fs (Z * string * string)).
(** [kconf.write_autoconf] gives this text. *)
Context (autoconf : string).

(** [run] *)
Definition run (cmd : list string) (cwd : option string) : ST fs string :=
  r ← exec cmd cwd;
  let '(code, out, err) := r in
  if (code =? 0)%Z then mret out
  else st_lift (die ("command failed: " +:+ join " " cmd +:+ String nl (out +:+ err))).

(** [os.makedirs(p, exist_ok=True)] *)
Definition makedirs_ok (p : string) : ST fs unit := λ F,
  match F !! p with Some _ => Err (FileExistsError p) | None => Ok (tt, F) end.

(** The last line that [size] prints: text, data and bss. *)
Definition parse_size (out : string) : res (Z * Z * Z) :=
  match List.rev (file_lines out) with
  | [] => Err IndexError
  | l :: _ =>
      let field := λ k, let* x := index (split_ws l) k in int10 x in
      let* t := field 0 in
      let* d := field 1 in
      let* b := field 2 in
      Ok (t, d, b)
  end.

Definition gcc_cmd (g : Cfg) (fw elf : string) : list string :=
  [CROSS +:+ "gcc"; "-march=" +:+ march g; "-mabi=" +:+ mabi g; "-O2"; "-ffreestanding"; "-nostdlib";
   "-nostartfiles"; "-ffp-contract=off"; "-fno-math-errno"; "-I"; fw; "-I"; pjoin REPO "sw"; "-T"; pjoin fw "oz.ld";
   pjoin (pjoin (pjoin REPO "sw") "oz") "start.S"; pjoin (pjoin (pjoin REPO "sw") "oz") "selftest.c";
   pjoin (pjoin REPO "sw") "firmware.c"; "-o"; elf; "-lgcc"].

(** [build_firmware] *)
Definition build_firmware (g : Cfg) (work : string) : ST fs (string * option (Z * Z * Z)) :=
  let fw := pjoin work "fw" in
  makedirs_ok fw;;
  if fw_custom g then
    copy (fw_hex g) (pjoin fw "firmware.hex");;
    mret (pjoin fw "firmware.hex", None)
  else
    write_file (pjoin fw "oz_config.h") (autoconf +:+ oz_config_tail g);;
    ld ← st_lift (linker_script g);
    write_file (pjoin fw "oz.ld") ld;;
    let elf := pjoin fw "firmware.elf" in
    run (gcc_cmd g fw elf) None;;
    run [CROSS +:+ "objcopy"; "-O"; "binary"; elf; pjoin fw "firmware.bin"] None;;
    data ← read_file (pjoin fw "firmware.bin");
    write_file (pjoin fw "firmware.hex") (firmware_hex (str_bytes data));;
    out ← run [CROSS +:+ "size"; elf] None;
    size ← st_lift (parse_size out);
    mret (pjoin fw "firmware.hex", Some size).

(** [simulate]; also what it prints. *)
Definition simulate (g : Cfg) (root : string) : ST fs (bool * string) :=
  let pdir := pjoin (pjoin root "projects") (name g) in
  mk ← read_file (pjoin pdir "project.mk");
  r ← st_lift (read_project mk);
  let out := pjoin (pjoin root "build") (name g) in
  makedirs_ok out;;
  run (["iverilog"; "-g2012"; "-o"; pjoin out "tb.vvp"] ++ sim_sources (name g) r) (Some root);;
  r ← exec ["vvp"; "tb.vvp"] (Some out);
  let printed := r.1.2 in
  mret (contains (String nl "PASS:") printed, printed).

(** The arguments of the command line; [a_oz] as an absolute path. *)
Record Args := mkArgs { a_out : string; a_oz : option string; a_sim : bool; a_force : bool }.

(** [main] once the configuration is read: the lines printed and the exit
    code. *)
Definition main (g : Cfg) (a : Args) : ST fs (list string * Z) :=
  let work := pjoin (pjoin (pjoin REPO "build") "rvgen") (name g) in
  fw ← build_firmware g work;
  pdir ← generate REPO g (a_out a) fw.1 fw.2;
  let out := ["rvgen: " +:+ summary g;
              "rvgen: wrote " +:+ relpath pdir REPO +:+ " (" +:+ pretty (length (rtl_files g))
              +:+ " RTL files, config hash 0x" +:+ fmt_x 8 (cfg_hash g) +:+ ")"] in
  s ← (if a_sim a then
         r ← simulate g (a_out a);
         mret (r.1, [r.2; "rvgen: simulation " +:+ if (r.1 : bool) then "PASSED" else "FAILED"])
       else mret (true, []));
  e ← (match a_oz a with
       | Some oz => dst ← export g pdir oz (a_force a); mret ["rvgen: exported to " +:+ dst]
       | None => mret []
       end);
  mret (out ++ s.2 ++ e, if (s.1 : bool) then 0%Z else 1%Z).
End programs.
End RvMain.
