(* ===== verification/RvMainSpec.v ===== *)
(** * tools/rvgen/rvgen.py: the simulation compiles what was generated

    [simulate] finds the sources of a project by searching project.mk with
    regular expressions; for a project [generate] wrote these are exactly the
    files it wrote. *)
From S2P Require Import Prelude Hex PyStr Fmt RvTemplates Rvgen RvGenerate RvMain RvSpec.

Module RvMainSpec.
Import Hex PyStr Fmt RvTemplates Rvgen RvGenerate RvMain RvSpec.

(** ** Characters *)

Lemma all_app p s t : all_chars p (s +:+ t) = all_chars p s && all_chars p t.
Proof. induction s as [|c s IH]; [done|]. rewrite cons_append. cbn. by rewrite IH, andb_assoc. Qed.
Lemma all_mono (p q : ascii → bool) s : (∀ c, p c = true → q c = true) → all_chars p s = true → all_chars q s = true.
Proof.
  intros H. induction s as [|c s IH]; [done|]. cbn. intros [Hc Hs]%andb_prop. by rewrite (H c Hc), IH.
Qed.
Lemma all_join p sep l :
  all_chars p sep = true → Forall (λ s, all_chars p s = true) l → all_chars p (join sep l) = true.
Proof.
  intros Hs. induction 1 as [|x l Hx Hl IH]; [done|]. destruct l as [|y l]; [done|].
  change (join sep (x :: y :: l)) with (x +:+ sep +:+ join sep (y :: l)). by rewrite !all_app, Hx, Hs, IH.
Qed.

(** Neither a line end nor a backslash; a word has no white space and no
    dollar sign either. *)
Definition plain_char (c : ascii) : bool := negb (Ascii.eqb c nl) && negb (Ascii.eqb c "\").
Definition word_char (c : ascii) : bool := negb (is_space c) && negb (Ascii.eqb c "\") && negb (Ascii.eqb c "$").
Definition plain_text (s : string) : Prop := all_chars plain_char s = true.
Definition wordy (s : string) : Prop := s ≠ "" ∧ all_chars word_char s = true.

Lemma word_plain c : word_char c = true → plain_char c = true.
Proof. unfold word_char, plain_char. destruct (Ascii.eqb_spec c nl) as [->|]; [done|]. cbn. by destruct (is_space c), (Ascii.eqb c "\"). Qed.
Lemma wordy_plain s : wordy s → plain_text s.
Proof. intros [_ H]. eapply all_mono; [exact word_plain|done]. Qed.

Lemma pretty_go_digits p x : ∀ s, (∀ d, (d < 10)%N → p (pretty_N_char d) = true) → all_chars p s = true →
  all_chars p (pretty_N_go x s) = true.
Proof.
  induction (N.lt_wf_0 x) as [x _ IH]; intros s Hd Hs. destruct (decide (x = 0)%N) as [->|Hx]; [by rewrite pretty_N_go_0|].
  rewrite pretty_N_go_step by lia. apply IH; [apply N.div_lt; lia|done|]. cbn. rewrite Hd; [done|]. by apply N.mod_lt.
Qed.
Lemma pretty_plain (z : Z) : plain_text (pretty z).
Proof.
  assert (∀ d, (d < 10)%N → plain_char (pretty_N_char d) = true) as Hd.
  { intros d Hd. assert (d ∈ [0;1;2;3;4;5;6;7;8;9]%N) as Hin.
    { destruct d as [|p]; [set_solver|]. do 4 (destruct p as [p|p|]; try lia; try set_solver). }
    rewrite !elem_of_cons, elem_of_nil in Hin. naive_solver. }
  unfold plain_text. destruct z as [|p|p]; [done| |].
  - change (pretty (Z.pos p)) with (pretty_N_go (N.pos p) ""). by apply pretty_go_digits.
  - change (pretty (Z.neg p)) with (String "-" (pretty_N_go (N.pos p) "")). cbn. by apply pretty_go_digits.
Qed.

Lemma summary_plain g : plain_text (summary g).
Proof.
  assert (∀ b x, all_chars plain_char x = true → all_chars plain_char (opt b x) = true) as Ho by by intros [].
  unfold plain_text, summary, march, core_module. apply all_join; [done|].
  pose proof pretty_plain as Hp. unfold plain_text in Hp.
  repeat first [apply Forall_app; split | apply Forall_cons; split | apply Forall_nil | case_match];
    rewrite ?all_app, ?Hp, ?Ho by done; done.
Qed.

(** ** Continued lines *)

Lemma join_continued_plain x t : all_chars (λ c, negb (Ascii.eqb c "\")) x = true →
  join_continued (x +:+ t) = x +:+ join_continued t.
Proof.
  induction x as [|c x IH]; [done|]. rewrite !cons_append. cbn [all_chars]. intros [Hc Hx]%andb_prop.
  rewrite <- IH by done. cbn [join_continued]. destruct (x +:+ t) as [|d y]; [done|].
  apply negb_true_iff in Hc. by rewrite Hc.
Qed.
Lemma plain_no_bs x : plain_text x → all_chars (λ c, negb (Ascii.eqb c "\")) x = true.
Proof. apply all_mono. intros c. unfold plain_char. by intros [_ ?]%andb_prop. Qed.
Lemma join_continued_text x t : plain_text x → join_continued (x +:+ t) = x +:+ join_continued t.
Proof. intros H. by apply join_continued_plain, plain_no_bs. Qed.

Definition rtl_sep : string := " \" +:+ n1 +:+ "            ".
Definition joined_sep : string := "              ".
Lemma join_continued_sep t : join_continued (rtl_sep +:+ t) = joined_sep +:+ join_continued t.
Proof.
  transitivity ("  " +:+ join_continued ("            " +:+ t)); [reflexivity|].
  by rewrite join_continued_plain.
Qed.
Lemma join_continued_rtl l t : Forall plain_text l →
  join_continued (join rtl_sep l +:+ t) = join joined_sep l +:+ join_continued t.
Proof.
  induction 1 as [|x l Hx Hl IH]; [done|]. destruct l as [|y l]; [by apply join_continued_text|].
  change (join rtl_sep (x :: y :: l)) with (x +:+ rtl_sep +:+ join rtl_sep (y :: l)).
  change (join joined_sep (x :: y :: l)) with (x +:+ joined_sep +:+ join joined_sep (y :: l)).
  by rewrite !append_assoc, join_continued_text, join_continued_sep, IH.
Qed.

(** ** Searching *)

(** A literal differs from [key]; no line of a literal begins with [key]. *)
Fixpoint differs (key x : string) : bool :=
  match key, x with
  | String a key, String b x => negb (Ascii.eqb a b) || differs key x
  | _, _ => false
  end.
Fixpoint misses (key : string) (bol : bool) (x : string) : bool :=
  match x with
  | EmptyString => true
  | String c x' => (negb bol || differs key x) && misses key (Ascii.eqb c nl) x'
  end.
Fixpoint ends_line (bol : bool) (x : string) : bool :=
  match x with EmptyString => bol | String c x => ends_line (Ascii.eqb c nl) x end.

Lemma differs_prefix key x t : differs key x = true → startswith (x +:+ t) key = false.
Proof.
  unfold startswith. revert x; induction key as [|a key IH]; intros [|b x]; try done. cbn [differs]. rewrite cons_append. cbn.
  destruct (Ascii.ascii_dec a b) as [->|]; [|done]. rewrite Ascii.eqb_refl. cbn. apply IH.
Qed.

Lemma search_misses mt key bol x t : (∀ y, startswith y key = false → mt y = None) →
  misses key bol x = true → search_lines mt bol (x +:+ t) = search_lines mt (ends_line bol x) t.
Proof.
  intros Hm. revert bol; induction x as [|c x IH]; intros bol; [done|]. cbn [misses ends_line].
  intros [Hc Hx]%andb_prop. rewrite <- IH by done. rewrite cons_append. cbn [search_lines].
  destruct bol; [|done]. rewrite Hm; [done|]. by apply (differs_prefix key (String c x)).
Qed.
Lemma search_plain mt x t : plain_text x → search_lines mt false (x +:+ t) = search_lines mt false t.
Proof.
  unfold plain_text. induction x as [|c x IH]; [done|]. cbn [all_chars]. intros [Hc Hx]%andb_prop. rewrite cons_append.
  cbn [search_lines]. unfold plain_char in Hc. apply andb_prop in Hc as [->%negb_true_iff _]. by apply IH.
Qed.
Lemma search_hit mt x r : mt x = Some r → search_lines mt true x = Some r.
Proof. intros H. destruct x; cbn; by rewrite H. Qed.

Lemma assigned_key key y : startswith y key = false → assignment_to key y = None.
Proof. unfold assignment_to. by intros ->. Qed.
Lemma rtl_key y : startswith y "RV_RTL" = false → match_rtl y = None.
Proof. intros H. unfold match_rtl. by rewrite assigned_key. Qed.
Lemma top_key y : startswith y "SIM_TOP" = false → match_top y = None.
Proof. intros H. unfold match_top. by rewrite assigned_key. Qed.
Lemma srcs_key y : startswith y "SIM_SRCS" = false → match_srcs y = None.
Proof. intros H. unfold match_srcs. by rewrite assigned_key. Qed.

(** ** What is found *)

Lemma until_app stop x t : all_chars (λ c, negb (stop c)) x = true → until stop (x +:+ t) = x +:+ until stop t.
Proof.
  induction x as [|c x IH]; [done|]. cbn [all_chars]. intros [Hc Hx]%andb_prop. rewrite !cons_append. cbn [until].
  apply negb_true_iff in Hc. by rewrite Hc, IH.
Qed.
Lemma rest_plain x t : plain_text x → rest_of_line (x +:+ String nl t) = x.
Proof.
  intros H. unfold rest_of_line. rewrite until_app.
  - cbn [until]. rewrite Ascii.eqb_refl. by rewrite append_nil_r.
  - eapply all_mono; [|exact H]. intros c. unfold plain_char. rewrite (Ascii.eqb_sym c nl). by intros [? _]%andb_prop.
Qed.
Lemma word_wordy x t : wordy x → first_word (x +:+ String nl t) = x.
Proof.
  intros [_ H]. unfold first_word. rewrite until_app.
  - cbn [until]. change (is_space nl) with true. by rewrite append_nil_r.
  - eapply all_mono; [|exact H]. intros c. unfold word_char. by intros [[? _]%andb_prop _]%andb_prop.
Qed.
Lemma lstrip_wordy x t : wordy x → lstrip (x +:+ t) = x +:+ t.
Proof.
  intros [Hx H]. destruct x as [|c x]; [done|]. rewrite cons_append. cbn [lstrip all_chars] in *.
  apply andb_prop in H as [Hc _]. unfold word_char in Hc. by destruct (is_space c).
Qed.

Lemma split_ws_word x cur t : all_chars word_char x = true → split_ws_go cur (x +:+ t) = split_ws_go (cur +:+ x) t.
Proof.
  revert cur; induction x as [|c x IH]; intros cur; [by rewrite append_nil_r|]. cbn [all_chars]. intros [Hc Hx]%andb_prop.
  rewrite cons_append. cbn [split_ws_go]. unfold word_char in Hc.
  destruct (is_space c); [done|]. by rewrite IH, append_assoc.
Qed.
Lemma split_ws_skip x t : all_chars is_space x = true → split_ws_go "" (x +:+ t) = split_ws_go "" t.
Proof.
  induction x as [|c x IH]; [done|]. cbn [all_chars]. intros [Hc Hx]%andb_prop. rewrite cons_append.
  cbn [split_ws_go]. rewrite Hc. exact (IH Hx).
Qed.
Lemma split_ws_space cur c x t : cur ≠ "" → is_space c = true → all_chars is_space x = true →
  split_ws_go cur (String c x +:+ t) = cur :: split_ws_go "" t.
Proof.
  intros Hcur Hc Hx. rewrite cons_append. cbn [split_ws_go]. rewrite Hc, (proj2 (String.eqb_neq cur "")) by done.
  by rewrite split_ws_skip.
Qed.
Lemma split_join_ws l : Forall wordy l → split_ws (join joined_sep l) = l.
Proof.
  unfold split_ws. induction 1 as [|x l [Hx Hc] Hl IH]; [done|]. destruct l as [|y l].
  - cbn [join]. rewrite <- (append_nil_r x), split_ws_word, append_nil_r by done. cbn. by destruct x.
  - change (join joined_sep (x :: y :: l)) with (x +:+ joined_sep +:+ join joined_sep (y :: l)).
    rewrite split_ws_word by done. change ("" +:+ x) with x.
    unfold joined_sep at 1. by rewrite split_ws_space, IH.
Qed.

Lemma after_last_none sub x : all_chars (λ c, negb (Ascii.eqb c "$")) x = true →
  after_last (String "$" sub) x = None.
Proof.
  induction x as [|c x IH]; [done|]. cbn [all_chars]. intros [Hc Hx]%andb_prop. cbn [after_last].
  assert (startswith (String c x) (String "$" sub) = false) as ->; [|by rewrite IH].
  rewrite <- (append_nil_r (String c x)). apply differs_prefix. cbn [differs]. by rewrite (Ascii.eqb_sym "$" c), Hc.
Qed.
Lemma after_last_app sub x y r : after_last sub y = Some r → after_last sub (x +:+ y) = Some r.
Proof. intros H. induction x as [|c x IH]; [done|]. rewrite cons_append. cbn [after_last]. by rewrite IH. Qed.

Lemma after_last_here sub y : all_chars (λ c, negb (Ascii.eqb c "$")) (sub +:+ y) = true →
  after_last (String "$" sub) (String "$" sub +:+ y) = Some y.
Proof.
  intros H. rewrite cons_append. cbn [after_last]. rewrite after_last_none by done.
  rewrite <- cons_append, startswith_app. by rewrite sdrop_app.
Qed.
Lemma wordy_no_dollar x : wordy x → all_chars (λ c, negb (Ascii.eqb c "$")) x = true.
Proof. intros [_ H]. eapply all_mono; [|exact H]. intros c. unfold word_char. by intros [_ ?]%andb_prop. Qed.

(** ** project.mk *)

Definition project_dict (v1 v2 v3 v4 v5 v6 v7 v8 : string) : dict :=
  [("summary", VStr v1); ("top", VStr v2); ("sim_top", VStr v3); ("name", VStr v4);
   ("rtl", VStr v5); ("sim_extra", VStr v6); ("syn_extra", VStr v7); ("ps_mk", VStr v8)].
(** The text of project.mk, cut where the searches look. *)
Definition head_text (v1 v2 : string) : string :=
  "# GENERATED by riscv-from-scratch tools/rvgen -- " +:+ v1 +:+
  "
# Regenerate instead of editing: make menuconfig && make oz-export OZ=<this repo>
TOP      := " +:+ v2.
Definition srcs_text (v4 v6 z : string) : string :=
  "SIM_SRCS := $(addprefix projects/" +:+ v4 +:+ "/,$(RV_RTL)) " +:+ v6 +:+ String nl z.
Definition rtl_text (v4 v5 z : string) : string :=
  "
XDC      := projects/" +:+ v4 +:+ "/" +:+ v4 +:+ ".xdc

" +:+ "RV_RTL   := " +:+ v5 +:+ String nl z.

Lemma project_text v1 v2 v3 v4 v5 v6 v7 v8 : ∃ z, fmt PROJECT_MK (project_dict v1 v2 v3 v4 v5 v6 v7 v8) =
  Ok (head_text v1 v2 +:+ n1 +:+ "SIM_TOP  := " +:+ v3 +:+ rtl_text v4 v5 (srcs_text v4 v6 z)).
Proof.
  eexists. unfold fmt, head_text, srcs_text, rtl_text.
  assert (∃ ps, parse PROJECT_MK = Ok ps ∧ True) as (ps & E & _) by (eexists; split; [vm_compute; reflexivity|done]).
  rewrite E. vm_compute in E. injection E as <-. cbn [res_bind]. unfold render, project_dict.
  cbn [res_map render_piece res_bind lookup String.eqb Ascii.eqb Bool.eqb render_val foldr].
  rewrite !append_assoc, append_nil_r. reflexivity.
Qed.

Section text.
Context (v1 v2 v3 v4 v6 : string) (rel : list string).
Context (H1 : plain_text v1) (H2 : plain_text v2) (H3 : wordy v3) (H4 : plain_text v4) (H6 : wordy v6).
Context (Hrel : Forall wordy rel) (Hne : rel ≠ []).

Lemma continued_nl z : join_continued (String nl z) = String nl (join_continued z).
Proof. by destruct z. Qed.
Lemma rel_plain : Forall plain_text rel.
Proof. eapply Forall_impl; [exact Hrel|]. apply wordy_plain. Qed.

Lemma continued_text z : join_continued (head_text v1 v2 +:+ n1 +:+ "SIM_TOP  := " +:+ v3 +:+
    rtl_text v4 (join rtl_sep rel) (srcs_text v4 v6 z)) =
  head_text v1 v2 +:+ n1 +:+ "SIM_TOP  := " +:+ v3 +:+
    rtl_text v4 (join joined_sep rel) (srcs_text v4 v6 (join_continued z)).
Proof.
  pose proof (wordy_plain _ H3). pose proof (wordy_plain _ H6).
  unfold head_text, rtl_text, srcs_text. rewrite !append_assoc.
  repeat (rewrite join_continued_plain by (reflexivity || by apply plain_no_bs)).
  rewrite join_continued_rtl, continued_nl by apply rel_plain.
  repeat (rewrite join_continued_plain by (reflexivity || by apply plain_no_bs)). by rewrite continued_nl.
Qed.

(** Steps over the text up to a line that begins with [key]. *)
Ltac skip_to key lem :=
  repeat first
    [ rewrite search_plain by done
    | rewrite (search_misses _ key) by first [exact lem | reflexivity];
      match goal with |- context [ends_line ?b ?x] =>
        let r := eval vm_compute in (ends_line b x) in change (ends_line b x) with r end ].

Definition made_text (z : string) : string :=
  head_text v1 v2 +:+ n1 +:+ "SIM_TOP  := " +:+ v3 +:+ rtl_text v4 (join joined_sep rel) (srcs_text v4 v6 z).

Lemma assigned_top x : assignment_to "SIM_TOP" ("SIM_TOP  := " +:+ x) = Some (" " +:+ x).
Proof. reflexivity. Qed.
Lemma assigned_rtl x : assignment_to "RV_RTL" ("RV_RTL   := " +:+ x) = Some (" " +:+ x).
Proof. reflexivity. Qed.
Lemma assigned_srcs x : assignment_to "SIM_SRCS" ("SIM_SRCS := " +:+ x) = Some (" " +:+ x).
Proof. reflexivity. Qed.
Lemma lstrip_space x t : wordy x → lstrip (" " +:+ x +:+ t) = x +:+ t.
Proof. exact (lstrip_wordy x t). Qed.

Lemma joined_plain : plain_text (join joined_sep rel).
Proof. apply all_join; [reflexivity|]. apply rel_plain. Qed.
Lemma joined_front t : lstrip (" " +:+ join joined_sep rel +:+ t) = join joined_sep rel +:+ t.
Proof.
  destruct Hrel as [|x l Hx Hl]; [done|]. destruct l as [|y l]; [by apply lstrip_space|].
  change (join joined_sep (x :: y :: l)) with (x +:+ joined_sep +:+ join joined_sep (y :: l)).
  rewrite append_assoc. by apply lstrip_space.
Qed.

Lemma found_top z : search_lines match_top true (made_text z) = Some v3.
Proof.
  unfold made_text, head_text. rewrite !append_assoc. skip_to "SIM_TOP" top_key.
  apply search_hit. unfold match_top, rtl_text. rewrite assigned_top. cbn [mbind option_bind].
  rewrite lstrip_space by done. change ("
XDC      := projects/" +:+ ?x) with (String nl ("XDC      := projects/" +:+ x)).
  rewrite word_wordy by done. destruct H3 as [Hv _]. by destruct v3.
Qed.

Lemma found_rtl z : search_lines match_rtl true (made_text z) = Some (join joined_sep rel).
Proof.
  pose proof (wordy_plain _ H3). unfold made_text, head_text, rtl_text. rewrite !append_assoc. skip_to "RV_RTL" rtl_key.
  apply search_hit. unfold match_rtl. rewrite assigned_rtl. cbn [fmap option_fmap option_map compose].
  by rewrite joined_front, rest_plain by apply joined_plain.
Qed.

Lemma found_srcs z : search_lines match_srcs true (made_text z) = Some v6.
Proof.
  pose proof (wordy_plain _ H3). pose proof (wordy_plain _ H6). pose proof joined_plain.
  unfold made_text, head_text, rtl_text. rewrite !append_assoc.
  change (String nl (srcs_text v4 v6 z)) with (n1 +:+ srcs_text v4 v6 z). skip_to "SIM_SRCS" srcs_key.
  apply search_hit. unfold match_srcs, srcs_text.
  change ("SIM_SRCS := $(addprefix projects/" +:+ ?x) with ("SIM_SRCS := " +:+ "$(addprefix projects/" +:+ x).
  rewrite assigned_srcs. cbn [mbind option_bind].
  set (line := " " +:+ "$(addprefix projects/" +:+ v4 +:+ "/," +:+ "$(RV_RTL))" +:+ " " +:+ v6).
  assert (" " +:+ "$(addprefix projects/" +:+ v4 +:+ "/,$(RV_RTL)) " +:+ v6 +:+ String nl z = line +:+ String nl z) as ->.
  { unfold line. rewrite !append_assoc. reflexivity. }
  assert (plain_text line) as Hline.
  { unfold line, plain_text in *. rewrite !all_app. by rewrite H4, H0. }
  rewrite rest_plain by done. rewrite sdrop_app.
  assert (after_last "$(RV_RTL))" line = Some (" " +:+ v6)) as ->.
  { unfold line. do 4 apply after_last_app. apply after_last_here. rewrite !all_app. by rewrite (wordy_no_dollar v6). }
  cbn [mbind option_bind]. by rewrite append_assoc, lstrip_space, rest_plain.
Qed.

(** What is read from a rendered project.mk. *)
Lemma read_made v7 v8 : ∃ mk, fmt PROJECT_MK (project_dict v1 v2 v3 v4 (join rtl_sep rel) v6 v7 v8) = Ok mk ∧
  read_project mk = Ok (rel, [v6], v3).
Proof.
  destruct (project_text v1 v2 v3 v4 (join rtl_sep rel) v6 v7 v8) as [z ->]. eexists. split; [reflexivity|].
  unfold read_project. rewrite continued_text. fold (made_text (join_continued z)).
  unfold group1. rewrite found_rtl, found_srcs, found_top. cbn [res_bind].
  rewrite split_join_ws by done. do 3 f_equal.
  destruct H6 as [Hn Hw]. unfold split_ws. rewrite <- (append_nil_r v6), split_ws_word, append_nil_r by done.
  cbn. by destruct v6.
Qed.
End text.

(** ** The names in a project *)

Lemma rtl_wordy g : Forall wordy (map (λ f, "rtl/" +:+ basename f) (rtl_files g)).
Proof.
  assert (forallb (λ x, negb (String.eqb x "") && all_chars word_char x) (map (λ f, "rtl/" +:+ basename f) (rtl_files g)) = true) as H.
  { unfold rtl_files, core_module. destruct (timer g), (pipe g), (v g), (bp g), (mmu g), (caches g), (c g), (f g), (ps g);
      vm_compute; reflexivity. }
  rewrite forallb_forall in H. apply Forall_forall. intros x Hx.
  apply list_elem_of_In, H, andb_prop in Hx as [Hn%negb_true_iff Hx]. split; [by apply String.eqb_neq|done].
Qed.
Lemma name_words x : name_ok x = true → all_chars word_char x = true.
Proof.
  assert (∀ c, is_name_char c = true → word_char c = true) as Hc by (intros [[] [] [] [] [] [] [] []]; vm_compute; congruence).
  destruct x as [|c x]; [done|]. cbn. intros [Hl Hx]%andb_prop. rewrite Hc.
  - by eapply all_mono.
  - unfold is_name_char. by rewrite Hl.
Qed.
Lemma name_wordy x y : name_ok x = true → all_chars word_char y = true → wordy (x +:+ y).
Proof.
  intros Hx Hy. split; [by destruct x|]. rewrite all_app, Hy, andb_true_r. by apply name_words.
Qed.

(** ** Files stay *)

(** A computation that removes no file. *)
Class Grows {A} (c : ST fs A) : Prop := grows F a F' : c F = Ok (a, F') → ∀ q, is_Some (F !! q) → is_Some (F' !! q).

#[global] Instance grows_ret {A} (a : A) : Grows (mret a).
Proof. by intros F a' F' [= _ <-]. Qed.
#[global] Instance grows_bind {A B} (c : ST fs A) (k : A → ST fs B) : Grows c → (∀ a, Grows (k a)) → Grows (c ≫= k).
Proof. intros Hc Hk F b F' E q Hq. apply st_bind_ok in E as (a & F1 & E1 & E2). by eapply Hk, Hc. Qed.
#[global] Instance grows_write p x : Grows (write_file p x).
Proof. intros F a F' [= _ <-] q Hq. apply lookup_insert_is_Some'. by right. Qed.
#[global] Instance grows_read p : Grows (read_file p).
Proof. intros F a F'. unfold read_file. destruct (F !! p); [|done]. by intros [= _ <-]. Qed.
#[global] Instance grows_lift {A} (r : res A) : Grows (st_lift r).
Proof. intros F a F'. unfold st_lift. destruct r; [|done]. by intros [= _ <-]. Qed.
#[global] Instance grows_makedirs p : Grows (makedirs p).
Proof. intros F a F'. unfold makedirs. destruct (path_exists p F); [done|]. by intros [= _ <-]. Qed.

(** By the form of the computation. *)
Ltac grows_tac :=
  cbv beta zeta;
  repeat lazymatch goal with
    | |- Grows (_ ≫= _) => apply grows_bind; [|intros ?]
    | |- Grows (mret _) => apply grows_ret
    | |- Grows (write_file _ _) => apply grows_write
    | |- Grows (read_file _) => apply grows_read
    | |- Grows (st_lift _) => apply grows_lift
    | |- Grows (makedirs _) => apply grows_makedirs
    | |- Grows (copy _ _) => apply grows_bind; [|intros ?]
    | |- _ => assumption || apply _
    end.
#[global] Instance grows_copy a b : Grows (copy a b).
Proof. unfold copy. grows_tac. Qed.
#[global] Instance grows_ps_app g pdir fw : Grows (write_ps_app g pdir fw).
Proof. unfold write_ps_app. grows_tac. Qed.
#[global] Instance grows_gen_ps g pdir fw n : Grows (gen_ps g pdir fw n).
Proof. unfold gen_ps. grows_tac. Qed.
#[global] Instance grows_gen_standalone g pdir n : Grows (gen_standalone g pdir n).
Proof. unfold gen_standalone. grows_tac. Qed.
#[global] Instance grows_copy_rtl REPO pdir l : Grows (copy_rtl REPO pdir l).
Proof. induction l; cbn [copy_rtl]; grows_tac. Qed.

Lemma copy_rtl_out REPO pdir l F rel F' : copy_rtl REPO pdir l F = Ok (rel, F') →
  rel = map (λ f, "rtl/" +:+ basename f) l ∧ ∀ f, f ∈ l → is_Some (F' !! rtl_dst pdir f).
Proof.
  revert F rel F'; induction l as [|x l IH]; intros F rel F' E; cbn [copy_rtl] in E.
  { injection E as <- <-. split; [done|]. by intros f ?%elem_of_nil. }
  apply st_bind_ok in E as ([] & F1 & E1 & E). apply st_bind_ok in E as (rel' & F2 & E2 & E). injection E as <- <-.
  destruct (IH _ _ _ E2) as [-> Hf]. split; [done|]. intros f [->|?]%elem_of_cons; [|by apply Hf].
  eapply grows; [exact E2|]. unfold copy in E1. apply st_bind_ok in E1 as (y & F3 & _ & E1). injection E1 as <-.
  rewrite lookup_insert_eq. by eexists.
Qed.

(** A file stays once it is written; what was there before a step stays too. *)
Lemma written {B} p x (k : unit → ST fs B) F b F' : (∀ u, Grows (k u)) → (write_file p x ≫= k) F = Ok (b, F') → is_Some (F' !! p).
Proof.
  intros Hk E. apply st_bind_ok in E as ([] & F1 & E1 & E). injection E1 as <-. eapply grows; [exact E|].
  rewrite lookup_insert_eq. by eexists.
Qed.
Lemma rest {A B} (c : ST fs A) (k : A → ST fs B) F b F' : (c ≫= k) F = Ok (b, F') → ∃ a F1, k a F1 = Ok (b, F').
Proof. intros E. apply st_bind_ok in E as (a & F1 & _ & E). eauto. Qed.
Ltac wrote E W :=
  cbv beta zeta in E;
  lazymatch type of E with (write_file ?p ?x ≫= ?k) ?F = Ok (?b, ?F') =>
    assert (∀ u, Grows (k u)) as W by (intros ?; grows_tac); apply (λ H, written p x k F b F' H E) in W
  end.

(** The top module, its testbench and the source that contains it. *)
Definition top_of (g : Cfg) : string := if ps g then name g else name g +:+ "_top".

Lemma branch_out g pdir fw n F br F' :
  (if ps g then gen_ps g pdir fw n else gen_standalone g pdir n) F = Ok (br, F') →
  sim_top br = top_of g ∧ top br = name g +:+ "_top" ∧
  sim_extra br = "projects/" +:+ name g +:+ "/" +:+ top_of g +:+ ".v" ∧
  is_Some (F' !! pjoin pdir ("tb_" +:+ top_of g +:+ ".v")) ∧ is_Some (F' !! pjoin pdir (top_of g +:+ ".v")).
Proof.
  unfold top_of. destruct (ps g); intros E.
  - unfold gen_ps in E. apply rest in E as (t1 & F1 & E). wrote E W1.
    apply rest in E as ([] & F2 & E). apply rest in E as (t2 & F3 & E). apply rest in E as ([] & F4 & E).
    apply rest in E as (t3 & F5 & E). wrote E W2.
    apply rest in E as ([] & F6 & E). apply rest in E as ([] & F7 & E). injection E as <- <-.
    exact (conj eq_refl (conj eq_refl (conj eq_refl (conj W2 W1)))).
  - unfold gen_standalone in E. apply rest in E as (t1 & F1 & E). wrote E W1.
    apply rest in E as ([] & F2 & E). apply rest in E as (t2 & F3 & E). wrote E W2.
    apply rest in E as ([] & F4 & E). injection E as <- <-. rewrite !append_assoc.
    exact (conj eq_refl (conj eq_refl (conj eq_refl (conj W2 W1)))).
Qed.

Lemma project_path out n x : pjoin out ("projects/" +:+ n +:+ "/" +:+ x) = pjoin (pjoin (pjoin out "projects") n) x.
Proof. unfold pjoin. rewrite !append_assoc. reflexivity. Qed.
Lemma pjoin_inj q a b : pjoin q a = pjoin q b → a = b.
Proof. unfold pjoin. intros E. by do 2 apply append_inj_l in E. Qed.

(** What [generate] leaves in the project directory, when it returns. *)
Lemma generate_out REPO g out fw fw_size F p F' :
  let pdir := pjoin (pjoin out "projects") (name g) in
  generate REPO g out fw fw_size F = Ok (p, F') →
  p = pdir ∧
  (∃ v7 v8 mk, fmt PROJECT_MK (project_dict (summary g) (name g +:+ "_top") (top_of g) (name g)
     (join rtl_sep (map (λ f, "rtl/" +:+ basename f) (rtl_files g)))
     ("projects/" +:+ name g +:+ "/" +:+ top_of g +:+ ".v") v7 v8) = Ok mk ∧
   F' !! pjoin pdir "project.mk" = Some mk) ∧
  (∀ f, f ∈ rtl_files g → is_Some (F' !! rtl_dst pdir f)) ∧
  is_Some (F' !! pjoin pdir ("tb_" +:+ top_of g +:+ ".v")) ∧ is_Some (F' !! pjoin pdir (top_of g +:+ ".v")).
Proof.
  intros pdir E. unfold generate in E. fold pdir in E.
  do 5 (apply rest in E as (? & ? & E)). apply st_bind_ok in E as (rel & F1 & E1 & E).
  apply copy_rtl_out in E1 as [-> Hrtl].
  apply st_bind_ok in E as ([] & F2 & E2 & E). apply st_bind_ok in E as (img & F3 & E3 & E). cbv zeta in E.
  apply st_bind_ok in E as (br & F4 & E4 & E). pose proof (branch_out _ _ _ _ _ _ _ E4) as (B1 & B2 & B3 & B4 & B5).
  assert (∀ q, is_Some (F1 !! q) → is_Some (F4 !! q)) as G1.
  { intros q Hq. apply (grows_copy _ _ _ _ _ E2), (grows_read _ _ _ _ E3) in Hq.
    destruct (ps g); [by apply (grows_gen_ps _ _ _ _ _ _ _ E4)|by apply (grows_gen_standalone _ _ _ _ _ _ E4)]. }
  assert (∀ q, is_Some (F4 !! q) → is_Some (F' !! q)) as G2.
  { lazymatch type of E with ?c _ = Ok (?a, _) => assert (Grows c) as G by grows_tac end. by apply (G _ _ _ E). }
  split_and!; [..|by intros f Hf; apply G2, G1, Hrtl|by apply G2|by apply G2]; clear G1 G2 Hrtl B4 B5.
  - do 6 (apply rest in E as (? & ? & E)). by injection E.
  - apply rest in E as (xdc & F5 & E). apply rest in E as ([] & F6 & E). apply st_bind_ok in E as (mk & F7 & E5 & E).
    apply st_bind_ok in E as ([] & F8 & E6 & E). apply st_bind_ok in E as ([] & F9 & E7 & E).
    apply st_bind_ok in E as ([] & F10 & E8 & E). injection E as _ <-.
    injection E6 as <-. injection E7 as <-. injection E8 as <-.
    exists (syn_extra br), (ps_mk br), mk. rewrite B1, B2, B3 in E5. split.
    + unfold st_lift in E5. apply res_bind_ok in E5 as (mk' & E5 & [= <- _]). exact E5.
    + rewrite !lookup_insert_ne by (intros H%pjoin_inj; discriminate H). by rewrite lookup_insert_eq.
Qed.

(** C25.  The simulation of a project that was generated compiles what was
    generated: searching project.mk with the regular expressions of [simulate]
    gives exactly the RTL files the configuration needs, in their order, with
    the top module and its testbench, and every one of these sources is a file
    that [generate] left under the output directory. *)
Theorem simulate_finds_sources REPO g out fw fw_size F p F' :
  name_ok (name g) = true → generate REPO g out fw fw_size F = Ok (p, F') →
  ∃ mk r, F' !! pjoin p "project.mk" = Some mk ∧ read_project mk = Ok r ∧
    sim_sources (name g) r =
      ("projects/" +:+ name g +:+ "/tb_" +:+ top_of g +:+ ".v") ::
      map (λ f, "projects/" +:+ name g +:+ "/rtl/" +:+ basename f) (rtl_files g) ++
      ["projects/" +:+ name g +:+ "/" +:+ top_of g +:+ ".v"] ∧
    ∀ f, f ∈ sim_sources (name g) r → is_Some (F' !! pjoin out f).
Proof.
  intros Hn E. destruct (generate_out _ _ _ _ _ _ _ _ E) as (-> & (v7 & v8 & mk & Emk & Hmk) & Hrtl & Htb & Htop).
  assert (∀ x, all_chars word_char x = true → wordy (name g +:+ x)) as Hw by (intros; by apply name_wordy).
  assert (wordy (top_of g)) as Ht.
  { unfold top_of. destruct (ps g); [rewrite <- (append_nil_r (name g))|]; by apply Hw. }
  destruct (read_made (summary g) (name g +:+ "_top") (top_of g) (name g)
    ("projects/" +:+ name g +:+ "/" +:+ top_of g +:+ ".v") (map (λ f, "rtl/" +:+ basename f) (rtl_files g))) with (v7 := v7) (v8 := v8)
    as (mk' & Emk' & Er).
  - apply summary_plain.
  - by apply wordy_plain, Hw.
  - done.
  - apply wordy_plain. rewrite <- (append_nil_r (name g)). by apply Hw.
  - split; [done|]. rewrite !all_app, (name_words (name g)) by done. by rewrite (proj2 Ht).
  - apply rtl_wordy.
  - done.
  - rewrite Emk in Emk'. injection Emk' as <-. exists mk. eexists. split; [exact Hmk|]. split; [exact Er|].
    unfold sim_sources. rewrite map_map. split; [done|].
    change ("/tb_" +:+ ?x) with ("/" +:+ "tb_" +:+ x).
    intros f [->|[(x & -> & Hx)%list_elem_of_fmap | ->%list_elem_of_singleton]%elem_of_app]%elem_of_cons;
      rewrite project_path; [done| |done].
    rewrite <- rtl_dst_join. by apply Hrtl.
Qed.

Lemma simulate_finds_sources_witness :
  name_ok (name demo_cfg) = true ∧ ∃ p F' mk r,
    generate "/r" demo_cfg "/o" "/r/fw.hex" None demo_fs = Ok (p, F') ∧
    F' !! pjoin p "project.mk" = Some mk ∧ read_project mk = Ok r ∧ length (sim_sources (name demo_cfg) r) = 21.
Proof.
  split; [reflexivity|].
  destruct (generate "/r" demo_cfg "/o" "/r/fw.hex" None demo_fs) as [[p F']|e] eqn:E.
  - destruct (simulate_finds_sources "/r" demo_cfg "/o" "/r/fw.hex" None demo_fs p F' eq_refl E) as (mk & r & H1 & H2 & H3 & _).
    exists p, F', mk, r. split; [reflexivity|]. split; [exact H1|]. split; [exact H2|]. rewrite H3. vm_compute. reflexivity.
  - exfalso. assert (is_ok (generate "/r" demo_cfg "/o" "/r/fw.hex" None demo_fs) = true) as H by (vm_compute; reflexivity).
    rewrite E in H. discriminate H.
Defined.
End RvMainSpec.
