(* ===== verification/KExpr.v ===== *)
(** * tools/kconfig/kconfiglib.py: tokens, types and expressions

    The token, type and relation tables, the expression trees and the public
    functions on them: [expr_value], [expr_str], [expr_items], [split_expr],
    [escape] and [unescape], and the simplifying constructors [_make_and] and
    [_make_or].

    A Python expression is a symbol, a choice or a tuple [(op, e1, e2)].
    Symbols are unique per name in the tables [Kconfig.syms] and
    [Kconfig.const_syms], so an [item] names the object and [is] is equality.
    Tristate values are 0, 1, 2. *)
From S2P Require Import Prelude Hex PyStr.

Module KExpr.
Import Hex PyStr.

(** ** Tokens *)

Inductive token :=
  | T_ALLNOCONFIG_Y | T_AND | T_BOOL | T_CHOICE | T_CLOSE_PAREN | T_COMMENT | T_CONFIG
  | T_DEFAULT | T_DEFCONFIG_LIST | T_DEF_BOOL | T_DEF_HEX | T_DEF_INT | T_DEF_STRING
  | T_DEF_TRISTATE | T_DEPENDS | T_ENDCHOICE | T_ENDIF | T_ENDMENU | T_ENV | T_EQUAL
  | T_GREATER | T_GREATER_EQUAL | T_HELP | T_HEX | T_IF | T_IMPLY | T_INT | T_LESS
  | T_LESS_EQUAL | T_MAINMENU | T_MENU | T_MENUCONFIG | T_MODULES | T_NOT | T_ON
  | T_OPEN_PAREN | T_OPTION | T_OPTIONAL | T_OR | T_ORSOURCE | T_OSOURCE | T_PROMPT
  | T_RANGE | T_RSOURCE | T_SELECT | T_SOURCE | T_STRING | T_TRISTATE | T_UNEQUAL
  | T_VISIBLE.

#[global] Instance token_eq_dec : EqDecision token.
Proof. solve_decision. Defined.

(** The dictionary behind [_get_keyword]. *)
Definition keywords : list (string * token) :=
  [("---help---", T_HELP); ("allnoconfig_y", T_ALLNOCONFIG_Y); ("bool", T_BOOL);
   ("boolean", T_BOOL); ("choice", T_CHOICE); ("comment", T_COMMENT); ("config", T_CONFIG);
   ("def_bool", T_DEF_BOOL); ("def_hex", T_DEF_HEX); ("def_int", T_DEF_INT);
   ("def_string", T_DEF_STRING); ("def_tristate", T_DEF_TRISTATE); ("default", T_DEFAULT);
   ("defconfig_list", T_DEFCONFIG_LIST); ("depends", T_DEPENDS); ("endchoice", T_ENDCHOICE);
   ("endif", T_ENDIF); ("endmenu", T_ENDMENU); ("env", T_ENV); ("grsource", T_ORSOURCE);
   ("gsource", T_OSOURCE); ("help", T_HELP); ("hex", T_HEX); ("if", T_IF);
   ("imply", T_IMPLY); ("int", T_INT); ("mainmenu", T_MAINMENU); ("menu", T_MENU);
   ("menuconfig", T_MENUCONFIG); ("modules", T_MODULES); ("on", T_ON); ("option", T_OPTION);
   ("optional", T_OPTIONAL); ("orsource", T_ORSOURCE); ("osource", T_OSOURCE);
   ("prompt", T_PROMPT); ("range", T_RANGE); ("rsource", T_RSOURCE); ("select", T_SELECT);
   ("source", T_SOURCE); ("string", T_STRING); ("tristate", T_TRISTATE);
   ("visible", T_VISIBLE)].

(** [d.get(k)] of a dictionary display. *)
Fixpoint assoc {A} (k : string) (l : list (string * A)) : option A :=
  match l with
  | [] => None
  | (k', x) :: l => if String.eqb k' k then Some x else assoc k l
  end.

Definition get_keyword (s : string) : option token := assoc s keywords.

(** Tokens after which strings are expected. *)
Definition STRING_LEX (t : token) : bool :=
  match t with
  | T_BOOL | T_CHOICE | T_COMMENT | T_HEX | T_INT | T_MAINMENU | T_MENU | T_ORSOURCE
  | T_OSOURCE | T_PROMPT | T_RSOURCE | T_SOURCE | T_STRING | T_TRISTATE => true
  | _ => false
  end.

(** ** Types and relations *)

Inductive styp := UNKNOWN | BOOL | TRISTATE | STRING | INT | HEX.
#[global] Instance styp_eq_dec : EqDecision styp.
Proof. solve_decision. Defined.

Definition TYPE_TO_STR (t : styp) : string :=
  match t with
  | UNKNOWN => "unknown" | BOOL => "bool" | TRISTATE => "tristate"
  | STRING => "string" | INT => "int" | HEX => "hex"
  end.

(** [_TYPE_TO_BASE]: [None] is the [KeyError] of the bool and tristate types. *)
Definition TYPE_TO_BASE (t : styp) : option Z :=
  match t with
  | HEX => Some 16%Z | INT => Some 10%Z | STRING | UNKNOWN => Some 0%Z
  | BOOL | TRISTATE => None
  end.

Definition BOOL_TRISTATE (t : styp) : bool :=
  match t with BOOL | TRISTATE => true | _ => false end.
Definition INT_HEX (t : styp) : bool := match t with INT | HEX => true | _ => false end.

Definition TYPE_TOKENS (t : token) : option styp :=
  match t with
  | T_BOOL => Some BOOL | T_TRISTATE => Some TRISTATE | T_INT => Some INT
  | T_HEX => Some HEX | T_STRING => Some STRING | _ => None
  end.
Definition DEF_TOKEN_TO_TYPE (t : token) : option styp :=
  match t with
  | T_DEF_BOOL => Some BOOL | T_DEF_HEX => Some HEX | T_DEF_INT => Some INT
  | T_DEF_STRING => Some STRING | T_DEF_TRISTATE => Some TRISTATE | _ => None
  end.

Definition TRI_TO_STR (n : nat) : string :=
  match n with 0 => "n" | 1 => "m" | _ => "y" end.
Definition STR_TO_TRI (s : string) : option nat :=
  if String.eqb s "n" then Some 0 else if String.eqb s "m" then Some 1
  else if String.eqb s "y" then Some 2 else None.

Inductive rel := EQUAL | UNEQUAL | LESS | LESS_EQUAL | GREATER | GREATER_EQUAL.
#[global] Instance rel_eq_dec : EqDecision rel.
Proof. solve_decision. Defined.

Definition REL_TO_STR (r : rel) : string :=
  match r with
  | EQUAL => "=" | UNEQUAL => "!=" | LESS => "<" | LESS_EQUAL => "<="
  | GREATER => ">" | GREATER_EQUAL => ">="
  end.

(** [_RELATIONS]: the relation a token is. *)
Definition RELATIONS (t : token) : option rel :=
  match t with
  | T_EQUAL => Some EQUAL | T_UNEQUAL => Some UNEQUAL | T_LESS => Some LESS
  | T_LESS_EQUAL => Some LESS_EQUAL | T_GREATER => Some GREATER
  | T_GREATER_EQUAL => Some GREATER_EQUAL | _ => None
  end.

(** ** Expressions *)

Inductive item :=
  | SymItem (is_constant : bool) (name : string)
  | ChoiceItem (id : nat) (name : option string).
#[global] Instance item_eq_dec : EqDecision item.
Proof. solve_decision. Defined.

Inductive expr :=
  | EItem (i : item)
  | EAnd (e1 e2 : expr)
  | EOr (e1 e2 : expr)
  | ENot (e : expr)
  | ERel (r : rel) (i1 i2 : item).
#[global] Instance expr_eq_dec : EqDecision expr.
Proof. solve_decision. Defined.

Definition is_constant (i : item) : bool :=
  match i with SymItem c _ => c | ChoiceItem _ _ => false end.

(** [kconf.n], [kconf.m], [kconf.y] and [kconf.modules] *)
Definition const_tri (n : nat) : item := SymItem true (TRI_TO_STR n).
Definition kn : expr := EItem (const_tri 0).
Definition km : expr := EItem (const_tri 1).
Definition ky : expr := EItem (const_tri 2).
Definition modules : item := SymItem false "MODULES".

(** What an expression reads of the items in it: the [orig_type],
    [tri_value] and [str_value] properties. *)
Record Env := {
  e_type : item → styp;
  e_tri : item → res nat;
  e_str : item → res string
}.

(** [int(s, base)] *)
Definition int_base (base : Z) (s : string) : res Z :=
  if (base =? 16)%Z then int16 s else if (base =? 10)%Z then int10 s else int0 s.

Definition is_base_n (s : string) (n : Z) : bool := is_ok (int_base n s).

(** Python compares strings by code point. *)
Fixpoint str_ltb (s1 s2 : string) : bool :=
  match s1, s2 with
  | _, EmptyString => false
  | EmptyString, String _ _ => true
  | String a s1, String b s2 =>
      if Ascii.eqb a b then str_ltb s1 s2 else N.ltb (N_of_ascii a) (N_of_ascii b)
  end.

Definition strcmp (s1 s2 : string) : Z := Z.b2z (str_ltb s2 s1) - Z.b2z (str_ltb s1 s2).

Definition rel_holds (r : rel) (comp : Z) : bool :=
  match r with
  | EQUAL => comp =? 0 | UNEQUAL => negb (comp =? 0)
  | LESS => comp <? 0 | LESS_EQUAL => comp <=? 0
  | GREATER => 0 <? comp | GREATER_EQUAL => 0 <=? comp
  end%Z.

Section value.
Context (E : Env).

Definition sym_to_num (i : item) : res Z :=
  match TYPE_TO_BASE (e_type E i) with
  | None => let* t := e_tri E i in Ok (Z.of_nat t)
  | Some base => let* s := e_str E i in int_base base s
  end.

Definition by_strcmp (v1 v2 : item) : res Z :=
  let* s1 := e_str E v1 in
  let* s2 := e_str E v2 in
  Ok (strcmp s1 s2).

(** The comparison of a relation: by number where both operands are
    numbers, by string otherwise. *)
Definition compare_items (v1 v2 : item) : res Z :=
  if decide (e_type E v1 = STRING ∧ e_type E v2 = STRING) then by_strcmp v1 v2
  else
    match (let* a := sym_to_num v1 in let* b := sym_to_num v2 in Ok (a - b)%Z) with
    | Err ValueError => by_strcmp v1 v2
    | r => r
    end.

Fixpoint expr_value (e : expr) : res nat :=
  match e with
  | EItem i => e_tri E i
  | EAnd e1 e2 =>
      let* v1 := expr_value e1 in
      if Nat.eqb v1 0 then Ok 0 else let* v2 := expr_value e2 in Ok (Nat.min v1 v2)
  | EOr e1 e2 =>
      let* v1 := expr_value e1 in
      if Nat.eqb v1 2 then Ok 2 else let* v2 := expr_value e2 in Ok (Nat.max v1 v2)
  | ENot e => let* v := expr_value e in Ok (2 - v)
  | ERel r v1 v2 =>
      let* comp := compare_items v1 v2 in
      Ok (2 * Nat.b2n (rel_holds r comp))
  end.
End value.

(** ** Printing *)

(** [s.replace(c, "\" + c)] of one character *)
Fixpoint backslash (c : ascii) (s : string) : string :=
  match s with
  | EmptyString => ""
  | String d s => if Ascii.eqb d c then String "\" (String c (backslash c s))
                  else String d (backslash c s)
  end.

Definition escape (s : string) : string := backslash quote (backslash "\" s).

(** [re.sub(r"\\(.)", r"\1", s)]; [.] does not match a newline. *)
Fixpoint unescape (s : string) : string :=
  match s with
  | EmptyString => ""
  | String c s' =>
      if Ascii.eqb c "\" then
        match s' with
        | EmptyString => String c ""
        | String d s'' => if Ascii.eqb d nl then String c (String d (unescape s''))
                          else String d (unescape s'')
        end
      else String c (unescape s')
  end.

Definition standard_sc_expr_str (sc : item) : string :=
  match sc with
  | SymItem c name =>
      if c && negb (bool_decide (is_Some (STR_TO_TRI name)))
      then String quote (escape name +:+ String quote "") else name
  | ChoiceItem _ (Some name) =>
      if String.eqb name "" then "<choice>" else "<choice " +:+ name +:+ ">"
  | ChoiceItem _ None => "<choice>"
  end.

Section print.
Context (sc_expr_str_fn : item → string).

Definition paren (b : bool) (s : string) : string := if b then "(" +:+ s +:+ ")" else s.
Definition is_and (e : expr) : bool := match e with EAnd _ _ => true | _ => false end.
Definition is_or (e : expr) : bool := match e with EOr _ _ => true | _ => false end.

(** [_parenthesize(e, op, fn)] is [paren (is_op e) (expr_str e)]. *)
Fixpoint expr_str (e : expr) : string :=
  match e with
  | EItem i => sc_expr_str_fn i
  | EAnd e1 e2 => paren (is_or e1) (expr_str e1) +:+ " && " +:+ paren (is_or e2) (expr_str e2)
  | EOr e1 e2 => paren (is_and e1) (expr_str e1) +:+ " || " +:+ paren (is_and e2) (expr_str e2)
  | ENot e =>
      match e with
      | EItem i => "!" +:+ sc_expr_str_fn i
      | _ => "!(" +:+ expr_str e +:+ ")"
      end
  | ERel r i1 i2 => sc_expr_str_fn i1 +:+ " " +:+ REL_TO_STR r +:+ " " +:+ sc_expr_str_fn i2
  end.
End print.

(** ** Taking expressions apart *)

(** [expr_items]: the items of an expression, in order of appearance (the
    source collects them in a set). *)
Fixpoint expr_items (e : expr) : list item :=
  match e with
  | EItem i => [i]
  | EAnd e1 e2 | EOr e1 e2 => expr_items e1 ++ expr_items e2
  | ENot e => expr_items e
  | ERel _ i1 i2 => [i1; i2]
  end.

Fixpoint split_and (e : expr) : list expr :=
  match e with EAnd e1 e2 => split_and e1 ++ split_and e2 | _ => [e] end.
Fixpoint split_or (e : expr) : list expr :=
  match e with EOr e1 e2 => split_or e1 ++ split_or e2 | _ => [e] end.

(** [_ordered_unique] *)
Fixpoint ordered_unique_go {A} `{EqDecision A} (seen l : list A) : list A :=
  match l with
  | [] => []
  | x :: l => if decide (x ∈ seen) then ordered_unique_go seen l
              else x :: ordered_unique_go (x :: seen) l
  end.
Definition ordered_unique {A} `{EqDecision A} (l : list A) : list A := ordered_unique_go [] l.

(** ** _make_and, _make_or *)

Definition make_and (e1 e2 : expr) : expr :=
  if decide (e1 = ky) then e2 else if decide (e2 = ky) then e1
  else if decide (e1 = kn ∨ e2 = kn) then kn else EAnd e1 e2.

Definition make_or (e1 e2 : expr) : expr :=
  if decide (e1 = kn) then e2 else if decide (e2 = kn) then e1
  else if decide (e1 = ky ∨ e2 = ky) then ky else EOr e1 e2.

End KExpr.
