(* ===== verification/KLex.v ===== *)
(** * tools/kconfig/kconfiglib.py: the preprocessor and the tokenizer

    [_parse_assignment], the macro expansion functions and [_tokenize], as
    computations over the parser's state [Kst].  The regular expressions of
    the source are scanners on the rest of the line.  Outside the program, and
    arguments here: the environment, the user's preprocessor functions, the
    shell behind [$(shell,...)] and the kernel release string.  Text is ASCII.

    The recursive functions take fuel, one unit per call or loop turn; running
    out is the error [OutOfFuel], never a result. *)
From S2P Require Import Prelude Hex PyStr KExpr.

Module KLex.
Import Hex PyStr KExpr.

(** ** The parser's state *)

(** [Variable]; the name is the key of the map.  A variable has no [value]
    attribute until its first assignment completes. *)
Record Var := mkVar { v_value : option string; v_recursive : bool; v_n_expansions : nat }.

Record Kst := mkKst {
  k_filename : option string;
  k_linenr : nat;
  k_line : string;
  k_warn : bool;
  k_warnings : list string;
  k_vars : gmap string Var;
  k_env_vars : gset string;
  k_syms : gset string;
  k_const_syms : gset string;
  k_parsing : bool
}.

Definition set_line (s : string) : ST Kst unit := λ k,
  Ok (tt, mkKst (k_filename k) (k_linenr k) s (k_warn k) (k_warnings k) (k_vars k)
            (k_env_vars k) (k_syms k) (k_const_syms k) (k_parsing k)).
Definition add_warning (msg : string) : ST Kst unit := λ k,
  Ok (tt, mkKst (k_filename k) (k_linenr k) (k_line k) (k_warn k) (k_warnings k ++ [msg])
            (k_vars k) (k_env_vars k) (k_syms k) (k_const_syms k) (k_parsing k)).
Definition set_var (n : string) (v : Var) : ST Kst unit := λ k,
  Ok (tt, mkKst (k_filename k) (k_linenr k) (k_line k) (k_warn k) (k_warnings k)
            (<[n := v]> (k_vars k)) (k_env_vars k) (k_syms k) (k_const_syms k) (k_parsing k)).
Definition add_env_var (n : string) : ST Kst unit := λ k,
  Ok (tt, mkKst (k_filename k) (k_linenr k) (k_line k) (k_warn k) (k_warnings k) (k_vars k)
            ({[n]} ∪ k_env_vars k) (k_syms k) (k_const_syms k) (k_parsing k)).
Definition add_sym (n : string) : ST Kst unit := λ k,
  Ok (tt, mkKst (k_filename k) (k_linenr k) (k_line k) (k_warn k) (k_warnings k) (k_vars k)
            (k_env_vars k) ({[n]} ∪ k_syms k) (k_const_syms k) (k_parsing k)).
Definition add_const_sym (n : string) : ST Kst unit := λ k,
  Ok (tt, mkKst (k_filename k) (k_linenr k) (k_line k) (k_warn k) (k_warnings k) (k_vars k)
            (k_env_vars k) (k_syms k) ({[n]} ∪ k_const_syms k) (k_parsing k)).

(** ["{}:{}"] of the current location; a file name of None prints as None. *)
Definition location (k : Kst) : string :=
  default "None" (k_filename k) +:+ ":" +:+ pretty (k_linenr k).

Definition parse_error {A} (msg : string) : ST Kst A := λ k,
  Err (KconfigError
    (match k_filename k with None => "" | Some _ => location k +:+ ": " end +:+
     "error: couldn't parse '" +:+ strip (k_line k) +:+ "': " +:+ msg)).

(** [_warn(msg)] and [_warn(msg, self.filename, self.linenr)] *)
Definition warn (msg : string) : ST Kst unit :=
  w ← st_get k_warn;
  if (w : bool) then add_warning ("warning: " +:+ msg) else mret tt.
Definition warn_here (msg : string) : ST Kst unit :=
  w ← st_get k_warn;
  loc ← st_get location;
  f ← st_get k_filename;
  if (w : bool) then
    add_warning (match f with
                 | None => "warning: " +:+ msg
                 | Some _ => loc +:+ ": warning: " +:+ msg end)
  else mret tt.

(** [_lookup_sym], [_lookup_const_sym]: the item, registered while parsing. *)
Definition lookup_sym (name : string) : ST Kst item :=
  known ← st_get (λ k, bool_decide (name ∈ k_syms k));
  parsing ← st_get k_parsing;
  (if (known : bool) then mret tt
   else if (parsing : bool) then add_sym name
   else warn ("no symbol " +:+ name +:+ " in configuration"));;
  mret (SymItem false name).

Definition lookup_const_sym (name : string) : ST Kst item :=
  known ← st_get (λ k, bool_decide (name ∈ k_const_syms k));
  parsing ← st_get k_parsing;
  (if (known : bool) then mret tt else if (parsing : bool) then add_const_sym name else mret tt);;
  mret (SymItem true name).

(** ** Scanners *)

Definition is_alnum (c : ascii) : bool :=
  let n := Z.of_N (N_of_ascii c) in
  ((48 <=? n) && (n <=? 57) || (65 <=? n) && (n <=? 90) || (97 <=? n) && (n <=? 122))%Z.
Definition is_in (cs : list ascii) (c : ascii) : bool := existsb (Ascii.eqb c) cs.

(** [[A-Za-z0-9_$-]], [[A-Za-z0-9_$/.-]] and [[A-Za-z0-9_-]] *)
Definition command_char (c : ascii) : bool := is_alnum c || is_in ["_"; "$"; "-"]%char c.
Definition id_char (c : ascii) : bool := command_char c || is_in ["/"; "."]%char c.
Definition lhs_char (c : ascii) : bool := is_alnum c || is_in ["_"; "-"]%char c.

(** The longest prefix of characters in [P], and the rest. *)
Fixpoint span (P : ascii → bool) (s : string) : string * string :=
  match s with
  | EmptyString => ("", "")
  | String c s' => if P c then let '(a, b) := span P s' in (String c a, b) else ("", s)
  end.

(** [_command_match] and [_id_keyword_match]: the identifier and the number of
    characters matched, with the white space around it. *)
Definition command_match (s : string) : option (string * nat) :=
  let '(w1, s1) := span is_space s in
  let '(name, s2) := span command_char s1 in
  let '(w2, _) := span is_space s2 in
  if String.eqb name "" then None
  else Some (name, String.length w1 + String.length name + String.length w2).
Definition id_keyword_match (s : string) (i : nat) : option (string * nat) :=
  let '(name, s2) := span id_char (sdrop i s) in
  let '(w2, _) := span is_space s2 in
  if String.eqb name "" then None
  else Some (name, i + String.length name + String.length w2).

Definition skip_space (s : string) (i : nat) : nat := i + String.length (span is_space (sdrop i s)).1.

(** [s.isspace()]: not empty, only white space. *)
Definition isspace (s : string) : bool :=
  negb (String.eqb s "") && String.eqb (lstrip s) "".

(** What a search found: a character of interest or [$(]. *)
Inductive special := SChar (c : ascii) | SMacro | SEnd.

(** The first position from which [stop] accepts the character or [$(] starts. *)
Fixpoint search (stop : ascii → bool) (s : string) (i : nat) : special * nat :=
  match s with
  | EmptyString => (SEnd, i)
  | String c s' =>
      if Ascii.eqb c "$" && startswith s' "(" then (SMacro, i)
      else if stop c then (SChar c, i)
      else search stop s' (S i)
  end.

Definition macro_special_search (s : string) (i : nat) : special * nat :=
  search (is_in ["("; ")"; ","]%char) (sdrop i s) i.
Definition string_special_search (s : string) (i : nat) : special * nat :=
  search (is_in [quote; "'"; "\"]%char) (sdrop i s) i.
Definition name_special_search (s : string) (i : nat) : special * nat :=
  search (λ c, negb (id_char c)) (sdrop i s) i.

(** [s.find("$(", i)] *)
Definition find_macro (s : string) (i : nat) : option nat :=
  match search (λ _, false) (sdrop i s) i with (SMacro, j) => Some j | _ => None end.

(** [s.find(c, i)] *)
Definition find_from (c : ascii) (s : string) (i : nat) : option nat :=
  (λ k, i + k) <$> index_of c (sdrop i s).

(** [l[z]] with Python's negative indices *)
Definition py_index {A} (l : list A) (z : Z) : option A :=
  let n := Z.of_nat (length l) in
  if (0 <=? z)%Z then l !! Z.to_nat z
  else if (0 <=? n + z)%Z then l !! Z.to_nat (n + z) else None.

(** [_assignment_rhs_match]: white space, the operator, white space and the
    value up to the end of the line. *)
Inductive asg_op := AEq | AColonEq | APlusEq.
Definition rhs_value (s : string) : string :=
  (span (λ c, negb (Ascii.eqb c nl)) (lstrip s)).1.
Definition assignment_rhs_match (s : string) : option (asg_op * string) :=
  let r := lstrip s in
  if startswith r "=" then Some (AEq, rhs_value (sdrop 1 r))
  else if startswith r ":=" then Some (AColonEq, rhs_value (sdrop 2 r))
  else if startswith r "+=" then Some (APlusEq, rhs_value (sdrop 2 r))
  else None.

(** ** os.path.expandvars *)

(** [\w] in ASCII *)
Definition word_char (c : ascii) : bool := is_alnum c || Ascii.eqb c "_".

(** [$name] and [${name}] of variables that are set are replaced; other
    references are left as they are. [fuel] is the length of the string. *)
Fixpoint expandvars (environ : gmap string string) (fuel : nat) (s : string) : string :=
  match fuel, s with
  | S fuel, String c s' =>
      if negb (Ascii.eqb c "$") then String c (expandvars environ fuel s')
      else if startswith s' "{" then
        match index_of "}" s' with
        | Some j =>
            default (stake (S (S j)) s) (environ !! substr s' 1 j) +:+
            expandvars environ fuel (sdrop (S j) s')
        | None => String c (expandvars environ fuel s')
        end
      else
        let '(name, rest) := span word_char s' in
        (if String.eqb name "" then "$" else default ("$" +:+ name) (environ !! name)) +:+
        expandvars environ fuel rest
  | _, _ => s
  end.

(** [s.replace(old, new)]; [old] is not empty. [fuel] is the length of [s]. *)
Fixpoint replace_str (fuel : nat) (old new s : string) : string :=
  match fuel, s with
  | S fuel, String c s' =>
      if startswith s old then new +:+ replace_str fuel old new (sdrop (String.length old) s)
      else String c (replace_str fuel old new s')
  | _, _ => s
  end.

(** ** The preprocessor *)

Section lex.
Context (environ : gmap string string).
Context (uname_release : string).
(** What [$(shell,command)] gets from the command: standard output and error. *)
Context (shell : string → string * string).
(** The user's [KCONFIG_FUNCTIONS]: minimal and maximal number of arguments,
    and the function of the arguments after its name. *)
Context (user_functions : gmap string (nat * option nat * (list string → ST Kst string))).

(** *** Predefined functions *)

Definition filename_fn (args : list string) : ST Kst string :=
  st_get (λ k, default "None" (k_filename k)).
Definition lineno_fn (args : list string) : ST Kst string := st_get (λ k, pretty (k_linenr k)).
Definition info_fn (args : list string) : ST Kst string := mret "".
Definition warning_if_fn (args : list string) : ST Kst string :=
  match args with
  | [cond; msg] => (if String.eqb cond "y" then warn_here msg else mret tt);; mret ""
  | _ => st_raise TypeError
  end.
Definition error_if_fn (args : list string) : ST Kst string :=
  match args with
  | [cond; msg] =>
      loc ← st_get location;
      if String.eqb cond "y" then st_raise (KconfigError (loc +:+ ": " +:+ msg)) else mret ""
  | _ => st_raise TypeError
  end.

(** Universal newlines, trailing newlines removed, newlines turned to spaces. *)
Fixpoint universal_nl (s : string) : string :=
  match s with
  | EmptyString => ""
  | String c s' =>
      if Ascii.eqb c "013" then
        String nl (match s' with
                   | String d s'' => if Ascii.eqb d nl then universal_nl s'' else universal_nl s'
                   | EmptyString => "" end)
      else String c (universal_nl s')
  end.
Fixpoint rstrip_nl (s : string) : string :=
  match s with
  | EmptyString => ""
  | String c s' => match rstrip_nl s' with
                   | EmptyString => if Ascii.eqb c nl then "" else String c ""
                   | t => String c t end
  end.
Fixpoint replace_char (c d : ascii) (s : string) : string :=
  match s with
  | EmptyString => ""
  | String x s' => String (if Ascii.eqb x c then d else x) (replace_char c d s')
  end.
Definition shell_text (out : string) : string :=
  replace_char nl " " (rstrip_nl (universal_nl out)).

Definition shell_fn (args : list string) : ST Kst string :=
  match args with
  | [command] =>
      let '(stdout, stderr) := shell command in
      (if String.eqb stderr "" then mret tt
       else warn_here ("'" +:+ command +:+ "' wrote to stderr: " +:+ rstrip_nl (universal_nl stderr)));;
      mret (shell_text stdout)
  | _ => st_raise TypeError
  end.

(** The table [_functions]: the predefined ones, updated with the user's. *)
Definition predefined : list (string * (nat * option nat * (list string → ST Kst string))) :=
  [("info", (1, Some 1, info_fn)); ("error-if", (2, Some 2, error_if_fn));
   ("filename", (0, Some 0, filename_fn)); ("lineno", (0, Some 0, lineno_fn));
   ("shell", (1, Some 1, shell_fn)); ("warning-if", (2, Some 2, warning_if_fn))].
Definition functions (fn : string) : option (nat * option nat * (list string → ST Kst string)) :=
  match user_functions !! fn with Some f => Some f | None => assoc fn predefined end.

Definition expected_args (min_arg : nat) (max_arg : option nat) : string :=
  match max_arg with
  | None => pretty min_arg +:+ " or more"
  | Some m => if Nat.eqb min_arg m then pretty m else pretty min_arg +:+ "-" +:+ pretty m
  end.

(** Calling a predefined or user-defined function, the number of arguments
    checked. *)
Definition call_fn (fn : string) (f : nat * option nat * (list string → ST Kst string))
    (args : list string) : ST Kst string :=
  let '(min_arg, max_arg, py_fn) := f in
  let n := length args in
  if Nat.ltb n min_arg || match max_arg with Some m => Nat.ltb m n | None => false end then
    loc ← st_get location;
    st_raise (KconfigError (loc +:+ ": bad number of arguments in call to " +:+ fn +:+
      ", expected " +:+ expected_args min_arg max_arg +:+ ", got " +:+ pretty n))
  else py_fn args.

(** *** Expansion *)

Definition bump (fn : string) (f : nat → nat) : ST Kst unit :=
  vs ← st_get k_vars;
  match (vs : gmap string Var) !! fn with
  | Some v => set_var fn (mkVar (v_value v) (v_recursive v) (f (v_n_expansions v)))
  | None => mret tt
  end.

Definition check_expansions (fn : string) (n_args : nat) (v : Var) : ST Kst unit :=
  if Nat.eqb n_args 1 then
    if Nat.eqb (v_n_expansions v) 0 then mret tt
    else parse_error ("Preprocessor variable " +:+ fn +:+ " recursively references itself")
  else if Nat.ltb 100 (v_n_expansions v) then
    parse_error ("Preprocessor function " +:+ fn +:+ " seems stuck in infinite recursion")
  else mret tt.

(** [var.value] *)
Definition value_attr (v : Var) : ST Kst string :=
  match v_value v with Some x => mret x | None => st_raise AttributeError end.

Fixpoint expand_macro (fuel : nat) (s : string) (i : nat) (args : list string)
    : ST Kst (string * nat) :=
  match fuel with
  | O => st_raise OutOfFuel
  | S fuel => macro_loop fuel s (stake i s) (i + 2) (i + 2) [] 0 args
  end
with macro_loop (fuel : nat) (s res : string) (i arg_start : nat) (new_args : list string)
    (nesting : nat) (args : list string) : ST Kst (string * nat) :=
  match fuel with
  | O => st_raise OutOfFuel
  | S fuel =>
      match macro_special_search s i with
      | (SEnd, _) => parse_error "missing end parenthesis in macro expansion"
      | (SMacro, j) =>
          '(s, i) ← expand_macro fuel s j args;
          macro_loop fuel s res i arg_start new_args nesting args
      | (SChar c, j) =>
          if Ascii.eqb c "(" then macro_loop fuel s res (S j) arg_start new_args (S nesting) args
          else if Ascii.eqb c ")" then
            match nesting with
            | S nesting => macro_loop fuel s res (S j) arg_start new_args nesting args
            | O =>
                let new_args := new_args ++ [substr s arg_start j] in
                v ← match int10 (default "" (head new_args)) with
                    | Ok z => match py_index args z with
                              | Some a => mret a
                              | None => fn_val fuel new_args
                              end
                    | Err _ => fn_val fuel new_args
                    end;
                let res := res +:+ v in
                mret (res +:+ sdrop (S j) s, String.length res)
            end
          else if Nat.eqb nesting 0 then
            macro_loop fuel s res (S j) (S j) (new_args ++ [substr s arg_start j]) nesting args
          else macro_loop fuel s res (S j) arg_start new_args nesting args
      end
  end
with fn_val (fuel : nat) (args : list string) : ST Kst string :=
  match fuel with
  | O => st_raise OutOfFuel
  | S fuel =>
      let fn := default "" (head args) in
      vs ← st_get k_vars;
      match (vs : gmap string Var) !! fn with
      | Some v =>
          check_expansions fn (length args) v;;
          bump fn S;;
          x ← value_attr v;
          r ← expand_whole fuel x 0 args;
          bump fn pred;;
          mret r
      | None =>
          match functions fn with
          | Some f => call_fn fn f (tail args)
          | None =>
              match environ !! fn with
              | Some x => add_env_var fn;; mret x
              | None => mret ""
              end
          end
      end
  end
with expand_whole (fuel : nat) (s : string) (i : nat) (args : list string) : ST Kst string :=
  match fuel with
  | O => st_raise OutOfFuel
  | S fuel =>
      match find_macro s i with
      | None => mret s
      | Some j =>
          '(s, i) ← expand_macro fuel s j args;
          expand_whole fuel s i args
      end
  end.

Fixpoint expand_name_iter (fuel : nat) (s : string) (i : nat) : ST Kst (string * nat) :=
  match fuel with
  | O => st_raise OutOfFuel
  | S fuel =>
      match name_special_search s i with
      | (SMacro, j) => '(s, i) ← expand_macro fuel s j []; expand_name_iter fuel s i
      | (_, j) => mret (s, j)
      end
  end.

Definition expand_name (fuel : nat) (s : string) (i : nat) : ST Kst (string * string * nat) :=
  '(s, end_i) ← expand_name_iter fuel s i;
  let name := substr s i end_i in
  if String.eqb (strip name) "" then parse_error "macro expanded to blank string"
  else mret (name, s, skip_space s end_i).

(** [i] is the position after the opening quote [q]. *)
Fixpoint expand_str_loop (fuel : nat) (q : ascii) (s : string) (i : nat) : ST Kst (string * nat) :=
  match fuel with
  | O => st_raise OutOfFuel
  | S fuel =>
      match string_special_search s i with
      | (SEnd, _) => parse_error "unterminated string"
      | (SMacro, j) => '(s, i) ← expand_macro fuel s j []; expand_str_loop fuel q s i
      | (SChar c, j) =>
          if Ascii.eqb c q then mret (s, S j)
          else if Ascii.eqb c "\" then
            expand_str_loop fuel q (stake j s +:+ sdrop (S j) s) (S j)
          else expand_str_loop fuel q s (S i)
      end
  end.

Definition expand_str (fuel : nat) (q : ascii) (s : string) (i : nat) : ST Kst (string * nat) :=
  expand_str_loop fuel q s (S i).

(** *** _parse_assignment *)

Fixpoint expand_lhs (fuel : nat) (s : string) (i : nat) : ST Kst (string * nat) :=
  match fuel with
  | O => st_raise OutOfFuel
  | S fuel =>
      let i := i + String.length (span lhs_char (sdrop i s)).1 in
      if startswith (sdrop i s) "$(" then
        '(s, i) ← expand_macro fuel s i [];
        expand_lhs fuel s i
      else mret (s, i)
  end.

Definition assign (fuel : nat) (name : string) (op : asg_op) (val : string) : ST Kst unit :=
  vs ← st_get k_vars;
  let old := (vs : gmap string Var) !! name in
  let op := match old, op with None, APlusEq => AEq | _, _ => op end in
  let n := match old with Some v => v_n_expansions v | None => 0 end in
  match op with
  | AEq => set_var name (mkVar (Some val) true n)
  | AColonEq =>
      (match old with Some _ => mret tt | None => set_var name (mkVar None false 0) end);;
      x ← expand_whole fuel val 0 [];
      set_var name (mkVar (Some x) false n)
  | APlusEq =>
      match old with
      | Some v =>
          y ← value_attr v;
          x ← (if v_recursive v then mret val else expand_whole fuel val 0 []);
          set_var name (mkVar (Some (y +:+ " " +:+ x)) (v_recursive v) n)
      | None => mret tt
      end
  end.

Definition parse_assignment (fuel : nat) (s : string) : ST Kst unit :=
  '(s, i) ← expand_lhs fuel (lstrip s) 0;
  if isspace s then mret tt
  else
    match assignment_rhs_match (sdrop i s) with
    | None => parse_error "syntax error"
    | Some (op, val) => assign fuel (stake i s) op val
    end.

(** ** The tokenizer *)

(** A token: one of the constants, a symbol or a string. *)
Inductive tok := TK (t : token) | TSym (i : item) | TStr (s : string).

Definition tok_string_lex (t : tok) : bool :=
  match t with TK t => STRING_LEX t | _ => false end.
Definition tok_eqb (t : tok) (k : token) : bool :=
  match t with TK t => bool_decide (t = k) | _ => false end.

(** An operator and the number of characters it takes; [None] for [#]. *)
Definition operator (s : string) : option (option (token * nat)) :=
  if startswith s "&&" then Some (Some (T_AND, 2))
  else if startswith s "||" then Some (Some (T_OR, 2))
  else if startswith s "=" then Some (Some (T_EQUAL, 1))
  else if startswith s "!=" then Some (Some (T_UNEQUAL, 2))
  else if startswith s "!" then Some (Some (T_NOT, 1))
  else if startswith s "(" then Some (Some (T_OPEN_PAREN, 1))
  else if startswith s ")" then Some (Some (T_CLOSE_PAREN, 1))
  else if startswith s "#" then Some None
  else if startswith s "<=" then Some (Some (T_LESS_EQUAL, 2))
  else if startswith s "<" then Some (Some (T_LESS, 1))
  else if startswith s ">=" then Some (Some (T_GREATER_EQUAL, 2))
  else if startswith s ">" then Some (Some (T_GREATER, 1))
  else None.

(** A quoted string at [i]: its value, the expanded line and the position
    after it. *)
Definition quoted (fuel : nat) (c : ascii) (s : string) (i : nat) : ST Kst (string * string * nat) :=
  if negb (has_char "$" s) && negb (has_char "\" s) then
    match find_from c s (S i) with
    | None => parse_error "unterminated string"
    | Some j => mret (substr s (S i) j, s, S j)
    end
  else
    '(s, end_i) ← expand_str fuel c s i;
    let raw := substr s (S i) (end_i - 1) in
    let raw := replace_str (String.length raw) "$UNAME_RELEASE" uname_release raw in
    mret (expandvars environ (String.length raw) raw, s, end_i).

(** An identifier at [i]: a keyword, a symbol, or a string without quotes. *)
Definition identifier (fuel : nat) (prev : tok) (s name : string) (i end_i : nat)
    : ST Kst (tok * string * nat) :=
  match get_keyword name with
  | Some k => mret (TK k, s, end_i)
  | None =>
      if negb (tok_string_lex prev) then
        '(name, s, i) ← (if has_char "$" name then expand_name fuel s i
                         else mret (name, s, end_i));
        it ← match STR_TO_TRI name with
             | Some _ => mret (SymItem true name)
             | None => lookup_sym name
             end;
        mret (TSym it, s, i)
      else
        line ← st_get k_line;
        (if tok_eqb prev T_CHOICE then mret tt
         else warn_here ("style: quotes recommended around '" +:+ name +:+ "' in '" +:+
                         strip line +:+ "'"));;
        mret (TStr name, s, end_i)
  end.

(** The loop over the tokens after the first, [first]; [prev] is the previous
    token. *)
Fixpoint tokenize_loop (fuel : nat) (first : token) (prev : tok) (s : string) (i : nat)
    : ST Kst (list tok) :=
  match fuel with
  | O => st_raise OutOfFuel
  | S fuel =>
      match sdrop i s with
      | EmptyString => mret []
      | String c _ =>
          match id_keyword_match s i with
          | Some (name, end_i) =>
              '(t, s, i) ← identifier fuel prev s name i end_i;
              ts ← tokenize_loop fuel first t s i;
              mret (t :: ts)
          | None =>
              if is_in [quote; "'"%char] c then
                '(val, s, i) ← quoted fuel c s i;
                t ← (if tok_string_lex prev || bool_decide (first = T_OPTION)
                     then mret (TStr val)
                     else it ← lookup_const_sym val; mret (TSym it));
                ts ← tokenize_loop fuel first t s (skip_space s i);
                mret (t :: ts)
              else
                match operator (sdrop i s) with
                | None => parse_error "unknown tokens in line"
                | Some None => mret []
                | Some (Some (k, n)) =>
                    ts ← tokenize_loop fuel first (TK k) s (skip_space s (i + n));
                    mret (TK k :: ts)
                end
          end
      end
  end.

(** [s.strip(" \t\n-")] *)
Definition help_char (c : ascii) : bool := is_in [" "; "009"; nl; "-"]%char c.
Fixpoint rstrip_by (P : ascii → bool) (s : string) : string :=
  match s with
  | EmptyString => ""
  | String c s' => match rstrip_by P s' with
                   | EmptyString => if P c then "" else String c ""
                   | t => String c t end
  end.
Definition strip_by (P : ascii → bool) (s : string) : string := rstrip_by P (span P s).2.

(** The tokens of a line, without the terminating None. *)
Definition tokenize (fuel : nat) (s : string) : ST Kst (list tok) :=
  set_line s;;
  match command_match s with
  | None =>
      if isspace s || startswith (lstrip s) "#" then mret []
      else parse_error "unknown token at start of line"
  | Some (name, i) =>
      match get_keyword name with
      | None =>
          if String.eqb (strip_by help_char s) "help" then mret [TK T_HELP]
          else parse_assignment fuel s;; mret []
      | Some k =>
          ts ← tokenize_loop fuel k (TK k) s i;
          mret (TK k :: ts)
      end
  end.

End lex.
End KLex.
