(* ===== verification/KParse.v ===== *)
(** * tools/kconfig/kconfiglib.py: parsing expressions

    [_parse_expr], [_parse_and_expr], [_parse_factor] with the token helpers
    they use, [_parse_cond] and [eval_string].  The pair [_tokens],
    [_tokens_i] is the list of the tokens from [_tokens_i] on; the terminating
    None is its end. *)
From S2P Require Import Prelude Hex PyStr KExpr KLex.

Module KParse.
Import Hex PyStr KExpr KLex.

(** ** Token helpers *)

Definition expect_sym (ts : list tok) : ST Kst (item * list tok) :=
  match ts with
  | TSym i :: ts => mret (i, ts)
  | _ => parse_error "expected symbol"
  end.

Definition expect_nonconst_sym (ts : list tok) : ST Kst (item * list tok) :=
  match ts with
  | TSym (SymItem false n) :: ts => mret (SymItem false n, ts)
  | _ => parse_error "expected nonconstant symbol"
  end.

Definition trailing_tokens_error {A} : ST Kst A := parse_error "extra tokens at end of line".

Definition expect_eol (ts : list tok) : ST Kst unit :=
  match ts with [] => mret tt | _ => trailing_tokens_error end.

Definition expect_str_and_eol (ts : list tok) : ST Kst string :=
  match ts with
  | TStr s :: ts => expect_eol ts;; mret s
  | _ => parse_error "expected string"
  end.

(** [_check_token]: the tokens after [k] when it is next. *)
Definition check_token (k : token) (ts : list tok) : option (list tok) :=
  match ts with t :: ts => if tok_eqb t k then Some ts else None | [] => None end.

(** ** Expressions *)

(** A plain symbol; in a condition, m is rewritten to m && MODULES. *)
Definition plain (transform_m : bool) (i : item) : expr :=
  if transform_m && bool_decide (i = const_tri 1) then EAnd km (EItem modules) else EItem i.

(** The relation the next token is, if it is one. *)
Definition next_rel (ts : list tok) : option (rel * list tok) :=
  match ts with TK t :: ts => (λ r, (r, ts)) <$> RELATIONS t | _ => None end.

Fixpoint parse_expr (fuel : nat) (tm : bool) (ts : list tok) : ST Kst (expr * list tok) :=
  match fuel with
  | O => st_raise OutOfFuel
  | S fuel =>
      '(e, ts) ← parse_and_expr fuel tm ts;
      match check_token T_OR ts with
      | None => mret (e, ts)
      | Some ts => '(e2, ts) ← parse_expr fuel tm ts; mret (EOr e e2, ts)
      end
  end
with parse_and_expr (fuel : nat) (tm : bool) (ts : list tok) : ST Kst (expr * list tok) :=
  match fuel with
  | O => st_raise OutOfFuel
  | S fuel =>
      '(e, ts) ← parse_factor fuel tm ts;
      match check_token T_AND ts with
      | None => mret (e, ts)
      | Some ts => '(e2, ts) ← parse_and_expr fuel tm ts; mret (EAnd e e2, ts)
      end
  end
with parse_factor (fuel : nat) (tm : bool) (ts : list tok) : ST Kst (expr * list tok) :=
  match fuel with
  | O => st_raise OutOfFuel
  | S fuel =>
      match ts with
      | TSym i :: ts =>
          match next_rel ts with
          | None => mret (plain tm i, ts)
          | Some (r, ts) => '(j, ts) ← expect_sym ts; mret (ERel r i j, ts)
          end
      | TK T_NOT :: ts => '(e, ts) ← parse_factor fuel tm ts; mret (ENot e, ts)
      | TK T_OPEN_PAREN :: ts =>
          '(e, ts) ← parse_expr fuel tm ts;
          match check_token T_CLOSE_PAREN ts with
          | Some ts => mret (e, ts)
          | None => parse_error "malformed expression"
          end
      | _ => parse_error "malformed expression"
      end
  end.

(** Enough fuel for any token list. *)
Definition parse_fuel (ts : list tok) : nat := 3 * length ts + 3.

Definition parse_expression (tm : bool) (ts : list tok) : ST Kst (expr * list tok) :=
  parse_expr (parse_fuel ts) tm ts.

Definition expect_expr_and_eol (ts : list tok) : ST Kst expr :=
  '(e, ts) ← parse_expression true ts;
  expect_eol ts;;
  mret e.

(** [_parse_cond] *)
Definition parse_cond (ts : list tok) : ST Kst expr :=
  match check_token T_IF ts with
  | Some ts => expect_expr_and_eol ts
  | None => expect_eol ts;; mret ky
  end.

(** ** eval_string *)

Definition set_filename (f : option string) : ST Kst unit := λ k,
  Ok (tt, mkKst f (k_linenr k) (k_line k) (k_warn k) (k_warnings k) (k_vars k)
            (k_env_vars k) (k_syms k) (k_const_syms k) (k_parsing k)).

Section eval.
Context (environ : gmap string string) (uname_release : string).
Context (shell : string → string * string).
Context (user_functions : gmap string (nat * option nat * (list string → ST Kst string))).

Definition eval_string (fuel : nat) (E : Env) (s : string) : ST Kst nat :=
  set_filename None;;
  ts ← tokenize environ uname_release shell user_functions fuel ("if " +:+ s);
  set_line s;;
  e ← expect_expr_and_eol (tail ts);
  st_lift (expr_value E e).
End eval.

End KParse.
