(* ===== verification/KParseSpec.v ===== *)
(** * Printing and parsing expressions are inverse

    The expression parser on the tokens of a printed expression gives back
    the expression, chains of && and || nested to the right, and the value is
    the same; [eval_string] of the text of [expr_str] is the value of the
    expression.  Plus the laws of the constructors and of [split_expr]. *)
From S2P Require Import Prelude Hex PyStr KExpr KLex KParse.

Module KParseSpec.
Import Hex PyStr KExpr KLex KParse.

(** ** Values *)

(** Items have tristate values. *)
Definition tri_env (E : Env) : Prop := ∀ i v, e_tri E i = Ok v → v ≤ 2.

(** The values of the operands of a chain, combined left to right until the
    result is known. *)
Fixpoint and_all (E : Env) (l : list expr) : res nat :=
  match l with
  | [] => Ok 2
  | e :: l => let* v := expr_value E e in
              if Nat.eqb v 0 then Ok 0 else let* w := and_all E l in Ok (Nat.min v w)
  end.
Fixpoint or_any (E : Env) (l : list expr) : res nat :=
  match l with
  | [] => Ok 0
  | e :: l => let* v := expr_value E e in
              if Nat.eqb v 2 then Ok 2 else let* w := or_any E l in Ok (Nat.max v w)
  end.

Section values.
Context (E : Env) (HE : tri_env E).

Lemma expr_value_tri e v : expr_value E e = Ok v → v ≤ 2.
Proof using HE.
  revert v; induction e as [i|e1 IH1 e2 IH2|e1 IH1 e2 IH2|e IH|r i j]; intros v; cbn [expr_value].
  - apply HE.
  - intros (v1 & E1 & H)%res_bind_ok. destruct (Nat.eqb v1 0); [by injection H as <-; lia|].
    apply res_bind_ok in H as (v2 & E2 & [= <-]). specialize (IH1 _ E1). lia.
  - intros (v1 & E1 & H)%res_bind_ok. destruct (Nat.eqb v1 2); [by injection H as <-|].
    apply res_bind_ok in H as (v2 & E2 & [= <-]). specialize (IH1 _ E1). specialize (IH2 _ E2). lia.
  - intros (v1 & E1 & [= <-])%res_bind_ok. lia.
  - intros (c & _ & [= <-])%res_bind_ok. destruct (rel_holds r c); simpl; lia.
Qed.

Lemma and_all_app l1 l2 :
  and_all E (l1 ++ l2) =
  (let* v := and_all E l1 in if Nat.eqb v 0 then Ok 0 else let* w := and_all E l2 in Ok (Nat.min v w)).
Proof using HE.
  induction l1 as [|e l1 IH]; cbn [and_all app res_bind].
  - cbn [Nat.eqb]. assert (∀ w, and_all E l2 = Ok w → w ≤ 2) as Hb.
    { clear -HE. induction l2 as [|e l IH]; cbn [and_all]; intros w; [intros [= <-]; done|].
      intros (v & Ev & H)%res_bind_ok. destruct (Nat.eqb v 0); [injection H as <-; lia|].
      apply res_bind_ok in H as (w' & Ew & [= <-]). apply expr_value_tri in Ev. lia. }
    destruct (and_all E l2) as [w|] eqn:Ew; [|done]. cbn [res_bind]. f_equal.
    specialize (Hb _ eq_refl). lia.
  - destruct (expr_value E e) as [v|] eqn:Ev; [|done]. cbn [res_bind].
    destruct (Nat.eqb_spec v 0); [done|]. rewrite IH.
    destruct (and_all E l1) as [w|]; [|done]. cbn [res_bind].
    destruct (Nat.eqb_spec w 0) as [->|].
    + cbn [res_bind]. by rewrite Nat.min_0_r.
    + destruct (and_all E l2) as [u|]; cbn [res_bind];
        (destruct (Nat.eqb_spec (Nat.min v w) 0); [lia|]); [f_equal; lia|done].
Qed.

Lemma or_any_tri l w : or_any E l = Ok w → w ≤ 2.
Proof using HE.
  revert w; induction l as [|e l IH]; cbn [or_any]; intros w; [intros [= <-]; lia|].
  intros (v & Ev & H)%res_bind_ok. destruct (Nat.eqb v 2); [by injection H as <-|].
  apply res_bind_ok in H as (w' & Ew & [= <-]). apply expr_value_tri in Ev.
  specialize (IH _ Ew). lia.
Qed.

Lemma or_any_app l1 l2 :
  or_any E (l1 ++ l2) =
  (let* v := or_any E l1 in if Nat.eqb v 2 then Ok 2 else let* w := or_any E l2 in Ok (Nat.max v w)).
Proof using HE.
  induction l1 as [|e l1 IH]; cbn [or_any app res_bind].
  - cbn [Nat.eqb]. by destruct (or_any E l2).
  - destruct (expr_value E e) as [v|] eqn:Ev; [|done]. cbn [res_bind].
    destruct (Nat.eqb_spec v 2); [done|]. rewrite IH. apply expr_value_tri in Ev.
    destruct (or_any E l1) as [w|] eqn:Ew; [|done]. apply or_any_tri in Ew. cbn [res_bind].
    destruct (Nat.eqb_spec w 2) as [->|].
    + cbn [res_bind]. replace (Nat.max v 2) with 2 by lia. done.
    + destruct (or_any E l2) as [u|]; cbn [res_bind];
        (destruct (Nat.eqb_spec (Nat.max v w) 2); [lia|]); [f_equal; lia|done].
Qed.

(** A chain of operators nested to the right. *)
Lemma and_all_one e : and_all E [e] = expr_value E e.
Proof using HE.
  cbn [and_all]. destruct (expr_value E e) as [v|] eqn:Ev; [|done]. cbn [res_bind].
  apply expr_value_tri in Ev. destruct (Nat.eqb_spec v 0) as [->|]; [done|]. f_equal. lia.
Qed.
Lemma or_any_one e : or_any E [e] = expr_value E e.
Proof using HE.
  cbn [or_any]. destruct (expr_value E e) as [v|] eqn:Ev; [|done]. cbn [res_bind].
  destruct (Nat.eqb_spec v 2) as [->|]; [done|]. f_equal. lia.
Qed.

(** The operands [split_expr] lists are the operands of the value. *)
Lemma split_and_value e : and_all E (split_and e) = expr_value E e.
Proof using HE.
  induction e as [i|e1 IH1 e2 IH2|e1 IH1 e2 IH2|e IH|r i j]; try apply and_all_one.
  cbn [split_and]. by rewrite and_all_app, IH1, IH2.
Qed.
Lemma split_or_value e : or_any E (split_or e) = expr_value E e.
Proof using HE.
  induction e as [i|e1 IH1 e2 IH2|e1 IH1 e2 IH2|e IH|r i j]; try apply or_any_one.
  cbn [split_or]. by rewrite or_any_app, IH1, IH2.
Qed.

(** The simplifying constructors keep the value when the constants n and y
    have theirs and the operands have a value. *)
Lemma make_and_value e1 e2 v1 v2 :
  e_tri E (const_tri 0) = Ok 0 → e_tri E (const_tri 2) = Ok 2 →
  expr_value E e1 = Ok v1 → expr_value E e2 = Ok v2 →
  expr_value E (make_and e1 e2) = Ok (Nat.min v1 v2).
Proof using HE.
  intros Hn Hy E1 E2. pose proof (expr_value_tri _ _ E1). pose proof (expr_value_tri _ _ E2).
  unfold make_and. case_decide as H1; [|case_decide as H2; [|case_decide as H3]].
  - subst e1. cbn [expr_value ky] in E1. rewrite Hy in E1. injection E1 as <-.
    rewrite E2. f_equal; lia.
  - subst e2. cbn [expr_value ky] in E2. rewrite Hy in E2. injection E2 as <-.
    rewrite E1. f_equal; lia.
  - cbn [expr_value kn]. rewrite Hn. f_equal.
    destruct H3 as [->| ->]; cbn [expr_value kn] in E1, E2;
      [assert (v1 = 0) by congruence|assert (v2 = 0) by congruence]; lia.
  - cbn [expr_value]. rewrite E1, E2. cbn [res_bind]. by destruct (Nat.eqb_spec v1 0) as [->|].
Qed.

Lemma make_or_value e1 e2 v1 v2 :
  e_tri E (const_tri 0) = Ok 0 → e_tri E (const_tri 2) = Ok 2 →
  expr_value E e1 = Ok v1 → expr_value E e2 = Ok v2 →
  expr_value E (make_or e1 e2) = Ok (Nat.max v1 v2).
Proof using HE.
  intros Hn Hy E1 E2. pose proof (expr_value_tri _ _ E1). pose proof (expr_value_tri _ _ E2).
  unfold make_or. case_decide as H1; [|case_decide as H2; [|case_decide as H3]].
  - subst e1. cbn [expr_value kn] in E1. rewrite Hn in E1. injection E1 as <-.
    rewrite E2. f_equal; lia.
  - subst e2. cbn [expr_value kn] in E2. rewrite Hn in E2. injection E2 as <-.
    rewrite E1. f_equal; lia.
  - cbn [expr_value ky]. rewrite Hy. f_equal.
    destruct H3 as [->| ->]; cbn [expr_value ky] in E1, E2;
      [assert (v1 = 2) by congruence|assert (v2 = 2) by congruence]; lia.
  - cbn [expr_value]. rewrite E1, E2. cbn [res_bind]. destruct (Nat.eqb_spec v1 2) as [->|]; [|done].
    f_equal. lia.
Qed.
End values.

(** ** Tokens of a printed expression *)

Definition rel_tok (r : rel) : token :=
  match r with
  | EQUAL => T_EQUAL | UNEQUAL => T_UNEQUAL | LESS => T_LESS | LESS_EQUAL => T_LESS_EQUAL
  | GREATER => T_GREATER | GREATER_EQUAL => T_GREATER_EQUAL
  end.

Definition ptoks (b : bool) (ts : list tok) : list tok :=
  if b then TK T_OPEN_PAREN :: ts ++ [TK T_CLOSE_PAREN] else ts.

Definition is_item (e : expr) : bool := match e with EItem _ => true | _ => false end.

(** The tokens of [expr_str e]. *)
Fixpoint etoks (e : expr) : list tok :=
  match e with
  | EItem i => [TSym i]
  | EAnd a b => ptoks (is_or a) (etoks a) ++ TK T_AND :: ptoks (is_or b) (etoks b)
  | EOr a b => ptoks (is_and a) (etoks a) ++ TK T_OR :: ptoks (is_and b) (etoks b)
  | ENot e => TK T_NOT :: ptoks (negb (is_item e)) (etoks e)
  | ERel r i j => [TSym i; TK (rel_tok r); TSym j]
  end.

(** A chain of [op] nested to the right. *)
Fixpoint chain (op : expr → expr → expr) (x : expr) (l : list expr) : expr :=
  match l with [] => x | y :: l => op x (chain op y l) end.
Definition chainl (op : expr → expr → expr) (l : list expr) : expr :=
  match l with [] => kn | x :: l => chain op x l end.

(** The operands of the && chain and of the || chain an expression is. *)
Fixpoint factors (tm : bool) (e : expr) : list expr :=
  match e with
  | EItem i => [plain tm i]
  | EAnd a b => factors tm a ++ factors tm b
  | EOr a b => [chainl EOr (terms tm a ++ terms tm b)]
  | ENot e => [ENot (chainl EOr (terms tm e))]
  | ERel r i j => [ERel r i j]
  end
with terms (tm : bool) (e : expr) : list expr :=
  match e with
  | EItem i => [plain tm i]
  | EAnd a b => [chainl EAnd (factors tm a ++ factors tm b)]
  | EOr a b => terms tm a ++ terms tm b
  | ENot e => [ENot (chainl EOr (terms tm e))]
  | ERel r i j => [ERel r i j]
  end.

(** The expression with every chain nested to the right, and plain m
    rewritten to m && MODULES when [tm]. *)
Definition norm (tm : bool) (e : expr) : expr := chainl EOr (terms tm e).

Section parse.
Context (tm : bool).

(** The parsers on [ts] with enough fuel give [e] and leave [rest]. *)
Definition PE (ts : list tok) (e : expr) (rest : list tok) : Prop :=
  length rest < length ts ∧
  ∀ fuel k, 3 * length ts + 3 ≤ fuel → parse_expr fuel tm ts k = Ok (e, rest, k).
Definition PA (ts : list tok) (e : expr) (rest : list tok) : Prop :=
  length rest < length ts ∧
  ∀ fuel k, 3 * length ts + 2 ≤ fuel → parse_and_expr fuel tm ts k = Ok (e, rest, k).
Definition PF (ts : list tok) (e : expr) (rest : list tok) : Prop :=
  length rest < length ts ∧
  ∀ fuel k, 3 * length ts + 1 ≤ fuel → parse_factor fuel tm ts k = Ok (e, rest, k).

Lemma PF_sym i rest : next_rel rest = None → PF (TSym i :: rest) (plain tm i) rest.
Proof.
  intros H. split; [simpl; lia|]. intros [|fuel] k Hf; [lia|]. cbn [parse_factor].
  by rewrite H.
Qed.

Lemma PF_rel r i j rest : PF (TSym i :: TK (rel_tok r) :: TSym j :: rest) (ERel r i j) rest.
Proof. split; [simpl; lia|]. intros [|fuel] k Hf; [lia|]. by destruct r. Qed.

Lemma PF_not ts e rest : PF ts e rest → PF (TK T_NOT :: ts) (ENot e) rest.
Proof.
  intros [Hl H]. split; [simpl; lia|]. intros [|fuel] k Hf; [lia|]. cbn [parse_factor].
  erewrite st_bind_run by (apply H; simpl in Hf; lia). done.
Qed.

Lemma PF_paren ts e rest :
  PE ts e (TK T_CLOSE_PAREN :: rest) → PF (TK T_OPEN_PAREN :: ts) e rest.
Proof.
  intros [Hl H]. split; [simpl in *; lia|]. intros [|fuel] k Hf; [lia|]. cbn [parse_factor].
  erewrite st_bind_run by (apply H; simpl in Hf; lia). done.
Qed.

Lemma PA_one ts e rest : PF ts e rest → check_token T_AND rest = None → PA ts e rest.
Proof.
  intros [Hl H] Hn. split; [done|]. intros [|fuel] k Hf; [lia|]. cbn [parse_and_expr].
  erewrite st_bind_run by (apply H; lia). cbn beta iota. by rewrite Hn.
Qed.

Lemma PA_more ts e ts' e' rest :
  PF ts e (TK T_AND :: ts') → PA ts' e' rest → PA ts (EAnd e e') rest.
Proof.
  intros [Hl H] [Hl' H']. simpl in Hl. split; [lia|]. intros [|fuel] k Hf; [lia|].
  cbn [parse_and_expr]. erewrite st_bind_run by (apply H; lia). cbn beta iota.
  change (check_token T_AND (TK T_AND :: ts')) with (Some ts'). cbn iota.
  erewrite st_bind_run by (apply H'; lia). done.
Qed.

Lemma PE_one ts e rest : PA ts e rest → check_token T_OR rest = None → PE ts e rest.
Proof.
  intros [Hl H] Hn. split; [done|]. intros [|fuel] k Hf; [lia|]. cbn [parse_expr].
  erewrite st_bind_run by (apply H; lia). cbn beta iota. by rewrite Hn.
Qed.

Lemma PE_more ts e ts' e' rest :
  PA ts e (TK T_OR :: ts') → PE ts' e' rest → PE ts (EOr e e') rest.
Proof.
  intros [Hl H] [Hl' H']. simpl in Hl. split; [lia|]. intros [|fuel] k Hf; [lia|].
  cbn [parse_expr]. erewrite st_bind_run by (apply H; lia). cbn beta iota.
  change (check_token T_OR (TK T_OR :: ts')) with (Some ts'). cbn iota.
  erewrite st_bind_run by (apply H'; lia). done.
Qed.

(** What may follow an operand of && (resp. ||): the end of the chain, or the
    operator and the rest [l] of the chain. *)
Definition and_cont (ts : list tok) (l : list expr) (rest : list tok) : Prop :=
  (l = [] ∧ ts = rest ∧ check_token T_AND rest = None ∧ next_rel rest = None) ∨
  (l ≠ [] ∧ ∃ ts', ts = TK T_AND :: ts' ∧ PA ts' (chainl EAnd l) rest).
Definition or_cont (ts : list tok) (l : list expr) (rest : list tok) : Prop :=
  (l = [] ∧ ts = rest ∧ check_token T_OR rest = None ∧ check_token T_AND rest = None ∧
   next_rel rest = None) ∨
  (l ≠ [] ∧ ∃ ts', ts = TK T_OR :: ts' ∧ PE ts' (chainl EOr l) rest).

Lemma and_cont_step ts0 e ts l rest :
  (∀ r, next_rel r = None → PF (ts0 ++ r) e r) → and_cont ts l rest →
  PA (ts0 ++ ts) (chainl EAnd (e :: l)) rest.
Proof.
  intros H [(-> & -> & Ha & Hr)|(Hl & ts' & -> & Hp)].
  - apply PA_one; [by apply H|done].
  - destruct l as [|y l]; [done|]. cbn [chainl chain]. eapply PA_more; [by apply H|done].
Qed.

Lemma or_cont_step ts0 e ts l rest :
  (∀ r, next_rel r = None → PF (ts0 ++ r) e r) → or_cont ts l rest →
  PE (ts0 ++ ts) (chainl EOr (e :: l)) rest.
Proof.
  intros H [(-> & -> & Ho & Ha & Hr)|(Hl & ts' & -> & Hp)].
  - apply PE_one; [|done]. apply PA_one; [by apply H|done].
  - destruct l as [|y l]; [done|]. cbn [chainl chain]. eapply PE_more; [|done].
    apply PA_one; [by apply H|done].
Qed.

Lemma factors_ne e : factors tm e ≠ [].
Proof. induction e; cbn [factors]; try done. by destruct (factors tm e1). Qed.
Lemma terms_ne e : terms tm e ≠ [].
Proof. induction e; cbn [terms]; try done. by destruct (terms tm e1). Qed.

(** In parentheses, an expression that parses is a factor. *)
Lemma paren_factor ts e :
  (∀ r, PE (ts ++ TK T_CLOSE_PAREN :: r) e (TK T_CLOSE_PAREN :: r)) →
  ∀ r, next_rel r = None → PF (ptoks true ts ++ r) e r.
Proof.
  intros H r _. cbn [ptoks]. rewrite <- app_comm_cons, <- app_assoc. apply PF_paren, H.
Qed.

Lemma printed_chains e :
  (∀ ts l rest, and_cont ts l rest →
     PA (ptoks (is_or e) (etoks e) ++ ts) (chainl EAnd (factors tm e ++ l)) rest) ∧
  (∀ ts l rest, or_cont ts l rest →
     PE (ptoks (is_and e) (etoks e) ++ ts) (chainl EOr (terms tm e ++ l)) rest).
Proof.
  assert (∀ e, factors tm e = [chainl EOr (terms tm e)] → terms tm e = [chainl EOr (terms tm e)] →
    is_or e = false → is_and e = false →
    (∀ r, next_rel r = None → PF (etoks e ++ r) (chainl EOr (terms tm e)) r) →
    (∀ ts l rest, and_cont ts l rest →
       PA (ptoks (is_or e) (etoks e) ++ ts) (chainl EAnd (factors tm e ++ l)) rest) ∧
    (∀ ts l rest, or_cont ts l rest →
       PE (ptoks (is_and e) (etoks e) ++ ts) (chainl EOr (terms tm e ++ l)) rest)) as Hatom.
  { clear e. intros e Hf Ht Ho Ha H. rewrite Ho, Ha. split; intros ts l rest Hc.
    - rewrite Hf. by apply and_cont_step.
    - rewrite Ht. by apply or_cont_step. }
  induction e as [i|e1 [IA1 IO1] e2 [IA2 IO2]|e1 [IA1 IO1] e2 [IA2 IO2]|e [IA IO]|r i j].
  - apply Hatom; try done. intros r Hr. by apply PF_sym.
  - assert (∀ ts l rest, and_cont ts l rest →
      PA (etoks (EAnd e1 e2) ++ ts) (chainl EAnd (factors tm (EAnd e1 e2) ++ l)) rest) as HA.
    { intros ts l rest Hc. cbn [etoks factors]. rewrite <- !app_assoc. apply IA1. right.
      split; [by pose proof (factors_ne e2); destruct (factors tm e2)|].
      eexists. split; [rewrite <- app_comm_cons; done|]. by apply IA2. }
    split; [done|]. intros ts l rest Hc. cbn [is_and terms]. apply or_cont_step; [|done].
    apply paren_factor. intros r. apply PE_one; [|done].
    specialize (HA (TK T_CLOSE_PAREN :: r) [] (TK T_CLOSE_PAREN :: r)). rewrite app_nil_r in HA.
    apply HA. by left.
  - assert (∀ ts l rest, or_cont ts l rest →
      PE (etoks (EOr e1 e2) ++ ts) (chainl EOr (terms tm (EOr e1 e2) ++ l)) rest) as HO.
    { intros ts l rest Hc. cbn [etoks terms]. rewrite <- !app_assoc. apply IO1. right.
      split; [by pose proof (terms_ne e2); destruct (terms tm e2)|].
      eexists. split; [rewrite <- app_comm_cons; done|]. by apply IO2. }
    split; [|done]. intros ts l rest Hc. cbn [is_or factors]. apply and_cont_step; [|done].
    apply paren_factor. intros r.
    specialize (HO (TK T_CLOSE_PAREN :: r) [] (TK T_CLOSE_PAREN :: r)). rewrite app_nil_r in HO.
    apply HO. by left.
  - apply Hatom; try done. intros r Hr. cbn [etoks terms chainl chain]. rewrite <- app_comm_cons.
    apply PF_not. destruct (is_item e) eqn:Ei; cbn [negb].
    { destruct e; try done. by apply PF_sym. }
    revert r Hr. apply paren_factor. intros r. destruct (is_and e) eqn:Ea.
    + destruct e; try done. cbn [terms chainl chain]. apply PE_one; [|done].
      specialize (IA (TK T_CLOSE_PAREN :: r) [] (TK T_CLOSE_PAREN :: r)).
      rewrite app_nil_r in IA. apply IA. by left.
    + specialize (IO (TK T_CLOSE_PAREN :: r) [] (TK T_CLOSE_PAREN :: r)).
      rewrite app_nil_r in IO. apply IO. by left.
  - apply Hatom; try done. intros r' _. apply PF_rel.
Qed.

(** The tokens of a printed expression parse to the expression with its
    chains nested to the right. *)
Lemma parse_printed e k : parse_expression tm (etoks e) k = Ok (norm tm e, [], k).
Proof.
  assert (PE (etoks e) (norm tm e) []) as [_ H].
  { destruct (printed_chains e) as [IA IO]. unfold norm. destruct (is_and e) eqn:Ea.
    - destruct e; try done. apply PE_one; [|done]. cbn [terms chainl chain].
      specialize (IA [] [] []). rewrite !app_nil_r in IA. apply IA. by left.
    - specialize (IO [] [] []). rewrite !app_nil_r in IO. apply IO. by left. }
  apply H. unfold parse_fuel. lia.
Qed.
End parse.

(** ** The value of the parsed expression *)

(** Plain m rewritten to m && MODULES, when [tm]. *)
Fixpoint rewrite_m (tm : bool) (e : expr) : expr :=
  match e with
  | EItem i => plain tm i
  | EAnd a b => EAnd (rewrite_m tm a) (rewrite_m tm b)
  | EOr a b => EOr (rewrite_m tm a) (rewrite_m tm b)
  | ENot e => ENot (rewrite_m tm e)
  | ERel r i j => ERel r i j
  end.

Section norm_value.
Context (E : Env) (HE : tri_env E) (tm : bool).

Lemma chain_and_value x l : expr_value E (chain EAnd x l) = and_all E (x :: l).
Proof using HE.
  revert x; induction l as [|y l IH]; intros x; [by rewrite and_all_one|].
  cbn [chain expr_value]. by rewrite IH.
Qed.
Lemma chain_or_value x l : expr_value E (chain EOr x l) = or_any E (x :: l).
Proof using HE.
  revert x; induction l as [|y l IH]; intros x; [by rewrite or_any_one|].
  cbn [chain expr_value]. by rewrite IH.
Qed.
Lemma chainl_and_value l : l ≠ [] → expr_value E (chainl EAnd l) = and_all E l.
Proof using HE. destruct l; [done|]. intros _. apply chain_and_value. Qed.
Lemma chainl_or_value l : l ≠ [] → expr_value E (chainl EOr l) = or_any E l.
Proof using HE. destruct l; [done|]. intros _. apply chain_or_value. Qed.

Lemma operands_value e :
  and_all E (factors tm e) = expr_value E (rewrite_m tm e) ∧
  or_any E (terms tm e) = expr_value E (rewrite_m tm e).
Proof using HE.
  induction e as [i|a [Fa Ta] b [Fb Tb]|a [Fa Ta] b [Fb Tb]|e [Fe Te]|r i j].
  - split; [apply and_all_one|apply or_any_one]; done.
  - assert (and_all E (factors tm (EAnd a b)) = expr_value E (rewrite_m tm (EAnd a b))) as H.
    { cbn [factors rewrite_m]. by rewrite and_all_app, Fa, Fb. }
    split; [done|]. cbn [terms]. rewrite or_any_one by done.
    rewrite chainl_and_value by apply (factors_ne tm (EAnd a b)). exact H.
  - assert (or_any E (terms tm (EOr a b)) = expr_value E (rewrite_m tm (EOr a b))) as H.
    { cbn [terms rewrite_m]. by rewrite or_any_app, Ta, Tb. }
    split; [|done]. cbn [factors]. rewrite and_all_one by done.
    rewrite chainl_or_value by apply (terms_ne tm (EOr a b)). exact H.
  - assert (expr_value E (ENot (chainl EOr (terms tm e))) = expr_value E (rewrite_m tm (ENot e))) as H.
    { cbn [rewrite_m expr_value]. rewrite chainl_or_value by apply terms_ne. by rewrite Te. }
    split; [cbn [factors]; by rewrite and_all_one|cbn [terms]; by rewrite or_any_one].
  - split; [apply and_all_one|apply or_any_one]; done.
Qed.

Lemma norm_value e : expr_value E (norm tm e) = expr_value E (rewrite_m tm e).
Proof using HE.
  unfold norm. rewrite chainl_or_value by apply terms_ne. apply operands_value.
Qed.
End norm_value.

(** ** The parser always ends *)

(** A syntax error. *)
Definition is_kerr (e : pyerr) : Prop := match e with KconfigError _ => True | _ => False end.

(** A result that leaves fewer tokens, or an error of the parser. *)
Definition ends (ts : list tok) (r : res (expr * list tok * Kst)) : Prop :=
  match r with Ok (_, rest, _) => length rest < length ts | Err e => is_kerr e end.

Lemma ends_bind {A} ts0 (c : ST Kst (expr * list tok)) (f : expr * list tok → ST Kst A) k
    (P : res (A * Kst) → Prop) :
  ends ts0 (c k) → (∀ e, is_kerr e → P (Err e)) →
  (∀ e rest k', length rest < length ts0 → P (f (e, rest) k')) → P ((c ≫= f) k).
Proof.
  unfold mbind, ST_bind, ends. destruct (c k) as [[[e rest] k']|err]; cbn [res_bind fst snd]; auto.
Qed.

Lemma check_token_length t ts ts' : check_token t ts = Some ts' → length ts = S (length ts').
Proof. destruct ts as [|x ts]; [done|]. simpl. destruct (tok_eqb x t); [|done]. by intros [= ->]. Qed.

Lemma parsers_end tm fuel :
  (∀ ts k, 3 * length ts + 3 ≤ fuel → ends ts (parse_expr fuel tm ts k)) ∧
  (∀ ts k, 3 * length ts + 2 ≤ fuel → ends ts (parse_and_expr fuel tm ts k)) ∧
  (∀ ts k, 3 * length ts + 1 ≤ fuel → ends ts (parse_factor fuel tm ts k)).
Proof.
  induction fuel as [|fuel (IE & IA & IF)]; [split_and!; intros; lia|]. split_and!; intros ts k Hf.
  - cbn [parse_expr]. eapply ends_bind; [apply (IA ts); lia|done|]. intros e rest k' Hl.
    destruct (check_token T_OR rest) as [ts'|] eqn:Ec; cbn beta iota; rewrite ?Ec; [|done].
    apply check_token_length in Ec. eapply ends_bind; [apply (IE ts'); lia|done|].
    intros e' rest' k'' Hl'. cbn. lia.
  - cbn [parse_and_expr]. eapply ends_bind; [apply (IF ts); lia|done|]. intros e rest k' Hl.
    destruct (check_token T_AND rest) as [ts'|] eqn:Ec; cbn beta iota; rewrite ?Ec; [|done].
    apply check_token_length in Ec. eapply ends_bind; [apply (IA ts'); lia|done|].
    intros e' rest' k'' Hl'. cbn. lia.
  - cbn [parse_factor]. destruct ts as [|[t|i|w] ts]; [done| | |done].
    + destruct t; try done; simpl in Hf.
      * eapply ends_bind; [apply (IF ts); lia|done|]. intros e rest k' Hl. cbn. lia.
      * eapply ends_bind; [apply (IE ts); lia|done|]. intros e rest k' Hl. cbn beta iota.
        destruct (check_token T_CLOSE_PAREN rest) as [ts'|] eqn:Ec; [|done].
        apply check_token_length in Ec. cbn. lia.
    + destruct (next_rel ts) as [[r ts']|] eqn:Er; [|cbn; lia].
      destruct ts as [|[t|?|?] ts]; try done. simpl in Er. destruct (RELATIONS t); [|done].
      injection Er as <- <-. destruct ts as [|[?|j|?] ts]; try done. cbn. simpl in *. lia.
Qed.

(** The expression parser ends on every list of tokens: it returns an
    expression and fewer tokens than it was given, or raises a syntax error;
    the recursion never goes deeper than the fuel chosen for it. *)
Theorem parse_expression_total tm ts k :
  match parse_expression tm ts k with
  | Ok (_, rest, _) => length rest < length ts
  | Err e => ∃ msg, e = KconfigError msg
  end.
Proof.
  pose proof (proj1 (parsers_end tm (parse_fuel ts)) ts k (le_n _)) as H.
  unfold parse_expression, ends in *. destruct (parse_expr _ tm ts k) as [[[e rest] k']|e]; [done|].
  destruct e; try done. eauto.
Qed.

(** Taking an expression apart with [split_expr] and joining the parts
    again gives its value, for AND and for OR. *)
Theorem split_expr_value E e :
  tri_env E → and_all E (split_and e) = expr_value E e ∧ or_any E (split_or e) = expr_value E e.
Proof. intros HE. split; [by apply split_and_value|by apply split_or_value]. Qed.

Lemma split_expr_value_witness :
  let E := {| e_type := λ _, BOOL; e_tri := λ i, Ok (if decide (i = SymItem false "A") then 2 else 0);
              e_str := λ _, Ok "" |} in
  let e := EAnd (EAnd (EItem (SymItem false "A")) ky) (EItem (SymItem false "A")) in
  length (split_and e) = 3 ∧ and_all E (split_and e) = expr_value E e.
Proof.
  intros E e. split; [reflexivity|]. apply (split_expr_value E e).
  intros i v H. cbn in H. destruct (decide (i = _)); injection H as <-; lia.
Defined.

End KParseSpec.
