(* ===== verification/KLexSpec.v ===== *)
(** * The tokenizer on the text of an expression

    The text [expr_str] prints tokenizes to the tokens of the expression,
    quoting and escaping included; with the parser's round trip this makes
    [eval_string] of the printed text the value of the expression. *)
From S2P Require Import Prelude Hex PyStr KExpr KLex KParse KParseSpec.

Module KLexSpec.
Import Hex PyStr KExpr KLex KParse KParseSpec.

(** ** Strings *)

Lemma escape_cons c n :
  escape (String c n) =
  if Ascii.eqb c quote || Ascii.eqb c "\" then String "\" (String c (escape n))
  else String c (escape n).
Proof.
  unfold escape. cbn [backslash]. destruct (Ascii.eqb_spec c "\") as [->|H1]; cbn [backslash].
  - done.
  - destruct (Ascii.eqb_spec c quote) as [->|H2]; done.
Qed.

(** Reading back an escaped string: [unescape] undoes [escape]. *)
Lemma unescape_escape s : unescape (escape s) = s.
Proof.
  induction s as [|c s IH]; [done|]. rewrite escape_cons.
  destruct (Ascii.eqb_spec c quote) as [->|H1]; cbn [orb].
  { cbn [unescape]. rewrite Ascii.eqb_refl. cbn. by rewrite IH. }
  destruct (Ascii.eqb_spec c "\") as [->|H2].
  { cbn. by rewrite IH. }
  cbn [unescape]. rewrite (proj2 (Ascii.eqb_neq c "\")) by done. by rewrite IH.
Qed.

(** A string whose escaped form has no backslash needed no escaping. *)
Lemma escape_plain n : has_char "\" (escape n) = false → escape n = n ∧ has_char quote n = false.
Proof.
  induction n as [|c n IH]; [done|]. rewrite escape_cons.
  destruct (Ascii.eqb c quote) eqn:Eq; cbn [orb]; [done|].
  destruct (Ascii.eqb c "\") eqn:Eb; [done|]. cbn [has_char]. rewrite Eq, Eb. cbn [orb].
  intros [-> ->]%IH. done.
Qed.

Lemma has_char_escape c n :
  c ≠ "\"%char → has_char c (escape n) = has_char c n.
Proof.
  intros Hc. induction n as [|d n IH]; [done|]. rewrite escape_cons.
  destruct (_ || _); cbn [has_char]; rewrite IH; [|done].
  by rewrite (proj2 (Ascii.eqb_neq "\" c)) by done.
Qed.

Lemma length_escape n : String.length n ≤ String.length (escape n).
Proof.
  induction n as [|c n IH]; [done|]. rewrite escape_cons. destruct (_ || _); simpl; lia.
Qed.

Lemma sdrop_stake i s : stake i s +:+ sdrop i s = s.
Proof.
  revert s; induction i as [|i IH]; intros [|c s]; try done. cbn [stake sdrop].
  rewrite cons_append. by rewrite IH.
Qed.

(** Positions as prefixes: the text before and after a position. *)
Lemma split_at i s r : sdrop i s = r → r ≠ "" → s = stake i s +:+ r ∧ String.length (stake i s) = i.
Proof.
  intros <- Hr. split; [symmetry; apply sdrop_stake|]. revert s Hr.
  induction i as [|i IH]; intros [|c s] Hr; try done. cbn in *. by rewrite IH.
Qed.

Lemma sdrop_at p r i : i = String.length p → sdrop i (p +:+ r) = r.
Proof. intros ->. apply sdrop_app. Qed.

Lemma has_char_false_app c s t :
  has_char c (s +:+ t) = false ↔ has_char c s = false ∧ has_char c t = false.
Proof. rewrite has_char_app. apply orb_false_iff. Qed.

Lemma snoc_append p c r : (p +:+ String c "") +:+ r = p +:+ String c r.
Proof. by rewrite append_assoc. Qed.
Lemma length_snoc p c : String.length (p +:+ String c "") = S (String.length p).
Proof. rewrite length_append. simpl. lia. Qed.

(** ** Searching *)

Lemma search_stop stop c s i :
  stop c = true → c ≠ "$"%char → search stop (String c s) i = (SChar c, i).
Proof. intros Hs Hc. cbn [search]. rewrite (proj2 (Ascii.eqb_neq c "$")) by done. by rewrite Hs. Qed.

Lemma search_skip stop c s i :
  stop c = false → c ≠ "$"%char → search stop (String c s) i = search stop s (S i).
Proof. intros Hs Hc. cbn [search]. rewrite (proj2 (Ascii.eqb_neq c "$")) by done. by rewrite Hs. Qed.

Lemma string_search_at p c s i :
  i = String.length p → is_in [quote; "'"; "\"]%char c = true → c ≠ "$"%char →
  string_special_search (p +:+ String c s) i = (SChar c, i).
Proof. intros -> Hc Hd. unfold string_special_search. rewrite sdrop_app. by apply search_stop. Qed.

Lemma string_search_next p c s i :
  i = String.length p → is_in [quote; "'"; "\"]%char c = false → c ≠ "$"%char →
  string_special_search (p +:+ String c s) i = string_special_search (p +:+ String c s) (S i).
Proof.
  intros -> Hc Hd. unfold string_special_search. rewrite sdrop_app.
  rewrite search_skip by done. f_equal. rewrite <- snoc_append.
  symmetry. apply sdrop_at. by rewrite length_snoc.
Qed.

(** ** Quoted strings *)

Section lex.
Context (environ : gmap string string) (uname_release : string).
Context (shell : string → string * string).
Context (user_functions : gmap string (nat * option nat * (list string → ST Kst string))).
Notation expand_str_loop := (expand_str_loop environ shell user_functions).
Notation quoted := (quoted environ uname_release shell user_functions).
Notation identifier := (identifier environ shell user_functions).
Notation tokenize_loop := (tokenize_loop environ uname_release shell user_functions).
Notation tokenize := (tokenize environ uname_release shell user_functions).
Notation eval_string := (eval_string environ uname_release shell user_functions).

(** Expanding an escaped string removes the backslashes in place. *)
Lemma expand_escaped n p rest fuel k :
  has_char "$" n = false → String.length (escape n) + 1 ≤ fuel →
  expand_str_loop fuel quote (p +:+ (escape n +:+ String quote rest)) (String.length p) k =
  Ok (p +:+ (n +:+ String quote rest), String.length p + String.length n + 1, k).
Proof.
  revert p fuel; induction n as [|c n IH]; intros p fuel Hd Hf.
  - destruct fuel as [|fuel]; [simpl in Hf; lia|]. cbn [KLex.expand_str_loop].
    change (escape "") with "". change ("" +:+ ?x) with x. rewrite string_search_at by done. cbn iota beta. rewrite Ascii.eqb_refl. unfold mret, ST_ret. do 3 f_equal. simpl. lia.
  - cbn [has_char] in Hd. apply orb_false_iff in Hd as [Hc Hd]. apply Ascii.eqb_neq in Hc.
    assert (∀ fuel, String.length (escape n) + 1 ≤ fuel →
      expand_str_loop fuel quote (p +:+ String c (escape n +:+ String quote rest))
        (S (String.length p)) k =
      Ok (p +:+ (String c n +:+ String quote rest), String.length p + S (String.length n) + 1, k))
      as Hnext.
    { intros f' Hf'. specialize (IH (p +:+ String c "") f' Hd Hf').
      rewrite !snoc_append, length_snoc in IH. rewrite IH, cons_append. do 2 f_equal. f_equal. lia. }
    cbn [String.length]. rewrite escape_cons in *.
    destruct (Ascii.eqb c quote || Ascii.eqb c "\") eqn:Esp.
    + destruct fuel as [|fuel]; [simpl in Hf; lia|]. cbn [KLex.expand_str_loop].
      rewrite !cons_append, string_search_at by done. cbn iota beta.
      replace (Ascii.eqb "\" quote) with false by done. rewrite Ascii.eqb_refl.
      rewrite stake_app. rewrite <- snoc_append. rewrite (sdrop_at (p +:+ _)) by (by rewrite length_snoc).
      apply Hnext. simpl in Hf. lia.
    + apply orb_false_iff in Esp as [E1 E2]. rewrite cons_append. cbn [String.length] in Hf.
      destruct fuel as [|fuel]; [lia|].
      destruct (Ascii.eqb c "'") eqn:E3.
      * apply Ascii.eqb_eq in E3 as ->. cbn [KLex.expand_str_loop].
        rewrite string_search_at by done. cbn iota beta. replace (Ascii.eqb "'" quote) with false by done.
        replace (Ascii.eqb "'" "\") with false by done. apply Hnext. lia.
      * pose proof (Hnext (S fuel)) as Hn1. pose proof (Hnext fuel) as Hn2.
        cbn [KLex.expand_str_loop] in Hn1 |- *.
        rewrite string_search_next; [|done|by cbn [is_in existsb]; rewrite E1, E2, E3|done].
        destruct (string_special_search _ (S _)) as [[d| |] j]; [|apply Hn1; lia..].
        destruct (Ascii.eqb d quote); [apply Hn1; lia|].
        destruct (Ascii.eqb d "\"); [apply Hn1; lia|]. apply Hn2. lia.
Qed.

Lemma replace_none fuel new s : has_char "$" s = false → replace_str fuel "$UNAME_RELEASE" new s = s.
Proof.
  revert s; induction fuel as [|fuel IH]; intros [|c s] H; try done. cbn [replace_str].
  cbn [has_char] in H. apply orb_false_iff in H as [Hc H].
  assert (startswith (String c s) "$UNAME_RELEASE" = false) as ->.
  { unfold startswith. cbn [String.prefix]. apply Ascii.eqb_neq in Hc.
    by destruct (Ascii.ascii_dec "$" c). }
  by rewrite IH.
Qed.

Lemma expandvars_none fuel s : has_char "$" s = false → expandvars environ fuel s = s.
Proof.
  revert s; induction fuel as [|fuel IH]; intros [|c s] H; try done. cbn [expandvars].
  cbn [has_char] in H. apply orb_false_iff in H as [-> H]. cbn [negb]. by rewrite IH.
Qed.

Lemma substr_mid p n r a b :
  a = String.length p → b = a + String.length n → substr (p +:+ (n +:+ r)) a b = n.
Proof.
  intros -> ->. unfold substr. rewrite sdrop_app.
  replace (String.length p + String.length n - String.length p) with (String.length n) by lia.
  apply stake_app.
Qed.

(** A quoted constant reads back as its name, and the scan goes on behind it. *)
Lemma quoted_reads n s i rest fuel k :
  sdrop i s = String quote (escape n +:+ String quote rest) → has_char "$" s = false →
  String.length (escape n) + 1 ≤ fuel →
  ∃ s' i', quoted fuel quote s i k = Ok (n, s', i', k) ∧ sdrop i' s' = rest ∧
    has_char "$" s' = false.
Proof.
  intros Hs Hd Hf. destruct (split_at _ _ _ Hs) as [Es Ei]; [done|].
  set (p := stake i s) in *.
  assert (has_char "$" n = false ∧ has_char "$" p = false ∧ has_char "$" rest = false) as (Hn & Hp & Hr).
  { rewrite Es in Hd. apply has_char_false_app in Hd as [Hp Hd]. cbn [has_char] in Hd.
    apply orb_false_iff in Hd as [_ Hd]. apply has_char_false_app in Hd as [Hn Hr].
    rewrite has_char_escape in Hn by done. cbn [has_char] in Hr. by apply orb_false_iff in Hr as [_ Hr]. }
  unfold KLex.quoted. rewrite Hd. cbn [negb andb].
  assert (s = (p +:+ String quote "") +:+ (escape n +:+ String quote rest)) as Es'
    by (by rewrite snoc_append).
  destruct (has_char "\" s) eqn:Eb; cbn [negb].
  - unfold expand_str. erewrite st_bind_run.
    2:{ rewrite Es'. replace (S i) with (String.length (p +:+ String quote "")) by (rewrite length_snoc; lia).
        apply expand_escaped; done. }
    cbn beta iota.
    rewrite (substr_mid (p +:+ String quote "") n (String quote rest));
      [|rewrite length_snoc; lia|rewrite ?length_snoc; lia].
    rewrite replace_none, expandvars_none by done. eexists _, _. split; [reflexivity|]. split.
    + rewrite <- append_assoc, <- (snoc_append ((p +:+ String quote "") +:+ n) quote rest).
      apply sdrop_at. rewrite !length_append. simpl. lia.
    + rewrite !has_char_app, Hp, Hn. cbn [has_char orb]. by rewrite Hr.
  - assert (has_char "\" (escape n) = false) as [En Eq]%escape_plain.
    { rewrite Es' in Eb. rewrite !has_char_app in Eb. apply orb_false_iff in Eb as [_ Eb].
      by apply orb_false_iff in Eb as [Eb _]. }
    rewrite En in *. unfold find_from. rewrite Es'. rewrite (sdrop_at (p +:+ _)) by (rewrite length_snoc; lia).
    rewrite index_of_app by done. cbn [fmap option_fmap option_map].
    eexists _, _. split; [unfold mret, ST_ret; do 3 f_equal|].
    + f_equal. apply substr_mid; [rewrite length_snoc; lia|done].
    + split; [|by rewrite <- Es'].
      rewrite <- append_assoc, <- (snoc_append ((p +:+ String quote "") +:+ n) quote rest). apply sdrop_at.
      rewrite !length_append. simpl. lia.
Qed.

(** ** One token at a time *)

(** What follows a token of a printed expression. *)
Definition boundary (r : string) : Prop :=
  r = "" ∨ ∃ c r', r = String c r' ∧ (c = " "%char ∨ c = ")"%char).

(** The text [w] gives the tokens [ts], whatever the context: the rest of the
    scan goes on behind [w] and the white space after it. *)
Definition lexes (k : Kst) (w : string) (ts : list tok) : Prop :=
  ∀ s i rest fuel prev,
    sdrop i s = w +:+ rest → boundary rest → has_char "$" s = false →
    String.length (w +:+ rest) + 2 ≤ fuel → tok_string_lex prev = false →
    ∃ s' i' fuel' prev',
      sdrop i' s' = lstrip rest ∧ has_char "$" s' = false ∧
      String.length (lstrip rest) + 2 ≤ fuel' ∧ tok_string_lex prev' = false ∧
      tokenize_loop fuel T_IF prev s i k =
      (tl ← tokenize_loop fuel' T_IF prev' s' i'; mret (ts ++ tl)) k.

(** Text that starts with a token other than [=]. *)
Definition start_ok (w : string) : Prop :=
  ∃ c w', w = String c w' ∧ is_space c = false ∧ c ≠ "="%char.

Definition nonspace (w : string) : Prop := ∃ c w', w = String c w' ∧ is_space c = false.

Lemma start_nonspace w : start_ok w → nonspace w.
Proof. intros (c & w' & ? & ? & ?). by exists c, w'. Qed.

Lemma span_lstrip s : (span is_space s).2 = lstrip s.
Proof.
  induction s as [|c s IH]; [done|]. cbn [span lstrip]. destruct (is_space c) eqn:E; [|done].
  rewrite <- IH. by destruct (span is_space s).
Qed.

Lemma span_split P s : (span P s).1 +:+ (span P s).2 = s.
Proof.
  induction s as [|c s IH]; [done|]. cbn [span]. destruct (P c); [|done].
  destruct (span P s) as [a b]. cbn [fst snd] in *. by rewrite cons_append, IH.
Qed.

Lemma sdrop_add a b s : sdrop (a + b) s = sdrop b (sdrop a s).
Proof. revert s; induction a as [|a IH]; intros [|c s]; simpl; [done..|by destruct b|apply IH]. Qed.

Lemma skip_space_lstrip s i : sdrop (skip_space s i) s = lstrip (sdrop i s).
Proof.
  unfold skip_space. rewrite sdrop_add, <- span_lstrip.
  rewrite <- (span_split is_space (sdrop i s)) at 2. apply sdrop_app.
Qed.

Lemma lstrip_start w r : nonspace w → lstrip (w +:+ r) = w +:+ r.
Proof. intros (c & w' & -> & Hc). rewrite cons_append. cbn [lstrip]. by rewrite Hc. Qed.

Lemma lstrip_length s : String.length (lstrip s) ≤ String.length s.
Proof. induction s as [|c s IH]; simpl; [lia|]. destruct (is_space c); simpl; lia. Qed.

Lemma bind_ret_app {A} (c : ST Kst (list A)) (l1 l2 : list A) k :
  (tl ← (tl ← c; mret (l2 ++ tl)); mret (l1 ++ tl)) k = (tl ← c; mret ((l1 ++ l2) ++ tl)) k.
Proof.
  unfold mbind, ST_bind, mret, ST_ret. destruct (c k) as [[l k']|]; [|done]. cbn.
  by rewrite app_assoc.
Qed.

Lemma bind_ret_cons {A} (c d : ST Kst (list A)) x l k :
  c k = (tl ← d; mret (l ++ tl)) k →
  (tl ← c; mret (x :: tl)) k = (tl ← d; mret ((x :: l) ++ tl)) k.
Proof.
  intros H. unfold mbind, ST_bind at 1. rewrite H. unfold mbind, ST_bind, mret, ST_ret.
  by destruct (d k) as [[tl k']|].
Qed.

(** Sequences. *)
Lemma lex_seq k w1 ts1 w2 ts2 :
  lexes k w1 ts1 → lexes k w2 ts2 → nonspace w2 → lexes k (w1 +:+ " " +:+ w2) (ts1 ++ ts2).
Proof.
  intros H1 H2 Hw s i rest fuel prev Hs Hb Hd Hf Hp.
  rewrite !append_assoc in Hs, Hf.
  destruct (H1 s i (" " +:+ w2 +:+ rest) fuel prev Hs) as (s1 & i1 & f1 & p1 & Hs1 & Hd1 & Hf1 & Hp1 & E1);
    [|done..|].
  { right. eexists _, _. split; [reflexivity|by left]. }
  change (lstrip (" " +:+ w2 +:+ rest)) with (lstrip (w2 +:+ rest)) in Hs1, Hf1.
  rewrite lstrip_start in Hs1, Hf1 by done.
  destruct (H2 s1 i1 rest f1 p1 Hs1 Hb Hd1 Hf1 Hp1) as (s2 & i2 & f2 & p2 & Hs2 & Hd2 & Hf2 & Hp2 & E2).
  exists s2, i2, f2, p2. split_and!; try done. rewrite E1.
  rewrite <- bind_ret_app. unfold mbind, ST_bind at 1. rewrite E2. done.
Qed.

(** An operator at the position. *)
Lemma op_step s i r kt n k fuel prev :
  sdrop i s = r → operator r = Some (Some (kt, n)) →
  (∃ c r', r = String c r' ∧ id_char c = false ∧ is_in [quote; "'"%char] c = false) →
  tokenize_loop (S fuel) T_IF prev s i k =
  (tl ← tokenize_loop fuel T_IF (TK kt) s (skip_space s (i + n)); mret (TK kt :: tl)) k.
Proof.
  intros Hs Ho (c & r' & -> & Hc & Hq). cbn [KLex.tokenize_loop]. rewrite Hs.
  assert (id_keyword_match s i = None) as ->.
  { unfold id_keyword_match. rewrite Hs. cbn [span]. rewrite Hc.
    by case_match. }
  by rewrite Hq, Ho.
Qed.

Lemma op_chars w : w ∈ ["&&"; "||"; "="; "!="; "<"; "<="; ">"; ">="; ")"; "("; "!"] →
  ∃ c w', w = String c w' ∧ id_char c = false ∧ is_in [quote; "'"%char] c = false.
Proof.
  rewrite !elem_of_cons, elem_of_nil. intros H.
  repeat (destruct H as [->|H]; [do 2 eexists; split; [reflexivity|done]|]). done.
Qed.

Lemma lex_op k w kt :
  w ∈ ["&&"; "||"; "="; "!="; "<"; "<="; ">"; ">="; ")"] → STRING_LEX kt = false →
  (∀ r, boundary r → operator (w +:+ r) = Some (Some (kt, String.length w))) →
  lexes k w [TK kt].
Proof.
  intros Hw Hk Ho s i rest [|fuel] prev Hs Hb Hd Hf Hp; [lia|].
  destruct (op_chars w) as (c & w' & Ew & Hc & Hq); [clear -Hw; set_solver|].
  exists s, (skip_space s (i + String.length w)), fuel, (TK kt).
  assert (sdrop (i + String.length w) s = rest) as Hr by (rewrite sdrop_add, Hs; apply sdrop_app).
  split_and!; try done.
  - by rewrite skip_space_lstrip, Hr.
  - pose proof (lstrip_length rest). rewrite length_append, Ew in Hf. simpl in Hf. lia.
  - rewrite (op_step s i (w +:+ rest) kt (String.length w)); [done|done|by apply Ho|].
    exists c, (w' +:+ rest). by rewrite Ew.
Qed.

Lemma lex_prefix k w kt w2 ts :
  w ∈ ["("; "!"] → STRING_LEX kt = false →
  (∀ r, start_ok r → operator (w +:+ r) = Some (Some (kt, String.length w))) →
  start_ok w2 → lexes k w2 ts → lexes k (w +:+ w2) (TK kt :: ts).
Proof.
  intros Hw Hk Ho Hst H2 s i rest [|fuel] prev Hs Hb Hd Hf Hp; [lia|]. rewrite append_assoc in Hs, Hf.
  destruct (op_chars w) as (c & w' & Ew & Hc & Hq); [clear -Hw; set_solver|].
  assert (sdrop (skip_space s (i + String.length w)) s = w2 +:+ rest) as Hr.
  { rewrite skip_space_lstrip, sdrop_add, Hs, sdrop_app. by apply lstrip_start, start_nonspace. }
  destruct (H2 s _ rest fuel (TK kt) Hr Hb Hd) as (s' & i' & f' & p' & ? & ? & ? & ? & E); [|done|].
  { rewrite length_append, Ew in Hf. simpl in Hf. lia. }
  exists s', i', f', p'. split_and!; try done.
  rewrite (op_step s i (w +:+ w2 +:+ rest) kt (String.length w)); [| |apply Ho|].
  - by apply bind_ret_cons.
  - done.
  - destruct Hst as (d & w2' & -> & ? & ?). exists d, (w2' +:+ rest). by rewrite cons_append.
  - exists c, (w' +:+ w2 +:+ rest). by rewrite Ew.
Qed.

Lemma lex_close k w ts : lexes k w ts → lexes k (w +:+ ")") (ts ++ [TK T_CLOSE_PAREN]).
Proof.
  intros H s i rest fuel prev Hs Hb Hd Hf Hp. rewrite append_assoc in Hs, Hf.
  destruct (H s i (")" +:+ rest) fuel prev Hs) as (s1 & i1 & f1 & p1 & Hs1 & Hd1 & Hf1 & Hp1 & E1);
    [|done..|].
  { right. eexists _, _. split; [reflexivity|by right]. }
  assert (lexes k ")" [TK T_CLOSE_PAREN]) as Hc.
  { apply lex_op; [set_solver|done|]. intros r [->|(c & r' & -> & [->| ->])]; done. }
  destruct (Hc s1 i1 rest f1 p1 Hs1 Hb Hd1 Hf1 Hp1) as (s2 & i2 & f2 & p2 & ? & ? & ? & ? & E2).
  exists s2, i2, f2, p2. split_and!; try done. rewrite E1, <- bind_ret_app.
  unfold mbind, ST_bind at 1. rewrite E2. done.
Qed.

(** ** Items *)

Fixpoint str_all (P : ascii → bool) (s : string) : bool :=
  match s with EmptyString => true | String c s => P c && str_all P s end.

Lemma span_all P w r :
  str_all P w = true → (∀ c r', r = String c r' → P c = false) → span P (w +:+ r) = (w, r).
Proof.
  intros Hw Hr. induction w as [|c w IH].
  - change ("" +:+ r) with r. destruct r as [|d r]; [done|]. cbn [span]. by rewrite (Hr d r).
  - cbn [str_all] in Hw. apply andb_true_iff in Hw as [Hc Hw]. rewrite cons_append. cbn [span].
    by rewrite Hc, IH.
Qed.

Lemma id_not_space c : id_char c = true → is_space c = false ∧ c ≠ "="%char.
Proof. by destruct c as [[] [] [] [] [] [] [] []]. Qed.

(** Names the tokenizer reads as one symbol. *)
Definition name_ok (n : string) : Prop :=
  n ≠ "" ∧ str_all id_char n = true ∧ has_char "$" n = false ∧ get_keyword n = None.

Lemma id_match_name n s i rest :
  name_ok n → sdrop i s = n +:+ rest → boundary rest →
  ∃ j, id_keyword_match s i = Some (n, j) ∧ sdrop j s = lstrip rest.
Proof.
  intros (Hne & Hall & _ & _) Hs Hb. unfold id_keyword_match. rewrite Hs.
  rewrite span_all; [|done|by intros c r' ->; destruct Hb as [|(? & ? & [= -> ->] & [->| ->])]].
  destruct (span is_space rest) as [w2 r2] eqn:Ew.
  apply String.eqb_neq in Hne as ->. eexists. split; [reflexivity|].
  rewrite !sdrop_add, Hs, sdrop_app, <- span_lstrip, Ew. rewrite <- (span_split is_space rest), Ew.
  apply sdrop_app.
Qed.

Lemma lex_name k n it :
  name_ok n →
  (match STR_TO_TRI n with Some _ => it = SymItem true n
   | None => it = SymItem false n ∧ n ∈ k_syms k end) →
  lexes k n [TSym it].
Proof.
  intros Hn Hit s i rest [|fuel] prev Hs Hb Hd Hf Hp; [lia|].
  destruct (id_match_name n s i rest Hn Hs Hb) as (j & Em & Hj).
  destruct Hn as (Hne & Hall & Hdol & Hkw).
  exists s, j, fuel, (TSym it). split_and!; try done.
  { pose proof (lstrip_length rest). rewrite length_append in Hf.
    destruct n; [done|]. simpl in Hf. lia. }
  assert (identifier fuel prev s n i j k = Ok (TSym it, s, j, k)) as Eid.
  { unfold KLex.identifier. rewrite Hkw, Hp. cbn [negb]. rewrite Hdol.
    unfold mbind, ST_bind, mret, ST_ret. cbn [res_bind fst snd].
    destruct (STR_TO_TRI n) as [t|]; [by subst it|]. destruct Hit as [-> Hin].
    unfold lookup_sym, st_get, mbind, ST_bind, mret, ST_ret. cbn [res_bind fst snd].
    by rewrite bool_decide_true by done. }
  cbn [KLex.tokenize_loop]. rewrite Hs. destruct n as [|c n]; [done|]. rewrite cons_append.
  rewrite Em. by rewrite (st_bind_run _ _ _ _ _ Eid).
Qed.

Lemma lex_quoted k n :
  has_char "$" n = false → k_parsing k = false →
  lexes k (String quote (escape n +:+ String quote "")) [TSym (SymItem true n)].
Proof.
  intros Hn Hk s i rest [|fuel] prev Hs Hb Hd Hf Hp; [lia|].
  rewrite cons_append, append_assoc in Hs, Hf. change (String quote "" +:+ rest) with (String quote rest) in *.
  destruct (quoted_reads n s i rest fuel k Hs Hd) as (s' & i' & Eq & Hi' & Hd').
  { cbn [String.length] in Hf. rewrite length_append in Hf. lia. }
  exists s', (skip_space s' i'), fuel, (TSym (SymItem true n)). split_and!; try done.
  { by rewrite skip_space_lstrip, Hi'. }
  { pose proof (lstrip_length rest). cbn [String.length] in Hf. rewrite length_append in Hf.
    simpl in Hf. lia. }
  cbn [KLex.tokenize_loop]. rewrite Hs.
  assert (id_keyword_match s i = None) as ->.
  { unfold id_keyword_match. rewrite Hs. reflexivity. }
  change (is_in [quote; "'"%char] quote) with true. cbn iota.
  rewrite (st_bind_run _ _ _ _ _ Eq). cbn beta iota. rewrite Hp.
  change (bool_decide (T_IF = T_OPTION)) with false. cbn [orb].
  unfold lookup_const_sym, mbind, ST_bind, mret, ST_ret, st_get. cbn. rewrite Hk.
  by case_bool_decide.
Qed.

(** ** Expressions *)

(** Items whose text reads back: registered symbols with a plain name, and
    constants without a dollar sign. *)
Definition item_ok (k : Kst) (i : item) : Prop :=
  match i with
  | SymItem false n => name_ok n ∧ STR_TO_TRI n = None ∧ n ∈ k_syms k
  | SymItem true n => has_char "$" n = false
  | ChoiceItem _ _ => False
  end.
Definition expr_ok (k : Kst) (e : expr) : Prop := Forall (item_ok k) (expr_items e).

Notation expr_text := (expr_str standard_sc_expr_str).

Lemma tri_name_ok n t : STR_TO_TRI n = Some t → name_ok n.
Proof.
  unfold STR_TO_TRI, name_ok. destruct (String.eqb_spec n "n") as [->|]; [intros _; by split_and!|].
  destruct (String.eqb_spec n "m") as [->|]; [intros _; by split_and!|].
  destruct (String.eqb_spec n "y") as [->|]; [intros _; by split_and!|done].
Qed.

Lemma name_start n : name_ok n → start_ok n.
Proof.
  intros (Hne & Hall & _). destruct n as [|c n]; [done|]. cbn [str_all] in Hall.
  apply andb_true_iff in Hall as [Hc _]. apply id_not_space in Hc as [? ?]. by exists c, n.
Qed.

Lemma lex_item k i :
  k_parsing k = false → item_ok k i →
  lexes k (standard_sc_expr_str i) [TSym i] ∧ start_ok (standard_sc_expr_str i).
Proof.
  intros Hk Hi. destruct i as [[] n|]; [| |done]; cbn [standard_sc_expr_str andb item_ok] in *.
  - case_bool_decide as Ht; cbn [negb].
    + destruct Ht as [t Ht]. pose proof (tri_name_ok _ _ Ht).
      split; [apply lex_name; [done|by rewrite Ht]|by apply name_start].
    + split; [by apply lex_quoted|]. eexists _, _. by split_and!.
  - destruct Hi as (Hn & Ht & Hin). split; [|by apply name_start].
    apply lex_name; [done|]. by rewrite Ht.
Qed.

Lemma start_app w r : start_ok w → start_ok (w +:+ r).
Proof. intros (c & w' & -> & ? & ?). exists c, (w' +:+ r). by rewrite cons_append. Qed.

Lemma lex_paren k (b : bool) w ts :
  lexes k w ts ∧ start_ok w → lexes k (paren b w) (ptoks b ts) ∧ start_ok (paren b w).
Proof.
  intros [H Hs]. destruct b; cbn [paren ptoks]; [|done]. split.
  - apply lex_prefix; [set_solver|done| |by apply start_app|by apply lex_close].
    intros r (c & r' & -> & _); reflexivity.
  - by exists "("%char, (w +:+ ")").
Qed.

Lemma lex_binop k w kt w1 ts1 w2 ts2 :
  w ∈ ["&&"; "||"; "="; "!="; "<"; "<="; ">"; ">="] → STRING_LEX kt = false →
  (∀ r, boundary r → operator (w +:+ r) = Some (Some (kt, String.length w))) →
  lexes k w1 ts1 → lexes k w2 ts2 → start_ok w2 →
  lexes k (w1 +:+ " " +:+ w +:+ " " +:+ w2) (ts1 ++ TK kt :: ts2).
Proof.
  intros Hw Hk Ho H1 H2 Hs2.
  change (ts1 ++ TK kt :: ts2) with (ts1 ++ ([TK kt] ++ ts2)).
  apply lex_seq; [done| |].
  - apply lex_seq; [|done|by apply start_nonspace]. apply lex_op; [clear -Hw; set_solver|done..].
  - clear -Hw. rewrite !elem_of_cons, elem_of_nil in Hw.
    repeat (destruct Hw as [->|Hw]; [do 2 eexists; split; [reflexivity|done]|]). done.
Qed.

(** Decides the operator at the head of a text with a known boundary. *)
Ltac operator_tac := intros r [->|(c & r' & -> & [->| ->])]; reflexivity.

Lemma not_op c r : c ≠ "="%char → operator (String "!" (String c r)) = Some (Some (T_NOT, 1)).
Proof.
  intros Hc. assert (startswith (String "!" (String c r)) "!=" = false) as E.
  { unfold startswith.
    change (String.prefix "!=" (String "!" (String c r)))
      with (if Ascii.ascii_dec "=" c then String.prefix "" r else false).
    by destruct (Ascii.ascii_dec "=" c). }
  unfold operator. by rewrite E.
Qed.

Lemma lex_expr k e :
  k_parsing k = false → expr_ok k e →
  lexes k (expr_text e) (etoks e) ∧ start_ok (expr_text e).
Proof.
  intros Hk. unfold expr_ok. induction e as [i|a IHa b IHb|a IHa b IHb|e IH|r i j]; cbn [expr_items].
  - intros [Hi _]%Forall_cons. exact (lex_item k i Hk Hi).
  - intros [Ha Hb]%Forall_app. cbn [expr_str etoks].
    destruct (lex_paren k (is_or a) _ _ (IHa Ha)) as [La Sa].
    destruct (lex_paren k (is_or b) _ _ (IHb Hb)) as [Lb Sb].
    split; [|by apply start_app]. apply (lex_binop k "&&" T_AND); [set_solver|done|operator_tac|done..].
  - intros [Ha Hb]%Forall_app. cbn [expr_str etoks].
    destruct (lex_paren k (is_and a) _ _ (IHa Ha)) as [La Sa].
    destruct (lex_paren k (is_and b) _ _ (IHb Hb)) as [Lb Sb].
    split; [|by apply start_app]. apply (lex_binop k "||" T_OR); [set_solver|done|operator_tac|done..].
  - intros He. destruct (lex_paren k (negb (is_item e)) _ _ (IH He)) as [Le Se].
    assert (expr_text (ENot e) = "!" +:+ paren (negb (is_item e)) (expr_text e)) as ->.
    { destruct e; done. }
    cbn [etoks]. split; [|by exists "!"%char, (paren (negb (is_item e)) (expr_text e))].
    apply lex_prefix; [set_solver|done| |done..].
    intros r (c & r' & -> & _ & Hc). rewrite cons_append.
    change ("" +:+ ?x) with x. apply not_op. congruence.
  - intros [Hi [Hj _]%Forall_cons]%Forall_cons. cbn [expr_str etoks].
    destruct (lex_item k i Hk Hi) as [Li Si]. destruct (lex_item k j Hk Hj) as [Lj Sj].
    split; [|by apply start_app].
    apply (lex_binop k (REL_TO_STR r) (rel_tok r) _ [TSym i] _ [TSym j]);
      [clear; destruct r; set_solver|by destruct r|destruct r; operator_tac|done..].
Qed.

Lemma tokenize_printed k e fuel :
  k_parsing k = false → expr_ok k e → has_char "$" (expr_text e) = false →
  String.length (expr_text e) + 2 ≤ fuel →
  ∃ k', tokenize fuel ("if " +:+ expr_text e) k = Ok (TK T_IF :: etoks e, k') ∧
    set_line ("if " +:+ expr_text e) k = Ok (tt, k').
Proof.
  intros Hk He Hd Hf. eexists. split; [|reflexivity]. unfold KLex.tokenize.
  rewrite (st_bind_run _ _ _ _ _ eq_refl).
  set (k' := mkKst _ _ _ _ _ _ _ _ _ _).
  destruct (lex_expr k' e) as [Hl Hs]; [done|done|].
  destruct Hs as (c & w & Ew & Hc & _). rewrite Ew in *.
  assert (command_match ("if " +:+ String c w) = Some ("if", 3)) as ->.
  { unfold command_match.
    change (span is_space ("if " +:+ String c w)) with ("", "if" +:+ (" " +:+ String c w)).
    cbv iota beta.
    rewrite (span_all command_char "if" (" " +:+ String c w)); [|done|by intros ?? [= <- <-]].
    cbv iota beta. by rewrite (span_all is_space " " (String c w)); [|done|by intros ?? [= <- <-]]. }
  change (get_keyword "if") with (Some T_IF). cbn iota.
  destruct (Hl ("if " +:+ String c w) 3 "" fuel (TK T_IF)) as (s' & i' & f' & p' & Hs' & _ & Hf' & _ & E).
  { by rewrite append_nil_r. }
  { by left. }
  { done. }
  { by rewrite append_nil_r. }
  { done. }
  unfold mbind at 1, ST_bind at 1. rewrite E.
  destruct f' as [|f']; [simpl in Hf'; lia|].
  unfold mbind, ST_bind, mret, ST_ret. cbn [KLex.tokenize_loop]. rewrite Hs'. cbn.
  by rewrite app_nil_r.
Qed.

End lex.


(** A simply expanded variable that refers to itself in its first assignment
    raises AttributeError instead of a Kconfig error: the variable is
    registered before its right-hand side is expanded and has no value yet. *)
Theorem self_reference_raises :
  let k := mkKst (Some "Kconfig") 1 "X := $(X)" true [] ∅ ∅ ∅ ∅ true in
  KLex.parse_assignment ∅ (λ _, ("", "")) ∅ 20 "X := $(X)" k = Err AttributeError ∧
  is_ok (KLex.parse_assignment ∅ (λ _, ("", "")) ∅ 20 "X := $(Y)" k) = true.
Proof. vm_compute. done. Qed.

End KLexSpec.
