(* ===== verification/KSym.v ===== *)
(** * tools/kconfig/kconfiglib.py: the values of symbols and choices

    The properties of [Symbol] and [Choice]: [visibility], [type],
    [tri_value], [str_value], [assignable], [selection], and the operations
    that change user values.  Properties refer to the properties of other
    items; each is a definition over a record [Vals] that answers those
    references, and [vals] ties the knot with fuel.

    The caches ([_cached_*]) are not part of the state: a property is
    recomputed from the configuration.  [_write_to_conf], which the source
    sets while computing a value, comes with the value.  Warnings are not
    modelled here. *)
From S2P Require Import Prelude Hex PyStr KExpr.

Module KSym.
Import Hex PyStr KExpr.

(** ** The configuration *)

(** A user value: a tristate number for bool and tristate symbols, text for
    the others. *)
Inductive uval := UTri (n : nat) | UStr (s : string).
#[global] Instance uval_eq_dec : EqDecision uval.
Proof. solve_decision. Defined.

(** [s_nodes] holds the prompt (text and condition) of each menu node. *)
Record Symbol := mkSymbol {
  s_orig_type : styp;
  s_nodes : list (option (string * expr));
  s_defaults : list (expr * expr);
  s_ranges : list (item * item * expr);
  s_rev_dep : expr;
  s_weak_rev_dep : expr;
  s_direct_dep : expr;
  s_choice : option nat;
  s_env_var : option string;
  s_user_value : option uval;
  s_was_set : bool
}.

(** Choice symbols and default symbols are given by name. *)
Record Choice := mkChoice {
  c_orig_type : styp;
  c_nodes : list (option (string * expr));
  c_syms : list string;
  c_defaults : list (string * expr);
  c_is_optional : bool;
  c_user_value : option nat;
  c_user_selection : option string;
  c_was_set : bool
}.

Record Conf := mkConf {
  cf_syms : gmap string Symbol;
  cf_choices : list Choice;
  cf_unique : list string;
  cf_defconfig_list : option string
}.

Definition set_user (s : Symbol) (u : option uval) (w : bool) : Symbol :=
  mkSymbol (s_orig_type s) (s_nodes s) (s_defaults s) (s_ranges s) (s_rev_dep s)
    (s_weak_rev_dep s) (s_direct_dep s) (s_choice s) (s_env_var s) u w.
Definition set_choice_user (c : Choice) (u : option nat) (sel : option string) (w : bool) : Choice :=
  mkChoice (c_orig_type c) (c_nodes c) (c_syms c) (c_defaults c) (c_is_optional c) u sel w.
Definition put_sym (C : Conf) (n : string) (s : Symbol) : Conf :=
  mkConf (<[n := s]> (cf_syms C)) (cf_choices C) (cf_unique C) (cf_defconfig_list C).
Definition put_choice (C : Conf) (id : nat) (c : Choice) : Conf :=
  mkConf (cf_syms C) (<[id := c]> (cf_choices C)) (cf_unique C) (cf_defconfig_list C).

(** ** Properties, given the properties of the items they refer to *)

(** [tri_value], [str_value], [visibility] of an item and [selection] of a
    choice. *)
Record Vals := mkVals {
  v_tri : item → res nat;
  v_str : item → res string;
  v_vis : item → res nat;
  v_sel : nat → res (option string)
}.

Section props.
Context (C : Conf) (V : Vals).

(** n, m and y are tristate constants; other constants and undefined symbols
    have no type. *)
Definition orig_type (i : item) : styp :=
  match i with
  | SymItem true n => if decide (is_Some (STR_TO_TRI n)) then TRISTATE else UNKNOWN
  | SymItem false n => match cf_syms C !! n with Some s => s_orig_type s | None => UNKNOWN end
  | ChoiceItem id _ => match cf_choices C !! id with Some c => c_orig_type c | None => UNKNOWN end
  end.

Definition env : Env := {| e_type := orig_type; e_tri := v_tri V; e_str := v_str V |}.
Definition value (e : expr) : res nat := expr_value env e.

(** [not x] of an integer *)
Definition zero (n : nat) : bool := Nat.eqb n 0.

(** *** type *)

Definition choice_item (id : nat) : item := ChoiceItem id None.

Definition sym_type (s : Symbol) : res styp :=
  match s_orig_type s with
  | TRISTATE =>
      let* in_y := match s_choice s with
                   | Some id => let* t := v_tri V (choice_item id) in Ok (Nat.eqb t 2)
                   | None => Ok false
                   end in
      if (in_y : bool) then Ok BOOL
      else let* m := v_tri V modules in Ok (if zero m then BOOL else TRISTATE)
  | t => Ok t
  end.

Definition choice_type (c : Choice) : res styp :=
  match c_orig_type c with
  | TRISTATE => let* m := v_tri V modules in Ok (if zero m then BOOL else TRISTATE)
  | t => Ok t
  end.

(** *** _visibility *)

Fixpoint prompts_vis (nodes : list (option (string * expr))) (vis : nat) : res nat :=
  match nodes with
  | [] => Ok vis
  | None :: nodes => prompts_vis nodes vis
  | Some (_, cond) :: nodes => let* v := value cond in prompts_vis nodes (Nat.max vis v)
  end.

(** Promote m to y for an item that is not tristate. *)
Definition promote_vis (vis : nat) (type : res styp) : res nat :=
  if Nat.eqb vis 1 then
    let* t := type in Ok (match t with TRISTATE => vis | _ => 2 end)
  else Ok vis.

(** Choice symbols: not visible when the mode of the choice rules them out. *)
Definition mode_hides (s : Symbol) (vis : nat) : res bool :=
  match s_choice s with
  | None => Ok false
  | Some id =>
      let ct := orig_type (choice_item id) in
      let* h1 := match ct, s_orig_type s with
                 | TRISTATE, TRISTATE => Ok false
                 | TRISTATE, _ => let* t := v_tri V (choice_item id) in Ok (negb (Nat.eqb t 2))
                 | _, _ => Ok false
                 end in
      if (h1 : bool) then Ok true else
      match s_orig_type s with
      | TRISTATE => if Nat.eqb vis 1 then
                      let* t := v_tri V (choice_item id) in Ok (Nat.eqb t 2) else Ok false
      | _ => Ok false
      end
  end.

Definition sym_visibility (s : Symbol) : res nat :=
  let* vis := prompts_vis (s_nodes s) 0 in
  let* hidden := mode_hides s vis in
  if (hidden : bool) then Ok 0 else promote_vis vis (sym_type s).

Definition choice_visibility (c : Choice) : res nat :=
  let* vis := prompts_vis (c_nodes c) 0 in promote_vis vis (choice_type c).

(** *** tri_value of a symbol, with [_write_to_conf] *)

(** The first default whose condition is met, limited by the condition. *)
Fixpoint tri_default (defaults : list (expr * expr)) : res (option nat) :=
  match defaults with
  | [] => Ok None
  | (d, cond) :: defaults =>
      let* c := value cond in
      if zero c then tri_default defaults
      else let* v := value d in Ok (Some (Nat.min v c))
  end.

(** Defaults and weak reverse dependencies: the value and whether it makes the
    symbol be written. *)
Definition default_or_imply (s : Symbol) : res (nat * bool) :=
  let* d := tri_default (s_defaults s) in
  let val := default 0 d in
  let* w := value (s_weak_rev_dep s) in
  if zero w then Ok (val, negb (zero val))
  else
    let* dd := value (s_direct_dep s) in
    if zero dd then Ok (val, negb (zero val)) else Ok (Nat.max w val, true).

(** m is promoted to y for bool symbols and symbols implied to y. *)
Definition promote_val (s : Symbol) (val : nat) : res nat :=
  if Nat.eqb val 1 then
    let* t := sym_type s in
    match t with
    | BOOL => Ok 2
    | _ => let* w := value (s_weak_rev_dep s) in Ok (if Nat.eqb w 2 then 2 else 1)
    end
  else Ok val.

Definition plain_tri_value (s : Symbol) (vis : nat) : res (nat * bool) :=
  let* vw :=
    match s_user_value s with
    | Some u =>
        if zero vis then default_or_imply s
        else match u with UTri n => Ok (Nat.min n vis, false) | UStr _ => Err TypeError end
    | None => default_or_imply s
    end in
  let '(val, w) := vw in
  let* r := value (s_rev_dep s) in
  (* the comparison of direct_dep with the reverse dependency only warns *)
  let* _ := if zero r then Ok 0 else value (s_direct_dep s) in
  let '(val, w) := if zero r then (val, w) else (Nat.max r val, true) in
  let* val := promote_val s val in
  Ok (val, negb (zero vis) || w).

Definition choice_sym_tri_value (n : string) (s : Symbol) (id vis : nat) : res (nat * bool) :=
  if Nat.eqb vis 2 then
    let* sel := v_sel V id in
    Ok (if decide (sel = Some n) then 2 else 0, true)
  else if zero vis then Ok (0, false)
  else
    Ok (match s_user_value s with
        | Some (UTri u) => if zero u then 0 else 1
        | Some (UStr u) => if String.eqb u "" then 0 else 1
        | None => 0
        end, true).

Definition sym_tri_value (n : string) (s : Symbol) : res (nat * bool) :=
  if negb (BOOL_TRISTATE (s_orig_type s)) then Ok (0, false)
  else
    let* vis := v_vis V (SymItem false n) in
    match s_choice s with
    | None => plain_tri_value s vis
    | Some id => choice_sym_tri_value n s id vis
    end.

(** *** str_value of a symbol, with [_write_to_conf] *)

(** [int(s, base) if _is_base_n(s, base) else 0] *)
Definition num_or_0 (base : Z) (s : string) : Z :=
  match int_base base s with Ok z => z | Err _ => 0 end.

(** [str_value] of a default: only symbols have one. *)
Definition expr_str_value (e : expr) : res string :=
  match e with EItem i => v_str V i | _ => Err AttributeError end.

Fixpoint active_range (base : Z) (ranges : list (item * item * expr)) : res (option (Z * Z)) :=
  match ranges with
  | [] => Ok None
  | (low, high, cond) :: ranges =>
      let* c := value cond in
      if zero c then active_range base ranges
      else
        let* l := v_str V low in
        let* h := v_str V high in
        Ok (Some (num_or_0 base l, num_or_0 base h))
  end.

Fixpoint str_default_value (defaults : list (expr * expr)) : res (option string) :=
  match defaults with
  | [] => Ok None
  | (d, cond) :: defaults =>
      let* c := value cond in
      if zero c then str_default_value defaults
      else let* v := expr_str_value d in Ok (Some v)
  end.

(** [hex(z)] *)
Definition py_hex (z : Z) : string :=
  if (z <? 0)%Z then "-0x" +:+ fmt_x 1 (- z) else "0x" +:+ fmt_x 1 z.

Definition clamp_text (t : styp) (z : Z) : string :=
  match t with INT => pretty z | _ => py_hex z end.

Definition in_range (r : option (Z * Z)) (z : Z) : bool :=
  match r with None => true | Some (l, h) => ((l <=? z) && (z <=? h))%Z end.

(** A value from the defaults: rewritten when it is outside the range. *)
Definition clamp (t : styp) (r : option (Z * Z)) (num : Z) (val : string) : string :=
  match r with
  | None => val
  | Some (l, h) => if (num <? l)%Z then clamp_text t l
                   else if (h <? num)%Z then clamp_text t h else val
  end.

Definition num_default (s : Symbol) (base : Z) (r : option (Z * Z)) : res (string * bool) :=
  let* d := str_default_value (s_defaults s) in
  match d with
  | Some v => Ok (clamp (s_orig_type s) r (num_or_0 base v) v, true)
  | None => Ok (clamp (s_orig_type s) r 0 "", false)
  end.

Definition int_hex_value (s : Symbol) (base : Z) (vis : nat) : res (string * bool) :=
  let* r := active_range base (s_ranges s) in
  match s_user_value s with
  | Some (UStr u) =>
      if zero vis || String.eqb u "" then num_default s base r
      else
        let* z := int_base base u in
        if in_range r z then Ok (u, false) else num_default s base r
  | Some (UTri _) => if zero vis then num_default s base r else Err TypeError
  | None => num_default s base r
  end.

Definition string_default (s : Symbol) : res (string * bool) :=
  let* d := str_default_value (s_defaults s) in
  Ok (default "" d, match d with Some _ => true | None => false end).

Definition string_value (s : Symbol) (vis : nat) : res (string * bool) :=
  match s_user_value s with
  | Some u =>
      if zero vis then string_default s
      else match u with UStr u => Ok (u, false) | UTri _ => Err TypeError end
  | None => string_default s
  end.

Definition sym_str_value (n : string) (s : Symbol) : res (string * bool) :=
  match s_orig_type s with
  | BOOL | TRISTATE => let* tw := sym_tri_value n s in Ok (TRI_TO_STR tw.1, tw.2)
  | UNKNOWN => Ok (n, false)
  | t =>
      let* vis := v_vis V (SymItem false n) in
      let* vw := match TYPE_TO_BASE t with
                 | Some base => if INT_HEX t then int_hex_value s base vis else string_value s vis
                 | None => Err (KeyError "type")
                 end in
      let auto := match s_env_var s with Some _ => true | None => false end ||
                  bool_decide (cf_defconfig_list C = Some n) in
      Ok (vw.1, if auto then false else negb (zero vis) || vw.2)
  end.

(** *** Choices *)

Definition choice_tri_value (id : nat) (c : Choice) : res nat :=
  let val := if c_is_optional c then 0 else 1 in
  let val := match c_user_value c with Some u => Nat.max val u | None => val end in
  let* vis := v_vis V (choice_item id) in
  let val := Nat.min val vis in
  if Nat.eqb val 1 then
    let* t := choice_type c in Ok (match t with BOOL => 2 | _ => val end)
  else Ok val.

Definition sym_item (n : string) : item := SymItem false n.

Fixpoint default_selection (defaults : list (string * expr)) : res (option string) :=
  match defaults with
  | [] => Ok None
  | (n, cond) :: defaults =>
      let* c := value cond in
      if zero c then default_selection defaults
      else
        let* v := v_vis V (sym_item n) in
        if zero v then default_selection defaults else Ok (Some n)
  end.

Fixpoint first_visible (syms : list string) : res (option string) :=
  match syms with
  | [] => Ok None
  | n :: syms => let* v := v_vis V (sym_item n) in
                 if zero v then first_visible syms else Ok (Some n)
  end.

Definition selection_from_defaults (c : Choice) : res (option string) :=
  let* d := default_selection (c_defaults c) in
  match d with Some n => Ok (Some n) | None => first_visible (c_syms c) end.

Definition selection (id : nat) (c : Choice) : res (option string) :=
  let* t := v_tri V (choice_item id) in
  if negb (Nat.eqb t 2) then Ok None
  else
    match c_user_selection c with
    | Some n =>
        let* v := v_vis V (sym_item n) in
        if zero v then selection_from_defaults c else Ok (Some n)
    | None => selection_from_defaults c
    end.

(** *** assignable *)

Definition implied_y (s : Symbol) : res bool :=
  let* w := value (s_weak_rev_dep s) in Ok (Nat.eqb w 2).
(** [self.type is BOOL or expr_value(self.weak_rev_dep) == 2] *)
Definition no_m (s : Symbol) : res bool :=
  let* t := sym_type s in
  match t with BOOL => Ok true | _ => implied_y s end.

Definition sym_assignable (n : string) (s : Symbol) : res (list nat) :=
  if negb (BOOL_TRISTATE (s_orig_type s)) then Ok []
  else
    let* vis := v_vis V (sym_item n) in
    if zero vis then Ok []
    else
      let* r := value (s_rev_dep s) in
      if Nat.eqb vis 2 then
        match s_choice s with
        | Some _ => Ok [2]
        | None =>
            if zero r then let* b := no_m s in Ok (if b : bool then [0; 2] else [0; 1; 2])
            else if Nat.eqb r 2 then Ok [2]
            else let* b := no_m s in Ok (if b : bool then [2] else [1; 2])
        end
      else if zero r then let* b := implied_y s in Ok (if b : bool then [0; 2] else [0; 1])
      else if Nat.eqb r 2 then Ok [2]
      else Ok [1].

Definition choice_assignable (id : nat) (c : Choice) : res (list nat) :=
  let* vis := v_vis V (choice_item id) in
  if zero vis then Ok []
  else if Nat.eqb vis 2 then
    let* t := choice_type c in
    Ok (match c_is_optional c, t with
        | false, BOOL => [2] | false, _ => [1; 2]
        | true, BOOL => [0; 2] | true, _ => [0; 1; 2] end)
  else Ok (if c_is_optional c then [0; 1] else [1]).

(** *** _str_default *)

Definition sym_str_default (s : Symbol) : res string :=
  if BOOL_TRISTATE (s_orig_type s) then
    match s_choice s with
    | Some _ => Ok "n"
    | None =>
        let* d := tri_default (s_defaults s) in
        let* r := value (s_rev_dep s) in
        let* w := value (s_weak_rev_dep s) in
        let val := Nat.max (Nat.max r w) (default 0 d) in
        if Nat.eqb val 1 then
          let* t := sym_type s in Ok (match t with BOOL => "y" | _ => "m" end)
        else Ok (TRI_TO_STR val)
    end
  else match s_orig_type s with
       | UNKNOWN => Ok ""
       | _ => let* d := str_default_value (s_defaults s) in Ok (default "" d)
       end.

(** *** Properties of any item *)

Definition item_tri (i : item) : res nat :=
  match i with
  | SymItem true n => Ok (default 0 (STR_TO_TRI n))
  | SymItem false n =>
      match cf_syms C !! n with
      | Some s => let* tw := sym_tri_value n s in Ok tw.1
      | None => Ok 0
      end
  | ChoiceItem id _ =>
      match cf_choices C !! id with Some c => choice_tri_value id c | None => Ok 0 end
  end.

Definition item_str (i : item) : res string :=
  match i with
  | SymItem true n => Ok n
  | SymItem false n =>
      match cf_syms C !! n with
      | Some s => let* vw := sym_str_value n s in Ok vw.1
      | None => Ok n
      end
  | ChoiceItem id _ => let* t := v_tri V (choice_item id) in Ok (TRI_TO_STR t)
  end.

Definition item_vis (i : item) : res nat :=
  match i with
  | SymItem true _ => Ok 0
  | SymItem false n =>
      match cf_syms C !! n with Some s => sym_visibility s | None => Ok 0 end
  | ChoiceItem id _ =>
      match cf_choices C !! id with Some c => choice_visibility c | None => Ok 0 end
  end.

Definition item_sel (id : nat) : res (option string) :=
  match cf_choices C !! id with Some c => selection id c | None => Ok None end.

Definition vals_step : Vals := mkVals item_tri item_str item_vis item_sel.
End props.

(** ** The properties, with fuel for the references *)

Definition no_vals : Vals :=
  mkVals (λ _, Err OutOfFuel) (λ _, Err OutOfFuel) (λ _, Err OutOfFuel) (λ _, Err OutOfFuel).

Fixpoint vals (C : Conf) (fuel : nat) : Vals :=
  match fuel with O => no_vals | S fuel => vals_step C (vals C fuel) end.

(** ** User values *)

(** [value in STR_TO_TRI] for a bool or tristate symbol *)
Definition tri_of (t : styp) (u : uval) : uval :=
  match u with
  | UStr x => if BOOL_TRISTATE t then match STR_TO_TRI x with Some n => UTri n | None => u end else u
  | UTri _ => u
  end.

Definition hex_ok (x : string) : bool :=
  match int16 x with Ok z => (0 <=? z)%Z | Err _ => false end.

Definition valid_value (t : styp) (u : uval) : bool :=
  match t, u with
  | BOOL, UTri n => Nat.eqb n 2 || Nat.eqb n 0
  | TRISTATE, UTri n => Nat.leb n 2
  | STRING, UStr _ => true
  | INT, UStr x => is_base_n x 10
  | HEX, UStr x => hex_ok x
  | _, _ => false
  end.

(** [Symbol.set_value]: whether the value was accepted, and the new
    configuration. *)
Definition set_value (C : Conf) (n : string) (u : uval) : bool * Conf :=
  match cf_syms C !! n with
  | None => (false, C)
  | Some s =>
      let u := tri_of (s_orig_type s) u in
      if bool_decide (s_user_value s = Some u) && bool_decide (s_choice s = None) then
        (true, put_sym C n (set_user s (s_user_value s) true))
      else if negb (valid_value (s_orig_type s) u) then (false, C)
      else
        let C := put_sym C n (set_user s (Some u) true) in
        match s_choice s with
        | Some id =>
            if decide (u = UTri 2) then
              match cf_choices C !! id with
              | Some c => (true, put_choice C id (set_choice_user c (c_user_value c) (Some n) true))
              | None => (true, C)
              end
            else (true, C)
        | None => (true, C)
        end
  end.

Definition unset_value (C : Conf) (n : string) : Conf :=
  match cf_syms C !! n with
  | Some s => match s_user_value s with
              | Some _ => put_sym C n (set_user s None (s_was_set s))
              | None => C end
  | None => C
  end.

(** [Choice.set_value] with a tristate value. *)
Definition choice_set_value (C : Conf) (id : nat) (v : nat) : bool * Conf :=
  match cf_choices C !! id with
  | None => (false, C)
  | Some c =>
      if bool_decide (c_user_value c = Some v) then
        (true, put_choice C id (set_choice_user c (c_user_value c) (c_user_selection c) true))
      else if valid_value (c_orig_type c) (UTri v) then
        (true, put_choice C id (set_choice_user c (Some v) (c_user_selection c) true))
      else (false, C)
  end.

Definition choice_unset_value (C : Conf) (id : nat) : Conf :=
  match cf_choices C !! id with
  | Some c =>
      match c_user_value c, c_user_selection c with
      | None, None => C
      | _, _ => put_choice C id (set_choice_user c None None (c_was_set c))
      end
  | None => C
  end.

End KSym.
