(* ===== verification/KSymSpec.v ===== *)
(** * Symbol and choice values: invariants and contracts

    User values stay valid for their type; [assignable] is exactly the set of
    values a user can give a symbol (but for one case); int and hex values
    stay in the active range. *)
From S2P Require Import Prelude Hex PyStr KExpr KSym KParseSpec.

Module KSymSpec.
Import Hex PyStr KExpr KSym KParseSpec.

(** ** The state machine of user values *)

(** One operation of the interface on a configuration. *)
Inductive conf_step (C : Conf) : Conf → Prop :=
  | step_set n u : conf_step C (set_value C n u).2
  | step_unset n : conf_step C (unset_value C n)
  | step_choice_set id v : conf_step C (choice_set_value C id v).2
  | step_choice_unset id : conf_step C (choice_unset_value C id).

(** User values have the form their type asks for, and the user selection of
    a choice is one of its symbols. *)
Definition sym_ok (s : Symbol) : Prop :=
  ∀ u, s_user_value s = Some u → valid_value (s_orig_type s) u = true.
Record conf_ok (C : Conf) : Prop := {
  ok_syms n s : cf_syms C !! n = Some s → sym_ok s;
  ok_choices id c : cf_choices C !! id = Some c →
    (∀ v, c_user_value c = Some v → valid_value (c_orig_type c) (UTri v) = true) ∧
    (∀ n, c_user_selection c = Some n →
       ∃ s, cf_syms C !! n = Some s ∧ s_choice s = Some id)
}.

(** What a user value never changes. *)
Definition same_defs (s s' : Symbol) : Prop := s' = set_user s (s_user_value s') (s_was_set s').

Lemma same_defs_choice s s' : same_defs s s' → s_choice s' = s_choice s.
Proof. intros ->. done. Qed.

Lemma put_sym_ok C n s s' :
  conf_ok C → cf_syms C !! n = Some s → same_defs s s' → sym_ok s' → conf_ok (put_sym C n s').
Proof.
  intros [Hs Hc] Hn Hd Ho. split; cbn [put_sym cf_syms cf_choices].
  - intros m t. rewrite lookup_insert_Some. intros [[<- <-]|[_ ?]]; [done|by eapply Hs].
  - intros id c Hid. destruct (Hc id c Hid) as [H1 H2]. split; [done|]. intros m Hm.
    destruct (H2 m Hm) as (t & Ht & Hch). destruct (decide (n = m)) as [<-|].
    + exists s'. rewrite lookup_insert_eq. split; [done|]. simplify_eq.
      by rewrite (same_defs_choice _ _ Hd).
    + exists t. by rewrite lookup_insert_ne.
Qed.

Lemma put_choice_ok C id c :
  conf_ok C →
  (∀ v, c_user_value c = Some v → valid_value (c_orig_type c) (UTri v) = true) →
  (∀ n, c_user_selection c = Some n → ∃ s, cf_syms C !! n = Some s ∧ s_choice s = Some id) →
  conf_ok (put_choice C id c).
Proof.
  intros [Hs Hc] H1 H2. split; cbn [put_choice cf_syms cf_choices]; [done|].
  intros j d. rewrite list_lookup_insert_Some. intros [(<- & <- & _)|[_ ?]]; [done|by eapply Hc].
Qed.

Lemma set_value_ok C n u : conf_ok C → conf_ok (set_value C n u).2.
Proof.
  intros Hok. unfold set_value. destruct (cf_syms C !! n) as [s|] eqn:Es; [|done].
  set (u' := tri_of _ u). destruct (bool_decide _ && bool_decide _).
  { cbn [snd]. eapply put_sym_ok; try done. intros x Hx. by apply (ok_syms C Hok n s Es). }
  destruct (valid_value (s_orig_type s) u') eqn:Ev; cbn [negb]; [|done].
  assert (conf_ok (put_sym C n (set_user s (Some u') true))) as Hput.
  { eapply put_sym_ok; try done. by intros x [= <-]. }
  destruct (s_choice s) as [id|] eqn:Ech; [|done]. case_decide; [|done].
  destruct (cf_choices (put_sym C n _) !! id) as [c|] eqn:Ec; [|done]. cbn [snd].
  apply put_choice_ok; [done| |]; cbn.
  - by apply (ok_choices _ Hput id c Ec).
  - intros m [= <-]. exists (set_user s (Some u') true). by rewrite lookup_insert_eq.
Qed.

Lemma unset_value_ok C n : conf_ok C → conf_ok (unset_value C n).
Proof.
  intros Hok. unfold unset_value. destruct (cf_syms C !! n) as [s|] eqn:Es; [|done].
  destruct (s_user_value s); [|done]. eapply put_sym_ok; try done.
Qed.

Lemma choice_set_value_ok C id v : conf_ok C → conf_ok (choice_set_value C id v).2.
Proof.
  intros Hok. unfold choice_set_value. destruct (cf_choices C !! id) as [c|] eqn:Ec; [|done].
  destruct (ok_choices C Hok id c Ec) as [H1 H2].
  case_bool_decide; [by apply put_choice_ok|].
  destruct (valid_value _ _) eqn:Ev; [|done]. apply put_choice_ok; [done| |done].
  cbn. by intros w [= <-].
Qed.

Lemma choice_unset_value_ok C id : conf_ok C → conf_ok (choice_unset_value C id).
Proof.
  intros Hok. unfold choice_unset_value. destruct (cf_choices C !! id) as [c|] eqn:Ec; [|done].
  destruct (c_user_value c), (c_user_selection c); try done; by apply put_choice_ok.
Qed.

(** C19.  Whatever sequence of set_value and unset_value calls on symbols and
    choices, user values keep the form of their symbol's type, and a choice's
    user selection is one of its own symbols. *)
Theorem user_values_valid C C' : conf_ok C → rtc conf_step C C' → conf_ok C'.
Proof.
  intros Hok Hr. induction Hr as [|C C1 C2 Hstep _ IH]; [done|]. apply IH.
  destruct Hstep;
    auto using set_value_ok, unset_value_ok, choice_set_value_ok, choice_unset_value_ok.
Qed.

(** ** assignable *)

(** The properties of other items are tristate values. *)
Record vals_tri (V : Vals) : Prop := {
  vt_tri i v : v_tri V i = Ok v → v ≤ 2;
  vt_vis i v : v_vis V i = Ok v → v ≤ 2
}.

Section assignable.
Context (C : Conf) (V : Vals) (HV : vals_tri V).

Lemma env_tri : tri_env (env C V).
Proof using HV. intros i v. apply (vt_tri V HV). Qed.

Lemma value_tri e v : value C V e = Ok v → v ≤ 2.
Proof using HV. apply expr_value_tri, env_tri. Qed.

(** What assigning [u] to a visible symbol outside choices gives, in terms of
    the values the symbol depends on. *)
Definition assigned (u vis r w : nat) (is_bool : bool) : nat :=
  let val := Nat.max r (Nat.min u vis) in
  if Nat.eqb val 1 && (is_bool || Nat.eqb w 2) then 2 else val.

Lemma sym_type_user s u f : sym_type V (set_user s u f) = sym_type V s.
Proof. done. Qed.

Lemma assigned_value n s u vis r w d t :
  BOOL_TRISTATE (s_orig_type s) = true → s_choice s = None →
  v_vis V (sym_item n) = Ok vis → vis ≠ 0 →
  value C V (s_rev_dep s) = Ok r → value C V (s_weak_rev_dep s) = Ok w →
  value C V (s_direct_dep s) = Ok d → sym_type V s = Ok t →
  sym_tri_value C V n (set_user s (Some (UTri u)) true) =
  Ok (assigned u vis r w (bool_decide (t = BOOL)), true).
Proof using HV.
  intros Ht Hc Hv Hv0 Hr Hw Hd Hty. unfold sym_tri_value. cbn [s_orig_type set_user s_choice].
  rewrite Ht. cbn [negb]. change (SymItem false n) with (sym_item n). rewrite Hv. cbn [res_bind].
  rewrite Hc. unfold plain_tri_value. cbn [s_user_value set_user].
  assert (zero vis = false) as Ez by (by apply Nat.eqb_neq). rewrite Ez. cbn [res_bind].
  change (s_rev_dep (set_user s (Some (UTri u)) true)) with (s_rev_dep s).
  change (s_direct_dep (set_user s (Some (UTri u)) true)) with (s_direct_dep s).
  rewrite Hr. cbn [res_bind]. rewrite Hd.
  assert (∀ val, promote_val C V (set_user s (Some (UTri u)) true) val =
    Ok (if Nat.eqb val 1 && (bool_decide (t = BOOL) || Nat.eqb w 2) then 2 else val)) as Hpr.
  { intros val. unfold promote_val. destruct (Nat.eqb_spec val 1) as [->|]; [|done].
    rewrite sym_type_user, Hty. cbn [res_bind].
    change (s_weak_rev_dep (set_user s _ _)) with (s_weak_rev_dep s). rewrite Hw.
    destruct t; cbn; by destruct (Nat.eqb w 2). }
  unfold assigned. destruct (zero r) eqn:Er; cbn [res_bind]; rewrite Hpr; cbn [res_bind negb orb];
    [|done].
  apply Nat.eqb_eq in Er as ->. rewrite Nat.max_0_l. done.
Qed.

(** The visibility the symbol really has limits what it can be: m visibility
    only occurs for tristate symbols. *)
Definition vis_typed (vis : nat) (t : styp) : Prop := vis = 1 → t = TRISTATE.

Lemma assignable_value n s vis r w t :
  BOOL_TRISTATE (s_orig_type s) = true → s_choice s = None →
  v_vis V (sym_item n) = Ok vis → vis ≠ 0 →
  value C V (s_rev_dep s) = Ok r → value C V (s_weak_rev_dep s) = Ok w → sym_type V s = Ok t →
  sym_assignable C V n s =
  Ok (let no_m := bool_decide (t = BOOL) || Nat.eqb w 2 in
      if Nat.eqb vis 2 then
        match r with
        | 0 => if no_m then [0; 2] else [0; 1; 2]
        | 2 => [2]
        | _ => if no_m then [2] else [1; 2]
        end
      else match r with 0 => if Nat.eqb w 2 then [0; 2] else [0; 1] | 2 => [2] | _ => [1] end).
Proof using HV.
  intros Ht Hc Hv Hv0 Hr Hw Hty. unfold sym_assignable. rewrite Ht. cbn [negb].
  rewrite Hv. cbn [res_bind]. assert (zero vis = false) as -> by (by apply Nat.eqb_neq).
  rewrite Hr. cbn [res_bind]. rewrite Hc. unfold no_m, implied_y. rewrite Hty, Hw. cbn [res_bind].
  assert (match t with BOOL => Ok true | _ => Ok (Nat.eqb w 2) end =
          Ok (bool_decide (t = BOOL) || Nat.eqb w 2)) as -> by (by destruct t).
  pose proof (value_tri _ _ Hr). destruct r as [|[|[|r]]]; [..|lia]; cbn;
    by destruct (Nat.eqb vis 2).
Qed.
End assignable.

(** C20.  [assignable] of a visible bool or tristate symbol outside choices
    lists exactly the values the symbol can be given: setting a value of the
    list gives the symbol that value, and setting any tristate value leaves
    the symbol with a value of the list.  Excluded is a symbol of visibility m
    that is m-selected and y-implied. *)
Theorem assignable_exact C V n s vis r w d t l :
  vals_tri V → BOOL_TRISTATE (s_orig_type s) = true → s_choice s = None →
  v_vis V (sym_item n) = Ok vis → vis ≠ 0 →
  value C V (s_rev_dep s) = Ok r → value C V (s_weak_rev_dep s) = Ok w →
  value C V (s_direct_dep s) = Ok d → sym_type V s = Ok t → vis_typed vis t →
  ¬ (vis = 1 ∧ r = 1 ∧ w = 2) →
  sym_assignable C V n s = Ok l →
  (∀ v, v ∈ l → sym_tri_value C V n (set_user s (Some (UTri v)) true) = Ok (v, true)) ∧
  (∀ u, ∃ v, sym_tri_value C V n (set_user s (Some (UTri u)) true) = Ok (v, true) ∧ v ∈ l).
Proof.
  intros HV Ht Hc Hv Hv0 Hr Hw Hd Hty Hvt Hex Hl.
  rewrite (assignable_value C V HV n s vis r w t) in Hl by done. injection Hl as <-.
  pose proof (vt_vis V HV _ _ Hv) as Bv. pose proof (value_tri C V HV _ _ Hr) as Br.
  pose proof (value_tri C V HV _ _ Hw) as Bw.
  assert (vis = 1 → bool_decide (t = BOOL) = false) as Hb.
  { intros E1. rewrite (Hvt E1). done. }
  assert (∀ u, sym_tri_value C V n (set_user s (Some (UTri u)) true) =
    Ok (assigned u vis r w (bool_decide (t = BOOL)), true)) as Has
    by (intros u; by apply (assigned_value C V HV n s u vis r w d t)).
  revert Has Hb. generalize (bool_decide (t = BOOL)). clear -Hv0 Hex Bv Br Bw. intros b Has Hb.
  assert (r = 0 ∨ r = 1 ∨ r = 2) as Hr3 by lia. assert (w = 0 ∨ w = 1 ∨ w = 2) as Hw3 by lia.
  assert (vis = 1 ∨ vis = 2) as Hv2 by lia. split.
  - intros v Hin. rewrite Has. do 2 f_equal.
    assert (v = 0 ∨ v = 1 ∨ v = 2) as Hv3.
    { destruct Hv2 as [->| ->], Hr3 as [->|[->| ->]], Hw3 as [->|[->| ->]], b; cbn in Hin; set_solver. }
    destruct Hv2 as [->| ->]; [rewrite (Hb eq_refl) in *|]; clear Hb;
    destruct Hr3 as [->|[->| ->]], Hw3 as [->|[->| ->]], b, Hv3 as [->|[->| ->]];
      cbn in *; first [done | lia | set_solver].
  - intros u. exists (assigned u vis r w b). split; [apply Has|].
    assert (Nat.min u vis = 0 ∨ Nat.min u vis = 1 ∨ (vis = 2 ∧ Nat.min u vis = 2)) as Hu3 by lia.
    unfold assigned.
    destruct Hv2 as [->| ->]; [rewrite (Hb eq_refl) in *|]; clear Hb;
    destruct Hr3 as [->|[->| ->]], Hw3 as [->|[->| ->]], b, Hu3 as [->|[->|[? ->]]];
      cbn in *; first [done | lia | set_solver].
Qed.

(** A configuration with MODULES on and one tristate symbol S. *)
Definition demo_sym (t : styp) (prompt : option expr) (rev weak : expr)
    (defaults : list (expr * expr)) : Symbol :=
  mkSymbol t [(λ c, ("prompt", c)) <$> prompt] defaults [] rev weak ky None None None false.
Definition demo_conf (s : Symbol) : Conf :=
  mkConf (<["MODULES" := demo_sym BOOL None kn kn [(ky, ky)]]> (<["S" := s]> ∅)) []
    ["MODULES"; "S"] None.

Lemma assignable_exact_witness :
  let s := demo_sym TRISTATE (Some ky) km kn [] in
  let V := mkVals (λ i, Ok (match i with SymItem true n => default 0 (STR_TO_TRI n) | _ => 2 end))
             (λ _, Ok "") (λ _, Ok 2) (λ _, Ok None) in
  sym_assignable (demo_conf s) V "S" s = Ok [1; 2] ∧
  sym_tri_value (demo_conf s) V "S" (set_user s (Some (UTri 1)) true) = Ok (1, true).
Proof.
  intros s V. assert (vals_tri V) as HV.
  { split; [|intros i v [= <-]; lia]. intros [[] n|id n] v; cbn -[STR_TO_TRI]; intros [= <-];
      [|lia..]. unfold STR_TO_TRI. repeat case_match; simpl; lia. }
  split; [reflexivity|].
  apply (assignable_exact (demo_conf s) V "S" s 2 1 0 2 TRISTATE [1; 2]);
    [exact HV|reflexivity|reflexivity|reflexivity|lia|reflexivity|reflexivity|reflexivity
    |reflexivity|intros ?; lia|lia|reflexivity|set_solver].
Defined.

Lemma user_values_valid_witness :
  let C := demo_conf (demo_sym TRISTATE (Some ky) kn kn []) in
  conf_ok (unset_value (set_value C "S" (UStr "m")).2 "MODULES") ∧
  (set_value C "S" (UStr "m")).1 = true ∧ (set_value C "S" (UStr "maybe")).1 = false.
Proof.
  intros C. assert (conf_ok C) as HC.
  { split; [|by intros id c]. intros n s H u Hu. unfold C, demo_conf in H. cbn [cf_syms] in H.
    apply lookup_insert_Some in H as [[_ <-]|[_ H]]; [done|].
    apply lookup_insert_Some in H as [[_ <-]|[_ H]]; [done|]. by rewrite lookup_empty in H. }
  split; [|split; vm_compute; reflexivity].
  apply (user_values_valid C); [exact HC|].
  eapply rtc_l; [apply (step_set C "S" (UStr "m"))|]. apply rtc_once. constructor.
Defined.

(** In the excluded case [assignable] is wrong: a tristate symbol with
    visibility m that is selected to m and implied to y lists m as its only
    value, and setting it to m makes it y. *)
Theorem assignable_m_not_assignable :
  let s := demo_sym TRISTATE (Some km) km ky [] in
  let C := demo_conf s in
  sym_assignable C (vals C 10) "S" s = Ok [1] ∧
  (set_value C "S" (UTri 1)).1 = true ∧
  v_tri (vals (set_value C "S" (UTri 1)).2 10) (sym_item "S") = Ok 2.
Proof. vm_compute. done. Qed.

(** ** Ranges *)

(** The number a value stands for, as the range check reads it. *)
Definition num_value (t : styp) (s : string) : Z := num_or_0 (if decide (t = HEX) then 16 else 10) s.

Lemma num_or_0_clamp t z :
  INT_HEX t = true → num_or_0 (if decide (t = HEX) then 16 else 10) (clamp_text t z) = z.
Proof.
  intros Ht. unfold num_or_0, int_base. destruct t; try done; cbn.
  - by rewrite int10_pretty.
  - unfold py_hex. destruct (Z.ltb_spec z 0); 
      [rewrite int16_neg_0x by lia; apply Z.opp_involutive|by rewrite int16_0x by lia].
Qed.

Lemma clamp_in_range t l h num val :
  INT_HEX t = true → (l ≤ h)%Z → num_value t val = num →
  (l ≤ num_value t (clamp t (Some (l, h)) num val) ≤ h)%Z.
Proof.
  intros Ht Hlh Hn. unfold clamp. destruct (Z.ltb_spec num l).
  - unfold num_value. rewrite num_or_0_clamp by done. lia.
  - destruct (Z.ltb_spec h num); [unfold num_value; rewrite num_or_0_clamp by done; lia|lia].
Qed.

(** C27.  An int or hex symbol with an active range [l, h] has a value in the
    range, read as the number it stands for: a user value outside it is
    dropped for the default, and a default outside it is clamped. *)
Theorem int_hex_in_range C V n s base l h v w :
  INT_HEX (s_orig_type s) = true → TYPE_TO_BASE (s_orig_type s) = Some base →
  active_range C V base (s_ranges s) = Ok (Some (l, h)) → (l ≤ h)%Z →
  sym_str_value C V n s = Ok (v, w) →
  (l ≤ num_value (s_orig_type s) v ≤ h)%Z.
Proof.
  intros Ht Hb Hr Hlh Hv.
  assert (base = if decide (s_orig_type s = HEX) then 16 else 10)%Z as Eb
    by (destruct (s_orig_type s); try done; by injection Hb as <-).
  assert (∃ vis w', int_hex_value C V s base vis = Ok (v, w')) as (vis & w' & Hi).
  { unfold sym_str_value in Hv. destruct (s_orig_type s) eqn:Et; try done;
      apply res_bind_ok in Hv as (vis & _ & Hv); apply res_bind_ok in Hv as ([v' w'] & Hi & Hv);
      rewrite Hb in Hi; cbn in Hi, Hv; injection Hv as -> _; exists vis, w'; done. }
  assert (num_default C V s base (Some (l, h)) = Ok (v, w') →
          (l ≤ num_value (s_orig_type s) v ≤ h)%Z) as Hdef.
  { unfold num_default. intros (d & Hd & E)%res_bind_ok.
    destruct d as [x|]; injection E as <- <-; apply clamp_in_range; try done.
    - unfold num_value. by rewrite <- Eb.
    - unfold num_value. by destruct (decide _). }
  unfold int_hex_value in Hi. rewrite Hr in Hi. cbn [res_bind] in Hi.
  destruct (s_user_value s) as [[u|u]|]; [by destruct (zero vis); [apply Hdef|]| |by apply Hdef].
  destruct (zero vis || String.eqb u ""); [by apply Hdef|].
  apply res_bind_ok in Hi as (z & Hz & Hi). destruct (in_range (Some (l, h)) z) eqn:Ein; [|by apply Hdef].
  injection Hi as <- _. unfold num_value, num_or_0. rewrite <- Eb, Hz. cbn in Ein. lia.
Qed.

Lemma int_hex_in_range_witness :
  let s := mkSymbol HEX [Some ("p", ky)] [(EItem (SymItem true "0x5"), ky)]
             [(SymItem true "0x10", SymItem true "0x20", ky)] kn kn ky None None
             (Some (UStr "0x30")) true in
  let C := mkConf (<["X" := s]> ∅) [] ["X"] None in
  sym_str_value C (vals C 5) "X" s = Ok ("0x10", true) ∧ (16 ≤ num_value HEX "0x10" ≤ 32)%Z.
Proof.
  intros s C. split; [vm_compute; reflexivity|].
  apply (int_hex_in_range C (vals C 5) "X" s 16 16 32 "0x10" true);
    [reflexivity|reflexivity|vm_compute; reflexivity|lia|vm_compute; reflexivity].
Defined.

End KSymSpec.
