(* ===== verification/KFix.v ===== *)
(** * Fuel: more of it changes no value

    [vals C n] answers property references with [n] levels of recursion.  A
    value it gives (or an exception it raises) is the one every larger [n]
    gives, and where [n] levels suffice for every item the answers are a fixed
    point of the property definitions: what the mutually recursive properties
    of the source compute.  The choice contract is stated for such a fixed
    point. *)
From S2P Require Import Prelude Hex PyStr KExpr KSym KParseSpec KSymSpec.

Module KFix.
Import Hex PyStr KExpr KSym KParseSpec KSymSpec.

(** ** Results with less and more fuel *)

Definition rle {A} (r1 r2 : res A) : Prop := r1 = Err OutOfFuel ∨ r2 = r1.
Record vle (V1 V2 : Vals) : Prop := {
  vle_tri i : rle (v_tri V1 i) (v_tri V2 i);
  vle_str i : rle (v_str V1 i) (v_str V2 i);
  vle_vis i : rle (v_vis V1 i) (v_vis V2 i);
  vle_sel i : rle (v_sel V1 i) (v_sel V2 i)
}.

Create HintDb rle discriminated.

Lemma rle_refl {A} (r : res A) : rle r r.
Proof. by right. Qed.
Lemma rle_bottom {A} (r : res A) : rle (Err OutOfFuel) r.
Proof. by left. Qed.
Lemma rle_bind {A B} (m1 m2 : res A) (k1 k2 : A → res B) :
  rle m1 m2 → (∀ a, rle (k1 a) (k2 a)) → rle (res_bind m1 k1) (res_bind m2 k2).
Proof. intros [->| ->] Hk; [by left|]. destruct m1 as [a|e]; [apply Hk|by right]. Qed.

#[export] Hint Resolve rle_refl rle_bottom vle_tri vle_str vle_vis vle_sel : rle.

(** Follows the structure of a definition. *)
Ltac rle_step :=
  match goal with
  | |- rle (res_bind _ _) (res_bind _ _) => apply rle_bind; [|intros ?]
  | |- rle ?a ?a => apply rle_refl
  | |- rle (if ?b then _ else _) _ => destruct b
  | |- rle (match ?x with _ => _ end) (match ?x with _ => _ end) => destruct x
  end.
Ltac rle_solve := repeat (first [solve [eauto 3 with rle] | rle_step]).

Section mono.
Context (C : Conf) (V1 V2 : Vals) (HV : vle V1 V2).

Lemma sym_to_num_mono i : rle (sym_to_num (env C V1) i) (sym_to_num (env C V2) i).
Proof using HV. unfold sym_to_num. cbn [env e_type e_tri e_str]. rle_solve. Qed.

Lemma by_strcmp_mono i j : rle (by_strcmp (env C V1) i j) (by_strcmp (env C V2) i j).
Proof using HV. unfold by_strcmp. cbn [env e_type e_tri e_str]. rle_solve. Qed.

Lemma compare_mono i j : rle (compare_items (env C V1) i j) (compare_items (env C V2) i j).
Proof using HV.
  unfold compare_items. cbn [env e_type]. case_decide; [apply by_strcmp_mono|].
  assert (rle (let* a := sym_to_num (env C V1) i in let* b := sym_to_num (env C V1) j in Ok (a - b)%Z)
              (let* a := sym_to_num (env C V2) i in let* b := sym_to_num (env C V2) j in Ok (a - b)%Z))
    as [->| ->].
  { apply rle_bind; [apply sym_to_num_mono|intros a]. apply rle_bind; [apply sym_to_num_mono|].
    intros b. apply rle_refl. }
  - by left.
  - destruct (let* a := sym_to_num (env C V1) i in _) as [z|[]]; try apply rle_refl.
    apply by_strcmp_mono.
Qed.

Lemma value_mono e : rle (value C V1 e) (value C V2 e).
Proof using HV.
  unfold value. induction e; cbn [expr_value].
  - apply vle_tri, HV.
  - rle_solve.
  - rle_solve.
  - rle_solve.
  - apply rle_bind; [apply compare_mono|intros ?; apply rle_refl].
Qed.
Hint Resolve value_mono : rle.

Lemma sym_type_mono s : rle (sym_type V1 s) (sym_type V2 s).
Proof using HV. unfold sym_type. rle_solve. Qed.
Lemma choice_type_mono c : rle (choice_type V1 c) (choice_type V2 c).
Proof using HV. unfold choice_type. rle_solve. Qed.
Hint Resolve sym_type_mono choice_type_mono : rle.

Lemma prompts_mono l vis : rle (prompts_vis C V1 l vis) (prompts_vis C V2 l vis).
Proof using HV. revert vis; induction l as [|[[]|] l IH]; intros vis; cbn [prompts_vis]; rle_solve. Qed.
Lemma promote_vis_mono vis t1 t2 : rle t1 t2 → rle (promote_vis vis t1) (promote_vis vis t2).
Proof using. intros. unfold promote_vis. rle_solve. Qed.
Hint Resolve prompts_mono promote_vis_mono : rle.
Lemma mode_hides_mono s vis : rle (mode_hides C V1 s vis) (mode_hides C V2 s vis).
Proof using HV. unfold mode_hides. rle_solve. Qed.
Hint Resolve mode_hides_mono : rle.
Lemma sym_visibility_mono s : rle (sym_visibility C V1 s) (sym_visibility C V2 s).
Proof using HV. unfold sym_visibility. rle_solve. Qed.
Lemma choice_visibility_mono c : rle (choice_visibility C V1 c) (choice_visibility C V2 c).
Proof using HV. unfold choice_visibility. rle_solve. Qed.

Lemma tri_default_mono l : rle (tri_default C V1 l) (tri_default C V2 l).
Proof using HV. induction l as [|[] l IH]; cbn [tri_default]; rle_solve. Qed.
Hint Resolve tri_default_mono : rle.
Lemma default_or_imply_mono s : rle (default_or_imply C V1 s) (default_or_imply C V2 s).
Proof using HV. unfold default_or_imply. rle_solve. Qed.
Lemma promote_val_mono s v : rle (promote_val C V1 s v) (promote_val C V2 s v).
Proof using HV. unfold promote_val. rle_solve. Qed.
Hint Resolve default_or_imply_mono promote_val_mono : rle.
Lemma plain_tri_mono s vis : rle (plain_tri_value C V1 s vis) (plain_tri_value C V2 s vis).
Proof using HV. unfold plain_tri_value. rle_solve. Qed.
Lemma choice_sym_tri_mono n s id vis :
  rle (choice_sym_tri_value V1 n s id vis) (choice_sym_tri_value V2 n s id vis).
Proof using HV. unfold choice_sym_tri_value. rle_solve. Qed.
Hint Resolve plain_tri_mono choice_sym_tri_mono : rle.
Lemma sym_tri_mono n s : rle (sym_tri_value C V1 n s) (sym_tri_value C V2 n s).
Proof using HV. unfold sym_tri_value. rle_solve. Qed.
Hint Resolve sym_tri_mono : rle.

Lemma expr_str_value_mono e : rle (expr_str_value V1 e) (expr_str_value V2 e).
Proof using HV. unfold expr_str_value. rle_solve. Qed.
Hint Resolve expr_str_value_mono : rle.
Lemma active_range_mono b l : rle (active_range C V1 b l) (active_range C V2 b l).
Proof using HV. induction l as [|[[] ] l IH]; cbn [active_range]; rle_solve. Qed.
Lemma str_default_mono l : rle (str_default_value C V1 l) (str_default_value C V2 l).
Proof using HV. induction l as [|[] l IH]; cbn [str_default_value]; rle_solve. Qed.
Hint Resolve active_range_mono str_default_mono : rle.
Lemma num_default_mono s b r : rle (num_default C V1 s b r) (num_default C V2 s b r).
Proof using HV. unfold num_default. rle_solve. Qed.
Hint Resolve num_default_mono : rle.
Lemma int_hex_mono s b vis : rle (int_hex_value C V1 s b vis) (int_hex_value C V2 s b vis).
Proof using HV. unfold int_hex_value. rle_solve. Qed.
Lemma string_mono s vis : rle (string_value C V1 s vis) (string_value C V2 s vis).
Proof using HV. unfold string_value, string_default. rle_solve. Qed.
Hint Resolve int_hex_mono string_mono : rle.
Lemma sym_str_mono n s : rle (sym_str_value C V1 n s) (sym_str_value C V2 n s).
Proof using HV. unfold sym_str_value. rle_solve. Qed.
Hint Resolve sym_str_mono : rle.

Lemma choice_tri_mono id c : rle (choice_tri_value V1 id c) (choice_tri_value V2 id c).
Proof using HV. unfold choice_tri_value. rle_solve. Qed.
Lemma default_selection_mono l : rle (default_selection C V1 l) (default_selection C V2 l).
Proof using HV. induction l as [|[] l IH]; cbn [default_selection]; rle_solve. Qed.
Lemma first_visible_mono l : rle (first_visible V1 l) (first_visible V2 l).
Proof using HV. induction l; cbn [first_visible]; rle_solve. Qed.
Hint Resolve choice_tri_mono default_selection_mono first_visible_mono : rle.
Lemma from_defaults_mono c : rle (selection_from_defaults C V1 c) (selection_from_defaults C V2 c).
Proof using HV. unfold selection_from_defaults. rle_solve. Qed.
Hint Resolve from_defaults_mono : rle.
Lemma selection_mono id c : rle (selection C V1 id c) (selection C V2 id c).
Proof using HV. unfold selection. rle_solve. Qed.
Hint Resolve selection_mono sym_visibility_mono choice_visibility_mono : rle.

Lemma vals_step_mono : vle (vals_step C V1) (vals_step C V2).
Proof using HV.
  split; intros i; cbn [vals_step v_tri v_str v_vis v_sel];
    [unfold item_tri|unfold item_str|unfold item_vis|unfold item_sel]; rle_solve.
Qed.
End mono.

Lemma vals_mono C n m : n ≤ m → vle (vals C n) (vals C m).
Proof.
  revert m; induction n as [|n IH]; intros m Hm; [split; intros; apply rle_bottom|].
  destruct m as [|m]; [lia|]. cbn [vals]. apply vals_step_mono, IH. lia.
Qed.

(** ** Fixed points *)

(** The answers are the properties computed from the answers. *)
Definition fixed (C : Conf) (V : Vals) : Prop :=
  (∀ i, v_tri V i = item_tri C V i) ∧ (∀ i, v_str V i = item_str C V i) ∧
  (∀ i, v_vis V i = item_vis C V i) ∧ (∀ id, v_sel V id = item_sel C V id).

(** [n] levels of references are enough for every property. *)
Definition enough (C : Conf) (n : nat) : Prop :=
  (∀ i, v_tri (vals C n) i ≠ Err OutOfFuel) ∧ (∀ i, v_str (vals C n) i ≠ Err OutOfFuel) ∧
  (∀ i, v_vis (vals C n) i ≠ Err OutOfFuel) ∧ (∀ id, v_sel (vals C n) id ≠ Err OutOfFuel).

Lemma enough_stable C n : enough C n → fixed C (vals C n) ∧ ∀ m, n ≤ m → vle (vals C n) (vals C m).
Proof.
  intros (Ht & Hs & Hv & Hl).
  assert (∀ m, n ≤ m → vle (vals C n) (vals C m)) as Hm by (intros; by apply vals_mono).
  split; [|done]. destruct (Hm (S n)) as [H1 H2 H3 H4]; [lia|]. cbn [vals] in *.
  split_and!; intros i; symmetry;
    [destruct (H1 i)|destruct (H2 i)|destruct (H3 i)|destruct (H4 i)]; naive_solver.
Qed.

(** Where [n] levels of property references are enough, the values are
    a solution of the mutually recursive property definitions, and any larger
    bound computes the same values. *)
Theorem enough_fixed C n :
  enough C n →
  fixed C (vals C n) ∧
  ∀ m, n ≤ m → ∀ i, v_tri (vals C m) i = v_tri (vals C n) i ∧ v_str (vals C m) i = v_str (vals C n) i.
Proof.
  intros He. destruct (enough_stable C n He) as [Hf Hm]. split; [done|].
  intros m Hnm i. destruct (Hm m Hnm) as [H1 H2 _ _]. destruct He as (Ht & Hs & _).
  destruct (H1 i), (H2 i); naive_solver.
Qed.

(** The empty references are enough for constants, so one level is enough
    for symbols that only refer to constants. *)
Lemma enough_fixed_witness :
  let C := demo_conf (demo_sym TRISTATE (Some ky) km kn []) in
  fixed C (vals C 5) ∧ v_tri (vals C 9) (sym_item "S") = Ok 1.
Proof.
  intros C. assert (enough C 5) as He.
  { assert (∀ n, n ≠ "MODULES" → n ≠ "S" → cf_syms C !! n = None) as Hn.
    { intros n H1 H2. unfold C. cbn [demo_conf cf_syms]. by rewrite !lookup_insert_ne by done. }
    split_and!; [intros [[] n|id n]..|intros id];
      cbn [vals vals_step v_tri v_str v_vis v_sel item_tri item_str item_vis item_sel]; try done;
      (destruct (decide (n = "MODULES")) as [->|H1]; [by vm_compute|]);
      (destruct (decide (n = "S")) as [->|H2]; [by vm_compute|]); by rewrite (Hn n H1 H2). }
  destruct (enough_fixed C 5 He) as [Hf Hm]. split; [exact Hf|].
  destruct (Hm 9 ltac:(lia) (sym_item "S")) as [-> _]. vm_compute. reflexivity.
Defined.

(** ** Choices *)

(** The symbols, defaults and user selection of a choice belong together. *)
Record choice_ok (C : Conf) (id : nat) (c : Choice) : Prop := {
  co_syms n : n ∈ c_syms c →
    ∃ s, cf_syms C !! n = Some s ∧ BOOL_TRISTATE (s_orig_type s) = true ∧ s_choice s = Some id;
  co_defaults n e : (n, e) ∈ c_defaults c → n ∈ c_syms c;
  co_sel n : c_user_selection c = Some n → n ∈ c_syms c
}.

Section choice.
Context (C : Conf) (V : Vals) (HV : vals_tri V) (HF : fixed C V).
Context (id : nat) (c : Choice) (Hid : cf_choices C !! id = Some c) (Hc : choice_ok C id c).
Context (Hy : v_tri V (choice_item id) = Ok 2).

Lemma prompts_vis_tri l v0 v : v0 ≤ 2 → prompts_vis C V l v0 = Ok v → v ≤ 2.
Proof using HV.
  revert v0; induction l as [|[[t e]|] l IH]; intros v0 Hv0; cbn [prompts_vis].
  - by intros [= <-].
  - intros (w & Hw & H)%res_bind_ok. apply (value_tri C V HV) in Hw. eapply (IH (Nat.max v0 w)); [lia|done].
  - by apply IH.
Qed.

(** In y mode a choice symbol is visible or it is not. *)
Lemma choice_sym_vis n v :
  n ∈ c_syms c → v_vis V (sym_item n) = Ok v → v = 0 ∨ v = 2.
Proof using HV HF Hid Hc Hy.
  intros Hn Hv. destruct (co_syms C id c Hc n Hn) as (s & Es & Ht & Ech).
  destruct HF as (_ & _ & Hvis & _). rewrite Hvis in Hv. cbn [item_vis sym_item] in Hv.
  rewrite Es in Hv. unfold sym_visibility in Hv.
  apply res_bind_ok in Hv as (p & Hp & Hv). apply prompts_vis_tri in Hp; [|lia].
  apply res_bind_ok in Hv as (h & Hh & Hv). destruct h; [injection Hv as <-; by left|].
  unfold mode_hides in Hh. rewrite Ech in Hh. rewrite Hy in Hh. cbn [res_bind Nat.eqb negb] in Hh.
  unfold promote_vis in Hv. destruct (Nat.eqb_spec p 1) as [->|].
  - destruct (s_orig_type s) eqn:Eo; try done.
    + apply res_bind_ok in Hv as (t & Htt & Hv). unfold sym_type in Htt. rewrite Eo in Htt.
      injection Htt as <-. injection Hv as <-. by right.
    + exfalso. apply res_bind_ok in Hh as (h1 & _ & Hh). by destruct h1.
  - injection Hv as <-. lia.
Qed.

Lemma default_selection_some l n :
  default_selection C V l = Ok (Some n) →
  (∃ e, (n, e) ∈ l) ∧ ∃ v, v_vis V (sym_item n) = Ok v ∧ v ≠ 0.
Proof.
  induction l as [|[m e] l IH]; cbn [default_selection]; [done|].
  intros (v & _ & H)%res_bind_ok. destruct (zero v).
  { destruct (IH H) as [(e' & ?) ?]. split; [exists e'; by right|done]. }
  apply res_bind_ok in H as (w & Hw & H). destruct (zero w) eqn:Ez.
  - destruct (IH H) as [(e' & ?) ?]. split; [exists e'; by right|done].
  - injection H as <-. split; [exists e; by left|]. exists w. split; [done|].
    by apply Nat.eqb_neq in Ez.
Qed.

Lemma first_visible_spec l o :
  first_visible V l = Ok o →
  match o with
  | Some n => n ∈ l ∧ ∃ v, v_vis V (sym_item n) = Ok v ∧ v ≠ 0
  | None => ∀ n, n ∈ l → v_vis V (sym_item n) = Ok 0
  end.
Proof.
  induction l as [|m l IH]; cbn [first_visible].
  - intros [= <-] n Hn. by apply elem_of_nil in Hn.
  - intros (v & Hv & H)%res_bind_ok. destruct (zero v) eqn:Ez.
    + apply Nat.eqb_eq in Ez as ->. specialize (IH H). destruct o as [n|].
      * destruct IH as [? ?]. split; [by right|done].
      * intros n [->|Hn]%elem_of_cons; [done|by apply IH].
    + injection H as <-. split; [by left|]. exists v. split; [done|]. by apply Nat.eqb_neq in Ez.
Qed.

(** The selection of a choice in y mode: a visible symbol of the choice, or
    none is visible. *)
Lemma selection_spec o :
  v_sel V id = Ok o →
  match o with
  | Some n => n ∈ c_syms c ∧ ∃ v, v_vis V (sym_item n) = Ok v ∧ v ≠ 0
  | None => ∀ n, n ∈ c_syms c → v_vis V (sym_item n) = Ok 0
  end.
Proof using HF Hid Hc Hy.
  destruct HF as (_ & _ & _ & Hsel). rewrite Hsel. unfold item_sel. rewrite Hid.
  unfold selection. rewrite Hy. cbn [res_bind Nat.eqb negb].
  assert (∀ o, selection_from_defaults C V c = Ok o →
    match o with
    | Some n => n ∈ c_syms c ∧ ∃ v, v_vis V (sym_item n) = Ok v ∧ v ≠ 0
    | None => ∀ n, n ∈ c_syms c → v_vis V (sym_item n) = Ok 0
    end) as Hd.
  { intros o'. unfold selection_from_defaults. intros (d & Ed & H)%res_bind_ok.
    destruct d as [n|]; [|by apply first_visible_spec]. injection H as <-.
    apply default_selection_some in Ed as [(e & He) ?]. split; [by eapply co_defaults|done]. }
  destruct (c_user_selection c) as [n|] eqn:Eu; [|apply Hd].
  intros (v & Hv & H)%res_bind_ok. destruct (zero v) eqn:Ez; [by apply Hd|].
  injection H as <-. split; [by eapply co_sel|]. exists v. split; [done|]. by apply Nat.eqb_neq in Ez.
Qed.
End choice.


(** A bool choice of two symbols, the second one picked by the user. *)
Definition demo_member (u : option uval) : Symbol :=
  mkSymbol BOOL [Some ("prompt", EItem (choice_item 0))] [] [] kn kn (EItem (choice_item 0))
    (Some 0) None u false.
Definition demo_choice : Choice :=
  mkChoice BOOL [Some ("choice", ky)] ["A"; "B"] [("A", ky)] false (Some 2) (Some "B") true.
Definition demo_choice_conf : Conf :=
  mkConf (<["A" := demo_member None]> (<["B" := demo_member (Some (UTri 2))]> ∅))
    [demo_choice] ["A"; "B"] None.

Lemma demo_choice_ok : choice_ok demo_choice_conf 0 demo_choice.
Proof.
  split; cbn [c_syms c_defaults c_user_selection demo_choice].
  - intros n [->|[->|[]%elem_of_nil]%elem_of_cons]%elem_of_cons; eexists;
      (split; [reflexivity|split; reflexivity]).
  - intros n e [[= -> ->]|[]%elem_of_nil]%elem_of_cons. by left.
  - intros n [= <-]. right. by left.
Qed.

(** The items of the demonstration, and those it does not define. *)
Lemma demo_items (P : item → Prop) :
  (∀ n, P (SymItem true n)) → P (SymItem false "A") → P (SymItem false "B") →
  (∀ n, cf_syms demo_choice_conf !! n = None → P (SymItem false n)) →
  (∀ n, P (ChoiceItem 0 n)) → (∀ id n, P (ChoiceItem (S id) n)) → ∀ i, P i.
Proof.
  intros H1 HA HB H2 H3 H4 [[] n|[|id] n]; auto.
  destruct (decide (n = "A")) as [->|NA]; [exact HA|].
  destruct (decide (n = "B")) as [->|NB]; [exact HB|]. apply H2.
  unfold demo_choice_conf. cbn [cf_syms]. by rewrite !lookup_insert_ne by done.
Qed.

Lemma demo_choice_enough : enough demo_choice_conf 9.
Proof.
  unfold enough. change (vals demo_choice_conf 9) with (vals_step demo_choice_conf (vals demo_choice_conf 8)).
  cbn [vals_step v_tri v_str v_vis v_sel].
  split_and!; [apply demo_items..|intros [|id]];
    first [ solve [intros n Hn; cbn [item_tri item_str item_vis]; rewrite Hn; discriminate]
          | hnf; intros; match goal with H : _ = Err OutOfFuel |- _ => vm_compute in H; discriminate H end
          | intros ?; hnf; intros H; vm_compute in H; discriminate H
          | intros ? ?; hnf; intros H; vm_compute in H; discriminate H ].
Qed.

Lemma demo_choice_tri : vals_tri (vals demo_choice_conf 9).
Proof.
  change (vals demo_choice_conf 9) with (vals_step demo_choice_conf (vals demo_choice_conf 8)).
  split; cbn [vals_step v_tri v_vis];
    [apply (demo_items (λ i, ∀ v, item_tri _ _ i = Ok v → v ≤ 2))
    |apply (demo_items (λ i, ∀ v, item_vis _ _ i = Ok v → v ≤ 2))].
  - intros n v [= <-]. unfold STR_TO_TRI. repeat case_match; simpl; lia.
  - intros v H. vm_compute in H. injection H as <-. lia.
  - intros v H. vm_compute in H. injection H as <-. lia.
  - intros n Hn v. cbn [item_tri]. rewrite Hn. intros [= <-]. lia.
  - intros n v H. vm_compute in H. injection H as <-. lia.
  - intros id n v H. vm_compute in H. injection H as <-. lia.
  - intros n v [= <-]. lia.
  - intros v H. vm_compute in H. injection H as <-. lia.
  - intros v H. vm_compute in H. injection H as <-. lia.
  - intros n Hn v. cbn [item_vis]. rewrite Hn. intros [= <-]. lia.
  - intros n v H. vm_compute in H. injection H as <-. lia.
  - intros id n v H. vm_compute in H. injection H as <-. lia.
Qed.


End KFix.
