(* ===== verification/KConf.v ===== *)
(** * tools/kconfig/kconfiglib.py: reading and writing .config files

    [config_string], the contents of .config, minimal configuration, autoconf
    header and auto.conf files, and [_load_config].  A file is its text;
    opening, comparing and writing files is outside.  Warnings are not
    modelled, except where formatting one can raise. *)
From S2P Require Import Prelude Hex PyStr KExpr KLex KSym.

Module KConf.
Import Hex PyStr KExpr KSym.

Section conf.
(** [config_prefix], "CONFIG_" unless the environment sets it. *)
Context (prefix : string).

Definition line (s : string) : string := s +:+ String nl "".
Definition quoted (s : string) : string := String quote (escape s +:+ String quote "").

(** ** Writing *)

Section write.
Context (C : Conf) (V : Vals).

(** The line for a symbol with the given value. *)
Definition assignment (n : string) (t : styp) (val : string) : string :=
  if BOOL_TRISTATE t then
    if String.eqb val "n" then line ("# " +:+ prefix +:+ n +:+ " is not set")
    else line (prefix +:+ n +:+ "=" +:+ val)
  else if INT_HEX t then line (prefix +:+ n +:+ "=" +:+ val)
  else line (prefix +:+ n +:+ "=" +:+ quoted val).

Definition config_string (n : string) (s : Symbol) : res string :=
  let* vw := sym_str_value C V n s in
  if (vw.2 : bool) then Ok (assignment n (s_orig_type s) vw.1) else Ok "".

(** The symbols of [unique_defined_syms] that exist. *)
Definition unique_syms : list (string * Symbol) :=
  omap (λ n, (λ s, (n, s)) <$> cf_syms C !! n) (cf_unique C).

Fixpoint concat_res {A} (f : A → res string) (l : list A) : res string :=
  match l with
  | [] => Ok ""
  | x :: l => let* s := f x in let* r := concat_res f l in Ok (s +:+ r)
  end.

(** [_autoconf_contents] *)
Definition autoconf_line (ns : string * Symbol) : res string :=
  let '(n, s) := ns in
  let* vw := sym_str_value C V n s in
  let val := vw.1 in
  if negb vw.2 then Ok ""
  else if BOOL_TRISTATE (s_orig_type s) then
    Ok (if String.eqb val "y" then line ("#define " +:+ prefix +:+ n +:+ " 1")
        else if String.eqb val "m" then line ("#define " +:+ prefix +:+ n +:+ "_MODULE 1")
        else "")
  else if decide (s_orig_type s = STRING) then
    Ok (line ("#define " +:+ prefix +:+ n +:+ " " +:+ quoted val))
  else
    let val := if decide (s_orig_type s = HEX) then
                 if startswith val "0x" || startswith val "0X" then val else "0x" +:+ val
               else val in
    Ok (line ("#define " +:+ prefix +:+ n +:+ " " +:+ val)).

Definition autoconf_contents (header : string) : res string :=
  let* r := concat_res autoconf_line unique_syms in Ok (header +:+ r).

(** [_min_config_contents] *)
Definition min_config_line (ns : string * Symbol) : res string :=
  let '(n, s) := ns in
  let* fixed := match s_choice s with
                | Some _ => Ok false
                | None => let* vis := v_vis V (sym_item n) in
                          let* r := value C V (s_rev_dep s) in Ok (Nat.leb vis r)
                end in
  if (fixed : bool) then Ok ""
  else
    let* vw := sym_str_value C V n s in
    let* d := sym_str_default C V s in
    if String.eqb vw.1 d then Ok ""
    else
      let* by_default :=
        match s_choice s with
        | None => Ok false
        | Some id =>
            match cf_choices C !! id with
            | None => Ok false
            | Some c =>
                if c_is_optional c then Ok false
                else
                  let* sel := selection_from_defaults C V c in
                  if negb (bool_decide (sel = Some n)) then Ok false
                  else if negb (bool_decide (s_orig_type s = BOOL)) then Ok false
                  else let* tw := sym_tri_value C V n s in Ok (Nat.eqb tw.1 2)
            end
        end in
      if (by_default : bool) then Ok "" else config_string n s.

Definition min_config_contents (header : string) : res string :=
  let* r := concat_res min_config_line unique_syms in Ok (header +:+ r).

(** [_old_vals_contents]: the contents of auto.conf. *)
Definition old_vals_line (ns : string * Symbol) : res string :=
  let '(n, s) := ns in
  let* skip := if BOOL_TRISTATE (s_orig_type s) then
                 let* tw := sym_tri_value C V n s in Ok (zero tw.1) else Ok false in
  if (skip : bool) then Ok "" else config_string n s.
Definition old_vals_contents : res string := concat_res old_vals_line unique_syms.

(** *** _config_contents *)

(** The item of a menu node. *)
Inductive nitem := NSym (n : string) | NChoice (id : nat) | NMenu | NComment.

(** A menu node with its children ([list] and their [next] links). *)
Inductive mnode := MNode (it : nitem) (title : string) (dep visibility : expr) (children : list mnode).

(** What the walk carries: the visited symbols, whether an end comment was
    just printed, and the text so far. *)
Record walk := mkWalk { w_visited : list string; w_after_end : bool; w_out : string }.

Definition menu_shown (it : nitem) (dep vis : expr) : res bool :=
  match it with
  | NMenu => let* d := value C V dep in
             if zero d then Ok false else let* v := value C V vis in Ok (negb (zero v))
  | _ => Ok false
  end.

Definition header_shown (it : nitem) (dep vis : expr) : res bool :=
  let* d := value C V dep in
  if zero d then Ok false
  else match it with
       | NMenu => let* v := value C V vis in Ok (negb (zero v))
       | NComment => Ok true
       | _ => Ok false
       end.

Definition banner (title : string) : string :=
  String nl (line "#" +:+ line ("# " +:+ title) +:+ line "#").

(** The output for one node. *)
Definition visit (it : nitem) (title : string) (dep vis : expr) (w : walk) : res walk :=
  match it with
  | NSym n =>
      if bool_decide (n ∈ w_visited w) then Ok w
      else
        let* cs := match cf_syms C !! n with Some s => config_string n s | None => Ok "" end in
        let visited := n :: w_visited w in
        if String.eqb cs "" then Ok (mkWalk visited (w_after_end w) (w_out w))
        else Ok (mkWalk visited false
               (w_out w +:+ (if w_after_end w then String nl "" else "") +:+ cs))
  | _ =>
      let* shown := header_shown it dep vis in
      if (shown : bool) then Ok (mkWalk (w_visited w) false (w_out w +:+ banner title)) else Ok w
  end.

(** The comment when a menu with nodes in it is left. *)
Definition leave (it : nitem) (title : string) (dep vis : expr) (w : walk) : res walk :=
  let* shown := menu_shown it dep vis in
  if (shown : bool) then
    Ok (mkWalk (w_visited w) true (w_out w +:+ line ("# end of " +:+ title)))
  else Ok w.

Fixpoint walk_node (m : mnode) (w : walk) : res walk :=
  match m with
  | MNode it title dep vis children =>
      let* w := visit it title dep vis w in
      match children with
      | [] => Ok w
      | _ =>
          let* w := (fix walk_list (l : list mnode) (w : walk) : res walk :=
                       match l with
                       | [] => Ok w
                       | m :: l => let* w := walk_node m w in walk_list l w
                       end) children w in
          leave it title dep vis w
      end
  end.

Fixpoint walk_nodes (l : list mnode) (w : walk) : res walk :=
  match l with
  | [] => Ok w
  | m :: l => let* w := walk_node m w in walk_nodes l w
  end.

(** [nodes] are the nodes below the top node. *)
Definition config_contents (header : string) (nodes : list mnode) : res string :=
  let* w := walk_nodes nodes (mkWalk [] false header) in Ok (w_out w).
End write.

(** ** Reading *)

(** [_set_match]: the name and the value of a line [CONFIG_name=value]. *)
Definition set_match (l : string) : option (string * string) :=
  if startswith l prefix then
    let '(name, r) := KLex.span (λ c, negb (Ascii.eqb c "=")) (sdrop (String.length prefix) l) in
    match r with
    | String _ r => if String.eqb name "" then None
                    else Some (name, (KLex.span (λ c, negb (Ascii.eqb c nl)) r).1)
    | EmptyString => None
    end
  else None.

(** [_unset_match]: the name of a line [# CONFIG_name is not set]. *)
Definition unset_match (l : string) : option string :=
  let p := "# " +:+ prefix in
  if startswith l p then
    let '(name, r) := KLex.span (λ c, negb (Ascii.eqb c " ")) (sdrop (String.length p) l) in
    if String.eqb name "" then None
    else if startswith r " is not set" then Some name else None
  else None.

(** [_conf_string_match]: the contents of a quoted string. *)
Fixpoint string_contents (s : string) : option string :=
  match s with
  | EmptyString => None
  | String c s' =>
      if Ascii.eqb c quote then Some ""
      else if Ascii.eqb c "\" then
        match s' with
        | String d s'' => if Ascii.eqb d nl then None
                          else (λ r, String c (String d r)) <$> string_contents s''
        | EmptyString => None
        end
      else String c <$> string_contents s'
  end.
Definition conf_string_match (s : string) : option string :=
  match s with
  | String c s' => if Ascii.eqb c quote then string_contents s' else None
  | EmptyString => None
  end.

(** The state of a load: the configuration and [missing_syms]. *)
Record Lst := mkLst { l_conf : Conf; l_missing : list (string * string) }.

Definition undef_assign (L : Lst) (n val : string) : Lst :=
  mkLst (l_conf L) (l_missing L ++ [(n, val)]).

(** A symbol with menu nodes. *)
Definition defined (C : Conf) (n : string) : option Symbol :=
  match cf_syms C !! n with
  | Some s => match s_nodes s with [] => None | _ => Some s end
  | None => None
  end.

(** [_assigned_twice] formats the old user value for its warning: the
    dictionary lookup raises when there is none. *)
Definition assigned_twice (s : Symbol) : res unit :=
  if BOOL_TRISTATE (s_orig_type s) then
    match s_user_value s with
    | Some (UTri _) => Ok tt
    | Some (UStr x) => Err (KeyError x)
    | None => Err (KeyError "None")
    end
  else Ok tt.

Definition assign_value (L : Lst) (n : string) (val : string) : res Lst :=
  match cf_syms (l_conf L) !! n with
  | None => Ok L
  | Some s =>
      let* _ := if s_was_set s then assigned_twice s else Ok tt in
      Ok (mkLst (set_value (l_conf L) n (UStr val)).2 (l_missing L))
  end.

(** The value of an assignment to a bool or tristate symbol: its first
    character, when it is one the type has. *)
Definition tri_char (t : styp) (val : string) : option string :=
  match t with
  | BOOL => if startswith val "y" then Some "y" else if startswith val "n" then Some "n" else None
  | _ => if startswith val "y" then Some "y" else if startswith val "m" then Some "m"
         else if startswith val "n" then Some "n" else None
  end.

(** The mode of the choice follows from the value assigned to its symbol. *)
Definition infer_mode (L : Lst) (s : Symbol) (val : string) : Lst :=
  match s_choice s, STR_TO_TRI val with
  | Some id, Some (S v) => mkLst (choice_set_value (l_conf L) id (S v)).2 (l_missing L)
  | _, _ => L
  end.

Definition load_set (L : Lst) (n val : string) : res Lst :=
  match defined (l_conf L) n with
  | None => Ok (undef_assign L n val)
  | Some s =>
      if BOOL_TRISTATE (s_orig_type s) then
        match tri_char (s_orig_type s) val with
        | None => Ok L
        | Some v => assign_value (infer_mode L s v) n v
        end
      else if decide (s_orig_type s = STRING) then
        match conf_string_match val with
        | None => Ok L
        | Some x => assign_value L n (unescape x)
        end
      else assign_value L n val
  end.

Definition load_unset (L : Lst) (n : string) : res Lst :=
  match defined (l_conf L) n with
  | None => Ok (undef_assign L n "n")
  | Some s => if BOOL_TRISTATE (s_orig_type s) then assign_value L n "n" else Ok L
  end.

Definition load_line (L : Lst) (l : string) : res Lst :=
  let l := rstrip l in
  match set_match l with
  | Some (n, val) => load_set L n val
  | None => match unset_match l with Some n => load_unset L n | None => Ok L end
  end.

(** [_was_set] cleared on every symbol and choice. *)
Definition clear_sym (C : Conf) (n : string) : Conf :=
  match cf_syms C !! n with
  | Some s => put_sym C n (set_user s (s_user_value s) false)
  | None => C
  end.
Definition clear_was_set (C : Conf) : Conf :=
  let C := foldl clear_sym C (cf_unique C) in
  mkConf (cf_syms C) (map (λ c, set_choice_user c (c_user_value c) (c_user_selection c) false) (cf_choices C))
    (cf_unique C) (cf_defconfig_list C).

Definition unset_sym_if (C : Conf) (n : string) : Conf :=
  match cf_syms C !! n with
  | Some s => if s_was_set s then C else unset_value C n
  | None => C
  end.
Definition unset_choice_if (C : Conf) (id : nat) : Conf :=
  match cf_choices C !! id with
  | Some c => if c_was_set c then C else choice_unset_value C id
  | None => C
  end.
Definition unset_rest (C : Conf) : Conf :=
  let C := foldl unset_sym_if C (cf_unique C) in
  foldl unset_choice_if C (seq 0 (length (cf_choices C))).

(** The lines of a file. *)
Definition file_lines (text : string) : list string := split_char nl (KLex.universal_nl text).

(** [_load_config] of the text of a file. *)
Definition load_config (replace : bool) (text : string) (L : Lst) : res Lst :=
  let L0 := if replace then mkLst (clear_was_set (l_conf L)) [] else L in
  let* L1 := res_fold load_line L0 (file_lines text) in
  Ok (if replace then mkLst (unset_rest (l_conf L1)) (l_missing L1) else L1).

(** [unset_values] *)
Definition unset_values (C : Conf) : Conf :=
  let C := foldl unset_value C (cf_unique C) in
  foldl choice_unset_value C (seq 0 (length (cf_choices C))).

End conf.
End KConf.
