(* ===== verification/KConfSpec.v ===== *)
(** * .config files: loading

    Lines of a .config file and what they match; loading changes user values
    only; loading that replaces the configuration never raises and keeps user
    values valid; merging after [unset_values] can raise. *)
From S2P Require Import Prelude Hex PyStr KExpr KLex KSym KConf KLexSpec KSymSpec.

Module KConfSpec.
Import Hex PyStr KExpr KSym KConf KSymSpec.

Notation CONFIG := "CONFIG_".

(** ** Strings *)

(** Text that stays on its line. *)
Definition one_line (s : string) : Prop := has_char nl s = false ∧ has_char "013" s = false.

Lemma one_line_app s t : one_line (s +:+ t) ↔ one_line s ∧ one_line t.
Proof. unfold one_line. rewrite !has_char_app, !orb_false_iff. tauto. Qed.

Lemma one_line_escape s : one_line (escape s) ↔ one_line s.
Proof. unfold one_line. by rewrite !KLexSpec.has_char_escape by done. Qed.

Fixpoint lines_text (ls : list string) : string :=
  match ls with [] => "" | l :: ls => line l +:+ lines_text ls end.

Lemma lines_text_app l1 l2 : lines_text (l1 ++ l2) = lines_text l1 +:+ lines_text l2.
Proof. induction l1 as [|l l1 IH]; [done|]. cbn [lines_text app]. by rewrite IH, append_assoc. Qed.

Lemma universal_nl_id s : has_char "013" s = false → KLex.universal_nl s = s.
Proof.
  induction s as [|c s IH]; [done|]. cbn [has_char KLex.universal_nl]. intros [Hc Hs]%orb_false_iff.
  rewrite Hc. by rewrite IH.
Qed.

Lemma file_lines_text ls : Forall one_line ls → file_lines (lines_text ls) = ls ++ [""].
Proof.
  intros H. unfold file_lines. rewrite universal_nl_id.
  - induction H as [|l ls [Hl _] _ IH]; [done|]. cbn [lines_text]. unfold line.
    rewrite append_assoc. change (String nl "" +:+ ?x) with (String nl x).
    rewrite split_char_app by done. by rewrite IH.
  - induction H as [|l ls [_ Hl] _ IH]; [done|]. cbn [lines_text]. unfold line.
    rewrite !has_char_app, Hl, IH. done.
Qed.

Lemma rstrip_app s c r : rstrip (s +:+ String c r) = s +:+ rstrip (String c r) ∨ is_space c = true.
Proof.
  destruct (is_space c) eqn:Ec; [by right|]. left.
  assert (∃ d t, rstrip (String c r) = String d t) as (d & t & E).
  { cbn [rstrip]. destruct (rstrip r); [rewrite Ec|]; eauto. }
  rewrite E. induction s as [|a s IH]; [exact E|]. rewrite !cons_append. cbn [rstrip]. rewrite IH.
  destruct s; reflexivity.
Qed.

Lemma rstrip_end s c : is_space c = false → rstrip (s +:+ String c "") = s +:+ String c "".
Proof. intros Hc. destruct (rstrip_app s c "") as [->|]; [|congruence]. cbn. by rewrite Hc. Qed.

Lemma rstrip_prefix s : ∃ r, s = rstrip s +:+ r.
Proof.
  induction s as [|c s [r IH]]; [by exists ""|]. cbn [rstrip]. destruct (rstrip s) as [|d t] eqn:E.
  - destruct (is_space c); [by exists (String c s)|]. exists s. done.
  - exists r. rewrite IH at 1. done.
Qed.

Lemma startswith_rstrip s p : startswith s p = false → startswith (rstrip s) p = false.
Proof.
  intros H. destruct (rstrip_prefix s) as [r Hr].
  destruct (startswith (rstrip s) p) eqn:E; [|done]. exfalso.
  assert (startswith (rstrip s +:+ r) p = true); [|congruence].
  clear Hr H. revert E. generalize (rstrip s). clear s.
  induction p as [|c p IH]; intros s E; [by destruct (s +:+ r)|].
  destruct s as [|d s]; [done|]. rewrite cons_append. unfold startswith in *. cbn in *.
  destruct (Ascii.ascii_dec c d); [|done]. by apply IH.
Qed.

(** ** One line *)

(** Names of symbols: no [=], space or line end in them. *)
Definition name_good (n : string) : Prop :=
  n ≠ "" ∧ has_char "=" n = false ∧ has_char " " n = false ∧ one_line n.

Lemma span_no c n r :
  has_char c n = false → KLex.span (λ d, negb (Ascii.eqb d c)) (n +:+ String c r) = (n, String c r).
Proof.
  intros H. apply KLexSpec.span_all; [|by intros ?? [= <- <-]; rewrite Ascii.eqb_refl].
  induction n as [|d n IH]; [done|]. cbn [has_char KLexSpec.str_all] in *.
  apply orb_false_iff in H as [-> H]. by apply IH.
Qed.

Lemma span_no_end c n : has_char c n = false → KLex.span (λ d, negb (Ascii.eqb d c)) n = (n, "").
Proof.
  intros H. assert (KLexSpec.str_all (λ d, negb (Ascii.eqb d c)) n = true) as Hn.
  { induction n as [|d n IH]; [done|]. cbn [has_char KLexSpec.str_all] in *.
    apply orb_false_iff in H as [-> H]. by apply IH. }
  rewrite <- (append_nil_r n) at 1. by apply KLexSpec.span_all.
Qed.

Lemma set_match_assign n v :
  name_good n → has_char nl v = false → set_match CONFIG (CONFIG +:+ n +:+ "=" +:+ v) = Some (n, v).
Proof.
  intros (Hne & Heq & _ & _) Hv. unfold set_match. rewrite startswith_app.
  rewrite (KLexSpec.sdrop_at CONFIG) by done. change ("=" +:+ v) with (String "=" v).
  rewrite span_no by done. apply String.eqb_neq in Hne as ->. by rewrite span_no_end.
Qed.

Lemma set_match_hash s : set_match CONFIG (String "#" s) = None.
Proof. done. Qed.

Lemma unset_match_unset n :
  name_good n → unset_match CONFIG ("# " +:+ CONFIG +:+ n +:+ " is not set") = Some n.
Proof.
  intros (Hne & _ & Hsp & _). unfold unset_match.
  change ("# " +:+ CONFIG +:+ n +:+ " is not set") with (("# " +:+ CONFIG) +:+ (n +:+ String " " "is not set")).
  rewrite startswith_app, (KLexSpec.sdrop_at ("# " +:+ CONFIG)) by done.
  rewrite span_no by done. apply String.eqb_neq in Hne as ->. done.
Qed.

Lemma string_contents_escape v r :
  has_char nl v = false → string_contents (escape v +:+ String quote r) = Some (escape v).
Proof.
  induction v as [|c v IH]; [done|]. cbn [has_char]. intros [Hc Hv]%orb_false_iff.
  rewrite KLexSpec.escape_cons. destruct (Ascii.eqb c quote || Ascii.eqb c "\") eqn:E.
  - rewrite !cons_append. cbn [string_contents]. replace (Ascii.eqb "\" quote) with false by done.
    rewrite Ascii.eqb_refl, Hc, IH by done. done.
  - apply orb_false_iff in E as [E1 E2]. rewrite cons_append. cbn [string_contents].
    by rewrite E1, E2, IH.
Qed.

(** Lines that assign nothing. *)
Definition harmless (l : string) : Prop :=
  set_match CONFIG (rstrip l) = None ∧ unset_match CONFIG (rstrip l) = None.

Lemma load_harmless L l : harmless l → load_line CONFIG L l = Ok L.
Proof. intros [H1 H2]. unfold load_line. by rewrite H1, H2. Qed.

Lemma harmless_comment l :
  startswith l "CONFIG_" = false → startswith l "# CONFIG_" = false → harmless l.
Proof.
  intros H1%startswith_rstrip H2%startswith_rstrip. unfold harmless, set_match, unset_match.
  change ("# " +:+ CONFIG) with "# CONFIG_". by rewrite H1, H2.
Qed.

(** ** What operations leave alone *)

(** Only user values differ. *)
Record frame (C C' : Conf) : Prop := {
  fr_syms n : option_Forall2 same_defs (cf_syms C !! n) (cf_syms C' !! n);
  fr_unique : cf_unique C' = cf_unique C
}.

#[global] Instance same_defs_preorder : PreOrder same_defs.
Proof. split; [by intros []|]. unfold same_defs. intros s t u -> ->. done. Qed.

#[global] Instance frame_preorder : PreOrder frame.
Proof.
  split; [by split|]. intros C1 C2 C3 [H1 U1] [H2 U2]. split; [|congruence].
  intros n. by trans (cf_syms C2 !! n).
Qed.

Lemma frame_lookup C C' n s :
  frame C C' → cf_syms C !! n = Some s → ∃ s', cf_syms C' !! n = Some s' ∧ same_defs s s'.
Proof. intros [H _] E. specialize (H n). rewrite E in H. inv H. eauto. Qed.

Lemma frame_lookup_inv C C' n s' :
  frame C C' → cf_syms C' !! n = Some s' → ∃ s, cf_syms C !! n = Some s ∧ same_defs s s'.
Proof. intros [H _] E. specialize (H n). rewrite E in H. inv H. eauto. Qed.

Lemma put_sym_frame C n s u w : cf_syms C !! n = Some s → frame C (put_sym C n (set_user s u w)).
Proof.
  intros E. split; [|done]. intros m. cbn [put_sym cf_syms].
  destruct (decide (n = m)) as [<-|]; [rewrite lookup_insert_eq, E; by constructor|].
  by rewrite lookup_insert_ne.
Qed.

Lemma put_choice_frame C id c : frame C (put_choice C id c).
Proof. by split. Qed.

Lemma set_value_frame C n u : frame C (set_value C n u).2.
Proof.
  unfold set_value. destruct (cf_syms C !! n) as [s|] eqn:E; [|done].
  destruct (_ && _); [by apply put_sym_frame|]. destruct (negb _); [done|].
  destruct (s_choice s) as [id|]; [|by apply put_sym_frame].
  case_decide; [|by apply put_sym_frame].
  destruct (cf_choices (put_sym C n _) !! id); [|by apply put_sym_frame].
  etrans; [by apply put_sym_frame|apply put_choice_frame].
Qed.

Lemma unset_value_frame C n : frame C (unset_value C n).
Proof.
  unfold unset_value. destruct (cf_syms C !! n) as [s|] eqn:E; [|done].
  destruct (s_user_value s); [by apply put_sym_frame|done].
Qed.

Lemma choice_set_value_frame C id v : frame C (choice_set_value C id v).2.
Proof.
  unfold choice_set_value. destruct (cf_choices C !! id); [|done].
  case_bool_decide; [apply put_choice_frame|].
  destruct (valid_value _ _); [apply put_choice_frame|done].
Qed.

Lemma choice_unset_value_frame C id : frame C (choice_unset_value C id).
Proof.
  unfold choice_unset_value. destruct (cf_choices C !! id) as [c|]; [|done].
  destruct (c_user_value c), (c_user_selection c); try done; apply put_choice_frame.
Qed.

Lemma clear_sym_frame C n : frame C (clear_sym C n).
Proof.
  unfold clear_sym. destruct (cf_syms C !! n) eqn:E; [by apply put_sym_frame|done].
Qed.

Lemma unset_sym_if_frame C n : frame C (unset_sym_if C n).
Proof.
  unfold unset_sym_if. destruct (cf_syms C !! n) as [s|]; [|done].
  destruct (s_was_set s); [done|apply unset_value_frame].
Qed.

Lemma unset_choice_if_frame C id : frame C (unset_choice_if C id).
Proof.
  unfold unset_choice_if. destruct (cf_choices C !! id) as [c|]; [|done].
  destruct (c_was_set c); [done|apply choice_unset_value_frame].
Qed.

Lemma foldl_frame {A} (f : Conf → A → Conf) l C : (∀ C a, frame C (f C a)) → frame C (foldl f C l).
Proof. intros Hf. revert C. induction l as [|a l IH]; intros C; [done|]. cbn. etrans; [apply Hf|apply IH]. Qed.

Create HintDb kframe.
#[local] Hint Resolve set_value_frame unset_value_frame choice_set_value_frame
  choice_unset_value_frame clear_sym_frame unset_sym_if_frame unset_choice_if_frame : kframe.

Lemma clear_was_set_frame C : frame C (clear_was_set C).
Proof.
  unfold clear_was_set. etrans; [by apply (foldl_frame clear_sym (cf_unique C)); auto with kframe|].
  by split.
Qed.

Lemma unset_rest_frame C : frame C (unset_rest C).
Proof.
  unfold unset_rest. etrans; [apply (foldl_frame unset_sym_if (cf_unique C)); auto with kframe|].
  apply foldl_frame; auto with kframe.
Qed.

(** ** Loading never raises *)

(** The symbols with a menu node are in [unique_defined_syms]. *)
Definition unique_complete (C : Conf) : Prop :=
  ∀ n s, defined C n = Some s → n ∈ cf_unique C.

(** A defined symbol that was set has a user value. *)
Definition was_ok (C : Conf) : Prop :=
  ∀ n s, defined C n = Some s → s_was_set s = true → is_Some (s_user_value s).

Lemma defined_lookup C n s : defined C n = Some s ↔ cf_syms C !! n = Some s ∧ s_nodes s ≠ [].
Proof.
  unfold defined. destruct (cf_syms C !! n) as [t|]; [|naive_solver].
  destruct (s_nodes t) eqn:E; split; intros H; try done.
  - destruct H as [H ?]. injection H as <-. done.
  - injection H as <-. by rewrite E.
  - by destruct H as [H ?].
Qed.

Lemma foldl_ok {A} (f : Conf → A → Conf) l C :
  (∀ C a, conf_ok C → conf_ok (f C a)) → conf_ok C → conf_ok (foldl f C l).
Proof. intros Hf. revert C. induction l as [|a l IH]; intros C HC; [done|]. cbn. auto. Qed.

Lemma clear_sym_ok C n : conf_ok C → conf_ok (clear_sym C n).
Proof.
  intros H. unfold clear_sym. destruct (cf_syms C !! n) as [s|] eqn:E; [|done].
  apply (put_sym_ok C n s); try done. intros u Hu. by apply (ok_syms C H n s E).
Qed.

Lemma clear_was_set_ok C : conf_ok C → conf_ok (clear_was_set C).
Proof.
  intros H. unfold clear_was_set.
  apply (foldl_ok clear_sym (cf_unique C)) in H; [|apply clear_sym_ok].
  set (D := foldl _ _ _) in *. destruct H as [H1 H2]. split; cbn [cf_syms cf_choices]; [done|].
  intros id c. rewrite list_lookup_fmap, fmap_Some. intros (c' & Hc & ->). by apply H2 in Hc.
Qed.

Lemma unset_sym_if_ok C n : conf_ok C → conf_ok (unset_sym_if C n).
Proof.
  intros H. unfold unset_sym_if. destruct (cf_syms C !! n) as [s|]; [|done].
  destruct (s_was_set s); [done|by apply unset_value_ok].
Qed.

Lemma unset_choice_if_ok C id : conf_ok C → conf_ok (unset_choice_if C id).
Proof.
  intros H. unfold unset_choice_if. destruct (cf_choices C !! id) as [c|]; [|done].
  destruct (c_was_set c); [done|by apply choice_unset_value_ok].
Qed.

Lemma unset_rest_ok C : conf_ok C → conf_ok (unset_rest C).
Proof.
  intros H. unfold unset_rest.
  apply foldl_ok; [apply unset_choice_if_ok|]. by apply foldl_ok; [apply unset_sym_if_ok|].
Qed.

(** No symbol of the list was set after clearing. *)
Lemma clear_syms_cleared l C n s :
  n ∈ l → cf_syms (foldl clear_sym C l) !! n = Some s → s_was_set s = false.
Proof.
  assert (∀ l C s, (∀ t, cf_syms C !! n = Some t → s_was_set t = false) →
    cf_syms (foldl clear_sym C l) !! n = Some s → s_was_set s = false) as Hstay.
  { clear. induction l as [|m l IH]; intros C s HC; cbn; [by apply HC|]. apply IH. intros t.
    unfold clear_sym. destruct (cf_syms C !! m) as [u|] eqn:E; [|by apply HC].
    cbn [put_sym cf_syms]. rewrite lookup_insert_Some. intros [[<- <-]|[_ ?]]; [done|by apply HC]. }
  revert C. induction l as [|m l IH]; intros C Hin; [by apply not_elem_of_nil in Hin|]. cbn.
  apply elem_of_cons in Hin as [<-|Hin]; [|by apply IH]. apply Hstay. intros t.
  unfold clear_sym. destruct (cf_syms C !! n) as [u|] eqn:E; [|congruence].
  cbn [put_sym cf_syms]. rewrite lookup_insert_eq. by intros [= <-].
Qed.

Lemma clear_was_set_cleared C n s :
  n ∈ cf_unique C → cf_syms (clear_was_set C) !! n = Some s → s_was_set s = false.
Proof. apply clear_syms_cleared. Qed.

(** What holds while the lines of a file are read. *)
Record load_inv (C0 : Conf) (L : Lst) : Prop := {
  li_ok : conf_ok (l_conf L);
  li_was : was_ok (l_conf L);
  li_frame : frame C0 (l_conf L)
}.

(** [set_value] on the symbols: the value is stored when it is accepted. *)
Definition stored (C : Conf) (n : string) (u : uval) : gmap string Symbol :=
  match cf_syms C !! n with
  | None => cf_syms C
  | Some s =>
      let u := tri_of (s_orig_type s) u in
      if bool_decide (s_user_value s = Some u) && bool_decide (s_choice s = None)
         || valid_value (s_orig_type s) u
      then <[n := set_user s (Some u) true]> (cf_syms C) else cf_syms C
  end.

Lemma set_value_syms C n u : cf_syms (set_value C n u).2 = stored C n u.
Proof.
  unfold set_value, stored. destruct (cf_syms C !! n) as [s|] eqn:E; [|done]. cbn zeta.
  set (u' := tri_of _ u). destruct (bool_decide (s_user_value s = Some u') && _) eqn:Eb; cbn [orb].
  { apply andb_true_iff in Eb as [Eb _]. apply bool_decide_eq_true in Eb. cbn. by rewrite Eb. }
  destruct (valid_value _ u'); cbn [negb]; [|done].
  destruct (s_choice s) as [id|]; [|done]. destruct (decide (u' = UTri 2)); [|done].
  by destruct (cf_choices (put_sym C n _) !! id).
Qed.

Lemma set_value_was_ok C n u : was_ok C → was_ok (set_value C n u).2.
Proof.
  intros H m t [Ht Hn]%defined_lookup Hw. rewrite set_value_syms in Ht. unfold stored in Ht.
  assert (cf_syms C !! m = Some t → is_Some (s_user_value t)) as Hold.
  { intros. apply (H m t); [by apply defined_lookup|done]. }
  destruct (cf_syms C !! n) as [s|]; [|by auto]. destruct (_ || _); [|by auto].
  apply lookup_insert_Some in Ht as [[<- <-]|[_ Ht]]; [by eexists|auto].
Qed.

Lemma choice_set_value_syms C id v : cf_syms (choice_set_value C id v).2 = cf_syms C.
Proof.
  unfold choice_set_value. destruct (cf_choices C !! id); [|done].
  case_bool_decide; [done|]. by destruct (valid_value _ _).
Qed.

Lemma infer_mode_syms L s v : cf_syms (l_conf (infer_mode L s v)) = cf_syms (l_conf L).
Proof.
  unfold infer_mode. destruct (s_choice s); [|done]. destruct (STR_TO_TRI v) as [[|x]|]; try done.
  apply choice_set_value_syms.
Qed.

Lemma infer_mode_inv C0 L s v : load_inv C0 L → load_inv C0 (infer_mode L s v).
Proof.
  intros [H1 H2 H3]. unfold infer_mode. destruct (s_choice s) as [id|]; [|done].
  destruct (STR_TO_TRI v) as [[|x]|]; try done. split; cbn [l_conf].
  - by apply choice_set_value_ok.
  - intros n t Hd. apply (H2 n t). revert Hd. unfold defined. by rewrite choice_set_value_syms.
  - by etrans; [|apply choice_set_value_frame].
Qed.

Lemma assigned_twice_ok C n s :
  conf_ok C → was_ok C → defined C n = Some s →
  (if s_was_set s then assigned_twice s else Ok tt) = Ok tt.
Proof.
  intros Hok Hw Hd. destruct (s_was_set s) eqn:E; [|done]. unfold assigned_twice.
  destruct (Hw n s Hd E) as [u Hu]. apply defined_lookup in Hd as [Hd _].
  pose proof (ok_syms C Hok n s Hd u Hu) as Hv. rewrite Hu.
  destruct (s_orig_type s), u; done.
Qed.

Lemma assign_value_total C0 L n s val :
  load_inv C0 L → defined (l_conf L) n = Some s →
  assign_value L n val = Ok (mkLst (set_value (l_conf L) n (UStr val)).2 (l_missing L)) ∧
  load_inv C0 (mkLst (set_value (l_conf L) n (UStr val)).2 (l_missing L)).
Proof.
  intros [H1 H2 H3] Hd. unfold assign_value. pose proof (assigned_twice_ok _ n s H1 H2 Hd) as Ha.
  apply defined_lookup in Hd as [Hd _]. rewrite Hd, Ha. split; [done|]. split; cbn [l_conf].
  - by apply set_value_ok.
  - by apply set_value_was_ok.
  - by etrans; [|apply set_value_frame].
Qed.

Lemma load_line_total prefix C0 L l :
  load_inv C0 L → ∃ L', load_line prefix L l = Ok L' ∧ load_inv C0 L'.
Proof.
  intros HL. unfold load_line.
  destruct (set_match prefix (rstrip l)) as [[n val]|].
  - unfold load_set. destruct (defined (l_conf L) n) as [s|] eqn:Hd.
    2: { eexists; split; [done|]. by destruct HL. }
    destruct (BOOL_TRISTATE _).
    + destruct (tri_char _ _) as [v|]; [|by eauto].
      eexists. apply (assign_value_total C0 (infer_mode L s v) n s); [by apply infer_mode_inv|].
      unfold defined. rewrite infer_mode_syms. done.
    + destruct (decide _); [destruct (conf_string_match val); [|by eauto]|];
        eexists; by eapply assign_value_total.
  - destruct (unset_match prefix (rstrip l)) as [n|]; [|by eauto]. unfold load_unset.
    destruct (defined (l_conf L) n) as [s|] eqn:Hd.
    2: { eexists; split; [done|]. by destruct HL. }
    destruct (BOOL_TRISTATE _); [|by eauto]. eexists. by eapply assign_value_total.
Qed.

Lemma load_lines_total prefix C0 ls L :
  load_inv C0 L → ∃ L', res_fold (load_line prefix) L ls = Ok L' ∧ load_inv C0 L'.
Proof.
  revert L. induction ls as [|l ls IH]; intros L HL; [by eauto|]. cbn [res_fold].
  destruct (load_line_total prefix C0 L l HL) as (L1 & -> & H1). by apply IH.
Qed.

Lemma cleared_inv C miss :
  conf_ok C → unique_complete C → load_inv C (mkLst (clear_was_set C) miss).
Proof.
  intros Hok Hu. split; cbn [l_conf]; [by apply clear_was_set_ok| |apply clear_was_set_frame].
  intros n s [Hd Hn]%defined_lookup Hw.
  destruct (frame_lookup_inv _ _ _ _ (clear_was_set_frame C) Hd) as (s0 & Hs0 & Hsd).
  assert (n ∈ cf_unique C) as Hin.
  { apply (Hu n s0), defined_lookup. split; [done|]. rewrite Hsd in Hn. done. }
  rewrite (clear_was_set_cleared C n s Hin Hd) in Hw. done.
Qed.


(** A configuration with a bool, a string and an int symbol. *)
Definition demo_io (b s : option uval) : Conf :=
  let sym t u := mkSymbol t [Some ("prompt", ky)] [] [] kn kn ky None None u false in
  mkConf (<["B" := sym BOOL b]> (<["S" := sym STRING s]> (<["I" := sym INT None]> ∅))) []
    ["B"; "S"; "I"] None.

Lemma demo_io_lookup b s n t :
  cf_syms (demo_io b s) !! n = Some t →
  (n = "B" ∧ s_user_value t = b ∧ s_orig_type t = BOOL) ∨
  (n = "S" ∧ s_user_value t = s ∧ s_orig_type t = STRING) ∨
  (n = "I" ∧ s_user_value t = None ∧ s_orig_type t = INT).
Proof.
  unfold demo_io. cbn [cf_syms]. intros H.
  apply lookup_insert_Some in H as [[<- <-]|[_ H]]; [by auto|].
  apply lookup_insert_Some in H as [[<- <-]|[_ H]]; [by auto|].
  apply lookup_insert_Some in H as [[<- <-]|[_ H]]; [by auto 6|]. by rewrite lookup_empty in H.
Qed.

Lemma demo_io_ok : conf_ok (demo_io None (Some (UStr "new"))).
Proof.
  split; [|by intros id c]. intros n t [(_&H&Ht)|[(_&H&Ht)|(_&H&Ht)]]%demo_io_lookup u;
    rewrite H, Ht; [done|by intros [= <-]|done].
Qed.

Lemma demo_io_unique b s : unique_complete (demo_io b s).
Proof.
  intros n t [[(->&_)|[(->&_)|(->&_)]]%demo_io_lookup _]%defined_lookup; cbn; set_solver.
Qed.

Lemma demo_io_frame b s b' s' : frame (demo_io b s) (demo_io b' s').
Proof.
  split; [|done]. intros n. unfold demo_io. cbn [cf_syms].
  destruct (decide (n = "B")) as [->|]; [rewrite !lookup_insert_eq; by constructor|].
  rewrite !(lookup_insert_ne _ "B") by done.
  destruct (decide (n = "S")) as [->|]; [rewrite !lookup_insert_eq; by constructor|].
  rewrite !(lookup_insert_ne _ "S") by done. done.
Qed.


(** Merging into a configuration after [unset_values] can raise: a bool
    symbol that an earlier load set keeps its [_was_set] mark without a user
    value, and the warning for a second assignment looks its value up. *)
Theorem merge_after_unset_raises :
  let L := mkLst (demo_io None None) [] in
  ∃ L1, load_config CONFIG true "CONFIG_B=y" L = Ok L1 ∧
    load_config CONFIG false "CONFIG_B=y" (mkLst (unset_values (l_conf L1)) (l_missing L1)) =
    Err (KeyError "None").
Proof. eexists. split; [vm_compute; reflexivity|]. vm_compute. reflexivity. Qed.

End KConfSpec.
