(* ===== verification/KRound.v ===== *)
(** * .config files: what is written is read back

    The walk of [_config_contents] writes comments and one line per written
    symbol; [_load_config] reads each line back; loading a written file gives
    every written symbol its value as user value and removes the other user
    values. *)
From S2P Require Import Prelude Hex PyStr KExpr KLex KSym KConf KLexSpec KSymSpec KConfSpec.

Module KRound.
Import Hex PyStr KExpr KSym KConf KSymSpec KConfSpec.

(** ** What is written *)

(** One line of the output: a comment, or the assignment to a symbol. *)
Inductive oline := OText (l : string) | OSet (n : string) (s : Symbol) (v : string).

Definition assign_line (n : string) (t : styp) (v : string) : string :=
  if BOOL_TRISTATE t then
    if String.eqb v "n" then "# " +:+ CONFIG +:+ n +:+ " is not set" else CONFIG +:+ n +:+ "=" +:+ v
  else if INT_HEX t then CONFIG +:+ n +:+ "=" +:+ v
  else CONFIG +:+ n +:+ "=" +:+ quoted v.

Lemma assignment_line n t v : assignment CONFIG n t v = line (assign_line n t v).
Proof. unfold assignment, assign_line. by repeat case_match. Qed.

Definition oline_text (o : oline) : string :=
  match o with OText l => l | OSet n s v => assign_line n (s_orig_type s) v end.
Definition oline_name (o : oline) : option string :=
  match o with OText _ => None | OSet n _ _ => Some n end.

Section written.
Context (C : Conf) (V : Vals).

(** The lines a part of the walk adds. *)
Record emits (w w' : walk) (os : list oline) : Prop := {
  em_out : w_out w' = w_out w +:+ lines_text (oline_text <$> os);
  em_text : ∀ l, OText l ∈ os → one_line l ∧ harmless l;
  em_set : ∀ n s v, OSet n s v ∈ os →
    cf_syms C !! n = Some s ∧ sym_str_value C V n s = Ok (v, true) ∧
    n ∉ w_visited w ∧ n ∈ w_visited w';
  em_nodup : NoDup (omap oline_name os);
  em_mono : ∀ n, n ∈ w_visited w → n ∈ w_visited w';
  em_all : ∀ n s v, n ∈ w_visited w' → n ∉ w_visited w →
    cf_syms C !! n = Some s → sym_str_value C V n s = Ok (v, true) → OSet n s v ∈ os
}.

Lemma oline_names n (os : list oline) : n ∈ omap oline_name os ↔ ∃ s v, OSet n s v ∈ os.
Proof.
  rewrite list_elem_of_omap. split.
  - intros ([l|m s v] & Hin & [= ->]). eauto.
  - intros (s & v & Hin). by exists (OSet n s v).
Qed.

Lemma emits_refl w : emits w w [].
Proof.
  split; [cbn; by rewrite append_nil_r| | |constructor|done|done];
    intros *; by intros ?%not_elem_of_nil.
Qed.

Lemma emits_trans w1 w2 w3 os1 os2 :
  emits w1 w2 os1 → emits w2 w3 os2 → emits w1 w3 (os1 ++ os2).
Proof.
  intros [O1 T1 S1 N1 M1 A1] [O2 T2 S2 N2 M2 A2]. split.
  - by rewrite O2, O1, fmap_app, lines_text_app, append_assoc.
  - intros l [?|?]%elem_of_app; eauto.
  - intros n s v [H|H]%elem_of_app.
    + destruct (S1 n s v H) as (? & ? & ? & ?). auto.
    + destruct (S2 n s v H) as (? & ? & Hn & ?). split_and!; auto.
  - rewrite omap_app. apply NoDup_app. split_and!; try done. intros n Hn1 Hn2.
    apply oline_names in Hn1 as (s1 & v1 & H1). apply oline_names in Hn2 as (s2 & v2 & H2).
    destruct (S1 _ _ _ H1) as (_ & _ & _ & ?). by destruct (S2 _ _ _ H2) as (_ & _ & ? & _).
  - auto.
  - intros n s v H3 H1 Hs Hv. apply elem_of_app.
    destruct (decide (n ∈ w_visited w2)); [left|right]; eauto.
Qed.

Lemma emits_text w w' ls :
  w_visited w' = w_visited w → w_out w' = w_out w +:+ lines_text ls →
  (∀ l, l ∈ ls → one_line l ∧ harmless l) → emits w w' (OText <$> ls).
Proof.
  intros Hv Ho Hl. assert (∀ o, o ∈ OText <$> ls → ∃ l, o = OText l ∧ l ∈ ls) as Hin.
  { intros o Hin. by apply list_elem_of_fmap in Hin. }
  split; rewrite ?Hv; try done.
  - rewrite Ho. f_equal. f_equal. clear. induction ls as [|l ls IH]; [done|]. cbn. by rewrite <- IH.
  - intros l H. destruct (Hin _ H) as (? & [= ->] & ?). auto.
  - intros n s v H. by destruct (Hin _ H) as (? & ? & ?).
  - replace (omap oline_name (OText <$> ls)) with (@nil string); [constructor|].
    clear. induction ls as [|l ls IH]; [done|]. cbn. done.
Qed.

Lemma harmless_plain l : startswith l "CONFIG_" = false → startswith l "# CONFIG_" = false →
  one_line l → one_line l ∧ harmless l.
Proof. intros. split; [done|]. by apply harmless_comment. Qed.

(** Titles of menus and comments that do not look like assignments. *)
Definition title_ok (t : string) : Prop := one_line t ∧ startswith t CONFIG = false.

Lemma banner_emits w t :
  title_ok t → emits w (mkWalk (w_visited w) false (w_out w +:+ banner t))
                 (OText <$> [""; "#"; "# " +:+ t; "#"]).
Proof.
  intros [H1 H2]. apply emits_text; [done|done|]. intros l Hl.
  apply harmless_plain; repeat (apply elem_of_cons in Hl as [->|Hl]); try done;
    try (by apply not_elem_of_nil in Hl).
Qed.

Lemma leave_emits it t dep vis w w' :
  title_ok t → leave C V it t dep vis w = Ok w' →
  w_visited w' = w_visited w ∧ ∃ os, emits w w' os.
Proof.
  intros [H1 H2] H. unfold leave in H. destruct (menu_shown C V it dep vis) as [[]|]; [| |done].
  2: { injection H as <-. split; [done|]. exists []. apply emits_refl. }
  injection H as <-. split; [done|]. eexists. apply (emits_text _ _ ["# end of " +:+ t]); [done| |].
  - cbn [w_out lines_text]. by rewrite append_nil_r.
  - intros l Hl. apply list_elem_of_singleton in Hl as ->. by apply harmless_plain.
Qed.

Lemma config_string_cases n s cs :
  config_string CONFIG C V n s = Ok cs →
  ∃ v b, sym_str_value C V n s = Ok (v, b) ∧
    cs = if b : bool then line (assign_line n (s_orig_type s) v) else "".
Proof.
  unfold config_string. destruct (sym_str_value C V n s) as [[v b]|]; [|done]. cbn.
  intros H. exists v, b. split; [done|]. destruct b; injection H as <-; [|done].
  by rewrite assignment_line.
Qed.

Lemma line_not_empty s : String.eqb (line s) "" = false.
Proof. by destruct s. Qed.

(** What the writer relies on: names without the characters that end them in
    a .config file, titles that are not assignments, values on one line. *)
Definition names_ok : Prop := ∀ n s, cf_syms C !! n = Some s → name_good n.

Fixpoint tree_ok (m : mnode) : Prop :=
  match m with
  | MNode _ t _ _ children =>
      title_ok t ∧ (fix all (l : list mnode) : Prop :=
        match l with [] => True | m :: l => tree_ok m ∧ all l end) children
  end.
Fixpoint tree_syms (m : mnode) : list string :=
  match m with
  | MNode it _ _ _ children =>
      match it with NSym n => [n] | _ => [] end ++
      (fix all (l : list mnode) : list string :=
        match l with [] => [] | m :: l => tree_syms m ++ all l end) children
  end.
Definition trees_ok (l : list mnode) : Prop := Forall tree_ok l.
Definition trees_syms (l : list mnode) : list string := l ≫= tree_syms.

Lemma visit_emits it t dep vis w w' :
  title_ok t → visit CONFIG C V it t dep vis w = Ok w' →
  (∃ os, emits w w' os) ∧
  ∀ m, m ∈ w_visited w' ↔ m ∈ w_visited w ∨ m ∈ match it with NSym n => [n] | _ => [] end.
Proof.
  intros Ht H. destruct it as [n|id| |]; cbn [visit] in H.
  2-4: destruct (header_shown C V _ dep vis) as [[]|]; [| |done]; injection H as <-;
    (split; [|cbn; intros m; rewrite elem_of_nil; tauto]);
    [eexists; by apply banner_emits|exists []; apply emits_refl].
  case_bool_decide as Hin.
  { injection H as <-. split; [exists []; apply emits_refl|].
    intros m. rewrite list_elem_of_singleton. split; [by left|]. by intros [?| ->]. }
  assert (∀ a o m, m ∈ w_visited (mkWalk (n :: w_visited w) a o) ↔ m ∈ w_visited w ∨ m ∈ [n]) as Hmem.
  { intros a o m. cbn. rewrite elem_of_cons, list_elem_of_singleton. tauto. }
  destruct (cf_syms C !! n) as [s|] eqn:Es.
  2: { injection H as <-. split; [|apply Hmem]. exists [].
    split; cbn [w_visited w_out]; try (by intros * ?%not_elem_of_nil); [|constructor| |].
    - cbn. by rewrite append_nil_r.
    - by right.
    - intros m s v [->|?]%elem_of_cons ? ?; congruence. }
  destruct (config_string CONFIG C V n s) as [cs|] eqn:Ec; [|done]. cbn [res_bind] in H.
  destruct (config_string_cases n s cs Ec) as (v & b & Hv & ->).
  destruct b.
  - rewrite line_not_empty in H. injection H as <-. split; [|apply Hmem].
    exists ((if w_after_end w then [OText ""] else []) ++ [OSet n s v]).
    split; cbn [w_visited w_out].
    + rewrite fmap_app, lines_text_app. cbn [fmap list_fmap oline_text lines_text].
      rewrite append_nil_r. by destruct (w_after_end w).
    + intros l [Hl|Hl%list_elem_of_singleton]%elem_of_app; [|done].
      destruct (w_after_end w); [|by apply not_elem_of_nil in Hl].
      apply list_elem_of_singleton in Hl as [= ->]. by apply harmless_plain.
    + intros m s' v' [Hl|Hl%list_elem_of_singleton]%elem_of_app.
      * destruct (w_after_end w); [|by apply not_elem_of_nil in Hl].
        by apply list_elem_of_singleton in Hl.
      * injection Hl as -> -> ->. split_and!; try done. by left.
    + destruct (w_after_end w); apply NoDup_singleton.
    + by right.
    + intros m s' v' [->|?]%elem_of_cons ? ? Hv'; [|done]. apply elem_of_app. right.
      apply list_elem_of_singleton. congruence.
  - injection H as <-. split; [|apply Hmem]. exists [].
    split; cbn [w_visited w_out]; try (by intros * ?%not_elem_of_nil); [|constructor| |].
    + cbn. by rewrite append_nil_r.
    + by right.
    + intros m s' v' [->|?]%elem_of_cons ? ? ?; congruence.
Qed.

Lemma walk_children children w :
  (fix walk_list (l : list mnode) (w : walk) : res walk :=
     match l with
     | [] => Ok w
     | m :: l => let* w := walk_node CONFIG C V m w in walk_list l w
     end) children w = walk_nodes CONFIG C V children w.
Proof.
  revert w. induction children as [|m l IH]; intros w; [done|]. cbn [walk_nodes].
  destruct (walk_node CONFIG C V m w); cbn; [apply IH|done].
Qed.

Lemma walk_node_eq it t dep vis children w :
  walk_node CONFIG C V (MNode it t dep vis children) w =
  (let* w := visit CONFIG C V it t dep vis w in
   match children with
   | [] => Ok w
   | _ => let* w := walk_nodes CONFIG C V children w in leave C V it t dep vis w
   end).
Proof.
  destruct (visit CONFIG C V it t dep vis w) as [w1|] eqn:E; cbn [walk_node]; rewrite E; [|done].
  destruct children as [|c l]; [done|]. cbn [res_bind]. by rewrite <- walk_children.
Qed.

Lemma tree_ok_children t it dep vis children :
  tree_ok (MNode it t dep vis children) ↔ title_ok t ∧ trees_ok children.
Proof.
  cbn. split; intros [? H]; (split; [done|]); clear -H.
  - induction children as [|m l IH]; constructor; [apply H|apply IH, H].
  - induction H; [done|]. by split.
Qed.

Lemma tree_syms_children t it dep vis children :
  tree_syms (MNode it t dep vis children) =
  match it with NSym n => [n] | _ => [] end ++ trees_syms children.
Proof. done. Qed.

Fixpoint mnode_nested_ind (P : mnode → Prop)
  (H : ∀ it t dep vis children, Forall P children → P (MNode it t dep vis children))
  (m : mnode) : P m :=
  match m with
  | MNode it t dep vis children =>
      H it t dep vis children
        ((fix all (l : list mnode) : Forall P l :=
          match l with
          | [] => List.Forall_nil _
          | m :: l => List.Forall_cons _ _ _ (mnode_nested_ind P H m) (all l)
          end) children)
  end.

(** What a walk over trees adds: the symbols in them are visited. *)
Definition walks (syms : list string) (w w' : walk) : Prop :=
  ∃ os, emits w w' os ∧ ∀ n, n ∈ w_visited w' ↔ n ∈ w_visited w ∨ n ∈ syms.

Lemma walk_nodes_emits l w w' :
  Forall (λ m, ∀ w w', tree_ok m → walk_node CONFIG C V m w = Ok w' → walks (tree_syms m) w w') l →
  trees_ok l → walk_nodes CONFIG C V l w = Ok w' → walks (trees_syms l) w w'.
Proof.
  intros HP. revert w. induction HP as [|m l Hm _ IH]; intros w Hok H.
  { injection H as <-. exists []. split; [apply emits_refl|]. intros n. cbn. rewrite elem_of_nil. tauto. }
  inv Hok. cbn [walk_nodes] in H. destruct (walk_node CONFIG C V m w) as [w1|] eqn:E; [|done].
  destruct (Hm w w1) as (os1 & E1 & S1); [done..|].
  destruct (IH w1) as (os2 & E2 & S2); [done..|].
  exists (os1 ++ os2). split; [by eapply emits_trans|].
  intros n. cbn. rewrite S2, S1, elem_of_app. tauto.
Qed.

Lemma walk_node_emits m w w' :
  tree_ok m → walk_node CONFIG C V m w = Ok w' → walks (tree_syms m) w w'.
Proof.
  revert w w'. induction m as [it t dep vis children IH] using mnode_nested_ind. intros w w' Hok H.
  apply tree_ok_children in Hok as [Ht Hch]. rewrite walk_node_eq in H.
  destruct (visit CONFIG C V it t dep vis w) as [w1|] eqn:E1; [|done]. cbn [res_bind] in H.
  destruct (visit_emits _ _ _ _ _ _ Ht E1) as [(os1 & H1) Hin]. unfold walks.
  rewrite tree_syms_children.
  assert (∃ w2, walk_nodes CONFIG C V children w1 = Ok w2 ∧
    w_visited w' = w_visited w2 ∧ ∃ os, emits w2 w' os) as (w2 & E2 & Ev & os3 & H3).
  { destruct children as [|c l].
    - injection H as <-. exists w1. split; [done|]. split; [done|]. exists []. apply emits_refl.
    - destruct (walk_nodes _ C V (c :: l) w1) as [w2|]; [|done].
      exists w2. split; [done|]. by eapply leave_emits. }
  destruct (walk_nodes_emits children w1 w2 IH Hch E2) as (os2 & H2 & S2).
  exists (os1 ++ os2 ++ os3). split; [by repeat eapply emits_trans|].
  intros n. rewrite Ev, S2, Hin, elem_of_app. tauto.
Qed.

Lemma walk_trees_emits l w w' :
  trees_ok l → walk_nodes CONFIG C V l w = Ok w' → walks (trees_syms l) w w'.
Proof. apply walk_nodes_emits, Forall_true. intros m ? ?. apply walk_node_emits. Qed.
End written.

(** ** What is read back *)

(** The user value that the line for a value gives: a line of an int or hex
    symbol loses trailing spaces, and invalid text is ignored. *)
Definition reload (t : styp) (v : string) : option uval :=
  let u := tri_of t (UStr (if INT_HEX t then rstrip v else v)) in
  if valid_value t u then Some u else None.

Lemma rstrip_eq s v : rstrip (s +:+ String "=" v) = s +:+ String "=" (rstrip v).
Proof.
  destruct (rstrip_app s "=" v) as [->|]; [|done]. f_equal. cbn [rstrip].
  by destruct (rstrip v).
Qed.

Lemma one_line_rstrip v : one_line v → one_line (rstrip v).
Proof. destruct (rstrip_prefix v) as [r Hr]. rewrite Hr at 1. by intros [? _]%one_line_app. Qed.

(** Assigning to a symbol that was not set yet. *)
Lemma assign_unset L n s val :
  cf_syms (l_conf L) !! n = Some s → s_was_set s = false → sym_ok s →
  ∃ L', assign_value L n val = Ok L' ∧ l_missing L' = l_missing L ∧
    cf_syms (l_conf L') =
    let u := tri_of (s_orig_type s) (UStr val) in
    if valid_value (s_orig_type s) u then <[n := set_user s (Some u) true]> (cf_syms (l_conf L))
    else cf_syms (l_conf L).
Proof.
  intros Hs Hw Hok. unfold assign_value. rewrite Hs, Hw. eexists. split; [done|]. split; [done|].
  cbn [l_conf]. rewrite set_value_syms. unfold stored. rewrite Hs. cbn zeta.
  destruct (valid_value _ _) eqn:Ev; [by rewrite orb_true_r|]. rewrite orb_false_r.
  case_bool_decide as Hu; [|done]. apply Hok in Hu. congruence.
Qed.

(** What reading the line of a symbol does. *)
Definition reads (L : Lst) (n : string) (s : Symbol) (v l : string) : Prop :=
  ∃ L', load_line CONFIG L l = Ok L' ∧ l_missing L' = l_missing L ∧
    cf_syms (l_conf L') =
    match reload (s_orig_type s) v with
    | Some u => <[n := set_user s (Some u) true]> (cf_syms (l_conf L))
    | None => cf_syms (l_conf L)
    end.

Section reads.
Context (L : Lst) (n : string) (s : Symbol).
Context (Hd : defined (l_conf L) n = Some s) (Hw : s_was_set s = false) (Hok : sym_ok s).
Context (Hn : name_good n).

Lemma reads_assign (L1 : Lst) v val l :
  cf_syms (l_conf L1) = cf_syms (l_conf L) → l_missing L1 = l_missing L →
  val = (if INT_HEX (s_orig_type s) then rstrip v else v) →
  load_line CONFIG L l = assign_value L1 n val → reads L n s v l.
Proof using Hd Hw Hok.
  intros H1 H2 -> H. apply defined_lookup in Hd as [Hs _]. unfold reads, reload.
  rewrite <- H1 in Hs. rewrite H.
  destruct (assign_unset L1 n s (if INT_HEX (s_orig_type s) then rstrip v else v) Hs Hw Hok)
    as (L' & -> & Hm & HL'). exists L'. split; [done|]. split; [congruence|]. rewrite HL', <- H1.
  cbn zeta. by destruct (valid_value _ _).
Qed.

Lemma infer_mode_missing s' v : l_missing (infer_mode L s' v) = l_missing L.
Proof. unfold infer_mode. destruct (s_choice s'); [|done]. by destruct (STR_TO_TRI v) as [[]|]. Qed.

Lemma reads_tri v :
  BOOL_TRISTATE (s_orig_type s) = true → v = "n" ∨ v = "m" ∨ v = "y" →
  reads L n s v (assign_line n (s_orig_type s) v).
Proof using Hd Hw Hok Hn.
  intros Ht Hv. assert (INT_HEX (s_orig_type s) = false) as Hi by (by destruct (s_orig_type s)).
  unfold assign_line. rewrite Ht. destruct Hv as [->|Hv].
  { change (String.eqb "n" "n") with true. cbn iota.
    apply (reads_assign L "n" "n"); [done|done|by rewrite Hi|]. unfold load_line.
    replace ("# " +:+ CONFIG +:+ n +:+ " is not set")
      with (("# " +:+ CONFIG +:+ n +:+ " is not se") +:+ "t") by (by rewrite !append_assoc).
    rewrite rstrip_end by done. rewrite !append_assoc. change (" is not se" +:+ "t") with " is not set".
    rewrite unset_match_unset by done. change ("# " +:+ ?x) with (String "#" (String " " x)).
    rewrite set_match_hash. unfold load_unset. by rewrite Hd, Ht. }
  assert (String.eqb v "n" = false) as -> by (by destruct Hv as [->| ->]).
  assert (rstrip (CONFIG +:+ n +:+ "=" +:+ v) = CONFIG +:+ n +:+ "=" +:+ v) as Hr.
  { destruct Hv as [->| ->]; rewrite <- !append_assoc; by apply rstrip_end. }
  assert (load_line CONFIG L (CONFIG +:+ n +:+ "=" +:+ v) = load_set L n v) as Hl.
  { unfold load_line. rewrite Hr, set_match_assign; [done|done|]. by destruct Hv as [->| ->]. }
  unfold load_set in Hl. rewrite Hd, Ht in Hl.
  destruct (tri_char (s_orig_type s) v) as [v'|] eqn:Et.
  - assert (v' = v) as -> by (destruct Hv as [->| ->], (s_orig_type s); cbn in Et; congruence).
    apply (reads_assign (infer_mode L s v) v v);
      [apply infer_mode_syms|apply infer_mode_missing|by rewrite Hi|done].
  - exists L. split; [done|]. split; [done|]. unfold reload. rewrite Hi.
    destruct Hv as [->| ->], (s_orig_type s); done.
Qed.

Lemma reads_num v :
  INT_HEX (s_orig_type s) = true → one_line v → reads L n s v (assign_line n (s_orig_type s) v).
Proof using Hd Hw Hok Hn.
  intros Ht Hv. assert (BOOL_TRISTATE (s_orig_type s) = false) as Hb by (by destruct (s_orig_type s)).
  unfold assign_line. rewrite Hb, Ht. apply (reads_assign L v (rstrip v)); [done|done|by rewrite Ht|].
  unfold load_line. rewrite <- append_assoc. change ("=" +:+ v) with (String "=" v).
  rewrite rstrip_eq, append_assoc. change (String "=" (rstrip v)) with ("=" +:+ rstrip v).
  rewrite set_match_assign by (done || by apply one_line_rstrip).
  unfold load_set. rewrite Hd, Hb. rewrite decide_False by (by destruct (s_orig_type s)). done.
Qed.

Lemma reads_string v :
  s_orig_type s = STRING → one_line v → reads L n s v (assign_line n (s_orig_type s) v).
Proof using Hd Hw Hok Hn.
  intros Ht Hv. unfold assign_line. rewrite Ht. cbn [BOOL_TRISTATE INT_HEX].
  apply (reads_assign L v v); [done|done|by rewrite Ht|].
  assert (rstrip (CONFIG +:+ n +:+ "=" +:+ quoted v) = CONFIG +:+ n +:+ "=" +:+ quoted v) as Hr.
  { unfold quoted. change (String quote (escape v +:+ ?x)) with ((String quote (escape v)) +:+ x).
    rewrite <- !append_assoc. by apply rstrip_end. }
  unfold load_line. rewrite Hr, set_match_assign; [|done|].
  - unfold load_set. rewrite Hd, Ht. cbn [BOOL_TRISTATE]. rewrite decide_True by done.
    unfold conf_string_match, quoted. rewrite Ascii.eqb_refl, string_contents_escape by apply Hv.
    by rewrite KLexSpec.unescape_escape.
  - apply one_line_escape in Hv as [Hv _]. unfold quoted. cbn [has_char].
    rewrite has_char_app, Hv. done.
Qed.
End reads.

(** A symbol that is written has a type, and its value is a line. *)
Lemma written_reads C V L n s s' v :
  sym_str_value C V n s = Ok (v, true) → one_line v → same_defs s s' → name_good n →
  defined (l_conf L) n = Some s' → s_was_set s' = false → sym_ok s' →
  reads L n s' v (assign_line n (s_orig_type s) v).
Proof.
  intros Hv Hl Hsd Hn Hd Hw Hok.
  assert (s_orig_type s = s_orig_type s') as Et by (by rewrite Hsd). rewrite Et.
  destruct (s_orig_type s') eqn:Es; rewrite <- Es;
    try (by apply reads_num; rewrite ?Es); try (by apply reads_string).
  1: unfold sym_str_value in Hv; rewrite Et in Hv; done.
  all: apply reads_tri; [done..| |]; try (by rewrite Es); unfold sym_str_value in Hv;
    rewrite Et in Hv; destruct (sym_tri_value C V n s) as [[t b]|]; [|done]; cbn in Hv;
    injection Hv as <- ->; destruct t as [|[|]]; auto.
Qed.

Section round_trip.
Context (C : Conf) (V : Vals).
Context (Hnames : names_ok C).
Context (Hvals : ∀ n s v b, defined C n = Some s → sym_str_value C V n s = Ok (v, b) → one_line v).

(** After some of the lines are read. *)
Definition loaded (os : list oline) (L : Lst) : Prop :=
  l_missing L = [] ∧
  ∀ n s, defined C n = Some s → ∃ s', defined (l_conf L) n = Some s' ∧ same_defs s s' ∧
    (∀ v, OSet n s v ∈ os → s_was_set s' = true → s_user_value s' = reload (s_orig_type s) v) ∧
    (∀ v, OSet n s v ∈ os → s_was_set s' = false → reload (s_orig_type s) v = None) ∧
    (n ∉ omap oline_name os → s_was_set s' = false).

(** A line of the output, in its place. *)
Definition oline_ok (o : oline) : Prop :=
  match o with
  | OText l => harmless l
  | OSet n s v => defined C n = Some s ∧ sym_str_value C V n s = Ok (v, true)
  end.

Lemma loaded_text os l L : loaded os L → loaded (os ++ [OText l]) L.
Proof.
  intros [Hm H]. split; [done|]. intros n s Hd. destruct (H n s Hd) as (s' & H1 & H2 & H3 & H4 & H5).
  exists s'. split_and!; try done; try (intros v [?|?%list_elem_of_singleton]%elem_of_app; [eauto|done]).
  rewrite omap_app. cbn. by rewrite app_nil_r.
Qed.

Lemma loaded_set os n s v L L' s1 :
  n ∉ omap oline_name os → loaded os L → defined C n = Some s →
  defined (l_conf L) n = Some s1 → same_defs s s1 → s_was_set s1 = false →
  l_missing L' = l_missing L →
  cf_syms (l_conf L') = match reload (s_orig_type s) v with
                        | Some u => <[n := set_user s1 (Some u) true]> (cf_syms (l_conf L))
                        | None => cf_syms (l_conf L) end →
  loaded (os ++ [OSet n s v]) L'.
Proof.
  intros Hn [Hm H] Hd Hd1 Hsd1 Hw1 HLm HL. split; [congruence|]. intros m t Ht.
  destruct (decide (m = n)) as [->|Hne].
  - assert (t = s) as -> by congruence. apply defined_lookup in Hd1 as [Hl1 Hn1].
    assert (∀ w, OSet n s w ∈ os ++ [OSet n s v] → w = v) as Hw.
    { intros w [Hin|Hin%list_elem_of_singleton]%elem_of_app; [|congruence].
      exfalso. apply Hn, oline_names. eauto. }
    destruct (reload (s_orig_type s) v) as [u|] eqn:Er.
    + exists (set_user s1 (Some u) true). split_and!.
      * apply defined_lookup. rewrite HL, lookup_insert_eq. by split.
      * by rewrite Hsd1.
      * intros w ->%Hw _. by rewrite Er.
      * done.
      * intros Hnot. exfalso. apply Hnot, oline_names. exists s, v. apply elem_of_app. right. by left.
    + exists s1. split_and!; try done.
      * apply defined_lookup. by rewrite HL.
      * intros w ->%Hw Hx. congruence.
      * by intros w ->%Hw _.
  - destruct (H m t Ht) as (t' & H1 & H2 & H3 & H4 & H5). exists t'. split_and!; try done;
      try (intros w [?|?%list_elem_of_singleton]%elem_of_app; [eauto|congruence]).
    + apply defined_lookup. apply defined_lookup in H1 as [H1 Hn']. split; [|done]. rewrite HL.
      destruct (reload _ _); [by rewrite lookup_insert_ne|done].
    + intros Hnot. apply H5. intros Hin. apply Hnot. rewrite omap_app, elem_of_app. by left.
Qed.

Lemma load_olines os2 os1 L :
  NoDup (omap oline_name (os1 ++ os2)) → Forall oline_ok os2 → load_inv C L → loaded os1 L →
  ∃ L', res_fold (load_line CONFIG) L (oline_text <$> os2) = Ok L' ∧ load_inv C L' ∧
    loaded (os1 ++ os2) L'.
Proof using Hnames Hvals.
  revert os1 L. induction os2 as [|o os2 IH]; intros os1 L Hnd Hok Hinv Hl.
  { exists L. by rewrite app_nil_r. }
  inv Hok. rewrite cons_middle, app_assoc in Hnd |- *. cbn [fmap list_fmap res_fold].
  assert (∃ L1, load_line CONFIG L (oline_text o) = Ok L1 ∧ load_inv C L1 ∧ loaded (os1 ++ [o]) L1)
    as (L1 & -> & HL1 & HL2).
  2: { cbn [res_bind]. by apply IH. }
  destruct (load_line_total CONFIG C L (oline_text o) Hinv) as (L1 & E & HL1).
  exists L1. split; [done|]. split; [done|]. destruct o as [l|n s v].
  { cbn in E. rewrite load_harmless in E by done. injection E as <-. by apply loaded_text. }
  assert (n ∉ omap oline_name os1) as Hn.
  { rewrite omap_app in Hnd. apply NoDup_app in Hnd as [Hnd _]. rewrite omap_app in Hnd.
    apply NoDup_app in Hnd as (_ & Hnd & _). intros Hin. by apply (Hnd n Hin); left. }
  match goal with H : oline_ok _ |- _ => destruct H as [Hd Hv] end.
  destruct (proj2 Hl n s Hd) as (s1 & Hd1 & Hsd & _ & _ & Hw).
  pose proof (proj1 (defined_lookup _ _ _) Hd) as [Hs _].
  pose proof (proj1 (defined_lookup _ _ _) Hd1) as [Hs1 _].
  destruct (written_reads C V L n s s1 v) as (L2 & E2 & Hm2 & HL2);
    [done|by eapply Hvals|done|by eapply Hnames|done|by apply Hw|by apply (ok_syms _ (li_ok _ _ Hinv) n)|].
  cbn [oline_text] in E. rewrite E in E2. injection E2 as <-.
  eapply loaded_set; try done; [by apply Hw|]. rewrite HL2. by rewrite Hsd.
Qed.
End round_trip.

(** [unset_rest] on a symbol. *)
Definition unset_unless (s : Symbol) : Symbol := if s_was_set s then s else set_user s None false.

Lemma unset_sym_if_syms C n : cf_syms (unset_sym_if C n) = alter unset_unless n (cf_syms C).
Proof.
  unfold unset_sym_if. apply map_eq. intros m. destruct (decide (m = n)) as [->|].
  - rewrite lookup_alter_eq. destruct (cf_syms C !! n) as [s|] eqn:E; cbn; [|by rewrite E].
    unfold unset_unless. destruct (s_was_set s) eqn:Ew; [by rewrite E|]. unfold unset_value. rewrite E.
    destruct (s_user_value s) eqn:Eu; [cbn; by rewrite lookup_insert_eq, Ew|].
    rewrite E. f_equal. destruct s; cbn in *. by subst.
  - rewrite lookup_alter_ne by done. destruct (cf_syms C !! n) as [s|] eqn:E; [|done].
    destruct (s_was_set s); [done|]. unfold unset_value. rewrite E.
    destruct (s_user_value s); [|done]. cbn. by rewrite lookup_insert_ne.
Qed.

Lemma unset_syms_lookup l C n s :
  cf_syms C !! n = Some s →
  cf_syms (foldl unset_sym_if C l) !! n = Some (if decide (n ∈ l) then unset_unless s else s).
Proof.
  assert (∀ t, unset_unless (unset_unless t) = unset_unless t) as Hid.
  { intros t. unfold unset_unless. by destruct (s_was_set t) eqn:E; rewrite ?E. }
  revert C s. induction l as [|m l IH]; intros C s Hs.
  { cbn [foldl]. rewrite Hs, decide_False; [done|apply not_elem_of_nil]. }
  cbn [foldl]. destruct (decide (n = m)) as [->|Hne].
  - rewrite (IH _ (unset_unless s)) by (by rewrite unset_sym_if_syms, lookup_alter_eq, Hs).
    rewrite (decide_True _ _ (list_elem_of_here _ _)). rewrite Hid. by destruct (decide _).
  - rewrite (IH _ s) by (by rewrite unset_sym_if_syms, lookup_alter_ne).
    f_equal. destruct (decide (n ∈ l)); [rewrite decide_True|rewrite decide_False]; try done;
      rewrite elem_of_cons; naive_solver.
Qed.

Lemma choice_folds_syms l C : cf_syms (foldl unset_choice_if C l) = cf_syms C.
Proof.
  revert C. induction l as [|id l IH]; intros C; [done|]. cbn [foldl]. rewrite IH.
  unfold unset_choice_if, choice_unset_value. destruct (cf_choices C !! id) as [c|]; [|done].
  destruct (c_was_set c); [done|]. by destruct (c_user_value c), (c_user_selection c).
Qed.

Lemma unset_rest_lookup C n s :
  n ∈ cf_unique C → cf_syms C !! n = Some s → cf_syms (unset_rest C) !! n = Some (unset_unless s).
Proof.
  intros Hin Hs. unfold unset_rest. rewrite choice_folds_syms, (unset_syms_lookup _ _ _ s Hs).
  by rewrite decide_True.
Qed.

(** The lines of a written file. *)
Lemma written_lines C V header nodes text :
  trees_ok nodes → config_contents CONFIG C V header nodes = Ok text →
  ∃ os w, emits C V (mkWalk [] false header) w os ∧ text = header +:+ lines_text (oline_text <$> os) ∧
    (∀ n, n ∈ w_visited w ↔ n ∈ trees_syms nodes).
Proof.
  intros Hok. unfold config_contents. destruct (walk_nodes _ _ _ _ _) as [w|] eqn:E; [|done].
  intros [= <-]. destruct (walk_trees_emits C V nodes _ w Hok E) as (os & He & Hs).
  exists os, w. split; [done|]. split; [apply He|].
  intros n. rewrite Hs. cbn. rewrite elem_of_nil. tauto.
Qed.

Lemma one_line_assign n t v : name_good n → one_line v → one_line (assign_line n t v).
Proof.
  intros (_ & _ & _ & Hn) Hv. unfold assign_line, quoted.
  repeat case_match; rewrite ?one_line_app; split_and!; try done.
  change (String quote ?x) with (String quote "" +:+ x). rewrite !one_line_app.
  by rewrite one_line_escape.
Qed.

Lemma load_texts ls L : Forall harmless ls → res_fold (load_line CONFIG) L ls = Ok L.
Proof. induction 1 as [|l ls Hl _ IH]; [done|]. cbn [res_fold]. by rewrite load_harmless. Qed.

Lemma same_defs_defined C C' n s :
  frame C C' → defined C n = Some s → ∃ s', defined C' n = Some s' ∧ same_defs s s'.
Proof.
  intros Hf [Hs Hn]%defined_lookup. destruct (frame_lookup _ _ _ _ Hf Hs) as (s' & Hs' & Hd).
  exists s'. split; [|done]. apply defined_lookup. split; [done|]. by rewrite Hd.
Qed.

Lemma loaded_start C C' :
  frame C C' → unique_complete C' → loaded C [] (mkLst (clear_was_set C') []).
Proof.
  intros Hf Hu. split; [done|]. intros n s Hd.
  destruct (same_defs_defined C (clear_was_set C') n s) as (s' & Hs' & Hsd);
    [by etrans; [|apply clear_was_set_frame]|done|].
  exists s'. split_and!; try done; try (by intros v ?%not_elem_of_nil). intros _.
  destruct (same_defs_defined C C' n s Hf Hd) as (t & Ht & _).
  apply defined_lookup in Hs' as [Hs' _]. cbn [l_conf] in *.
  apply (clear_was_set_cleared C' n s'); [by apply (Hu n t)|done].
Qed.

Lemma unique_complete_frame C C' : frame C C' → unique_complete C → unique_complete C'.
Proof.
  intros Hf Hu n s' [Hs' Hn]%defined_lookup. rewrite (fr_unique _ _ Hf).
  destruct (frame_lookup_inv _ _ _ _ Hf Hs') as (s & Hs & Hsd). apply (Hu n s), defined_lookup.
  split; [done|]. rewrite Hsd in Hn. done.
Qed.

(** Reading the lines of a file that was written. *)
Lemma load_written C V C' header os w :
  frame C C' → conf_ok C' → unique_complete C → names_ok C →
  (∀ n s v b, defined C n = Some s → sym_str_value C V n s = Ok (v, b) → one_line v) →
  Forall (λ l, one_line l ∧ harmless l) header →
  emits C V (mkWalk [] false (lines_text header)) w os →
  (∀ n, n ∈ w_visited w → is_Some (defined C n)) →
  ∃ L, res_fold (load_line CONFIG) (mkLst (clear_was_set C') [])
         (file_lines (lines_text header +:+ lines_text (oline_text <$> os))) = Ok L ∧
    load_inv C L ∧ loaded C os L.
Proof.
  intros Hf Hok' Hu Hnames Hvals Hh He Hdef.
  assert (∀ n s v, OSet n s v ∈ os → defined C n = Some s ∧ sym_str_value C V n s = Ok (v, true)) as Hset.
  { intros n s v Hin. destruct (em_set _ _ _ _ _ He n s v Hin) as (Hs & Hv & _ & Hin').
    destruct (Hdef n Hin') as [t Ht]. pose proof Ht as [Ht' _]%defined_lookup.
    assert (t = s) as -> by congruence. done. }
  rewrite <- lines_text_app, file_lines_text.
  2: { apply Forall_app. split; [by eapply Forall_impl; [done|intros ? []]|].
    apply Forall_fmap, Forall_forall. intros [l|n s v] Hin; cbn; [by apply (em_text _ _ _ _ _ He)|].
    destruct (Hset n s v Hin) as [Hd Hv]. apply one_line_assign; [|by eapply Hvals].
    apply defined_lookup in Hd as [Hs _]. by eapply Hnames. }
  rewrite !res_fold_app, load_texts by (by eapply Forall_impl; [done|intros ? []]). cbn [res_bind].
  pose proof (unique_complete_frame _ _ Hf Hu) as Hu'.
  destruct (load_olines C V Hnames Hvals os [] (mkLst (clear_was_set C') [])) as (L & -> & HL & Hl).
  - apply He.
  - apply Forall_forall. intros [l|n s v] Hin; cbn; [by apply (em_text _ _ _ _ _ He)|by apply Hset].
  - destruct (cleared_inv C' [] Hok' Hu') as [H1 H2 H3]. split; [done..|]. by trans C'.
  - by apply loaded_start.
  - exists L. cbn [res_bind res_fold]. rewrite load_harmless by done. done.
Qed.

(** Reading back a .config file, from any text that has the same lines. *)
Lemma round_trip C V C' header nodes text text' miss :
  frame C C' → conf_ok C' → unique_complete C → names_ok C →
  trees_ok nodes → (∀ n, n ∈ trees_syms nodes → is_Some (defined C n)) →
  (∀ n s v b, defined C n = Some s → sym_str_value C V n s = Ok (v, b) → one_line v) →
  Forall (λ l, one_line l ∧ harmless l) header →
  config_contents CONFIG C V (lines_text header) nodes = Ok text → file_lines text' = file_lines text →
  ∃ L, load_config CONFIG true text' (mkLst C' miss) = Ok L ∧ l_missing L = [] ∧
    ∀ n s v b, n ∈ trees_syms nodes → defined C n = Some s → sym_str_value C V n s = Ok (v, b) →
      ∃ s', cf_syms (l_conf L) !! n = Some s' ∧ same_defs s s' ∧
        s_user_value s' = if b : bool then reload (s_orig_type s) v else None.
Proof.
  intros Hf Hok' Hu Hnames Htr Hdef Hvals Hh Htext Hlines.
  destruct (written_lines _ _ _ _ _ Htr Htext) as (os & w & He & -> & Hvis).
  assert (∀ n, n ∈ w_visited w → is_Some (defined C n)) as Hdef'.
  { intros n Hn. apply Hdef. by apply Hvis. }
  destruct (load_written C V C' header os w) as (L & HL & Hinv & [Hm Hl]); try done.
  unfold load_config. cbn [l_conf]. rewrite Hlines, HL. eexists. split; [done|]. split; [done|].
  intros n s v b Hin Hd Hv. cbn [l_conf]. destruct (Hl n s Hd) as (s' & Hd' & Hsd & H1 & H2 & H3).
  exists (unset_unless s'). split; [|split].
  - apply defined_lookup in Hd' as [Hs' _]. apply unset_rest_lookup; [|done].
    rewrite (fr_unique _ _ (li_frame _ _ Hinv)). by apply (Hu n s).
  - unfold unset_unless. destruct (s_was_set s'); [done|]. by rewrite Hsd.
  - unfold unset_unless. pose proof Hd as [Hs _]%defined_lookup. destruct b.
    + assert (OSet n s v ∈ os) as Ho by (apply (em_all _ _ _ _ _ He); [by apply Hvis|apply not_elem_of_nil|done|done]).
      specialize (H1 v Ho). specialize (H2 v Ho).
      destruct (s_was_set s'); [by apply H1|by rewrite H2].
    + rewrite H3; [done|]. intros (s2 & v2 & Ho)%oline_names.
      destruct (em_set _ _ _ _ _ He n s2 v2 Ho) as (Hs2 & Hv2 & _). congruence.
Qed.

(** Reading back a .config file: after [write_config] on one
    configuration and [load_config] into another that differs from it in user
    values at most, nothing is reported as missing, every symbol that was
    written has its value as user value (when the text is a valid user value
    of its type), and every other symbol has none. *)
Theorem config_round_trip C V C' header nodes text miss :
  frame C C' → conf_ok C' → unique_complete C → names_ok C →
  trees_ok nodes → (∀ n, n ∈ trees_syms nodes → is_Some (defined C n)) →
  (∀ n s v b, defined C n = Some s → sym_str_value C V n s = Ok (v, b) → one_line v) →
  Forall (λ l, one_line l ∧ harmless l) header →
  config_contents CONFIG C V (lines_text header) nodes = Ok text →
  ∃ L, load_config CONFIG true text (mkLst C' miss) = Ok L ∧ l_missing L = [] ∧
    ∀ n s v b, n ∈ trees_syms nodes → defined C n = Some s → sym_str_value C V n s = Ok (v, b) →
      ∃ s', cf_syms (l_conf L) !! n = Some s' ∧ same_defs s s' ∧
        s_user_value s' = if b : bool then reload (s_orig_type s) v else None.
Proof. intros. by eapply round_trip. Qed.


(** A tree with the three symbols in a menu. *)
Definition demo_nodes : list mnode :=
  [MNode NMenu "Menu" ky ky (map (λ n, MNode (NSym n) "prompt" ky ky []) ["B"; "S"; "I"])].

Definition demo_before : Conf := demo_io (Some (UTri 2)) (Some (UStr "a\b")).
Definition demo_other : Conf := demo_io None (Some (UStr "new")).

Lemma demo_values n t v w :
  defined demo_before n = Some t →
  sym_str_value demo_before (vals demo_before 5) n t = Ok (v, w) → one_line v.
Proof.
  intros [H _]%defined_lookup. unfold demo_before at 1, demo_io in H. cbn [cf_syms] in H.
  apply lookup_insert_Some in H as [[<- <-]|[_ H]];
    [|apply lookup_insert_Some in H as [[<- <-]|[_ H]];
      [|apply lookup_insert_Some in H as [[<- <-]|[_ H]]; [|by rewrite lookup_empty in H]]];
    intros Hv; vm_compute in Hv; injection Hv as <- _; by split.
Qed.

Lemma demo_names : names_ok demo_before.
Proof. intros n t [(->&_)|[(->&_)|(->&_)]]%demo_io_lookup; by split_and!. Qed.

(** The file that is written. *)
Definition demo_text : string :=
  lines_text ["# header"; ""; "#"; "# Menu"; "#"; "CONFIG_B=y";
    "CONFIG_S=" +:+ quoted "a\b"; "CONFIG_I="; "# end of Menu"].

Lemma config_round_trip_witness :
  ∃ L, config_contents CONFIG demo_before (vals demo_before 5) (lines_text ["# header"]) demo_nodes
      = Ok demo_text ∧
    load_config CONFIG true demo_text (mkLst demo_other []) = Ok L ∧ l_missing L = [] ∧
    ∃ s', cf_syms (l_conf L) !! "S" = Some s' ∧ s_user_value s' = Some (UStr "a\b").
Proof.
  destruct (config_round_trip demo_before (vals demo_before 5) demo_other ["# header"]
    demo_nodes demo_text [] (demo_io_frame _ _ _ _) demo_io_ok (demo_io_unique _ _) demo_names)
    as (L & H1 & H2 & H3).
  - repeat constructor.
  - intros n Hn. vm_compute in Hn. repeat (apply elem_of_cons in Hn as [->|Hn]); [by eexists..|].
    by apply not_elem_of_nil in Hn.
  - exact demo_values.
  - repeat constructor.
  - vm_compute. reflexivity.
  - exists L. split; [vm_compute; reflexivity|]. split; [exact H1|]. split; [exact H2|].
    destruct (H3 "S" (mkSymbol STRING [Some ("prompt", ky)] [] [] kn kn ky None None
      (Some (UStr "a\b")) false) "a\b" true) as (s' & Hs & _ & Hu).
    + right. left.
    + vm_compute. reflexivity.
    + vm_compute. reflexivity.
    + exists s'. split; [exact Hs|exact Hu].
Defined.

End KRound.
