(* ===== verification/KDep.v ===== *)
(** * tools/kconfig/kconfiglib.py: the dependency graph

    [_build_dep], [_add_choice_deps] and the search for dependency loops.  The
    [_dependents] sets are finite sets of symbols and choices; the order in
    which Python iterates over a set is a parameter. *)
From S2P Require Import Prelude Hex PyStr KExpr KSym.

Module KDep.
Import Hex PyStr KExpr KSym.

(** A symbol or a choice, by identity. *)
Inductive sc := Sym (n : string) | Cho (id : nat).
#[global] Instance sc_eq_dec : EqDecision sc.
Proof. solve_decision. Defined.
#[global] Instance sc_countable : Countable sc.
Proof.
  refine (inj_countable' (λ x, match x with Sym n => inl n | Cho id => inr id end)
    (λ x, match x with inl n => Sym n | inr id => Cho id end) _).
  by intros [].
Defined.

(** The symbol or choice an item stands for; constants have none. *)
Definition item_sc (i : item) : option sc :=
  match i with
  | SymItem true _ => None
  | SymItem false n => Some (Sym n)
  | ChoiceItem id _ => Some (Cho id)
  end.

(** ** _build_dep *)

(** The [_dependents] of every item. *)
Notation Deps := (gmap sc (gset sc)).
Definition dependents (D : Deps) (x : sc) : gset sc := default ∅ (D !! x).

(** [x._dependents.add(y)] *)
Definition add_dep (D : Deps) (x y : sc) : Deps := <[x := {[y]} ∪ dependents D x]> D.

Definition depend_on_item (y : sc) (D : Deps) (i : item) : Deps :=
  match item_sc i with Some x => add_dep D x y | None => D end.

Fixpoint depend_on (y : sc) (D : Deps) (e : expr) : Deps :=
  match e with
  | EItem i => depend_on_item y D i
  | EAnd e1 e2 | EOr e1 e2 => depend_on y (depend_on y D e1) e2
  | ENot e => depend_on y D e
  | ERel _ i j => depend_on_item y (depend_on_item y D i) j
  end.

Definition prompt_deps (y : sc) (nodes : list (option (string * expr))) (D : Deps) : Deps :=
  foldl (λ D p, match p with Some (_, cond) => depend_on y D cond | None => D end) D nodes.

Definition sym_deps (n : string) (s : Symbol) (D : Deps) : Deps :=
  let y := Sym n in
  let D := prompt_deps y (s_nodes s) D in
  let D := foldl (λ D vc, depend_on y (depend_on y D vc.1) vc.2) D (s_defaults s) in
  let D := depend_on y D (s_rev_dep s) in
  let D := depend_on y D (s_weak_rev_dep s) in
  let D := foldl (λ D r, depend_on y (depend_on_item y (depend_on_item y D r.1.1) r.1.2) r.2) D
             (s_ranges s) in
  depend_on y D (s_direct_dep s).

Definition choice_deps (id : nat) (c : Choice) (D : Deps) : Deps :=
  let y := Cho id in
  foldl (λ D nc, depend_on y D nc.2) (prompt_deps y (c_nodes c) D) (c_defaults c).

Definition build_dep (C : Conf) : Deps :=
  let D := foldl (λ D n, match cf_syms C !! n with Some s => sym_deps n s D | None => D end) ∅
             (cf_unique C) in
  foldl (λ D id, match cf_choices C !! id with Some c => choice_deps id c D | None => D end) D
    (seq 0 (length (cf_choices C))).

(** Choices also depend on their symbols: for invalidation only. *)
Definition add_choice_deps (C : Conf) (D : Deps) : Deps :=
  foldl (λ D id,
    match cf_choices C !! id with
    | Some c => foldl (λ D n, add_dep D (Sym n) (Cho id)) D (c_syms c)
    | None => D
    end) D (seq 0 (length (cf_choices C))).

(** ** The loop check *)

(** [_visited]: 0, 1 or 2 *)
Notation Visited := (gmap sc nat).
Definition visited (vis : Visited) (x : sc) : nat := default 0 (vis !! x).

Section check.
Context (C : Conf) (D : Deps).
(** The order of iteration over a set. *)
Context (iter : gset sc → list sc).
(** The text of the error for a loop. *)
Context (loop_msg : list sc → string).

(** The loop being recorded, and the marks. *)
Definition outcome : Type := option (list sc) * Visited.

Definition found_dep_loop (loop : list sc) (cur : sc) : res (list sc) :=
  if bool_decide (head loop = Some cur) then Err (KconfigError (loop_msg loop))
  else Ok (loop ++ [cur]).

(** [for x in l: loop = f(x); if loop: return _found_dep_loop(loop, cur)] *)
Fixpoint for_loops (f : sc → Visited → res outcome) (cur : sc) (l : list sc) (vis : Visited)
    : res outcome :=
  match l with
  | [] => Ok (None, vis)
  | x :: l =>
      let* r := f x vis in
      match r.1 with
      | Some loop => let* loop := found_dep_loop loop cur in Ok (Some loop, r.2)
      | None => for_loops f cur l r.2
      end
  end.

(** What is left when no loop was found below [cur]. *)
Definition finish (cur : sc) (r : outcome) : outcome :=
  match r.1 with Some loop => r | None => (None, <[cur := 2]> r.2) end.

Definition sym_choice (n : string) : option nat :=
  match cf_syms C !! n with Some s => s_choice s | None => None end.
Definition choice_syms (id : nat) : list string :=
  match cf_choices C !! id with Some c => c_syms c | None => [] end.

Fixpoint check_dep_loop_sym (fuel : nat) (n : string) (ignore_choice : bool) (vis : Visited)
    : res outcome :=
  match fuel with
  | O => Err OutOfFuel
  | S fuel =>
      match visited vis (Sym n) with
      | 0 =>
          let* r := for_loops (λ x, match x with
                                    | Cho id => check_dep_loop_choice fuel id None
                                    | Sym m => check_dep_loop_sym fuel m false
                                    end) (Sym n) (iter (dependents D (Sym n))) (<[Sym n := 1]> vis) in
          match r.1 with
          | Some _ => Ok r
          | None =>
              match sym_choice n, ignore_choice with
              | Some id, false =>
                  let* r := for_loops (λ _, check_dep_loop_choice fuel id (Some n)) (Sym n) [Cho id] r.2 in
                  Ok (finish (Sym n) r)
              | _, _ => Ok (finish (Sym n) r)
              end
          end
      | 2 => Ok (None, vis)
      | _ => Ok (Some [Sym n], vis)
      end
  end
with check_dep_loop_choice (fuel : nat) (id : nat) (skip : option string) (vis : Visited)
    : res outcome :=
  match fuel with
  | O => Err OutOfFuel
  | S fuel =>
      match visited vis (Cho id) with
      | 0 =>
          let others := filter (λ m, skip ≠ Some m) (choice_syms id) in
          let* r := for_loops (λ x, match x with
                                    | Sym m => check_dep_loop_sym fuel m true
                                    | Cho _ => λ vis, Ok (None, vis)
                                    end) (Cho id) (Sym <$> others) (<[Cho id := 1]> vis) in
          Ok (finish (Cho id) r)
      | 2 => Ok (None, vis)
      | _ => Ok (Some [Cho id], vis)
      end
  end.

(** Each call below another marks an item first. *)
Definition check_fuel : nat := length (cf_unique C) + length (cf_choices C) + 2.

(** The check in [_init], on every defined symbol. *)
Definition check_dep_loops : res Visited :=
  res_fold (λ vis n, let* r := check_dep_loop_sym check_fuel n false vis in Ok r.2) ∅ (cf_unique C).
End check.

End KDep.
