(* ===== verification/KDepSpec.v ===== *)
(** * The dependency graph and the loop check

    [_build_dep] records exactly the references of the properties; the search
    for loops ends, and where it finds none the symbols can be ordered by
    their references, so that the values of a configuration without choices
    are computed in finitely many steps.  With choices the search can miss a
    loop. *)
From S2P Require Import Prelude Hex PyStr KExpr KSym KParseSpec KSymSpec KFix KDep.

Module KDepSpec.
Import Hex PyStr KExpr KSym KSymSpec KFix KDep.

(** ** What _build_dep records *)

Definition refs (e : expr) : list sc := omap item_sc (expr_items e).
Definition prompt_refs (nodes : list (option (string * expr))) : list sc :=
  nodes ≫= λ p, match p with Some (_, cond) => refs cond | None => [] end.

(** The items the properties of a symbol refer to. *)
Definition sym_refs (s : Symbol) : list sc :=
  prompt_refs (s_nodes s) ++
  (s_defaults s ≫= λ vc, refs vc.1 ++ refs vc.2) ++
  refs (s_rev_dep s) ++ refs (s_weak_rev_dep s) ++
  (s_ranges s ≫= λ r, omap item_sc [r.1.1; r.1.2] ++ refs r.2) ++
  refs (s_direct_dep s).

(** The items the prompts and defaults of a choice refer to. *)
Definition choice_refs (c : Choice) : list sc :=
  prompt_refs (c_nodes c) ++ (c_defaults c ≫= λ nc, refs nc.2).

(** [D'] is [D] with [y] added to the dependents of the items of [l]. *)
Definition adds (y : sc) (l : list sc) (D D' : Deps) : Prop :=
  ∀ x z, z ∈ dependents D' x ↔ z ∈ dependents D x ∨ (z = y ∧ x ∈ l).

Lemma adds_nil y D : adds y [] D D.
Proof. intros x z. rewrite elem_of_nil. tauto. Qed.

Lemma adds_app y l1 l2 D1 D2 D3 : adds y l1 D1 D2 → adds y l2 D2 D3 → adds y (l1 ++ l2) D1 D3.
Proof. intros H1 H2 x z. rewrite (H2 x z), (H1 x z), elem_of_app. tauto. Qed.

Lemma adds_foldl {A} y (f : Deps → A → Deps) (g : A → list sc) l D :
  (∀ D a, adds y (g a) D (f D a)) → adds y (l ≫= g) D (foldl f D l).
Proof.
  intros Hf. revert D. induction l as [|a l IH]; intros D; [apply adds_nil|].
  cbn. eapply adds_app; [apply Hf|apply IH].
Qed.

Lemma add_dep_spec D x y x' z :
  z ∈ dependents (add_dep D x y) x' ↔ z ∈ dependents D x' ∨ (z = y ∧ x' = x).
Proof.
  unfold add_dep, dependents. destruct (decide (x' = x)) as [->|Hne].
  - rewrite lookup_insert_eq. cbn. rewrite elem_of_union, elem_of_singleton. tauto.
  - rewrite lookup_insert_ne by done. naive_solver.
Qed.

Lemma depend_on_item_spec y D i : adds y (omap item_sc [i]) D (depend_on_item y D i).
Proof.
  intros x z. unfold depend_on_item. cbn. destruct (item_sc i) as [x0|].
  - rewrite add_dep_spec, list_elem_of_singleton. done.
  - rewrite elem_of_nil. tauto.
Qed.

Lemma adds_items y i j D :
  adds y (omap item_sc [i; j]) D (depend_on_item y (depend_on_item y D i) j).
Proof.
  change [i; j] with ([i] ++ [j]). rewrite omap_app.
  eapply adds_app; apply depend_on_item_spec.
Qed.

Lemma depend_on_spec y D e : adds y (refs e) D (depend_on y D e).
Proof.
  unfold refs. revert D. induction e as [i|e1 IH1 e2 IH2|e1 IH1 e2 IH2|e IH|r i j]; intros D;
    cbn [depend_on expr_items]; rewrite ?omap_app.
  - apply depend_on_item_spec.
  - eapply adds_app; [apply IH1|apply IH2].
  - eapply adds_app; [apply IH1|apply IH2].
  - apply IH.
  - apply adds_items.
Qed.

Lemma prompt_deps_spec y nodes D : adds y (prompt_refs nodes) D (prompt_deps y nodes D).
Proof.
  apply adds_foldl. intros D' [[t cond]|]; [apply depend_on_spec|apply adds_nil].
Qed.

Lemma sym_deps_spec n s D : adds (Sym n) (sym_refs s) D (sym_deps n s D).
Proof.
  unfold sym_refs, sym_deps. eapply adds_app; [apply prompt_deps_spec|].
  eapply adds_app; [apply (adds_foldl (Sym n) (λ D vc, depend_on (Sym n) (depend_on (Sym n) D vc.1) vc.2)
    (λ vc, refs vc.1 ++ refs vc.2))|].
  { intros D' vc. eapply adds_app; apply depend_on_spec. }
  eapply adds_app; [apply depend_on_spec|]. eapply adds_app; [apply depend_on_spec|].
  eapply adds_app; [|apply depend_on_spec].
  apply (adds_foldl (Sym n) _ (λ r, omap item_sc [r.1.1; r.1.2] ++ refs r.2)).
  intros D' r. eapply adds_app; [apply adds_items|apply depend_on_spec].
Qed.

Lemma choice_deps_spec id c D : adds (Cho id) (choice_refs c) D (choice_deps id c D).
Proof.
  unfold choice_refs, choice_deps. eapply adds_app; [apply prompt_deps_spec|].
  apply (adds_foldl (Cho id) _ (λ nc, refs nc.2)). intros D' nc. apply depend_on_spec.
Qed.

(** Adding over a list of dependents. *)
Lemma foldl_deps {A} (f : Deps → A → Deps) (g : A → list (sc * list sc)) l D :
  (∀ D a x z, z ∈ dependents (f D a) x ↔ z ∈ dependents D x ∨ ∃ r, (z, r) ∈ g a ∧ x ∈ r) →
  ∀ x z, z ∈ dependents (foldl f D l) x ↔
         z ∈ dependents D x ∨ ∃ a r, a ∈ l ∧ (z, r) ∈ g a ∧ x ∈ r.
Proof.
  intros Hf. revert D. induction l as [|a l IH]; intros D x z.
  { cbn. split; [auto|]. intros [?|(a & r & Ha & _)]; [done|]. by apply not_elem_of_nil in Ha. }
  cbn [foldl]. rewrite IH, Hf. split.
  - intros [[?|(r & ? & ?)]|(b & r & ? & ? & ?)]; [by left|right; exists a, r|right; exists b, r];
      (split; [|done]); rewrite elem_of_cons; auto.
  - intros [?|(b & r & Hb & ? & ?)]; [by auto|]. apply elem_of_cons in Hb as [->|Hb]; eauto 6.
Qed.

Lemma build_dep_spec C x y :
  y ∈ dependents (build_dep C) x ↔
  (∃ n s, y = Sym n ∧ n ∈ cf_unique C ∧ cf_syms C !! n = Some s ∧ x ∈ sym_refs s) ∨
  (∃ id c, y = Cho id ∧ cf_choices C !! id = Some c ∧ x ∈ choice_refs c).
Proof.
  unfold build_dep.
  rewrite (foldl_deps _ (λ id, match cf_choices C !! id with
                               | Some c => [(Cho id, choice_refs c)] | None => [] end)).
  2: { intros D id x' z. destruct (cf_choices C !! id) as [c|].
       - rewrite (choice_deps_spec id c D x' z). setoid_rewrite list_elem_of_singleton. naive_solver.
       - setoid_rewrite elem_of_nil. naive_solver. }
  rewrite (foldl_deps _ (λ n, match cf_syms C !! n with
                              | Some s => [(Sym n, sym_refs s)] | None => [] end)).
  2: { intros D n x' z. destruct (cf_syms C !! n) as [s|].
       - rewrite (sym_deps_spec n s D x' z). setoid_rewrite list_elem_of_singleton. naive_solver.
       - setoid_rewrite elem_of_nil. naive_solver. }
  assert (y ∉ dependents ∅ x) as He by (unfold dependents; rewrite lookup_empty; set_solver).
  split.
  - intros [[?|(n & r & Hn & Hr & Hx)]|(id & r & Hid & Hr & Hx)]; [done|left|right].
    + destruct (cf_syms C !! n) as [s|] eqn:E; [|by apply not_elem_of_nil in Hr].
      apply list_elem_of_singleton in Hr as [= -> ->]. by exists n, s.
    + destruct (cf_choices C !! id) as [c|] eqn:E; [|by apply not_elem_of_nil in Hr].
      apply list_elem_of_singleton in Hr as [= -> ->]. by exists id, c.
  - intros [(n & s & -> & Hn & Hs & Hx)|(id & c & -> & Hc & Hx)]; [left; right|right].
    + exists n, (sym_refs s). rewrite Hs, list_elem_of_singleton. done.
    + exists id, (choice_refs c). rewrite Hc, list_elem_of_singleton. split_and!; try done.
      apply elem_of_seq. apply lookup_lt_Some in Hc. lia.
Qed.

(** The dependency graph has exactly the references of the properties:
    [y] is among the dependents of [x] if and only if [y] is a defined symbol
    one of whose prompt conditions, defaults, ranges or (weak, reverse or
    direct) dependencies mentions [x], or a choice one of whose prompt or
    default conditions does. *)
Theorem build_dep_exact C x y :
  y ∈ dependents (build_dep C) x ↔
  (∃ n s, y = Sym n ∧ n ∈ cf_unique C ∧ cf_syms C !! n = Some s ∧ x ∈ sym_refs s) ∨
  (∃ id c, y = Cho id ∧ cf_choices C !! id = Some c ∧ x ∈ choice_refs c).
Proof. apply build_dep_spec. Qed.

(** ** The search for loops *)

Section search.
Context (C : Conf) (D : Deps) (iter : gset sc → list sc) (loop_msg : list sc → string).
Context (Hiter : ∀ X x, x ∈ iter X ↔ x ∈ X).

Notation check_sym := (check_dep_loop_sym C D iter loop_msg).
Notation check_choice := (check_dep_loop_choice C D iter loop_msg).

(** The items marked 2, in the order they were: each symbol after everything
    that depends on it. *)
Definition ordered (fin : list sc) : Prop :=
  ∀ l1 n l2, fin = l1 ++ Sym n :: l2 → ∀ y, y ∈ dependents D (Sym n) → y ∈ l1.

Record marks (vis : Visited) (fin : list sc) : Prop := {
  mk_range x : visited vis x ≤ 2;
  mk_done x : visited vis x = 2 ↔ x ∈ fin;
  mk_nodup : NoDup fin;
  mk_ordered : ordered fin
}.

(** What a search that finds no loop does to the marks. *)
Record searched (vis : Visited) (fin : list sc) (vis' : Visited) (l : list sc) : Prop := {
  se_open x : visited vis' x = 1 ↔ visited vis x = 1;
  se_marks : ∃ more, marks vis' (fin ++ more) ∧ ∀ x, x ∈ l → x ∈ fin ++ more
}.

Lemma visited_insert vis x k y : visited (<[x := k]> vis) y = if decide (y = x) then k else visited vis y.
Proof.
  unfold visited. destruct (decide (y = x)) as [->|]; [by rewrite lookup_insert_eq|].
  by rewrite lookup_insert_ne.
Qed.

Lemma marks_open vis fin x : marks vis fin → visited vis x = 0 → marks (<[x := 1]> vis) fin.
Proof.
  intros [Hr H1 H2 H3] H0. split; [| |done..]; intros y; rewrite visited_insert.
  - destruct (decide (y = x)); [lia|done].
  - rewrite <- H1. destruct (decide (y = x)) as [->|]; [|done]. by rewrite H0.
Qed.

Lemma searched_trans vis fin vis1 l1 vis2 l2 :
  searched vis fin vis1 l1 →
  (∀ more, marks vis1 (fin ++ more) → searched vis1 (fin ++ more) vis2 l2) →
  searched vis fin vis2 (l1 ++ l2).
Proof.
  intros [O1 (m1 & M1 & L1)] H2. destruct (H2 m1 M1) as [O2 (m2 & M2 & L2)].
  split; [intros x; by rewrite O2|]. exists (m1 ++ m2). rewrite app_assoc. split; [done|].
  intros x [Hx|Hx]%elem_of_app; [|by apply L2]. apply elem_of_app. left. by apply L1.
Qed.

Lemma searched_none vis fin x : marks vis fin → visited vis x = 2 → searched vis fin vis [x].
Proof.
  intros HM Hx. split; [done|]. exists []. rewrite app_nil_r. split; [done|].
  intros y ->%list_elem_of_singleton. by apply HM.
Qed.

Lemma for_loops_searched f cur l vis fin vis' :
  (∀ x vis fin vis', x ∈ l → marks vis fin → f x vis = Ok (None, vis') → searched vis fin vis' [x]) →
  marks vis fin → for_loops loop_msg f cur l vis = Ok (None, vis') → searched vis fin vis' l.
Proof.
  revert vis fin. induction l as [|x l IH]; intros vis fin Hf HM H.
  { injection H as <-. split; [done|]. exists []. rewrite app_nil_r. split; [done|].
    by intros x ?%not_elem_of_nil. }
  cbn [for_loops] in H. destruct (f x vis) as [[[loop|] vis1]|] eqn:E; cbn in H; [|clear Hiter|done].
  { by destruct (found_dep_loop loop_msg loop cur). }
  change (x :: l) with ([x] ++ l). eapply searched_trans; [apply Hf; [by left|done|exact E]|].
  intros more HM'. apply (IH vis1); [|done|done]. intros y v fn v' Hy. apply Hf. by right.
Qed.

(** Closing an item after everything below it was searched. *)
Lemma searched_finish vis fin cur l vis1 :
  marks vis fin → visited vis cur = 0 →
  searched (<[cur := 1]> vis) fin vis1 l →
  (∀ n, cur = Sym n → ∀ y, y ∈ dependents D (Sym n) → y ∈ l) →
  searched vis fin (<[cur := 2]> vis1) [cur].
Proof.
  intros HM H0 [O (more & [Mr M1 M2 M3] & L)] Hdep.
  assert (visited vis1 cur = 1) as Hcur by (apply O; by rewrite visited_insert, decide_True).
  split.
  - intros x. rewrite visited_insert. destruct (decide (x = cur)) as [->|Hne]; [by rewrite H0|].
    by rewrite O, visited_insert, decide_False.
  - exists (more ++ [cur]). rewrite app_assoc. split; [split|].
    + intros x. rewrite visited_insert. destruct (decide (x = cur)); [lia|done].
    + intros x. rewrite visited_insert, elem_of_app, list_elem_of_singleton, <- M1.
      destruct (decide (x = cur)) as [->|]; naive_solver.
    + apply NoDup_app. split_and!; [done| |apply NoDup_singleton].
      intros x Hx ->%list_elem_of_singleton. apply M1 in Hx. congruence.
    + intros l1 n l2 Hl y Hy. destruct l2 as [|z l2] using rev_ind.
      * apply app_inj_tail in Hl as [<- Hc]. apply L. by eapply Hdep.
      * clear IHl2. rewrite app_comm_cons, app_assoc in Hl. apply app_inj_tail in Hl as [Hl _].
        by eapply (M3 l1 n l2).
    + intros x ->%list_elem_of_singleton. rewrite elem_of_app. right. by left.
Qed.

Lemma finish_none cur r vis' : finish cur r = (None, vis') → r.1 = None ∧ vis' = <[cur := 2]> r.2.
Proof. unfold finish. destruct r as [[loop|] v]; [done|]. by intros [= <-]. Qed.

Lemma checks_searched fuel :
  (∀ n ig vis fin vis', marks vis fin → check_sym fuel n ig vis = Ok (None, vis') →
     searched vis fin vis' [Sym n]) ∧
  (∀ id skip vis fin vis', marks vis fin → check_choice fuel id skip vis = Ok (None, vis') →
     searched vis fin vis' [Cho id]).
Proof using Hiter.
  induction fuel as [|fuel [IHs IHc]]; [done|]. split.
  - intros n ig vis fin vis' HM H. cbn [check_dep_loop_sym] in H.
    destruct (visited vis (Sym n)) as [|[|[|]]] eqn:Ev; try done.
    2: { injection H as <-. by apply searched_none. }
    set (f := λ x : sc, _) in H. set (deps := iter (dependents D (Sym n))) in H.
    destruct (for_loops loop_msg f (Sym n) deps (<[Sym n := 1]> vis)) as [[o vis1]|] eqn:E; [|done].
    cbn [res_bind fst snd] in H. destruct o as [loop|]; [done|].
    assert (searched (<[Sym n := 1]> vis) fin vis1 deps) as H1.
    { eapply for_loops_searched; [|by apply marks_open|exact E].
      intros [m|id] v fn v' _; [apply IHs|apply IHc]. }
    assert (∀ l vis2, searched (<[Sym n := 1]> vis) fin vis2 (deps ++ l) →
      searched vis fin (<[Sym n := 2]> vis2) [Sym n]) as Hfin.
    { intros l vis2 H2. eapply searched_finish; [done|done|exact H2|].
      intros m [= <-] y Hy. apply elem_of_app. left. by apply Hiter. }
    assert (Ok (finish (Sym n) (None, vis1)) = Ok (None, vis') → searched vis fin vis' [Sym n]) as Hnone.
    { intros [= <-]. apply (Hfin []). by rewrite app_nil_r. }
    destruct (sym_choice C n) as [id|]; [|by apply Hnone]. destruct ig; [by apply Hnone|].
    destruct (for_loops loop_msg _ (Sym n) [Cho id] vis1) as [r|] eqn:E2; [|done].
    cbn [res_bind] in H. injection H as H. apply finish_none in H as [Hr ->].
    destruct r as [o vis2]. cbn in Hr. subst o. apply (Hfin [Cho id]).
    eapply searched_trans; [exact H1|]. intros more HM1.
    eapply for_loops_searched; [|exact HM1|exact E2].
    intros x v fn v' ->%list_elem_of_singleton. apply IHc.
  - intros id skip vis fin vis' HM H. cbn [check_dep_loop_choice] in H.
    destruct (visited vis (Cho id)) as [|[|[|]]] eqn:Ev; try done.
    2: { injection H as <-. by apply searched_none. }
    destruct (for_loops loop_msg _ (Cho id) _ _) as [r|] eqn:E; [|done].
    cbn [res_bind] in H. injection H as H. apply finish_none in H as [Hr ->].
    destruct r as [o vis1]. cbn in Hr. subst o.
    eapply searched_finish; [done|done| |done].
    eapply for_loops_searched; [|by apply marks_open|exact E].
    intros x v fn v' (m & -> & _)%list_elem_of_fmap. apply IHs.
Qed.

(** A loop that is passed up starts at an item still open. *)
Definition passes (vis : Visited) (loop : list sc) : Prop :=
  ∃ h, head loop = Some h ∧ visited vis h = 1.

Lemma for_loops_passes f cur l vis fin loop vis' :
  (∀ x vis fin vis', x ∈ l → marks vis fin → f x vis = Ok (None, vis') → searched vis fin vis' [x]) →
  (∀ x vis fin loop vis', x ∈ l → marks vis fin → f x vis = Ok (Some loop, vis') → passes vis loop) →
  marks vis fin → for_loops loop_msg f cur l vis = Ok (Some loop, vis') →
  ∃ h, head loop = Some h ∧ visited vis h = 1 ∧ h ≠ cur.
Proof.
  intros Hn Hs. revert vis fin. induction l as [|x l IH]; intros vis fin HM H; [done|].
  cbn [for_loops] in H. destruct (f x vis) as [[[lp|] vis1]|] eqn:E; cbn in H; [| |done].
  - unfold found_dep_loop in H. case_bool_decide as Hc; [done|]. injection H as <- _.
    destruct (Hs x vis fin lp vis1) as (h & Hh & Hv); [by left|done..|].
    exists h. destruct lp as [|h' lp]; [done|]. cbn in *. naive_solver.
  - destruct (Hn x vis fin vis1) as [O (more & HM1 & _)]; [by left|done..|].
    destruct (IH ltac:(intros; eapply Hn; [by right|done..])
      ltac:(intros; eapply Hs; [by right|done..]) vis1 _ HM1 H) as (h & ? & Hv & ?).
    exists h. split_and!; [done|by apply O|done].
Qed.

Lemma checks_passes fuel :
  (∀ n ig vis fin loop vis', marks vis fin → check_sym fuel n ig vis = Ok (Some loop, vis') →
     passes vis loop) ∧
  (∀ id skip vis fin loop vis', marks vis fin → check_choice fuel id skip vis = Ok (Some loop, vis') →
     passes vis loop).
Proof using Hiter.
  induction fuel as [|fuel [IHs IHc]]; [done|].
  destruct (checks_searched fuel) as [Ss Sc].
  assert (∀ vis cur h, visited (<[cur := 1]> vis) h = 1 → h ≠ cur → visited vis h = 1) as Hopen.
  { intros vis cur h Hv Hne. by rewrite visited_insert, decide_False in Hv. }
  split.
  - intros n ig vis fin loop vis' HM H. cbn [check_dep_loop_sym] in H.
    pose proof (mk_range _ _ HM (Sym n)) as Hr.
    destruct (visited vis (Sym n)) as [|[|[|]]] eqn:Ev; [|injection H as <- _; by exists (Sym n)|done|lia].
    set (f := λ x : sc, _) in H. set (deps := iter (dependents D (Sym n))) in H.
    destruct (for_loops loop_msg f (Sym n) deps (<[Sym n := 1]> vis)) as [[o vis1]|] eqn:E; [|done].
    assert (∀ x v fn v', x ∈ deps → marks v fn → f x v = Ok (None, v') → searched v fn v' [x]) as Hn.
    { intros [m|id] v fn v' _; [apply Ss|apply Sc]. }
    cbn [res_bind fst snd] in H. destruct o as [lp|].
    { injection H as -> ->. destruct (for_loops_passes f (Sym n) deps (<[Sym n := 1]> vis) fin loop vis')
        as (h & Hh & Hv & Hne); [done| |by apply marks_open|done|].
      - intros [m|id] v fn lp v' _; [apply IHs|apply IHc].
      - exists h. split; [done|]. by eapply Hopen. }
    destruct (for_loops_searched f (Sym n) deps (<[Sym n := 1]> vis) fin vis1 Hn
      (marks_open _ _ _ HM Ev) E) as [O (more & HM1 & _)].
    destruct (sym_choice C n) as [id|]; [|done]. destruct ig; [done|].
    destruct (for_loops loop_msg _ (Sym n) [Cho id] vis1) as [r|] eqn:E2; [|done].
    cbn [res_bind] in H. destruct r as [[lp|] vis2]; [|done]. injection H as -> ->.
    eapply for_loops_passes in E2 as (h & Hh & Hv & Hne); [| | |exact HM1].
    + exists h. split; [done|]. apply (Hopen vis (Sym n)); [|done]. by apply O.
    + intros x v fn v' ->%list_elem_of_singleton. apply Sc.
    + intros x v fn lp v' ->%list_elem_of_singleton. apply IHc.
  - intros id skip vis fin loop vis' HM H. cbn [check_dep_loop_choice] in H.
    pose proof (mk_range _ _ HM (Cho id)) as Hr.
    destruct (visited vis (Cho id)) as [|[|[|]]] eqn:Ev; [|injection H as <- _; by exists (Cho id)|done|lia].
    destruct (for_loops loop_msg _ (Cho id) _ _) as [r|] eqn:E; [|done].
    cbn [res_bind] in H. destruct r as [[lp|] vis2]; [|done]. injection H as -> ->.
    eapply for_loops_passes in E as (h & Hh & Hv & Hne); [| | |by apply marks_open].
    + exists h. split; [done|]. by eapply Hopen.
    + intros x v fn v' (m & -> & _)%list_elem_of_fmap. apply Ss.
    + intros x v fn lp v' (m & -> & _)%list_elem_of_fmap. apply IHs.
Qed.

(** The order a search over all the symbols leaves. *)
Lemma check_all_ordered l vis fin vis' :
  marks vis fin → (∀ x, visited vis x ≠ 1) →
  res_fold (λ vis n, let* r := check_sym (check_fuel C) n false vis in Ok r.2) vis l = Ok vis' →
  ∃ fin', marks vis' fin' ∧ (∀ n, n ∈ l → Sym n ∈ fin') ∧ ∀ x, x ∈ fin → x ∈ fin'.
Proof using Hiter.
  revert vis fin. induction l as [|n l IH]; intros vis fin HM H1 H.
  { injection H as <-. exists fin. split_and!; try done. by intros n ?%not_elem_of_nil. }
  cbn [res_fold] in H. destruct (check_sym (check_fuel C) n false vis) as [[[loop|] vis1]|] eqn:E;
    [| |done]; cbn [res_bind snd] in H.
  { destruct (proj1 (checks_passes _) _ _ _ _ _ _ HM E) as (h & _ & Hv). by destruct (H1 h). }
  destruct (proj1 (checks_searched _) _ _ _ _ _ HM E) as [O (more & HM1 & L)].
  destruct (IH vis1 _ HM1) as (fin' & HM' & Hl & Hsub); [intros x; by rewrite O|done|].
  exists fin'. split_and!; [done| |].
  - intros m [->|Hm]%elem_of_cons; [apply Hsub, L; by left|by apply Hl].
  - intros x Hx. apply Hsub, elem_of_app. by left.
Qed.


(** *** The search ends *)

(** A set of items that the search does not leave. *)
Context (U : list sc).
Context (HU_dep : ∀ n y, y ∈ dependents D (Sym n) → y ∈ U).
Context (HU_choice : ∀ n id, Sym n ∈ U → sym_choice C n = Some id → Cho id ∈ U).
Context (HU_syms : ∀ id m, m ∈ choice_syms C id → Sym m ∈ U).

Definition unvisited (vis : Visited) : nat := length (filter (λ x, visited vis x = 0) U).

(** Marks only go up from 0, and an error is the report of a loop. *)
Definition grown (vis vis' : Visited) : Prop := ∀ x, visited vis' x = 0 → visited vis x = 0.
Definition ends (vis : Visited) (r : res outcome) : Prop :=
  match r with Ok (_, vis') => grown vis vis' | Err e => ∃ loop, e = KconfigError (loop_msg loop) end.

Lemma unvisited_grown vis vis' : grown vis vis' → unvisited vis' ≤ unvisited vis.
Proof.
  intros H. unfold unvisited. clear -H. induction U as [|x l IH]; [done|]. rewrite !filter_cons.
  destruct (decide (visited vis' x = 0)) as [E|].
  - rewrite (decide_True _ _ (H x E)). cbn. lia.
  - destruct (decide (visited vis x = 0)); cbn; lia.
Qed.

Lemma grown_insert vis x k : k ≠ 0 → grown vis (<[x := k]> vis).
Proof. intros Hk y. rewrite visited_insert. by destruct (decide (y = x)). Qed.

Lemma grown_trans vis1 vis2 vis3 : grown vis1 vis2 → grown vis2 vis3 → grown vis1 vis3.
Proof. unfold grown. auto. Qed.

Lemma unvisited_mark vis x : x ∈ U → visited vis x = 0 → unvisited (<[x := 1]> vis) < unvisited vis.
Proof.
  intros Hx H0. apply list_elem_of_split in Hx as (l1 & l2 & HUx). unfold unvisited.
  assert (∀ l, length (filter (λ y, visited (<[x := 1]> vis) y = 0) l) ≤
               length (filter (λ y, visited vis y = 0) l)) as Hle.
  { clear -H0. induction l as [|y l IH]; [done|]. rewrite !filter_cons, visited_insert.
    repeat case_decide; subst; cbn [length]; lia. }
  rewrite HUx, !filter_app, !length_app, !filter_cons, visited_insert, (decide_True _ _ (eq_refl x)).
  rewrite (decide_True _ _ H0), (decide_False (P := 1 = 0)) by done.
  pose proof (Hle l1). pose proof (Hle l2). cbn [length]. lia.
Qed.

Lemma for_loops_ends f cur l vis :
  (∀ x vis', x ∈ l → grown vis vis' → ends vis' (f x vis')) →
  ends vis (for_loops loop_msg f cur l vis).
Proof.
  assert (∀ vis0, grown vis vis0 → (∀ x vis', x ∈ l → grown vis vis' → ends vis' (f x vis')) →
    ends vis (for_loops loop_msg f cur l vis0)) as H; [|intros Hf; apply H; [by intros ?|done]].
  induction l as [|x l IH]; intros vis0 H0 Hf; [done|]. cbn [for_loops].
  pose proof (Hf x vis0 ltac:(by left) H0) as Hx.
  destruct (f x vis0) as [[[lp|] vis1]|]; cbn in *; [| |done].
  - unfold found_dep_loop. case_bool_decide; cbn; [by eexists|by eapply grown_trans].
  - apply IH; [by eapply grown_trans|]. intros y vis' Hy. apply Hf. by right.
Qed.

Lemma ends_weaken vis vis' r : grown vis vis' → ends vis' r → ends vis r.
Proof. destruct r as [[o v]|]; [|done]. cbn. intros H1 H2. by eapply grown_trans. Qed.

Lemma finish_ends vis cur r : ends vis r → ends vis (let* o := r in Ok (finish cur o)).
Proof.
  destruct r as [[[lp|] vis1]|]; cbn; [done| |done]. intros H.
  eapply grown_trans; [done|]. by apply grown_insert.
Qed.

Lemma checks_end fuel :
  (∀ n ig vis, Sym n ∈ U → unvisited vis < fuel → ends vis (check_sym fuel n ig vis)) ∧
  (∀ id skip vis, Cho id ∈ U → unvisited vis < fuel → ends vis (check_choice fuel id skip vis)).
Proof using Hiter HU_dep HU_choice HU_syms.
  induction fuel as [|fuel [IHs IHc]]; [split; intros; lia|].
  assert (∀ vis x vis', x ∈ U → visited vis x = 0 → unvisited vis < S fuel →
    grown (<[x := 1]> vis) vis' → unvisited vis' < fuel) as Hless.
  { intros vis x vis' Hx H0 Hf Hg. apply unvisited_grown in Hg.
    pose proof (unvisited_mark vis x Hx H0). lia. }
  assert (∀ vis x r, ends (<[x := 1]> vis) r → ends vis r) as Hmark.
  { intros vis x r. by apply ends_weaken, grown_insert. }
  split.
  - intros n ig vis Hn Hf. cbn [check_dep_loop_sym].
    destruct (visited vis (Sym n)) as [|[|[|]]] eqn:Ev; try by intros ?.
    set (f := λ x : sc, _). set (deps := iter (dependents D (Sym n))).
    assert (ends (<[Sym n := 1]> vis) (for_loops loop_msg f (Sym n) deps (<[Sym n := 1]> vis))) as H1.
    { apply for_loops_ends. intros x vis' Hx%Hiter%HU_dep Hg.
      pose proof (Hless vis (Sym n) vis' Hn Ev Hf Hg). destruct x; [by apply IHs|by apply IHc]. }
    destruct (for_loops loop_msg f (Sym n) deps (<[Sym n := 1]> vis)) as [[[lp|] vis1]|]; cbn in *;
      [by eapply (Hmark vis (Sym n) (Ok (Some lp, vis1)))| |done].
    assert (grown vis (<[Sym n := 2]> vis1)) as Hg2.
    { eapply grown_trans; [|by apply grown_insert]. by apply (Hmark vis (Sym n) (Ok (None, vis1))). }
    destruct (sym_choice C n) as [id|] eqn:Ec; [|done]. destruct ig; [done|].
    assert (ends vis1 (for_loops loop_msg (λ _, check_choice fuel id (Some n)) (Sym n) [Cho id] vis1)) as H2.
    { apply for_loops_ends. intros x vis' _ Hg. apply IHc; [by eapply HU_choice|].
      apply (Hless vis (Sym n) vis' Hn Ev Hf). by eapply grown_trans. }
    apply (Hmark vis (Sym n)). apply (ends_weaken _ vis1); [done|]. by apply finish_ends.
  - intros id skip vis Hid Hf. cbn [check_dep_loop_choice].
    destruct (visited vis (Cho id)) as [|[|[|]]] eqn:Ev; try by intros ?.
    apply (Hmark vis (Cho id)), finish_ends, for_loops_ends.
    intros x vis' (m & -> & Hm)%list_elem_of_fmap Hg. apply list_elem_of_filter in Hm as [_ Hm].
    apply IHs; [by eapply HU_syms|]. by eapply Hless.
Qed.
End search.

(** The defined symbols and the choices. *)
Definition conf_items (C : Conf) : list sc :=
  (Sym <$> cf_unique C) ++ (Cho <$> seq 0 (length (cf_choices C))).

(** Choices and their symbols refer to each other. *)
Record graph_wf (C : Conf) : Prop := {
  gw_syms id c m : cf_choices C !! id = Some c → m ∈ c_syms c → m ∈ cf_unique C;
  gw_choice n s id : cf_syms C !! n = Some s → s_choice s = Some id → is_Some (cf_choices C !! id)
}.

Lemma conf_items_sym C n : Sym n ∈ conf_items C ↔ n ∈ cf_unique C.
Proof.
  unfold conf_items. rewrite elem_of_app, !list_elem_of_fmap. split; [|eauto].
  intros [(m & [= ->] & ?)|(id & ? & _)]; done.
Qed.
Lemma conf_items_cho C id : Cho id ∈ conf_items C ↔ is_Some (cf_choices C !! id).
Proof.
  unfold conf_items. rewrite elem_of_app, !list_elem_of_fmap, lookup_lt_is_Some. split.
  - intros [(m & ? & _)|(j & [= ->] & Hj)]; [done|]. apply elem_of_seq in Hj. lia.
  - intros H. right. exists id. split; [done|]. apply elem_of_seq. lia.
Qed.

Lemma build_dep_items C x y : y ∈ dependents (build_dep C) x → y ∈ conf_items C.
Proof.
  intros [(n & s & -> & Hn & _)|(id & c & -> & Hc & _)]%build_dep_spec.
  - by apply conf_items_sym.
  - apply conf_items_cho. eauto.
Qed.

Lemma loop_check_known C iter loop_msg :
  (∀ X x, x ∈ iter X ↔ x ∈ X) → graph_wf C →
  match check_dep_loops C (build_dep C) iter loop_msg with
  | Ok _ => True
  | Err e => ∃ loop, e = KconfigError (loop_msg loop)
  end.
Proof.
  intros Hiter [Hs Hc]. unfold check_dep_loops.
  assert (∀ l vis, (∀ n, n ∈ l → n ∈ cf_unique C) →
    match res_fold (λ vis n, let* r := check_dep_loop_sym C (build_dep C) iter loop_msg
                       (check_fuel C) n false vis in Ok r.2) vis l with
    | Ok _ => True | Err e => ∃ loop, e = KconfigError (loop_msg loop) end) as H; [|by apply H].
  induction l as [|n l IH]; intros vis Hl; [done|]. cbn [res_fold].
  destruct (checks_end C (build_dep C) iter loop_msg Hiter (conf_items C)
    ltac:(intros m y; apply build_dep_items)) with (fuel := check_fuel C) as [He _].
  - intros m id _. unfold sym_choice. destruct (cf_syms C !! m) as [s|] eqn:E; [|done].
    intros Ech. apply conf_items_cho. by eapply Hc.
  - intros id m. unfold choice_syms. destruct (cf_choices C !! id) as [c|] eqn:E.
    + intros Hm. apply conf_items_sym. by eapply Hs.
    + by intros ?%not_elem_of_nil.
  - specialize (He n false vis). destruct (check_dep_loop_sym _ _ _ _ _ n false vis) as [[o vis']|e];
      cbn [res_bind snd].
    + apply IH. intros m Hm. apply Hl. by right.
    + apply He; [apply conf_items_sym, Hl; by left|]. unfold unvisited, check_fuel.
      pose proof (length_filter (λ x, visited vis x = 0) (conf_items C)) as Hlen.
      unfold conf_items in *. rewrite length_app, !length_fmap, length_seq in Hlen. lia.
Qed.

(** C29.  The search for dependency loops ends on every configuration, however
    Python orders the sets it iterates over: it goes through, or raises the
    error that reports a loop.  The recursion is never deeper than the number
    of symbols and choices. *)
Theorem loop_check_ends C iter loop_msg :
  (∀ X x, x ∈ iter X ↔ x ∈ X) → graph_wf C →
  match check_dep_loops C (build_dep C) iter loop_msg with
  | Ok _ => True
  | Err e => ∃ loop, e = KconfigError (loop_msg loop)
  end.
Proof. apply loop_check_known. Qed.

Lemma demo_graph_wf : graph_wf demo_choice_conf.
Proof.
  split.
  - intros [|id] c m [= <-] Hm. exact Hm.
  - intros n s id H. unfold demo_choice_conf in H. cbn [cf_syms] in H.
    apply lookup_insert_Some in H as [[_ <-]|[_ H]]; [intros [= <-]; by eexists|].
    apply lookup_insert_Some in H as [[_ <-]|[_ H]]; [intros [= <-]; by eexists|].
    by rewrite lookup_empty in H.
Qed.

Lemma loop_check_ends_witness :
  match check_dep_loops demo_choice_conf (build_dep demo_choice_conf) elements (λ _, "loop") with
  | Ok _ => True
  | Err e => ∃ loop : list sc, e = KconfigError "loop"
  end.
Proof.
  apply (loop_check_ends demo_choice_conf elements (λ _, "loop")).
  - intros X x. apply elem_of_elements.
  - exact demo_graph_wf.
Defined.
End KDepSpec.
