(* ===== verification/KTerm.v ===== *)
(** * The values of a configuration without dependency loops

    Properties of symbols and choices refer to each other recursively.  Where
    the items can be ranked so that references go down, the recursion ends for
    every item; a loop check that goes through gives such ranks when there are
    no choices. *)
From S2P Require Import Prelude Hex PyStr KExpr KSym KSymSpec KFix KDep KDepSpec.

Module KTerm.
Import Hex PyStr KExpr KSym KSymSpec KFix KDep KDepSpec.

(** ** Results that are not out of fuel *)

Definition fin {A} (r : res A) : Prop := r ≠ Err OutOfFuel.

Create HintDb fin discriminated.

Lemma fin_ok {A} (a : A) : fin (Ok a).
Proof. done. Qed.
Lemma fin_bind {A B} (m : res A) (k : A → res B) : fin m → (∀ a, fin (k a)) → fin (res_bind m k).
Proof. unfold fin. destruct m; cbn; auto; congruence. Qed.
#[export] Hint Resolve fin_ok : fin.
#[export] Hint Extern 1 (fin (Err _)) => discriminate : fin.

Ltac fin_step :=
  match goal with
  | |- fin (res_bind _ _) => apply fin_bind; [|intros ?]
  | |- fin (if ?b then _ else _) => destruct b
  | |- fin (match ?x with _ => _ end) => destruct x
  end.
Ltac fin_solve := repeat (first [solve [eauto 4 with fin] | fin_step]).

(** Parsing a number can only fail. *)
Lemma int_digits_fin b start acc s : fin (int_digits b start acc s).
Proof. revert start acc. induction s as [|c s IH]; intros start acc; cbn [int_digits]; fin_solve. Qed.
Lemma int10_digits_fin start acc s : fin (int10_digits start acc s).
Proof. revert start acc. induction s as [|c s IH]; intros start acc; cbn [int10_digits]; fin_solve. Qed.
Lemma int16_digits_fin start acc s : fin (int16_digits start acc s).
Proof. revert start acc. induction s as [|c s IH]; intros start acc; cbn [int16_digits]; fin_solve. Qed.
#[export] Hint Resolve int_digits_fin int10_digits_fin int16_digits_fin : fin.

Lemma int_base_fin base s : fin (int_base base s).
Proof.
  unfold int_base, int16, int16_unsigned, int10, int0, int0_unsigned, int0_prefixed. fin_solve.
Qed.
#[export] Hint Resolve int_base_fin : fin.

(** ** One level of references *)

Section level.
Context (C : Conf) (V : Vals).

(** The items that are answered. *)
Context (L : sc → Prop).
Context (HL : ∀ i, (∀ x, item_sc i = Some x → L x) → fin (v_tri V i) ∧ fin (v_str V i)).
Context (Hmod : fin (v_tri V modules)).

Definition within (l : list sc) : Prop := ∀ x, x ∈ l → L x.

Lemma within_app l1 l2 : within (l1 ++ l2) ↔ within l1 ∧ within l2.
Proof using. clear HL Hmod. unfold within. setoid_rewrite elem_of_app. naive_solver. Qed.

Lemma within_item i : within (omap item_sc [i]) → fin (v_tri V i) ∧ fin (v_str V i).
Proof using HL.
  intros H. apply HL. intros x Hx. apply H. cbn. rewrite Hx. by left.
Qed.

Lemma within_items i j : within (omap item_sc [i; j]) →
  (fin (v_tri V i) ∧ fin (v_str V i)) ∧ (fin (v_tri V j) ∧ fin (v_str V j)).
Proof using HL.
  change [i; j] with ([i] ++ [j]). rewrite omap_app. intros [H1 H2]%within_app.
  split; by apply within_item.
Qed.

Lemma compare_fin i j : within (omap item_sc [i; j]) → fin (compare_items (env C V) i j).
Proof using HL.
  intros [[? ?] [? ?]]%within_items.
  assert (fin (by_strcmp (env C V) i j)) as Hs.
  { unfold by_strcmp. cbn [env e_str]. fin_solve. }
  assert (∀ k, fin (v_tri V k) → fin (v_str V k) → fin (sym_to_num (env C V) k)) as Hn.
  { intros k ? ?. unfold sym_to_num. cbn [env e_type e_tri e_str]. fin_solve. }
  unfold compare_items. case_decide; [done|].
  assert (fin (let* a := sym_to_num (env C V) i in let* b := sym_to_num (env C V) j in Ok (a - b)%Z))
    as Hd by (apply fin_bind; [by apply Hn|intros a]; apply fin_bind; [by apply Hn|done]).
  destruct (let* a := sym_to_num (env C V) i in _) as [z|[]]; done.
Qed.

Lemma value_fin e : within (refs e) → fin (value C V e).
Proof using HL.
  unfold value, refs. induction e as [i|e1 IH1 e2 IH2|e1 IH1 e2 IH2|e IH|r i j];
    cbn [expr_value expr_items]; rewrite ?omap_app, ?within_app; intros H.
  - by apply within_item.
  - destruct H. fin_solve.
  - destruct H. fin_solve.
  - fin_solve.
  - apply fin_bind; [by apply compare_fin|done].
Qed.

Lemma prompts_fin nodes vis : within (prompt_refs nodes) → fin (prompts_vis C V nodes vis).
Proof using HL.
  revert vis. induction nodes as [|[[t cond]|] nodes IH]; intros vis H; [done| |by apply IH].
  cbn in H. apply within_app in H as [H1 H2]. cbn [prompts_vis].
  apply fin_bind; [by apply value_fin|]. intros v. by apply IH.
Qed.

Lemma default_selection_fin (defaults : list (string * expr)) :
  within (defaults ≫= λ nc, refs nc.2) →
  (∀ n, n ∈ defaults.*1 → fin (v_vis V (sym_item n))) → fin (default_selection C V defaults).
Proof using HL.
  induction defaults as [|[n cond] l IH]; [done|]. cbn. intros [H1 H2]%within_app Hv.
  apply fin_bind; [by apply value_fin|]. intros c.
  assert (fin (default_selection C V l)) by (apply IH; [done|]; intros m Hm; apply Hv; by right).
  destruct (zero c); [done|]. apply fin_bind; [apply Hv; by left|]. intros v. by destruct (zero v).
Qed.

Lemma first_visible_fin syms :
  (∀ n, n ∈ syms → fin (v_vis V (sym_item n))) → fin (first_visible V syms).
Proof.
  induction syms as [|n l IH]; [done|]. intros Hv. cbn [first_visible].
  apply fin_bind; [apply Hv; by left|]. intros v. destruct (zero v); [|done].
  apply IH. intros m Hm. apply Hv. by right.
Qed.

(** The symbols that can be the selection of a choice. *)
Definition candidates (c : Choice) : list string :=
  c_syms c ++ (c_defaults c).*1 ++ match c_user_selection c with Some n => [n] | None => [] end.

Lemma selection_fin id c :
  fin (v_tri V (choice_item id)) → within (choice_refs c) →
  (∀ n, n ∈ candidates c → fin (v_vis V (sym_item n))) → fin (selection C V id c).
Proof using HL.
  unfold candidates, choice_refs. intros Ht [_ Hd]%within_app Hv.
  assert (fin (selection_from_defaults C V c)) as Hs.
  { unfold selection_from_defaults. apply fin_bind.
    - apply default_selection_fin; [done|]. intros n Hn. apply Hv. rewrite !elem_of_app. auto.
    - intros [n|]; [done|]. apply first_visible_fin. intros n Hn. apply Hv. rewrite elem_of_app. auto. }
  unfold selection. apply fin_bind; [done|]. intros t. destruct (negb _); [done|].
  destruct (c_user_selection c) as [n|]; [|done].
  apply fin_bind; [apply Hv; rewrite !elem_of_app; right; right; by left|].
  intros v. by destruct (zero v).
Qed.

Lemma choice_type_fin c : fin (choice_type V c).
Proof using Hmod. unfold choice_type. fin_solve. Qed.

Lemma choice_visibility_fin c : within (choice_refs c) → fin (choice_visibility C V c).
Proof using HL Hmod.
  intros [H _]%within_app. unfold choice_visibility, promote_vis.
  apply fin_bind; [by apply prompts_fin|]. intros vis. pose proof (choice_type_fin c). fin_solve.
Qed.

Lemma choice_tri_fin id c : fin (v_vis V (choice_item id)) → fin (choice_tri_value V id c).
Proof using Hmod. intros. unfold choice_tri_value. pose proof (choice_type_fin c). fin_solve. Qed.

Section symbol.
Context (s : Symbol).
Context (Hchoice : ∀ id, s_choice s = Some id → fin (v_tri V (choice_item id))).

Lemma sym_type_fin : fin (sym_type V s).
Proof using Hmod Hchoice.
  unfold sym_type. destruct (s_choice s) as [id|]; [specialize (Hchoice id eq_refl)|]; fin_solve.
Qed.

Lemma sym_visibility_fin : within (prompt_refs (s_nodes s)) → fin (sym_visibility C V s).
Proof using HL Hmod Hchoice.
  intros H. unfold sym_visibility, promote_vis, mode_hides. pose proof sym_type_fin.
  apply fin_bind; [by apply prompts_fin|]. intros vis.
  destruct (s_choice s) as [id|]; [specialize (Hchoice id eq_refl)|]; fin_solve.
Qed.

Context (Hrefs : within (sym_refs s)).

Lemma sym_values_within :
  within (s_defaults s ≫= λ vc, refs vc.1 ++ refs vc.2) ∧
  within (refs (s_rev_dep s)) ∧ within (refs (s_weak_rev_dep s)) ∧
  within (s_ranges s ≫= λ r, omap item_sc [r.1.1; r.1.2] ++ refs r.2) ∧
  within (refs (s_direct_dep s)).
Proof using Hrefs.
  pose proof Hrefs as H. unfold sym_refs in H. rewrite !within_app in H.
  by destruct H as (_ & ? & ? & ? & ? & ?).
Qed.

Lemma defaults_fin :
  fin (tri_default C V (s_defaults s)) ∧
  ((∀ e, within (refs e) → fin (expr_str_value V e)) → fin (str_default_value C V (s_defaults s))).
Proof using HL Hrefs.
  destruct sym_values_within as [H _]. induction (s_defaults s) as [|[d cond] l IH]; [done|].
  cbn in H. apply within_app in H as [[H1 H2]%within_app H3]. destruct (IH H3) as [I1 I2].
  cbn [tri_default str_default_value]. split.
  - apply fin_bind; [by apply value_fin|]. intros c. destruct (zero c); [done|].
    apply fin_bind; [by apply value_fin|done].
  - intros He. apply fin_bind; [by apply value_fin|]. intros c. destruct (zero c); [by apply I2|].
    apply fin_bind; [by apply He|done].
Qed.

Lemma expr_str_fin e : within (refs e) → fin (expr_str_value V e).
Proof using HL. intros H. destruct e as [i| | | |]; try done. by apply within_item. Qed.

Lemma active_range_fin base : fin (active_range C V base (s_ranges s)).
Proof using HL Hrefs.
  destruct sym_values_within as (_ & _ & _ & H & _).
  induction (s_ranges s) as [|[[low high] cond] l IH]; [done|]. cbn [mbind list_bind] in H.
  apply within_app in H as [[[[Hl1 Hl2] [Hh1 Hh2]]%within_items Hcond]%within_app Hrest].
  cbn [active_range]. apply fin_bind; [by apply value_fin|]. intros c.
  pose proof (IH Hrest). fin_solve.
Qed.

Lemma sym_tri_fin n :
  fin (v_vis V (sym_item n)) → (∀ id, s_choice s = Some id → fin (v_sel V id)) →
  fin (sym_tri_value C V n s).
Proof using HL Hmod Hchoice Hrefs.
  intros Hv Hsel. destruct sym_values_within as (_ & H1%value_fin & H2%value_fin & _ & H3%value_fin).
  destruct defaults_fin as [H4 _]. pose proof sym_type_fin.
  unfold sym_tri_value, plain_tri_value, default_or_imply, promote_val, choice_sym_tri_value.
  change (SymItem false n) with (sym_item n).
  destruct (s_choice s) as [id|]; [specialize (Hsel id eq_refl)|]; fin_solve.
Qed.

Lemma sym_str_fin n :
  fin (v_vis V (sym_item n)) → (∀ id, s_choice s = Some id → fin (v_sel V id)) →
  fin (sym_str_value C V n s).
Proof using HL Hmod Hchoice Hrefs.
  intros Hv Hsel. pose proof (sym_tri_fin n Hv Hsel). destruct defaults_fin as [_ Hd].
  specialize (Hd expr_str_fin). pose proof active_range_fin.
  assert (∀ base r, fin (num_default C V s base r)) by (intros; unfold num_default; fin_solve).
  unfold sym_str_value, int_hex_value, string_value, string_default.
  change (SymItem false n) with (sym_item n). fin_solve.
Qed.
End symbol.
End level.

(** ** Ranks *)

(** A symbol whose properties matter: it has a type or a menu node. *)
Definition live (s : Symbol) : Prop := s_orig_type s ≠ UNKNOWN ∨ s_nodes s ≠ [].

(** References go down.  A choice comes before its symbols, and the prompts of
    the symbols it can select refer to it or to items before it. *)
Record ranked (C : Conf) (r : sc → nat) : Prop := {
  rk_sym n s x : cf_syms C !! n = Some s → live s → x ∈ sym_refs s → r x < r (Sym n);
  rk_in n s id : cf_syms C !! n = Some s → s_choice s = Some id → r (Cho id) < r (Sym n);
  rk_choice id c x : cf_choices C !! id = Some c → x ∈ choice_refs c → r x < r (Cho id);
  rk_member id c n s :
    cf_choices C !! id = Some c → n ∈ candidates c → cf_syms C !! n = Some s →
    (∀ x, x ∈ prompt_refs (s_nodes s) → x = Cho id ∨ r x < r (Cho id)) ∧
    (∀ j, s_choice s = Some j → j = id ∨ r (Cho j) < r (Cho id))
}.

(** Everything about an item is answered. *)
Definition answered (V : Vals) (x : sc) : Prop :=
  (∀ i, item_sc i = Some x → fin (v_tri V i) ∧ fin (v_str V i) ∧ fin (v_vis V i)) ∧
  match x with Cho id => fin (v_sel V id) | Sym _ => True end.

Lemma rle_fin {A} (r1 r2 : res A) : rle r1 r2 → fin r1 → fin r2.
Proof. intros [->| ->]; done. Qed.

Lemma answered_mono V1 V2 x : vle V1 V2 → answered V1 x → answered V2 x.
Proof.
  intros [H1 H2 H3 H4] [Hi Hs]. split.
  - intros i Hx. destruct (Hi i Hx) as (? & ? & ?).
    split_and!; eauto using rle_fin.
  - destruct x; [done|]. eauto using rle_fin.
Qed.

Section ranks.
Context (C : Conf) (r : sc → nat) (Hr : ranked C r).
Context (M : nat) (Hmod : fin (v_tri (vals C M) modules)).

Lemma modules_fin n : M ≤ n → fin (v_tri (vals C n) modules).
Proof using Hmod. intros H. eapply rle_fin; [|exact Hmod]. by apply vle_tri, vals_mono. Qed.

(** Constants are answered at once, other items as [L] says. *)
Lemma items_fin n (L : sc → Prop) :
  (∀ x, L x → ∀ i, item_sc i = Some x → fin (v_tri (vals C (S n)) i) ∧ fin (v_str (vals C (S n)) i)) →
  ∀ i, (∀ x, item_sc i = Some x → L x) → fin (v_tri (vals C (S n)) i) ∧ fin (v_str (vals C (S n)) i).
Proof.
  intros H i Hi. destruct (item_sc i) as [x|] eqn:E; [by eapply H; [apply Hi|]|].
  by destruct i as [[] m|id m].
Qed.

(** The level of an item from the levels below it. *)
Lemma symbol_answered k n :
  M ≤ k → (∀ x, r x < r (Sym n) → answered (vals C (S k)) x) → answered (vals C (S (S (S k)))) (Sym n).
Proof using Hr Hmod.
  intros Hk Hb. assert (∀ j, j ≤ 1 → ∀ i, (∀ x, item_sc i = Some x → r x < r (Sym n)) →
    fin (v_tri (vals C (S (j + k))) i) ∧ fin (v_str (vals C (S (j + k))) i)) as HL.
  { intros j Hj. apply items_fin. intros x Hx i Hi.
    destruct (answered_mono (vals C (S k)) (vals C (S (j + k))) x ltac:(apply vals_mono; lia) (Hb x Hx)) as [H _].
    by destruct (H i Hi) as (? & ? & _). }
  split; [|done]. intros i Hi. assert (i = sym_item n) as ->
    by (destruct i as [[] m|]; cbn in Hi; try done; by injection Hi as ->).
  destruct (cf_syms C !! n) as [s|] eqn:Es.
  2: { cbn [vals vals_step v_tri v_str v_vis item_tri item_str item_vis sym_item]. by rewrite Es. }
  assert (∀ j, j ≤ 1 → ∀ id, s_choice s = Some id →
    fin (v_tri (vals C (S (j + k))) (choice_item id)) ∧ fin (v_sel (vals C (S (j + k))) id)) as Hch.
  { intros j Hj id Hid.
    destruct (answered_mono (vals C (S k)) (vals C (S (j + k))) (Cho id) ltac:(apply vals_mono; lia)
      (Hb _ (rk_in _ _ Hr n s id Es Hid))) as [H ?].
    by destruct (H (choice_item id) eq_refl) as (? & _). }
  assert (fin (v_vis (vals C (S (S k))) (sym_item n))) as Hvis.
  { change (fin (item_vis C (vals C (S k)) (sym_item n))). unfold item_vis, sym_item. rewrite Es.
    apply (sym_visibility_fin C _ (λ x, r x < r (Sym n)) (HL 0 ltac:(lia)));
      [apply modules_fin; lia|intros id Hid; by apply (Hch 0 ltac:(lia))|].
    intros x Hx. apply (rk_sym _ _ Hr n s x Es); [|unfold sym_refs; rewrite elem_of_app; by left].
    right. intros Hn. rewrite Hn in Hx. by apply not_elem_of_nil in Hx. }
  destruct (decide (s_orig_type s = UNKNOWN)) as [Ht|Ht].
  - split_and!.
    + change (fin (item_tri C (vals C (S (S k))) (sym_item n))). unfold item_tri, sym_item, sym_tri_value.
      by rewrite Es, Ht.
    + change (fin (item_str C (vals C (S (S k))) (sym_item n))). unfold item_str, sym_item, sym_str_value.
      by rewrite Es, Ht.
    + eapply rle_fin; [apply vle_vis, (vals_mono C (S (S k))); lia|done].
  - assert (within (λ x, r x < r (Sym n)) (sym_refs s)) as Hrefs
      by (intros x; apply (rk_sym _ _ Hr n s x Es); by left).
    split_and!; [| |eapply rle_fin; [apply vle_vis, (vals_mono C (S (S k))); lia|done]].
    + change (fin (item_tri C (vals C (S (S k))) (sym_item n))). unfold item_tri, sym_item. rewrite Es.
      apply fin_bind; [|done]. apply (sym_tri_fin C _ _ (HL 1 ltac:(lia)));
        [apply modules_fin; lia|intros id Hid; by apply (Hch 1 ltac:(lia))|done|done|].
      intros id Hid. by apply (Hch 1 ltac:(lia)).
    + change (fin (item_str C (vals C (S (S k))) (sym_item n))). unfold item_str, sym_item. rewrite Es.
      apply fin_bind; [|done]. apply (sym_str_fin C _ _ (HL 1 ltac:(lia)));
        [apply modules_fin; lia|intros id Hid; by apply (Hch 1 ltac:(lia))|done|done|].
      intros id Hid. by apply (Hch 1 ltac:(lia)).
Qed.

Lemma later_fin k n i :
  k ≤ n → (fin (v_tri (vals C k) i) → fin (v_tri (vals C n) i)) ∧
  (fin (v_str (vals C k) i) → fin (v_str (vals C n) i)) ∧
  (fin (v_vis (vals C k) i) → fin (v_vis (vals C n) i)).
Proof.
  intros H. destruct (vals_mono C k n H) as [H1 H2 H3 _]. split_and!; intros; eauto using rle_fin.
Qed.

(** A choice's own value needs three levels. *)
Lemma choice_value_answered k id :
  M ≤ k → (∀ x, r x < r (Cho id) → answered (vals C (S k)) x) →
  ∀ nm, let i := ChoiceItem id nm in
  fin (v_vis (vals C (2 + k)) i) ∧ fin (v_tri (vals C (3 + k)) i) ∧ fin (v_str (vals C (4 + k)) i).
Proof using Hr Hmod.
  intros Hk Hb nm i.
  assert (∀ nm, fin (v_vis (vals C (2 + k)) (ChoiceItem id nm))) as Hv.
  { intros nm'. change (fin (item_vis C (vals C (S k)) (ChoiceItem id nm'))). unfold item_vis.
    destruct (cf_choices C !! id) as [c|] eqn:Ec; [|done].
    apply (choice_visibility_fin C _ (λ x, r x < r (Cho id))).
    - apply items_fin. intros x Hx j Hj. destruct (Hb x Hx) as [H _]. by destruct (H j Hj) as (? & ? & _).
    - apply modules_fin. lia.
    - intros x. by apply (rk_choice _ _ Hr id c). }
  assert (∀ nm, fin (v_tri (vals C (3 + k)) (ChoiceItem id nm))) as Ht.
  { intros nm'. change (fin (item_tri C (vals C (2 + k)) (ChoiceItem id nm'))). unfold item_tri.
    destruct (cf_choices C !! id) as [c|]; [|done]. apply choice_tri_fin; [apply modules_fin; lia|].
    apply Hv. }
  split_and!; [apply Hv|apply Ht|].
  change (fin (item_str C (vals C (3 + k)) (ChoiceItem id nm))). cbn [item_str].
  apply fin_bind; [apply Ht|done].
Qed.

Lemma choice_answered k id :
  M ≤ k → (∀ x, r x < r (Cho id) → answered (vals C (S k)) x) → answered (vals C (6 + k)) (Cho id).
Proof using Hr Hmod.
  intros Hk Hb. pose proof (choice_value_answered k id Hk Hb) as Hval.
  assert (∀ j, 3 ≤ j → ∀ x, x = Cho id ∨ r x < r (Cho id) → ∀ i, item_sc i = Some x →
    fin (v_tri (vals C (S (j + k))) i) ∧ fin (v_str (vals C (S (j + k))) i)) as HL.
  { intros j Hj x Hx i Hi.
    assert (fin (v_tri (vals C (4 + k)) i) ∧ fin (v_str (vals C (4 + k)) i)) as [H1 H2].
    { destruct Hx as [->|Hx].
      - destruct i as [[]|id' nm]; try done. injection Hi as ->. destruct (Hval nm) as (_ & H & ?).
        split; [|done]. revert H. apply later_fin. lia.
      - destruct (answered_mono _ (vals C (4 + k)) x (vals_mono C (S k) (4 + k) ltac:(lia)) (Hb x Hx))
          as [H _]. by destruct (H i Hi) as (? & ? & _). }
    split; [revert H1|revert H2]; apply later_fin; lia. }
  split.
  { intros i Hi. destruct i as [[]|id' nm]; try done. injection Hi as ->.
    destruct (Hval nm) as (H1 & H2 & H3).
    split_and!; [revert H2|revert H3|revert H1]; apply later_fin; lia. }
  change (fin (item_sel C (vals C (5 + k)) id)). unfold item_sel.
  destruct (cf_choices C !! id) as [c|] eqn:Ec; [|done].
  apply (selection_fin C _ (λ x, r x < r (Cho id))).
  - apply (items_fin (4 + k)). intros x Hx. apply (HL 4); [lia|by right].
  - destruct (Hval None) as (_ & H & _). revert H. apply later_fin. lia.
  - intros x. by apply (rk_choice _ _ Hr id c).
  - intros n Hn. change (fin (item_vis C (vals C (4 + k)) (sym_item n))). unfold item_vis, sym_item.
    destruct (cf_syms C !! n) as [s|] eqn:Es; [|done].
    destruct (rk_member _ _ Hr id c n s Ec Hn Es) as [Hp Hc].
    apply (sym_visibility_fin C _ (λ x, x = Cho id ∨ r x < r (Cho id))).
    + apply (items_fin (3 + k)). intros x. by apply (HL 3).
    + apply modules_fin. lia.
    + intros j Hj. apply (HL 3 ltac:(lia) (Cho j)); [|done]. destruct (Hc j Hj); [left; congruence|by right].
    + intros x Hx. by apply Hp.
Qed.

Lemma rank_answered k x : r x < k → answered (vals C (S (M + 6 * k))) x.
Proof using Hr Hmod.
  revert x. induction k as [|k IH]; intros x Hx; [lia|].
  destruct (decide (r x < k)) as [Hlt|Hge].
  { eapply answered_mono; [apply (vals_mono C (S (M + 6 * k))); lia|]. by apply IH. }
  assert (r x = k) as Hk by lia.
  assert (∀ y, r y < r x → answered (vals C (S (M + 6 * k))) y) as Hb by (rewrite Hk; apply IH).
  destruct x as [n|id].
  - eapply answered_mono; [|apply (symbol_answered (M + 6 * k)); [lia|done]].
    apply vals_mono. lia.
  - eapply answered_mono; [|apply (choice_answered (M + 6 * k)); [lia|done]].
    apply vals_mono. lia.
Qed.

Lemma ranked_enough' R : (∀ x, r x < R) → enough C (S (M + 6 * R)).
Proof using Hr Hmod.
  intros HR. assert (∀ i, fin (v_tri (vals C (S (M + 6 * R))) i) ∧
    fin (v_str (vals C (S (M + 6 * R))) i) ∧ fin (v_vis (vals C (S (M + 6 * R))) i)) as H.
  { intros i. destruct (item_sc i) as [x|] eqn:E.
    - destruct (rank_answered R x (HR x)) as [H _]. by apply H.
    - by destruct i as [[] n|]. }
  split_and!; [intros i; apply H..|]. intros id. apply (rank_answered R (Cho id) (HR _)).
Qed.
End ranks.

(** Where the symbols and choices can be ranked so that the references
    of properties go down, and the value of MODULES (which every tristate
    symbol refers to) is defined, the mutually recursive properties of all
    items are defined: the recursion is at most six levels deep for every
    rank. *)
Theorem ranked_values_end C r R M :
  ranked C r → (∀ x, r x < R) → v_tri (vals C M) modules ≠ Err OutOfFuel →
  enough C (S (M + 6 * R)).
Proof. intros Hr HR HM. by apply (ranked_enough' C r Hr M HM). Qed.

Definition demo_rank (x : sc) : nat := match x with Cho _ => 0 | Sym _ => 1 end.

Lemma demo_ranked : ranked demo_choice_conf demo_rank.
Proof.
  assert (∀ n s, cf_syms demo_choice_conf !! n = Some s → ∃ u, s = demo_member u) as Hm.
  { intros n s. unfold demo_choice_conf. cbn [cf_syms]. intros H.
    apply lookup_insert_Some in H as [[_ <-]|[_ H]]; [by eexists|].
    apply lookup_insert_Some in H as [[_ <-]|[_ H]]; [by eexists|]. by rewrite lookup_empty in H. }
  split.
  - intros n s x (u & ->)%Hm _ Hx. vm_compute in Hx.
    repeat (apply elem_of_cons in Hx as [->|Hx]; [cbn; lia|]). by apply not_elem_of_nil in Hx.
  - intros. cbn. lia.
  - intros [|id] c x [= <-] Hx. vm_compute in Hx. by apply not_elem_of_nil in Hx.
  - intros [|id] c n s [= <-] _ (u & ->)%Hm. split.
    + intros x ->%list_elem_of_singleton. by left.
    + intros j [= <-]. by left.
Qed.

Lemma ranked_values_end_witness : enough demo_choice_conf 14.
Proof.
  apply (ranked_values_end demo_choice_conf demo_rank 2 1 demo_ranked).
  - intros []; cbn; lia.
  - vm_compute. discriminate.
Defined.

(** ** From the loop check to ranks *)

(** The items after the first occurrence of one in the order of the search. *)
Fixpoint after (x : sc) (l : list sc) : nat :=
  match l with
  | [] => 1
  | y :: l => if decide (x = y) then length l + 2 else after x l
  end.

Definition search_rank (fin : list sc) (x : sc) : nat :=
  match x with Sym _ => after x fin | Cho _ => 0 end.

Lemma after_not_in x l : x ∉ l → after x l = 1.
Proof.
  induction l as [|y l IH]; [done|]. rewrite not_elem_of_cons. intros [Hne Hx]. cbn.
  rewrite decide_False by done. by apply IH.
Qed.
Lemma after_at x l1 l2 : x ∉ l1 → after x (l1 ++ x :: l2) = length l2 + 2.
Proof.
  induction l1 as [|y l1 IH]; cbn; [by rewrite decide_True|]. rewrite not_elem_of_cons.
  intros [Hne Hx]. rewrite decide_False by done. by apply IH.
Qed.
Lemma after_in x l1 l2 : x ∈ l1 → length l2 + 2 ≤ after x (l1 ++ l2).
Proof.
  induction l1 as [|y l1 IH]; intros Hx; [by apply not_elem_of_nil in Hx|]. cbn.
  destruct (decide (x = y)) as [->|Hne]; [rewrite length_app; lia|].
  apply elem_of_cons in Hx as [?|Hx]; [done|by apply IH].
Qed.
Lemma after_bound x l : after x l ≤ length l + 2.
Proof. induction l as [|y l IH]; cbn; [lia|]. destruct (decide (x = y)); lia. Qed.

(** Symbols without a definition have neither type nor menu nodes. *)
Definition undefined_plain (C : Conf) : Prop :=
  ∀ n s, cf_syms C !! n = Some s → live s → n ∈ cf_unique C.

Lemma search_ranked C fin :
  cf_choices C = [] → undefined_plain C → NoDup fin → ordered (build_dep C) fin →
  (∀ n, n ∈ cf_unique C → Sym n ∈ fin) → ranked C (search_rank fin).
Proof.
  intros Hch Hund Hnd Hord Hall. split.
  - intros n s x Hs Hl Hx. pose proof (Hund n s Hs Hl) as Hn.
    assert (2 ≤ after (Sym n) fin) as H2.
    { rewrite <- (app_nil_r fin). apply (after_in _ _ []). by apply Hall. }
    destruct x as [m|id]; cbn [search_rank]; [|lia].
    destruct (decide (Sym m ∈ fin)) as [Hm|Hm]; [|rewrite (after_not_in (Sym m)) by done; lia].
    apply list_elem_of_split in Hm as (l1 & l2 & E).
    assert (Sym n ∈ l1) as Hin.
    { apply (Hord l1 m l2 E). apply build_dep_spec. left. by exists n, s. }
    rewrite E in Hnd. apply NoDup_app in Hnd as (_ & Hnot & _).
    rewrite E, (after_at (Sym m)) by (intros Hm; by apply (Hnot (Sym m) Hm); left).
    pose proof (after_in (Sym n) l1 (Sym m :: l2) Hin). cbn in *. lia.
  - intros n s id _ _. cbn [search_rank]. clear. induction fin as [|y l IH]; cbn; [lia|].
    destruct (decide _); lia.
  - intros id c x. by rewrite Hch.
  - intros id c n s. by rewrite Hch.
Qed.

(** C9.  When the loop check goes through on a configuration without choices,
    whatever the order Python iterates over sets in, and the value of MODULES
    is defined, the recursive properties of all its symbols are defined. *)
Theorem loop_free_values_end C iter loop_msg vis M :
  (∀ X x, x ∈ iter X ↔ x ∈ X) → cf_choices C = [] → undefined_plain C →
  check_dep_loops C (build_dep C) iter loop_msg = Ok vis →
  v_tri (vals C M) modules ≠ Err OutOfFuel →
  ∃ n, enough C n.
Proof.
  intros Hiter Hch Hund Hcheck HM.
  assert (marks (build_dep C) ∅ []) as H0.
  { split; [intros x; unfold visited; rewrite lookup_empty; cbn; lia| |constructor|].
    - intros x. unfold visited. rewrite lookup_empty, elem_of_nil. done.
    - by intros [] ? ?. }
  assert (∀ x, visited ∅ x ≠ 1) as H1 by (intros x; unfold visited; by rewrite lookup_empty).
  destruct (check_all_ordered C (build_dep C) iter loop_msg Hiter (cf_unique C) ∅ [] vis H0 H1 Hcheck)
    as (fin & [_ _ Hnd Hord] & Hall & _).
  eexists. apply (ranked_enough' C (search_rank fin) (search_ranked C fin Hch Hund Hnd Hord Hall) M HM
    (length fin + 3)).
  intros [n|id]; cbn [search_rank]; [|lia]. pose proof (after_bound (Sym n) fin). lia.
Qed.

Lemma loop_free_values_end_witness :
  let C := demo_conf (demo_sym TRISTATE (Some ky) kn kn []) in
  ∃ n, enough C n.
Proof.
  intros C.
  apply (loop_free_values_end C elements (λ _, "loop") (<[Sym "S" := 2]> {[Sym "MODULES" := 2]}) 3).
  - intros X x. apply elem_of_elements.
  - reflexivity.
  - intros n s H _. unfold C, demo_conf in H. cbn [cf_syms cf_unique] in *.
    apply lookup_insert_Some in H as [[<- _]|[_ H]]; [by left|].
    apply lookup_insert_Some in H as [[<- _]|[_ H]]; [by right; left|]. by rewrite lookup_empty in H.
  - vm_compute. reflexivity.
  - vm_compute. discriminate.
Defined.

(** ** A loop the check misses *)

(** A choice of X, W and Y, where X depends on n, W depends on Z, and Z defaults
    to Y.  The visibility of W needs Z, Z needs Y, Y needs the selection of the
    choice, and the selection needs the visibility of W. *)
Definition loop_member (dep : expr) : Symbol :=
  mkSymbol BOOL [Some ("prompt", dep)] [] [] kn kn dep (Some 0) None None false.
Definition loop_conf (order : list string) : Conf :=
  let ch := EItem (choice_item 0) in
  mkConf (<["X" := loop_member kn]>
         (<["W" := loop_member (EAnd (EItem (sym_item "Z")) ch)]>
         (<["Y" := loop_member ch]>
         (<["Z" := mkSymbol BOOL [None] [(EItem (sym_item "Y"), ky)] [] kn kn ky None None None false]> ∅))))
    [mkChoice BOOL [Some ("choice", ky)] ["X"; "W"; "Y"] [] false None None false] order None.

(** A value that some level gives is the only one any level gives. *)
Lemma only_value {A} (f : Vals → res A) C k v :
  (∀ n m, n ≤ m → rle (f (vals C n)) (f (vals C m))) → f (vals C k) = Ok v →
  ∀ n, f (vals C n) = Err OutOfFuel ∨ f (vals C n) = Ok v.
Proof.
  intros Hm Hk n. destruct (decide (n ≤ k)) as [H|H].
  - destruct (Hm n k H) as [?|E]; [by left|]. right. congruence.
  - destruct (Hm k n ltac:(lia)) as [E|E]; [congruence|]. right. congruence.
Qed.

Lemma missed_loop order n :
  let V := vals (loop_conf order) n in
  v_vis V (sym_item "W") = Err OutOfFuel ∧ v_tri V (sym_item "Z") = Err OutOfFuel ∧
  v_tri V (sym_item "Y") = Err OutOfFuel ∧ v_sel V 0 = Err OutOfFuel.
Proof.
  set (C := loop_conf order). cbn zeta.
  assert (∀ n, v_vis (vals C n) (sym_item "X") = Err OutOfFuel ∨ v_vis (vals C n) (sym_item "X") = Ok 0) as HX.
  { apply (only_value (λ V, v_vis V (sym_item "X")) C 9); [|vm_compute; done].
    intros a b H. by apply vle_vis, vals_mono. }
  assert (∀ n, v_vis (vals C n) (sym_item "Y") = Err OutOfFuel ∨ v_vis (vals C n) (sym_item "Y") = Ok 2) as HY.
  { apply (only_value (λ V, v_vis V (sym_item "Y")) C 9); [|vm_compute; done].
    intros a b H. by apply vle_vis, vals_mono. }
  assert (∀ n, v_vis (vals C n) (sym_item "Z") = Err OutOfFuel ∨ v_vis (vals C n) (sym_item "Z") = Ok 0) as HZ.
  { apply (only_value (λ V, v_vis V (sym_item "Z")) C 9); [|vm_compute; done].
    intros a b H. by apply vle_vis, vals_mono. }
  assert (∀ n, v_tri (vals C n) (choice_item 0) = Err OutOfFuel ∨ v_tri (vals C n) (choice_item 0) = Ok 2) as HC.
  { apply (only_value (λ V, v_tri V (choice_item 0)) C 9); [|vm_compute; done].
    intros a b H. by apply vle_tri, vals_mono. }
  assert (∀ n, v_tri (vals C n) (const_tri 2) = Err OutOfFuel ∨ v_tri (vals C n) (const_tri 2) = Ok 2) as Hy.
  { apply (only_value (λ V, v_tri V (const_tri 2)) C 9); [|vm_compute; done].
    intros a b H. by apply vle_tri, vals_mono. }
  induction n as [|n (IW & IZ & IY & IS)]; [done|].
  specialize (HX n); specialize (HY n); specialize (HZ n); specialize (HC n); specialize (Hy n).
  split_and!.
  - change (item_vis C (vals C n) (sym_item "W") = Err OutOfFuel). unfold item_vis, sym_item.
    change (cf_syms C !! "W") with (Some (loop_member (EAnd (EItem (sym_item "Z")) (EItem (choice_item 0))))).
    unfold sym_visibility, loop_member. cbn [s_nodes prompts_vis]. unfold value. cbn [expr_value].
    cbn [env e_tri]. by rewrite IZ.
  - change (item_tri C (vals C n) (sym_item "Z") = Err OutOfFuel). unfold item_tri, sym_item.
    set (z := mkSymbol BOOL [None] [(EItem (sym_item "Y"), ky)] [] kn kn ky None None None false).
    change (cf_syms C !! "Z") with (Some z). unfold sym_tri_value, z.
    cbn [s_orig_type BOOL_TRISTATE negb s_choice]. change (SymItem false "Z") with (sym_item "Z").
    destruct HZ as [-> | ->]; [done|]. cbn [res_bind]. unfold plain_tri_value, default_or_imply.
    cbn [s_user_value s_defaults tri_default]. unfold value, ky. cbn [expr_value env e_tri].
    destruct Hy as [-> | ->]; [done|]. cbn [res_bind zero Nat.eqb]. by rewrite IY.
  - change (item_tri C (vals C n) (sym_item "Y") = Err OutOfFuel). unfold item_tri, sym_item.
    change (cf_syms C !! "Y") with (Some (loop_member (EItem (choice_item 0)))).
    unfold sym_tri_value. cbn [s_orig_type loop_member BOOL_TRISTATE negb s_choice].
    change (SymItem false "Y") with (sym_item "Y"). destruct HY as [-> | ->]; [done|].
    cbn [res_bind]. unfold choice_sym_tri_value. cbn [Nat.eqb]. by rewrite IS.
  - change (item_sel C (vals C n) 0 = Err OutOfFuel). unfold item_sel. cbn [C loop_conf cf_choices lookup list_lookup].
    unfold selection. destruct HC as [-> | ->]; [done|]. cbn [res_bind negb Nat.eqb c_user_selection].
    unfold selection_from_defaults. cbn [c_defaults default_selection res_bind c_syms first_visible].
    destruct HX as [-> | ->]; [done|]. cbn [res_bind zero Nat.eqb]. by rewrite IW.
Qed.

(** C28.  With choices the loop check depends on the order of the symbols and
    can miss a loop: on one configuration it goes through when the choice
    comes first, the recursion for the selection of the choice then never
    ends (no number of levels gives a value), and it reports the loop when
    the symbol outside the choice comes first. *)
Theorem loop_check_misses_choice_loop :
  let msg := λ _ : list sc, "Dependency loop" in
  let C := loop_conf ["X"; "W"; "Y"; "Z"] in
  is_ok (check_dep_loops C (build_dep C) elements msg) = true ∧
  (∀ n, v_sel (vals C n) 0 = Err OutOfFuel) ∧
  let C' := loop_conf ["Z"; "X"; "W"; "Y"] in
  check_dep_loops C' (build_dep C') elements msg = Err (KconfigError "Dependency loop").
Proof.
  split_and!; [vm_compute; reflexivity| |vm_compute; reflexivity].
  intros n. by destruct (missed_loop ["X"; "W"; "Y"; "Z"] n) as (_ & _ & _ & ?).
Qed.
End KTerm.
