(* ===== verification/KFinal.v ===== *)
(** * tools/kconfig/kconfiglib.py: finalization of the menu tree

    [_finalize_node] and its helpers: dependencies are propagated to child
    nodes, properties copied to symbols and choices, implicit submenus made,
    nodes without prompt flattened and 'if' nodes removed.

    A menu node with its [list] and [next] links is a tree; the links of the
    following siblings, which [_finalize_node] also changes, are the list of
    trees after the node. *)
From S2P Require Import Prelude Hex PyStr KExpr KSym.

Module KFinal.
Import Hex PyStr KExpr.

(** ** Menu nodes, symbols and choices during parsing *)

(** [MenuNode.item]; 'if' nodes have none. *)
Inductive mitem :=
  | MSym (n : string)
  | MChoice (id : nat) (name : option string)
  | MMenu
  | MComment
  | MIf.
#[global] Instance mitem_eq_dec : EqDecision mitem.
Proof. solve_decision. Defined.

(** [is_menuconfig], [help], [filename], [linenr] and [include_path]; 'if' nodes have none of
    them. *)
Record minfo := mkInfo {
  i_is_menuconfig : bool;
  i_help : option string;
  i_filename : string;
  i_linenr : nat;
  i_include_path : list (string * nat)
}.

(** [MenuNode], but for its links; [m_id] stands for its identity. *)
Record mdata := mkM {
  m_id : nat;
  m_item : mitem;
  m_info : option minfo;
  m_prompt : option (string * expr);
  m_dep : expr;
  m_visibility : expr;
  m_defaults : list (expr * expr);
  m_ranges : list (item * item * expr);
  m_selects : list (string * expr);
  m_implies : list (string * expr)
}.

Inductive tnode := TNode (d : mdata) (children : list tnode).

(** The attributes of [Symbol] and [Choice] that finalization fills in. *)
Record psym := mkPsym {
  p_type : styp;
  p_direct_dep : expr;
  p_defaults : list (expr * expr);
  p_ranges : list (item * item * expr);
  p_selects : list (string * expr);
  p_implies : list (string * expr);
  p_rev_dep : expr;
  p_weak_rev_dep : expr;
  p_choice : option nat
}.
Definition new_sym : psym := mkPsym UNKNOWN kn [] [] [] [] kn kn None.

Record pchoice := mkPchoice {
  pc_type : styp;
  pc_direct_dep : expr;
  pc_defaults : list (expr * expr);
  pc_syms : list string
}.
Definition new_choice : pchoice := mkPchoice UNKNOWN kn [] [].

Record Fst := mkFst { f_syms : gmap string psym; f_choices : gmap nat pchoice }.

Definition get_sym (st : Fst) (n : string) : psym := default new_sym (f_syms st !! n).
Definition get_choice (st : Fst) (id : nat) : pchoice := default new_choice (f_choices st !! id).
Definition put_psym (st : Fst) (n : string) (s : psym) : Fst := mkFst (<[n := s]> (f_syms st)) (f_choices st).
Definition put_pchoice (st : Fst) (id : nat) (c : pchoice) : Fst :=
  mkFst (f_syms st) (<[id := c]> (f_choices st)).

(** ** _add_props_to_sym *)

Definition add_rev_dep (sym : string) (st : Fst) (sel : string * expr) : Fst :=
  let '(target, cond) := sel in
  let t := get_sym st target in
  put_psym st target
    (mkPsym (p_type t) (p_direct_dep t) (p_defaults t) (p_ranges t) (p_selects t) (p_implies t)
       (make_or (p_rev_dep t) (make_and (EItem (SymItem false sym)) cond)) (p_weak_rev_dep t)
       (p_choice t)).

Definition add_weak_rev_dep (sym : string) (st : Fst) (imp : string * expr) : Fst :=
  let '(target, cond) := imp in
  let t := get_sym st target in
  put_psym st target
    (mkPsym (p_type t) (p_direct_dep t) (p_defaults t) (p_ranges t) (p_selects t) (p_implies t)
       (p_rev_dep t) (make_or (p_weak_rev_dep t) (make_and (EItem (SymItem false sym)) cond))
       (p_choice t)).

Definition copy_props (st : Fst) (n : string) (d : mdata) : Fst :=
  let s := get_sym st n in
  put_psym st n
    (mkPsym (p_type s) (make_or (p_direct_dep s) (m_dep d)) (p_defaults s ++ m_defaults d)
       (p_ranges s ++ m_ranges d) (p_selects s ++ m_selects d) (p_implies s ++ m_implies d)
       (p_rev_dep s) (p_weak_rev_dep s) (p_choice s)).

Definition add_props_to_sym (st : Fst) (n : string) (d : mdata) : Fst :=
  let st := copy_props st n d in
  let st := foldl (add_rev_dep n) st (m_selects d) in
  foldl (add_weak_rev_dep n) st (m_implies d).

(** ** _propagate_deps *)

(** What a child's dependency is limited by. *)
Definition basedep (d : mdata) : expr :=
  match m_item d with
  | MChoice id name => EItem (ChoiceItem id name)
  | _ => m_dep d
  end.

Definition and_cond {A} (dep : expr) (p : A * expr) : A * expr := (p.1, make_and p.2 dep).

Definition propagate_to (base visible_if : expr) (c : mdata) : mdata :=
  let dep := make_and (m_dep c) base in
  match m_item c with
  | MSym _ | MChoice _ _ =>
      mkM (m_id c) (m_item c) (m_info c)
        ((λ p, (p.1, make_and p.2 (make_and visible_if dep))) <$> m_prompt c)
        dep (m_visibility c) (and_cond dep <$> m_defaults c) (and_cond dep <$> m_ranges c)
        (and_cond dep <$> m_selects c) (and_cond dep <$> m_implies c)
  | _ =>
      mkM (m_id c) (m_item c) (m_info c) (and_cond dep <$> m_prompt c) dep (m_visibility c) (m_defaults c)
        (m_ranges c) (m_selects c) (m_implies c)
  end.

Definition propagate_deps (d : mdata) (visible_if : expr) (children : list tnode) : list tnode :=
  (λ t, match t with TNode c ch => TNode (propagate_to (basedep d) visible_if c) ch end) <$> children.

(** ** Implicit submenus *)

Definition rel_depends_on (r : rel) (left right sym : item) : bool :=
  let depends (other : item) :=
    bool_decide (r = EQUAL) && bool_decide (other = const_tri 1) || bool_decide (other = const_tri 2)
    || bool_decide (r = UNEQUAL) && bool_decide (other = const_tri 0) in
  if bool_decide (right = sym) then depends left
  else if bool_decide (left = sym) then depends right
  else false.

Fixpoint expr_depends_on (e : expr) (sym : item) : bool :=
  match e with
  | EItem i => bool_decide (i = sym)
  | ERel EQUAL l r => rel_depends_on EQUAL l r sym
  | ERel UNEQUAL l r => rel_depends_on UNEQUAL l r sym
  | EAnd e1 e2 => expr_depends_on e1 sym || expr_depends_on e2 sym
  | _ => false
  end.

Definition auto_menu_dep (n : string) (c : mdata) : bool :=
  expr_depends_on (match m_prompt c with Some p => p.2 | None => m_dep c end) (SymItem false n).

(** ** _flatten, _remove_ifs *)

Definition flattened (d : mdata) : bool :=
  match m_prompt d, m_item d with
  | Some _, _ => false
  | None, MChoice _ _ => false
  | None, _ => true
  end.

(** The node followed by its children, for a node that is flattened; the
    children are gone through in the same way. *)
Fixpoint flatten_node (t : tnode) : list tnode :=
  match t with
  | TNode d children =>
      match children with
      | [] => [t]
      | _ =>
          if flattened d then
            TNode d [] :: (fix flatten_list (l : list tnode) : list tnode :=
                             match l with [] => [] | t :: l => flatten_node t ++ flatten_list l end) children
          else [t]
      end
  end.
Definition flatten (l : list tnode) : list tnode := l ≫= flatten_node.

Definition has_item (t : tnode) : bool :=
  match t with TNode d _ => negb (bool_decide (m_item d = MIf)) end.
Definition remove_ifs (l : list tnode) : list tnode := filter (λ t, has_item t = true) l.

(** ** _finalize_choice *)

Definition set_choice_of (id : nat) (st : Fst) (n : string) : Fst :=
  let s := get_sym st n in
  put_psym st n (mkPsym (p_type s) (p_direct_dep s) (p_defaults s) (p_ranges s) (p_selects s)
    (p_implies s) (p_rev_dep s) (p_weak_rev_dep s) (Some id)).

Definition set_type_of (t : styp) (st : Fst) (n : string) : Fst :=
  let s := get_sym st n in
  if decide (p_type s = UNKNOWN) then
    put_psym st n (mkPsym t (p_direct_dep s) (p_defaults s) (p_ranges s) (p_selects s)
      (p_implies s) (p_rev_dep s) (p_weak_rev_dep s) (p_choice s))
  else st.

Definition node_syms (children : list tnode) : list string :=
  omap (λ t, match t with TNode d _ => match m_item d with MSym n => Some n | _ => None end end) children.

(** The first type among symbols. *)
Definition first_type (st : Fst) (syms : list string) : styp :=
  default UNKNOWN (head (filter (λ t, t ≠ UNKNOWN) (map (λ n, p_type (get_sym st n)) syms))).

Definition finalize_choice (st : Fst) (id : nat) (children : list tnode) : Fst :=
  let syms := node_syms children in
  let st := foldl (set_choice_of id) st syms in
  let c := get_choice st id in
  let all := pc_syms c ++ syms in
  let t := if decide (pc_type c = UNKNOWN) then first_type st all else pc_type c in
  let st := put_pchoice st id (mkPchoice t (pc_direct_dep c) (pc_defaults c) all) in
  foldl (set_type_of t) st all.

Definition copy_choice_props (st : Fst) (id : nat) (d : mdata) : Fst :=
  let c := get_choice st id in
  put_pchoice st id (mkPchoice (pc_type c) (make_or (pc_direct_dep c) (m_dep d))
    (pc_defaults c ++ m_defaults d) (pc_syms c)).

(** ** _finalize_node *)

(** The last steps for a node: its level of the tree, and choices. *)
Definition finish_node (d : mdata) (children : list tnode) (st : Fst) : tnode * Fst :=
  let children := remove_ifs (flatten children) in
  (TNode d children,
   match m_item d with
   | MChoice id _ => finalize_choice (copy_choice_props st id d) id children
   | _ => st
   end).

(** [finalize_node] gives the node, the siblings that still follow it, and the
    symbols and choices. *)
Fixpoint finalize_node (fuel : nat) (visible_if : expr) (t : tnode) (next : list tnode) (st : Fst)
    : res (tnode * list tnode * Fst) :=
  match fuel with
  | O => Err OutOfFuel
  | S fuel =>
      match t with
      | TNode d children =>
          match m_item d with
          | MSym n =>
              let* r := submenu fuel visible_if n [] next (add_props_to_sym st n d) in
              let '(sub, next, st) := r in
              let '(t, st) := finish_node d (match sub with [] => children | _ => sub end) st in
              Ok (t, next, st)
          | it =>
              let* r :=
                match children with
                | [] => Ok ([], st)
                | _ =>
                    let visible_if := match it with
                                      | MMenu => make_and visible_if (m_visibility d)
                                      | _ => visible_if end in
                    finalize_list fuel visible_if (propagate_deps d visible_if children) st
                end in
              let '(t, st) := finish_node d r.1 r.2 in
              Ok (t, next, st)
          end
      end
  end
(** The following nodes that go in the implicit submenu of symbol [n]. *)
with submenu (fuel : nat) (visible_if : expr) (n : string) (sub next : list tnode) (st : Fst)
    : res (list tnode * list tnode * Fst) :=
  match fuel with
  | O => Err OutOfFuel
  | S fuel =>
      match next with
      | TNode c ch :: next' =>
          if auto_menu_dep n c then
            let* r := finalize_node fuel visible_if (TNode c ch) next' st in
            let '(t, next, st) := r in
            submenu fuel visible_if n (sub ++ [t]) next st
          else Ok (sub, next, st)
      | [] => Ok (sub, next, st)
      end
  end
(** [cur = node.list; while cur: self._finalize_node(cur); cur = cur.next] *)
with finalize_list (fuel : nat) (visible_if : expr) (l : list tnode) (st : Fst)
    : res (list tnode * Fst) :=
  match fuel with
  | O => Err OutOfFuel
  | S fuel =>
      match l with
      | [] => Ok ([], st)
      | t :: l =>
          let* r := finalize_node fuel visible_if t l st in
          let '(t, l, st) := r in
          let* rs := finalize_list fuel visible_if l st in
          Ok (t :: rs.1, rs.2)
      end
  end.

Fixpoint size (t : tnode) : nat :=
  match t with
  | TNode _ children =>
      S ((fix sizes (l : list tnode) : nat := match l with [] => 0 | t :: l => size t + sizes l end) children)
  end.
Fixpoint sizes (l : list tnode) : nat := match l with [] => 0 | t :: l => size t + sizes l end.

(** Finalization of the whole tree, from its top node. *)
Definition finalize (top : tnode) (st : Fst) : res (tnode * Fst) :=
  let* r := finalize_node (2 * size top + 2) ky top [] st in Ok (r.1.1, r.2).

End KFinal.
