(* ===== verification/KFinalSpec.v ===== *)
(** * Finalization of the menu tree: what it keeps and what it establishes

    Finalization ends; it keeps every node but the 'if' nodes, in the order of
    the file; afterwards no 'if' node is left and only nodes with a prompt (or
    choices) have children; conditions are limited by the dependencies of the
    nodes around them; reverse dependencies collect the selects. *)
From S2P Require Import Prelude Hex PyStr KExpr KSym KParseSpec KFinal.

Module KFinalSpec.
Import Hex PyStr KExpr KParseSpec KFinal.

(** ** Trees *)

Fixpoint tnode_nested_ind (P : tnode → Prop)
  (H : ∀ d children, Forall P children → P (TNode d children)) (t : tnode) : P t :=
  match t with
  | TNode d children =>
      H d children
        ((fix all (l : list tnode) : Forall P l :=
          match l with
          | [] => List.Forall_nil _
          | t :: l => List.Forall_cons _ _ _ (tnode_nested_ind P H t) (all l)
          end) children)
  end.

Lemma size_eq d children : size (TNode d children) = S (sizes children).
Proof. done. Qed.

Lemma flatten_node_eq d children :
  flatten_node (TNode d children) =
  if negb (bool_decide (children = [])) && flattened d then TNode d [] :: flatten children
  else [TNode d children].
Proof.
  destruct children as [|c l]; [by destruct (flattened d)|]. rewrite bool_decide_eq_false_2 by done.
  cbn [negb andb flatten_node]. by destruct (flattened d).
Qed.

(** The loop of [_flatten]: the children of a flattened node are gone through
    next. *)
Lemma flatten_cons d children l :
  flatten (TNode d children :: l) =
  if negb (bool_decide (children = [])) && flattened d then TNode d [] :: flatten (children ++ l)
  else TNode d children :: flatten l.
Proof.
  unfold flatten at 1. cbn [mbind list_bind]. rewrite flatten_node_eq.
  destruct (negb _ && flattened d); [|done]. unfold flatten. by rewrite bind_app.
Qed.

(** ** Finalization ends *)

Definition fin_node (r : res (tnode * list tnode * Fst)) (next : list tnode) : Prop :=
  match r with Ok (_, next', _) => sizes next' ≤ sizes next | Err _ => False end.
Definition fin_sub (r : res (list tnode * list tnode * Fst)) (next : list tnode) : Prop :=
  match r with Ok (_, next', _) => sizes next' ≤ sizes next | Err _ => False end.

Lemma sizes_propagate d vi children : sizes (propagate_deps d vi children) = sizes children.
Proof.
  unfold propagate_deps. induction children as [|[c ch] l IH]; [done|]. cbn [fmap list_fmap sizes].
  by rewrite IH, !size_eq.
Qed.

Lemma finalize_ends fuel :
  (∀ vi t next st, 2 * (size t + sizes next) < fuel → fin_node (finalize_node fuel vi t next st) next) ∧
  (∀ vi n sub next st, 2 * sizes next + 1 < fuel → fin_sub (submenu fuel vi n sub next st) next) ∧
  (∀ vi l st, 2 * sizes l + 1 < fuel → is_ok (finalize_list fuel vi l st) = true).
Proof.
  induction fuel as [|fuel (IN & IS & IL)]; [split_and!; intros; lia|]. split_and!.
  - intros vi [d ch] next st Hf. rewrite size_eq in Hf. cbn [finalize_node].
    assert (∀ r : list tnode * Fst, fin_node (let '(t, st) := finish_node d r.1 r.2 in Ok (t, next, st)) next) as Hfin.
    { intros r. destruct (finish_node d r.1 r.2). cbn. lia. }
    assert (∀ v, fin_node (let* r := finalize_list fuel v (propagate_deps d v ch) st in
      let '(t, st) := finish_node d r.1 r.2 in Ok (t, next, st)) next) as Hlist.
    { intros v. specialize (IL v (propagate_deps d v ch) st). rewrite sizes_propagate in IL.
      specialize (IL ltac:(lia)). destruct (finalize_list fuel v _ st) as [r|]; [apply (Hfin r)|done]. }
    destruct (m_item d) eqn:Ei.
    1: { specialize (IS vi n [] next (add_props_to_sym st n d) ltac:(lia)).
         destruct (submenu fuel vi n [] next _) as [[[sub next'] st']|]; [|done]. exact IS. }
    all: destruct ch as [|c l]; [apply (Hfin ([], st))|]; apply Hlist.
  - intros vi n sub next st Hf. cbn [submenu]. destruct next as [|[c ch] next']; [cbn; lia|].
    destruct (auto_menu_dep n c); [|cbn; lia]. cbn [sizes] in Hf.
    specialize (IN vi (TNode c ch) next' st ltac:(lia)).
    destruct (finalize_node fuel vi (TNode c ch) next' st) as [[[t next''] st']|]; [|done]. cbn [res_bind].
    cbn [fin_node] in IN. rewrite size_eq in Hf.
    specialize (IS vi n (sub ++ [t]) next'' st' ltac:(lia)).
    destruct (submenu fuel vi n (sub ++ [t]) next'' st') as [[[? ?] ?]|]; [|done].
    cbn [fin_sub sizes] in *. lia.
  - intros vi l st Hf. cbn [finalize_list]. destruct l as [|t l]; [done|]. cbn [sizes] in Hf.
    specialize (IN vi t l st ltac:(lia)).
    destruct (finalize_node fuel vi t l st) as [[[t' l'] st']|]; [|done]. cbn [res_bind fin_node] in *.
    destruct t as [d ch]. rewrite size_eq in Hf.
    specialize (IL vi l' st' ltac:(lia)). by destruct (finalize_list fuel vi l' st').
Qed.

Lemma finalize_ok top st : is_ok (finalize top st) = true.
Proof.
  unfold finalize. pose proof (proj1 (finalize_ends (2 * size top + 2)) ky top [] st) as H.
  cbn [sizes] in H. specialize (H ltac:(lia)).
  by destruct (finalize_node _ ky top [] st) as [[[t next] st']|].
Qed.

(** Finalization of any menu tree ends: the search for implicit submenus,
    which looks ahead over following nodes, never needs more steps than there
    are nodes. *)
Theorem finalize_total top st : is_ok (finalize top st) = true.
Proof. apply finalize_ok. Qed.

(** ** Order and shape *)

(** The nodes of a tree that are not 'if' nodes, with their items, parents
    before children. *)
Fixpoint nodes (t : tnode) : list (nat * mitem) :=
  match t with
  | TNode d children =>
      (if bool_decide (m_item d = MIf) then [] else [(m_id d, m_item d)]) ++
      (fix all (l : list tnode) : list (nat * mitem) := match l with [] => [] | t :: l => nodes t ++ all l end) children
  end.
Definition nodes_list (l : list tnode) : list (nat * mitem) := l ≫= nodes.

Definition data (t : tnode) : mdata := match t with TNode d _ => d end.
Definition children (t : tnode) : list tnode := match t with TNode _ ch => ch end.

Lemma nodes_eq d ch :
  nodes (TNode d ch) = (if bool_decide (m_item d = MIf) then [] else [(m_id d, m_item d)]) ++ nodes_list ch.
Proof. done. Qed.

Lemma nodes_list_app l1 l2 : nodes_list (l1 ++ l2) = nodes_list l1 ++ nodes_list l2.
Proof. apply bind_app. Qed.

(** 'if' nodes have no prompt. *)
Definition plain_if (d : mdata) : Prop := m_item d = MIf → m_prompt d = None.

(** Trees as the parser makes them: a symbol has no children yet. *)
Inductive parsed : tnode → Prop :=
  | parsed_node d ch :
      plain_if d → (∀ n, m_item d = MSym n → ch = []) → Forall parsed ch → parsed (TNode d ch).

(** A finished level: no 'if' nodes, and children only below nodes with a
    prompt and choices. *)
Definition placed (t : tnode) : Prop :=
  m_item (data t) ≠ MIf ∧ (children t = [] ∨ flattened (data t) = false).
Inductive clean : tnode → Prop :=
  | clean_node d ch : Forall placed ch → Forall clean ch → clean (TNode d ch).

Lemma clean_leaf d : clean (TNode d []).
Proof. by repeat constructor. Qed.

Lemma flatten_app l1 l2 : flatten (l1 ++ l2) = flatten l1 ++ flatten l2.
Proof. apply bind_app. Qed.

(** Flattening keeps the order, and the nodes it leaves have children only
    where they may. *)
Definition flat (t : tnode) : Prop :=
  plain_if (data t) ∧ clean t ∧ (children t = [] ∨ flattened (data t) = false).

Lemma placed_flat t : placed t → clean t → flat t.
Proof. intros [H1 H2] Hc. split; [by intros ?|by split]. Qed.

Lemma flatten_level l :
  Forall (λ t, plain_if (data t) ∧ clean t) l → nodes_list (flatten l) = nodes_list l ∧ Forall flat (flatten l).
Proof.
  induction 1 as [|[d ch] l [Hp Hc] _ [IH1 IH2]]; [done|]. cbn [data] in Hp.
  rewrite flatten_cons. destruct (negb (bool_decide (ch = [])) && flattened d) eqn:E.
  - rewrite flatten_app. inv Hc.
    assert (flatten ch = ch) as Hch.
    { match goal with H : Forall placed ch |- _ => revert H end. clear.
      induction ch as [|[c cc] ch IH]; [done|]. intros [[_ Hc] H]%Forall_cons. rewrite flatten_cons.
      destruct Hc as [Hc|Hc]; cbn in Hc; [subst cc|rewrite Hc, andb_false_r]; cbn; by rewrite IH. }
    rewrite Hch. split.
    + cbn [nodes_list mbind list_bind]. rewrite !nodes_eq, app_nil_r, <- app_assoc. f_equal.
      fold (nodes_list (ch ++ flatten l)). by rewrite nodes_list_app, IH1.
    + constructor; [|apply Forall_app; split; [|done]].
      * split_and!; [done|apply clean_leaf|by left].
      * apply Forall_forall. intros t Ht. apply placed_flat; by eapply Forall_forall.
  - split; [cbn; f_equal; exact IH1|]. constructor; [|done]. split_and!; [done..|].
    apply andb_false_iff in E as [E|E]; [left|by right].
    apply negb_false_iff, bool_decide_eq_true in E. done.
Qed.

Lemma remove_ifs_level l :
  Forall flat l → nodes_list (remove_ifs l) = nodes_list l ∧ Forall placed (remove_ifs l) ∧
  Forall clean (remove_ifs l).
Proof.
  induction 1 as [|[d ch] l (Hp & Hc & Hf) _ (IH1 & IH2 & IH3)]; [done|].
  unfold remove_ifs in *. rewrite filter_cons. cbn [has_item data children] in *.
  destruct (bool_decide (m_item d = MIf)) eqn:E; cbn [negb].
  - rewrite decide_False by done. split_and!; [|done..]. rewrite IH1. cbn [nodes_list mbind list_bind].
    rewrite nodes_eq, E. destruct Hf as [->|Hf]; [done|]. exfalso.
    apply bool_decide_eq_true in E. unfold flattened in Hf. by rewrite (Hp E), E in Hf.
  - rewrite decide_True by done. apply bool_decide_eq_false in E. split_and!.
    + cbn [nodes_list mbind list_bind]. f_equal. exact IH1.
    + by constructor.
    + by constructor.
Qed.

Lemma finish_level d l st :
  Forall (λ t, plain_if (data t) ∧ clean t) l →
  nodes (finish_node d l st).1 = nodes (TNode d l) ∧ clean (finish_node d l st).1 ∧
  data (finish_node d l st).1 = d.
Proof.
  intros H. destruct (flatten_level l H) as [H1 H2]. destruct (remove_ifs_level _ H2) as (H3 & H4 & H5).
  cbn [finish_node fst]. split_and!; [|by constructor|done]. by rewrite !nodes_eq, H3, H1.
Qed.

Lemma propagate_level d vi ch :
  Forall parsed ch → Forall parsed (propagate_deps d vi ch) ∧ nodes_list (propagate_deps d vi ch) = nodes_list ch.
Proof.
  intros H. unfold propagate_deps.
  assert (∀ c, m_item (propagate_to (basedep d) vi c) = m_item c ∧
               m_id (propagate_to (basedep d) vi c) = m_id c ∧
               (m_prompt c = None → m_prompt (propagate_to (basedep d) vi c) = None)) as Hd.
  { intros c. unfold propagate_to. destruct (m_item c); (split_and!; [done..|]); cbn; by intros ->. }
  induction H as [|[c cc] l Hc _ [IH1 IH2]]; [done|]. destruct (Hd c) as (D1 & D2 & D3). cbn [fmap list_fmap].
  inv Hc. split.
  - constructor; [|done]. constructor; [|by rewrite D1|done]. unfold plain_if in *. rewrite D1. auto.
  - cbn [nodes_list mbind list_bind]. rewrite !nodes_eq, D1, D2. f_equal. exact IH2.
Qed.

(** A finalized node keeps its own data and is clean. *)
Definition done_node (d : mdata) (t : tnode) : Prop := clean t ∧ data t = d.
Definition level_ok (l : list tnode) : Prop := Forall (λ t, plain_if (data t) ∧ clean t) l.

(** What each of the three functions does to parsed nodes. *)
Definition node_shape (fuel : nat) : Prop := ∀ vi t next st t' next' st', parsed t → Forall parsed next →
  finalize_node fuel vi t next st = Ok (t', next', st') →
  done_node (data t) t' ∧ Forall parsed next' ∧ nodes t ++ nodes_list next = nodes t' ++ nodes_list next'.
Definition submenu_shape (fuel : nat) : Prop := ∀ vi n sub next st sub' next' st', level_ok sub → Forall parsed next →
  submenu fuel vi n sub next st = Ok (sub', next', st') →
  level_ok sub' ∧ Forall parsed next' ∧ nodes_list sub ++ nodes_list next = nodes_list sub' ++ nodes_list next'.
Definition list_shape (fuel : nat) : Prop := ∀ vi l st l' st', Forall parsed l →
  finalize_list fuel vi l st = Ok (l', st') → level_ok l' ∧ nodes_list l = nodes_list l'.

Lemma finalize_node_shape fuel : submenu_shape fuel → list_shape fuel → node_shape (S fuel).
Proof.
  intros IS IL.
  intros vi [d ch] next st t' next' st' Hp Hn H. cbn [finalize_node] in H. cbn [data].
  assert (∀ l st0, level_ok l →
    (let '(t, st) := finish_node d l st0 in Ok (t, next', st)) = Ok (t', next', st') →
    done_node d t' ∧ nodes t' = nodes (TNode d l)) as Hfin.
  { intros l st0 Hl E. destruct (finish_level d l st0 Hl) as (H1 & H2 & H3).
    destruct (finish_node d l st0) as [t0 st1]. injection E as <- _. cbn in *. by split. }
  assert (∀ r : res (list tnode * Fst),
    (let* r := r in let '(t, st) := finish_node d r.1 r.2 in Ok (t, next, st)) = Ok (t', next', st') →
    (∀ ls st1, r = Ok (ls, st1) → level_ok ls ∧ nodes_list ch = nodes_list ls) →
    done_node d t' ∧ Forall parsed next' ∧ nodes (TNode d ch) ++ nodes_list next = nodes t' ++ nodes_list next')
    as Hrest.
  { intros [[ls st1]|] E Hr; [|done]. destruct (Hr ls st1 eq_refl) as [Q1 Q2].
    cbn [res_bind fst snd] in E. destruct (finish_node d ls st1) as [t0 st2] eqn:Ef.
    injection E as -> -> ->. destruct (Hfin ls st1) as [D1 D2]; [done|by rewrite Ef|].
    split_and!; [done|done|]. by rewrite D2, !nodes_eq, Q2. }
  assert (∀ vi ls st1, finalize_list fuel vi (propagate_deps d vi ch) st = Ok (ls, st1) →
    level_ok ls ∧ nodes_list ch = nodes_list ls) as Hkids.
  { intros v ls st1 E. assert (Forall parsed ch) as Hch by (by inv Hp).
    destruct (propagate_level d v ch Hch) as [P1 P2]. destruct (IL _ _ _ _ _ P1 E) as [Q1 Q2].
    split; [done|congruence]. }
  destruct (m_item d) as [n|id nm| | |] eqn:Ei.
  1: { destruct (submenu fuel vi n [] next _) as [[[sub nx] st1]|] eqn:E; [|done]. cbn [res_bind] in H.
    destruct (IS _ _ _ _ _ _ _ _ (List.Forall_nil _) Hn E) as (L1 & L2 & L3). cbn [nodes_list mbind list_bind app] in L3.
    destruct (finish_node d _ st1) as [t0 st2] eqn:Ef in H. injection H as -> -> ->.
    assert (ch = []) as Hch by (inv Hp; eauto).
    destruct (Hfin (match sub with [] => ch | _ => sub end) st1) as [D1 D2].
    - subst ch. by destruct sub.
    - by rewrite Ef.
    - split_and!; [done|done|]. rewrite D2, !nodes_eq, <- !app_assoc. f_equal. rewrite L3, Hch.
      by destruct sub. }
  all: eapply Hrest; [exact H|]; destruct ch as [|c l]; [intros ls st1 [= <- _]; by split; [constructor|]|].
  all: apply Hkids.
Qed.

Lemma submenu_node_shape fuel : node_shape fuel → submenu_shape fuel → submenu_shape (S fuel).
Proof.
  intros IN IS.
  intros vi n sub next st sub' next' st' Hs Hn H. cbn [submenu] in H.
  destruct next as [|[c ch] nx]; [by injection H as -> <- ->|].
  destruct (auto_menu_dep n c); [|by injection H as -> <- ->]. inv Hn.
  destruct (finalize_node fuel vi (TNode c ch) nx st) as [[[t nx'] st1]|] eqn:E; [|done].
  cbn [res_bind] in H. destruct (IN _ _ _ _ _ _ _ ltac:(eassumption) ltac:(eassumption) E) as ([D1 D2] & N1 & N2).
  assert (level_ok (sub ++ [t])) as Hs'.
  { apply Forall_app. split; [done|]. constructor; [|constructor]. split; [|done].
    rewrite D2. match goal with H : parsed _ |- _ => by inv H end. }
  destruct (IS _ _ _ _ _ _ _ _ Hs' N1 H) as (S1 & S2 & S3). split_and!; [done|done|].
  rewrite <- S3, nodes_list_app, <- app_assoc. f_equal. cbn [nodes_list mbind list_bind].
  rewrite app_nil_r. exact N2.
Qed.

Lemma finalize_list_shape fuel : node_shape fuel → list_shape fuel → list_shape (S fuel).
Proof.
  intros IN IL.
  intros vi l st l' st' Hl H. cbn [finalize_list] in H. destruct l as [|t l].
  { injection H as <- _. by split; [constructor|]. }
  inv Hl. destruct (finalize_node fuel vi t l st) as [[[t1 l1] st1]|] eqn:E; [|done]. cbn [res_bind] in H.
  destruct (finalize_list fuel vi l1 st1) as [[ls st2]|] eqn:E2; [|done]. cbn [res_bind fst snd] in H.
  injection H as <- _.
  destruct (IN _ _ _ _ _ _ _ ltac:(eassumption) ltac:(eassumption) E) as ([D1 D2] & N1 & N2).
  destruct (IL _ _ _ _ _ N1 E2) as [Q1 Q2]. split.
  - constructor; [|done]. split; [|done]. rewrite D2. by match goal with H : parsed _ |- _ => inv H end.
  - cbn [nodes_list mbind list_bind]. fold (nodes_list l) (nodes_list ls). by rewrite N2, Q2.
Qed.

Lemma finalize_shape fuel : node_shape fuel ∧ submenu_shape fuel ∧ list_shape fuel.
Proof.
  induction fuel as [|fuel (IN & IS & IL)]; [done|].
  auto using finalize_node_shape, submenu_node_shape, finalize_list_shape.
Qed.

Lemma finalize_kept top st top' st' :
  parsed top → finalize top st = Ok (top', st') → nodes top' = nodes top ∧ clean top'.
Proof.
  intros Hp H. unfold finalize in H.
  destruct (finalize_node _ ky top [] st) as [[[t nx] st1]|] eqn:E; [|done]. injection H as <- _.
  destruct (proj1 (finalize_shape _) _ _ _ _ _ _ _ Hp (List.Forall_nil _) E) as ([H1 _] & _ & H2).
  split; [|done]. cbn [fst].
  pose proof (proj1 (finalize_ends (2 * size top + 2)) ky top [] st) as Hs. cbn [sizes] in Hs.
  specialize (Hs ltac:(lia)). rewrite E in Hs. cbn [fin_node] in Hs.
  destruct nx as [|[d ch] nx]; [|cbn [sizes] in Hs; rewrite size_eq in Hs; lia].
  cbn [nodes_list mbind list_bind] in H2. by rewrite !app_nil_r in H2.
Qed.

(** Finalization keeps every menu node that is not an 'if' node, each
    once and in the order of the file, however implicit submenus, flattening
    and the removal of 'if' nodes move them; afterwards there are no 'if'
    nodes below the top node, and only nodes with a prompt and choices have
    children. *)
Theorem finalize_keeps_order top st top' st' :
  parsed top → finalize top st = Ok (top', st') → nodes top' = nodes top ∧ clean top'.
Proof. apply finalize_kept. Qed.

(** A menu with a symbol A, an 'if' around B that depends on A, and C. *)
Definition demo_tree : tnode :=
  let sym n := EItem (SymItem false n) in
  let leaf i n dep := TNode (mkM i (MSym n) None (Some ("prompt", ky)) dep ky [] [] [] []) [] in
  TNode (mkM 0 MMenu None (Some ("Main menu", ky)) ky ky [] [] [] [])
    [leaf 1 "A" ky;
     TNode (mkM 2 MIf None None (sym "A") ky [] [] [] []) [leaf 3 "B" ky];
     leaf 4 "C" (sym "D")].

Lemma demo_parsed : parsed demo_tree.
Proof. repeat (constructor; cbn; try done; intros; try done). Qed.

Lemma finalize_keeps_order_witness :
  ∃ top' st', finalize demo_tree (mkFst ∅ ∅) = Ok (top', st') ∧ (nodes top').*1 = [0; 1; 3; 4] ∧ clean top'.
Proof.
  destruct (finalize demo_tree (mkFst ∅ ∅)) as [[top' st']|e] eqn:E; [|vm_compute in E; discriminate E].
  exists top', st'. split; [reflexivity|].
  destruct (finalize_keeps_order demo_tree (mkFst ∅ ∅) top' st' demo_parsed E) as [H1 H2].
  split; [rewrite H1; reflexivity|exact H2].
Defined.

(** ** Dependencies *)

Section values.
Context (E : Env) (HE : tri_env E).
Context (Hn : e_tri E (const_tri 0) = Ok 0) (Hy : e_tri E (const_tri 2) = Ok 2).

(** The values of expressions that have one. *)
Definition val (e : expr) (v : nat) : Prop := expr_value E e = Ok v.

Lemma val_and e1 e2 v1 v2 : val e1 v1 → val e2 v2 → val (make_and e1 e2) (Nat.min v1 v2).
Proof using HE Hn Hy. intros. by apply make_and_value. Qed.
Lemma val_or e1 e2 v1 v2 : val e1 v1 → val e2 v2 → val (make_or e1 e2) (Nat.max v1 v2).
Proof using HE Hn Hy. intros. by apply make_or_value. Qed.

Lemma propagate_value base vi c vb vv vc :
  val base vb → val vi vv → val (m_dep c) vc →
  let c' := propagate_to base vi c in
  let is_sc := match m_item c with MSym _ | MChoice _ _ => true | _ => false end in
  val (m_dep c') (Nat.min vc vb) ∧
  (∀ t e v, m_prompt c = Some (t, e) → val e v →
     ∃ e', m_prompt c' = Some (t, e') ∧
       val e' (Nat.min v (if is_sc then Nat.min vv (Nat.min vc vb) else Nat.min vc vb))) ∧
  (is_sc = true → ∀ k d e v, m_defaults c !! k = Some (d, e) → val e v →
     ∃ e', m_defaults c' !! k = Some (d, e') ∧ val e' (Nat.min v (Nat.min vc vb))) ∧
  (is_sc = true → ∀ k t e v, m_selects c !! k = Some (t, e) → val e v →
     ∃ e', m_selects c' !! k = Some (t, e') ∧ val e' (Nat.min v (Nat.min vc vb))).
Proof using HE Hn Hy.
  intros Hb Hv Hc. pose proof (val_and _ _ _ _ Hc Hb) as Hd.
  assert (∀ {A} (l : list (A * expr)) k d e v, l !! k = Some (d, e) → val e v →
    ∃ e', (and_cond (make_and (m_dep c) base) <$> l) !! k = Some (d, e') ∧
      val e' (Nat.min v (Nat.min vc vb))) as Hl.
  { intros A l k d e v Hk He. rewrite list_lookup_fmap, Hk. cbn. eexists. split; [done|].
    by apply val_and. }
  unfold propagate_to. destruct (m_item c); cbn; (split_and!; [done|..]);
    try (intros _; by eapply Hl); try done.
  all: intros t e v -> He; cbn; eexists; (split; [done|]); repeat (apply val_and; try done).
Qed.

(** The selects of a node that name a target, evaluated. *)
Fixpoint selected (vs : nat) (target : string) (sels : list (string * nat)) : nat :=
  match sels with
  | [] => 0
  | (t, v) :: sels =>
      Nat.max (if decide (t = target) then Nat.min vs v else 0) (selected vs target sels)
  end.

Lemma get_put st n s m : get_sym (put_psym st n s) m = if decide (m = n) then s else get_sym st m.
Proof.
  unfold get_sym, put_psym. cbn [f_syms]. destruct (decide (m = n)) as [->|];
    [by rewrite lookup_insert_eq|by rewrite lookup_insert_ne].
Qed.

Lemma rev_dep_fold n vs sels vals st target v0 :
  val (EItem (SymItem false n)) vs → Forall2 (λ sel v, val sel.2 v) sels vals →
  val (p_rev_dep (get_sym st target)) v0 →
  val (p_rev_dep (get_sym (foldl (add_rev_dep n) st sels) target))
    (Nat.max v0 (selected vs target (zip (sels.*1) vals))).
Proof using HE Hn Hy.
  intros Hs Hv. revert st v0. induction Hv as [|[t cond] v sels vals Hc _ IH]; intros st v0 H0.
  { cbn. by rewrite Nat.max_0_r. }
  cbn [foldl fmap list_fmap zip zip_with selected fst]. rewrite Nat.max_assoc. apply IH.
  unfold add_rev_dep. rewrite get_put. destruct (decide (target = t)) as [->|Hne].
  - rewrite decide_True by done. cbn [p_rev_dep]. apply val_or; [done|]. by apply val_and.
  - rewrite decide_False by done. by rewrite Nat.max_0_r.
Qed.

Lemma weak_keeps_rev n imps st target :
  p_rev_dep (get_sym (foldl (add_weak_rev_dep n) st imps) target) = p_rev_dep (get_sym st target).
Proof.
  revert st. induction imps as [|[t cond] imps IH]; intros st; [done|]. cbn [foldl]. rewrite IH.
  unfold add_weak_rev_dep. rewrite get_put. by destruct (decide (target = t)) as [->|].
Qed.

Lemma copy_keeps_rev st n d target :
  p_rev_dep (get_sym (copy_props st n d) target) = p_rev_dep (get_sym st target).
Proof. unfold copy_props. rewrite get_put. by destruct (decide (target = n)) as [->|]. Qed.
End values.

(** What a menu node passes on to a child: the child's dependency has
    the smaller of the values of its own and its parent's (the mode of the
    choice for a child of a choice); a prompt of a symbol or choice is also
    limited by 'visible if', and the conditions of its defaults and selects by
    the dependency. *)
Theorem propagate_deps_value E base vi c vb vv vc :
  tri_env E → e_tri E (const_tri 0) = Ok 0 → e_tri E (const_tri 2) = Ok 2 →
  val E base vb → val E vi vv → val E (m_dep c) vc →
  let c' := propagate_to base vi c in
  let is_sc := match m_item c with MSym _ | MChoice _ _ => true | _ => false end in
  val E (m_dep c') (Nat.min vc vb) ∧
  (∀ t e v, m_prompt c = Some (t, e) → val E e v →
     ∃ e', m_prompt c' = Some (t, e') ∧
       val E e' (Nat.min v (if is_sc then Nat.min vv (Nat.min vc vb) else Nat.min vc vb))) ∧
  (is_sc = true → ∀ k d e v, m_defaults c !! k = Some (d, e) → val E e v →
     ∃ e', m_defaults c' !! k = Some (d, e') ∧ val E e' (Nat.min v (Nat.min vc vb))) ∧
  (is_sc = true → ∀ k t e v, m_selects c !! k = Some (t, e) → val E e v →
     ∃ e', m_selects c' !! k = Some (t, e') ∧ val E e' (Nat.min v (Nat.min vc vb))).
Proof. intros HE Hn Hy. by apply propagate_value. Qed.

(** After the properties of a node of symbol [n] are copied, the reverse
    dependency of any symbol has the greatest of its old value and the values
    of the selects of the node that name it, each limited by [n] itself. *)
Theorem add_props_rev_dep E st n d vs vals target v0 :
  tri_env E → e_tri E (const_tri 0) = Ok 0 → e_tri E (const_tri 2) = Ok 2 →
  val E (EItem (SymItem false n)) vs → Forall2 (λ sel v, val E sel.2 v) (m_selects d) vals →
  val E (p_rev_dep (get_sym st target)) v0 →
  val E (p_rev_dep (get_sym (add_props_to_sym st n d) target))
    (Nat.max v0 (selected vs target (zip ((m_selects d).*1) vals))).
Proof.
  intros HE Hn Hy Hs Hv H0. unfold add_props_to_sym. rewrite weak_keeps_rev.
  apply rev_dep_fold; try done. by rewrite copy_keeps_rev.
Qed.

(** Constants have their values, A is y and other items are m. *)
Definition demo_env : Env :=
  {| e_type := λ _, TRISTATE; e_str := λ _, Ok "";
     e_tri := λ i, Ok (match i with
                       | SymItem true n => default 0 (STR_TO_TRI n)
                       | SymItem false n => if String.eqb n "A" then 2 else 1
                       | ChoiceItem _ _ => 1 end) |}.

Lemma demo_env_tri : tri_env demo_env.
Proof.
  intros i v [= <-]. destruct i as [[] n|]; [|destruct (String.eqb n "A"); lia|lia].
  unfold STR_TO_TRI. repeat case_match; simpl; lia.
Qed.

Lemma propagate_deps_value_witness :
  let c := mkM 1 (MSym "S") None (Some ("prompt", ky)) (EItem (SymItem false "A")) ky [] [] [("T", ky)] [] in
  let c' := propagate_to (EItem (ChoiceItem 0 None)) ky c in
  val demo_env (m_dep c') 1 ∧ ∃ e, m_prompt c' = Some ("prompt", e) ∧ val demo_env e 1.
Proof.
  intros c c'.
  destruct (propagate_deps_value demo_env (EItem (ChoiceItem 0 None)) ky c 1 2 2 demo_env_tri
    eq_refl eq_refl eq_refl eq_refl eq_refl) as (H1 & H2 & _ & _).
  split; [exact H1|]. exact (H2 "prompt" ky 2 eq_refl eq_refl).
Defined.

Lemma add_props_rev_dep_witness :
  let d := mkM 1 (MSym "A") None None ky ky [] []
             [("T", EItem (SymItem false "B")); ("U", ky); ("T", ky)] [] in
  val demo_env (p_rev_dep (get_sym (add_props_to_sym (mkFst ∅ ∅) "A" d) "T")) 2.
Proof.
  intros d.
  apply (add_props_rev_dep demo_env (mkFst ∅ ∅) "A" d 2 [1; 2; 2] "T" 0 demo_env_tri
    eq_refl eq_refl eq_refl).
  - repeat constructor.
  - reflexivity.
Defined.

(** ** Choices *)

(** Folds over the symbols of a choice. *)
Lemma set_choice_fold id syms st n :
  get_sym (foldl (set_choice_of id) st syms) n =
  let s := get_sym st n in
  if decide (n ∈ syms) then
    mkPsym (p_type s) (p_direct_dep s) (p_defaults s) (p_ranges s) (p_selects s) (p_implies s)
      (p_rev_dep s) (p_weak_rev_dep s) (Some id)
  else s.
Proof.
  revert st. induction syms as [|m syms IH]; intros st; [by rewrite decide_False by apply not_elem_of_nil|].
  cbn [foldl]. rewrite IH. unfold set_choice_of. rewrite get_put.
  destruct (decide (n = m)) as [->|Hne].
  - rewrite (decide_True (P := m ∈ m :: syms)) by (by left). cbn. by destruct (decide (m ∈ syms)).
  - destruct (decide (n ∈ syms)) as [H|H].
    + rewrite decide_True by (by right). done.
    + rewrite decide_False; [done|]. by intros [?|?]%elem_of_cons.
Qed.

Lemma set_type_fold t syms st n :
  p_type (get_sym (foldl (set_type_of t) st syms) n) =
  (if decide (p_type (get_sym st n) = UNKNOWN ∧ n ∈ syms) then t else p_type (get_sym st n)) ∧
  p_choice (get_sym (foldl (set_type_of t) st syms) n) = p_choice (get_sym st n).
Proof.
  revert st. induction syms as [|m syms IH]; intros st.
  { cbn. by rewrite decide_False by (by intros [_ ?%not_elem_of_nil]). }
  cbn [foldl]. destruct (IH (set_type_of t st m)) as [-> ->]. unfold set_type_of.
  destruct (decide (p_type (get_sym st m) = UNKNOWN)) as [Hm|Hm].
  - rewrite !get_put. destruct (decide (n = m)) as [->|Hne].
    + rewrite (decide_True (P := _ ∧ m ∈ m :: syms)) by (split; [done|by left]). cbn.
      split; [by destruct (decide _)|done].
    + split; [|done]. apply decide_ext. rewrite elem_of_cons. naive_solver.
  - split; [|done]. apply decide_ext. rewrite elem_of_cons. naive_solver.
Qed.

Lemma foldl_choices {A} (f : Fst → A → Fst) l st :
  (∀ st a, f_choices (f st a) = f_choices st) → f_choices (foldl f st l) = f_choices st.
Proof. intros Hf. revert st. induction l as [|a l IH]; intros st; [done|]. cbn. by rewrite IH, Hf. Qed.

Lemma set_type_choices t st n : f_choices (set_type_of t st n) = f_choices st.
Proof. unfold set_type_of. by destruct (decide _). Qed.

Lemma first_type_known st syms n :
  n ∈ syms → p_type (get_sym st n) ≠ UNKNOWN → first_type st syms ≠ UNKNOWN.
Proof.
  intros Hin Hn. unfold first_type.
  destruct (filter _ (map _ syms)) as [|t l] eqn:E; cbn.
  - exfalso. assert (p_type (get_sym st n) ∈ @nil styp) as H; [|by apply not_elem_of_nil in H].
    rewrite <- E. apply list_elem_of_filter. split; [done|]. apply list_elem_of_fmap. eauto.
  - assert (t ∈ t :: l) as H by (by left). rewrite <- E in H. by apply list_elem_of_filter in H as [? _].
Qed.

(** After a choice is finalized, the symbols directly below its menu
    node are symbols of the choice; when the choice or one of its symbols has
    a type, the choice and all its symbols have one, a symbol with a type of
    its own keeping it. *)
Theorem finalize_choice_types st id ch :
  let st' := finalize_choice st id ch in
  let c' := get_choice st' id in
  pc_syms c' = pc_syms (get_choice st id) ++ node_syms ch ∧
  (∀ n, n ∈ node_syms ch → p_choice (get_sym st' n) = Some id) ∧
  (∀ n, n ∈ pc_syms c' →
     p_type (get_sym st' n) =
     if decide (p_type (get_sym st n) = UNKNOWN) then pc_type c' else p_type (get_sym st n)) ∧
  (pc_type (get_choice st id) ≠ UNKNOWN ∨
   (∃ n, n ∈ pc_syms c' ∧ p_type (get_sym st n) ≠ UNKNOWN) → pc_type c' ≠ UNKNOWN).
Proof.
  intros st' c'. unfold c', st', finalize_choice.
  set (st1 := foldl (set_choice_of id) st (node_syms ch)).
  assert (get_choice st1 id = get_choice st id) as Hc.
  { unfold get_choice, st1. by rewrite (foldl_choices (set_choice_of id)). }
  assert (∀ n, p_type (get_sym st1 n) = p_type (get_sym st n)) as Ht.
  { intros n. unfold st1. rewrite set_choice_fold. cbn. by destruct (decide _). }
  rewrite Hc. set (all := pc_syms (get_choice st id) ++ node_syms ch).
  set (t := if decide (pc_type (get_choice st id) = UNKNOWN) then first_type st1 all
            else pc_type (get_choice st id)).
  set (st2 := put_pchoice st1 id _).
  assert (get_choice (foldl (set_type_of t) st2 all) id =
          mkPchoice t (pc_direct_dep (get_choice st id)) (pc_defaults (get_choice st id)) all) as ->.
  { unfold get_choice. rewrite (foldl_choices (set_type_of t)) by apply set_type_choices.
    unfold st2, put_pchoice. cbn [f_choices]. by rewrite lookup_insert_eq. }
  assert (∀ n, get_sym st2 n = get_sym st1 n) as H2 by done.
  cbn [pc_syms pc_type]. split_and!; [done| | |].
  - intros n Hn. rewrite (proj2 (set_type_fold t all st2 n)), H2. unfold st1. rewrite set_choice_fold.
    cbn. by rewrite decide_True.
  - intros n Hn. rewrite (proj1 (set_type_fold t all st2 n)), H2, Ht. apply decide_ext. naive_solver.
  - intros H. unfold t. destruct (decide _) as [Hu|Hu]; [|done].
    destruct H as [H|(n & Hn & H)]; [done|]. apply (first_type_known _ _ n); [done|by rewrite Ht].
Qed.
End KFinalSpec.
