(* ===== verification/KSteady.v ===== *)
(** * What the tokenizer and the expression parser leave alone, and that they end

    Module KSteady, and then KEnds for the second part.

    [Steady c]: the computation [c] does not move the parsing location, and
    what it raises is never the bound of the block parser.  The class is
    closed under the operations of the state monad, so that it is found by
    instance search for code without recursion; for the recursive functions it
    is proved by induction on their fuel.  The user's preprocessor functions
    are assumed to be steady. *)
From S2P Require Import Prelude Hex PyStr KExpr KLex KParse KParseSpec KLexSpec.

Module KSteady.
Import Hex PyStr KExpr KLex KParse KParseSpec.

Class Steady {A} (c : ST Kst A) : Prop :=
  steady k : match c k with
             | Ok (_, k') => k_filename k' = k_filename k ∧ k_linenr k' = k_linenr k
             | Err e => e ≠ OutOfDepth
             end.
#[global] Hint Mode Steady ! ! : typeclass_instances.

#[global] Instance steady_ret {A} (a : A) : Steady (mret a).
Proof. by intros k. Qed.
#[global] Instance steady_get {A} (f : Kst → A) : Steady (st_get f).
Proof. by intros k. Qed.
#[global] Instance steady_bind {A B} (c : ST Kst A) (f : A → ST Kst B) :
  Steady c → (∀ a, Steady (f a)) → Steady (c ≫= f).
Proof.
  intros Hc Hf k. unfold mbind, ST_bind. specialize (Hc k). destruct (c k) as [[a k1]|e]; [|done].
  cbn [res_bind fst snd]. specialize (Hf a k1). destruct (f a k1) as [[b k2]|e]; [|done].
  destruct Hc, Hf. split; congruence.
Qed.
#[global] Instance steady_if {A} (b : bool) (c1 c2 : ST Kst A) :
  Steady c1 → Steady c2 → Steady (if b then c1 else c2).
Proof. by destruct b. Qed.
Lemma steady_raise {A} e : e ≠ OutOfDepth → Steady (st_raise (A := A) e).
Proof. by intros He k. Qed.
#[global] Instance steady_parse_error {A} msg : Steady (parse_error (A := A) msg).
Proof. by intros k. Qed.

#[global] Hint Extern 2 (Steady (st_raise _)) => apply steady_raise; done : typeclass_instances.
(** Case analyses of the code, and functions to look into. *)
#[global] Hint Extern 3 (Steady (match ?x with _ => _ end)) => destruct x : typeclass_instances.
Ltac steady := intros; repeat (apply _ || case_match || apply steady_bind; intros).

#[global] Instance steady_set_line s : Steady (set_line s).
Proof. by intros k. Qed.
#[global] Instance steady_add_warning s : Steady (add_warning s).
Proof. by intros k. Qed.
#[global] Instance steady_set_var n v : Steady (set_var n v).
Proof. by intros k. Qed.
#[global] Instance steady_add_env_var n : Steady (add_env_var n).
Proof. by intros k. Qed.
#[global] Instance steady_add_sym n : Steady (add_sym n).
Proof. by intros k. Qed.
#[global] Instance steady_add_const_sym n : Steady (add_const_sym n).
Proof. by intros k. Qed.
#[global] Instance steady_warn msg : Steady (warn msg).
Proof. unfold warn. apply _. Qed.
#[global] Instance steady_warn_here msg : Steady (warn_here msg).
Proof. unfold warn_here. apply _. Qed.
#[global] Instance steady_lookup_sym n : Steady (lookup_sym n).
Proof. unfold lookup_sym. apply _. Qed.
#[global] Instance steady_lookup_const_sym n : Steady (lookup_const_sym n).
Proof. unfold lookup_const_sym. apply _. Qed.

(** ** Expressions *)

#[global] Instance steady_expect_sym ts : Steady (expect_sym ts).
Proof. unfold expect_sym. apply _. Qed.
#[global] Instance steady_expect_nonconst_sym ts : Steady (expect_nonconst_sym ts).
Proof. unfold expect_nonconst_sym. apply _. Qed.
#[global] Instance steady_trailing {A} : Steady (trailing_tokens_error (A := A)).
Proof. unfold trailing_tokens_error. apply _. Qed.
#[global] Instance steady_expect_eol ts : Steady (expect_eol ts).
Proof. unfold expect_eol. apply _. Qed.
#[global] Instance steady_expect_str_and_eol ts : Steady (expect_str_and_eol ts).
Proof. unfold expect_str_and_eol. apply _. Qed.

Lemma steady_parsers tm fuel :
  (∀ ts, Steady (parse_expr fuel tm ts)) ∧ (∀ ts, Steady (parse_and_expr fuel tm ts)) ∧
  (∀ ts, Steady (parse_factor fuel tm ts)).
Proof.
  induction fuel as [|fuel (IE & IA & IF)]; [split_and!; intros ts k; done|].
  split_and!; intros ts; cbn [parse_expr parse_and_expr parse_factor]; apply _.
Qed.
#[global] Instance steady_parse_expression tm ts : Steady (parse_expression tm ts).
Proof. apply steady_parsers. Qed.
#[global] Instance steady_expect_expr_and_eol ts : Steady (expect_expr_and_eol ts).
Proof. unfold expect_expr_and_eol. apply _. Qed.
#[global] Instance steady_parse_cond ts : Steady (parse_cond ts).
Proof. unfold parse_cond. apply _. Qed.

(** ** The tokenizer *)

Section lex.
Context (environ : gmap string string) (uname_release : string).
Context (shell : string → string * string).
Context (user_functions : gmap string (nat * option nat * (list string → ST Kst string))).
Context (Hfn : ∀ n f, user_functions !! n = Some f → ∀ args, Steady (f.2 args)).

Lemma steady_call_fn fn f args : functions shell user_functions fn = Some f → Steady (call_fn fn f args).
Proof.
  intros Hf. assert (Steady (f.2 args)).
  { unfold functions in Hf. destruct (user_functions !! fn) as [g|] eqn:Eg; [injection Hf as <-; eauto|].
    unfold predefined in Hf. cbn [assoc] in Hf. clear Eg. repeat case_match; simplify_eq; cbn [snd];
    unfold info_fn, error_if_fn, filename_fn, lineno_fn, shell_fn, warning_if_fn; apply _. }
  unfold call_fn. destruct f as [[a b] c]. cbn [snd] in *. apply _.
Qed.

Lemma steady_bump fn f : Steady (bump fn f).
Proof. unfold bump. apply _. Qed.
Lemma steady_check fn n v : Steady (check_expansions fn n v).
Proof. unfold check_expansions. apply _. Qed.
Lemma steady_value v : Steady (value_attr v).
Proof. unfold value_attr. apply _. Qed.
#[local] Existing Instances steady_bump steady_check steady_value.

Lemma steady_expansion fuel :
  (∀ s i args, Steady (expand_macro environ shell user_functions fuel s i args)) ∧
  (∀ s r i a new n args, Steady (macro_loop environ shell user_functions fuel s r i a new n args)) ∧
  (∀ args, Steady (fn_val environ shell user_functions fuel args)) ∧
  (∀ s i args, Steady (expand_whole environ shell user_functions fuel s i args)).
Proof.
  induction fuel as [|fuel (IM & IL & IF & IW)]; [split_and!; intros; intros k; done|].
  split_and!; intros; cbn [expand_macro macro_loop fn_val expand_whole]; try apply _.
  apply steady_bind; [apply _|]. intros vs. destruct (vs !! _); [apply _|].
  destruct (functions shell user_functions _) eqn:E; [by apply steady_call_fn|apply _].
Qed.
#[local] Instance steady_expand_macro fuel s i args :
  Steady (expand_macro environ shell user_functions fuel s i args).
Proof. apply steady_expansion. Qed.
#[local] Instance steady_expand_whole fuel s i args :
  Steady (expand_whole environ shell user_functions fuel s i args).
Proof. apply steady_expansion. Qed.

#[local] Instance steady_name_iter fuel s i :
  Steady (expand_name_iter environ shell user_functions fuel s i).
Proof. revert s i; induction fuel; intros; cbn [expand_name_iter]; apply _. Qed.
#[local] Instance steady_str_loop fuel q s i :
  Steady (expand_str_loop environ shell user_functions fuel q s i).
Proof. revert s i; induction fuel; intros; cbn [expand_str_loop]; apply _. Qed.
#[local] Instance steady_expand_lhs fuel s i :
  Steady (expand_lhs environ shell user_functions fuel s i).
Proof. revert s i; induction fuel; intros; cbn [expand_lhs]; cbv zeta; apply _. Qed.

#[local] Instance steady_assign fuel name op val :
  Steady (assign environ shell user_functions fuel name op val).
Proof. unfold assign. cbv zeta. steady. Qed.
#[local] Instance steady_parse_assignment fuel s :
  Steady (parse_assignment environ shell user_functions fuel s).
Proof. unfold parse_assignment. apply _. Qed.
#[local] Instance steady_quoted fuel c s i :
  Steady (quoted environ uname_release shell user_functions fuel c s i).
Proof. unfold quoted, expand_str. cbv zeta. apply _. Qed.
#[local] Instance steady_identifier fuel prev s name i e :
  Steady (identifier environ shell user_functions fuel prev s name i e).
Proof. unfold identifier, expand_name. cbv zeta. apply _. Qed.
#[local] Instance steady_tokenize_loop fuel first prev s i :
  Steady (tokenize_loop environ uname_release shell user_functions fuel first prev s i).
Proof. revert prev s i; induction fuel; intros; cbn [tokenize_loop]; apply _. Qed.

Lemma steady_tokenize fuel s : Steady (tokenize environ uname_release shell user_functions fuel s).
Proof. unfold tokenize. apply _. Qed.
End lex.
End KSteady.

(** ** The preprocessor and the tokenizer end

    A computation with a bound [n] on its recursion ends from a state when from
    some [n] on it has one and the same result, and that result is not that the
    bound was reached ([Ends]).  Macro expansion ends: an expansion returns a
    position that is closer to the end of the line, and a call of a variable's
    value counts against the expansions that the variable has left.  The
    user's preprocessor functions are assumed to return and to leave the
    variables alone ([Tame]). *)
Module KEnds.
Import Hex PyStr KExpr KLex KLexSpec KParse KParseSpec.

(** ** Results that do not depend on the bound *)

Definition Ends {S A} (c : nat → ST S A) (s : S) (Q : A → S → Prop) : Prop :=
  ∃ N r, (∀ n, N ≤ n → c n s = r) ∧
         match r with Ok (a, s') => Q a s' | Err e => e ≠ OutOfFuel end.

Section ends.
Context {S A B : Type}.
Implicit Types (c : nat → ST S A) (s : S).

Lemma ends_mono c s (Q Q' : A → S → Prop) :
  Ends c s Q → (∀ a s', Q a s' → Q' a s') → Ends c s Q'.
Proof. intros (N & r & E & P) H. exists N, r. split; [done|]. destruct r as [[a s']|e]; auto. Qed.
Lemma ends_const (c : ST S A) s (Q : A → S → Prop) :
  match c s with Ok (a, s') => Q a s' | Err e => e ≠ OutOfFuel end → Ends (λ _, c) s Q.
Proof. intros H. by exists 0, (c s). Qed.
Lemma ends_ret a s (Q : A → S → Prop) : Q a s → Ends (λ _, mret a) s Q.
Proof. intros H. by apply ends_const. Qed.
Lemma ends_seq c (f : nat → A → ST S B) s (Q : B → S → Prop) :
  Ends c s (λ a s', Ends (λ n, f n a) s' Q) → Ends (λ n, c n ≫= f n) s Q.
Proof.
  intros (N & [[a s']|e] & E & P).
  - destruct P as (N' & r & E' & P). exists (N `max` N'), r. split; [|done]. intros n Hn.
    unfold mbind, ST_bind. rewrite E by lia. apply E'. lia.
  - exists N, (Err e). split; [|done]. intros n Hn. unfold mbind, ST_bind. by rewrite E.
Qed.
(** One unit of the bound is spent. *)
Lemma ends_succ c s (Q : A → S → Prop) : Ends (λ n, c (Datatypes.S n)) s Q → Ends c s Q.
Proof.
  intros (N & r & E & P). exists (Datatypes.S N), r. split; [|done]. intros [|n] Hn; [lia|].
  apply E. lia.
Qed.
End ends.

(** The bound is never reached, from any state. *)
Class Settles {S A} (c : nat → ST S A) : Prop := settles s : Ends c s (λ _ _, True).
#[global] Hint Mode Settles ! ! ! : typeclass_instances.
Lemma settles_in_time {S A} (c : ST S A) : InTime c → Settles (λ _, c).
Proof. intros H s. apply ends_const. specialize (H s). by destruct (c s) as [[]|]. Qed.
Lemma settles_bind {S A B} (c : nat → ST S A) (f : nat → A → ST S B) :
  Settles c → (∀ a, Settles (λ n, f n a)) → Settles (λ n, c n ≫= f n).
Proof. intros Hc Hf s. apply ends_seq. eapply ends_mono; [apply Hc|]. intros a s' _. apply Hf. Qed.
Lemma settles_succ {S A} (c : nat → ST S A) : Settles (λ n, c (Datatypes.S n)) → Settles c.
Proof. intros H s. apply ends_succ, H. Qed.

(** Goes through code whose calls settle. *)
Ltac settle :=
  repeat match goal with
  | |- Settles (λ n, _ ≫= _) => apply settles_bind; [|intros ?]
  | |- Settles (λ n, match ?x with _ => _ end) => destruct x
  | |- Settles _ => first [apply settles_in_time; apply _|apply _|solve [eauto]]
  end.

(** ** What leaves the variables alone *)

Class Tame {A} (c : ST Kst A) : Prop :=
  tame k : match c k with Ok (_, k') => k_vars k' = k_vars k | Err e => e ≠ OutOfFuel end.
#[global] Hint Mode Tame ! ! : typeclass_instances.

#[global] Instance tame_in_time {A} (c : ST Kst A) : Tame c → InTime c | 10.
Proof. intros H k. specialize (H k). by destruct (c k) as [[]|]. Qed.
Lemma ends_tame {A} (c : ST Kst A) k :
  Tame c → Ends (λ _, c) k (λ _ k', k_vars k' = k_vars k).
Proof. intros H. apply ends_const. apply (H k). Qed.

#[global] Instance tame_ret {A} (a : A) : Tame (mret a).
Proof. by intros k. Qed.
#[global] Instance tame_get {A} (f : Kst → A) : Tame (st_get f).
Proof. by intros k. Qed.
#[global] Instance tame_bind {A B} (c : ST Kst A) (f : A → ST Kst B) :
  Tame c → (∀ a, Tame (f a)) → Tame (c ≫= f).
Proof.
  intros Hc Hf k. unfold mbind, ST_bind. specialize (Hc k). destruct (c k) as [[a k1]|e]; [|done].
  cbn [res_bind fst snd]. specialize (Hf a k1). destruct (f a k1) as [[b k2]|e]; [congruence|done].
Qed.
#[global] Instance tame_if {A} (b : bool) (c1 c2 : ST Kst A) : Tame c1 → Tame c2 → Tame (if b then c1 else c2).
Proof. by destruct b. Qed.
Lemma tame_raise {A} e : e ≠ OutOfFuel → Tame (st_raise (A := A) e).
Proof. by intros He k. Qed.
#[global] Instance tame_parse_error {A} msg : Tame (parse_error (A := A) msg).
Proof. by intros k. Qed.
#[global] Hint Extern 2 (Tame (st_raise _)) => apply tame_raise; done : typeclass_instances.
#[global] Hint Extern 3 (Tame (match ?x with _ => _ end)) => destruct x : typeclass_instances.

#[global] Instance tame_set_line s : Tame (set_line s).
Proof. by intros k. Qed.
#[global] Instance tame_add_warning s : Tame (add_warning s).
Proof. by intros k. Qed.
#[global] Instance tame_add_env_var n : Tame (add_env_var n).
Proof. by intros k. Qed.
#[global] Instance tame_add_sym n : Tame (add_sym n).
Proof. by intros k. Qed.
#[global] Instance tame_add_const_sym n : Tame (add_const_sym n).
Proof. by intros k. Qed.
#[global] Instance in_time_set_var n v : InTime (set_var n v).
Proof. by intros k. Qed.
#[global] Instance tame_warn msg : Tame (warn msg).
Proof. unfold warn. apply _. Qed.
#[global] Instance tame_warn_here msg : Tame (warn_here msg).
Proof. unfold warn_here. apply _. Qed.
#[global] Instance tame_lookup_sym n : Tame (lookup_sym n).
Proof. unfold lookup_sym. apply _. Qed.
#[global] Instance tame_lookup_const_sym n : Tame (lookup_const_sym n).
Proof. unfold lookup_const_sym. apply _. Qed.
#[global] Instance tame_value v : Tame (value_attr v).
Proof. unfold value_attr. apply _. Qed.
#[global] Instance tame_check fn n v : Tame (check_expansions fn n v).
Proof. unfold check_expansions. apply _. Qed.

(** Expressions: the fuel given is enough. *)
#[global] Instance in_time_expect_sym ts : InTime (expect_sym ts).
Proof. unfold expect_sym. apply _. Qed.
#[global] Instance in_time_expect_nonconst_sym ts : InTime (expect_nonconst_sym ts).
Proof. unfold expect_nonconst_sym. apply _. Qed.
#[global] Instance in_time_trailing {A} : InTime (trailing_tokens_error (A := A)).
Proof. unfold trailing_tokens_error. apply _. Qed.
#[global] Instance in_time_expect_eol ts : InTime (expect_eol ts).
Proof. unfold expect_eol. apply _. Qed.
#[global] Instance in_time_expect_str_and_eol ts : InTime (expect_str_and_eol ts).
Proof. unfold expect_str_and_eol. apply _. Qed.
#[global] Instance in_time_parse_expression tm ts : InTime (parse_expression tm ts).
Proof.
  intros k. pose proof (proj1 (parsers_end tm (parse_fuel ts)) ts k (le_n _)) as H.
  unfold parse_expression, ends in *. destruct (parse_expr _ tm ts k) as [[]|[]]; done.
Qed.
#[global] Instance in_time_expect_expr_and_eol ts : InTime (expect_expr_and_eol ts).
Proof. unfold expect_expr_and_eol. apply _. Qed.
#[global] Instance in_time_parse_cond ts : InTime (parse_cond ts).
Proof. unfold parse_cond. apply _. Qed.

(** ** Positions *)

(** What is left of the line from position [i] on. *)
Definition left (s : string) (i : nat) : nat := String.length s - i.

Lemma length_sdrop n s : String.length (sdrop n s) = String.length s - n.
Proof. revert n; induction s as [|c s IH]; intros [|n]; cbn; done. Qed.

Lemma length_stake n s : String.length (stake n s) = Nat.min n (String.length s).
Proof. revert n; induction s as [|c s IH]; intros [|n]; cbn; try done. by rewrite IH. Qed.

Lemma search_from stop s i r j :
  search stop s i = (r, j) →
  i ≤ j ∧ match r with SEnd => True | SChar _ => j < i + String.length s | SMacro => j + 2 ≤ i + String.length s end.
Proof.
  revert i; induction s as [|c s IH]; intros i; cbn [search]; [by intros [= <- <-]|].
  destruct (Ascii.eqb c "$" && startswith s "(") eqn:E.
  { intros [= <- <-]. split; [done|]. apply andb_true_iff in E as [_ E]. destruct s; [done|]. cbn. lia. }
  destruct (stop c); [intros [= <- <-]; cbn; lia|]. intros H. apply IH in H as [H1 H2]. split; [lia|].
  destruct r; cbn; lia.
Qed.
(** The searches of the preprocessor. *)
Lemma search_left stop s i r j :
  search stop (sdrop i s) i = (r, j) → r ≠ SEnd →
  left s (S j) < left s i ∧ (r = SMacro → left s (j + 2) < left s j ≤ left s i).
Proof.
  intros H Hr. apply search_from in H as [H1 H2]. rewrite length_sdrop in H2. unfold left.
  destruct r; [| |done]; (split; [lia|]); [done|lia].
Qed.

(** ** Expansion *)

(** The expansions that variables have left before they are refused. *)
Definition budget (vs : gmap string Var) : nat :=
  map_fold (λ _ v acc, (101 - v_n_expansions v) + acc) 0 vs.

Lemma budget_insert vs fn v v' :
  vs !! fn = Some v →
  budget (<[fn := v']> vs) + (101 - v_n_expansions v) = budget vs + (101 - v_n_expansions v').
Proof.
  intros H. unfold budget.
  rewrite (map_fold_delete_L _ _ fn v' (<[fn := v']> vs)) by (first [apply lookup_insert_eq|intros; lia]).
  rewrite (map_fold_delete_L _ _ fn v vs) by (first [done|intros; lia]).
  rewrite delete_insert_eq. lia.
Qed.

Section lex.
Context (environ : gmap string string) (uname_release : string).
Context (shell : string → string * string).
Context (user_functions : gmap string (nat * option nat * (list string → ST Kst string))).
Context (Htame : ∀ n f, user_functions !! n = Some f → ∀ args, Tame (f.2 args)).
Notation expand_macro := (expand_macro environ shell user_functions).
Notation macro_loop := (macro_loop environ shell user_functions).
Notation fn_val := (fn_val environ shell user_functions).
Notation expand_whole := (expand_whole environ shell user_functions).

Lemma tame_call_fn fn f args : functions shell user_functions fn = Some f → Tame (call_fn fn f args).
Proof.
  intros Hf. assert (Tame (f.2 args)).
  { unfold functions in Hf. destruct (user_functions !! fn) as [g|] eqn:Eg; [injection Hf as <-; eauto|].
    unfold predefined in Hf. cbn [assoc] in Hf. clear Eg. repeat case_match; simplify_eq; cbn [snd];
    unfold info_fn, error_if_fn, filename_fn, lineno_fn, shell_fn, warning_if_fn; apply _. }
  unfold call_fn. destruct f as [[a b] c]. cbn [snd] in *. apply _.
Qed.

(** With the variables as they were and nearer to the end of the line. *)
Definition nearer (s : string) (i : nat) (vs : gmap string Var) (p : string * nat) (k : Kst) : Prop :=
  k_vars k = vs ∧ left p.1 p.2 < left s i.
Definition calls_end (vs : gmap string Var) : Prop := ∀ args k,
  k_vars k = vs → Ends (λ n, fn_val n args) k (λ _ k', k_vars k' = vs).

Lemma loop_ends vs s res i a na nest args k :
  calls_end vs → k_vars k = vs →
  Ends (λ n, macro_loop n s res i a na nest args) k (nearer s i vs).
Proof.
  intros Hc. remember (left s i) as r eqn:Hr. revert s res i a na nest k Hr.
  induction (lt_wf r) as [r _ IH]; intros s res i a na nest k Hr Hk. subst r.
  assert (∀ s' res' i' a' na' nest' k', left s' i' < left s i → k_vars k' = vs →
    Ends (λ n, macro_loop n s' res' i' a' na' nest' args) k' (nearer s i vs)) as Hgo.
  { intros s' res' i' a' na' nest' k' Hl Hk'. eapply ends_mono; [by apply (IH (left s' i'))|].
    intros p k'' [H1 H2]. split; [done|lia]. }
  apply ends_succ. cbn [KLex.macro_loop].
  destruct (macro_special_search s i) as [[c| |] j] eqn:E; cbn beta iota; [| |by apply ends_const].
  - destruct (search_left _ _ _ _ _ E) as [Hl _]; [done|].
    destruct (Ascii.eqb c "("); [by apply Hgo|].
    destruct (Ascii.eqb c ")"); [|destruct (nest =? 0); by apply Hgo].
    destruct nest; [|by apply Hgo]. apply ends_seq. eapply ends_mono with (Q := λ _ k', k_vars k' = vs).
    + destruct (int10 _) as [z|]; [destruct (py_index args z)|]; [by apply ends_ret|by apply Hc..].
    + intros v k' Hv. apply ends_ret. split; [done|]. cbn [fst snd].
      unfold left in *. rewrite !length_append, length_sdrop. lia.
  - destruct (search_left _ _ _ _ _ E) as [Hl Hl2]; [done|]. specialize (Hl2 eq_refl).
    apply ends_seq, ends_succ. cbn [KLex.expand_macro].
    eapply ends_mono; [apply (IH (left s (j + 2)) ltac:(lia)); done|]. intros [s1 i1] k1 [H1 H2]. apply Hgo; [cbn [fst snd] in H2; lia|done].
Qed.

Lemma macro_ends vs s i args k :
  calls_end vs → k_vars k = vs → left s (i + 2) < left s i →
  Ends (λ n, expand_macro n s i args) k (nearer s i vs).
Proof.
  intros Hc Hk Hl. apply ends_succ. cbn [KLex.expand_macro].
  eapply ends_mono; [by apply (loop_ends vs)|]. intros p k' [H1 H2]. split; [done|lia].
Qed.

(** Macros found in a line one after the other: [next] looks at what is left
    after each. *)
Lemma whole_ends vs s i args k :
  calls_end vs → k_vars k = vs → Ends (λ n, expand_whole n s i args) k (λ _ k', k_vars k' = vs).
Proof.
  intros Hc. remember (left s i) as r eqn:Hr. revert s i k Hr.
  induction (lt_wf r) as [r _ IH]; intros s i k Hr Hk. subst r. apply ends_succ. cbn [KLex.expand_whole].
  unfold find_macro. destruct (search _ (sdrop i s) i) as [[c| |] j] eqn:E; [by apply ends_ret| |by apply ends_ret].
  destruct (search_left _ _ _ _ _ E) as [Hl Hl2]; [done|]. specialize (Hl2 eq_refl).
  apply ends_seq. eapply ends_mono; [apply (macro_ends vs); [done..|lia]|]. intros [s1 i1] k1 [H1 H2].
  apply (IH (left s1 i1)); [cbn [fst snd] in H2; lia|done..].
Qed.

Lemma check_budget fn n v k u k' :
  check_expansions fn n v k = Ok (u, k') → k' = k ∧ v_n_expansions v ≤ 100.
Proof.
  unfold check_expansions. destruct (n =? 1).
  - destruct (Nat.eqb_spec (v_n_expansions v) 0); [|done]. intros [= _ <-]. split; [done|lia].
  - destruct (Nat.ltb_spec 100 (v_n_expansions v)); [done|]. intros [= _ <-]. split; [done|lia].
Qed.

Lemma ends_bump fn f v k :
  k_vars k !! fn = Some v →
  Ends (λ _, bump fn f) k (λ _ k',
    k_vars k' = <[fn := mkVar (v_value v) (v_recursive v) (f (v_n_expansions v))]> (k_vars k)).
Proof. intros H. apply ends_const. unfold bump, mbind, ST_bind. cbn. by rewrite H. Qed.

(** A call ends: the variable's expansions are counted while it is expanded. *)
Lemma calls_total vs : calls_end vs.
Proof.
  remember (budget vs) as b eqn:Hb. revert vs Hb. induction (lt_wf b) as [b _ IH]; intros vs -> args k Hk.
  apply ends_succ. cbn [KLex.fn_val]. set (fn := default "" (head args)).
  apply ends_seq, ends_const. cbn. rewrite Hk. destruct (vs !! fn) as [v|] eqn:Ev.
  2: { destruct (functions _ _ fn) eqn:Ef; [|destruct (environ !! fn)]; rewrite <- Hk; apply ends_tame; [by apply tame_call_fn|apply _..]. }
  apply ends_seq, ends_const. destruct (check_expansions fn (length args) v k) as [[u k1]|e] eqn:Ec.
  2: { pose proof (tame_check fn (length args) v k) as H. by rewrite Ec in H. }
  apply check_budget in Ec as [-> Hn]. subst vs.
  apply ends_seq. eapply ends_mono; [by apply ends_bump|]. intros ? k1 Hk1. cbn beta in Hk1.
  apply ends_seq. eapply ends_mono; [apply ends_tame; apply _|]. intros x k2 Hk2.
  cbn beta in Hk2. rewrite Hk1 in Hk2. set (vs1 := <[fn := _]> (k_vars k)) in Hk2.
  assert (budget vs1 < budget (k_vars k)) as Hlt.
  { pose proof (budget_insert (k_vars k) fn v (mkVar (v_value v) (v_recursive v) (S (v_n_expansions v))) Ev) as H.
    cbn [v_n_expansions] in H. fold vs1 in H. lia. }
  apply ends_seq. eapply ends_mono; [apply (whole_ends vs1); [by apply (IH (budget vs1))|done]|].
  intros r k3 Hk3. cbn beta in Hk3. apply ends_seq.
  eapply ends_mono; [eapply ends_bump; rewrite Hk3; apply lookup_insert_eq|]. intros ? k4 Hk4.
  apply ends_ret. rewrite Hk4, Hk3. unfold vs1. rewrite insert_insert_eq, insert_id; [done|].
  rewrite Ev. by destruct v.
Qed.

(** *** The callers of the expansion *)

#[local] Instance settles_whole s i args : Settles (λ n, expand_whole n s i args).
Proof. intros k. eapply ends_mono; [by apply (whole_ends (k_vars k)); [apply calls_total|]|done]. Qed.

(** A loop that expands a macro and goes on behind it. *)
Lemma then_macro {A} s i j args (f : nat → string * nat → ST Kst A) k Q :
  left s (j + 2) < left s j ≤ left s i →
  (∀ s' i' k', left s' i' < left s i → Ends (λ n, f n (s', i')) k' Q) →
  Ends (λ n, expand_macro n s j args ≫= f n) k Q.
Proof.
  intros Hl Hf. apply ends_seq.
  eapply ends_mono; [apply (macro_ends (k_vars k)); [apply calls_total|done|lia]|].
  intros [s' i'] k' [_ H]. cbn [fst snd] in H. apply Hf. lia.
Qed.

Notation expand_name_iter := (expand_name_iter environ shell user_functions).
Notation expand_name := (expand_name environ shell user_functions).
Notation expand_str_loop := (expand_str_loop environ shell user_functions).
Notation expand_str := (expand_str environ shell user_functions).
Notation expand_lhs := (expand_lhs environ shell user_functions).
Notation assign := (assign environ shell user_functions).
Notation parse_assignment := (parse_assignment environ shell user_functions).
Notation quoted := (quoted environ uname_release shell user_functions).
Notation identifier := (identifier environ shell user_functions).
Notation tokenize_loop := (tokenize_loop environ uname_release shell user_functions).
Notation tokenize := (tokenize environ uname_release shell user_functions).

(** No further from the end of the line. *)
Definition not_further (s : string) (i : nat) (p : string * nat) (_ : Kst) : Prop := left p.1 p.2 ≤ left s i.

(** By induction on what is left of the line. *)
Ltac by_left s i k := remember (left s i) as r eqn:Hr; revert s i k Hr; induction (lt_wf r) as [r _ IH];
  intros s i k ->; apply ends_succ.
Ltac go_on IH := eapply ends_mono; [(eapply IH; [|reflexivity])|intros ? ?; unfold not_further].

Lemma ends_str_loop q s i k : Ends (λ n, expand_str_loop n q s i) k (not_further s i).
Proof.
  by_left s i k. cbn [KLex.expand_str_loop].
  assert (∀ s' i' k', left s' i' < left s i → Ends (λ n, expand_str_loop n q s' i') k' (not_further s i)) as Hgo.
  { intros s' i' k' H. go_on IH; [done|lia]. }
  destruct (string_special_search s i) as [[c| |] j] eqn:E; cbn beta iota; [| |by apply ends_const].
  - destruct (search_left _ _ _ _ _ E) as [Hl _]; [done|]. apply search_from in E as [H1 H2].
    rewrite length_sdrop in H2.
    destruct (Ascii.eqb c q); [apply ends_ret; unfold not_further; cbn [fst snd]; lia|].
    destruct (Ascii.eqb c "\"); apply Hgo; unfold left; [|lia].
    rewrite length_append, length_sdrop. pose proof (length_stake j s). lia.
  - destruct (search_left _ _ _ _ _ E) as [Hl Hl2]; [done|]. apply (then_macro s i); auto.
Qed.

#[local] Instance settles_lhs s i : Settles (λ n, expand_lhs n s i).
Proof.
  intros k. by_left s i k. cbn [KLex.expand_lhs]. cbv zeta.
  set (j := i + _). destruct (startswith (sdrop j s) "$(") eqn:E; [|by apply ends_ret].
  assert (2 ≤ left s j) as H2.
  { unfold left. rewrite <- length_sdrop. unfold startswith in E.
    destruct (sdrop j s) as [|a [|b t]]; [done| |cbn; lia]. cbn [String.prefix] in E. by case_match. }
  apply (then_macro s i); [unfold left in *; subst j; lia|]. intros s' i' k' H.
  eapply IH; [|reflexivity]. done.
Qed.

Lemma ends_name_iter s i k : Ends (λ n, expand_name_iter n s i) k (not_further s i).
Proof.
  by_left s i k. cbn [KLex.expand_name_iter].
  destruct (name_special_search s i) as [r j] eqn:E. pose proof E as E'. apply search_from in E' as [H1 H2].
  destruct r; [apply ends_ret; unfold not_further, left; cbn [fst snd]; lia| |apply ends_ret; unfold not_further, left; cbn [fst snd]; lia].
  destruct (search_left _ _ _ _ _ E) as [Hl Hl2]; [done|]. apply (then_macro s i); [auto|].
  intros s' i' k' H. go_on IH; [done|lia].
Qed.

(** *** Assignments *)

#[local] Instance settles_assign name op val : Settles (λ n, assign n name op val).
Proof. unfold KLex.assign. settle. Qed.
#[local] Instance settles_assignment s : Settles (λ n, parse_assignment n s).
Proof. unfold KLex.parse_assignment. settle. Qed.

(** *** Tokens *)

Lemma skip_left s i : left s (skip_space s i) ≤ left s i.
Proof. unfold left, skip_space. lia. Qed.

(** An identifier starts with a character of identifiers. *)
Lemma id_starts s i name e :
  id_keyword_match s i = Some (name, e) →
  left s e < left s i ∧ ∃ c t, sdrop i s = String c t ∧ id_char c = true.
Proof.
  unfold id_keyword_match. pose proof (span_split id_char (sdrop i s)) as H.
  destruct (span id_char (sdrop i s)) as [nm r] eqn:E. cbn [fst snd] in H.
  destruct (span is_space r) as [w r'] eqn:E'. destruct (String.eqb_spec nm ""); [done|]. intros [= <- <-].
  pose proof H as Hl. apply (f_equal String.length) in Hl. rewrite length_append, length_sdrop in Hl.
  split; [unfold left; destruct nm; [done|]; cbn in *; lia|].
  destruct (sdrop i s) as [|c t]; [by destruct nm|]. exists c, t. split; [done|]. cbn [span] in E.
  destruct (id_char c); [done|]. by injection E as <- _.
Qed.

(** Behind the name that starts at [i]. *)
Lemma ends_expand_name s i c t k :
  sdrop i s = String c t → id_char c = true →
  Ends (λ n, expand_name n s i) k (λ p _, left p.1.2 p.2 < left s i).
Proof.
  intros Hs Hc. unfold KLex.expand_name. apply ends_seq.
  eapply ends_mono with (Q := λ p _, left p.1 p.2 < left s i).
  - apply ends_succ. cbn [KLex.expand_name_iter]. destruct (name_special_search s i) as [r j] eqn:E.
    assert (r = SMacro ∨ left s j < left s i) as Hj.
    { unfold name_special_search in E. rewrite Hs in E. cbn [search] in E. rewrite Hc in E.
      destruct (_ && _); [injection E as <- _; by left|]. cbn [negb] in E. right.
      apply search_from in E as [H _]. assert (0 < left s i) by (unfold left; rewrite <- length_sdrop, Hs; cbn; lia).
      unfold left in *. lia. }
    destruct r; [apply ends_ret; by destruct Hj| |apply ends_ret; by destruct Hj].
    destruct (search_left _ _ _ _ _ E) as [Hl Hl2]; [done|]. apply (then_macro s i); [auto|].
    intros s' i' k' H. eapply ends_mono; [apply ends_name_iter|]. intros p k'' H'. unfold not_further in H'. lia.
  - intros [s' e] k' H. cbn [fst snd] in H. cbv zeta. destruct (String.eqb _ ""); [by apply ends_const|].
    apply ends_ret. cbn [fst snd]. pose proof (skip_left s' e). lia.
Qed.

Lemma ends_identifier prev s name i e k :
  id_keyword_match s i = Some (name, e) →
  Ends (λ n, identifier n prev s name i e) k (λ p _, left p.1.2 p.2 < left s i).
Proof.
  intros Hm. apply id_starts in Hm as [He (c & t & Hs & Hc)]. unfold KLex.identifier.
  destruct (get_keyword name); [by apply ends_ret|]. destruct (negb (tok_string_lex prev)).
  - apply ends_seq. eapply ends_mono with (Q := λ p _, left p.1.2 p.2 < left s i).
    + destruct (has_char "$" name); [by eapply ends_expand_name|by apply ends_ret].
    + intros [[nm s'] i'] k' H. apply ends_seq. eapply ends_mono; [apply ends_tame; apply _|].
      intros it k'' _. by apply ends_ret.
  - cbv zeta. do 2 (apply ends_seq; eapply ends_mono; [apply ends_tame; apply _|intros ? ? _]). by apply ends_ret.
Qed.

Lemma ends_quoted c s i k :
  0 < left s i → Ends (λ n, quoted n c s i) k (λ p _, left p.1.2 p.2 < left s i).
Proof.
  intros Hl. unfold KLex.quoted. destruct (_ && _).
  - unfold find_from. destruct (index_of c _) as [j|]; cbn; [apply ends_ret|by apply ends_const].
    unfold left in *. cbn [fst snd]. lia.
  - unfold KLex.expand_str. apply ends_seq. eapply ends_mono; [apply ends_str_loop|]. intros [s' e] k' H.
    cbv zeta. apply ends_ret. unfold not_further, left in *. cbn [fst snd] in *. lia.
Qed.

Lemma operator_length s t n : operator s = Some (Some (t, n)) → 0 < n.
Proof. unfold operator. repeat case_match; intros [= <- <-]; lia. Qed.

Lemma ends_tokenize_loop first prev s i k : Ends (λ n, tokenize_loop n first prev s i) k (λ _ _, True).
Proof.
  remember (left s i) as r eqn:Hr. revert prev s i k Hr.
  induction (lt_wf r) as [r _ IH]; intros prev s i k ->. apply ends_succ. cbn [KLex.tokenize_loop].
  assert (∀ t s' i' k', left s' i' < left s i →
    Ends (λ n, ts ← tokenize_loop n first t s' i'; mret (t :: ts)) k' (λ _ _, True)) as Hgo.
  { intros t s' i' k' H. apply ends_seq. eapply ends_mono; [eapply IH; [done|reflexivity]|].
    intros ts k'' _. by apply ends_ret. }
  destruct (sdrop i s) as [|c t] eqn:Es; [by apply ends_ret|].
  assert (0 < left s i) as Hl by (unfold left; rewrite <- length_sdrop, Es; cbn; lia).
  destruct (id_keyword_match s i) as [[name e]|] eqn:Em.
  { apply ends_seq. eapply ends_mono; [by apply ends_identifier|]. intros [[tk s'] i'] k' H. by apply Hgo. }
  destruct (is_in _ c).
  { apply ends_seq. eapply ends_mono; [by apply ends_quoted|]. intros [[val s'] i'] k' H. cbn [fst snd] in H.
    apply ends_seq. eapply ends_mono; [apply ends_tame; apply _|]. intros tk k'' _. apply Hgo.
    pose proof (skip_left s' i'). lia. }
  destruct (operator _) as [[[tk w]|]|] eqn:Eo; [|by apply ends_ret|by apply ends_const].
  apply operator_length in Eo. apply Hgo. pose proof (skip_left s (i + w)). unfold left in *. lia.
Qed.

(** The tokens of any line. *)
Lemma settles_tokenize s : Settles (λ n, tokenize n s).
Proof.
  unfold KLex.tokenize. apply settles_bind; [apply settles_in_time; apply _|]. intros _.
  destruct (command_match s) as [[name i]|]; [|settle].
  destruct (get_keyword name) as [t|]; [|destruct (String.eqb _ _); settle].
  apply settles_bind; [intros k; apply ends_tokenize_loop|]. intros ts. settle.
Qed.
End lex.
End KEnds.
