(* ===== verification/KMenu.v ===== *)
(** * tools/kconfig/kconfiglib.py: parsing Kconfig files

    [_parse_block], [_parse_props], [_parse_prompt], [_parse_help] and the
    reading of lines and files.  A block is the list of the menu nodes the
    source links with [next]; a node is given to its parent when it is
    complete.  Outside the program, and arguments here: the contents of files
    and what a glob pattern matches. *)
From S2P Require Import Prelude Hex PyStr KExpr KLex KParse KFinal.

Module KMenu.
Import Hex PyStr KExpr KLex KParse KFinal.

(** ** Strings and paths *)

Definition endswith (s t : string) : bool :=
  let n := String.length s - String.length t in
  Nat.leb (String.length t) (String.length s) && String.eqb (sdrop n s) t.

(** [s.expandtabs()], from a column. *)
Fixpoint expandtabs_from (col : nat) (s : string) : string :=
  match s with
  | EmptyString => ""
  | String c s =>
      if Ascii.eqb c "009" then
        let n := 8 - col mod 8 in String.concat "" (replicate n " ") +:+ expandtabs_from (col + n) s
      else if Ascii.eqb c nl || Ascii.eqb c "013" then String c (expandtabs_from 0 s)
      else String c (expandtabs_from (S col) s)
  end.
Definition expandtabs (s : string) : string := expandtabs_from 0 s.

(** [os.path.join(a, b)], [os.path.dirname(p)] *)
Definition path_join (a b : string) : string :=
  if startswith b "/" then b
  else if String.eqb a "" || endswith a "/" then a +:+ b
  else a +:+ "/" +:+ b.

(** The part up to the last slash, which is included. *)
Fixpoint path_head (p : string) : string :=
  match p with
  | EmptyString => ""
  | String c p' =>
      if has_char "/" p' then String c (path_head p')
      else if Ascii.eqb c "/" then "/" else ""
  end.
Definition dirname (p : string) : string :=
  let h := path_head p in
  let t := rstrip_by (Ascii.eqb "/") h in
  if String.eqb t "" then h else t.

(** The lines of a file as [readline] returns them, line ends included. *)
Fixpoint split_lines (s : string) : list string :=
  match s with
  | EmptyString => []
  | String c s' =>
      if Ascii.eqb c nl then String nl "" :: split_lines s'
      else match split_lines s' with
           | l :: ls => String c l :: ls
           | [] => [String c ""]
           end
  end.
Definition readlines (text : string) : list string := split_lines (universal_nl text).

(** ** The state of the parser *)

(** The rest of the current file, the files that sourced it, and the tokens of
    a line that were not used. *)
Record Rd := mkRd {
  rd_lines : list string;
  rd_stack : list (list (string * nat) * list string);
  rd_include : list (string * nat);
  rd_reuse : bool;
  rd_tokens : list tok;
  rd_filenames : list string
}.

(** What the files define. *)
Record Df := mkDf {
  df_fst : Fst;
  df_sym_locs : gmap string (list (string * nat));
  df_choice_locs : gmap nat (list (string * nat));
  df_defined : list string;
  df_choices : list nat;
  df_named : gmap string nat;
  df_next_choice : nat;
  df_next_id : nat;
  df_optional : gset nat;
  df_env : gmap string string;
  df_allnoconfig_y : gset string;
  df_defconfig_list : option mitem;
  df_menus : list nat;
  df_comments : list nat;
  df_top_prompt : string * expr
}.

Record Mst := mkMst { m_k : Kst; m_rd : Rd; m_df : Df }.

(** Computations of the tokenizer and the expression parser. *)
Definition lex {A} (c : ST Kst A) : ST Mst A := λ m,
  let* r := c (m_k m) in Ok (r.1, mkMst r.2 (m_rd m) (m_df m)).
Definition on_k (f : Kst → Kst) : ST Mst unit := λ m, Ok (tt, mkMst (f (m_k m)) (m_rd m) (m_df m)).
Definition on_rd (f : Rd → Rd) : ST Mst unit := λ m, Ok (tt, mkMst (m_k m) (f (m_rd m)) (m_df m)).
Definition on_df (f : Df → Df) : ST Mst unit := λ m, Ok (tt, mkMst (m_k m) (m_rd m) (f (m_df m))).

Definition set_lines (ls : list string) (r : Rd) : Rd :=
  mkRd ls (rd_stack r) (rd_include r) (rd_reuse r) (rd_tokens r) (rd_filenames r).
Definition set_reuse (b : bool) (r : Rd) : Rd :=
  mkRd (rd_lines r) (rd_stack r) (rd_include r) b (rd_tokens r) (rd_filenames r).
Definition set_tokens (ts : list tok) (r : Rd) : Rd :=
  mkRd (rd_lines r) (rd_stack r) (rd_include r) (rd_reuse r) ts (rd_filenames r).
Definition set_location (f : option string) (n : nat) (k : Kst) : Kst :=
  mkKst f n (k_line k) (k_warn k) (k_warnings k) (k_vars k) (k_env_vars k) (k_syms k)
    (k_const_syms k) (k_parsing k).
Definition add_linenr (n : nat) (k : Kst) : Kst := set_location (k_filename k) (k_linenr k + n) k.

Definition set_fst (f : Fst → Fst) (d : Df) : Df :=
  mkDf (f (df_fst d)) (df_sym_locs d) (df_choice_locs d) (df_defined d) (df_choices d) (df_named d)
    (df_next_choice d) (df_next_id d) (df_optional d) (df_env d) (df_allnoconfig_y d)
    (df_defconfig_list d) (df_menus d) (df_comments d) (df_top_prompt d).

(** The file name as it is printed. *)
Definition the_filename : ST Mst string := st_get (λ m, default "None" (k_filename (m_k m))).

Section parse.
Context (environ : gmap string string) (uname_release : string).
Context (shell : string → string * string).
Context (user_functions : gmap string (nat * option nat * (list string → ST Kst string))).
(** [sorted(iglob(pattern))], the contents of a file, and the reason a file
    could not be opened. *)
Context (glob : string → list string) (read_file : string → option string) (io_error : string → string).
Context (srctree srctree_prefix : string).
(** Fuel for the tokenizer. *)
Context (lex_fuel : nat).

Notation tokenize := (tokenize environ uname_release shell user_functions lex_fuel).

(** ** Lines *)

Definition readline : ST Mst string :=
  ls ← st_get (λ m, rd_lines (m_rd m));
  match ls with
  | [] => mret ""
  | l :: ls => on_rd (set_lines ls);; mret l
  end.

(** A line with the lines a backslash joins to it, the rest and the number of
    lines read.  At the end of the file the joined line has no line end left. *)
Fixpoint join_lines (line : string) (ls : list string) (n : nat) : string * list string * nat :=
  if endswith line (String "\" (String nl "")) then
    let line := stake (String.length line - 2) line in
    match ls with
    | [] => (line, [], S n)
    | l :: ls => join_lines (line +:+ l) ls (S n)
    end
  else (line, ls, n).

(** Joining and tokenizing a line. *)
Definition tokenize_joined (line : string) : ST Mst unit :=
  ls ← st_get (λ m, rd_lines (m_rd m));
  let '(line, ls, n) := join_lines line ls 0 in
  on_rd (set_lines ls);;
  on_k (add_linenr n);;
  ts ← lex (tokenize line);
  on_rd (set_tokens ts).

Definition next_line : ST Mst bool :=
  reuse ← st_get (λ m, rd_reuse (m_rd m));
  if (reuse : bool) then on_rd (set_reuse false);; mret true
  else
    line ← readline;
    if String.eqb line "" then mret false
    else
      on_k (add_linenr 1);;
      tokenize_joined line;;
      mret true.

Definition line_after_help (line : string) : ST Mst unit :=
  tokenize_joined line;;
  on_rd (set_reuse true).

(** ** Files *)

(** The path relative to $srctree. *)
Definition rel_filename (filename : string) : string :=
  if startswith filename srctree_prefix then sdrop (String.length srctree_prefix) filename else filename.

Definition enter_file (filename : string) : ST Mst unit :=
  let rel := rel_filename filename in
  on_rd (λ r, mkRd (rd_lines r) (rd_stack r ++ [(rd_include r, rd_lines r)]) (rd_include r)
                (rd_reuse r) (rd_tokens r) (rd_filenames r ++ [rel]));;
  f ← the_filename;
  n ← st_get (λ m, k_linenr (m_k m));
  on_rd (λ r, mkRd (rd_lines r) (rd_stack r) (rd_include r ++ [(f, n)]) (rd_reuse r) (rd_tokens r)
                (rd_filenames r));;
  inc ← st_get (λ m, rd_include (m_rd m));
  loc ← st_get (λ m, location (m_k m));
  line ← st_get (λ m, k_line (m_k m));
  if bool_decide (rel ∈ inc.*1) then
    st_raise (KconfigError (String nl loc +:+ ": recursive 'source' of '" +:+ rel +:+
      "' detected. Check that environment variables are set correctly." +:+
      String nl "Include path:" +:+ String nl
      (String.concat (String nl "") (map (λ fn, fn.1 +:+ ":" +:+ pretty (fn.2 : nat)) inc))))
  else
    match read_file filename with
    | None => st_raise (KconfigError (loc +:+ ": Could not open '" +:+ filename +:+ "' (in '" +:+
                strip line +:+ "') (" +:+ io_error filename +:+ ")"))
    | Some text =>
        on_rd (set_lines (readlines text));;
        on_k (set_location (Some rel) 0)
    end.

Definition leave_file : ST Mst unit :=
  inc ← st_get (λ m, rd_include (m_rd m));
  stack ← st_get (λ m, rd_stack (m_rd m));
  match last inc, last stack with
  | Some (f, n), Some (inc', ls) =>
      on_k (set_location (Some f) n);;
      on_rd (λ r, mkRd ls (removelast stack) inc' (rd_reuse r) (rd_tokens r) (rd_filenames r))
  | _, _ => st_raise IndexError
  end.

(** ** Properties *)

Definition with_prompt (p : option (string * expr)) (d : mdata) : mdata :=
  mkM (m_id d) (m_item d) (m_info d) p (m_dep d) (m_visibility d) (m_defaults d) (m_ranges d)
    (m_selects d) (m_implies d).
Definition with_dep (e : expr) (d : mdata) : mdata :=
  mkM (m_id d) (m_item d) (m_info d) (m_prompt d) e (m_visibility d) (m_defaults d) (m_ranges d)
    (m_selects d) (m_implies d).
Definition with_visibility (e : expr) (d : mdata) : mdata :=
  mkM (m_id d) (m_item d) (m_info d) (m_prompt d) (m_dep d) e (m_defaults d) (m_ranges d)
    (m_selects d) (m_implies d).
Definition with_help (h : string) (d : mdata) : mdata :=
  mkM (m_id d) (m_item d)
    ((λ i, mkInfo (i_is_menuconfig i) (Some h) (i_filename i) (i_linenr i) (i_include_path i)) <$> m_info d)
    (m_prompt d) (m_dep d) (m_visibility d) (m_defaults d) (m_ranges d) (m_selects d) (m_implies d).
Definition add_default (p : expr * expr) (d : mdata) : mdata :=
  mkM (m_id d) (m_item d) (m_info d) (m_prompt d) (m_dep d) (m_visibility d) (m_defaults d ++ [p])
    (m_ranges d) (m_selects d) (m_implies d).
Definition add_range (p : item * item * expr) (d : mdata) : mdata :=
  mkM (m_id d) (m_item d) (m_info d) (m_prompt d) (m_dep d) (m_visibility d) (m_defaults d)
    (m_ranges d ++ [p]) (m_selects d) (m_implies d).
Definition add_select (p : string * expr) (d : mdata) : mdata :=
  mkM (m_id d) (m_item d) (m_info d) (m_prompt d) (m_dep d) (m_visibility d) (m_defaults d)
    (m_ranges d) (m_selects d ++ [p]) (m_implies d).
Definition add_imply (p : string * expr) (d : mdata) : mdata :=
  mkM (m_id d) (m_item d) (m_info d) (m_prompt d) (m_dep d) (m_visibility d) (m_defaults d)
    (m_ranges d) (m_selects d) (m_implies d ++ [p]).

(** [name_and_loc] of the item of a node; menus and comments are numbers. *)
Definition locs (l : list (string * nat)) : string :=
  match l with
  | [] => "(undefined)"
  | _ => "(defined at " +:+ String.concat ", " (map (λ fn, fn.1 +:+ ":" +:+ pretty (fn.2 : nat)) l) +:+ ")"
  end.
Definition name_and_loc (it : mitem) : ST Mst string :=
  match it with
  | MSym n => l ← st_get (λ m, default [] (df_sym_locs (m_df m) !! n)); mret (n +:+ " " +:+ locs l)
  | MChoice id nm =>
      l ← st_get (λ m, default [] (df_choice_locs (m_df m) !! id));
      mret (standard_sc_expr_str (ChoiceItem id nm) +:+ " " +:+ locs l)
  | _ => st_raise AttributeError
  end.
(** [item.name] *)
Definition item_name (it : mitem) : ST Mst string :=
  match it with
  | MSym n => mret n
  | MChoice _ nm => mret (default "None" nm)
  | _ => st_raise AttributeError
  end.

Definition orig_type_of (it : mitem) : ST Mst styp :=
  match it with
  | MSym n => st_get (λ m, p_type (get_sym (df_fst (m_df m)) n))
  | MChoice id _ => st_get (λ m, pc_type (get_choice (df_fst (m_df m)) id))
  | _ => st_raise AttributeError
  end.
Definition put_type (it : mitem) (t : styp) (f : Fst) : Fst :=
  match it with
  | MSym n =>
      let s := get_sym f n in
      put_psym f n (mkPsym t (p_direct_dep s) (p_defaults s) (p_ranges s) (p_selects s) (p_implies s)
        (p_rev_dep s) (p_weak_rev_dep s) (p_choice s))
  | MChoice id _ =>
      let c := get_choice f id in
      put_pchoice f id (mkPchoice t (pc_direct_dep c) (pc_defaults c) (pc_syms c))
  | _ => f
  end.

Definition set_type (it : mitem) (t : styp) : ST Mst unit :=
  old ← orig_type_of it;
  (if bool_decide (old = UNKNOWN) || bool_decide (old = t) then mret tt
   else
     nl ← name_and_loc it;
     lex (warn (nl +:+ " defined with multiple types, " +:+ TYPE_TO_STR t +:+ " will be used")));;
  on_df (set_fst (put_type it t)).

Definition parse_prompt (ts : list tok) (d : mdata) : ST Mst mdata :=
  (match m_prompt d with
   | Some _ => nl ← name_and_loc (m_item d);
               lex (warn (nl +:+ " defined with multiple prompts in single location"))
   | None => mret tt
   end);;
  match ts with
  | TStr prompt :: ts =>
      (if String.eqb prompt (strip prompt) then mret tt
       else
         nl ← name_and_loc (m_item d);
         lex (warn (nl +:+ " has leading or trailing whitespace in its prompt")));;
      cond ← lex (parse_cond ts);
      mret (with_prompt (Some (strip prompt, cond)) d)
  | _ => lex (parse_error "expected prompt string")
  end.

(** *** Help texts *)

Definition indent_of (expline : string) : nat :=
  String.length expline - String.length (lstrip expline).

Definition empty_help (line : string) (d : mdata) : ST Mst mdata :=
  nl ← name_and_loc (m_item d);
  lex (warn (nl +:+ " has 'help' but empty help text"));;
  (if String.eqb line "" then mret tt else line_after_help line);;
  mret (with_help "" d).

(** The first line that is not blank (empty at the end of the file), the rest
    and the number of lines read. *)
Fixpoint first_nonblank (ls : list string) (n : nat) : string * list string * nat :=
  match ls with
  | [] => ("", [], S n)
  | l :: ls => if isspace l then first_nonblank ls (S n) else (l, ls, S n)
  end.

(** The lines of the help text after the first, the line that ends it and the
    rest. *)
Fixpoint help_lines (indent : nat) (ls : list string) : list string * string * list string :=
  match ls with
  | [] => ([], "", [])
  | l :: ls' =>
      let '(text, line, rest) := help_lines indent ls' in
      if isspace l then (String nl "" :: text, line, rest)
      else
        let expline := expandtabs l in
        if Nat.ltb (indent_of expline) indent then ([], l, ls')
        else (sdrop indent expline :: text, line, rest)
  end.

Definition parse_help (d : mdata) : ST Mst mdata :=
  (match m_info d with
   | None | Some (mkInfo _ None _ _ _) =>
       match m_item d with MMenu | MComment | MIf => st_raise AttributeError | _ => mret tt end
   | Some (mkInfo _ (Some _) _ _ _) =>
       nl ← name_and_loc (m_item d);
       lex (warn (nl +:+ " defined with more than one help text -- only the last one will be used"))
   end);;
  ls ← st_get (λ m, rd_lines (m_rd m));
  let '(line, ls, n) := first_nonblank ls 0 in
  on_rd (set_lines ls);;
  on_k (add_linenr n);;
  let expline := expandtabs line in
  let indent := indent_of expline in
  if String.eqb line "" || Nat.eqb indent 0 then empty_help line d
  else
    let '(text, line, ls) := help_lines indent ls in
    let text := sdrop indent expline :: text in
    on_rd (set_lines ls);;
    on_k (add_linenr (length text));;
    (if String.eqb line "" then mret tt else line_after_help line);;
    mret (with_help (rstrip (String.concat "" text)) d).

(** *** Options *)

Definition set_env (n v : string) (d : Df) : Df :=
  mkDf (df_fst d) (df_sym_locs d) (df_choice_locs d) (df_defined d) (df_choices d) (df_named d)
    (df_next_choice d) (df_next_id d) (df_optional d) (<[n := v]> (df_env d)) (df_allnoconfig_y d)
    (df_defconfig_list d) (df_menus d) (df_comments d) (df_top_prompt d).
Definition set_defconfig_list (it : mitem) (d : Df) : Df :=
  mkDf (df_fst d) (df_sym_locs d) (df_choice_locs d) (df_defined d) (df_choices d) (df_named d)
    (df_next_choice d) (df_next_id d) (df_optional d) (df_env d) (df_allnoconfig_y d) (Some it)
    (df_menus d) (df_comments d) (df_top_prompt d).
Definition set_allnoconfig_y (n : string) (d : Df) : Df :=
  mkDf (df_fst d) (df_sym_locs d) (df_choice_locs d) (df_defined d) (df_choices d) (df_named d)
    (df_next_choice d) (df_next_id d) (df_optional d) (df_env d) ({[n]} ∪ df_allnoconfig_y d)
    (df_defconfig_list d) (df_menus d) (df_comments d) (df_top_prompt d).
Definition set_optional (id : nat) (d : Df) : Df :=
  mkDf (df_fst d) (df_sym_locs d) (df_choice_locs d) (df_defined d) (df_choices d) (df_named d)
    (df_next_choice d) (df_next_id d) ({[id]} ∪ df_optional d) (df_env d) (df_allnoconfig_y d)
    (df_defconfig_list d) (df_menus d) (df_comments d) (df_top_prompt d).

Definition warn_at (msg : string) : ST Mst unit := lex (warn_here msg).

Definition option_env (ts : list tok) (d : mdata) : ST Mst mdata :=
  match check_token T_EQUAL ts with
  | None => lex (parse_error "expected '=' after 'env'")
  | Some ts =>
      env_var ← lex (expect_str_and_eol ts);
      match m_item d with
      | MSym n =>
          on_df (set_env n env_var);;
          d ← match environ !! env_var with
              | Some v => c ← lex (lookup_const_sym v); mret (add_default (EItem c, ky) d)
              | None =>
                  warn_at (env_var +:+ " has 'option env=" +:+ String quote (n +:+ String quote
                    ("', but the environment variable " +:+ n +:+ " is not set")));;
                  mret d
              end;
          (if String.eqb env_var n then mret tt
           else warn_at ("Kconfiglib expands environment variables in strings directly, meaning you "
             +:+ "do not need 'option env=...' " +:+ String quote ("bounce" +:+ String quote
             (" symbols. For compatibility with the C tools, rename " +:+ n +:+ " to " +:+ env_var
             +:+ " (so that the symbol name matches the environment variable name)."))));;
          mret d
      | _ => st_raise AttributeError
      end
  end.

Definition parse_option (ts : list tok) (d : mdata) : ST Mst mdata :=
  match ts with
  | TK T_ENV :: ts => option_env ts d
  | TK T_DEFCONFIG_LIST :: _ =>
      old ← st_get (λ m, df_defconfig_list (m_df m));
      match old with
      | None => on_df (set_defconfig_list (m_item d));; mret d
      | Some it =>
          n0 ← item_name it;
          n1 ← item_name (m_item d);
          warn_at ("'option defconfig_list' set on multiple symbols (" +:+ n0 +:+ " and " +:+ n1
            +:+ "). Only " +:+ n0 +:+ " will be used.");;
          mret d
      end
  | TK T_MODULES :: _ =>
      (if bool_decide (m_item d = MSym "MODULES") then mret tt
       else warn_at ("the 'modules' option is not supported. Let me know if this is a problem for "
         +:+ "you, as it wouldn't be that hard to implement. Note that modules are supported -- "
         +:+ "Kconfiglib just assumes the symbol name MODULES, like older versions of the C "
         +:+ "implementation did when 'option modules' wasn't used."));;
      mret d
  | TK T_ALLNOCONFIG_Y :: _ =>
      match m_item d with
      | MSym n => on_df (set_allnoconfig_y n);; mret d
      | _ => lex (parse_error "the 'allnoconfig_y' option is only valid for symbols")
      end
  | _ => lex (parse_error "unrecognized option")
  end.

(** *** One property line *)

(** [(self._parse_expr(False), self._parse_cond())] *)
Definition expr_and_cond (ts : list tok) : ST Mst (expr * expr) :=
  '(e, ts) ← lex (parse_expression false ts);
  c ← lex (parse_cond ts);
  mret (e, c).

Definition sym_and_cond (ts : list tok) : ST Mst (string * expr) :=
  '(i, ts) ← lex (expect_nonconst_sym ts);
  c ← lex (parse_cond ts);
  mret (match i with SymItem _ n => n | ChoiceItem _ _ => "" end, c).

Definition is_sym (it : mitem) : bool := match it with MSym _ => true | _ => false end.

(** The node after the property that starts with [t]; nothing when the line is
    not a property. *)
Definition parse_prop (t : token) (ts : list tok) (d : mdata) : ST Mst (option mdata) :=
  match TYPE_TOKENS t, DEF_TOKEN_TO_TYPE t with
  | Some ty, _ =>
      set_type (m_item d) ty;;
      match ts with
      | [] => mret (Some d)
      | _ => d ← parse_prompt ts d; mret (Some d)
      end
  | None, Some ty =>
      set_type (m_item d) ty;;
      p ← expr_and_cond ts;
      mret (Some (add_default p d))
  | None, None =>
      match t with
      | T_DEPENDS =>
          match check_token T_ON ts with
          | None => lex (parse_error "expected 'on' after 'depends'")
          | Some ts => e ← lex (expect_expr_and_eol ts);
                       mret (Some (with_dep (make_and (m_dep d) e) d))
          end
      | T_HELP => d ← parse_help d; mret (Some d)
      | T_SELECT =>
          if is_sym (m_item d) then p ← sym_and_cond ts; mret (Some (add_select p d))
          else lex (parse_error "only symbols can select")
      | T_DEFAULT => p ← expr_and_cond ts; mret (Some (add_default p d))
      | T_PROMPT => d ← parse_prompt ts d; mret (Some d)
      | T_RANGE =>
          '(low, ts) ← lex (expect_sym ts);
          '(high, ts) ← lex (expect_sym ts);
          c ← lex (parse_cond ts);
          mret (Some (add_range (low, high, c) d))
      | T_IMPLY =>
          if is_sym (m_item d) then p ← sym_and_cond ts; mret (Some (add_imply p d))
          else lex (parse_error "only symbols can imply")
      | T_VISIBLE =>
          match check_token T_IF ts with
          | None => lex (parse_error "expected 'if' after 'visible'")
          | Some ts =>
              (* only menus have the attribute *)
              match m_item d with
              | MMenu => e ← lex (expect_expr_and_eol ts);
                         mret (Some (with_visibility (make_and (m_visibility d) e) d))
              | _ => st_raise AttributeError
              end
          end
      | T_OPTION => d ← parse_option ts d; mret (Some d)
      | T_OPTIONAL =>
          match m_item d with
          | MChoice id _ => on_df (set_optional id);; mret (Some d)
          | _ => lex (parse_error (String quote ("optional" +:+ String quote " is only valid for choices")))
          end
      | _ => mret None
      end
  end.

(** [_parse_props], from the node with its dependency reset. *)
Fixpoint props_loop (fuel : nat) (d : mdata) : ST Mst mdata :=
  match fuel with
  | O => st_raise OutOfDepth
  | S fuel =>
      more ← next_line;
      if negb more then mret d
      else
        ts ← st_get (λ m, rd_tokens (m_rd m));
        match ts with
        | [] => props_loop fuel d
        | TK t :: ts =>
            r ← parse_prop t ts d;
            match r with
            | Some d => props_loop fuel d
            | None => on_rd (set_reuse true);; mret d
            end
        | _ :: _ => on_rd (set_reuse true);; mret d
        end
  end.
Definition parse_props (fuel : nat) (d : mdata) : ST Mst mdata := props_loop fuel (with_dep ky d).

(** ** Blocks *)

(** [sym.nodes.append(node)] and [self.defined_syms.append(sym)]; the same for
    choices, with the choice's number. *)
Definition define_sym (n : string) (loc : string * nat) (d : Df) : Df :=
  mkDf (df_fst d) (<[n := default [] (df_sym_locs d !! n) ++ [loc]]> (df_sym_locs d)) (df_choice_locs d)
    (df_defined d ++ [n]) (df_choices d) (df_named d) (df_next_choice d) (df_next_id d)
    (df_optional d) (df_env d) (df_allnoconfig_y d) (df_defconfig_list d) (df_menus d) (df_comments d) (df_top_prompt d).
Definition define_choice (id : nat) (loc : string * nat) (d : Df) : Df :=
  mkDf (df_fst d) (df_sym_locs d) (<[id := default [] (df_choice_locs d !! id) ++ [loc]]> (df_choice_locs d))
    (df_defined d) (df_choices d ++ [id]) (df_named d) (df_next_choice d) (df_next_id d)
    (df_optional d) (df_env d) (df_allnoconfig_y d) (df_defconfig_list d) (df_menus d) (df_comments d) (df_top_prompt d).
Definition name_choice (name : option string) (d : Df) : Df :=
  let id := df_next_choice d in
  mkDf (df_fst d) (df_sym_locs d) (df_choice_locs d) (df_defined d) (df_choices d)
    (match name with Some n => <[n := id]> (df_named d) | None => df_named d end)
    (S id) (df_next_id d) (df_optional d) (df_env d) (df_allnoconfig_y d) (df_defconfig_list d)
    (df_menus d) (df_comments d) (df_top_prompt d).
Definition bump_id (d : Df) : Df :=
  mkDf (df_fst d) (df_sym_locs d) (df_choice_locs d) (df_defined d) (df_choices d) (df_named d)
    (df_next_choice d) (S (df_next_id d)) (df_optional d) (df_env d) (df_allnoconfig_y d)
    (df_defconfig_list d) (df_menus d) (df_comments d) (df_top_prompt d).
Definition set_top_prompt (p : string * expr) (d : Df) : Df :=
  mkDf (df_fst d) (df_sym_locs d) (df_choice_locs d) (df_defined d) (df_choices d) (df_named d)
    (df_next_choice d) (df_next_id d) (df_optional d) (df_env d) (df_allnoconfig_y d)
    (df_defconfig_list d) (df_menus d) (df_comments d) p.

(** [self.menus.append(node)], [self.comments.append(node)] *)
Definition add_menu (i : nat) (d : Df) : Df :=
  mkDf (df_fst d) (df_sym_locs d) (df_choice_locs d) (df_defined d) (df_choices d) (df_named d)
    (df_next_choice d) (df_next_id d) (df_optional d) (df_env d) (df_allnoconfig_y d)
    (df_defconfig_list d) (df_menus d ++ [i]) (df_comments d) (df_top_prompt d).
Definition add_comment (i : nat) (d : Df) : Df :=
  mkDf (df_fst d) (df_sym_locs d) (df_choice_locs d) (df_defined d) (df_choices d) (df_named d)
    (df_next_choice d) (df_next_id d) (df_optional d) (df_env d) (df_allnoconfig_y d)
    (df_defconfig_list d) (df_menus d) (df_comments d ++ [i]) (df_top_prompt d).

(** A new [MenuNode] at the current location. *)
Definition new_id : ST Mst nat := i ← st_get (λ m, df_next_id (m_df m)); on_df bump_id;; mret i.
Definition here : ST Mst (string * nat) :=
  f ← the_filename; n ← st_get (λ m, k_linenr (m_k m)); mret (f, n).
Definition new_node (it : mitem) (menuconfig : bool) (p : option (string * expr)) (loc : string * nat)
    : ST Mst mdata :=
  i ← new_id;
  inc ← st_get (λ m, rd_include (m_rd m));
  mret (mkM i it (Some (mkInfo menuconfig None loc.1 loc.2 inc)) p ky ky [] [] [] []).

(** The choice of a choice statement: a new one, or the one of that name. *)
Definition choice_of (ts : list tok) : ST Mst (nat * option string) :=
  match ts with
  | [] => id ← st_get (λ m, df_next_choice (m_df m)); on_df (name_choice None);; mret (id, None)
  | _ =>
      name ← lex (expect_str_and_eol ts);
      known ← st_get (λ m, df_named (m_df m) !! name);
      match known with
      | Some id => mret (id, Some name)
      | None => id ← st_get (λ m, df_next_choice (m_df m)); on_df (name_choice (Some name));;
                mret (id, Some name)
      end
  end.

(** What a source statement names: the files, and whether one must exist. *)
Definition source_token (t : token) : option (bool * bool) :=
  match t with
  | T_SOURCE => Some (false, true) | T_RSOURCE => Some (true, true)
  | T_OSOURCE => Some (false, false) | T_ORSOURCE => Some (true, false)
  | _ => None
  end.
Definition source_files (rel obl : bool) (ts : list tok) : ST Mst (list string) :=
  pattern ← lex (expect_str_and_eol ts);
  f ← the_filename;
  loc ← st_get (λ m, location (m_k m));
  line ← st_get (λ m, k_line (m_k m));
  let pattern := if rel then path_join (dirname f) pattern else pattern in
  let filenames := glob (path_join srctree_prefix pattern) in
  match filenames, obl with
  | [], true =>
      st_raise (KconfigError (loc +:+ ": '" +:+ pattern +:+ "' not found (in '" +:+ strip line +:+
        "'). Check that environment variables are set correctly (e.g. $srctree, which is " +:+
        (if String.eqb srctree "" then "unset or blank" else "set to '" +:+ srctree +:+ "'") +:+
        "). Also note that unset environment variables expand to the empty string."))
  | _, _ => mret filenames
  end.

Definition end_name (t : token) : string :=
  match t with T_ENDCHOICE => "endchoice" | T_ENDIF => "endif" | _ => "endmenu" end.
(** The message for a line that is no statement here. *)
Definition no_start (t : token) : string :=
  match t with
  | T_ENDCHOICE => "no corresponding 'choice'"
  | T_ENDIF => "no corresponding 'if'"
  | T_ENDMENU => "no corresponding 'menu'"
  | _ => "unrecognized construct"
  end.

(** The files of a source statement, each parsed with [block]. *)
Fixpoint source_all (block : ST Mst (list tnode)) (filenames : list string) : ST Mst (list tnode) :=
  match filenames with
  | [] => mret []
  | f :: fs => enter_file f;; l ← block; leave_file;; l' ← source_all block fs; mret (l ++ l')
  end.

(** [_parse_block], and the statement that starts with [t]: the nodes it adds,
    or the end of the block. *)
Fixpoint parse_block (fuel : nat) (end_token : option token) : ST Mst (list tnode) :=
  match fuel with
  | O => st_raise OutOfDepth
  | S fuel =>
      more ← next_line;
      if negb more then
        match end_token with
        | None => mret []
        | Some e =>
            f ← the_filename;
            st_raise (KconfigError ("error: expected '" +:+ end_name e +:+ "' at end of '" +:+ f +:+ "'"))
        end
      else
        ts ← st_get (λ m, rd_tokens (m_rd m));
        match ts with
        | TK t :: ts =>
            r ← parse_statement fuel end_token t ts;
            match r with
            | None => mret []
            | Some l => l' ← parse_block fuel end_token; mret (l ++ l')
            end
        | [] => parse_block fuel end_token
        | _ => lex (parse_error "unrecognized construct")
        end
  end
with parse_statement (fuel : nat) (end_token : option token) (t : token) (ts : list tok)
    : ST Mst (option (list tnode)) :=
  match fuel with
  | O => st_raise OutOfDepth
  | S fuel =>
      match source_token t with
      | Some (rel, obl) =>
          filenames ← source_files rel obl ts;
          l ← source_all (parse_block fuel None) filenames;
          mret (Some l)
      | None =>
          if bool_decide (end_token = Some t) then
            match ts with [] => mret None | _ => lex trailing_tokens_error end
          else
          match t with
          | T_CONFIG | T_MENUCONFIG =>
              match ts with
              | TSym (SymItem false n) :: ts =>
                  (match ts with [] => mret tt | _ => lex trailing_tokens_error end);;
                  loc ← here;
                  on_df (define_sym n loc);;
                  d ← new_node (MSym n) (bool_decide (t = T_MENUCONFIG)) None loc;
                  d ← parse_props fuel d;
                  (match m_prompt d with
                   | None => if bool_decide (t = T_MENUCONFIG) then
                               nl ← name_and_loc (MSym n);
                               lex (warn ("the menuconfig symbol " +:+ nl +:+ " has no prompt"))
                             else mret tt
                   | Some _ => mret tt
                   end);;
                  mret (Some [TNode d []])
              | _ => lex (parse_error "missing or bad symbol name")
              end
          | T_IF =>
              i ← new_id;
              e ← lex (expect_expr_and_eol ts);
              l ← parse_block fuel (Some T_ENDIF);
              mret (Some [TNode (mkM i MIf None None e ky [] [] [] []) l])
          | T_MENU =>
              title ← lex (expect_str_and_eol ts);
              loc ← here;
              d ← new_node MMenu true (Some (title, ky)) loc;
              on_df (add_menu (m_id d));;
              d ← parse_props fuel d;
              l ← parse_block fuel (Some T_ENDMENU);
              mret (Some [TNode d l])
          | T_COMMENT =>
              title ← lex (expect_str_and_eol ts);
              loc ← here;
              d ← new_node MComment false (Some (title, ky)) loc;
              on_df (add_comment (m_id d));;
              d ← parse_props fuel d;
              mret (Some [TNode d []])
          | T_CHOICE =>
              '(id, name) ← choice_of ts;
              loc ← here;
              on_df (define_choice id loc);;
              d ← new_node (MChoice id name) true None loc;
              d ← parse_props fuel d;
              l ← parse_block fuel (Some T_ENDCHOICE);
              mret (Some [TNode d l])
          | T_MAINMENU =>
              title ← lex (expect_str_and_eol ts);
              on_df (set_top_prompt (title, ky));;
              mret (Some [])
          | _ => lex (parse_error (no_start t))
          end
      end
  end.

(** ** A whole configuration *)

(** The state before the top file is read; MODULES is registered. *)
Definition initial (filename text : string) (warn : bool) : Mst :=
  mkMst (mkKst (Some filename) 0 "" warn [] ∅ ∅ {["MODULES"]} {["n"; "m"; "y"]} true)
    (mkRd (readlines text) [] [] false [] [filename])
    (mkDf (mkFst ∅ ∅) ∅ ∅ [] [] ∅ 0 1 ∅ ∅ ∅ None [] [] ("Main menu", ky)).

(** [self._parsing_kconfigs = False] *)
Definition stop_parsing (k : Kst) : Kst :=
  mkKst (k_filename k) (k_linenr k) (k_line k) (k_warn k) (k_warnings k) (k_vars k) (k_env_vars k)
    (k_syms k) (k_const_syms k) false.

(** Parsing the files and finalizing the menu tree. *)
Definition parse_config (fuel : nat) (filename text : string) (warn : bool) : res (tnode * Fst * Mst) :=
  let* r := parse_block fuel None (initial filename text warn) in
  let '(l, m) := r in
  let m := mkMst (stop_parsing (m_k m)) (m_rd m) (m_df m) in
  let top := mkM 0 MMenu (Some (mkInfo true None filename 1 [])) (Some (df_top_prompt (m_df m))) ky ky
               [] [] [] [] in
  let* tf := finalize (TNode top l) (df_fst (m_df m)) in
  Ok (tf.1, tf.2, m).
End parse.
End KMenu.
