(* ===== verification/KMenuSpec.v ===== *)
(** * Parsing Kconfig files: it ends, and the tree is the file

    Module KMenuSpec, and then KMenuEnds with the tokenizer's recursion.

    The recursion of the parser of blocks is bounded on every set of files,
    with sourced files included: each line is read at most twice, and a file
    that sources itself, directly or not, is refused.  A block leaves the stack
    of files as it found it.  The tree it returns lists the symbols and choices
    in the order they were registered in, and finalization keeps that order. *)
From S2P Require Import Prelude Hex PyStr KExpr KLex KParse KParseSpec KSteady KFinal KFinalSpec KMenu.
From stdpp Require Import sorting.

Module KMenuSpec.
Import Hex PyStr KExpr KLex KParse KParseSpec KSteady KFinal KFinalSpec KMenu.

(** ** Runs of the parser *)

(** [c] returns with [Q] or raises something else than running out of depth. *)
Definition Run {A} (c : ST Mst A) (m : Mst) (Q : A → Mst → Prop) : Prop :=
  match c m with Ok (a, m') => Q a m' | Err e => e ≠ OutOfDepth end.

Lemma run_mono {A} (c : ST Mst A) m (Q Q' : A → Mst → Prop) :
  Run c m Q → (∀ a m', Q a m' → Q' a m') → Run c m Q'.
Proof. unfold Run. destruct (c m) as [[a m']|e]; auto. Qed.
Lemma run_ret {A} (a : A) m (Q : A → Mst → Prop) : Q a m → Run (mret a) m Q.
Proof. done. Qed.
Lemma run_get {A} (f : Mst → A) m (Q : A → Mst → Prop) : Q (f m) m → Run (st_get f) m Q.
Proof. done. Qed.
Lemma run_bind {A B} (c : ST Mst A) (f : A → ST Mst B) m Q :
  Run c m (λ a m', Run (f a) m' Q) → Run (c ≫= f) m Q.
Proof. unfold Run, mbind, ST_bind. by destruct (c m) as [[a m']|e]. Qed.
Lemma run_both {A} (c : ST Mst A) m (Q Q' : A → Mst → Prop) :
  Run c m Q → (∀ a m', c m = Ok (a, m') → Q' a m') → Run c m (λ a m', Q a m' ∧ Q' a m').
Proof. unfold Run. destruct (c m) as [[a m']|e]; auto. Qed.

(** Takes a run that returned apart. *)
Ltac st_inv :=
  repeat match goal with
  | H : (_ ≫= _) _ = Ok _ |- _ => apply st_bind_ok in H as (? & ? & ? & ?)
  | H : mret _ _ = Ok _ |- _ => injection H as ? ?; subst
  | H : st_get _ _ = Ok _ |- _ => injection H as ? ?; subst
  | H : lex (parse_error _) _ = Ok _ |- _ => discriminate H
  | H : lex trailing_tokens_error _ = Ok _ |- _ => discriminate H
  | H : st_raise _ _ = Ok _ |- _ => discriminate H
  | H : (match ?x with _ => _ end) _ = Ok _ |- _ => destruct x eqn:?
  | H : Some _ = Some _ |- _ => injection H as ?; subst
  | H : Some _ = None |- _ => discriminate H
  | H : None = Some _ |- _ => discriminate H
  end.

(** ** What the code for one line leaves alone *)

Definition lines_left (m : Mst) : nat := length (rd_lines (m_rd m)).
(** Lines still to be looked at; a line whose tokens are reused counts once
    more. *)
Definition weight (m : Mst) : nat := 2 * lines_left m + Nat.b2n (rd_reuse (m_rd m)).

(** The place in the files and what has been registered. *)
Definition place (m : Mst) :=
  (rd_stack (m_rd m), rd_include (m_rd m), k_filename (m_k m)).
Definition registered (m : Mst) :=
  (df_defined (m_df m), df_choices (m_df m), df_next_id (m_df m)).
Definition keeps (m m' : Mst) : Prop := place m' = place m ∧ registered m' = registered m.

Class Quiet {A} (c : ST Mst A) : Prop :=
  quiet m : Run c m (λ _ m', keeps m m' ∧ weight m' ≤ weight m).
#[global] Hint Mode Quiet ! ! : typeclass_instances.

Lemma keeps_refl m : keeps m m.
Proof. done. Qed.
Lemma keeps_trans m1 m2 m3 : keeps m1 m2 → keeps m2 m3 → keeps m1 m3.
Proof. intros [? ?] [? ?]. split; congruence. Qed.

#[global] Instance quiet_ret {A} (a : A) : Quiet (mret a).
Proof. by intros m. Qed.
#[global] Instance quiet_get {A} (f : Mst → A) : Quiet (st_get f).
Proof. by intros m. Qed.
#[global] Instance quiet_bind {A B} (c : ST Mst A) (f : A → ST Mst B) :
  Quiet c → (∀ a, Quiet (f a)) → Quiet (c ≫= f).
Proof.
  intros Hc Hf m. apply run_bind. eapply run_mono; [apply Hc|]. intros a m' [Hk Hw].
  eapply run_mono; [apply Hf|]. intros b m'' [Hk' Hw']. split; [by eapply keeps_trans|lia].
Qed.
#[global] Instance quiet_if {A} (b : bool) (c1 c2 : ST Mst A) :
  Quiet c1 → Quiet c2 → Quiet (if b then c1 else c2).
Proof. by destruct b. Qed.
Lemma quiet_raise {A} e : e ≠ OutOfDepth → Quiet (st_raise (A := A) e).
Proof. by intros He m. Qed.
#[global] Hint Extern 2 (Quiet (st_raise _)) => apply quiet_raise; done : typeclass_instances.
#[global] Hint Extern 3 (Quiet (match ?x with _ => _ end)) => destruct x : typeclass_instances.
#[global] Instance quiet_lex {A} (c : ST Kst A) : Steady c → Quiet (lex c).
Proof.
  intros Hc m. unfold Run, lex. specialize (Hc (m_k m)). destruct (c (m_k m)) as [[a k]|e]; [|done].
  destruct Hc as [Hf _]. cbn. split; [|done]. split; [|done]. unfold place. cbn. by rewrite Hf.
Qed.
#[global] Instance quiet_linenr n : Quiet (on_k (add_linenr n)).
Proof. by intros m. Qed.
Lemma quiet_on_df f :
  (∀ d, df_defined (f d) = df_defined d ∧ df_choices (f d) = df_choices d ∧ df_next_id (f d) = df_next_id d) →
  Quiet (on_df f).
Proof.
  intros Hf m. destruct (Hf (m_df m)) as (H1 & H2 & H3). split; [|done]. split; [done|].
  unfold registered. cbn. by rewrite H1, H2, H3.
Qed.
#[global] Hint Extern 2 (Quiet (on_df _)) => apply quiet_on_df; done : typeclass_instances.
#[global] Instance quiet_tokens ts : Quiet (on_rd (set_tokens ts)).
Proof. by intros m. Qed.

#[global] Instance quiet_name_and_loc it : Quiet (name_and_loc it).
Proof. unfold name_and_loc. apply _. Qed.
#[global] Instance quiet_item_name it : Quiet (item_name it).
Proof. unfold item_name. apply _. Qed.
#[global] Instance quiet_set_type it t : Quiet (set_type it t).
Proof. unfold set_type, orig_type_of. apply _. Qed.
#[global] Instance quiet_warn_at msg : Quiet (warn_at msg).
Proof. unfold warn_at. apply _. Qed.
#[global] Instance quiet_parse_prompt ts d : Quiet (parse_prompt ts d).
Proof. unfold parse_prompt. apply _. Qed.
#[global] Instance quiet_option_env environ ts d : Quiet (option_env environ ts d).
Proof. unfold option_env. apply _. Qed.
#[global] Instance quiet_parse_option environ ts d : Quiet (parse_option environ ts d).
Proof. unfold parse_option. apply _. Qed.
#[global] Instance quiet_expr_and_cond ts : Quiet (expr_and_cond ts).
Proof. unfold expr_and_cond. apply _. Qed.
#[global] Instance quiet_sym_and_cond ts : Quiet (sym_and_cond ts).
Proof. unfold sym_and_cond. apply _. Qed.

(** ** Lines *)

Lemma join_lines_left line ls n : length (join_lines line ls n).1.2 ≤ length ls.
Proof.
  revert line n; induction ls as [|l ls IH]; intros line n; cbn [join_lines]; destruct (endswith _ _); [done..| |done].
  etrans; [apply IH|]. simpl. lia.
Qed.

Lemma first_nonblank_left ls n :
  let r := first_nonblank ls n in
  length r.1.2 ≤ length ls ∧ (r.1.1 ≠ "" → length r.1.2 < length ls).
Proof.
  revert n; induction ls as [|l ls IH]; intros n; [done|]. cbn [first_nonblank].
  destruct (isspace l); cbn; [|lia]. destruct (IH (S n)). split; [|intros ?]; simpl; [lia|].
  assert (length (first_nonblank ls (S n)).1.2 < length ls) by auto. lia.
Qed.

Lemma help_lines_left indent ls :
  let r := help_lines indent ls in
  length r.2 ≤ length ls ∧ (r.1.2 ≠ "" → length r.2 < length ls).
Proof.
  induction ls as [|l ls IH]; [done|]. cbn [help_lines].
  destruct (help_lines indent ls) as [[text line] rest]. cbn in IH |- *. destruct IH as [I1 I2].
  assert (length rest ≤ S (length ls) ∧ (line ≠ "" → length rest < S (length ls))).
  { split; [lia|]. intros. assert (length rest < length ls) by auto. lia. }
  repeat case_match; cbn; first [done|lia].
Qed.

(** Setting the lines to some that are left. *)
Lemma run_set_lines ls m (Q : unit → Mst → Prop) :
  Q tt (mkMst (m_k m) (set_lines ls (m_rd m)) (m_df m)) → Run (on_rd (set_lines ls)) m Q.
Proof. done. Qed.

Section lines.
Context (environ : gmap string string) (uname_release : string).
Context (shell : string → string * string).
Context (user_functions : gmap string (nat * option nat * (list string → ST Kst string))).
Context (Hfn : ∀ n f, user_functions !! n = Some f → ∀ args, Steady (f.2 args)).
Context (lex_fuel : nat).
Notation tokenize_joined := (tokenize_joined environ uname_release shell user_functions lex_fuel).
Notation line_after_help := (line_after_help environ uname_release shell user_functions lex_fuel).
Notation next_line := (next_line environ uname_release shell user_functions lex_fuel).
Notation empty_help := (empty_help environ uname_release shell user_functions lex_fuel).
Notation parse_help := (parse_help environ uname_release shell user_functions lex_fuel).
Notation parse_prop := (parse_prop environ uname_release shell user_functions lex_fuel).
Notation props_loop := (props_loop environ uname_release shell user_functions lex_fuel).
Notation parse_props := (parse_props environ uname_release shell user_functions lex_fuel).

#[local] Instance steady_the_tokenizer s :
  Steady (tokenize environ uname_release shell user_functions lex_fuel s).
Proof. by apply steady_tokenize. Qed.

(** What reading a line does: lines are consumed, the flag is [b] afterwards. *)
Definition reads (b : bool) (m m' : Mst) : Prop :=
  keeps m m' ∧ lines_left m' ≤ lines_left m ∧ rd_reuse (m_rd m') = b.

Lemma run_tokenize_joined line m :
  Run (tokenize_joined line) m (λ _ m', reads (rd_reuse (m_rd m)) m m').
Proof.
  unfold tokenize_joined. apply run_bind, run_get.
  pose proof (join_lines_left line (rd_lines (m_rd m)) 0) as Hl.
  destruct (join_lines line (rd_lines (m_rd m)) 0) as [[line' ls] n]. cbn in Hl.
  apply run_bind, run_set_lines, run_bind. cbn [on_k]. unfold Run at 1. cbn [on_k].
  apply run_bind. unfold Run, lex. cbn [m_k].
  match goal with |- context [tokenize _ _ _ _ _ line' ?k] => pose proof (steady (c := tokenize environ uname_release shell user_functions lex_fuel line') k) as Ht; destruct (tokenize environ uname_release shell user_functions lex_fuel line' k) as [[ts k']|e] end; [|done].
  cbn. unfold reads, keeps, place, registered, lines_left. cbn. destruct Ht as [-> _].
  split_and!; try done; lia.
Qed.

Lemma run_line_after_help line m : Run (line_after_help line) m (λ _ m', reads true m m').
Proof.
  unfold line_after_help. apply run_bind. eapply run_mono; [apply run_tokenize_joined|].
  intros _ m' (Hk & Hl & _). unfold Run. cbn. split_and!; try done.
Qed.

(** A line read is looked at once less. *)
Lemma run_next_line m :
  Run next_line m (λ more m', keeps m m' ∧ rd_reuse (m_rd m') = false ∧
    if more then weight m' < weight m else weight m' ≤ weight m).
Proof.
  unfold next_line. apply run_bind, run_get. destruct (rd_reuse (m_rd m)) eqn:Er.
  { apply run_bind. unfold Run. cbn. split_and!; [done|done|]. unfold weight, lines_left. cbn. rewrite Er. cbn. lia. }
  apply run_bind. unfold readline. apply run_bind, run_get.
  destruct (rd_lines (m_rd m)) as [|l ls] eqn:El; [apply run_ret, run_ret; done|].
  apply run_bind, run_set_lines, run_ret. destruct (String.eqb l "").
  { apply run_ret. unfold weight, lines_left. cbn. rewrite El, Er. cbn. split_and!; [done|done|lia]. }
  apply run_bind. unfold Run at 1. cbn [on_k]. apply run_bind. eapply run_mono; [apply run_tokenize_joined|].
  intros _ m' (Hk & Hl & Hr). apply run_ret. cbn in Hr, Hl. split_and!; [|congruence|].
  - eapply keeps_trans; [|exact Hk]. done.
  - unfold weight, lines_left in *. rewrite El, Er, Hr. cbn in *. rewrite Er. cbn. lia.
Qed.

(** The line after a help text is kept for later; one line was consumed. *)
Lemma run_finish line m0 m :
  keeps m0 m → weight m ≤ weight m0 → (line ≠ "" → lines_left m < lines_left m0) →
  Run (if String.eqb line "" then mret tt else line_after_help line) m
    (λ _ m', keeps m0 m' ∧ weight m' ≤ weight m0).
Proof.
  intros Hk Hw Hl. destruct (String.eqb_spec line "") as [_|Hn]; [by apply run_ret|].
  eapply run_mono; [apply run_line_after_help|]. intros _ m' (Hk' & Hl' & Hr).
  split; [by eapply keeps_trans|]. pose proof (Hl Hn). unfold weight. rewrite Hr. cbn. lia.
Qed.

Lemma run_empty_help line d m0 m :
  keeps m0 m → weight m ≤ weight m0 → (line ≠ "" → lines_left m < lines_left m0) →
  Run (empty_help line d) m (λ _ m', keeps m0 m' ∧ weight m' ≤ weight m0).
Proof.
  intros Hk Hw Hl. unfold empty_help. apply run_bind. eapply run_mono; [apply quiet_name_and_loc|].
  intros nl m1 [K1 W1]. apply run_bind. eapply run_mono; [apply quiet; apply _|]. intros _ m2 [K2 W2].
  apply run_bind. eapply run_mono; [apply (run_finish line m0)|intros ? m3 H; exact H].
  - eauto using keeps_trans.
  - lia.
  - intros Hn. specialize (Hl Hn). unfold weight in *.
    destruct (rd_reuse (m_rd m)), (rd_reuse (m_rd m1)), (rd_reuse (m_rd m2)); cbn in *; lia.
Qed.

#[local] Instance quiet_parse_help d : Quiet (parse_help d).
Proof.
  unfold parse_help. apply quiet_bind; [apply _|]. intros _ m. apply run_bind, run_get.
  pose proof (first_nonblank_left (rd_lines (m_rd m)) 0) as [Hl Hl'].
  destruct (first_nonblank (rd_lines (m_rd m)) 0) as [[line ls] n]. cbn in Hl, Hl'.
  apply run_bind, run_set_lines, run_bind. unfold Run at 1. cbn [on_k]. cbv zeta.
  destruct (_ || _).
  - apply run_empty_help; unfold weight, lines_left; cbn; [done|lia|done].
  - pose proof (help_lines_left (indent_of (expandtabs line)) ls) as [Hh Hh'].
    destruct (help_lines (indent_of (expandtabs line)) ls) as [[text line'] ls']. cbn in Hh, Hh'.
    apply run_bind, run_set_lines, run_bind. unfold Run at 1. cbn [on_k]. apply run_bind.
    eapply run_mono; [apply (run_finish line' m)|intros ? m3 H; exact H];
      unfold weight, lines_left; cbn; [done|lia|]. intros Hn. specialize (Hh' Hn). lia.
Qed.

#[local] Instance quiet_parse_prop t ts d : Quiet (parse_prop t ts d).
Proof. unfold parse_prop. apply _. Qed.

(** Reading properties ends within one turn per line. *)
Lemma run_props_loop fuel d m :
  weight m < fuel → Run (props_loop fuel d) m (λ _ m', keeps m m' ∧ weight m' ≤ weight m).
Proof.
  revert d m; induction fuel as [|fuel IH]; intros d m Hf; [lia|]. cbn [KMenu.props_loop].
  apply run_bind. eapply run_mono; [apply run_next_line|]. intros more m1 (K1 & R1 & W1).
  destruct more; [|by apply run_ret]. cbn [negb]. apply run_bind, run_get.
  assert (∀ m2 d', keeps m1 m2 → weight m2 ≤ weight m1 →
    Run (props_loop fuel d') m2 (λ _ m', keeps m m' ∧ weight m' ≤ weight m)) as Hnext.
  { intros m2 d' K2 W2. eapply run_mono; [apply IH; lia|]. intros _ m3 [K3 W3].
    split; [eauto using keeps_trans|lia]. }
  assert (∀ (d' : mdata) m2, keeps m1 m2 → weight m2 ≤ weight m1 →
    Run (on_rd (set_reuse true);; mret d') m2 (λ (_ : mdata) m', keeps m m' ∧ weight m' ≤ weight m)) as Hback.
  { intros d' m2 K2 W2. apply run_bind. unfold Run at 1. cbn [on_rd]. apply run_ret.
    split; [eapply keeps_trans; [exact K1|exact K2]|].
    unfold weight in *. cbn [m_rd set_reuse rd_reuse Nat.b2n] in *. rewrite R1 in *. unfold lines_left in *. cbn in *.
    destruct (rd_reuse (m_rd m2)), (rd_reuse (m_rd m)); cbn in *; lia. }
  destruct (rd_tokens (m_rd m1)) as [|[t|i|x] ts]; [by apply Hnext| |by apply Hback..].
  apply run_bind. eapply run_mono; [apply quiet_parse_prop|]. intros [d'|] m2 [K2 W2]; auto.
Qed.

(** *** The node whose properties are read stays the same node *)

Definition same_node (d d' : mdata) : Prop :=
  m_id d' = m_id d ∧ m_item d' = m_item d ∧ i_is_menuconfig <$> m_info d' = i_is_menuconfig <$> m_info d.

Lemma parse_prompt_node ts d m d' m' : parse_prompt ts d m = Ok (d', m') → same_node d d'.
Proof. unfold parse_prompt. intros H. by st_inv. Qed.
Lemma with_help_node h d : same_node d (with_help h d).
Proof. split_and!; [done|done|]. unfold with_help. cbn [m_info]. by destruct (m_info d). Qed.
Lemma parse_help_node d m d' m' : parse_help d m = Ok (d', m') → same_node d d'.
Proof. unfold parse_help, empty_help. cbv zeta. intros H. st_inv; apply with_help_node. Qed.
Lemma parse_option_node ts d m d' m' : parse_option environ ts d m = Ok (d', m') → same_node d d'.
Proof. unfold parse_option, option_env. intros H. by st_inv. Qed.
Lemma parse_prop_node t ts d m d' m' : parse_prop t ts d m = Ok (Some d', m') → same_node d d'.
Proof.
  unfold parse_prop. intros H.
  st_inv; eauto using parse_prompt_node, parse_help_node, parse_option_node; done.
Qed.

Lemma props_loop_node fuel d m d' m' : props_loop fuel d m = Ok (d', m') → same_node d d'.
Proof.
  revert d m; induction fuel as [|fuel IH]; intros d m H; [done|]. cbn [KMenu.props_loop] in H.
  apply st_bind_ok in H as (more & m1 & _ & H). destruct more; [|by st_inv]. cbn [negb] in H.
  apply st_bind_ok in H as (ts & m2 & _ & H). destruct ts as [|[t|i|x] ts]; [by eapply IH| |by st_inv..].
  apply st_bind_ok in H as (r & m3 & Hp & H). destruct r as [d1|]; [|by st_inv].
  apply parse_prop_node in Hp as (P1 & P2 & P3). apply IH in H as (H1 & H2 & H3). split_and!; congruence.
Qed.

Lemma run_parse_props fuel d m :
  weight m < fuel →
  Run (parse_props fuel d) m (λ d' m', (keeps m m' ∧ weight m' ≤ weight m) ∧ same_node d d').
Proof.
  intros Hf. apply run_both; [by apply run_props_loop|]. intros d' m' H.
  by apply props_loop_node in H.
Qed.

(** ** Blocks *)

(** Strictly growing numbers from [lo] on, below [hi]. *)
Definition ascending (lo hi : nat) (l : list nat) : Prop :=
  lo ≤ hi ∧ StronglySorted lt l ∧ Forall (λ i, lo ≤ i < hi) l.

Lemma ascending_nil lo hi : lo ≤ hi → ascending lo hi [].
Proof. intros. split_and!; [done|constructor|constructor]. Qed.
Lemma ascending_app lo mid hi l1 l2 :
  ascending lo mid l1 → ascending mid hi l2 → ascending lo hi (l1 ++ l2).
Proof.
  intros (H1 & S1 & F1) (H2 & S2 & F2). split; [lia|]. split.
  - apply StronglySorted_app_2; [|done..]. rewrite Forall_forall in F1, F2. intros x1 x2 E1 E2.
    specialize (F1 _ E1). specialize (F2 _ E2). cbn in *. lia.
  - apply Forall_app. split; [apply (Forall_impl _ _ _ F1)|apply (Forall_impl _ _ _ F2)]; cbn; lia.
Qed.
Lemma ascending_cons lo hi l : ascending (S lo) hi l → ascending lo hi (lo :: l).
Proof.
  intros (H1 & S1 & F1). split; [lia|]. split; [constructor; [done|]|constructor; [lia|]];
    apply (Forall_impl _ _ _ F1); cbn; lia.
Qed.

Definition sym_of (it : mitem) : option string := match it with MSym n => Some n | _ => None end.
Definition choice_id (it : mitem) : option nat := match it with MChoice id _ => Some id | _ => None end.
Definition syms_in (l : list tnode) : list string := omap sym_of (nodes_list l).*2.
Definition choices_in (l : list tnode) : list nat := omap choice_id (nodes_list l).*2.

(** The symbols and choices of the trees are those registered meanwhile, in
    that order; the nodes are numbered in that order too. *)
Definition listed (m : Mst) (l : list tnode) (m' : Mst) : Prop :=
  df_defined (m_df m') = df_defined (m_df m) ++ syms_in l ∧
  df_choices (m_df m') = df_choices (m_df m) ++ choices_in l ∧
  ascending (df_next_id (m_df m)) (df_next_id (m_df m')) (nodes_list l).*1.
Definition block_post (m : Mst) (l : list tnode) (m' : Mst) : Prop :=
  place m' = place m ∧ weight m' ≤ weight m ∧ Forall parsed l ∧ listed m l m'.

Lemma listed_nil m m' : registered m' = registered m → listed m [] m'.
Proof.
  unfold listed, syms_in, choices_in. intros [= -> -> ->]. cbn. rewrite !app_nil_r. split_and!; [done..|].
  by apply ascending_nil.
Qed.
Lemma listed_app m1 l1 m2 l2 m3 : listed m1 l1 m2 → listed m2 l2 m3 → listed m1 (l1 ++ l2) m3.
Proof.
  intros (D1 & C1 & A1) (D2 & C2 & A2). unfold listed, syms_in, choices_in in *.
  rewrite nodes_list_app, !fmap_app, !omap_app. split_and!.
  - by rewrite D2, D1, <- app_assoc.
  - by rewrite C2, C1, <- app_assoc.
  - by eapply ascending_app.
Qed.
Lemma block_post_app m1 l1 m2 l2 m3 :
  block_post m1 l1 m2 → block_post m2 l2 m3 → block_post m1 (l1 ++ l2) m3.
Proof.
  intros (P1 & W1 & F1 & L1) (P2 & W2 & F2 & L2). split_and!.
  - congruence.
  - lia.
  - by apply Forall_app.
  - by eapply listed_app.
Qed.
Lemma block_post_before m0 m l m' :
  keeps m0 m → weight m ≤ weight m0 → block_post m l m' → block_post m0 l m'.
Proof.
  intros [K1 K2] Hw (P & W & F & L). split_and!; [congruence|lia|done|].
  unfold listed in *. injection K2 as <- <- <-. done.
Qed.
Lemma block_post_after m l m' m'' :
  keeps m' m'' → weight m'' ≤ weight m' → block_post m l m' → block_post m l m''.
Proof.
  intros [K1 K2] Hw (P & W & F & L). split_and!; [congruence|lia|done|].
  unfold listed in *. injection K2 as -> -> ->. done.
Qed.

(** A node with the block below it. *)
Lemma block_post_node m d m1 ch m2 :
  place m1 = place m → weight m1 ≤ weight m →
  m_item d ≠ MIf → m_id d = df_next_id (m_df m) → (∀ n, m_item d = MSym n → ch = []) →
  df_next_id (m_df m1) = S (df_next_id (m_df m)) →
  df_defined (m_df m1) = df_defined (m_df m) ++ option_list (sym_of (m_item d)) →
  df_choices (m_df m1) = df_choices (m_df m) ++ option_list (choice_id (m_item d)) →
  block_post m1 ch m2 → block_post m [TNode d ch] m2.
Proof.
  intros Hp Hw Hi Hid Hs Hn Hd Hc (P & W & F & (L1 & L2 & L3)).
  split_and!; [congruence|lia|apply Forall_singleton; constructor; [by intros ?|done|done]|]. unfold listed, syms_in, choices_in in *.
  cbn [nodes_list mbind list_bind]. rewrite nodes_eq, bool_decide_eq_false_2, app_nil_r by done.
  cbn [app fmap list_fmap fst snd]. rewrite L1, L2, Hd, Hc, <- !app_assoc. split_and!.
  - f_equal. cbn. by destruct (m_item d).
  - f_equal. cbn. by destruct (m_item d).
  - rewrite Hid. rewrite Hn in L3. by apply ascending_cons.
Qed.

(** An 'if' node with the block below it. *)
Lemma block_post_if m i e m1 ch m2 :
  place m1 = place m → weight m1 ≤ weight m →
  df_next_id (m_df m1) = S (df_next_id (m_df m)) →
  df_defined (m_df m1) = df_defined (m_df m) → df_choices (m_df m1) = df_choices (m_df m) →
  block_post m1 ch m2 → block_post m [TNode (mkM i MIf None None e ky [] [] [] []) ch] m2.
Proof.
  intros Hp Hw Hn Hd Hc (P & W & F & (L1 & L2 & L3)).
  split_and!; [congruence|lia|apply Forall_singleton; constructor; [by intros ?|done|done]|]. unfold listed, syms_in, choices_in in *.
  cbn [nodes_list mbind list_bind]. rewrite nodes_eq, app_nil_r. cbn [m_item]. rewrite bool_decide_eq_true_2 by done.
  cbn [app]. rewrite L1, L2, Hd, Hc. split_and!; [done..|]. rewrite Hn in L3.
  destruct L3 as (A1 & A2 & A3). split; [lia|]. split; [done|]. apply (Forall_impl _ _ _ A3). cbn. lia.
Qed.

(** ** Files *)

Section files.
Context (glob : string → list string) (read_file : string → option string) (io_error : string → string).
Context (srctree srctree_prefix : string).
(** The files that can be opened, and a bound on their lines. *)
Context (files : list string) (max_lines : nat).
Context (Hfiles : ∀ f text, read_file f = Some text → f ∈ files ∧ length (readlines text) ≤ max_lines).
Notation rel_filename := (rel_filename srctree_prefix).
Notation enter_file := (enter_file read_file io_error srctree_prefix).
Notation source_all := (source_all read_file io_error srctree_prefix).
Notation parse_block := (parse_block environ uname_release shell user_functions glob read_file io_error
  srctree srctree_prefix lex_fuel).
Notation parse_statement := (parse_statement environ uname_release shell user_functions glob read_file
  io_error srctree srctree_prefix lex_fuel).

(** The files being read. *)
Definition visited (m : Mst) : list string :=
  (rd_include (m_rd m)).*1 ++ [default "None" (k_filename (m_k m))].
(** How many more can be entered before one is refused. *)
Definition unvisited (m : Mst) : nat :=
  length (filter (λ f, f ∉ visited m) (remove_dups (rel_filename <$> files))).

Lemma unvisited_place m m' : place m' = place m → unvisited m' = unvisited m.
Proof. intros [= H1 H2 H3]. unfold unvisited, visited. by rewrite H2, H3. Qed.

Lemma filter_shrinks (P Q : string → Prop) `{!∀ x, Decision (P x), !∀ x, Decision (Q x)} l x :
  x ∈ l → (∀ y, Q y → P y) → P x → ¬ Q x → length (filter Q l) < length (filter P l).
Proof.
  intros Hx Hi Hp Hq. induction l as [|y l IH]; [by apply not_elem_of_nil in Hx|].
  rewrite !filter_cons. assert (length (filter Q l) ≤ length (filter P l)) as Hle.
  { clear -Hi. induction l as [|y l IH]; [done|]. rewrite !filter_cons.
    destruct (decide (Q y)) as [HQ|]; [rewrite (decide_True _ _ (Hi y HQ)); cbn; lia|].
    destruct (decide (P y)); cbn; lia. }
  destruct (decide (x = y)) as [<-|Hn].
  - rewrite (decide_False _ _ Hq), (decide_True _ _ Hp). cbn. lia.
  - assert (x ∈ l) as Hl by set_solver. specialize (IH Hl).
    destruct (decide (Q y)) as [HQ|]; [rewrite (decide_True _ _ (Hi y HQ)); cbn; lia|].
    destruct (decide (P y)); cbn; lia.
Qed.

(** Entering a file that can be opened and is not being read. *)
Definition entered (f : string) (m m' : Mst) : Prop :=
  rd_stack (m_rd m') = rd_stack (m_rd m) ++ [(rd_include (m_rd m), rd_lines (m_rd m))] ∧
  rd_include (m_rd m') = rd_include (m_rd m) ++ [(default "None" (k_filename (m_k m)), k_linenr (m_k m))] ∧
  k_filename (m_k m') = Some (rel_filename f) ∧ rd_reuse (m_rd m') = rd_reuse (m_rd m) ∧
  registered m' = registered m ∧ lines_left m' ≤ max_lines ∧
  rel_filename f ∉ visited m ∧ f ∈ files.

Lemma run_on_rd f m (Q : unit → Mst → Prop) :
  Q tt (mkMst (m_k m) (f (m_rd m)) (m_df m)) → Run (on_rd f) m Q.
Proof. done. Qed.
Lemma run_on_k f m (Q : unit → Mst → Prop) :
  Q tt (mkMst (f (m_k m)) (m_rd m) (m_df m)) → Run (on_k f) m Q.
Proof. done. Qed.
Lemma run_on_df f m (Q : unit → Mst → Prop) :
  Q tt (mkMst (m_k m) (m_rd m) (f (m_df m))) → Run (on_df f) m Q.
Proof. done. Qed.

Lemma run_enter_file f m : Run (enter_file f) m (λ _ m', entered f m m').
Proof.
  unfold KMenu.enter_file, the_filename. cbv zeta. apply run_bind, run_on_rd.
  do 2 (apply run_bind, run_get). apply run_bind, run_on_rd. do 3 (apply run_bind, run_get). cbn.
  case_bool_decide as Hv; [done|]. destruct (read_file f) as [text|] eqn:Ef; [|done].
  apply run_bind, run_set_lines, run_on_k. destruct (Hfiles f text Ef).
  unfold entered, visited. rewrite fmap_app in Hv. by split_and!.
Qed.

Lemma run_leave_file f m m1 m2 g :
  entered f m m1 → place m2 = place m1 → rd_reuse (m_rd m2) = rd_reuse (m_rd m) →
  k_filename (m_k m) = Some g →
  Run leave_file m2 (λ _ m', place m' = place m ∧ weight m' = weight m ∧
    rd_reuse (m_rd m') = rd_reuse (m_rd m) ∧ registered m' = registered m2).
Proof.
  intros (E1 & E2 & _) [= P1 P2 P3] Hr Hg. unfold leave_file. do 2 (apply run_bind, run_get).
  rewrite P1, P2, E1, E2, !last_snoc, Hg. apply run_bind, run_on_k, run_on_rd. cbn.
  unfold place, weight, lines_left, registered. cbn. rewrite removelast_last, Hg, Hr. done.
Qed.

Lemma entered_unvisited f m m1 : entered f m m1 → unvisited m1 < unvisited m.
Proof.
  intros (_ & E2 & E3 & _ & _ & _ & Hv & Hf). unfold unvisited.
  apply (filter_shrinks _ _ _ (rel_filename f)).
  - apply elem_of_remove_dups, list_elem_of_fmap. eauto.
  - unfold visited. rewrite E2, fmap_app. set_solver.
  - done.
  - unfold visited. rewrite E3. set_solver.
Qed.

Lemma listed_same m0 m l m' m'' :
  registered m = registered m0 → registered m'' = registered m' → listed m l m' → listed m0 l m''.
Proof. unfold listed. by intros [= -> -> ->] [= -> -> ->]. Qed.

(** Sourcing files with a parser of blocks that works where a file is
    entered. *)
Lemma run_source_all block fs m g :
  k_filename (m_k m) = Some g → rd_reuse (m_rd m) = false →
  (∀ m1, k_filename (m_k m1) ≠ None → unvisited m1 < unvisited m → weight m1 ≤ 2 * max_lines →
     Run block m1 (λ l m', block_post m1 l m' ∧ rd_reuse (m_rd m') = false)) →
  Run (source_all block fs) m (λ l m', block_post m l m').
Proof.
  revert m; induction fs as [|f fs IH]; intros m Hg Hr Hb; cbn [KMenu.source_all].
  { apply run_ret. split_and!; [done..|constructor|by apply listed_nil]. }
  apply run_bind. eapply run_mono; [apply run_enter_file|]. intros ? m1 He. cbn beta in He.
  apply run_bind. eapply run_mono; [apply Hb|].
  - destruct He as (_ & _ & E & _). by rewrite E.
  - by eapply entered_unvisited.
  - destruct He as (_ & _ & _ & E & _ & El & _). unfold weight. rewrite E, Hr. cbn. lia.
  - intros l m2 [(P2 & W2 & F2 & L2) R2]. apply run_bind.
    eapply run_mono; [eapply (run_leave_file f m m1 m2 g); [done|done|congruence|done]|].
    intros ? m3 (P3 & W3 & R3 & G3). apply run_bind. eapply run_mono; [apply IH|].
    + injection P3 as _ _ ->. done.
    + congruence.
    + intros m4. rewrite (unvisited_place _ _ P3). apply Hb.
    + intros l' m4 H4. apply run_ret. eapply block_post_app; [|exact H4].
      split_and!; [done|lia|done|]. eapply listed_same; [|exact G3|exact L2].
      destruct He as (_ & _ & _ & _ & E & _). done.
Qed.

(** *** Statements *)

Lemma run_quiet {A B} (c : ST Mst A) (f : A → ST Mst B) m Q :
  Quiet c → (∀ a m', keeps m m' → weight m' ≤ weight m → Run (f a) m' Q) → Run (c ≫= f) m Q.
Proof. intros Hc Hf. apply run_bind. eapply run_mono; [apply Hc|]. intros a m' [? ?]. auto. Qed.

(** A node for [it] has been registered. *)
Definition opened (it : mitem) (m m1 : Mst) : Prop :=
  place m1 = place m ∧ weight m1 ≤ weight m ∧ df_next_id (m_df m1) = S (df_next_id (m_df m)) ∧
  df_defined (m_df m1) = df_defined (m_df m) ++ option_list (sym_of it) ∧
  df_choices (m_df m1) = df_choices (m_df m) ++ option_list (choice_id it).

Lemma opened_keeps it m0 m m1 m2 :
  keeps m0 m → weight m ≤ weight m0 → opened it m m1 → keeps m1 m2 → weight m2 ≤ weight m1 →
  opened it m0 m2.
Proof.
  intros [K1 [= E1 E2 E3]] W1 (P & W & H1 & H2 & H3) [K2 [= F1 F2 F3]] W2.
  unfold opened. rewrite F1, F2, F3, H1, H2, H3, E1, E2, E3. split_and!; [congruence|lia|done..].
Qed.

Lemma run_new_node {B} it mc p loc (f : mdata → ST Mst B) m Q :
  (∀ d, m_id d = df_next_id (m_df m) → m_item d = it →
     Run (f d) (mkMst (m_k m) (m_rd m) (bump_id (m_df m))) Q) →
  Run (new_node it mc p loc ≫= f) m Q.
Proof.
  intros H. apply run_bind. unfold new_node, new_id. apply run_bind, run_bind, run_get.
  apply run_bind, run_on_df, run_ret, run_bind, run_get, run_ret. by apply H.
Qed.

(** A statement with properties and no block: a symbol or a comment. *)
Lemma leaf_post it m d m1 d' m2 :
  it ≠ MIf → opened it m m1 → m_id d = df_next_id (m_df m) → m_item d = it → same_node d d' →
  keeps m1 m2 → weight m2 ≤ weight m1 → block_post m [TNode d' []] m2.
Proof.
  intros Hi Ho Hid Hit (S1 & S2 & _) K W.
  pose proof (opened_keeps it m m m1 m2 (keeps_refl _) (le_n _) Ho K W) as (P & W' & H1 & H2 & H3).
  eapply (block_post_node m d' m2); [done|done|congruence|congruence|done|done| | |].
  - by rewrite S2, Hit.
  - by rewrite S2, Hit.
  - split_and!; [done..|constructor|by apply listed_nil].
Qed.

Lemma quiet_choice_of ts : Quiet (choice_of ts).
Proof. unfold choice_of. apply _. Qed.
Lemma quiet_here : Quiet here.
Proof. unfold here, the_filename. apply _. Qed.
Lemma quiet_source_files r o ts : Quiet (source_files glob srctree srctree_prefix r o ts).
Proof. unfold source_files, the_filename. cbv zeta. apply _. Qed.
#[local] Existing Instances quiet_choice_of quiet_here quiet_source_files.

(** Levels of recursion that are enough: two for each line left to look at,
    and as many for each file that can still be entered. *)
Definition need (d w : nat) : nat := 2 * w + 2 + d * (4 * max_lines + 2).

Definition block_runs (fuel : nat) : Prop := ∀ end_token m,
  k_filename (m_k m) ≠ None → need (unvisited m) (weight m) ≤ fuel →
  Run (parse_block fuel end_token) m
    (λ l m', block_post m l m' ∧ (end_token = None → rd_reuse (m_rd m') = false)).
Definition statement_post (end_token : option token) (m : Mst) (r : option (list tnode)) (m' : Mst) : Prop :=
  match r with
  | Some l => block_post m l m'
  | None => (keeps m m' ∧ weight m' ≤ weight m) ∧ end_token ≠ None
  end.
Definition statement_runs (fuel : nat) : Prop := ∀ end_token t ts m,
  k_filename (m_k m) ≠ None → rd_reuse (m_rd m) = false →
  need (unvisited m) (weight m) < fuel →
  Run (parse_statement fuel end_token t ts) m (statement_post end_token m).

Lemma block_post_nil m m' : keeps m m' → weight m' ≤ weight m → block_post m [] m'.
Proof. intros [? ?] ?. split_and!; [done..|constructor|by apply listed_nil]. Qed.

Lemma keeps_filename m m' : place m' = place m → k_filename (m_k m') = k_filename (m_k m).
Proof. by intros [= _ _ ->]. Qed.

Lemma need_mono d w w' : w' ≤ w → need d w' ≤ need d w.
Proof. unfold need. lia. Qed.

Lemma block_step fuel : block_runs fuel → statement_runs fuel → block_runs (S fuel).
Proof.
  intros IB IS end_token m Hf Hn. cbn [KMenu.parse_block]. apply run_bind.
  eapply run_mono; [apply run_next_line|]. intros more m1 ([P1 G1] & R1 & W1).
  assert (k_filename (m_k m1) ≠ None) as Hf1 by (by rewrite (keeps_filename _ _ P1)).
  destruct more; cbn [negb].
  2: { destruct end_token; [unfold the_filename; apply run_bind, run_get; done|].
       apply run_ret. split; [by apply block_post_nil|done]. }
  assert (need (unvisited m1) (weight m1) < fuel) as Hn1.
  { rewrite (unvisited_place _ _ P1). unfold need in *. lia. }
  assert (∀ m2 l, block_post m1 l m2 →
    Run (l' ← parse_block fuel end_token; mret (l ++ l')) m2
      (λ l m', block_post m l m' ∧ (end_token = None → rd_reuse (m_rd m') = false))) as Hrest.
  { intros m2 l Hl. pose proof Hl as (P2 & W2 & _). apply run_bind. eapply run_mono; [apply IB|].
    - by rewrite (keeps_filename _ _ P2).
    - rewrite (unvisited_place _ _ P2). etrans; [apply need_mono, W2|lia].
    - intros l' m3 [H3 R3]. apply run_ret. split; [|done].
      apply (block_post_before _ m1); [done|lia|]. by eapply block_post_app. }
  apply run_bind, run_get. destruct (rd_tokens (m_rd m1)) as [|[t|i|x] ts]; [|..|done|done].
  - eapply run_mono; [apply IB; [done|lia]|]. intros l m2 [H2 R2]. split; [|done].
    apply (block_post_before _ m1); [done|lia|done].
  - apply run_bind. eapply run_mono; [by apply IS|]. intros [l|] m2 H2; cbn [statement_post] in H2.
    + by apply Hrest.
    + destruct H2 as [[K2 W2] He]. apply run_ret. split; [|done].
      apply block_post_nil; [eapply keeps_trans; [by split|done]|lia].
Qed.

Lemma run_lex {A B} (c : ST Kst A) (f : A → ST Mst B) m Q :
  Steady c → (∀ a k, k_filename k = k_filename (m_k m) → Run (f a) (mkMst k (m_rd m) (m_df m)) Q) →
  Run (lex c ≫= f) m Q.
Proof.
  intros Hc Hf. apply run_bind. unfold Run at 1, lex. specialize (Hc (m_k m)).
  destruct (c (m_k m)) as [[a k]|e]; [|done]. destruct Hc as [E _]. by apply Hf.
Qed.

Lemma run_source_files r o ts m :
  Run (source_files glob srctree srctree_prefix r o ts) m
    (λ _ m', place m' = place m ∧ m_rd m' = m_rd m ∧ m_df m' = m_df m).
Proof.
  unfold source_files, the_filename. apply run_lex; [apply _|]. intros p k Hk.
  do 3 (apply run_bind, run_get). cbv zeta.
  repeat case_match; first [done|apply run_ret; unfold place; cbn; by rewrite Hk].
Qed.

(** Properties of a new node, and what comes after them. *)
Lemma run_props_then {B} it fuel d (f : mdata → ST Mst B) m m1 Q :
  opened it m m1 → weight m < fuel →
  (∀ d' m2, same_node d d' → opened it m m2 → Run (f d') m2 Q) →
  Run (parse_props fuel d ≫= f) m1 Q.
Proof.
  intros Ho Hf H. apply run_bind. pose proof Ho as (_ & W & _).
  eapply run_mono; [apply run_parse_props; lia|]. intros d' m2 [[K2 W2] Hs]. apply H; [done|].
  by apply (opened_keeps it m m m1 m2).
Qed.

Lemma opened_post it m d m1 d' m2 :
  it ≠ MIf → m_id d = df_next_id (m_df m) → m_item d = it → same_node d d' → opened it m m1 →
  ∀ ch, (∀ n, it = MSym n → ch = []) → block_post m1 ch m2 → block_post m [TNode d' ch] m2.
Proof.
  intros Hi Hid Hit (S1 & S2 & _) (P & W & H1 & H2 & H3) ch Hch Hb.
  eapply (block_post_node m d' m1); [done|done|congruence|congruence| |done|..|done].
  - intros n. rewrite S2, Hit. apply Hch.
  - by rewrite S2, Hit.
  - by rewrite S2, Hit.
Qed.

(** A menu or choice: properties, then a block. *)
Lemma run_with_block it fuel d e et m m1 :
  block_runs fuel → need (unvisited m) (weight m) ≤ fuel → k_filename (m_k m) ≠ None →
  it ≠ MIf → sym_of it = None → opened it m m1 →
  m_id d = df_next_id (m_df m) → m_item d = it →
  Run (d ← parse_props fuel d; l ← parse_block fuel (Some e); mret (Some [TNode d l])) m1
    (statement_post et m).
Proof.
  intros IB Hn Hf Hi Hs Ho Hid Hit. eapply run_props_then; [exact Ho|unfold need in Hn; lia|].
  intros d' m2 Hd Ho2. pose proof Ho2 as (P & W & _). apply run_bind. eapply run_mono; [apply IB|].
  - by rewrite (keeps_filename _ _ P).
  - rewrite (unvisited_place _ _ P). etrans; [by apply need_mono|done].
  - intros l m3 [H3 _]. apply run_ret. cbn [statement_post].
    apply (opened_post it m d m2 d' m3 Hi Hid Hit Hd Ho2); [|done].
    intros n ->. discriminate Hs.
Qed.

Lemma opened_new it m0 m m1 :
  keeps m0 m → weight m ≤ weight m0 → m_rd m1 = m_rd m → place m1 = place m →
  registered m1 = (df_defined (m_df m) ++ option_list (sym_of it),
                   df_choices (m_df m) ++ option_list (choice_id it), S (df_next_id (m_df m))) →
  opened it m0 m1.
Proof.
  intros K W Hr Hp [= H1 H2 H3]. apply (opened_keeps it m0 m m1 m1); try done.
  split_and!; try done. unfold weight, lines_left. by rewrite Hr.
Qed.

Lemma keeps_next_id m m' : keeps m m' → df_next_id (m_df m') = df_next_id (m_df m).
Proof. by intros [_ [= _ _ ->]]. Qed.

(** A config or menuconfig statement. *)
Lemma run_config fuel (n : string) (ts : list tok) (mc : bool) et m :
  weight m < fuel →
  Run ((match ts with [] => mret tt | _ => lex trailing_tokens_error end);;
       loc ← here;
       on_df (define_sym n loc);;
       d ← new_node (MSym n) mc None loc;
       d ← parse_props fuel d;
       (match m_prompt d with
        | None => if mc then
                    nl ← name_and_loc (MSym n);
                    lex (warn ("the menuconfig symbol " +:+ nl +:+ " has no prompt"))
                  else mret tt
        | Some _ => mret tt
        end);;
       mret (Some [TNode d []])) m (statement_post et m).
Proof.
  intros Hf. apply run_quiet; [apply _|]. intros _ m1 K1 W1. apply run_quiet; [apply _|].
  intros loc m2 K2 W2. apply run_bind, run_on_df, run_new_node. intros d Hid Hit.
  assert (keeps m m2) as K by eauto using keeps_trans. assert (weight m2 ≤ weight m) as W by lia.
  eapply (run_props_then (MSym n) _ _ _ m); [|done|].
  { apply (opened_new _ m m2); try done. unfold registered. cbn. by rewrite app_nil_r. }
  intros d' m3 Hd Ho. apply run_quiet; [apply _|]. intros _ m4 K4 W4. apply run_ret. cbn [statement_post].
  apply (opened_post (MSym n) m d m3 d' m4); try done.
  - cbn in Hid. by rewrite Hid, (keeps_next_id _ _ K).
  - by apply block_post_nil.
Qed.

(** A comment, an if and a source statement. *)
Lemma run_comment fuel title et m :
  weight m < fuel →
  Run (loc ← here;
       d ← new_node MComment false (Some (title, ky)) loc;
       on_df (add_comment (m_id d));;
       d ← parse_props fuel d;
       mret (Some [TNode d []])) m (statement_post et m).
Proof.
  intros Hf. apply run_quiet; [apply _|]. intros loc m1 K1 W1. apply run_new_node.
  intros d Hid Hit. apply run_bind, run_on_df. eapply (run_props_then MComment _ _ _ m); [|done|].
  { apply (opened_new _ m m1); try done. unfold registered. cbn. by rewrite !app_nil_r. }
  intros d' m3 Hd Ho. apply run_ret. cbn [statement_post].
  apply (opened_post MComment m d m3 d' m3); try done.
  - by rewrite Hid, (keeps_next_id _ _ K1).
  - by apply block_post_nil.
Qed.

Lemma run_if fuel ts et m :
  block_runs fuel → need (unvisited m) (weight m) ≤ fuel → k_filename (m_k m) ≠ None →
  Run (i ← new_id;
       e ← lex (expect_expr_and_eol ts);
       l ← parse_block fuel (Some T_ENDIF);
       mret (Some [TNode (mkM i MIf None None e ky [] [] [] []) l])) m (statement_post et m).
Proof.
  intros IB Hn Hf. apply run_bind. unfold new_id. apply run_bind, run_get, run_bind, run_on_df, run_ret.
  apply run_quiet; [apply _|]. intros e m1 [P1 [= D1 D2 D3]] W1.
  assert (place m1 = place m) as P by (by rewrite P1). apply run_bind. eapply run_mono; [apply IB|].
  - by rewrite (keeps_filename _ _ P).
  - rewrite (unvisited_place _ _ P). etrans; [by apply need_mono|done].
  - intros l m2 [H2 _]. apply run_ret. cbn [statement_post].
    by apply (block_post_if m _ e m1).
Qed.

Lemma run_source fuel r o ts et m :
  block_runs fuel → need (unvisited m) (weight m) ≤ fuel → k_filename (m_k m) ≠ None →
  rd_reuse (m_rd m) = false →
  Run (filenames ← source_files glob srctree srctree_prefix r o ts;
       l ← source_all (parse_block fuel None) filenames;
       mret (Some l)) m (statement_post et m).
Proof.
  intros IB Hn Hf Hr. destruct (k_filename (m_k m)) as [g|] eqn:Eg; [|done].
  apply run_bind. eapply run_mono; [apply run_source_files|]. intros fs m1 (P1 & R1 & D1).
  apply run_bind. eapply run_mono; [eapply (run_source_all _ fs m1 g)|].
  - by rewrite (keeps_filename _ _ P1).
  - by rewrite R1.
  - intros m2 Hf2 Hu2 Hw2. rewrite (unvisited_place _ _ P1) in Hu2.
    eapply run_mono; [apply (IB None); [done|]|by intros l m3 [H3 R3]; auto].
    etrans; [|exact Hn]. unfold need. nia.
  - intros l m2 H2. apply run_ret. cbn [statement_post]. apply (block_post_before _ m1); [|by unfold weight, lines_left; rewrite R1|done].
    split; [done|]. unfold registered. by rewrite D1.
Qed.

Lemma statement_step fuel : block_runs fuel → statement_runs (S fuel).
Proof.
  intros IB end_token t ts m Hf Hr Hn.
  assert (need (unvisited m) (weight m) ≤ fuel) as Hn' by lia. clear Hn. cbn [KMenu.parse_statement].
  destruct (source_token t) as [[r o]|]; [by apply run_source|].
  case_bool_decide as He.
  { destruct ts; [|done]. apply run_ret. cbn. split; [done|]. congruence. }
  assert (weight m < fuel) as Hw by (unfold need in Hn'; lia).
  destruct t; try done.
  - (* choice *)
    apply run_quiet; [apply _|]. intros [id name] m1 K1 W1. apply run_quiet; [apply _|].
    intros loc m2 K2 W2. apply run_bind, run_on_df, run_new_node. intros d Hid Hit.
    assert (keeps m m2) as K by eauto using keeps_trans.
    apply (run_with_block (MChoice id name)); try done.
    + apply (opened_new _ m m2); [done|lia|done|done|]. unfold registered. cbn. by rewrite app_nil_r.
    + cbn in Hid. by rewrite Hid, (keeps_next_id _ _ K).
  - (* comment *)
    apply run_quiet; [apply _|]. intros title m1 K1 W1. eapply run_mono; [by apply run_comment; lia|].
    intros r m2 H2. destruct r; cbn in *; [by apply (block_post_before _ m1)|].
    destruct H2 as [[? ?] ?]. split; [split; [by eapply keeps_trans|lia]|done].
  - (* config *)
    destruct ts as [|[|[[] n|]|] ts]; try done. by apply run_config.
  - (* if *)
    by apply run_if.
  - (* mainmenu *)
    apply run_quiet; [apply _|]. intros title m1 K1 W1. apply run_quiet; [apply _|].
    intros _ m2 K2 W2. apply run_ret. cbn [statement_post].
    apply block_post_nil; [by eapply keeps_trans|lia].
  - (* menu *)
    apply run_quiet; [apply _|]. intros title m1 K1 W1. apply run_quiet; [apply _|].
    intros loc m2 K2 W2. apply run_new_node. intros d Hid Hit. apply run_bind, run_on_df.
    assert (keeps m m2) as K by eauto using keeps_trans.
    apply (run_with_block MMenu); try done.
    + apply (opened_new _ m m2); [done|lia|done|done|]. unfold registered. cbn. by rewrite !app_nil_r.
    + by rewrite Hid, (keeps_next_id _ _ K).
  - (* menuconfig *)
    destruct ts as [|[|[[] n|]|] ts]; try done. by apply run_config.
Qed.

Lemma blocks_run fuel : block_runs fuel.
Proof.
  assert (block_runs fuel ∧ statement_runs fuel) as [H _]; [|exact H].
  induction fuel as [|fuel [IB IS]].
  - split; [intros et m Hf Hn|intros et t ts m Hf Hr Hn]; unfold need in Hn; lia.
  - split; [by apply block_step|by apply statement_step].
Qed.

(** A block that is parsed leaves the parser in the file it started in, with
    the same files to return to; its nodes list the symbols and choices that
    were registered, in that order, and are numbered in that order.  The levels
    of recursion are enough. *)
Lemma block_tree fuel end_token m :
  k_filename (m_k m) ≠ None → need (unvisited m) (weight m) ≤ fuel →
  match parse_block fuel end_token m with
  | Ok (l, m') => place m' = place m ∧ Forall parsed l ∧ listed m l m'
  | Err e => e ≠ OutOfDepth
  end.
Proof.
  intros Hf Hn. pose proof (blocks_run fuel end_token m Hf Hn) as H. unfold Run in H.
  destruct (parse_block fuel end_token m) as [[l m']|e]; [|done]. by destruct H as [(? & ? & ? & ?) _].
Qed.

Notation parse_config := (parse_config environ uname_release shell user_functions glob read_file io_error
  srctree srctree_prefix lex_fuel).

(** The finished menu tree of a configuration. *)
Lemma config_tree fuel filename text warn :
  2 * (2 * length (readlines text)) + 2 + length files * (4 * max_lines + 2) ≤ fuel →
  match parse_config fuel filename text warn with
  | Ok (t, _, m) =>
      clean t ∧ df_defined (m_df m) = omap sym_of (nodes t).*2 ∧
      df_choices (m_df m) = omap choice_id (nodes t).*2 ∧ StronglySorted lt (nodes t).*1 ∧
      place m = ([], [], Some filename)
  | Err e => e ≠ OutOfDepth
  end.
Proof.
  intros Hf. unfold KMenu.parse_config. pose proof (blocks_run fuel None (initial filename text warn)) as H.
  assert (unvisited (initial filename text warn) ≤ length files) as Hu.
  { unfold unvisited. etrans; [apply length_filter|].
    rewrite <- (length_fmap rel_filename files). generalize (rel_filename <$> files). clear.
    induction l as [|x l IH]; [done|]. cbn. case_decide; cbn; lia. }
  specialize (H ltac:(done)). apply (Nat.mul_le_mono_r _ _ (4 * max_lines + 2)) in Hu.
  specialize (H ltac:(unfold need, weight; cbn; unfold lines_left; cbn; lia)). unfold Run in H.
  destruct (parse_block fuel None (initial filename text warn)) as [[l m]|e]; [|done].
  destruct H as [(P & W & F & (L1 & L2 & L3)) _]. cbn [res_bind].
  match goal with |- context [finalize ?t ?st] => set (top := t); set (st0 := st) end.
  pose proof (finalize_ok top st0) as Hok. destruct (finalize top st0) as [[t st1]|] eqn:E; [|done].
  cbn [res_bind fst snd].
  destruct (finalize_kept top st0 t st1) as [Hn Hc]; [by constructor|done|].
  rewrite Hn. unfold top. rewrite nodes_eq. cbn [m_item m_id]. rewrite bool_decide_eq_false_2 by done.
  cbn [app fmap list_fmap fst snd omap list_omap sym_of choice_id].
  unfold syms_in, choices_in in L1, L2. cbn in L1, L2. split_and!; [done|done|done| |done].
  by destruct (ascending_cons 0 _ _ L3) as (_ & S & _).
Qed.
End files.
End lines.
(** ** An example *)

Definition text_of (ls : list string) : string := String.concat (String nl "") ls +:+ String nl "".
Definition quoted_str (s : string) : string := String quote (s +:+ String quote "").

(** A file with a symbol, a menu, a sourced file and an 'if'. *)
Definition demo_top : string := text_of
  ["mainmenu " +:+ quoted_str "Demo"; "config A"; "  bool " +:+ quoted_str "a"; "  help"; "    Text.";
   ""; "      More."; "menu " +:+ quoted_str "M"; "config B"; "  int " +:+ quoted_str "b";
   "  depends on A"; "  default 3 if A"; "endmenu"; "source " +:+ quoted_str "sub";
   "if A && B > 2"; "config C"; "  def_bool y"; "endif"].
Definition demo_sub : string := text_of
  ["choice"; "  prompt " +:+ quoted_str "x"; "config X"; "  bool " +:+ quoted_str "X"; "endchoice";
   "comment " +:+ quoted_str "c"].
Definition demo_read (f : string) : option string := if String.eqb f "sub" then Some demo_sub else None.
Definition demo_glob (p : string) : list string := if String.eqb p "sub" then ["sub"] else [].

Lemma no_functions :
  ∀ n f, (∅ : gmap string (nat * option nat * (list string → ST Kst string))) !! n = Some f →
  ∀ args, Steady (f.2 args).
Proof. intros n f H. by rewrite lookup_empty in H. Qed.
Lemma demo_files f text : demo_read f = Some text → f ∈ ["sub"] ∧ length (readlines text) ≤ 6.
Proof.
  unfold demo_read. destruct (String.eqb_spec f "sub") as [->|]; [|done]. intros [= <-].
  split; [by apply list_elem_of_here|]. vm_compute. lia.
Qed.
End KMenuSpec.

(** ** Reading a configuration ends

    The parser of blocks with the tokenizer below it: the levels of recursion
    are bounded by the lines of the files ([KMenuSpec]), and the bound on the
    macro expansion of a line is reached on no input ([KEnds]), so that from
    some bound on the result is one and the same. *)
Module KMenuEnds.
Import Hex PyStr KExpr KLex KParse KParseSpec KSteady KEnds KFinal KFinalSpec KMenu KMenuSpec.

(** ** The parser's code calls the tokenizer and has no bound of its own *)

#[global] Instance in_time_lex {A} (c : ST Kst A) : InTime c → InTime (lex c).
Proof. intros H m. unfold lex. specialize (H (m_k m)). by destruct (c (m_k m)) as [[]|]. Qed.
Lemma settles_lex {A} (c : nat → ST Kst A) : Settles c → Settles (λ n, lex (c n)).
Proof.
  intros H m. destruct (H (m_k m)) as (N & r & E & P). unfold lex.
  exists N. eexists. split; [intros n Hn; rewrite E by done; reflexivity|]. by destruct r as [[]|].
Qed.
#[global] Instance in_time_on_k f : InTime (on_k f).
Proof. done. Qed.
#[global] Instance in_time_on_rd f : InTime (on_rd f).
Proof. done. Qed.
#[global] Instance in_time_on_df f : InTime (on_df f).
Proof. done. Qed.

#[global] Instance in_time_name_and_loc it : InTime (name_and_loc it).
Proof. unfold name_and_loc. apply _. Qed.
#[global] Instance in_time_item_name it : InTime (item_name it).
Proof. unfold item_name. apply _. Qed.
#[global] Instance in_time_set_type it t : InTime (set_type it t).
Proof. unfold set_type, orig_type_of. apply _. Qed.
#[global] Instance in_time_warn_at msg : InTime (warn_at msg).
Proof. unfold warn_at. apply _. Qed.
#[global] Instance in_time_parse_prompt ts d : InTime (parse_prompt ts d).
Proof. unfold parse_prompt. apply _. Qed.
#[global] Instance in_time_option_env environ ts d : InTime (option_env environ ts d).
Proof. unfold option_env. apply _. Qed.
#[global] Instance in_time_parse_option environ ts d : InTime (parse_option environ ts d).
Proof. unfold parse_option. apply _. Qed.
#[global] Instance in_time_expr_and_cond ts : InTime (expr_and_cond ts).
Proof. unfold expr_and_cond. apply _. Qed.
#[global] Instance in_time_sym_and_cond ts : InTime (sym_and_cond ts).
Proof. unfold sym_and_cond. apply _. Qed.
#[global] Instance in_time_the_filename : InTime the_filename.
Proof. unfold the_filename. apply _. Qed.
#[global] Instance in_time_choice_of ts : InTime (choice_of ts).
Proof. unfold choice_of. apply _. Qed.
#[global] Instance in_time_here : InTime here.
Proof. unfold here. apply _. Qed.
#[global] Instance in_time_new_id : InTime new_id.
Proof. unfold new_id. apply _. Qed.
#[global] Instance in_time_new_node it mc p loc : InTime (new_node it mc p loc).
Proof. unfold new_node. apply _. Qed.
#[global] Instance in_time_readline : InTime readline.
Proof. unfold readline. apply _. Qed.
#[global] Instance in_time_leave_file : InTime leave_file.
Proof. unfold leave_file. apply _. Qed.

Section ends.
Context (environ : gmap string string) (uname_release : string).
Context (shell : string → string * string).
Context (user_functions : gmap string (nat * option nat * (list string → ST Kst string))).
(** A preprocessor function of the user's keeps the parsing location and the
    preprocessor variables. *)
Context (Hfn : ∀ n f, user_functions !! n = Some f → ∀ args, Steady (f.2 args)).
Context (Htame : ∀ n f, user_functions !! n = Some f → ∀ args, Tame (f.2 args)).
Context (glob : string → list string) (read_file : string → option string) (io_error : string → string).
Context (srctree srctree_prefix : string).
Notation tokenize_joined := (tokenize_joined environ uname_release shell user_functions).
Notation line_after_help := (line_after_help environ uname_release shell user_functions).
Notation next_line := (next_line environ uname_release shell user_functions).
Notation empty_help := (empty_help environ uname_release shell user_functions).
Notation parse_help := (parse_help environ uname_release shell user_functions).
Notation parse_prop := (parse_prop environ uname_release shell user_functions).
Notation props_loop := (props_loop environ uname_release shell user_functions).
Notation parse_props := (parse_props environ uname_release shell user_functions).
Notation enter_file := (enter_file read_file io_error srctree_prefix).
Notation source_all := (source_all read_file io_error srctree_prefix).
Notation source_files := (source_files glob srctree srctree_prefix).
Notation parse_block := (parse_block environ uname_release shell user_functions glob read_file io_error
  srctree srctree_prefix).
Notation parse_statement := (parse_statement environ uname_release shell user_functions glob read_file
  io_error srctree srctree_prefix).
Notation parse_config := (parse_config environ uname_release shell user_functions glob read_file io_error
  srctree srctree_prefix).

#[local] Instance in_time_enter_file f : InTime (enter_file f).
Proof. unfold KMenu.enter_file. cbv zeta. apply _. Qed.
#[local] Instance in_time_source_files r o ts : InTime (source_files r o ts).
Proof. unfold KMenu.source_files. cbv zeta. apply _. Qed.

#[local] Instance settles_joined line : Settles (λ n, tokenize_joined n line).
Proof.
  unfold KMenu.tokenize_joined. settle. apply settles_lex. by apply settles_tokenize.
Qed.
#[local] Instance settles_after_help line : Settles (λ n, line_after_help n line).
Proof. unfold KMenu.line_after_help. settle. Qed.
#[local] Instance settles_next_line : Settles (λ n, next_line n).
Proof. unfold KMenu.next_line. settle. Qed.
#[local] Instance settles_empty_help line d : Settles (λ n, empty_help n line d).
Proof. unfold KMenu.empty_help. settle. Qed.
#[local] Instance settles_parse_help d : Settles (λ n, parse_help n d).
Proof. unfold KMenu.parse_help. settle. Qed.
#[local] Instance settles_parse_prop t ts d : Settles (λ n, parse_prop n t ts d).
Proof. unfold KMenu.parse_prop. settle. Qed.
#[local] Instance settles_parse_props fuel d : Settles (λ n, parse_props n fuel d).
Proof.
  unfold KMenu.parse_props. generalize (with_dep ky d). induction fuel; intros d'; cbn [KMenu.props_loop]; settle.
Qed.

Lemma settles_source_all (block : nat → ST Mst (list tnode)) fs :
  Settles block → Settles (λ n, source_all (block n) fs).
Proof. intros Hb. induction fs as [|f fs IH]; cbn [KMenu.source_all]; settle. Qed.
#[local] Instance settles_block fuel end_token : Settles (λ n, parse_block n fuel end_token).
Proof.
  assert ((∀ e, Settles (λ n, parse_block n fuel e)) ∧ ∀ e t ts, Settles (λ n, parse_statement n fuel e t ts)) as [H _]; [|done].
  induction fuel as [|fuel [IB IS]]; [split; intros; cbn [KMenu.parse_block KMenu.parse_statement]; settle|].
  split; intros; cbn [KMenu.parse_block KMenu.parse_statement]; [settle|].
  destruct (source_token t) as [[r o]|].
  - apply settles_bind; [settle|]. intros fs. apply settles_bind; [by apply settles_source_all|]. intros l. settle.
  - settle.
Qed.

(** ** Blocks and configurations *)

(** The files that can be opened, and a bound on their lines. *)
Context (files : list string) (max_lines : nat).
Context (Hfiles : ∀ f text, read_file f = Some text → f ∈ files ∧ length (readlines text) ≤ max_lines).

(** C7.  Parsing a block ends, sourced files included.  Two levels of
    recursion for each line left to look at and for each line of the files
    not yet entered are enough, since a file that is being read is refused;
    and from some bound on the macro expansion on, which is reached nowhere,
    the result is one and the same: an exception of the program, or the block.
    A block that is parsed leaves the parser in the file it started in, with
    the same files to return to; its nodes list the symbols and choices that
    were registered, in that order, and are numbered in that order. *)
Theorem parse_block_ends fuel end_token m :
  k_filename (m_k m) ≠ None → need max_lines (unvisited srctree_prefix files m) (weight m) ≤ fuel →
  ∃ N r, (∀ lex_fuel, N ≤ lex_fuel → parse_block lex_fuel fuel end_token m = r) ∧
  match r with
  | Ok (l, m') => place m' = place m ∧ Forall parsed l ∧ listed m l m'
  | Err e => e ≠ OutOfDepth ∧ e ≠ OutOfFuel
  end.
Proof.
  intros Hf Hn. destruct (settles_block fuel end_token m) as (N & r & E & P). exists N, r. split; [done|].
  pose proof (block_tree environ uname_release shell user_functions Hfn N glob read_file io_error
    srctree srctree_prefix files max_lines Hfiles fuel end_token m Hf Hn) as H.
  rewrite E in H by done. by destruct r as [[l m']|e].
Qed.

(** C6.  Reading a whole configuration ends: from some bound on the macro
    expansion on the result is one and the same, an exception of the program
    or a menu tree, and neither bound of the recursion is reached.  With
    success the finished menu tree has every symbol and choice statement of
    the files as a node, in the order in which the files were read (the order
    of [defined_syms] and [choices]), without 'if' nodes and with children
    only below nodes with a prompt and choices; the parser is back in the
    first file. *)
Theorem parse_config_tree fuel filename text warn :
  2 * (2 * length (readlines text)) + 2 + length files * (4 * max_lines + 2) ≤ fuel →
  ∃ N r, (∀ lex_fuel, N ≤ lex_fuel → parse_config lex_fuel fuel filename text warn = r) ∧
  match r with
  | Ok (t, _, m) =>
      clean t ∧ df_defined (m_df m) = omap sym_of (nodes t).*2 ∧
      df_choices (m_df m) = omap choice_id (nodes t).*2 ∧ StronglySorted lt (nodes t).*1 ∧
      place m = ([], [], Some filename)
  | Err e => e ≠ OutOfDepth ∧ e ≠ OutOfFuel
  end.
Proof.
  intros Hf. destruct (settles_block fuel None (initial filename text warn)) as (N & r & E & P).
  exists N, (parse_config N fuel filename text warn). split.
  { intros n Hn. unfold KMenu.parse_config. by rewrite !E by lia. }
  pose proof (config_tree environ uname_release shell user_functions Hfn N glob read_file io_error
    srctree srctree_prefix files max_lines Hfiles fuel filename text warn Hf) as H.
  unfold KMenu.parse_config in *. rewrite E in * by done. destruct r as [[l m]|e]; [|done].
  cbn [res_bind] in *.
  match goal with |- context [finalize ?t ?st] => pose proof (finalize_ok t st) as Hok; destruct (finalize t st) as [[t' st1]|] eqn:Ef; [|done] end.
  exact H.
Qed.
End ends.

(** ** An example *)

Lemma no_functions_tame :
  ∀ n f, (∅ : gmap string (nat * option nat * (list string → ST Kst string))) !! n = Some f →
  ∀ args, Tame (f.2 args).
Proof. intros n f H. by rewrite lookup_empty in H. Qed.

Notation demo_block lex_fuel :=
  (parse_block ∅ "" (λ _, ("", "")) ∅ demo_glob demo_read (λ _, "ENOENT") "" "" lex_fuel).
Notation demo_config lex_fuel :=
  (parse_config ∅ "" (λ _, ("", "")) ∅ demo_glob demo_read (λ _, "ENOENT") "" "" lex_fuel).

Lemma parse_block_ends_witness :
  let m := initial "Kconfig" demo_top true in
  (∃ N r, (∀ lex_fuel, N ≤ lex_fuel → demo_block lex_fuel 120 None m = r) ∧
     match r with
     | Ok (l, m') => place m' = place m ∧ Forall parsed l ∧ listed m l m'
     | Err e => e ≠ OutOfDepth ∧ e ≠ OutOfFuel
     end) ∧
  is_ok (demo_block 100 120 None m) = true.
Proof.
  intros m. split; [|vm_compute; reflexivity].
  exact (parse_block_ends ∅ "" (λ _, ("", "")) ∅ no_functions no_functions_tame demo_glob demo_read
    (λ _, "ENOENT") "" "" ["sub"] 6 demo_files 120 None m ltac:(discriminate)
    ltac:(apply Nat.leb_le; vm_compute; reflexivity)).
Defined.

Lemma parse_config_tree_witness :
  (∃ N r, (∀ lex_fuel, N ≤ lex_fuel → demo_config lex_fuel 120 "Kconfig" demo_top true = r) ∧
     match r with
     | Ok (t, _, m) =>
         clean t ∧ df_defined (m_df m) = omap sym_of (nodes t).*2 ∧
         df_choices (m_df m) = omap choice_id (nodes t).*2 ∧ StronglySorted lt (nodes t).*1 ∧
         place m = ([], [], Some "Kconfig")
     | Err e => e ≠ OutOfDepth ∧ e ≠ OutOfFuel
     end) ∧
  match demo_config 100 120 "Kconfig" demo_top true with
  | Ok (_, _, m) => df_defined (m_df m) = ["A"; "B"; "X"; "C"]
  | Err _ => False
  end.
Proof.
  split; [|vm_compute; reflexivity].
  exact (parse_config_tree ∅ "" (λ _, ("", "")) ∅ no_functions no_functions_tame demo_glob demo_read
    (λ _, "ENOENT") "" "" ["sub"] 6 demo_files 120 "Kconfig" demo_top true
    ltac:(apply Nat.leb_le; vm_compute; reflexivity)).
Defined.
End KMenuEnds.
