(* ===== verification/KCache.v ===== *)
(** * tools/kconfig/kconfiglib.py: cached values and their invalidation

    The properties of symbols and choices as the source computes them, with
    the attributes [_cached_vis], [_cached_tri_val], [_cached_str_val],
    [_cached_selection], [_cached_assignable] and [_write_to_conf], and the
    functions that invalidate them.  KSym has the same properties without
    caches.

    A computation changes the caches also when it raises, so the monad returns
    the state together with the result. *)
From S2P Require Import Prelude Hex PyStr KExpr KSym KConf KDep.

Module KCache.
Import Hex PyStr KExpr KSym KConf KDep.

(** ** Computations that keep their state when they raise *)

Definition PM (S A : Type) : Type := S → res A * S.
#[global] Instance PM_ret S : MRet (PM S) := λ A a s, (Ok a, s).
#[global] Instance PM_bind S : MBind (PM S) := λ A B f c s,
  match c s with
  | (Ok a, s) => f a s
  | (Err e, s) => (Err e, s)
  end.
Definition pm_raise {S A} (e : pyerr) : PM S A := λ s, (Err e, s).
Definition pm_get {S A} (f : S → A) : PM S A := λ s, (Ok (f s), s).
Definition pm_mod {S} (f : S → S) : PM S unit := λ s, (Ok tt, f s).
Definition pm_lift {S A} (r : res A) : PM S A := λ s, (r, s).
(** [try: c] with a handler for ValueError *)
Definition pm_try {S A} (c handler : PM S A) : PM S A := λ s,
  match c s with
  | (Err ValueError, s) => handler s
  | r => r
  end.

(** ** The caches *)

(** [None] in the source is a missing entry. *)
Record Cache := mkCache {
  ca_vis : gmap sc nat;
  ca_tri : gmap string nat;
  ca_str : gmap string string;
  ca_sel : gmap nat (option string);
  ca_ass : gmap sc (list nat);
  ca_write : gmap string bool
}.
Definition no_cache : Cache := mkCache ∅ ∅ ∅ ∅ ∅ ∅.

Definition put_vis (x : sc) (v : nat) (K : Cache) : Cache :=
  mkCache (<[x := v]> (ca_vis K)) (ca_tri K) (ca_str K) (ca_sel K) (ca_ass K) (ca_write K).
Definition put_tri (n : string) (v : nat) (K : Cache) : Cache :=
  mkCache (ca_vis K) (<[n := v]> (ca_tri K)) (ca_str K) (ca_sel K) (ca_ass K) (ca_write K).
Definition put_str (n : string) (v : string) (K : Cache) : Cache :=
  mkCache (ca_vis K) (ca_tri K) (<[n := v]> (ca_str K)) (ca_sel K) (ca_ass K) (ca_write K).
Definition put_sel (id : nat) (v : option string) (K : Cache) : Cache :=
  mkCache (ca_vis K) (ca_tri K) (ca_str K) (<[id := v]> (ca_sel K)) (ca_ass K) (ca_write K).
Definition put_ass (x : sc) (v : list nat) (K : Cache) : Cache :=
  mkCache (ca_vis K) (ca_tri K) (ca_str K) (ca_sel K) (<[x := v]> (ca_ass K)) (ca_write K).
Definition put_write (n : string) (w : bool) (K : Cache) : Cache :=
  mkCache (ca_vis K) (ca_tri K) (ca_str K) (ca_sel K) (ca_ass K) (<[n := w]> (ca_write K)).

(** The value of a cached attribute, computed and stored when it is missing. *)
Definition cached {A} (look : Cache → option A) (store : A → Cache → Cache) (c : PM Cache A)
    : PM Cache A :=
  o ← pm_get look;
  match o with
  | Some v => mret v
  | None => v ← c; pm_mod (store v);; mret v
  end.

(** ** Properties *)

(** The properties of other items. *)
Record MVals := mkMVals {
  mv_tri : item → PM Cache nat;
  mv_str : item → PM Cache string;
  mv_vis : item → PM Cache nat;
  mv_sel : nat → PM Cache (option string)
}.

Section props.
Context (C : Conf) (W : MVals).

(** *** Expressions *)

Definition num_c (i : item) : PM Cache Z :=
  match TYPE_TO_BASE (orig_type C i) with
  | None => t ← mv_tri W i; mret (Z.of_nat t)
  | Some base => s ← mv_str W i; pm_lift (int_base base s)
  end.
Definition strcmp_c (v1 v2 : item) : PM Cache Z :=
  s1 ← mv_str W v1; s2 ← mv_str W v2; mret (strcmp s1 s2).
Definition compare_c (v1 v2 : item) : PM Cache Z :=
  if decide (orig_type C v1 = STRING ∧ orig_type C v2 = STRING) then strcmp_c v1 v2
  else pm_try (a ← num_c v1; b ← num_c v2; mret (a - b)%Z) (strcmp_c v1 v2).

Fixpoint value_c (e : expr) : PM Cache nat :=
  match e with
  | EItem i => mv_tri W i
  | EAnd e1 e2 =>
      v1 ← value_c e1;
      if Nat.eqb v1 0 then mret 0 else v2 ← value_c e2; mret (Nat.min v1 v2)
  | EOr e1 e2 =>
      v1 ← value_c e1;
      if Nat.eqb v1 2 then mret 2 else v2 ← value_c e2; mret (Nat.max v1 v2)
  | ENot e => v ← value_c e; mret (2 - v)
  | ERel r v1 v2 => comp ← compare_c v1 v2; mret (2 * Nat.b2n (rel_holds r comp))
  end.

(** *** type, visibility *)

Definition sym_type_c (s : Symbol) : PM Cache styp :=
  match s_orig_type s with
  | TRISTATE =>
      in_y ← match s_choice s with
             | Some id => t ← mv_tri W (choice_item id); mret (Nat.eqb t 2)
             | None => mret false
             end;
      if (in_y : bool) then mret BOOL
      else m ← mv_tri W modules; mret (if zero m then BOOL else TRISTATE)
  | t => mret t
  end.

Definition choice_type_c (c : Choice) : PM Cache styp :=
  match c_orig_type c with
  | TRISTATE => m ← mv_tri W modules; mret (if zero m then BOOL else TRISTATE)
  | t => mret t
  end.

Fixpoint prompts_vis_c (nodes : list (option (string * expr))) (vis : nat) : PM Cache nat :=
  match nodes with
  | [] => mret vis
  | None :: nodes => prompts_vis_c nodes vis
  | Some (_, cond) :: nodes => v ← value_c cond; prompts_vis_c nodes (Nat.max vis v)
  end.

Definition promote_vis_c (vis : nat) (type : PM Cache styp) : PM Cache nat :=
  if Nat.eqb vis 1 then t ← type; mret (match t with TRISTATE => vis | _ => 2 end)
  else mret vis.

Definition mode_hides_c (s : Symbol) (vis : nat) : PM Cache bool :=
  match s_choice s with
  | None => mret false
  | Some id =>
      h1 ← match orig_type C (choice_item id), s_orig_type s with
           | TRISTATE, TRISTATE => mret false
           | TRISTATE, _ => t ← mv_tri W (choice_item id); mret (negb (Nat.eqb t 2))
           | _, _ => mret false
           end;
      if (h1 : bool) then mret true else
      match s_orig_type s with
      | TRISTATE => if Nat.eqb vis 1 then
                      t ← mv_tri W (choice_item id); mret (Nat.eqb t 2) else mret false
      | _ => mret false
      end
  end.

Definition sym_visibility_c (s : Symbol) : PM Cache nat :=
  vis ← prompts_vis_c (s_nodes s) 0;
  hidden ← mode_hides_c s vis;
  if (hidden : bool) then mret 0 else promote_vis_c vis (sym_type_c s).
Definition choice_visibility_c (c : Choice) : PM Cache nat :=
  vis ← prompts_vis_c (c_nodes c) 0; promote_vis_c vis (choice_type_c c).

(** *** tri_value of a symbol *)

Fixpoint tri_default_c (defaults : list (expr * expr)) : PM Cache (option nat) :=
  match defaults with
  | [] => mret None
  | (d, cond) :: defaults =>
      c ← value_c cond;
      if zero c then tri_default_c defaults else v ← value_c d; mret (Some (Nat.min v c))
  end.

Definition default_or_imply_c (s : Symbol) : PM Cache (nat * bool) :=
  d ← tri_default_c (s_defaults s);
  let val := default 0 d in
  w ← value_c (s_weak_rev_dep s);
  if zero w then mret (val, negb (zero val))
  else
    dd ← value_c (s_direct_dep s);
    if zero dd then mret (val, negb (zero val)) else mret (Nat.max w val, true).

Definition promote_val_c (s : Symbol) (val : nat) : PM Cache nat :=
  if Nat.eqb val 1 then
    t ← sym_type_c s;
    match t with
    | BOOL => mret 2
    | _ => w ← value_c (s_weak_rev_dep s); mret (if Nat.eqb w 2 then 2 else 1)
    end
  else mret val.

Definition plain_tri_value_c (s : Symbol) (vis : nat) : PM Cache (nat * bool) :=
  vw ← match s_user_value s with
       | Some u =>
           if zero vis then default_or_imply_c s
           else match u with UTri n => mret (Nat.min n vis, false) | UStr _ => pm_raise TypeError end
       | None => default_or_imply_c s
       end;
  r ← value_c (s_rev_dep s);
  _ ← (if zero r then mret 0 else value_c (s_direct_dep s));
  val ← promote_val_c s (if zero r then vw.1 else Nat.max r vw.1);
  mret (val, negb (zero vis) || (if zero r then vw.2 else true)).

Definition choice_sym_tri_value_c (n : string) (s : Symbol) (id vis : nat) : PM Cache (nat * bool) :=
  if Nat.eqb vis 2 then
    sel ← mv_sel W id; mret (if decide (sel = Some n) then 2 else 0, true)
  else if zero vis then mret (0, false)
  else
    mret (match s_user_value s with
          | Some (UTri u) => if zero u then 0 else 1
          | Some (UStr u) => if String.eqb u "" then 0 else 1
          | None => 0
          end, true).

(** [Symbol.tri_value].  The source sets [_write_to_conf] to whether the
    symbol is visible and again below; here it is set once, to the last of
    these values, when nothing raised. *)
Definition tri_value_c (n : string) (s : Symbol) : PM Cache nat :=
  cached (λ K, ca_tri K !! n) (put_tri n)
    (if negb (BOOL_TRISTATE (s_orig_type s)) then mret 0
     else
       vis ← mv_vis W (SymItem false n);
       vw ← match s_choice s with
            | None => plain_tri_value_c s vis
            | Some id => choice_sym_tri_value_c n s id vis
            end;
       pm_mod (put_write n vw.2);;
       mret vw.1).

(** *** str_value of a symbol *)

Definition expr_str_value_c (e : expr) : PM Cache string :=
  match e with EItem i => mv_str W i | _ => pm_raise AttributeError end.

Fixpoint active_range_c (base : Z) (ranges : list (item * item * expr)) : PM Cache (option (Z * Z)) :=
  match ranges with
  | [] => mret None
  | (low, high, cond) :: ranges =>
      c ← value_c cond;
      if zero c then active_range_c base ranges
      else
        l ← mv_str W low;
        h ← mv_str W high;
        mret (Some (num_or_0 base l, num_or_0 base h))
  end.

Fixpoint str_default_value_c (defaults : list (expr * expr)) : PM Cache (option string) :=
  match defaults with
  | [] => mret None
  | (d, cond) :: defaults =>
      c ← value_c cond;
      if zero c then str_default_value_c defaults else v ← expr_str_value_c d; mret (Some v)
  end.

Definition num_default_c (s : Symbol) (base : Z) (r : option (Z * Z)) : PM Cache (string * bool) :=
  d ← str_default_value_c (s_defaults s);
  match d with
  | Some v => mret (clamp (s_orig_type s) r (num_or_0 base v) v, true)
  | None => mret (clamp (s_orig_type s) r 0 "", false)
  end.

Definition int_hex_value_c (s : Symbol) (base : Z) (vis : nat) : PM Cache (string * bool) :=
  r ← active_range_c base (s_ranges s);
  match s_user_value s with
  | Some (UStr u) =>
      if zero vis || String.eqb u "" then num_default_c s base r
      else
        z ← pm_lift (int_base base u);
        if in_range r z then mret (u, false) else num_default_c s base r
  | Some (UTri _) => if zero vis then num_default_c s base r else pm_raise TypeError
  | None => num_default_c s base r
  end.

Definition string_default_c (s : Symbol) : PM Cache (string * bool) :=
  d ← str_default_value_c (s_defaults s);
  mret (default "" d, match d with Some _ => true | None => false end).

Definition string_value_c (s : Symbol) (vis : nat) : PM Cache (string * bool) :=
  match s_user_value s with
  | Some u =>
      if zero vis then string_default_c s
      else match u with UStr u => mret (u, false) | UTri _ => pm_raise TypeError end
  | None => string_default_c s
  end.

(** [Symbol.str_value] *)
Definition str_value_c (n : string) (s : Symbol) : PM Cache string :=
  cached (λ K, ca_str K !! n) (put_str n)
    (match s_orig_type s with
     | BOOL | TRISTATE => t ← tri_value_c n s; mret (TRI_TO_STR t)
     | UNKNOWN => mret n
     | t =>
         vis ← mv_vis W (SymItem false n);
         vw ← match TYPE_TO_BASE t with
              | Some base => if INT_HEX t then int_hex_value_c s base vis else string_value_c s vis
              | None => pm_raise (KeyError "type")
              end;
         let auto := match s_env_var s with Some _ => true | None => false end ||
                     bool_decide (cf_defconfig_list C = Some n) in
         pm_mod (put_write n (if auto then false else negb (zero vis) || vw.2));;
         mret vw.1
     end).

(** *** Choices *)

(** [Choice.tri_value] is not cached. *)
Definition choice_tri_value_c (id : nat) (c : Choice) : PM Cache nat :=
  let val := if c_is_optional c then 0 else 1 in
  let val := match c_user_value c with Some u => Nat.max val u | None => val end in
  vis ← mv_vis W (choice_item id);
  let val := Nat.min val vis in
  if Nat.eqb val 1 then
    t ← choice_type_c c; mret (match t with BOOL => 2 | _ => val end)
  else mret val.

Fixpoint default_selection_c (defaults : list (string * expr)) : PM Cache (option string) :=
  match defaults with
  | [] => mret None
  | (n, cond) :: defaults =>
      c ← value_c cond;
      if zero c then default_selection_c defaults
      else
        v ← mv_vis W (sym_item n);
        if zero v then default_selection_c defaults else mret (Some n)
  end.

Fixpoint first_visible_c (syms : list string) : PM Cache (option string) :=
  match syms with
  | [] => mret None
  | n :: syms => v ← mv_vis W (sym_item n); if zero v then first_visible_c syms else mret (Some n)
  end.

Definition selection_from_defaults_c (c : Choice) : PM Cache (option string) :=
  d ← default_selection_c (c_defaults c);
  match d with Some n => mret (Some n) | None => first_visible_c (c_syms c) end.

(** [Choice.selection] *)
Definition selection_c (id : nat) (c : Choice) : PM Cache (option string) :=
  cached (λ K, ca_sel K !! id) (put_sel id)
    (t ← mv_tri W (choice_item id);
     if negb (Nat.eqb t 2) then mret None
     else
       match c_user_selection c with
       | Some n =>
           v ← mv_vis W (sym_item n);
           if zero v then selection_from_defaults_c c else mret (Some n)
       | None => selection_from_defaults_c c
       end).

(** *** assignable *)

Definition implied_y_c (s : Symbol) : PM Cache bool :=
  w ← value_c (s_weak_rev_dep s); mret (Nat.eqb w 2).
Definition no_m_c (s : Symbol) : PM Cache bool :=
  t ← sym_type_c s;
  match t with BOOL => mret true | _ => implied_y_c s end.

Definition sym_assignable_c (n : string) (s : Symbol) : PM Cache (list nat) :=
  cached (λ K, ca_ass K !! Sym n) (put_ass (Sym n))
    (if negb (BOOL_TRISTATE (s_orig_type s)) then mret []
     else
       vis ← mv_vis W (sym_item n);
       if zero vis then mret []
       else
         r ← value_c (s_rev_dep s);
         if Nat.eqb vis 2 then
           match s_choice s with
           | Some _ => mret [2]
           | None =>
               if zero r then b ← no_m_c s; mret (if b : bool then [0; 2] else [0; 1; 2])
               else if Nat.eqb r 2 then mret [2]
               else b ← no_m_c s; mret (if b : bool then [2] else [1; 2])
           end
         else if zero r then b ← implied_y_c s; mret (if b : bool then [0; 2] else [0; 1])
         else if Nat.eqb r 2 then mret [2]
         else mret [1]).

Definition choice_assignable_c (id : nat) (c : Choice) : PM Cache (list nat) :=
  cached (λ K, ca_ass K !! Cho id) (put_ass (Cho id))
    (vis ← mv_vis W (choice_item id);
     if zero vis then mret []
     else if Nat.eqb vis 2 then
       t ← choice_type_c c;
       mret (match c_is_optional c, t with
             | false, BOOL => [2] | false, _ => [1; 2]
             | true, BOOL => [0; 2] | true, _ => [0; 1; 2] end)
     else mret (if c_is_optional c then [0; 1] else [1])).

(** *** Properties of any item *)

Definition item_tri_c (i : item) : PM Cache nat :=
  match i with
  | SymItem true n => mret (default 0 (STR_TO_TRI n))
  | SymItem false n => match cf_syms C !! n with Some s => tri_value_c n s | None => mret 0 end
  | ChoiceItem id _ =>
      match cf_choices C !! id with Some c => choice_tri_value_c id c | None => mret 0 end
  end.

Definition item_str_c (i : item) : PM Cache string :=
  match i with
  | SymItem true n => mret n
  | SymItem false n => match cf_syms C !! n with Some s => str_value_c n s | None => mret n end
  | ChoiceItem id _ => t ← mv_tri W (choice_item id); mret (TRI_TO_STR t)
  end.

(** [visibility] *)
Definition item_vis_c (i : item) : PM Cache nat :=
  match i with
  | SymItem true _ => mret 0
  | SymItem false n =>
      match cf_syms C !! n with
      | Some s => cached (λ K, ca_vis K !! Sym n) (put_vis (Sym n)) (sym_visibility_c s)
      | None => mret 0
      end
  | ChoiceItem id _ =>
      match cf_choices C !! id with
      | Some c => cached (λ K, ca_vis K !! Cho id) (put_vis (Cho id)) (choice_visibility_c c)
      | None => mret 0
      end
  end.

Definition item_sel_c (id : nat) : PM Cache (option string) :=
  match cf_choices C !! id with Some c => selection_c id c | None => mret None end.

Definition mvals_step : MVals := mkMVals item_tri_c item_str_c item_vis_c item_sel_c.
End props.

Definition no_mvals : MVals :=
  mkMVals (λ _, pm_raise OutOfFuel) (λ _, pm_raise OutOfFuel) (λ _, pm_raise OutOfFuel)
    (λ _, pm_raise OutOfFuel).

Fixpoint mvals (C : Conf) (fuel : nat) : MVals :=
  match fuel with O => no_mvals | S fuel => mvals_step C (mvals C fuel) end.

(** [assignable] of a symbol or a choice *)
Definition assignable_c (C : Conf) (fuel : nat) (x : sc) : PM Cache (list nat) :=
  match x with
  | Sym n => match cf_syms C !! n with Some s => sym_assignable_c C (mvals C fuel) n s | None => mret [] end
  | Cho id => match cf_choices C !! id with
              | Some c => choice_assignable_c (mvals C fuel) id c | None => mret [] end
  end.

(** [Symbol.config_string]; computing the value sets [_write_to_conf]. *)
Definition config_string_c (prefix : string) (C : Conf) (fuel : nat) (n : string) : PM Cache string :=
  match cf_syms C !! n with
  | Some s =>
      val ← str_value_c C (mvals C fuel) n s;
      w ← pm_get (λ K, default false (ca_write K !! n));
      mret (if w : bool then assignment prefix n (s_orig_type s) val else "")
  | None => mret ""
  end.

(** ** Invalidation *)

(** [_invalidate] *)
Definition invalidate (x : sc) (K : Cache) : Cache :=
  match x with
  | Sym n => mkCache (delete x (ca_vis K)) (delete n (ca_tri K)) (delete n (ca_str K)) (ca_sel K)
               (delete x (ca_ass K)) (ca_write K)
  | Cho id => mkCache (delete x (ca_vis K)) (ca_tri K) (ca_str K) (delete id (ca_sel K))
                (delete x (ca_ass K)) (ca_write K)
  end.

(** [_invalidate_all] *)
Definition invalidate_all (C : Conf) (K : Cache) : Cache :=
  foldl (λ K id, invalidate (Cho id) K) (foldl (λ K n, invalidate (Sym n) K) K (cf_unique C))
    (seq 0 (length (cf_choices C))).

Section invalidation.
Context (C : Conf) (D : Deps) (iter : gset sc → list sc).

(** [_rec_invalidate]; the dependents are gone through in the order of the
    set. *)
Fixpoint rec_invalidate (fuel : nat) (x : sc) (K : Cache) : res Cache :=
  match fuel with
  | O => Err OutOfFuel
  | S fuel =>
      if decide (x = Sym "MODULES") then Ok (invalidate_all C K)
      else
        res_fold (λ K y, match ca_vis K !! y with
                         | Some _ => rec_invalidate fuel y K
                         | None => Ok K
                         end) (invalidate x K) (iter (dependents D x))
  end.

(** Each call below another removes a cached visibility first. *)
Definition invalidate_fuel (K : Cache) : nat := size (ca_vis K) + 1.
Definition invalidate_from (x : sc) (K : Cache) : res Cache := rec_invalidate (invalidate_fuel K) x K.

Definition has_prompt (s : Symbol) : bool :=
  existsb (λ p, match p with Some _ => true | None => false end) (s_nodes s).

(** [_rec_invalidate_if_has_prompt] *)
Definition invalidate_if_has_prompt (n : string) (s : Symbol) (K : Cache) : res Cache :=
  if has_prompt s then invalidate_from (Sym n) K else Ok K.
End invalidation.

(** ** Operations on user values, with the invalidation *)

Section ops.
Context (D : Deps) (iter : gset sc → list sc).

Definition set_value_c (C : Conf) (K : Cache) (n : string) (u : uval) : res (bool * Conf * Cache) :=
  match cf_syms C !! n with
  | None => Ok (false, C, K)
  | Some s =>
      let u := tri_of (s_orig_type s) u in
      if bool_decide (s_user_value s = Some u) && bool_decide (s_choice s = None) then
        Ok (true, put_sym C n (set_user s (s_user_value s) true), K)
      else if negb (valid_value (s_orig_type s) u) then Ok (false, C, K)
      else
        let C := put_sym C n (set_user s (Some u) true) in
        match s_choice s, bool_decide (u = UTri 2) with
        | Some id, true =>
            match cf_choices C !! id with
            | Some c =>
                let C := put_choice C id (set_choice_user c (c_user_value c) (Some n) true) in
                let* K := invalidate_from C D iter (Cho id) K in Ok (true, C, K)
            | None => Ok (true, C, K)
            end
        | _, _ => let* K := invalidate_if_has_prompt C D iter n s K in Ok (true, C, K)
        end
  end.

Definition unset_value_c (C : Conf) (K : Cache) (n : string) : res (Conf * Cache) :=
  match cf_syms C !! n with
  | Some s =>
      match s_user_value s with
      | Some _ =>
          let C := put_sym C n (set_user s None (s_was_set s)) in
          let* K := invalidate_if_has_prompt C D iter n s K in Ok (C, K)
      | None => Ok (C, K)
      end
  | None => Ok (C, K)
  end.

Definition choice_set_value_c (C : Conf) (K : Cache) (id v : nat) : res (bool * Conf * Cache) :=
  match cf_choices C !! id with
  | None => Ok (false, C, K)
  | Some c =>
      if bool_decide (c_user_value c = Some v) then
        Ok (true, put_choice C id (set_choice_user c (c_user_value c) (c_user_selection c) true), K)
      else if valid_value (c_orig_type c) (UTri v) then
        let C := put_choice C id (set_choice_user c (Some v) (c_user_selection c) true) in
        let* K := invalidate_from C D iter (Cho id) K in Ok (true, C, K)
      else Ok (false, C, K)
  end.

Definition choice_unset_value_c (C : Conf) (K : Cache) (id : nat) : res (Conf * Cache) :=
  match cf_choices C !! id with
  | Some c =>
      match c_user_value c, c_user_selection c with
      | None, None => Ok (C, K)
      | _, _ =>
          let C := put_choice C id (set_choice_user c None None (c_was_set c)) in
          let* K := invalidate_from C D iter (Cho id) K in Ok (C, K)
      end
  | None => Ok (C, K)
  end.
End ops.

(** ** Sequences of operations *)

(** Reading a property or changing a user value. *)
Inductive op :=
  | OTri (i : item) | OStr (i : item) | OVis (i : item) | OSel (id : nat) | OAssignable (x : sc)
  | OConfigString (n : string)
  | OSet (n : string) (u : uval) | OUnset (n : string)
  | OChoiceSet (id v : nat) | OChoiceUnset (id : nat).
Inductive answer :=
  | ANat (n : nat) | AStr (s : string) | ASel (o : option string) | AList (l : list nat)
  | ABool (b : bool) | ADone.

Definition res_fmap {A B} (f : A → B) (r : res A) : res B := let* a := r in Ok (f a).

(** An operation through the caches: its answer, the configuration and the
    caches after it. *)
Definition run_op (prefix : string) (D : Deps) (iter : gset sc → list sc) (fuel : nat) (C : Conf) (K : Cache)
    (o : op) : res answer * (Conf * Cache) :=
  let read {A} (f : A → answer) (c : PM Cache A) := let '(r, K) := c K in (res_fmap f r, (C, K)) in
  let change {A} (f : A → answer) (r : res (A * Conf * Cache)) :=
    match r with Ok (a, C, K) => (Ok (f a), (C, K)) | Err e => (Err e, (C, K)) end in
  match o with
  | OTri i => read ANat (mv_tri (mvals C fuel) i)
  | OStr i => read AStr (mv_str (mvals C fuel) i)
  | OVis i => read ANat (mv_vis (mvals C fuel) i)
  | OSel id => read ASel (mv_sel (mvals C fuel) id)
  | OAssignable x => read AList (assignable_c C fuel x)
  | OConfigString n => read AStr (config_string_c prefix C fuel n)
  | OSet n u => change ABool (set_value_c D iter C K n u)
  | OUnset n => change (λ _, ADone) (let* r := unset_value_c D iter C K n in Ok (tt, r.1, r.2))
  | OChoiceSet id v => change ABool (choice_set_value_c D iter C K id v)
  | OChoiceUnset id => change (λ _, ADone) (let* r := choice_unset_value_c D iter C K id in Ok (tt, r.1, r.2))
  end.

Fixpoint run_ops (prefix : string) (D : Deps) (iter : gset sc → list sc) (fuel : nat) (C : Conf) (K : Cache)
    (l : list op) : list (res answer) :=
  match l with
  | [] => []
  | o :: l => let '(a, (C, K)) := run_op prefix D iter fuel C K o in a :: run_ops prefix D iter fuel C K l
  end.

(** The same without caches: the specification. *)
Definition spec_op (prefix : string) (fuel : nat) (C : Conf) (o : op) : res answer * Conf :=
  let V := vals C fuel in
  match o with
  | OTri i => (res_fmap ANat (v_tri V i), C)
  | OStr i => (res_fmap AStr (v_str V i), C)
  | OVis i => (res_fmap ANat (v_vis V i), C)
  | OSel id => (res_fmap ASel (v_sel V id), C)
  | OAssignable (Sym n) =>
      (match cf_syms C !! n with
       | Some s => res_fmap AList (sym_assignable C V n s) | None => Ok (AList []) end, C)
  | OAssignable (Cho id) =>
      (match cf_choices C !! id with
       | Some c => res_fmap AList (choice_assignable V id c) | None => Ok (AList []) end, C)
  | OConfigString n =>
      (match cf_syms C !! n with
       | Some s => res_fmap AStr (config_string prefix C V n s) | None => Ok (AStr "") end, C)
  | OSet n u => let '(b, C) := set_value C n u in (Ok (ABool b), C)
  | OUnset n => (Ok ADone, unset_value C n)
  | OChoiceSet id v => let '(b, C) := choice_set_value C id v in (Ok (ABool b), C)
  | OChoiceUnset id => (Ok ADone, choice_unset_value C id)
  end.

Fixpoint spec_ops (prefix : string) (fuel : nat) (C : Conf) (l : list op) : list (res answer) :=
  match l with
  | [] => []
  | o :: l => let '(a, C) := spec_op prefix fuel C o in a :: spec_ops prefix fuel C l
  end.

End KCache.
