(* ===== verification/KCacheSpec.v ===== *)
(** * Cached values are the values

    A cache is sound when its entries can be computed one after the other,
    each from entries computed before it.  Reading a property through the
    caches returns what KSym's definition of it returns and leaves the caches
    sound; changing a user value invalidates enough of them. *)
From S2P Require Import Prelude Hex PyStr KExpr KSym KParseSpec KSymSpec KFix KDep KDepSpec KCache.

Module KCacheSpec.
Import Hex PyStr KExpr KSym KParseSpec KSymSpec KFix KDep KDepSpec KCache.

(** ** Entries *)

Inductive key := KVis (x : sc) | KTri (n : string) | KStr (n : string) | KSel (id : nat) | KAss (x : sc).
#[global] Instance key_eq_dec : EqDecision key.
Proof. solve_decision. Defined.

Definition present (K : Cache) (k : key) : Prop :=
  match k with
  | KVis x => is_Some (ca_vis K !! x)
  | KTri n => is_Some (ca_tri K !! n)
  | KStr n => is_Some (ca_str K !! n)
  | KSel id => is_Some (ca_sel K !! id)
  | KAss x => is_Some (ca_ass K !! x)
  end.

(** [K'] has the entries of [K]. *)
Record ext (K K' : Cache) : Prop := {
  ext_vis : ca_vis K ⊆ ca_vis K';
  ext_tri : ca_tri K ⊆ ca_tri K';
  ext_str : ca_str K ⊆ ca_str K';
  ext_sel : ca_sel K ⊆ ca_sel K';
  ext_ass : ca_ass K ⊆ ca_ass K'
}.
#[global] Instance ext_preorder : PreOrder ext.
Proof. split; [by split|]. intros K1 K2 K3 [] []. split; by etrans. Qed.

(** ** The answers a cache gives *)

Definition guard {A} (b : bool) (o : option A) : res A :=
  match b, o with true, Some v => Ok v | _, _ => Err OutOfFuel end.

Section oracle.
Context (C : Conf) (K : Cache) (ok : key → bool).

Definition o_vis (i : item) : res nat :=
  match i with
  | SymItem true _ => Ok 0
  | SymItem false n =>
      match cf_syms C !! n with Some _ => guard (ok (KVis (Sym n))) (ca_vis K !! Sym n) | None => Ok 0 end
  | ChoiceItem id _ =>
      match cf_choices C !! id with Some _ => guard (ok (KVis (Cho id))) (ca_vis K !! Cho id) | None => Ok 0 end
  end.
Definition o_sym_tri (i : item) : res nat :=
  match i with
  | SymItem true n => Ok (default 0 (STR_TO_TRI n))
  | SymItem false n =>
      match cf_syms C !! n with Some _ => guard (ok (KTri n)) (ca_tri K !! n) | None => Ok 0 end
  | ChoiceItem _ _ => Err OutOfFuel
  end.
(** The value of a choice is computed from its visibility. *)
Definition o_base : Vals := mkVals o_sym_tri (λ _, Err OutOfFuel) o_vis (λ _, Err OutOfFuel).
Definition o_tri (i : item) : res nat :=
  match i with
  | ChoiceItem id _ =>
      match cf_choices C !! id with Some c => choice_tri_value o_base id c | None => Ok 0 end
  | _ => o_sym_tri i
  end.
Definition o_str (i : item) : res string :=
  match i with
  | SymItem true n => Ok n
  | SymItem false n =>
      match cf_syms C !! n with Some _ => guard (ok (KStr n)) (ca_str K !! n) | None => Ok n end
  | ChoiceItem id nm => let* t := o_tri (ChoiceItem id None) in Ok (TRI_TO_STR t)
  end.
Definition o_sel (id : nat) : res (option string) :=
  match cf_choices C !! id with Some _ => guard (ok (KSel id)) (ca_sel K !! id) | None => Ok None end.
Definition oracle : Vals := mkVals o_tri o_str o_vis o_sel.
End oracle.

Lemma guard_le {A} (b b' : bool) (o o' : option A) :
  (∀ v, o = Some v → b = true → o' = Some v ∧ b' = true) → rle (guard b o) (guard b' o').
Proof.
  intros H. destruct b; [|apply rle_bottom]. destruct o as [v|]; [|apply rle_bottom].
  destruct (H v eq_refl eq_refl) as [-> ->]. apply rle_refl.
Qed.

Lemma oracle_le C K K' ok ok' :
  ext K K' → (∀ k, present K k → ok k = true → ok' k = true) → vle (oracle C K ok) (oracle C K' ok').
Proof.
  intros [E1 E2 E3 E4 E5] Hok.
  assert (∀ i, rle (o_vis C K ok i) (o_vis C K' ok' i)) as Hv.
  { intros [[] n|id nm]; cbn [o_vis]; try apply rle_refl; case_match; try apply rle_refl;
      apply guard_le; intros v Hv Ho; (split; [by eapply lookup_weaken|]); by apply Hok; [eexists|]. }
  assert (∀ i, rle (o_sym_tri C K ok i) (o_sym_tri C K' ok' i)) as Ht.
  { intros [[] n|id nm]; cbn [o_sym_tri]; try apply rle_refl; case_match; try apply rle_refl;
      apply guard_le; intros v Hv' Ho; (split; [by eapply lookup_weaken|]); by apply Hok; [eexists|]. }
  assert (vle (o_base C K ok) (o_base C K' ok')) as Hb.
  { split; intros i; cbn; [apply Ht|apply rle_refl|apply Hv|apply rle_refl]. }
  assert (∀ i, rle (o_tri C K ok i) (o_tri C K' ok' i)) as Ht'.
  { intros [[] n|id nm]; cbn [o_tri]; [apply (Ht (SymItem true n))|apply (Ht (SymItem false n))|].
    case_match; [by apply choice_tri_mono|apply rle_refl]. }
  split; intros i; cbn [oracle v_tri v_str v_vis v_sel]; [apply Ht'| |apply Hv|].
  - destruct i as [[] n|id nm]; cbn [o_str]; [apply rle_refl| |].
    + case_match; [|apply rle_refl]. apply guard_le. intros v Hv' Ho.
      split; [by eapply lookup_weaken|]. by apply Hok; [eexists|].
    + apply rle_bind; [apply Ht'|]. intros. apply rle_refl.
  - unfold o_sel. case_match; [|apply rle_refl]. apply guard_le. intros v Hv' Ho.
    split; [by eapply lookup_weaken|]. by apply Hok; [eexists|].
Qed.

(** ** Sound caches *)

Definition sc_item (x : sc) : item := match x with Sym n => sym_item n | Cho id => choice_item id end.
Definition assignable (C : Conf) (V : Vals) (x : sc) : res (list nat) :=
  match x with
  | Sym n => match cf_syms C !! n with Some s => sym_assignable C V n s | None => Ok [] end
  | Cho id => match cf_choices C !! id with Some c => choice_assignable V id c | None => Ok [] end
  end.

(** The entry for [k] is what the properties say, given the answers [V].
    [_write_to_conf] belongs to the value it was computed with. *)
Definition justified (C : Conf) (V : Vals) (K : Cache) (k : key) : Prop :=
  match k with
  | KVis x => ∀ v, ca_vis K !! x = Some v → item_vis C V (sc_item x) = Ok v
  | KTri n => ∀ v, ca_tri K !! n = Some v → ∃ s w, cf_syms C !! n = Some s ∧
      sym_tri_value C V n s = Ok (v, w) ∧
      (BOOL_TRISTATE (s_orig_type s) = true → ca_write K !! n = Some w)
  | KStr n => ∀ v, ca_str K !! n = Some v → ∃ s w, cf_syms C !! n = Some s ∧
      sym_str_value C V n s = Ok (v, w) ∧ (s_orig_type s ≠ UNKNOWN → ca_write K !! n = Some w)
  | KSel id => ∀ v, ca_sel K !! id = Some v → ∃ c, cf_choices C !! id = Some c ∧ selection C V id c = Ok v
  | KAss x => ∀ v, ca_ass K !! x = Some v → assignable C V x = Ok v
  end.

(** The entries as they are below rank [r]. *)
Definition below (C : Conf) (K : Cache) (rank : key → nat) (r : nat) : Vals :=
  oracle C K (λ k, Nat.ltb (rank k) r).

(** [_write_to_conf] is not set for a symbol without a type. *)
Definition unknown_unwritten (C : Conf) (K : Cache) : Prop :=
  ∀ n s, cf_syms C !! n = Some s → s_orig_type s = UNKNOWN → ca_write K !! n = None.

(** Entries can be ranked so that each is computed from those of lower rank. *)
Definition sound (C : Conf) (K : Cache) : Prop :=
  unknown_unwritten C K ∧
  ∃ rank N, (∀ k, present K k → rank k < N) ∧ ∀ k, justified C (below C K rank (rank k)) K k.

Definition full (C : Conf) (K : Cache) : Vals := oracle C K (λ _, true).

Lemma no_cache_sound C : sound C no_cache.
Proof.
  split; [by intros n s _ _|]. exists (λ _, 0), 0. split.
  - intros []; cbn; rewrite lookup_empty; by intros [? ?].
  - intros []; intros v; cbn; by rewrite lookup_empty.
Qed.

Lemma rle_ok {A} (r1 r2 : res A) a : rle r1 r2 → r1 = Ok a → r2 = Ok a.
Proof. intros [->| ->]; done. Qed.

Lemma sym_assignable_mono C V1 V2 n s :
  vle V1 V2 → rle (sym_assignable C V1 n s) (sym_assignable C V2 n s).
Proof.
  intros HV. assert (rle (no_m C V1 s) (no_m C V2 s)).
  { unfold no_m, implied_y. apply rle_bind; [by apply sym_type_mono|]. intros t.
    pose proof (value_mono C V1 V2 HV (s_weak_rev_dep s)). rle_solve. }
  assert (∀ e, rle (value C V1 e) (value C V2 e)) by (intros; by apply value_mono).
  unfold sym_assignable, implied_y. rle_solve.
Qed.
Lemma assignable_mono C V1 V2 x : vle V1 V2 → rle (assignable C V1 x) (assignable C V2 x).
Proof.
  intros HV. destruct x as [n|id]; cbn [assignable]; case_match; try apply rle_refl.
  - by apply sym_assignable_mono.
  - assert (rle (choice_type V1 c) (choice_type V2 c)) by (by apply choice_type_mono).
    unfold choice_assignable. rle_solve.
Qed.

Lemma justified_mono C V V' K K' k :
  vle V V' → (∀ n, ca_write K' !! n = ca_write K !! n) →
  (present K' k → present K k) → ext K K' → justified C V K k → justified C V' K' k.
Proof.
  intros HV Hw Hp [E1 E2 E3 E4 E5] HJ. destruct k as [x|n|n|id|x]; cbn in *; intros v Hv.
  - destruct (Hp (mk_is_Some _ _ Hv)) as [v' Hv']. pose proof (lookup_weaken _ _ _ _ Hv' E1). simplify_eq.
    eapply rle_ok; [|by apply HJ]. by apply (vle_vis _ _ (vals_step_mono C V V' HV)).
  - destruct (Hp (mk_is_Some _ _ Hv)) as [v' Hv']. pose proof (lookup_weaken _ _ _ _ Hv' E2). simplify_eq.
    destruct (HJ _ Hv') as (s & w & Hs & Hr & Hb). exists s, w. split_and!; [done| |by rewrite Hw].
    eapply rle_ok; [by apply sym_tri_mono|done].
  - destruct (Hp (mk_is_Some _ _ Hv)) as [v' Hv']. pose proof (lookup_weaken _ _ _ _ Hv' E3). simplify_eq.
    destruct (HJ _ Hv') as (s & w & Hs & Hr & Hb). exists s, w. split_and!; [done| |by rewrite Hw].
    eapply rle_ok; [by apply sym_str_mono|done].
  - destruct (Hp (mk_is_Some _ _ Hv)) as [v' Hv']. pose proof (lookup_weaken _ _ _ _ Hv' E4). simplify_eq.
    destruct (HJ _ Hv') as (c & Hc & Hr). exists c. split; [done|].
    eapply rle_ok; [by apply selection_mono|done].
  - destruct (Hp (mk_is_Some _ _ Hv)) as [v' Hv']. pose proof (lookup_weaken _ _ _ _ Hv' E5). simplify_eq.
    eapply rle_ok; [by apply assignable_mono|]. by apply HJ.
Qed.

Lemma below_full C K rank r : vle (below C K rank r) (full C K).
Proof. by apply oracle_le. Qed.

Lemma sound_full C K k : sound C K → justified C (full C K) K k.
Proof.
  intros (_ & rank & N & _ & HJ). eapply justified_mono; [apply below_full|done|done|done|apply HJ].
Qed.

Lemma rle_trans {A} (r1 r2 r3 : res A) : rle r1 r2 → rle r2 r3 → rle r1 r3.
Proof. intros [->|E1] [E2|E2]; [by left..|left; congruence|right; congruence]. Qed.
Lemma vle_trans V1 V2 V3 : vle V1 V2 → vle V2 V3 → vle V1 V3.
Proof. intros [] []. split; intros i; eauto using rle_trans. Qed.
Lemma guard_rle {A} (b : bool) (o : option A) (r : res A) :
  (∀ v, o = Some v → b = true → r = Ok v) → rle (guard b o) r.
Proof.
  intros H. destruct b; [|apply rle_bottom]. destruct o as [v|]; [|apply rle_bottom].
  rewrite (H v) by done. apply rle_refl.
Qed.

(** The answers of a cache whose entries are the values with [m] levels of
    references. *)
Lemma oracle_vals C K ok m :
  (∀ k, present K k → ok k = true → justified C (vals C m) K k) → vle (oracle C K ok) (vals C (3 + m)).
Proof.
  intros HJ. pose proof (vals_mono C (S m) (2 + m) ltac:(lia)) as M2.
  assert (∀ i, rle (o_vis C K ok i) (v_vis (vals C (S m)) i)) as Hv.
  { intros i. change (v_vis (vals C (S m)) i) with (item_vis C (vals C m) i).
    destruct i as [[] n|id nm]; cbn [o_vis]; [apply rle_refl|..].
    - destruct (cf_syms C !! n) eqn:E; [|cbn; rewrite E; apply rle_refl]. apply guard_rle.
      intros v Hv Hb. by apply (HJ (KVis (Sym n)) (mk_is_Some _ _ Hv) Hb).
    - destruct (cf_choices C !! id) eqn:E; [|cbn; rewrite E; apply rle_refl]. apply guard_rle.
      intros v Hv Hb. by apply (HJ (KVis (Cho id)) (mk_is_Some _ _ Hv) Hb). }
  assert (∀ i, rle (o_sym_tri C K ok i) (v_tri (vals C (S m)) i)) as Ht.
  { intros i. change (v_tri (vals C (S m)) i) with (item_tri C (vals C m) i).
    destruct i as [[] n|id nm]; cbn [o_sym_tri]; [apply rle_refl|..|apply rle_bottom].
    destruct (cf_syms C !! n) eqn:E; [|cbn; rewrite E; apply rle_refl]. apply guard_rle.
    intros v Hx Hb. destruct (HJ (KTri n) (mk_is_Some _ _ Hx) Hb v Hx) as (s' & w & Hs & Hr & _).
    cbn. by rewrite Hs, Hr. }
  assert (∀ i, rle (o_tri C K ok i) (v_tri (vals C (2 + m)) i)) as Ht'.
  { intros i. destruct i as [[] n|id nm]; cbn [o_tri];
      [eapply rle_trans; [apply Ht|apply vle_tri, M2]..|].
    change (v_tri (vals C (2 + m)) (ChoiceItem id nm)) with (item_tri C (vals C (S m)) (ChoiceItem id nm)).
    cbn [item_tri]. case_match; [|apply rle_refl]. apply choice_tri_mono.
    split; intros i; cbn; [apply Ht|apply rle_bottom|apply Hv|apply rle_bottom]. }
  pose proof (vals_mono C (2 + m) (3 + m) ltac:(lia)) as M3.
  pose proof (vals_mono C (S m) (3 + m) ltac:(lia)) as M1.
  split; intros i; cbn [oracle v_tri v_str v_vis v_sel].
  - eapply rle_trans; [apply Ht'|apply vle_tri, M3].
  - destruct i as [[] n|id nm]; cbn [o_str]; [apply rle_refl|..].
    + eapply rle_trans; [|apply vle_str, M1].
      change (v_str (vals C (S m)) (SymItem false n)) with (item_str C (vals C m) (SymItem false n)).
      cbn [item_str]. destruct (cf_syms C !! n) eqn:E; [|apply rle_refl]. apply guard_rle.
      intros v Hv' Hb. destruct (HJ (KStr n) (mk_is_Some _ _ Hv') Hb v Hv') as (s' & w & Hs & Hr & _).
      simplify_eq. by rewrite Hr.
    + change (v_str (vals C (3 + m)) (ChoiceItem id nm)) with (item_str C (vals C (2 + m)) (ChoiceItem id nm)).
      cbn [item_str]. apply rle_bind; [apply Ht'|]. intros. apply rle_refl.
  - eapply rle_trans; [apply Hv|apply vle_vis, M1].
  - eapply rle_trans; [|apply vle_sel, M1].
    change (v_sel (vals C (S m)) i) with (item_sel C (vals C m) i). unfold item_sel, o_sel.
    destruct (cf_choices C !! i) eqn:E; [|apply rle_refl]. apply guard_rle.
    intros v Hv' Hb. destruct (HJ (KSel i) (mk_is_Some _ _ Hv') Hb v Hv') as (c' & Hc & Hr).
    by simplify_eq.
Qed.

(** The entries of a sound cache are values of the configuration. *)
Lemma sound_vals C K : sound C K → ∃ m, vle (full C K) (vals C m).
Proof.
  intros (_ & rank & N & HN & HJ).
  assert (∀ r, ∃ m, ∀ k, present K k → rank k < r → justified C (vals C m) K k) as H.
  { intros r. induction r as [|r (m & IH)]; [exists 0; intros; lia|].
    exists (3 + m). intros k Hk Hr. eapply justified_mono; [|done|done|done|apply HJ].
    apply oracle_vals. intros k' Hk' Hlt. apply Nat.ltb_lt in Hlt. apply IH; [done|lia]. }
  destruct (H N) as (m & Hm). exists (3 + m). apply oracle_vals. intros k Hk _. apply Hm; auto.
Qed.

Lemma present_dec K k : present K k ∨ ¬ present K k.
Proof. destruct k; cbn; destruct (_ !! _); eauto; right; by intros [? ?]. Qed.

(** An entry that is justified by the others can be added. *)
Lemma sound_add C K K' k0 :
  sound C K → ext K K' → (∀ n, ca_write K' !! n = ca_write K !! n) →
  (∀ k, present K' k → k = k0 ∨ present K k) → justified C (full C K) K' k0 → sound C K'.
Proof.
  intros (HU & rank & N & HN & HJ) He Hw Hp H0.
  split; [intros n s Hs Ht; rewrite Hw; by eapply HU|]. destruct (present_dec K k0) as [Hk0|Hk0].
  - assert (∀ k, present K' k → present K k) as Hp' by (intros k Hk; by destruct (Hp k Hk) as [->|]).
    exists rank, N. split; [auto|]. intros k. eapply justified_mono; [|done|auto|done|apply HJ].
    by apply oracle_le.
  - exists (λ k, if decide (k = k0) then N else rank k), (S N). split.
    + intros k Hk. case_decide; [lia|]. destruct (Hp k Hk) as [|Hk']; [done|]. specialize (HN _ Hk'). lia.
    + intros k. unfold below. destruct (decide (k = k0)) as [->|Hn].
      * assert (vle (full C K) (oracle C K' (λ k', Nat.ltb (if decide (k' = k0) then N else rank k') N))) as Hle.
        { apply oracle_le; [done|]. intros k Hk _. apply Nat.ltb_lt.
          rewrite decide_False by (by intros ->). by apply HN. }
        eapply (justified_mono _ _ _ K'); [exact Hle|done|done|done|done].
      * assert (present K' k → present K k) as Hpk by (intros Hk; by destruct (Hp k Hk)).
        eapply (justified_mono _ _ _ K); [|done|done|done|apply HJ].
        apply oracle_le; [done|]. intros k' Hk' Hlt. rewrite decide_False; [done|]. by intros ->.
Qed.

Lemma ext_put_write n w K : ext K (put_write n w K).
Proof. by split. Qed.

(** The flag of a value that is being computed. *)
Lemma sound_write C K n s v w :
  sound C K → cf_syms C !! n = Some s → s_orig_type s ≠ UNKNOWN →
  sym_str_value C (full C K) n s = Ok (v, w) → sound C (put_write n w K).
Proof.
  intros (HU & rank & N & HN & HJ) Hs Hty Hv. split.
  { intros m s' Hs' Ht. cbn. destruct (decide (n = m)) as [<-|]; [congruence|].
    rewrite lookup_insert_ne by done. by eapply HU. }
  exists rank, N. split; [exact HN|]. intros k.
  specialize (HJ k). pose proof (below_full C K rank (rank k)) as Hle.
  change (below C (put_write n w K) rank) with (below C K rank).
  assert (∀ v' w', sym_str_value C (below C K rank (rank k)) n s = Ok (v', w') → w' = w) as Hsame.
  { intros v' w' H'. pose proof (rle_ok _ _ _ (sym_str_mono C _ _ Hle n s) H') as H. congruence. }
  destruct k as [x|m|m|id|x]; cbn in HJ |- *; try done; intros v' Hv'.
  - destruct (HJ v' Hv') as (s' & w' & Hs' & Hr & Hb). exists s', w'. split_and!; [done..|]. intros Ht.
    destruct (decide (n = m)) as [<-|]; [|rewrite lookup_insert_ne by done; auto].
    rewrite lookup_insert_eq. simplify_eq. f_equal. symmetry. apply (Hsame (TRI_TO_STR v')).
    unfold sym_str_value. rewrite Hr. by destruct (s_orig_type s).
  - destruct (HJ v' Hv') as (s' & w' & Hs' & Hr & Hb). exists s', w'. split_and!; [done..|]. intros Ht.
    destruct (decide (n = m)) as [<-|]; [|rewrite lookup_insert_ne by done; auto].
    rewrite lookup_insert_eq. simplify_eq. f_equal. symmetry. by eapply Hsame.
Qed.

(** *** Adding one entry *)

Lemma insert_ext `{Countable A} {B} (m : gmap A B) k v :
  (∀ v', m !! k = Some v' → v' = v) → m ⊆ <[k := v]> m.
Proof.
  intros Hk. apply map_subseteq_spec. intros j x Hj. destruct (decide (k = j)) as [<-|].
  - rewrite lookup_insert_eq. f_equal. symmetry. auto.
  - by rewrite lookup_insert_ne.
Qed.
Lemma insert_present `{Countable A} {B} (m : gmap A B) k v j :
  is_Some (<[k := v]> m !! j) → j = k ∨ is_Some (m !! j).
Proof. destruct (decide (k = j)) as [<-|]; [by left|rewrite lookup_insert_ne by done; by right]. Qed.

Lemma add_vis C K x v :
  sound C K → item_vis C (full C K) (sc_item x) = Ok v →
  sound C (put_vis x v K) ∧ ext K (put_vis x v K).
Proof.
  intros HK Hv. assert (ext K (put_vis x v K)) as He.
  { split; try done. apply insert_ext. intros v' Hv'.
    pose proof (sound_full C K (KVis x) HK v' Hv'). congruence. }
  split; [|done]. apply (sound_add C K _ (KVis x)); try done.
  - intros [y|m|m|id|y]; cbn; try by right. intros [->|]%insert_present; auto.
  - intros v'. cbn. rewrite lookup_insert_eq. by intros [= <-].
Qed.
Lemma add_tri C K m s v w :
  sound C K → cf_syms C !! m = Some s → sym_tri_value C (full C K) m s = Ok (v, w) →
  (BOOL_TRISTATE (s_orig_type s) = true → ca_write K !! m = Some w) →
  sound C (put_tri m v K) ∧ ext K (put_tri m v K).
Proof.
  intros HK Hs Hv Hw. assert (ext K (put_tri m v K)) as He.
  { split; try done. apply insert_ext. intros v' Hv'.
    destruct (sound_full C K (KTri m) HK v' Hv') as (s' & w' & ? & ? & _). congruence. }
  split; [|done]. apply (sound_add C K _ (KTri m)); try done.
  - intros [y|j|j|id|y]; cbn; try by right. intros [->|]%insert_present; auto.
  - intros v'. cbn. rewrite lookup_insert_eq. intros [= <-]. eauto.
Qed.
Lemma add_str C K m s v w :
  sound C K → cf_syms C !! m = Some s → sym_str_value C (full C K) m s = Ok (v, w) →
  (s_orig_type s ≠ UNKNOWN → ca_write K !! m = Some w) →
  sound C (put_str m v K) ∧ ext K (put_str m v K).
Proof.
  intros HK Hs Hv Hw. assert (ext K (put_str m v K)) as He.
  { split; try done. apply insert_ext. intros v' Hv'.
    destruct (sound_full C K (KStr m) HK v' Hv') as (s' & w' & ? & ? & _). congruence. }
  split; [|done]. apply (sound_add C K _ (KStr m)); try done.
  - intros [y|j|j|id|y]; cbn; try by right. intros [->|]%insert_present; auto.
  - intros v'. cbn. rewrite lookup_insert_eq. intros [= <-]. eauto.
Qed.
Lemma add_sel C K id c v :
  sound C K → cf_choices C !! id = Some c → selection C (full C K) id c = Ok v →
  sound C (put_sel id v K) ∧ ext K (put_sel id v K).
Proof.
  intros HK Hc Hv. assert (ext K (put_sel id v K)) as He.
  { split; try done. apply insert_ext. intros v' Hv'.
    destruct (sound_full C K (KSel id) HK v' Hv') as (c' & ? & ?). congruence. }
  split; [|done]. apply (sound_add C K _ (KSel id)); try done.
  - intros [y|j|j|j|y]; cbn; try by right. intros [->|]%insert_present; auto.
  - intros v'. cbn. rewrite lookup_insert_eq. intros [= <-]. eauto.
Qed.
Lemma add_ass C K x v :
  sound C K → assignable C (full C K) x = Ok v → sound C (put_ass x v K) ∧ ext K (put_ass x v K).
Proof.
  intros HK Hv. assert (ext K (put_ass x v K)) as He.
  { split; try done. apply insert_ext. intros v' Hv'.
    pose proof (sound_full C K (KAss x) HK v' Hv') as H. cbn in H. congruence. }
  split; [|done]. apply (sound_add C K _ (KAss x)); try done.
  - intros [y|m|m|id|y]; cbn; try by right. intros [->|]%insert_present; auto.
  - intros v'. cbn. rewrite lookup_insert_eq. by intros [= <-].
Qed.

(** ** Reading through the caches *)

Section reading.
Context (C : Conf) (HC : conf_ok C).

(** [c] computes [f] through the caches: they stay sound and only grow; a
    value returned is the one the caches give afterwards; and where [f] is
    defined with [n] levels of references, [c] returns the same or raises the
    same.  ValueError is only raised if [ve] says so. *)
Definition sim_ve (ve : bool) (n : nat) {A} (c : PM Cache A) (f : Vals → res A) : Prop :=
  (∀ V V', vle V V' → rle (f V) (f V')) ∧
  ∀ K, sound C K → let '(r, K') := c K in
    sound C K' ∧ ext K K' ∧ (∀ v, r = Ok v → f (full C K') = Ok v) ∧
    (r = Err ValueError → ve = true ∧ f (full C K') = Err ValueError) ∧
    (f (vals C n) ≠ Err OutOfFuel → r = f (vals C n)).
Notation sim := (sim_ve false).

Lemma full_mono K K' : ext K K' → vle (full C K) (full C K').
Proof. intros. by apply oracle_le. Qed.

Lemma sim_ret ve n {A} (a : A) : sim_ve ve n (mret a) (λ _, Ok a).
Proof. split; [intros; apply rle_refl|]. by intros K HK. Qed.
Lemma sim_raise ve n {A} e : e ≠ ValueError → sim_ve ve n (A := A) (pm_raise e) (λ _, Err e).
Proof. intros He. split; [intros; apply rle_refl|]. intros K HK. cbn. split_and!; try done. congruence. Qed.
Lemma sim_lift ve n {A} (r : res A) : (r = Err ValueError → ve = true) → sim_ve ve n (pm_lift r) (λ _, r).
Proof. intros Hr. split; [intros; apply rle_refl|]. intros K HK. cbn. split_and!; try done. auto. Qed.

Lemma sim_weaken ve n {A} (c : PM Cache A) f : sim n c f → sim_ve ve n c f.
Proof.
  intros [Hm Hc]. split; [done|]. intros K HK. specialize (Hc K HK). destruct (c K) as [r K'].
  destruct Hc as (? & ? & ? & Hv & ?). split_and!; try done; intros E; by destruct (Hv E).
Qed.

Lemma sim_bind ve n {A B} (c : PM Cache A) (g : A → PM Cache B) f h :
  sim_ve ve n c f → (∀ a, sim_ve ve n (g a) (h a)) →
  sim_ve ve n (c ≫= g) (λ V, let* a := f V in h a V).
Proof.
  intros [Mc Hc] Hg. split.
  { intros V V' HV. apply rle_bind; [by apply Mc|]. intros a. by apply Hg. }
  intros K HK. specialize (Hc K HK). unfold mbind, PM_bind. destruct (c K) as [[a|e] K1].
  - destruct Hc as (S1 & E1 & F1 & _ & N1). destruct (Hg a) as [Mg Hga]. specialize (Hga K1 S1).
    destruct (g a K1) as [r K2]. destruct Hga as (S2 & E2 & F2 & V2 & N2).
    assert (f (full C K2) = Ok a) as Hf.
    { eapply rle_ok; [apply Mc, (full_mono K1 K2 E2)|]. by apply F1. }
    rewrite Hf. cbn [res_bind]. split_and!; [done|by etrans|done|done|].
    intros Hn. destruct (f (vals C n)) as [a'|e'].
    + rewrite <- N1 in Hn by done. specialize (N1 ltac:(done)). injection N1 as <-. cbn in *. auto.
    + cbn in Hn. specialize (N1 ltac:(intros [= ->]; done)). discriminate N1.
  - destruct Hc as (S1 & E1 & _ & V1 & N1). split_and!; [done|done|done|..].
    + intros [= ->]. destruct (V1 eq_refl) as [-> Hf]. by rewrite Hf.
    + intros Hn. destruct (f (vals C n)) as [a'|e']; [by specialize (N1 ltac:(done))|]. cbn in *.
      specialize (N1 ltac:(intros [= ->]; done)). congruence.
Qed.

#[local] Instance pyerr_eq_dec : EqDecision pyerr.
Proof. solve_decision. Defined.
Lemma value_error_dec {A} (r : res A) : r = Err ValueError ∨ r ≠ Err ValueError.
Proof. destruct r as [a|e]; [by right|]. destruct (decide (e = ValueError)) as [->|]; [by left|right; congruence]. Qed.

Lemma sim_try n {A} (c d : PM Cache A) f g :
  sim_ve true n c f → sim n d g →
  sim n (pm_try c d) (λ V, match f V with Err ValueError => g V | r => r end).
Proof.
  intros [Mc Hc] [Md Hd]. split.
  { intros V V' HV. destruct (Mc V V' HV) as [->| ->]; [apply rle_bottom|].
    destruct (f V) as [a|[]]; try apply rle_refl. by apply Md. }
  intros K HK. specialize (Hc K HK). unfold pm_try. destruct (c K) as [r K1].
  destruct Hc as (S1 & E1 & F1 & V1 & N1). specialize (Hd K1 S1).
  destruct (value_error_dec r) as [->|Hr].
  - destruct (d K1) as [r2 K2]. destruct Hd as (S2 & E2 & F2 & V2 & N2).
    assert (f (full C K2) = Err ValueError) as Hf.
    { destruct (V1 eq_refl) as [_ Hf]. destruct (Mc _ _ (full_mono K1 K2 E2)) as [H|H]; congruence. }
    rewrite Hf. split_and!; [done|by etrans|done|done|].
    intros Hn. destruct (f (vals C n)) as [a|e] eqn:Ef; [by specialize (N1 ltac:(done))|].
    destruct (decide (e = OutOfFuel)) as [->|]; [done|].
    assert (e = ValueError) as -> by (specialize (N1 ltac:(congruence)); congruence). auto.
  - assert (match r with Err ValueError => d K1 | _ => (r, K1) end = (r, K1)) as Hmatch
      by (destruct r as [|[]]; done).
    assert (∀ P : res A * Cache → Prop, P (r, K1) →
      P (match (r, K1) with (Err ValueError, s) => d s | r0 => r0 end)) as Hcase
      by (intros P HP; destruct r as [|[]]; done).
    apply Hcase. split_and!; [done|done|..].
    + intros v ->. by rewrite (F1 v eq_refl).
    + done.
    + intros Hn. destruct (f (vals C n)) as [a|e] eqn:Ef; [by apply N1|].
      destruct (decide (e = ValueError)) as [->|]; [by specialize (N1 ltac:(done))|].
      destruct e; try done; by apply N1.
Qed.

Lemma sim_same ve n {A} (c c' : PM Cache A) f f' :
  (∀ K, c' K = c K) → (∀ V, f' V = f V) → sim_ve ve n c f → sim_ve ve n c' f'.
Proof.
  intros Hc Hf [Hm H]. split; [intros V V' HV; rewrite !Hf; auto|]. intros K HK. rewrite Hc.
  specialize (H K HK). destruct (c K) as [r K']. by rewrite !Hf.
Qed.

(** The values two caches or levels give for the same property agree. *)
Lemma full_agrees K n {A} (f : Vals → res A) v :
  (∀ V V', vle V V' → rle (f V) (f V')) → sound C K → f (full C K) = Ok v →
  f (vals C n) ≠ Err OutOfFuel → Ok v = f (vals C n).
Proof.
  intros Hm HK Hv Hn. destruct (sound_vals C K HK) as (m & Hle).
  assert (f (vals C m) = Ok v) as H1 by (eapply rle_ok; [by apply Hm|done]).
  destruct (Nat.le_ge_cases n m) as [H|H].
  - destruct (Hm _ _ (vals_mono C n m H)) as [|Heq]; [done|]. congruence.
  - destruct (Hm _ _ (vals_mono C m n H)) as [|Heq]; congruence.
Qed.

(** A cached property: [c] computes it, [look] and [store] are its entry. *)
Lemma sim_cached n {A} (look : Cache → option A) store (c : PM Cache A) f :
  sim n c f →
  (∀ K v, sound C K → look K = Some v → f (full C K) = Ok v) →
  (∀ K v K', sound C K → c K = (Ok v, K') → sound C K' → f (full C K') = Ok v →
     sound C (store v K') ∧ ext K' (store v K')) →
  sim n (cached look store c) f.
Proof.
  intros [Mc Hc] Hlook Hstore. split; [done|]. intros K HK. unfold cached, mbind, PM_bind, pm_get.
  cbn beta iota. destruct (look K) as [v|] eqn:El.
  - cbn. pose proof (Hlook K v HK El) as Hv. split_and!; [done|done|by intros ? [= <-]|done|].
    intros Hn. by eapply (full_agrees K n f).
  - specialize (Hc K HK). destruct (c K) as [[v|e] K1] eqn:Ec; [|done].
    destruct Hc as (S1 & E1 & F1 & _ & N1).
    destruct (Hstore K v K1 HK Ec S1 (F1 v eq_refl)) as [S2 E2]. cbn.
    split_and!; [done|by etrans| |done|done].
    intros v' [= <-]. eapply rle_ok; [apply Mc, (full_mono _ _ E2)|by apply F1].
Qed.

(** *** One level of references *)

Create HintDb sim discriminated.
Ltac sim_step :=
  match goal with
  | |- sim_ve _ _ (mret _) _ => apply sim_ret
  | |- sim_ve _ _ (pm_raise _) _ => apply sim_raise; done
  | |- sim_ve _ _ (mbind _ _) _ => apply sim_bind; [|intros ?]
  | |- sim_ve _ _ (if ?b then _ else _) _ => destruct b
  | |- sim_ve _ _ (match ?x with _ => _ end) _ => destruct x eqn:?
  end.
Ltac sim_solve := repeat (first [solve [eauto 3 with sim] | sim_step]).

Section level.
Context (n : nat) (W : MVals).
Context (W_tri : ∀ i, sim n (mv_tri W i) (λ V, v_tri V i)).
Context (W_str : ∀ i, sim n (mv_str W i) (λ V, v_str V i)).
Context (W_vis : ∀ i, sim n (mv_vis W i) (λ V, v_vis V i)).
Context (W_sel : ∀ id, sim n (mv_sel W id) (λ V, v_sel V id)).
Hint Resolve W_tri W_str W_vis W_sel : sim.

Lemma sim_num i : sim_ve true n (num_c C W i) (λ V, sym_to_num (env C V) i).
Proof.
  unfold num_c, sym_to_num. cbn [env e_type e_tri e_str]. destruct (TYPE_TO_BASE (orig_type C i)).
  - apply sim_bind; [apply sim_weaken, W_str|]. intros s. by apply sim_lift.
  - apply sim_weaken. sim_solve.
Qed.
Lemma sim_strcmp i j : sim n (strcmp_c W i j) (λ V, by_strcmp (env C V) i j).
Proof. unfold strcmp_c, by_strcmp. cbn [env e_str]. sim_solve. Qed.
Lemma sim_compare i j : sim n (compare_c C W i j) (λ V, compare_items (env C V) i j).
Proof.
  unfold compare_c, compare_items. cbn [env e_type]. destruct (decide _); [apply sim_strcmp|].
  apply (sim_try n _ _ (λ V, let* a := sym_to_num (env C V) i in let* b := sym_to_num (env C V) j in Ok (a - b)%Z));
    [|apply sim_strcmp].
  apply sim_bind; [apply sim_num|]. intros a. apply sim_bind; [apply sim_num|]. intros b. apply sim_ret.
Qed.
Hint Resolve sim_compare : sim.
Lemma sim_value e : sim n (value_c C W e) (λ V, value C V e).
Proof. unfold value. induction e; cbn [value_c expr_value]; sim_solve. Qed.
Hint Resolve sim_value : sim.

Lemma sim_sym_type s : sim n (sym_type_c W s) (λ V, sym_type V s).
Proof. unfold sym_type_c, sym_type. sim_solve. Qed.
Lemma sim_choice_type c : sim n (choice_type_c W c) (λ V, choice_type V c).
Proof. unfold choice_type_c, choice_type. sim_solve. Qed.
Hint Resolve sim_sym_type sim_choice_type : sim.
Lemma sim_prompts l vis : sim n (prompts_vis_c C W l vis) (λ V, prompts_vis C V l vis).
Proof. revert vis; induction l as [|[[]|] l IH]; intros vis; cbn [prompts_vis_c prompts_vis]; sim_solve. Qed.
Hint Resolve sim_prompts : sim.
Lemma sim_mode_hides s vis : sim n (mode_hides_c C W s vis) (λ V, mode_hides C V s vis).
Proof. unfold mode_hides_c, mode_hides. cbv zeta. sim_solve. Qed.
Hint Resolve sim_mode_hides : sim.
Lemma sim_sym_visibility s : sim n (sym_visibility_c C W s) (λ V, sym_visibility C V s).
Proof. unfold sym_visibility_c, sym_visibility, promote_vis_c, promote_vis. sim_solve. Qed.
Lemma sim_choice_visibility c : sim n (choice_visibility_c C W c) (λ V, choice_visibility C V c).
Proof. unfold choice_visibility_c, choice_visibility, promote_vis_c, promote_vis. sim_solve. Qed.

Lemma sim_tri_default l : sim n (tri_default_c C W l) (λ V, tri_default C V l).
Proof. induction l as [|[] l IH]; cbn [tri_default_c tri_default]; sim_solve. Qed.
Hint Resolve sim_tri_default : sim.
Lemma sim_default_or_imply s : sim n (default_or_imply_c C W s) (λ V, default_or_imply C V s).
Proof. unfold default_or_imply_c, default_or_imply. cbv zeta. sim_solve. Qed.
Lemma sim_promote_val s v : sim n (promote_val_c C W s v) (λ V, promote_val C V s v).
Proof. unfold promote_val_c, promote_val. sim_solve. Qed.
Hint Resolve sim_default_or_imply sim_promote_val : sim.
Lemma sim_plain_tri s vis : sim n (plain_tri_value_c C W s vis) (λ V, plain_tri_value C V s vis).
Proof.
  unfold plain_tri_value_c, plain_tri_value. apply sim_bind; [sim_solve|]. intros [val w]. cbn [fst snd].
  apply sim_bind; [sim_solve|]. intros r. destruct (zero r); sim_solve.
Qed.
Lemma sim_choice_sym_tri m s id vis :
  sim n (choice_sym_tri_value_c W m s id vis) (λ V, choice_sym_tri_value V m s id vis).
Proof. unfold choice_sym_tri_value_c, choice_sym_tri_value. sim_solve. Qed.
Hint Resolve sim_plain_tri sim_choice_sym_tri : sim.

Lemma sim_active_range b l : sim n (active_range_c C W b l) (λ V, active_range C V b l).
Proof. induction l as [|[[] ] l IH]; cbn [active_range_c active_range]; sim_solve. Qed.
Lemma sim_str_default l : sim n (str_default_value_c C W l) (λ V, str_default_value C V l).
Proof.
  assert (∀ e, sim n (expr_str_value_c W e) (λ V, expr_str_value V e)).
  { intros e. unfold expr_str_value_c, expr_str_value. sim_solve. }
  induction l as [|[] l IH]; cbn [str_default_value_c str_default_value]; sim_solve.
Qed.
Hint Resolve sim_active_range sim_str_default : sim.
Lemma sim_num_default s b r : sim n (num_default_c C W s b r) (λ V, num_default C V s b r).
Proof. unfold num_default_c, num_default. sim_solve. Qed.
Hint Resolve sim_num_default : sim.
Lemma sim_string s vis : sim n (string_value_c C W s vis) (λ V, string_value C V s vis).
Proof. unfold string_value_c, string_value, string_default_c, string_default. sim_solve. Qed.
Hint Resolve sim_string : sim.

(** A stored user value of an int or hex symbol is a number. *)
Lemma sim_int_hex m s vis base :
  cf_syms C !! m = Some s → TYPE_TO_BASE (s_orig_type s) = Some base → INT_HEX (s_orig_type s) = true →
  sim n (int_hex_value_c C W s base vis) (λ V, int_hex_value C V s base vis).
Proof using HC W_tri W_str.
  intros Hs Hb Ht. unfold int_hex_value_c, int_hex_value. apply sim_bind; [sim_solve|]. intros r.
  destruct (s_user_value s) as [[u|u]|] eqn:Eu; [sim_solve| |sim_solve].
  destruct (_ || _); [sim_solve|]. apply sim_bind; [|intros z; sim_solve]. apply sim_lift.
  intros Hu. exfalso. destruct HC as [Hok _]. specialize (Hok m s Hs _ Eu).
  destruct (s_orig_type s); try done; cbn in Hb, Hok; injection Hb as <-.
  - unfold is_base_n in Hok. by rewrite Hu in Hok.
  - unfold hex_ok in Hok. unfold int_base in Hu. cbn in Hu. by rewrite Hu in Hok.
Qed.

(** *** Cached properties *)

(** A value stored with its [_write_to_conf]. *)
Lemma sim_cached_write {A} m s (look : Cache → option A) store (c : PM Cache (A * bool)) F :
  cf_syms C !! m = Some s → s_orig_type s ≠ UNKNOWN → sim n c F →
  (∀ K v, sound C K → look K = Some v → (let* vw := F (full C K) in Ok vw.1) = Ok v) →
  (∀ K v w, F (full C K) = Ok (v, w) → ∃ t, sym_str_value C (full C K) m s = Ok (t, w)) →
  (∀ K v w, sound C K → F (full C K) = Ok (v, w) → ca_write K !! m = Some w →
     sound C (store v K) ∧ ext K (store v K)) →
  sim n (cached look store (vw ← c; pm_mod (put_write m vw.2);; mret vw.1)) (λ V, let* vw := F V in Ok vw.1).
Proof.
  intros Hs Hty [Mc Hc] Hlook Hstr Hstore.
  assert (∀ K, sound C K → ∀ vw K1, c K = (Ok vw, K1) →
    let K2 := put_write m vw.2 K1 in
    sound C K2 ∧ ext K K2 ∧ F (full C K2) = Ok vw ∧ ca_write K2 !! m = Some vw.2) as Hrun.
  { intros K HK [v w] K1 E. specialize (Hc K HK). rewrite E in Hc. destruct Hc as (S1 & E1 & F1 & _).
    destruct (Hstr K1 v w (F1 _ eq_refl)) as [t Ht]. cbn zeta.
    split_and!; [by eapply sound_write|etrans; [exact E1|apply ext_put_write]|by apply F1|].
    cbn. by rewrite lookup_insert_eq. }
  apply sim_cached; [|done|].
  - split; [intros; apply rle_bind; [by apply Mc|intros; apply rle_refl]|]. intros K HK.
    specialize (Hc K HK). specialize (Hrun K HK). unfold mbind, PM_bind, pm_mod.
    destruct (c K) as [[vw|e] K1].
    + destruct (Hrun vw K1 eq_refl) as (S2 & E2 & F2 & _). destruct Hc as (_ & _ & _ & _ & N1). cbn.
      split_and!; [done|done|intros v [= <-]; by rewrite F2|done|].
      intros Hn. destruct (F (vals C n)) as [a|e]; cbn in *; [by injection (N1 ltac:(done)) as <-|].
      discriminate (N1 ltac:(intros [= ->]; done)).
    + destruct Hc as (S1 & E1 & _ & V1 & N1). cbn. split_and!; [done|done|done|..].
      * intros [= ->]. by destruct (V1 eq_refl).
      * intros Hn. destruct (F (vals C n)) as [a|e']; cbn in *; [by specialize (N1 ltac:(done))|].
        specialize (N1 ltac:(intros [= ->]; done)). congruence.
  - intros K v K' HK E HK' Hf. specialize (Hrun K HK). unfold mbind, PM_bind, pm_mod in E.
    destruct (c K) as [[vw|e] K1]; [|done]. cbn in E. injection E as <- <-.
    destruct (Hrun vw K1 eq_refl) as (S2 & E2 & F2 & W2). destruct vw. by eapply Hstore.
Qed.

Lemma sim_tri_value m s :
  cf_syms C !! m = Some s →
  sim n (tri_value_c C W m s) (λ V, let* tw := sym_tri_value C V m s in Ok tw.1).
Proof.
  intros Hs. unfold tri_value_c.
  assert (∀ K v, sound C K → ca_tri K !! m = Some v →
    (let* tw := sym_tri_value C (full C K) m s in Ok tw.1) = Ok v) as Hlook.
  { intros K v HK Hv. destruct (sound_full C K (KTri m) HK v Hv) as (s' & w & Hs' & Hr & _).
    simplify_eq. by rewrite Hr. }
  destruct (BOOL_TRISTATE (s_orig_type s)) eqn:Eb; cbn [negb].
  - assert (sim n (vis ← mv_vis W (SymItem false m);
                   match s_choice s with
                   | None => plain_tri_value_c C W s vis
                   | Some id => choice_sym_tri_value_c W m s id vis
                   end) (λ V, sym_tri_value C V m s)) as Hc.
    { unfold sym_tri_value. rewrite Eb. cbn [negb]. sim_solve. }
    eapply (sim_cached_write m s) in Hc; [|exact Hs|by intros Ht; rewrite Ht in Eb|exact Hlook|..].
    + revert Hc. apply sim_same; [|done]. intros K. unfold cached, mbind, PM_bind, pm_get. cbn beta iota.
      destruct (ca_tri K !! m); [done|]. by destruct (mv_vis W (SymItem false m) K) as [[] ?].
    + intros K v w Hv. exists (TRI_TO_STR v). unfold sym_str_value. rewrite Hv. by destruct (s_orig_type s).
    + intros K v w HK Hv Hw. by eapply add_tri.
  - apply sim_cached; [|exact Hlook|].
    + unfold sym_tri_value. rewrite Eb. cbn. apply sim_ret.
    + intros K v K' HK E HK' Hf. injection E as <- <-. eapply (add_tri _ _ _ s 0 false); [done|done| |].
      * unfold sym_tri_value. by rewrite Eb.
      * congruence.
Qed.
Hint Resolve sim_tri_value : sim.

Lemma cached_stored {A} (look : Cache → option A) store (c : PM Cache A) K v K' :
  (∀ v K, look (store v K) = Some v) → cached look store c K = (Ok v, K') → look K' = Some v.
Proof.
  intros Hs. unfold cached, mbind, PM_bind, pm_get, pm_mod. cbn beta iota.
  destruct (look K) eqn:El; [by intros [= <- <-]|]. destruct (c K) as [[] K1]; [|done].
  intros [= <- <-]. apply Hs.
Qed.

Lemma tri_value_stored m s K v K' : tri_value_c C W m s K = (Ok v, K') → ca_tri K' !! m = Some v.
Proof.
  apply (cached_stored (λ K, ca_tri K !! m) (put_tri m)). intros v' K0. cbn. by rewrite lookup_insert_eq.
Qed.

Lemma sim_str_text m s :
  cf_syms C !! m = Some s → BOOL_TRISTATE (s_orig_type s) = false → s_orig_type s ≠ UNKNOWN →
  sim n (str_value_c C W m s) (λ V, let* vw := sym_str_value C V m s in Ok vw.1).
Proof.
  intros Hs Hb Hu. unfold str_value_c. cbv zeta.
  set (auto := match s_env_var s with Some _ => true | None => false end ||
                 bool_decide (cf_defconfig_list C = Some m)).
  assert (sim n (vis ← mv_vis W (SymItem false m);
                 vw ← match TYPE_TO_BASE (s_orig_type s) with
                      | Some base => if INT_HEX (s_orig_type s) then int_hex_value_c C W s base vis
                                     else string_value_c C W s vis
                      | None => pm_raise (KeyError "type")
                      end;
                 mret (vw.1, if auto then false else negb (zero vis) || vw.2))
              (λ V, sym_str_value C V m s)) as Hc.
  { unfold sym_str_value. fold auto. pose proof (λ vis base, sim_int_hex m s vis base Hs) as Hi.
    destruct (s_orig_type s); try done; cbn [TYPE_TO_BASE INT_HEX] in *; sim_solve. }
  eapply (sim_cached_write m s (λ K, ca_str K !! m) (put_str m)) in Hc; [|exact Hs|exact Hu|..].
  - revert Hc. apply sim_same; [|done]. intros K.
    unfold cached, mbind, PM_bind, pm_get, pm_mod, mret, PM_ret. cbn beta iota.
    destruct (ca_str K !! m); [done|].
    destruct (s_orig_type s); try done;
      (destruct (mv_vis W (SymItem false m) K) as [[vis|] K1]; [|done]);
      cbn [TYPE_TO_BASE INT_HEX]; cbn beta iota;
      [destruct (string_value_c C W s vis K1) as [[] ?]
      |destruct (int_hex_value_c C W s _ vis K1) as [[] ?]
      |destruct (int_hex_value_c C W s _ vis K1) as [[] ?]]; done.
  - intros K v HK Hv. destruct (sound_full C K (KStr m) HK v Hv) as (s' & w & Hs' & Hr & _).
    simplify_eq. by rewrite Hr.
  - intros K v w Hv. eauto.
  - intros K v w HK Hv Hw. by eapply add_str.
Qed.

Lemma sim_str_value m s :
  cf_syms C !! m = Some s →
  sim n (str_value_c C W m s) (λ V, let* vw := sym_str_value C V m s in Ok vw.1).
Proof.
  intros Hs. destruct (decide (s_orig_type s = UNKNOWN)) as [Hu|Hu].
  { unfold str_value_c, sym_str_value. rewrite Hu. cbn. apply sim_cached; [apply sim_ret|..].
    - intros K v HK Hv. destruct (sound_full C K (KStr m) HK v Hv) as (s' & w & Hs' & Hr & _).
      simplify_eq. unfold sym_str_value in Hr. rewrite Hu in Hr. by injection Hr as <- _.
    - intros K v K' HK E HK' _. injection E as <- <-. eapply (add_str _ _ _ s m false); [done|done| |done].
      unfold sym_str_value. by rewrite Hu. }
  destruct (BOOL_TRISTATE (s_orig_type s)) eqn:Eb; [|by apply sim_str_text].
  assert (∀ V, sym_str_value C V m s = let* tw := sym_tri_value C V m s in Ok (TRI_TO_STR tw.1, tw.2)) as Heq.
  { intros V. unfold sym_str_value. by destruct (s_orig_type s). }
  assert (str_value_c C W m s = cached (λ K, ca_str K !! m) (put_str m)
            (t ← tri_value_c C W m s; mret (TRI_TO_STR t))) as ->.
  { unfold str_value_c. by destruct (s_orig_type s). }
  apply sim_cached.
  - pose proof (sim_tri_value m s Hs) as Ht.
    apply (sim_bind _ _ _ (λ t, mret (TRI_TO_STR t)) _ (λ t _, Ok (TRI_TO_STR t))) in Ht; [|intros; apply sim_ret].
    revert Ht. apply sim_same; [done|]. intros V. rewrite Heq. by destruct (sym_tri_value C V m s).
  - intros K v HK Hv. destruct (sound_full C K (KStr m) HK v Hv) as (s' & w & Hs' & Hr & _).
    simplify_eq. by rewrite Hr.
  - intros K v K' HK E HK' Hf. unfold mbind, PM_bind in E.
    destruct (tri_value_c C W m s K) as [[t|] K1] eqn:Et; [|done]. injection E as <- <-.
    apply tri_value_stored in Et.
    destruct (sound_full C K1 (KTri m) HK' t Et) as (s' & w & Hs' & Hr & Hw). simplify_eq.
    eapply (add_str _ _ _ s _ w); [done|done|by rewrite Heq, Hr|auto].
Qed.

Lemma sim_choice_tri id c : sim n (choice_tri_value_c W id c) (λ V, choice_tri_value V id c).
Proof. unfold choice_tri_value_c, choice_tri_value. cbv zeta. sim_solve. Qed.

Lemma sim_selection id c :
  cf_choices C !! id = Some c → sim n (selection_c C W id c) (λ V, selection C V id c).
Proof.
  intros Hc.
  assert (∀ l, sim n (default_selection_c C W l) (λ V, default_selection C V l)) as Hd.
  { induction l as [|[] l IH]; cbn [default_selection_c default_selection]; sim_solve. }
  assert (∀ l, sim n (first_visible_c W l) (λ V, first_visible V l)) as Hf.
  { induction l as [|? l IH]; cbn [first_visible_c first_visible]; sim_solve. }
  assert (sim n (selection_from_defaults_c C W c) (λ V, selection_from_defaults C V c)) as Hs.
  { unfold selection_from_defaults_c, selection_from_defaults. sim_solve. }
  unfold selection_c. apply sim_cached.
  - unfold selection. sim_solve.
  - intros K v HK Hv. destruct (sound_full C K (KSel id) HK v Hv) as (c' & ? & ?). by simplify_eq.
  - intros K v K' HK _ HK' Hv. by eapply add_sel.
Qed.

Lemma sim_no_m s : sim n (no_m_c C W s) (λ V, no_m C V s).
Proof. unfold no_m_c, no_m, implied_y_c, implied_y. sim_solve. Qed.
Hint Resolve sim_no_m : sim.

Lemma sim_sym_assignable m s :
  cf_syms C !! m = Some s → sim n (sym_assignable_c C W m s) (λ V, sym_assignable C V m s).
Proof.
  intros Hs. unfold sym_assignable_c. apply sim_cached.
  - unfold sym_assignable, implied_y_c, implied_y. sim_solve.
  - intros K v HK Hv. pose proof (sound_full C K (KAss (Sym m)) HK v Hv) as H. cbn in H. by rewrite Hs in H.
  - intros K v K' HK _ HK' Hv. apply add_ass; [done|]. cbn. by rewrite Hs.
Qed.
Lemma sim_choice_assignable id c :
  cf_choices C !! id = Some c → sim n (choice_assignable_c W id c) (λ V, choice_assignable V id c).
Proof.
  intros Hc. unfold choice_assignable_c. apply sim_cached.
  - unfold choice_assignable. sim_solve.
  - intros K v HK Hv. pose proof (sound_full C K (KAss (Cho id)) HK v Hv) as H. cbn in H. by rewrite Hc in H.
  - intros K v K' HK _ HK' Hv. apply add_ass; [done|]. cbn. by rewrite Hc.
Qed.

(** *** Any item, and the entry it leaves *)

Lemma sim_item_vis i :
  sim n (item_vis_c C W i) (λ V, item_vis C V i) ∧
  (∀ K v K', item_vis_c C W i K = (Ok v, K') → v_vis (full C K') i = Ok v).
Proof.
  destruct i as [[] m|id nm]; cbn [item_vis_c item_vis full oracle v_vis o_vis].
  - split; [apply sim_ret|]. by intros K v K' [= <- <-].
  - destruct (cf_syms C !! m) as [s|] eqn:Hs; [|split; [apply sim_ret|by intros K v K' [= <- <-]]]. split.
    + apply sim_cached; [by apply sim_sym_visibility|..].
      * intros K v HK Hv. pose proof (sound_full C K (KVis (Sym m)) HK v Hv) as H. cbn in H. by rewrite Hs in H.
      * intros K v K' HK _ HK' Hv. apply add_vis; [done|]. cbn. by rewrite Hs.
    + intros K v K' H. unfold guard.
      eapply (cached_stored (λ K, ca_vis K !! Sym m)) in H; [|intros; cbn; by rewrite lookup_insert_eq].
      cbn beta in H. by rewrite H.
  - destruct (cf_choices C !! id) as [c|] eqn:Hc; [|split; [apply sim_ret|by intros K v K' [= <- <-]]]. split.
    + apply sim_cached; [by apply sim_choice_visibility|..].
      * intros K v HK Hv. pose proof (sound_full C K (KVis (Cho id)) HK v Hv) as H. cbn in H. by rewrite Hc in H.
      * intros K v K' HK _ HK' Hv. apply add_vis; [done|]. cbn. by rewrite Hc.
    + intros K v K' H. unfold guard.
      eapply (cached_stored (λ K, ca_vis K !! Cho id)) in H; [|intros; cbn; by rewrite lookup_insert_eq].
      cbn beta in H. by rewrite H.
Qed.

Lemma sim_item_str i :
  sim n (item_str_c C W i) (λ V, item_str C V i) ∧
  (∀ K v K', sound C K → item_str_c C W i K = (Ok v, K') → v_str (full C K') i = Ok v).
Proof.
  destruct i as [[] m|id nm]; cbn [item_str_c item_str].
  - split; [apply sim_ret|]. by intros K v K' _ [= <- <-].
  - cbn [full oracle v_str o_str].
    destruct (cf_syms C !! m) as [s|] eqn:Hs; [|split; [apply sim_ret|by intros K v K' _ [= <- <-]]].
    split; [by apply sim_str_value|]. intros K v K' _ H. unfold guard. unfold str_value_c in H.
    eapply (cached_stored (λ K, ca_str K !! m)) in H; [|intros; cbn; by rewrite lookup_insert_eq].
      cbn beta in H. by rewrite H.
  - assert (sim n (t ← mv_tri W (choice_item id); mret (TRI_TO_STR t))
      (λ V, let* t := v_tri V (choice_item id) in Ok (TRI_TO_STR t))) as Hc by sim_solve.
    split; [exact Hc|]. intros K v K' HK H. destruct Hc as [_ Hc]. specialize (Hc K HK). rewrite H in Hc.
    destruct Hc as (_ & _ & Hf & _). exact (Hf v eq_refl).
Qed.

(** The value of a choice depends on answers for its visibility and MODULES
    only; the caches have them. *)
Lemma choice_tri_base K id c v :
  choice_tri_value (full C K) id c = Ok v → choice_tri_value (o_base C K (λ _, true)) id c = Ok v.
Proof. done. Qed.

Lemma sim_item_tri i :
  sim n (item_tri_c C W i) (λ V, item_tri C V i) ∧
  (∀ K v K', sound C K → item_tri_c C W i K = (Ok v, K') → v_tri (full C K') i = Ok v).
Proof.
  destruct i as [[] m|id nm]; cbn [item_tri_c item_tri full oracle v_tri o_tri o_sym_tri].
  - split; [apply sim_ret|]. by intros K v K' _ [= <- <-].
  - destruct (cf_syms C !! m) as [s|] eqn:Hs; [|split; [apply sim_ret|by intros K v K' _ [= <- <-]]].
    split; [by apply sim_tri_value|]. intros K v K' _ H. unfold guard. by rewrite (tri_value_stored _ _ _ _ _ H).
  - destruct (cf_choices C !! id) as [c|] eqn:Hc; [|split; [apply sim_ret|by intros K v K' _ [= <- <-]]].
    split; [apply sim_choice_tri|]. intros K v K' HK H. apply choice_tri_base.
    destruct (sim_choice_tri id c) as [_ Hs]. specialize (Hs K HK). rewrite H in Hs.
    destruct Hs as (_ & _ & Hf & _). by apply Hf.
Qed.

Lemma sim_item_sel id :
  sim n (item_sel_c C W id) (λ V, item_sel C V id) ∧
  (∀ K v K', item_sel_c C W id K = (Ok v, K') → v_sel (full C K') id = Ok v).
Proof.
  unfold item_sel_c, item_sel. cbn [full oracle v_sel]. unfold o_sel.
  destruct (cf_choices C !! id) as [c|] eqn:Hc; [|split; [apply sim_ret|by intros K v K' [= <- <-]]].
  split; [by apply sim_selection|]. intros K v K' H. unfold guard. unfold selection_c in H.
  eapply (cached_stored (λ K, ca_sel K !! id)) in H; [|intros; cbn; by rewrite lookup_insert_eq].
      cbn beta in H. by rewrite H.
Qed.

(** One more level. *)
Lemma sim_next {A} (c : PM Cache A) f g :
  (∀ V V', vle V V' → rle (g V) (g V')) → f (vals C n) = g (vals C (S n)) →
  sim n c f → (∀ K v K', sound C K → c K = (Ok v, K') → g (full C K') = Ok v) → sim (S n) c g.
Proof.
  intros Hg Hf [_ Hc] Hs. split; [done|]. intros K HK. specialize (Hc K HK). specialize (Hs K).
  destruct (c K) as [r K']. destruct Hc as (S1 & E1 & _ & V1 & N1). split_and!; [done|done| | |].
  - intros v ->. by apply Hs.
  - intros ->. by destruct (V1 eq_refl).
  - by rewrite <- Hf.
Qed.
End level.

(** The properties through the caches, at every level. *)
Lemma mvals_sim n :
  (∀ i, sim n (mv_tri (mvals C n) i) (λ V, v_tri V i)) ∧
  (∀ i, sim n (mv_str (mvals C n) i) (λ V, v_str V i)) ∧
  (∀ i, sim n (mv_vis (mvals C n) i) (λ V, v_vis V i)) ∧
  (∀ id, sim n (mv_sel (mvals C n) id) (λ V, v_sel V id)).
Proof using HC.
  induction n as [|n (IT & IS & IV & IL)].
  { split_and!; intros i; (split; [intros V V' []; auto|]); intros K HK; cbn; split_and!; done. }
  split_and!; intros i; cbn [mvals mvals_step mv_tri mv_str mv_vis mv_sel].
  - destruct (sim_item_tri n (mvals C n) IT IS IV IL i) as [H1 H2].
    eapply sim_next; [intros V V' []; auto| |exact H1|exact H2]. done.
  - destruct (sim_item_str n (mvals C n) IT IS IV IL i) as [H1 H2].
    eapply sim_next; [intros V V' []; auto| |exact H1|exact H2]. done.
  - destruct (sim_item_vis n (mvals C n) IT IS i) as [H1 H2].
    eapply sim_next; [intros V V' []; auto| |exact H1|]; [done|]. intros K v K' _. apply H2.
  - destruct (sim_item_sel n (mvals C n) IT IS IV i) as [H1 H2].
    eapply sim_next; [intros V V' []; auto| |exact H1|]; [done|]. intros K v K' _. apply H2.
Qed.
End reading.

End KCacheSpec.
