(* ===== verification/KInval.v ===== *)
(** * Invalidation keeps the caches sound

    [_rec_invalidate] ends; afterwards an item has lost all of its cached
    values or none, and every item that depends on one that lost them has no
    cached visibility.  From this, setting or unsetting user values leaves a
    sound cache for the new configuration: what is read later is what an
    uncached computation gives. *)
From S2P Require Import Prelude Hex PyStr KExpr KSym KParseSpec KSymSpec KFix KDep KDepSpec.
From S2P Require Import KConfSpec KCache KCacheSpec.

Module KInval.
Import Hex PyStr KExpr KSym KParseSpec KSymSpec KFix KDep KDepSpec KCache KCacheSpec.

(** ** Items with and without cached values *)

Definition same_at (K K' : Cache) (x : sc) : Prop :=
  ca_vis K' !! x = ca_vis K !! x ∧ ca_ass K' !! x = ca_ass K !! x ∧
  match x with
  | Sym n => ca_tri K' !! n = ca_tri K !! n ∧ ca_str K' !! n = ca_str K !! n
  | Cho id => ca_sel K' !! id = ca_sel K !! id
  end.
Definition gone (K : Cache) (x : sc) : Prop :=
  ca_vis K !! x = None ∧ ca_ass K !! x = None ∧
  match x with
  | Sym n => ca_tri K !! n = None ∧ ca_str K !! n = None
  | Cho id => ca_sel K !! id = None
  end.

(** Items keep their cached values or lose all of them. *)
Definition shrinks (K K' : Cache) : Prop :=
  ca_write K' = ca_write K ∧ ∀ x, same_at K K' x ∨ gone K' x.

Lemma same_at_dec K K' x : same_at K K' x ∨ ¬ same_at K K' x.
Proof.
  unfold same_at. destruct (decide (ca_vis K' !! x = ca_vis K !! x)); [|tauto].
  destruct (decide (ca_ass K' !! x = ca_ass K !! x)); [|tauto]. destruct x as [n|id].
  - destruct (decide (ca_tri K' !! n = ca_tri K !! n)); [|tauto].
    destruct (decide (ca_str K' !! n = ca_str K !! n)); tauto.
  - destruct (decide (ca_sel K' !! id = ca_sel K !! id)); tauto.
Qed.
Lemma same_at_trans K1 K2 K3 x : same_at K1 K2 x → same_at K2 K3 x → same_at K1 K3 x.
Proof.
  unfold same_at. intros (? & ? & H1) (? & ? & H2). split_and!; [congruence..|].
  destruct x; [destruct H1, H2; split|]; congruence.
Qed.
Lemma same_at_gone K K' x : same_at K K' x → gone K x → gone K' x.
Proof.
  unfold same_at, gone. intros (? & ? & H1) (? & ? & H2). split_and!; [congruence..|].
  destruct x; [destruct H1, H2; split|]; congruence.
Qed.
Lemma gone_same K K' x : gone K x → gone K' x → same_at K K' x.
Proof.
  unfold same_at, gone. intros (? & ? & H1) (? & ? & H2). split_and!; [congruence..|].
  destruct x; [destruct H1, H2; split|]; congruence.
Qed.

#[global] Instance shrinks_preorder : PreOrder shrinks.
Proof.
  split; [intros K; split; [done|]; intros x; left; split_and!; try done; by destruct x|].
  intros K1 K2 K3 [W1 H1] [W2 H2]. split; [congruence|]. intros x.
  destruct (H2 x) as [E2|]; [|by right]. destruct (H1 x) as [E1|E1]; [left|right].
  - by eapply same_at_trans.
  - by eapply same_at_gone.
Qed.

Lemma shrinks_vis K K' x : shrinks K K' → ca_vis K !! x = None → ca_vis K' !! x = None.
Proof. intros [_ H] E. destruct (H x) as [(-> & _)|(-> & _)]; done. Qed.
Lemma shrinks_gone K K' x : shrinks K K' → gone K x → gone K' x.
Proof. intros [_ H] E. destruct (H x) as [Hs|]; [by eapply same_at_gone|done]. Qed.

Lemma invalidate_gone x K : gone (invalidate x K) x.
Proof. destruct x; unfold gone; cbn; by rewrite !lookup_delete_eq. Qed.
Lemma invalidate_other x y K : y ≠ x → same_at K (invalidate x K) y.
Proof.
  intros Hn. unfold same_at.
  destruct x as [n|id], y as [m|jd]; cbn; rewrite ?lookup_delete_ne by congruence; done.
Qed.
Lemma invalidate_shrinks x K : shrinks K (invalidate x K).
Proof.
  split; [by destruct x|]. intros y. destruct (decide (y = x)) as [->|]; [right|left].
  - apply invalidate_gone.
  - by apply invalidate_other.
Qed.

(** ** _rec_invalidate *)

Section rec.
Context (C : Conf) (D : Deps) (iter : gset sc → list sc).
Context (Hiter : ∀ X x, x ∈ iter X ↔ x ∈ X).

Definition defined_sc (x : sc) : Prop :=
  match x with Sym n => n ∈ cf_unique C | Cho id => id < length (cf_choices C) end.
Context (HD : ∀ x y, y ∈ dependents D x → defined_sc y).

(** Nothing that depends on [y] has a cached visibility. *)
Definition settled (K : Cache) (y : sc) : Prop :=
  (∀ d, d ∈ dependents D y → ca_vis K !! d = None) ∧
  (y = Sym "MODULES" → ∀ d, defined_sc d → gone K d).

(** Every item that changed is settled. *)
Definition settles (K K' : Cache) : Prop := shrinks K K' ∧ ∀ y, ¬ same_at K K' y → settled K' y.

Lemma settled_shrinks K K' y : shrinks K K' → settled K y → settled K' y.
Proof.
  intros Hs [H1 H2]. split; [intros d Hd; eapply shrinks_vis; eauto|].
  intros E d Hd. eapply shrinks_gone; eauto.
Qed.
Lemma settles_trans K1 K2 K3 : settles K1 K2 → settles K2 K3 → settles K1 K3.
Proof.
  intros [S1 H1] [S2 H2]. split; [by etrans|]. intros y Hy.
  destruct (same_at_dec K2 K3 y) as [E|E]; [|by apply H2].
  eapply settled_shrinks; [exact S2|]. apply H1. intros E1. by apply Hy, (same_at_trans _ K2).
Qed.
Lemma settles_refl K : settles K K.
Proof. split; [done|]. intros y []. split_and!; try done. by destruct y. Qed.

Lemma invalidate_all_spec K :
  shrinks K (invalidate_all C K) ∧ ∀ d, defined_sc d → gone (invalidate_all C K) d.
Proof.
  unfold invalidate_all.
  assert (∀ (l : list sc) K, shrinks K (foldl (λ K x, invalidate x K) K l) ∧
    ∀ d, d ∈ l → gone (foldl (λ K x, invalidate x K) K l) d) as H.
  { clear. induction l as [|x l IH]; intros K; [split; [done|]; by intros ? ?%not_elem_of_nil|].
    destruct (IH (invalidate x K)) as [H1 H2]. cbn [foldl]. split.
    - etrans; [apply invalidate_shrinks|done].
    - intros d [->|Hd]%elem_of_cons; [|auto]. eapply shrinks_gone; [exact H1|apply invalidate_gone]. }
  assert (∀ {B} (f : B → sc) (l : list B) K,
    foldl (λ K b, invalidate (f b) K) K l = foldl (λ K x, invalidate x K) K (f <$> l)) as Hf.
  { clear. intros B f l. induction l as [|b l IH]; intros K; [done|]. cbn. apply IH. }
  rewrite (Hf _ Sym), (Hf _ Cho), <- foldl_app.
  match goal with |- context [foldl _ K ?l] => destruct (H l K) as [H1 H2] end.
  split; [done|]. intros [n|id] Hd; apply H2; rewrite elem_of_app, !list_elem_of_fmap; [left|right]; eexists; (split; [done|]); [done|].
  apply elem_of_seq. cbn in Hd. lia.
Qed.

(** How many cached visibilities there are, and one more for an item that has
    none. *)
Definition calls (K : Cache) (x : sc) : nat :=
  size (ca_vis K) + (match ca_vis K !! x with Some _ => 0 | None => 1 end).

Lemma calls_invalidate x K : size (ca_vis (invalidate x K)) + 1 = calls K x.
Proof.
  unfold calls. assert (ca_vis (invalidate x K) = delete x (ca_vis K)) as -> by (by destruct x).
  destruct (ca_vis K !! x) as [v|] eqn:E.
  - rewrite map_size_delete_Some by eauto. assert (size (ca_vis K) ≠ 0); [|lia].
    intros H%map_size_empty_inv. by rewrite H, lookup_empty in E.
  - rewrite map_size_delete_None by done. lia.
Qed.

Lemma shrinks_size K K' : shrinks K K' → size (ca_vis K') ≤ size (ca_vis K).
Proof.
  intros [_ H]. apply map_subseteq_size, map_subseteq_spec. intros x v Hv.
  destruct (H x) as [(E & _)|(E & _)]; congruence.
Qed.

(** The loop over the dependents, given that the calls it makes work. *)
Lemma invalidate_loop fuel l K1 :
  (∀ x K, calls K x ≤ fuel → ∃ K', rec_invalidate C D iter fuel x K = Ok K' ∧ settles K K' ∧
     (defined_sc x → gone K' x)) →
  size (ca_vis K1) ≤ fuel → (∀ d, d ∈ l → defined_sc d) →
  ∃ K', res_fold (λ K y, match ca_vis K !! y with
          | Some _ => rec_invalidate C D iter fuel y K | None => Ok K end) K1 l = Ok K' ∧
    settles K1 K' ∧ ∀ d, d ∈ l → ca_vis K' !! d = None.
Proof.
  intros IH. revert K1. induction l as [|y l IHl]; intros K1 Hs Hl.
  { exists K1. split; [done|]. split; [apply settles_refl|]. by intros ? ?%not_elem_of_nil. }
  cbn [res_fold].
  assert (∃ K2, match ca_vis K1 !! y with
    | Some _ => rec_invalidate C D iter fuel y K1 | None => Ok K1 end = Ok K2 ∧ settles K1 K2 ∧
    ca_vis K2 !! y = None) as (K2 & -> & S2 & G2).
  { destruct (ca_vis K1 !! y) eqn:Ey; [|exists K1; split_and!; auto using settles_refl].
    destruct (IH y K1) as (K2 & E2 & S2 & G2); [unfold calls; rewrite Ey; lia|].
    exists K2. split_and!; try done. apply G2, Hl. by left. }
  cbn [res_bind]. destruct (IHl K2) as (K3 & E3 & S3 & G3).
  { etrans; [apply shrinks_size, S2|done]. }
  { intros d Hd. apply Hl. by right. }
  exists K3. split; [done|]. split; [by eapply settles_trans|].
  intros d [->|Hd]%elem_of_cons; [|auto]. eapply shrinks_vis; [apply S3|done].
Qed.

Lemma rec_invalidate_spec fuel x K :
  calls K x ≤ fuel →
  ∃ K', rec_invalidate C D iter fuel x K = Ok K' ∧ settles K K' ∧
        (defined_sc x → gone K' x) ∧ settled K' x.
Proof using Hiter HD.
  revert x K; induction fuel as [|fuel IH]; intros x K Hf.
  { pose proof (calls_invalidate x K). lia. }
  cbn [rec_invalidate]. destruct (decide (x = Sym "MODULES")) as [->|Hx].
  - destruct (invalidate_all_spec K) as [H1 H2]. eexists. split; [done|].
    assert (∀ y, settled (invalidate_all C K) y) as Hs.
    { intros y. split; [|auto]. intros d Hd. apply H2. eauto. }
    split_and!; [by split|auto|done].
  - destruct (invalidate_loop fuel (iter (dependents D x)) (invalidate x K)) as (K' & E & S & G).
    { intros y K1 Hy. destruct (IH y K1 Hy) as (K2 & ? & ? & ? & _). eauto. }
    { pose proof (calls_invalidate x K). lia. }
    { intros d Hd%Hiter. by eapply HD. }
    exists K'. split; [done|].
    assert (settled K' x) as Hsx by (split; [intros d Hd; by apply G, Hiter|done]).
    destruct S as [S1 S2]. split_and!; [|intros _; eapply shrinks_gone; [done|apply invalidate_gone]|done].
    split; [etrans; [apply invalidate_shrinks|done]|]. intros y Hy.
    destruct (decide (y = x)) as [->|Hn]; [done|]. apply S2. intros E1. apply Hy.
    eapply same_at_trans; [by apply invalidate_other|done].
Qed.

Lemma invalidate_from_spec x K :
  ∃ K', invalidate_from C D iter x K = Ok K' ∧ settles K K' ∧ (defined_sc x → gone K' x) ∧ settled K' x.
Proof using Hiter HD.
  apply rec_invalidate_spec. unfold calls, invalidate_fuel. destruct (_ !! _); lia.
Qed.

End rec.

(** ** What properties are computed from *)

Lemma res_bind_ext {A B} (m1 m2 : res A) (k1 k2 : A → res B) :
  m1 = m2 → (∀ a, k1 a = k2 a) → res_bind m1 k1 = res_bind m2 k2.
Proof. intros <- Hk. destruct m1; cbn; auto. Qed.

Create HintDb agree discriminated.
Ltac agree_step :=
  match goal with
  | |- res_bind _ _ = res_bind _ _ => apply res_bind_ext; [|intros ?]
  | |- ?a = ?a => reflexivity
  | |- (if ?b then _ else _) = (if ?b then _ else _) => destruct b
  | |- (match ?x with _ => _ end) = (match ?x with _ => _ end) => destruct x eqn:?
  end.
Ltac agree_solve := repeat (first [solve [eauto 4 with agree] | agree_step]).

Section agree.
Context (C C' : Conf) (V V' : Vals) (L : sc → Prop).
Context (Htype : ∀ i, orig_type C' i = orig_type C i).
Context (Hdef : cf_defconfig_list C' = cf_defconfig_list C).
Context (Htri : ∀ i, (∀ x, item_sc i = Some x → L x) → v_tri V' i = v_tri V i).
Context (Hstr : ∀ i, (∀ x, item_sc i = Some x → L x) → v_str V' i = v_str V i).
Context (Hmod : v_tri V' modules = v_tri V modules).

Definition inside (l : list sc) : Prop := ∀ x, x ∈ l → L x.
Lemma inside_app l1 l2 : inside (l1 ++ l2) ↔ inside l1 ∧ inside l2.
Proof using. clear. unfold inside. setoid_rewrite elem_of_app. naive_solver. Qed.

Lemma inside_item i : inside (omap item_sc [i]) → v_tri V' i = v_tri V i ∧ v_str V' i = v_str V i.
Proof using Htri Hstr.
  intros H. assert (∀ x, item_sc i = Some x → L x) as Hi.
  { intros x Hx. apply H. cbn. rewrite Hx. by left. }
  auto.
Qed.
Lemma inside_items i j :
  inside (omap item_sc [i; j]) →
  (v_tri V' i = v_tri V i ∧ v_str V' i = v_str V i) ∧ v_tri V' j = v_tri V j ∧ v_str V' j = v_str V j.
Proof using Htri Hstr.
  change [i; j] with ([i] ++ [j]). rewrite omap_app. intros [H1 H2]%inside_app.
  split; by apply inside_item.
Qed.

Lemma value_agree e : inside (refs e) → value C' V' e = value C V e.
Proof using Htri Hstr Htype.
  unfold value, refs. induction e as [i|e1 IH1 e2 IH2|e1 IH1 e2 IH2|e IH|r i j];
    cbn [expr_value expr_items]; rewrite ?omap_app, ?inside_app; intros H.
  - by apply inside_item.
  - destruct H. rewrite IH1, IH2 by done. done.
  - destruct H. rewrite IH1, IH2 by done. done.
  - by rewrite IH.
  - apply inside_items in H as ((T1 & S1) & T2 & S2).
    unfold compare_items, sym_to_num, by_strcmp. cbn [env e_type e_tri e_str].
    by rewrite !Htype, T1, T2, S1, S2.
Qed.
Hint Resolve value_agree : agree.

Lemma prompts_agree nodes vis : inside (prompt_refs nodes) → prompts_vis C' V' nodes vis = prompts_vis C V nodes vis.
Proof using Htri Hstr Htype.
  revert vis. induction nodes as [|[[t cond]|] nodes IH]; intros vis H; [done| |by apply IH].
  cbn in H. apply inside_app in H as [H1 H2]. cbn [prompts_vis].
  apply res_bind_ext; [by apply value_agree|]. intros v. by apply IH.
Qed.
Hint Resolve prompts_agree : agree.

Lemma choice_type_agree c : choice_type V' c = choice_type V c.
Proof using Hmod. unfold choice_type. by rewrite Hmod. Qed.
Lemma choice_visibility_agree c :
  inside (choice_refs c) → choice_visibility C' V' c = choice_visibility C V c.
Proof using Htri Hstr Htype Hmod.
  intros [H _]%inside_app. unfold choice_visibility, promote_vis. rewrite choice_type_agree. agree_solve.
Qed.

Section choice.
Context (id : nat) (c : Choice).
Context (Hvis : v_vis V' (choice_item id) = v_vis V (choice_item id)).

Lemma choice_tri_agree : choice_tri_value V' id c = choice_tri_value V id c.
Proof using Hmod Hvis. unfold choice_tri_value. by rewrite Hvis, choice_type_agree. Qed.
Lemma choice_assignable_agree : choice_assignable V' id c = choice_assignable V id c.
Proof using Hmod Hvis. unfold choice_assignable. by rewrite Hvis, choice_type_agree. Qed.

Lemma selection_agree :
  inside (choice_refs c) → v_tri V' (choice_item id) = v_tri V (choice_item id) →
  (∀ n, n ∈ c_syms c ++ (c_defaults c).*1 ++ option_list (c_user_selection c) →
     v_vis V' (sym_item n) = v_vis V (sym_item n)) →
  selection C' V' id c = selection C V id c.
Proof using Htri Hstr Htype.
  intros [_ Hd]%inside_app Ht Hv. setoid_rewrite elem_of_app in Hv. setoid_rewrite elem_of_app in Hv.
  assert (default_selection C' V' (c_defaults c) = default_selection C V (c_defaults c)) as H1.
  { assert (∀ n, n ∈ (c_defaults c).*1 → v_vis V' (sym_item n) = v_vis V (sym_item n)) as Hv' by auto.
    clear Hv. induction (c_defaults c) as [|[n cond] l IH]; [done|]. cbn in Hd.
    apply inside_app in Hd as [D1 D2]. cbn [default_selection].
    rewrite (value_agree cond D1), (Hv' n) by (by left). rewrite IH; [done..|].
    intros m Hm. apply Hv'. by right. }
  assert (first_visible V' (c_syms c) = first_visible V (c_syms c)) as H2.
  { assert (∀ n, n ∈ c_syms c → v_vis V' (sym_item n) = v_vis V (sym_item n)) as Hv' by auto.
    clear Hv. induction (c_syms c) as [|n l IH]; [done|]. cbn [first_visible].
    rewrite (Hv' n) by (by left). rewrite IH; [done|]. intros m Hm. apply Hv'. by right. }
  unfold selection, selection_from_defaults. rewrite Ht, H1, H2.
  destruct (c_user_selection c) as [n|]; [|done]. rewrite (Hv n); [done|]. right. right. by left.
Qed.
End choice.

Section symbol.
Context (n : string) (s : Symbol).
Context (Hrefs : inside (sym_refs s)).
Context (Hchoice : ∀ id, s_choice s = Some id →
  v_tri V' (choice_item id) = v_tri V (choice_item id) ∧ v_sel V' id = v_sel V id).

Lemma sym_type_agree : sym_type V' s = sym_type V s.
Proof using Hmod Hchoice.
  unfold sym_type. rewrite Hmod. destruct (s_choice s) as [id|]; [|done].
  by rewrite (proj1 (Hchoice id eq_refl)).
Qed.
Lemma sym_visibility_agree : sym_visibility C' V' s = sym_visibility C V s.
Proof using Htri Hstr Htype Hmod Hchoice Hrefs.
  pose proof Hrefs as [H _]%inside_app. unfold sym_visibility, promote_vis, mode_hides.
  rewrite sym_type_agree, prompts_agree by done. destruct (s_choice s) as [id|]; [|done].
  by rewrite Htype, (proj1 (Hchoice id eq_refl)).
Qed.

Lemma values_inside :
  inside (s_defaults s ≫= λ vc, refs vc.1 ++ refs vc.2) ∧ inside (refs (s_rev_dep s)) ∧
  inside (refs (s_weak_rev_dep s)) ∧
  inside (s_ranges s ≫= λ r, omap item_sc [r.1.1; r.1.2] ++ refs r.2) ∧ inside (refs (s_direct_dep s)).
Proof using Hrefs.
  pose proof Hrefs as H. unfold sym_refs in H. rewrite !inside_app in H.
  by destruct H as (_ & ? & ? & ? & ? & ?).
Qed.

Lemma defaults_agree :
  tri_default C' V' (s_defaults s) = tri_default C V (s_defaults s) ∧
  str_default_value C' V' (s_defaults s) = str_default_value C V (s_defaults s).
Proof using Htri Hstr Htype Hrefs.
  destruct values_inside as [H _]. induction (s_defaults s) as [|[d cond] l IH]; [done|].
  cbn in H. apply inside_app in H as [[H1 H2]%inside_app H3]. destruct (IH H3) as [I1 I2].
  cbn [tri_default str_default_value]. rewrite I1, I2, (value_agree d H1), (value_agree cond H2).
  split; [done|]. destruct d as [i| | | |]; try done. cbn [expr_str_value].
  by rewrite (proj2 (inside_item i H1)).
Qed.

Lemma active_range_agree b : active_range C' V' b (s_ranges s) = active_range C V b (s_ranges s).
Proof using Htri Hstr Htype Hrefs.
  destruct values_inside as (_ & _ & _ & H & _). induction (s_ranges s) as [|[[lo hi] cond] l IH]; [done|].
  cbn [mbind list_bind] in H. apply inside_app in H as [[H1 H2]%inside_app H3].
  apply inside_items in H1 as ((_ & S1) & _ & S2).
  cbn [active_range fst snd] in *. by rewrite (value_agree cond H2), IH, S1, S2.
Qed.

Context (Hvis : v_vis V' (sym_item n) = v_vis V (sym_item n)).

Lemma sym_tri_agree : sym_tri_value C' V' n s = sym_tri_value C V n s.
Proof using Htri Hstr Htype Hmod Hchoice Hrefs Hvis.
  destruct values_inside as (_ & H1 & H2 & _ & H3). destruct defaults_agree as [H4 _].
  unfold sym_tri_value, plain_tri_value, default_or_imply, promote_val, choice_sym_tri_value.
  change (SymItem false n) with (sym_item n).
  rewrite Hvis, sym_type_agree, (value_agree _ H1), (value_agree _ H2), (value_agree _ H3), H4.
  destruct (s_choice s) as [id|]; [|done]. by rewrite (proj2 (Hchoice id eq_refl)).
Qed.
Lemma sym_str_agree : sym_str_value C' V' n s = sym_str_value C V n s.
Proof using Htri Hstr Htype Hmod Hchoice Hrefs Hvis Hdef.
  unfold sym_str_value, int_hex_value, string_value, num_default, string_default.
  change (SymItem false n) with (sym_item n).
  rewrite sym_tri_agree, Hvis, Hdef, (proj2 defaults_agree).
  destruct (s_orig_type s); try done; cbn [TYPE_TO_BASE INT_HEX]; by rewrite ?active_range_agree.
Qed.
Lemma sym_assignable_agree : sym_assignable C' V' n s = sym_assignable C V n s.
Proof using Htri Hstr Htype Hmod Hchoice Hrefs Hvis.
  destruct values_inside as (_ & H1 & H2 & _). unfold sym_assignable, no_m, implied_y.
  by rewrite Hvis, sym_type_agree, (value_agree _ H1), (value_agree _ H2).
Qed.
End symbol.
End agree.

(** ** Configurations that differ in user values *)

Definition same_choice (c c' : Choice) : Prop :=
  c' = set_choice_user c (c_user_value c') (c_user_selection c') (c_was_set c').

Record users (C C' : Conf) : Prop := {
  us_syms n : option_Forall2 same_defs (cf_syms C !! n) (cf_syms C' !! n);
  us_choices id : option_Forall2 same_choice (cf_choices C !! id) (cf_choices C' !! id);
  us_unique : cf_unique C' = cf_unique C;
  us_defconfig : cf_defconfig_list C' = cf_defconfig_list C
}.

(** The configuration is wired up as finalization leaves it: symbols that are
    not defined have no properties, a choice symbol refers to its choice and
    is listed there, and a choice only has its own symbols as defaults. *)
Record wired (C : Conf) : Prop := {
  wd_undefined n s : cf_syms C !! n = Some s → n ∉ cf_unique C →
    s_orig_type s = UNKNOWN ∧ s_nodes s = [] ∧ s_choice s = None;
  wd_choice n s id : cf_syms C !! n = Some s → s_choice s = Some id →
    is_Some (cf_choices C !! id) ∧ Cho id ∈ sym_refs s;
  wd_member n s id c : cf_syms C !! n = Some s → s_choice s = Some id → cf_choices C !! id = Some c →
    n ∈ c_syms c;
  wd_default id c n : cf_choices C !! id = Some c → n ∈ (c_defaults c).*1 → n ∈ c_syms c
}.

(** What the dependents have to contain. *)
Record deps_ok (C : Conf) (D : Deps) : Prop := {
  dp_sym n s x : n ∈ cf_unique C → cf_syms C !! n = Some s → x ∈ sym_refs s → Sym n ∈ dependents D x;
  dp_choice id c x : cf_choices C !! id = Some c → x ∈ choice_refs c → Cho id ∈ dependents D x;
  dp_member id c n : cf_choices C !! id = Some c → n ∈ c_syms c → Cho id ∈ dependents D (Sym n);
  dp_defined x y : y ∈ dependents D x → defined_sc C y
}.

Lemma add_choice_deps_spec C D x y :
  y ∈ dependents (add_choice_deps C D) x ↔
  y ∈ dependents D x ∨ ∃ id c n, y = Cho id ∧ x = Sym n ∧ cf_choices C !! id = Some c ∧ n ∈ c_syms c.
Proof.
  unfold add_choice_deps.
  rewrite (foldl_deps _ (λ id, match cf_choices C !! id with
                               | Some c => [(Cho id, Sym <$> c_syms c)] | None => [] end)).
  2: { intros D0 id x' z. destruct (cf_choices C !! id) as [c|]; [|setoid_rewrite elem_of_nil; naive_solver].
       assert (∀ l D0, z ∈ dependents (foldl (λ D n, add_dep D (Sym n) (Cho id)) D0 l) x' ↔
         z ∈ dependents D0 x' ∨ z = Cho id ∧ x' ∈ Sym <$> l) as H.
       { induction l as [|n l IH]; intros D1; cbn [foldl fmap list_fmap].
         - rewrite elem_of_nil. naive_solver.
         - rewrite IH, add_dep_spec, elem_of_cons. naive_solver. }
       rewrite H. setoid_rewrite list_elem_of_singleton. naive_solver. }
  split.
  - intros [?|(id & l & Hid & Hl & Hx)]; [by left|right].
    destruct (cf_choices C !! id) as [c|] eqn:E; [|by apply not_elem_of_nil in Hl].
    apply list_elem_of_singleton in Hl as [= -> ->]. apply list_elem_of_fmap in Hx as (n & -> & Hn).
    by exists id, c, n.
  - intros [?|(id & c & n & -> & -> & Hc & Hn)]; [by left|right].
    exists id, (Sym <$> c_syms c). rewrite Hc, list_elem_of_singleton. split_and!; [|done|].
    + apply elem_of_seq. apply lookup_lt_Some in Hc. lia.
    + apply list_elem_of_fmap. eauto.
Qed.

(** [_build_dep] and [_add_choice_deps] give enough dependents. *)
Lemma built_deps_ok C : deps_ok C (add_choice_deps C (build_dep C)).
Proof.
  split.
  - intros n s x Hn Hs Hx. rewrite add_choice_deps_spec, build_dep_spec. left. left. eauto 6.
  - intros id c x Hc Hx. rewrite add_choice_deps_spec, build_dep_spec. left. right. eauto.
  - intros id c n Hc Hn. rewrite add_choice_deps_spec. right. eauto 8.
  - intros x y. rewrite add_choice_deps_spec, build_dep_spec.
    intros [[(n & s & -> & ? & _)|(id & c & -> & Hc & _)]|(id & c & n & -> & _ & Hc & _)]; cbn; [done|..];
      by apply lookup_lt_Some in Hc.
Qed.

(** ** A sound cache for the new configuration *)

(** Symbols without prompt are not visible, and their user values do not
    matter. *)
Lemma promptless_vis C V s v : has_prompt s = false → sym_visibility C V s = Ok v → v = 0.
Proof.
  intros Hp. unfold sym_visibility.
  assert (prompts_vis C V (s_nodes s) 0 = Ok 0) as ->.
  { unfold has_prompt in Hp. induction (s_nodes s) as [|[p|] l IH]; [done|done|]. by apply IH. }
  cbn. intros H. apply res_bind_ok in H as (b & _ & H). destruct b; by injection H as <-.
Qed.

Section promptless.
Context (C : Conf) (V : Vals) (n : string) (s : Symbol) (u : option uval) (w : bool).
Context (Hvis : ∀ v, v_vis V (sym_item n) = Ok v → v = 0).

Lemma promptless_tri : sym_tri_value C V n (set_user s u w) = sym_tri_value C V n s.
Proof using Hvis.
  unfold sym_tri_value. cbn [s_orig_type s_choice set_user]. change (SymItem false n) with (sym_item n).
  destruct (negb _); [done|]. destruct (v_vis V (sym_item n)) as [v|] eqn:E; [|done]. rewrite (Hvis v eq_refl).
  cbn [res_bind]. destruct (s_choice s); [done|]. unfold plain_tri_value. cbn [s_user_value set_user].
  by destruct u, (s_user_value s).
Qed.
Lemma promptless_str : sym_str_value C V n (set_user s u w) = sym_str_value C V n s.
Proof using Hvis.
  unfold sym_str_value. rewrite promptless_tri. cbn [s_orig_type s_env_var set_user].
  change (SymItem false n) with (sym_item n).
  destruct (v_vis V (sym_item n)) as [v|] eqn:E; [rewrite (Hvis v eq_refl)|done].
  destruct (s_orig_type s); try done; cbn [res_bind TYPE_TO_BASE INT_HEX];
    unfold int_hex_value, string_value; cbn [s_user_value set_user s_ranges s_defaults];
    destruct u as [[]|], (s_user_value s) as [[]|]; done.
Qed.
End promptless.

(** Properties of a symbol whose record differs in user values only. *)
Definition alike (V : Vals) (n : string) (s s' : Symbol) : Prop :=
  same_defs s s' ∧ (s_user_value s' = s_user_value s ∨ ∀ v, v_vis V (sym_item n) = Ok v → v = 0).

Lemma alike_tri C V n s s' : alike V n s s' → sym_tri_value C V n s' = sym_tri_value C V n s.
Proof. intros [E [H|H]]; rewrite E; [by rewrite H|by apply promptless_tri]. Qed.
Lemma alike_str C V n s s' : alike V n s s' → sym_str_value C V n s' = sym_str_value C V n s.
Proof. intros [E [H|H]]; rewrite E; [by rewrite H|by apply promptless_str]. Qed.
Lemma same_defs_vis C V s s' : same_defs s s' → sym_visibility C V s' = sym_visibility C V s.
Proof. intros E. by rewrite E. Qed.
Lemma same_defs_ass C V n s s' : same_defs s s' → sym_assignable C V n s' = sym_assignable C V n s.
Proof. intros E. by rewrite E. Qed.
(** Choices with the same user values. *)
Definition same_mode (c c' : Choice) : Prop := c' = set_choice_user c (c_user_value c) (c_user_selection c) (c_was_set c').

Section sound.
Context (C C' : Conf) (D : Deps) (K K' : Cache).
Context (HU : users C C') (HW : wired C) (HD : deps_ok C D) (HC' : conf_ok C').
Context (HS : settles C D K K').
(** What happened to items whose user values changed. *)
Context (Hsym : ∀ n s s', cf_syms C !! n = Some s → cf_syms C' !! n = Some s' →
  s_user_value s' = s_user_value s ∨ has_prompt s = false ∨ ca_vis K' !! Sym n = None).
Context (Hcho : ∀ id c c', cf_choices C !! id = Some c → cf_choices C' !! id = Some c' →
  same_mode c c' ∨ ca_vis K' !! Cho id = None ∧ settled C D K' (Cho id)).

Lemma users_type i : orig_type C' i = orig_type C i.
Proof using HU.
  destruct HU as [H1 H2 _ _]. destruct i as [[] n|id nm]; cbn [orig_type]; [done|..].
  - specialize (H1 n). inv H1; [|done]. match goal with H : same_defs _ _ |- _ => by rewrite H end.
  - specialize (H2 id). inv H2; [|done]. match goal with H : same_choice _ _ |- _ => by rewrite H end.
Qed.

Lemma users_sym n s : cf_syms C !! n = Some s → ∃ s', cf_syms C' !! n = Some s' ∧ same_defs s s'.
Proof using HU. destruct HU as [H _ _ _]. intros E. specialize (H n). rewrite E in H. inv H. eauto. Qed.
Lemma users_choice id c : cf_choices C !! id = Some c → ∃ c', cf_choices C' !! id = Some c' ∧ same_choice c c'.
Proof using HU. destruct HU as [_ H _ _]. intros E. specialize (H id). rewrite E in H. inv H. eauto. Qed.

Section at_rank.
Context (rank : key → nat) (r : nat).
Notation V := (below C K rank r).
Notation V' := (below C' K' rank r).

(** Answers about an item that kept its cached values. *)
Lemma kept_vis i : (∀ x, item_sc i = Some x → same_at K K' x) → v_vis V' i = v_vis V i.
Proof using HU.
  intros H. destruct HU as [H1 H2 _ _].
  destruct i as [[] n|id nm]; cbn [below oracle v_vis o_vis]; [done|..].
  - destruct (H (Sym n) eq_refl) as (-> & _). specialize (H1 n). by inv H1.
  - destruct (H (Cho id) eq_refl) as (-> & _). specialize (H2 id). by inv H2.
Qed.
Lemma kept_sym_tri n : same_at K K' (Sym n) → v_tri V' (sym_item n) = v_tri V (sym_item n).
Proof using HU.
  intros (_ & _ & E & _). destruct HU as [H1 _ _ _]. cbn [sym_item below oracle v_tri o_tri o_sym_tri].
  specialize (H1 n). rewrite E. by inv H1.
Qed.

(** An item with a cached visibility left. *)
Section live.
Context (x : sc) (Hx : defined_sc C x) (Hlive : is_Some (ca_vis K' !! x)).

Lemma live_dep y : x ∈ dependents D y → same_at K K' y.
Proof using HS Hlive.
  intros Hd. destruct (same_at_dec K K' y) as [|Hn]; [done|]. exfalso.
  destruct HS as [_ H]. destruct (H y Hn) as [H1 _]. rewrite (H1 x Hd) in Hlive. by destruct Hlive.
Qed.
Lemma live_modules : same_at K K' (Sym "MODULES").
Proof using HS Hlive Hx.
  destruct (same_at_dec K K' (Sym "MODULES")) as [|Hn]; [done|]. exfalso.
  destruct HS as [_ H]. destruct (H _ Hn) as [_ H1]. destruct (H1 eq_refl x Hx) as (E & _).
  rewrite E in Hlive. by destruct Hlive.
Qed.
Lemma live_mode id c c' :
  x ∈ dependents D (Cho id) ∨ x = Cho id → cf_choices C !! id = Some c → cf_choices C' !! id = Some c' →
  same_mode c c'.
Proof using Hcho Hlive.
  intros Hd Hc Hc'. destruct (Hcho id c c' Hc Hc') as [|[E [H _]]]; [done|]. exfalso.
  destruct Hd as [Hd|Hd]; [rewrite (H x Hd) in Hlive|rewrite Hd, E in Hlive]; by destruct Hlive.
Qed.

Lemma live_choice_tri id nm :
  x ∈ dependents D (Cho id) ∨ x = Cho id → same_at K K' (Cho id) →
  v_tri V' (ChoiceItem id nm) = v_tri V (ChoiceItem id nm).
Proof using HU HS Hcho Hlive Hx.
  intros Hd Hs. cbn [below oracle v_tri o_tri].
  destruct (cf_choices C !! id) as [c|] eqn:Hc.
  - destruct (users_choice id c Hc) as (c' & Hc' & _). rewrite Hc'.
    pose proof (live_mode id c c' Hd Hc Hc') as E. rewrite E.
    change (choice_tri_value (o_base C' K' (λ k, Nat.ltb (rank k) r)) id c =
            choice_tri_value (o_base C K (λ k, Nat.ltb (rank k) r)) id c).
    apply choice_tri_agree.
    + exact (kept_sym_tri "MODULES" live_modules).
    + apply (kept_vis (choice_item id)). by intros y [= <-].
  - destruct HU as [_ H _ _]. specialize (H id). rewrite Hc in H. by inv H.
Qed.

Lemma live_tri i : (∀ y, item_sc i = Some y → x ∈ dependents D y) → v_tri V' i = v_tri V i.
Proof using HU HS Hcho Hlive Hx.
  intros H. destruct i as [[] n|id nm]; [done|..].
  - apply kept_sym_tri, live_dep. by apply H.
  - apply live_choice_tri; [left|apply live_dep]; by apply H.
Qed.
Lemma live_str i : (∀ y, item_sc i = Some y → x ∈ dependents D y) → v_str V' i = v_str V i.
Proof using HU HS Hcho Hlive Hx.
  intros H. destruct i as [[] n|id nm]; [done|..].
  - destruct (live_dep (Sym n) (H _ eq_refl)) as (_ & _ & _ & E). destruct HU as [H1 _ _ _].
    cbn [below oracle v_str o_str]. specialize (H1 n). rewrite E. by inv H1.
  - cbn [below oracle v_str o_str].
    assert (v_tri V' (ChoiceItem id None) = v_tri V (ChoiceItem id None)) as E by (apply live_tri, H).
    cbn [below oracle v_tri] in E. by rewrite E.
Qed.
Lemma live_sel id : x ∈ dependents D (Cho id) → v_sel V' id = v_sel V id.
Proof using HU HS Hlive.
  intros H. destruct (live_dep _ H) as (_ & _ & E). destruct HU as [_ H2 _ _].
  cbn [below oracle v_sel]. unfold o_sel. specialize (H2 id). rewrite E. by inv H2.
Qed.

Lemma live_same : same_at K K' x.
Proof using HS Hlive.
  destruct HS as [[_ H] _]. destruct (H x) as [|(E & _)]; [done|]. rewrite E in Hlive. by destruct Hlive.
Qed.

End live.

(** A symbol that kept its cached visibility has the same properties. *)
Section symbol.
Context (n : string) (s s' : Symbol).
Context (Hn : n ∈ cf_unique C) (Hs : cf_syms C !! n = Some s) (Hs' : cf_syms C' !! n = Some s').
Context (Hlive : is_Some (ca_vis K' !! Sym n)).
Context (Hzero : has_prompt s = false → ∀ v, ca_vis K !! Sym n = Some v → v = 0).

Notation L := (λ y, Sym n ∈ dependents D y).

Lemma live_refs : inside L (sym_refs s).
Proof using HD Hn Hs. intros y Hy. by apply (dp_sym _ _ HD n s). Qed.
Lemma live_in_choice id :
  s_choice s = Some id →
  v_tri V' (choice_item id) = v_tri V (choice_item id) ∧ v_sel V' id = v_sel V id.
Proof using HU HW HD HS Hcho Hn Hs Hlive.
  intros Hid. assert (Sym n ∈ dependents D (Cho id)) as Hd by (by apply live_refs, (wd_choice _ HW n s)).
  split; [apply (live_tri (Sym n) Hn Hlive); by intros y [= <-]|by apply (live_sel (Sym n) Hlive)].
Qed.
Lemma live_alike : alike V' n s s'.
Proof using HU HS Hsym Hs Hs' Hlive Hzero.
  destruct (users_sym n s Hs) as (s0 & E & Hsd). simplify_eq. split; [done|].
  destruct (Hsym n s s' Hs Hs') as [|[Hp|E]]; [by left|right|rewrite E in Hlive; by destruct Hlive].
  intros v. cbn [sym_item below oracle v_vis o_vis]. rewrite Hs'. unfold guard.
  destruct (live_same (Sym n) Hlive) as (-> & _).
  destruct (Nat.ltb _ _); [|done]. destruct (ca_vis K !! Sym n) eqn:Ev; [|done]. intros [= <-]. by apply Hzero.
Qed.

Lemma live_symbol :
  sym_visibility C' V' s' = sym_visibility C V s ∧ sym_tri_value C' V' n s' = sym_tri_value C V n s ∧
  sym_str_value C' V' n s' = sym_str_value C V n s ∧ sym_assignable C' V' n s' = sym_assignable C V n s.
Proof using All.
  pose proof live_alike as Ha. pose proof Ha as [Hsd _]. pose proof live_refs as Hr.
  pose proof live_in_choice as Hch.
  assert (v_vis V' (sym_item n) = v_vis V (sym_item n)) as Hv.
  { apply kept_vis. intros y [= <-]. by apply live_same. }
  pose proof (live_tri (Sym n) Hn Hlive) as Ht. pose proof (live_str (Sym n) Hn Hlive) as Hst.
  assert (v_tri V' modules = v_tri V modules) as Hm.
  { apply (kept_sym_tri "MODULES"). by apply (live_modules (Sym n)). }
  rewrite (same_defs_vis _ _ s s'), (alike_tri _ _ _ s s'), (alike_str _ _ _ s s'), (same_defs_ass _ _ _ s s') by done.
  split_and!.
  - by apply (sym_visibility_agree C C' V V' L users_type).
  - by apply (sym_tri_agree C C' V V' L users_type).
  - apply (sym_str_agree C C' V V' L users_type); try done. apply HU.
  - by apply (sym_assignable_agree C C' V V' L users_type).
Qed.
End symbol.

(** A choice that kept its cached visibility. *)
Lemma live_choice id c c' :
  cf_choices C !! id = Some c → cf_choices C' !! id = Some c' → is_Some (ca_vis K' !! Cho id) →
  choice_visibility C' V' c' = choice_visibility C V c ∧ selection C' V' id c' = selection C V id c ∧
  choice_assignable V' id c' = choice_assignable V id c.
Proof using All.
  intros Hc Hc' Hlive.
  assert (defined_sc C (Cho id)) as Hx by (cbn; by apply lookup_lt_Some in Hc).
  pose proof (live_mode (Cho id) Hlive id c c' (or_intror eq_refl) Hc Hc') as Hmode.
  pose proof (live_tri (Cho id) Hx Hlive) as Ht. pose proof (live_str (Cho id) Hx Hlive) as Hst.
  assert (v_tri V' modules = v_tri V modules) as Hm.
  { apply (kept_sym_tri "MODULES"). by apply (live_modules (Cho id)). }
  assert (v_vis V' (choice_item id) = v_vis V (choice_item id)) as Hv.
  { apply kept_vis. intros y [= <-]. by apply live_same. }
  assert (inside (λ y, Cho id ∈ dependents D y) (choice_refs c)) as Hr.
  { intros y Hy. by apply (dp_choice _ _ HD id c). }
  assert (selection C' V' id c = selection C V id c) as Hsel.
  { apply (selection_agree C C' V V' (λ y, Cho id ∈ dependents D y) users_type); try done.
    - apply (live_choice_tri (Cho id) Hx Hlive); [by right|by apply live_same].
    - intros n Hn. apply kept_vis. intros y [= <-]. apply (live_dep (Cho id) Hlive).
      apply (dp_member _ _ HD id c); [done|]. rewrite !elem_of_app in Hn. destruct Hn as [|[Hn|Hn]]; [done|..].
      + by apply (wd_default _ HW id c).
      + destruct (c_user_selection c) as [m|] eqn:Eu; cbn in Hn; [|by apply not_elem_of_nil in Hn].
        apply list_elem_of_singleton in Hn as ->.
        destruct (proj2 (ok_choices _ HC' id c' Hc') m) as (sm' & Hsm' & Hid); [by rewrite Hmode|].
        destruct HU as [H1 _ _ _]. specialize (H1 m). rewrite Hsm' in H1. inversion H1 as [sm sm0 Hsd Esm|]; subst.
        eapply (wd_member _ HW); [symmetry; exact Esm| |done]. rewrite Hsd in Hid. exact Hid. }
  rewrite Hmode. split_and!.
  - exact (choice_visibility_agree C C' V V' (λ y, Cho id ∈ dependents D y) users_type Ht Hst Hm c Hr).
  - exact Hsel.
  - exact (choice_assignable_agree V V' Hm id c Hv).
Qed.
End at_rank.

Lemma kept_present k : present K' k → present K k ∧ match k with
  | KVis x | KAss x => same_at K K' x
  | KTri n | KStr n => same_at K K' (Sym n)
  | KSel id => same_at K K' (Cho id)
  end.
Proof using HS.
  destruct HS as [[_ H] _]. intros Hk.
  destruct k as [x|n|n|id|x]; cbn in *; [destruct (H x) as [E|E]|destruct (H (Sym n)) as [E|E]
    |destruct (H (Sym n)) as [E|E]|destruct (H (Cho id)) as [E|E]|destruct (H x) as [E|E]];
    (split; [|done]) || (exfalso; unfold gone in E; destruct E as (E1 & E2 & E3)).
  all: try (destruct E as (E1 & E2 & E3); unfold same_at; rewrite <- ?E1, <- ?E2; try done).
  all: try (destruct E3 as [E3 E4]; rewrite ?E3, ?E4 in *; try done; by destruct Hk).
  all: rewrite ?E1, ?E2, ?E3 in *; try done; by destruct Hk.
Qed.

(** Most properties need the item's visibility first. *)
Lemma own_vis_sym rank r n s v :
  cf_syms C !! n = Some s → v_vis (below C K rank r) (sym_item n) = Ok v → is_Some (ca_vis K !! Sym n).
Proof using.
  clear. intros Hs. cbn [sym_item below oracle v_vis o_vis]. rewrite Hs. unfold guard.
  destruct (Nat.ltb _ _); [|done]. destruct (ca_vis K !! Sym n); [by eexists|done].
Qed.
Lemma own_vis_choice rank r id c v :
  cf_choices C !! id = Some c → v_vis (below C K rank r) (choice_item id) = Ok v → is_Some (ca_vis K !! Cho id).
Proof using.
  clear. intros Hs. cbn [choice_item below oracle v_vis o_vis]. rewrite Hs. unfold guard.
  destruct (Nat.ltb _ _); [|done]. destruct (ca_vis K !! Cho id); [by eexists|done].
Qed.
Lemma tri_needs_vis rank r n s p :
  cf_syms C !! n = Some s → BOOL_TRISTATE (s_orig_type s) = true →
  sym_tri_value C (below C K rank r) n s = Ok p → is_Some (ca_vis K !! Sym n).
Proof using.
  clear. intros Hs Hb. unfold sym_tri_value. rewrite Hb. cbn [negb].
  intros (v & Hv & _)%res_bind_ok. by eapply own_vis_sym.
Qed.
Lemma str_needs_vis rank r n s p :
  cf_syms C !! n = Some s → s_orig_type s ≠ UNKNOWN →
  sym_str_value C (below C K rank r) n s = Ok p → is_Some (ca_vis K !! Sym n).
Proof using.
  clear. intros Hs Hu. unfold sym_str_value.
  destruct (s_orig_type s) eqn:Et; try done; intros (v & Hv & _)%res_bind_ok;
    first [by eapply own_vis_sym|eapply tri_needs_vis; [done| |done]; by rewrite Et].
Qed.
Lemma undefined_vis C0 V0 s : s_nodes s = [] → s_choice s = None → sym_visibility C0 V0 s = Ok 0.
Proof using. clear. intros Hn Hc. unfold sym_visibility, mode_hides. by rewrite Hn, Hc. Qed.

Context (rank : key → nat) (HJ : ∀ k, justified C (below C K rank (rank k)) K k).

Lemma zero_of_promptless n s :
  cf_syms C !! n = Some s → has_prompt s = false → ∀ v, ca_vis K !! Sym n = Some v → v = 0.
Proof using HJ.
  intros Hs Hp v Hv. specialize (HJ (KVis (Sym n)) v Hv). cbn in HJ. rewrite Hs in HJ.
  by eapply promptless_vis.
Qed.

Lemma typed_defined n s : cf_syms C !! n = Some s → s_orig_type s ≠ UNKNOWN → n ∈ cf_unique C.
Proof using HW.
  intros Hs Ht. destruct (decide (n ∈ cf_unique C)) as [|Hn]; [done|].
  by destruct (wd_undefined _ HW n s Hs Hn).
Qed.

(** The properties of a symbol or choice whose visibility stays cached. *)
Lemma kept_symbol n s r :
  cf_syms C !! n = Some s → n ∈ cf_unique C → is_Some (ca_vis K' !! Sym n) →
  ∃ s', cf_syms C' !! n = Some s' ∧ same_defs s s' ∧
    let V := below C K rank r in let V' := below C' K' rank r in
    sym_visibility C' V' s' = sym_visibility C V s ∧ sym_tri_value C' V' n s' = sym_tri_value C V n s ∧
    sym_str_value C' V' n s' = sym_str_value C V n s ∧ sym_assignable C' V' n s' = sym_assignable C V n s.
Proof using All.
  intros Hs Hn Hl. destruct (users_sym n s Hs) as (s' & Hs' & Hsd). exists s'. split_and!; [done|done|].
  apply live_symbol; try done. by apply zero_of_promptless.
Qed.

Lemma kept_vis_entry x v :
  ca_vis K' !! x = Some v → ca_vis K !! x = Some v →
  item_vis C' (below C' K' rank (rank (KVis x))) (sc_item x) = Ok v.
Proof using All.
  intros Hv' Hv. pose proof (HJ (KVis x) v Hv) as J. destruct x as [n|id]; cbn in J |- *.
  - destruct (cf_syms C !! n) as [s|] eqn:Hs.
    2: { destruct HU as [H _ _ _]. specialize (H n). rewrite Hs in H. by inv H. }
    destruct (decide (n ∈ cf_unique C)) as [Hn|Hn].
    + destruct (kept_symbol n s (rank (KVis (Sym n))) Hs Hn ltac:(eauto)) as (s' & -> & _ & E & _). by rewrite E.
    + destruct (wd_undefined _ HW n s Hs Hn) as (Ht & Hnn & Hc).
      destruct (users_sym n s Hs) as (s' & -> & Hsd). rewrite (same_defs_vis _ _ s s' Hsd).
      rewrite undefined_vis in J by done. by rewrite undefined_vis.
  - destruct (cf_choices C !! id) as [c|] eqn:Hc.
    + destruct (users_choice id c Hc) as (c' & Hc' & _). rewrite Hc'.
      by destruct (live_choice rank (rank (KVis (Cho id))) id c c' Hc Hc' ltac:(eauto)) as (-> & _).
    + destruct HU as [_ H _ _]. specialize (H id). rewrite Hc in H. by inv H.
Qed.

Lemma kept_ass_entry x v :
  ca_vis K' !! x = ca_vis K !! x → ca_ass K !! x = Some v →
  assignable C' (below C' K' rank (rank (KAss x))) x = Ok v.
Proof using All.
  intros Ev Hv. pose proof (HJ (KAss x) v Hv) as J. destruct x as [n|id]; cbn [assignable] in J |- *.
  - destruct (cf_syms C !! n) as [s|] eqn:Hs.
    2: { destruct HU as [H _ _ _]. specialize (H n). rewrite Hs in H. by inv H. }
    destruct (BOOL_TRISTATE (s_orig_type s)) eqn:Eb.
    + assert (is_Some (ca_vis K !! Sym n)) as Hl.
      { unfold sym_assignable in J. rewrite Eb in J. cbn [negb] in J.
        apply res_bind_ok in J as (w & Hw & _). by eapply own_vis_sym. }
      destruct (kept_symbol n s (rank (KAss (Sym n))) Hs) as (s' & -> & _ & _ & _ & _ & E);
        [eapply typed_defined; [done|by intros Ht; rewrite Ht in Eb]|by rewrite Ev|by rewrite E].
    + destruct (users_sym n s Hs) as (s' & -> & Hsd). rewrite (same_defs_ass _ _ n s s' Hsd).
      unfold sym_assignable in *. by rewrite Eb in *.
  - destruct (cf_choices C !! id) as [c|] eqn:Hc.
    + destruct (users_choice id c Hc) as (c' & Hc' & _). rewrite Hc'.
      assert (is_Some (ca_vis K !! Cho id)) as Hl.
      { unfold choice_assignable in J. apply res_bind_ok in J as (w & Hw & _). by eapply own_vis_choice. }
      rewrite <- Ev in Hl.
      by destruct (live_choice rank (rank (KAss (Cho id))) id c c' Hc Hc' Hl) as (_ & _ & ->).
    + destruct HU as [_ H _ _]. specialize (H id). rewrite Hc in H. by inv H.
Qed.

Lemma kept_tri_entry n v :
  same_at K K' (Sym n) → ca_tri K !! n = Some v →
  ∃ s' w, cf_syms C' !! n = Some s' ∧ sym_tri_value C' (below C' K' rank (rank (KTri n))) n s' = Ok (v, w) ∧
    (BOOL_TRISTATE (s_orig_type s') = true → ca_write K !! n = Some w).
Proof using All.
  intros (Ev & _) Hv. destruct (HJ (KTri n) v Hv) as (s & w & Hs & J & Jw).
  destruct (BOOL_TRISTATE (s_orig_type s)) eqn:Eb.
  - pose proof (tri_needs_vis _ _ _ _ _ Hs Eb J) as Hl. rewrite <- Ev in Hl.
    destruct (kept_symbol n s (rank (KTri n)) Hs) as (s' & Hs' & Hsd & _ & E & _);
      [eapply typed_defined; [done|by intros Ht; rewrite Ht in Eb]|done|].
    exists s', w. split_and!; [done|by rewrite E|auto].
  - destruct (users_sym n s Hs) as (s' & Hs' & Hsd). exists s', w.
    assert (s_orig_type s' = s_orig_type s) as Ht by (by rewrite Hsd).
    split_and!; [done| |by rewrite Ht, Eb]. unfold sym_tri_value in *. rewrite Ht. by rewrite Eb in *.
Qed.

Lemma kept_str_entry n v :
  same_at K K' (Sym n) → ca_str K !! n = Some v →
  ∃ s' w, cf_syms C' !! n = Some s' ∧ sym_str_value C' (below C' K' rank (rank (KStr n))) n s' = Ok (v, w) ∧
    (s_orig_type s' ≠ UNKNOWN → ca_write K !! n = Some w).
Proof using All.
  intros (Ev & _) Hv. destruct (HJ (KStr n) v Hv) as (s & w & Hs & J & Jw).
  destruct (decide (s_orig_type s = UNKNOWN)) as [Hu|Hu].
  - destruct (users_sym n s Hs) as (s' & Hs' & Hsd). exists s', w.
    assert (s_orig_type s' = s_orig_type s) as Ht by (by rewrite Hsd).
    split_and!; [done| |by rewrite Ht]. unfold sym_str_value in *. rewrite Ht. by rewrite Hu in *.
  - pose proof (str_needs_vis _ _ _ _ _ Hs Hu J) as Hl. rewrite <- Ev in Hl.
    destruct (kept_symbol n s (rank (KStr n)) Hs) as (s' & Hs' & Hsd & _ & _ & E & _);
      [by eapply typed_defined|done|].
    exists s', w. split_and!; [done|by rewrite E|auto].
Qed.

Lemma kept_sel_entry id v :
  same_at K K' (Cho id) → ca_sel K !! id = Some v →
  ∃ c', cf_choices C' !! id = Some c' ∧ selection C' (below C' K' rank (rank (KSel id))) id c' = Ok v.
Proof using All.
  intros (Ev & _) Hv. destruct (HJ (KSel id) v Hv) as (c & Hc & J).
  destruct (users_choice id c Hc) as (c' & Hc' & _). exists c'. split; [done|].
  assert (is_Some (ca_vis K !! Cho id)) as Hl.
  { unfold selection in J. apply res_bind_ok in J as (t & Ht & _). cbn [choice_item below oracle v_tri o_tri] in Ht. rewrite Hc in Ht.
    unfold choice_tri_value in Ht. apply res_bind_ok in Ht as (w & Hw & _).
    exact (own_vis_choice rank (rank (KSel id)) id c w Hc Hw). }
  rewrite <- Ev in Hl. by destruct (live_choice rank (rank (KSel id)) id c c' Hc Hc' Hl) as (_ & -> & _).
Qed.

Lemma kept_justified k : justified C' (below C' K' rank (rank k)) K' k.
Proof using All.
  assert (ca_write K' = ca_write K) as Hw by apply HS.
  destruct k as [x|n|n|id|x]; intros v Hv.
  - destruct (kept_present (KVis x) ltac:(cbn; eauto)) as [_ (E & _)]. apply kept_vis_entry; [done|congruence].
  - destruct (kept_present (KTri n) ltac:(cbn; eauto)) as [_ Hs]. pose proof Hs as (_ & _ & E & _).
    rewrite Hw. apply kept_tri_entry; [done|congruence].
  - destruct (kept_present (KStr n) ltac:(cbn; eauto)) as [_ Hs]. pose proof Hs as (_ & _ & _ & E).
    rewrite Hw. apply kept_str_entry; [done|congruence].
  - destruct (kept_present (KSel id) ltac:(cbn; eauto)) as [_ Hs]. pose proof Hs as (_ & _ & E).
    apply kept_sel_entry; [done|congruence].
  - destruct (kept_present (KAss x) ltac:(cbn; eauto)) as [_ (E & E2 & _)].
    apply kept_ass_entry; [done|congruence].
Qed.
End sound.

Lemma invalidated_sound C C' D K K' :
  users C C' → wired C → deps_ok C D → conf_ok C' → settles C D K K' →
  (∀ n s s', cf_syms C !! n = Some s → cf_syms C' !! n = Some s' →
     s_user_value s' = s_user_value s ∨ has_prompt s = false ∨ ca_vis K' !! Sym n = None) →
  (∀ id c c', cf_choices C !! id = Some c → cf_choices C' !! id = Some c' →
     same_mode c c' ∨ ca_vis K' !! Cho id = None ∧ settled C D K' (Cho id)) →
  sound C K → sound C' K'.
Proof.
  intros HU HW HD HC' HS Hsym Hcho (HX & rank & N & HN & HJ). split.
  { intros n s' Hs' Ht. destruct HS as [[-> _] _]. destruct HU as [H _ _ _]. specialize (H n).
    rewrite Hs' in H. inversion H as [s s0 Hsd Es|]; subst. rewrite Hsd in Ht. by eapply HX. }
  exists rank, N. split.
  - intros k Hk. by apply HN, (kept_present C D K K' HS k Hk).
  - by apply (kept_justified C C' D K K').
Qed.

End KInval.
