(* ===== verification/KCacheRun.v ===== *)
(** * Reading and changing values in any order

    Operations that change user values keep the caches sound, so a sequence
    of operations gives through the caches what it gives without them. *)
From S2P Require Import Prelude Hex PyStr KExpr KSym KParseSpec KSymSpec KFix KConf KDep KDepSpec.
From S2P Require Import KCache KCacheSpec KInval.

Module KCacheRun.
Import Hex PyStr KExpr KSym KParseSpec KSymSpec KFix KConf KDep KDepSpec KCache KCacheSpec KInval.

(** ** Configurations that differ in user values *)

Lemma same_defs_refl s : same_defs s s.
Proof. by destruct s. Qed.
Lemma same_choice_refl c : same_choice c c.
Proof. by destruct c. Qed.

Lemma users_put_sym C n s s' :
  cf_syms C !! n = Some s → same_defs s s' → users C (put_sym C n s').
Proof.
  intros Hs Hd. split; cbn [put_sym cf_syms cf_choices cf_unique cf_defconfig_list]; [| |done|done].
  - intros m. destruct (decide (n = m)) as [<-|Hn].
    + rewrite lookup_insert_eq, Hs. by constructor.
    + rewrite lookup_insert_ne by done. destruct (cf_syms C !! m); constructor. apply same_defs_refl.
  - intros id. destruct (cf_choices C !! id); constructor. apply same_choice_refl.
Qed.
Lemma users_put_choice C id c c' :
  cf_choices C !! id = Some c → same_choice c c' → users C (put_choice C id c').
Proof.
  intros Hc Hd. split; cbn [put_choice cf_syms cf_choices cf_unique cf_defconfig_list]; [| |done|done].
  - intros m. destruct (cf_syms C !! m); constructor. apply same_defs_refl.
  - intros j. destruct (decide (id = j)) as [<-|Hn].
    + rewrite list_lookup_insert_eq by (by eapply lookup_lt_Some). rewrite Hc. by constructor.
    + rewrite list_lookup_insert_ne by done. destruct (cf_choices C !! j); constructor. apply same_choice_refl.
Qed.

#[global] Instance users_preorder : PreOrder users.
Proof.
  split.
  - intros C. split; [intros n; destruct (cf_syms C !! n); constructor; apply same_defs_refl
      |intros id; destruct (cf_choices C !! id); constructor; apply same_choice_refl|done|done].
  - intros C1 C2 C3 [S1 T1 U1 D1] [S2 T2 U2 D2]. split; [| |congruence|congruence].
    + intros n. specialize (S1 n). specialize (S2 n). destruct S1 as [s1 s2 H1|]; [|inv S2; constructor].
      inversion S2 as [? s3 H2|]; subst. constructor. unfold same_defs in *. by rewrite H2, H1.
    + intros n. specialize (T1 n). specialize (T2 n). destruct T1 as [c1 c2 H1|]; [|inv T2; constructor].
      inversion T2 as [? c3 H2|]; subst. constructor. unfold same_choice in *. by rewrite H2, H1.
Qed.

Section users.
Context (C C' : Conf) (HU : users C C').

Lemma users_sym_inv n s' : cf_syms C' !! n = Some s' → ∃ s, cf_syms C !! n = Some s ∧ same_defs s s'.
Proof using HU. destruct HU as [H _ _ _]. intros E. specialize (H n). rewrite E in H. inv H. eauto. Qed.
Lemma users_choice_inv id c' :
  cf_choices C' !! id = Some c' → ∃ c, cf_choices C !! id = Some c ∧ same_choice c c'.
Proof using HU. destruct HU as [_ H _ _]. intros E. specialize (H id). rewrite E in H. inv H. eauto. Qed.

Lemma users_defined x : defined_sc C' x ↔ defined_sc C x.
Proof using HU.
  destruct HU as [_ H HQ _]. destruct x as [n|id]; cbn; [by rewrite HQ|].
  rewrite <- !lookup_lt_is_Some. specialize (H id).
  destruct H; split; intros [? ?]; eauto; done.
Qed.
Lemma users_settled D K y : settled C' D K y ↔ settled C D K y.
Proof using HU. unfold settled. by setoid_rewrite users_defined. Qed.
Lemma users_settles D K K' : settles C' D K K' ↔ settles C D K K'.
Proof using HU. unfold settles. by setoid_rewrite users_settled. Qed.

Lemma wired_users : wired C → wired C'.
Proof using HU.
  intros [W1 W2 W3 W4]. split.
  - intros n s' Hs' Hn. destruct (users_sym_inv n s' Hs') as (s & Hs & ->).
    apply (W1 n s Hs). by rewrite <- (us_unique _ _ HU).
  - intros n s' id Hs' Hid. destruct (users_sym_inv n s' Hs') as (s & Hs & E).
    rewrite E in Hid |- *. destruct (W2 n s id Hs Hid) as [[c Hc] Hr].
    destruct (users_choice C C' HU id c Hc) as (c' & Hc' & _). eauto.
  - intros n s' id c' Hs' Hid Hc'. destruct (users_sym_inv n s' Hs') as (s & Hs & E).
    destruct (users_choice_inv id c' Hc') as (c & Hc & ->). rewrite E in Hid. by apply (W3 n s id c).
  - intros id c' n Hc'. destruct (users_choice_inv id c' Hc') as (c & Hc & ->). by apply (W4 id c).
Qed.
Lemma deps_ok_users D : deps_ok C D → deps_ok C' D.
Proof using HU.
  intros [D1 D2 D3 D4]. split.
  - intros n s' x Hn Hs'. destruct (users_sym_inv n s' Hs') as (s & Hs & ->).
    apply (D1 n s x); [|done]. by rewrite <- (us_unique _ _ HU).
  - intros id c' x Hc'. destruct (users_choice_inv id c' Hc') as (c & Hc & ->). by apply (D2 id c).
  - intros id c' n Hc'. destruct (users_choice_inv id c' Hc') as (c & Hc & ->). by apply (D3 id c).
  - intros x y Hy. apply users_defined. by eapply D4.
Qed.
End users.

(** ** Invalidation after a change *)

(** What the caches and the configuration satisfy between operations. *)
Record ready (D : Deps) (C : Conf) (K : Cache) : Prop := {
  rd_wired : wired C;
  rd_deps : deps_ok C D;
  rd_conf : conf_ok C;
  rd_sound : sound C K
}.

Section change.
Context (D : Deps) (iter : gset sc → list sc) (Hiter : ∀ X x, x ∈ iter X ↔ x ∈ X).

(** A change of the user values of [x], or of symbols that depend on it,
    followed by the invalidation of [x]. *)
Lemma change_invalidated C C' K x :
  ready D C K → users C C' → conf_ok C' → defined_sc C x →
  (∀ n s s', cf_syms C !! n = Some s → cf_syms C' !! n = Some s' →
     s_user_value s' = s_user_value s ∨ Sym n = x ∨ Sym n ∈ dependents D x) →
  (∀ id c c', cf_choices C !! id = Some c → cf_choices C' !! id = Some c' → same_mode c c' ∨ Cho id = x) →
  ∃ K', invalidate_from C' D iter x K = Ok K' ∧ ready D C' K'.
Proof using Hiter.
  intros [HW HD HC HK] HU HC' Hx Hsym Hcho. pose proof (deps_ok_users C C' HU D HD) as HD'.
  destruct (invalidate_from_spec C' D iter Hiter (dp_defined _ _ HD') x K) as (K' & E & HS & HG & HT).
  apply (users_defined C C' HU) in Hx. specialize (HG Hx). destruct HG as (HG & _).
  rewrite users_settles in HS by done. rewrite users_settled in HT by done.
  exists K'. split; [done|]. split; [by eapply wired_users|done|done|].
  eapply invalidated_sound; [exact HU|exact HW|exact HD|exact HC'|exact HS|..]; [| |done].
  - intros n s s' Hs Hs'. destruct (Hsym n s s' Hs Hs') as [|[Hn|Hn]]; [by left|right; right..].
    + by rewrite Hn.
    + by apply (proj1 HT).
  - intros id c c' Hc Hc'. destruct (Hcho id c c' Hc Hc') as [|Hn]; [by left|right]. by rewrite Hn.
Qed.

(** A change without effect on any property. *)
Lemma change_kept C C' K :
  ready D C K → users C C' → conf_ok C' →
  (∀ n s s', cf_syms C !! n = Some s → cf_syms C' !! n = Some s' →
     s_user_value s' = s_user_value s ∨ has_prompt s = false) →
  (∀ id c c', cf_choices C !! id = Some c → cf_choices C' !! id = Some c' → same_mode c c') →
  ready D C' K.
Proof using.
  clear. intros [HW HD HC HK] HU HC' Hsym Hcho.
  split; [by eapply wired_users|by eapply deps_ok_users|done|].
  eapply invalidated_sound; [exact HU|exact HW|exact HD|exact HC'|apply settles_refl|..]; [| |done].
  - intros n s s' Hs Hs'. destruct (Hsym n s s' Hs Hs'); tauto.
  - intros id c c' Hc Hc'. left. eauto.
Qed.

Lemma same_mode_refl c : same_mode c c.
Proof. by destruct c. Qed.
Lemma put_sym_modes C n s' id c c' :
  cf_choices C !! id = Some c → cf_choices (put_sym C n s') !! id = Some c' → same_mode c c'.
Proof. cbn. intros -> [= <-]. apply same_mode_refl. Qed.
Lemma put_choice_users C id c' n s s' :
  cf_syms C !! n = Some s → cf_syms (put_choice C id c') !! n = Some s' → s_user_value s' = s_user_value s.
Proof. cbn. by intros -> [= <-]. Qed.
Lemma put_sym_users C n s0 m s s' :
  cf_syms C !! m = Some s → cf_syms (put_sym C n s0) !! m = Some s' → s_user_value s' = s_user_value s ∨ n = m.
Proof.
  cbn. destruct (decide (n = m)) as [|Hn]; [by right|]. rewrite lookup_insert_ne by done.
  intros -> [= <-]. by left.
Qed.
Lemma put_choice_modes C id c0 j c c' :
  cf_choices C !! j = Some c → cf_choices (put_choice C id c0) !! j = Some c' → same_mode c c' ∨ j = id.
Proof.
  cbn. destruct (decide (id = j)) as [|Hn]; [by right|]. rewrite list_lookup_insert_ne by done.
  intros -> [= <-]. left. apply same_mode_refl.
Qed.

Lemma prompt_defined C n s :
  wired C → cf_syms C !! n = Some s → has_prompt s = true → n ∈ cf_unique C.
Proof.
  intros HW Hs Hp. destruct (decide (n ∈ cf_unique C)) as [|Hn]; [done|].
  destruct (wd_undefined _ HW n s Hs Hn) as (_ & E & _). unfold has_prompt in Hp. by rewrite E in Hp.
Qed.

(** A user value of a symbol outside choices, or another one than y. *)
Lemma sym_changed C K n s s' :
  ready D C K → cf_syms C !! n = Some s → same_defs s s' → conf_ok (put_sym C n s') →
  ∃ K', invalidate_if_has_prompt (put_sym C n s') D iter n s K = Ok K' ∧ ready D (put_sym C n s') K'.
Proof using Hiter.
  intros HR Hs Hd HC'. pose proof (users_put_sym C n s s' Hs Hd) as HU. unfold invalidate_if_has_prompt.
  destruct (has_prompt s) eqn:Hp.
  - apply (change_invalidated C); try done.
    + by eapply prompt_defined; [apply HR| |].
    + intros m t t' Ht Ht'. destruct (put_sym_users C n s' m t t' Ht Ht') as [|<-]; [by left|by right; left].
    + intros id c c' Hc Hc'. left. by eapply put_sym_modes.
  - exists K. split; [done|]. apply (change_kept C); try done.
    + intros m t t' Ht Ht'. destruct (put_sym_users C n s' m t t' Ht Ht') as [|<-]; [by left|right].
      by simplify_eq.
    + intros id c c' Hc Hc'. by eapply put_sym_modes.
Qed.

(** The mode or the user selection of a choice. *)
Lemma choice_changed C K id c c' :
  ready D C K → cf_choices C !! id = Some c → same_choice c c' → conf_ok (put_choice C id c') →
  ∃ K', invalidate_from (put_choice C id c') D iter (Cho id) K = Ok K' ∧ ready D (put_choice C id c') K'.
Proof using Hiter.
  intros HR Hc Hd HC'. apply (change_invalidated C); try done.
  - by eapply users_put_choice.
  - by eapply lookup_lt_Some.
  - intros n s s' Hs Hs'. left. by eapply put_choice_users.
  - intros j d d' Hj Hj'. destruct (put_choice_modes C id c' j d d' Hj Hj') as [|<-]; [by left|by right].
Qed.

(** Setting a choice symbol to y changes the symbol and the user selection;
    the symbol depends on its choice. *)
Lemma chosen C K n s s' id c c' :
  ready D C K → cf_syms C !! n = Some s → s_choice s = Some id → same_defs s s' →
  cf_choices C !! id = Some c → same_choice c c' →
  conf_ok (put_choice (put_sym C n s') id c') →
  ∃ K', invalidate_from (put_choice (put_sym C n s') id c') D iter (Cho id) K = Ok K' ∧
        ready D (put_choice (put_sym C n s') id c') K'.
Proof using Hiter.
  intros HR Hs Hid Hd Hc Hd' HC'. apply (change_invalidated C); try done.
  - etrans; [by eapply users_put_sym|]. by eapply users_put_choice.
  - by eapply lookup_lt_Some.
  - intros m t t' Ht Ht'. destruct (put_sym_users C n s' m t t' Ht Ht') as [|<-]; [by left|].
    right; right. destruct HR as [HW HD _ _]. destruct (decide (n ∈ cf_unique C)) as [Hn|Hn].
    + apply (dp_sym _ _ HD n s); [done..|]. by eapply (wd_choice _ HW n s).
    + destruct (wd_undefined _ HW n s Hs Hn) as (_ & _ & E). congruence.
  - intros j d d' Hj Hj'. destruct (put_choice_modes (put_sym C n s') id c' j d d') as [|<-]; [done..|by left|by right].
Qed.

Lemma set_value_ready C K n u :
  ready D C K →
  ∃ K', set_value_c D iter C K n u = Ok ((set_value C n u).1, (set_value C n u).2, K') ∧
        ready D (set_value C n u).2 K'.
Proof using Hiter.
  intros HR. pose proof (set_value_ok C n u (rd_conf _ _ _ HR)) as HC'. unfold set_value_c, set_value in *.
  destruct (cf_syms C !! n) as [s|] eqn:Hs; [|by exists K]. set (u' := tri_of _ u) in *.
  destruct (bool_decide (s_user_value s = Some u') && bool_decide (s_choice s = None)).
  { exists K. split; [done|]. apply (change_kept C); try done.
    - by eapply users_put_sym.
    - intros m t t' Ht Ht'. left. cbn in Ht'. destruct (decide (n = m)) as [<-|Hn].
      + rewrite lookup_insert_eq in Ht'. by simplify_eq.
      + rewrite lookup_insert_ne in Ht' by done. by simplify_eq.
    - intros id c c' Hc Hc'. by eapply put_sym_modes. }
  destruct (valid_value (s_orig_type s) u'); cbn [negb] in *; [|by exists K].
  assert (conf_ok (put_sym C n (set_user s (Some u') true)) →
    ∃ K', (let* K0 := invalidate_if_has_prompt (put_sym C n (set_user s (Some u') true)) D iter n s K in
           Ok (true, put_sym C n (set_user s (Some u') true), K0)) =
          Ok (true, put_sym C n (set_user s (Some u') true), K') ∧
          ready D (put_sym C n (set_user s (Some u') true)) K') as Hplain.
  { intros HC1. destruct (sym_changed C K n s (set_user s (Some u') true) HR Hs) as (K' & -> & HR'); [done|done|eauto]. }
  revert HC'. destruct (s_choice s) as [id|] eqn:Hid; [|by apply Hplain].
  destruct (decide (u' = UTri 2)) as [Hu|Hu]; [rewrite bool_decide_true by done|rewrite bool_decide_false by done; by apply Hplain].
  destruct (wd_choice _ (rd_wired _ _ _ HR) n s id Hs Hid) as [[c Hc] _].
  assert (cf_choices (put_sym C n (set_user s (Some u') true)) !! id = Some c) as Hc1 by done.
  rewrite Hc1. intros HC'.
  destruct (chosen C K n s (set_user s (Some u') true) id c
    (set_choice_user c (c_user_value c) (Some n) true)) as (K' & -> & HR'); [done..|eauto].
Qed.

Lemma unset_value_ready C K n :
  ready D C K →
  ∃ K', unset_value_c D iter C K n = Ok (unset_value C n, K') ∧ ready D (unset_value C n) K'.
Proof using Hiter.
  intros HR. pose proof (unset_value_ok C n (rd_conf _ _ _ HR)) as HC'. unfold unset_value_c, unset_value in *.
  destruct (cf_syms C !! n) as [s|] eqn:Hs; [|by exists K]. destruct (s_user_value s); [|by exists K].
  destruct (sym_changed C K n s (set_user s None (s_was_set s)) HR Hs) as (K' & -> & HR'); [done|done|eauto].
Qed.

Lemma choice_set_value_ready C K id v :
  ready D C K →
  ∃ K', choice_set_value_c D iter C K id v =
          Ok ((choice_set_value C id v).1, (choice_set_value C id v).2, K') ∧
        ready D (choice_set_value C id v).2 K'.
Proof using Hiter.
  intros HR. pose proof (choice_set_value_ok C id v (rd_conf _ _ _ HR)) as HC'.
  unfold choice_set_value_c, choice_set_value in *.
  destruct (cf_choices C !! id) as [c|] eqn:Hc; [|by exists K].
  case_bool_decide.
  { exists K. split; [done|]. apply (change_kept C); try done.
    - by eapply users_put_choice.
    - intros n s s' Hs Hs'. left. by eapply put_choice_users.
    - intros j d d' Hj Hj'. destruct (put_choice_modes C id _ j d d' Hj Hj') as [|<-]; [done|].
      cbn in Hj'. rewrite list_lookup_insert_eq in Hj' by (by eapply lookup_lt_Some). by simplify_eq. }
  destruct (valid_value (c_orig_type c) (UTri v)); [|by exists K].
  destruct (choice_changed C K id c (set_choice_user c (Some v) (c_user_selection c) true) HR Hc)
    as (K' & -> & HR'); [done|done|eauto].
Qed.

Lemma choice_unset_value_ready C K id :
  ready D C K →
  ∃ K', choice_unset_value_c D iter C K id = Ok (choice_unset_value C id, K') ∧
        ready D (choice_unset_value C id) K'.
Proof using Hiter.
  intros HR. pose proof (choice_unset_value_ok C id (rd_conf _ _ _ HR)) as HC'.
  unfold choice_unset_value_c, choice_unset_value in *.
  destruct (cf_choices C !! id) as [c|] eqn:Hc; [|by exists K].
  set (c' := set_choice_user c None None (c_was_set c)) in *.
  assert (conf_ok (put_choice C id c') →
    ∃ K', (let* K0 := invalidate_from (put_choice C id c') D iter (Cho id) K in Ok (put_choice C id c', K0)) =
          Ok (put_choice C id c', K') ∧ ready D (put_choice C id c') K') as H.
  { intros HC1. destruct (choice_changed C K id c c' HR Hc) as (K' & -> & HR'); eauto. done. }
  revert HC'. destruct (c_user_value c), (c_user_selection c); [exact H..|by exists K].
Qed.

(** ** Reading *)

Lemma config_string_mono prefix C n s V V' :
  vle V V' → rle (config_string prefix C V n s) (config_string prefix C V' n s).
Proof using.
  clear. intros HV. unfold config_string. apply rle_bind; [by apply sym_str_mono|]. intros. apply rle_refl.
Qed.

(** [_write_to_conf] is the one of the value read. *)
Lemma config_string_read prefix C fuel K n s :
  conf_ok C → sound C K → cf_syms C !! n = Some s →
  let '(r, K') := config_string_c prefix C fuel n K in
  sound C K' ∧ (config_string prefix C (vals C fuel) n s ≠ Err OutOfFuel → r = config_string prefix C (vals C fuel) n s).
Proof using.
  clear. intros HC HK Hs. unfold config_string_c. rewrite Hs.
  destruct (mvals_sim C HC fuel) as (IT & IS & IV & IL).
  destruct (sim_str_value C HC fuel (mvals C fuel) IT IS IV IL n s Hs) as [_ H]. specialize (H K HK).
  unfold mbind, PM_bind, pm_get. destruct (str_value_c C (mvals C fuel) n s K) as [[v|e] K1] eqn:E.
  - destruct H as (S1 & _). cbn. split; [done|]. unfold str_value_c in E.
    eapply (cached_stored (λ K, ca_str K !! n)) in E; [|intros; cbn; by rewrite lookup_insert_eq].
    destruct (sound_full C K1 (KStr n) S1 v E) as (s' & w & Hs' & Hv & Hw).
    assert (s' = s) as -> by congruence.
    assert (default false (ca_write K1 !! n) = w) as ->.
    { destruct (decide (s_orig_type s = UNKNOWN)) as [Ht|Ht]; [|by rewrite Hw].
      rewrite (proj1 S1 n s Hs Ht). unfold sym_str_value in Hv. rewrite Ht in Hv. by injection Hv as _ <-. }
    apply (full_agrees C K1 fuel (λ V, config_string prefix C V n s)).
    + intros. by apply config_string_mono.
    + done.
    + unfold config_string. rewrite Hv. by destruct w.
  - destruct H as (S1 & _ & _ & _ & N1). split; [done|]. unfold config_string.
    destruct (sym_str_value C (vals C fuel) n s) as [vw|e']; cbn in *; [by specialize (N1 ltac:(done))|].
    intros Hn. specialize (N1 Hn). congruence.
Qed.

(** What an operation answers, and what it leaves. *)
Definition agrees {A} (a spec : res A) : Prop := spec ≠ Err OutOfFuel → a = spec.

Lemma read_agrees {A} C fuel K (c : PM Cache A) f (g : A → answer) :
  conf_ok C → sound C K → sim_ve C false fuel c f →
  let '(r, K') := c K in
  sound C K' ∧ agrees (res_fmap g r) (res_fmap g (f (vals C fuel))).
Proof using.
  clear. intros HC HK [_ H]. specialize (H K HK). destruct (c K) as [r K'].
  destruct H as (S1 & _ & _ & _ & N1). split; [done|]. intros Hn. rewrite N1; [done|].
  intros E. by rewrite E in Hn.
Qed.

Lemma run_op_correct prefix fuel C K o :
  ready D C K →
  let '(a, (C', K')) := run_op prefix D iter fuel C K o in
  C' = (spec_op prefix fuel C o).2 ∧ ready D C' K' ∧ agrees a (spec_op prefix fuel C o).1.
Proof using Hiter.
  intros HR. pose proof HR as [HW HD HC HK].
  destruct (mvals_sim C HC fuel) as (IT & IS & IV & IL).
  assert (∀ K', sound C K' → ready D C K') as Hkeep by (intros; by split).
  destruct o as [i|i|i|id|x|n|n u|n|id v|id]; cbn [run_op spec_op fst snd].
  - pose proof (read_agrees C fuel K _ _ ANat HC HK (IT i)) as H. destruct (mv_tri _ i K). naive_solver.
  - pose proof (read_agrees C fuel K _ _ AStr HC HK (IS i)) as H. destruct (mv_str _ i K). naive_solver.
  - pose proof (read_agrees C fuel K _ _ ANat HC HK (IV i)) as H. destruct (mv_vis _ i K). naive_solver.
  - pose proof (read_agrees C fuel K _ _ ASel HC HK (IL id)) as H. destruct (mv_sel _ id K). naive_solver.
  - destruct x as [n|id]; cbn [assignable_c].
    + destruct (cf_syms C !! n) as [s|] eqn:Hs; [|done].
      pose proof (read_agrees C fuel K _ _ AList HC HK
        (sim_sym_assignable C fuel (mvals C fuel) IT IS IV n s Hs)) as H.
      destruct (sym_assignable_c _ _ n s K). naive_solver.
    + destruct (cf_choices C !! id) as [c|] eqn:Hc; [|done].
      pose proof (read_agrees C fuel K _ _ AList HC HK
        (sim_choice_assignable C fuel (mvals C fuel) IT IV id c Hc)) as H.
      destruct (choice_assignable_c _ id c K). naive_solver.
  - destruct (cf_syms C !! n) as [s|] eqn:Hs; [|unfold config_string_c; by rewrite Hs].
    pose proof (config_string_read prefix C fuel K n s HC HK Hs) as H.
    destruct (config_string_c prefix C fuel n K) as [r K']. destruct H as [S1 N1].
    split_and!; [done|by apply Hkeep|]. intros Hn. rewrite N1; [done|]. intros E. by rewrite E in Hn.
  - destruct (set_value_ready C K n u HR) as (K' & -> & HR'). by destruct (set_value C n u).
  - by destruct (unset_value_ready C K n HR) as (K' & -> & HR').
  - destruct (choice_set_value_ready C K id v HR) as (K' & -> & HR'). by destruct (choice_set_value C id v).
  - by destruct (choice_unset_value_ready C K id HR) as (K' & -> & HR').
Qed.

Lemma run_ops_correct prefix fuel C K l :
  ready D C K → Forall2 agrees (run_ops prefix D iter fuel C K l) (spec_ops prefix fuel C l).
Proof using Hiter.
  revert C K. induction l as [|o l IH]; intros C K HR; [constructor|]. cbn [run_ops spec_ops].
  pose proof (run_op_correct prefix fuel C K o HR) as H.
  destruct (run_op prefix D iter fuel C K o) as [a [C' K']], (spec_op prefix fuel C o) as [a' C1].
  cbn in H. destruct H as (-> & HR' & Ha). constructor; [done|]. by apply IH.
Qed.

End change.

(** The dependents a configuration is read with. *)
Definition config_deps (C : Conf) : Deps := add_choice_deps C (build_dep C).

Lemma initially_ready C : wired C → conf_ok C → ready (config_deps C) C no_cache.
Proof. intros HW HC. split; [done|apply built_deps_ok|done|apply no_cache_sound]. Qed.

(** C1.  For a configuration in which a choice names only its own symbols as
    defaults and the symbols of a choice depend on it ([wired]; a stale value
    is possible in others, [stray_default_stale]): whatever values are read, in
    whatever order and between whatever changes of user values, and in whatever
    order Python iterates over sets, each answer through the caches is the
    value computed without caches, wherever that is defined; invalidation never
    runs out of fuel, and no stale value is ever returned. *)
Theorem cached_values_correct prefix C iter fuel l :
  wired C → conf_ok C → (∀ X x, x ∈ iter X ↔ x ∈ X) →
  Forall2 (λ a spec, spec ≠ Err OutOfFuel → a = spec)
    (run_ops prefix (config_deps C) iter fuel C no_cache l) (spec_ops prefix fuel C l).
Proof. intros HW HC Hiter. apply run_ops_correct; [done|]. by apply initially_ready. Qed.

Lemma demo_wired : wired demo_choice_conf.
Proof.
  assert (∀ n s, cf_syms demo_choice_conf !! n = Some s → n ∈ ["A"; "B"] ∧ ∃ u, s = demo_member u) as H.
  { intros n s H. unfold demo_choice_conf in H. cbn [cf_syms] in H.
    apply lookup_insert_Some in H as [[<- <-]|[_ H]]; [split; [by left|eauto]|].
    apply lookup_insert_Some in H as [[<- <-]|[_ H]]; [split; [by right; left|eauto]|].
    by rewrite lookup_empty in H. }
  split.
  - intros n s Hs Hn. by destruct (H n s Hs).
  - intros n s id Hs. destruct (H n s Hs) as [_ [u ->]]. intros [= <-]. split; [by eexists|].
    vm_compute. left.
  - intros n s id c Hs. destruct (H n s Hs) as [Hn [u ->]]. by intros [= <-] [= <-].
  - intros [|id] c n [= <-] Hn. cbn in Hn. apply list_elem_of_singleton in Hn as ->. left.
Qed.
Lemma demo_conf_ok : conf_ok demo_choice_conf.
Proof.
  split.
  - intros n s H. unfold demo_choice_conf in H. cbn [cf_syms] in H.
    apply lookup_insert_Some in H as [[<- <-]|[_ H]]; [by intros u Hu|].
    apply lookup_insert_Some in H as [[<- <-]|[_ H]]; [by intros u [= <-]|]. by rewrite lookup_empty in H.
  - intros [|id] c [= <-]. split; [by intros v [= <-]|]. intros n [= <-].
    eexists. split; [reflexivity|done].
Qed.

Lemma all_defined {A} (l l' : list (res A)) :
  Forall2 (λ a spec, spec ≠ Err OutOfFuel → a = spec) l l' → Forall (λ a, a ≠ Err OutOfFuel) l' → l = l'.
Proof. induction 1; intros H1; inv H1; f_equal; auto. Qed.

(** B is the user selection; A is selected instead, and both are read again. *)
Definition demo_ops : list op :=
  [OTri (sym_item "A"); OTri (sym_item "B"); OSet "A" (UStr "y"); OTri (sym_item "B"); OSel 0;
   OConfigString "B"; OChoiceUnset 0; OAssignable (Sym "B"); OUnset "A"; OTri (sym_item "A")].

Lemma cached_values_correct_witness :
  spec_ops "CONFIG_" 9 demo_choice_conf demo_ops =
    Ok <$> [ANat 0; ANat 2; ABool true; ANat 0; ASel (Some "A"); AStr (line "# CONFIG_B is not set");
            ADone; AList [2]; ADone; ANat 2] ∧
  run_ops "CONFIG_" (config_deps demo_choice_conf) elements 9 demo_choice_conf no_cache demo_ops =
    spec_ops "CONFIG_" 9 demo_choice_conf demo_ops.
Proof.
  assert (spec_ops "CONFIG_" 9 demo_choice_conf demo_ops =
    Ok <$> [ANat 0; ANat 2; ABool true; ANat 0; ASel (Some "A"); AStr (line "# CONFIG_B is not set");
            ADone; AList [2]; ADone; ANat 2]) as E by (vm_compute; reflexivity).
  split; [exact E|]. apply all_defined.
  - apply (cached_values_correct "CONFIG_" demo_choice_conf elements 9 demo_ops demo_wired demo_conf_ok).
    intros X x. apply elem_of_elements.
  - rewrite E. repeat constructor; discriminate.
Defined.

(** ** What invalidation reaches *)

(** [b] depends on [a] and has a cached visibility. *)
Definition invalidates (D : Deps) (K : Cache) (a b : sc) : Prop :=
  b ∈ dependents D a ∧ is_Some (ca_vis K !! b).

Lemma chain_gone C D K K' x y :
  settles C D K K' → gone K' x → settled C D K' x → rtc (invalidates D K) x y → gone K' y.
Proof.
  intros [[_ Hs] Hset] Hx Hx' Hr. revert Hx Hx'.
  induction Hr as [x|x y z [Hd [v Hv]] _ IH]; intros Hx [Hx' _]; [done|].
  pose proof (Hx' y Hd) as Hy. destruct (Hs y) as [(E & _)|Hg]; [congruence|].
  apply IH; [done|]. apply Hset. intros (E & _). destruct Hg. congruence.
Qed.

(** C34.  Invalidation ends on every configuration, dependency loops
    included; an item keeps all of its cached values or loses all of them,
    and the item given and every item reached from it along dependents with
    cached values has none left. *)
Theorem invalidation_reaches C iter x K :
  (∀ X x, x ∈ iter X ↔ x ∈ X) → defined_sc C x →
  ∃ K', invalidate_from C (config_deps C) iter x K = Ok K' ∧ shrinks K K' ∧
        ∀ y, rtc (invalidates (config_deps C) K) x y → gone K' y.
Proof.
  intros Hiter Hx.
  destruct (invalidate_from_spec C (config_deps C) iter Hiter (dp_defined _ _ (built_deps_ok C)) x K)
    as (K' & E & HS & HG & HT).
  exists K'. split_and!; [done|apply HS|]. intros y. apply (chain_gone C _ K); auto.
Qed.

(** The choice and its two symbols depend on each other. *)
Lemma invalidation_reaches_witness :
  let C := demo_choice_conf in
  let K := (mv_tri (mvals C 9) (sym_item "A") no_cache).2 in
  ca_vis K !! Sym "A" = Some 2 ∧
  ∃ K', invalidate_from C (config_deps C) elements (Sym "B") K = Ok K' ∧ gone K' (Sym "A").
Proof.
  intros C K. split; [vm_compute; reflexivity|].
  destruct (invalidation_reaches C elements (Sym "B") K) as (K' & E & _ & H).
  - intros X x. apply elem_of_elements.
  - right. left.
  - exists K'. split; [exact E|]. apply H.
    eapply rtc_l; [|eapply rtc_l; [|apply rtc_refl]].
    + instantiate (1 := Cho 0). split; [vm_compute; reflexivity|vm_compute; eexists; reflexivity].
    + split; [vm_compute; reflexivity|vm_compute; eexists; reflexivity].
Defined.

(** ** A default outside the choice *)

(** B is outside the choice of A but one of its defaults, and visible when X
    is y.  Kconfiglib warns about such a default and goes on. *)
Definition stray_conf : Conf :=
  mkConf (<["A" := demo_member None]>
         (<["B" := mkSymbol BOOL [Some ("B", EItem (sym_item "X"))] [] [] kn kn ky None None None false]>
         (<["X" := mkSymbol BOOL [Some ("X", ky)] [] [] kn kn ky None None None false]> ∅)))
    [mkChoice BOOL [Some ("choice", ky)] ["A"] [("B", ky)] false None None false] ["A"; "B"; "X"] None.

(** The choice does not depend on B, so the cached selection outlives the
    change of X. *)
Theorem stray_default_stale :
  let l := [OSet "X" (UTri 2); OSel 0; OSet "X" (UTri 0); OSel 0] in
  run_ops "CONFIG_" (config_deps stray_conf) elements 9 stray_conf no_cache l =
    Ok <$> [ABool true; ASel (Some "B"); ABool true; ASel (Some "B")] ∧
  spec_ops "CONFIG_" 9 stray_conf l =
    Ok <$> [ABool true; ASel (Some "B"); ABool true; ASel (Some "A")].
Proof. split; vm_compute; reflexivity. Qed.
End KCacheRun.
