(* ===== verification/KLinks.v ===== *)
(** * Symbols and their choices after finalization

    Rule induction for [_finalize_node], and what it gives: only symbols of
    the tree get a type or a choice, a choice lists exactly symbols whose
    nodes are below one of its nodes, and the dependency and the prompt of
    every node below a choice mention the choice, unless they are the
    constant n. *)
From S2P Require Import Prelude Hex PyStr KExpr KSym KDep KDepSpec KFinal KFinalSpec.

Module KLinks.
Import Hex PyStr KExpr KDep KDepSpec KFinal KFinalSpec.

(** ** Rule induction *)

Section induction.
Context (PN : tnode → list tnode → Fst → tnode → list tnode → Fst → Prop).
Context (PS : list tnode → list tnode → Fst → list tnode → list tnode → Fst → Prop).
Context (PL : list tnode → Fst → list tnode → Fst → Prop).

(** What finalizing one node did to it and the nodes after it. *)
Definition step_ok (t : tnode) (next : list tnode) (t' : tnode) (next' : list tnode) : Prop :=
  parsed t ∧ Forall parsed next ∧ done_node (data t) t' ∧ Forall parsed next' ∧
  nodes t ++ nodes_list next = nodes t' ++ nodes_list next'.

Context (case_sym : ∀ d n next st sub next' st',
  m_item d = MSym n → plain_if d → Forall parsed next → level_ok sub →
  nodes_list next = nodes_list sub ++ nodes_list next' →
  PS [] next (add_props_to_sym st n d) sub next' st' →
  PN (TNode d []) next st (finish_node d sub st').1 next' (finish_node d sub st').2).
Context (case_block : ∀ vi d ch next st ls st',
  (∀ n, m_item d ≠ MSym n) → plain_if d → Forall parsed ch → level_ok ls → nodes_list ch = nodes_list ls →
  ch = [] ∧ ls = [] ∧ st' = st ∨ PL (propagate_deps d vi ch) st ls st' →
  PN (TNode d ch) next st (finish_node d ls st').1 next (finish_node d ls st').2).
Context (case_sub_end : ∀ sub next st, PS sub next st sub next st).
Context (case_sub : ∀ sub t next st t1 next1 st1 sub' next' st',
  step_ok t next t1 next1 → level_ok sub →
  PN t next st t1 next1 st1 → PS (sub ++ [t1]) next1 st1 sub' next' st' → PS sub (t :: next) st sub' next' st').
Context (case_nil : ∀ st, PL [] st [] st).
Context (case_cons : ∀ t l st t1 l1 st1 ls st',
  step_ok t l t1 l1 → nodes_list l1 = nodes_list ls → PN t l st t1 l1 st1 → PL l1 st1 ls st' → PL (t :: l) st (t1 :: ls) st').

Lemma finalize_induction fuel :
  (∀ vi t next st t' next' st', parsed t → Forall parsed next →
     finalize_node fuel vi t next st = Ok (t', next', st') → PN t next st t' next' st') ∧
  (∀ vi n sub next st sub' next' st', level_ok sub → Forall parsed next →
     submenu fuel vi n sub next st = Ok (sub', next', st') → PS sub next st sub' next' st') ∧
  (∀ vi l st l' st', Forall parsed l → finalize_list fuel vi l st = Ok (l', st') → PL l st l' st').
Proof using case_sym case_block case_sub_end case_sub case_nil case_cons.
  induction fuel as [|fuel (IN & IS & IL)]; [done|].
  destruct (finalize_shape fuel) as (SN & SS & SL). split_and!.
  - intros vi [d ch] next st t' next' st' Hp Hn H. cbn [finalize_node] in H.
    assert (plain_if d ∧ (∀ n, m_item d = MSym n → ch = []) ∧ Forall parsed ch) as (Hif & Hsym & Hch) by (by inv Hp).
    assert (∀ vi' r, (∀ n, m_item d ≠ MSym n) →
      r = (match ch with [] => Ok ([], st) | _ => finalize_list fuel vi' (propagate_deps d vi' ch) st end) →
      (let* r := r in let '(t, st) := finish_node d r.1 r.2 in Ok (t, next, st)) = Ok (t', next', st') →
      PN (TNode d ch) next st t' next' st') as Hblock.
    { intros vi' r Hns Er E. destruct r as [[ls st1]|]; [|done]. cbn [res_bind fst snd] in E.
      pose proof (case_block vi' d ch next st ls st1 Hns Hif Hch) as Hc.
      destruct (finish_node d ls st1) as [t0 st2] eqn:Ef. injection E as -> <- ->.
      destruct ch as [|c l].
      - injection Er as -> ->. apply Hc; [by constructor|done|by left].
      - destruct (propagate_level d vi' (c :: l) Hch) as [P1 P2].
        destruct (SL _ _ _ _ _ P1 (eq_sym Er)) as [Q1 Q2]. apply Hc; [done|congruence|right].
        by apply (IL vi'). }
    destruct (m_item d) as [n|id nm| | |] eqn:Ei.
    1: { rewrite (Hsym n eq_refl) in *. destruct (submenu fuel vi n [] next _) as [[[sub nx] st1]|] eqn:E; [|done].
      cbn [res_bind] in H. destruct (SS _ _ _ _ _ _ _ _ (List.Forall_nil _) Hn E) as (L1 & L2 & L3).
      pose proof (case_sym d n next st sub nx st1 Ei Hif Hn L1 L3) as Hc.
      assert ((match sub with [] => [] | _ => sub end) = sub) as Es by (by destruct sub). rewrite Es in H.
      destruct (finish_node d sub st1) as [t0 st2] eqn:Ef. injection H as -> -> ->. apply Hc.
      eapply IS; [constructor|done|exact E]. }
    all: eapply Hblock; [done| |exact H]; destruct ch; reflexivity.
  - intros vi n sub next st sub' next' st' Hs Hn H. cbn [submenu] in H.
    destruct next as [|[c ch] nx]; [injection H as <- <- <-; apply case_sub_end|].
    destruct (auto_menu_dep n c); [|injection H as <- <- <-; apply case_sub_end].
    apply Forall_cons in Hn as [Hc Hn].
    destruct (finalize_node fuel vi (TNode c ch) nx st) as [[[t nx'] st1]|] eqn:E; [|done]. cbn [res_bind] in H.
    destruct (SN _ _ _ _ _ _ _ Hc Hn E) as ([D1 D2] & N1 & N2).
    eapply case_sub; [by split_and!|done|by eapply IN|]. eapply IS; [|exact N1|exact H].
    apply Forall_app. split; [done|]. constructor; [|constructor]. split; [|done]. rewrite D2. by inv Hc.
  - intros vi l st l' st' Hl H. cbn [finalize_list] in H. destruct l as [|t l].
    { injection H as <- <-. apply case_nil. }
    apply Forall_cons in Hl as [Ht Hl].
    destruct (finalize_node fuel vi t l st) as [[[t1 l1] st1]|] eqn:E; [|done]. cbn [res_bind] in H.
    destruct (finalize_list fuel vi l1 st1) as [[ls st2]|] eqn:E2; [|done]. cbn [res_bind fst snd] in H.
    injection H as <- <-. destruct (SN _ _ _ _ _ _ _ Ht Hl E) as (D & N1 & N2).
    destruct (SL _ _ _ _ _ N1 E2) as [_ Q]. eapply case_cons; [by split_and!|done|by eapply IN|by eapply IL].
Qed.

Lemma finalize_rule top st top' st' :
  parsed top → finalize top st = Ok (top', st') → ∃ next, PN top [] st top' next st'.
Proof using case_sym case_block case_sub_end case_sub case_nil case_cons.
  intros Hp H. unfold finalize in H.
  destruct (finalize_node _ ky top [] st) as [[[t nx] st1]|] eqn:E; [|done]. injection H as <- <-.
  exists nx. by eapply (proj1 (finalize_induction _)).
Qed.
End induction.

(** ** Levels of the finished tree *)

Lemma flatten_placed ch : Forall placed ch → flatten ch = ch.
Proof.
  induction ch as [|[c cc] ch IH]; [done|]. intros [[_ Hc] H]%Forall_cons. rewrite flatten_cons.
  destruct Hc as [Hc|Hc]; cbn in Hc; [subst cc|rewrite Hc, andb_false_r]; cbn; by rewrite IH.
Qed.

(** A predicate on trees that holds below flattened nodes and for nodes that
    lose their children holds for the nodes of a finished level. *)
Lemma finished_level (P : tnode → Prop) l :
  (∀ d ch, P (TNode d ch) → flattened d = true → P (TNode d []) ∧ Forall P ch) →
  level_ok l → Forall P l → Forall P (remove_ifs (flatten l)).
Proof.
  intros HP Hl H. cut (Forall P (flatten l)).
  { intros Hf. apply Forall_forall. intros t [_ Ht]%list_elem_of_filter. by eapply Forall_forall. }
  revert H.
  induction Hl as [|[d ch] l [_ Hc] _ IH]; [constructor|]. intros [H1 H2]%Forall_cons. rewrite flatten_cons.
  destruct (negb (bool_decide (ch = [])) && flattened d) eqn:E.
  - apply andb_prop in E as [_ E]. destruct (HP d ch H1 E) as [Q1 Q2].
    rewrite flatten_app. constructor; [done|]. apply Forall_app. split; [|by apply IH].
    inv Hc. by rewrite flatten_placed.
  - constructor; [done|]. by apply IH.
Qed.

(** ** Dependencies on a choice *)

(** The choice is mentioned, unless the expression was reduced to n. *)
Definition about (id : nat) (e : expr) : Prop := Cho id ∈ refs e ∨ e = kn.

Lemma about_and id a b : about id a ∨ about id b → about id (make_and a b).
Proof.
  intros H. unfold make_and. assert (¬ about id ky) as Hy.
  { intros [E|E]; [|done]. unfold refs in E. cbn in E. by apply not_elem_of_nil in E. }
  destruct (decide (a = ky)) as [->|]; [tauto|]. destruct (decide (b = ky)) as [->|]; [tauto|].
  destruct (decide (a = kn ∨ b = kn)) as [|Hn]; [by right|]. left.
  unfold refs. cbn [expr_items]. rewrite omap_app, elem_of_app. unfold about, refs in H. tauto.
Qed.

Definition mentions (id : nat) (d : mdata) : Prop :=
  about id (m_dep d) ∧ ∀ p, m_prompt d = Some p → about id p.2.

Lemma propagate_mentions id base vi d : about id base → mentions id (propagate_to base vi d).
Proof.
  intros Hb. assert (about id (make_and (m_dep d) base)) as Hd by (apply about_and; by right).
  unfold propagate_to, mentions.
  destruct (m_item d); (split; [done|]); cbn [m_prompt]; intros p; destruct (m_prompt d) as [[]|];
    try done; intros [= <-]; cbn [and_cond fst snd];
    apply about_and; right; try done; apply about_and; by right.
Qed.
Lemma propagated_mention id d vi ch :
  about id (basedep d) → Forall (λ t, mentions id (data t)) (propagate_deps d vi ch).
Proof.
  intros Hb. unfold propagate_deps. induction ch as [|[c cc] ch IH]; constructor; [|done].
  by apply propagate_mentions.
Qed.

(** Also below nodes that will be flattened. *)
Inductive deep (id : nat) : tnode → Prop :=
  | deep_node d ch : mentions id d → (flattened d = true → Forall (deep id) ch) → deep id (TNode d ch).

Lemma deep_level id l : level_ok l → Forall (deep id) l → Forall (deep id) (remove_ifs (flatten l)).
Proof.
  apply finished_level. intros d ch H Hf. inv H. split; [|auto]. constructor; [done|]. by constructor.
Qed.
Lemma deep_mentions id t : deep id t → mentions id (data t).
Proof. by intros []. Qed.

Notation all_mention id := (Forall (λ t, mentions id (data t))).

(** Every node below a choice mentions the choice. *)
Inductive linked : tnode → Prop :=
  | linked_node d ch :
      (∀ id nm, m_item d = MChoice id nm → all_mention id ch) → Forall linked ch → linked (TNode d ch).

Lemma linked_level l : level_ok l → Forall linked l → Forall linked (remove_ifs (flatten l)).
Proof.
  apply finished_level. intros d ch H Hf. inv H. split; [|done].
  constructor; [|constructor]. intros id nm E. constructor.
Qed.

Lemma finalize_linked top st top' st' : parsed top → finalize top st = Ok (top', st') → linked top'.
Proof.
  intros Hp H.
  destruct (finalize_rule
    (λ t next _ t' next' _, linked t' ∧
       ∀ id, mentions id (data t) → all_mention id next → deep id t' ∧ all_mention id next')
    (λ sub next _ sub' next' _, (Forall linked sub → Forall linked sub') ∧
       ∀ id, Forall (deep id) sub → all_mention id next → Forall (deep id) sub' ∧ all_mention id next')
    (λ l _ l' _, Forall linked l' ∧ ∀ id, all_mention id l → Forall (deep id) l'))
    with (7 := Hp) (8 := H) as (nx & Hl & _); [..|exact Hl].
  - intros d n nx s sub nx' s' Hi _ _ Hl _ [IL ID]. specialize (IL (List.Forall_nil _)). split.
    + cbn. constructor; [|by apply linked_level]. intros id nm E. congruence.
    + intros id Hd Hn. destruct (ID id (List.Forall_nil _) Hn) as [H1 H2].
      split; [|done]. cbn. constructor; [done|]. intros _. by apply deep_level.
  - intros vi d ch nx s ls s' _ _ _ Hl _ IH. split.
    + cbn. constructor.
      * intros id nm Ei. destruct IH as [(-> & -> & ->)|[_ ID]]; [constructor|].
        eapply Forall_impl; [apply deep_level; [done|apply (ID id), propagated_mention]|apply deep_mentions].
        unfold basedep. rewrite Ei. left. unfold refs. cbn. left.
      * destruct IH as [(-> & -> & ->)|[IL _]]; [constructor|]. by apply linked_level.
    + intros id Hd Hn. split; [|done]. cbn. constructor; [done|]. intros Hf.
      destruct IH as [(-> & -> & ->)|[_ ID]]; [constructor|]. apply deep_level; [done|].
      apply ID, propagated_mention. unfold basedep. destruct Hd as [Hd _].
      destruct (m_item d) eqn:Ei; try done. unfold flattened in Hf. rewrite Ei in Hf. by destruct (m_prompt d).
  - done.
  - intros sub t nx s t1 nx1 s1 sub' nx' s' _ _ [IN1 IN2] [IS1 IS2]. split.
    + intros Hs. apply IS1, Forall_app. split; [done|]. by constructor.
    + intros id Hs [Ht Hn]%Forall_cons. destruct (IN2 id Ht Hn) as [H1 H2]. apply IS2; [|done].
      apply Forall_app. split; [done|]. by constructor.
  - intros s. split; [constructor|]. constructor.
  - intros t l s t1 l1 s1 ls s' _ _ [IN1 IN2] [IL1 IL2]. split; [by constructor|].
    intros id [Ht Hl]%Forall_cons. destruct (IN2 id Ht Hl). constructor; auto.
Qed.

(** ** Properties of every node *)

Inductive every (P : mdata → Prop) : tnode → Prop :=
  | every_node d ch : P d → Forall (every P) ch → every P (TNode d ch).

Lemma finalize_top top st top' st' : parsed top → finalize top st = Ok (top', st') → data top' = data top.
Proof.
  intros Hp H. by destruct (finalize_rule (λ t _ _ t' _ _, data t' = data t) (λ _ _ _ _ _ _, True) (λ _ _ _ _, True))
    with (7 := Hp) (8 := H) as (nx & Hl).
Qed.

(** Finalization keeps what its propagation of dependencies keeps. *)
Lemma finalize_every (P : mdata → Prop) top st top' st' :
  (∀ base vi d, P d → P (propagate_to base vi d)) →
  every P top → parsed top → finalize top st = Ok (top', st') → every P top'.
Proof.
  intros HP Ht Hp H. assert (∀ l, level_ok l → Forall (every P) l → Forall (every P) (remove_ifs (flatten l))) as Hlevel.
  { intros l. apply finished_level. intros d ch E _. inv E. by repeat constructor. }
  assert (∀ d vi ch, Forall (every P) ch → Forall (every P) (propagate_deps d vi ch)) as Hprop.
  { intros d vi ch. unfold propagate_deps. induction 1 as [|[c cc] l Hc _ IH]; [constructor|]. inv Hc.
    constructor; [|exact IH]. constructor; auto. }
  destruct (finalize_rule
    (λ t next _ t' next' _, every P t → Forall (every P) next → every P t' ∧ Forall (every P) next')
    (λ sub next _ sub' next' _, Forall (every P) sub → Forall (every P) next →
       Forall (every P) sub' ∧ Forall (every P) next')
    (λ l _ l' _, Forall (every P) l → Forall (every P) l'))
    with (7 := Hp) (8 := H) as (nx & Hl); [..|by apply Hl].
  - intros d n next s sub next' s' _ _ _ Hl _ IH He Hn. inv He.
    destruct (IH (List.Forall_nil _) Hn) as [Q1 Q2]. split; [|done]. constructor; [done|]. by apply Hlevel.
  - intros vi d ch next s ls s' _ _ _ Hl _ IH He Hn. inv He. split; [|done]. constructor; [done|].
    destruct IH as [(-> & -> & ->)|IH]; [constructor|]. by apply Hlevel, IH, Hprop.
  - done.
  - intros sub t next s t1 next1 s1 sub' next' s' _ _ IN IS Hs [H1 H2]%Forall_cons.
    destruct (IN H1 H2) as [H3 H4]. apply IS; [|done]. apply Forall_app. split; [done|]. by constructor.
  - constructor.
  - intros t l s t1 l1 s1 ls s' _ _ IN IL [H1 H2]%Forall_cons. destruct (IN H1 H2) as [H3 H4].
    constructor; [done|]. by apply IL.
Qed.

(** ** Types and choices *)

Lemma put_choice_get st id c j :
  get_choice (put_pchoice st id c) j = if decide (j = id) then c else get_choice st j.
Proof.
  unfold get_choice, put_pchoice. cbn [f_choices]. destruct (decide (j = id)) as [->|Hn].
  - by rewrite lookup_insert_eq.
  - by rewrite lookup_insert_ne.
Qed.

(** The type and the choice of a symbol. *)
Definition tc (st : Fst) (n : string) : styp * option nat := (p_type (get_sym st n), p_choice (get_sym st n)).

Lemma tc_foldl {A} (f : Fst → A → Fst) l st n :
  (∀ st a, tc (f st a) n = tc st n) → tc (foldl f st l) n = tc st n.
Proof. intros Hf. revert st. induction l as [|a l IH]; intros st; [done|]. cbn. by rewrite IH, Hf. Qed.

Lemma add_props_tc st m d n : tc (add_props_to_sym st m d) n = tc st n.
Proof.
  unfold add_props_to_sym. rewrite tc_foldl, tc_foldl.
  - unfold copy_props, tc. rewrite get_put. by case_decide; subst.
  - intros s [x c]. unfold add_rev_dep, tc. rewrite get_put. by case_decide; subst.
  - intros s [x c]. unfold add_weak_rev_dep, tc. rewrite get_put. by case_decide; subst.
Qed.
Lemma add_props_choices st m d : f_choices (add_props_to_sym st m d) = f_choices st.
Proof.
  unfold add_props_to_sym. rewrite !foldl_choices; [done|..]; by intros s [x c].
Qed.

(** Finalizing a choice, after its own properties have been copied. *)
Section choice.
Context (st : Fst) (id : nat) (d : mdata) (ch : list tnode).
Notation st' := (finalize_choice (copy_choice_props st id d) id ch).

Lemma choice_get_of j :
  let c := get_choice st' j in
  pc_syms c = (if decide (j = id) then pc_syms (get_choice st id) ++ node_syms ch
               else pc_syms (get_choice st j)) ∧
  pc_defaults c = (if decide (j = id) then pc_defaults (get_choice st id) ++ m_defaults d
                   else pc_defaults (get_choice st j)).
Proof.
  assert (∀ s, f_choices (foldl (set_choice_of id) s (node_syms ch)) = f_choices s) as H1.
  { intros s. by apply foldl_choices. }
  unfold finalize_choice. set (st1 := foldl (set_choice_of id) _ (node_syms ch)).
  assert (∀ s t l, get_choice (foldl (set_type_of t) s l) j = get_choice s j) as H2.
  { intros s ty l. unfold get_choice. by rewrite (foldl_choices (set_type_of ty)) by apply set_type_choices. }
  rewrite H2, put_choice_get. unfold copy_choice_props in st1.
  assert (∀ k, get_choice st1 k = get_choice (put_pchoice st id (mkPchoice (pc_type (get_choice st id))
    (make_or (pc_direct_dep (get_choice st id)) (m_dep d)) (pc_defaults (get_choice st id) ++ m_defaults d)
    (pc_syms (get_choice st id)))) k) as H3.
  { intros k. unfold get_choice. unfold st1. by rewrite H1. }
  case_decide; [subst; cbn; by rewrite H3, put_choice_get, decide_True|].
  by rewrite H3, put_choice_get, decide_False.
Qed.
Lemma choice_syms_of j :
  pc_syms (get_choice st' j) = if decide (j = id) then pc_syms (get_choice st id) ++ node_syms ch
                               else pc_syms (get_choice st j).
Proof. apply choice_get_of. Qed.
Lemma choice_defaults_of j :
  pc_defaults (get_choice st' j) = if decide (j = id) then pc_defaults (get_choice st id) ++ m_defaults d
                                   else pc_defaults (get_choice st j).
Proof. apply choice_get_of. Qed.
Lemma choice_tc n :
  p_choice (get_sym st' n) = (if decide (n ∈ node_syms ch) then Some id else p_choice (get_sym st n)) ∧
  (n ∉ pc_syms (get_choice st' id) → p_type (get_sym st' n) = p_type (get_sym st n)).
Proof.
  rewrite choice_syms_of, (decide_True (P := id = id)) by done.
  unfold finalize_choice. set (st1 := foldl (set_choice_of id) _ (node_syms ch)).
  assert (pc_syms (get_choice st1 id) = pc_syms (get_choice st id)) as Hc.
  { unfold get_choice at 1, st1. rewrite (foldl_choices (set_choice_of id)) by done.
    fold (get_choice (copy_choice_props st id d) id). unfold copy_choice_props.
    by rewrite put_choice_get, decide_True. }
  rewrite Hc.
  match goal with |- context [foldl (set_type_of ?t) ?s ?l] => destruct (set_type_fold t l s n) as [T1 T2] end.
  rewrite T1, T2. unfold put_pchoice, get_sym. cbn [f_syms]. fold (get_sym st1 n). fold (get_sym st n).
  unfold st1. rewrite set_choice_fold. cbn zeta. change (get_sym (copy_choice_props st id d) n) with (get_sym st n).
  split; [repeat case_decide; done|]. intros Hn. rewrite decide_False by tauto. repeat case_decide; done.
Qed.
End choice.

(** The items of a tree, of a configuration with the symbols [L] and the
    choices [N]. *)
Definition item_in (L : list string) (N : list nat) (it : mitem) : Prop :=
  match it with MSym n => n ∈ L | MChoice id _ => id ∈ N | _ => True end.

Record wf_fst (L : list string) (N : list nat) (st : Fst) : Prop := {
  wf_type n : n ∉ L → p_type (get_sym st n) = UNKNOWN;
  wf_choice n id : p_choice (get_sym st n) = Some id → n ∈ pc_syms (get_choice st id) ∧ id ∈ N;
  wf_syms id n : n ∈ pc_syms (get_choice st id) → n ∈ L;
  wf_defaults id : id ∉ N → pc_defaults (get_choice st id) = []
}.

Lemma wf_add_props L N st m d : wf_fst L N st → wf_fst L N (add_props_to_sym st m d).
Proof.
  intros [W1 W2 W3 W4].
  assert (∀ n, p_type (get_sym (add_props_to_sym st m d) n) = p_type (get_sym st n) ∧
               p_choice (get_sym (add_props_to_sym st m d) n) = p_choice (get_sym st n)) as H.
  { intros n. pose proof (add_props_tc st m d n) as E. by injection E. }
  assert (∀ id, get_choice (add_props_to_sym st m d) id = get_choice st id) as Hc.
  { intros id. unfold get_choice. by rewrite add_props_choices. }
  split.
  - intros n Hn. rewrite (proj1 (H n)). auto.
  - intros n id. rewrite (proj2 (H n)), Hc. auto.
  - intros id n. rewrite Hc. apply W3.
  - intros id. rewrite Hc. apply W4.
Qed.

Lemma wf_finalize_choice L N st id d ch :
  (∀ n, n ∈ node_syms ch → n ∈ L) → id ∈ N → wf_fst L N st →
  wf_fst L N (finalize_choice (copy_choice_props st id d) id ch).
Proof.
  intros Hch Hid [W1 W2 W3 W4].
  assert (∀ j n, n ∈ pc_syms (get_choice (finalize_choice (copy_choice_props st id d) id ch) j) → n ∈ L) as H3.
  { intros j n. rewrite choice_syms_of. case_decide; [rewrite elem_of_app; intros [?|?]; eauto|eauto]. }
  split.
  - intros n Hn. rewrite (proj2 (choice_tc st id d ch n)) by (intros H; by apply Hn, (H3 id)). auto.
  - intros n j. rewrite (proj1 (choice_tc st id d ch n)), choice_syms_of.
    destruct (decide (n ∈ node_syms ch)) as [Hin|Hin].
    + intros [= <-]. rewrite decide_True by done. split; [apply elem_of_app; by right|done].
    + intros E. destruct (W2 n j E) as [E1 E2]. split; [|done].
      case_decide; [subst; apply elem_of_app; by left|done].
  - exact H3.
  - intros j Hj. rewrite choice_defaults_of. case_decide; [by subst|auto].
Qed.

(** *** Which symbols are below which choices *)

(** The symbols directly below choices. *)
Inductive under (id : nat) (n : string) : tnode → Prop :=
  | under_here d nm ch : m_item d = MChoice id nm → n ∈ node_syms ch → under id n (TNode d ch)
  | under_in d ch : Exists (under id n) ch → under id n (TNode d ch).

Lemma under_level id n l :
  level_ok l → Exists (under id n) l → Exists (under id n) (remove_ifs (flatten l)).
Proof.
  intros Hl H.
  assert (∃ t, t ∈ flatten l ∧ under id n t ∧ m_item (data t) ≠ MIf) as (t & Ht & Hb & Hi).
  { induction Hl as [|[d ch] l [Hp Hc] _ IH]; [by apply Exists_nil in H|]. rewrite flatten_cons.
    cbn [data] in Hp. apply Exists_cons in H as [H|H].
    - destruct (negb (bool_decide (ch = [])) && flattened d) eqn:E.
      + apply andb_prop in E as [_ E]. inv H.
        { exfalso. unfold flattened in E. match goal with Hd : m_item d = _ |- _ => rewrite Hd in E end.
          by destruct (m_prompt d). }
        inv Hc. match goal with He : Exists _ ch |- _ => apply Exists_exists in He as (t & Ht & Hb) end.
        match goal with Hf : Forall placed ch |- _ => pose proof Hf as Hpl end.
        rewrite Forall_forall in Hpl. exists t. split_and!; [|done|by apply Hpl].
        right. rewrite flatten_app, flatten_placed by done. apply elem_of_app. by left.
      + exists (TNode d ch). split_and!; [by left|done|]. cbn. intros Hm.
        apply andb_false_iff in E as [E|E].
        * apply negb_false_iff, bool_decide_eq_true in E. subst ch.
          inversion H as [? ? ? Ei Hns|? ? Hex]; [by apply not_elem_of_nil in Hns|by apply Exists_nil in Hex].
        * unfold flattened in E. by rewrite (Hp Hm), Hm in E.
    - destruct (IH H) as (t & Ht & Hb & Hm). exists t. split_and!; [|done|done].
      destruct (negb _ && _); [rewrite flatten_app|]; right; [apply elem_of_app; by right|done]. }
  apply Exists_exists. exists t. split; [|done]. apply list_elem_of_filter. split; [|done].
  destruct t as [d ch]. cbn in *. by rewrite bool_decide_eq_false_2.
Qed.

Lemma node_syms_level ch n :
  n ∈ node_syms ch → MSym n ∈ (nodes_list ch).*2.
Proof.
  induction ch as [|[d cc] ch IH]; [by intros ?%not_elem_of_nil|]. cbn [nodes_list mbind list_bind node_syms omap list_omap].
  rewrite nodes_eq, !fmap_app, !elem_of_app. fold (node_syms ch). fold (nodes_list ch).
  destruct (m_item d) as [m| | | |] eqn:E; [|auto..]. intros [->|H]%elem_of_cons; [|auto].
  left. left. cbn. by left.
Qed.

Definition all_in (L : list string) (N : list nat) (l : list (nat * mitem)) : Prop := Forall (item_in L N) l.*2.
Lemma all_in_app L N l1 l2 : all_in L N (l1 ++ l2) ↔ all_in L N l1 ∧ all_in L N l2.
Proof. unfold all_in. rewrite fmap_app. apply Forall_app. Qed.

(** New symbols of choices come from nodes below the choice. *)
Definition from_under (st st' : Fst) (P : nat → string → Prop) : Prop :=
  ∀ id n, n ∈ pc_syms (get_choice st' id) → n ∈ pc_syms (get_choice st id) ∨ P id n.

Lemma finish_wf L N d l st :
  level_ok l → all_in L N (nodes (TNode d l)) → wf_fst L N st →
  wf_fst L N (finish_node d l st).2 ∧
  from_under st (finish_node d l st).2 (λ id n, under id n (finish_node d l st).1) ∧
  (∀ id n, Exists (under id n) l → under id n (finish_node d l st).1).
Proof.
  intros Hl Hin HW. pose proof (finish_level d l st Hl) as (Hn & _ & _). split_and!.
  - cbn [finish_node fst snd] in *. destruct (m_item d) as [|id nm| | |] eqn:Ei; try done.
    rewrite nodes_eq, Ei, bool_decide_eq_false_2 in Hin by done. unfold all_in in Hin. cbn [app fmap list_fmap snd] in Hin.
    inversion Hin as [|? ? Hid Hrest]; subst. apply wf_finalize_choice; [|exact Hid|done].
    intros n Hns. apply node_syms_level in Hns.
    rewrite !nodes_eq, Ei, bool_decide_eq_false_2 in Hn by done. injection Hn as Hn. rewrite Hn in Hns.
    exact (proj1 (Forall_forall _ _) Hrest (MSym n) Hns).
  - intros id n. cbn. destruct (m_item d) as [|j nm| | |] eqn:Ei; try (by left).
    rewrite choice_syms_of. case_decide; [|by left]. subst j. rewrite elem_of_app. intros [?|H]; [by left|right].
    by eapply under_here.
  - intros id n H. cbn. apply under_in. by apply under_level.
Qed.

Lemma from_under_trans st1 st2 st3 (P Q R : nat → string → Prop) :
  from_under st1 st2 P → from_under st2 st3 Q → (∀ id n, P id n → R id n) → (∀ id n, Q id n → R id n) →
  from_under st1 st3 R.
Proof. intros H1 H2 HP HQ id n H. destruct (H2 id n H) as [H'|]; [destruct (H1 id n H')|]; auto. Qed.

Section wf.
Context (L : list string) (N : list nat).

Definition wf_node (t : tnode) (next : list tnode) (st : Fst) (t' : tnode) (next' : list tnode) (st' : Fst) : Prop :=
  all_in L N (nodes t ++ nodes_list next) → wf_fst L N st →
  wf_fst L N st' ∧ from_under st st' (λ id n, under id n t').
Definition wf_sub (sub next : list tnode) (st : Fst) (sub' next' : list tnode) (st' : Fst) : Prop :=
  (∀ id n, Exists (under id n) sub → Exists (under id n) sub') ∧
  (all_in L N (nodes_list sub ++ nodes_list next) → wf_fst L N st →
   wf_fst L N st' ∧ from_under st st' (λ id n, Exists (under id n) sub')).
Definition wf_list (l : list tnode) (st : Fst) (l' : list tnode) (st' : Fst) : Prop :=
  all_in L N (nodes_list l) → wf_fst L N st →
  wf_fst L N st' ∧ from_under st st' (λ id n, Exists (under id n) l').

(** The last step, after the children. *)
Lemma wf_finish d l st st1 :
  level_ok l → all_in L N (nodes (TNode d l)) → wf_fst L N st1 →
  from_under st st1 (λ id n, Exists (under id n) l) →
  wf_fst L N (finish_node d l st1).2 ∧ from_under st (finish_node d l st1).2 (λ id n, under id n (finish_node d l st1).1).
Proof using.
  intros Hl Hin HW HB. destruct (finish_wf L N d l st1 Hl Hin HW) as (H1 & H2 & H3). split; [done|].
  by eapply from_under_trans.
Qed.

Lemma all_in_cons t l : all_in L N (nodes_list (t :: l)) ↔ all_in L N (nodes t ++ nodes_list l).
Proof using. done. Qed.

Lemma finalize_wf top st top' st' :
  parsed top → finalize top st = Ok (top', st') → all_in L N (nodes top) → wf_fst L N st →
  wf_fst L N st' ∧ from_under st st' (λ id n, under id n top').
Proof using.
  intros Hp H Hin HW.
  destruct (finalize_rule wf_node wf_sub wf_list) with (7 := Hp) (8 := H) as (nx & Hn);
    [..|apply Hn; [by rewrite app_nil_r|done]]; clear.
  - intros d n nx st sub nx' st' Hi _ _ Hl Hs [_ IS] Hin HW.
    rewrite all_in_app in Hin. destruct Hin as [Hd Hn].
    destruct IS as [W1 B1]; [done|by apply wf_add_props|].
    assert (from_under st st' (λ id n, Exists (under id n) sub)) as HB.
    { intros id m Hm. destruct (B1 id m Hm) as [E|]; [left|by right].
      unfold get_choice in E. by rewrite add_props_choices in E. }
    apply wf_finish; try done. rewrite nodes_eq in Hd |- *. rewrite all_in_app in Hd |- *.
    split; [apply Hd|]. rewrite Hs, all_in_app in Hn. apply Hn.
  - intros vi d ch nx st ls st' _ _ Hch Hl Hs IH Hin HW. rewrite all_in_app in Hin. destruct Hin as [Hd _].
    rewrite nodes_eq, all_in_app in Hd. destruct Hd as [Hd Hc].
    assert (wf_fst L N st' ∧ from_under st st' (λ id n, Exists (under id n) ls)) as [W1 B1].
    { destruct IH as [(-> & -> & ->)|IH]; [split; [done|by left]|]. apply IH; [|done].
      by rewrite (proj2 (propagate_level d vi ch Hch)). }
    apply wf_finish; try done. rewrite nodes_eq, all_in_app. by rewrite <- Hs.
  - intros sub nx st. split; [done|]. intros _ HW. split; [done|by left].
  - intros sub t nx st t1 nx1 st1 sub' nx' st' (_ & _ & _ & _ & En) _ IN [IS1 IS2]. split.
    + intros id n He. apply IS1, Exists_app. by left.
    + rewrite all_in_app, all_in_cons. intros [Hs Hin] HW. destruct (IN Hin HW) as [W1 B1].
      rewrite En, all_in_app in Hin. destruct Hin as [Ht Hx].
      destruct IS2 as [W2 B2]; [|done|].
      { rewrite nodes_list_app, !all_in_app. split; [split; [done|]|done]. cbn. by rewrite app_nil_r. }
      split; [done|]. eapply from_under_trans; [exact B1|exact B2| |done].
      intros id n Hb. apply IS1, Exists_app. right. by left.
  - intros st _ HW. split; [done|by left].
  - intros t l st t1 l1 st1 ls st' (_ & _ & _ & _ & En) _ IN IL. unfold wf_list. rewrite all_in_cons. intros Hin HW.
    destruct (IN Hin HW) as [W1 B1]. rewrite En, all_in_app in Hin. destruct Hin as [Ht Hx].
    destruct (IL Hx W1) as [W2 B2]. split; [done|]. eapply from_under_trans; [exact B1|exact B2|..].
    + intros id n Hb. by left.
    + intros id n Hb. by right.
Qed.
End wf.

(** ** The finished tree as a list of nodes *)

Lemma tnode_ind' (P : tnode → Prop) : (∀ d ch, Forall P ch → P (TNode d ch)) → ∀ t, P t.
Proof.
  intros H. fix IH 1. intros [d ch]. apply H. induction ch as [|t ch IHl]; constructor; [apply IH|done].
Qed.
End KLinks.
