(* ===== verification/KPrint.v ===== *)
(** * tools/kconfig/kconfiglib.py: printing the menu tree

    [node_iter], the [orig_*] properties of menu nodes, symbols and choices,
    [referenced], and the Kconfig text that [MenuNode.custom_str] gives for a
    node of the finished menu tree. *)
From S2P Require Import Prelude Hex PyStr KExpr KLex KFinal KMenu.

Module KPrint.
Import Hex PyStr KExpr KLex KFinal KMenu.

(** ** Iteration *)

(** The nodes below a node in definition order, each with the item of its
    parent. *)
Fixpoint walk_below (parent : mitem) (t : tnode) : list (mitem * mdata) :=
  match t with
  | TNode d children =>
      (parent, d) :: (fix walk_list (l : list tnode) : list (mitem * mdata) :=
                        match l with [] => [] | t :: l => walk_below (m_item d) t ++ walk_list l end) children
  end.

(** [node_iter] from the top node, which is left out. *)
Definition node_iter (top : tnode) : list (mitem * mdata) :=
  match top with TNode d children => children ≫= walk_below (m_item d) end.

(** With [unique_syms], only the first node of a symbol. *)
Fixpoint first_nodes (visited : list string) (l : list (mitem * mdata)) : list (mitem * mdata) :=
  match l with
  | [] => []
  | pd :: l =>
      match m_item pd.2 with
      | MSym n => if bool_decide (n ∈ visited) then first_nodes visited l
                  else pd :: first_nodes (n :: visited) l
      | _ => pd :: first_nodes visited l
      end
  end.
Definition node_iter_unique (top : tnode) : list (mitem * mdata) := first_nodes [] (node_iter top).

(** ** What was written on a node *)

(** [_strip_dep].  The source compares by identity: [dep] is an object that
    [_propagate_deps] added to the end of the conditions. *)
Definition strip_dep (dep e : expr) : expr :=
  if decide (e = dep) then ky
  else match e with
       | EAnd e1 e2 => if decide (e2 = dep) then e1 else e
       | _ => e
       end.
Definition strip_cond {A} (dep : expr) (p : A * expr) : A * expr := (p.1, strip_dep dep p.2).

Definition orig_prompt (d : mdata) : option (string * expr) := strip_cond (m_dep d) <$> m_prompt d.
Definition orig_defaults (d : mdata) : list (expr * expr) := strip_cond (m_dep d) <$> m_defaults d.
Definition orig_selects (d : mdata) : list (string * expr) := strip_cond (m_dep d) <$> m_selects d.
Definition orig_implies (d : mdata) : list (string * expr) := strip_cond (m_dep d) <$> m_implies d.
Definition orig_ranges (d : mdata) : list (item * item * expr) := strip_cond (m_dep d) <$> m_ranges d.

(** [MenuNode.referenced]; the source collects a set. *)
Definition referenced (d : mdata) : list item :=
  expr_items (m_dep d) ++
  match m_prompt d with Some p => expr_items p.2 | None => [] end ++
  (if bool_decide (m_item d = MMenu) then expr_items (m_visibility d) else []) ++
  (m_defaults d ≫= λ vc, expr_items vc.1 ++ expr_items vc.2) ++
  (m_selects d ≫= λ nc, SymItem false nc.1 :: expr_items nc.2) ++
  (m_implies d ≫= λ nc, SymItem false nc.1 :: expr_items nc.2) ++
  (m_ranges d ≫= λ r, [r.1.1; r.1.2] ++ expr_items r.2).

(** The nodes of a symbol or choice. *)
Definition item_nodes (nodes : list (mitem * mdata)) (it : mitem) : list mdata :=
  filter (λ d, m_item d = it) nodes.*2.
Definition item_orig_defaults (nodes : list (mitem * mdata)) (it : mitem) : list (expr * expr) :=
  item_nodes nodes it ≫= orig_defaults.
Definition item_orig_selects (nodes : list (mitem * mdata)) (it : mitem) : list (string * expr) :=
  item_nodes nodes it ≫= orig_selects.
Definition item_orig_implies (nodes : list (mitem * mdata)) (it : mitem) : list (string * expr) :=
  item_nodes nodes it ≫= orig_implies.
Definition item_orig_ranges (nodes : list (mitem * mdata)) (it : mitem) : list (item * item * expr) :=
  item_nodes nodes it ≫= orig_ranges.
Definition item_referenced (nodes : list (mitem * mdata)) (it : mitem) : list item :=
  item_nodes nodes it ≫= referenced.

(** ** Kconfig text *)

(** [s.splitlines()] *)
Definition line_end (c : ascii) : bool :=
  existsb (Ascii.eqb c) ["010"; "011"; "012"; "013"; "028"; "029"; "030"]%char.
Fixpoint splitlines (s : string) : list string :=
  match s with
  | EmptyString => []
  | String c s' =>
      if line_end c then
        match s' with
        | String d s'' =>
            if Ascii.eqb c "013" && Ascii.eqb d nl then "" :: splitlines s'' else "" :: splitlines s'
        | EmptyString => [""]
        end
      else match splitlines s' with
           | l :: ls => String c l :: ls
           | [] => [String c ""]
           end
  end.

Section print.
(** What parsing and finalization left, and how symbols are printed. *)
Context (D : Df) (F : Fst) (fn : item → string).

Definition tab (s : string) : string := String "009" s.
Definition with_cond (s : string) (cond : expr) : string :=
  if decide (cond = ky) then s else s +:+ " if " +:+ expr_str fn cond.

Definition item_type (it : mitem) : styp :=
  match it with
  | MSym n => p_type (get_sym F n)
  | MChoice id _ => pc_type (get_choice F id)
  | _ => UNKNOWN
  end.
Definition is_menuconfig (d : mdata) : bool :=
  match m_info d with Some i => i_is_menuconfig i | None => false end.
Definition node_help (d : mdata) : option string := m_info d ≫= i_help.

Definition first_line (d : mdata) : string :=
  match m_item d with
  | MSym n => (if is_menuconfig d then "menuconfig " else "config ") +:+ n
  | MChoice _ (Some nm) => if String.eqb nm "" then "choice" else "choice " +:+ nm
  | _ => "choice"
  end.

Definition prompt_lines (d : mdata) : list string :=
  let t := item_type (m_item d) in
  match orig_prompt d with
  | None => if decide (t = UNKNOWN) then [] else [TYPE_TO_STR t]
  | Some (p, cond) =>
      [with_cond ((if decide (t = UNKNOWN) then "prompt" else TYPE_TO_STR t) +:+ " " +:+
         String quote (escape p +:+ String quote "")) cond]
  end.

(** The lines for the attributes of a symbol. *)
Definition option_lines (n : string) : list string :=
  (if bool_decide (n ∈ df_allnoconfig_y D) then ["option allnoconfig_y"] else []) ++
  (if bool_decide (df_defconfig_list D = Some (MSym n)) then ["option defconfig_list"] else []) ++
  match df_env D !! n with
  | Some v => ["option env=" +:+ String quote (v +:+ String quote "")]
  | None => []
  end ++
  (if String.eqb n "MODULES" then ["option modules"] else []).

Definition range_line (r : item * item * expr) : string :=
  with_cond ("range " +:+ fn r.1.1 +:+ " " +:+ fn r.1.2) r.2.
Definition default_line (vc : expr * expr) : string := with_cond ("default " +:+ expr_str fn vc.1) vc.2.
Definition select_line (kw : string) (nc : string * expr) : string :=
  with_cond (kw +:+ fn (SymItem false nc.1)) nc.2.

(** [_sym_choice_node_str] *)
Definition sym_choice_lines (d : mdata) : list string :=
  first_line d :: map tab (
    prompt_lines d ++
    match m_item d with MSym n => option_lines n ++ map range_line (orig_ranges d) | _ => [] end ++
    map default_line (orig_defaults d) ++
    match m_item d with
    | MChoice id _ => if bool_decide (id ∈ df_optional D) then ["optional"] else []
    | MSym _ => map (select_line "select ") (orig_selects d) ++ map (select_line "imply ") (orig_implies d)
    | _ => []
    end ++
    (if decide (m_dep d = ky) then [] else ["depends on " +:+ expr_str fn (m_dep d)]) ++
    match node_help d with
    | Some h => "help" :: map (λ l, "  " +:+ l) (splitlines h)
    | None => []
    end).
Definition sym_choice_node_str (d : mdata) : string := String.concat (String nl "") (sym_choice_lines d).

(** [_menu_comment_node_str] *)
Definition menu_comment_node_str (d : mdata) (prompt : string) : string :=
  (match m_item d with MMenu => "menu" | _ => "comment" end) +:+ " " +:+ String quote (prompt +:+ String quote "")
  +:+ (if decide (m_dep d = ky) then "" else String nl (tab "depends on " +:+ expr_str fn (m_dep d)))
  +:+ (if bool_decide (m_item d = MMenu) && negb (bool_decide (m_visibility d = ky))
       then String nl (tab "visible if " +:+ expr_str fn (m_visibility d)) else "").

(** [MenuNode.custom_str] *)
Definition node_str (d : mdata) : res string :=
  match m_item d with
  | MMenu | MComment => match m_prompt d with
                        | Some p => Ok (menu_comment_node_str d p.1)
                        | None => Err TypeError
                        end
  | MSym _ | MChoice _ _ => Ok (sym_choice_node_str d)
  | MIf => Err AttributeError
  end.

(** [Symbol.custom_str], [Choice.custom_str] *)
Definition item_str (nodes : list (mitem * mdata)) (it : mitem) : string :=
  String.concat (String nl (String nl "")) (map sym_choice_node_str (item_nodes nodes it)).
End print.

(** [name_and_loc] of a symbol or choice; constants have no locations. *)
Definition item_name_and_loc (D : Df) (i : item) : string :=
  match i with
  | SymItem true n => n +:+ " " +:+ locs []
  | SymItem false n => n +:+ " " +:+ locs (default [] (df_sym_locs D !! n))
  | ChoiceItem id _ => standard_sc_expr_str i +:+ " " +:+ locs (default [] (df_choice_locs D !! id))
  end.

End KPrint.
