(* ===== verification/KPrintSpec.v ===== *)
(** * Printed menu nodes show what was written

    The [orig_*] properties undo what finalization adds to the conditions of a
    menu node, and where they do not. *)
From S2P Require Import Prelude Hex PyStr KExpr KSym KLex KFinal KMenu KPrint.

Module KPrintSpec.
Import Hex PyStr KExpr KSym KLex KFinal KMenu KPrint.

(** A condition that does not end in [&& y]. *)
Definition plain_cond (e : expr) : Prop := ∀ x, e ≠ EAnd x ky.

Lemma and_not_right e dep : EAnd e dep ≠ dep.
Proof.
  assert (∀ e : expr, ∀ x, EAnd x e ≠ e) as H; [|apply H]. clear.
  intros e. induction e as [|a _ b IH| | |]; intros x; try done. by intros [= _ E%IH].
Qed.

Lemma strip_make_and e dep : dep ≠ kn → plain_cond e → strip_dep dep (make_and e dep) = e.
Proof.
  intros Hn Hp. unfold make_and, strip_dep.
  destruct (decide (e = ky)) as [->|Hy]; [by rewrite decide_True|].
  destruct (decide (dep = ky)) as [->|Hdy].
  - rewrite decide_False by done. destruct e; try done. case_decide; [|done]. subst. by destruct (Hp e1).
  - destruct (decide (e = kn ∨ dep = kn)) as [[->|]|_]; [|done|].
    + by rewrite decide_False.
    + rewrite decide_False by apply and_not_right. by rewrite decide_True.
Qed.

Lemma strip_conds {A} dep (l : list (A * expr)) :
  dep ≠ kn → Forall (λ p, plain_cond p.2) l → (strip_cond dep <$> (and_cond dep <$> l)) = l.
Proof.
  intros Hn. induction 1 as [|[a e] l Hp _ IH]; [done|]. cbn [fmap list_fmap] in *. rewrite IH.
  unfold strip_cond, and_cond. cbn [fst snd] in *. by rewrite strip_make_and.
Qed.

(** All conditions of a node. *)
Definition plain_node (d : mdata) : Prop :=
  (∀ p, m_prompt d = Some p → plain_cond p.2) ∧ Forall (λ p, plain_cond p.2) (m_defaults d) ∧
  Forall (λ p, plain_cond p.2) (m_ranges d) ∧ Forall (λ p, plain_cond p.2) (m_selects d) ∧
  Forall (λ p, plain_cond p.2) (m_implies d).

(** The condition [orig_prompt] shows for a prompt written with the condition
    [e], below a "visible if" with the condition [vi] (y without one). *)
Definition orig_cond (vi dep e : expr) : expr :=
  if decide (e = ky) then vi else if decide (vi = ky) then e else make_and e (make_and vi dep).

Lemma and_and_not e vi dep : EAnd e (EAnd vi dep) ≠ dep.
Proof.
  assert (∀ e : expr, ∀ x y, EAnd x (EAnd y e) ≠ e) as H; [|apply H]. clear.
  intros e. induction e as [|a _ b IH| | |]; intros x y; try done. by intros [= _ E%IH].
Qed.
Lemma make_and_n e : make_and e kn = kn.
Proof. unfold make_and. repeat case_decide; [done..|naive_solver]. Qed.
Lemma make_and_not_y e1 e2 : e1 ≠ ky → e2 ≠ ky → make_and e1 e2 = kn ∨ make_and e1 e2 = EAnd e1 e2.
Proof. intros H1 H2. unfold make_and. rewrite !decide_False by done. case_decide; auto. Qed.
Lemma make_and_y e : make_and ky e = e ∧ make_and e ky = e.
Proof. unfold make_and. split; repeat case_decide; congruence. Qed.

Lemma strip_prompt vi dep e :
  dep ≠ kn → plain_cond vi → plain_cond e →
  strip_dep dep (make_and e (make_and vi dep)) = orig_cond vi dep e.
Proof.
  intros Hn Hv He. unfold orig_cond.
  destruct (decide (e = ky)) as [->|Hy]; [rewrite (proj1 (make_and_y _)); by apply strip_make_and|].
  destruct (decide (vi = ky)) as [->|Hvy]; [rewrite (proj1 (make_and_y _)); by apply strip_make_and|].
  assert (strip_dep dep kn = kn) as Hkn by (unfold strip_dep; by rewrite decide_False).
  destruct (decide (dep = ky)) as [->|Hdy].
  { rewrite (proj2 (make_and_y vi)). destruct (make_and_not_y e vi) as [-> | ->]; [done..|].
    unfold strip_dep. rewrite decide_False by done. by rewrite decide_False. }
  destruct (make_and_not_y vi dep) as [-> | ->]; [done..|by rewrite make_and_n|].
  destruct (make_and_not_y e (EAnd vi dep)) as [-> | ->]; [done..|].
  unfold strip_dep. rewrite decide_False by apply and_and_not. by rewrite decide_False by apply and_not_right.
Qed.

(** C35.  Whatever dependency and "visible if" a menu node of a symbol or choice
    inherits from the 'if', 'menu' and 'choice' statements around it, the
    [orig_*] properties of the finalized node are the defaults, ranges, selects
    and implies as they were written, unless the dependency is the constant n
    or a condition was written with [&& y] at its end.  The prompt is as it was
    written where no "visible if" is inherited; below one, a prompt without a
    condition has that of the "visible if", and one with a condition keeps the
    "visible if" and the dependency. *)
Theorem orig_as_written base vi c :
  let c' := propagate_to base vi c in
  (∃ n, m_item c = MSym n) ∨ (∃ id nm, m_item c = MChoice id nm) →
  m_dep c' ≠ kn → plain_node c → plain_cond vi →
  orig_defaults c' = m_defaults c ∧ orig_ranges c' = m_ranges c ∧
  orig_selects c' = m_selects c ∧ orig_implies c' = m_implies c ∧
  (vi = ky → orig_prompt c' = m_prompt c) ∧
  orig_prompt c' = (λ p, (p.1, orig_cond vi (m_dep c') p.2)) <$> m_prompt c.
Proof.
  intros c' Hi. assert (c' = mkM (m_id c) (m_item c) (m_info c)
    ((λ p, (p.1, make_and p.2 (make_and vi (m_dep c')))) <$> m_prompt c) (m_dep c') (m_visibility c)
    (and_cond (m_dep c') <$> m_defaults c) (and_cond (m_dep c') <$> m_ranges c)
    (and_cond (m_dep c') <$> m_selects c) (and_cond (m_dep c') <$> m_implies c)) as ->.
  { unfold c', propagate_to. destruct Hi as [[n ->]|(id & nm & ->)]; done. }
  cbn [m_dep]. generalize (m_dep c'). clear c' Hi. intros dep Hn (Hp & Hd & Hr & Hs & Hm) Hv.
  unfold orig_prompt, orig_defaults, orig_ranges, orig_selects, orig_implies.
  cbn [m_prompt m_dep m_defaults m_ranges m_selects m_implies].
  rewrite !strip_conds by done. do 4 (split; [done|]).
  destruct (m_prompt c) as [[t e]|]; [|done]. specialize (Hp _ eq_refl). cbn [snd] in Hp.
  cbn [option_fmap option_map fmap fst snd]. unfold strip_cond. cbn [fst snd].
  rewrite strip_prompt by done. split; [|done]. intros ->. unfold orig_cond. case_decide; [by subst|].
  by rewrite decide_True.
Qed.

(** A symbol with a prompt and a default under "if A && B". *)
Definition written : mdata :=
  mkM 1 (MSym "S") None (Some ("s", EItem (sym_item "X"))) (EItem (sym_item "D")) ky
    [(EItem (sym_item "V"), ky)] [] [("T", ENot (EItem (sym_item "X")))] [].
Lemma orig_as_written_witness :
  let base := EAnd (EItem (sym_item "A")) (EItem (sym_item "B")) in
  let c' := propagate_to base ky written in
  m_dep c' = EAnd (EItem (sym_item "D")) base ∧ m_defaults c' ≠ m_defaults written ∧
  orig_prompt c' = m_prompt written ∧ orig_defaults c' = m_defaults written ∧
  orig_selects (propagate_to base (EItem (sym_item "V")) written) = m_selects written.
Proof.
  intros base c'. split; [reflexivity|]. split; [discriminate|].
  assert (plain_node written) as Hw by (repeat split; [by intros p [= <-]|..]; repeat constructor; done).
  destruct (orig_as_written base ky written (or_introl (ex_intro _ "S" eq_refl)) ltac:(discriminate) Hw)
    as (H1 & _ & _ & _ & H2 & _); [done|].
  destruct (orig_as_written base (EItem (sym_item "V")) written (or_introl (ex_intro _ "S" eq_refl)) ltac:(discriminate) Hw)
    as (_ & _ & H3 & _); [done|].
  split; [exact (H2 eq_refl)|]. split; [exact H1|exact H3].
Defined.

(** Below a menu with 'visible if', a prompt with a condition of its own keeps
    the dependency in [orig_prompt]. *)
Theorem orig_prompt_keeps_dep :
  let c' := propagate_to (EItem (sym_item "A")) (EItem (sym_item "V")) written in
  orig_prompt c' = Some ("s", EAnd (EItem (sym_item "X")) (EAnd (EItem (sym_item "V")) (m_dep c'))) ∧
  orig_defaults c' = m_defaults written.
Proof. split; reflexivity. Qed.

End KPrintSpec.
