(* ===== verification/KRepr.v ===== *)
(** * tools/kconfig/kconfiglib.py: texts that show the objects

    The [__repr__] methods of the configuration, symbols, choices, menu nodes
    and variables, and the warning about a symbol selected in spite of its
    dependencies ([_warn_select_unsatisfied_deps]). *)
From S2P Require Import Prelude Hex PyStr KExpr KLex KParse KParseSpec KSym KFinal KMenu KPrint.

Module KRepr.
Import Hex PyStr KExpr KLex KParse KParseSpec KSym KFinal KMenu KPrint.

Definition in_quotes (s : string) : string := String quote (s +:+ String quote "").
Definition angle (fields : list string) : string := "<" +:+ String.concat ", " fields +:+ ">".
(** [if b: add(s)] *)
Definition field (b : bool) (s : string) : list string := if b then [s] else [].

(** [Variable.__repr__] *)
Definition variable_repr (name : string) (v : Var) : string :=
  angle ["variable " +:+ name; if v_recursive v then "recursive" else "immediate";
         "value '" +:+ default "None" (v_value v) +:+ "'"].

(** [Kconfig.__repr__]; the flags are the warn attributes. *)
Record Flags := mkFlags {
  f_warn : bool;
  f_to_stderr : bool;
  f_assign_undef : bool;
  f_assign_override : bool;
  f_assign_redun : bool
}.
Definition status (flag : bool) : string := if flag then "enabled" else "disabled".
Definition kconfig_repr (n_syms : nat) (mainmenu_text srctree config_prefix : string) (f : Flags) : string :=
  angle ["configuration with " +:+ pretty n_syms +:+ " symbols";
         "main menu prompt " +:+ in_quotes mainmenu_text;
         (if String.eqb srctree "" then "srctree is current directory" else "srctree " +:+ in_quotes srctree);
         "config symbol prefix " +:+ in_quotes config_prefix;
         "warnings " +:+ status (f_warn f);
         "printing of warnings to stderr " +:+ status (f_to_stderr f);
         "undef. symbol assignment warnings " +:+ status (f_assign_undef f);
         "overriding symbol assignment warnings " +:+ status (f_assign_override f);
         "redundant symbol assignment warnings " +:+ status (f_assign_redun f)].

Section repr.
Context (C : Conf) (V : Vals) (D : Df) (nodes : list (mitem * mdata)).

Definition tri_text (e : expr) : res string := let* v := value C V e in Ok (TRI_TO_STR v).
Definition node_prompts (it : mitem) : list string :=
  omap (λ d, match m_prompt d with Some (t, _) => Some (in_quotes t) | None => None end) (item_nodes nodes it).
Definition node_loc (d : mdata) : string :=
  match m_info d with Some i => i_filename i +:+ ":" +:+ pretty (i_linenr i) | None => "" end.
Definition node_locs (it : mitem) : list string := map node_loc (item_nodes nodes it).

(** [Symbol.__repr__] of a symbol that is not a constant *)
Definition value_text (t : styp) (s : string) : string := if BOOL_TRISTATE t then s else in_quotes s.
Definition user_text (t : styp) (u : uval) : res string :=
  match u with
  | UTri v => Ok (if BOOL_TRISTATE t then TRI_TO_STR v else in_quotes (pretty v))
  | UStr x => if BOOL_TRISTATE t then Err (KeyError x) else Ok (in_quotes x)
  end.
Definition symbol_repr (n : string) (s : Symbol) : res string :=
  let* t := sym_type V s in
  let* str := KSym.item_str C V (SymItem false n) in
  let* user := match s_user_value s with
               | Some u => let* x := user_text (s_orig_type s) u in Ok ["user value " +:+ x]
               | None => Ok []
               end in
  let* vis := item_vis C V (SymItem false n) in
  let* dep := tri_text (s_direct_dep s) in
  Ok (angle (["symbol " +:+ n; TYPE_TO_STR t] ++ node_prompts (MSym n)
      ++ ["value " +:+ value_text (s_orig_type s) str] ++ user ++ ["visibility " +:+ TRI_TO_STR vis]
      ++ field (bool_decide (is_Some (s_choice s))) "choice symbol"
      ++ field (bool_decide (n ∈ df_allnoconfig_y D)) "allnoconfig_y"
      ++ field (bool_decide (cf_defconfig_list C = Some n)) "is the defconfig_list symbol"
      ++ match s_env_var s with Some x => ["from environment variable " +:+ x] | None => [] end
      ++ field (String.eqb n "MODULES") "is the modules symbol"
      ++ ["direct deps " +:+ dep]
      ++ match node_locs (MSym n) with [] => ["undefined"] | l => l end)).

(** A constant: n, m and y have a type. *)
Definition constant_repr (n : string) : string :=
  let t := orig_type C (SymItem true n) in
  angle ["symbol " +:+ n; TYPE_TO_STR t; "value " +:+ value_text t n; "constant"].

(** [Choice.__repr__] *)
Definition choice_repr (id : nat) (name : option string) (c : Choice) : res string :=
  let* t := choice_type V c in
  let* mode := KSym.item_str C V (ChoiceItem id name) in
  let* sel := item_sel C V id in
  let* vis := item_vis C V (ChoiceItem id name) in
  Ok (angle ([match name with
              | Some n => if String.eqb n "" then "choice" else "choice " +:+ n
              | None => "choice"
              end; TYPE_TO_STR t] ++ node_prompts (MChoice id name) ++ ["mode " +:+ mode]
      ++ match c_user_value c with Some v => ["user mode " +:+ TRI_TO_STR v] | None => [] end
      ++ match sel with Some n => [n +:+ " selected"] | None => [] end
      ++ match c_user_selection c with
         | Some n => [n +:+ " selected by user" +:+ if bool_decide (sel = Some n) then "" else " (overridden)"]
         | None => []
         end
      ++ ["visibility " +:+ TRI_TO_STR vis] ++ field (c_is_optional c) "optional" ++ node_locs (MChoice id name))).

(** [MenuNode.__repr__]; [has_next] tells whether a node follows. *)
Definition node_kind (it : mitem) : string :=
  "menu node for " +:+ match it with
                       | MSym n => "symbol " +:+ n
                       | MChoice _ (Some n) => "choice " +:+ n
                       | MChoice _ None => "choice"
                       | MMenu => "menu"
                       | _ => "comment"
                       end.
Definition node_repr (t : tnode) (has_next : bool) : res string :=
  let '(TNode d children) := t in
  let* prompt := match m_prompt d with
                 | Some (p, cond) =>
                     let* v := tri_text cond in Ok ["prompt " +:+ in_quotes p +:+ " (visibility " +:+ v +:+ ")"]
                 | None => Ok []
                 end in
  let* dep := tri_text (m_dep d) in
  let* vis := match m_item d with
              | MMenu => let* v := tri_text (m_visibility d) in Ok ["'visible if' deps " +:+ v]
              | _ => Ok []
              end in
  Ok (angle ([node_kind (m_item d)] ++ prompt
      ++ match m_item d, m_info d with MSym _, Some i => field (i_is_menuconfig i) "is menuconfig" | _, _ => [] end
      ++ ["deps " +:+ dep] ++ vis
      ++ match m_item d, node_help d with (MSym _ | MChoice _ _), Some _ => ["has help"] | _, _ => [] end
      ++ match children with [] => [] | _ => ["has child"] end ++ field has_next "has next" ++ [node_loc d])).

(** ** _warn_select_unsatisfied_deps *)

(** The selects that go beyond the direct dependencies. *)
Fixpoint beyond (dep : nat) (selects : list expr) : res (list expr) :=
  match selects with
  | [] => Ok []
  | e :: l =>
      let* v := value C V e in
      let* l := beyond dep l in
      Ok (if Nat.leb v dep then l else e :: l)
  end.

Definition sc_text : expr → string := expr_str standard_sc_expr_str.

(** The line for a select: only symbols select. *)
Definition selecting_line (e : expr) : res string :=
  match head (split_and e) with
  | Some (EItem (SymItem c n)) =>
      let i := SymItem c n in
      let* str := KSym.item_str C V i in
      let dep := match cf_syms C !! n with Some s => if c then kn else s_direct_dep s | None => kn end in
      let* dv := tri_text dep in
      let* cond := match e with
                   | EAnd _ e2 => let* v := tri_text e2 in
                                  Ok (", and select condition " +:+ sc_text e2 +:+ " (value: " +:+ v +:+ ")")
                   | _ => Ok ""
                   end in
      Ok (String nl (" - " +:+ item_name_and_loc D i +:+ ", with value " +:+ str +:+ ", direct dependencies "
          +:+ sc_text dep +:+ " (value: " +:+ dv +:+ ")" +:+ cond))
  | _ => Err AttributeError
  end.

Definition select_warning (n : string) (s : Symbol) : res string :=
  let* d := value C V (s_direct_dep s) in
  let* r := value C V (s_rev_dep s) in
  let* l := beyond d (split_or (s_rev_dep s)) in
  let* lines := res_map selecting_line l in
  Ok (item_name_and_loc D (SymItem false n) +:+ " has direct dependencies " +:+ sc_text (s_direct_dep s)
      +:+ " with value " +:+ TRI_TO_STR d +:+ ", but is currently being " +:+ TRI_TO_STR r
      +:+ "-selected by the following symbols:" +:+ String.concat "" lines).

(** ** The selects listed *)

Lemma beyond_spec dep l r : beyond dep l = Ok r → ∀ e v, value C V e = Ok v → (e ∈ r ↔ e ∈ l ∧ dep < v).
Proof.
  revert r. induction l as [|x l IH]; intros r H e v Hv; cbn in H.
  { injection H as <-. rewrite elem_of_nil. tauto. }
  destruct (value C V x) as [w|] eqn:Hx; [|done]. cbn [res_bind] in H.
  destruct (beyond dep l) as [r'|]; [|done]. injection H as <-. specialize (IH _ eq_refl e v Hv).
  rewrite elem_of_cons. destruct (Nat.leb_spec w dep).
  - rewrite IH. split; [tauto|]. intros [[->|] ?]; [|tauto]. assert (v = w) by congruence. lia.
  - rewrite elem_of_cons, IH. split; [intros [->|]; [split; [by left|]|tauto]|tauto].
    assert (v = w) by congruence. lia.
Qed.

Lemma or_any_above l dep r : or_any (env C V) l = Ok r → dep < r → ∃ e v, e ∈ l ∧ value C V e = Ok v ∧ dep < v.
Proof.
  revert r. induction l as [|x l IH]; intros r H Hr; cbn [or_any] in H; [injection H as <-; lia|].
  destruct (expr_value (env C V) x) as [w|] eqn:Hx; [|done]. cbn [res_bind] in H.
  destruct (decide (dep < w)) as [Hw|Hw]; [exists x, w; split; [by left|done]|].
  destruct (Nat.eqb_spec w 2); [injection H as <-; exists x, w; split; [by left|split; [done|lia]]|].
  destruct (or_any (env C V) l) as [r'|]; [|done]. injection H as <-.
  destruct (IH _ eq_refl) as (e & v & He & Hv & Hd); [lia|]. exists e, v. split; [by right|done].
Qed.

(** The warning comes when a symbol is selected beyond its direct
    dependencies; it names at least one select then, and exactly those that go
    beyond them. *)
Lemma warning_names_selects s d r l :
  tri_env (env C V) → value C V (s_direct_dep s) = Ok d → value C V (s_rev_dep s) = Ok r → d < r →
  beyond d (split_or (s_rev_dep s)) = Ok l →
  l ≠ [] ∧ ∀ e v, value C V e = Ok v → (e ∈ l ↔ e ∈ split_or (s_rev_dep s) ∧ d < v).
Proof.
  intros HE Hd Hr Hlt Hl. split; [|by apply beyond_spec]. intros ->.
  unfold value in Hr. rewrite <- split_or_value in Hr by done. destruct (or_any_above _ _ _ Hr Hlt) as (e & v & He & Hv & Hdv).
  apply (not_elem_of_nil e). by apply (beyond_spec _ _ _ Hl e v Hv).
Qed.
End repr.
End KRepr.
