(* ===== verification/KInit.v ===== *)
(** * tools/kconfig/kconfiglib.py: reading a whole configuration

    [Kconfig._init] after parsing and finalization: the sanity checks with
    their warnings, the search for dependency loops with its message, and the
    finished symbols and choices that the properties are computed from. *)
From S2P Require Import Prelude Hex PyStr KExpr KLex KParse KSym KConf KDep KFinal KMenu KPrint.

Module KInit.
Import Hex PyStr KExpr KLex KParse KSym KConf KDep KFinal KMenu KPrint.

(** ** The finished configuration *)

(** A constant as choice default is written with quotes, as no symbol is: it
    is never visible, like an undefined symbol. *)
Definition default_name (c : bool) (n : string) : string :=
  if c then String quote (n +:+ String quote "") else n.

Section conf.
Context (D : Df) (F : Fst) (nodes : list (mitem * mdata)).

Definition is_choice_node (id : nat) (d : mdata) : bool :=
  match m_item d with MChoice j _ => Nat.eqb id j | _ => false end.
Definition choice_nodes (id : nat) : list mdata := filter (λ d, is_choice_node id d = true) nodes.*2.

Definition conf_sym (n : string) : Symbol :=
  let p := get_sym F n in
  mkSymbol (p_type p) (m_prompt <$> item_nodes nodes (MSym n)) (p_defaults p) (p_ranges p)
    (p_rev_dep p) (p_weak_rev_dep p) (p_direct_dep p) (p_choice p) (df_env D !! n) None false.

Definition conf_choice (id : nat) : Choice :=
  let c := get_choice F id in
  mkChoice (pc_type c) (m_prompt <$> choice_nodes id) (pc_syms c)
    (omap (λ vc, match vc.1 with EItem (SymItem b n) => Some (default_name b n, vc.2) | _ => None end)
       (pc_defaults c))
    (bool_decide (id ∈ df_optional D)) None None false.

(** [syms] are the names in [Kconfig.syms]. *)
Definition conf_of (syms : list string) : Conf :=
  mkConf (list_to_map ((λ n, (n, conf_sym n)) <$> syms)) (conf_choice <$> seq 0 (df_next_choice D))
    (ordered_unique (df_defined D))
    (match df_defconfig_list D with Some (MSym n) => Some n | _ => None end).

(** ** Sanity checks *)

Definition type_of (i : item) : styp :=
  match i with
  | SymItem true n => if decide (is_Some (STR_TO_TRI n)) then TRISTATE else UNKNOWN
  | SymItem false n => p_type (get_sym F n)
  | ChoiceItem id _ => pc_type (get_choice F id)
  end.
(** [not sym.nodes]: constants and undefined symbols *)
Definition undefined (i : item) : bool :=
  match i with
  | SymItem true _ => true
  | SymItem false n => negb (bool_decide (n ∈ df_defined D))
  | ChoiceItem _ _ => false
  end.
Definition name_of (i : item) : string :=
  match i with SymItem _ n => n | ChoiceItem _ nm => default "None" nm end.
Notation name_loc := (item_name_and_loc D).

Definition num_ok (i : item) (t : styp) : bool :=
  if undefined i then is_base_n (name_of i) (default 0%Z (TYPE_TO_BASE t))
  else bool_decide (type_of i = t).

(** [s.isupper()] *)
Definition is_upper (c : ascii) : bool := (65 <=? nat_of_ascii c) && (nat_of_ascii c <=? 90).
Definition is_lower (c : ascii) : bool := (97 <=? nat_of_ascii c) && (nat_of_ascii c <=? 122).
Fixpoint any_char (f : ascii → bool) (s : string) : bool :=
  match s with EmptyString => false | String c s => f c || any_char f s end.
Definition isupper (s : string) : bool := any_char is_upper s && negb (any_char is_lower s).

(** The warnings of the elements of a list, one after the other. *)
Definition each {A} (f : A → res (list string)) (l : list A) : res (list string) :=
  res_fold (λ ws x, let* w := f x in Ok (ws ++ w)) [] l.

Definition target_warnings (n verb : string) (sel : string * expr) : list string :=
  let t := type_of (SymItem false sel.1) in
  if BOOL_TRISTATE t || bool_decide (t = UNKNOWN) then []
  else [name_loc (SymItem false n) +:+ " " +:+ verb +:+ " the " +:+ TYPE_TO_STR t +:+ " symbol " +:+
        name_loc (SymItem false sel.1) +:+ ", which is not bool or tristate"].

Definition default_warnings (n : string) (t : styp) (vc : expr * expr) : res (list string) :=
  match vc.1 with
  | EItem (SymItem c m) =>
      if bool_decide (t = STRING) then
        Ok (if negb c && undefined (SymItem c m) && negb (isupper m)
            then ["style: quotes recommended around default value for string symbol " +:+
                  name_loc (SymItem false n)] else [])
      else if num_ok (SymItem c m) t then Ok []
      else Ok ["the " +:+ TYPE_TO_STR t +:+ " symbol " +:+ name_loc (SymItem false n) +:+ " has a non-" +:+
               TYPE_TO_STR t +:+ " default " +:+ name_loc (SymItem c m)]
  | e => Err (KconfigError ("the " +:+ TYPE_TO_STR t +:+ " symbol " +:+ name_loc (SymItem false n) +:+
           " has a malformed default " +:+ expr_str standard_sc_expr_str e +:+
           " -- expected a single symbol"))
  end.

Definition range_warnings (n : string) (t : styp) (r : item * item * expr) : list string :=
  if num_ok r.1.1 t && num_ok r.1.2 t then []
  else ["the " +:+ TYPE_TO_STR t +:+ " symbol " +:+ name_loc (SymItem false n) +:+ " has a non-" +:+
        TYPE_TO_STR t +:+ " range [" +:+ name_loc r.1.1 +:+ ", " +:+ name_loc r.1.2 +:+ "]"].

Definition ranges_warnings (n : string) (t : styp) (ranges : list (item * item * expr)) : list string :=
  match ranges with
  | [] => []
  | _ => if INT_HEX t then ranges ≫= range_warnings n t
         else ["the " +:+ TYPE_TO_STR t +:+ " symbol " +:+ name_loc (SymItem false n) +:+
               " has ranges, but is not int or hex"]
  end.

(** [_check_sym_sanity] for one symbol *)
Definition check_sym (n : string) : res (list string) :=
  let p := get_sym F n in
  let t := p_type p in
  let* ws :=
    if BOOL_TRISTATE t then
      Ok ((p_selects p ≫= target_warnings n "selects") ++ (p_implies p ≫= target_warnings n "implies"))
    else if bool_decide (t = UNKNOWN) then Ok [name_loc (SymItem false n) +:+ " defined without a type"]
    else
      let* ws := each (default_warnings n t) (p_defaults p) in
      Ok (ws ++ match p_selects p, p_implies p with
                | [], [] => []
                | _, _ => ["the " +:+ TYPE_TO_STR t +:+ " symbol " +:+ name_loc (SymItem false n) +:+
                           " has selects or implies"]
                end) in
  Ok (ws ++ ranges_warnings n t (p_ranges p)).

Definition check_sym_sanity : res (list string) := each check_sym (ordered_unique (df_defined D)).

(** [warn_select_imply] *)
Definition warn_select_imply (n : string) (e : expr) (how : string) : res string :=
  let* lines := each (λ si, match head (split_and si) with
                            | Some (EItem i) => Ok [String nl (" - " +:+ name_loc i)]
                            | _ => Err AttributeError
                            end) (split_or e) in
  Ok ("the choice symbol " +:+ name_loc (SymItem false n) +:+ " is " +:+ how +:+
      " by the following symbols, but select/imply has no effect on choice symbols" +:+
      String.concat "" lines).

Definition choice_default_warnings (ch : item) (id : nat) (vc : expr * expr) : res (list string) :=
  match vc.1 with
  | EItem (SymItem c m) =>
      if negb c && bool_decide (p_choice (get_sym F m) = Some id) then Ok []
      else Ok ["the default selection " +:+ name_loc (SymItem c m) +:+ " of " +:+ name_loc ch +:+
               " is not contained in the choice"]
  | e => Err (KconfigError (name_loc ch +:+ " has a malformed default " +:+ expr_str standard_sc_expr_str e))
  end.

Definition in_choice (id : nat) (parent : mitem) : bool :=
  match parent with MChoice j _ => Nat.eqb id j | _ => false end.
Definition choice_node_warnings (id : nat) (n : string) (pd : mitem * mdata) : list string :=
  if in_choice id pd.1 then
    match m_prompt pd.2 with
    | None => ["the choice symbol " +:+ name_loc (SymItem false n) +:+ " has no prompt"]
    | Some _ => [] end
  else
    match m_prompt pd.2 with
    | Some _ => ["the choice symbol " +:+ name_loc (SymItem false n) +:+
                 " is defined with a prompt outside the choice"]
    | None => [] end.

Definition choice_sym_warnings (id : nat) (n : string) : res (list string) :=
  let p := get_sym F n in
  let ws := match p_defaults p with
            | [] => []
            | _ => ["default on the choice symbol " +:+ name_loc (SymItem false n) +:+
                    " will have no effect, as defaults do not affect choice symbols"]
            end in
  let* w1 := if decide (p_rev_dep p = kn) then Ok [] else
               let* w := warn_select_imply n (p_rev_dep p) "selected" in Ok [w] in
  let* w2 := if decide (p_weak_rev_dep p = kn) then Ok [] else
               let* w := warn_select_imply n (p_weak_rev_dep p) "implied" in Ok [w] in
  Ok (ws ++ w1 ++ w2 ++
      (filter (λ pd, m_item pd.2 = MSym n) nodes ≫= choice_node_warnings id n)).

(** The name of a choice. *)
Definition choice_name (id : nat) : option string :=
  match choice_nodes id with
  | d :: _ => match m_item d with MChoice _ nm => nm | _ => None end
  | [] => None
  end.

(** [_check_choice_sanity] for one choice *)
Definition check_choice (id : nat) : res (list string) :=
  let c := get_choice F id in
  let ch := ChoiceItem id (choice_name id) in
  let ws := if BOOL_TRISTATE (pc_type c) then []
            else [name_loc ch +:+ " defined with type " +:+ TYPE_TO_STR (pc_type c)] in
  let wp := if existsb (λ d, match m_prompt d with Some _ => true | None => false end) (choice_nodes id)
            then [] else [name_loc ch +:+ " defined without a prompt"] in
  let* wd := each (choice_default_warnings ch id) (pc_defaults c) in
  let* wsym := each (choice_sym_warnings id) (pc_syms c) in
  Ok (ws ++ wp ++ wd ++ wsym).

Definition check_choice_sanity : res (list string) := each check_choice (ordered_unique (df_choices D)).

(** *** _check_undef_syms *)

Definition is_num (s : string) : bool :=
  is_ok (int10 s) || (startswith s "0x" || startswith s "0X") && is_ok (int16 s).

Definition undef_reference (n : string) (d : mdata) : res string :=
  if bool_decide (SymItem false n ∈ referenced d) then
    let* s := node_str D F standard_sc_expr_str d in
    match m_info d with
    | Some i => Ok (String nl (String nl "- Referenced at ") +:+ i_filename i +:+ ":" +:+
                    pretty (i_linenr i : nat) +:+ ":" +:+ String nl (String nl s))
    | None => Err AttributeError
    end
  else Ok "".

Definition check_undef_sym (n : string) : res (list string) :=
  if undefined (SymItem false n) && negb (is_num n) && negb (String.eqb n "MODULES") then
    let* refs := each (λ d, let* s := undef_reference n d in Ok [s]) nodes.*2 in
    Ok ["undefined symbol " +:+ n +:+ ":" +:+ String.concat "" refs]
  else Ok [].
Definition check_undef_syms (syms : list string) : res (list string) := each check_undef_sym syms.

(** ** The message for a dependency loop *)

(** A symbol or choice, with the name its nodes give a choice. *)
Definition sc_as_item (x : sc) : item :=
  match x with Sym n => SymItem false n | Cho id => ChoiceItem id (choice_name id) end.
Definition sc_str (x : sc) : string :=
  match x with
  | Sym n => item_str D F standard_sc_expr_str nodes (MSym n)
  | Cho id => item_str D F standard_sc_expr_str nodes (MChoice id (choice_name id))
  end.

Definition loop_item (first : option sc) (x : sc) : string :=
  (if bool_decide (first = Some x) then ""
   else "...depends on " +:+
        match x with
        | Sym n => match p_choice (get_sym F n) with Some _ => "the choice symbol " | None => "" end
        | Cho _ => "" end) +:+
  name_loc (sc_as_item x) +:+ ", with definition..." +:+ String nl (String nl (sc_str x)) +:+
  String nl (String nl "") +:+
  match x with
  | Sym n =>
      let p := get_sym F n in
      (if decide (p_rev_dep p = kn) then ""
       else "(select-related dependencies: " +:+ expr_str standard_sc_expr_str (p_rev_dep p) +:+
            ")" +:+ String nl (String nl "")) +:+
      (* the source prints rev_dep here too *)
      (if decide (p_weak_rev_dep p = kn) then ""
       else "(imply-related dependencies: " +:+ expr_str standard_sc_expr_str (p_rev_dep p) +:+
            ")" +:+ String nl (String nl ""))
  | Cho _ => ""
  end.

Definition loop_msg (loop : list sc) : string :=
  String nl "Dependency loop" +:+ String nl "===============" +:+ String nl (String nl "") +:+
  String.concat "" (map (loop_item (head loop)) loop) +:+
  "...depends again on " +:+
  match head loop with Some x => name_loc (sc_as_item x) | None => "" end.
End conf.

(** ** _init *)

Record Kconfig := mkKconfig {
  kc_top : tnode;
  kc_fst : Fst;
  kc_df : Df;
  kc_k : Kst;
  kc_conf : Conf;
  kc_deps : Deps
}.

Fixpoint add_warnings (ws : list string) : ST Kst unit :=
  match ws with [] => mret tt | w :: ws => warn w;; add_warnings ws end.

Section init.
(** The order in which Python goes through a set, and the names in
    [Kconfig.syms] in the order in which they were registered. *)
Context (iter : gset sc → list sc) (syms_order : gset string → list string).

(** [_init] after finalization; [warn_undef] asks for the warnings about
    undefined symbols. *)
Definition finish_init (warn_undef : bool) (top : tnode) (F : Fst) (m : Mst) : res Kconfig :=
  let D := m_df m in
  let nodes := node_iter top in
  let syms := syms_order (k_syms (m_k m)) in
  let* w1 := check_sym_sanity D F in
  let* w2 := check_choice_sanity D F nodes in
  let* w3 := if warn_undef then check_undef_syms D F nodes syms else Ok [] in
  let* r := add_warnings (w1 ++ w2 ++ w3) (m_k m) in
  let C := conf_of D F nodes syms in
  let deps := build_dep C in
  let* _ := check_dep_loops C deps iter (loop_msg D F nodes) in
  Ok (mkKconfig top F D r.2 C (add_choice_deps C deps)).

Context (environ : gmap string string) (uname_release : string).
Context (shell : string → string * string).
Context (user_functions : gmap string (nat * option nat * (list string → ST Kst string))).
Context (glob : string → list string) (read_file : string → option string) (io_error : string → string).
Context (srctree srctree_prefix : string).
Context (lex_fuel : nat).

(** KCONFIG_WARN_UNDEF or KCONFIG_STRICT is y. *)
Definition warn_undef : bool :=
  bool_decide (environ !! "KCONFIG_WARN_UNDEF" = Some "y") ||
  bool_decide (environ !! "KCONFIG_STRICT" = Some "y").

Definition init (fuel : nat) (filename text : string) (warn : bool) : res Kconfig :=
  let* r := parse_config environ uname_release shell user_functions glob read_file io_error srctree
              srctree_prefix lex_fuel fuel filename text warn in
  let '(top, F, m) := r in finish_init warn_undef top F m.
End init.

End KInit.
