(* ===== verification/KInitSpec.v ===== *)
(** * Reading a whole configuration: what the finished configuration satisfies

    Only defined symbols get a type or a choice; a symbol's choice lists it
    and exists; a symbol below a choice depends on the choice; menus and
    choices are nodes that are entered.  With no
    warning about choices, the finished configuration is therefore wired as
    the invalidation of caches needs it, and cached values are never stale. *)
From S2P Require Import Prelude Hex PyStr KExpr KLex KParse KSym KParseSpec KSymSpec KFix KConf KDep KDepSpec KTerm.
From S2P Require Import KFinal KFinalSpec KLinks KMenu KMenuSpec KPrint KInit KCache KInval KCacheRun.

Module KInitSpec.
Import Hex PyStr KExpr KLex KParse KSym KParseSpec KSymSpec KConf KDep KDepSpec KTerm.
Import KFinal KFinalSpec KLinks KMenu KMenuSpec KPrint KInit KCache KInval KCacheRun.

(** ** What parsing records *)

Definition item_ok (D : Df) (it : mitem) : Prop :=
  match it with MSym n => n ∈ df_defined D | MChoice id _ => id ∈ df_choices D | _ => True end.

(** Types are for defined symbols only; choices are filled in later. *)
Record good (D : Df) : Prop := {
  gd_type n : n ∉ df_defined D → p_type (get_sym (df_fst D) n) = UNKNOWN;
  gd_choice n : p_choice (get_sym (df_fst D) n) = None;
  gd_syms id : pc_syms (get_choice (df_fst D) id) = [];
  gd_defaults id : pc_defaults (get_choice (df_fst D) id) = [];
  gd_named nm id : df_named D !! nm = Some id → id < df_next_choice D;
  gd_ids id : id ∈ df_choices D → id < df_next_choice D
}.

Record le (D D' : Df) : Prop := {
  le_good : good D → good D';
  le_defined n : n ∈ df_defined D → n ∈ df_defined D';
  le_choices id : id ∈ df_choices D → id ∈ df_choices D';
  le_next : df_next_choice D ≤ df_next_choice D'
}.
#[global] Instance le_preorder : PreOrder le.
Proof. split; [by split|]. intros D1 D2 D3 [] []. split; [auto..|lia]. Qed.

Lemma item_ok_le D D' it : le D D' → item_ok D it → item_ok D' it.
Proof. intros [] H. destruct it; cbn in *; auto. Qed.

(** Changes that concern none of this. *)
Lemma le_same D D' :
  df_fst D' = df_fst D → df_defined D' = df_defined D → df_named D' = df_named D →
  df_next_choice D' = df_next_choice D → df_choices D' = df_choices D → le D D'.
Proof.
  intros E1 E2 E3 E4 E5. split; [|by rewrite E2|by rewrite E5|by rewrite E4].
  intros []. split; rewrite ?E1, ?E2, ?E3, ?E4, ?E5; done.
Qed.

(** Choices and menus are entered, never opened in place. *)
Definition menu_item (it : mitem) : bool := match it with MChoice _ _ | MMenu => true | _ => false end.
Definition entered (d : mdata) : Prop :=
  menu_item (m_item d) = true → i_is_menuconfig <$> m_info d = Some true.

Lemma entered_same d d' : same_node d d' → entered d → entered d'.
Proof. intros (_ & E1 & E2) H. unfold entered. by rewrite E1, E2. Qed.
Lemma entered_propagate base vi d : entered d → entered (propagate_to base vi d).
Proof. unfold entered, propagate_to. by destruct (m_item d) eqn:E; cbn; rewrite ?E. Qed.

Definition Keep (it : mitem) {A} (c : ST Mst A) : Prop :=
  ∀ m a m', item_ok (m_df m) it → c m = Ok (a, m') → le (m_df m) (m_df m').

Lemma keep_bind it {A B} (c : ST Mst A) (f : A → ST Mst B) :
  Keep it c → (∀ a, Keep it (f a)) → Keep it (c ≫= f).
Proof.
  intros Hc Hf m b m' Hi (a & m1 & E1 & E2)%st_bind_ok. pose proof (Hc _ _ _ Hi E1) as H1.
  etrans; [exact H1|]. eapply Hf; [|exact E2]. by eapply item_ok_le.
Qed.
Lemma keep_ret it {A} (a : A) : Keep it (mret a).
Proof. by intros m b m' _ [= <- <-]. Qed.
Lemma keep_get it {A} (f : Mst → A) : Keep it (st_get f).
Proof. by intros m b m' _ [= <- <-]. Qed.
Lemma keep_raise it {A} e : Keep it (st_raise (A := A) e).
Proof. by intros m b m' _ H. Qed.
Lemma keep_lex it {A} (c : ST Kst A) : Keep it (lex c).
Proof. intros m b m' _ H. unfold lex in H. destruct (c (m_k m)) as [[]|]; [|done]. by injection H as <- <-. Qed.
Lemma keep_on_k it f : Keep it (on_k f).
Proof. by intros m b m' _ [= <- <-]. Qed.
Lemma keep_on_rd it f : Keep it (on_rd f).
Proof. by intros m b m' _ [= <- <-]. Qed.
Lemma keep_on_df it f : (∀ D, item_ok D it → le D (f D)) → Keep it (on_df f).
Proof. intros H m b m' Hi [= <- <-]. by apply H. Qed.

Create HintDb keep discriminated.
#[export] Hint Resolve keep_ret keep_get keep_raise keep_lex keep_on_k keep_on_rd : keep.
Ltac keep_step :=
  match goal with
  | |- Keep _ (_ ≫= _) => apply keep_bind; [|intros ?]
  | |- Keep _ (if ?b then _ else _) => destruct b
  | |- Keep _ (match ?x with _ => _ end) => destruct x eqn:?
  | |- Keep _ (on_df _) => apply keep_on_df; intros; by apply le_same
  end.
Ltac keep_solve := repeat (first [solve [eauto 2 with keep] | keep_step]).

Lemma keep_set_type it t : Keep it (set_type it t).
Proof.
  unfold set_type, orig_type_of, name_and_loc. apply keep_bind; [keep_solve|intros old].
  apply keep_bind; [keep_solve|intros _]. apply keep_on_df. intros D Hi.
  split; cbn [set_fst df_defined df_next_choice df_choices]; [|done|done|done].
  intros []. split; cbn [set_fst df_fst df_defined df_named df_next_choice df_choices]; [| | | |done|done].
  - intros n Hn. destruct it as [m|id nm| | |]; cbn [put_type]; try by apply gd_type0.
    rewrite get_put, decide_False by (intros ->; done). by apply gd_type0.
  - intros n. destruct it as [m|id nm| | |]; cbn [put_type]; try apply gd_choice0.
    rewrite get_put. case_decide; cbn; apply gd_choice0.
  - intros id'. destruct it as [m|id nm| | |]; cbn [put_type]; try apply gd_syms0.
    rewrite put_choice_get. case_decide; apply gd_syms0.
  - intros id'. destruct it as [m|id nm| | |]; cbn [put_type]; try apply gd_defaults0.
    rewrite put_choice_get. case_decide; apply gd_defaults0.
Qed.
#[export] Hint Resolve keep_set_type : keep.

Section parse.
Context (environ : gmap string string) (uname_release : string).
Context (shell : string → string * string).
Context (user_functions : gmap string (nat * option nat * (list string → ST Kst string))).
Context (glob : string → list string) (read_file : string → option string) (io_error : string → string).
Context (srctree srctree_prefix : string).
Context (lex_fuel : nat).

Notation tokenize_joined := (tokenize_joined environ uname_release shell user_functions lex_fuel).
Notation next_line := (next_line environ uname_release shell user_functions lex_fuel).
Notation parse_prop := (parse_prop environ uname_release shell user_functions lex_fuel).
Notation props_loop := (props_loop environ uname_release shell user_functions lex_fuel).
Notation parse_props := (parse_props environ uname_release shell user_functions lex_fuel).
Notation parse_help := (parse_help environ uname_release shell user_functions lex_fuel).
Notation parse_block := (parse_block environ uname_release shell user_functions glob read_file io_error
  srctree srctree_prefix lex_fuel).
Notation parse_statement := (parse_statement environ uname_release shell user_functions glob read_file
  io_error srctree srctree_prefix lex_fuel).

Lemma keep_tokenize_joined it line : Keep it (tokenize_joined line).
Proof. unfold KMenu.tokenize_joined. apply keep_bind; [keep_solve|intros ls]. destruct (join_lines line ls 0) as [[]]. keep_solve. Qed.
Hint Resolve keep_tokenize_joined : keep.
Lemma keep_next_line it : Keep it next_line.
Proof. unfold KMenu.next_line, readline. keep_solve. Qed.
Lemma keep_after_help it line : Keep it (line_after_help environ uname_release shell user_functions lex_fuel line).
Proof. unfold line_after_help. keep_solve. Qed.
Hint Resolve keep_next_line keep_after_help : keep.
Lemma keep_name_loc it x : Keep it (name_and_loc x).
Proof. unfold name_and_loc. keep_solve. Qed.
Lemma keep_item_name it x : Keep it (item_name x).
Proof. unfold item_name. keep_solve. Qed.
Hint Resolve keep_name_loc keep_item_name : keep.
Lemma keep_parse_prompt it ts d : Keep it (parse_prompt ts d).
Proof. unfold parse_prompt. keep_solve. Qed.
Lemma keep_parse_help it d : Keep it (parse_help d).
Proof.
  unfold KMenu.parse_help, empty_help. apply keep_bind; [keep_solve|intros _].
  apply keep_bind; [keep_solve|intros ls]. destruct (first_nonblank ls 0) as [[line ls'] n].
  apply keep_bind; [keep_solve|intros _]. apply keep_bind; [keep_solve|intros _]. cbv zeta.
  destruct (_ || _); [keep_solve|]. destruct (help_lines _ ls') as [[text line'] ls2]. keep_solve.
Qed.
Lemma keep_warn_at it msg : Keep it (warn_at msg).
Proof. apply keep_lex. Qed.
Hint Resolve keep_parse_prompt keep_parse_help keep_warn_at : keep.
Lemma keep_parse_option it ts d : Keep it (parse_option environ ts d).
Proof. unfold parse_option, option_env. keep_solve. Qed.
Hint Resolve keep_parse_option : keep.
Lemma keep_parse_prop t ts d : Keep (m_item d) (parse_prop t ts d).
Proof. unfold KMenu.parse_prop, expr_and_cond, sym_and_cond. keep_solve. Qed.

Lemma keep_props_loop fuel it d : m_item d = it → Keep it (props_loop fuel d).
Proof.
  revert d; induction fuel as [|fuel IH]; intros d Hd; [apply keep_raise|]. cbn [KMenu.props_loop].
  apply keep_bind; [apply keep_next_line|intros more]. destruct more; [|apply keep_ret]. cbn [negb].
  apply keep_bind; [apply keep_get|intros ts]. destruct ts as [|[t|i|x] ts]; [by apply IH| |keep_solve..].
  intros m a m' Hi H. apply st_bind_ok in H as (r & m1 & E & H).
  assert (le (m_df m) (m_df m1)) as Hle by (eapply keep_parse_prop; [by rewrite Hd|exact E]).
  etrans; [exact Hle|]. apply (item_ok_le _ _ _ Hle) in Hi. destruct r as [d'|].
  - eapply (IH d'); [|exact Hi|exact H]. rewrite <- Hd. eapply parse_prop_node; exact E.
  - by eapply (keep_bind it (on_rd (set_reuse true)) (λ _, mret d)); [apply keep_on_rd|intros; apply keep_ret| |].
Qed.


(** *** Trees *)

(** [c] raises or returns with [Q]. *)
Definition Par {A} (c : ST Mst A) (m : Mst) (Q : A → Mst → Prop) : Prop :=
  match c m with Ok (a, m') => Q a m' | Err _ => True end.

Lemma par_bind {A B} (c : ST Mst A) (f : A → ST Mst B) m Q :
  Par c m (λ a m', Par (f a) m' Q) → Par (c ≫= f) m Q.
Proof using. clear. unfold Par, mbind, ST_bind. by destruct (c m) as [[a m']|e]. Qed.
Lemma par_mono {A} (c : ST Mst A) m (Q Q' : A → Mst → Prop) :
  Par c m Q → (∀ a m', Q a m' → Q' a m') → Par c m Q'.
Proof using. clear. unfold Par. destruct (c m) as [[]|]; auto. Qed.
Lemma par_keep it {A B} (c : ST Mst A) (f : A → ST Mst B) m Q :
  Keep it c → item_ok (m_df m) it → (∀ a m', le (m_df m) (m_df m') → Par (f a) m' Q) → Par (c ≫= f) m Q.
Proof using.
  clear. intros Hc Hi Hf. apply par_bind. unfold Par at 1. destruct (c m) as [[a m']|e] eqn:E; [|done]. eauto.
Qed.

Definition allowed (D : Df) (t : tnode) : Prop := Forall (item_ok D) (nodes t).*2.
Lemma allowed_le D D' t : le D D' → allowed D t → allowed D' t.
Proof using. clear. intros Hle H. eapply Forall_impl; [exact H|]. intros it. by apply item_ok_le. Qed.
Lemma allowed_node D d ch : item_ok D (m_item d) → Forall (allowed D) ch → allowed D (TNode d ch).
Proof using.
  clear. intros Hi Hc. unfold allowed. rewrite nodes_eq, fmap_app. apply Forall_app. split.
  - case_bool_decide; [constructor|]. by repeat constructor.
  - induction Hc as [|t l Ht _ IH]; [constructor|]. cbn [nodes_list mbind list_bind].
    rewrite fmap_app. by apply Forall_app.
Qed.

Definition grown (m : Mst) (l : list tnode) (m' : Mst) : Prop :=
  le (m_df m) (m_df m') ∧ Forall (λ t, parsed t ∧ every entered t) l ∧ Forall (allowed (m_df m')) l.

Lemma grown_nil m m' : le (m_df m) (m_df m') → grown m [] m'.
Proof using. clear. intros H. split; [done|]. split; constructor. Qed.
Lemma grown_app m1 l1 m2 l2 m3 : grown m1 l1 m2 → grown m2 l2 m3 → grown m1 (l1 ++ l2) m3.
Proof using.
  clear. intros (L1 & P1 & A1) (L2 & P2 & A2). split; [by etrans|]. split; apply Forall_app; split; try done.
  eapply Forall_impl; [exact A1|]. intros t. by apply allowed_le.
Qed.
Lemma grown_before m0 m l m' : le (m_df m0) (m_df m) → grown m l m' → grown m0 l m'.
Proof using. clear. intros H (L & P). split; [by etrans|done]. Qed.
Lemma grown_node m m' d ch :
  plain_if d → entered d → (∀ n, m_item d = MSym n → ch = []) → item_ok (m_df m') (m_item d) →
  grown m ch m' → grown m [TNode d ch] m'.
Proof using.
  clear. intros Hp He Hs Hi (L & P & A). apply Forall_and in P as [P E].
  split; [done|]. split; constructor; try constructor; try done; [by constructor..|by apply allowed_node].
Qed.

Lemma par_new_node {B} it mc p loc (f : mdata → ST Mst B) m Q :
  (menu_item it = true → mc = true) →
  (∀ d m', m_item d = it → entered d → le (m_df m) (m_df m') → Par (f d) m' Q) →
  Par (new_node it mc p loc ≫= f) m Q.
Proof using.
  clear. intros Hm H. apply par_bind. apply H; [done| |by apply le_same]. intros E. cbn. by rewrite Hm.
Qed.

Lemma par_props {B} fuel d (f : mdata → ST Mst B) m Q :
  item_ok (m_df m) (m_item d) →
  (∀ d' m', m_item d' = m_item d → (entered d → entered d') → le (m_df m) (m_df m') → Par (f d') m' Q) →
  Par (parse_props fuel d ≫= f) m Q.
Proof using.
  clear. intros Hi Hf. apply par_bind. unfold Par at 1.
  destruct (parse_props fuel d m) as [[d' m']|e] eqn:E; [|done]. apply Hf.
  - by apply props_loop_node in E as (_ & E & _).
  - apply props_loop_node in E. exact (entered_same _ _ E).
  - eapply keep_props_loop; [|exact Hi|exact E]. done.
Qed.

(** The choice of a choice statement. *)
Lemma par_choice_of {B} ts (f : nat * option string → ST Mst B) m Q :
  good (m_df m) →
  (∀ id nm m', id < df_next_choice (m_df m') → le (m_df m) (m_df m') → Par (f (id, nm)) m' Q) →
  Par (choice_of ts ≫= f) m Q.
Proof using.
  clear. intros Hg Hf. apply par_bind. unfold choice_of.
  assert (∀ nm, le (m_df m) (name_choice nm (m_df m))) as Hname.
  { intros nm. split; [|done|done|cbn; lia]. intros []. split; [done|done|done|done| |].
    2: { intros id H. specialize (gd_ids0 id H). cbn. lia. }
    cbn [name_choice df_named df_next_choice].
    intros x id. destruct nm as [n|]; [rewrite lookup_insert_Some|];
      [intros [[_ <-]|[_ H]]|intros H]; [lia|..]; specialize (gd_named0 x id H); lia. }
  destruct ts as [|t ts].
  - apply par_bind. unfold Par at 1. cbn [st_get]. apply par_bind. cbn. apply Hf; [cbn; lia|apply (Hname None)].
  - unfold Par at 1, mbind at 1, ST_bind at 1. destruct (lex _ m) as [[nm m1]|e] eqn:E; [|done].
    assert (m_df m1 = m_df m) as Em.
    { unfold lex in E. destruct (expect_str_and_eol _ _) as [[]|]; [|done]. by injection E as <- <-. }
    unfold mbind, ST_bind, st_get. cbn [fst snd res_bind]. rewrite Em.
    destruct (df_named (m_df m) !! nm) as [id|] eqn:En; cbn.
    + apply Hf; rewrite Em; [by eapply gd_named|done].
    + apply Hf; cbn; rewrite Em; [cbn; lia|apply Hname].
Qed.

Lemma keep_here it : Keep it here.
Proof using. clear. unfold here, the_filename. keep_solve. Qed.
Lemma keep_source_files it r o ts : Keep it (source_files glob srctree srctree_prefix r o ts).
Proof using. clear. unfold source_files, the_filename. keep_solve. Qed.
Lemma keep_leave it : Keep it leave_file.
Proof using. clear. unfold leave_file. keep_solve. Qed.
Lemma keep_enter it f : Keep it (enter_file read_file io_error srctree_prefix f).
Proof using. clear. unfold enter_file. keep_solve. Qed.
Hint Resolve keep_here keep_source_files keep_leave keep_enter : keep.

Definition block_grows (fuel : nat) : Prop := ∀ end_token m,
  good (m_df m) → Par (parse_block fuel end_token) m (grown m).
Definition statement_grows (fuel : nat) : Prop := ∀ end_token t ts m,
  good (m_df m) → Par (parse_statement fuel end_token t ts) m (λ r m', grown m (default [] r) m').

Lemma par_ret {A} (a : A) m (Q : A → Mst → Prop) : Q a m → Par (mret a) m Q.
Proof using. done. Qed.
Lemma par_quiet {A B} (c : ST Mst A) (f : A → ST Mst B) m Q :
  Keep MIf c → (∀ a m', le (m_df m) (m_df m') → Par (f a) m' Q) → Par (c ≫= f) m Q.
Proof using. clear. intros Hc. by apply par_keep with (it := MIf). Qed.

Lemma par_source_all block fs m :
  (∀ m, good (m_df m) → Par block m (grown m)) → good (m_df m) →
  Par (source_all read_file io_error srctree_prefix block fs) m (grown m).
Proof using.
  intros Hb. revert m; induction fs as [|f fs IH]; intros m Hg; cbn [source_all].
  { apply par_ret. by apply grown_nil. }
  apply par_quiet; [apply keep_enter|]. intros _ m1 L1.
  apply par_bind. eapply par_mono; [apply Hb; by apply L1|]. intros l m2 G2.
  apply par_quiet; [apply keep_leave|]. intros _ m3 L3.
  assert (good (m_df m3)) as Hg3 by (apply L3, G2, L1, Hg).
  apply par_bind. eapply par_mono; [apply IH, Hg3|]. intros l' m4 G4. apply par_ret.
  apply (grown_app m l m2); [by apply (grown_before _ m1)|]. by apply (grown_before _ m3).
Qed.

Lemma block_grows_step fuel : block_grows fuel → statement_grows fuel → block_grows (S fuel).
Proof using.
  intros IB IS et m Hg. cbn [KMenu.parse_block]. apply par_quiet; [apply keep_next_line|]. intros more m1 L1.
  destruct more; cbn [negb].
  2: { destruct et; [|apply par_ret; by apply grown_nil].
       apply par_quiet; [unfold the_filename; keep_solve|]. by intros. }
  apply par_quiet; [apply keep_get|]. intros ts m2 L2.
  assert (le (m_df m) (m_df m2)) as L by (by etrans). assert (good (m_df m2)) as Hg2 by (by apply L).
  destruct ts as [|[t|i|x] ts]; try done.
  - eapply par_mono; [by apply IB|]. intros l m3. by apply grown_before.
  - apply par_bind. eapply par_mono; [by apply IS|]. intros [l|] m3 G3; cbn [default] in G3.
    + apply par_bind. eapply par_mono; [apply IB; by apply G3|]. intros l' m4 G4. apply par_ret.
      by apply (grown_app m l m3); [apply (grown_before _ m2)|].
    + apply par_ret. by apply (grown_before _ m2).
Qed.

Lemma par_with_block fuel d et m0 m :
  block_grows fuel → entered d → m_item d ≠ MIf → (∀ n, m_item d ≠ MSym n) → item_ok (m_df m) (m_item d) →
  le (m_df m0) (m_df m) → good (m_df m0) →
  Par (d ← parse_props fuel d; l ← parse_block fuel et; mret (Some [TNode d l])) m
    (λ r m', grown m0 (default [] r) m').
Proof using.
  intros IB He Hif Hsym Hi L Hg. apply par_props; [done|]. intros d' m1 Hd He' L1.
  assert (good (m_df m1)) as Hg1 by (by apply L1, L).
  apply par_bind. eapply par_mono; [by apply IB|]. intros l m2 G. apply par_ret. cbn [default].
  apply (grown_before _ m1); [by etrans|]. apply grown_node; [|by apply He'| | |done].
  - intros H. by rewrite Hd in H.
  - intros n H. rewrite Hd in H. by destruct (Hsym n).
  - rewrite Hd. eapply item_ok_le; [apply G|]. by eapply item_ok_le.
Qed.
Lemma par_leaf fuel d (c : mdata → ST Mst unit) m0 m :
  entered d → m_item d ≠ MIf → item_ok (m_df m) (m_item d) → le (m_df m0) (m_df m) → (∀ d, Keep MIf (c d)) →
  Par (d ← parse_props fuel d; c d;; mret (Some [TNode d []])) m (λ r m', grown m0 (default [] r) m').
Proof using.
  intros He Hif Hi L Hc. apply par_props; [done|]. intros d' m1 Hd He' L1.
  apply par_quiet; [apply Hc|]. intros _ m2 L2. apply par_ret. cbn [default].
  assert (le (m_df m1) (m_df m2)) as L3 by done.
  apply (grown_before _ m2); [etrans; [exact L|by etrans]|]. apply grown_node; [|by apply He'| | |by apply grown_nil].
  - intros H. by rewrite Hd in H.
  - done.
  - rewrite Hd. eapply item_ok_le; [exact L2|]. by eapply item_ok_le.
Qed.

Lemma le_define_sym n loc D : le D (define_sym n loc D).
Proof using.
  clear. split; cbn [define_sym df_defined df_next_choice df_choices]; [|intros m; rewrite elem_of_app; by left|done|done].
  intros []. split; cbn [define_sym df_defined df_next_choice df_fst df_named df_choices]; [|done..].
  intros m Hm. apply gd_type0. intros H. apply Hm, elem_of_app. by left.
Qed.

Lemma le_define_choice id loc D : id < df_next_choice D → le D (define_choice id loc D).
Proof using.
  clear. intros Hid. split; cbn [define_choice df_defined df_next_choice df_choices];
    [|done|intros m; rewrite elem_of_app; by left|done].
  intros []. split; cbn [define_choice df_defined df_next_choice df_fst df_named df_choices]; [done..|].
  intros m [Hm|Hm%list_elem_of_singleton]%elem_of_app; [auto|by subst].
Qed.

Lemma par_config fuel (n : string) (mc : bool) (ts : list tok) m :
  good (m_df m) →
  Par ((match ts with [] => mret tt | _ => lex trailing_tokens_error end);;
       loc ← here;
       on_df (define_sym n loc);;
       d ← new_node (MSym n) mc None loc;
       d ← parse_props fuel d;
       (match m_prompt d with
        | None => if mc then
                    nl ← name_and_loc (MSym n);
                    lex (warn ("the menuconfig symbol " +:+ nl +:+ " has no prompt"))
                  else mret tt
        | Some _ => mret tt
        end);;
       mret (Some [TNode d []])) m (λ r m', grown m (default [] r) m').
Proof using.
  intros Hg. apply par_quiet; [keep_solve|]. intros _ m1 L1. apply par_quiet; [apply keep_here|].
  intros loc m2 L2. apply par_bind. unfold Par at 1. cbn.
  set (m3 := mkMst (m_k m2) (m_rd m2) (define_sym n loc (m_df m2))).
  assert (le (m_df m2) (m_df m3)) as L3 by apply le_define_sym.
  apply par_new_node; [done|]. intros d m4 Hd Hen L4.
  apply (par_leaf fuel d (λ d, match m_prompt d with
    | None => if mc then nl ← name_and_loc (MSym n); lex (warn ("the menuconfig symbol " +:+ nl +:+ " has no prompt"))
              else mret tt
    | Some _ => mret tt end)); [done|..].
  - by rewrite Hd.
  - rewrite Hd. eapply item_ok_le; [exact L4|]. cbn. apply elem_of_app. right. by left.
  - etrans; [exact L1|]. etrans; [exact L2|]. by etrans.
  - intros d0. keep_solve.
Qed.

Lemma statement_grows_step fuel : block_grows fuel → statement_grows (S fuel).
Proof using.
  intros IB et t ts m Hg. cbn [KMenu.parse_statement].
  destruct (source_token t) as [[r o]|].
  { apply par_quiet; [apply keep_source_files|]. intros fs m1 L1.
    apply par_bind. eapply par_mono; [apply par_source_all; [apply IB|by apply L1]|].
    intros l m2 G. apply par_ret. by apply (grown_before _ m1). }
  case_bool_decide as He.
  { destruct ts; [|done]. apply par_ret. by apply grown_nil. }
  destruct t; try done.
  - (* choice *)
    apply par_choice_of; [done|]. intros id nm m1 Hid L1. apply par_quiet; [apply keep_here|].
    intros loc m2 L2. apply par_bind. unfold Par at 1. cbn.
    set (m3 := mkMst (m_k m2) (m_rd m2) (define_choice id loc (m_df m2))).
    assert (le (m_df m2) (m_df m3)) as L3.
    { apply le_define_choice. pose proof (le_next _ _ L2). lia. }
    apply par_new_node; [done|]. intros d m4 Hd Hen L4. apply par_with_block; rewrite ?Hd; try done.
    + eapply item_ok_le; [exact L4|]. cbn. apply elem_of_app. right. by left.
    + etrans; [exact L1|]. etrans; [exact L2|]. by etrans.
  - (* comment *)
    apply par_quiet; [apply keep_lex|]. intros title m1 L1. apply par_quiet; [apply keep_here|].
    intros loc m2 L2. apply par_new_node; [done|]. intros d m3 Hd Hen L3. apply par_quiet; [keep_solve|].
    intros _ m4 L4. assert (le (m_df m) (m_df m4)) as L by (etrans; [exact L1|]; etrans; [exact L2|]; by etrans).
    pose proof (par_leaf fuel d (λ _, mret tt) m m4) as H. specialize (H Hen). rewrite Hd in H. apply H; try done.
    intros. apply keep_ret.
  - (* config *)
    destruct ts as [|[|[[] n|]|] ts]; try done. by apply par_config.
  - (* if *)
    apply par_quiet; [unfold new_id; keep_solve|]. intros i m1 L1. apply par_quiet; [apply keep_lex|].
    intros e m2 L2. assert (le (m_df m) (m_df m2)) as L by (by etrans).
    apply par_bind. eapply par_mono; [apply IB; by apply L|].
    intros l m3 G. apply par_ret. cbn [default]. apply (grown_before _ m2); [done|]. by apply grown_node.
  - (* mainmenu *)
    apply par_quiet; [apply keep_lex|]. intros title m1 L1. apply par_quiet; [keep_solve|].
    intros _ m2 L2. apply par_ret. apply grown_nil. by etrans.
  - (* menu *)
    apply par_quiet; [apply keep_lex|]. intros title m1 L1. apply par_quiet; [apply keep_here|].
    intros loc m2 L2. apply par_new_node; [done|]. intros d m3 Hd Hen L3. apply par_quiet; [keep_solve|].
    intros _ m4 L4. apply par_with_block; rewrite ?Hd; try done.
    etrans; [exact L1|]. etrans; [exact L2|]. by etrans.
  - (* menuconfig *)
    destruct ts as [|[|[[] n|]|] ts]; try done. by apply par_config.
Qed.

Lemma blocks_grow fuel : block_grows fuel.
Proof using.
  assert (block_grows fuel ∧ statement_grows fuel) as [H _]; [|exact H].
  induction fuel as [|fuel [IB IS]]; [done|].
  split; [by apply block_grows_step|by apply statement_grows_step].
Qed.
End parse.

(** ** The nodes of the finished tree *)

Lemma walk_below_eq p d ch : walk_below p (TNode d ch) = (p, d) :: node_iter (TNode d ch).
Proof. done. Qed.
Lemma node_iter_in t0 d ch x : t0 ∈ ch → x ∈ walk_below (m_item d) t0 → x ∈ node_iter (TNode d ch).
Proof. intros Ht Hx. apply list_elem_of_bind. eauto. Qed.
Lemma node_iter_inv d ch x :
  x ∈ node_iter (TNode d ch) →
  ∃ c cc, TNode c cc ∈ ch ∧ (x = (m_item d, c) ∨ x ∈ node_iter (TNode c cc)).
Proof.
  intros ([c cc] & Hx & Ht)%list_elem_of_bind. exists c, cc. split; [done|].
  rewrite walk_below_eq in Hx. by apply elem_of_cons in Hx.
Qed.

Lemma under_iter id n t :
  under id n t → ∃ nm d, (MChoice id nm, d) ∈ node_iter t ∧ m_item d = MSym n.
Proof.
  induction t as [d ch IH] using tnode_ind'. intros H.
  inversion H as [? nm ? Ei Hn|? ? He]; subst.
  - assert (∃ c cc, TNode c cc ∈ ch ∧ m_item c = MSym n) as (c & cc & Hc & Hi).
    { clear -Hn. induction ch as [|[c cc] ch IH]; [by apply not_elem_of_nil in Hn|].
      cbn [node_syms omap list_omap] in Hn. fold (node_syms ch) in Hn.
      assert (n ∈ node_syms ch ∨ m_item c = MSym n) as [Hin|Hi].
      { destruct (m_item c); try (by left). apply elem_of_cons in Hn as [->|]; [by right|by left]. }
      - destruct (IH Hin) as (c' & cc' & ? & ?). exists c', cc'. split; [by right|done].
      - exists c, cc. split; [by left|done]. }
    exists nm, c. split; [|done]. eapply node_iter_in; [exact Hc|]. rewrite Ei, walk_below_eq. by left.
  - apply Exists_exists in He as (t & Ht & Hu). rewrite Forall_forall in IH.
    destruct (IH t Ht Hu) as (nm & c & Hc & Hi). exists nm, c. split; [|done].
    eapply node_iter_in; [exact Ht|]. destruct t as [c' cc']. rewrite walk_below_eq. by right.
Qed.

Lemma linked_iter id nm d t : linked t → (MChoice id nm, d) ∈ node_iter t → mentions id d.
Proof.
  induction t as [d0 ch IH] using tnode_ind'. intros Hl H. inversion Hl as [? ? Hm Hc]; subst.
  apply node_iter_inv in H as (c & cc & Ht & [[= Ei ->]|Hx]).
  - exact (proj1 (Forall_forall _ _) (Hm id nm (eq_sym Ei)) _ Ht).
  - rewrite Forall_forall in IH, Hc. by eapply IH; [exact Ht|apply Hc|].
Qed.

Lemma iter_nodes p d t : (p, d) ∈ node_iter t → m_item d ≠ MIf → m_item d ∈ (nodes t).*2.
Proof.
  intros H Hd. revert H. induction t as [d0 ch IH] using tnode_ind'. intros H.
  apply node_iter_inv in H as (c & cc & Ht & Hx).
  assert (m_item d ∈ (nodes (TNode c cc)).*2) as Hin.
  { destruct Hx as [[= -> ->]|Hx].
    - rewrite nodes_eq, bool_decide_eq_false_2 by done. by left.
    - rewrite Forall_forall in IH. by apply (IH _ Ht). }
  rewrite nodes_eq, fmap_app. apply elem_of_app. right.
  apply list_elem_of_fmap in Hin as (y & -> & Hy). apply list_elem_of_fmap. exists y. split; [done|].
  apply list_elem_of_bind. eauto.
Qed.

(** ** Configurations read from files *)

(** What parsing and finalization give. *)
Record parsed_ok (D : Df) (F : Fst) (top : tnode) : Prop := {
  po_wf : wf_fst (df_defined D) (df_choices D) F;
  po_under id n : n ∈ pc_syms (get_choice F id) → under id n top;
  po_linked : linked top;
  po_items : Forall (item_ok D) (nodes top).*2;
  po_ids id : id ∈ df_choices D → id < df_next_choice D;
  po_entered : every entered top;
  po_top : m_item (data top) = MMenu
}.

Section config.
Context (environ : gmap string string) (uname_release : string).
Context (shell : string → string * string).
Context (user_functions : gmap string (nat * option nat * (list string → ST Kst string))).
Context (glob : string → list string) (read_file : string → option string) (io_error : string → string).
Context (srctree srctree_prefix : string).
Context (lex_fuel : nat).
Notation parse_config := (parse_config environ uname_release shell user_functions glob read_file io_error
  srctree srctree_prefix lex_fuel).

Lemma initial_good filename text w : good (m_df (initial filename text w)).
Proof using.
  clear. split; try done. cbn. by intros id ?%not_elem_of_nil.
Qed.

Lemma parse_config_ok fuel filename text w top F m :
  parse_config fuel filename text w = Ok (top, F, m) → parsed_ok (m_df m) F top.
Proof using.
  unfold KMenu.parse_config. intros H.
  pose proof (blocks_grow environ uname_release shell user_functions glob read_file io_error srctree
    srctree_prefix lex_fuel fuel None _ (initial_good filename text w)) as HP. unfold Par in HP.
  destruct (parse_block _ _ _ _ _ _ _ _ _ _ fuel None _) as [[l m1]|]; [|done]. destruct HP as (HL & Hp & Ha).
  cbn [res_bind fst snd] in H.
  match type of H with context [finalize (TNode ?d l) ?s] => set (topd := d) in H end.
  destruct (finalize (TNode topd l) _) as [[top' F']|] eqn:Ef; [|done]. cbn [res_bind fst snd] in H.
  injection H as <- <- <-. cbn [m_df] in *.
  pose proof (le_good _ _ HL (initial_good filename text w)) as Hg.
  apply Forall_and in Hp as [Hp He]. assert (parsed (TNode topd l)) as Htop by (by constructor).
  assert (Forall (item_ok (m_df m1)) (nodes (TNode topd l)).*2) as Hin.
  { apply (allowed_node (m_df m1) topd l); done. }
  destruct (finalize_wf (df_defined (m_df m1)) (df_choices (m_df m1)) _ _ _ _ Htop Ef) as [HW HU].
  { exact Hin. }
  { split.
    - apply Hg.
    - intros n id. by rewrite (gd_choice _ Hg).
    - intros id n. rewrite (gd_syms _ Hg). by intros ?%not_elem_of_nil.
    - intros id _. apply (gd_defaults _ Hg). }
  split.
  - done.
  - intros id n Hn. destruct (HU id n Hn) as [H|]; [|done]. rewrite (gd_syms _ Hg) in H. by apply not_elem_of_nil in H.
  - by eapply finalize_linked.
  - destruct (finalize_kept _ _ _ _ Htop Ef) as [-> _]. exact Hin.
  - apply Hg.
  - eapply finalize_every; [apply entered_propagate| |exact Htop|exact Ef]. by constructor.
  - by rewrite (finalize_top _ _ _ _ Htop Ef).
Qed.
End config.

(** *** The finished symbols and choices *)

Lemma ordered_unique_in {A} `{EqDecision A} (l : list A) x : x ∈ ordered_unique l ↔ x ∈ l.
Proof.
  unfold ordered_unique. assert (∀ seen, x ∈ ordered_unique_go seen l ↔ x ∈ l ∧ x ∉ seen) as E.
  { induction l as [|y l IH]; intros seen; cbn [ordered_unique_go].
    - split; [by intros ?%not_elem_of_nil|by intros [?%not_elem_of_nil _]].
    - destruct (decide (y ∈ seen)) as [Hy|Hy].
      + rewrite IH, elem_of_cons. split; [intros []; auto|]. by intros [[->|?] ?].
      + rewrite !elem_of_cons, IH, not_elem_of_cons. split; [intros [->|(? & ? & ?)]; auto|].
        intros [[->|Hx] Hs]; [by left|]. destruct (decide (x = y)) as [->|]; [by left|by right]. }
  rewrite E. split; [by intros [? _]|]. intros Hx. split; [done|]. by intros ?%not_elem_of_nil.
Qed.

Section conf.
Context (D : Df) (F : Fst) (top : tnode) (syms : list string) (HP : parsed_ok D F top).
Notation nodes := (node_iter top).
Notation C := (conf_of D F nodes syms).

Lemma conf_sym_of n s : cf_syms C !! n = Some s → s = conf_sym D F nodes n.
Proof using.
  cbn [conf_of cf_syms]. intros H%elem_of_list_to_map_2. by apply list_elem_of_fmap in H as (m & [= -> ->] & _).
Qed.
Lemma conf_choice_of id c :
  cf_choices C !! id = Some c ↔ id < df_next_choice D ∧ c = conf_choice D F nodes id.
Proof using.
  cbn [conf_of cf_choices]. rewrite list_lookup_fmap_Some. split.
  - intros (j & -> & Hj%lookup_seq). destruct Hj as [-> Hj]. done.
  - intros [H ->]. exists id. split; [done|]. by apply lookup_seq.
Qed.

Lemma each_nil {A} (f : A → res (list string)) l : each f l = Ok [] → ∀ x, x ∈ l → f x = Ok [].
Proof using.
  clear. unfold each. assert (∀ acc, res_fold (λ ws x, let* w := f x in Ok (ws ++ w)) acc l = Ok [] →
    acc = [] ∧ ∀ x, x ∈ l → f x = Ok []) as H; [|by intros E; apply (H [])].
  induction l as [|y l IH]; intros acc E; cbn [res_fold] in E.
  - injection E as ->. split; [done|]. by intros x ?%not_elem_of_nil.
  - destruct (f y) as [w|] eqn:Ey; [|done]. cbn [res_bind] in E.
    destruct (IH _ E) as [[-> ->]%app_nil Hl]. split; [done|]. intros x [->|Hx]%elem_of_cons; auto.
Qed.

Lemma conf_graph_wf : graph_wf C.
Proof using HP.
  destruct HP as [[W1 W2 W3 W4] _ _ _ HD]. split.
  - intros id c n Hc Hn. apply conf_choice_of in Hc as [_ ->]. cbn [conf_of cf_unique].
    rewrite ordered_unique_in. exact (W3 id n Hn).
  - intros n s id Hs Hid. apply conf_sym_of in Hs as ->. cbn [conf_sym s_choice] in Hid.
    eexists. apply conf_choice_of. split; [by apply HD, (W2 n)|done].
Qed.

(** None of the checks runs out of fuel. *)
Lemma each_fin {A} (f : A → res (list string)) l : (∀ x, fin (f x)) → fin (each f l).
Proof using.
  clear. intros Hf. unfold each. generalize (@nil string). induction l as [|x l IH]; intros acc; [apply fin_ok|].
  cbn [res_fold]. apply fin_bind; [apply fin_bind; [apply Hf|fin_solve]|apply IH].
Qed.
Hint Extern 2 (fin (each _ _)) => apply each_fin; intros : fin.
Lemma sym_sanity_fin : fin (check_sym_sanity D F).
Proof using.
  clear. apply each_fin. intros n. unfold check_sym. apply fin_bind; [|fin_solve].
  destruct (BOOL_TRISTATE _); [fin_solve|]. case_bool_decide; [fin_solve|]. apply fin_bind; [|fin_solve].
  apply each_fin. intros [v c]. unfold default_warnings. fin_solve.
Qed.
Lemma choice_sanity_fin : fin (check_choice_sanity D F nodes).
Proof using.
  clear. assert (∀ n e how, fin (warn_select_imply D n e how)) as Hw.
  { intros n e how. unfold warn_select_imply. apply fin_bind; [apply each_fin; intros si|]; fin_solve. }
  apply each_fin. intros id. unfold check_choice.
  apply fin_bind; [|intros wd; apply fin_bind; [|fin_solve]]; apply each_fin.
  - intros [v c]. unfold choice_default_warnings. fin_solve.
  - intros n. unfold choice_sym_warnings.
    apply fin_bind; [case_decide; [done|apply fin_bind; [done|fin_solve]]|intros w1].
    apply fin_bind; [case_decide; [done|apply fin_bind; [done|fin_solve]]|fin_solve].
Qed.
Lemma undef_syms_fin : fin (check_undef_syms D F nodes syms).
Proof using.
  clear. apply each_fin. intros n. unfold check_undef_sym. destruct (_ && _); [|fin_solve].
  apply fin_bind; [|fin_solve]. apply each_fin. intros d. apply fin_bind; [|fin_solve]. unfold undef_reference.
  case_bool_decide; [|fin_solve]. apply fin_bind; [unfold node_str; fin_solve|intros s; fin_solve].
Qed.

Context (Hsane : check_choice_sanity D F nodes = Ok []).

Lemma choice_checked id :
  id ∈ df_choices D →
  (∀ vc, vc ∈ pc_defaults (get_choice F id) →
     ∃ m, vc.1 = EItem (SymItem false m) ∧ p_choice (get_sym F m) = Some id) ∧
  (∀ n p nm d, n ∈ pc_syms (get_choice F id) → (MChoice id nm, d) ∈ nodes → m_item d = MSym n →
     m_prompt d = p → p ≠ None).
Proof using Hsane.
  intros Hid. unfold check_choice_sanity in Hsane.
  pose proof (each_nil _ _ Hsane id (proj2 (ordered_unique_in _ _) Hid)) as H. unfold check_choice in H.
  destruct (each _ (pc_defaults _)) as [wd|] eqn:Ed; [|done]. cbn [res_bind] in H.
  destruct (each _ (pc_syms _)) as [ws|] eqn:Es; [|done]. cbn [res_bind] in H.
  injection H as H. apply app_nil in H as [_ H]. apply app_nil in H as [_ H]. apply app_nil in H as [-> ->]. split.
  - intros vc Hvc. pose proof (each_nil _ _ Ed vc Hvc) as H. unfold choice_default_warnings in H.
    destruct (vc.1) as [[[] m|]| | | |]; try done. cbn [negb andb] in H.
    case_bool_decide; [|done]. eauto.
  - intros n p nm d Hn Hd Hi Hp ->. pose proof (each_nil _ _ Es n Hn) as H. unfold choice_sym_warnings in H.
    destruct (if decide (p_rev_dep _ = kn) then _ else _) as [w1|]; [|done]. cbn [res_bind] in H.
    destruct (if decide (p_weak_rev_dep _ = kn) then _ else _) as [w2|]; [|done]. cbn [res_bind] in H.
    injection H as H. apply app_nil in H as [_ H]. apply app_nil in H as [_ H]. apply app_nil in H as [_ H].
    assert (∃ w, w ∈ filter (λ pd, m_item pd.2 = MSym n) nodes ≫= choice_node_warnings D id n) as [w Hw].
    { eexists. apply list_elem_of_bind. exists (MChoice id nm, d). split; [|by apply list_elem_of_filter].
      unfold choice_node_warnings. cbn [fst snd in_choice]. rewrite Nat.eqb_refl, Hp. by left. }
    rewrite H in Hw. by apply not_elem_of_nil in Hw.
Qed.

(** No symbol below a choice has a prompt with the constant n as condition. *)
Definition prompt_not_n (pd : mitem * mdata) : bool :=
  match pd.1, m_prompt pd.2 with
  | MChoice _ _, Some p => negb (bool_decide (p.2 = kn))
  | _, _ => true
  end.
Context (Hlive : forallb prompt_not_n nodes = true).

Lemma conf_wired : wired C.
Proof using HP Hsane Hlive.
  destruct HP as [[W1 W2 W3 W4] HU HL HI HD].
  assert (∀ n id, p_choice (get_sym F n) = Some id → id ∈ df_choices D ∧
    ∃ p, Some p ∈ s_nodes (conf_sym D F nodes n) ∧ Cho id ∈ refs p.2) as Hin.
  { intros n id Hid. destruct (W2 n id Hid) as [Hn Hid']. split; [done|].
    destruct (under_iter id n top (HU id n Hn)) as (nm & d & Hd & Hi).
    destruct (m_prompt d) as [p|] eqn:Hp; [|by destruct (proj2 (choice_checked id Hid') n None nm d Hn Hd Hi Hp)].
    exists p. split.
    - cbn [conf_sym s_nodes]. rewrite <- Hp. apply list_elem_of_fmap. exists d. split; [done|].
      unfold item_nodes. apply list_elem_of_filter. split; [done|]. apply list_elem_of_fmap. by eexists (_, d).
    - destruct (linked_iter id nm d top HL Hd) as [_ Hm]. destruct (Hm p Hp) as [|Hk]; [done|]. exfalso.
      rewrite forallb_forall in Hlive. specialize (Hlive (MChoice id nm, d)).
      unfold prompt_not_n in Hlive. cbn [fst snd] in Hlive. rewrite Hp, Hk in Hlive.
      rewrite bool_decide_eq_true_2 in Hlive by done. by specialize (Hlive (proj1 (list_elem_of_In _ _) Hd)). }
  split.
  - intros n s Hs Hn. apply conf_sym_of in Hs as ->. cbn [conf_of cf_unique] in Hn.
    rewrite ordered_unique_in in Hn. cbn [conf_sym s_orig_type s_nodes s_choice]. split_and!.
    + by apply W1.
    + destruct (item_nodes nodes (MSym n)) as [|d l] eqn:E; [done|]. exfalso.
      assert (d ∈ item_nodes nodes (MSym n)) as Hd by (rewrite E; by left).
      apply list_elem_of_filter in Hd as [Hi Hd]. apply list_elem_of_fmap in Hd as ([p d'] & -> & Hd). cbn in Hi.
      assert (m_item d' ∈ (KFinalSpec.nodes top).*2) as Hx by (apply (iter_nodes p); [done|by rewrite Hi]).
      pose proof (proj1 (Forall_forall _ _) HI _ Hx) as Hok. rewrite Hi in Hok. by apply Hn.
    + destruct (p_choice (get_sym F n)) as [id|] eqn:E; [|done]. destruct (W2 n id E) as [Hx _].
      by destruct Hn; eapply W3.
  - intros n s id Hs Hid. apply conf_sym_of in Hs as ->. cbn [conf_sym s_choice] in Hid.
    destruct (Hin n id Hid) as (Hid' & p & Hp & Hr). split.
    + eexists. by apply conf_choice_of; split; [apply HD|].
    + unfold sym_refs. apply elem_of_app. left. unfold prompt_refs. apply list_elem_of_bind.
      exists (Some p). split; [by destruct p|done].
  - intros n s id c Hs Hid Hc. apply conf_sym_of in Hs as ->. apply conf_choice_of in Hc as [_ ->].
    cbn [conf_sym s_choice] in Hid. by apply W2.
  - intros id c n Hc Hn. apply conf_choice_of in Hc as [_ ->]. cbn [conf_choice c_defaults c_syms] in *.
    destruct (decide (id ∈ df_choices D)) as [Hid|Hid]; [|by rewrite (W4 id Hid) in Hn; apply not_elem_of_nil in Hn].
    apply list_elem_of_fmap in Hn as ([n' e] & -> & Hn). apply list_elem_of_omap in Hn as (vc & Hvc & E).
    destruct (proj1 (choice_checked id Hid) vc Hvc) as (m & Em & Hm). rewrite Em in E. injection E as <- <-.
    by apply W2.
Qed.

Lemma conf_users_ok : conf_ok C.
Proof using.
  split.
  - intros n s Hs. apply conf_sym_of in Hs as ->. by intros u.
  - intros id c Hc. apply conf_choice_of in Hc as [_ ->]. by split.
Qed.
End conf.

(** ** The whole way from the files to the values *)

Section init.
Context (iter : gset sc → list sc) (syms_order : gset string → list string).
Context (environ : gmap string string) (uname_release : string).
Context (shell : string → string * string).
Context (user_functions : gmap string (nat * option nat * (list string → ST Kst string))).
Context (glob : string → list string) (read_file : string → option string) (io_error : string → string).
Context (srctree srctree_prefix : string).
Context (lex_fuel : nat).
Notation init := (init iter syms_order environ uname_release shell user_functions glob read_file io_error
  srctree srctree_prefix lex_fuel).

Lemma init_parts fuel filename text w kc :
  init fuel filename text w = Ok kc →
  parsed_ok (kc_df kc) (kc_fst kc) (kc_top kc) ∧
  (∃ syms, kc_conf kc = conf_of (kc_df kc) (kc_fst kc) (node_iter (kc_top kc)) syms) ∧
  kc_deps kc = config_deps (kc_conf kc).
Proof using.
  unfold KInit.init. destruct (parse_config _ _ _ _ _ _ _ _ _ _ fuel filename text w) as [[[top F] m]|] eqn:E; [|done].
  cbn [res_bind]. unfold finish_init. intros H.
  apply res_bind_ok in H as (w1 & _ & H). apply res_bind_ok in H as (w2 & _ & H).
  apply res_bind_ok in H as (w3 & _ & H). apply res_bind_ok in H as (r & _ & H).
  apply res_bind_ok in H as (vis & _ & H). injection H as <-. cbn [kc_df kc_fst kc_top kc_conf kc_deps].
  split_and!; [by eapply parse_config_ok|eauto|done].
Qed.

(** C2.  When a configuration is read from its files without a warning
    about choices, and no symbol of a choice has a prompt with the constant n
    as condition, then whatever is read and changed afterwards, in whatever
    order, each answer given through the caches is the value computed without
    caches, wherever that is defined. *)
Theorem init_values_correct fuel filename text w kc prefix vfuel l :
  init fuel filename text w = Ok kc →
  (∀ X x, x ∈ iter X ↔ x ∈ X) →
  check_choice_sanity (kc_df kc) (kc_fst kc) (node_iter (kc_top kc)) = Ok [] →
  forallb prompt_not_n (node_iter (kc_top kc)) = true →
  Forall2 (λ a spec, spec ≠ Err OutOfFuel → a = spec)
    (run_ops prefix (kc_deps kc) iter vfuel (kc_conf kc) no_cache l)
    (spec_ops prefix vfuel (kc_conf kc) l).
Proof using.
  intros H Hiter Hsane Hlive. destruct (init_parts _ _ _ _ _ H) as (HP & [syms Ec] & ->).
  apply run_ops_correct; [done|]. apply initially_ready; rewrite Ec.
  - by apply conf_wired.
  - apply conf_users_ok.
Qed.

(** What [_init] does after parsing and finalization ends for every
    configuration: the sanity checks, and the search for dependency loops,
    which never needs more recursion than there are symbols and choices. *)
Theorem init_checks_end fuel filename text w warn_undef top F m :
  parse_config environ uname_release shell user_functions glob read_file io_error srctree srctree_prefix
    lex_fuel fuel filename text w = Ok (top, F, m) →
  (∀ X x, x ∈ iter X ↔ x ∈ X) →
  finish_init iter syms_order warn_undef top F m ≠ Err OutOfFuel.
Proof using.
  intros E Hiter. apply parse_config_ok in E as HP. unfold finish_init.
  apply fin_bind; [apply sym_sanity_fin|intros w1]. apply fin_bind; [apply choice_sanity_fin|intros w2].
  apply fin_bind; [destruct warn_undef; [apply undef_syms_fin|done]|intros w3].
  apply fin_bind.
  - generalize (m_k m). induction (w1 ++ w2 ++ w3) as [|x l IH]; intros k; [done|].
    cbn [add_warnings]. unfold warn, mbind, ST_bind, st_get. cbn [res_bind fst snd].
    destruct (k_warn k); cbn [res_bind fst snd]; apply IH.
  - intros r. apply fin_bind; [|fin_solve].
    match goal with |- fin (check_dep_loops ?C _ _ ?msg) =>
      pose proof (loop_check_known C iter msg Hiter (conf_graph_wf _ _ _ _ HP)) as H;
      destruct (check_dep_loops C (build_dep C) iter msg) as [|e] end; [done|].
    by destruct H as [loop ->].
Qed.

End init.

(** A choice of A and B, and a symbol that depends on A. *)
Definition choice_text : string := text_of
  ["choice"; "  prompt " +:+ quoted_str "c"; "config A"; "  bool " +:+ quoted_str "a"; "config B";
   "  bool " +:+ quoted_str "b"; "endchoice"; "config Z"; "  int " +:+ quoted_str "z"; "  default 3";
   "  depends on A"].
Notation demo_init := (init elements elements ∅ "" (λ _, ("", "")) ∅ (λ _, []) (λ _, None) (λ _, "") "" "" 100
  100 "Kconfig" choice_text true).
Definition init_ops : list op :=
  [OTri (sym_item "A"); OConfigString "Z"; OSet "B" (UStr "y"); OTri (sym_item "A"); OConfigString "Z";
   OSet "Z" (UStr "5"); OUnset "B"; OChoiceUnset 0; OConfigString "Z"].
Definition init_answers : list (res answer) :=
  Ok <$> [ANat 2; AStr (line "CONFIG_Z=3"); ABool true; ANat 0; AStr ""; ABool true; ADone; ADone;
          AStr (line "CONFIG_Z=5")].

Lemma init_values_correct_witness :
  match demo_init with
  | Ok kc => run_ops "CONFIG_" (kc_deps kc) elements 20 (kc_conf kc) no_cache init_ops = init_answers
  | Err _ => False
  end.
Proof.
  assert (match demo_init with
    | Ok kc => check_choice_sanity (kc_df kc) (kc_fst kc) (node_iter (kc_top kc)) = Ok [] ∧
               forallb prompt_not_n (node_iter (kc_top kc)) = true ∧
               spec_ops "CONFIG_" 20 (kc_conf kc) init_ops = init_answers
    | Err _ => False end) as H by (vm_compute; split_and!; reflexivity).
  destruct demo_init as [kc|] eqn:E; [|done]. destruct H as (H1 & H2 & H3).
  rewrite <- H3. apply all_defined.
  - eapply init_values_correct; [exact E| |exact H1|exact H2]. intros X x. apply elem_of_elements.
  - rewrite H3. repeat constructor; discriminate.
Defined.

Lemma init_checks_end_witness :
  match parse_config ∅ "" (λ _, ("", "")) ∅ (λ _, []) (λ _, None) (λ _, "") "" "" 100 100 "Kconfig" choice_text true with
  | Ok (top, F, m) => finish_init elements elements true top F m ≠ Err OutOfFuel
  | Err _ => False
  end.
Proof.
  pose proof (init_checks_end elements elements ∅ "" (λ _, ("", "")) ∅ (λ _, []) (λ _, None) (λ _, "") "" "" 100 100
    "Kconfig" choice_text true true) as H.
  assert (is_ok (parse_config ∅ "" (λ _, ("", "")) ∅ (λ _, []) (λ _, None) (λ _, "") "" "" 100 100 "Kconfig"
    choice_text true) = true) as Hok by (vm_compute; reflexivity).
  destruct (parse_config _ _ _ _ _ _ _ _ _ _ _ _ _ _) as [[[top F] m]|]; [|discriminate Hok].
  apply (H top F m eq_refl). intros X x. apply elem_of_elements.
Defined.

(** *** A symbol that does not depend on its choice *)

(** In the choice, A depends on n; a second definition gives it a prompt
    outside. *)
Definition outside_text : string := text_of
  ["choice"; "  prompt " +:+ quoted_str "c"; "config A"; "  bool " +:+ quoted_str "a"; "  depends on n";
   "config B"; "  bool " +:+ quoted_str "b"; "endchoice"; "config A"; "  prompt " +:+ quoted_str "outside"].

(** A is the selection of the choice until the user picks B; its cached value
    stays. *)
Theorem outside_prompt_stale :
  let l := [OTri (sym_item "A"); OSet "B" (UStr "y"); OTri (sym_item "A"); OTri (sym_item "B")] in
  match init elements elements ∅ "" (λ _, ("", "")) ∅ (λ _, []) (λ _, None) (λ _, "") "" "" 100 100 "Kconfig"
          outside_text true with
  | Ok kc =>
      run_ops "CONFIG_" (kc_deps kc) elements 20 (kc_conf kc) no_cache l =
        Ok <$> [ANat 2; ABool true; ANat 2; ANat 2] ∧
      spec_ops "CONFIG_" 20 (kc_conf kc) l = Ok <$> [ANat 2; ABool true; ANat 0; ANat 2]
  | Err _ => False
  end.
Proof. vm_compute. split; reflexivity. Qed.
End KInitSpec.
