(* ===== verification/Files.v ===== *)
(** * Files and directories

    What the Kconfig tools use of the file system: a tree of files and
    directories as a map from paths, and the log of the files that were
    opened for writing, which is what a build tool sees as a new modification
    time.  There are no symbolic links, and ".." has no meaning of its own. *)
From S2P Require Import Prelude Hex PyStr KLex.

Module Files.
Import Hex PyStr.

(** A path is the list of its components; "/" leads an absolute one. *)
Notation path := (list string).
Inductive node := File (t : string) | Dir.
#[global] Instance node_eq_dec : EqDecision node.
Proof. solve_decision. Defined.

Record World := mkWorld { w_fs : gmap path node; w_log : list path }.

Definition comps (p : string) : path :=
  filter (λ c, String.eqb c "" || String.eqb c "." = false) (split_char "/" p).
Definition norm (p : string) : path :=
  if startswith p "/" then "/" :: comps p else comps p.
Definition parent (p : path) : path := removelast p.
(** [join(a, b)] *)
Definition join_path (a b : string) : string :=
  if startswith b "/" || String.eqb a "" then b else a +:+ "/" +:+ b.

(** The current directory and the root exist. *)
Definition is_root (p : path) : bool := bool_decide (p = [] ∨ p = ["/"]).
Definition at_path (W : World) (p : path) : option node := if is_root p then Some Dir else w_fs W !! p.

(** A file where a directory is needed. *)
Definition file_above (W : World) (p : path) : bool :=
  existsb (λ i, match at_path W (take i p) with Some (File _) => true | _ => false end) (seq 1 (length p - 1)).
Definition no_entry (W : World) (p : path) (s : string) : pyerr :=
  if file_above W p then NotADirectoryError s else FileNotFoundError s.

Definition exists_at (W : World) (p : path) : bool := bool_decide (is_Some (at_path W p)).
(** [exists(s)] *)
Definition exists_path (W : World) (s : string) : bool :=
  negb (String.eqb s "") && exists_at W (norm s).

(** The text of a file, line ends as they are stored. *)
Definition read_at (W : World) (p : path) (s : string) : res string :=
  match at_path W p with
  | Some (File t) => Ok t
  | Some Dir => Err (IsADirectoryError s)
  | None => Err (no_entry W p s)
  end.
Definition read_path (W : World) (s : string) : res string :=
  if String.eqb s "" then Err (FileNotFoundError s) else read_at W (norm s) s.

Definition put_at (W : World) (p : path) (t : string) : World :=
  mkWorld (<[p := File t]> (w_fs W)) (w_log W ++ [p]).
(** Opening for writing and writing [t]. *)
Definition write_at (W : World) (p : path) (s t : string) : res World :=
  match at_path W p with
  | Some Dir => Err (IsADirectoryError s)
  | Some (File _) => Ok (put_at W p t)
  | None =>
      match at_path W (parent p) with
      | Some Dir => Ok (put_at W p t)
      | _ => Err (no_entry W p s)
      end
  end.
Definition write_path (W : World) (s t : string) : res World :=
  if String.eqb s "" then Err (FileNotFoundError s) else write_at W (norm s) s t.

Definition mkdir_at (W : World) (p : path) (s : string) : res World :=
  if exists_at W p then Err (FileExistsError s)
  else match at_path W (parent p) with
       | Some Dir => Ok (mkWorld (<[p := Dir]> (w_fs W)) (w_log W))
       | _ => Err (no_entry W p s)
       end.
(** [os.mkdir(s)] *)
Definition mkdir (W : World) (s : string) : res World :=
  if String.eqb s "" then Err (FileNotFoundError s) else mkdir_at W (norm s) s.
(** [os.makedirs] of a directory that does not exist: the missing ones above
    it are made first. *)
Definition makedirs_at (W : World) (p : path) (s : string) : res World :=
  res_fold (λ W i, if exists_at W (take i p) then Ok W else mkdir_at W (take i p) s)
    W (seq 1 (length p)).

(** [os.replace(a, b)] *)
Fixpoint below (p q : path) : option path :=
  match p, q with
  | [], _ => Some q
  | c :: p, d :: q => if String.eqb c d then below p q else None
  | _, _ => None
  end.
Definition move_tree (p q : path) (m : gmap path node) : gmap path node :=
  list_to_map ((λ kv, (match below p kv.1 with Some r => q ++ r | None => kv.1 end, kv.2)) <$> map_to_list m).
Definition has_children (W : World) (p : path) : bool :=
  existsb (λ kv, match below p kv.1 with Some (_ :: _) => true | _ => false end) (map_to_list (w_fs W)).
Definition rename (W : World) (a b : string) : res World :=
  let p := norm a in let q := norm b in
  match at_path W p, at_path W q with
  | None, _ => Err (no_entry W p a)
  | Some (File t), Some Dir => Err (IsADirectoryError b)
  | Some (File t), o =>
      if o then Ok (mkWorld (<[q := File t]> (delete p (w_fs W))) (w_log W))
      else match at_path W (parent q) with
           | Some Dir => Ok (mkWorld (<[q := File t]> (delete p (w_fs W))) (w_log W))
           | _ => Err (no_entry W q b)
           end
  | Some Dir, Some (File _) => Err (NotADirectoryError b)
  | Some Dir, o =>
      if is_root p || (if o then has_children W q else false) then Err (OSError b)
      else Ok (mkWorld (move_tree p q (delete q (w_fs W))) (w_log W))
  end.

(** [EnvironmentError], with its [errno.ENOENT] *)
Definition is_os_error (e : pyerr) : bool :=
  match e with
  | FileNotFoundError _ | FileExistsError _ | IsADirectoryError _ | NotADirectoryError _ | OSError _ => true
  | _ => false
  end.
End Files.
