(* ===== verification/FilesSpec.v ===== *)
(** * Lemmas on paths and the tree of files

    Reading what was written, what writing and making directories leave
    alone, and directories in which files and directories have different
    kinds of names, so that making a directory never meets a file. *)
From S2P Require Import Prelude Hex PyStr KLex KLexSpec Files.

Module FilesSpec.
Import Hex PyStr Files.

(** ** Paths *)

Lemma split_char_slash a b c :
  split_char c (a +:+ String c b) = split_char c a ++ split_char c b.
Proof.
  induction a as [|d a IH].
  - change ("" +:+ ?x) with x. cbn [split_char]. by rewrite Ascii.eqb_refl.
  - rewrite cons_append. cbn [split_char]. destruct (Ascii.eqb d c); [by rewrite IH|].
    rewrite IH. destruct (split_char c a) as [|w ws] eqn:E; [|done].
    by destruct a as [|x a]; cbn in E; [|destruct (Ascii.eqb x c); [|destruct (split_char c a)]].
Qed.

Lemma split_char_ends c s t :
  has_char c t = false → ∃ ws w, split_char c s = ws ++ [w] ∧ split_char c (s +:+ t) = ws ++ [w +:+ t].
Proof.
  intros Ht. induction s as [|d s (ws & w & E1 & E2)].
  - exists [], "". split; [done|]. by apply split_char_none.
  - rewrite cons_append. cbn [split_char]. rewrite E1, E2. destruct (Ascii.eqb d c).
    + by exists ("" :: ws), w.
    + destruct ws as [|x ws]; [by exists [], (String d w)|]. by exists (String d x :: ws), w.
Qed.

Lemma split_char_has c d s : has_char d s = false → Forall (λ w, has_char d w = false) (split_char c s).
Proof.
  induction s as [|e s IH]; cbn; [by repeat constructor|]. intros [He Hs]%orb_false_iff.
  specialize (IH Hs). destruct (Ascii.eqb e c); [by constructor|].
  destruct IH as [|w ws Hw Hws]; constructor; cbn; rewrite ?He; auto.
Qed.

Lemma split_char_sep c s : Forall (λ w, has_char c w = false) (split_char c s).
Proof.
  induction s as [|e s IH]; cbn; [by repeat constructor|].
  destruct (Ascii.eqb e c) eqn:E; [by constructor|].
  destruct IH as [|w ws Hw Hws]; constructor; cbn; rewrite ?E; auto.
Qed.

Lemma comps_app a b : comps (a +:+ "/" +:+ b) = comps a ++ comps b.
Proof. unfold comps. change ("/" +:+ b) with (String "/" b). by rewrite split_char_slash, filter_app. Qed.

Lemma norm_app a b : a ≠ "" → norm (a +:+ "/" +:+ b) = norm a ++ comps b.
Proof.
  intros Ha. unfold norm. rewrite comps_app.
  destruct a as [|c a]; [done|]. rewrite cons_append. change (startswith (String c ?x) "/") with
    (if Ascii.ascii_dec "/" c then String.prefix "" x else false).
  destruct (Ascii.ascii_dec "/" c); [|done]. by destruct a.
Qed.

Lemma join_path_norm a b : a ≠ "" → startswith b "/" = false → norm (join_path a b) = norm a ++ comps b.
Proof.
  intros Ha Hb. unfold join_path. rewrite Hb. apply String.eqb_neq in Ha as E. rewrite E. by apply norm_app.
Qed.

Lemma join_path_not_empty a b : b ≠ "" → join_path a b ≠ "".
Proof.
  intros Hb. unfold join_path. destruct (_ || _); [done|]. destruct a; [by destruct b|done].
Qed.

(** ** Reading and writing *)

Lemma at_put W p q t :
  is_root p = false → at_path (put_at W p t) q = if decide (q = p) then Some (File t) else at_path W q.
Proof.
  intros Hp. unfold at_path. cbn [put_at w_fs]. case_decide as E.
  - subst. by rewrite Hp, lookup_insert_eq.
  - by rewrite lookup_insert_ne by done.
Qed.

Lemma at_mkdir W p q l :
  is_root p = false →
  at_path (mkWorld (<[p := Dir]> (w_fs W)) l) q = if decide (q = p) then Some Dir else at_path W q.
Proof.
  intros Hp. unfold at_path. cbn [w_fs]. case_decide as E.
  - subst. by rewrite Hp, lookup_insert_eq.
  - by rewrite lookup_insert_ne by done.
Qed.

Lemma at_none_root W p : at_path W p = None → is_root p = false.
Proof. unfold at_path. by destruct (is_root p). Qed.
Lemma at_file_root W p t : at_path W p = Some (File t) → is_root p = false.
Proof. unfold at_path. by destruct (is_root p). Qed.

(** What a successful write does. *)
Lemma write_at_ok W p s t W' :
  write_at W p s t = Ok W' →
  W' = put_at W p t ∧ is_root p = false.
Proof.
  unfold write_at. destruct (at_path W p) as [[t0|]|] eqn:E; [| done |].
  - intros [= <-]. split; [done|]. by eapply at_file_root.
  - destruct (at_path W (parent p)) as [[]|]; [done| |done]. intros [= <-].
    split; [done|]. by eapply at_none_root.
Qed.

Lemma write_path_read W s t W' : write_path W s t = Ok W' → read_path W' s = Ok t.
Proof.
  unfold write_path, read_path. destruct (String.eqb s ""); [done|].
  intros [-> Hr]%write_at_ok. unfold read_at. rewrite at_put by done. by rewrite decide_True.
Qed.

(** ** Names with and without a dot *)

Definition dotted (c : string) : bool := has_char "." c.

(** A directory [d] below which files have a dot in their name and
    directories do not. *)
Record tree_ok (W : World) (d : path) : Prop := {
  to_above i : at_path W (take i d) = Some Dir;
  to_file q c t : at_path W (d ++ q ++ [c]) = Some (File t) → dotted c = true;
  to_dir q c : at_path W (d ++ q ++ [c]) = Some Dir → dotted c = false
}.

Lemma to_self W d : tree_ok W d → at_path W d = Some Dir.
Proof. intros H. rewrite <- (firstn_all d). apply H. Qed.

Lemma parent_snoc (p : path) c : parent (p ++ [c]) = p.
Proof. unfold parent. apply removelast_last. Qed.

Lemma not_prefix (d q : path) c i : d ++ q ++ [c] ≠ take i d.
Proof. intros E%(f_equal length). rewrite !length_app, length_take in E. cbn in E. lia. Qed.

Lemma path_snoc_inj (d q q' : path) c c' : d ++ q ++ [c] = d ++ q' ++ [c'] → q = q' ∧ c = c'.
Proof. intros E%app_inv_head. by apply app_inj_tail in E. Qed.

Lemma tree_put W d q c t :
  is_root (d ++ q ++ [c]) = false → tree_ok W d → dotted c = true → tree_ok (put_at W (d ++ q ++ [c]) t) d.
Proof.
  intros Hr [H1 H2 H3] Hc. split; intros *; rewrite at_put by done.
  - rewrite decide_False; [done|]. by intros E%eq_sym%not_prefix.
  - case_decide as E; [|by apply H2]. by apply path_snoc_inj in E as [_ ->].
  - case_decide as E; [done|]. by apply H3.
Qed.

Lemma tree_mkdir W d q c l :
  is_root (d ++ q ++ [c]) = false → tree_ok W d → dotted c = false →
  tree_ok (mkWorld (<[d ++ q ++ [c] := Dir]> (w_fs W)) l) d.
Proof.
  intros Hr [H1 H2 H3] Hc. split; intros *; rewrite at_mkdir by done.
  - by rewrite decide_False by (by intros E%eq_sym%not_prefix).
  - case_decide as E; [done|]. by apply H2.
  - case_decide as E; [|by apply H3]. by apply path_snoc_inj in E as [_ ->].
Qed.

(** What making directories and touching files below [d] keeps: everything
    that was there, and the dotted names directly below [d]. *)
Record grows (d : path) (W W' : World) : Prop := {
  gr_keep q x : at_path W q = Some x → x = Dir → at_path W' q = Some Dir;
  gr_new c : dotted c = true → at_path W' (d ++ [c]) = at_path W (d ++ [c])
}.

Lemma grows_refl d W : grows d W W.
Proof. split; [by intros ??? ->|done]. Qed.
Lemma mkdir_step W d q c s :
  tree_ok W d → at_path W (d ++ q) = Some Dir → dotted c = false →
  ∃ W', (if exists_at W (d ++ q ++ [c]) then Ok W else mkdir_at W (d ++ q ++ [c]) s) = Ok W' ∧
    tree_ok W' d ∧ at_path W' (d ++ q ++ [c]) = Some Dir ∧ w_log W' = w_log W ∧ grows d W W'.
Proof.
  intros Ht Hq Hc. unfold mkdir_at, exists_at. case_bool_decide as E.
  - exists W. split_and!; [done|done| |done|apply grows_refl]. destruct E as [[t|] E]; [|done].
    apply (to_file _ _ Ht) in E. congruence.
  - assert (at_path W (d ++ q ++ [c]) = None) as Hn by (by apply eq_None_not_Some).
    assert (Hr := at_none_root _ _ Hn). rewrite app_assoc, parent_snoc, Hq, <- app_assoc.
    eexists. split; [done|]. split_and!; [by apply tree_mkdir| |done|].
    + rewrite at_mkdir by done. by rewrite decide_True.
    + split.
      * intros q' x Hx ->. rewrite at_mkdir by done. by case_decide.
      * intros c' Hc'. rewrite at_mkdir by done. case_decide as E'; [|done].
        exfalso. apply (path_snoc_inj d [] q) in E' as [_ ->]. congruence.
Qed.

Lemma grows_trans d W1 W2 W3 : grows d W1 W2 → grows d W2 W3 → grows d W1 W3.
Proof.
  intros [H1 H2] [H3 H4]. split; [intros q x E Hx; by eapply H3, eq_refl; eapply H1|].
  intros c Hc. by rewrite H4, H2.
Qed.

Lemma makedirs_below W d q s :
  tree_ok W d → Forall (λ c, dotted c = false) q →
  ∃ W', makedirs_at W (d ++ q) s = Ok W' ∧ tree_ok W' d ∧ at_path W' (d ++ q) = Some Dir ∧
    w_log W' = w_log W ∧ grows d W W'.
Proof.
  intros Ht Hq. unfold makedirs_at. induction q as [|c q IH] using rev_ind.
  { exists W. rewrite app_nil_r, res_fold_id.
    - split_and!; [done|done|by apply to_self|done|apply grows_refl].
    - intros i Hi%elem_of_seq. unfold exists_at. rewrite bool_decide_true; [done|].
      rewrite (to_above _ _ Ht). by eexists. }
  apply Forall_app in Hq as [Hq Hc]. inversion_clear Hc as [|?? Hc' _].
  destruct (IH Hq) as (W1 & E & Ht1 & Hd1 & Hl1 & Hg1).
  rewrite app_assoc, length_app, seq_app, res_fold_app. cbn [length seq].
  erewrite res_fold_ext, E.
  2: { intros W' i Hi%elem_of_seq. by rewrite take_app_le by lia. }
  cbn [res_bind res_fold]. rewrite take_ge by (rewrite length_app; cbn; lia). rewrite <- app_assoc.
  destruct (mkdir_step W1 d q c s Ht1 Hd1 Hc') as (W2 & -> & Ht2 & Hd2 & Hl2 & Hg2).
  exists W2. split_and!; [done|done|done|congruence|by eapply grows_trans].
Qed.
End FilesSpec.
