(* ===== verification/KSync.v ===== *)
(** * tools/kconfig/kconfiglib.py: files of a configuration

    Writing a file only when it changes, [write_config] with its copy of the
    old file, [write_autoconf], [write_min_config], opening a .config file,
    the default configuration file, [load_config], [load_allconfig], and
    [sync_deps], which touches one file per changed symbol.  [_old_val] is a
    map, since only [sync_deps] uses it. *)
From S2P Require Import Prelude Hex PyStr KExpr KLex KSym KConf Files.

Module KSync.
Import Hex PyStr KExpr KSym KConf Files.

(** ** Writing *)

(** [_contents_eq] *)
Definition contents_eq (W : World) (filename contents : string) : bool :=
  match read_path W filename with
  | Ok t => String.eqb (stake (String.length contents + 1) (KLex.universal_nl t)) contents
  | Err _ => false
  end.

(** [_write_if_changed] *)
Definition write_if_changed (W : World) (filename contents : string) : res (bool * World) :=
  if contents_eq W filename contents then Ok (false, W)
  else let* W := write_path W filename contents in Ok (true, W).

(** [_save_old]: every error is ignored. *)
Definition save_old (W : World) (p : string) : World :=
  match rename W p (p +:+ ".old") with Ok W => W | Err _ => W end.

(** ** The dependency files *)

Definition lower_char (c : ascii) : ascii :=
  let n := nat_of_ascii c in if (65 <=? n) && (n <=? 90) then ascii_of_nat (n + 32) else c.
(** [sym_name.lower().replace("_", os.sep)] *)
Fixpoint dep_name (s : string) : string :=
  match s with
  | EmptyString => ""
  | String c s => String (if Ascii.eqb c "_" then "/"%char else lower_char c) (dep_name s)
  end.

(** [_touch_dep_file] *)
Definition touch_dep_file (p sym_name : string) (W : World) : res World :=
  let s := p +:+ "/" +:+ dep_name sym_name +:+ ".h" in
  let sym_path := norm s in
  let* W := if exists_at W (parent sym_path) then Ok W else makedirs_at W (parent sym_path) s in
  write_at W sym_path s "".

Section sync.
Context (prefix : string) (C : Conf) (V : Vals) (p : string).

Definition auto_conf : string := join_path p "auto.conf".

(** One line of auto.conf, for [_load_old_vals]. *)
Definition load_old_line (oW : gmap string string * World) (l : string) : res (gmap string string * World) :=
  let '(old, W) := oW in
  match set_match prefix l with
  | None => Ok (old, W)
  | Some (name, val) =>
      match cf_syms C !! name with
      | Some s =>
          if decide (s_orig_type s = STRING) then
            match conf_string_match val with
            | None => Ok (old, W)
            | Some x => Ok (<[name := unescape x]> old, W)
            end
          else Ok (<[name := val]> old, W)
      | None => let* W := touch_dep_file p name W in Ok (old, W)
      end
  end.

Definition load_old_vals (W : World) : res (gmap string string * World) :=
  match read_path W auto_conf with
  | Err (FileNotFoundError _) => Ok (∅, W)
  | Err e => Err e
  | Ok text => res_fold load_old_line (∅, W) (file_lines text)
  end.

(** Whether the symbol has a new value. *)
Definition has_changed (old : option string) (t : styp) (vw : string * bool) : bool :=
  if vw.2 then
    negb ((bool_decide (old = None) && BOOL_TRISTATE t && String.eqb vw.1 "n")
          || bool_decide (old = Some vw.1))
  else negb (bool_decide (old = None)).

Definition sync_sym (old : gmap string string) (W : World) (ns : string * Symbol) : res World :=
  let* vw := sym_str_value C V ns.1 ns.2 in
  if has_changed (old !! ns.1) (s_orig_type ns.2) vw then touch_dep_file p ns.1 W else Ok W.

(** [_write_old_vals] *)
Definition write_old_vals (W : World) : res World :=
  let* t := old_vals_contents prefix C V in
  let* r := write_if_changed W auto_conf t in Ok r.2.

(** [sync_deps] *)
Definition sync_deps (W : World) : res World :=
  let* W := if exists_path W p then Ok W else mkdir W p in
  let* r := load_old_vals W in
  let* W := res_fold (sync_sym r.1) r.2 (unique_syms C) in
  write_old_vals W.
End sync.
End KSync.
