(* ===== verification/KSyncSpec.v ===== *)
(** * Writing files only when they change, and sync_deps

    [sync_deps] touches exactly the files of the symbols whose recorded value
    changed, among them every symbol whose line in the header changed, and
    nothing when it is run again. *)
From S2P Require Import Prelude Hex PyStr KExpr KLex KSym KConf KLexSpec KSymSpec KConfSpec KRound.
From S2P Require Import Files FilesSpec KSync.

Module KSyncSpec.
Import Hex PyStr KExpr KSym KConf KConfSpec KRound Files FilesSpec KSync.

Lemma filter_ext_in {A} (P Q : A → Prop) `{!∀ x, Decision (P x), !∀ x, Decision (Q x)} (l : list A) :
  (∀ x, x ∈ l → P x ↔ Q x) → filter P l = filter Q l.
Proof.
  induction l as [|x l IH]; intros Hl; [done|]. rewrite !filter_cons, IH by set_solver.
  specialize (Hl x (list_elem_of_here _ _)). repeat case_decide; tauto.
Qed.

(** ** _contents_eq *)

Lemma stake_all s n : String.length s ≤ n → stake n s = s.
Proof.
  revert n; induction s as [|c s IH]; intros [|n] Hn; cbn in *; try done; [lia|].
  by rewrite IH by lia.
Qed.

Lemma stake_eq s c : stake (String.length c + 1) s = c → s = c.
Proof.
  revert s; induction c as [|d c IH]; intros [|e s]; cbn; try done.
  intros [= -> H]. f_equal. by apply IH.
Qed.

Lemma contents_eq_iff W f c :
  contents_eq W f c = true ↔ ∃ t, read_path W f = Ok t ∧ KLex.universal_nl t = c.
Proof.
  unfold contents_eq. destruct (read_path W f) as [t|].
  - rewrite String.eqb_eq. split.
    + intros H%stake_eq. eauto.
    + intros (? & [= <-] & <-). apply stake_all. lia.
  - split; [done|]. by intros (? & ? & _).
Qed.

(** ** Dependency files *)

(** A character of an ordinary symbol name. *)
Definition plain_char (c : ascii) : bool :=
  negb (Ascii.eqb c "." || Ascii.eqb c "/" || Ascii.eqb c "=" || Ascii.eqb c " " || Ascii.eqb c nl
        || Ascii.eqb c "013").
Definition plain_name (n : string) : Prop := n ≠ "" ∧ KLexSpec.str_all plain_char n = true.

Lemma plain_has n c : plain_name n → plain_char c = false → has_char c n = false.
Proof.
  intros [_ H] Hc. induction n as [|d n IH]; [done|]. cbn in *. apply andb_true_iff in H as [Hd Hn].
  rewrite IH by done. destruct (Ascii.eqb_spec d c); [congruence|done].
Qed.

Lemma plain_good n : plain_name n → name_good n.
Proof.
  intros H. split_and!; [apply H|by apply plain_has..|split; by apply plain_has].
Qed.

Lemma dep_name_dot n : has_char "." n = false → has_char "." (dep_name n) = false.
Proof.
  induction n as [|c n IH]; [done|]. cbn. intros [Hc Hn]%orb_false_iff. rewrite IH by done.
  destruct (Ascii.eqb c "_"); [done|]. rewrite orb_false_r. unfold lower_char.
  destruct ((65 <=? nat_of_ascii c) && (nat_of_ascii c <=? 90)) eqn:E; [|done].
  apply andb_true_iff in E as [E1%Nat.leb_le E2%Nat.leb_le].
  apply Ascii.eqb_neq. intros E%(f_equal nat_of_ascii). rewrite nat_ascii_embedding in E by lia.
  change (nat_of_ascii ".") with 46 in E. lia.
Qed.

(** The file of a symbol below the directory [d]: directories without a dot,
    then a name that ends in ".h". *)
Definition dep_rel (n : string) : path := comps (dep_name n +:+ ".h").

Lemma dep_rel_shape n :
  plain_name n →
  ∃ q w, dep_rel n = q ++ [w +:+ ".h"] ∧ Forall (λ c, dotted c = false) q ∧ dotted w = false.
Proof.
  intros Hn. assert (has_char "." (dep_name n) = false) as Hd by (by apply dep_name_dot, plain_has).
  destruct (split_char_ends "/" (dep_name n) ".h") as (ws & w & E1 & E2); [done|].
  apply (split_char_has "/") in Hd. rewrite E1 in Hd. apply Forall_app in Hd as [Hws Hw].
  inversion_clear Hw as [|?? Hw' _]. unfold dep_rel, comps. rewrite E2, filter_app.
  exists (filter (λ c, String.eqb c "" || String.eqb c "." = false) ws), w. split_and!; [| |done].
  - f_equal. rewrite filter_cons_True; [done|]. destruct w as [|a w]; [done|]. rewrite cons_append.
    cbn [String.eqb orb]. destruct (Ascii.eqb a "."); [by destruct w|done].
  - apply Forall_forall. intros c [_ Hc]%list_elem_of_filter. by eapply Forall_forall in Hws.
Qed.

Lemma not_auto_conf w : dotted w = false → "auto.conf" ≠ w +:+ ".h".
Proof.
  intros Hw H. do 5 (destruct w as [|? w]; [by injection H|]; injection H as <- H).
  by cbn in Hw.
Qed.

(** Touching the file of a symbol succeeds below a well-formed directory and
    leaves auto.conf alone. *)
Lemma touch_ok p n W :
  p ≠ "" → plain_name n → tree_ok W (norm p) →
  ∃ W', touch_dep_file p n W = Ok W' ∧ tree_ok W' (norm p) ∧
    w_log W' = w_log W ++ [norm p ++ dep_rel n] ∧
    at_path W' (norm p ++ ["auto.conf"]) = at_path W (norm p ++ ["auto.conf"]).
Proof.
  intros Hp Hn Ht. unfold touch_dep_file. rewrite norm_app by done. fold (dep_rel n).
  destruct (dep_rel_shape n Hn) as (q & w & -> & Hq & Hw). rewrite app_assoc, parent_snoc.
  set (s := p +:+ _).
  assert (∃ W1, (if exists_at W (norm p ++ q) then Ok W else makedirs_at W (norm p ++ q) s) = Ok W1 ∧
    tree_ok W1 (norm p) ∧ at_path W1 (norm p ++ q) = Some Dir ∧ w_log W1 = w_log W ∧ grows (norm p) W W1)
    as (W1 & -> & Ht1 & Hd1 & Hl1 & Hg1).
  { unfold exists_at. case_bool_decide as E; [|by apply makedirs_below].
    exists W. split_and!; [done|done| |done|apply grows_refl].
    destruct E as [[t|] E]; [|done]. destruct q as [|c q _] using rev_ind.
    - rewrite app_nil_r in E. rewrite (to_self _ _ Ht) in E. done.
    - apply (to_file _ _ Ht) in E. apply Forall_app in Hq as [_ Hq]. inversion_clear Hq. congruence. }
  cbn [res_bind]. unfold write_at. rewrite parent_snoc, Hd1. rewrite <- app_assoc.
  assert (dotted (w +:+ ".h") = true) as Hh by (unfold dotted; rewrite has_char_app; by rewrite orb_true_r).
  assert (is_root (norm p ++ q ++ [w +:+ ".h"]) = false) as Hr.
  { unfold is_root. apply bool_decide_eq_false. intros [E|E]; rewrite app_assoc in E.
    - by apply app_eq_nil in E as [_ E].
    - apply (app_inj_tail _ []) in E as [_ E]. by rewrite E in Hh. }
  exists (put_at W1 (norm p ++ q ++ [w +:+ ".h"]) "").
  assert (at_path W1 (norm p ++ q ++ [w +:+ ".h"]) ≠ Some Dir) as Hnd
    by (intros E%(to_dir _ _ Ht1); congruence).
  split_and!.
  - by destruct (at_path W1 (norm p ++ q ++ [w +:+ ".h"])) as [[]|].
  - by apply tree_put.
  - cbn. by rewrite Hl1.
  - rewrite at_put by done. rewrite decide_False; [by apply Hg1|].
    intros E. apply (path_snoc_inj (norm p) [] q) in E as [_ E]. by apply not_auto_conf in E.
Qed.

(** ** What auto.conf records *)

(** The value auto.conf has for a symbol; n of a bool or tristate symbol
    counts as absent. *)
Definition rec_val (C : Conf) (V : Vals) (n : string) (s : Symbol) : option string :=
  match sym_str_value C V n s with
  | Ok (v, true) => if BOOL_TRISTATE (s_orig_type s) && String.eqb v "n" then None else Some v
  | _ => None
  end.
Definition recorded (C : Conf) (V : Vals) (n : string) : option string :=
  if bool_decide (n ∈ cf_unique C) then s ← cf_syms C !! n; rec_val C V n s else None.

(** A configuration whose values can be written: every symbol of
    [unique_defined_syms] exists, has an ordinary name, and its value is
    defined and on one line. *)
Record writable (C : Conf) (V : Vals) : Prop := {
  wr_nodup : NoDup (cf_unique C);
  wr_sym n : n ∈ cf_unique C → plain_name n ∧
    ∃ s v b, cf_syms C !! n = Some s ∧ sym_str_value C V n s = Ok (v, b) ∧ one_line v
}.

Definition rec_line (C : Conf) (V : Vals) (ns : string * Symbol) : string :=
  match rec_val C V ns.1 ns.2 with
  | Some v => line (assign_line ns.1 (s_orig_type ns.2) v)
  | None => ""
  end.

Lemma old_line_rec C V n s v b :
  sym_str_value C V n s = Ok (v, b) → old_vals_line CONFIG C V (n, s) = Ok (rec_line C V (n, s)).
Proof.
  intros Hv. unfold old_vals_line, rec_line, rec_val, config_string. cbn [fst snd]. rewrite Hv.
  destruct (BOOL_TRISTATE (s_orig_type s)) eqn:Et.
  - unfold sym_str_value in Hv. destruct (s_orig_type s) eqn:Es; try done;
      (destruct (sym_tri_value C V n s) as [[t w]|]; [|done]; cbn in Hv; injection Hv as <- <-;
       cbn [res_bind fst snd]; destruct t as [|[|t]]; destruct w; try done;
       cbn [res_bind fst snd zero Nat.eqb]; by rewrite assignment_line).
  - cbn [res_bind fst snd andb]. destruct b; [|done]. by rewrite assignment_line.
Qed.

Lemma unique_syms_in C ns : ns ∈ unique_syms C ↔ ns.1 ∈ cf_unique C ∧ cf_syms C !! ns.1 = Some ns.2.
Proof.
  unfold unique_syms. rewrite list_elem_of_omap. destruct ns as [n s]. split.
  - intros (m & Hm & E). destruct (cf_syms C !! m) as [s'|] eqn:Es; [|done]. injection E as -> ->. done.
  - intros [Hn Hs]. exists n. split; [done|]. cbn in Hs. by rewrite Hs.
Qed.

Lemma concat_res_ok {A} (f : A → res string) (g : A → string) l :
  (∀ x, x ∈ l → f x = Ok (g x)) → concat_res f l = Ok (foldr (λ x r, g x +:+ r) "" l).
Proof.
  induction l as [|x l IH]; intros H; [done|]. cbn [concat_res foldr]. rewrite H by set_solver.
  cbn. rewrite IH by set_solver. done.
Qed.

(** auto.conf has one line for each recorded value. *)
Definition rec_lines (C : Conf) (V : Vals) : list string :=
  omap (λ ns, assign_line ns.1 (s_orig_type ns.2) <$> rec_val C V ns.1 ns.2) (unique_syms C).

Lemma old_vals_written C V :
  writable C V → old_vals_contents CONFIG C V = Ok (lines_text (rec_lines C V)).
Proof.
  intros H. unfold old_vals_contents. erewrite (concat_res_ok _ (rec_line C V)).
  - f_equal. unfold rec_lines. induction (unique_syms C) as [|ns l IH]; [done|]. cbn.
    rewrite IH. unfold rec_line. destruct (rec_val C V ns.1 ns.2); done.
  - intros [n s] [Hn Hs]%unique_syms_in. destruct (wr_sym _ _ H n Hn) as (_ & s' & v & b & Hs' & Hv & _).
    cbn in Hs. assert (s' = s) as -> by congruence. by eapply old_line_rec.
Qed.

(** ** Reading auto.conf *)

Lemma has_changed_iff old t v b :
  (BOOL_TRISTATE t = true → old ≠ Some "n") →
  has_changed old t (v, b) =
    negb (bool_decide (old = if b : bool then if BOOL_TRISTATE t && String.eqb v "n" then None else Some v else None)).
Proof.
  intros Ho. unfold has_changed. cbn [fst snd]. destruct b; [|by repeat case_bool_decide].
  destruct (BOOL_TRISTATE t), (String.eqb v "n") eqn:Ev; cbn [andb];
    rewrite ?andb_false_r, ?andb_true_r; cbn [orb]; try (by repeat case_bool_decide).
  apply String.eqb_eq in Ev as ->. specialize (Ho eq_refl). by repeat case_bool_decide.
Qed.

Lemma set_match_line n t v :
  name_good n → has_char nl v = false → BOOL_TRISTATE t && String.eqb v "n" = false →
  set_match CONFIG (assign_line n t v) =
    Some (n, if BOOL_TRISTATE t || INT_HEX t then v else quoted v).
Proof.
  intros Hn Hv Hb. unfold assign_line. destruct (BOOL_TRISTATE t); cbn [andb orb] in *.
  - rewrite Hb. by apply set_match_assign.
  - destruct (INT_HEX t); [by apply set_match_assign|]. apply set_match_assign; [done|].
    unfold quoted. cbn [has_char]. rewrite has_char_app, KLexSpec.has_char_escape, Hv by done. done.
Qed.

Section load.
Context (p : string) (C : Conf).
Context (Hp : p ≠ "").

(** A line for a symbol the configuration still has. *)
Lemma load_line_known n t v old W s :
  name_good n → one_line v → BOOL_TRISTATE t && String.eqb v "n" = false →
  t ≠ UNKNOWN → cf_syms C !! n = Some s →
  ∃ o, load_old_line CONFIG C p (old, W) (assign_line n t v) = Ok (o, W) ∧
    (s_orig_type s = t → o = <[n := v]> old) ∧ (∀ m, m ≠ n → o !! m = old !! m).
Proof.
  intros Hn [Hv _] Hb Ht Hs. unfold load_old_line. rewrite set_match_line by done. rewrite Hs.
  case_decide as E.
  - destruct (conf_string_match _) as [x|] eqn:Ex; eexists; (split; [done|]); (split; [|intros; by rewrite ?lookup_insert_ne]).
    + intros <-. rewrite E in Ex. cbn in Ex. f_equal.
      rewrite string_contents_escape in Ex by done. injection Ex as <-. apply KLexSpec.unescape_escape.
    + intros <-. rewrite E in Ex. cbn in Ex. by rewrite string_contents_escape in Ex.
  - eexists. split; [done|]. split; [|intros; by rewrite lookup_insert_ne].
    intros <-. by destruct (s_orig_type s).
Qed.
End load.

Lemma rec_val_facts C V n s v :
  rec_val C V n s = Some v →
  BOOL_TRISTATE (s_orig_type s) && String.eqb v "n" = false ∧ s_orig_type s ≠ UNKNOWN ∧
  sym_str_value C V n s = Ok (v, true).
Proof.
  unfold rec_val. destruct (sym_str_value C V n s) as [[w []]|] eqn:Ev; try done.
  destruct (BOOL_TRISTATE (s_orig_type s) && String.eqb w "n") eqn:E; [done|]. intros [= ->].
  split_and!; [done| |done]. intros Et. unfold sym_str_value in Ev. by rewrite Et in Ev.
Qed.

Lemma unique_syms_rec C V ns : writable C V → ns ∈ unique_syms C → recorded C V ns.1 = rec_val C V ns.1 ns.2.
Proof. intros _ [H1 H2]%unique_syms_in. unfold recorded. by rewrite bool_decide_true, H2. Qed.

Lemma recorded_in C V n v :
  recorded C V n = Some v → ∃ s, (n, s) ∈ unique_syms C ∧ rec_val C V n s = Some v.
Proof.
  unfold recorded. case_bool_decide; [|done]. destruct (cf_syms C !! n) as [s|] eqn:E; [|done].
  intros Hv. exists s. split; [by apply unique_syms_in|done].
Qed.

Lemma unique_syms_nodup C V : writable C V → NoDup (unique_syms C).*1.
Proof.
  intros [H _]. unfold unique_syms. induction H as [|n l Hn Hl IH]; [constructor|]. cbn.
  destruct (cf_syms C !! n) as [s|]; [|done]. cbn. constructor; [|done].
  intros ([m s'] & -> & Hm)%list_elem_of_fmap. apply list_elem_of_omap in Hm as (k & Hk & E).
  destruct (cf_syms C !! k); [|done]. injection E as -> ->. done.
Qed.

Lemma lines_text_cr ls : Forall one_line ls → has_char "013" (lines_text ls) = false.
Proof.
  induction 1 as [|l ls [_ Hl] _ IH]; [done|]. cbn [lines_text]. unfold line.
  by rewrite !has_char_app, Hl, IH.
Qed.

Lemma rec_lines_one C V : writable C V → Forall one_line (rec_lines C V).
Proof.
  intros H. apply Forall_forall. intros l ([n s] & Hin & E)%list_elem_of_omap. cbn [fst snd] in E.
  destruct (rec_val C V n s) as [v|] eqn:Er; [|done]. injection E as <-.
  apply unique_syms_in in Hin as [Hn Hs]. cbn [fst snd] in *.
  destruct (wr_sym _ _ H n Hn) as (Hp & s' & v' & b & Hs' & Hv & Hone).
  apply rec_val_facts in Er as (_ & _ & Er). assert (s' = s) as -> by congruence.
  apply one_line_assign; [by apply plain_good|]. congruence.
Qed.

Lemma auto_read W p :
  p ≠ "" → read_path W (auto_conf p) = read_at W (norm p ++ ["auto.conf"]) (auto_conf p).
Proof.
  intros Hp. unfold read_path, auto_conf.
  destruct (String.eqb_spec (join_path p "auto.conf") ""); [by apply join_path_not_empty in e|].
  by rewrite join_path_norm.
Qed.

(** ** The runs of sync_deps *)

Section run.
Context (p : string) (C1 : Conf) (V1 : Vals) (C2 : Conf) (V2 : Vals).
Context (Hp : p ≠ "") (H1 : writable C1 V1) (H2 : writable C2 V2).

(** Symbols of both configurations have the same type in both. *)
Definition same_types : Prop :=
  ∀ n s1 s2, (n, s1) ∈ unique_syms C1 → (n, s2) ∈ unique_syms C2 → s_orig_type s1 = s_orig_type s2.
Context (Ht : same_types).

Notation auto := (norm p ++ ["auto.conf"]).
Notation dep n := (norm p ++ dep_rel n).

(** Recorded symbols that the second configuration does not know. *)
Definition gone (l : list (string * Symbol)) : list string :=
  (filter (λ ns, cf_syms C2 !! ns.1 = None ∧ is_Some (rec_val C1 V1 ns.1 ns.2)) l).*1.
(** Symbols whose recorded value is not [old]. *)
Definition differs (old : string → option string) (l : list (string * Symbol)) : list string :=
  (filter (λ ns, old ns.1 ≠ rec_val C2 V2 ns.1 ns.2) l).*1.

Lemma wr_entry C V ns : writable C V → ns ∈ unique_syms C →
  plain_name ns.1 ∧ ∃ v b, sym_str_value C V ns.1 ns.2 = Ok (v, b) ∧ one_line v.
Proof.
  intros H [Hn Hs]%unique_syms_in. destruct (wr_sym _ _ H _ Hn) as (? & s & v & b & Hs' & ? & ?).
  split; [done|]. exists v, b. assert (s = ns.2) as <- by congruence. done.
Qed.

Lemma load_entries l old W :
  NoDup l.*1 → (∀ ns, ns ∈ l → ns ∈ unique_syms C1) → tree_ok W (norm p) →
  (∀ n, n ∈ l.*1 → old !! n = None) →
  ∃ old' W', res_fold (load_old_line CONFIG C2 p) (old, W)
      (omap (λ ns, assign_line ns.1 (s_orig_type ns.2) <$> rec_val C1 V1 ns.1 ns.2) l) = Ok (old', W') ∧
    tree_ok W' (norm p) ∧ w_log W' = w_log W ++ ((λ n, dep n) <$> gone l) ∧
    at_path W' auto = at_path W auto ∧ (gone l = [] → W' = W) ∧
    ∀ n, n ∈ cf_unique C2 → old' !! n = if bool_decide (n ∈ l.*1) then recorded C1 V1 n else old !! n.
Proof using H1 H2 Hp Ht.
  revert old W. induction l as [|[n s] l IH]; intros old W Hnd Hl HW Hold.
  { exists old, W. unfold gone. rewrite filter_nil, app_nil_r. by split_and!. }
  cbn in Hnd. apply NoDup_cons in Hnd as [Hn Hnd].
  assert (Hin : (n, s) ∈ unique_syms C1) by (by apply Hl; left).
  destruct (wr_entry _ _ _ H1 Hin) as (Hpn & v0 & b0 & Hv0 & Hone). cbn [fst snd] in *.
  assert (∀ ns, ns ∈ l → ns ∈ unique_syms C1) as Hl' by (intros; apply Hl; by right).
  assert (Hrec := unique_syms_rec _ _ _ H1 Hin). cbn [fst snd] in Hrec.
  assert (∀ m, bool_decide (m ∈ ((n, s) :: l).*1) = bool_decide (m = n) || bool_decide (m ∈ l.*1)) as Hdec.
  { intros m. cbn [fmap list_fmap fst]. repeat case_bool_decide; cbn; set_solver. }
  cbn [omap list_omap fst snd]. unfold gone. rewrite filter_cons. cbn [fst snd].
  destruct (rec_val C1 V1 n s) as [v|] eqn:Er; cbn [fmap option_fmap option_map].
  - destruct (rec_val_facts _ _ _ _ _ Er) as (Hb & Hu & Hv).
    assert (v0 = v) as -> by congruence.
    cbn [res_fold]. destruct (cf_syms C2 !! n) as [s2|] eqn:Es2.
    + destruct (load_line_known p C2 n (s_orig_type s) v old W s2) as (o & -> & Ho1 & Ho2);
        [by apply plain_good|done..|].
      cbn [res_bind]. destruct (IH o W Hnd Hl' HW) as (old' & W' & -> & HT & HL & HA & HG & HO).
      { intros m Hm. rewrite Ho2; [apply Hold; by right|]. by intros ->. }
      exists old', W'. rewrite decide_False by (by intros [? _]). split_and!; try done.
      intros m Hm. rewrite HO, Hdec by done. destruct (bool_decide (m ∈ l.*1)); [by rewrite orb_true_r|].
      case_bool_decide as E; cbn [orb]; [|by rewrite Ho2]. subst m. rewrite Hrec.
      rewrite Ho1; [by rewrite lookup_insert_eq|]. symmetry. apply (Ht n); [done|]. by apply unique_syms_in.
    + unfold load_old_line at 1. rewrite set_match_line; [|by apply plain_good|apply Hone|done].
      rewrite Es2. destruct (touch_ok p n W Hp Hpn HW) as (W1 & -> & HT1 & HL1 & HA1). cbn [res_bind].
      destruct (IH old W1 Hnd Hl' HT1) as (old' & W' & -> & HT & HL & HA & HG & HO).
      { intros m Hm. apply Hold. by right. }
      exists old', W'. rewrite decide_True by (split; [done|by eexists]). cbn [fmap list_fmap fst].
      split_and!; [done|done| |congruence|done|].
      * rewrite HL, HL1, <- app_assoc. done.
      * intros m Hm. rewrite HO, Hdec by done. case_bool_decide as E; [by rewrite orb_true_r|].
        case_bool_decide as E'; [|done]. subst m. exfalso.
        destruct (wr_sym _ _ H2 n Hm) as (_ & ? & ? & ? & ? & _). congruence.
  - destruct (IH old W Hnd Hl' HW) as (old' & W' & -> & HT & HL & HA & HG & HO).
    { intros m Hm. apply Hold. by right. }
    exists old', W'. rewrite decide_False by (by intros [_ [? ?]]). split_and!; try done.
    intros m Hm. rewrite HO, Hdec by done. destruct (bool_decide (m ∈ l.*1)); [by rewrite orb_true_r|].
    case_bool_decide as E; cbn [orb]; [|done]. subst m. rewrite Hrec. apply Hold. by left.
Qed.

Lemma load_text W t1 :
  tree_ok W (norm p) → at_path W auto = Some (File t1) → old_vals_contents CONFIG C1 V1 = Ok t1 →
  ∃ old W', load_old_vals CONFIG C2 p W = Ok (old, W') ∧
    tree_ok W' (norm p) ∧ w_log W' = w_log W ++ ((λ n, dep n) <$> gone (unique_syms C1)) ∧
    at_path W' auto = Some (File t1) ∧ (gone (unique_syms C1) = [] → W' = W) ∧
    ∀ n, n ∈ cf_unique C2 → old !! n = recorded C1 V1 n.
Proof using H1 H2 Hp Ht.
  intros HW Ha Htext. rewrite old_vals_written in Htext by done. injection Htext as <-.
  unfold load_old_vals. rewrite auto_read by done. unfold read_at. rewrite Ha.
  rewrite file_lines_text by (by apply rec_lines_one). rewrite res_fold_app.
  destruct (load_entries (unique_syms C1) ∅ W) as (old & W' & E & HT & HL & HA & HG & HO);
    [by eapply unique_syms_nodup|done|done|by intros; apply lookup_empty|].
  unfold rec_lines. rewrite E. cbn [res_bind res_fold]. exists old, W'.
  split_and!; [done|done|done|by rewrite HA|done|].
  intros n Hn. rewrite HO by done. case_bool_decide as E'; [done|]. rewrite lookup_empty.
  unfold recorded. case_bool_decide as Hn1; [|done]. destruct (cf_syms C1 !! n) as [s|] eqn:Es; [|done].
  exfalso. apply E'. apply list_elem_of_fmap. exists (n, s). split; [done|]. by apply unique_syms_in.
Qed.

Lemma sync_loop l old W :
  (∀ ns, ns ∈ l → ns ∈ unique_syms C2) → tree_ok W (norm p) →
  (∀ ns, ns ∈ l → BOOL_TRISTATE (s_orig_type ns.2) = true → old !! ns.1 ≠ Some "n") →
  ∃ W', res_fold (sync_sym C2 V2 p old) W l = Ok W' ∧ tree_ok W' (norm p) ∧
    w_log W' = w_log W ++ ((λ n, dep n) <$> differs (λ n, old !! n) l) ∧
    at_path W' auto = at_path W auto ∧ (differs (λ n, old !! n) l = [] → W' = W).
Proof using H2 Hp.
  revert W. induction l as [|[n s] l IH]; intros W Hl HW Ho.
  { exists W. unfold differs. rewrite filter_nil, app_nil_r. by split_and!. }
  destruct (wr_entry _ _ _ H2 (Hl _ (list_elem_of_here _ _))) as (Hpn & v & b & Hv & _).
  cbn [res_fold fst snd] in *. unfold sync_sym at 1. cbn [fst snd]. rewrite Hv. cbn [res_bind].
  rewrite has_changed_iff by (apply (Ho (n, s)); left). unfold differs. rewrite filter_cons. cbn [fst snd].
  replace (if b then _ else None) with (rec_val C2 V2 n s) by (unfold rec_val; rewrite Hv; by destruct b).
  destruct (bool_decide_reflect (old !! n = rec_val C2 V2 n s)) as [E|E]; cbn [negb].
  - rewrite decide_False by (by intros []). apply IH; [|done|]; intros; [apply Hl|apply Ho]; by try right.
  - rewrite decide_True by done. destruct (touch_ok p n W Hp Hpn HW) as (W1 & -> & HT1 & HL1 & HA1).
    cbn [res_bind]. destruct (IH W1) as (W' & -> & HT & HL & HA & HG);
      [by intros; apply Hl; right|done|by intros; apply Ho; try right|].
    exists W'. cbn [fmap list_fmap fst]. split_and!; [done|done| |congruence|done].
    rewrite HL, HL1, <- app_assoc. done.
Qed.

Lemma write_ok W o t2 :
  tree_ok W (norm p) → at_path W auto = o → old_vals_contents CONFIG C2 V2 = Ok t2 →
  (∀ t, o = Some (File t) → has_char "013" t = false) →
  ∃ W', write_old_vals CONFIG C2 V2 p W = Ok W' ∧ tree_ok W' (norm p) ∧
    at_path W' auto = Some (File t2) ∧
    w_log W' = w_log W ++ (if decide (o = Some (File t2)) then [] else [auto]) ∧
    (o = Some (File t2) → W' = W).
Proof using Hp.
  intros HW Ho Ht2 Hcr. unfold write_old_vals. rewrite Ht2. cbn [res_bind]. unfold write_if_changed.
  assert (contents_eq W (auto_conf p) t2 = bool_decide (o = Some (File t2))) as ->.
  { apply eq_bool_prop_intro. rewrite !Is_true_true, contents_eq_iff, bool_decide_eq_true, auto_read by done.
    unfold read_at. rewrite Ho. split.
    - intros (t & E & <-). destruct o as [[t'|]|]; [|done..]. injection E as ->.
      by rewrite universal_nl_id by eauto.
    - intros ->. exists t2. by rewrite universal_nl_id by eauto. }
  destruct (bool_decide_reflect (o = Some (File t2))) as [E|E]; cbn [res_bind snd].
  - exists W. rewrite decide_True, app_nil_r by done. split_and!; congruence.
  - unfold write_path. destruct (String.eqb_spec (auto_conf p) "") as [E'|_]; [by apply join_path_not_empty in E'|].
    unfold auto_conf at 1. rewrite join_path_norm by done. change (comps "auto.conf") with ["auto.conf"].
    assert (write_at W auto (auto_conf p) t2 = Ok (put_at W auto t2)) as ->.
    { unfold write_at. rewrite parent_snoc, (to_self _ _ HW). rewrite Ho. destruct o as [[]|]; [done| |done].
      by apply (to_dir W _ HW []) in Ho. }
    assert (is_root auto = false) as Hr.
    { unfold is_root. apply bool_decide_eq_false. intros [E1|E1]; [by apply app_eq_nil in E1 as [_ E1]|].
      by apply (app_inj_tail _ []) in E1 as [_ E1]. }
    cbn [res_bind snd]. eexists. split; [done|]. rewrite decide_False by done. split_and!; [|by rewrite at_put, decide_True|done|done].
    by apply (tree_put W _ []).
Qed.

(** What a run does when auto.conf holds the values of the first
    configuration. *)
Lemma sync_run W t1 t2 :
  tree_ok W (norm p) → at_path W auto = Some (File t1) →
  old_vals_contents CONFIG C1 V1 = Ok t1 → old_vals_contents CONFIG C2 V2 = Ok t2 →
  ∃ W', sync_deps CONFIG C2 V2 p W = Ok W' ∧ tree_ok W' (norm p) ∧ at_path W' auto = Some (File t2) ∧
    w_log W' = w_log W ++ ((λ n, dep n) <$> gone (unique_syms C1) ++ differs (recorded C1 V1) (unique_syms C2))
      ++ (if decide (t1 = t2) then [] else [auto]) ∧
    (gone (unique_syms C1) = [] → differs (recorded C1 V1) (unique_syms C2) = [] → t1 = t2 → W' = W).
Proof using H1 H2 Hp Ht.
  intros HW Ha Ht1 Ht2. unfold sync_deps, exists_path, exists_at.
  apply String.eqb_neq in Hp as Hp'. rewrite Hp', (to_self _ _ HW). cbn [negb andb].
  rewrite bool_decide_true by (by eexists). cbn [res_bind].
  destruct (load_text W t1 HW Ha Ht1) as (old & W1 & -> & HT1 & HL1 & HA1 & HG1 & HO). cbn [res_bind fst snd].
  assert (differs (λ n, old !! n) (unique_syms C2) = differs (recorded C1 V1) (unique_syms C2)) as Hdiff.
  { unfold differs. f_equal. apply filter_ext_in. intros ns Hns. apply unique_syms_in in Hns as [Hns _].
    by rewrite HO. }
  destruct (sync_loop (unique_syms C2) old W1) as (W2 & -> & HT2 & HL2 & HA2 & HG2); [done|done| |].
  { intros [n s] Hns Hb E. cbn [fst snd] in *. rewrite HO in E by (by apply unique_syms_in in Hns as []).
    apply recorded_in in E as (s1 & Hs1 & E). apply rec_val_facts in E as (E & _ & _).
    by rewrite (Ht n s1 s), Hb in E. }
  rewrite Hdiff in HL2, HG2.
  destruct (write_ok W2 (Some (File t1)) t2) as (W3 & E & HT3 & HA3 & HL3 & HG3); [done|congruence|done| |].
  { intros t [= <-]. rewrite old_vals_written in Ht1 by done. injection Ht1 as <-.
    by apply lines_text_cr, rec_lines_one. }
  exists W3. cbn [res_bind]. split_and!; [done|done|done| |].
  - rewrite HL3, HL2, HL1, fmap_app, <- !app_assoc. do 3 f_equal. repeat case_decide; congruence.
  - intros G D ->. rewrite HG3, HG2, HG1; done.
Qed.
End run.

Lemma gone_none C V l : (∀ ns, ns ∈ l → ns ∈ unique_syms C) → gone C V C l = [].
Proof.
  intros Hl. unfold gone. rewrite (filter_ext_in _ (λ _, False)).
  - by induction l as [|x l IH]; [|rewrite filter_cons_False by auto; apply IH; intros; apply Hl; right].
  - intros ns [_ Hs]%Hl%unique_syms_in. split; [|done]. intros [E _]. congruence.
Qed.

Lemma differs_same C V l :
  writable C V → (∀ ns, ns ∈ l → ns ∈ unique_syms C) → differs C V (recorded C V) l = [].
Proof.
  intros H Hl. unfold differs. rewrite (filter_ext_in _ (λ _, False)).
  - by induction l as [|x l IH]; [|rewrite filter_cons_False by auto; apply IH; intros; apply Hl; right].
  - intros ns Hns. split; [|done]. intros E. apply E. by eapply unique_syms_rec, Hl.
Qed.

Lemma same_types_refl C : same_types C C.
Proof. intros n s1 s2 [_ E1]%unique_syms_in [_ E2]%unique_syms_in. cbn in *. congruence. Qed.

(** The files a run touches: those of symbols that are gone, then those of
    symbols whose value changed. *)
Definition touched (p : string) (C1 : Conf) (V1 : Vals) (C2 : Conf) (V2 : Vals) : list path :=
  (λ n, norm p ++ dep_rel n) <$> gone C1 V1 C2 (unique_syms C1) ++ differs C2 V2 (recorded C1 V1) (unique_syms C2).


(** ** The header *)

(** The text of a symbol in the header written by [write_autoconf]. *)
Definition header_line (C : Conf) (V : Vals) (n : string) : string :=
  if bool_decide (n ∈ cf_unique C) then
    match cf_syms C !! n with
    | Some s => match autoconf_line CONFIG C V (n, s) with Ok l => l | Err _ => "" end
    | None => ""
    end
  else "".

Definition header_text (n : string) (t : styp) (v : string) : string :=
  if BOOL_TRISTATE t then
    if String.eqb v "y" then line ("#define " +:+ CONFIG +:+ n +:+ " 1")
    else if String.eqb v "m" then line ("#define " +:+ CONFIG +:+ n +:+ "_MODULE 1") else ""
  else if decide (t = STRING) then line ("#define " +:+ CONFIG +:+ n +:+ " " +:+ quoted v)
  else line ("#define " +:+ CONFIG +:+ n +:+ " " +:+
    (if decide (t = HEX) then if startswith v "0x" || startswith v "0X" then v else "0x" +:+ v else v)).

Lemma header_line_rec C V n s :
  writable C V → (n, s) ∈ unique_syms C →
  header_line C V n = match recorded C V n with Some v => header_text n (s_orig_type s) v | None => "" end.
Proof.
  intros H Hin. assert (Hr := unique_syms_rec _ _ _ H Hin). cbn [fst snd] in Hr. rewrite Hr.
  destruct (wr_entry _ _ _ H Hin) as (_ & v & b & Hv & _). cbn [fst snd] in Hv.
  apply unique_syms_in in Hin as [Hn Hs]. cbn [fst snd] in *. unfold header_line.
  rewrite bool_decide_true, Hs by done. unfold autoconf_line, rec_val, header_text. rewrite Hv.
  cbn [res_bind fst snd]. destruct b; [|done]. cbn [negb].
  destruct (BOOL_TRISTATE (s_orig_type s)); cbn [andb].
  - destruct (String.eqb_spec v "n") as [->|]; done.
  - by destruct (decide (s_orig_type s = STRING)).
Qed.

Lemma header_same C1 V1 C2 V2 n :
  writable C1 V1 → writable C2 V2 → same_types C1 C2 → recorded C1 V1 n = recorded C2 V2 n →
  header_line C1 V1 n = header_line C2 V2 n.
Proof.
  intros H1 H2 Ht E.
  assert (∀ C V, writable C V → n ∈ cf_unique C → ∃ s, (n, s) ∈ unique_syms C) as Hex.
  { intros C V H Hn. destruct (wr_sym _ _ H n Hn) as (_ & s & _ & _ & Hs & _).
    exists s. by apply unique_syms_in. }
  assert (∀ C V, n ∉ cf_unique C → header_line C V n = "" ∧ recorded C V n = None) as Hno.
  { intros C V Hn. unfold header_line, recorded. by rewrite !bool_decide_false. }
  destruct (decide (n ∈ cf_unique C1)) as [I1|I1], (decide (n ∈ cf_unique C2)) as [I2|I2].
  - destruct (Hex _ _ H1 I1) as [s1 Hs1], (Hex _ _ H2 I2) as [s2 Hs2].
    rewrite (header_line_rec _ _ _ _ H1 Hs1), (header_line_rec _ _ _ _ H2 Hs2), E.
    by rewrite (Ht n s1 s2).
  - destruct (Hex _ _ H1 I1) as [s1 Hs1], (Hno C2 V2 I2) as [-> E2].
    by rewrite (header_line_rec _ _ _ _ H1 Hs1), E, E2.
  - destruct (Hex _ _ H2 I2) as [s2 Hs2], (Hno C1 V1 I1) as [-> E1].
    by rewrite (header_line_rec _ _ _ _ H2 Hs2), <- E, E1.
  - by rewrite (proj1 (Hno C1 V1 I1)), (proj1 (Hno C2 V2 I2)).
Qed.

Lemma header_changes_touched p C1 V1 C2 V2 n :
  writable C1 V1 → writable C2 V2 → same_types C1 C2 →
  n ∈ cf_unique C2 ∨ cf_syms C2 !! n = None → header_line C1 V1 n ≠ header_line C2 V2 n →
  norm p ++ dep_rel n ∈ touched p C1 V1 C2 V2.
Proof.
  intros H1 H2 Ht Hn Hd. unfold touched. apply list_elem_of_fmap. exists n. split; [done|].
  assert (recorded C1 V1 n ≠ recorded C2 V2 n) as Hr by (intros E; apply Hd; by apply header_same).
  apply elem_of_app. destruct Hn as [Hn|Hn].
  - right. destruct (wr_sym _ _ H2 n Hn) as (_ & s & _ & _ & Hs & _).
    assert ((n, s) ∈ unique_syms C2) as Hin by (by apply unique_syms_in).
    apply list_elem_of_fmap. exists (n, s). split; [done|]. apply list_elem_of_filter. split; [|done].
    assert (Hr2 := unique_syms_rec _ _ _ H2 Hin). cbn [fst snd] in *. by rewrite <- Hr2.
  - left. assert (recorded C2 V2 n = None) as E2.
    { unfold recorded. rewrite Hn. by case_bool_decide. }
    rewrite E2 in Hr. destruct (recorded C1 V1 n) as [v|] eqn:E1; [|done].
    apply recorded_in in E1 as (s & Hin & Hv). apply list_elem_of_fmap. exists (n, s). split; [done|].
    apply list_elem_of_filter. split; [|done]. cbn [fst snd]. split; [done|by eexists].
Qed.

(** C16.  A run of [sync_deps] after the configuration changed, with no symbol
    changing its type ([type_change_not_flagged] shows one that does), opens
    for writing the file of every symbol whose text in the header changed, when
    the new configuration defines the symbol or does not know its name: no
    source file that depends on such a symbol is left with an old one. *)
Theorem header_changes_flagged p C1 V1 C2 V2 W t1 n :
  p ≠ "" → writable C1 V1 → writable C2 V2 → same_types C1 C2 → tree_ok W (norm p) →
  old_vals_contents CONFIG C1 V1 = Ok t1 → at_path W (norm p ++ ["auto.conf"]) = Some (File t1) →
  n ∈ cf_unique C2 ∨ cf_syms C2 !! n = None → header_line C1 V1 n ≠ header_line C2 V2 n →
  ∃ W' l, sync_deps CONFIG C2 V2 p W = Ok W' ∧ w_log W' = w_log W ++ l ∧ norm p ++ dep_rel n ∈ l.
Proof.
  intros Hp H1 H2 Ht HW Ht1 Ha Hn Hd.
  destruct (sync_run p C1 V1 C2 V2 Hp H1 H2 Ht W t1 _ HW Ha Ht1 (old_vals_written _ _ H2)) as (W' & E & _ & _ & HL & _).
  eexists W', _. split_and!; [done|exact HL|]. apply elem_of_app. left. by apply header_changes_touched.
Qed.

(** ** The first run *)

(** [p] does not exist, but the directory above it does. *)
Record fresh_dir (W : World) (p : string) : Prop := {
  fd_above i : i < length (norm p) → at_path W (take i (norm p)) = Some Dir;
  fd_none q : at_path W (norm p ++ q) = None
}.

Lemma fresh_mkdir W p :
  p ≠ "" → fresh_dir W p →
  ∃ W', mkdir W p = Ok W' ∧ tree_ok W' (norm p) ∧ at_path W' (norm p ++ ["auto.conf"]) = None ∧
    w_log W' = w_log W.
Proof.
  intros Hp [Ha Hn]. assert (at_path W (norm p) = None) as Hp0 by (rewrite <- (Hn []); by rewrite app_nil_r).
  assert (Hr := at_none_root _ _ Hp0).
  destruct (norm p) as [|c q _] eqn:En using rev_ind; [done|]. rewrite <- En in *.
  assert (parent (norm p) = take (length q) (norm p)) as Hpar.
  { by rewrite En, parent_snoc, take_app_le, firstn_all by done. }
  unfold mkdir. apply String.eqb_neq in Hp as ->. unfold mkdir_at, exists_at.
  rewrite Hp0, bool_decide_false by (by intros [? ?]). rewrite Hpar, Ha by (rewrite En, length_app; cbn; lia).
  eexists. split; [done|]. split_and!; [|rewrite at_mkdir by done|done].
  - split; intros *; rewrite at_mkdir by done; case_decide as E; try done.
    + destruct (decide (i < length (norm p))); [by apply Ha|]. by rewrite take_ge in E by lia.
    + by rewrite Hn.
    + rewrite <- (app_nil_r (norm p)) in E at 2. apply app_inv_head in E. by apply app_eq_nil in E as [_ ?].
    + by rewrite Hn.
  - rewrite decide_False by (intros E; rewrite <- (app_nil_r (norm p)) in E at 2; by apply app_inv_head in E).
    apply Hn.
Qed.

Lemma unique_filter C V (P : string → Prop) `{!∀ n, Decision (P n)} :
  writable C V → (filter (λ ns, P ns.1) (unique_syms C)).*1 = filter P (cf_unique C).
Proof.
  intros Hw. assert (Hs := λ n Hn, proj2 (wr_sym _ _ Hw n Hn)). clear Hw. unfold unique_syms.
  induction (cf_unique C) as [|n l IH]; [done|]. cbn.
  destruct (Hs n) as (s & _ & _ & -> & _); [by left|]. cbn [fmap option_fmap option_map].
  rewrite !filter_cons. cbn [fst]. case_decide; cbn; rewrite IH; try done; intros m Hm; apply Hs; by right.
Qed.

(** The first run creates the directory, touches the file of every
    symbol that has a value in auto.conf, and writes auto.conf; running it
    again changes nothing. *)
Theorem sync_first_run p C V W :
  p ≠ "" → writable C V → fresh_dir W p →
  ∃ W' t, sync_deps CONFIG C V p W = Ok W' ∧ tree_ok W' (norm p) ∧
    old_vals_contents CONFIG C V = Ok t ∧ at_path W' (norm p ++ ["auto.conf"]) = Some (File t) ∧
    w_log W' = w_log W ++ ((λ n, norm p ++ dep_rel n) <$> filter (λ n, is_Some (recorded C V n)) (cf_unique C))
      ++ [norm p ++ ["auto.conf"]] ∧
    sync_deps CONFIG C V p W' = Ok W'.
Proof.
  intros Hp H Hf. assert (Ht2 := old_vals_written _ _ H).
  assert (He : exists_path W p = false).
  { unfold exists_path, exists_at. assert (Hn := fd_none _ _ Hf []). rewrite app_nil_r in Hn.
    rewrite Hn, bool_decide_false by (by intros [? ?]). apply andb_false_r. }
  destruct (fresh_mkdir W p Hp Hf) as (W1 & E1 & HT1 & HA1 & HL1).
  destruct (sync_loop p C V Hp H (unique_syms C) ∅ W1) as (W2 & E2 & HT2 & HL2 & HA2 & _);
    [done|done|by intros; rewrite lookup_empty|].
  destruct (write_ok p C V Hp W2 None _ HT2 ltac:(congruence) Ht2) as (W3 & E3 & HT3 & HA3 & HL3 & _); [done|].
  exists W3, (lines_text (rec_lines C V)). split_and!; [|done|done|done| |].
  - unfold sync_deps. rewrite He, E1. cbn [res_bind]. unfold load_old_vals.
    rewrite auto_read by done. unfold read_at. rewrite HA1. unfold no_entry.
    replace (file_above W1 _) with false; [cbn [res_bind fst snd]; by rewrite E2|]. symmetry.
    unfold file_above. apply not_true_is_false. intros (i & Hi & E)%existsb_exists. apply in_seq in Hi.
    rewrite length_app in Hi. cbn in Hi. rewrite take_app_le in E by lia.
    by rewrite (to_above _ _ HT1) in E.
  - rewrite HL3, HL2, HL1, <- app_assoc. rewrite decide_False by done. do 3 f_equal.
    unfold differs. rewrite <- (unique_filter C V _ H). f_equal. apply filter_ext_in. intros ns Hns.
    rewrite lookup_empty, (unique_syms_rec _ _ _ H Hns). rewrite <- not_eq_None_Some. naive_solver.
  - destruct (sync_run p C V C V Hp H H (same_types_refl C) W3 _ _ HT3 HA3 Ht2 Ht2) as (W'' & E' & _ & _ & _ & HG).
    rewrite E'. f_equal. apply HG; [by apply gone_none|by apply differs_same|done].
Qed.

(** ** Concrete runs *)

Lemma demo_writable C :
  C = demo_before ∨ C = demo_other → writable C (vals C 5).
Proof.
  intros HC. split.
  - destruct HC as [->| ->]; cbn; repeat constructor; set_solver.
  - intros n Hn. assert (n = "B" ∨ n = "S" ∨ n = "I") as Hn' by (destruct HC as [->| ->]; cbn in Hn; set_solver).
    destruct HC as [->| ->], Hn' as [->|[->| ->]]; (split; [by split|]);
      (eexists _, _, _; split; [reflexivity|]; split; [vm_compute; reflexivity|by split]).
Qed.

Lemma demo_types : same_types demo_before demo_other.
Proof.
  intros n s1 s2 [_ E1]%unique_syms_in [_ E2]%unique_syms_in. cbn [fst snd] in *.
  apply demo_io_lookup in E1 as [(->&_&->)|[(->&_&->)|(->&_&->)]];
    apply demo_io_lookup in E2 as [(?&_&->)|[(?&_&->)|(?&_&->)]]; done.
Qed.

Definition demo_auto : string := lines_text ["CONFIG_B=y"; "CONFIG_S=" +:+ quoted "a\b"; "CONFIG_I="].
Definition demo_world (t : string) : World :=
  mkWorld (<[["deps"] := Dir]> (<[["deps"; "auto.conf"] := File t]> ∅)) [].

Lemma demo_tree t : tree_ok (demo_world t) (norm "deps/").
Proof.
  change (norm "deps/") with ["deps"].
  assert (∀ q c x, at_path (demo_world t) (["deps"] ++ q ++ [c]) = Some x → q = [] ∧ c = "auto.conf" ∧ x = File t) as H.
  { intros q c x Hx. unfold at_path in Hx. replace (is_root _) with false in Hx.
    2: { symmetry. unfold is_root. apply bool_decide_eq_false. intros [|E]; [done|].
         injection E as E. done. }
    cbn [demo_world w_fs] in Hx. apply lookup_insert_Some in Hx as [[E _]|[_ Hx]].
    { injection E as E. by apply eq_sym, app_eq_nil in E as [_ ?]. }
    apply lookup_insert_Some in Hx as [[E <-]|[_ Hx]]; [|by rewrite lookup_empty in Hx].
    injection E as E. by apply (app_inj_tail [] q) in E as [<- <-]. }
  split.
  - intros [|[|i]]; done.
  - intros q c x (_ & -> & _)%H. done.
  - intros q c (_ & _ & ?)%H. done.
Qed.


Lemma header_changes_flagged_witness :
  ∃ W' l, sync_deps CONFIG demo_other (vals demo_other 5) "deps/" (demo_world demo_auto) = Ok W' ∧
    w_log W' = [] ++ l ∧ ["deps"; "b.h"] ∈ l.
Proof.
  apply (header_changes_flagged "deps/" demo_before (vals demo_before 5) demo_other (vals demo_other 5)
    (demo_world demo_auto) demo_auto "B");
    [done|apply demo_writable; auto|apply demo_writable; auto|exact demo_types|exact (demo_tree _)
    |vm_compute; reflexivity|reflexivity|left; cbn; set_solver|vm_compute; discriminate].
Defined.

Lemma sync_first_run_witness :
  ∃ W', sync_deps CONFIG demo_before (vals demo_before 5) "deps" (mkWorld ∅ []) = Ok W' ∧
    w_log W' = [["deps"; "b.h"]; ["deps"; "s.h"]; ["deps"; "i.h"]; ["deps"; "auto.conf"]].
Proof.
  destruct (sync_first_run "deps" demo_before (vals demo_before 5) (mkWorld ∅ []))
    as (W' & t & E & _ & _ & _ & HL & _).
  - done.
  - apply demo_writable; auto.
  - split; [|done]. change (norm "deps") with ["deps"]. intros [|i] Hi; [done|cbn in Hi; lia].
  - exists W'. split; [exact E|]. rewrite HL. vm_compute. reflexivity.
Defined.

(** A symbol that is no longer defined but still mentioned has its value
    loaded, is not among the symbols that are compared, and is not flagged,
    although its line leaves the header. *)
Definition mentioned_only : Conf :=
  mkConf (<["B" := mkSymbol UNKNOWN [] [] [] kn kn ky None None None false]> (cf_syms demo_before)) []
    ["S"; "I"] None.

Theorem undefined_symbol_not_flagged :
  header_line demo_before (vals demo_before 5) "B" = line "#define CONFIG_B 1" ∧
  header_line mentioned_only (vals mentioned_only 5) "B" = "" ∧
  ∃ W', sync_deps CONFIG mentioned_only (vals mentioned_only 5) "deps" (demo_world demo_auto) = Ok W' ∧
    w_log W' = [["deps"; "auto.conf"]].
Proof.
  split; [vm_compute; reflexivity|]. split; [vm_compute; reflexivity|].
  destruct (sync_deps CONFIG mentioned_only (vals mentioned_only 5) "deps" (demo_world demo_auto)) as [W'|] eqn:E;
    vm_compute in E; [|discriminate E].
  exists W'. split; [reflexivity|]. injection E as <-. reflexivity.
Qed.

(** Two spellings of a hex value give the same header but different
    auto.conf files: the symbol is flagged although its header line did not
    change. *)
Definition demo_hex (v : string) : Conf :=
  mkConf {["H" := mkSymbol HEX [Some ("prompt", ky)] [] [] kn kn ky None None (Some (UStr v)) false]} []
    ["H"] None.

Theorem hex_spelling_flagged :
  header_line (demo_hex "10") (vals (demo_hex "10") 5) "H" =
    header_line (demo_hex "0x10") (vals (demo_hex "0x10") 5) "H" ∧
  touched "deps" (demo_hex "10") (vals (demo_hex "10") 5) (demo_hex "0x10") (vals (demo_hex "0x10") 5) =
    [["deps"; "h.h"]].
Proof. split; vm_compute; reflexivity. Qed.

(** A symbol that becomes a hex symbol and keeps its text: its line in the
    header changes, its line in auto.conf does not, and it is not flagged. *)
Definition demo_int (v : string) : Conf :=
  mkConf {["H" := mkSymbol INT [Some ("prompt", ky)] [] [] kn kn ky None None (Some (UStr v)) false]} []
    ["H"] None.

Theorem type_change_not_flagged :
  header_line (demo_int "10") (vals (demo_int "10") 5) "H" = line "#define CONFIG_H 10" ∧
  header_line (demo_hex "10") (vals (demo_hex "10") 5) "H" = line "#define CONFIG_H 0x10" ∧
  ∃ t, old_vals_contents CONFIG (demo_int "10") (vals (demo_int "10") 5) = Ok t ∧
  ∃ W', sync_deps CONFIG (demo_hex "10") (vals (demo_hex "10") 5) "deps" (demo_world t) = Ok W' ∧
    w_log W' = [].
Proof.
  split; [vm_compute; reflexivity|]. split; [vm_compute; reflexivity|].
  eexists. split; [vm_compute; reflexivity|].
  destruct (sync_deps CONFIG (demo_hex "10") (vals (demo_hex "10") 5) "deps" _) as [W'|] eqn:E;
    vm_compute in E; [|discriminate E].
  exists W'. split; [reflexivity|]. injection E as <-. reflexivity.
Qed.
End KSyncSpec.
