(* ===== verification/KTools.v ===== *)
(** * tools/kconfig: loading and writing files, and the command line tools

    [load_config] with the search for the file, [defconfig_filename],
    [load_allconfig], [write_config], [write_autoconf], [write_min_config],
    and the main functions of genconfig.py, defconfig.py, olddefconfig.py and
    savedefconfig.py after the command line and the Kconfig files were read.
    The messages the tools print are results; the messages of errors are
    shortened.  Warnings are left out. *)
From S2P Require Import Prelude Hex PyStr KExpr KLex KSym KConf Files KSync.

Module KTools.
Import Hex PyStr KExpr KSym KConf Files KSync.

(** What is fixed after [Kconfig.__init__]: the prefix, $srctree, the two
    headers, the menu nodes below the top node, the files read and the
    environment variables they used. *)
Record Kc := mkKc {
  kc_prefix : string;
  kc_srctree : string;
  kc_config_header : string;
  kc_header_header : string;
  kc_nodes : list mnode;
  kc_filenames : list string;
  kc_env_vars : list string
}.

(** The state of a session: values, missing symbols, two warning switches,
    and the files. *)
Record Ses := mkSes { se_lst : Lst; se_override : bool; se_redun : bool; se_world : World }.

Section tools.
Context (env : gmap string string) (K : Kc).
(** The values of a configuration. *)
Context (vals : Conf → Vals).

Definition set_world (S : Ses) (W : World) : Ses := mkSes (se_lst S) (se_override S) (se_redun S) W.
Definition set_lst (S : Ses) (L : Lst) : Ses := mkSes L (se_override S) (se_redun S) (se_world S).
Definition set_warn (S : Ses) (o r : bool) : Ses := mkSes (se_lst S) o r (se_world S).
Definition conf (S : Ses) : Conf := l_conf (se_lst S).

Definition standard_config_filename : string := default ".config" (env !! "KCONFIG_CONFIG").

(** [_open_config]: the name and text of the file that could be opened; the
    error is that of the second attempt. *)
Definition open_config (W : World) (filename : string) : res (string * string) :=
  match read_path W filename with
  | Ok t => Ok (filename, t)
  | Err e =>
      if is_os_error e then
        let f := join_path (kc_srctree K) filename in
        let* t := read_path W f in Ok (f, t)
      else Err e
  end.

(** [defconfig_filename] *)
Fixpoint first_defconfig (V : Vals) (C : Conf) (W : World) (defaults : list (expr * expr)) : res (option string) :=
  match defaults with
  | [] => Ok None
  | (d, cond) :: defaults =>
      let* c := value C V cond in
      if zero c then first_defconfig V C W defaults
      else
        let* name := expr_str_value V d in
        match open_config W name with
        | Ok (f, _) => Ok (Some f)
        | Err e => if is_os_error e then first_defconfig V C W defaults else Err e
        end
  end.
Definition defconfig_filename (C : Conf) (W : World) : res (option string) :=
  match cf_defconfig_list C with
  | Some n =>
      match cf_syms C !! n with
      | Some s => first_defconfig (vals C) C W (s_defaults s)
      | None => Ok None
      end
  | None => Ok None
  end.

(** [_load_config] of a file. *)
Definition load_file (filename : string) (replace : bool) (S : Ses) : res Ses :=
  let* f := open_config (se_world S) filename in
  let* L := load_config (kc_prefix K) replace f.2 (se_lst S) in Ok (set_lst S L).

Definition sq (s : string) : string := "'" +:+ s +:+ "'".

(** [load_config] *)
Definition load_msg (filename : string) (msg : option string) (replace : bool) (S : Ses) : res (string * Ses) :=
  let msg := default (" configuration " +:+ sq filename) msg in
  let* S := load_file filename replace S in
  Ok ((if replace then "Loaded" else "Merged") +:+ msg, S).

Definition load_config (filename : option string) (replace : bool) (S : Ses) : res (string * Ses) :=
  match filename with
  | Some f => load_msg f None replace S
  | None =>
      let f := standard_config_filename in
      if exists_path (se_world S) f || exists_path (se_world S) (join_path (kc_srctree K) f) then
        load_msg f None replace S
      else
        let* d := defconfig_filename (conf S) (se_world S) in
        match d with
        | None => Ok ("Using default symbol values (no " +:+ sq f +:+ ")", S)
        | Some d => load_msg d (Some (" default configuration " +:+ sq d +:+ " (no " +:+ sq f +:+ ")")) replace S
        end
  end.

(** [load_allconfig]: with KCONFIG_ALLCONFIG empty or 1, the file named
    after the command and then all.config. *)
Definition load_allconfig (filename : string) (S : Ses) : res (list string * Ses) :=
  match env !! "KCONFIG_ALLCONFIG" with
  | None => Ok ([], S)
  | Some allconfig =>
      let S0 := set_warn S false false in
      let* r :=
        if String.eqb allconfig "" || String.eqb allconfig "1" then
          match load_config (Some filename) false S0 with
          | Ok r => Ok r
          | Err e =>
              if is_os_error e then
                match load_config (Some "all.config") false S0 with
                | Ok r => Ok r
                | Err e => if is_os_error e then
                             Err (SystemExit ("error: KCONFIG_ALLCONFIG is set, but neither " +:+ filename
                                  +:+ " nor all.config could be opened"))
                           else Err e
                end
              else Err e
          end
        else
          match load_config (Some allconfig) false S0 with
          | Ok r => Ok r
          | Err e => if is_os_error e then
                       Err (SystemExit ("error: KCONFIG_ALLCONFIG is set to " +:+ sq allconfig
                            +:+ ", which could not be opened"))
                     else Err e
          end in
      Ok ([r.1], set_warn r.2 (se_override S) (se_redun S))
  end.

(** [write_config], [write_autoconf], [write_min_config] *)
Definition write_config (filename : option string) (header : option string) (save_old : bool) (S : Ses)
    : res (string * Ses) :=
  let f := default standard_config_filename filename in
  let* t := config_contents (kc_prefix K) (conf S) (vals (conf S)) (default (kc_config_header K) header) (kc_nodes K) in
  if contents_eq (se_world S) f t then Ok ("No change to configuration in " +:+ sq f, S)
  else
    let W := if save_old then KSync.save_old (se_world S) f else se_world S in
    let* W := write_path W f t in
    Ok ("Configuration saved to " +:+ sq f, set_world S W).

Definition write_changed (f t yes no : string) (S : Ses) : res (string * Ses) :=
  let* r := write_if_changed (se_world S) f t in
  Ok ((if r.1 : bool then yes else no) +:+ sq f, set_world S r.2).

Definition write_autoconf (filename : option string) (header : option string) (S : Ses) : res (string * Ses) :=
  let f := default (default "include/generated/autoconf.h" (env !! "KCONFIG_AUTOHEADER")) filename in
  let* t := autoconf_contents (kc_prefix K) (conf S) (vals (conf S)) (default (kc_header_header K) header) in
  write_changed f t "Kconfig header saved to " "No change to Kconfig header in " S.

Definition write_min_config (filename : string) (header : option string) (S : Ses) : res (string * Ses) :=
  let* t := min_config_contents (kc_prefix K) (conf S) (vals (conf S)) (default (kc_config_header K) header) in
  write_changed filename t "Minimal configuration saved to " "No change to minimal configuration in " S.

Definition sync_deps (p : string) (S : Ses) : res Ses :=
  let* W := KSync.sync_deps (kc_prefix K) (conf S) (vals (conf S)) p (se_world S) in Ok (set_world S W).

(** ** The tools *)

(** genconfig.py *)
Record GenArgs := mkGenArgs {
  ga_header_path : option string;
  ga_config_out : option string;
  ga_sync_deps : option string;
  ga_file_list : option string;
  ga_env_list : option string
}.

Definition env_line (v : string) : res string :=
  match env !! v with
  | Some x => Ok (line (v +:+ "=" +:+ x))
  | None => Err (KeyError v)
  end.
(** [with open(path, "w") as f: for x in l: f.write(...)] *)
Definition write_lines (p : option string) (lines : res (list string)) (S : Ses) : res Ses :=
  match p with
  | None => Ok S
  | Some p =>
      let* _ := write_path (se_world S) p "" in
      let* ls := lines in
      let* W := write_path (se_world S) p (foldr String.append "" ls) in Ok (set_world S W)
  end.

Definition genconfig (a : GenArgs) (S : Ses) : res Ses :=
  let* r := load_config None true S in
  let* r := match ga_header_path a with
            | None => match env !! "KCONFIG_AUTOHEADER" with
                      | Some _ => write_autoconf None None r.2
                      | None => write_autoconf (Some "config.h") None r.2
                      end
            | Some h => write_autoconf (Some h) None r.2
            end in
  let* S := match ga_config_out a with
            | Some f => let* r := write_config (Some f) None false r.2 in Ok r.2
            | None => Ok r.2
            end in
  let* S := match ga_sync_deps a with Some p => sync_deps p S | None => Ok S end in
  let* S := write_lines (ga_file_list a) (Ok (line <$> kc_filenames K)) S in
  write_lines (ga_env_list a) (res_map env_line (kc_env_vars K)) S.

(** What a tool prints. *)
Definition print (r : string * Ses) (out : list string) : list string * Ses := (out ++ [r.1], r.2).

(** defconfig.py *)
Definition defconfig (config : string) (S : Ses) : res (list string * Ses) :=
  let* r1 := load_config (Some config) true S in
  let* r2 := write_config None None true r1.2 in Ok (print r2 [r1.1]).

(** olddefconfig.py *)
Definition olddefconfig (S : Ses) : res (list string * Ses) :=
  let* r1 := load_config None true S in
  let* r2 := write_config None None true r1.2 in Ok (print r2 [r1.1]).

(** savedefconfig.py *)
Definition savedefconfig (out : string) (S : Ses) : res (list string * Ses) :=
  let* r1 := load_config None true S in
  let* r2 := write_min_config out None r1.2 in Ok (print r2 [r1.1]).
End tools.
End KTools.
