(* ===== verification/KToolsSpec.v ===== *)
(** * Files of a session and the command line tools

    A written .config file is what a later load reads; writing again what is
    there changes nothing; running genconfig again changes nothing. *)
From S2P Require Import Prelude Hex PyStr KExpr KLex KSym KConf KLexSpec KSymSpec KConfSpec KRound.
From S2P Require Import Files FilesSpec KSync KSyncSpec KTools.

Module KToolsSpec.
Import Hex PyStr KExpr KSym KConf KSymSpec KConfSpec KRound Files FilesSpec KSync KSyncSpec KTools.

(** ** Line ends *)

Lemma universal_nl_cr s : has_char "013" (KLex.universal_nl s) = false.
Proof.
  assert (∀ n s, String.length s ≤ n → has_char "013" (KLex.universal_nl s) = false) as H; [|by eapply H].
  clear s. induction n as [|n IH]; intros [|c s] Hn; cbn in *; try done; [lia|].
  destruct (Ascii.eqb c "013") eqn:E.
  - cbn. destruct s as [|d s]; [done|]. cbn in Hn.
    destruct (Ascii.eqb d nl) eqn:Ed; apply IH; cbn; lia.
  - cbn. rewrite E. apply IH. lia.
Qed.

Lemma file_lines_universal t : file_lines (KLex.universal_nl t) = file_lines t.
Proof. unfold file_lines. by rewrite (universal_nl_id (KLex.universal_nl t)) by apply universal_nl_cr. Qed.

(** ** What a step leaves alone *)

Definition keeps (W W' : World) (q : path) : Prop :=
  ∀ t, at_path W q = Some (File t) → at_path W' q = Some (File t).

Lemma keeps_file_refl W q : keeps W W q.
Proof. by intros t. Qed.
Lemma keeps_file_trans W1 W2 W3 q : keeps W1 W2 q → keeps W2 W3 q → keeps W1 W3 q.
Proof. intros H1 H2 t Ht. by apply H2, H1. Qed.

Lemma put_keeps W p t q : is_root p = false → q ≠ p → keeps W (put_at W p t) q.
Proof. intros Hr Hq x Hx. rewrite at_put by done. by rewrite decide_False. Qed.

Lemma write_path_put W s t W' :
  write_path W s t = Ok W' → W' = put_at W (norm s) t ∧ is_root (norm s) = false.
Proof. unfold write_path. destruct (String.eqb s ""); [done|]. apply write_at_ok. Qed.

Lemma write_path_keeps W s t W' q : write_path W s t = Ok W' → q ≠ norm s → keeps W W' q.
Proof. intros [-> ?]%write_path_put. by apply put_keeps. Qed.

Lemma read_path_keeps W W' s t : keeps W W' (norm s) → read_path W s = Ok t → read_path W' s = Ok t.
Proof.
  unfold read_path, read_at. intros Hk. destruct (String.eqb s ""); [done|].
  destruct (at_path W (norm s)) as [[x|]|] eqn:E; [|done..]. intros [= ->]. by rewrite (Hk t E).
Qed.

Lemma contents_eq_keeps W W' s c : keeps W W' (norm s) → contents_eq W s c = true → contents_eq W' s c = true.
Proof.
  intros Hk. rewrite !contents_eq_iff. intros (t & Ht & Hc). exists t. split; [|done].
  by eapply read_path_keeps.
Qed.

(** A file that was written, if its text has no carriage return, is not
    written again. *)
Lemma write_if_changed_eq W s c b W' :
  has_char "013" c = false → write_if_changed W s c = Ok (b, W') → contents_eq W' s c = true.
Proof.
  intros Hc. unfold write_if_changed. destruct (contents_eq W s c) eqn:E; [by intros [= <- <-]|].
  destruct (write_path W s c) as [W1|] eqn:Ew; [|done]. cbn. intros [= <- <-].
  apply contents_eq_iff. exists c. split; [by eapply write_path_read|by apply universal_nl_id].
Qed.

Lemma write_if_changed_same W s c : contents_eq W s c = true → write_if_changed W s c = Ok (false, W).
Proof. unfold write_if_changed. by intros ->. Qed.

Lemma write_if_changed_keeps W s c b W' q :
  write_if_changed W s c = Ok (b, W') → q ≠ norm s → keeps W W' q.
Proof.
  unfold write_if_changed. destruct (contents_eq W s c); [intros [= <- <-] _; apply keeps_file_refl|].
  destruct (write_path W s c) as [W1|] eqn:Ew; [|done]. cbn. intros [= <- <-].
  by eapply write_path_keeps.
Qed.

(** Something at a path, of the same kind. *)
Definition stays (W W' : World) : Prop := ∀ q, is_Some (at_path W q) → is_Some (at_path W' q).

Lemma stays_refl W : stays W W.
Proof. by intros q. Qed.
Lemma stays_trans W1 W2 W3 : stays W1 W2 → stays W2 W3 → stays W1 W3.
Proof. intros H1 H2 q Hq. by apply H2, H1. Qed.
#[local] Hint Resolve keeps_file_refl stays_refl : core.
#[local] Hint Resolve keeps_file_trans stays_trans : core.

Lemma put_stays W p t : is_root p = false → stays W (put_at W p t).
Proof. intros Hr q Hq. rewrite at_put by done. by case_decide. Qed.

Lemma mkdir_at_keeps W p s W' q : mkdir_at W p s = Ok W' → keeps W W' q ∧ stays W W'.
Proof.
  unfold mkdir_at, exists_at. case_bool_decide as E; [done|]. apply eq_None_not_Some in E.
  assert (Hr := at_none_root _ _ E). destruct (at_path W (parent p)) as [[|]|]; [done| |done].
  intros [= <-]. split.
  - intros t Ht. rewrite at_mkdir by done. case_decide; [congruence|done].
  - intros q' Hq. rewrite at_mkdir by done. by case_decide.
Qed.

Lemma makedirs_at_keeps W p s W' q : makedirs_at W p s = Ok W' → keeps W W' q ∧ stays W W'.
Proof.
  unfold makedirs_at. revert W. induction (seq 1 (length p)) as [|i l IH]; intros W; cbn [res_fold].
  { intros [= <-]. auto. }
  destruct (exists_at W (take i p)); cbn [res_bind]; [apply IH|].
  destruct (mkdir_at W (take i p) s) as [W1|] eqn:E; [|done]. cbn [res_bind]. intros H.
  apply (mkdir_at_keeps _ _ _ _ q) in E as [E1 E2]. apply IH in H as [H1 H2].
  split; [by eapply keeps_file_trans|]. intros q' Hq. by apply H2, E2.
Qed.

Lemma touch_keeps p n W W' q :
  p ≠ "" → touch_dep_file p n W = Ok W' → (¬ norm p `prefix_of` q → keeps W W' q) ∧ stays W W'.
Proof.
  intros Hp. unfold touch_dep_file. rewrite norm_app by done. fold (dep_rel n).
  set (s := p +:+ _). intros H. apply res_bind_ok in H as (W1 & H1 & H2).
  apply write_at_ok in H2 as [-> Hr].
  assert (keeps W W1 q ∧ stays W W1) as [K1 K2].
  { destruct (exists_at _ _); [injection H1 as <-; auto|]. by eapply makedirs_at_keeps. }
  split; [|intros q' Hq'; by apply put_stays, K2]. intros Hq. eapply keeps_file_trans; [done|].
  apply put_keeps; [done|]. intros ->. apply Hq. by eexists.
Qed.

(** ** A second run of sync_deps *)

Section again.
Context (p : string) (C : Conf) (V : Vals) (Hp : p ≠ "") (H : writable C V).

(** The files outside the directory are kept, nothing disappears. *)
Definition inside (W W' : World) : Prop := ∀ q, (¬ norm p `prefix_of` q → keeps W W' q) ∧ stays W W'.

Lemma inside_refl W : inside W W.
Proof. intros q. auto. Qed.
Lemma inside_trans W1 W2 W3 : inside W1 W2 → inside W2 W3 → inside W1 W3.
Proof.
  intros H1 H2 q. destruct (H1 q), (H2 q). split; [|by eapply stays_trans].
  intros Hq. eapply keeps_file_trans; auto.
Qed.

Lemma fold_inside {A} (f : World → A → res World) l W W' :
  (∀ W x W', f W x = Ok W' → inside W W') → res_fold f W l = Ok W' → inside W W'.
Proof.
  intros Hf. revert W. induction l as [|x l IH]; intros W; cbn [res_fold].
  { intros [= <-]. apply inside_refl. }
  intros (W1 & E1 & E2)%res_bind_ok. eapply inside_trans; eauto.
Qed.

Lemma touch_inside n W W' : touch_dep_file p n W = Ok W' → inside W W'.
Proof using Hp. intros E q. by eapply touch_keeps. Qed.

Lemma load_inside W old W' : load_old_vals CONFIG C p W = Ok (old, W') → inside W W'.
Proof using Hp.
  unfold load_old_vals. destruct (read_path W _) as [t|[]]; try done.
  2: { intros [= _ <-]. apply inside_refl. }
  generalize (∅ : gmap string string). revert W. induction (file_lines t) as [|l ls IH]; intros W o.
  { intros [= _ <-]. apply inside_refl. }
  cbn [res_fold]. intros ([o' W1] & E1 & E2)%res_bind_ok. apply IH in E2. eapply inside_trans; [|done].
  unfold load_old_line in E1. destruct (set_match CONFIG l) as [[m v]|]; [|injection E1 as _ <-; apply inside_refl].
  destruct (cf_syms C !! m) as [s|].
  - case_decide; [destruct (conf_string_match v)|]; injection E1 as _ <-; apply inside_refl.
  - apply res_bind_ok in E1 as (W2 & E1 & E3). injection E3 as _ <-. by eapply touch_inside.
Qed.

Lemma sync_sym_inside old W ns W' : sync_sym C V p old W ns = Ok W' → inside W W'.
Proof using Hp.
  unfold sync_sym. intros (vw & _ & E)%res_bind_ok.
  destruct (has_changed _ _ _); [by eapply touch_inside|]. injection E as <-. apply inside_refl.
Qed.

Lemma make_dir W W' :
  (if exists_path W p then Ok W else mkdir W p) = Ok W' →
  exists_path W' p = true ∧ inside W W'.
Proof using Hp.
  destruct (exists_path W p) eqn:E; [intros [= <-]; split; [done|apply inside_refl]|]. unfold mkdir.
  destruct (String.eqb_spec p "") as [|Hne]; [done|]. intros H1. split.
  - unfold exists_path. apply String.eqb_neq in Hne as ->. unfold mkdir_at, exists_at in *.
    case_bool_decide as E'; [done|]. apply eq_None_not_Some in E'. apply at_none_root in E'.
    destruct (at_path W (parent (norm p))) as [[|]|]; [done| |done]. injection H1 as <-.
    rewrite bool_decide_true; [done|]. rewrite at_mkdir, decide_True by done. by eexists.
  - intros q. destruct (mkdir_at_keeps _ _ _ _ q H1) as [K S]. auto.
Qed.

Lemma write_old_inside W W' :
  write_old_vals CONFIG C V p W = Ok W' →
  inside W W' ∧ contents_eq W' (auto_conf p) (lines_text (rec_lines C V)) = true.
Proof using Hp H.
  unfold write_old_vals. rewrite old_vals_written by done. cbn [res_bind].
  intros ([b W1] & E & [= <-])%res_bind_ok. cbn [snd]. split.
  2: { eapply write_if_changed_eq; [|done]. by apply lines_text_cr, rec_lines_one. }
  unfold write_if_changed in E. destruct (contents_eq _ _ _); [injection E as _ <-; apply inside_refl|].
  apply res_bind_ok in E as (W2 & E & [= _ <-]).
  apply write_path_put in E as [-> Hr]. unfold auto_conf in *. rewrite join_path_norm in Hr |- * by done.
  intros q. split; [|by apply put_stays]. intros Hq. apply put_keeps; [done|].
  intros E. apply Hq. rewrite E. by eexists.
Qed.

Lemma sync_parts W W' :
  KSync.sync_deps CONFIG C V p W = Ok W' →
  inside W W' ∧ exists_path W' p = true ∧
  contents_eq W' (auto_conf p) (lines_text (rec_lines C V)) = true.
Proof using Hp H.
  unfold KSync.sync_deps. intros (W1 & [E1 I1]%make_dir & HS)%res_bind_ok.
  apply res_bind_ok in HS as ([old W2] & E2%load_inside & HS).
  apply res_bind_ok in HS as (W3 & E3%(fold_inside _ _ _ _ (sync_sym_inside old)) & HS).
  cbn [fst snd] in *. apply write_old_inside in HS as [I4 HC].
  assert (inside W1 W') as I by (eauto using inside_trans). split_and!; [by eapply inside_trans| |done].
  unfold exists_path, exists_at in *. destruct (String.eqb p ""); [done|]. cbn [negb andb] in *.
  rewrite bool_decide_eq_true in *. by apply (I []).
Qed.

(** Lines for the symbols of this very configuration touch nothing. *)
Lemma load_own l old W :
  (∀ ns, ns ∈ l → ns ∈ unique_syms C) →
  (∀ ns, ns ∈ unique_syms C → ns ∉ l → old !! ns.1 = rec_val C V ns.1 ns.2) →
  (∀ ns, ns ∈ l → rec_val C V ns.1 ns.2 = None → old !! ns.1 = None) → NoDup l.*1 →
  ∃ old', res_fold (load_old_line CONFIG C p) (old, W)
      (omap (λ ns, assign_line ns.1 (s_orig_type ns.2) <$> rec_val C V ns.1 ns.2) l) = Ok (old', W) ∧
    ∀ ns, ns ∈ unique_syms C → old' !! ns.1 = rec_val C V ns.1 ns.2.
Proof using Hp H.
  revert old. induction l as [|[n s] l IH]; intros old Hl Ho Hnone Hnd.
  { exists old. split; [done|]. intros ns Hns. by apply Ho; [|apply not_elem_of_nil]. }
  assert (Hin : (n, s) ∈ unique_syms C) by (by apply Hl; left). cbn in Hnd. apply NoDup_cons in Hnd as [Hn Hnd].
  destruct (wr_entry _ _ _ H Hin) as (Hpn & v0 & b0 & Hv0 & Hone). cbn [fst snd] in *.
  assert (∀ ns, ns ∈ unique_syms C → ns.1 = n → ns = (n, s)) as Huniq.
  { intros [m t] [_ E]%unique_syms_in Em. apply unique_syms_in in Hin as [_ Hs]. cbn in *. congruence. }
  assert (∀ ns, ns ∈ l → ns.1 ≠ n) as Hne by (intros ns Hns <-; apply Hn; by apply (list_elem_of_fmap_2 fst)).
  cbn [omap list_omap fst snd]. destruct (rec_val C V n s) as [v|] eqn:Er; cbn [fmap option_fmap option_map].
  - destruct (rec_val_facts _ _ _ _ _ Er) as (Hb & Hu & Hv). assert (v0 = v) as -> by congruence.
    cbn [res_fold]. apply unique_syms_in in Hin as Hs. destruct Hs as [_ Hs]. cbn [fst snd] in Hs.
    destruct (load_line_known p C n (s_orig_type s) v old W s) as (o & -> & Ho1 & Ho2); [by apply plain_good|done..|].
    cbn [res_bind]. specialize (Ho1 eq_refl). apply IH; [intros; apply Hl; by right| | |done].
    + intros ns Hns Hnl. destruct (decide (ns.1 = n)) as [E|E].
      * rewrite (Huniq ns) by done. cbn [fst snd]. by rewrite Er, Ho1, lookup_insert_eq.
      * rewrite Ho2 by done. apply Ho; [done|]. intros [->|?]%elem_of_cons; done.
    + intros ns Hns E. rewrite Ho2 by auto. apply Hnone; [by right|done].
  - apply IH; [intros; apply Hl; by right| | |done].
    + intros ns Hns Hnl. destruct (decide (ns.1 = n)) as [E|E].
      * rewrite (Huniq ns) by done. cbn [fst snd]. rewrite Er. apply (Hnone (n, s)); [by left|done].
      * apply Ho; [done|]. intros [->|?]%elem_of_cons; done.
    + intros ns Hns E. apply Hnone; [by right|done].
Qed.

Lemma sync_again W :
  exists_path W p = true → contents_eq W (auto_conf p) (lines_text (rec_lines C V)) = true →
  KSync.sync_deps CONFIG C V p W = Ok W.
Proof using Hp H.
  intros He Hc. unfold KSync.sync_deps. rewrite He. cbn [res_bind].
  apply contents_eq_iff in Hc as Hr. destruct Hr as (t & Ht & Hnl). unfold load_old_vals. rewrite Ht.
  rewrite <- file_lines_universal, Hnl, file_lines_text by (by apply rec_lines_one). rewrite res_fold_app.
  destruct (load_own (unique_syms C) ∅ W) as (old & E & HO).
  { done. } { done. } { intros. apply lookup_empty. } { by eapply unique_syms_nodup. }
  unfold rec_lines. rewrite E. cbn [res_bind res_fold]. change (load_old_line CONFIG C p (old, W) "") with
    (@Ok (gmap string string * World) (old, W)). cbn [res_bind fst snd]. rewrite res_fold_id.
  - cbn [res_bind]. unfold write_old_vals. rewrite old_vals_written by done. cbn [res_bind].
    by rewrite write_if_changed_same.
  - intros [n s] Hin. destruct (wr_entry _ _ _ H Hin) as (_ & v & b & Hv & _). unfold sync_sym.
    specialize (HO _ Hin). cbn [fst snd] in *. rewrite Hv. cbn [res_bind]. rewrite has_changed_iff.
    + rewrite HO. unfold rec_val. rewrite Hv. by destruct b; rewrite bool_decide_true.
    + intros Hb E'. rewrite HO in E'. apply rec_val_facts in E' as (E' & _ & _). by rewrite Hb in E'.
Qed.
End again.

(** ** Writing and loading *)

(** C3.  A .config file at work: after [write_config] to a file (whether it
    is written or already has the text), [load_config] of that file in a
    session whose configuration differs in user values at most succeeds,
    reports nothing as missing, gives every written symbol its value as user
    value (when the text is a valid user value of its type) and removes every
    other user value. *)
Theorem save_load_round_trip env K vals S S1 f header save_old m C' miss o r :
  kc_prefix K = CONFIG → frame (conf S) C' → conf_ok C' → unique_complete (conf S) → names_ok (conf S) →
  trees_ok (kc_nodes K) → (∀ n, n ∈ trees_syms (kc_nodes K) → is_Some (defined (conf S) n)) →
  (∀ n s v b, defined (conf S) n = Some s → sym_str_value (conf S) (vals (conf S)) n s = Ok (v, b) → one_line v) →
  Forall (λ l, one_line l ∧ harmless l) header →
  write_config env K vals (Some f) (Some (lines_text header)) save_old S = Ok (m, S1) →
  ∃ S2, load_config env K vals (Some f) true (mkSes (mkLst C' miss) o r (se_world S1)) =
      Ok ("Loaded configuration " +:+ sq f, S2) ∧
    l_missing (se_lst S2) = [] ∧ se_world S2 = se_world S1 ∧
    ∀ n s v b, n ∈ trees_syms (kc_nodes K) → defined (conf S) n = Some s →
      sym_str_value (conf S) (vals (conf S)) n s = Ok (v, b) →
      ∃ s', cf_syms (conf S2) !! n = Some s' ∧ same_defs s s' ∧
        s_user_value s' = if b : bool then reload (s_orig_type s) v else None.
Proof.
  intros HK Hf Hok Hu Hn Ht Hd Hv Hh Hw. unfold write_config in Hw. rewrite HK in Hw.
  apply res_bind_ok in Hw as (t & Et & Hw). cbn [from_option id] in *.
  assert (∃ t', read_path (se_world S1) f = Ok t' ∧ file_lines t' = file_lines t) as (t' & Hr & Hl).
  { revert Hw. destruct (contents_eq (se_world S) f t) eqn:E; intros Hw.
    - injection Hw as _ <-. apply contents_eq_iff in E as (t' & Hr & <-). exists t'.
      by rewrite file_lines_universal.
    - apply res_bind_ok in Hw as (W & Hw & [= _ <-]). exists t. split; [|done].
      by eapply write_path_read. }
  destruct (round_trip (conf S) (vals (conf S)) C' header (kc_nodes K) t t' miss Hf Hok Hu Hn Ht Hd Hv Hh Et Hl)
    as (L & HL & Hm & Hall).
  unfold load_config, load_msg, load_file, open_config. cbn [se_world]. rewrite Hr. cbn [res_bind snd se_lst].
  rewrite HK, HL. eexists. split; [done|]. by split_and!.
Qed.

(** A path that ends in a name. *)
Definition ends_in_name (f : string) : Prop :=
  List.last (split_char "/" f) "" ≠ "" ∧ List.last (split_char "/" f) "" ≠ ".".

Lemma old_name f :
  ends_in_name f → ∃ d w, norm f = d ++ [w] ∧ norm (f +:+ ".old") = d ++ [w +:+ ".old"] ∧
    is_root (norm f) = false.
Proof.
  intros [H1 H2]. destruct (split_char_ends "/" f ".old") as (ws & w & E1 & E2); [done|].
  rewrite E1, last_last in H1, H2. pose proof (split_char_sep "/" f) as Hs. rewrite E1 in Hs.
  apply Forall_app in Hs as [_ Hs]. inversion_clear Hs as [|?? Hw _].
  assert (comps f = comps f) as Hc by done. unfold comps at 2 in Hc. rewrite E1, filter_app in Hc.
  apply String.eqb_neq in H1, H2. rewrite filter_cons_True, filter_nil in Hc by (by rewrite H1, H2).
  assert (comps (f +:+ ".old") = comps (f +:+ ".old")) as Hc' by done. unfold comps at 2 in Hc'.
  rewrite E2, filter_app, filter_cons_True, filter_nil in Hc'.
  2: { destruct w as [|a w]; [done|]. rewrite cons_append. cbn [String.eqb orb].
       destruct (Ascii.eqb a "."); [by destruct w|done]. }
  set (q := filter _ ws) in Hc, Hc'. unfold norm. rewrite Hc, Hc'.
  assert (startswith (f +:+ ".old") "/" = startswith f "/") as ->.
  { destruct f as [|c f]; [by cbn in E1; destruct ws as [|? []]; injection E1 as <-|].
    rewrite cons_append. change (startswith (String c ?x) "/") with
      (if Ascii.ascii_dec "/" c then String.prefix "" x else false).
    destruct (Ascii.ascii_dec "/" c); [by destruct f|done]. }
  assert (w ≠ "/") as Hne by (by intros ->).
  destruct (startswith f "/"); [exists ("/" :: q), w|exists q, w]; (split_and!; [done..|]);
    unfold is_root; apply bool_decide_eq_false; intros [E|E].
  - done.
  - injection E as E. by apply app_eq_nil in E as [_ ?].
  - by apply app_eq_nil in E as [_ ?].
  - by apply (app_inj_tail _ []) in E as [_ ?].
Qed.

(** What [save_old] does to an ordinary file. *)
Lemma save_old_file W f t :
  at_path W (norm f) = Some (File t) → at_path W (norm (f +:+ ".old")) ≠ Some Dir →
  at_path W (parent (norm (f +:+ ".old"))) = Some Dir →
  save_old W f = mkWorld (<[norm (f +:+ ".old") := File t]> (delete (norm f) (w_fs W))) (w_log W).
Proof.
  intros Hf Ho Hp. unfold save_old, rename. rewrite Hf.
  destruct (at_path W (norm (f +:+ ".old"))) as [[]|]; [done|done|]. by rewrite Hp.
Qed.

(** What a write leaves at the other paths. *)
Definition others_same (f : string) (W W' : World) : Prop :=
  ∀ q, q ≠ norm f → q ≠ norm (f +:+ ".old") → at_path W' q = at_path W q.

Lemma at_moved W p q x l r :
  is_root p = false → is_root q = false → p ≠ q →
  at_path (mkWorld (<[q := x]> (delete p (w_fs W))) l) r =
    if decide (r = q) then Some x else if decide (r = p) then None else at_path W r.
Proof.
  intros Hp Hq Hne. unfold at_path. cbn [w_fs]. repeat case_decide; subst; rewrite ?Hp, ?Hq.
  - by rewrite lookup_insert_eq.
  - rewrite lookup_insert_ne by done. by rewrite lookup_delete_eq.
  - by rewrite lookup_insert_ne, lookup_delete_ne by done.
Qed.

Lemma old_differs f : ends_in_name f → norm f ≠ norm (f +:+ ".old").
Proof.
  intros (d & w & -> & -> & _)%old_name. intros [_ E%(f_equal String.length)]%app_inj_tail.
  rewrite length_append in E. cbn in E. lia.
Qed.

Lemma old_not_root f : ends_in_name f → is_root (norm (f +:+ ".old")) = false.
Proof.
  intros (d & w & _ & -> & _)%old_name. unfold is_root. apply bool_decide_eq_false. intros [E|E].
  - by apply app_eq_nil in E as [_ E].
  - apply (app_inj_tail _ []) in E as [_ E]. destruct w as [|a w]; [done|]. injection E as _ E. by destruct w.
Qed.

(** The files before the text is written. *)
Lemma save_step W f (old : bool) :
  ends_in_name f → at_path W (parent (norm f)) = Some Dir → at_path W (norm f) ≠ Some Dir →
  at_path W (norm (f +:+ ".old")) ≠ Some Dir →
  let W1 := if old then save_old W f else W in
  w_log W1 = w_log W ∧ at_path W1 (parent (norm f)) = Some Dir ∧ at_path W1 (norm f) ≠ Some Dir ∧
  others_same f W W1 ∧
  at_path W1 (norm (f +:+ ".old")) =
    match at_path W (norm f) with
    | Some (File x) => if old then Some (File x) else at_path W (norm (f +:+ ".old"))
    | _ => at_path W (norm (f +:+ ".old"))
    end.
Proof.
  intros Hf Hp Hnd Hod. destruct (old_name f Hf) as (d & w & En & Eo & Hr).
  assert (Hne := old_differs f Hf). assert (Hro := old_not_root f Hf).
  destruct old; cbn zeta; [|split_and!; try done; by destruct (at_path W (norm f)) as [[]|]].
  destruct (at_path W (norm f)) as [[x|]|] eqn:E0; [|done|].
  - rewrite (save_old_file W f x); [|done|done|by rewrite Eo, parent_snoc; rewrite En, parent_snoc in Hp].
    assert (parent (norm f) ≠ norm f ∧ parent (norm f) ≠ norm (f +:+ ".old")) as [H1 H2].
    { rewrite Eo, En, parent_snoc. split; intros E%(f_equal length); rewrite length_app in E; cbn in E; lia. }
    split_and!; try done; try intros q Hq1 Hq2; rewrite at_moved by done;
      rewrite ?(decide_False (P := parent _ = _)), ?(decide_False (P := norm f = _)), ?(decide_False (P := q = _)) by done;
      repeat case_decide; done.
  - assert (save_old W f = W) as -> by (unfold save_old, rename; by rewrite E0).
    split_and!; try done. congruence.
Qed.

(** [write_config] in an existing directory, on every branch: a file
    with the text already in it is left alone; any other file is replaced,
    and kept under the name with .old when asked to; a missing file is
    created; no other path changes; exactly the written file is opened for
    writing.  Writing once more changes nothing. *)
Theorem write_config_saves env K vals S f header old t :
  config_contents (kc_prefix K) (conf S) (vals (conf S)) (default (kc_config_header K) header) (kc_nodes K) = Ok t →
  has_char "013" t = false → ends_in_name f →
  at_path (se_world S) (parent (norm f)) = Some Dir → at_path (se_world S) (norm f) ≠ Some Dir →
  at_path (se_world S) (norm (f +:+ ".old")) ≠ Some Dir →
  ∃ m W', write_config env K vals (Some f) header old S = Ok (m, set_world S W') ∧
    others_same f (se_world S) W' ∧
    match at_path (se_world S) (norm f) with
    | Some (File t0) =>
        if decide (KLex.universal_nl t0 = t) then W' = se_world S
        else at_path W' (norm f) = Some (File t) ∧ w_log W' = w_log (se_world S) ++ [norm f] ∧
             at_path W' (norm (f +:+ ".old")) =
               if old : bool then Some (File t0) else at_path (se_world S) (norm (f +:+ ".old"))
    | _ => at_path W' (norm f) = Some (File t) ∧ w_log W' = w_log (se_world S) ++ [norm f] ∧
           at_path W' (norm (f +:+ ".old")) = at_path (se_world S) (norm (f +:+ ".old"))
    end ∧
    write_config env K vals (Some f) header old (set_world S W') =
      Ok ("No change to configuration in " +:+ sq f, set_world S W').
Proof.
  intros Ht Hcr Hf Hp Hnd Hod. destruct (old_name f Hf) as (_ & _ & _ & _ & Hr).
  assert (Hne := old_differs f Hf).
  assert (String.eqb f "" = false) as Hfe by (by destruct f).
  set (W := se_world S) in *. set (t0 := at_path W (norm f)) in *.
  assert (∀ W1, at_path W1 (parent (norm f)) = Some Dir → at_path W1 (norm f) ≠ Some Dir →
            write_path W1 f t = Ok (put_at W1 (norm f) t)) as Hwr.
  { intros W1 H1 H2. unfold write_path, write_at. rewrite Hfe, H1. by destruct (at_path W1 (norm f)) as [[]|]. }
  assert (∀ W', contents_eq W' f t = true → write_config env K vals (Some f) header old (set_world S W') =
      Ok ("No change to configuration in " +:+ sq f, set_world S W')) as Hagain.
  { intros W' Hc. unfold write_config. change (conf (set_world S W')) with (conf S). rewrite Ht. cbn [res_bind]. cbn [from_option id se_world set_world]. by rewrite Hc. }
  assert (∀ W', at_path W' (norm f) = Some (File t) → contents_eq W' f t = true) as Hc.
  { intros W' E. apply contents_eq_iff. exists t. unfold read_path, read_at. rewrite Hfe, E.
    split; [done|by apply universal_nl_id]. }
  destruct (save_step W f old Hf Hp Hnd Hod) as (HL & HP & HD & HO & HQ).
  fold t0 in HQ. set (W1 := if old then save_old W f else W) in *.
  unfold write_config. rewrite Ht. cbn [res_bind from_option id]. fold W.
  destruct (contents_eq W f t) eqn:E.
  - eexists _, W. split; [by destruct S|]. split; [by intros q|]. split; [|by apply Hagain].
    apply contents_eq_iff in E as (x & Hx & Hxt). unfold read_path, read_at in Hx. rewrite Hfe in Hx.
    fold t0 in Hx. destruct t0 as [[y|]|]; [|done..]. injection Hx as ->. by rewrite decide_True.
  - fold W1. rewrite Hwr by done. cbn [res_bind]. eexists _, _. split; [done|].
    assert (others_same f W (put_at W1 (norm f) t)) as HO'.
    { intros q H1 H2. rewrite at_put, decide_False by done. by apply HO. }
    split; [done|]. split.
    + rewrite !at_put, decide_True, decide_False by (done || congruence). cbn [put_at w_log]. rewrite HL, HQ.
      destruct t0 as [[x|]|] eqn:E0; [|done|done]. rewrite decide_False; [done|]. intros Hx.
      assert (contents_eq W f t = true); [|congruence]. apply contents_eq_iff. exists x.
      unfold read_path, read_at. rewrite Hfe. fold t0. by rewrite E0.
    + apply Hagain, Hc. by rewrite at_put, decide_True.
Qed.

(** ** genconfig *)

Section genconfig.
Context (env : gmap string string) (K : Kc) (vals : Conf → Vals) (a : GenArgs).
Context (HK : kc_prefix K = CONFIG).

Definition header_path : string :=
  match ga_header_path a with Some h => h | None => default "config.h" (env !! "KCONFIG_AUTOHEADER") end.
Notation std := (standard_config_filename env).

(** The files written are different from each other and from the
    configuration file, and outside the directory of [sync_deps]. *)
Record apart : Prop := {
  ap_header : norm std ≠ norm header_path;
  ap_config f : ga_config_out a = Some f → norm std ≠ norm f ∧ norm header_path ≠ norm f;
  ap_sync p : ga_sync_deps a = Some p → p ≠ "" ∧ ¬ norm p `prefix_of` norm std ∧
    ¬ norm p `prefix_of` norm header_path ∧
    ∀ f, ga_config_out a = Some f → ¬ norm p `prefix_of` norm f
}.

(** The values of a configuration can be written, and its texts have no
    carriage return. *)
Record texts_ok (C : Conf) : Prop := {
  tx_writable : writable C (vals C);
  tx_header t : autoconf_contents CONFIG C (vals C) (kc_header_header K) = Ok t → has_char "013" t = false;
  tx_config t : config_contents CONFIG C (vals C) (kc_config_header K) (kc_nodes K) = Ok t → has_char "013" t = false
}.

Definition header_step (S : Ses) : res (string * Ses) :=
  write_autoconf env K vals (Some header_path) None S.
Definition config_step (S : Ses) : res Ses :=
  match ga_config_out a with
  | Some f => let* r := write_config env K vals (Some f) None false S in Ok r.2
  | None => Ok S
  end.
Definition sync_step (S : Ses) : res Ses :=
  match ga_sync_deps a with Some p => sync_deps K vals p S | None => Ok S end.

Lemma genconfig_steps S :
  ga_file_list a = None → ga_env_list a = None →
  genconfig env K vals a S =
    (let* r := load_config env K vals None true S in
     let* r := header_step r.2 in let* S := config_step r.2 in sync_step S).
Proof.
  intros H1 H2. unfold genconfig, header_step, header_path. rewrite H1, H2. unfold write_lines.
  destruct (load_config env K vals None true S) as [[m S1]|]; [|done]. cbn [res_bind fst snd].
  assert (∀ r1 r2 : res (string * Ses), r1 = r2 →
    (let* r := r1 in let* S0 := match ga_config_out a with
        | Some f => let* r0 := write_config env K vals (Some f) None false r.2 in Ok r0.2
        | None => Ok r.2 end in
     let* S1 := match ga_sync_deps a with Some p => sync_deps K vals p S0 | None => Ok S0 end in
     let* S2 := Ok S1 in Ok S2) =
    (let* r := r2 in let* S0 := config_step r.2 in sync_step S0)) as H.
  { intros r1 r2 ->. destruct r2 as [r|]; [|done]. cbn. unfold config_step, sync_step.
    destruct (match ga_config_out a with Some _ => _ | None => _ end); [|done]. cbn.
    by destruct (match ga_sync_deps a with Some _ => _ | None => _ end). }
  apply H. destruct (ga_header_path a); [done|]. unfold write_autoconf.
  by destruct (env !! "KCONFIG_AUTOHEADER").
Qed.

Lemma same_world S W : se_world S = W → set_world S W = S.
Proof. by destruct S; cbn; intros <-. Qed.

(** What a step on the session [S] with the file [f] did, and that it does
    nothing in a session with the same values and the file in place. *)
Definition step_done (step : Ses → res Ses) (f : option path) (S S1 : Ses) : Prop :=
  S1 = set_world S (se_world S1) ∧
  (∀ q, f ≠ Some q → keeps (se_world S) (se_world S1) q) ∧
  ∀ S', se_lst S' = se_lst S → (∀ q, f = Some q → keeps (se_world S1) (se_world S') q) → step S' = Ok S'.

Lemma header_step_done S m S1 :
  texts_ok (conf S) → header_step S = Ok (m, S1) →
  step_done (λ S, let* r := header_step S in Ok r.2) (Some (norm header_path)) S S1.
Proof using HK.
  intros Htx Hs. unfold header_step, write_autoconf in *. rewrite HK in *. cbn [from_option id] in *.
  apply res_bind_ok in Hs as (t & Et & Hs). unfold write_changed in Hs.
  apply res_bind_ok in Hs as ([b W1] & Ew & [= _ <-]). split_and!; [done| |]; cbn [snd se_world set_world].
  - intros q Hq. eapply write_if_changed_keeps; [done|]. congruence.
  - intros S' Hl HW. unfold conf in *. rewrite Hl, Et. cbn [res_bind]. unfold write_changed.
    rewrite write_if_changed_same; [cbn [res_bind snd fst]; by rewrite same_world|]. eapply contents_eq_keeps; [by apply HW|].
    eapply write_if_changed_eq; [|done]. by eapply tx_header.
Qed.

Lemma config_step_done S S1 :
  texts_ok (conf S) → config_step S = Ok S1 → step_done config_step (norm <$> ga_config_out a) S S1.
Proof using HK.
  intros Htx Hs. unfold step_done, config_step in *. destruct (ga_config_out a) as [f|].
  2: { injection Hs as <-. split_and!; [by rewrite same_world|by intros ??|done]. }
  unfold write_config in *. rewrite HK in *. cbn [from_option id fmap option_fmap option_map] in *.
  apply res_bind_ok in Hs as ([m S2] & Hs & [= <-]). apply res_bind_ok in Hs as (t & Et & Hs). cbn [snd].
  assert (S2 = set_world S (se_world S2) ∧ (∀ q, norm f ≠ q → keeps (se_world S) (se_world S2) q) ∧
    contents_eq (se_world S2) f t = true) as (E & Hk & Hc).
  { revert Hs. destruct (contents_eq (se_world S) f t) eqn:E; intros Hs.
    - injection Hs as _ <-. split_and!; [by rewrite same_world|by intros ??|done].
    - apply res_bind_ok in Hs as (W & Ew & [= _ <-]). split_and!; [done| |].
      + intros q Hq. by eapply write_path_keeps.
      + apply contents_eq_iff. exists t. split; [by eapply write_path_read|].
        apply universal_nl_id. by eapply tx_config. }
  split_and!; [done|intros q Hq; apply Hk; congruence|]. intros S' Hl HW. unfold conf in *. rewrite Hl, Et.
  cbn [res_bind]. by rewrite (contents_eq_keeps _ _ _ _ (HW _ eq_refl) Hc).
Qed.

Lemma sync_step_done S S1 :
  texts_ok (conf S) → apart → sync_step S = Ok S1 →
  S1 = set_world S (se_world S1) ∧ sync_step S1 = Ok S1 ∧
  ∀ q, (∀ p, ga_sync_deps a = Some p → ¬ norm p `prefix_of` q) → keeps (se_world S) (se_world S1) q.
Proof using HK.
  intros Htx Hap Hs. unfold sync_step in *. destruct (ga_sync_deps a) as [p|] eqn:Ep.
  2: { injection Hs as <-. split_and!; [by rewrite same_world|done|by intros ??]. }
  destruct (ap_sync Hap p Ep) as [Hp _]. unfold sync_deps in *. rewrite HK in *.
  apply res_bind_ok in Hs as (W & Es & [= <-]).
  destruct (sync_parts p _ _ Hp (tx_writable _ Htx) _ _ Es) as (Hi & He & Hc).
  split_and!; [done| |intros q Hq; by apply Hi, Hq]. cbn [se_world set_world].
  change (conf (set_world S W)) with (conf S).
  by rewrite (sync_again p _ _ Hp (tx_writable _ Htx)).
Qed.
End genconfig.

(** C18.  Running genconfig again changes nothing: if the configuration file
    exists, the files written are apart from it and from each other, and the
    values can be written, then after a successful run (which may have
    written a header, a .config file and the dependency files) a second run
    of a fresh session finds everything up to date: no file is opened for
    writing, and the result is the same. *)
Theorem genconfig_rerun env K vals a S S1 t :
  kc_prefix K = CONFIG → ga_file_list a = None → ga_env_list a = None → apart env a →
  read_path (se_world S) (standard_config_filename env) = Ok t →
  (∀ L, KConf.load_config CONFIG true t (se_lst S) = Ok L → texts_ok K vals (l_conf L)) →
  genconfig env K vals a S = Ok S1 →
  genconfig env K vals a (set_world S (se_world S1)) = Ok S1.
Proof.
  intros HK H1 H2 Hap Ht Htx HS. rewrite genconfig_steps in HS |- * by done.
  assert (∀ W, read_path W (standard_config_filename env) = Ok t →
    load_config env K vals None true (set_world S W) =
    (let* L := KConf.load_config CONFIG true t (se_lst S) in
     Ok ("Loaded configuration " +:+ sq (standard_config_filename env), set_lst (set_world S W) L))) as Hload.
  { intros W HW. unfold load_config, load_msg, load_file, open_config. cbn [se_world set_world se_lst].
    assert (exists_path W (standard_config_filename env) = true) as ->.
    { unfold exists_path, exists_at. unfold read_path, read_at in HW. destruct (String.eqb _ ""); [done|].
      cbn. apply bool_decide_eq_true. by destruct (at_path W _) as [[]|]. }
    cbn [orb]. rewrite HW. cbn [res_bind snd]. rewrite HK. by destruct (KConf.load_config _ _ _ _). }
  assert (HS0 := Hload _ Ht). rewrite (same_world S) in HS0 by done. rewrite HS0 in HS. clear HS0.
  apply res_bind_ok in HS as (r & Hr & HS). apply res_bind_ok in Hr as (L & HL & [= <-]).
  specialize (Htx L HL). cbn [snd] in HS. set (Sa := set_lst S L) in *.
  apply res_bind_ok in HS as ([m Sb] & Hh & HS). apply res_bind_ok in HS as (Sc & Hc & HS). cbn [snd] in *.
  destruct (header_step_done env K vals a HK Sa m Sb Htx Hh) as (Eb & Kb & Qb).
  assert (texts_ok K vals (conf Sb)) as Htb by (by rewrite Eb).
  destruct (config_step_done env K vals a HK Sb Sc Htb Hc) as (Ec & Kc0 & Qc).
  assert (texts_ok K vals (conf Sc)) as Htc by (by rewrite Ec).
  destruct (sync_step_done env K vals a HK Sc S1 Htc Hap HS) as (E1 & Q1 & K1).
  assert (∀ q, (∀ p, ga_sync_deps a = Some p → ¬ norm p `prefix_of` q) → norm <$> ga_config_out a ≠ Some q →
    keeps (se_world Sb) (se_world S1) q) as Hkeep.
  { intros q Hq Hf. eapply keeps_file_trans; [by apply Kc0|by apply K1]. }
  assert (norm <$> ga_config_out a ≠ Some (norm (standard_config_filename env)) ∧
          norm <$> ga_config_out a ≠ Some (norm (header_path env a))) as [N1 N2].
  { destruct (ga_config_out a) as [f|] eqn:Ef; [|done]. destruct (ap_config _ _ Hap f Ef). split; intros [= E]; congruence. }
  assert (Hkh : keeps (se_world Sb) (se_world S1) (norm (header_path env a))).
  { apply Hkeep; [|done]. intros p Hp. by destruct (ap_sync _ _ Hap p Hp) as (? & ? & ? & ?). }
  rewrite (Hload (se_world S1)).
  2: { apply (read_path_keeps (se_world S)); [|done]. eapply keeps_file_trans; [apply Kb|apply Hkeep; [|done]].
       - intros [= E]. destruct (ap_header _ _ Hap); congruence.
       - intros p Hp. by destruct (ap_sync _ _ Hap p Hp) as (? & ? & ? & ?). }
  rewrite HL. cbn [res_bind snd].
  assert (set_lst (set_world S (se_world S1)) L = S1) as -> by (by rewrite E1, Ec, Eb).
  assert (se_lst S1 = se_lst Sa) as El by (by rewrite E1, Ec, Eb).
  specialize (Qb S1 El (λ q Hq, eq_rect _ (keeps _ _) Hkh q ltac:(congruence))).
  destruct (header_step env K vals a S1) as [[m' S2]|]; [|done]. cbn [res_bind snd] in *. injection Qb as ->.
  rewrite Qc; [done|by rewrite E1, Ec|]. intros q Hq. apply K1. intros p Hp.
  destruct (ga_config_out a) as [f|] eqn:Ef; [|done]. injection Hq as <-.
  destruct (ap_sync _ _ Hap p Hp) as (? & ? & ? & Hf). by apply Hf.
Qed.

(** ** Concrete sessions *)

Definition demo_kc : Kc := mkKc CONFIG "" "" "" demo_nodes ["Kconfig"] [].
Definition demo_session (C : Conf) (m : gmap path node) : Ses := mkSes (mkLst C []) true true (mkWorld m []).
Notation demo_vals := (λ C, KSym.vals C 5).

Lemma save_load_round_trip_witness :
  ∃ S1 S2, write_config ∅ demo_kc demo_vals (Some ".config") (Some (lines_text ["# header"])) true
      (demo_session demo_before ∅) = Ok ("Configuration saved to '.config'", S1) ∧
    load_config ∅ demo_kc demo_vals (Some ".config") true (mkSes (mkLst demo_other []) true true (se_world S1)) =
      Ok ("Loaded configuration '.config'", S2) ∧
    ∃ s', cf_syms (conf S2) !! "S" = Some s' ∧ s_user_value s' = Some (UStr "a\b").
Proof.
  destruct (write_config ∅ demo_kc demo_vals (Some ".config") (Some (lines_text ["# header"])) true
      (demo_session demo_before ∅)) as [[m S1]|] eqn:E; [|vm_compute in E; discriminate E].
  assert (m = "Configuration saved to '.config'") as -> by (vm_compute in E; by injection E).
  exists S1. destruct (save_load_round_trip ∅ demo_kc demo_vals (demo_session demo_before ∅) S1 ".config" ["# header"]
    true "Configuration saved to '.config'" demo_other [] true true) as (S2 & HL & _ & _ & H).
  - reflexivity.
  - apply demo_io_frame.
  - apply demo_io_ok.
  - apply demo_io_unique.
  - exact demo_names.
  - repeat constructor.
  - intros n Hn. vm_compute in Hn. repeat (apply elem_of_cons in Hn as [->|Hn]); [by eexists..|].
    by apply not_elem_of_nil in Hn.
  - exact demo_values.
  - repeat constructor.
  - exact E.
  - exists S2. split; [reflexivity|]. split; [exact HL|].
    destruct (H "S" (mkSymbol STRING [Some ("prompt", ky)] [] [] kn kn ky None None
      (Some (UStr "a\b")) false) "a\b" true) as (s' & Hs & _ & Hu).
    + right. left.
    + vm_compute. reflexivity.
    + vm_compute. reflexivity.
    + exists s'. split; [exact Hs|exact Hu].
Defined.

Lemma write_config_saves_witness :
  ∃ W', write_config ∅ demo_kc demo_vals (Some ".config") None true
      (demo_session demo_before {[[".config"] := File "old"]}) =
      Ok ("Configuration saved to '.config'", set_world (demo_session demo_before {[[".config"] := File "old"]}) W') ∧
    at_path W' [".config.old"] = Some (File "old") ∧ w_log W' = [[".config"]].
Proof.
  edestruct (write_config_saves ∅ demo_kc demo_vals (demo_session demo_before {[[".config"] := File "old"]}) ".config" None
    true) as (m & W' & E & _ & H & _); [vm_compute; reflexivity|reflexivity|by split|reflexivity|done|done|].
  exists W'. assert (m = "Configuration saved to '.config'") as -> by (vm_compute in E; by injection E).
  split; [exact E|]. vm_compute in H. destruct H as (_ & HL & HO). split; [exact HO|exact HL].
Defined.

Definition demo_args : GenArgs := mkGenArgs None (Some "out.config") (Some "deps/") None None.
Definition demo_gen : Ses := demo_session demo_other {[[".config"] := File (line "CONFIG_B=y")]}.

Lemma demo_names_nodup : NoDup ["B"; "S"; "I"].
Proof. repeat constructor; set_solver. Qed.
Lemma demo_names_cases n : n ∈ ["B"; "S"; "I"] → n = "B" ∨ n = "S" ∨ n = "I".
Proof. set_solver. Qed.

Lemma genconfig_rerun_witness :
  ∃ S1, genconfig ∅ demo_kc demo_vals demo_args demo_gen = Ok S1 ∧
    w_log (se_world S1) = [["config.h"]; ["out.config"]; ["deps"; "b.h"]; ["deps"; "s.h"]; ["deps"; "i.h"]; ["deps"; "auto.conf"]] ∧
    genconfig ∅ demo_kc demo_vals demo_args (set_world demo_gen (se_world S1)) = Ok S1.
Proof.
  destruct (genconfig ∅ demo_kc demo_vals demo_args demo_gen) as [S1|] eqn:E; [|vm_compute in E; discriminate E].
  exists S1. split; [reflexivity|]. split; [vm_compute in E; injection E as <-; reflexivity|].
  apply (genconfig_rerun ∅ demo_kc demo_vals demo_args demo_gen S1 (line "CONFIG_B=y")).
  - reflexivity.
  - reflexivity.
  - reflexivity.
  - split; [vm_compute; discriminate|intros f [= <-]; split; vm_compute; discriminate|].
    intros p [= <-]. split; [done|]. split_and!; try intros f [= <-]; vm_compute; intros [? ?]; discriminate.
  - reflexivity.
  - intros L HL. vm_compute in HL. injection HL as <-. split.
    + split; [exact demo_names_nodup|]. intros n Hn.
      destruct (demo_names_cases n Hn) as [->|[->| ->]]; (split; [by split|]);
        (eexists _, _, _; split; [vm_compute; reflexivity|]; split; [vm_compute; reflexivity|by split]).
    + intros t Ht. vm_compute in Ht. injection Ht as <-. reflexivity.
    + intros t Ht. vm_compute in Ht. injection Ht as <-. reflexivity.
  - exact E.
Defined.
End KToolsSpec.
