(* ===== verification/MNode.v ===== *)
(** * tools/kconfig/menuconfig.py: menu nodes and their texts

    A node of the finished menu tree is named by its path from the top node,
    innermost index first, so that the parent of a node is the tail of its
    path.  [_visible], [_shown_nodes], [_parent_menu], [_changeable], and the
    text of a menu entry ([_node_str]). *)
From S2P Require Import Prelude Hex PyStr KExpr KSym KFinal KPrint.

Module MNode.
Import Hex PyStr KExpr KSym KFinal KPrint.

Notation npath := (list nat).

Section tree.
Context (top : tnode).

Definition data (t : tnode) : mdata := match t with TNode d _ => d end.
Definition children (t : tnode) : list tnode := match t with TNode _ l => l end.

Fixpoint node_at (p : npath) : option tnode :=
  match p with
  | [] => Some top
  | i :: p => match node_at p with Some t => children t !! i | None => None end
  end.
Definition get_node (p : npath) : res tnode :=
  match node_at p with Some t => Ok t | None => Err AttributeError end.

(** The paths of all nodes in definition order, and those of an item
    ([Symbol.nodes], [Choice.nodes]). *)
Fixpoint paths_below (p : npath) (t : tnode) : list npath :=
  match t with
  | TNode _ l =>
      (fix go (i : nat) (l : list tnode) : list npath :=
         match l with
         | [] => []
         | t :: l => (i :: p) :: paths_below (i :: p) t ++ go (S i) l
         end) 0 l
  end.
Definition has_item (it : mitem) (p : npath) : bool :=
  match node_at p with Some t => bool_decide (m_item (data t) = it) | None => false end.
Definition nodes_of (it : mitem) : list npath := filter (λ p, has_item it p = true) (paths_below [] top).

(** [_parent_menu] *)
Fixpoint up_menu (p : npath) : res npath :=
  match node_at p with
  | None => Err AttributeError
  | Some t => if is_menuconfig (data t) then Ok p
              else match p with [] => Err AttributeError | _ :: p => up_menu p end
  end.
Definition parent_menu (p : npath) : res npath :=
  match p with [] => Err AttributeError | _ :: p => up_menu p end.

Section values.
Context (C : Conf) (V : Vals) (show_all : bool).

(** [_visible] *)
Definition visible (d : mdata) : res bool :=
  match m_prompt d with
  | None => Ok false
  | Some (_, cond) =>
      let* c := value C V cond in
      if zero c then Ok false
      else match m_item d with
           | MMenu => let* v := value C V (m_visibility d) in Ok (negb (zero v))
           | _ => Ok true
           end
  end.

Definition is_symbol (it : mitem) : bool := match it with MSym _ => true | _ => false end.

(** [rec] of [_shown_nodes]: one node, and a list of siblings from index
    [i] on. *)
Definition shown_list (shown_node : npath → tnode → res (list npath)) (p : npath)
    : nat → list tnode → res (list npath) :=
  fix go (i : nat) (l : list tnode) : res (list npath) :=
    match l with
    | [] => Ok []
    | t :: l => let* a := shown_node (i :: p) t in let* b := go (S i) l in Ok (a ++ b)
    end.

Fixpoint shown_node (p : npath) (t : tnode) : res (list npath) :=
  match t with
  | TNode d l =>
      let* vis := visible d in
      if vis || show_all then
        match l with
        | [] => Ok [p]
        | _ => if is_menuconfig d then Ok [p]
               else let* sub := shown_list shown_node p 0 l in Ok (p :: sub)
        end
      else
        match l with
        | [] => Ok []
        | _ =>
            if is_symbol (m_item d) then
              let* sub := shown_list shown_node p 0 l in
              Ok (match sub with [] => [] | _ => p :: (if is_menuconfig d then [] else sub) end)
            else Ok []
        end
  end.
Definition shown_below (p : npath) (t : tnode) : res (list npath) := shown_list shown_node p 0 (children t).

Definition item_at (p : npath) : option mitem := m_item ∘ data <$> node_at p.
Definition sym_at (p : npath) : option string :=
  match item_at p with Some (MSym n) => Some n | _ => None end.

(** The nodes of a choice at all its locations; symbols once. *)
Definition add_choice_node (here : bool) (sr : list string * list npath) (p : npath) : list string * list npath :=
  let '(seen, res) := sr in
  match sym_at p with
  | Some n => if bool_decide (n ∉ seen) || here then (n :: seen, res ++ [p]) else (seen, res)
  | None => (seen, res ++ [p])
  end.
Definition choice_location (menu : npath) (sr : list string * list npath) (q : npath)
    : res (list string * list npath) :=
  let* t := get_node q in
  let* l := shown_below q t in
  Ok (foldl (add_choice_node (bool_decide (q = menu))) sr l).

(** [_shown_nodes] *)
Definition shown_nodes (menu : npath) : res (list npath) :=
  let* t := get_node menu in
  match m_item (data t) with
  | MChoice _ _ =>
      let* l := shown_below menu t in
      let* sr := res_fold (choice_location menu) (omap sym_at l, []) (nodes_of (m_item (data t))) in
      Ok sr.2
  | _ => shown_below menu t
  end.

(** ** Symbols and choices *)

Definition orig_type_of (it : mitem) : styp :=
  match it with
  | MSym n => match cf_syms C !! n with Some s => s_orig_type s | None => UNKNOWN end
  | MChoice id _ => match cf_choices C !! id with Some c => c_orig_type c | None => UNKNOWN end
  | _ => UNKNOWN
  end.
Definition type_of (it : mitem) : res styp :=
  match it with
  | MSym n => match cf_syms C !! n with Some s => sym_type V s | None => Ok UNKNOWN end
  | MChoice id _ => match cf_choices C !! id with Some c => choice_type V c | None => Ok UNKNOWN end
  | _ => Ok UNKNOWN
  end.
Definition assignable (it : mitem) : res (list nat) :=
  match it with
  | MSym n => match cf_syms C !! n with Some s => sym_assignable C V n s | None => Ok [] end
  | MChoice id _ => match cf_choices C !! id with Some c => choice_assignable V id c | None => Ok [] end
  | _ => Err AttributeError
  end.
Definition as_item (it : mitem) : option item :=
  match it with
  | MSym n => Some (SymItem false n)
  | MChoice id nm => Some (ChoiceItem id nm)
  | _ => None
  end.
Definition tri_value (it : mitem) : res nat :=
  match as_item it with Some i => item_tri C V i | None => Err AttributeError end.
Definition str_value (it : mitem) : res string :=
  match as_item it with Some i => KSym.item_str C V i | None => Err AttributeError end.
Definition choice_id_of (n : string) : option nat := cf_syms C !! n ≫= s_choice.

(** [_is_y_mode_choice_sym] *)
Definition is_y_mode_choice_sym (it : mitem) : res bool :=
  match it with
  | MSym n => match choice_id_of n with
              | Some _ => let* v := item_vis C V (SymItem false n) in Ok (Nat.eqb v 2)
              | None => Ok false
              end
  | _ => Ok false
  end.

Definition text_type (t : styp) : bool := match t with STRING | INT | HEX => true | _ => false end.

(** [_changeable] *)
Definition changeable (d : mdata) : res bool :=
  match m_item d with
  | MSym _ | MChoice _ _ =>
      match m_prompt d with
      | None => Ok false
      | Some (_, cond) =>
          let* c := value C V cond in
          if zero c then Ok false
          else if text_type (orig_type_of (m_item d)) then Ok true
          else
            let* a := assignable (m_item d) in
            if Nat.ltb 1 (length a) then Ok true else is_y_mode_choice_sym (m_item d)
      end
  | _ => Ok false
  end.

(** ** Texts *)

(** [_value_str] *)
Definition tri_mark (v : nat) : string := match v with 0 => " " | 1 => "M" | _ => "*" end.
Definition value_str (it : mitem) : res string :=
  match it with
  | MSym _ | MChoice _ _ =>
      match orig_type_of it with
      | UNKNOWN => Ok ""
      | STRING | INT | HEX => let* v := str_value it in Ok ("(" +:+ v +:+ ")")
      | _ =>
          let* y := is_y_mode_choice_sym it in
          if (y : bool) then
            match it with
            | MSym n =>
                match choice_id_of n with
                | Some id => let* sel := item_sel C V id in
                             Ok (if bool_decide (sel = Some n) then "(X)" else "( )")
                | None => Ok ""
                end
            | _ => Ok ""
            end
          else
            let* v := tri_value it in
            let* a := assignable it in
            if Nat.leb (length a) 1 then
              Ok (match it with MChoice _ _ => "" | _ => "-" +:+ tri_mark v +:+ "-" end)
            else
              let* t := type_of it in
              Ok (match t with
                  | BOOL => "[" +:+ tri_mark v +:+ "]"
                  | _ => if bool_decide (a = [1; 2]) then "{" +:+ tri_mark v +:+ "}"
                         else "<" +:+ tri_mark v +:+ ">"
                  end)
      end
  | _ => Ok ""
  end.

(** [_should_show_name] *)
Definition should_show_name (show_name : bool) (d : mdata) : bool :=
  match m_prompt d with
  | None => true
  | Some _ => show_name && match m_item d with MSym _ | MChoice _ _ => true | _ => false end
  end.

(** Levels between a node and its menu. *)
Fixpoint levels (p : npath) : nat :=
  match p with
  | [] => 0
  | _ :: p => match node_at p with
              | Some t => if is_menuconfig (data t) then 0 else S (levels p)
              | None => 0
              end
  end.
Definition SUBMENU_INDENT : nat := 4.

(** The prompt of the selected symbol: the one at this choice if there is
    one, otherwise the first. *)
Definition prompt_at (p : npath) : option string :=
  match node_at p with Some t => fst <$> m_prompt (data t) | None => None end.
Definition selected_prompt (p : npath) (n : string) : option string :=
  let nodes := nodes_of (MSym n) in
  match omap (λ q, if bool_decide (tail q = p ∧ q ≠ []) then prompt_at q else None) nodes with
  | x :: _ => Some x
  | [] => head (omap prompt_at nodes)
  end.

(** "(NEW)" after the prompt. *)
Definition is_new (n : string) : res bool :=
  match cf_syms C !! n with
  | None => Ok false
  | Some s =>
      match s_user_value s, s_orig_type s with
      | Some _, _ | _, UNKNOWN => Ok false
      | None, _ => match s_choice s with
                   | Some id => let* v := item_tri C V (choice_item id) in Ok (negb (Nat.eqb v 2))
                   | None => Ok true
                   end
      end
  end.

(** [_node_str] *)
Definition name_part (show_name : bool) (d : mdata) : string :=
  if should_show_name show_name d then
    match m_item d with
    | MSym n => " <" +:+ n +:+ ">"
    | it => match as_item it with Some i => " " +:+ standard_sc_expr_str i | None => "" end
    end
  else "".
Definition prompt_part (d : mdata) : res string :=
  match m_prompt d with
  | None => Ok ""
  | Some (text, _) =>
      match m_item d with
      | MComment => Ok (" *** " +:+ text +:+ " ***")
      | MSym n => let* new := is_new n in Ok (" " +:+ text +:+ if (new : bool) then " (NEW)" else "")
      | _ => Ok (" " +:+ text)
      end
  end.
Definition selection_part (p : npath) (d : mdata) : res string :=
  match m_item d with
  | MChoice id _ =>
      let* v := tri_value (m_item d) in
      if Nat.eqb v 2 then
        let* sel := item_sel C V id in
        Ok (match sel with
            | Some n => match selected_prompt p n with Some x => " (" +:+ x +:+ ")" | None => "" end
            | None => ""
            end)
      else Ok ""
  | _ => Ok ""
  end.
Definition node_str (show_name : bool) (p : npath) : res string :=
  let* t := get_node p in
  let d := data t in
  let* v := value_str (m_item d) in
  let* pr := prompt_part d in
  let* sel := selection_part p d in
  let* arrow := if is_menuconfig d then
                  let* l := shown_nodes p in Ok (match l with [] => "  ----" | _ => "  --->" end)
                else Ok "" in
  Ok (ljust (3 + SUBMENU_INDENT * levels p) v +:+ name_part show_name d +:+ pr +:+ sel +:+ arrow).
End values.
End tree.
End MNode.
