(* ===== verification/MState.v ===== *)
(** * tools/kconfig/menuconfig.py: the state of the interface

    The global variables of the program as a record, moving the cursor,
    entering, leaving and jumping to menus, show-all mode, resizing, and
    changing values.  A row number or index that Python computes in integers
    is a natural number here where the source keeps it from being negative. *)
From S2P Require Import Prelude Hex PyStr KExpr KSym KConf KFinal KPrint Files KTools MNode.

Module MState.
Import Hex PyStr KExpr KSym KFinal KPrint KTools MNode.

Notation npath := (list nat).

(** [u_ses] is [_kconf] with the files; [u_rows] is [_parent_screen_rows],
    last element first; [u_height] the height of [_menu_win], [u_screen] the
    height and width of the terminal. *)
Record Ui := mkUi {
  u_ses : Ses;
  u_cur : npath;
  u_shown : list npath;
  u_sel : nat;
  u_scroll : nat;
  u_rows : list nat;
  u_all : bool;
  u_help : bool;
  u_name : bool;
  u_conf_filename : string;
  u_minconf_filename : string;
  u_changed : bool;
  u_height : nat;
  u_screen : nat * nat
}.

Definition with_ses (u : Ui) (S : Ses) : Ui :=
  mkUi S (u_cur u) (u_shown u) (u_sel u) (u_scroll u) (u_rows u) (u_all u) (u_help u) (u_name u)
    (u_conf_filename u) (u_minconf_filename u) (u_changed u) (u_height u) (u_screen u).
Definition with_menu (u : Ui) (cur : npath) (shown : list npath) (sel scroll : nat) (rows : list nat) (all : bool) : Ui :=
  mkUi (u_ses u) cur shown sel scroll rows all (u_help u) (u_name u)
    (u_conf_filename u) (u_minconf_filename u) (u_changed u) (u_height u) (u_screen u).
Definition with_pos (u : Ui) (sel scroll : nat) : Ui :=
  with_menu u (u_cur u) (u_shown u) sel scroll (u_rows u) (u_all u).
Definition with_modes (u : Ui) (help name : bool) : Ui :=
  mkUi (u_ses u) (u_cur u) (u_shown u) (u_sel u) (u_scroll u) (u_rows u) (u_all u) help name
    (u_conf_filename u) (u_minconf_filename u) (u_changed u) (u_height u) (u_screen u).
Definition with_files (u : Ui) (conf minconf : string) (changed : bool) : Ui :=
  mkUi (u_ses u) (u_cur u) (u_shown u) (u_sel u) (u_scroll u) (u_rows u) (u_all u) (u_help u) (u_name u)
    conf minconf changed (u_height u) (u_screen u).
Definition with_window (u : Ui) (scroll height : nat) : Ui :=
  mkUi (u_ses u) (u_cur u) (u_shown u) (u_sel u) scroll (u_rows u) (u_all u) (u_help u) (u_name u)
    (u_conf_filename u) (u_minconf_filename u) (u_changed u) height (u_screen u).
Definition with_screen (u : Ui) (screen : nat * nat) : Ui :=
  mkUi (u_ses u) (u_cur u) (u_shown u) (u_sel u) (u_scroll u) (u_rows u) (u_all u) (u_help u) (u_name u)
    (u_conf_filename u) (u_minconf_filename u) (u_changed u) (u_height u) screen.

Definition SCROLL_OFFSET : nat := 5.
Definition PG_JUMP : nat := 6.
Definition SHOW_HELP_HEIGHT : nat := 8.
Definition MAIN_HELP_HEIGHT : nat := 4.

(** [list.index] *)
Definition index_in (p : npath) (l : list npath) : res nat :=
  match list_find (p =.) l with Some (i, _) => Ok i | None => Err ValueError end.

(** [_max_scroll] *)
Definition max_scroll (len height : nat) : nat := len - height.

(** ** Moving the cursor *)

(** [_select_next_menu_entry] *)
Definition select_next (u : Ui) : Ui :=
  if Nat.ltb (S (u_sel u)) (length (u_shown u)) then
    let sel := S (u_sel u) in
    let scroll := if Nat.leb (u_scroll u + u_height u) (sel + SCROLL_OFFSET) &&
                     Nat.ltb (u_scroll u) (max_scroll (length (u_shown u)) (u_height u))
                  then S (u_scroll u) else u_scroll u in
    with_pos u sel scroll
  else u.

(** [_select_prev_menu_entry] *)
Definition select_prev (u : Ui) : Ui :=
  match u_sel u with
  | O => u
  | S sel => with_pos u sel (if Nat.ltb sel (u_scroll u + SCROLL_OFFSET) then u_scroll u - 1 else u_scroll u)
  end.

Definition select_last (u : Ui) : Ui :=
  with_pos u (length (u_shown u) - 1) (max_scroll (length (u_shown u)) (u_height u)).
Definition select_first (u : Ui) : Ui := with_pos u 0 0.

(** [_center_vertically] *)
Definition center_vertically (u : Ui) : Ui :=
  with_pos u (u_sel u)
    (Nat.min (u_sel u - u_height u / 2) (max_scroll (length (u_shown u)) (u_height u))).

(** [_resize_main] *)
Definition resize_main (u : Ui) : Ui :=
  let help := if u_help u then SHOW_HELP_HEIGHT else MAIN_HELP_HEIGHT in
  let height := Nat.max 1 (fst (u_screen u) - help - 3) in
  with_window u (if Nat.leb height (u_sel u - u_scroll u) then S (u_sel u) - height else u_scroll u) height.

Section ui.
Context (top : tnode) (vals : Conf → Vals).

Definition uconf (u : Ui) : Conf := conf (u_ses u).
Definition uvals (u : Ui) : Vals := vals (uconf u).
Definition shown_in (u : Ui) (all : bool) (menu : npath) : res (list npath) :=
  shown_nodes top (uconf u) (uvals u) all menu.
Definition node (p : npath) : res mdata := let* t := get_node top p in Ok (data t).

(** [_shown[_sel_node_i]] *)
Definition sel_node (u : Ui) : res npath := index (u_shown u) (u_sel u).

(** ** Menus *)

(** [_select_selected_choice_sym] *)
Definition select_selected_choice_sym (u : Ui) : res Ui :=
  let* d := node (u_cur u) in
  match m_item d with
  | MChoice id _ =>
      let* sel := item_sel (uconf u) (uvals u) id in
      match sel with
      | None => Ok u
      | Some n =>
          match list_find (λ p, p ∈ u_shown u) (nodes_of top (MSym n)) with
          | Some (_, p) => let* i := index_in p (u_shown u) in Ok (center_vertically (with_pos u i (u_scroll u)))
          | None => Ok u
          end
      end
  | _ => Ok u
  end.

Definition is_choice (it : mitem) : bool := match it with MChoice _ _ => true | _ => false end.

(** [_enter_menu] *)
Definition enter_menu (menu : npath) (u : Ui) : res (bool * Ui) :=
  let* d := node menu in
  if negb (is_menuconfig d) then Ok (false, u)
  else
    let* sub := shown_in u (u_all u) menu in
    match sub with
    | [] => Ok (false, u)
    | _ =>
        let u := with_menu u menu sub 0 0 ((u_sel u - u_scroll u) :: u_rows u) (u_all u) in
        if is_choice (m_item d) then let* u := select_selected_choice_sym u in Ok (true, u) else Ok (true, u)
    end.

(** [_leave_menu]; the top menu has no menu around it. *)
Definition leave_menu (u : Ui) : res Ui :=
  match u_cur u with
  | [] => Ok u
  | cur =>
      let* parent := parent_menu top cur in
      let* shown := shown_in u (u_all u) parent in
      let* i := index_in cur shown in
      match u_rows u with
      | row :: rows => Ok (with_menu u parent shown i (i - Nat.min row (u_height u - 1)) rows (u_all u))
      | [] => Ok (center_vertically (with_menu u parent shown i (u_scroll u) [] (u_all u)))
      end
  end.

(** [_toggle_show_all]: the node to select is the last one at or before the
    selected one that is still shown, or else the first one after it. *)
Definition toggle_show_all (u : Ui) : res Ui :=
  let* new := shown_in u (negb (u_all u)) (u_cur u) in
  let before := rev (take (S (u_sel u)) (u_shown u)) in
  let after := drop (S (u_sel u)) (u_shown u) in
  match list_find (λ p, p ∈ new) (before ++ after) with
  | Some (_, p) =>
      let* i := index_in p new in
      Ok (with_menu u (u_cur u) new i (i - (u_sel u - u_scroll u)) (u_rows u) (negb (u_all u)))
  | None => Ok (with_menu u (u_cur u) (u_shown u) (u_sel u) (u_scroll u) (u_rows u) true)
  end.

(** [_jump_to] *)
Definition jump_to (p : npath) (u : Ui) : res Ui :=
  let* t := get_node top p in
  let it := m_item (data t) in
  let into := (is_choice it || bool_decide (it = MMenu)) &&
              match MNode.children t with [] => false | _ => true end in
  let target := if into then 0 :: p else p in
  let* cur := if into then Ok p else parent_menu top p in
  let* shown := shown_in u (u_all u) cur in
  let* sa := if bool_decide (target ∈ shown) then Ok (shown, u_all u)
             else let* shown := shown_in u true cur in Ok (shown, true) in
  let* i := index_in target sa.1 in
  let u' := with_menu u cur sa.1 i (u_scroll u) [] sa.2 in
  let* u' := if into && negb (u_all u) && sa.2 then toggle_show_all u' else Ok u' in
  let u' := center_vertically u' in
  if into && is_choice it then select_selected_choice_sym u' else Ok u'.

(** ** Changing values *)

(** [_update_menu] *)
Definition update_menu (u : Ui) : res Ui :=
  let* p := sel_node u in
  let* shown := shown_in u (u_all u) (u_cur u) in
  let* i := index_in p shown in
  Ok (with_menu u (u_cur u) shown i (i - (u_sel u - u_scroll u)) (u_rows u) (u_all u)).

Definition set_conf (u : Ui) (C : Conf) : Ui :=
  with_ses u (set_lst (u_ses u) (KConf.mkLst C (KConf.l_missing (se_lst (u_ses u))))).

(** [set_value] of a symbol or choice, with the text of a value. *)
Definition set_sc_value (C : Conf) (it : mitem) (v : string) : Conf :=
  match it with
  | MSym n => (set_value C n (UStr v)).2
  | MChoice id _ => match STR_TO_TRI v with Some t => (choice_set_value C id t).2 | None => C end
  | _ => C
  end.

(** [_set_val] with the text of the value. *)
Definition set_val (it : mitem) (v : string) (u : Ui) : res Ui :=
  let* old := str_value (uconf u) (uvals u) it in
  if String.eqb v old then Ok u
  else
    let u := set_conf u (set_sc_value (uconf u) it v) in
    update_menu (with_files u (u_conf_filename u) (u_minconf_filename u) true).
Definition set_val_tri (it : mitem) (v : nat) (u : Ui) : res Ui := set_val it (TRI_TO_STR v) u.

(** [_set_sel_node_tri_val] *)
Definition set_sel_node_tri_val (v : nat) (u : Ui) : res Ui :=
  let* p := sel_node u in
  let* d := node p in
  match m_item d with
  | MSym _ | MChoice _ _ =>
      let* a := assignable (uconf u) (uvals u) (m_item d) in
      if bool_decide (v ∈ a) then set_val_tri (m_item d) v u else Ok u
  | _ => Ok u
  end.

(** [_change_node] of a bool or tristate symbol or of a choice: the value
    after the current one, with wrapping. *)
Definition next_value (it : mitem) (u : Ui) : res nat :=
  let* a := assignable (uconf u) (uvals u) it in
  match a with
  | [v] => Ok v
  | _ =>
      let* t := tri_value (uconf u) (uvals u) it in
      match list_find (t =.) a with
      | Some (i, _) => index a (S i mod length a)
      | None => Err ValueError
      end
  end.

(** [_check_valid]: the message when the text is refused. *)
Definition type_base (t : styp) : Z := match t with INT => 10 | _ => 16 end.
Fixpoint check_range (C : Conf) (V : Vals) (base : Z) (s : string) (ranges : list (item * item * expr))
    : res (option string) :=
  match ranges with
  | [] => Ok None
  | (low, high, cond) :: ranges =>
      let* c := value C V cond in
      if zero c then check_range C V base s ranges
      else
        let* ls := KSym.item_str C V low in
        let* hs := KSym.item_str C V high in
        let* l := int_base base ls in
        let* v := int_base base s in
        if (l <=? v)%Z then
          let* h := int_base base hs in
          Ok (if (v <=? h)%Z then None
              else Some (s +:+ " is outside the range " +:+ ls +:+ "-" +:+ hs))
        else Ok (Some (s +:+ " is outside the range " +:+ ls +:+ "-" +:+ hs))
  end.
Definition check_valid (u : Ui) (n : string) (s : string) : res (option string) :=
  match cf_syms (uconf u) !! n with
  | None => Ok None
  | Some y =>
      let t := s_orig_type y in
      if negb (INT_HEX t) then Ok None
      else match int_base (type_base t) s with
           | Err _ => Ok (Some ("'" +:+ s +:+ "' is a malformed " +:+ TYPE_TO_STR t +:+ " value"))
           | Ok _ => check_range (uconf u) (uvals u) (type_base t) s (s_ranges y)
           end
  end.

(** [_range_info] *)
Fixpoint range_text (C : Conf) (V : Vals) (ranges : list (item * item * expr)) : res (option string) :=
  match ranges with
  | [] => Ok None
  | (low, high, cond) :: ranges =>
      let* c := value C V cond in
      if zero c then range_text C V ranges
      else
        let* l := KSym.item_str C V low in
        let* h := KSym.item_str C V high in
        Ok (Some ("Range: " +:+ l +:+ "-" +:+ h))
  end.
Definition range_info (u : Ui) (n : string) : res (option string) :=
  match cf_syms (uconf u) !! n with
  | Some y => if INT_HEX (s_orig_type y) then range_text (uconf u) (uvals u) (s_ranges y) else Ok None
  | None => Ok None
  end.

(** [_needs_save] *)
Definition sym_outdated (C : Conf) (V : Vals) (prefix : string) (n : string) (s : Symbol) : res bool :=
  match s_user_value s with
  | None => let* cs := KConf.config_string prefix C V n s in Ok (negb (String.eqb cs ""))
  | Some (UTri v) => if BOOL_TRISTATE (s_orig_type s) then
                       let* t := sym_tri_value C V n s in Ok (negb (Nat.eqb t.1 v))
                     else Ok true
  | Some (UStr x) => if BOOL_TRISTATE (s_orig_type s) then Ok true
                     else let* t := sym_str_value C V n s in Ok (negb (String.eqb t.1 x))
  end.
Fixpoint any_outdated (C : Conf) (V : Vals) (prefix : string) (l : list (string * Symbol)) : res bool :=
  match l with
  | [] => Ok false
  | (n, s) :: l =>
      let* o := sym_outdated C V prefix n s in
      if (o : bool) then Ok true else any_outdated C V prefix l
  end.
Definition needs_save (prefix : string) (S : Ses) : res bool :=
  match KConf.l_missing (se_lst S) with
  | _ :: _ => Ok true
  | [] => any_outdated (conf S) (vals (conf S)) prefix (KConf.unique_syms (conf S))
  end.
End ui.
End MState.
