(* ===== verification/MInfo.v ===== *)
(** * tools/kconfig/menuconfig.py: the text of the information dialog

    [_info_str] and its helpers: name, prompts, type, value, help, direct
    dependencies, defaults, selects and implies, and the Kconfig definitions
    of the item of a node, with values next to the symbols. *)
From S2P Require Import Prelude Hex PyStr KExpr KSym KFinal KMenu KPrint KInit MNode.

Module MInfo.
Import Hex PyStr KExpr KSym KFinal KMenu KPrint KInit MNode.

Definition nl1 : string := String nl "".
Definition eol (s : string) : string := s +:+ nl1.
Definition catl {A} (f : A → string) (l : list A) : string := foldr (λ x r, f x +:+ r) "" l.
Definition spaces (n : nat) : string := String.string_of_list_ascii (replicate n " "%char).

(** [_indent] *)
Definition indent (s : string) (n : nat) : string := join nl1 (map (λ l, spaces n +:+ l) (split_char nl s)).

Section info.
(** The finished tree, what parsing and finalization left, and the values. *)
Context (top : tnode) (D : Df) (F : Fst) (C : Conf) (V : Vals).

(** [_name_and_val_str] *)
Definition name_and_val_str (i : item) : res string :=
  match i with
  | SymItem false n =>
      if is_num n then Ok (standard_sc_expr_str i)
      else match cf_syms C !! n with
           | Some s => match s_nodes s with
                       | [] => Ok (n +:+ "(undefined/n)")
                       | _ => let* v := KSym.item_str C V i in Ok (n +:+ "(=" +:+ v +:+ ")")
                       end
           | None => Ok (n +:+ "(undefined/n)")
           end
  | _ => Ok (standard_sc_expr_str i)
  end.
(** The text of an item whose value is known to be defined. *)
Definition nv (i : item) : string := match name_and_val_str i with Ok s => s | Err _ => "" end.

(** [_expr_str]: the value of each item has to be defined. *)
Definition expr_text (e : expr) : res string :=
  let* _ := res_map name_and_val_str (expr_items e) in Ok (expr_str nv e).
Definition is_tuple (e : expr) : bool := match e with EItem _ => false | _ => true end.
Definition tri_text (e : expr) : res string := let* v := value C V e in Ok (TRI_TO_STR v).

(** The data of the nodes of an item. *)
Definition nodes_data (it : mitem) : list mdata :=
  omap (λ p, data <$> node_at top p) (nodes_of top it).

Definition sc_name (it : mitem) : option string :=
  match it with MSym n => Some n | MChoice _ nm => nm | _ => None end.
Definition name_info (it : mitem) : string :=
  match sc_name it with
  | Some n => if String.eqb n "" then "" else eol ("Name: " +:+ n)
  | None => ""
  end.
Definition prompt_info (it : mitem) : string :=
  catl (λ d, match m_prompt d with Some p => eol ("Prompt: " +:+ p.1) | None => "" end) (nodes_data it).
Definition value_info (it : mitem) : res string :=
  let* v := str_value C V it in
  Ok (eol ("Value: " +:+ match orig_type_of C it with STRING => String quote (v +:+ String quote "") | _ => v end)).
Definition choice_syms_info (id : nat) (c : Choice) : res string :=
  let* sel := item_sel C V id in
  Ok (eol "Choice symbols:" +:+
      catl (λ n, eol ("  - " +:+ n +:+ if bool_decide (sel = Some n) then " (selected)" else "")) (c_syms c) +:+ nl1).
Definition help_info (it : mitem) : string :=
  nl1 +:+ catl (λ d, match node_help d with
                     | Some h => eol (eol "Help:") +:+ eol (eol (indent h 2))
                     | None => ""
                     end) (nodes_data it).

(** [_split_expr_info] *)
Fixpoint terms_info (n : nat) (op : string) (first : bool) (l : list expr) : res string :=
  match l with
  | [] => Ok ""
  | e :: l =>
      let* s := expr_text e in
      let* h := if is_tuple e then let* t := tri_text e in Ok ("  (=" +:+ t +:+ ")") else Ok "" in
      let* r := terms_info n op false l in
      Ok (eol (spaces n +:+ (if first then "  " else op) +:+ " " +:+ s +:+ h) +:+ r)
  end.
Definition split_expr_info (e : expr) (n : nat) : res string :=
  if Nat.ltb 1 (length (split_and e)) then terms_info n "&&" true (split_and e)
  else terms_info n "||" true (split_or e).

Definition direct_dep (it : mitem) : expr :=
  match it with
  | MSym n => p_direct_dep (get_sym F n)
  | MChoice id _ => pc_direct_dep (get_choice F id)
  | _ => ky
  end.
Definition direct_dep_info (it : mitem) : res string :=
  let e := direct_dep it in
  if decide (e = ky) then Ok ""
  else
    let* v := tri_text e in
    let* s := split_expr_info e 2 in
    Ok (eol ("Direct dependencies (=" +:+ v +:+ "):") +:+ eol s).

(** [_defaults_info] *)
Definition default_info (sym : bool) (vc : expr * expr) : res string :=
  let* v := if sym then
              let* s := expr_text vc.1 in
              if is_tuple vc.1 then let* t := tri_text vc.1 in Ok (s +:+ "  (=" +:+ t +:+ ")") else Ok s
            else match vc.1 with
                 | EItem (SymItem _ n) => Ok n
                 | _ => Err AttributeError
                 end in
  let* c := if decide (vc.2 = ky) then Ok ""
            else
              let* t := tri_text vc.2 in
              let* s := split_expr_info vc.2 4 in
              Ok (eol ("    Condition (=" +:+ t +:+ "):") +:+ s) in
  Ok (eol ("  - " +:+ v) +:+ c).
Definition defaults_count (it : mitem) : nat :=
  match it with
  | MSym n => length (p_defaults (get_sym F n))
  | MChoice id _ => length (pc_defaults (get_choice F id))
  | _ => 0
  end.
Definition nodes_all : list (mitem * mdata) := node_iter top.
Definition defaults_info (it : mitem) : res string :=
  match defaults_count it with
  | O => Ok ""
  | k =>
      let* l := res_map (default_info (is_symbol it)) (item_orig_defaults nodes_all it) in
      Ok (eol ((if Nat.ltb 1 k then "Defaults" else "Default") +:+ ":") +:+ catl id l +:+ nl1)
  end.

(** [_select_imply_info] *)
Definition select_name (e : expr) : res string :=
  match split_and e with
  | EItem (SymItem _ n) :: _ => Ok n
  | EItem (ChoiceItem _ nm) :: _ => Ok (default "None" nm)
  | _ => Err AttributeError
  end.
Fixpoint with_value (v : nat) (l : list expr) : res (list expr) :=
  match l with
  | [] => Ok []
  | e :: l =>
      let* x := value C V e in
      let* r := with_value v l in
      Ok (if Nat.eqb x v then e :: r else r)
  end.
Definition sis (e : expr) (v : nat) (title : string) : res string :=
  let* l := with_value v (split_or e) in
  match l with
  | [] => Ok ""
  | _ => let* ns := res_map select_name l in
         Ok (eol title +:+ catl (λ n, eol ("  - " +:+ n)) ns +:+ nl1)
  end.
Definition rev_info (e : expr) (verb : string) : res string :=
  if decide (e = kn) then Ok ""
  else
    let* a := sis e 2 ("Symbols currently y-" +:+ verb +:+ " this symbol:") in
    let* b := sis e 1 ("Symbols currently m-" +:+ verb +:+ " this symbol:") in
    let* c := sis e 0 ("Symbols currently n-" +:+ verb +:+ " this symbol (no effect):") in
    Ok (a +:+ b +:+ c).
Definition select_imply_info (n : string) : res string :=
  let p := get_sym F n in
  let* a := rev_info (p_rev_dep p) "selecting" in
  let* b := rev_info (p_weak_rev_dep p) "implying" in
  Ok (a +:+ b).

(** [_include_path_info], [_menu_path_info] *)
Definition arrow : string := " -> ".
Definition include_path_info (i : minfo) : string :=
  match i_include_path i with
  | [] => ""
  | l => eol ("Included via " +:+ join arrow (map (λ fl, fl.1 +:+ ":" +:+ pretty (fl.2 : nat)) l))
  end.
Definition prompt_or_name (d : mdata) : string :=
  match m_prompt d with
  | Some p => p.1
  | None => match as_item (m_item d) with Some i => standard_sc_expr_str i | None => "" end
  end.
Fixpoint menu_path (p : list nat) : string :=
  match p with
  | [] => ""
  | _ :: q => match q with
              | [] => ""
              | _ => menu_path q +:+ arrow +:+
                     match node_at top q with Some t => prompt_or_name (data t) | None => "" end
              end
  end.
Definition menu_path_info (p : list nat) : string := "(Top)" +:+ menu_path p.

(** [_kconfig_def_info] of the nodes at the given paths. *)
Definition def_info (p : list nat) : res string :=
  let* t := get_node top p in
  let d := data t in
  match m_info d with
  | None => Err AttributeError
  | Some i =>
      let* _ := res_map name_and_val_str (referenced d) in
      let* s := KPrint.node_str D F nv d in
      Ok (nl1 +:+ eol (nl1 +:+ "At " +:+ i_filename i +:+ ":" +:+ pretty (i_linenr i : nat)) +:+
          include_path_info i +:+ eol (eol ("Menu path: " +:+ menu_path_info p)) +:+ indent s 2)
  end.
Definition kconfig_def_info (ps : list (list nat)) : res string :=
  let title := eol ("Kconfig definition" +:+ (if Nat.ltb 1 (length ps) then "s" else "") +:+
                    ", with parent deps. propagated to 'depends on'") in
  let* l := res_map def_info ps in
  Ok (title +:+ String.string_of_list_ascii (replicate (String.length title - 1) "="%char) +:+ catl id l).

(** [_info_str] *)
Definition type_info (it : mitem) : res string :=
  let* t := type_of C V it in Ok (eol ("Type: " +:+ TYPE_TO_STR t)).
Definition info_str (p : list nat) : res string :=
  let* t := get_node top p in
  let it := m_item (data t) in
  match it with
  | MSym n =>
      let* ty := type_info it in
      let* v := value_info it in
      let* dd := direct_dep_info it in
      let* df := defaults_info it in
      let* si := select_imply_info n in
      let* kd := kconfig_def_info (nodes_of top it) in
      Ok (name_info it +:+ prompt_info it +:+ ty +:+ v +:+ help_info it +:+ dd +:+ df +:+ si +:+ kd)
  | MChoice id _ =>
      let* ty := type_info it in
      let* v := str_value C V it in
      let* cs := match cf_choices C !! id with Some c => choice_syms_info id c | None => Err AttributeError end in
      let* dd := direct_dep_info it in
      let* df := defaults_info it in
      let* kd := kconfig_def_info (nodes_of top it) in
      Ok (name_info it +:+ prompt_info it +:+ ty +:+ eol ("Mode: " +:+ v) +:+ help_info it +:+ cs +:+ dd +:+ df +:+ kd)
  | _ => kconfig_def_info [p]
  end.
End info.
End MInfo.
