(* ===== verification/MEdit.v ===== *)
(** * tools/kconfig/menuconfig.py: keys, text editing, and dialogs

    Keys as the terminal delivers them, [_edit_text], and programs that wait
    for keys.  A program runs on the state of the interface and the keys still
    to come; it returns, waits with no key left, or raises.  Loops run on
    fuel and give [Spin] when it runs out.  Every turn of a loop takes a key,
    so the number of keys bounds the turns. *)
From S2P Require Import Prelude Hex PyStr KExpr KSync MNode MState.

Module MEdit.
Import Hex PyStr MState.

(** [KResize] comes with the new height and width of the terminal. *)
Inductive key :=
  | KResize (h w : nat)
  | KDown | KUp | KLeft | KRight | KNPage | KPPage | KHome | KEnd | KBackspace | KDc
  | KChar (c : ascii)
  | KOther.
#[global] Instance key_eq_dec : EqDecision key.
Proof. solve_decision. Defined.

Definition ESC : ascii := "027".
Definition ctrl (n : nat) : key := KChar (ascii_of_nat n).

(** ** _edit_text *)

Definition is_word (c : ascii) : bool :=
  let n := nat_of_ascii c in
  (65 <=? n) && (n <=? 90) || (97 <=? n) && (n <=? 122) || (48 <=? n) && (n <=? 57) || (n =? 95).
Fixpoint all_chars (f : ascii → bool) (s : string) : bool :=
  match s with EmptyString => true | String c s => f c && all_chars f s end.
(** [(?:\w*|\W)\s*$] matches all of [s]. *)
Fixpoint word_then_space (s : string) : bool :=
  all_chars is_space s ||
  match s with String c s => is_word c && word_then_space s | EmptyString => true end.
Definition last_word (s : string) : bool :=
  word_then_space s ||
  match s with String c s => negb (is_word c) && all_chars is_space s | EmptyString => false end.
(** Where its first match starts. *)
Fixpoint word_start (s : string) : nat :=
  if last_word s then 0 else match s with String _ s => S (word_start s) | EmptyString => 0 end.

Definition zstake (i : Z) (s : string) : string := stake (Z.to_nat i) s.
Definition zsdrop (i : Z) (s : string) : string := sdrop (Z.to_nat i) s.
Definition zlen (s : string) : Z := Z.of_nat (String.length s).

Section edit.
(** [_ERASE_CHAR], if the terminal has one. *)
Context (erase : option ascii).

Definition is_erase (k : key) : bool :=
  match k with
  | KBackspace => true
  | KChar c => match erase with Some e => Ascii.eqb c e | None => false end
  | _ => false
  end.

Definition edit_key (c : key) (s : string) (i : Z) : string * Z :=
  if decide (c = KLeft) then (s, if (0 <? i)%Z then (i - 1)%Z else i)
  else if decide (c = KRight) then (s, if (i <? zlen s)%Z then (i + 1)%Z else i)
  else if decide (c = KHome ∨ c = ctrl 1) then (s, 0%Z)
  else if decide (c = KEnd ∨ c = ctrl 5) then (s, zlen s)
  else if is_erase c then
    if (0 <? i)%Z then (zstake (i - 1) s +:+ zsdrop i s, (i - 1)%Z) else (s, i)
  else if decide (c = KDc) then (zstake i s +:+ zsdrop (i + 1) s, i)
  else if decide (c = ctrl 23) then
    let new_i := Z.of_nat (word_start (zstake i s)) in (zstake new_i s +:+ zsdrop i s, new_i)
  else if decide (c = ctrl 11) then (zstake i s, i)
  else if decide (c = ctrl 21) then (zsdrop i s, 0%Z)
  else match c with
       | KChar a => (zstake i s +:+ String a "" +:+ zsdrop i s, (i + 1)%Z)
       | _ => (s, i)
       end.

Definition OFFSET : Z := Z.of_nat SCROLL_OFFSET.
Definition edit_scroll (s : string) (i hscroll width : Z) : Z :=
  if (i <? hscroll + OFFSET)%Z then Z.max (i - OFFSET) 0
  else if (hscroll + width - OFFSET <=? i)%Z then
    Z.min (i - width + OFFSET + 1) (Z.max (zlen s - width + 1) 0)
  else hscroll.

Definition edit_text (c : key) (s : string) (i hscroll width : Z) : string * Z * Z :=
  let '(s, i) := edit_key c s i in (s, i, edit_scroll s i hscroll width).
End edit.

(** ** Programs that wait for keys *)

Record Io := mkIo { io_ui : Ui; io_keys : list key }.
Inductive outcome (A : Type) :=
  | Ret (a : A) (s : Io)
  | Wait (u : Ui)
  | Raise (e : pyerr) (u : Ui)
  | Spin (u : Ui).
Arguments Ret {A} a s.
Arguments Wait {A} u.
Arguments Raise {A} e u.
Arguments Spin {A} u.

Definition prog (A : Type) : Type := Io → outcome A.
#[global] Instance prog_ret : MRet prog := λ A a s, Ret a s.
#[global] Instance prog_bind : MBind prog := λ A B f c s,
  match c s with Ret a s => f a s | Wait u => Wait u | Raise e u => Raise e u | Spin u => Spin u end.

Definition ui : prog Ui := λ s, Ret (io_ui s) s.
Definition ui_put (u : Ui) : prog unit := λ s, Ret tt (mkIo u (io_keys s)).
Definition ui_mod (f : Ui → Ui) : prog unit := λ s, Ret tt (mkIo (f (io_ui s)) (io_keys s)).
Definition raise {A} (e : pyerr) : prog A := λ s, Raise e (io_ui s).
(** A step that may raise, and one that also gives a result. *)
Definition act (f : Ui → res Ui) : prog unit := λ s,
  match f (io_ui s) with Ok u => Ret tt (mkIo u (io_keys s)) | Err e => Raise e (io_ui s) end.
Definition ask {A} (f : Ui → res A) : prog A := λ s,
  match f (io_ui s) with Ok a => Ret a s | Err e => Raise e (io_ui s) end.
Definition act_ret {A} (f : Ui → res (A * Ui)) : prog A := λ s,
  match f (io_ui s) with Ok (a, u) => Ret a (mkIo u (io_keys s)) | Err e => Raise e (io_ui s) end.

(** [_getch_compat] *)
Definition getch : prog key := λ s,
  match io_keys s with
  | [] => Wait (io_ui s)
  | KResize h w :: ks => Ret (KResize h w) (mkIo (with_screen (io_ui s) (h, w)) ks)
  | k :: ks => Ret k (mkIo (io_ui s) ks)
  end.

(** A loop whose body says whether to go on. *)
Fixpoint loop {S A} (fuel : nat) (body : S → prog (S + A)) (x : S) : prog A :=
  match fuel with
  | O => λ s, Spin (io_ui s)
  | Datatypes.S fuel => r ← body x; match r with inl x => loop fuel body x | inr a => mret a end
  end.

Section dialogs.
Context (erase : option ascii) (fuel : nat).

(** [_input_dialog]: the width of the edit field follows the size of the
    terminal, the title and the lines of information. *)
Definition INPUT_DIALOG_MIN_WIDTH : nat := 30.
Definition dialog_width (u : Ui) (title : string) (info : list string) : Z :=
  Z.of_nat (Nat.min (foldr Nat.max 0 (INPUT_DIALOG_MIN_WIDTH :: String.length title + 4 ::
                                      map (λ l, String.length l + 4) info)) (snd (u_screen u))) - 4.
Definition input_body (title : string) (info : list string) (st : string * Z * Z)
    : prog (string * Z * Z + option string) :=
  let '(s, i, hscroll) := st in
  c ← getch;
  match c with
  | KResize _ _ => ui_mod resize_main;; mret (inl st)
  | _ =>
      if decide (c = KChar nl) then mret (inr (Some s))
      else if decide (c = KChar ESC) then mret (inr None)
      else u ← ui; mret (inl (edit_text erase c s i hscroll (dialog_width u title info)))
  end.
Definition input_dialog (title initial_text : string) (info_text : option string) : prog (option string) :=
  let info := match info_text with Some t => if String.eqb t "" then [] else split_char nl t | None => [] end in
  u ← ui;
  let i := zlen initial_text in
  loop fuel (input_body title info)
    (initial_text, i, Z.max (i - dialog_width u title info + 1) 0).

(** [_key_dialog] *)
Definition key_body (keys : string) (st : unit) : prog (unit + option ascii) :=
  c ← getch;
  match c with
  | KResize _ _ => ui_mod resize_main;; mret (inl st)
  | KChar a => if decide (a = ESC) then mret (inr None)
               else let a := KSync.KSync.lower_char a in
                    if has_char a keys then mret (inr (Some a)) else mret (inl st)
  | _ => mret (inl st)
  end.
Definition key_dialog (keys : string) : prog (option ascii) := loop fuel (key_body keys) tt.

(** [_msg] and [_error]; their texts are only drawn. *)
Definition msg : prog unit := key_dialog (String " " (String nl ""));; mret tt.
Definition error : prog unit := msg.
End dialogs.
End MEdit.
