(* ===== verification/MMain.v ===== *)
(** * tools/kconfig/menuconfig.py: the programs of the interface

    [_change_node], the load, save, jump-to, information and quit dialogs, the
    main loop, and [menuconfig] itself.  What is drawn is left out.  Regular
    expressions and the expansion of "~" are arguments. *)
From S2P Require Import Prelude Hex PyStr KExpr KSym KConf KFinal KMenu KPrint Files KTools MNode MState MInfo MEdit.

Module MMain.
Import Hex PyStr KExpr KSym KFinal KPrint Files KTools MNode MState MEdit.

Section main.
Context (env : gmap string string) (K : Kc) (vals : Conf → Vals).
Context (top : tnode) (D : KMenu.Df) (F : Fst).
Context (erase : option ascii) (cwd : string) (expanduser : string → string).
(** [re.compile(regex).search], [None] for a bad expression. *)
Context (compile : string → option (string → bool)).
(** Turns of one loop. *)
Context (fuel : nat).

Notation input_dialog := (input_dialog erase fuel).
Notation key_dialog := (key_dialog fuel).
Notation error := (error fuel).
Notation msg := (msg fuel).

(** ** _change_node *)

(** The text of a hex value gets its 0x. *)
Definition clean_text (t : styp) (s : string) : string :=
  if INT_HEX t then
    let s := strip s in
    match t with
    | HEX => if startswith s "0x" || startswith s "0X" then s else "0x" +:+ s
    | _ => s
    end
  else s.

Definition ask_value (d : mdata) (n : string) (t : styp) (title : string) (s : string) : prog (string + unit) :=
  info ← ask (λ u, range_info vals u n);
  r ← input_dialog title s info;
  match r with
  | None => mret (inr tt)
  | Some s =>
      let s := clean_text t s in
      bad ← ask (λ u, check_valid vals u n s);
      match bad with
      | Some _ => error;; mret (inl s)
      | None => act (set_val top vals (m_item d) s);; mret (inr tt)
      end
  end.

Definition change_text (d : mdata) (n : string) : prog unit :=
  t ← ask (λ u, Ok (orig_type_of (uconf u) (m_item d)));
  s ← ask (λ u, str_value (uconf u) (uvals vals u) (m_item d));
  match m_prompt d with
  | Some (p, _) => loop fuel (ask_value d n t (p +:+ " (" +:+ TYPE_TO_STR t +:+ ")")) s
  | None => raise TypeError
  end.

Definition change_value (d : mdata) : prog unit :=
  t ← ask (λ u, Ok (orig_type_of (uconf u) (m_item d)));
  match m_item d with
  | MSym n => if text_type t then change_text d n
              else v ← ask (next_value vals (m_item d)); act (set_val_tri top vals (m_item d) v)
  | _ => v ← ask (next_value vals (m_item d)); act (set_val_tri top vals (m_item d) v)
  end.

Definition change_node (p : list nat) : prog bool :=
  t ← ask (λ _, get_node top p);
  let d := data t in
  ch ← ask (λ u, changeable (uconf u) (uvals vals u) d);
  if negb ch then mret false
  else
    change_value d;;
    y ← ask (λ u, is_y_mode_choice_sym (uconf u) (uvals vals u) (m_item d));
    (if y && match MNode.children t with [] => true | _ => false end then act (leave_menu top vals) else mret tt);;
    mret true.

(** ** Loading and saving *)

Definition load_save_info : string := "(Relative to " +:+ (if String.eqb cwd "/" then cwd else cwd +:+ "/") +:+ ")" +:+
  String nl (String nl "Refer to your home directory with ~").

(** [_try_load] *)
Definition try_load (filename : string) : prog bool := λ s,
  let u := io_ui s in
  match KTools.load_config env K vals (Some filename) true (u_ses u) with
  | Ok (_, ses) => Ret true (mkIo (with_ses u ses) (io_keys s))
  | Err e => if is_os_error e then (error;; mret false) s else Raise e u
  end.

(** After a load: show-all mode goes on if the selected node is no longer
    shown. *)
Definition after_load (filename : string) (u : Ui) : res Ui :=
  let* changed := needs_save vals (kc_prefix K) (u_ses u) in
  let u := with_files u filename (u_minconf_filename u) changed in
  let* p := sel_node u in
  let* shown := shown_in top vals u (u_all u) (u_cur u) in
  let u := if bool_decide (p ∈ shown) then u
           else with_menu u (u_cur u) (u_shown u) (u_sel u) (u_scroll u) (u_rows u) true in
  update_menu top vals u.

Definition load_body (filename : string) : prog (string + unit) :=
  r ← input_dialog "File to load" filename (Some load_save_info);
  match r with
  | None => mret (inr tt)
  | Some f =>
      let f := expanduser f in
      ok ← try_load f;
      if (ok : bool) then act (after_load f);; msg;; mret (inr tt) else mret (inl f)
  end.
Definition load_dialog : prog unit :=
  u ← ui;
  go ← (if u_changed u then c ← key_dialog "oc"; mret (bool_decide (c = Some "o"%char)) else mret true);
  if (go : bool) then loop fuel load_body (u_conf_filename u) else mret tt.

(** [_try_save] with [write_config] or [write_min_config]. *)
Definition try_save (save : string → Ses → res (string * Ses)) (filename : string) : prog (option string) := λ s,
  let u := io_ui s in
  match save filename (u_ses u) with
  | Ok (m, ses) => Ret (Some m) (mkIo (with_ses u ses) (io_keys s))
  | Err e => if is_os_error e then (error;; mret None) s else Raise e u
  end.
Definition save_body (save : string → Ses → res (string * Ses)) (description : string) (filename : string)
    : prog (string + option string) :=
  r ← input_dialog ("Filename to save " +:+ description +:+ " to") filename (Some load_save_info);
  match r with
  | None => mret (inr None)
  | Some f =>
      let f := expanduser f in
      m ← try_save save f;
      match m with Some _ => msg;; mret (inr (Some f)) | None => mret (inl f) end
  end.
Definition save_dialog (save : string → Ses → res (string * Ses)) (default_filename description : string)
    : prog (option string) := loop fuel (save_body save description) default_filename.

Definition save_config (f : string) : Ses → res (string * Ses) := write_config env K vals (Some f) None true.
Definition save_minconf (f : string) : Ses → res (string * Ses) := write_min_config K vals f None.

(** [_quit_dialog]: the message to print when the program ends. *)
Definition quit_body (st : unit) : prog (unit + option string) :=
  c ← key_dialog "ync";
  match c with
  | None => mret (inr None)
  | Some a =>
      if decide (a = "c"%char) then mret (inr None)
      else if decide (a = "y"%char) then
        u ← ui;
        m ← try_save save_config (u_conf_filename u);
        match m with Some m => mret (inr (Some m)) | None => mret (inl tt) end
      else if decide (a = "n"%char) then
        u ← ui; mret (inr (Some ("Configuration (" +:+ u_conf_filename u +:+ ") was not saved")))
      else mret (inl tt)
  end.
Definition quit_dialog : prog (option string) :=
  u ← ui;
  if negb (u_changed u) then mret (Some ("No changes to save (for '" +:+ u_conf_filename u +:+ "')"))
  else loop fuel quit_body tt.

(** ** The jump-to dialog *)

(** [sorted(l, key=...)] *)
Fixpoint insert_by {A} (key : A → string) (x : A) (l : list A) : list A :=
  match l with
  | [] => [x]
  | y :: l' => if str_ltb (key x) (key y) then x :: l else y :: insert_by key x l'
  end.
Definition sorted_by {A} (key : A → string) (l : list A) : list A := foldl (λ r x, insert_by key x r) [] l.

Definition node_data (p : list nat) : option mdata := data <$> node_at top p.
Definition prompt_text (p : list nat) : string :=
  match node_data p with Some d => match m_prompt d with Some x => x.1 | None => "" end | None => "" end.
Definition items_in_order (f : mitem → option mitem) : list mitem :=
  ordered_unique (omap (λ p, node_data p ≫= (λ d, f (m_item d))) (paths_below [] top)).
Definition item_text (it : mitem) : string := default "" (MInfo.sc_name it).

(** [_sorted_sc_nodes] *)
Definition sorted_sc_nodes : list (list nat) :=
  (sorted_by item_text (items_in_order (λ it, match it with MSym _ => Some it | _ => None end)) ≫= nodes_of top) ++
  sorted_by prompt_text
    (sorted_by item_text (items_in_order (λ it, match it with MChoice _ _ => Some it | _ => None end)) ≫= nodes_of top).
(** [_sorted_menu_comment_nodes] *)
Definition sorted_menu_comment_nodes : list (list nat) :=
  sorted_by prompt_text (nodes_of top MMenu) ++ sorted_by prompt_text (nodes_of top MComment).

Definition lower (s : string) : string := String.string_of_list_ascii (map KSync.KSync.lower_char (String.list_ascii_of_string s)).

(** A symbol or choice matches by its name or its prompt. *)
Definition sc_match (d : mdata) (search : string → bool) : bool :=
  match MInfo.sc_name (m_item d) with
  | Some n => negb (String.eqb n "") && search (lower n)
  | None => false
  end ||
  match m_prompt d with Some p => search (lower p.1) | None => false end.
Definition mc_match (d : mdata) (search : string → bool) : bool :=
  match m_prompt d with Some p => search (lower p.1) | None => false end.
Definition all_match (f : mdata → (string → bool) → bool) (searches : list (string → bool)) (p : list nat) : bool :=
  match node_data p with Some d => forallb (f d) searches | None => false end.

Fixpoint compile_all (l : list string) : option (list (string → bool)) :=
  match l with
  | [] => Some []
  | r :: l => match compile r with
              | Some f => match compile_all l with Some fs => Some (f :: fs) | None => None end
              | None => None
              end
  end.
(** The nodes that match a search text; none for a bad expression. *)
Definition matches_for (s : string) : list (list nat) :=
  match compile_all (split_ws (lower s)) with
  | Some searches => filter (λ p, all_match sc_match searches p = true) sorted_sc_nodes ++
                     filter (λ p, all_match mc_match searches p = true) sorted_menu_comment_nodes
  | None => []
  end.

Definition JUMP_TO_HELP_HEIGHT : nat := 5.
Definition INFO_HELP_HEIGHT : nat := 1.
Definition matches_height (u : Ui) : nat := Nat.max 1 (fst (u_screen u) - JUMP_TO_HELP_HEIGHT - 4).
(** [_resize_jump_to_dialog]: the scroll that keeps the selected row in the
    window. *)
Definition jump_scroll (u : Ui) (sel scroll : nat) : nat :=
  if Nat.leb (matches_height u) (sel - scroll) then S sel - matches_height u else scroll.

(** The state of the dialog: search text, cursor, horizontal scroll, the
    matches, the selected row and the scroll.  The height of the list is that
    of the last resize.  With no match the row is of no use, and a new search
    text resets it. *)
Record Jump := mkJump {
  j_s : string; j_i : Z; j_hscroll : Z;
  j_matches : list (list nat); j_sel : nat; j_scroll : nat; j_height : nat; j_width : nat
}.
Definition next_match (j : Jump) : Jump :=
  if Nat.eqb (S (j_sel j)) (length (j_matches j)) then j
  else mkJump (j_s j) (j_i j) (j_hscroll j) (j_matches j) (S (j_sel j))
         (if Nat.leb (j_scroll j + j_height j) (S (j_sel j) + SCROLL_OFFSET) &&
             Nat.ltb (j_scroll j) (max_scroll (length (j_matches j)) (j_height j))
          then S (j_scroll j) else j_scroll j) (j_height j) (j_width j).
Definition prev_match (j : Jump) : Jump :=
  match j_sel j with
  | O => j
  | S sel => mkJump (j_s j) (j_i j) (j_hscroll j) (j_matches j) sel
               (if Nat.ltb sel (j_scroll j + SCROLL_OFFSET) then j_scroll j - 1 else j_scroll j)
               (j_height j) (j_width j)
  end.
Definition jump_at (j : Jump) (sel scroll : nat) : Jump :=
  mkJump (j_s j) (j_i j) (j_hscroll j) (j_matches j) sel scroll (j_height j) (j_width j).
Definition jump_resize (u : Ui) (j : Jump) : Jump :=
  mkJump (j_s j) (j_i j) (j_hscroll j) (j_matches j) (j_sel j) (jump_scroll u (j_sel j) (j_scroll j))
    (matches_height u) (snd (u_screen u)).
(** A key of the edit box; the list is searched again when the text
    changed. *)
Definition jump_edit (k : key) (j : Jump) : Jump :=
  let '(s, i, h) := edit_text erase k (j_s j) (j_i j) (j_hscroll j) (Z.of_nat (j_width j) - 2) in
  if String.eqb s (j_s j) then mkJump s i h (j_matches j) (j_sel j) (j_scroll j) (j_height j) (j_width j)
  else mkJump s i h (matches_for s) 0 0 (j_height j) (j_width j).

(** [_info_dialog]; [search] is the jump-to dialog, unless it is the one that
    opened the information. *)
Definition info_lines (p : list nat) (u : Ui) : res nat :=
  let* s := MInfo.info_str top D F (uconf u) (uvals vals u) p in Ok (length (split_char nl s)).
Definition info_height (u : Ui) : nat := Nat.max 1 (fst (u_screen u) - INFO_HELP_HEIGHT - 2).
Definition one_of (k : key) (l : list string) : bool :=
  match k with KChar c => existsb (λ s, String.eqb (String c "") s) l | _ => false end.

Definition is_key (k : key) (keys : list key) (chars : list string) : bool :=
  bool_decide (k ∈ keys) || one_of k chars.

Definition info_body (search : option (prog bool)) (lines : nat) (st : nat * nat) : prog (nat * nat + unit) :=
  let '(scroll, height) := st in
  c ← getch;
  let keep (x : nat) : prog (nat * nat + unit) := mret (inl (x, height)) in
  match c with
  | KResize _ _ => u ← ui; mret (inl (scroll, info_height u))
  | _ =>
      if is_key c [KDown] ["j"; "J"] then
        keep (if Nat.ltb scroll (max_scroll lines height) then S scroll else scroll)
      else if is_key c [KNPage; ctrl 4] [] then keep (Nat.min (scroll + PG_JUMP) (max_scroll lines height))
      else if is_key c [KPPage; ctrl 21] [] then keep (scroll - PG_JUMP)
      else if is_key c [KEnd] ["G"] then keep (max_scroll lines height)
      else if is_key c [KHome] ["g"] then keep 0
      else if is_key c [KUp] ["k"; "K"] then keep (scroll - 1)
      else if one_of c ["/"] then
        match search with
        | None => mret (inr tt)
        | Some search =>
            jumped ← search;
            if (jumped : bool) then mret (inr tt) else u ← ui; mret (inl (scroll, info_height u))
        end
      else if is_key c [KLeft; KChar ESC] ["q"; "Q"; "h"; "H"] || is_erase erase c then
        mret (inr tt)
      else keep scroll
  end.
Definition info_dialog (search : option (prog bool)) (p : list nat) : prog unit :=
  lines ← ask (info_lines p);
  u ← ui;
  loop fuel (info_body search lines) (0, info_height u).

Definition jump_body (j : Jump) : prog (Jump + bool) :=
  c ← getch;
  let keep (j : Jump) : prog (Jump + bool) := mret (inl j) in
  let resized (j : Jump) : prog (Jump + bool) := u ← ui; mret (inl (jump_resize u j)) in
  let current : prog (list nat) := ask (λ _, index (j_matches j) (j_sel j)) in
  match c with
  | KResize _ _ => resized j
  | _ =>
      if decide (c = KChar nl) then
        match j_matches j with
        | [] => keep j
        | _ => p ← current; act (jump_to top vals p);; mret (inr true)
        end
      else if decide (c = KChar ESC) then mret (inr false)
      else if decide (c = ctrl 6) then
        match j_matches j with
        | [] => keep j
        | _ => p ← current; info_dialog None p;; resized j
        end
      else if decide (c = KDown) then keep (next_match j)
      else if decide (c = KUp) then keep (prev_match j)
      else if is_key c [KNPage; ctrl 4] [] then keep (Nat.iter PG_JUMP next_match j)
      else if decide (c = KPPage) then keep (Nat.iter PG_JUMP prev_match j)
      else if decide (c = KEnd) then
        keep (jump_at j (length (j_matches j) - 1) (max_scroll (length (j_matches j)) (j_height j)))
      else if decide (c = KHome) then keep (jump_at j 0 0)
      else keep (jump_edit c j)
  end.
Definition jump_to_dialog : prog bool :=
  u ← ui;
  loop fuel jump_body (jump_resize u (mkJump "" 0 0 (matches_for "") 0 0 0 0)).

(** ** The main loop *)

Definition again : prog (unit + string) := mret (inl tt).
Definition done_with (c : prog unit) : prog (unit + string) := c;; again.
Definition with_selected (f : list nat → prog unit) : prog (unit + string) :=
  done_with (p ← ask (λ u, sel_node u); f p).
Definition quit : prog (unit + string) :=
  r ← quit_dialog; match r with Some m => if String.eqb m "" then again else mret (inr m) | None => again end.

Definition main_body (st : unit) : prog (unit + string) :=
  c ← getch;
  let move (f : Ui → Ui) : prog (unit + string) := done_with (ui_mod f) in
  match c with
  | KResize _ _ => move resize_main
  | _ =>
      if is_key c [KDown] ["j"; "J"] then move select_next
      else if is_key c [KUp] ["k"; "K"] then move select_prev
      else if is_key c [KNPage; ctrl 4] [] then move (Nat.iter PG_JUMP select_next)
      else if is_key c [KPPage; ctrl 21] [] then move (Nat.iter PG_JUMP select_prev)
      else if is_key c [KEnd] ["G"] then move select_last
      else if is_key c [KHome] ["g"] then move select_first
      else if is_key c [] [" "] then
        with_selected (λ p, ch ← change_node p;
          if (ch : bool) then mret tt else act_ret (enter_menu top vals p);; mret tt)
      else if is_key c [KRight; KChar nl] ["l"; "L"] then
        with_selected (λ p, en ← act_ret (enter_menu top vals p);
          if (en : bool) then mret tt else change_node p;; mret tt)
      else if is_key c [] ["n"; "N"] then done_with (act (set_sel_node_tri_val top vals 0))
      else if is_key c [] ["m"; "M"] then done_with (act (set_sel_node_tri_val top vals 1))
      else if is_key c [] ["y"; "Y"] then done_with (act (set_sel_node_tri_val top vals 2))
      else if is_key c [KLeft; KChar ESC] ["h"; "H"] || is_erase erase c then
        u ← ui;
        if bool_decide (c = KChar ESC) && bool_decide (u_cur u = []) then quit
        else done_with (act (leave_menu top vals))
      else if is_key c [] ["o"; "O"] then done_with load_dialog
      else if is_key c [] ["s"; "S"] then
        u ← ui;
        f ← save_dialog save_config (u_conf_filename u) "configuration";
        match f with
        | Some f => if String.eqb f "" then again
                    else move (λ u, with_files u f (u_minconf_filename u) false)
        | None => again
        end
      else if is_key c [] ["d"; "D"] then
        u ← ui;
        f ← save_dialog save_minconf (u_minconf_filename u) "minimal configuration";
        match f with
        | Some f => if String.eqb f "" then again
                    else move (λ u, with_files u (u_conf_filename u) f (u_changed u))
        | None => again
        end
      else if is_key c [] ["/"] then done_with (jump_to_dialog;; ui_mod resize_main)
      else if is_key c [] ["?"] then
        with_selected (λ p, info_dialog (Some jump_to_dialog) p;; ui_mod resize_main)
      else if is_key c [] ["f"; "F"] then
        move (λ u, resize_main (with_modes u (negb (u_help u)) (u_name u)))
      else if is_key c [] ["c"; "C"] then move (λ u, with_modes u (u_help u) (negb (u_name u)))
      else if is_key c [] ["a"; "A"] then done_with (act (toggle_show_all top vals))
      else if is_key c [] ["q"; "Q"] then quit
      else again
  end.

(** [_menuconfig] after [_init]: the message printed on exit. *)
Definition main_loop : prog string := loop fuel main_body tt.

(** [_init] *)
Definition init_ui (S : Ses) (all changed : bool) (screen : nat * nat) : res Ui :=
  let* shown := shown_nodes top (conf S) (vals (conf S)) all [] in
  Ok (resize_main (mkUi S [] shown 0 0 [] all false false (standard_config_filename env) "defconfig" changed 1 screen)).

(** [_load_config] *)
Definition load_initial (S : Ses) : res (bool * Ses) :=
  let* r := KTools.load_config env K vals None true S in
  if exists_path (se_world r.2) (standard_config_filename env) then
    let* o := needs_save vals (kc_prefix K) r.2 in Ok (o, r.2)
  else Ok (true, r.2).

(** [menuconfig]: the start state, unless no node would be shown. *)
Definition menuconfig (S : Ses) (screen : nat * nat) : res (option Ui) :=
  let* r := load_initial S in
  let ses := r.2 in
  let* l := shown_nodes top (conf ses) (vals (conf ses)) false [] in
  match l with
  | _ :: _ => let* u := init_ui ses false r.1 screen in Ok (Some u)
  | [] =>
      let* l := shown_nodes top (conf ses) (vals (conf ses)) true [] in
      match l with
      | _ :: _ => let* u := init_ui ses true r.1 screen in Ok (Some u)
      | [] => Ok None
      end
  end.
End main.
End MMain.
