(* ===== verification/MColor.v ===== *)
(** * tools/kconfig/menuconfig.py: styles and colors

    The tables [_STYLES], [_NAMED_COLORS], [_style] and the two tables held in
    default arguments ([_alloc_rgb], [_style_attr]), with the functions that
    parse a style and choose the terminal's colors for it.  The curses library
    is a record of what the terminal answers; the calls that change the
    terminal are logged. *)
From S2P Require Import Prelude Hex PyStr Dbl.

Module MColor.
Import Hex PyStr.
Open Scope Z_scope.

Notation rgb := (Z * Z * Z)%type.

(** ** The curses library *)

Variant basic := BLACK | RED | GREEN | YELLOW | BLUE | MAGENTA | CYAN | WHITE.

(** [init_color] and [init_pair] may raise [curses.error]. *)
Record Curses := mkCurses {
  has_colors : bool;
  can_change_color : bool;
  COLORS : Z;
  COLOR : basic → Z;
  color_content : Z → rgb;
  init_color : Z → rgb → res unit;
  init_pair : Z → Z → Z → res unit;
  color_pair : Z → Z;
  A_NORMAL : Z;
  A_BOLD : Z;
  A_STANDOUT : Z;
  A_UNDERLINE : Z;
  IS_WINDOWS : bool
}.

Variant call :=
  | UseDefaultColors
  | InitColor (i : Z) (c : rgb)
  | InitPair (n fg bg : Z).

(** [style] is [_style], [rgb2index] and [color_attribs] the tables of
    [_alloc_rgb] and [_style_attr]; [warned] what [_warn] printed. *)
Record Look := mkLook {
  style : gmap string Z;
  rgb2index : gmap rgb Z;
  color_attribs : gmap (Z * Z) Z;
  calls : list call;
  warned : list string
}.

Definition look0 : Look := mkLook ∅ ∅ ∅ [] [].

Definition warn (s : string) : ST Look unit :=
  λ L, Ok (tt, mkLook (style L) (rgb2index L) (color_attribs L) (calls L) (warned L ++ [s])).
Definition log_call (c : call) : ST Look unit :=
  λ L, Ok (tt, mkLook (style L) (rgb2index L) (color_attribs L) (calls L ++ [c]) (warned L)).
Definition set_style_key (k : string) (a : Z) : ST Look unit :=
  λ L, Ok (tt, mkLook (<[k:=a]> (style L)) (rgb2index L) (color_attribs L) (calls L) (warned L)).
Definition set_index (c : rgb) (i : Z) : ST Look unit :=
  λ L, Ok (tt, mkLook (style L) (<[c:=i]> (rgb2index L)) (color_attribs L) (calls L) (warned L)).
Definition set_pair (p : Z * Z) (a : Z) : ST Look unit :=
  λ L, Ok (tt, mkLook (style L) (rgb2index L) (<[p:=a]> (color_attribs L)) (calls L) (warned L)).

(** ** Tables *)

Definition STYLES : list (string * string) :=
  [("default", "
    path=fg:black,bg:white,bold
    separator=fg:black,bg:yellow,bold
    list=fg:black,bg:white
    selection=fg:white,bg:blue,bold
    inv-list=fg:red,bg:white
    inv-selection=fg:red,bg:blue
    help=path
    show-help=list
    frame=fg:black,bg:yellow,bold
    body=fg:white,bg:black
    edit=fg:white,bg:blue
    jump-edit=edit
    text=list
    ");
   ("monochrome", "
    path=bold
    separator=bold,standout
    list=
    selection=bold,standout
    inv-list=bold
    inv-selection=bold,standout
    help=bold
    show-help=
    frame=bold,standout
    body=
    edit=standout
    jump-edit=
    text=
    ");
   ("aquatic", "
    path=fg:white,bg:blue
    separator=fg:white,bg:cyan
    help=path
    frame=fg:white,bg:cyan
    body=fg:white,bg:blue
    edit=fg:black,bg:white
    ")].

(** A basic color and what is added to its number. *)
Definition NAMED_COLORS : list (string * (basic * Z)) :=
  [("black", (BLACK, 0)); ("red", (RED, 0)); ("green", (GREEN, 0)); ("yellow", (YELLOW, 0));
   ("blue", (BLUE, 0)); ("magenta", (MAGENTA, 0)); ("cyan", (CYAN, 0)); ("white", (WHITE, 0));
   ("brightblack", (BLACK, 8)); ("brightred", (RED, 8)); ("brightgreen", (GREEN, 8));
   ("brightyellow", (YELLOW, 8)); ("brightblue", (BLUE, 8)); ("brightmagenta", (MAGENTA, 8));
   ("brightcyan", (CYAN, 8)); ("brightwhite", (WHITE, 8));
   ("purple", (MAGENTA, 0)); ("brightpurple", (MAGENTA, 8))].

(** A table by its key. *)
Definition table {A} (l : list (string * A)) (k : string) : option A :=
  snd <$> (snd <$> list_find (λ e, e.1 = k) l).

(** ** Colors *)

Definition map3 (f : Z → res Z) (c : rgb) : res rgb :=
  let '(r, g, b) := c in
  let* r := f r in let* g := f g in let* b := f b in Ok (r, g, b).

Definition to_cube1 (x : Z) : res Z :=
  if x <? 48 then Ok 0
  else
    let y := Dbl.ratio (x - 55) 40 in
    if Dbl.ltb (Dbl.of_Z 1) y then Dbl.round y else Ok 1.
(** [_rgb_to_6cube] *)
Definition rgb_to_6cube (c : rgb) : res rgb := map3 to_cube1 c.

Definition of_cube1 (x : Z) : Z := if x =? 0 then 0 else 40 * x + 55.
(** [_6cube_to_rgb] *)
Definition cube_to_rgb (c : rgb) : rgb :=
  let '(r, g, b) := c in (of_cube1 r, of_cube1 g, of_cube1 b).

(** [_rgb_to_gray] *)
Definition luma (c : rgb) : Dbl.dbl :=
  let '(r, g, b) := c in
  Dbl.add (Dbl.add (Dbl.mul (Dbl.ratio 299 1000) (Dbl.of_Z r))
                   (Dbl.mul (Dbl.ratio 587 1000) (Dbl.of_Z g)))
          (Dbl.mul (Dbl.ratio 114 1000) (Dbl.of_Z b)).
Definition rgb_to_gray (c : rgb) : res Z :=
  let* i := Dbl.round (Dbl.div (Dbl.sub (luma c) (Dbl.of_Z 8)) (Dbl.of_Z 10)) in
  Ok (Z.max 0 (Z.min i 23)).

(** [_gray_to_rgb] *)
Definition gray_to_rgb (i : Z) : rgb := (10 * i + 8, 10 * i + 8, 10 * i + 8).

Definition scale_1000 (x : Z) : res Z := Dbl.round (Dbl.ratio (1000 * x) 255).
Definition scale_255 (x : Z) : res Z := Dbl.round (Dbl.ratio (255 * x) 1000).

Definition str_rgb (c : rgb) : string :=
  let '(r, g, b) := c in "(" +:+ pretty r +:+ ", " +:+ pretty g +:+ ", " +:+ pretty b +:+ ")".

Definition dist (c1 c2 : rgb) : Z :=
  let '(r1, g1, b1) := c1 in
  let '(r2, g2, b2) := c2 in
  (r1 - r2) ^ 2 + (g1 - g2) ^ 2 + (b1 - b2) ^ 2.

Section curses.
Context (K : Curses).

(** [_alloc_rgb] *)
Definition alloc_rgb (c : rgb) : ST Look Z :=
  found ← st_get (λ L, rgb2index L !! c);
  match found with
  | Some i => mret i
  | None =>
      i ← st_get (λ L, 16 + Z.of_nat (size (rgb2index L)));
      if 256 <=? i then
        warn ("Unable to allocate new RGB color  " +:+ str_rgb c +:+ " . Too many colors allocated.");;
        mret 0
      else
        c' ← st_lift (map3 scale_1000 c);
        st_lift (init_color K i c');;
        log_call (InitColor i c');;
        set_index c i;;
        mret i
  end.

(** The color a number from 16 to 255 has in the xterm palette. *)
Definition xterm_rgb (num : Z) : rgb :=
  if num <? 232 then
    let n := num - 16 in cube_to_rgb ((n / 36) mod 6, (n / 6) mod 6, n mod 6)
  else gray_to_rgb (num - 232).

(** [_color_from_num] *)
Definition color_from_num (num : Z) : ST Look Z :=
  if (num <? 16) || (255 <? num) || negb (can_change_color K) || (COLORS K <? 256) then mret num
  else alloc_rgb (xterm_rgb num).

(** The loop over the colors of a terminal with fewer than 256: the smallest
    distance so far, none being infinity, and its color. *)
Definition closer (c : rgb) (m : option Z * Z) (color : Z) : res (option Z * Z) :=
  let* c' := map3 scale_255 (color_content K color) in
  let d := dist c c' in
  Ok (match m.1 with
      | Some best => if d <? best then (Some d, color) else m
      | None => (Some d, color)
      end).
Definition closest_color (c : rgb) : res Z :=
  let* m := res_fold (closer c) (None, -1) (seqZ 0 (COLORS K)) in Ok m.2.

(** [_color_from_rgb] *)
Definition color_from_rgb (c : rgb) : ST Look Z :=
  if 256 <=? COLORS K then
    if can_change_color K then alloc_rgb c
    else
      c6 ← st_lift (rgb_to_6cube c);
      gray ← st_lift (rgb_to_gray c);
      if dist c (cube_to_rgb c6) <? dist c (gray_to_rgb gray) then
        let '(r, g, b) := c6 in mret (16 + 36 * r + 6 * g + b)
      else mret (232 + gray)
  else st_lift (closest_color c).

(** ** Styles *)

(** [_style_attr] *)
Definition style_attr (fg bg attribs : Z) : ST Look Z :=
  if negb (has_colors K) then mret attribs
  else
    known ← st_get (λ L, color_attribs L !! (fg, bg));
    pair ← (match known with
            | Some a => mret a
            | None =>
                n ← st_get (λ L, Z.of_nat (size (color_attribs L)) + 1);
                st_lift (init_pair K n fg bg);;
                log_call (InitPair n fg bg);;
                set_pair (fg, bg) (color_pair K n);;
                mret (color_pair K n)
            end);
    mret (Z.lor pair attribs).

(** [s.split(c, 1)] for a string with [c] in it. *)
Fixpoint split_once (c : ascii) (s : string) : string * string :=
  match s with
  | EmptyString => ("", "")
  | String d s =>
      if Ascii.eqb d c then ("", s)
      else let '(a, b) := split_once c s in (String d a, b)
  end.

(** Six hexadecimal digits after a number sign; what follows is ignored. *)
Definition html_color (s : string) : option rgb :=
  match s with
  | String h (String r1 (String r2 (String g1 (String g2 (String b1 (String b2 _)))))) =>
      if Ascii.eqb h "#"%char then
        r1 ← digit_val r1; r2 ← digit_val r2; g1 ← digit_val g1;
        g2 ← digit_val g2; b1 ← digit_val b1; b2 ← digit_val b2;
        Some (16 * r1 + r2, 16 * g1 + g2, 16 * b1 + b2)
      else None
  | _ => None
  end.

(** A number that is out of range is reported and replaced by the default. *)
Definition check_color (def : string) (num : Z) : ST Look Z :=
  if (-1 <=? num) && (num <? COLORS K) then mret num
  else
    warn ("Ignoring color " +:+ def +:+ ", which is outside the range -1..curses.COLORS-1 (-1.."
          +:+ pretty (COLORS K - 1) +:+ ")");;
    mret (-1).

(** [parse_color] of [_style_to_curses] *)
Definition parse_color (field : string) : ST Look Z :=
  let def := (split_once ":"%char field).2 in
  match html_color def with
  | Some c => color_from_rgb c
  | None =>
      match table NAMED_COLORS def with
      | Some (b, k) => num ← color_from_num (COLOR K b + k); check_color def num
      | None =>
          match int0 def with
          | Ok n => num ← color_from_num n; check_color def num
          | Err _ =>
              warn ("Ignoring color " +:+ def +:+ " that's neither predefined nor a number");;
              mret (-1)
          end
      end
  end.

(** One field of a style: the colors and attributes so far, then with it. *)
Definition style_field (st : Z * Z * Z) (field : string) : ST Look (Z * Z * Z) :=
  let '(fg, bg, attrs) := st in
  if startswith field "fg:" then fg ← parse_color field; mret (fg, bg, attrs)
  else if startswith field "bg:" then bg ← parse_color field; mret (fg, bg, attrs)
  else if String.eqb field "bold" then
    mret (fg, bg, Z.lor attrs (if IS_WINDOWS K then A_NORMAL K else A_BOLD K))
  else if String.eqb field "standout" then mret (fg, bg, Z.lor attrs (A_STANDOUT K))
  else if String.eqb field "underline" then mret (fg, bg, Z.lor attrs (A_UNDERLINE K))
  else warn ("Ignoring unknown style attribute " +:+ field);; mret (fg, bg, attrs).

Fixpoint style_fields (st : Z * Z * Z) (fields : list string) : ST Look (Z * Z * Z) :=
  match fields with
  | [] => mret st
  | field :: fields => st ← style_field st field; style_fields st fields
  end.

(** [_style_to_curses] *)
Definition style_to_curses (def : string) : ST Look Z :=
  st ← (if String.eqb def "" then mret (-1, -1, 0)
        else style_fields (-1, -1, 0) (split_char ","%char def));
  let '(fg, bg, attrs) := st in style_attr fg bg attrs.

(** An assignment [<element>=<style>] *)
Definition assign_style (parsing_default : bool) (sline : string) : ST Look unit :=
  let '(key, data) := split_once "="%char sline in
  old ← st_get (λ L, style L !! key);
  (if negb (bool_decide (is_Some old)) && negb parsing_default
   then warn ("Ignoring non-existent style " +:+ key) else mret tt);;
  copied ← st_get (λ L, style L !! data);
  match copied with
  | Some a => set_style_key key a
  | None => a ← style_to_curses data; set_style_key key a
  end.

(** [_parse_style]; a template may name another. *)
Fixpoint parse_style (n : nat) (style_str : string) (parsing_default : bool) : ST Look unit :=
  match n with
  | O => st_raise OutOfFuel
  | S n =>
      st_for (split_ws style_str) (λ sline,
        if has_char "="%char sline then assign_style parsing_default sline
        else
          match table STYLES sline with
          | Some template => parse_style n template parsing_default
          | None => warn ("Ignoring non-existent style template " +:+ sline)
          end)
  end.

(** [_init_styles]; [user] is the variable MENUCONFIG_STYLE of the
    environment.  An error of [use_default_colors] is ignored. *)
Definition init_styles (n : nat) (user : option string) : ST Look unit :=
  if has_colors K then
    log_call UseDefaultColors;;
    parse_style n "default" true;;
    match user with
    | Some s => parse_style n s false
    | None => mret tt
    end
  else parse_style n "monochrome" true.

End curses.

(** [_style[name]], as [_set_style] and the drawing functions read it. *)
Definition style_of (name : string) : ST Look Z :=
  λ L, match style L !! name with Some a => Ok (a, L) | None => Err (KeyError name) end.

End MColor.
