(* ===== verification/MDraw.v ===== *)
(** * tools/kconfig/menuconfig.py: what is drawn

    The sizes of the windows ([_resize_...]) and the drawing functions
    ([_draw_...]).  A drawing function gives the calls it makes on the
    windows, in order; the [_safe_...] functions ignore the errors of these
    calls, so a call has no result.  A call without a position goes to the
    cursor of the window.  A style is looked up in the table of MColor. *)
From S2P Require Import Prelude Hex PyStr KExpr KSym KFinal KPrint KInit MNode MState MInfo MEdit MMain.

Module MDraw.
Import Hex PyStr KExpr KSym KFinal KPrint KInit MNode MState MInfo MEdit.

Inductive win := PathWin | TopSepWin | MenuWin | BotSepWin | HelpWin | DialogWin | TextWin | MatchesWin | EditBox.
#[global] Instance win_eq_dec : EqDecision win.
Proof. solve_decision. Defined.

Inductive glyph := UARROW | DARROW | RARROW | BLANK.

(** The style of a call: its name and the attribute found in [_style]. *)
Notation attr := (string * Z)%type.

Inductive draw :=
  | Erase (w : win)
  | AddStr (w : win) (y x : nat) (s : string) (maxlen : Z) (a : option attr)
  | AddHere (w : win) (s : string)
  | AddCh (w : win) (g : glyph)
  | HLine (w : win) (y x : nat) (g : glyph) (n : nat) (a : option attr)
  | VLine (w : win) (y x : nat) (g : glyph) (n : nat)
  | AttrOn (w : win) (a : attr)
  | AttrOff (w : win) (a : attr)
  | Move (w : win) (y : nat) (x : Z)
  | Refresh (w : win).

(** A window: row and column of its corner, height, width. *)
Record box := mkBox { b_y : nat; b_x : nat; b_h : nat; b_w : nat }.

Definition MAIN_HELP_LINES : list string :=
  ["[Space/Enter] Toggle/enter  [ESC] Leave menu           [S] Save";
   "[O] Load                    [?] Symbol info            [/] Jump to symbol";
   "[F] Toggle show-help mode   [C] Toggle show-name mode  [A] Toggle show-all mode";
   "[Q] Quit (prompts for save) [D] Save minimal config (advanced)"].
Definition INFO_HELP_LINES : list string := ["[ESC/q] Return to menu      [/] Jump to symbol"].
Definition JUMP_TO_HELP_LINES : list string :=
  ["Type text to narrow the search. Regexes are supported (via Python's 're'";
   "module). The up/down cursor keys step in the list. [Enter] jumps to the";
   "selected symbol. [ESC] aborts the search. Type multiple space-separated";
   "strings/regexes to find entries that match all of them. Type Ctrl-F to";
   "view the help of the selected item without leaving the dialog."].
Definition N_SCROLL_ARROWS : nat := 14.

(** ** Sizes *)

(** [_resize_main] *)
Definition main_boxes (help : bool) (screen : nat * nat) : win → box := λ w,
  let '(sh, sw) := screen in
  let hh := if help then SHOW_HELP_HEIGHT else length MAIN_HELP_LINES in
  if Nat.leb (hh + 3 + 1) sh then
    let mh := sh - hh - 3 in
    match w with
    | PathWin => mkBox 0 0 1 sw
    | TopSepWin => mkBox 1 0 1 sw
    | MenuWin => mkBox 2 0 mh sw
    | BotSepWin => mkBox (2 + mh) 0 1 sw
    | _ => mkBox (2 + mh + 1) 0 hh sw
    end
  else mkBox 0 0 1 sw.

(** [_resize_info_dialog]; [TopSepWin] is the line at the top. *)
Definition info_boxes (screen : nat * nat) : win → box := λ w,
  let '(sh, sw) := screen in
  let hh := length INFO_HELP_LINES in
  if Nat.leb (hh + 2 + 1) sh then
    let th := sh - hh - 2 in
    match w with
    | TopSepWin => mkBox 0 0 1 sw
    | TextWin => mkBox 1 0 th sw
    | BotSepWin => mkBox (1 + th) 0 1 sw
    | _ => mkBox (1 + th + 1) 0 hh sw
    end
  else mkBox 0 0 1 sw.

(** [_resize_jump_to_dialog] *)
Definition jump_boxes (screen : nat * nat) : win → box := λ w,
  let '(sh, sw) := screen in
  let hh := length JUMP_TO_HELP_LINES in
  if Nat.leb (hh + 4 + 1) sh then
    let mh := sh - hh - 4 in
    match w with
    | EditBox => mkBox 0 0 3 sw
    | MatchesWin => mkBox 3 0 mh sw
    | BotSepWin => mkBox (3 + mh) 0 1 sw
    | _ => mkBox (3 + mh + 1) 0 hh sw
    end
  else match w with EditBox => mkBox 0 0 sh sw | _ => mkBox 0 0 1 sw end.

(** A dialog in the middle of the screen. *)
Definition centered (h w : nat) (screen : nat * nat) : box :=
  let '(sh, sw) := screen in mkBox ((sh - h) / 2) ((sw - w) / 2) h w.
Definition max_length (m : nat) (lines : list string) : nat := foldl (λ m l, Nat.max m (String.length l + 4)) m lines.

(** [_resize_input_dialog] *)
Definition input_box (title : string) (info_lines : list string) (screen : nat * nat) : box :=
  let h := match info_lines with [] => 5 | _ => 5 + (length info_lines + 1) end in
  let w := max_length (Nat.max INPUT_DIALOG_MIN_WIDTH (String.length title + 4)) info_lines in
  centered (Nat.min h (fst screen)) (Nat.min w (snd screen)) screen.

(** [_resize_key_dialog] *)
Definition key_box (text : string) (screen : nat * nat) : box :=
  let lines := split_char nl text in
  centered (Nat.min (length lines + 4) (fst screen)) (Nat.min (max_length 4 lines) (snd screen)) screen.

(** ** Calls *)

(** [str.expandtabs()] *)
Fixpoint expand_tabs (col : nat) (s : string) : string :=
  match s with
  | EmptyString => ""
  | String c s =>
      if Ascii.eqb c "009"%char then
        let n := 8 - col mod 8 in spaces n +:+ expand_tabs (col + n) s
      else if Ascii.eqb c nl || Ascii.eqb c "013"%char then String c (expand_tabs 0 s)
      else String c (expand_tabs (S col) s)
  end.

Section draw.
(** [_style], and the width of the windows drawn to. *)
Context (style : gmap string Z) (width : nat).

Definition get_style (name : string) : res attr :=
  match style !! name with Some a => Ok (name, a) | None => Err (KeyError name) end.

(** [_safe_addstr] *)
Definition safe_addstr (w : win) (y x : nat) (s : string) (a : option attr) : draw :=
  AddStr w y x (expand_tabs 0 s) (Z.of_nat width - Z.of_nat x) a.
Definition safe_addstr_here (w : win) (s : string) : draw := AddHere w (expand_tabs 0 s).

Fixpoint add_lines (w : win) (y x : nat) (lines : list string) : list draw :=
  match lines with [] => [] | l :: lines => safe_addstr w y x l None :: add_lines w (S y) x lines end.

(** [max((width - len(s))//2, 0)] *)
Definition center_x (s : string) : nat := (width - String.length s) / 2.

(** [_draw_frame] on a window of height [h]. *)
Definition draw_frame (w : win) (h : nat) (title : string) : res (list draw) :=
  let* a := get_style "frame" in
  Ok [AttrOn w a;
      HLine w 0 0 BLANK width None; HLine w (h - 1) 0 BLANK width None;
      VLine w 0 0 BLANK h; VLine w 0 (width - 1) BLANK h;
      safe_addstr w 0 (center_x title) title None;
      AttrOff w a].

(** [s[h:h + w]] with [h] not negative; an end below 0 counts from the back. *)
Definition visible_part (h w : Z) (s : string) : string :=
  let e := (h + w)%Z in
  let e := if (e <? 0)%Z then Z.max 0 (zlen s + e) else e in
  zstake (e - h) (zsdrop h s).

(** [_draw_input_dialog] *)
Definition draw_input_dialog (h : nat) (title : string) (info_lines : list string) (s : string) (i hscroll : Z)
    : res (list draw) :=
  let edit_width := (Z.of_nat width - 4)%Z in
  let visible_s := visible_part hscroll edit_width s in
  let* a := get_style "edit" in
  let* frame := draw_frame DialogWin h title in
  Ok ([Erase DialogWin;
       safe_addstr DialogWin 2 2 (visible_s +:+ spaces (Z.to_nat (edit_width - zlen visible_s))) (Some a)]
      ++ add_lines DialogWin 4 2 info_lines ++ frame ++ [Move DialogWin 2 (2 + i - hscroll)%Z; Refresh DialogWin]).

(** [_draw_key_dialog] *)
Definition draw_key_dialog (h : nat) (title text : string) : res (list draw) :=
  let* frame := draw_frame DialogWin h title in
  Ok ([Erase DialogWin] ++ add_lines DialogWin 2 2 (split_char nl text) ++ frame ++ [Refresh DialogWin]).

Definition scroll_arrow (w : win) (y : nat) (g : glyph) (a : option attr) : draw := HLine w y 4 g N_SCROLL_ARROWS a.

(** ** The main display *)

Section main.
Context (top : tnode) (vals : Conf → Vals).
(** [textwrap.wrap] *)
Context (wrap : string → nat → list string).

(** The title, [mainmenu_text]. *)
Definition mainmenu_text : res string :=
  match m_prompt (data top) with Some (t, _) => Ok t | None => Err TypeError end.

(** An entry of the menu. *)
Definition draw_entry (u : Ui) (i : nat) : res draw :=
  let* p := index (u_shown u) i in
  let* d := node top p in
  let* vis := visible (uconf u) (uvals vals u) d in
  let selected := Nat.eqb i (u_sel u) in
  let* a := get_style (if vis || negb (u_all u) then if selected then "selection" else "list"
                       else if selected then "inv-selection" else "inv-list") in
  let* s := node_str top (uconf u) (uvals vals u) (u_all u) (u_name u) p in
  Ok (safe_addstr MenuWin (i - u_scroll u) 0 s (Some a)).

Definition modes_text (u : Ui) : string :=
  match ((if u_help u then ["show-help (toggle with [F])"] else []) ++ (if u_name u then ["show-name"] else [])
         ++ (if u_all u then ["show-all"] else []))%list with
  | [] => ""
  | l => join " and " l +:+ " mode enabled"
  end.

(** The help window; [h] is its height. *)
Definition help_text (u : Ui) (h : nat) : res (list draw) :=
  if u_help u then
    let* p := sel_node u in
    let* d := node top p in
    match m_item d, node_help d with
    | (MSym _ | MChoice _ _), Some help =>
        if String.eqb help "" then Ok [safe_addstr HelpWin 0 0 "(no help)" None]
        else Ok (add_lines HelpWin 0 0 (take h (wrap help width)))
    | _, _ => Ok [safe_addstr HelpWin 0 0 "(no help)" None]
    end
  else Ok (add_lines HelpWin 0 0 MAIN_HELP_LINES).

(** The prompts of the menus around [p], the outermost first. *)
Fixpoint menu_prompts (p : list nat) : res (list string) :=
  match p with
  | [] => Ok ["(Top)"]
  | _ :: q =>
      let* d := node top p in
      let* l := menu_prompts q in
      let* t := match m_prompt d with
                | Some (t, _) => Ok t
                | None => match as_item (m_item d) with
                          | Some i => Ok (standard_sc_expr_str i)
                          | None => Err AttributeError
                          end
                end in
      Ok (l ++ [t])
  end.

Definition nul : ascii := "000".
Definition draw_path (p : list nat) : res (list draw) :=
  let* prompts := menu_prompts p in
  let s := join (" " +:+ String nul " ") prompts in
  let s := if Nat.ltb width (String.length s) then sdrop (String.length s - width) s else s in
  Ok (Erase PathWin ::
      (match split_char nul s with
       | [] => []
       | s :: l => safe_addstr_here PathWin s :: flat_map (λ s, [AddCh PathWin RARROW; safe_addstr_here PathWin s]) l
       end ++ [Refresh PathWin])).

(** [_draw_main]; [width] is that of the terminal. *)
Definition draw_main (u : Ui) : res (list draw) :=
  let* title := mainmenu_text in
  let* entries := res_map (draw_entry u)
    (seq (u_scroll u) (Nat.min (u_scroll u + u_height u) (length (u_shown u)) - u_scroll u)) in
  let* help := help_text u (b_h (main_boxes (u_help u) (u_screen u) HelpWin)) in
  let* path := draw_path (u_cur u) in
  let modes := modes_text u in
  Ok ([Erase TopSepWin]
      ++ (if Nat.ltb 0 (u_scroll u) then [scroll_arrow TopSepWin 0 UARROW None] else [])
      ++ [safe_addstr TopSepWin 0 (center_x title) title None; Refresh TopSepWin]
      ++ [Erase MenuWin] ++ entries ++ [Refresh MenuWin]
      ++ [Erase BotSepWin]
      ++ (if Nat.ltb (u_scroll u) (max_scroll (length (u_shown u)) (u_height u))
          then [scroll_arrow BotSepWin 0 DARROW None] else [])
      ++ (if String.eqb modes "" then [] else [safe_addstr BotSepWin 0 (width - String.length modes - 2) modes None])
      ++ [Refresh BotSepWin]
      ++ [Erase HelpWin] ++ help ++ [Refresh HelpWin]
      ++ path).

(** ** The jump-to and information dialogs *)

(** A match of the search. *)
Definition match_str (u : Ui) (d : mdata) : res string :=
  match m_item d with
  | MSym _ | MChoice _ _ =>
      match as_item (m_item d) with
      | Some i =>
          let* s := name_and_val_str (uconf u) (uvals vals u) i in
          Ok (s +:+ match m_prompt d with Some (t, _) => " " +:+ String quote (t +:+ String quote "") | None => "" end)
      | None => Err AttributeError
      end
  | it =>
      match m_prompt d with
      | Some (t, _) =>
          Ok ((match it with MMenu => "menu " | _ => "comment " end) +:+ String quote (t +:+ String quote ""))
      | None => Err TypeError
      end
  end.
Definition draw_match (u : Ui) (j : MMain.Jump) (i : nat) : res draw :=
  let* p := index (MMain.j_matches j) i in
  let* d := node top p in
  let* s := match_str u d in
  let* a := get_style (if Nat.eqb i (MMain.j_sel j) then "selection" else "list") in
  Ok (safe_addstr MatchesWin (i - MMain.j_scroll j) 0 s (Some a)).

(** [_draw_jump_to_dialog]; [bad_re] is the message for a bad expression and
    [h] the height of the edit box. *)
Definition draw_jump_to_dialog (u : Ui) (j : MMain.Jump) (bad_re : option string) (h : nat) : res (list draw) :=
  let n := length (MMain.j_matches j) in
  let* matches :=
    match MMain.j_matches j with
    | [] => Ok [safe_addstr MatchesWin 0 0
                  (match bad_re with Some s => if String.eqb s "" then "No matches" else s | None => "No matches" end) None]
    | _ => res_map (draw_match u j)
             (seq (MMain.j_scroll j) (Nat.min (MMain.j_scroll j + MMain.j_height j) n - MMain.j_scroll j))
    end in
  let* frame := draw_frame EditBox h "Jump to symbol/choice/menu/comment" in
  let* arrows := if Nat.ltb 0 (MMain.j_scroll j)
                 then let* a := get_style "frame" in Ok [scroll_arrow EditBox 2 UARROW (Some a)]
                 else Ok [] in
  let edit_width := (Z.of_nat width - 2)%Z in
  Ok ([Erase MatchesWin] ++ matches ++ [Refresh MatchesWin]
      ++ [Erase BotSepWin]
      ++ (if Nat.ltb (MMain.j_scroll j) (max_scroll n (MMain.j_height j)) then [scroll_arrow BotSepWin 0 DARROW None] else [])
      ++ [Refresh BotSepWin]
      ++ [Erase HelpWin] ++ add_lines HelpWin 0 0 JUMP_TO_HELP_LINES ++ [Refresh HelpWin]
      ++ [Erase EditBox] ++ frame ++ arrows
      ++ [safe_addstr EditBox 1 1 (visible_part (MMain.j_hscroll j) edit_width (MMain.j_s j)) None;
          Move EditBox 1 (1 + MMain.j_i j - MMain.j_hscroll j)%Z; Refresh EditBox]).

(** [_draw_info_dialog]; [h] is the height of the text window. *)
Definition info_title (it : mitem) : string :=
  (match it with MSym _ => "Symbol" | MChoice _ _ => "Choice" | MMenu => "Menu" | _ => "Comment" end) +:+ " information".
Definition draw_info_dialog (it : mitem) (lines : list string) (scroll h : nat) : list draw :=
  [Erase TextWin] ++ add_lines TextWin 0 0 (take h (drop scroll lines)) ++ [Refresh TextWin]
  ++ [Erase BotSepWin]
  ++ (if Nat.ltb scroll (max_scroll (length lines) h) then [scroll_arrow BotSepWin 0 DARROW None] else [])
  ++ [Refresh BotSepWin]
  ++ [Erase HelpWin] ++ add_lines HelpWin 0 0 INFO_HELP_LINES ++ [Refresh HelpWin]
  ++ [Erase TopSepWin]
  ++ (if Nat.ltb 0 scroll then [scroll_arrow TopSepWin 0 UARROW None] else [])
  ++ [safe_addstr TopSepWin 0 (center_x (info_title it)) (info_title it) None; Refresh TopSepWin].
End main.
End draw.
End MDraw.
