(* ===== verification/MNodeSpec.v ===== *)
(** * Which nodes are shown in a menu

    Every node shown in a menu belongs to it, once; in show-all mode all nodes
    that belong to the menu are shown. *)
From S2P Require Import Prelude Hex PyStr KExpr KSym KFinal KPrint KLinks MNode.

Module MNodeSpec.
Import Hex PyStr KExpr KSym KFinal KPrint MNode.

Section tree.
Context (top : tnode).

Notation node_at := (node_at top).
Definition exists_at (p : npath) : Prop := is_Some (node_at p).
Definition menuconfig_at (p : npath) : bool :=
  match node_at p with Some t => is_menuconfig (data t) | None => false end.

Lemma node_at_cons i p t : node_at p = Some t → node_at (i :: p) = children t !! i.
Proof. intros E. cbn. by rewrite E. Qed.
Lemma exists_tail i p : exists_at (i :: p) → exists_at p.
Proof. unfold exists_at. cbn. intros [t H]. destruct (node_at p); [by eexists|done]. Qed.
Lemma exists_suffix s p : exists_at (s ++ p) → exists_at p.
Proof. induction s as [|i s IH]; [done|]. intros H. by eapply IH, exists_tail. Qed.

(** No menu on the path from [s ++ p] up to [p], the lower end excluded. *)
Fixpoint inner (s p : npath) : Prop :=
  match s with [] => True | _ :: s => menuconfig_at (s ++ p) = false ∧ inner s p end.

Lemma inner_app s s' p : inner (s ++ s') p ↔ inner s (s' ++ p) ∧ inner s' p.
Proof. induction s as [|i s IH]; cbn; [tauto|]. rewrite <- (assoc_L (++)), IH. tauto. Qed.

Lemma up_menu_step q : exists_at q → menuconfig_at q = false → up_menu top q = parent_menu top q.
Proof.
  intros [t E] H. unfold menuconfig_at in H. rewrite E in H.
  destruct q; cbn [up_menu parent_menu]; by rewrite E, H.
Qed.
Lemma up_menu_here q : menuconfig_at q = true → up_menu top q = Ok q.
Proof. unfold menuconfig_at. intros H. destruct q; cbn [up_menu]; (destruct (node_at _); [by rewrite H|done]). Qed.

(** The menu of a node below [j :: m] that no menu separates from it. *)
Lemma parent_menu_inner s j m :
  exists_at (s ++ j :: m) → inner s (j :: m) → parent_menu top (s ++ j :: m) = up_menu top m.
Proof.
  induction s as [|i s IH]; [done|]. intros He [Hm Hi]. cbn [app] in *. apply exists_tail in He.
  cbn [parent_menu]. rewrite up_menu_step; [by apply IH|done|done].
Qed.

Lemma up_menu_inv q m : up_menu top q = Ok m →
  menuconfig_at m = true ∧
  (q = m ∨ menuconfig_at q = false ∧ ∃ s j, q = s ++ j :: m ∧ inner s (j :: m)).
Proof.
  induction q as [|i q IH]; intros H.
  - unfold menuconfig_at. cbn [up_menu] in H. destruct (node_at []) as [t|] eqn:E; [|done].
    destruct (is_menuconfig _) eqn:Em; [|done]. injection H as <-. rewrite E. auto.
  - cbn [up_menu] in H. destruct (node_at (i :: q)) as [t|] eqn:E; [|done].
    destruct (is_menuconfig _) eqn:Em.
    + injection H as <-. unfold menuconfig_at. rewrite E. auto.
    + destruct (IH H) as (Hm & Hq). split; [done|]. right.
      split; [unfold menuconfig_at; by rewrite E|]. destruct Hq as [->|(Hq & s & j & -> & Hi)].
      * by exists [], i.
      * by exists (i :: s), j.
Qed.

Lemma parent_menu_inv q m : parent_menu top q = Ok m →
  menuconfig_at m = true ∧ ∃ s j, q = s ++ j :: m ∧ inner s (j :: m).
Proof.
  destruct q as [|i q]; [done|]. intros H%up_menu_inv. destruct H as [Hm [->|(Hq & s & j & -> & Hi)]]; (split; [done|]).
  - by exists [], i.
  - by exists (i :: s), j.
Qed.

(** ** The nodes shown *)

Section values.
Context (C : Conf) (V : Vals) (all : bool).

Notation shown_node := (shown_node C V all).

(** [q] is at or below [p], with no menu in between. *)
Definition below (p q : npath) : Prop := ∃ s, q = s ++ p ∧ inner s p ∧ exists_at q.

Lemma shown_list_cons p i t l :
  shown_list shown_node p i (t :: l) =
  (let* a := shown_node (i :: p) t in let* b := shown_list shown_node p (S i) l in Ok (a ++ b)).
Proof. done. Qed.

Lemma below_child i p q : menuconfig_at p = false → below (i :: p) q → below p q.
Proof.
  intros Hm (s & -> & Hs & He). exists (s ++ [i]). rewrite <- (assoc_L (++)). split; [done|]. split; [|done].
  apply inner_app. split; [done|]. cbn. by split.
Qed.

Lemma shown_node_list_below (P : npath → npath → Prop) p l :
  ∀ i r, shown_list shown_node p i l = Ok r →
  (∀ k t r, l !! k = Some t → shown_node ((i + k) :: p) t = Ok r → Forall (P ((i + k) :: p)) r) →
  Forall (λ q, ∃ k, k < length l ∧ P ((i + k) :: p) q) r.
Proof.
  induction l as [|t l IH]; intros i r; [by intros [= <-]|]. rewrite shown_list_cons. intros H Hl.
  destruct (shown_node (i :: p) t) as [a|] eqn:Ea; [|done]. cbn in H.
  destruct (shown_list shown_node p (S i) l) as [b|] eqn:Eb; [|done]. injection H as <-.
  apply Forall_app. split.
  - specialize (Hl 0 t a eq_refl). rewrite Nat.add_0_r in Hl. eapply Forall_impl; [by apply Hl|].
    intros q Hq. exists 0. rewrite Nat.add_0_r. cbn. split; [lia|done].
  - assert (H := IH _ _ Eb). eapply Forall_impl; [apply H|].
    + intros k t' r Hk. replace (S i + k) with (i + S k) by lia. by apply Hl.
    + cbn. intros q (k & Hk & Hq). exists (S k). split; [lia|]. by replace (i + S k) with (S i + k) by lia.
Qed.

Lemma shown_node_below t : ∀ p r, node_at p = Some t → shown_node p t = Ok r → Forall (below p) r.
Proof.
  induction t as [d ch IH] using KLinks.tnode_ind'. intros p r Ep H. rewrite Forall_lookup in IH.
  assert (below p p) as Hp by (exists []; repeat split; by eexists).
  assert (∀ sub, menuconfig_at p = false → shown_list shown_node p 0 ch = Ok sub → Forall (below p) sub) as Hsub.
  { intros sub Hm Hs. eapply Forall_impl.
    - apply (shown_node_list_below below p ch 0 sub Hs). intros k t' r' Hk. apply (IH k t' Hk).
      by rewrite (node_at_cons _ _ _ Ep).
    - cbn. intros q (k & _ & Hq). by eapply below_child. }
  assert (menuconfig_at p = is_menuconfig d) as Em by (unfold menuconfig_at; by rewrite Ep).
  cbn in H. destruct (visible C V d) as [vis|]; [|done]. cbn in H. destruct (vis || all).
  - destruct ch as [|c ch]; [injection H as <-; by constructor|].
    destruct (is_menuconfig d) eqn:E; [injection H as <-; by constructor|].
    destruct (shown_list _ _ _ _) as [sub|] eqn:Es; [|done]. injection H as <-.
    constructor; [done|]. by apply Hsub.
  - destruct ch as [|c ch]; [by injection H as <-|]. destruct (is_symbol _); [|by injection H as <-].
    destruct (shown_list _ _ _ _) as [[|q sub]|] eqn:Es; [by injection H as <-| |done]. injection H as <-.
    constructor; [done|]. destruct (is_menuconfig d) eqn:E; [done|]. by apply Hsub.
Qed.
(** A list of siblings: the lists of the nodes, one after the other. *)
Lemma shown_list_lookup p l : ∀ i r k t, shown_list shown_node p i l = Ok r → l !! k = Some t →
  ∃ r', shown_node ((i + k) :: p) t = Ok r' ∧ r' ⊆ r.
Proof.
  induction l as [|t l IH]; intros i r k t' H Hk; [done|]. rewrite shown_list_cons in H.
  destruct (shown_node (i :: p) t) as [a|] eqn:Ea; [|done]. cbn in H.
  destruct (shown_list shown_node p (S i) l) as [b|] eqn:Eb; [|done]. injection H as <-.
  destruct k as [|k]; cbn in Hk.
  - injection Hk as ->. rewrite Nat.add_0_r. exists a. split; [done|]. set_solver.
  - destruct (IH _ _ _ _ Eb Hk) as (r' & Hr & Hs). exists r'. replace (i + S k) with (S i + k) by lia.
    split; [done|]. set_solver.
Qed.

Lemma below_suffix p q : below p q → ∃ s, q = s ++ p.
Proof. intros (s & -> & _). by exists s. Qed.
Lemma below_apart p i j q : below (i :: p) q → below (j :: p) q → i = j.
Proof.
  intros (s & -> & _) (s' & E & _).
  assert (length s = length s') as Hl by (apply (f_equal length) in E; rewrite !length_app in E; cbn in E; lia).
  apply app_inj_1 in E as [_ E]; [|done]. by injection E.
Qed.

Lemma shown_list_nodup p l : ∀ i r, shown_list shown_node p i l = Ok r →
  (∀ k t r, l !! k = Some t → shown_node ((i + k) :: p) t = Ok r → NoDup r ∧ Forall (below ((i + k) :: p)) r) →
  NoDup r.
Proof.
  induction l as [|t l IH]; intros i r H Hl; [injection H as <-; constructor|]. rewrite shown_list_cons in H.
  destruct (shown_node (i :: p) t) as [a|] eqn:Ea; [|done]. cbn in H.
  destruct (shown_list shown_node p (S i) l) as [b|] eqn:Eb; [|done]. injection H as <-.
  assert (∀ k t r, l !! k = Some t → shown_node ((S i + k) :: p) t = Ok r →
            NoDup r ∧ Forall (below ((S i + k) :: p)) r) as Hl'.
  { intros k t' r Hk. replace (S i + k) with (i + S k) by lia. by apply Hl. }
  destruct (Hl 0 t a eq_refl) as [Ha Ha']; [by rewrite Nat.add_0_r|].
  apply NoDup_app. split; [done|]. split; [|by apply (IH _ _ Eb)].
  intros q Hqa Hqb. rewrite Forall_forall in Ha'. apply Ha' in Hqa.
  eapply (shown_node_list_below below) in Eb; [|intros k t' r Hk Hr; by apply (Hl' k t' r)].
  rewrite Forall_forall in Eb. destruct (Eb _ Hqb) as (k & _ & Hk).
  eapply below_apart in Hk; [|exact Hqa]. lia.
Qed.

Lemma not_below_parent p k : ¬ below (k :: p) p.
Proof. intros (s & E & _). apply (f_equal length) in E. rewrite length_app in E. cbn in E. lia. Qed.

Lemma shown_node_nodup t : ∀ p r, node_at p = Some t → shown_node p t = Ok r → NoDup r.
Proof.
  induction t as [d ch IH] using KLinks.tnode_ind'. intros p r Ep H. rewrite Forall_lookup in IH.
  assert (∀ k t' r', ch !! k = Some t' → shown_node ((0 + k) :: p) t' = Ok r' →
            NoDup r' ∧ Forall (below ((0 + k) :: p)) r') as Hch.
  { intros k t' r' Hk Hr. assert (node_at ((0 + k) :: p) = Some t') as E by (by rewrite (node_at_cons _ _ _ Ep)).
    split; [by eapply IH|by eapply shown_node_below]. }
  assert (∀ sub, shown_list shown_node p 0 ch = Ok sub → NoDup sub ∧ p ∉ sub) as Hsub.
  { intros sub Hs. split; [by eapply shown_list_nodup|]. intros Hp.
    eapply (shown_node_list_below below) in Hs; [|intros k t' r' Hk Hr; by apply (Hch k t' r')].
    rewrite Forall_forall in Hs. destruct (Hs _ Hp) as (k & _ & Hk). by apply not_below_parent in Hk. }
  cbn in H. destruct (visible C V d) as [vis|]; [|done]. cbn in H.
  destruct (shown_list (λ p, shown_node p) p 0 ch) as [sub|] eqn:Es.
  - destruct (Hsub sub eq_refl) as [Hn Hp].
    destruct (vis || all), ch as [|c ch], (is_menuconfig d), (is_symbol (m_item d)), sub; cbn in H;
      injection H as <-; repeat first [by constructor | apply NoDup_singleton | constructor]; done.
  - destruct (vis || all), ch as [|c ch], (is_menuconfig d), (is_symbol (m_item d)); cbn in H; try done;
      injection H as <-; first [by apply NoDup_nil | apply NoDup_singleton].
Qed.

(** A menu: its nodes have it as their menu, and are shown once. *)
Lemma shown_below_sound m t r : node_at m = Some t → menuconfig_at m = true → shown_below C V all m t = Ok r →
  Forall (λ q, exists_at q ∧ parent_menu top q = Ok m) r ∧ NoDup r.
Proof.
  intros Em Hm H. unfold shown_below in H. destruct t as [d ch]. cbn [MNode.children] in H.
  assert (∀ k t' r', ch !! k = Some t' → shown_node ((0 + k) :: m) t' = Ok r' →
            NoDup r' ∧ Forall (below ((0 + k) :: m)) r') as Hch.
  { intros k t' r' Hk Hr. assert (node_at ((0 + k) :: m) = Some t') as E by (by rewrite (node_at_cons _ _ _ Em)).
    split; [by eapply shown_node_nodup|by eapply shown_node_below]. }
  split; [|by eapply shown_list_nodup]. eapply Forall_impl.
  - apply (shown_node_list_below below _ _ _ _ H). intros k t' r' Hk Hr. by apply (Hch k t' r').
  - cbn. intros q (k & _ & s & -> & Hi & He). split; [done|]. rewrite parent_menu_inner; [|done|done].
    by apply up_menu_here.
Qed.

(** Evaluation of all prompts and visibilities succeeds. *)
Definition evaluates : Prop := ∀ q t, node_at q = Some t → ∃ b, visible C V (data t) = Ok b.

Lemma shown_list_total p l : ∀ i, (∀ k t, l !! k = Some t → ∃ r, shown_node ((i + k) :: p) t = Ok r) →
  ∃ r, shown_list shown_node p i l = Ok r.
Proof.
  induction l as [|t l IH]; intros i Hl; [by eexists|]. rewrite shown_list_cons.
  destruct (Hl 0 t eq_refl) as [a Ha]. rewrite Nat.add_0_r in Ha. rewrite Ha. cbn.
  destruct (IH (S i)) as [b ->]; [|by eexists]. intros k t' Hk. replace (S i + k) with (i + S k) by lia.
  by apply Hl.
Qed.
Lemma shown_node_total t : evaluates → ∀ p, node_at p = Some t → ∃ r, shown_node p t = Ok r.
Proof.
  intros HE. induction t as [d ch IH] using KLinks.tnode_ind'. intros p Ep. rewrite Forall_lookup in IH.
  assert (∃ r, shown_list shown_node p 0 ch = Ok r) as [sub Es].
  { apply shown_list_total. intros k t Hk. apply (IH _ _ Hk). by rewrite (node_at_cons _ _ _ Ep). }
  destruct (HE _ _ Ep) as [b Hb]. cbn in Hb |- *. rewrite Hb. cbn [res_bind].
  destruct (shown_list (λ p, shown_node p) p 0 ch) as [sub'|] eqn:Es'; [|congruence].
  destruct (b || all), ch, (is_menuconfig d), (is_symbol (m_item d)); by eexists.
Qed.
Lemma shown_below_total m t : evaluates → node_at m = Some t → ∃ r, shown_below C V all m t = Ok r.
Proof.
  intros HE Em. apply shown_list_total. intros k t' Hk. apply shown_node_total; [done|].
  by rewrite (node_at_cons _ _ _ Em).
Qed.
End values.

(** Show-all mode: all nodes of the menu. *)
Section all.
Context (C : Conf) (V : Vals).
Notation shown_node := (shown_node C V true).

Lemma shown_node_self p t r : shown_node p t = Ok r → p ∈ r.
Proof.
  destruct t as [d ch]. cbn. destruct (visible C V d) as [vis|]; [|done]. cbn. rewrite orb_true_r.
  destruct ch as [|c ch]; [intros [= <-]; by left|]. destruct (is_menuconfig d); [intros [= <-]; by left|].
  destruct (shown_list _ _ _ _); [|done]. intros [= <-]. by left.
Qed.
Lemma shown_node_all t : ∀ p r s, node_at p = Some t → shown_node p t = Ok r →
  inner s p → exists_at (s ++ p) → s ++ p ∈ r.
Proof.
  induction t as [d ch IH] using KLinks.tnode_ind'. intros p r s Ep H Hi He. rewrite Forall_lookup in IH.
  destruct s as [|k s _] using rev_ind; [by eapply shown_node_self|].
  apply inner_app in Hi as [Hi Hk]. rewrite <- (assoc_L (++)) in *. cbn in Hi, Hk, He |- *.
  assert (Ec := exists_suffix _ _ He). destruct Ec as [c Ec]. assert (Ec' := Ec). rewrite (node_at_cons _ _ _ Ep) in Ec'.
  destruct Hk as [Hm _]. unfold menuconfig_at in Hm. rewrite Ep in Hm. cbn in Hm, Ec', H.
  destruct (visible C V d) as [vis|]; [|done]. cbn in H. rewrite orb_true_r, Hm in H.
  destruct ch as [|c' ch]; [done|]. set (ch' := c' :: ch) in *.
  change (shown_list (λ p, shown_node p) p 0 ch') with (shown_list shown_node p 0 ch') in H.
  destruct (shown_list shown_node p 0 ch') as [sub|] eqn:Es; [|done]. injection H as <-.
  destruct (shown_list_lookup _ _ _ _ _ _ _ _ _ Es Ec') as (r' & Hr' & Hs). right. apply Hs.
  by eapply (IH _ _ Ec').
Qed.
Lemma shown_below_all m t r q : node_at m = Some t → shown_below C V true m t = Ok r →
  exists_at q → parent_menu top q = Ok m → q ∈ r.
Proof.
  intros Em H He (_ & s & k & -> & Hi)%parent_menu_inv. assert (Ec := exists_suffix _ _ He). destruct Ec as [c Ec].
  assert (Ec' := Ec). rewrite (node_at_cons _ _ _ Em) in Ec'.
  destruct (shown_list_lookup _ _ _ _ _ _ _ _ _ H Ec') as (r' & Hr' & Hs). apply Hs. by eapply shown_node_all.
Qed.
End all.
End tree.
End MNodeSpec.
