(* ===== verification/MShownSpec.v ===== *)
(** * The nodes shown when a menu is entered, choices included

    [shown_nodes] of a menu, a symbol with entries or a choice; a choice shows
    the nodes of all its locations. *)
From S2P Require Import Prelude Hex PyStr KExpr KSym KFinal KFinalSpec KMenu KPrint KLinks KInit KInitSpec MNode MNodeSpec.

Module MShownSpec.
Import Hex PyStr KExpr KSym KFinal KPrint MNode MNodeSpec.

Section tree.
Context (top : tnode).

Notation node_at := (node_at top).
Notation exists_at := (exists_at top).
Notation menuconfig_at := (menuconfig_at top).

(** ** All nodes of the tree *)

Definition siblings (p : npath) : nat → list tnode → list npath :=
  fix go (i : nat) (l : list tnode) : list npath :=
    match l with [] => [] | t :: l => (i :: p) :: paths_below (i :: p) t ++ go (S i) l end.

Lemma paths_eq p d l : paths_below p (TNode d l) = siblings p 0 l.
Proof. done. Qed.

Lemma siblings_in p l : ∀ i q,
  q ∈ siblings p i l ↔ ∃ k t, l !! k = Some t ∧ (q = (i + k) :: p ∨ q ∈ paths_below ((i + k) :: p) t).
Proof.
  induction l as [|t l IH]; intros i q; cbn [siblings]; [split; [by intros ?%not_elem_of_nil|by intros (k & t & ? & _)]|].
  rewrite elem_of_cons, elem_of_app, IH. split.
  - intros [->|[H|(k & t' & Hk & H)]].
    + exists 0, t. rewrite Nat.add_0_r. auto.
    + exists 0, t. rewrite Nat.add_0_r. auto.
    + exists (S k), t'. replace (i + S k) with (S i + k) by lia. auto.
  - intros ([|k] & t' & Hk & H).
    + injection Hk as ->. rewrite Nat.add_0_r in H. tauto.
    + right. right. exists k, t'. replace (S i + k) with (i + S k) by lia. auto.
Qed.

Lemma paths_in t : ∀ p q, node_at p = Some t →
  q ∈ paths_below p t ↔ exists_at q ∧ ∃ s, s ≠ [] ∧ q = s ++ p.
Proof.
  induction t as [d ch IH] using KLinks.tnode_ind'. intros p q Ep. rewrite Forall_lookup in IH.
  rewrite paths_eq, siblings_in. cbn [Nat.add]. split.
  - intros (k & t & Hk & H). assert (node_at (k :: p) = Some t) as E by (by rewrite (node_at_cons _ _ _ _ Ep)).
    destruct H as [->|H].
    + split; [by eexists|]. by exists [k].
    + apply (IH _ _ Hk _ _ E) in H as (He & s & Hs & ->). split; [done|]. exists (s ++ [k]).
      rewrite <- (assoc_L (++)). split; [by destruct s|done].
  - intros (He & s & Hs & ->). destruct s as [|k s _] using rev_ind; [done|]. rewrite <- (assoc_L (++)) in *.
    cbn in *. assert (Ec := exists_suffix _ _ _ He). destruct Ec as [c Ec]. assert (Ec' := Ec).
    rewrite (node_at_cons _ _ _ _ Ep) in Ec'. exists k, c. split; [done|].
    destruct s as [|j s]; [by left|]. right. apply (IH _ _ Ec' _ _ Ec). split; [done|]. by exists (j :: s).
Qed.

Lemma nodes_of_in it q : q ∈ nodes_of top it ↔ q ≠ [] ∧ ∃ t, node_at q = Some t ∧ m_item (data t) = it.
Proof.
  unfold nodes_of. rewrite list_elem_of_filter, (paths_in top [] q eq_refl). unfold has_item, MNodeSpec.exists_at. split.
  - intros (H & _ & s & Hs & ->). rewrite app_nil_r in *. split; [done|].
    destruct (MNode.node_at top s) as [t|]; [|done]. exists t. split; [done|]. by apply bool_decide_eq_true in H.
  - intros (Hq & t & E & Hi). rewrite E, bool_decide_true by done. split; [done|]. split; [by eexists|].
    exists q. by rewrite app_nil_r.
Qed.

Lemma paths_nodup t : ∀ p, node_at p = Some t → NoDup (paths_below p t).
Proof.
  induction t as [d ch IH] using KLinks.tnode_ind'. intros p Ep. rewrite Forall_lookup in IH. rewrite paths_eq.
  assert (∀ k t, ch !! k = Some t → node_at ((0 + k) :: p) = Some t) as Hch.
  { intros k t Hk. by rewrite (node_at_cons _ _ _ _ Ep). }
  assert (∀ k t, ch !! k = Some t → NoDup (paths_below ((0 + k) :: p) t)) as Hn.
  { intros k t Hk. apply (IH _ _ Hk). by apply Hch. }
  clear IH Ep. revert Hch Hn. generalize 0. induction ch as [|t ch IHl]; intros i Hch Hn; [constructor|].
  cbn [siblings]. assert (node_at (i :: p) = Some t) as E by (rewrite <- (Nat.add_0_r i); by apply Hch).
  assert (∀ k t, ch !! k = Some t → node_at ((S i + k) :: p) = Some t) as Hch'.
  { intros k t' Hk. replace (S i + k) with (i + S k) by lia. by apply Hch. }
  assert (∀ j q, S i ≤ j → q = j :: p ∨ (∃ s, q = s ++ j :: p) → q ≠ i :: p ∧ ¬ ∃ s, q = s ++ i :: p) as Hd.
  { intros j q Hj Hq. assert (∃ s, q = s ++ j :: p) as [s ->] by (destruct Hq as [->|?]; [by exists []|done]).
    assert (¬ ∃ s', s ++ j :: p = s' ++ i :: p) as H.
    { intros [s' H]. assert (length s = length s') as Hl.
      { apply (f_equal length) in H. rewrite !length_app in H. cbn in H. lia. }
      apply app_inj_1 in H as [_ H]; [|done]. injection H. lia. }
    split; [|done]. intros H'. apply H. by exists []. }
  assert (∀ q, q ∈ siblings p (S i) ch → q ≠ i :: p ∧ ¬ ∃ s, q = s ++ i :: p) as Hs.
  { intros q (k & t' & Hk & Hq)%siblings_in. apply (Hd (S i + k)); [lia|]. destruct Hq as [->|Hq]; [by left|].
    apply (paths_in _ _ _ (Hch' _ _ Hk)) in Hq as (_ & s & _ & ->). right. by exists s. }
  constructor.
  - rewrite elem_of_app. intros [H|H].
    + apply (paths_in _ _ _ E) in H as (_ & s & Hs' & H). apply (f_equal length) in H. rewrite length_app in H.
      cbn in H. destruct s; [done|]. cbn in H. lia.
    + by apply Hs in H as [? _].
  - apply NoDup_app. split; [rewrite <- (Nat.add_0_r i); by apply Hn|]. split.
    + intros q Hq Hq'. apply Hs in Hq' as [_ H]. apply H. apply (paths_in _ _ _ E) in Hq as (_ & s & _ & ->). by exists s.
    + apply IHl; [done|]. intros k t' Hk. replace (S i + k) with (i + S k) by lia. by apply Hn.
Qed.
Lemma nodes_of_nodup it : NoDup (nodes_of top it).
Proof. apply NoDup_filter. by apply paths_nodup. Qed.

(** ** Choices *)

(** Choices, menus and the top node are entered, as the parser makes them. *)
Record wf_tree : Prop := {
  wf_top : menuconfig_at [] = true;
  wf_menu : m_item (data top) = MMenu;
  wf_choice : ∀ q t, node_at q = Some t → KInitSpec.menu_item (m_item (data t)) = true → menuconfig_at q = true
}.

Lemma every_at (P : mdata → Prop) q t : KLinks.every P top → node_at q = Some t → KLinks.every P t.
Proof.
  intros H. revert t; induction q as [|i q IH]; intros t E; [by injection E as <-|]. cbn in E.
  destruct (node_at q) as [t'|]; [|done]. specialize (IH _ eq_refl). inversion IH as [d ch _ Hc]; subst.
  cbn in E. by eapply Forall_lookup_1.
Qed.
Lemma entered_wf : KLinks.every KInitSpec.entered top → m_item (data top) = MMenu → wf_tree.
Proof.
  intros H Ht. assert (∀ q t, node_at q = Some t → KInitSpec.menu_item (m_item (data t)) = true → menuconfig_at q = true) as Hq.
  { intros q t E Hi. apply (every_at _ _ _ H) in E as E'. inversion E' as [d ch Hd _]; subst.
    unfold MNodeSpec.menuconfig_at. rewrite E. apply Hd in Hi. cbn. unfold is_menuconfig.
    by destruct (m_info d) as [i|]; [injection Hi as ->|]. }
  split; [|done|done]. apply (Hq [] top eq_refl). by rewrite Ht.
Qed.

Lemma add_nodes here l : ∀ seen res, ∃ seen' l',
  foldl (add_choice_node top here) (seen, res) l = (seen', res ++ l') ∧ sublist l' l ∧ (here = true → l' = l).
Proof.
  induction l as [|p l IH]; intros seen res; cbn [foldl]; [exists seen, []; rewrite app_nil_r; by repeat split|].
  assert (∃ seen' l0, add_choice_node top here (seen, res) p = (seen', res ++ l0) ∧
            (l0 = [p] ∨ l0 = []) ∧ (here = true → l0 = [p])) as (seen1 & l0 & -> & Hl & Hh).
  { unfold add_choice_node. destruct (sym_at top p) as [n|]; [|by exists seen, [p]; auto].
    destruct (bool_decide (n ∉ seen) || here) eqn:E; [by exists (n :: seen), [p]; auto|].
    exists seen, []. rewrite app_nil_r. split; [done|]. split; [by right|]. intros ->. by rewrite orb_true_r in E. }
  destruct (IH seen1 (res ++ l0)) as (seen2 & l' & -> & Hs & Hh').
  exists seen2, (l0 ++ l'). rewrite (assoc_L (++)). split; [done|]. split.
  - destruct Hl as [->| ->]; [by apply sublist_skip|by apply sublist_cons].
  - intros H. by rewrite (Hh H), (Hh' H).
Qed.

Section values.
Context (C : Conf) (V : Vals) (all : bool) (Wf : wf_tree).

Definition locations (m : npath) : list npath :=
  match item_at top m with Some (MChoice id nm) => nodes_of top (MChoice id nm) | _ => [m] end.

(** The locations of a choice are gone through in order; each adds some of the
    nodes shown there, and that of the menu entered all. *)
Definition added (m : npath) (q : npath) (l l' : list npath) : Prop :=
  sublist l' l ∧ (q = m → l' = l).
Lemma choice_fold m locs : ∀ seen res sr,
  res_fold (choice_location top C V all m) (seen, res) locs = Ok sr →
  ∃ ls ls', sr.2 = res ++ concat ls' ∧
    Forall2 (λ q l, ∃ t, node_at q = Some t ∧ shown_below C V all q t = Ok l) locs ls ∧
    Forall3 (added m) locs ls ls'.
Proof.
  induction locs as [|q locs IH]; intros seen res sr; cbn [res_fold].
  - intros [= <-]. exists [], []. cbn. rewrite app_nil_r. by repeat constructor.
  - intros H. unfold choice_location at 1, get_node in H.
    destruct (node_at q) as [t|] eqn:Eq; [|done]. cbn [res_bind] in H.
    destruct (shown_below C V all q t) as [l|] eqn:El; [|done]. cbn [res_bind] in H.
    destruct (add_nodes (bool_decide (q = m)) l seen res) as (seen' & l' & E & Hs & Hh). rewrite E in H.
    apply IH in H as (ls & ls' & -> & H2 & H3). exists (l :: ls), (l' :: ls'). cbn.
    rewrite (assoc_L (++)). split; [done|]. split; [by constructor; eauto|]. constructor; [|done].
    split; [done|]. intros Hq. apply Hh. by apply bool_decide_eq_true.
Qed.

Lemma choice_fold_total m locs : evaluates top C V → Forall exists_at locs → ∀ sr,
  ∃ sr', res_fold (choice_location top C V all m) sr locs = Ok sr'.
Proof.
  intros HE Hl. induction Hl as [|q locs [t Et] Hl IH]; intros sr; cbn [res_fold]; [by eexists|].
  unfold choice_location at 1, get_node. rewrite Et. cbn [res_bind].
  destruct (shown_below_total top C V all q t HE Et) as [l ->]. cbn [res_bind]. apply IH.
Qed.

Lemma item_at_eq m t : node_at m = Some t → item_at top m = Some (m_item (data t)).
Proof. unfold item_at. by intros ->. Qed.
Lemma not_top m t id nm : node_at m = Some t → m_item (data t) = MChoice id nm → m ≠ [].
Proof. intros E Hi ->. cbn in E. injection E as <-. rewrite (wf_menu Wf) in Hi. done. Qed.

(** Locations are menus that exist, and the menu itself is one. *)
Lemma locations_menu m m' : exists_at m → menuconfig_at m = true → m' ∈ locations m →
  exists_at m' ∧ menuconfig_at m' = true ∧ item_at top m' = item_at top m.
Proof.
  intros [t E] Hm. unfold locations. rewrite (item_at_eq _ _ E).
  destruct (m_item (data t)) eqn:Ei; try (intros ->%list_elem_of_singleton; rewrite (item_at_eq _ _ E), Ei;
    split; [by eexists|done]).
  intros (Hq & t' & E' & Hi)%nodes_of_in. split; [by eexists|]. split; [by eapply (wf_choice Wf); [|rewrite Hi]|].
  by rewrite (item_at_eq _ _ E'), Hi.
Qed.
Lemma locations_self m : exists_at m → m ∈ locations m.
Proof.
  intros [t E]. unfold locations. rewrite (item_at_eq _ _ E).
  destruct (m_item (data t)) eqn:Ei; try by apply list_elem_of_singleton.
  apply nodes_of_in. split; [by eapply not_top|]. by exists t.
Qed.
Lemma locations_nodup m : NoDup (locations m).
Proof. unfold locations. destruct (item_at top m) as [[]|]; try apply NoDup_singleton. apply nodes_of_nodup. Qed.

(** [shown_nodes] puts together the nodes of all locations. *)
Lemma shown_nodes_lists m r : exists_at m → shown_nodes top C V all m = Ok r → ∃ ls ls',
  r = concat ls' ∧
  Forall2 (λ q l, ∃ t, node_at q = Some t ∧ shown_below C V all q t = Ok l) (locations m) ls ∧
  Forall3 (added m) (locations m) ls ls'.
Proof.
  intros [t E]. unfold shown_nodes, get_node, locations. rewrite (item_at_eq _ _ E), E. cbn [res_bind].
  assert (shown_below C V all m t = Ok r → ∃ ls ls', r = concat ls' ∧
    Forall2 (λ q l, ∃ t, node_at q = Some t ∧ shown_below C V all q t = Ok l) [m] ls ∧
    Forall3 (added m) [m] ls ls') as Hone.
  { intros H. exists [r], [r]. cbn. rewrite app_nil_r. split; [done|]. split.
    - constructor; [by exists t|constructor].
    - constructor; [by split|constructor]. }
  destruct (m_item (data t)) as [n|id nm| | |]; try exact Hone. intros H.
  destruct (shown_below C V all m t) as [l|]; [|done]. cbn [res_bind] in H.
  destruct (res_fold _ _ _) as [sr|] eqn:Ef; [|done]. injection H as <-.
  by apply choice_fold in Ef as (ls & ls' & -> & H2 & H3); exists ls, ls'.
Qed.

Lemma shown_nodes_total m : evaluates top C V → exists_at m → ∃ r, shown_nodes top C V all m = Ok r.
Proof.
  intros HE [t E]. unfold shown_nodes, get_node. rewrite E. cbn [res_bind].
  destruct (shown_below_total top C V all m t HE E) as [l El].
  destruct (m_item (data t)) as [n|id nm| | |]; try by exists l. rewrite El. cbn [res_bind].
  destruct (choice_fold_total m (nodes_of top (MChoice id nm)) HE) with (sr := (omap (sym_at top) l, [] : list npath))
    as [sr ->]; [|by eexists].
  apply Forall_forall. intros q (_ & t' & ? & _)%nodes_of_in. by eexists.
Qed.

(** Every node shown belongs to the menu, or to another location of the
    choice; none is shown twice. *)
Lemma concat_added m qs ls ls' :
  Forall2 (λ q l, Forall (λ p, exists_at p ∧ parent_menu top p = Ok q) l ∧ NoDup l) qs ls →
  Forall3 (added m) qs ls ls' → NoDup qs →
  Forall (λ p, exists_at p ∧ ∃ q, q ∈ qs ∧ parent_menu top p = Ok q) (concat ls') ∧ NoDup (concat ls').
Proof.
  intros H2 H3. revert H2. induction H3 as [|q l l' qs ls ls' [Hs _] H3 IH]; intros H2 Hn;
    [split; constructor|]. inversion H2 as [|?? ?? [Hl Hnl] H2']; subst. inversion Hn as [|?? Hq Hn']; subst.
  destruct (IH H2' Hn') as [Ha Hc]. cbn. rewrite Forall_forall in Hl. rewrite Forall_forall in Ha.
  assert (∀ p, p ∈ l' → exists_at p ∧ parent_menu top p = Ok q) as Hl'.
  { intros p Hp. apply Hl. eapply elem_of_submseteq; [done|by apply sublist_submseteq]. }
  split.
  - apply Forall_app. split; apply Forall_forall; intros p Hp.
    + destruct (Hl' p Hp) as [He Hm]. split; [done|]. exists q. split; [by left|done].
    + destruct (Ha p Hp) as (He & q' & Hq' & Hm). split; [done|]. exists q'. split; [by right|done].
  - apply NoDup_app. split; [by apply (sublist_NoDup _ l)|]. split; [|done].
    intros p Hp Hp'. destruct (Hl' p Hp) as [_ Hm]. destruct (Ha p Hp') as (_ & q' & Hq' & Hm').
    rewrite Hm in Hm'. injection Hm' as ->. done.
Qed.
Lemma shown_nodes_sound m r : exists_at m → menuconfig_at m = true → shown_nodes top C V all m = Ok r →
  Forall (λ p, exists_at p ∧ ∃ q, q ∈ locations m ∧ parent_menu top p = Ok q) r ∧ NoDup r.
Proof.
  intros He Hm H. destruct (shown_nodes_lists m r He H) as (ls & ls' & -> & H2 & H3).
  eapply concat_added; [|done|apply locations_nodup]. apply Forall2_same_length_lookup in H2 as [Hlen H2].
  apply Forall2_same_length_lookup. split; [done|]. intros i q l Hq Hl.
  destruct (H2 i q l Hq Hl) as (t & Et & Es). eapply shown_below_sound; [done| |done].
  by eapply locations_menu, list_elem_of_lookup_2.
Qed.
End values.

(** In show-all mode every node of the menu is shown. *)
Lemma shown_nodes_all C V m r p : wf_tree → exists_at m → shown_nodes top C V true m = Ok r →
  exists_at p → parent_menu top p = Ok m → p ∈ r.
Proof.
  intros Wf He H Hp Hm. destruct (shown_nodes_lists C V true m r He H) as (ls & ls' & -> & H2 & H3).
  assert (m ∈ locations m) as [i Hi]%list_elem_of_lookup by by apply locations_self.
  destruct (Forall2_lookup_l _ _ _ _ _ H2 Hi) as (l & Hl & t & Et & Es).
  destruct (Forall3_lookup_l _ _ _ _ _ _ H3 Hi) as (l0 & l' & Hl0 & Hl' & _ & Hadd).
  rewrite Hl in Hl0. injection Hl0 as <-. rewrite (Hadd eq_refl) in Hl'. apply list_elem_of_In, in_concat.
  exists l. split; apply list_elem_of_In; [by eapply list_elem_of_lookup_2|by eapply shown_below_all].
Qed.
End tree.
End MShownSpec.
