(* ===== verification/MMainSpec.v ===== *)
(** * The interface as a whole

    A small program logic for programs that wait for keys, and its instance
    for the invariant of the cursor: at every wait of the main loop and of
    every dialog the selected entry exists and is on the screen, and no loop
    turns without taking a key. *)
From S2P Require Import Prelude Hex PyStr KExpr KSym KConf KFinal KMenu KPrint Files KTools MNode MState MInfo MEdit MMain MStateSpec.

Module MMainSpec.
Import Hex PyStr KExpr KSym KFinal KPrint Files KTools MNode MState MEdit MMain MStateSpec.

(** ** The logic *)

Section logic.
Context (I : Ui → Prop) (fuel : nat).

(** What a program may come to from [s]: it waits only in good states and
    never spins; an exception ends the program. *)
Definition wp {A} (c : prog A) (s : Io) (Q : A → Io → Prop) : Prop :=
  match c s with Ret a s' => Q a s' | Wait u => I u | Raise _ _ => True | Spin _ => False end.

(** A program that keeps the invariant and the keys it does not take, and one
    that takes at least one key. *)
Definition keeps {A} (c : prog A) : Prop := ∀ s, I (io_ui s) → length (io_keys s) < fuel →
  wp c s (λ _ s', I (io_ui s') ∧ length (io_keys s') ≤ length (io_keys s)).
Definition takes {A} (c : prog A) : Prop := ∀ s, I (io_ui s) → length (io_keys s) < fuel →
  wp c s (λ _ s', I (io_ui s') ∧ length (io_keys s') < length (io_keys s)).

Lemma wp_mono {A} (c : prog A) s (Q R : A → Io → Prop) :
  wp c s Q → (∀ a s', Q a s' → R a s') → wp c s R.
Proof. unfold wp. destruct (c s); auto. Qed.
Lemma wp_bind {A B} (c : prog A) (f : A → prog B) s Q :
  wp c s (λ a s', wp (f a) s' Q) → wp (c ≫= f) s Q.
Proof. unfold wp, mbind, prog_bind. by destruct (c s). Qed.

Lemma takes_keeps {A} (c : prog A) : takes c → keeps c.
Proof. intros H s Hs Hk. eapply wp_mono; [by apply H|]. cbn. intros _ s' [? ?]. split; [done|lia]. Qed.
Lemma kept_ret {A} (a : A) : keeps (mret a).
Proof. intros s Hs _. split; [done|lia]. Qed.
Lemma kept_bind {A B} (c : prog A) (f : A → prog B) : keeps c → (∀ a, keeps (f a)) → keeps (c ≫= f).
Proof.
  intros Hc Hf s Hs Hk. apply wp_bind. eapply wp_mono; [by apply Hc|]. cbn. intros a s' [Hs' Hk'].
  eapply wp_mono; [apply Hf; [done|lia]|]. cbn. intros _ s'' [? ?]. split; [done|lia].
Qed.
Lemma takes_bind {A B} (c : prog A) (f : A → prog B) : takes c → (∀ a, keeps (f a)) → takes (c ≫= f).
Proof.
  intros Hc Hf s Hs Hk. apply wp_bind. eapply wp_mono; [by apply Hc|]. cbn. intros a s' [Hs' Hk'].
  eapply wp_mono; [apply Hf; [done|lia]|]. cbn. intros _ s'' [? ?]. split; [done|lia].
Qed.
Lemma takes_after {A B} (c : prog A) (f : A → prog B) : keeps c → (∀ a, takes (f a)) → takes (c ≫= f).
Proof.
  intros Hc Hf s Hs Hk. apply wp_bind. eapply wp_mono; [by apply Hc|]. cbn. intros a s' [Hs' Hk'].
  eapply wp_mono; [apply Hf; [done|lia]|]. cbn. intros _ s'' [? ?]. split; [done|lia].
Qed.

Lemma keeps_ui : keeps ui.
Proof. intros s Hs _. split; [done|lia]. Qed.
Lemma keeps_mod f : (∀ u, I u → I (f u)) → keeps (ui_mod f).
Proof. intros Hf s Hs _. split; [by apply Hf|cbn; lia]. Qed.
Lemma keeps_raise {A} e : keeps (raise (A := A) e).
Proof. by intros s Hs _. Qed.
Lemma keeps_act f : (∀ u, I u → ok_or (λ _, True) (f u) I) → keeps (act f).
Proof.
  intros Hf s Hs _. unfold wp, act. specialize (Hf _ Hs). destruct (f (io_ui s)); [|done].
  split; [done|cbn; lia].
Qed.
Lemma keeps_act_ret {A} (f : Ui → res (A * Ui)) :
  (∀ u, I u → ok_or (λ _, True) (f u) (λ r, I r.2)) → keeps (act_ret f).
Proof.
  intros Hf s Hs _. unfold wp, act_ret. specialize (Hf _ Hs). destruct (f (io_ui s)) as [[a u]|]; [|done].
  split; [done|cbn; lia].
Qed.
Lemma keeps_ask {A} (f : Ui → res A) : keeps (ask f).
Proof. intros s Hs _. unfold wp, ask. destruct (f (io_ui s)); [|done]. split; [done|cbn; lia]. Qed.
Lemma takes_getch : (∀ u x, I u → I (with_screen u x)) → takes getch.
Proof.
  intros HI s Hs _. unfold wp, getch. destruct (io_keys s) as [|[] ks]; [done|..]; (split; [cbn; by auto|cbn; lia]).
Qed.

(** A loop whose turns take keys takes keys, and ends. *)
Lemma takes_loop {X A} (body : X → prog (X + A)) x : (∀ x, takes (body x)) → takes (loop fuel body x).
Proof.
  intros Hb. assert (∀ n x s, n ≤ fuel → I (io_ui s) → length (io_keys s) < n →
    wp (loop n body x) s (λ _ s', I (io_ui s') ∧ length (io_keys s') < length (io_keys s))) as H.
  { intros n. induction n as [|n IH]; intros y s Hn Hs Hk; [lia|]. cbn [loop]. apply wp_bind.
    eapply wp_mono; [apply Hb; [done|lia]|]. cbn. intros [z|a] s' [Hs' Hk']; [|by split].
    eapply wp_mono; [apply IH; [lia|done|lia]|]. cbn. intros _ s'' [? ?]. split; [done|lia]. }
  intros s Hs Hk. by apply H.
Qed.
End logic.

(** ** The invariant of the cursor, in every program of the interface *)

Section main.
Context (env : gmap string string) (K : Kc) (vals : Conf → Vals).
Context (top : tnode) (D : KMenu.Df) (F : Fst).
Context (erase : option ascii) (cwd : string) (expanduser : string → string).
Context (compile : string → option (string → bool)).
Context (fuel : nat).

Notation keeps := (keeps on_screen fuel).
Notation takes := (takes on_screen fuel).

Lemma on_with_screen u x : on_screen u → on_screen (with_screen u x).
Proof. intros H. by eapply on_screen_ext; [..|exact H]. Qed.
Lemma on_with_ses u S : on_screen u → on_screen (with_ses u S).
Proof. intros H. by eapply on_screen_ext; [..|exact H]. Qed.
Lemma on_with_files u f m c : on_screen u → on_screen (with_files u f m c).
Proof. intros H. by eapply on_screen_ext; [..|exact H]. Qed.
Lemma on_with_modes u h n : on_screen u → on_screen (with_modes u h n).
Proof. intros H. by eapply on_screen_ext; [..|exact H]. Qed.
Lemma on_resize u : on_screen u → on_screen (resize_main u).
Proof. intros []. by apply resize_on. Qed.

Lemma on_getch : takes getch.
Proof. apply takes_getch. intros. by apply on_with_screen. Qed.
Lemma on_resizing : keeps (ui_mod resize_main).
Proof. apply keeps_mod, on_resize. Qed.

(** The shape of a program decides: a known program, sequence, choice. *)
Create HintDb prog.
#[local] Hint Resolve kept_ret keeps_ui keeps_raise keeps_ask on_resizing : prog.
Ltac prog_step := first
  [ solve [eauto 2 with prog nocore]
  | apply takes_bind; [apply on_getch|intros ?]
  | apply takes_keeps, on_getch
  | apply kept_bind; [|intros ?]
  | match goal with |- context [match ?x with _ => _ end] => destruct x end ].
Ltac prog := repeat (cbn beta iota zeta; try assumption; prog_step).

Lemma on_input_dialog title text info : takes (input_dialog erase fuel title text info).
Proof.
  unfold input_dialog. apply takes_after; [apply keeps_ui|]. intros u. apply takes_loop. intros [[s i] h].
  unfold input_body. prog.
Qed.
Lemma on_key_dialog keys : takes (key_dialog fuel keys).
Proof. apply takes_loop. intros []. unfold key_body. prog. Qed.
#[local] Hint Resolve on_key_dialog on_input_dialog : prog.
Lemma on_msg : takes (msg fuel).
Proof. unfold msg. apply takes_bind; [apply on_key_dialog|]. intros _. prog. Qed.
#[local] Hint Resolve on_msg takes_keeps : prog.
Lemma error_keeps : keeps (error fuel).
Proof. apply takes_keeps, on_msg. Qed.
#[local] Hint Resolve error_keeps : prog.

(** Changing values. *)
Lemma act_set_val it v : keeps (act (set_val top vals it v)).
Proof. apply keeps_act. intros. by apply set_val_on. Qed.
Lemma act_leave : keeps (act (leave_menu top vals)).
Proof. apply keeps_act. intros. by apply leave_menu_on. Qed.
#[local] Hint Resolve act_set_val act_leave : prog.
Lemma on_change_text d n : keeps (change_text vals top erase fuel d n).
Proof.
  unfold change_text. apply kept_bind; [prog|]. intros t. apply kept_bind; [prog|]. intros s.
  destruct (m_prompt d) as [[p c]|]; [|prog]. apply takes_keeps, takes_loop. clear s. intros s.
  unfold ask_value. apply takes_after; [prog|]. intros info. apply takes_bind; [apply on_input_dialog|].
  intros [x|]; [|prog]. prog.
Qed.
#[local] Hint Resolve on_change_text : prog.
Lemma on_change_value d : keeps (change_value vals top erase fuel d).
Proof. unfold change_value. prog. Qed.
#[local] Hint Resolve on_change_value : prog.
Lemma on_change_node p : keeps (change_node vals top erase fuel p).
Proof. unfold change_node. prog. Qed.
#[local] Hint Resolve on_change_node : prog.

(** Loading and saving. *)
Lemma on_try_load f : keeps (try_load env K vals fuel f).
Proof.
  intros s Hs Hk. unfold try_load, wp. destruct (KTools.load_config _ _ _ _ _ _) as [[m ses]|e].
  - split; [by apply on_with_ses|cbn; lia].
  - destruct (is_os_error e); [|done].
    apply (kept_bind _ _ _ _ error_keeps (λ _, kept_ret _ _ false)); done.
Qed.
#[local] Hint Resolve on_try_load : prog.
Lemma on_after_load f u : on_screen u → ok_or (λ _, True) (after_load K vals top f u) on_screen.
Proof.
  intros Hu. unfold after_load. destruct (needs_save _ _ _) as [c|]; [|done]. cbn.
  destruct (sel_node _) as [p|]; [|done]. cbn. destruct (shown_in _ _ _ _ _) as [l|]; [|done]. cbn.
  apply update_menu_on. case_bool_decide; by eapply on_screen_ext; [..|exact Hu].
Qed.
Lemma on_load_dialog : keeps (load_dialog env K vals top erase cwd expanduser fuel).
Proof.
  unfold load_dialog. prog.
  apply takes_keeps, takes_loop. intros f. unfold load_body. apply takes_bind; [apply on_input_dialog|].
  intros ?. prog. apply keeps_act. intros. by apply on_after_load.
Qed.
#[local] Hint Resolve on_load_dialog : prog.
Lemma on_try_save save f : keeps (try_save fuel save f).
Proof.
  intros s Hs Hk. unfold try_save, wp. destruct (save _ _) as [[m ses]|e].
  - split; [by apply on_with_ses|cbn; lia].
  - destruct (is_os_error e); [|done].
    apply (kept_bind _ _ _ _ error_keeps (λ _, kept_ret _ _ None)); done.
Qed.
#[local] Hint Resolve on_try_save : prog.
Lemma on_save_dialog save f d : keeps (save_dialog erase cwd expanduser fuel save f d).
Proof.
  apply takes_keeps, takes_loop. clear f. intros f. unfold save_body.
  apply takes_bind; [apply on_input_dialog|]. intros ?. prog.
Qed.
#[local] Hint Resolve on_save_dialog : prog.
Lemma on_quit_dialog : keeps (quit_dialog env K vals fuel).
Proof.
  unfold quit_dialog. prog. apply takes_keeps, takes_loop. intros []. unfold quit_body.
  apply takes_bind; [apply on_key_dialog|]. intros ?. prog.
Qed.
#[local] Hint Resolve on_quit_dialog : prog.

(** The jump-to and information dialogs, each of which can open the other. *)
Lemma on_info_dialog search p :
  (∀ c, search = Some c → keeps c) → keeps (info_dialog vals top D F erase fuel search p).
Proof.
  intros Hs. unfold info_dialog. prog. apply takes_keeps, takes_loop. intros [scroll h]. unfold info_body.
  destruct search as [c|]; prog; by apply Hs.
Qed.
Lemma on_info_none p : keeps (info_dialog vals top D F erase fuel None p).
Proof. by apply on_info_dialog. Qed.
Lemma act_jump p : keeps (act (jump_to top vals p)).
Proof. apply keeps_act. intros. by apply jump_to_on. Qed.
#[local] Hint Resolve on_info_none act_jump : prog.
Lemma on_jump_to_dialog : keeps (jump_to_dialog vals top D F erase compile fuel).
Proof.
  unfold jump_to_dialog. prog. apply takes_keeps, takes_loop. intros j. unfold jump_body. prog.
Qed.
#[local] Hint Resolve on_jump_to_dialog : prog.

(** ** The main loop *)

Notation main_body := (main_body env K vals top D F erase cwd expanduser compile fuel).
Notation main_loop := (main_loop env K vals top D F erase cwd expanduser compile fuel).

Lemma on_info_jump p : keeps (info_dialog vals top D F erase fuel (Some (jump_to_dialog vals top D F erase compile fuel)) p).
Proof. apply on_info_dialog. intros c [= <-]. apply on_jump_to_dialog. Qed.
Lemma act_enter p : keeps (act_ret (enter_menu top vals p)).
Proof. apply keeps_act_ret. intros. by apply enter_menu_on. Qed.
Lemma act_toggle : keeps (act (toggle_show_all top vals)).
Proof. apply keeps_act. intros. by apply toggle_on. Qed.
Lemma act_set_tri v : keeps (act (set_sel_node_tri_val top vals v)).
Proof. apply keeps_act. intros. by apply set_tri_on. Qed.
#[local] Hint Resolve on_info_jump act_enter act_toggle act_set_tri : prog.
#[local] Hint Resolve select_next_on select_prev_on select_last_on select_first_on iter_on
  on_with_files on_with_modes on_resize : prog.
Lemma on_quit : keeps (quit env K vals fuel).
Proof. unfold quit. prog. Qed.
#[local] Hint Resolve on_quit : prog.

Lemma on_main_body : takes (main_body tt).
Proof.
  unfold main_body, done_with, with_selected, again.
  prog; apply keeps_mod; intros; eauto 6 with prog.
Qed.

Lemma on_main_loop u ks : on_screen u → length ks < fuel →
  match main_loop (mkIo u ks) with Ret _ _ | Raise _ _ => True | Wait u' => on_screen u' | Spin _ => False end.
Proof.
  intros Hu Hk. assert (takes main_loop) as H by (apply takes_loop; intros []; apply on_main_body).
  specialize (H (mkIo u ks) Hu Hk). unfold wp in H. by destruct (main_loop _).
Qed.
End main.
End MMainSpec.
