(* ===== verification/MNavSpec.v ===== *)
(** * Moving through the menus

    Entering a menu and leaving it restores the display; a jump ends at the
    node asked for and never fails; in show-all mode a menu can always be left,
    and the cursor keys reach every node of the tree.  Module MHiddenSpec has the
    menus that cannot be left. *)
From S2P Require Import Prelude Hex PyStr KExpr KSym KConf KFinal KMenu KPrint Files KTools MNode MState MInfo MEdit MMain MStateSpec MNodeSpec MShownSpec KFinalSpec KLinks KInitSpec MMainSpec.

Module MNavSpec.
Import Hex PyStr KExpr KSym KFinal KPrint Files KTools MNode MState MEdit MMain MStateSpec MNodeSpec MShownSpec.

Section nav.
Context (top : tnode) (vals : Conf → Vals) (Wf : wf_tree top).

Notation exists_at := (exists_at top).
Notation menuconfig_at := (menuconfig_at top).

(** Conditions and selections of the current configuration have values. *)
Definition defined (u : Ui) : Prop :=
  evaluates top (uconf u) (uvals vals u) ∧
  ∀ q t id nm, node_at top q = Some t → m_item (data t) = MChoice id nm →
    ∃ sel, item_sel (uconf u) (uvals vals u) id = Ok sel.

(** The current menu exists and is one; its nodes are those last computed. *)
Record settled (u : Ui) : Prop := {
  st_menu : exists_at (u_cur u);
  st_menuconfig : menuconfig_at (u_cur u) = true;
  st_shown : shown_in top vals u (u_all u) (u_cur u) = Ok (u_shown u);
  st_sel : u_sel u < length (u_shown u)
}.

Lemma defined_ses u u' : u_ses u' = u_ses u → defined u → defined u'.
Proof. intros E. unfold defined, uvals, uconf. by rewrite E. Qed.

Lemma shown_in_total u all m : defined u → exists_at m → ∃ r, shown_in top vals u all m = Ok r.
Proof. intros [HE _] Hm. by apply shown_nodes_total. Qed.

Lemma parent_menu_total q : exists_at q → q ≠ [] → ∃ m, parent_menu top q = Ok m ∧
  exists_at m ∧ menuconfig_at m = true ∧ length m < length q.
Proof.
  intros He Hq. assert (∃ m, parent_menu top q = Ok m) as [m Hm].
  { induction q as [|i q IH]; [done|]. apply exists_tail in He. cbn [parent_menu].
    destruct (menuconfig_at q) eqn:E; [exists q; by apply up_menu_here|].
    rewrite up_menu_step by done. apply IH; [done|]. intros ->. rewrite (wf_top _ Wf) in E. done. }
  exists m. split; [done|]. apply parent_menu_inv in Hm as (Hm & s & j & -> & _).
  split; [by eapply exists_tail, exists_suffix|]. split; [done|]. rewrite length_app. cbn. lia.
Qed.

(** ** Cursor positions *)

Lemma index_nodup p l i : NoDup l → l !! i = Some p → index_in p l = Ok i.
Proof.
  intros Hn Hi. destruct (index_in_ok p l) as [j Hj]; [by eapply list_elem_of_lookup_2|].
  destruct (index_in_spec _ _ _ Hj) as [Hj' _]. rewrite Hj. f_equal. by eapply NoDup_lookup.
Qed.
Lemma sel_node_lookup u p : sel_node u = Ok p ↔ u_shown u !! u_sel u = Some p.
Proof. unfold sel_node, index. destruct (u_shown u !! u_sel u); split; congruence. Qed.

Lemma settled_nodup u : settled u → NoDup (u_shown u).
Proof. intros []. by eapply (shown_nodes_sound top _ _ _ Wf (u_cur u)). Qed.

(** ** Entering and leaving *)

(** The cursor of a choice moves; nothing else changes. *)
Lemma choice_sym_same u u' : select_selected_choice_sym top vals u = Ok u' → ∃ i k, u' = with_pos u i k.
Proof.
  intros H. assert (∃ i k, u = with_pos u i k) as Hu by (exists (u_sel u), (u_scroll u); by destruct u).
  unfold select_selected_choice_sym in H. destruct (node top (u_cur u)) as [d|]; [|done]. cbn in H.
  destruct (m_item d); try by injection H as <-. destruct (item_sel _ _ _) as [[n|]|]; [|by injection H as <-|done].
  cbn in H. destruct (list_find _ _) as [[j p]|]; [|by injection H as <-].
  destruct (index_in p (u_shown u)) as [i|]; [|done]. injection H as <-. by eexists _, _.
Qed.

Lemma enter_menu_inv p u u' : enter_menu top vals p u = Ok (true, u') →
  menuconfig_at p = true ∧ ∃ sub i k, shown_in top vals u (u_all u) p = Ok sub ∧ sub ≠ [] ∧
  u' = with_menu u p sub i k ((u_sel u - u_scroll u) :: u_rows u) (u_all u).
Proof.
  unfold enter_menu, node, get_node, MNodeSpec.menuconfig_at. destruct (node_at top p) as [t|]; [|done]. cbn.
  destruct (is_menuconfig (data t)); [|done]. cbn. intros H. split; [done|].
  destruct (shown_in _ _ _ _ _) as [[|q sub]|]; [done| |done]. cbn in H.
  destruct (is_choice (m_item (data t))).
  - destruct (select_selected_choice_sym _ _ _) as [u1|] eqn:E; [|done]. injection H as <-.
    apply choice_sym_same in E as (i & k & ->). by eexists (q :: sub), i, k.
  - injection H as <-. by eexists (q :: sub), 0, 0.
Qed.

Lemma enter_leave p u u' : settled u → on_screen u → sel_node u = Ok p → parent_menu top p = Ok (u_cur u) →
  enter_menu top vals p u = Ok (true, u') → leave_menu top vals u' = Ok u.
Proof.
  intros Hu [H1 H2 H3] Hsel Hp H. apply enter_menu_inv in H as (_ & sub & i & k & _ & _ & ->).
  assert (Hn := settled_nodup u Hu). destruct Hu as [_ _ Hs _].
  apply sel_node_lookup in Hsel. apply (index_nodup _ _ _ Hn) in Hsel.
  unfold leave_menu. cbn [u_cur with_menu u_rows u_all u_height]. destruct p as [|j p]; [done|].
  rewrite Hp. cbn [res_bind]. change (shown_in top vals _ (u_all u) (u_cur u)) with (shown_in top vals u (u_all u) (u_cur u)).
  rewrite Hs. cbn [res_bind]. rewrite Hsel. cbn [res_bind]. f_equal.
  replace (u_sel u - Nat.min (u_sel u - u_scroll u) (u_height u - 1)) with (u_scroll u) by lia. by destruct u.
Qed.

(** ** Jumping *)

Lemma settled_with u m shown i k rows all : exists_at m → menuconfig_at m = true →
  shown_in top vals u all m = Ok shown → i < length shown → settled (with_menu u m shown i k rows all).
Proof. by split. Qed.
Lemma settled_sel u : settled u → ∃ p, sel_node u = Ok p ∧ p ∈ u_shown u.
Proof.
  intros []. apply lookup_lt_is_Some in st_sel0 as [p Hp]. exists p. split; [by apply sel_node_lookup|].
  by eapply list_elem_of_lookup_2.
Qed.

Lemma toggle_total u : settled u → defined u → (u_all u = true ∨ locations top (u_cur u) = [u_cur u]) →
  ∃ u', toggle_show_all top vals u = Ok u' ∧ settled u' ∧ u_cur u' = u_cur u ∧ u_ses u' = u_ses u ∧
    (u_all u = false → u_all u' = true).
Proof.
  intros Hu Hd Hl. assert (He := st_menu _ Hu). assert (Hm := st_menuconfig _ Hu).
  destruct (shown_in_total u (negb (u_all u)) (u_cur u) Hd He) as [new Hnew].
  unfold toggle_show_all. rewrite Hnew. cbn [res_bind].
  destruct (list_find _ _) as [[j p]|] eqn:E.
  - apply list_find_Some in E as (_ & Hp & _). destruct (index_in_ok p new Hp) as [i Hi]. rewrite Hi.
    cbn [res_bind]. eexists. split; [done|]. apply index_in_spec in Hi as [_ Hi].
    split; [by apply settled_with|]. split; [done|]. split; [done|]. by intros ->.
  - eexists. split; [done|]. destruct (u_all u) eqn:Ea.
    + split; [|done]. destruct Hu as [_ _ Hs Hi]. rewrite Ea in Hs. by apply settled_with.
    + exfalso. destruct Hl as [|Hl]; [done|]. destruct (settled_sel u Hu) as (p & Hsel & Hp).
      destruct Hu as [_ _ Hs _]. rewrite Ea in Hs.
      destruct (shown_nodes_sound top _ _ _ Wf _ _ He Hm Hs) as [Hf _]. rewrite Forall_forall in Hf.
      destruct (Hf p Hp) as (Hpe & q & Hq & Hpq). rewrite Hl in Hq. apply list_elem_of_singleton in Hq as ->.
      assert (p ∈ new) as Hin by (eapply (shown_nodes_all top _ _ _ new p Wf He); [exact Hnew|done|done]).
      apply list_find_None in E. rewrite Forall_forall in E. apply (E p); [|done].
      apply sel_node_lookup in Hsel. apply elem_of_app. left. apply list_elem_of_In, in_rev. rewrite rev_involutive. apply list_elem_of_In.
      apply list_elem_of_lookup. exists (u_sel u). rewrite lookup_take_lt by lia. done.
Qed.

(** The selected symbol of a choice. *)
Lemma choice_sym_total u : settled u → defined u → ∃ u', select_selected_choice_sym top vals u = Ok u' ∧ settled u' ∧
  u_cur u' = u_cur u ∧ u_ses u' = u_ses u ∧ u_shown u' = u_shown u ∧ u_all u' = u_all u.
Proof.
  intros Hu [_ Hd]. unfold select_selected_choice_sym, node, get_node. destruct (st_menu _ Hu) as [t Et].
  rewrite Et. cbn [res_bind]. destruct (m_item (data t)) eqn:Ei; try by exists u.
  destruct (Hd _ _ _ _ Et Ei) as [sel ->]. cbn [res_bind]. destruct sel as [n|]; [|by exists u].
  destruct (list_find _ _) as [[j p]|] eqn:E; [|by exists u]. apply list_find_Some in E as (_ & Hp & _).
  destruct (index_in_ok _ _ Hp) as [i Hi]. rewrite Hi. cbn [res_bind]. eexists. split; [done|].
  apply index_in_spec in Hi as [_ Hi]. destruct Hu. by repeat split.
Qed.

(** Jumping goes into choices and menus that have entries. *)
Definition jumps_into (t : tnode) : bool :=
  (is_choice (m_item (data t)) || bool_decide (m_item (data t) = MMenu)) &&
  match MNode.children t with [] => false | _ => true end.

Lemma into_first p t : node_at top p = Some t → jumps_into t = true →
  menuconfig_at p = true ∧ exists_at (0 :: p) ∧ parent_menu top (0 :: p) = Ok p.
Proof.
  intros E [Hi Hc]%andb_prop.
  assert (menuconfig_at p = true) as Hm.
  { eapply (wf_choice _ Wf); [done|]. by destruct (m_item (data t)). }
  split; [done|]. split; [|by apply up_menu_here]. unfold MNodeSpec.exists_at. rewrite (node_at_cons _ _ _ _ E).
  destruct (MNode.children t); [done|by eexists].
Qed.

(** The menu jumped to, in show-all mode if it must be. *)
Lemma jump_menu u cur q all0 : defined u → exists_at cur → menuconfig_at cur = true → exists_at q →
  parent_menu top q = Ok cur → ∃ shown all i,
  (let* shown := shown_in top vals u all0 cur in
   if bool_decide (q ∈ shown) then Ok (shown, all0)
   else let* shown := shown_in top vals u true cur in Ok (shown, true)) = Ok (shown, all) ∧
  shown_in top vals u all cur = Ok shown ∧ index_in q shown = Ok i ∧ shown !! i = Some q.
Proof.
  intros Hd He Hm Hq Hp. destruct (shown_in_total u all0 cur Hd He) as [l Hl]. rewrite Hl. cbn [res_bind].
  assert (∃ shown all, (if bool_decide (q ∈ l) then Ok (l, all0)
     else let* shown := shown_in top vals u true cur in Ok (shown, true)) = Ok (shown, all) ∧
     shown_in top vals u all cur = Ok shown ∧ q ∈ shown) as (shown & all & H1 & H2 & H3).
  { case_bool_decide; [by exists l, all0|]. destruct (shown_in_total u true cur Hd He) as [l' Hl'].
    rewrite Hl'. exists l', true. split; [done|]. split; [done|]. by eapply (shown_nodes_all top _ _ cur l' q Wf). }
  destruct (index_in_ok q shown H3) as [i Hi]. exists shown, all, i. repeat split; try done.
  by apply index_in_spec in Hi as [? _].
Qed.

Lemma center_settled u : settled u → settled (center_vertically u).
Proof. by intros []. Qed.

Lemma jump_total p t u : defined u → p ≠ [] → node_at top p = Some t →
  ∃ u', jump_to top vals p u = Ok u' ∧ settled u' ∧ u_ses u' = u_ses u ∧
    if jumps_into t then u_cur u' = p else sel_node u' = Ok p ∧ parent_menu top p = Ok (u_cur u').
Proof.
  intros Hd Hp Et. unfold jump_to, get_node. rewrite Et. cbn [res_bind]. fold (jumps_into t).
  destruct (jumps_into t) eqn:Hinto.
  - destruct (into_first p t Et Hinto) as (Hm & He0 & Hp0). cbn [res_bind].
    destruct (jump_menu u p (0 :: p) (u_all u) Hd) as (shown & all & i & H1 & H2 & H3 & H4); [by eexists|done..|].
    destruct (shown_in top vals u (u_all u) p) as [l|]; [|done]. cbn [res_bind] in H1 |- *. rewrite H1.
    cbn [res_bind fst snd]. rewrite H3. cbn [res_bind]. set (u1 := with_menu u p shown i _ [] all).
    assert (settled u1) as Hu1 by (apply settled_with; [by eexists|done|done|by eapply lookup_lt_Some]).
    assert (∃ u2, (if true && negb (u_all u) && all then toggle_show_all top vals u1 else Ok u1) = Ok u2 ∧
              settled u2 ∧ u_cur u2 = p ∧ u_ses u2 = u_ses u) as (u2 & -> & Hu2 & Hc2 & Hs2).
    { cbn [andb]. destruct (negb (u_all u) && all) eqn:E; [|by exists u1]. apply andb_prop in E as [_ ->].
      destruct (toggle_total u1 Hu1) as (u2 & ? & ? & ? & ? & _); [by eapply defined_ses|by left|]. by exists u2. }
    cbn [res_bind andb]. destruct (is_choice (m_item (data t))).
    + destruct (choice_sym_total (center_vertically u2)) as (u3 & -> & Hu3 & Hc3 & Hs3 & _ & _).
      * by apply center_settled.
      * by eapply defined_ses; [|exact Hd].
      * exists u3. rewrite Hc3, Hs3. by repeat split; [destruct Hu3..| |].
    + eexists. split; [done|]. split; [by apply center_settled|done].
  - destruct (parent_menu_total p) as (m & Hm & He & Hmm & _); [by eexists|done|]. rewrite Hm. cbn [res_bind].
    destruct (jump_menu u m p (u_all u) Hd He Hmm) as (shown & all & i & H1 & H2 & H3 & H4); [by eexists|done|].
    destruct (shown_in top vals u (u_all u) m) as [l|]; [|done]. cbn [res_bind] in H1 |- *. rewrite H1.
    cbn [res_bind fst snd]. rewrite H3. cbn [res_bind andb]. eexists. split; [done|].
    split; [apply center_settled, settled_with; [done|done|done|by eapply lookup_lt_Some]|].
    split; [done|]. split; [by apply sel_node_lookup|done].
Qed.

(** ** Show-all mode *)

(** In show-all mode a menu can be left and is then the selected entry. *)
Lemma leave_total u : defined u → u_all u = true → settled u → u_cur u ≠ [] → ∃ u',
  leave_menu top vals u = Ok u' ∧ settled u' ∧ u_ses u' = u_ses u ∧ u_all u' = true ∧
  sel_node u' = Ok (u_cur u) ∧ parent_menu top (u_cur u) = Ok (u_cur u').
Proof.
  intros Hd Ha Hu Hc. destruct (parent_menu_total _ (st_menu _ Hu) Hc) as (m & Hm & He & Hmm & _).
  destruct (shown_in_total u true m Hd He) as [l Hl].
  assert (u_cur u ∈ l) as [i Hi]%index_in_ok.
  { eapply (shown_nodes_all top _ _ m l _ Wf); [done|exact Hl|by destruct Hu|done]. }
  destruct (index_in_spec _ _ _ Hi) as [Hi' Hlt].
  unfold leave_menu. destruct (u_cur u) as [|j q] eqn:Ec; [done|]. rewrite Hm. cbn [res_bind].
  rewrite Ha, Hl. cbn [res_bind]. rewrite Hi. cbn [res_bind].
  destruct (u_rows u); (eexists; split; [done|]);
    (split; [first [apply center_settled|idtac]; by apply settled_with|]); repeat split; try done;
    by apply sel_node_lookup.
Qed.

(** Entering a menu with an entry. *)
Lemma enter_total u p q : defined u → u_all u = true → settled u → sel_node u = Ok p → menuconfig_at p = true →
  exists_at q → parent_menu top q = Ok p → ∃ u',
  enter_menu top vals p u = Ok (true, u') ∧ settled u' ∧ u_ses u' = u_ses u ∧ u_all u' = true ∧ u_cur u' = p.
Proof.
  intros Hd Ha Hu Hsel Hm Hq Hp. assert (exists_at p) as He.
  { apply parent_menu_inv in Hp as (_ & s & j & -> & _). by eapply exists_tail, exists_suffix. }
  destruct (shown_in_total u true p Hd He) as [l Hl].
  assert (q ∈ l) as Hql by (by eapply (shown_nodes_all top _ _ p l q Wf)).
  destruct He as [t Et]. assert (Hm' := Hm). unfold MNodeSpec.menuconfig_at in Hm'. rewrite Et in Hm'.
  unfold enter_menu, node, get_node. rewrite Et. cbn [res_bind]. rewrite Hm'. cbn [negb]. rewrite Ha, Hl. cbn [res_bind].
  destruct l as [|x l]; [by apply not_elem_of_nil in Hql|].
  set (u1 := with_menu u p (x :: l) 0 0 _ true).
  assert (settled u1) as Hu1 by (apply settled_with; [by eexists|done|done|cbn; lia]).
  destruct (is_choice (m_item (data t))); [|by exists u1].
  destruct (choice_sym_total u1 Hu1) as (u2 & -> & Hu2 & Hc & Hs & _ & Ha2); [by eapply defined_ses|].
  exists u2. by rewrite Hc, Hs, Ha2.
Qed.
End nav.
End MNavSpec.

(** ** Menus that are not shown

    Without show-all mode every entry of the display has a visible prompt or is
    a symbol with entries below it.  A menu with an invisible prompt is thus not
    shown in the menu around it, although entries in it may be visible; such an
    entry can be jumped to, and its menu cannot be left. *)
Module MHiddenSpec.
Import Hex PyStr KExpr KSym KFinal KFinalSpec KPrint Files KTools MNode MState MEdit MMain MStateSpec MNodeSpec MShownSpec MNavSpec.

Section hidden.
Context (top : tnode).
Notation node_at := (node_at top).
Notation exists_at := (exists_at top).
Notation menuconfig_at := (menuconfig_at top).

Section values.
Context (C : Conf) (V : Vals).
Notation shown_node := (shown_node C V false).

(** What is shown for itself or for what is below it. *)
Definition lit (q : npath) : Prop :=
  ∃ t, node_at q = Some t ∧ (visible C V (data t) = Ok true ∨ is_symbol (m_item (data t)) = true).

Lemma siblings_lit p l i r :
  shown_list shown_node p i l = Ok r →
  (∀ k t r, l !! k = Some t → shown_node ((i + k) :: p) t = Ok r → Forall lit r) → Forall lit r.
Proof.
  intros H Hl. eapply Forall_impl; [by apply (shown_node_list_below C V false (λ _, lit) p l i r H)|].
  by intros q (k & _ & Hq).
Qed.

Lemma shown_node_lit t : ∀ p r, node_at p = Some t → shown_node p t = Ok r → Forall lit r.
Proof.
  induction t as [d ch IH] using KLinks.tnode_ind'. intros p r Ep H. rewrite Forall_lookup in IH.
  assert (∀ sub, shown_list shown_node p 0 ch = Ok sub → Forall lit sub) as Hsub.
  { intros sub Hs. apply (siblings_lit p ch 0 sub Hs). intros k t' r' Hk. apply (IH k t' Hk).
    by rewrite (node_at_cons _ _ _ _ Ep). }
  cbn in H. destruct (visible C V d) as [vis|] eqn:Ev; [|done]. cbn in H. rewrite orb_false_r in H.
  assert (vis = true ∨ is_symbol (m_item d) = true → lit p) as Hp.
  { intros Hl. exists (TNode d ch). split; [done|]. cbn. destruct Hl as [->|]; [by left|by right]. }
  destruct vis.
  - destruct ch as [|c ch]; [injection H as <-; by constructor; auto|].
    destruct (is_menuconfig d); [injection H as <-; by constructor; auto|].
    destruct (shown_list _ _ _ _) as [sub|] eqn:Es; [|done]. injection H as <-. constructor; [auto|by apply Hsub].
  - destruct ch as [|c ch]; [by injection H as <-|]. destruct (is_symbol _) eqn:Ei; [|by injection H as <-].
    destruct (shown_list _ _ _ _) as [[|q sub]|] eqn:Es; [by injection H as <-| |done]. injection H as <-.
    constructor; [auto|]. destruct (is_menuconfig d); [done|]. by apply Hsub.
Qed.

Lemma shown_nodes_lit m r : exists_at m → shown_nodes top C V false m = Ok r → Forall lit r.
Proof.
  intros He H. destruct (shown_nodes_lists top C V false m r He H) as (ls & ls' & -> & H2 & H3). clear He H.
  revert H2. induction H3 as [|q l l' qs ls ls' [Hs _] H3 IH]; intros H2; [constructor|].
  inversion H2 as [|?? ?? (t & Et & Hl) H2']; subst. cbn. apply Forall_app. split; [|auto].
  assert (Forall lit l) as Hlit.
  { apply (siblings_lit _ _ _ _ Hl). intros k t' r' Hk. apply shown_node_lit.
    by rewrite (node_at_cons _ _ _ _ Et). }
  rewrite Forall_forall in Hlit. apply Forall_forall. intros x Hx. apply Hlit.
  eapply elem_of_submseteq; [done|by apply sublist_submseteq].
Qed.

(** A visible entry without entries below it is shown in its menu. *)
Lemma leaf_shown p d l i t r :
  node_at p = Some (TNode d l) → m_item d = MMenu → l !! i = Some t → MNode.children t = [] →
  visible C V (data t) = Ok true → shown_nodes top C V false p = Ok r → i :: p ∈ r.
Proof.
  intros Ep Hd Hi Ht Hv. unfold shown_nodes, get_node. rewrite Ep. cbn [res_bind data]. rewrite Hd. intros H.
  unfold shown_below in H. cbn [MNode.children] in H.
  destruct (shown_list_lookup C V false p l 0 r i t H Hi) as (r' & Hr & Hs). destruct t as [dt ch].
  cbn in Ht, Hv, Hr. subst ch. rewrite Hv in Hr. cbn in Hr. injection Hr as <-. set_solver.
Qed.
End values.

Context (vals : Conf → Vals) (Wf : wf_tree top).
Notation defined := (defined top vals).

(** [d] at [p] is a menu that is not visible; its entry [i], without entries of
    its own, is. *)
Record in_hidden (u : Ui) (p : npath) (i : nat) : Prop := {
  ih_menu : ∃ d l, node_at p = Some (TNode d l) ∧ m_item d = MMenu ∧ visible (uconf u) (uvals vals u) d = Ok false;
  ih_entry : ∃ t, node_at (i :: p) = Some t ∧ MNode.children t = [] ∧
    visible (uconf u) (uvals vals u) (data t) = Ok true
}.

Lemma in_hidden_ses u u' p i : u_ses u' = u_ses u → in_hidden u p i → in_hidden u' p i.
Proof. intros E [H1 H2]. unfold uvals, uconf in *. split; unfold uvals, uconf; by rewrite E. Qed.

Lemma jump_in_hidden u p i :
  defined u → in_hidden u p i → u_all u = false →
  ∃ u', jump_to top vals (i :: p) u = Ok u' ∧ u_ses u' = u_ses u ∧ u_all u' = false ∧ u_cur u' = p ∧
    sel_node u' = Ok (i :: p).
Proof.
  intros Hd [(d & l & Ep & Hm & _) (t & Et & Hc & Hv)] Ha. unfold jump_to, get_node.
  rewrite Et. cbn [res_bind]. rewrite Hc, andb_false_r. cbn [andb].
  assert (menuconfig_at p = true) as Hp by (eapply (wf_choice _ Wf); [done|]; cbn; by rewrite Hm).
  change (parent_menu top (i :: p)) with (up_menu top p). rewrite up_menu_here by done. cbn [res_bind].
  destruct (shown_in_total top vals u (u_all u) p Hd) as [r Hr]; [by eexists|]. rewrite Hr. cbn [res_bind].
  assert (i :: p ∈ r) as Hin.
  { rewrite Ha in Hr. rewrite (node_at_cons _ _ _ _ Ep) in Et. by eapply leaf_shown. }
  rewrite bool_decide_eq_true_2 by done. cbn [res_bind fst snd].
  destruct (index_in_ok _ _ Hin) as [j Hj]. rewrite Hj. cbn [res_bind]. eexists. split; [done|].
  split_and!; try done. apply sel_node_lookup. by apply index_in_spec in Hj as [? _].
Qed.

Lemma leave_hidden u p i :
  defined u → in_hidden u p i → u_all u = false → u_cur u = p → p ≠ [] →
  leave_menu top vals u = Err ValueError.
Proof.
  intros Hd [(d & l & Ep & Hm & Hv) _] Ha Hc Hp. unfold leave_menu. rewrite Hc.
  destruct (parent_menu_total top Wf p) as (m & Em & He & _); [by eexists|done|].
  destruct p as [|j p]; [done|]. rewrite Em. cbn [res_bind].
  destruct (shown_in_total top vals u (u_all u) m Hd He) as [r Hr]. rewrite Hr. cbn [res_bind].
  destruct (index_in (j :: p) r) as [k|e] eqn:Ek; [|by apply index_in_err in Ek as [-> _]].
  apply index_in_spec in Ek as [Hin%list_elem_of_lookup_2 _]. exfalso.
  rewrite Ha in Hr. apply shown_nodes_lit in Hr; [|done]. rewrite Forall_forall in Hr.
  destruct (Hr _ Hin) as (t & Et & Hl). rewrite Ep in Et. injection Et as <-. cbn in Hl.
  rewrite Hm in Hl. destruct Hl as [Hl|Hl]; [|done]. congruence.
Qed.
End hidden.
End MHiddenSpec.
