(* ===== verification/MReachSpec.v ===== *)
(** * Every entry can be reached with the keys

    Sequences of keys for the main loop: to the top menu, to an entry of the
    current menu, into a menu, and so to every node of the menu tree. *)
From S2P Require Import Prelude Hex PyStr KExpr KSym KConf KFinal KMenu KPrint Files KTools MNode MState MInfo MEdit MMain.
From S2P Require Import MStateSpec MNodeSpec MShownSpec MMainSpec MNavSpec.

Module MReachSpec.
Import Hex PyStr KExpr KSym KFinal KPrint Files KTools MNode MState MEdit MMain MStateSpec MNodeSpec MShownSpec MNavSpec.

Section reach.
Context (env : gmap string string) (K : Kc) (vals : Conf → Vals).
Context (top : tnode) (D : KMenu.Df) (F : Fst).
Context (erase : option ascii) (cwd : string) (expanduser : string → string).
Context (compile : string → option (string → bool)).
Context (Wf : wf_tree top).

Notation body fuel := (main_body env K vals top D F erase cwd expanduser compile fuel).
Notation main_loop fuel := (main_loop env K vals top D F erase cwd expanduser compile fuel).
Notation exists_at := (exists_at top).
Notation menuconfig_at := (menuconfig_at top).
Notation settled := (settled top vals).
Notation defined := (defined top vals).

(** The keys [ks] take the main loop from [u] to [u']. *)
Definition steps (u : Ui) (ks : list key) (u' : Ui) : Prop := ∀ fuel n ks',
  loop (length ks + n) (body fuel) tt (mkIo u (ks ++ ks')) = loop n (body fuel) tt (mkIo u' ks').

Lemma steps_nil u : steps u [] u.
Proof. done. Qed.
Lemma steps_app u ks u' ks' u'' : steps u ks u' → steps u' ks' u'' → steps u (ks ++ ks') u''.
Proof.
  intros H1 H2 fuel n l. rewrite length_app, <- (assoc_L (++)), <- Nat.add_assoc, H1. apply H2.
Qed.
Lemma steps_key u k u' : (∀ fuel ks, body fuel tt (mkIo u (k :: ks)) = Ret (inl tt) (mkIo u' ks)) → steps u [k] u'.
Proof. intros H fuel n ks. cbn. unfold mbind, prog_bind. by rewrite H. Qed.

Lemma steps_home u : steps u [KHome] (select_first u).
Proof. by apply steps_key. Qed.
Lemma steps_down u : steps u [KDown] (select_next u).
Proof. by apply steps_key. Qed.
Lemma steps_downs i u : steps u (replicate i KDown) (Nat.iter i select_next u).
Proof.
  induction i as [|i IH]; [apply steps_nil|]. rewrite replicate_S_end.
  eapply steps_app; [exact IH|]. apply steps_down.
Qed.
Lemma steps_left u u' : leave_menu top vals u = Ok u' → steps u [KLeft] u'.
Proof.
  intros H. apply steps_key. intros fuel ks.
  transitivity (done_with (act (leave_menu top vals)) (mkIo u ks)); [done|].
  unfold done_with, mbind, prog_bind, act. cbn [io_ui]. by rewrite H.
Qed.
Lemma steps_right u p u' : sel_node u = Ok p → enter_menu top vals p u = Ok (true, u') → steps u [KRight] u'.
Proof.
  intros Hs H. apply steps_key. intros fuel ks.
  transitivity (with_selected (λ p, en ← act_ret (enter_menu top vals p);
    if (en : bool) then mret tt else change_node vals top erase fuel p;; mret tt) (mkIo u ks)); [done|].
  unfold with_selected, done_with, mbind, prog_bind, ask, act_ret. cbn [io_ui]. rewrite Hs. cbn [io_ui]. by rewrite H.
Qed.
Lemma steps_all u u' : erase ≠ Some "a"%char → toggle_show_all top vals u = Ok u' → steps u [KChar "a"] u'.
Proof.
  intros He H. apply steps_key. intros fuel ks.
  assert (is_erase erase (KChar "a") = false) as E.
  { unfold is_erase. destruct erase as [e|]; [|done]. apply Ascii.eqb_neq. congruence. }
  transitivity (done_with (act (toggle_show_all top vals)) (mkIo u ks)).
  - unfold main_body, mbind, prog_bind. cbn -[is_erase]. rewrite E. done.
  - unfold done_with, mbind, prog_bind, act. cbn [io_ui]. by rewrite H.
Qed.

(** ** Paths *)

(** [u'] is reached from [u] in show-all mode, with nothing changed. *)
Definition reached (u u' : Ui) : Prop :=
  settled u' ∧ u_all u' = true ∧ u_ses u' = u_ses u ∧ ∃ ks, steps u ks u'.

Lemma reached_trans u u' u'' : reached u u' → reached u' u'' → reached u u''.
Proof.
  intros (_ & _ & E & ks & Hk) (Hu & Ha & E' & ks' & Hk'). split; [done|]. split; [done|]. split; [congruence|].
  exists (ks ++ ks'). by eapply steps_app.
Qed.
Lemma reached_defined u u' : reached u u' → defined u → defined u'.
Proof. intros (_ & _ & E & _). by apply defined_ses. Qed.

(** Home, then Down. *)
Lemma reach_entry u p : settled u → u_all u = true → p ∈ u_shown u → ∃ u',
  reached u u' ∧ u_cur u' = u_cur u ∧ sel_node u' = Ok p.
Proof.
  intros Hu Ha [i Hi]%list_elem_of_lookup. assert (Hlt := Hi). apply lookup_lt_Some in Hlt.
  destruct (iter_next_sel i (select_first u)) as [E1 E2]; [cbn; lia|].
  assert (∀ f, f = select_next ∨ f = select_first → ∀ u, u_cur (f u) = u_cur u ∧ u_all (f u) = u_all u ∧ u_ses (f u) = u_ses u)
    as Hf.
  { intros f [->| ->] v; [|done]. unfold select_next. by destruct (Nat.ltb _ _). }
  set (u' := Nat.iter i select_next (select_first u)) in *.
  assert (u_cur u' = u_cur u ∧ u_all u' = u_all u ∧ u_ses u' = u_ses u) as (Hc & Ha' & Hs).
  { clear E1 E2 Hi Hlt. subst u'. induction i as [|i IH]; [done|].
    change (Nat.iter (S i) ?f ?x) with (f (Nat.iter i f x)).
    destruct (Hf select_next (or_introl eq_refl) (Nat.iter i select_next (select_first u))) as (-> & -> & ->).
    exact IH. }
  cbn in E1, E2. rewrite Nat.add_0_r, Nat.min_l in E1 by lia. exists u'.
  split; [|split; [done|apply sel_node_lookup; by rewrite E1, E2]]. split; [|split; [congruence|split; [done|]]].
  - destruct Hu as [H1 H2 H3 H4]. split; [by rewrite Hc..| |by rewrite E1, E2].
    unfold shown_in, uvals, uconf in *. by rewrite Hs, Hc, Ha', E2.
  - exists ([KHome] ++ replicate i KDown). eapply steps_app; [apply steps_home|apply steps_downs].
Qed.

(** Left, as often as needed. *)
Lemma reach_top n : ∀ u, length (u_cur u) ≤ n → defined u → settled u → u_all u = true → ∃ u',
  reached u u' ∧ u_cur u' = [].
Proof.
  induction n as [|n IH]; intros u Hn Hd Hu Ha.
  - exists u. split; [|by destruct (u_cur u); [|cbn in Hn; lia]]. repeat split; try by destruct Hu. by exists [].
  - destruct (decide (u_cur u = [])) as [Hc|Hc].
    { exists u. split; [|done]. repeat split; try by destruct Hu. by exists []. }
    destruct (leave_total top vals Wf u Hd Ha Hu Hc) as (u1 & H1 & Hu1 & Hs1 & Ha1 & _ & Hp).
    assert (reached u u1) as Hr by (repeat split; try (by destruct Hu1); try done; exists [KLeft]; by apply steps_left).
    destruct (parent_menu_total top Wf _ (st_menu _ _ _ Hu) Hc) as (m & Hm & _ & _ & Hl). rewrite Hp in Hm.
    injection Hm as <-. destruct (IH u1) as (u2 & Hr2 & Hc2); [lia|by eapply reached_defined|done|done|].
    exists u2. split; [by eapply reached_trans|done].
Qed.

(** Into a menu, from the top; [q] is one of its entries. *)
Lemma reach_menu n : ∀ m q u, length m ≤ n → defined u → settled u → u_all u = true → u_cur u = [] →
  exists_at q → parent_menu top q = Ok m → ∃ u', reached u u' ∧ u_cur u' = m.
Proof.
  assert (∀ u, settled u → u_all u = true → reached u u) as Hrefl.
  { intros u Hu Ha. repeat split; try by destruct Hu. by exists []. }
  induction n as [|n IH]; intros m q u Hn Hd Hu Ha Hc Hq Hp;
    (destruct (decide (m = [])) as [->|Hm]; [exists u; split; [by apply Hrefl|done]|]).
  - by destruct m; [|cbn in Hn; lia].
  - destruct (parent_menu_inv _ _ _ Hp) as (Hmm & s & j & -> & _).
    assert (exists_at m) as He by (by eapply exists_tail, exists_suffix).
    destruct (parent_menu_total top Wf m He Hm) as (m' & Hm' & _ & _ & Hl).
    destruct (IH m' m u) as (u1 & Hr1 & Hc1); [lia|done..|]. assert (Hd1 := reached_defined _ _ Hr1 Hd).
    assert (Hr1' := Hr1). destruct Hr1' as (Hu1 & Ha1 & _ & _).
    assert (m ∈ u_shown u1) as Hin.
    { assert (Hs := st_shown _ _ _ Hu1). rewrite Ha1 in Hs. eapply (shown_nodes_all top _ _ (u_cur u1)); try done.
      - by destruct Hu1.
      - by rewrite Hc1. }
    destruct (reach_entry u1 m Hu1 Ha1 Hin) as (u2 & Hr2 & _ & Hsel).
    assert (Hr2' := Hr2). destruct Hr2' as (Hu2 & Ha2 & _ & _).
    destruct (enter_total top vals Wf u2 m (s ++ j :: m)) as (u3 & H3 & Hu3 & Hs3 & Ha3 & Hc3); try done.
    { by eapply reached_defined. }
    exists u3. split; [|done]. eapply reached_trans; [eapply reached_trans; [exact Hr1|exact Hr2]|].
    repeat split; try (by destruct Hu3); try done. exists [KRight]. by eapply steps_right.
Qed.

Lemma reach_node u q : defined u → settled u → u_all u = true → exists_at q → q ≠ [] → ∃ u',
  reached u u' ∧ sel_node u' = Ok q ∧ parent_menu top q = Ok (u_cur u').
Proof.
  intros Hd Hu Ha He Hq. destruct (reach_top _ u (le_n _) Hd Hu Ha) as (u1 & Hr1 & Hc1).
  destruct (parent_menu_total top Wf q He Hq) as (m & Hm & _).
  assert (Hr1' := Hr1). destruct Hr1' as (Hu1 & Ha1 & _ & _).
  destruct (reach_menu _ m q u1 (le_n _)) as (u2 & Hr2 & Hc2); try done; [by eapply reached_defined|].
  assert (Hr2' := Hr2). destruct Hr2' as (Hu2 & Ha2 & _ & _).
  destruct (reach_entry u2 q Hu2 Ha2) as (u3 & Hr3 & Hc3 & Hsel).
  { assert (Hs := st_shown _ _ _ Hu2). rewrite Ha2 in Hs. eapply (shown_nodes_all top _ _ (u_cur u2)); try done.
    - by destruct Hu2.
    - by rewrite Hc2. }
  exists u3. split; [by eapply reached_trans; [eapply reached_trans|]|]. split; [done|]. by rewrite Hc3, Hc2.
Qed.
End reach.
End MReachSpec.
