(* ===== verification/MEditSpec.v ===== *)
(** * The edit box and the input dialog

    The cursor stays in the text and in sight; typed text is what the dialog
    returns; a value that is typed and accepted is set. *)
From S2P Require Import Prelude Hex PyStr KExpr KSym KConf KFinal KPrint KLexSpec KSyncSpec Files KTools MNode MState MInfo MEdit MMain.

Module MEditSpec.
Import Hex PyStr KExpr KSym KFinal KPrint KLexSpec KSyncSpec MNode MState MEdit MMain.

(** ** Strings by position *)

Lemma stake_len n s : String.length (stake n s) = Nat.min n (String.length s).
Proof. revert n; induction s as [|c s IH]; intros [|n]; cbn; [done..|]. by rewrite IH. Qed.
Lemma sdrop_len n s : String.length (sdrop n s) = String.length s - n.
Proof. revert n; induction s as [|c s IH]; intros [|n]; cbn; [done..|]. by rewrite IH. Qed.
Lemma word_start_le s : word_start s ≤ String.length s.
Proof. induction s as [|c s IH]; cbn; [lia|]. destruct (last_word _); lia. Qed.

Lemma zlen_app s t : zlen (s +:+ t) = (zlen s + zlen t)%Z.
Proof. unfold zlen. rewrite length_append. lia. Qed.
Lemma ztake_len i s : (0 ≤ i)%Z → zlen (zstake i s) = Z.min i (zlen s).
Proof. intros H. unfold zlen, zstake. rewrite stake_len. lia. Qed.
Lemma zdrop_len i s : (0 ≤ i)%Z → zlen (zsdrop i s) = Z.max (zlen s - i) 0.
Proof. intros H. unfold zlen, zsdrop. rewrite sdrop_len. lia. Qed.
Lemma zlen_nonneg s : (0 ≤ zlen s)%Z.
Proof. unfold zlen. lia. Qed.

Section edit.
Context (erase : option ascii).

(** Every key leaves the cursor inside the text. *)
Lemma edit_key_inside k s i s' i' : (0 ≤ i ≤ zlen s)%Z → edit_key erase k s i = (s', i') → (0 ≤ i' ≤ zlen s')%Z.
Proof.
  intros Hi. assert (Hl := zlen_nonneg s).
  assert (Hw := word_start_le (zstake i s)). assert (Ht := ztake_len i s ltac:(lia)). unfold zlen in Ht at 1.
  unfold edit_key.
  repeat case_decide; try destruct (is_erase erase k); try destruct (Z.ltb_spec 0 i); try destruct (Z.ltb_spec i (zlen s));
    try destruct k; intros [= <- <-]; rewrite ?zlen_app, ?ztake_len, ?zdrop_len by lia;
    first [lia | match goal with c : ascii |- _ => change (zlen (String c "")) with 1%Z end; lia].
Qed.

(** In an edit field of at least six columns, after every key the cursor
    is inside the text or at its end, and in the part of the text on the
    screen. *)
Theorem edit_text_in_sight k s i h w s' i' h' :
  (6 ≤ w)%Z → (0 ≤ i ≤ zlen s)%Z → (0 ≤ h)%Z → edit_text erase k s i h w = (s', i', h') →
  (0 ≤ i' ≤ zlen s')%Z ∧ (0 ≤ h' ≤ i')%Z ∧ (i' < h' + w)%Z.
Proof.
  intros Hw Hi Hh H. unfold edit_text in H. destruct (edit_key erase k s i) as [s1 i1] eqn:E. injection H as <- <- <-.
  apply edit_key_inside in E; [|done]. split; [done|]. unfold edit_scroll, OFFSET, SCROLL_OFFSET.
  destruct (Z.ltb_spec i1 (h + Z.of_nat 5)); [lia|]. destruct (Z.leb_spec (h + w - Z.of_nat 5) i1); lia.
Qed.

(** ** Typing *)

(** Keys that stand for themselves. *)
Definition plain (c : ascii) : bool :=
  negb (is_erase erase (KChar c)) &&
  forallb (λ a, negb (Ascii.eqb c a)) [nl; ESC; ascii_of_nat 1; ascii_of_nat 5; ascii_of_nat 23; ascii_of_nat 11; ascii_of_nat 21].

Lemma plain_not c : plain c = true → is_erase erase (KChar c) = false ∧
  ∀ a, a ∈ [nl; ESC; ascii_of_nat 1; ascii_of_nat 5; ascii_of_nat 23; ascii_of_nat 11; ascii_of_nat 21] → KChar c ≠ KChar a.
Proof.
  intros [H1 H2]%andb_prop. split; [by apply negb_true_iff|]. intros a Ha [= <-]. rewrite forallb_forall in H2.
  apply list_elem_of_In in Ha. specialize (H2 c Ha). by rewrite Ascii.eqb_refl in H2.
Qed.

Lemma sdrop_all n s : String.length s ≤ n → sdrop n s = "".
Proof. revert n; induction s as [|c s IH]; intros [|n] H; cbn in *; try done; [lia|]. apply IH. lia. Qed.
Lemma edit_plain c s : plain c = true → edit_key erase (KChar c) s (zlen s) = (s +:+ String c "", (zlen s + 1)%Z).
Proof.
  intros [He Hn]%plain_not. unfold edit_key. rewrite He.
  repeat (case_decide as H; [exfalso; first [done | destruct H as [H|H]; [done|]; revert H; apply Hn; set_solver
    | revert H; apply Hn; set_solver]|]; clear H).
  f_equal. unfold zstake, zsdrop, zlen. by rewrite Nat2Z.id, stake_all, sdrop_all by done.
Qed.

Lemma stake_stake a b s : stake a (stake b s) = stake (Nat.min a b) s.
Proof. revert a b; induction s as [|c s IH]; intros [|a] [|b]; cbn; try done. by rewrite IH. Qed.
Lemma edit_back k s : S k ≤ String.length s →
  edit_key erase KBackspace (stake (S k) s) (Z.of_nat (S k)) = (stake k s, Z.of_nat k).
Proof.
  intros H. unfold edit_key. cbn [is_erase].
  repeat (case_decide as Hd; [exfalso; first [done|by destruct Hd]|]; clear Hd).
  rewrite (proj2 (Z.ltb_lt 0 _)) by lia. f_equal; [|lia]. unfold zstake, zsdrop. rewrite Nat2Z.id.
  rewrite (sdrop_all (S k)) by (rewrite stake_len; lia). rewrite append_nil_r.
  replace (Z.to_nat (Z.of_nat (S k) - 1)) with k by lia. rewrite stake_stake. f_equal. lia.
Qed.

(** ** The dialog *)

Context (title : string) (info : list string).
Notation body := (input_body erase title info).

Lemma body_key k s i h u ks s' i' : (∀ h w, k ≠ KResize h w) → k ≠ KChar nl → k ≠ KChar ESC →
  edit_key erase k s i = (s', i') →
  ∃ h', body (s, i, h) (mkIo u (k :: ks)) = Ret (inl (s', i', h')) (mkIo u ks).
Proof.
  intros Hr Hn He H. unfold input_body, mbind, prog_bind, getch. cbn [io_keys io_ui].
  assert (∃ h', (let (p, h0) := edit_text erase k s i h (dialog_width u title info) in (p, h0)) = (s', i', h')) as [h' Hh].
  { unfold edit_text. rewrite H. by eexists. }
  destruct (edit_text erase k s i h (dialog_width u title info)) as [[s1 i1] h1] eqn:E. injection Hh as -> -> ->.
  exists h'. destruct k; try (by destruct (Hr h0 w)); rewrite ?decide_False by done; unfold ui; cbn [io_ui]; by rewrite E.
Qed.

Lemma loop_backspaces k : ∀ n s h u ks, k ≤ String.length s → ∃ h',
  loop (k + n) body (stake k s, Z.of_nat k, h) (mkIo u (replicate k KBackspace ++ ks)) =
  loop n body ("", 0%Z, h') (mkIo u ks).
Proof.
  induction k as [|k IH]; intros n s h u ks Hk.
  - exists h. by destruct s.
  - destruct (body_key KBackspace (stake (S k) s) (Z.of_nat (S k)) h u (replicate k KBackspace ++ ks) (stake k s) (Z.of_nat k))
      as [h1 H1]; [done..|by apply edit_back|].
    destruct (IH n s h1 u ks) as [h2 H2]; [lia|]. exists h2. rewrite <- H2.
    change (S k + n) with (S (k + n)). cbn [loop replicate app]. unfold mbind, prog_bind. by rewrite H1.
Qed.

Lemma loop_typed cs : ∀ n s h u ks, forallb plain cs = true → ∃ h',
  loop (length cs + n) body (s, zlen s, h) (mkIo u (map KChar cs ++ ks)) =
  loop n body (s +:+ String.string_of_list_ascii cs, zlen (s +:+ String.string_of_list_ascii cs), h') (mkIo u ks).
Proof.
  induction cs as [|c cs IH]; intros n s h u ks Hp.
  - exists h. cbn. by rewrite append_nil_r.
  - cbn in Hp. apply andb_prop in Hp as [Hc Hp]. destruct (plain_not c Hc) as [_ Hne].
    destruct (body_key (KChar c) s (zlen s) h u (map KChar cs ++ ks) (s +:+ String c "") (zlen s + 1)%Z) as [h1 H1];
      [done|by apply Hne; set_solver|by apply Hne; set_solver|by apply edit_plain|].
    destruct (IH n (s +:+ String c "") h1 u ks Hp) as [h2 H2]. exists h2.
    rewrite append_assoc in H2. cbn [String.string_of_list_ascii]. change (String c "" +:+ ?x) with (String c x) in H2.
    rewrite <- H2. cbn [length Nat.add loop map app]. unfold mbind, prog_bind. rewrite H1. do 2 f_equal.
    rewrite zlen_app. done.
Qed.
End edit.

Lemma edit_text_in_sight_witness :
  ∃ s i h, edit_text None KDc "abcdefghijkl" 9 2 8 = (s, i, h) ∧ (0 ≤ h ≤ i)%Z ∧ (i < h + 8)%Z.
Proof.
  destruct (edit_text None KDc "abcdefghijkl" 9 2 8) as [[s i] h] eqn:E. exists s, i, h. split; [reflexivity|].
  apply (edit_text_in_sight None KDc "abcdefghijkl" 9 2 8 s i h); [lia|vm_compute; split; discriminate|lia|exact E].
Defined.

(** The old text is deleted, the new one typed and Enter pressed. *)
Definition retype (s : string) (cs : list ascii) : list key :=
  replicate (String.length s) KBackspace ++ map KChar cs ++ [KChar nl].

Lemma typed_text erase title s0 info cs fuel u ks :
  forallb (plain erase) cs = true → String.length s0 + length cs < fuel →
  input_dialog erase fuel title s0 info (mkIo u (retype s0 cs ++ ks)) =
    Ret (Some (String.string_of_list_ascii cs)) (mkIo u ks).
Proof.
  intros Hp Hf. unfold input_dialog, mbind, prog_bind, ui, retype. cbn [io_ui]. rewrite <- !(assoc_L (++)).
  set (inf := match info with Some t => _ | None => _ end). set (h := Z.max _ _).
  assert (∀ n, fuel = n → loop n (input_body erase title inf) (s0, zlen s0, h)
    (mkIo u (replicate (String.length s0) KBackspace ++ map KChar cs ++ [KChar nl] ++ ks)) =
    Ret (Some (String.string_of_list_ascii cs)) (mkIo u ks)) as H; [|by apply H].
  intros n Hn. replace n with (String.length s0 + (length cs + S (fuel - String.length s0 - length cs - 1))) by lia.
  destruct (loop_backspaces erase title inf (String.length s0) (length cs + S (fuel - String.length s0 - length cs - 1))
    s0 h u (map KChar cs ++ [KChar nl] ++ ks)) as [h1 H1]; [done|].
  rewrite stake_all in H1 by done. unfold zlen. rewrite H1.
  destruct (loop_typed erase title inf cs (S (fuel - String.length s0 - length cs - 1)) "" h1 u ([KChar nl] ++ ks) Hp)
    as [h2 H2].
  change (zlen "") with 0%Z in H2. rewrite H2. done.
Qed.

(** ** Values *)

Lemma int16_digits_nonneg s : ∀ start acc v, (0 ≤ acc)%Z → int16_digits start acc s = Ok v → (0 ≤ v)%Z.
Proof.
  induction s as [|c s IH]; intros start acc v Ha H; cbn [int16_digits] in H; [destruct start; [done|congruence]|].
  destruct (digit_val c) as [d|] eqn:Hd.
  - eapply IH; [|exact H]. assert (0 ≤ d)%Z; [|lia]. unfold digit_val in Hd.
    repeat match type of Hd with context [(?a <=? ?b)%Z] => destruct (Z.leb_spec a b) end; cbn in Hd;
      first [done|injection Hd as <-; lia].
  - destruct (Ascii.eqb c "_"); destruct start; try done; [by eapply IH|].
    destruct (lstrip _); [congruence|done].
Qed.

(** A number with 0x in front is not negative. *)
Lemma int16_prefixed s v : startswith s "0x" || startswith s "0X" = true → int16 s = Ok v → (0 ≤ v)%Z.
Proof.
  intros H E. assert (∃ x r, s = String "0" (String x r)) as (x & r & ->).
  { unfold startswith in H. destruct s as [|c [|x r]]; [done|by destruct c as [[] [] [] [] [] [] [] []]|].
    exists x, r. f_equal. destruct c as [[] [] [] [] [] [] [] []]; done. }
  change (int16_unsigned (String "0" (String x r)) = Ok v) in E. unfold int16_unsigned in E.
  destruct (Ascii.eqb "0" "0" && (Ascii.eqb x "x" || Ascii.eqb x "X")); by eapply int16_digits_nonneg in E.
Qed.

(** What the dialog accepts, [set_value] accepts. *)
Lemma accepted vals u n y s : cf_syms (uconf u) !! n = Some y → text_type (s_orig_type y) = true →
  check_valid vals u n (clean_text (s_orig_type y) s) = Ok None →
  set_value (uconf u) n (UStr (clean_text (s_orig_type y) s)) =
    (true, (set_value (uconf u) n (UStr (clean_text (s_orig_type y) s))).2).
Proof.
  intros Ey Ht H. set (x := clean_text _ _) in *. assert (valid_value (s_orig_type y) (UStr x) = true) as Hv.
  { unfold check_valid in H. rewrite Ey in H. destruct (s_orig_type y) eqn:Et; try done; cbn [INT_HEX negb type_base] in H.
    - cbn [valid_value]. unfold is_base_n. by destruct (int_base 10 x).
    - cbn [valid_value]. unfold hex_ok. change (int_base 16 x) with (int16 x) in H. destruct (int16 x) as [v|] eqn:Ex; [|done].
      apply Z.leb_le. eapply int16_prefixed; [|exact Ex]. unfold x, clean_text. cbn [INT_HEX].
      destruct (startswith (strip s) "0x" || startswith (strip s) "0X") eqn:E; [exact E|by rewrite startswith_app]. }
  unfold set_value. rewrite Ey.
  assert (tri_of (s_orig_type y) (UStr x) = UStr x) as -> by (by destruct (s_orig_type y)).
  destruct (_ && _); [done|]. rewrite Hv. cbn [negb]. destruct (s_choice y); [|done].
  by rewrite decide_False by done.
Qed.

(** A changed value is the new configuration, and the session has changes. *)
Lemma set_val_sets top vals it v u u' old : set_val top vals it v u = Ok u' →
  str_value (uconf u) (uvals vals u) it = Ok old → v ≠ old →
  uconf u' = set_sc_value (uconf u) it v ∧ u_changed u' = true.
Proof.
  intros H Ho Hv. unfold set_val in H. rewrite Ho in H. cbn [res_bind] in H.
  rewrite (proj2 (String.eqb_neq v old) Hv) in H. unfold update_menu in H.
  destruct (sel_node _) as [p|]; [|done]. cbn [res_bind] in H.
  destruct (shown_in _ _ _ _ _) as [l|]; [|done]. cbn [res_bind] in H.
  destruct (index_in p l); [|done]. by injection H as <-.
Qed.
End MEditSpec.
