(* ===== verification/MSpec.v ===== *)
(** * What the interface promises

    The session as a whole, reaching entries, jumping, entering and leaving,
    the menus that cannot be left, and a configuration for which a change ends
    the interface with an exception. *)
From S2P Require Import Prelude Hex PyStr KExpr KLex KSym KConf KDep KFinal KFinalSpec KMenu KMenuSpec KPrint KLinks KInit KInitSpec Files KTools.
From S2P Require Import MNode MState MInfo MEdit MMain MNodeSpec MShownSpec MStateSpec MMainSpec MNavSpec MReachSpec MEditSpec.

Module MSpec.
Import Hex PyStr KExpr KLex KSym KDep KFinal KMenuSpec KPrint KInit KInitSpec Files KTools.
Import MNode MState MEdit MMain MNodeSpec MShownSpec MStateSpec MMainSpec MNavSpec MReachSpec MEditSpec MHiddenSpec.

Section session.
Context (env : gmap string string) (K : Kc) (vals : Conf → Vals).
Context (D : KMenu.Df) (F : Fst).
Context (erase : option ascii) (cwd : string) (expanduser : string → string).
Context (compile : string → option (string → bool)).

Notation main_loop top fuel := (main_loop env K vals top D F erase cwd expanduser compile fuel).
Notation menuconfig top := (menuconfig env K vals top).

(** The state the interface starts in. *)
Lemma start_state top ses screen u : menuconfig top ses screen = Ok (Some u) →
  on_screen u ∧ u_cur u = [] ∧ shown_in top vals u (u_all u) [] = Ok (u_shown u).
Proof.
  unfold MMain.menuconfig. destruct (load_initial _ _ _ _) as [[o ses']|]; [|done]. cbn [res_bind snd fst].
  assert (∀ all l ch r, shown_nodes top (conf ses') (vals (conf ses')) all [] = Ok l → l ≠ [] →
    (let* u := init_ui env vals top ses' all ch screen in Ok (Some u)) = Ok (Some r) →
    on_screen r ∧ u_cur r = [] ∧ shown_in top vals r (u_all r) [] = Ok (u_shown r)) as Hinit.
  { intros all l ch r El Hl H. unfold init_ui in H. rewrite El in H. cbn [res_bind] in H. injection H as <-.
    split; [|done]. apply resize_on; cbn; [|lia]. destruct l; [done|cbn; lia]. }
  destruct (shown_nodes _ _ _ false []) as [[|p l]|] eqn:E1; [|by eapply Hinit|done]. cbn [res_bind].
  destruct (shown_nodes _ _ _ true []) as [[|p l]|] eqn:E2; [done|by eapply Hinit|done].
Qed.

(** C12.  Whatever keys are pressed, in the main display and in every dialog:
    whenever the interface waits for a key, the selected entry of the main
    display exists and is inside the window; and no loop of the interface goes
    on without waiting for a key. *)
Theorem session_safe top ses screen u fuel ks :
  menuconfig top ses screen = Ok (Some u) → length ks < fuel →
  match main_loop top fuel (mkIo u ks) with
  | Ret _ _ | Raise _ _ => True
  | Wait u' => on_screen u'
  | Spin _ => False
  end.
Proof. intros H Hk. apply start_state in H as [Hu _]. by apply on_main_loop. Qed.

(** ** Configurations read from files *)

Context (iter : gset sc → list sc) (syms_order : gset string → list string).
Context (environ : gmap string string) (uname_release : string) (shell : string → string * string).
Context (user_functions : gmap string (nat * option nat * (list string → ST Kst string))).
Context (glob : string → list string) (read_file : string → option string) (io_error : string → string).
Context (srctree srctree_prefix : string) (lex_fuel : nat).
Notation init := (init iter syms_order environ uname_release shell user_functions glob read_file io_error
  srctree srctree_prefix lex_fuel).

Lemma init_wf_tree n filename text w kc : init n filename text w = Ok kc → wf_tree (kc_top kc).
Proof. intros H. destruct (init_parts _ _ _ _ _ _ _ _ _ _ _ _ _ _ _ _ _ H) as ([] & _). by apply entered_wf. Qed.

(** C36.  In the menu tree of every configuration that is read, every node but
    the top one is in exactly one menu: going up from it ends at a node that
    is entered, above it in the tree. *)
Theorem every_node_in_menu n filename text w kc q :
  init n filename text w = Ok kc → exists_at (kc_top kc) q → q ≠ [] →
  ∃ m, parent_menu (kc_top kc) q = Ok m ∧ exists_at (kc_top kc) m ∧ menuconfig_at (kc_top kc) m = true ∧
    length m < length q.
Proof. intros H%init_wf_tree. by apply parent_menu_total. Qed.

(** C31.  The nodes shown in a menu are nodes of that menu, or of another
    place where the same choice is defined, and none is shown twice; in
    show-all mode no node of the menu is left out. *)
Theorem shown_nodes_of_menu n filename text w kc C V all m r :
  init n filename text w = Ok kc → exists_at (kc_top kc) m → menuconfig_at (kc_top kc) m = true →
  shown_nodes (kc_top kc) C V all m = Ok r →
  NoDup r ∧
  (∀ p, p ∈ r → exists_at (kc_top kc) p ∧
     ∃ m', m' ∈ locations (kc_top kc) m ∧ parent_menu (kc_top kc) p = Ok m') ∧
  (all = true → ∀ p, exists_at (kc_top kc) p → parent_menu (kc_top kc) p = Ok m → p ∈ r).
Proof.
  intros Wf%init_wf_tree He Hm H. destruct (shown_nodes_sound _ _ _ _ Wf m r He Hm H) as [Hf Hn].
  split; [done|]. split; [by apply Forall_forall|]. intros -> p. by apply (shown_nodes_all _ C V m).
Qed.

(** C13.  From the start display, whatever the configuration, there are keys
    that select any given entry: show-all mode, Left to the top, then through
    the menus around the entry with Home, Down and Right. *)
Theorem every_entry_reachable n filename text w kc ses screen u q :
  init n filename text w = Ok kc → menuconfig (kc_top kc) ses screen = Ok (Some u) →
  defined (kc_top kc) vals u → erase ≠ Some "a"%char → exists_at (kc_top kc) q → q ≠ [] →
  ∃ ks u', sel_node u' = Ok q ∧ ∀ fuel, length ks < fuel → main_loop (kc_top kc) fuel (mkIo u ks) = Wait u'.
Proof.
  intros Wf%init_wf_tree Hs Hd Ha He Hq. apply start_state in Hs as (Hu & Hc & Hsh).
  assert (settled (kc_top kc) vals u) as Hset.
  { split; rewrite ?Hc; [by eexists|apply Wf|done|by destruct Hu]. }
  assert (∃ u1 ks1, steps env K vals (kc_top kc) D F erase cwd expanduser compile u ks1 u1 ∧
    settled (kc_top kc) vals u1 ∧ u_all u1 = true ∧ defined (kc_top kc) vals u1) as (u1 & ks1 & Hk1 & Hu1 & Ha1 & Hd1).
  { destruct (u_all u) eqn:Eall; [exists u, []; split; [apply steps_nil|done]|].
    destruct (toggle_total (kc_top kc) vals Wf u Hset Hd) as (u1 & Ht & Hu1 & _ & Hs1 & Ha1).
    { right. rewrite Hc. unfold locations, item_at. cbn. by rewrite (wf_menu _ Wf). }
    exists u1, [KChar "a"]. split; [by apply steps_all|]. split; [done|]. split; [by apply Ha1|].
    by eapply defined_ses. }
  destruct (reach_node env K vals (kc_top kc) D F erase cwd expanduser compile Wf u1 q Hd1 Hu1 Ha1 He Hq)
    as (u2 & (_ & _ & _ & ks2 & Hk2) & Hsel & _).
  exists (ks1 ++ ks2), u2. split; [done|]. intros fuel Hf.
  assert (Hk := steps_app _ _ _ _ _ _ _ _ _ _ _ _ _ _ _ Hk1 Hk2 fuel (S (fuel - S (length (ks1 ++ ks2)))) []).
  rewrite app_nil_r in Hk. unfold MMain.main_loop. replace fuel with (length (ks1 ++ ks2) + S (fuel - S (length (ks1 ++ ks2)))) at 1 by lia.
  rewrite Hk. done.
Qed.

(** What a jump leaves alone: the configuration, the modes, the file names,
    the changed flag and the sizes. *)
Definition around (u : Ui) :=
  (u_ses u, u_help u, u_name u, u_conf_filename u, u_minconf_filename u, u_changed u, u_height u, u_screen u).

Lemma select_choice_keeps top u u' :
  select_selected_choice_sym top vals u = Ok u' →
  around u' = around u ∧ u_rows u' = u_rows u ∧ u_all u' = u_all u.
Proof.
  unfold select_selected_choice_sym. intros (d & _ & H)%res_bind_ok.
  destruct (m_item d); try by injection H as <-. apply res_bind_ok in H as ([n'|] & _ & H); [|by injection H as <-].
  destruct (list_find _ _) as [[i p]|]; [|by injection H as <-].
  apply res_bind_ok in H as (j & _ & H). by injection H as <-.
Qed.
Lemma toggle_keeps top u u' :
  toggle_show_all top vals u = Ok u' → around u' = around u ∧ u_rows u' = u_rows u.
Proof.
  unfold toggle_show_all. cbv zeta. intros (new & _ & H)%res_bind_ok.
  destruct (list_find _ _) as [[i p]|]; [|by injection H as <-].
  apply res_bind_ok in H as (j & _ & H). by injection H as <-.
Qed.
Lemma jump_keeps top p u u' :
  jump_to top vals p u = Ok u' →
  around u' = around u ∧ u_rows u' = [] ∧ (u_all u = true → u_all u' = true).
Proof.
  unfold jump_to. cbv zeta. intros (t & _ & H)%res_bind_ok. apply res_bind_ok in H as (cur & _ & H).
  apply res_bind_ok in H as (shown & _ & H). apply res_bind_ok in H as (sa & Hsa & H).
  assert (u_all u = true → sa.2 = true) as Hall.
  { revert Hsa. clear. destruct (bool_decide _); [by intros [= <-]|]. by intros (l & _ & [= <-])%res_bind_ok. }
  apply res_bind_ok in H as (i & _ & H). apply res_bind_ok in H as (u1 & H1 & H).
  assert (around u1 = around u ∧ u_rows u1 = [] ∧ (u_all u = true → u_all u1 = true)) as (A1 & R1 & S1).
  { destruct (_ && negb (u_all u) && sa.2) eqn:Ec; [|by injection H1 as <-].
    apply toggle_keeps in H1 as [-> ->]. split_and!; try done. intros Hu. rewrite Hu, andb_false_r in Ec. done. }
  destruct (_ && is_choice _); [apply select_choice_keeps in H as (-> & -> & ->); by split_and!|].
  by injection H as <-.
Qed.

(** C21.  A jump from the jump-to dialog always succeeds, whatever is shown:
    for a choice or menu with entries it shows what is in it, for any other
    node it shows the menu of the node and selects the node; the selected
    entry is on the screen.  The display is moved and the remembered rows of
    the menus around it are forgotten; show-all mode may be turned on and is
    not turned off; the configuration, the other modes, the file names, the
    changed flag and the sizes of the windows stay as they are. *)
Theorem jump_lands n filename text w kc p t u :
  init n filename text w = Ok kc → defined (kc_top kc) vals u → on_screen u →
  p ≠ [] → node_at (kc_top kc) p = Some t →
  ∃ u', jump_to (kc_top kc) vals p u = Ok u' ∧ on_screen u' ∧
    around u' = around u ∧ u_rows u' = [] ∧ (u_all u = true → u_all u' = true) ∧
    shown_in (kc_top kc) vals u' (u_all u') (u_cur u') = Ok (u_shown u') ∧
    if jumps_into t then u_cur u' = p
    else sel_node u' = Ok p ∧ parent_menu (kc_top kc) p = Ok (u_cur u').
Proof.
  intros Wf%init_wf_tree Hd Hu Hp Et.
  destruct (jump_total (kc_top kc) vals Wf p t u Hd Hp Et) as (u' & E & Hs & _ & Hcur). exists u'.
  assert (H := jump_to_on (kc_top kc) vals p u Hu). rewrite E in H.
  destruct (jump_keeps _ _ _ _ E) as (K1 & K2 & K3). split_and!; try done. by destruct Hs.
Qed.

(** C30.  Entering a menu, a choice or a symbol with a menu of its own and
    leaving it at once gives back the display there was: the same entries, the
    same one selected, on the same row. *)
Theorem enter_leave_round_trip n filename text w kc p u u' :
  init n filename text w = Ok kc → on_screen u →
  exists_at (kc_top kc) (u_cur u) → menuconfig_at (kc_top kc) (u_cur u) = true →
  shown_in (kc_top kc) vals u (u_all u) (u_cur u) = Ok (u_shown u) →
  sel_node u = Ok p → parent_menu (kc_top kc) p = Ok (u_cur u) →
  enter_menu (kc_top kc) vals p u = Ok (true, u') → leave_menu (kc_top kc) vals u' = Ok u.
Proof.
  intros Wf%init_wf_tree Hu He Hm Hs. apply enter_leave; [done| |done]. split; try done. by destruct Hu.
Qed.

(** C37.  A menu whose prompt is not visible, as its "visible if" says, while
    an entry in it is, as a comment in it is: without show-all mode, jumping to
    the entry shows the menu with the entry selected, and leaving the menu with
    the left arrow ends the program with a ValueError, since the menu is not
    among the nodes shown around it. *)
Theorem leave_hidden_menu_raises n filename text w kc u p i :
  init n filename text w = Ok kc → defined (kc_top kc) vals u →
  in_hidden (kc_top kc) vals u p i → p ≠ [] → u_all u = false →
  ∃ u', jump_to (kc_top kc) vals (i :: p) u = Ok u' ∧ u_cur u' = p ∧ sel_node u' = Ok (i :: p) ∧
    ∀ fuel ks, 0 < fuel → main_loop (kc_top kc) fuel (mkIo u' (KLeft :: ks)) = Raise ValueError u'.
Proof.
  intros Wf%init_wf_tree Hd Hh Hp Ha.
  destruct (jump_in_hidden (kc_top kc) vals Wf u p i Hd Hh Ha) as (u' & Hj & Hses & Ha' & Hc & Hsel).
  exists u'. split_and!; [done..|]. intros [|fuel] ks Hf; [lia|].
  assert (leave_menu (kc_top kc) vals u' = Err ValueError) as Hl.
  { apply (leave_hidden (kc_top kc) vals Wf u' p i); try done; [by eapply defined_ses|by eapply in_hidden_ses]. }
  unfold MMain.main_loop. cbn [loop]. unfold mbind at 1, prog_bind at 1.
  assert (main_body env K vals (kc_top kc) D F erase cwd expanduser compile (S fuel) tt (mkIo u' (KLeft :: ks))
    = Raise ValueError u') as ->; [|done].
  transitivity (done_with (act (leave_menu (kc_top kc) vals)) (mkIo u' ks)); [done|].
  unfold done_with, mbind, prog_bind, act. cbn [io_ui]. by rewrite Hl.
Qed.
End session.

(** ** Values *)

(** C22.  At a symbol with a text value whose dialog is open: deleting the old
    text, typing another one and pressing Enter closes the dialog, if the text
    is accepted; the text, with 0x in front for a hex symbol, is then given to
    set_value, which accepts it too, and the configuration is the one it
    makes. *)
Theorem typed_value_is_set top vals erase fuel d n y pr old info cs u u' ks :
  let x := clean_text (s_orig_type y) (String.string_of_list_ascii cs) in
  m_item d = MSym n → m_prompt d = Some pr → cf_syms (uconf u) !! n = Some y → text_type (s_orig_type y) = true →
  str_value (uconf u) (uvals vals u) (MSym n) = Ok old → range_info vals u n = Ok info →
  forallb (plain erase) cs = true → String.length old + length cs < fuel →
  check_valid vals u n x = Ok None → set_val top vals (MSym n) x u = Ok u' →
  change_text vals top erase fuel d n (mkIo u (retype old cs ++ ks)) = Ret tt (mkIo u' ks) ∧
  (x ≠ old → set_value (uconf u) n (UStr x) = (true, uconf u') ∧ u_changed u' = true).
Proof.
  intros x Hi Hp Hy Ht Ho Hr Hcs Hf Hc Hs. split.
  - unfold change_text, mbind, prog_bind, ask. cbn [io_ui]. rewrite Hi, Hp. unfold orig_type_of. rewrite Hy, Ho.
    destruct pr as [p c]. destruct fuel as [|fuel]; [lia|]. remember (S fuel) as f eqn:Ef. rewrite Ef at 1. cbn [loop].
    assert (∀ title, ask_value vals top erase f d n (s_orig_type y) title old (mkIo u (retype old cs ++ ks)) =
      Ret (inr tt) (mkIo u' ks)) as Ha.
    { intros title. unfold ask_value, mbind, prog_bind, ask. cbn [io_ui]. rewrite Hr, typed_text by first [done|lia].
      cbn [io_ui]. fold x. rewrite Hc. unfold act. cbn [io_ui]. by rewrite Hi, Hs. }
    unfold mbind, prog_bind. by rewrite Ha.
  - intros Hne. destruct (set_val_sets _ _ _ _ _ _ _ Hs Ho Hne) as [-> ->]. split; [|done].
    unfold x. by rewrite (accepted vals u n y).
Qed.
(** ** Sessions on small configurations *)

Definition demo_kc : Kc := mkKc "CONFIG_" "" "" "" [] [] [].
Definition demo_vals (C : Conf) : Vals := vals C 20.
Notation demo_init text := (init elements elements ∅ "" (λ _, ("", "")) ∅ (λ _, []) (λ _, None) (λ _, "") "" ""
  100 100 "Kconfig" text true).
Definition demo_ses (kc : Kconfig) : Ses := mkSes (KConf.mkLst (kc_conf kc) []) true true (Files.mkWorld ∅ []).
(** A session on a terminal of 24 by 80 with no file yet. *)
Definition session (text : string) (P : Kconfig → Ui → Prop) : Prop :=
  match demo_init text with
  | Ok kc => match menuconfig ∅ demo_kc demo_vals (kc_top kc) (demo_ses kc) (24, 80) with
             | Ok (Some u) => P kc u
             | _ => False
             end
  | Err _ => False
  end.
Notation demo_loop kc fuel := (main_loop ∅ demo_kc demo_vals (kc_top kc) (kc_df kc) (kc_fst kc) None "/x" (λ s, s)
  (λ _, None) fuel).

Lemma session_mono text (P Q : Kconfig → Ui → Prop) :
  session text P →
  (∀ kc u, demo_init text = Ok kc →
     menuconfig ∅ demo_kc demo_vals (kc_top kc) (demo_ses kc) (24, 80) = Ok (Some u) → P kc u → Q kc u) →
  session text Q.
Proof.
  unfold session. intros HP H. destruct (demo_init text) as [kc|] eqn:E; [|done].
  destruct (menuconfig _ _ _ _ _ _) as [[u|]|] eqn:Eu; [|done..]. by apply H.
Qed.

(** [defined], as a check. *)
Definition defined_check (top : tnode) (u : Ui) : bool :=
  forallb (λ q, match node_at top q with
                | Some t => is_ok (visible (uconf u) (uvals demo_vals u) (data t)) &&
                            match m_item (data t) with
                            | MChoice id _ => is_ok (item_sel (uconf u) (uvals demo_vals u) id)
                            | _ => true
                            end
                | None => true
                end) ([] :: paths_below [] top).
Lemma defined_by_check top u : defined_check top u = true → defined top demo_vals u.
Proof.
  intros H. assert (∀ q t, node_at top q = Some t →
    is_ok (visible (uconf u) (uvals demo_vals u) (data t)) &&
    match m_item (data t) with MChoice id _ => is_ok (item_sel (uconf u) (uvals demo_vals u) id) | _ => true end = true)
    as Hall.
  { intros q t E. unfold defined_check in H. rewrite forallb_forall in H.
    specialize (H q). rewrite E in H. apply H. apply list_elem_of_In.
    destruct (decide (q = [])) as [->|Hq]; [by left|right]. apply (paths_in top); [done|].
    split; [by eexists|]. exists q. by rewrite app_nil_r. }
  split.
  - intros q t [Hv _]%Hall%andb_prop. destruct (visible _ _ _) as [b|]; [by exists b|done].
  - intros q t id nm E Hi. apply Hall in E. rewrite Hi in E. apply andb_prop in E as [_ E].
    destruct (item_sel _ _ _) as [sel|]; [by exists sel|done].
Qed.

(** A menu with an entry that is hidden at first, and a choice. *)
Definition demo_text : string := text_of
  ["config V"; "  bool " +:+ quoted_str "v"; "menu " +:+ quoted_str "M"; "  visible if V"; "config A";
   "  bool " +:+ quoted_str "a"; "endmenu"; "choice"; "  prompt " +:+ quoted_str "c"; "config B";
   "  bool " +:+ quoted_str "b"; "config C"; "  bool " +:+ quoted_str "c"; "endchoice"].

Lemma session_safe_witness :
  session demo_text (λ kc u,
    match demo_loop kc 9 (mkIo u [KDown; KRight; KDown; KChar nl; KChar "/"; KDown; KResize 5 9; KDown]) with
    | Wait u' => on_screen u'
    | Ret _ _ | Raise _ _ => True
    | Spin _ => False
    end).
Proof.
  apply (session_mono _ (λ _ _, True)); [vm_compute; reflexivity|]. intros kc u _ Hu _.
  assert (H := session_safe ∅ demo_kc demo_vals (kc_df kc) (kc_fst kc) None "/x" (λ s, s) (λ _, None) (kc_top kc) _ _ u 9
    [KDown; KRight; KDown; KChar nl; KChar "/"; KDown; KResize 5 9; KDown] Hu).
  destruct (demo_loop _ _ _); apply H; cbn; lia.
Defined.

Lemma every_node_in_menu_witness :
  session demo_text (λ kc _, ∃ m, parent_menu (kc_top kc) [1; 2] = Ok m ∧ length m < 2).
Proof.
  apply (session_mono _ (λ kc _, exists_at (kc_top kc) [1; 2])); [vm_compute; by eexists|]. intros kc u E _ He.
  destruct (every_node_in_menu _ _ _ _ _ _ _ _ _ _ _ _ _ _ _ _ _ [1; 2] E He ltac:(discriminate)) as (m & H1 & _ & _ & H2).
  exact (ex_intro _ m (conj H1 H2)).
Defined.

Lemma shown_nodes_of_menu_witness :
  session demo_text (λ kc u, NoDup (u_shown u) ∧ ∀ p, p ∈ u_shown u → ∃ m, m ∈ locations (kc_top kc) [] ∧
    parent_menu (kc_top kc) p = Ok m).
Proof.
  apply (session_mono _ (λ kc u, menuconfig_at (kc_top kc) [] = true)); [vm_compute; reflexivity|].
  intros kc u E Hu Hm. apply start_state in Hu as (_ & _ & Hs).
  destruct (shown_nodes_of_menu _ _ _ _ _ _ _ _ _ _ _ _ _ _ _ _ _ _ _ _ [] _ E (ex_intro _ (kc_top kc) eq_refl) Hm Hs)
    as (H1 & H2 & _).
  split; [exact H1|]. intros p Hp. exact (proj2 (H2 p Hp)).
Defined.

Lemma every_entry_reachable_witness :
  session demo_text (λ kc u, ∃ ks u', sel_node u' = Ok [1; 2] ∧
    ∀ fuel, length ks < fuel → demo_loop kc fuel (mkIo u ks) = Wait u').
Proof.
  apply (session_mono _ (λ kc u, defined_check (kc_top kc) u = true ∧ is_Some (node_at (kc_top kc) [1; 2])));
    [vm_compute; split; [reflexivity|by eexists]|].
  intros kc u E Hu [Hd He]. apply defined_by_check in Hd.
  eapply (every_entry_reachable ∅ demo_kc demo_vals (kc_df kc) (kc_fst kc) None "/x" (λ s, s) (λ _, None));
    [exact E|exact Hu|exact Hd|discriminate|exact He|discriminate].
Defined.

Lemma jump_lands_witness :
  session demo_text (λ kc u, ∃ u', jump_to (kc_top kc) demo_vals [0; 1] u = Ok u' ∧ sel_node u' = Ok [0; 1]).
Proof.
  apply (session_mono _ (λ kc u, defined_check (kc_top kc) u = true ∧
    ∃ t, node_at (kc_top kc) [0; 1] = Some t ∧ jumps_into t = false));
    [vm_compute; split; [reflexivity|by eexists]|].
  intros kc u E Hu (Hd & t & Et & Hi). apply defined_by_check in Hd. apply start_state in Hu as [Hu _].
  destruct (jump_lands _ _ _ _ _ _ _ _ _ _ _ _ _ _ _ _ _ _ [0; 1] t u E Hd Hu ltac:(discriminate) Et)
    as (u' & H1 & _ & _ & _ & _ & _ & H2).
  rewrite Hi in H2. exact (ex_intro _ u' (conj H1 (proj1 H2))).
Defined.

Lemma enter_leave_round_trip_witness :
  session demo_text (λ kc u, ∃ u', enter_menu (kc_top kc) demo_vals [2] (select_next u) = Ok (true, u') ∧
    leave_menu (kc_top kc) demo_vals u' = Ok (select_next u)).
Proof.
  apply (session_mono _ (λ kc u, menuconfig_at (kc_top kc) [] = true ∧
    sel_node (select_next u) = Ok [2] ∧ parent_menu (kc_top kc) [2] = Ok [] ∧
    ∃ u', enter_menu (kc_top kc) demo_vals [2] (select_next u) = Ok (true, u') ∧ u_cur u' = [2]));
    [vm_compute; repeat split; try reflexivity; by eexists|].
  intros kc u E Hu (Hm & Hsel & Hp & u' & H & _). apply start_state in Hu as (Hu & Hc & Hs).
  exists u'. split; [exact H|].
  assert (u_cur (select_next u) = u_cur u ∧ u_all (select_next u) = u_all u ∧ u_ses (select_next u) = u_ses u ∧
    u_shown (select_next u) = u_shown u) as (C1 & C2 & C3 & C4).
  { clear. unfold select_next. by destruct (Nat.ltb _ _). }
  eapply (enter_leave_round_trip demo_vals); [exact E|by apply select_next_on|..|exact H].
  - rewrite C1, Hc. exact (ex_intro _ (kc_top kc) eq_refl).
  - rewrite C1, Hc. exact Hm.
  - unfold shown_in, uvals, uconf. rewrite C1, C2, C3, C4, Hc. exact Hs.
  - exact Hsel.
  - rewrite C1, Hc. exact Hp.
Defined.

(** A number in a range. *)
Definition number_text : string := text_of
  ["config N"; "  int " +:+ quoted_str "n"; "  range 1 9"; "  default 4"].

Lemma typed_value_is_set_witness :
  session number_text (λ kc u, ∃ d u',
    change_text demo_vals (kc_top kc) None 5 d "N" (mkIo u (retype "4" ["7"%char])) = Ret tt (mkIo u' []) ∧
    set_value (uconf u) "N" (UStr "7") = (true, uconf u')).
Proof.
  apply (session_mono _ (λ kc u, match node_at (kc_top kc) [0], cf_syms (uconf u) !! "N" with
    | Some t, Some y =>
        m_item (data t) = MSym "N" ∧ is_Some (m_prompt (data t)) ∧ s_orig_type y = INT ∧
        str_value (uconf u) (uvals demo_vals u) (MSym "N") = Ok "4" ∧
        range_info demo_vals u "N" = Ok (Some "Range: 1-9") ∧ check_valid demo_vals u "N" "7" = Ok None ∧
        is_ok (set_val (kc_top kc) demo_vals (MSym "N") "7" u) = true
    | _, _ => False
    end)); [vm_compute; repeat split; try reflexivity; by eexists|].
  intros kc u _ _ H. destruct (node_at (kc_top kc) [0]) as [t|]; [|done].
  destruct (cf_syms (uconf u) !! "N") as [y|] eqn:Ey; [|done].
  destruct H as (H1 & [pr H2] & H3 & H4 & H5 & H6 & H7).
  destruct (set_val _ _ _ _ _) as [u'|] eqn:Es; [|discriminate H7]. exists (data t), u'.
  destruct (typed_value_is_set (kc_top kc) demo_vals None 5 (data t) "N" y pr "4" (Some "Range: 1-9") ["7"%char] u u' [])
    as [Q1 Q2]; rewrite ?H3; try assumption; try reflexivity; [cbn; lia|].
  rewrite H3 in Q2. split; [exact Q1|]. by apply Q2.
Defined.

(** *** Two ways to end with an exception *)

Definition raises (e : pyerr) {A} (o : outcome A) : Prop := match o with Raise e' _ => e' = e | _ => False end.

(** A menu that its "visible if" hides, with a comment in it. *)
Definition hidden_menu_text : string := text_of
  ["config V"; "  bool"; "menu " +:+ quoted_str "M"; "  visible if V"; "comment " +:+ quoted_str "c"; "endmenu";
   "config A"; "  bool " +:+ quoted_str "a"].

Lemma leave_hidden_menu_raises_witness :
  session hidden_menu_text (λ kc u, ∃ u', jump_to (kc_top kc) demo_vals [0; 1] u = Ok u' ∧
    ∀ ks, demo_loop kc 9 (mkIo u' (KLeft :: ks)) = Raise ValueError u').
Proof.
  apply (session_mono _ (λ kc u, defined_check (kc_top kc) u = true ∧ u_all u = false ∧
    match node_at (kc_top kc) [1], node_at (kc_top kc) [0; 1] with
    | Some (TNode d l), Some t =>
        m_item d = MMenu ∧ visible (uconf u) (uvals demo_vals u) d = Ok false ∧
        MNode.children t = [] ∧ visible (uconf u) (uvals demo_vals u) (data t) = Ok true
    | _, _ => False
    end)); [vm_compute; repeat split; reflexivity|].
  intros kc u E _ (Hd & Ha & Hc). apply defined_by_check in Hd.
  assert (in_hidden (kc_top kc) demo_vals u [1] 0) as Hh.
  { clear -Hc. destruct (node_at (kc_top kc) [1]) as [[d l]|] eqn:E1; [|destruct Hc].
    destruct (node_at (kc_top kc) [0; 1]) as [t|] eqn:E2; [|destruct Hc]. destruct Hc as (H1 & H2 & H3 & H4).
    split; [exact (ex_intro _ d (ex_intro _ l (conj E1 (conj H1 H2))))|exact (ex_intro _ t (conj E2 (conj H3 H4)))]. }
  destruct (leave_hidden_menu_raises ∅ demo_kc demo_vals (kc_df kc) (kc_fst kc) None "/x" (λ s, s) (λ _, None) _ _ _ _ _ _ _ _ _ _ _ _ _ _ _ _ kc u [1] 0
    E Hd Hh ltac:(discriminate) Ha) as (u' & H1 & _ & _ & H2).
  exists u'. split; [exact H1|]. intros ks. apply H2. lia.
Defined.

(** A has a prompt for B's submenu and a second, invisible one. *)
Definition lost_node_text : string := text_of
  ["config X"; "  bool"; "config A"; "  bool " +:+ quoted_str "a"; "  default y"; "config A";
   "  bool " +:+ quoted_str "a2" +:+ " if X"; "config B"; "  bool " +:+ quoted_str "b"; "  depends on A"].

(** A value can be changed at a node with an invisible prompt, shown
    only for the sake of its submenu; when the change hides the submenu, the
    selected node is gone and updating the display ends the program with a
    ValueError. *)
Theorem change_hides_itself_raises :
  session lost_node_text (λ kc u, raises ValueError (demo_loop kc 9 (mkIo u [KDown; KChar "n"]))).
Proof. vm_compute. reflexivity. Qed.
End MSpec.
