(* ===== verification/MColorSpec.v ===== *)
(** * tools/kconfig/menuconfig.py: theorems on styles and colors

    The colors chosen for a terminal are the nearest it has, and whatever
    style the user asks for, every element drawn gets a style and every call
    to the terminal is in its range. *)
From S2P Require Import Prelude Hex PyStr Dbl Round RoundOps RoundTwice MColor.
From Stdlib Require Import SpecFloat.

Module MColorSpec.
Import Hex PyStr Round RoundOps RoundTwice MColor.
Open Scope Z_scope.

(** ** Components *)

(** All numbers below a bound, checked one by one. *)
Lemma below_check (f : Z → bool) n : forallb f (seqZ 0 n) = true → ∀ x, 0 ≤ x < n → f x = true.
Proof. intros H x Hx. rewrite forallb_forall in H. apply H, list_elem_of_In, elem_of_seqZ. lia. Qed.

Definition ok_and (p : Z → bool) (r : res Z) : bool := match r with Ok z => p z | Err _ => false end.
Lemma ok_and_spec p r : ok_and p r = true → ∃ z, r = Ok z ∧ p z = true.
Proof. destruct r; [|done]. cbn. eauto. Qed.

(** The component of the color cube nearest to [x]. *)
Lemma to_cube1_nearest x : 0 ≤ x < 256 →
  ∃ k, to_cube1 x = Ok k ∧ 0 ≤ k < 6 ∧ ∀ j, 0 ≤ j < 6 → (x - of_cube1 k) ^ 2 ≤ (x - of_cube1 j) ^ 2.
Proof.
  intros Hx.
  assert (ok_and (λ k, (0 <=? k) && (k <? 6) &&
    forallb (λ j, (x - of_cube1 k) ^ 2 <=? (x - of_cube1 j) ^ 2) (seqZ 0 6)) (to_cube1 x) = true) as (k & E & Hk)%ok_and_spec.
  { revert x Hx. apply below_check. by vm_compute. }
  apply andb_true_iff in Hk as [Hk Hj]. exists k. split; [done|]. split; [lia|]. intros j Hj'.
  pose proof (below_check (λ j, (x - of_cube1 k) ^ 2 <=? (x - of_cube1 j) ^ 2) 6 Hj j Hj') as Hle. cbv beta in Hle. lia.
Qed.

Lemma scale_1000_range x : 0 ≤ x < 256 → ∃ y, scale_1000 x = Ok y ∧ 0 ≤ y ≤ 1000.
Proof.
  intros Hx. assert (ok_and (λ y, (0 <=? y) && (y <=? 1000)) (scale_1000 x) = true) as (y & E & Hy)%ok_and_spec.
  { revert x Hx. apply below_check. by vm_compute. }
  exists y. split; [done|]. lia.
Qed.

Lemma scale_255_ok x : 0 ≤ x < 1001 → ∃ y, scale_255 x = Ok y.
Proof.
  intros Hx. assert (ok_and (λ y, true) (scale_255 x) = true) as (y & E & _)%ok_and_spec; [|eauto].
  revert x Hx. apply below_check. by vm_compute.
Qed.

(** ** Colors with 8 bits per component *)

Definition in3 (n : Z) (c : rgb) : Prop := let '(r, g, b) := c in 0 ≤ r < n ∧ 0 ≤ g < n ∧ 0 ≤ b < n.

Lemma map3_ok f n (P : Z → Prop) c :
  (∀ x, 0 ≤ x < n → ∃ y, f x = Ok y ∧ P y) → in3 n c →
  ∃ c', map3 f c = Ok c' ∧ (let '(r, g, b) := c' in P r ∧ P g ∧ P b).
Proof.
  destruct c as [[r g] b]. intros Hf (Hr & Hg & Hb).
  destruct (Hf r Hr) as (r' & Er & ?), (Hf g Hg) as (g' & Eg & ?), (Hf b Hb) as (b' & Eb & ?).
  exists (r', g', b'). cbn [map3]. by rewrite Er, Eg, Eb.
Qed.

Lemma rgb_to_6cube_nearest c : in3 256 c →
  ∃ c6, rgb_to_6cube c = Ok c6 ∧ in3 6 c6 ∧ ∀ c6', in3 6 c6' → dist c (cube_to_rgb c6) ≤ dist c (cube_to_rgb c6').
Proof.
  destruct c as [[r g] b]. intros (Hr & Hg & Hb).
  destruct (to_cube1_nearest r Hr) as (r' & Er & Hr' & Nr), (to_cube1_nearest g Hg) as (g' & Eg & Hg' & Ng),
    (to_cube1_nearest b Hb) as (b' & Eb & Hb' & Nb).
  exists (r', g', b'). unfold rgb_to_6cube. cbn [map3]. rewrite Er, Eg, Eb. split; [done|]. split; [done|].
  intros [[r2 g2] b2] (H1 & H2 & H3). cbn [cube_to_rgb dist].
  specialize (Nr r2 H1). specialize (Ng g2 H2). specialize (Nb b2 H3). lia.
Qed.

(** A color of the xterm palette. *)
Lemma xterm_cube r g b : 0 ≤ r < 6 → 0 ≤ g < 6 → 0 ≤ b < 6 →
  xterm_rgb (16 + 36 * r + 6 * g + b) = cube_to_rgb (r, g, b) ∧ 16 ≤ 16 + 36 * r + 6 * g + b < 232.
Proof.
  intros Hr Hg Hb. split; [|lia]. unfold xterm_rgb. replace (_ <? 232) with true by lia.
  replace (16 + 36 * r + 6 * g + b - 16) with (36 * r + 6 * g + b) by lia.
  assert ((36 * r + 6 * g + b) / 36 = r) as -> by (symmetry; apply (Z.div_unique_pos _ _ _ (6 * g + b)); lia).
  assert ((36 * r + 6 * g + b) / 6 = 6 * r + g) as -> by (symmetry; apply (Z.div_unique_pos _ _ _ b); lia).
  assert ((36 * r + 6 * g + b) mod 6 = b) as -> by (symmetry; apply (Z.mod_unique_pos _ _ (6 * r + g)); lia).
  assert ((6 * r + g) mod 6 = g) as -> by (symmetry; apply (Z.mod_unique_pos _ _ r); lia).
  by rewrite (Z.mod_small r) by lia.
Qed.

Lemma xterm_in3 num : 16 ≤ num < 256 → in3 256 (xterm_rgb num).
Proof.
  intros Hn. pose proof (below_check (λ i, (i <? 16) || (let '(r, g, b) := xterm_rgb i in
    (0 <=? r) && (r <? 256) && ((0 <=? g) && (g <? 256)) && ((0 <=? b) && (b <? 256)))) 256
    ltac:(by vm_compute) num ltac:(lia)) as H.
  cbv beta in H. destruct (xterm_rgb num) as [[r g] b]. cbn [in3]. lia.
Qed.

(** ** Gray *)

(** Zero, or a number of a magnitude. *)
Definition bounded (f : Dbl.dbl) (lo hi : Z) : Prop :=
  valid 53 1024 f ∧ ((∃ s, f = S754_zero s) ∨ near f lo hi).
Definition boundedb (lo hi : Z) (f : Dbl.dbl) : bool :=
  valid_binary 53 1024 f &&
  match f with
  | S754_zero _ => true
  | S754_finite _ m e => (lo <=? Zdigits2 (Zpos m) + e) && (Zdigits2 (Zpos m) + e <=? hi)
  | _ => false
  end.

Lemma boundedb_spec lo hi f : boundedb lo hi f = true → bounded f lo hi.
Proof.
  unfold boundedb, bounded, valid. intros [Hv Hf]%andb_true_iff. split; [done|].
  destruct f as [s| | |s m e]; try done; [left; eauto|right]. cbn [near]. lia.
Qed.

Lemma bounded_weaken f lo hi lo' hi' : bounded f lo hi → lo' ≤ lo → hi ≤ hi' → bounded f lo' hi'.
Proof. intros [Hv [?|Hn]] ??; split; [done|by left|done|right]. by eapply near_weaken. Qed.

Lemma unit_ok : unit_exp ≤ SpecFloat.emin 53 1024.
Proof. done. Qed.

Lemma bounded_add a b lo hi :
  -900 ≤ lo → lo ≤ hi → hi ≤ 1000 → bounded a lo hi → bounded b lo hi → bounded (Dbl.add a b) (lo - 52) (hi + 2).
Proof.
  intros Hlo Hlh Hhi Ha Hb. pose proof Ha as [Va Na]. pose proof Hb as [Vb Nb].
  destruct Na as [[sa ->]|Na].
  { destruct Nb as [[sb ->]|Nb]; [split; [by destruct sa, sb|left; destruct sa, sb; cbn; eauto]|].
    apply (bounded_weaken _ lo hi); [|lia..]. by destruct b. }
  destruct Nb as [[sb ->]|Nb].
  { apply (bounded_weaken _ lo hi); [|lia..]. by destruct a. }
  destruct (SFadd_near 53 1024 ltac:(lia) unit_ok a b lo hi Va Vb Na Nb ltac:(unfold unit_exp; lia) Hlh
    ltac:(unfold SpecFloat.emin; lia) ltac:(lia)) as [E|Hn].
  - change (SFadd 53 1024 a b) with (Dbl.add a b) in E. rewrite E. split; [done|left; eauto].
  - split; [by apply SFadd_valid|right]. by replace (lo - 52) with (lo - 53 + 1) by lia.
Qed.

Lemma bounded_opp a lo hi : bounded a lo hi → bounded (SFopp a) lo hi.
Proof. intros [Hv Hn]. split; [by destruct a|]. destruct Hn as [[s ->]|Hn]; [left; cbn; eauto|right; by destruct a]. Qed.

Lemma bounded_sub a b lo hi :
  -900 ≤ lo → lo ≤ hi → hi ≤ 1000 → bounded a lo hi → bounded b lo hi → bounded (Dbl.sub a b) (lo - 52) (hi + 2).
Proof. intros ??? Ha Hb. unfold Dbl.sub. rewrite SFsub_opp. by apply bounded_add; [..|apply bounded_opp]. Qed.

Lemma round_div_ok a b lo hi k :
  -900 ≤ lo → hi ≤ 900 → -100 ≤ k ≤ 100 → bounded a lo hi → valid 53 1024 b → near b k k →
  ∃ z, Dbl.round (Dbl.div a b) = Ok z.
Proof.
  intros Hlo Hhi Hk [Hv Ha] Hb Nb. destruct Ha as [[s ->]|Na].
  - destruct b; try done. by exists 0.
  - pose proof (SFdiv_near 53 1024 ltac:(lia) unit_ok a b lo hi k k Hv Hb Na Nb ltac:(unfold SpecFloat.emin; lia) ltac:(lia)) as Hn.
    change (SFdiv 53 1024 a b) with (Dbl.div a b) in Hn. destruct (Dbl.div a b); try done. cbn. eauto.
Qed.

Lemma weight_bounded w x : w ∈ [299; 587; 114] → 0 ≤ x < 256 →
  bounded (Dbl.mul (Dbl.ratio w 1000) (Dbl.of_Z x)) (-3) 8.
Proof.
  intros Hw Hx. apply boundedb_spec.
  pose proof (below_check (λ x, forallb (λ w, boundedb (-3) 8 (Dbl.mul (Dbl.ratio w 1000) (Dbl.of_Z x))) [299; 587; 114])
    256 ltac:(by vm_compute) x Hx) as H. cbv beta in H.
  rewrite forallb_forall in H. by apply H, list_elem_of_In.
Qed.

Lemma rgb_to_gray_ok c : in3 256 c → ∃ g, rgb_to_gray c = Ok g ∧ 0 ≤ g < 24.
Proof.
  destruct c as [[r g] b]. intros (Hr & Hg & Hb).
  pose proof (weight_bounded 299 r ltac:(by repeat constructor) Hr) as B1.
  pose proof (weight_bounded 587 g ltac:(by repeat constructor) Hg) as B2.
  pose proof (weight_bounded 114 b ltac:(by repeat constructor) Hb) as B3.
  pose proof (bounded_add _ _ (-3) 8 ltac:(lia) ltac:(lia) ltac:(lia) B1 B2) as B4.
  pose proof (bounded_add _ _ (-55) 10 ltac:(lia) ltac:(lia) ltac:(lia) B4 (bounded_weaken _ _ _ (-55) 10 B3 ltac:(lia) ltac:(lia))) as B5.
  assert (bounded (Dbl.of_Z 8) (-107) 12) as B8 by (apply boundedb_spec; by vm_compute).
  assert (bounded (luma (r, g, b)) (-107) 12) as B6 by (eapply bounded_weaken; [exact B5|lia..]).
  pose proof (bounded_sub _ _ (-107) 12 ltac:(lia) ltac:(lia) ltac:(lia) B6 B8) as B7.
  destruct (round_div_ok _ (Dbl.of_Z 10) (-159) 14 4 ltac:(lia) ltac:(lia) ltac:(lia) B7 ltac:(by vm_compute) ltac:(by vm_compute)) as [z Ez].
  unfold rgb_to_gray. rewrite Ez. cbn [res_bind]. exists (Z.max 0 (Z.min z 23)). split; [done|]. lia.
Qed.

(** ** The color chosen *)

Section curses.
Context (K : Curses).

(** The loop over the colors of a small terminal keeps the nearest so far. *)
Definition best_of (c : rgb) (colors : list Z) (m : option Z * Z) : Prop :=
  match m.1 with
  | None => colors = [] ∧ m.2 = -1
  | Some d =>
      m.2 ∈ colors ∧ (∃ c', map3 scale_255 (color_content K m.2) = Ok c' ∧ d = dist c c') ∧
      ∀ j cj, j ∈ colors → map3 scale_255 (color_content K j) = Ok cj → d ≤ dist c cj
  end.

Lemma closer_best c colors m j :
  in3 1001 (color_content K j) → best_of c colors m →
  ∃ m', closer K c m j = Ok m' ∧ best_of c (colors ++ [j]) m'.
Proof.
  intros Hj Hm. destruct (map3_ok scale_255 1001 (λ _, True) (color_content K j)) as (c' & Ec & _);
    [intros x Hx; destruct (scale_255_ok x Hx) as [y ->]; eauto|done|].
  unfold closer. rewrite Ec. cbn [res_bind]. eexists. split; [reflexivity|].
  destruct m as [[d|] b]; cbn [fst snd] in *; unfold best_of in *; cbn [fst snd] in *.
  - destruct Hm as (Hb & (cb & Eb & ->) & Hall). destruct (Z.ltb_spec (dist c c') (dist c cb)) as [Hlt|Hge]; cbn [fst snd].
    + split; [set_solver|]. split; [by exists c'|]. intros k ck [Hk| ->%list_elem_of_singleton]%elem_of_app Ek.
      * specialize (Hall k ck Hk Ek). lia.
      * rewrite Ec in Ek. injection Ek as ->. lia.
    + split; [set_solver|]. split; [by exists cb|]. intros k ck [Hk| ->%list_elem_of_singleton]%elem_of_app Ek.
      * by apply (Hall k ck).
      * rewrite Ec in Ek. injection Ek as ->. lia.
  - destruct Hm as [-> _]. cbn [app fst snd]. split; [set_solver|]. split; [by exists c'|].
    intros k ck ->%list_elem_of_singleton Ek. rewrite Ec in Ek. injection Ek as ->. lia.
Qed.

Lemma closest_best c l colors m :
  (∀ j, j ∈ l → in3 1001 (color_content K j)) → best_of c colors m →
  ∃ m', res_fold (closer K c) m l = Ok m' ∧ best_of c (colors ++ l) m'.
Proof.
  revert colors m. induction l as [|j l IH]; intros colors m Hl Hm.
  - exists m. by rewrite app_nil_r.
  - destruct (closer_best c colors m j) as (m1 & E1 & H1); [apply Hl; set_solver|done|].
    destruct (IH (colors ++ [j]) m1) as (m2 & E2 & H2); [set_solver|done|].
    exists m2. cbn [res_fold]. rewrite E1. cbn [res_bind]. split; [done|]. by rewrite <- app_assoc in H2.
Qed.

(** A terminal with fewer than 256 colors: the nearest of its colors. *)
Lemma closest_color_spec c :
  (∀ j, 0 ≤ j < COLORS K → in3 1001 (color_content K j)) →
  ∃ i, closest_color K c = Ok i ∧ -1 ≤ i < Z.max 0 (COLORS K) ∧
    (0 < COLORS K → 0 ≤ i ∧ ∃ ci, map3 scale_255 (color_content K i) = Ok ci ∧
      ∀ j cj, 0 ≤ j < COLORS K → map3 scale_255 (color_content K j) = Ok cj → dist c ci ≤ dist c cj).
Proof.
  intros Hc. destruct (closest_best c (seqZ 0 (COLORS K)) [] (None, -1)) as ([d i] & E & Hm).
  - intros j Hj%elem_of_seqZ. apply Hc. lia.
  - done.
  - exists i. unfold closest_color. rewrite E. split; [done|]. cbn [app] in Hm. unfold best_of in Hm. cbn [fst snd] in Hm.
    destruct d as [d|].
    + destruct Hm as (Hi%elem_of_seqZ & (ci & Eci & ->) & Hall). split; [lia|]. intros _. split; [lia|].
      exists ci. split; [done|]. intros j cj Hj Ej. apply (Hall j cj); [|done]. apply elem_of_seqZ. lia.
    + destruct Hm as [Hn ->]. split; [lia|]. intros Hpos. apply (f_equal length) in Hn. rewrite length_seqZ in Hn.
      cbn in Hn. lia.
Qed.

(** A terminal with the fixed xterm palette: no color of the cube is nearer. *)
Lemma color_from_rgb_xterm c L :
  256 ≤ COLORS K → can_change_color K = false → in3 256 c →
  ∃ i, color_from_rgb K c L = Ok (i, L) ∧ 16 ≤ i < 256 ∧
    ∀ c6, in3 6 c6 → dist c (xterm_rgb i) ≤ dist c (cube_to_rgb c6).
Proof.
  intros HC HF Hc. destruct (rgb_to_6cube_nearest c Hc) as (c6 & E6 & H6 & N6).
  destruct (rgb_to_gray_ok c Hc) as (g & Eg & Hg). unfold color_from_rgb.
  replace (256 <=? COLORS K) with true by lia. rewrite HF.
  unfold mbind, ST_bind, st_lift. rewrite E6, Eg. cbn [res_bind fst snd].
  destruct c6 as [[r6 g6] b6]. destruct H6 as (Hr & Hg6 & Hb).
  destruct (xterm_cube r6 g6 b6 Hr Hg6 Hb) as [Ex Hx].
  destruct (Z.ltb_spec (dist c (cube_to_rgb (r6, g6, b6))) (dist c (gray_to_rgb g))) as [Hlt|Hge].
  - exists (16 + 36 * r6 + 6 * g6 + b6). split; [done|]. split; [lia|]. intros c6 Hc6. rewrite Ex. by apply N6.
  - exists (232 + g). split; [done|]. split; [lia|]. intros c6 Hc6. unfold xterm_rgb.
    replace (232 + g <? 232) with false by lia. replace (232 + g - 232) with g by lia.
    specialize (N6 c6 Hc6). lia.
Qed.

End curses.

(** ** The calls to the terminal *)

Definition pair_numbers (cs : list call) : list Z := omap (λ c, match c with InitPair n _ _ => Some n | _ => None end) cs.
Definition palette_indices (cs : list call) : list Z := omap (λ c, match c with InitColor i _ => Some i | _ => None end) cs.

Section styles.
(** [PAIRS] is the number of color pairs of the terminal (COLOR_PAIRS). *)
Context (K : Curses) (PAIRS : Z).

(** What the documentation of curses says of a terminal. *)
Record terminal : Prop := {
  term_colors : 0 ≤ COLORS K;
  term_content : ∀ j, 0 ≤ j < COLORS K → in3 1001 (color_content K j);
  term_color : ∀ i c, 0 ≤ i < COLORS K → in3 1001 c → init_color K i c = Ok tt;
  term_pair : ∀ n fg bg, 1 ≤ n < PAIRS → -1 ≤ fg < COLORS K → -1 ≤ bg < COLORS K → init_pair K n fg bg = Ok tt
}.

Definition call_in_range (c : call) : Prop :=
  match c with
  | UseDefaultColors => True
  | InitColor i c => 16 ≤ i < 256 ∧ i < COLORS K ∧ in3 1001 c
  | InitPair n fg bg => 1 ≤ n < PAIRS ∧ -1 ≤ fg < COLORS K ∧ -1 ≤ bg < COLORS K
  end.

(** Every call in range; palette entries 16, 17, ... and pairs 1, 2, ... each
    set up once; the tables say which. *)
Record look_wf (L : Look) : Prop := {
  wf_range : Forall call_in_range (calls L);
  wf_palette : palette_indices (calls L) = seqZ 16 (Z.of_nat (size (rgb2index L)));
  wf_pairs : pair_numbers (calls L) = seqZ 1 (Z.of_nat (size (color_attribs L)));
  wf_index : ∀ c i, rgb2index L !! c = Some i →
    ∃ c', map3 scale_1000 c = Ok c' ∧ InitColor i c' ∈ calls L;
  wf_attribs : ∀ fg bg a, color_attribs L !! (fg, bg) = Some a →
    ∃ n, a = color_pair K n ∧ InitPair n fg bg ∈ calls L
}.

(** From a state with [Pre], a computation returns, keeps this, keeps the
    styles there are, sets up at most [n] pairs, and leads to [Post]. *)
Definition safe {A} (Pre : Look → Prop) (n : nat) (c : ST Look A) (Post : A → Look → Prop) : Prop :=
  ∀ L, look_wf L → Pre L → Z.of_nat (size (color_attribs L) + n) < PAIRS →
  ∃ a L', c L = Ok (a, L') ∧ look_wf L' ∧ (size (color_attribs L') ≤ size (color_attribs L) + n)%nat ∧
    dom (style L) ⊆ dom (style L') ∧ Post a L'.

Lemma safe_bind {A B} Pre n1 n2 n (c : ST Look A) (f : A → ST Look B) Mid Post :
  safe Pre n1 c Mid → (∀ a, safe (Mid a) n2 (f a) Post) → n = (n1 + n2)%nat → safe Pre n (c ≫= f) Post.
Proof.
  intros Hc Hf -> L HL Hp HP. destruct (Hc L HL Hp ltac:(lia)) as (a & L1 & E1 & W1 & S1 & D1 & P1).
  destruct (Hf a L1 W1 P1 ltac:(lia)) as (b & L2 & E2 & W2 & S2 & D2 & Q2).
  exists b, L2. split; [by unfold mbind, ST_bind; rewrite E1|]. split; [done|]. split; [lia|].
  split; [set_solver|done].
Qed.

Lemma safe_conseq {A} (Pre Pre' : Look → Prop) n n' (c : ST Look A) (Post Post' : A → Look → Prop) :
  safe Pre n c Post → (∀ L, Pre' L → Pre L) → (n ≤ n')%nat → (∀ a L, Post a L → Post' a L) → safe Pre' n' c Post'.
Proof.
  intros Hc Hpre Hn Hpost L HL Hp HP. destruct (Hc L HL (Hpre L Hp) ltac:(lia)) as (a & L1 & E1 & W1 & S1 & D1 & P1).
  exists a, L1. split; [done|]. split; [done|]. split; [lia|]. split; [done|]. by apply Hpost.
Qed.

(** A fact about the state that no computation takes away. *)
Lemma safe_frame {A} Pre n (c : ST Look A) Post (ks : gset string) :
  safe Pre n c Post → safe (λ L, Pre L ∧ ks ⊆ dom (style L)) n c (λ a L, Post a L ∧ ks ⊆ dom (style L)).
Proof.
  intros Hc L HL [Hp Hk] HP. destruct (Hc L HL Hp HP) as (a & L1 & E1 & W1 & S1 & D1 & P1).
  exists a, L1. split; [done|]. split; [done|]. split; [lia|]. split; [done|]. split; [done|]. set_solver.
Qed.

Lemma safe_ret {A} (Pre : Look → Prop) n (a : A) (Post : A → Look → Prop) :
  (∀ L, Pre L → Post a L) → safe Pre n (mret a) Post.
Proof. intros HQ L HL Hp _. exists a, L. split; [done|]. split; [done|]. split; [lia|]. split; [done|]. by apply HQ. Qed.

Lemma safe_get {A} (f : Look → A) : safe (λ _, True) 0 (st_get f) (λ _ _, True).
Proof. intros L HL _ _. exists (f L), L. split; [done|]. split; [done|]. split; [lia|done]. Qed.

Lemma safe_lift {A} (r : res A) a : r = Ok a → safe (λ _, True) 0 (st_lift r) (λ b _, b = a).
Proof. intros -> L HL _ _. exists a, L. split; [done|]. split; [done|]. split; [lia|done]. Qed.

Lemma safe_warn s : safe (λ _, True) 0 (warn s) (λ _ _, True).
Proof.
  intros L [H1 H2 H3 H4 H5] _ _. eexists tt, _. split; [reflexivity|]. split; [by constructor|]. cbn. split; [lia|done].
Qed.

Lemma safe_style_key k a : safe (λ _, True) 0 (set_style_key k a) (λ _ L, {[ k ]} ⊆ dom (style L)).
Proof.
  intros L [H1 H2 H3 H4 H5] _ _. eexists tt, _. split; [reflexivity|]. split; [by constructor|]. cbn.
  rewrite dom_insert. split; [lia|]. split; set_solver.
Qed.

(** *** Colors *)

Lemma omap_snoc {A B} (f : A → option B) l x y : f x = Some y → omap f (l ++ [x]) = omap f l ++ [y].
Proof. intros E. rewrite omap_app. cbn. by rewrite E. Qed.
Lemma omap_snoc_none {A B} (f : A → option B) l x : f x = None → omap f (l ++ [x]) = omap f l.
Proof. intros E. rewrite omap_app. cbn. by rewrite E, app_nil_r. Qed.

Lemma seqZ_snoc m n : seqZ m (Z.of_nat (S n)) = seqZ m (Z.of_nat n) ++ [m + Z.of_nat n].
Proof.
  replace (Z.of_nat (S n)) with (Z.of_nat n + 1) by lia. rewrite seqZ_app by lia. f_equal.
Qed.

Lemma alloc_safe c : terminal → in3 256 c → 256 ≤ COLORS K →
  safe (λ _, True) 0 (alloc_rgb K c) (λ i _, 0 ≤ i < 256).
Proof.
  intros HT Hc HC L HL _ HP. pose proof HL as [H1 H2 H3 H4 H5].
  unfold alloc_rgb, mbind, ST_bind, st_get. cbn [res_bind fst snd].
  destruct (rgb2index L !! c) as [i|] eqn:E.
  { exists i, L. split; [done|]. split; [done|]. split; [lia|]. split; [done|].
    destruct (H4 c i E) as (c' & _ & Hin). rewrite Forall_forall in H1. apply H1 in Hin. cbn in Hin. lia. }
  destruct (Z.leb_spec 256 (16 + Z.of_nat (size (rgb2index L)))) as [|Hroom].
  { cbn. eexists 0, _. split; [reflexivity|]. split; [by constructor|]. cbn. split; [lia|]. split; [done|lia]. }
  destruct (map3_ok scale_1000 256 (λ y, 0 ≤ y < 1001) c) as (c' & Ec & Hc'); [|done|].
  { intros x Hx. destruct (scale_1000_range x Hx) as (y & Ey & Hy). exists y. split; [done|lia]. }
  assert (in3 1001 c') as Hc3 by (by destruct c' as [[? ?] ?]).
  set (i := 16 + Z.of_nat (size (rgb2index L))) in *.
  unfold st_lift. rewrite Ec. cbn [res_bind fst snd]. rewrite (term_color HT i c' ltac:(lia) Hc3). cbn.
  eexists i, _. split; [reflexivity|]. cbn. split; [|split; [lia|split; [done|lia]]].
  constructor; cbn [calls rgb2index color_attribs].
  - apply Forall_app. split; [done|]. constructor; [|done]. cbn. lia || (split; [lia|split; [lia|done]]).
  - unfold palette_indices in *. rewrite (omap_snoc _ _ _ i) by done. rewrite H2.
    rewrite map_size_insert_None by done. by rewrite seqZ_snoc.
  - unfold pair_numbers in *. by rewrite omap_snoc_none.
  - intros c1 i1. rewrite lookup_insert_Some. intros [[<- <-]|[_ E1]].
    + exists c'. split; [done|]. set_solver.
    + destruct (H4 c1 i1 E1) as (c2 & Ec2 & Hin). exists c2. split; [done|]. set_solver.
  - intros fg bg a Ea. destruct (H5 fg bg a Ea) as (n & -> & Hin). exists n. split; [done|]. set_solver.
Qed.

Lemma color_from_num_safe num : terminal → safe (λ _, True) 0 (color_from_num K num) (λ _ _, True).
Proof.
  intros HT. unfold color_from_num. destruct (_ || _ || _ || _) eqn:E; [by apply safe_ret|].
  eapply safe_conseq; [apply alloc_safe; [done|apply xterm_in3; lia|lia]|done|done|done].
Qed.

Lemma color_from_rgb_safe c : terminal → in3 256 c →
  safe (λ _, True) 0 (color_from_rgb K c) (λ i _, -1 ≤ i < COLORS K).
Proof.
  intros HT Hc. unfold color_from_rgb. destruct (Z.leb_spec 256 (COLORS K)) as [HC|HC].
  - destruct (can_change_color K) eqn:HF.
    + eapply safe_conseq; [by apply alloc_safe|done|done|]. intros i L Hi. cbn in Hi. lia.
    + intros L HL _ _. destruct (color_from_rgb_xterm K c L HC HF Hc) as (i & Ei & Hi & _).
      unfold color_from_rgb in Ei. replace (256 <=? COLORS K) with true in Ei by lia. rewrite HF in Ei.
      exists i, L. rewrite Ei. split; [done|]. split; [done|]. split; [lia|]. split; [done|lia].
  - destruct (closest_color_spec K c (term_content HT)) as (i & Ei & Hi & Hi').
    eapply safe_conseq; [by apply safe_lift|done|done|]. intros j L ->. pose proof (term_colors HT). lia.
Qed.

Lemma check_color_safe def num : terminal → safe (λ _, True) 0 (check_color K def num) (λ i _, -1 ≤ i < COLORS K).
Proof.
  intros HT. pose proof (term_colors HT). unfold check_color. destruct (_ && _) eqn:E.
  - apply safe_ret. intros. lia.
  - eapply safe_bind; [apply safe_warn| |done]. intros ?.
    apply safe_ret. intros. lia.
Qed.

Lemma digit_val_range d v : digit_val d = Some v → 0 ≤ v < 16.
Proof.
  unfold digit_val. set (n := Z.of_N _). intros H.
  repeat (case_match; [injection H as <-; lia|]). done.
Qed.

Lemma html_color_in3 s c : html_color s = Some c → in3 256 c.
Proof.
  unfold html_color. intros H. do 7 (destruct s as [|? s]; [done|]).
  destruct (Ascii.eqb _ _); [|done]. simplify_option_eq.
  repeat match goal with H : digit_val _ = Some _ |- _ => apply digit_val_range in H end. cbn. lia.
Qed.

Lemma parse_color_safe field : terminal →
  safe (λ _, True) 0 (parse_color K field) (λ i _, -1 ≤ i < COLORS K).
Proof.
  intros HT. pose proof (term_colors HT). unfold parse_color. set (def := (split_once _ _).2).
  assert (∀ num, safe (λ _, True) 0 (num ← color_from_num K num; check_color K def num) (λ i _, -1 ≤ i < COLORS K)) as Hn.
  { intros num. eapply safe_bind; [by apply color_from_num_safe|intros; by apply check_color_safe|done]. }
  destruct (html_color def) as [c|] eqn:E; [by apply color_from_rgb_safe, (html_color_in3 def)|].
  destruct (table NAMED_COLORS def) as [[b k]|]; [apply Hn|].
  destruct (int0 def) as [n|e]; [apply Hn|].
  eapply safe_bind; [apply safe_warn| |done]. intros ?.
  apply safe_ret. intros. lia.
Qed.

(** *** Styles *)

Definition colors_ok (st : Z * Z * Z) : Prop :=
  let '(fg, bg, _) := st in -1 ≤ fg < COLORS K ∧ -1 ≤ bg < COLORS K.

Lemma style_field_safe st field : terminal → colors_ok st →
  safe (λ _, True) 0 (style_field K st field) (λ st' _, colors_ok st').
Proof.
  intros HT. destruct st as [[fg bg] attrs]. intros [Hf Hb]. unfold style_field.
  assert (∀ st', colors_ok st' → safe (λ _, True) 0 (mret st') (λ st' _, colors_ok st')) as Hr.
  { intros st' Hs. by apply safe_ret. }
  destruct (startswith field "fg:").
  { eapply safe_bind; [by apply parse_color_safe| |done]. intros c.
    apply safe_ret. intros L Hc. by split. }
  destruct (startswith field "bg:").
  { eapply safe_bind; [by apply parse_color_safe| |done]. intros c.
    apply safe_ret. intros L Hc. by split. }
  do 3 (destruct (String.eqb _ _); [by apply Hr|]).
  eapply safe_bind; [apply safe_warn|intros ?; by apply Hr|done].
Qed.

Lemma style_fields_safe fields st : terminal → colors_ok st →
  safe (λ _, True) 0 (style_fields K st fields) (λ st' _, colors_ok st').
Proof.
  intros HT. revert st. induction fields as [|f fields IH]; intros st Hs.
  - by apply safe_ret.
  - cbn [style_fields]. eapply safe_bind; [by apply style_field_safe| |done].
    intros st' L HL Hs' HP. by apply (IH st').
Qed.

Lemma style_attr_safe fg bg attrs : terminal → -1 ≤ fg < COLORS K → -1 ≤ bg < COLORS K →
  safe (λ _, True) 1 (style_attr K fg bg attrs) (λ _ _, True).
Proof.
  intros HT Hf Hb. unfold style_attr. destruct (negb (has_colors K)).
  { by apply safe_ret. }
  intros L HL _ HP. pose proof HL as [H1 H2 H3 H4 H5].
  unfold mbind, ST_bind, st_get. cbn [res_bind fst snd].
  destruct (color_attribs L !! (fg, bg)) as [a|] eqn:E.
  { exists (Z.lor a attrs), L. split; [done|]. split; [done|]. split; [lia|done]. }
  set (n := Z.of_nat (size (color_attribs L)) + 1). unfold st_lift.
  rewrite (term_pair HT n fg bg ltac:(lia) Hf Hb). cbn.
  eexists _, _. split; [reflexivity|]. cbn. rewrite map_size_insert_None by done.
  split; [|split; [lia|done]]. constructor; cbn [calls rgb2index color_attribs].
  - apply Forall_app. split; [done|]. constructor; [|done]. cbn. split; [lia|done].
  - unfold palette_indices in *. by rewrite omap_snoc_none.
  - unfold pair_numbers in *. rewrite (omap_snoc _ _ _ n) by done. rewrite H3, map_size_insert_None by done.
    rewrite seqZ_snoc. do 2 f_equal. lia.
  - intros c i Ei. destruct (H4 c i Ei) as (c' & Ec & Hin). exists c'. split; [done|]. set_solver.
  - intros fg' bg' a. rewrite lookup_insert_Some. intros [[[= <- <-] <-]|[_ Ea]].
    + exists n. split; [done|]. set_solver.
    + destruct (H5 fg' bg' a Ea) as (m & -> & Hin). exists m. split; [done|]. set_solver.
Qed.

Lemma style_to_curses_safe def : terminal → safe (λ _, True) 1 (style_to_curses K def) (λ _ _, True).
Proof.
  intros HT. unfold style_to_curses.
  eapply (safe_bind _ 0 1 1 _ _ (λ st _, colors_ok st));
    [|intros [[fg bg] attrs] L HL [Hf Hb] HP; by apply (style_attr_safe fg bg attrs HT Hf Hb L HL I)|done].
  destruct (String.eqb def "").
  - apply safe_ret. intros L _. pose proof (term_colors HT). cbn. lia.
  - apply style_fields_safe; [done|]. pose proof (term_colors HT). cbn. lia.
Qed.

Lemma assign_style_safe d sline : terminal →
  safe (λ _, True) 1 (assign_style K d sline) (λ _ L, {[ (split_once "="%char sline).1 ]} ⊆ dom (style L)).
Proof.
  intros HT. unfold assign_style. destruct (split_once "="%char sline) as [key data]. cbn [fst].
  eapply (safe_bind _ 0 1); [apply safe_get| |done]. intros old.
  eapply (safe_bind _ 0 1); [|intros u|done].
  { destruct (_ && _); [apply safe_warn|]. by apply safe_ret. }
  eapply (safe_bind _ 0 1); [apply safe_get| |done]. intros [a|].
  - eapply safe_conseq; [apply safe_style_key|done|lia|done].
  - eapply (safe_bind _ 1 0); [by apply style_to_curses_safe| |done]. intros a. apply safe_style_key.
Qed.

(** The elements a style string assigns. *)
Definition word_keys (w : string) : gset string :=
  if has_char "="%char w then {[ (split_once "="%char w).1 ]} else ∅.
Definition style_keys (s : string) : gset string := ⋃ (word_keys <$> split_ws s).

Lemma for_safe (c : string → ST Look unit) (ks : string → gset string) m words :
  (∀ w, w ∈ words → safe (λ _, True) m (c w) (λ _ L, ks w ⊆ dom (style L))) →
  safe (λ _, True) (length words * m) (st_for words c) (λ _ L, ⋃ (ks <$> words) ⊆ dom (style L)).
Proof.
  induction words as [|w words IH]; intros Hc.
  - apply safe_ret. set_solver.
  - cbn [st_for]. eapply safe_bind; [apply Hc; set_solver| |cbn [length]; reflexivity]. intros u.
    eapply safe_conseq; [eapply (safe_frame _ _ _ _ (ks w)); apply IH; set_solver|done|done|].
    intros v L [H1 H2]. cbn. set_solver.
Qed.

Lemma parse_plain_safe n s d : terminal → forallb (has_char "="%char) (split_ws s) = true →
  safe (λ _, True) (length (split_ws s)) (parse_style K (S n) s d) (λ _ L, style_keys s ⊆ dom (style L)).
Proof.
  intros HT Hw. rewrite forallb_forall in Hw. cbn [parse_style].
  rewrite <- (Nat.mul_1_r (length _)). apply for_safe. intros w Hin.
  pose proof (Hw w ltac:(by apply list_elem_of_In)) as E. unfold word_keys. rewrite E. by apply assign_style_safe.
Qed.

(** A style template has at most 13 words, none of them a template. *)
Lemma templates_plain name s : table STYLES name = Some s →
  forallb (has_char "="%char) (split_ws s) = true ∧ (length (split_ws s) ≤ 13)%nat.
Proof.
  assert (Forall (λ e : string * string, forallb (has_char "="%char) (split_ws e.2) = true ∧
    (length (split_ws e.2) ≤ 13)%nat) STYLES) as HS by (repeat constructor).
  unfold table. intros H. destruct (list_find _ _) as [[i e]|] eqn:E; [|done]. cbn in H. injection H as <-.
  apply list_find_Some in E as (E & _). rewrite Forall_lookup in HS. exact (HS i e E).
Qed.

Lemma parse_style_safe n s d : terminal →
  safe (λ _, True) (13 * length (split_ws s)) (parse_style K (S (S n)) s d) (λ _ L, style_keys s ⊆ dom (style L)).
Proof.
  intros HT. cbn [parse_style]. rewrite Nat.mul_comm. apply for_safe. intros w _. unfold word_keys.
  destruct (has_char "="%char w).
  { eapply safe_conseq; [by apply assign_style_safe|done|lia|done]. }
  destruct (table STYLES w) as [t|] eqn:E.
  - destruct (templates_plain w t E) as [Hp Hl].
    eapply safe_conseq; [by apply (parse_plain_safe n t d HT)|done|done|set_solver].
  - eapply safe_conseq; [apply safe_warn|done|lia|set_solver].
Qed.

End styles.

(** The elements the drawing functions look up. *)
Definition drawn_styles : list string :=
  ["path"; "separator"; "list"; "selection"; "inv-list"; "inv-selection"; "help"; "show-help";
   "frame"; "body"; "edit"; "jump-edit"; "text"].

Definition user_words (user : option string) : nat := match user with Some s => length (split_ws s) | None => 0 end.

(** Some words of the default style. *)
Lemma default_keys name s : name = "default" ∨ name = "monochrome" → table STYLES name = Some s →
  list_to_set drawn_styles ⊆ style_keys s.
Proof. intros [-> | ->] [= <-]; apply (bool_decide_unpack _); by vm_compute. Qed.

Lemma look0_wf K PAIRS : look_wf K PAIRS look0.
Proof. by constructor. Qed.

Lemma init_styles_safe K PAIRS n user : terminal K PAIRS →
  safe K PAIRS (λ _, True) (13 * S (user_words user)) (init_styles K (S (S n)) user)
    (λ _ L, list_to_set drawn_styles ⊆ dom (style L)).
Proof.
  intros HT. unfold init_styles.
  assert (∀ name, name = "default" ∨ name = "monochrome" →
    safe K PAIRS (λ _, True) 13 (parse_style K (S (S n)) name true) (λ _ L, list_to_set drawn_styles ⊆ dom (style L))) as Hd.
  { intros name Hn. assert (split_ws name = [name]) as E by (by destruct Hn as [-> | ->]).
    assert (has_char "="%char name = false) as E' by (by destruct Hn as [-> | ->]).
    assert (is_Some (table STYLES name)) as [t Et] by (by destruct Hn as [-> | ->]; eexists).
    destruct (templates_plain name t Et) as [Hp Hl]. cbn [parse_style]. rewrite E. cbn [st_for]. rewrite E', Et.
    eapply (safe_bind K PAIRS _ 13 0); [|intros ?; apply safe_ret; intros L HL; exact HL|done].
    eapply safe_conseq; [by apply parse_plain_safe|done|done|].
    intros u L Hk. cbn in Hk. etransitivity; [exact (default_keys name t Hn Et)|exact Hk]. }
  destruct (has_colors K); [|eapply safe_conseq; [by apply Hd; right|done|lia|done]].
  eapply (safe_bind _ _ _ 0 (13 + 13 * user_words user) _ _ _ (λ _ _, True)); [| |lia].
  { intros L [H1 H2 H3 H4 H5] _ _. eexists tt, _. split; [reflexivity|]. split; [|cbn; split; [lia|done]].
    constructor; cbn [calls rgb2index color_attribs].
    - apply Forall_app. split; [done|]. by constructor.
    - unfold palette_indices in *. by rewrite omap_snoc_none.
    - unfold pair_numbers in *. by rewrite omap_snoc_none.
    - intros c i Ei. destruct (H4 c i Ei) as (c' & ? & ?). exists c'. set_solver.
    - intros fg bg a Ea. destruct (H5 fg bg a Ea) as (m & ? & ?). exists m. set_solver. }
  intros ?. eapply (safe_bind _ _ _ 13 (13 * user_words user)); [by apply Hd; left| |reflexivity]. intros ?.
  destruct user as [s|]; cbn [user_words].
  - eapply safe_conseq; [eapply (safe_frame _ _ _ _ _ _ (list_to_set drawn_styles)); apply parse_style_safe, HT|done|done|].
    intros u L [_ H]. exact H.
  - by apply safe_ret.
Qed.

(** ** What the interface relies on *)

(** C38.  However many of its words the user's style gets wrong, initialising
    the styles returns on a terminal with enough color pairs: every element
    the drawing functions look up has a style, every call to the terminal is
    in its range (palette entries 16 to 255, components up to 1000, colors the
    terminal has), and no palette entry or pair is set up twice. *)
Theorem styles_ready K PAIRS n user :
  terminal K PAIRS → Z.of_nat (13 * S (user_words user)) < PAIRS →
  ∃ L, init_styles K (S (S n)) user look0 = Ok (tt, L) ∧
    (∀ name, name ∈ drawn_styles → ∃ a, style_of name L = Ok (a, L)) ∧
    Forall (call_in_range K PAIRS) (calls L) ∧
    NoDup (palette_indices (calls L)) ∧ NoDup (pair_numbers (calls L)).
Proof.
  intros HT HP. destruct (init_styles_safe K PAIRS n user HT look0 (look0_wf K PAIRS) I HP)
    as ([] & L & E & [H1 H2 H3 _ _] & _ & _ & HL).
  exists L. split; [done|]. split; [|rewrite H2, H3; split; [done|split; apply NoDup_seqZ]].
  intros name Hn. unfold style_of.
  assert (name ∈ dom (style L)) as [a Ha]%elem_of_dom by (apply HL; by apply elem_of_list_to_set).
  exists a. by rewrite Ha.
Qed.

(** A terminal with the eight basic colors, and one with the xterm palette. *)
Definition basic_terminal (colors : Z) : Curses :=
  mkCurses true false colors
    (λ b, match b with BLACK => 0 | RED => 1 | GREEN => 2 | YELLOW => 3 | BLUE => 4 | MAGENTA => 5 | CYAN => 6 | WHITE => 7 end)
    (λ i, (680 * Z.b2z (Z.testbit i 0), 680 * Z.b2z (Z.testbit i 1), 680 * Z.b2z (Z.testbit i 2)))
    (λ _ _, Ok tt) (λ _ _ _, Ok tt) (λ n, 256 * n) 0 (2 ^ 21) (2 ^ 16) (2 ^ 17) false.

Lemma basic_terminal_ok colors PAIRS : 0 ≤ colors → terminal (basic_terminal colors) PAIRS.
Proof.
  intros Hc. split; [done| |done..]. intros j _. cbn [basic_terminal color_content in3].
  destruct (Z.testbit j 0), (Z.testbit j 1), (Z.testbit j 2); cbn; lia.
Qed.

Lemma styles_ready_witness : terminal (basic_terminal 8) 64 ∧
  ∃ L, init_styles (basic_terminal 8) 2 (Some "aquatic path=fg:#1080ff,bold nonsense") look0 = Ok (tt, L) ∧
    (∀ name, name ∈ drawn_styles → ∃ a, style_of name L = Ok (a, L)) ∧
    Forall (call_in_range (basic_terminal 8) 64) (calls L) ∧
    NoDup (palette_indices (calls L)) ∧ NoDup (pair_numbers (calls L)).
Proof.
  split; [apply (basic_terminal_ok 8 64); lia|].
  apply (styles_ready (basic_terminal 8) 64 0 (Some "aquatic path=fg:#1080ff,bold nonsense"));
    [apply (basic_terminal_ok 8 64); lia|vm_compute; reflexivity].
Defined.

(** C39.  A color given by its components is shown as the nearest color a
    terminal with a fixed palette has: of the xterm palette, none of the cube
    is nearer than the one chosen; of a smaller palette, none at all. *)
Theorem color_from_rgb_nearest K PAIRS c L :
  terminal K PAIRS → in3 256 c → 0 < COLORS K → (256 ≤ COLORS K → can_change_color K = false) →
  ∃ i, color_from_rgb K c L = Ok (i, L) ∧ 0 ≤ i < COLORS K ∧
    (256 ≤ COLORS K → 16 ≤ i ∧ ∀ c6, in3 6 c6 → dist c (xterm_rgb i) ≤ dist c (cube_to_rgb c6)) ∧
    (COLORS K < 256 → ∃ ci, map3 scale_255 (color_content K i) = Ok ci ∧
      ∀ j cj, 0 ≤ j < COLORS K → map3 scale_255 (color_content K j) = Ok cj → dist c ci ≤ dist c cj).
Proof.
  intros HT Hc Hpos HF. destruct (Z_le_gt_dec 256 (COLORS K)) as [HC|HC].
  - destruct (color_from_rgb_xterm K c L HC (HF HC) Hc) as (i & E & Hi & Hn).
    exists i. split; [done|]. split; [lia|]. split; [by split; [lia|]|lia].
  - destruct (closest_color_spec K c (term_content K PAIRS HT)) as (i & E & Hi & Hn).
    destruct (Hn Hpos) as [H0 Hb]. exists i. unfold color_from_rgb. replace (256 <=? COLORS K) with false by lia.
    unfold st_lift. rewrite E. split; [done|]. split; [lia|]. split; [lia|done].
Qed.

Lemma color_from_rgb_nearest_witness : in3 256 (200, 16, 30) ∧
  ∃ i, color_from_rgb (basic_terminal 8) (200, 16, 30) look0 = Ok (i, look0) ∧ 0 ≤ i < 8 ∧
    (256 ≤ 8 → 16 ≤ i ∧ ∀ c6, in3 6 c6 → dist (200, 16, 30) (xterm_rgb i) ≤ dist (200, 16, 30) (cube_to_rgb c6)) ∧
    (8 < 256 → ∃ ci, map3 scale_255 (color_content (basic_terminal 8) i) = Ok ci ∧
      ∀ j cj, 0 ≤ j < 8 → map3 scale_255 (color_content (basic_terminal 8) j) = Ok cj →
      dist (200, 16, 30) ci ≤ dist (200, 16, 30) cj).
Proof.
  split; [cbn; lia|].
  apply (color_from_rgb_nearest (basic_terminal 8) 64 (200, 16, 30) look0);
    [apply basic_terminal_ok; lia|cbn; lia|cbn; lia|cbn; lia].
Defined.

End MColorSpec.
