(* ===== verification/MDrawSpec.v ===== *)
(** * What is on the screen

    The windows of each display share out the rows of the screen, and the
    main display shows the part of the menu around the selected entry. *)
From S2P Require Import Prelude Hex PyStr KExpr KLex KSym KConf KFinal KPrint KLinks KInit KInitSpec Files KTools.
From S2P Require Import MNode MState MInfo MEdit MMain MColor MDraw MNodeSpec MShownSpec MStateSpec MEditSpec MSpec MColorSpec.

Module MDrawSpec.
Import Hex PyStr KExpr KSym KFinal KPrint KInit KTools MNode MState MEdit MDraw MNodeSpec MShownSpec MStateSpec.

(** ** Windows *)

Definition in_box (y : nat) (b : box) : Prop := b_y b ≤ y < b_y b + b_h b.

(** [ws] share out the rows of a screen of [sh] rows, over its whole width. *)
Definition tiles (boxes : win → box) (ws : list win) (sh sw : nat) : Prop :=
  (∀ w, w ∈ ws → b_x (boxes w) = 0 ∧ b_w (boxes w) = sw ∧ 1 ≤ b_h (boxes w)) ∧
  ∀ y, y < sh → ∃ w, w ∈ ws ∧ in_box y (boxes w) ∧ ∀ w', w' ∈ ws → in_box y (boxes w') → w' = w.

Definition stacked (boxes : win → box) (sw : nat) : nat → list win → nat → Prop :=
  fix go y ws y' :=
    match ws with
    | [] => y = y'
    | w :: ws => b_y (boxes w) = y ∧ b_x (boxes w) = 0 ∧ b_w (boxes w) = sw ∧ 1 ≤ b_h (boxes w) ∧
                 go (y + b_h (boxes w)) ws y'
    end.

Lemma stacked_in boxes sw ws : ∀ y y' w, stacked boxes sw y ws y' → w ∈ ws →
  b_x (boxes w) = 0 ∧ b_w (boxes w) = sw ∧ 1 ≤ b_h (boxes w) ∧ y ≤ b_y (boxes w).
Proof.
  induction ws as [|w' ws IH]; intros y y' w H Hw; [by apply not_elem_of_nil in Hw|].
  destruct H as (H1 & H2 & H3 & H4 & H). apply elem_of_cons in Hw as [->|Hw]; [repeat split; lia|].
  destruct (IH _ _ _ H Hw) as (? & ? & ? & ?). repeat split; lia.
Qed.

Lemma stacked_tiles boxes sw ws : ∀ y0 y', stacked boxes sw y0 ws y' → ∀ y, y0 ≤ y < y' →
  ∃ w, w ∈ ws ∧ in_box y (boxes w) ∧ ∀ w', w' ∈ ws → in_box y (boxes w') → w' = w.
Proof.
  induction ws as [|w ws IH]; intros y0 y' H y Hy; cbn in H; [lia|].
  destruct H as (H1 & H2 & H3 & H4 & H). unfold in_box.
  destruct (decide (y < y0 + b_h (boxes w))) as [Hlt|Hge].
  - exists w. split; [by left|]. split; [lia|]. intros w' Hw' Hin. apply elem_of_cons in Hw' as [->|Hw']; [done|].
    destruct (stacked_in _ _ _ _ _ _ H Hw') as (_ & _ & _ & ?). lia.
  - destruct (IH _ _ H y ltac:(lia)) as (v & Hv & Hin & Hu). exists v. split; [by right|]. split; [done|].
    intros w' Hw' Hin'. apply elem_of_cons in Hw' as [->|Hw']; [lia|by apply Hu].
Qed.

Lemma stacked_all boxes ws sh sw : stacked boxes sw 0 ws sh → tiles boxes ws sh sw.
Proof.
  intros H. split.
  - intros w Hw. destruct (stacked_in _ _ _ _ _ _ H Hw) as (? & ? & ? & _). done.
  - intros y Hy. by apply (stacked_tiles _ _ _ _ _ H); lia.
Qed.

(** On a screen that is high enough the windows of the main display, of the
    information dialog and of the jump-to dialog share out its rows. *)
Lemma main_tiles help sh sw : 12 ≤ sh →
  tiles (main_boxes help (sh, sw)) [PathWin; TopSepWin; MenuWin; BotSepWin; HelpWin] sh sw.
Proof.
  intros H. apply stacked_all. unfold main_boxes. case Nat.leb_spec; destruct help; unfold SHOW_HELP_HEIGHT; cbn; lia.
Qed.
Lemma info_tiles sh sw : 4 ≤ sh → tiles (info_boxes (sh, sw)) [TopSepWin; TextWin; BotSepWin; HelpWin] sh sw.
Proof. intros H. apply stacked_all. unfold info_boxes. case Nat.leb_spec; cbn; lia. Qed.
Lemma jump_tiles sh sw : 10 ≤ sh → tiles (jump_boxes (sh, sw)) [EditBox; MatchesWin; BotSepWin; HelpWin] sh sw.
Proof. intros H. apply stacked_all. unfold jump_boxes. case Nat.leb_spec; cbn; lia. Qed.

(** The heights the state keeps are those of the windows. *)
Lemma menu_height u : u_height (resize_main u) = b_h (main_boxes (u_help u) (u_screen u) MenuWin).
Proof.
  unfold resize_main, main_boxes. destruct (u_screen u) as [sh sw]. cbn [fst u_height with_window].
  destruct (Nat.leb_spec ((if u_help u then SHOW_HELP_HEIGHT else length MAIN_HELP_LINES) + 3 + 1) sh);
    destruct (u_help u); unfold SHOW_HELP_HEIGHT, MAIN_HELP_HEIGHT in *; cbn in *; lia.
Qed.
Lemma match_height u : MMain.matches_height u = b_h (jump_boxes (u_screen u) MatchesWin).
Proof.
  unfold MMain.matches_height, jump_boxes, MMain.JUMP_TO_HELP_HEIGHT. destruct (u_screen u) as [sh sw]. cbn [fst].
  destruct (Nat.leb_spec (length JUMP_TO_HELP_LINES + 4 + 1) sh); cbn in *; lia.
Qed.

(** ** Calls *)

Definition win_of (c : draw) : win :=
  match c with
  | Erase w | AddStr w _ _ _ _ _ | AddHere w _ | AddCh w _ | HLine w _ _ _ _ _ | VLine w _ _ _ _
  | AttrOn w _ | AttrOff w _ | Move w _ _ | Refresh w => w
  end.

(** The calls on one window. *)
Definition on (w : win) (l : list draw) : list draw := filter (λ c, win_of c = w) l.

Lemma on_app w l l' : on w (l ++ l') = on w l ++ on w l'.
Proof. apply filter_app. Qed.
Lemma on_all w l : Forall (λ c, win_of c = w) l → on w l = l.
Proof. induction 1 as [|c l Hc _ IH]; [done|]. unfold on in *. by rewrite filter_cons_True, IH. Qed.
Lemma on_none w w' l : Forall (λ c, win_of c = w') l → w ≠ w' → on w l = [].
Proof.
  intros H Hw. induction H as [|c l Hc _ IH]; [done|]. unfold on in *. rewrite filter_cons_False; [done|congruence].
Qed.

Lemma on_in c l : c ∈ l ↔ c ∈ on (win_of c) l.
Proof. unfold on. rewrite list_elem_of_filter. tauto. Qed.

Lemma res_map_total {A B} (f : A → res B) (P : A → B → Prop) l :
  (∀ x, x ∈ l → ∃ y, f x = Ok y ∧ P x y) → ∃ ys, res_map f l = Ok ys ∧ Forall2 P l ys.
Proof.
  induction l as [|x l IH]; intros H; [by exists []|].
  destruct (H x) as (y & Ey & Hy); [by left|]. destruct IH as (ys & Eys & Hys); [intros z Hz; apply H; by right|].
  exists (y :: ys). cbn. rewrite Ey, Eys. split; [done|by constructor].
Qed.

Section main.
Context (top : tnode) (vals : Conf → Vals) (style : gmap string Z) (width : nat) (wrap : string → nat → list string).

Lemma add_lines_on w l : ∀ y x, Forall (λ c, win_of c = w) (add_lines width w y x l).
Proof. induction l; intros y x; cbn; by constructor. Qed.

(** What is drawn has a text: the title, the entries shown and the menus
    around them, which have a prompt or are choices or symbols. *)
Record drawable (u : Ui) : Prop := {
  dr_title : is_Some (m_prompt (data top));
  dr_shown : ∀ p, p ∈ u_shown u → ∃ d b s, node top p = Ok d ∧ visible (uconf u) (uvals vals u) d = Ok b ∧
    node_str top (uconf u) (uvals vals u) (u_all u) (u_name u) p = Ok s;
  dr_path : ∀ q i r, u_cur u = q ++ i :: r → ∃ d, node top (i :: r) = Ok d ∧
    (is_Some (m_prompt d) ∨ is_Some (as_item (m_item d)))
}.
Definition styled : Prop := ∀ name, name ∈ MColorSpec.drawn_styles → is_Some (style !! name).

(** The entry with index [i], on its row. *)
Definition entry_drawn (u : Ui) (i : nat) (c : draw) : Prop := ∃ p s name a,
  u_shown u !! i = Some p ∧ node_str top (uconf u) (uvals vals u) (u_all u) (u_name u) p = Ok s ∧
  style !! name = Some a ∧ (name = "selection" ∨ name = "inv-selection" ↔ i = u_sel u) ∧
  c = AddStr MenuWin (i - u_scroll u) 0 (expand_tabs 0 s) (Z.of_nat width) (Some (name, a)).

Lemma draw_entry_spec u i : styled → drawable u → i < length (u_shown u) →
  ∃ c, draw_entry style width top vals u i = Ok c ∧ entry_drawn u i c.
Proof.
  intros HS HD Hi. apply lookup_lt_is_Some in Hi as [p Hp].
  destruct (dr_shown u HD p) as (d & b & s & Ed & Eb & Es); [by eapply list_elem_of_lookup_2|].
  unfold draw_entry, index. rewrite Hp. cbn [res_bind]. rewrite Ed. cbn [res_bind]. rewrite Eb. cbn [res_bind].
  set (name := if b || _ then _ else _).
  assert (∃ a, style !! name = Some a) as [a Ha].
  { apply HS. unfold name. apply (list_elem_of_In _ _). cbn. destruct (b || _), (Nat.eqb _ _); tauto. }
  unfold get_style. rewrite Ha. cbn [res_bind]. rewrite Es. cbn [res_bind]. eexists. split; [reflexivity|].
  exists p, s, name, a. repeat (split; [done|]). split; [|unfold safe_addstr; do 2 f_equal; lia].
  unfold name. destruct (Nat.eqb_spec i (u_sel u)), (b || _); split; intros; try done; tauto || (destruct H; done).
Qed.

Lemma help_text_total u h : on_screen u → drawable u →
  ∃ l, help_text width top wrap u h = Ok l ∧ Forall (λ c, win_of c = HelpWin) l.
Proof.
  intros [Hs _ _] HD. unfold help_text. destruct (u_help u); [|eexists; split; [done|apply add_lines_on]].
  apply lookup_lt_is_Some in Hs as [p Hp]. unfold sel_node, index. rewrite Hp. cbn [res_bind].
  destruct (dr_shown u HD p) as (d & _ & _ & Ed & _); [by eapply list_elem_of_lookup_2|]. rewrite Ed. cbn [res_bind].
  assert (∃ l, Ok [safe_addstr width HelpWin 0 0 "(no help)" None] = Ok l ∧ Forall (λ c, win_of c = HelpWin) l) as Hno.
  { eexists. split; [done|]. by constructor. }
  destruct (m_item d), (node_help d) as [t|]; try done;
    (destruct (String.eqb t ""); [done|eexists; split; [done|apply add_lines_on]]).
Qed.

Lemma menu_prompts_total p : (∀ q i r, p = q ++ i :: r → ∃ d, node top (i :: r) = Ok d ∧
    (is_Some (m_prompt d) ∨ is_Some (as_item (m_item d)))) →
  ∃ l, menu_prompts top p = Ok l ∧ length l = S (length p).
Proof.
  induction p as [|i p IH]; intros H; cbn [menu_prompts]; [by eexists|].
  destruct (H [] i p eq_refl) as (d & Ed & Hd). rewrite Ed. cbn [res_bind].
  destruct IH as (l & -> & Hl); [intros q j r ->; by apply (H (i :: q))|]. cbn [res_bind].
  assert (∃ t, match m_prompt d with
               | Some (t, _) => Ok t
               | None => match as_item (m_item d) with Some i => Ok (standard_sc_expr_str i) | None => Err AttributeError end
               end = Ok t) as [t ->].
  { destruct (m_prompt d) as [[t c]|], (as_item (m_item d)) as [it|]; eauto. destruct Hd as [Hd|Hd]; by destruct Hd. }
  exists (l ++ [t]). split; [done|]. rewrite length_app, Hl. cbn. lia.
Qed.

Lemma draw_path_total u : drawable u →
  ∃ l, draw_path width top (u_cur u) = Ok l ∧ Forall (λ c, win_of c = PathWin) l.
Proof.
  intros HD. unfold draw_path. destruct (menu_prompts_total (u_cur u) (dr_path u HD)) as (l & -> & _). cbn [res_bind].
  eexists. split; [done|]. constructor; [done|]. apply Forall_app. split; [|by constructor].
  destruct (split_char _ _) as [|s ss]; [done|]. constructor; [done|].
  induction ss; cbn; repeat constructor. done.
Qed.

(** The entries that fit in the window. *)
Definition window (u : Ui) : list nat :=
  seq (u_scroll u) (Nat.min (u_height u) (length (u_shown u) - u_scroll u)).

Definition arrows (w : win) (g : glyph) : draw := HLine w 0 4 g 14 None.

(** C14.  When the selected entry exists and is inside the window, and styles
    and texts are there, the main display is drawn without an error: the menu
    window is cleared and shows the entries from the first one in the window
    on, one to a row from the top, as many as there are and fit, each with its
    text; the selected entry is one of them, and alone has the style of a
    selection; arrows point up or down exactly when there are entries above
    or below. *)
Theorem draw_main_shows u : styled → drawable u → on_screen u →
  ∃ l es, draw_main style width top vals wrap u = Ok l ∧
    on MenuWin l = Erase MenuWin :: es ++ [Refresh MenuWin] ∧ Forall2 (entry_drawn u) (window u) es ∧
    u_sel u ∈ window u ∧
    (arrows TopSepWin UARROW ∈ l ↔ 0 < u_scroll u) ∧
    (arrows BotSepWin DARROW ∈ l ↔ u_scroll u + u_height u < length (u_shown u)).
Proof.
  intros HS HD HO. unfold draw_main, mainmenu_text.
  destruct (dr_title u HD) as [[title c] ->]. cbn [res_bind].
  assert (Nat.min (u_scroll u + u_height u) (length (u_shown u)) - u_scroll u =
    Nat.min (u_height u) (length (u_shown u) - u_scroll u)) as -> by lia. fold (window u).
  destruct (res_map_total (draw_entry style width top vals u) (entry_drawn u) (window u)) as (es & -> & Hes).
  { intros i Hi. unfold window in Hi. rewrite elem_of_seq in Hi. apply draw_entry_spec; [done..|lia]. }
  cbn [res_bind]. destruct (help_text_total u (b_h (main_boxes (u_help u) (u_screen u) HelpWin)) HO HD) as (hl & -> & Hh).
  cbn [res_bind]. destruct (draw_path_total u HD) as (pl & -> & Hp). cbn [res_bind].
  assert (Forall (λ c, win_of c = MenuWin) es) as He.
  { clear -Hes. induction Hes as [|i c' js es (p & s & n & a & _ & _ & _ & _ & ->)]; by constructor. }
  eexists _, es. split; [reflexivity|].
  rewrite (on_in (arrows TopSepWin _)), (on_in (arrows BotSepWin _)). cbn [win_of arrows].
  rewrite !on_app, (on_all MenuWin es), !(on_none _ HelpWin hl), !(on_none _ PathWin pl), !(on_none _ MenuWin es) by done.
  unfold max_scroll, arrows, scroll_arrow, N_SCROLL_ARROWS.
  split; [by destruct (Nat.ltb _ _), (Nat.ltb _ _), (String.eqb _ _)|]. split; [done|].
  split; [unfold window; rewrite elem_of_seq; destruct HO; lia|].
  split; (do 2 case Nat.ltb_spec; intros ??; destruct (String.eqb _ _); unfold on; cbn;
    rewrite ?decide_False, ?decide_True, ?app_nil_r by done; cbn; rewrite ?elem_of_cons, elem_of_nil; intuition (try done; try lia)).
Qed.
End main.

(** The start display of a small configuration. *)
Definition plain_style : gmap string Z := list_to_map ((λ n, (n, 0%Z)) <$> MColorSpec.drawn_styles).
Definition drawable_check (top : tnode) (u : Ui) : bool :=
  (match m_prompt (data top) with Some _ => true | None => false end) &&
  bool_decide (u_cur u = []) &&
  forallb (λ p, match node top p with
                | Ok d => is_ok (visible (uconf u) (uvals MSpec.demo_vals u) d)
                | Err _ => false
                end && is_ok (node_str top (uconf u) (uvals MSpec.demo_vals u) (u_all u) (u_name u) p)) (u_shown u).

Lemma drawable_by_check top u : drawable_check top u = true → drawable top MSpec.demo_vals u.
Proof.
  intros [[H1 H2]%andb_prop H3]%andb_prop. apply bool_decide_eq_true in H2. split.
  - destruct (m_prompt _); [by eexists|done].
  - intros p Hp. rewrite forallb_forall in H3. specialize (H3 p (proj1 (list_elem_of_In _ _) Hp)).
    apply andb_prop in H3 as [Hv Hs]. destruct (node top p) as [d|]; [|done].
    destruct (visible _ _ d) as [b|] eqn:Eb; [|done]. destruct (node_str _ _ _ _ _ p) as [s|] eqn:Es; [|done].
    by exists d, b, s.
  - intros q i r E. rewrite H2 in E. by destruct q.
Qed.

Lemma draw_main_shows_witness :
  MSpec.session MSpec.demo_text (λ kc u, ∃ l es,
    draw_main plain_style 80 (kc_top kc) MSpec.demo_vals (λ s _, [s]) u = Ok l ∧
    on MenuWin l = Erase MenuWin :: es ++ [Refresh MenuWin] ∧
    Forall2 (entry_drawn (kc_top kc) MSpec.demo_vals plain_style 80 u) (window u) es ∧ u_sel u ∈ window u).
Proof.
  apply (MSpec.session_mono _ (λ kc u, drawable_check (kc_top kc) u = true)); [vm_compute; reflexivity|].
  intros kc u _ Hu Hd. apply MSpec.start_state in Hu as [Hu _].
  assert (styled plain_style) as Hst.
  { intros name Hn. apply elem_of_dom. revert name Hn. apply Forall_forall. apply (bool_decide_unpack _). vm_compute. exact I. }
  destruct (draw_main_shows (kc_top kc) MSpec.demo_vals plain_style 80 (λ s _, [s]) u Hst
    (drawable_by_check _ _ Hd) Hu) as (l & es & H1 & H2 & H3 & H4 & _).
  exact (ex_intro _ l (ex_intro _ es (conj H1 (conj H2 (conj H3 H4))))).
Defined.
End MDrawSpec.
